(* ===== verification/_CoqProject ===== *)
-Q . S2P
Prelude.v
JsString.v
Json.v
Sql.v
Outbox.v
Leases.v
Continuation.v
SessionState.v
WorkSessions.v
ActionGuard.v
ScheduledLifecycle.v
Files.v
ApplyPatch.v
PatchFormat.v
PatchStaging.v
PatchConfinement.v
PatchApplied.v
Paging.v
Policy.v
Grants.v
Approvals.v
PolicyEngine.v
Enforcement.v
EnforcementFacts.v
Admission.v
AdmissionFacts.v
AdmissionConfig.v
Deadline.v
CanonicalJson.v
Receipts.v
ReceiptFacts.v
ReviewerJobs.v
ReviewerJobFacts.v
ReviewerLeases.v
ReviewerDecisions.v
Regex.v
Redaction.v
RedactionFacts.v
ScheduledJobs.v
ScheduledPublications.v
ScheduledLaunches.v
ScheduledJobFacts.v
ScheduledMoves.v
ScheduledDispatch.v
ScheduledRecords.v
ScheduledCompletion.v
ScheduledRuntime.v
ScheduledRuntimeFacts.v
ScheduledSystem.v
ScheduledPromises.v
ScheduledScenarios.v
ProcessOutput.v
MissionEvidence.v
MissionOutcome.v
MissionLedger.v
MissionApproval.v
MissionCriteria.v
MissionFacts.v
MissionInvariant.v
MissionProperties.v
PeerContracts.v
PeerReceipts.v
PeerReceiptFacts.v
PeerJobs.v
PeerJobSystem.v
PeerJobMemory.v
PeerJobInvariant.v
PeerJobSafety.v
PeerJobClaims.v
PeerJobRestart.v
PeerJobProperties.v
