(* ===== verification/Prelude.v ===== *)
(** * Kontrol: a verification library of its control plane

    Kontrol (TypeScript, [src/src]) lets language-model agents work in checkouts under the control
    of a reviewer.  Workers run under leases; what they submit is reviewed; feedback goes back to
    them as continuations through a durable dispatch outbox; every tool call is authorized by the
    state of its work session and by an approval policy; and patches are applied to the workspace
    under confinement.  A mission says what the work must meet before it may be approved.  Work may
    also be handed to peers, which claim jobs and report on them.  In front of the tools, a bounded
    admission lets requests in and receipts make the retry of a mutation harmless.  The stores keep
    their state in SQLite.  This library models that core and proves what makes it correct.

    ** How the code is modelled

    - A store is a record, a table the list of its rows; a function is a definition from the state
      and its arguments to the new state and its result, with every guard in the source's order.
      [Sql] gives the statements (select, update with its number of changes, order by, limit).
    - A function that may throw returns [res E A], a monad; a transaction that throws leaves the
      state as it was, and other code keeps what it changed before throwing.
    - A function that awaits is split at the wait where other code may change what it goes on with:
      the enforcer at its wait for a decision ([enforce], [wake]), receipts around the execution,
      the scheduler around its hooks.  The recovery passes of the reviewer jobs are run back to
      back, without what may come between them.
    - Clock readings, random ids and fencing tokens are arguments: one argument per reading where
      the code reads the clock again.  A time is its milliseconds in [Z]; an ISO-8601 string of
      the database is compared as its time.
    - A string is its list of UTF-16 units ([JsString]); object literals used as maps keep the names
      they inherit from [Object.prototype]; JSON columns hold the values they encode ([Json]), and
      two texts that encode one record are not told apart.  The content of a file is its decoded
      text, and the file system fails as its structure makes it fail.
    - Code outside the program is a parameter: the SHA-256 digest, [localeCompare], the collation of
      SQLite, the library that renders diffs, the umask, [JSON.parse] of the path rules, the text of
      a reviewer's prompt, the schemas that validate a scheduled job, the instant a text of a date
      denotes, and the answers of the scheduler's hooks.

    ** The files

    Foundations: [Prelude] (results, closure of step relations, lists), [JsString], [Json], [Sql],
    [Paging] (keyset pages), [Files] (POSIX paths and the file system calls).

    - [Outbox]: [dispatch-outbox.ts].  [DispatchOutbox] is the table, one definition per operation,
      with a step relation of their histories; at most one delivery, fenced by token; fair claims.
    - [Leases]: [work-sessions/lease-store.ts].  Acquisition, renewal, takeover, release, nonce and
      peer-job reservations; mutual exclusion as a refinement of an abstract lock.
    - [Continuation]: [continuation.ts].  Claim, delivery, reconciliation, supersession.
    - [SessionState], [WorkSessions]: [work-sessions/internal.ts], [runtime-state.ts],
      [session-store.ts], [review-store.ts] and the pass of [startup-recovery.ts].
    - [ActionGuard]: [work-session-action-guard.ts].
    - [ScheduledLifecycle]: [scheduling/scheduled-job-lifecycle.ts], [work-session-lifecycle.ts],
      [scheduling/bounded-counter-map.ts].
    - [ApplyPatch] (parser and hunks), [PatchFormat] (a printer the parser inverts), [PatchStaging]
      (confinement, staging, writing), [PatchConfinement] and [PatchApplied] (their theorems):
      [apply-patch.ts].
    - [Policy]: the configuration, glob matching and evaluation of [policy.ts].  [Grants]:
      [policy-grants.ts], behind the interface [GrantStore] with its laws [GrantLaws].  [Approvals]:
      [approval-requests.ts].  [PolicyEngine]: [createPolicyEngine] of [policy.ts], for any grant
      store.  [Enforcement] and [EnforcementFacts]: [policy-enforcement.ts].
    - [Admission] and [AdmissionFacts]: [server/mcp-admission.ts], the weighted queue with its
      waiters, permits, timers and abort signals.  [AdmissionConfig]: its limits in [config.ts] and
      [server.ts].  [Deadline]: the race of a request with its deadline.
    - [CanonicalJson], [Receipts] and [ReceiptFacts]: [mutation-receipts.ts], the canonical text
      of a request, the table of receipts, and [runWithMutationReceipt] in two halves, before and
      after the execution it awaits, interleaved with other calls, passes and crashes.
    - [ReviewerJobs]: [review-thread/reviewer-job-store.ts], with the unique indexes of its tables,
      the statements by which a route change supersedes attempts, and the recovery loop of the
      dispatcher.  [ReviewerJobFacts] (the schema and how a row may move), [ReviewerLeases] (what a
      lost lease and a sent prompt forbid), [ReviewerDecisions] (recovery, decisions, outcomes).
    - [Regex] (the matching of the patterns the code uses, greedy and with backtracking) and
      [Redaction]: [redaction.ts]; [RedactionFacts], what a redaction leaves.
    - [ScheduledJobs]: the job records of [scheduling/scheduled-job-store.ts], their projection from
      reports and the checks of the store.  [ScheduledPublications]: the reports and events a
      mutation publishes, replays and the receipts of a completion.  [ScheduledLaunches]: launch
      intents, outcomes and recovery of the attempts.  [ScheduledJobFacts] and [ScheduledMoves]
      (each operation touches the rows it may, and every commit is a legal move of a job's state
      machine), [ScheduledDispatch] (histories of a store and the board of machines they refine),
      [ScheduledRecords] (what reports and retries keep), [ScheduledCompletion] (receipts).
    - [ScheduledRuntime]: [scheduling/scheduled-job-runtime.ts], each function that awaits a hook
      in two halves, before and after the answer.  [ScheduledRuntimeFacts] (each pass is a sequence
      of calls of the store and of due events), [ScheduledSystem] (the runtime, the store and the
      outbox as one transition system, with other dispatchers, hooks in flight and crashes, and its
      invariant), [ScheduledPromises] (its theorems), [ScheduledScenarios] (a run of it).
    - [ProcessOutput]: [process-output.ts], the head/tail buffer and the log that readers follow by
      cursors.
    - [MissionEvidence] and [MissionOutcome]: the authorities under [mission/].  [MissionLedger]
      (contracts, findings, work orders, evidence) and [MissionApproval] (what decides):
      [mission-ledger.ts].  [MissionCriteria] (the graph of the criteria), [MissionFacts] (approval
      against [fulfilled]), [MissionInvariant] (histories), [MissionProperties] (the theorems and a
      mission from its contract to its approval).
    - [PeerContracts]: [peer/jobs/contracts.ts].  [PeerReceipts] and [PeerReceiptFacts]: the
      validation of results of [peer/jobs/service.ts].  [PeerJobs]: [peer/jobs/store.ts], objects in
      memory that are shared between maps and arrays, over tables a failed transaction leaves
      behind.  [PeerJobSystem] (histories with failures and restarts, and scenarios),
      [PeerJobMemory] (what a write does), [PeerJobInvariant] (memory against the tables),
      [PeerJobSafety], [PeerJobClaims] and [PeerJobRestart] (every operation keeps it),
      [PeerJobProperties] (the theorems).

    The parts meet as in the code: the enforcer drives the policy engine, which drives the approval
    table and, through the interface, the grant store; the theorems about the enforcer follow an
    operation through all of them.  Leases, reviews, continuations and the outbox share the database
    but each has tables of its own, and the guard reads the session store.  The scheduler uses the
    outbox to carry the due events and the job store to fence the launches; its theorems are about
    the three together.  The peer jobs validate the outputs a job allows as receipts are validated
    against them.  The mission ledger reads the submissions of the review store and asks its
    authorities; its theorems are about the ledger with them.

    ** What is shown

    - Safety: a stale claim never acts and an event is delivered at most once (outbox,
      continuations); a takeover fences the old holder until another nonce rolls it back; an applied
      patch changes nothing outside the workspace, when no path in play has a backslash and no name
      is that of a temporary file; scheduled policies confine; a denial is decided before anything
      is asked; over the durable store a call uses one approval of its own operation for each path
      it gets past between its waits, a wait lets it through only on an approval of its request, and
      a direct call approved once runs once; a decision is final; a reviewer attempt whose lease ran
      out changes nothing, and a prompt that was sent bars another attempt on its thread until a
      decision; a scheduled job has at most one launch, its closed attempts never act again, a
      cancelled job is not launched again, an ended job stays, and an autonomous job completes only
      with the receipts of what it had to publish; a mutation executes once per retention, and never
      again when its outcome was lost; requests of one key take turns; a peer job is handed out only
      after every earlier attempt was denied, work that was started never is handed out again, and a
      stale report changes nothing.
    - Refinement: leases implement a lock; applying a patch implements running its actions one by
      one on texts, when no file goes by two paths; scoped approvals implement a ledger of rights,
      over every store that keeps the laws; the scheduled-job store implements a board of job
      machines, and the scheduler, under any interleaving with crashes, a history of that store.
    - Invariants by induction over histories: outbox, continuations, submissions; the schema of the
      reviewer jobs, whose unique indexes no operation ever violates; the mission ledger, where a
      resolved finding always shows evidence that stands and no claim of an agent decides anything.
    - Functional behaviour and equivalence: guard, policy evaluation, glob denotation, hunk search
      and edits, pages, review outcomes, waits; a create repeated under its request identity makes
      no second job, a mutation replayed changes nothing, and reports are immutable; the dispatch
      hook is called exactly for a job whose time has come, its answer decides the job, and a
      deadline cancels exactly the overdue workers; a mission is approved exactly when it is
      fulfilled, and the last observation of its outcome decides for a behaviour
      declared without space around it; a log of output implements the
      history of all output, and a reader who follows it misses nothing it is not told of; what a
      peer's report is answered is what the tables hold; and a receipt is accepted exactly when
      its files stay inside what the job allows, under the digest of a text that identifies them.
    - Termination and liveness: the startup pass reaches every session; patches that fit apply; an
      approved direct call goes through; a parked request waits only for capacity; the recovery of
      the reviewer jobs settles every expired lease, and a resolved attempt can be retried; no
      waiting scheduled job is forgotten, and every claimed due event is settled; the validation of
      a mission's contract ends, and what it accepts can be met.
    - Round trips: the parser inverts the printer; a retry replays the first result, and two
      requests have one canonical text exactly when they differ only in the order of fields.
    - Bounds: permits and queues stay within their limits, which the configuration keeps wide
      enough for every tool; the counter map stays in its capacity.
    - Behaviour that contradicts the code's own comments is proved as it is: a name inherited from
      [Object.prototype] passes the guard, a backslash hides a symbolic link, a double star stops at
      a line end, an expired request behind a backlog can be approved, an approval in memory runs
      two executions, as does one that two calls wait for, the retry of a job created by a principal
      with spaces around it fails, and a run time written with an offset is dispatched late; the
      server's hook turns a permanent blocker into endless retries, and an unresolved job of an
      operator is probed twice; a mission that declares its behaviour with space around it is never
      approved, a finding reported again as a blocker gates nothing, and a character cut between two
      outputs counts twice; a peer's result whose transaction failed is later answered as stored, a
      late renewal reopens a completed job and revives a cancelled one, and a path may keep a drive
      behind a dot.

    ** Fuel and bounds

    [parseActions] takes as fuel the number of lines, which each action consumes; the projection of
    scheduled events recurses once and its fuel is two; path resolution follows at most forty
    links, as the kernel does; [readPages] needs one more than the rows; [drain] one more than the
    queue; [recover_all] one more than the leases; a greedy match the units left; a projection of
    session events reads four pages, as the code does, and a sweep of [n] passes reaches the first
    [100 * n] waiting jobs; the walk and the evaluation of the criteria need one more than their
    number, since the criteria they are in differ.  Each bound is proved enough.  Numbers are
    integers: the code's are counters, milliseconds and sizes far below 2^53.

    ** Not modelled

    Concurrency within one transaction (SQLite serialises writers, and each store function is one
    step); metrics and logging; the Windows branch of file replacement; list queries and the
    tool-event log of the work sessions.  Callbacks of the enforcer are recorded as effects and are
    taken to return.  The timers, the metrics and the drain failures of the scheduler, and the recovery
    of its publications, which reads the workspace.  Of the peers, the HTTP routes, the processing of
    a result by git, the files of uploaded artifacts and the credentials; a row of the peer tables
    that another process rewrites.  The event log, agent messages and the verification executions
    of scheduled jobs.  HTTP, MCP and ACP transport, processes, git, the browser driver, migrations,
    the command line and the user interface are input and output around this core and are left
    out. *)

From stdpp Require Export base tactics decidable option list list_numbers gmap sorting.
From Stdlib Require Export ZArith Lia.

#[export] Set Default Goal Selector "!".

(** ** Results of fallible code

    A TypeScript function that may [throw] returns [res E A]: [Err e] is the thrown error. *)

Inductive res (E A : Type) : Type :=
| Ok (a : A)
| Err (e : E).
Arguments Ok {E A} a.
Arguments Err {E A} e.

#[export] Instance res_ret E : MRet (res E) := fun A => Ok.
#[export] Instance res_bind E : MBind (res E) :=
  fun A B k m => match m with Ok a => k a | Err e => Err e end.
#[export] Instance res_fmap E : FMap (res E) :=
  fun A B f m => match m with Ok a => Ok (f a) | Err e => Err e end.

(** [if (!b) throw e] *)
Definition ensure {E} (b : bool) (e : E) : res E unit := if b then Ok tt else Err e.

(** [if (b) throw e] *)
Definition reject {E} (b : bool) (e : E) : res E unit := if b then Err e else Ok tt.

(** [const x = o; if (!x) throw e] *)
Definition require {E A} (o : option A) (e : E) : res E A :=
  match o with Some a => Ok a | None => Err e end.

Definition is_ok {E A} (m : res E A) : bool := match m with Ok _ => true | Err _ => false end.

Section Results.
Context {E : Type}.

Lemma bind_Ok {A B} (m : res E A) (k : A → res E B) b :
  m ≫= k = Ok b ↔ ∃ a, m = Ok a ∧ k a = Ok b.
Proof. destruct m; cbn; naive_solver. Qed.

Lemma bind_Err {A B} (m : res E A) (k : A → res E B) e :
  m ≫= k = Err e ↔ m = Err e ∨ ∃ a, m = Ok a ∧ k a = Err e.
Proof. destruct m; cbn; naive_solver. Qed.

Lemma ensure_Ok (b : bool) (e : E) u : ensure b e = Ok u ↔ b = true.
Proof. destruct b, u; naive_solver. Qed.

Lemma reject_Ok (b : bool) (e : E) u : reject b e = Ok u ↔ b = false.
Proof. destruct b, u; naive_solver. Qed.

Lemma require_Ok {A} (o : option A) (e : E) a : require o e = Ok a ↔ o = Some a.
Proof. destruct o; naive_solver. Qed.
End Results.

Create HintDb kontrol discriminated.
Create Rewrite HintDb res.
Create Rewrite HintDb guards.
Create Rewrite HintDb kontrol.
#[export] Hint Rewrite @bind_Ok @ensure_Ok @reject_Ok @require_Ok : res.

(** ** Reflecting the boolean guards of the code *)

Lemma bool_decide_true_iff (P : Prop) `{Decision P} : bool_decide P = true ↔ P.
Proof. apply bool_decide_eq_true. Qed.
Lemma bool_decide_false_iff (P : Prop) `{Decision P} : bool_decide P = false ↔ ¬ P.
Proof. apply bool_decide_eq_false. Qed.

#[export] Hint Rewrite andb_true_iff orb_true_iff negb_true_iff andb_false_iff orb_false_iff
  negb_false_iff @bool_decide_true_iff @bool_decide_false_iff
  Z.leb_le Z.ltb_lt Z.eqb_eq Z.leb_gt Z.ltb_ge Z.eqb_neq
  Nat.leb_le Nat.ltb_lt Nat.eqb_eq Nat.leb_gt Nat.ltb_ge Nat.eqb_neq : guards.

(** [reflect_guards] turns every boolean equation of the context and the goal into the
    proposition it decides. *)
Ltac reflect_guards :=
  repeat match goal with
  | H : Is_true _ |- _ => apply Is_true_eq_true in H
  end;
  autorewrite with guards in *.

(** ... and takes the resulting conjunctions apart. *)
Ltac guards := reflect_guards; destruct_and?.

(** [res_inv H] inverts a successful monadic computation [H : m = Ok a] down to the guards it
    passed and the values it bound. *)
Ltac res_inv H :=
  repeat first
    [ progress simplify_eq/=
    | match type of H with
      | _ ≫= _ = Ok _ => apply bind_Ok in H as (? & ? & H)
      | Ok _ = Ok _ => injection H as H
      | (if ?b then _ else _) = Ok _ => destruct b eqn:?
      | (match ?x with _ => _ end) = Ok _ => destruct x eqn:?
      end
    | match goal with
      | K : ensure _ _ = Ok _ |- _ => apply ensure_Ok in K
      | K : reject _ _ = Ok _ |- _ => apply reject_Ok in K
      | K : require _ _ = Ok _ |- _ => apply require_Ok in K
      end ].

(** [destr_match] destructs the scrutinee the goal is stuck on. *)
Ltac destr_match :=
  match goal with
  | |- context [match ?x with _ => _ end] => destruct x eqn:?
  end.

(** ** Decision procedures for the enumerations *)

Ltac enum_dec := unfold EqDecision, Decision; decide equality.

(** ** Histories of steps: the reflexive-transitive closure of a step relation *)

Section Closure.
Context {S : Type} (step : S → S → Prop).

Inductive steps : S → S → Prop :=
| steps_refl s : steps s s
| steps_cons s1 s2 s3 : step s1 s2 → steps s2 s3 → steps s1 s3.

Lemma steps_trans s1 s2 s3 : steps s1 s2 → steps s2 s3 → steps s1 s3.
Proof. induction 1; eauto using steps. Qed.

Lemma steps_one s1 s2 : step s1 s2 → steps s1 s2.
Proof. eauto using steps. Qed.

(** A property every step preserves holds along every history. *)
Lemma steps_invariant (I : S → Prop) :
  (∀ s s', step s s' → I s → I s') → ∀ s s', steps s s' → I s → I s'.
Proof. intros Hstep s s'; induction 1; eauto. Qed.

(** A relation that is a preorder and contains the steps relates the ends of a history. *)
Lemma steps_preorder (R : S → S → Prop) :
  (∀ s, R s s) → (∀ a b c, R a b → R b c → R a c) → (∀ s s', step s s' → R s s') →
  ∀ s s', steps s s' → R s s'.
Proof. intros Hr Ht Hs s s'; induction 1; eauto. Qed.
End Closure.

(** ** Lists *)

Section Lists.
Context {A B : Type}.

Lemma find_some_iff (p : A → bool) (l : list A) x :
  List.find p l = Some x → x ∈ l ∧ p x = true.
Proof. intros H%List.find_some. by rewrite list_elem_of_In. Qed.

Lemma find_none_iff (p : A → bool) (l : list A) :
  List.find p l = None ↔ ∀ x, x ∈ l → p x = false.
Proof.
  split; [intros H x Hx%list_elem_of_In; by eapply List.find_none|].
  intros H. destruct (List.find p l) eqn:E; [|done].
  apply find_some_iff in E as [Hin Hp]. rewrite (H _ Hin) in Hp. done.
Qed.

Lemma find_app (p : A → bool) (l k : list A) :
  List.find p (l ++ k) = match List.find p l with Some x => Some x | None => List.find p k end.
Proof. induction l as [|a l IH]; cbn; [done|]. by destruct (p a). Qed.

Lemma find_ext (p q : A → bool) (l : list A) :
  (∀ x, x ∈ l → p x = q x) → List.find p l = List.find q l.
Proof.
  induction l as [|a l IH]; intros H; cbn; [done|].
  rewrite (H a) by left. rewrite IH; [done|]. intros; apply H; by right.
Qed.

Lemma elem_of_Lfilter (p : A → bool) (l : list A) x :
  x ∈ List.filter p l ↔ x ∈ l ∧ p x = true.
Proof. rewrite !list_elem_of_In. apply List.filter_In. Qed.

Lemma Lfilter_ext (p q : A → bool) (l : list A) :
  (∀ x, x ∈ l → p x = q x) → List.filter p l = List.filter q l.
Proof. intros H. apply List.filter_ext_in. intros a Ha%list_elem_of_In; auto. Qed.

Lemma Lfilter_twice (p q : A → bool) (l : list A) :
  List.filter p (List.filter q l) = List.filter (λ x, q x && p x) l.
Proof. induction l as [|a l IH]; cbn; [done|]. destruct (q a); cbn; [|done]. by rewrite IH. Qed.

Lemma Lfilter_none (p : A → bool) (l : list A) :
  (∀ x, x ∈ l → p x = false) → List.filter p l = [].
Proof.
  induction l as [|a l IH]; intros H; cbn; [done|].
  rewrite (H a) by left. apply IH. intros; apply H; by right.
Qed.

Lemma Lfilter_all (p : A → bool) (l : list A) :
  (∀ x, x ∈ l → p x = true) → List.filter p l = l.
Proof.
  induction l as [|a l IH]; intros H; cbn; [done|].
  rewrite (H a) by left. f_equal. apply IH. intros; apply H; by right.
Qed.

Lemma map_id_on (f : A → A) (l : list A) : (∀ x, x ∈ l → f x = x) → List.map f l = l.
Proof. intros H. rewrite <- (List.map_id l) at 2. apply List.map_ext_in.
  intros a Ha%list_elem_of_In; auto. Qed.

Lemma NoDup_map_inj_on (f : A → B) (l : list A) x y :
  NoDup (List.map f l) → x ∈ l → y ∈ l → f x = f y → x = y.
Proof.
  induction l as [|a l IH]; cbn; [intros _ Hx; by apply not_elem_of_nil in Hx|].
  rewrite NoDup_cons. intros [Hn Hd] [->|Hx]%elem_of_cons [->|Hy]%elem_of_cons E; eauto.
  - destruct Hn. rewrite E. apply list_elem_of_In, List.in_map, list_elem_of_In, Hy.
  - destruct Hn. rewrite <- E. apply list_elem_of_In, List.in_map, list_elem_of_In, Hx.
Qed.
End Lists.

Lemma elem_of_Lmap {A B} (f : A → B) (l : list A) y :
  y ∈ List.map f l ↔ ∃ x, y = f x ∧ x ∈ l.
Proof.
  rewrite list_elem_of_In, List.in_map_iff. setoid_rewrite list_elem_of_In. naive_solver.
Qed.

Lemma Forall2_elem_l {A B} (R : A → B → Prop) l k x :
  Forall2 R l k → x ∈ l → ∃ y, y ∈ k ∧ R x y.
Proof.
  intros H [j Hj]%list_elem_of_lookup. destruct (Forall2_lookup_l _ _ _ _ _ H Hj) as (y & Hy & ?).
  exists y. split; [by eapply list_elem_of_lookup_2|done].
Qed.

Lemma Forall2_elem_r {A B} (R : A → B → Prop) l k y :
  Forall2 R l k → y ∈ k → ∃ x, x ∈ l ∧ R x y.
Proof. intros H%Forall2_flip Hy. by apply (Forall2_elem_l _ _ _ _ H). Qed.

#[export] Hint Rewrite @elem_of_Lfilter @elem_of_Lmap : kontrol.
