(* ===== verification/JsString.v ===== *)
(** * JavaScript strings

    A JavaScript string is a sequence of UTF-16 code units; [jsstr] is a list of them, and the
    operations below are the members of [String.prototype] the program uses.  String literals of
    the source are written as Rocq strings and coerced. *)

From S2P Require Import Prelude.
From Stdlib Require Import Strings.String Strings.Ascii.
From stdpp Require Import strings pretty.

Declare Scope js_scope.
Delimit Scope js_scope with js.

Definition jsstr : Type := list N.

#[export] Instance jsstr_eq_dec : EqDecision jsstr := list_eq_dec.
#[export] Instance jsstr_countable : Countable jsstr := list_countable.
#[export] Instance jsstr_inhabited : Inhabited jsstr := populate [].

Definition js (s : string) : jsstr := List.map N_of_ascii (list_ascii_of_string s).
#[global] Arguments js : simpl never.
Coercion js : string >-> jsstr.
Bind Scope js_scope with jsstr.
String Notation string string_of_list_byte list_byte_of_string : js_scope.

(** [a + b] *)
Definition js_app (a b : jsstr) : jsstr := a ++ b.
#[global] Arguments js_app : simpl never.
Infix "+s" := js_app (at level 60, right associativity) : js_scope.
Global Open Scope js_scope.

Definition js_eqb (a b : jsstr) : bool := bool_decide (a = b).
Infix "=s" := js_eqb (at level 70) : js_scope.

(** Truthiness of an optional string: [undefined], [null] and the empty string are falsy. *)
Definition truthy (o : option jsstr) : bool :=
  match o with None | Some [] => false | Some _ => true end.

Definition nonempty (s : jsstr) : bool := match s with [] => false | _ => true end.

(** [o ?? ""] *)
Definition or_empty (o : option jsstr) : jsstr := default [] o.

(** [${z}] for an integer *)
Definition numeral (z : Z) : jsstr := js (pretty z).

(** ** Code units *)

Definition LF : N := 10.
Definition CR : N := 13.
Definition NUL : N := 0.
Definition DQUOTE : N := 34.

(** WhiteSpace and LineTerminator of ECMA-262, what [trim] strips. *)
Definition is_space (c : N) : bool :=
  existsb (N.eqb c)
    [9; 10; 11; 12; 13; 32; 160; 5760; 8192; 8193; 8194; 8195; 8196; 8197; 8198; 8199; 8200;
     8201; 8202; 8232; 8233; 8239; 8287; 12288; 65279]%N.

#[global] Arguments is_space : simpl never.

(** LineTerminator: what [.] of a regular expression without the [s] flag does not match. *)
Definition is_line_terminator (c : N) : bool := existsb (N.eqb c) [10; 13; 8232; 8233]%N.

(** ** Operations *)

Fixpoint drop_spaces (s : jsstr) : jsstr :=
  match s with
  | [] => []
  | c :: s' => if is_space c then drop_spaces s' else s
  end.

Definition trimStart (s : jsstr) : jsstr := drop_spaces s.
Definition trimEnd (s : jsstr) : jsstr := rev (drop_spaces (rev s)).
Definition trim (s : jsstr) : jsstr := trimEnd (trimStart s).
#[global] Arguments trim : simpl never.

Fixpoint startsWith (s p : jsstr) : bool :=
  match p, s with
  | [], _ => true
  | c :: p', d :: s' => N.eqb c d && startsWith s' p'
  | _ :: _, [] => false
  end.

Definition endsWith (s p : jsstr) : bool := startsWith (rev s) (rev p).

(** [s.slice(n)] for [n >= 0] *)
Definition slice (n : nat) (s : jsstr) : jsstr := drop n s.

(** [s.includes(c)] for a one-unit [c] *)
Definition includesUnit (s : jsstr) (c : N) : bool := existsb (N.eqb c) s.

(** [s.includes("\r\n")] *)
Fixpoint includesCRLF (s : jsstr) : bool :=
  match s with
  | [] => false
  | c :: s' => (N.eqb c CR && match s' with d :: _ => N.eqb d LF | [] => false end) || includesCRLF s'
  end.

(** [s.replace(/\r\n/g, "\n")] *)
Fixpoint crlfToLf (s : jsstr) : jsstr :=
  match s with
  | [] => []
  | c :: s' =>
      match s' with
      | d :: _ => if N.eqb c CR && N.eqb d LF then crlfToLf s' else c :: crlfToLf s'
      | [] => [c]
      end
  end.

(** [s.replace(/\n/g, "\r\n")] *)
Definition lfToCrlf (s : jsstr) : jsstr :=
  List.concat (List.map (fun c => if N.eqb c LF then [CR; LF] else [c]) s).

(** [s.split(c)] for a one-unit [c]: never the empty array. *)
Fixpoint split (c : N) (s : jsstr) : list jsstr :=
  match s with
  | [] => [[]]
  | d :: s' =>
      if N.eqb d c then [] :: split c s'
      else match split c s' with
           | [] => [[d]]
           | l :: ls => (d :: l) :: ls
           end
  end.

(** [ls.join(sep)] *)
Fixpoint join (sep : jsstr) (ls : list jsstr) : jsstr :=
  match ls with
  | [] => []
  | [l] => l
  | l :: ls' => l ++ sep ++ join sep ls'
  end.

Definition joinLines (ls : list jsstr) : jsstr := join [LF] ls.

(** [s.toLowerCase()] on the Basic Latin and Latin-1 code units and the Kelvin sign (U+212A, the
    only other unit whose lower case is an ASCII letter); other units are left as they are. *)
Definition lower_unit (c : N) : N :=
  if ((65 <=? c) && (c <=? 90))%N || ((192 <=? c) && (c <=? 222) && negb (c =? 215))%N then (c + 32)%N
  else if (c =? 8490)%N then 107%N else c.
Definition toLowerCase (s : jsstr) : jsstr := List.map lower_unit s.

(** [a < b] on strings: lexicographic on code units. *)
Fixpoint js_ltb (a b : jsstr) : bool :=
  match a, b with
  | _, [] => false
  | [], _ :: _ => true
  | c :: a', d :: b' => (c <? d)%N || ((c =? d)%N && js_ltb a' b')
  end.

(** [[...new Set(l)]] *)
Definition set_of (l : list jsstr) : list jsstr :=
  foldl (λ acc k, if existsb (js_eqb k) acc then acc else acc ++ [k]) [] l.

(** [Buffer.byteLength(s, "utf8")]: the bytes of the text in UTF-8, three for a unit that is no part
    of a pair. *)
Fixpoint byteLength (s : jsstr) : Z :=
  match s with
  | [] => 0
  | c :: s' =>
      let one := if (c <? 128)%N then 1 else if (c <? 2048)%N then 2 else 3 in
      match s' with
      | d :: s'' =>
          if ((55296 <=? c) && (c <=? 56319) && (56320 <=? d) && (d <=? 57343))%N
          then 4 + byteLength s'' else one + byteLength s'
      | [] => one
      end
  end%Z.

(** ** Object literals used as tables *)

(** The names every object literal inherits from [Object.prototype]; each value is truthy. *)
Definition prototype_names : list jsstr :=
  [ js "constructor"; js "toString"; js "toLocaleString"; js "valueOf"; js "hasOwnProperty";
    js "isPrototypeOf"; js "propertyIsEnumerable"; js "__proto__"; js "__defineGetter__";
    js "__defineSetter__"; js "__lookupGetter__"; js "__lookupSetter__" ].

#[global] Arguments prototype_names : simpl never.

(** What a template literal makes of the inherited value. *)
Definition inherited_text (name : jsstr) : jsstr :=
  if name =s "__proto__" then "[object Object]"
  else "function " +s (if name =s "constructor" then js "Object" else name) +s "() { [native code] }".

(** ** Lemmas *)

Lemma js_eqb_eq a b : (a =s b) = true ↔ a = b.
Proof. unfold js_eqb. apply bool_decide_eq_true. Qed.
Lemma js_eqb_neq a b : (a =s b) = false ↔ a ≠ b.
Proof. unfold js_eqb. apply bool_decide_eq_false. Qed.
Lemma js_eqb_refl a : (a =s a) = true.
Proof. by apply js_eqb_eq. Qed.
#[export] Hint Rewrite js_eqb_eq js_eqb_neq : guards.

Lemma js_in (k : jsstr) l : existsb (js_eqb k) l = true ↔ k ∈ l.
Proof.
  rewrite existsb_exists. unfold js_eqb. setoid_rewrite bool_decide_eq_true.
  setoid_rewrite <- list_elem_of_In. naive_solver.
Qed.

Lemma set_of_elem l k : k ∈ set_of l ↔ k ∈ l.
Proof.
  unfold set_of. enough (H : ∀ acc, k ∈ foldl (λ acc k, if existsb (js_eqb k) acc then acc
      else acc ++ [k]) acc l ↔ k ∈ acc ∨ k ∈ l) by (rewrite H; set_solver).
  induction l as [|x l IH]; intros acc; cbn; [set_solver|].
  rewrite IH. destruct (existsb (js_eqb x) acc) eqn:E.
  - apply js_in in E. set_solver.
  - set_solver.
Qed.

Lemma startsWith_app s p : startsWith s p = true ↔ ∃ t, s = p ++ t.
Proof.
  revert s; induction p as [|c p IH]; intros s; cbn.
  - split; [by exists s|]. destruct s; done.
  - destruct s as [|d s]; cbn.
    + split; [done|]. by intros [t ?].
    + rewrite andb_true_iff, IH, N.eqb_eq. naive_solver.
Qed.

Lemma startsWith_prefix p t : startsWith (p ++ t) p = true.
Proof. apply startsWith_app. by exists t. Qed.

Lemma slice_prefix p t : slice (length p) (p ++ t) = t.
Proof. unfold slice. by rewrite drop_app_length. Qed.

Lemma is_space_LF : is_space LF = true.
Proof. done. Qed.

Lemma drop_spaces_id s : (∀ c, head s = Some c → is_space c = false) → drop_spaces s = s.
Proof. destruct s as [|c s]; cbn; [done|]. intros H. by rewrite (H c eq_refl). Qed.

Lemma drop_spaces_idemp s : drop_spaces (drop_spaces s) = drop_spaces s.
Proof. induction s as [|c s IH]; cbn; [done|]. destruct (is_space c) eqn:E; [exact IH|].
  cbn [drop_spaces]. by rewrite E.
Qed.

(** A string that neither starts nor ends with white space is its own [trim]. *)
Definition trimmed (s : jsstr) : Prop :=
  (∀ c, head s = Some c → is_space c = false) ∧ (∀ c, last s = Some c → is_space c = false).

Lemma trim_id s : trimmed s → trim s = s.
Proof.
  intros [Hh Hl]. unfold trim, trimEnd, trimStart. rewrite (drop_spaces_id s) by done.
  rewrite drop_spaces_id, rev_involutive; [done|].
  intros c. rewrite <- head_reverse in Hl. unfold reverse in Hl. rewrite rev_alt. apply Hl.
Qed.

Lemma split_not_nil c s : split c s ≠ [].
Proof. destruct s as [|d s]; cbn; [done|]. destruct (N.eqb d c); [done|]. by destruct (split c s). Qed.

Lemma join_split c s : join [c] (split c s) = s.
Proof.
  induction s as [|d s IH]; cbn; [done|].
  pose proof (split_not_nil c s) as Hn.
  destruct (N.eqb_spec d c) as [->|Hd].
  - destruct (split c s) as [|l ls]; [done|]. cbn. by rewrite <- IH.
  - destruct (split c s) as [|l ls]; [done|]. cbn in *.
    destruct ls as [|l' ls]; cbn in *; by rewrite <- IH.
Qed.

Lemma split_app c a b : c ∉ a → split c (a ++ c :: b) = a :: split c b.
Proof.
  induction a as [|d a IH]; intros Hn; cbn.
  - by rewrite N.eqb_refl.
  - apply not_elem_of_cons in Hn as [Hd Hn]. rewrite (proj2 (N.eqb_neq d c)) by done.
    by rewrite IH.
Qed.

Lemma split_no c a : c ∉ a → split c a = [a].
Proof.
  induction a as [|d a IH]; intros Hn; cbn; [done|].
  apply not_elem_of_cons in Hn as [Hd Hn]. rewrite (proj2 (N.eqb_neq d c)) by done.
  by rewrite IH.
Qed.

(** Splitting undoes joining when no line holds the separator. *)
Lemma split_join c ls : ls ≠ [] → Forall (λ l, c ∉ l) ls → split c (join [c] ls) = ls.
Proof.
  intros Hn HF. induction HF as [|l ls Hl HF IH]; [done|].
  destruct ls as [|l' ls]; [by apply split_no|].
  cbn [join]. cbn [app]. rewrite split_app by done. f_equal. by apply IH.
Qed.

Lemma split_lines_no c s : Forall (λ l, c ∉ l) (split c s).
Proof.
  induction s as [|d s IH]; cbn; [by repeat constructor; apply not_elem_of_nil|].
  destruct (N.eqb_spec d c) as [->|Hd].
  - constructor; [apply not_elem_of_nil|done].
  - destruct IH as [|l ls Hl HF]; constructor.
    + intros [?|?%not_elem_of_nil]%elem_of_cons; done.
    + constructor.
    + apply not_elem_of_cons; done.
    + done.
Qed.

Lemma split_length_pos c s : 1 ≤ length (split c s).
Proof. pose proof (split_not_nil c s). destruct (split c s); cbn; [done|lia]. Qed.

(** [<] is a strict total order. *)
Lemma js_ltb_irrefl a : js_ltb a a = false.
Proof. induction a as [|c a IH]; cbn; [done|]. by rewrite N.ltb_irrefl, IH, andb_false_r. Qed.

Lemma js_ltb_trans a b c : js_ltb a b = true → js_ltb b c = true → js_ltb a c = true.
Proof.
  revert b c; induction a as [|x a IH]; intros [|y b] [|z c]; cbn; try done.
  rewrite !orb_true_iff, !andb_true_iff, !N.ltb_lt, !N.eqb_eq.
  intros [?|[-> ?]] [?|[-> ?]]; eauto with lia.
Qed.

Lemma js_ltb_total a b : js_ltb a b = false → js_ltb b a = false → a = b.
Proof.
  revert b; induction a as [|x a IH]; intros [|y b]; cbn; try done.
  rewrite !orb_false_iff, !andb_false_iff, !N.ltb_ge, !N.eqb_neq.
  intros [? H1] [? H2]. assert (x = y) as -> by lia. f_equal. apply IH; naive_solver.
Qed.

Lemma js_ltb_asym a b : js_ltb a b = true → js_ltb b a = false.
Proof.
  intros H. destruct (js_ltb b a) eqn:E; [|done].
  pose proof (js_ltb_trans _ _ _ H E) as Ha. by rewrite js_ltb_irrefl in Ha.
Qed.

(** ... and so its complement is transitive. *)
Lemma js_ltb_cotrans a b c : js_ltb b a = false → js_ltb c b = false → js_ltb c a = false.
Proof.
  intros H1 H2. destruct (js_ltb c a) eqn:E; [|done].
  destruct (js_ltb b c) eqn:E2.
  - by rewrite (js_ltb_trans _ _ _ E2 E) in H1.
  - assert (b = c) as -> by (by apply js_ltb_total). congruence.
Qed.

#[export] Hint Resolve split_not_nil split_lines_no startsWith_prefix : kontrol.
