(* ===== verification/Json.v ===== *)
(** * JSON values

    The values [JSON.parse] returns and [JSON.stringify] writes.  A number that is not an integer
    is kept by its spelling.  A stored JSON text is modelled by what [JSON.parse] makes of it:
    [Some v], or [None] when parsing throws. *)

From S2P Require Import Prelude JsString.

Inductive json : Type :=
| JNull
| JBool (b : bool)
| JNum (z : Z)
| JFrac (spelling : jsstr)
| JStr (s : jsstr)
| JArr (items : list json)
| JObj (fields : list (jsstr * json)).

Definition json_text : Type := option json.

(** [o[k]] on an object with own properties only *)
Definition jfield (k : jsstr) (o : list (jsstr * json)) : option json :=
  snd <$> List.find (λ kv, fst kv =s k) o.

(** [typeof v === "string" ? v : undefined] *)
Definition as_string (v : option json) : option jsstr :=
  match v with Some (JStr s) => Some s | _ => None end.

(** [typeof v === "number"] on integers *)
Definition as_integer (v : option json) : option Z :=
  match v with Some (JNum z) => Some z | _ => None end.

Lemma as_string_Some v s : as_string v = Some s ↔ v = Some (JStr s).
Proof. split; [|by intros ->]. destruct v as [[]|]; try done. by intros [= ->]. Qed.
Lemma as_integer_Some v z : as_integer v = Some z ↔ v = Some (JNum z).
Proof. split; [|by intros ->]. destruct v as [[]|]; try done. by intros [= ->]. Qed.
