(* ===== verification/Sql.v ===== *)
(** * SQLite tables

    The stores of the program keep their state in SQLite and reach it through the statements
    written in the source.  A table is the list of its rows in insertion (rowid) order; the
    operations below are the statements: [select ... where], [update ... set ... where] with its
    [changes], [delete ... where], [insert], [order by] and [limit].  Rows that an [order by] ties
    keep their insertion order.  A timestamp column holds an ISO-8601 UTC string of fixed width;
    it is modelled by its milliseconds, on which [<] is the order of the strings. *)

From S2P Require Import Prelude.

Section Statements.
Context {row : Type}.
Implicit Types (p : row → bool) (f : row → row) (t : list row).

(** [select * from t where p] *)
Definition select_where p t : list row := List.filter p t.

(** [... limit 1] or [.get()]: the first row, or undefined *)
Definition get_where p t : option row := List.find p t.

(** [update t set f where p]: the table and the number of changed rows *)
Definition update_where p f t : list row * nat :=
  (List.map (λ r, if p r then f r else r) t, length (List.filter p t)).

(** [delete from t where p]: the table and the number of deleted rows *)
Definition delete_where p t : list row * nat :=
  (List.filter (λ r, negb (p r)) t, length (List.filter p t)).

(** [insert into t]: a new row has the next rowid. *)
Definition insert_row (r : row) t : list row := t ++ [r].

(** [order by]: a stable insertion sort. *)
Fixpoint insert_by (le : row → row → bool) (r : row) t : list row :=
  match t with
  | [] => [r]
  | r' :: t' => if le r r' then r :: t else r' :: insert_by le r t'
  end.
Definition order_by (le : row → row → bool) t : list row := foldr (insert_by le) [] t.

(** [order by ... limit 1]: the first of the rows no other row precedes. *)
Definition first_by (le : row → row → bool) t : option row := head (order_by le t).

(** [limit n] *)
Definition limit (n : nat) t : list row := take n t.

(** ** [update] *)

Lemma update_where_none p f t :
  (∀ r, r ∈ t → p r = false) → update_where p f t = (t, 0).
Proof.
  intros H. unfold update_where. rewrite Lfilter_none by done. f_equal.
  apply map_id_on. intros r Hr. by rewrite H.
Qed.

Lemma update_where_changes_0 p f t : (update_where p f t).2 = 0 → (update_where p f t).1 = t.
Proof.
  cbn. intros H%nil_length_inv. apply map_id_on. intros r Hr.
  destruct (p r) eqn:E; [|done].
  assert (Hin : r ∈ List.filter p t) by (by apply elem_of_Lfilter).
  rewrite H in Hin. by apply not_elem_of_nil in Hin.
Qed.

Lemma elem_of_update_where p f t r :
  r ∈ (update_where p f t).1 ↔ ∃ r0, r0 ∈ t ∧ r = if p r0 then f r0 else r0.
Proof. cbn. rewrite elem_of_Lmap. naive_solver. Qed.

Lemma Forall_update_where (P : row → Prop) p f t :
  Forall P t → (∀ r, r ∈ t → P r → p r = true → P (f r)) → Forall P (update_where p f t).1.
Proof.
  rewrite !Forall_forall. intros H Hf r (r0 & Hin & ->)%elem_of_update_where.
  destruct (p r0) eqn:E; auto.
Qed.

Lemma length_update_where p f t : length (update_where p f t).1 = length t.
Proof. apply List.length_map. Qed.

Lemma update_where_app p f t1 t2 :
  (update_where p f (t1 ++ t2)).1 = (update_where p f t1).1 ++ (update_where p f t2).1.
Proof. apply List.map_app. Qed.

(** ** [select] *)

Lemma get_where_Some p t r : get_where p t = Some r → r ∈ t ∧ p r = true.
Proof. apply find_some_iff. Qed.

Lemma get_where_None p t : get_where p t = None ↔ ∀ r, r ∈ t → p r = false.
Proof. apply find_none_iff. Qed.

Lemma get_where_is_Some p t r : r ∈ t → p r = true → is_Some (get_where p t).
Proof.
  intros Hin Hp. destruct (get_where p t) eqn:E; [eauto|].
  rewrite get_where_None in E. by rewrite (E _ Hin) in Hp.
Qed.

(** ** [order by] *)

Lemma insert_by_perm le r t : insert_by le r t ≡ₚ r :: t.
Proof.
  induction t as [|a t IH]; cbn; [done|].
  destruct (le r a); [done|]. rewrite IH. constructor.
Qed.

Lemma order_by_perm le t : order_by le t ≡ₚ t.
Proof. induction t as [|a t IH]; cbn; [done|]. by rewrite insert_by_perm, IH. Qed.

Lemma elem_of_order_by le t r : r ∈ order_by le t ↔ r ∈ t.
Proof. by rewrite (order_by_perm le t). Qed.

Lemma length_order_by le t : length (order_by le t) = length t.
Proof. by rewrite (order_by_perm le t). Qed.

Lemma order_by_nil le t : order_by le t = [] → t = [].
Proof. intros H. apply Permutation_nil. by rewrite <- H, order_by_perm. Qed.

Lemma insert_by_sorted le r t :
  (∀ a b, le a b = true ∨ le b a = true) →
  Sorted (λ a b, le a b = true) t → Sorted (λ a b, le a b = true) (insert_by le r t).
Proof.
  intros Htot. induction 1 as [|a t Hs IH Hhd]; cbn; [by repeat constructor|].
  destruct (le r a) eqn:E; [by repeat constructor|].
  constructor; [done|].
  destruct t as [|b t]; cbn; [constructor; by destruct (Htot a r); congruence|].
  destruct (le r b); constructor; [by destruct (Htot a r); congruence|].
  by inversion Hhd.
Qed.

Lemma order_by_sorted le t :
  (∀ a b, le a b = true ∨ le b a = true) → Sorted (λ a b, le a b = true) (order_by le t).
Proof. intros Htot. induction t; cbn; [constructor|]. by apply insert_by_sorted. Qed.

Lemma first_by_elem le t r : first_by le t = Some r → r ∈ t.
Proof.
  unfold first_by. intros H%head_Some_elem_of. by apply elem_of_order_by in H.
Qed.

Lemma first_by_None le t : first_by le t = None ↔ t = [].
Proof.
  unfold first_by. split; [|by intros ->].
  destruct (order_by le t) eqn:E; [|done]. intros _. by eapply order_by_nil.
Qed.

Lemma first_by_least le t r :
  (∀ a b, le a b = true ∨ le b a = true) →
  (∀ a b c, le a b = true → le b c = true → le a c = true) →
  first_by le t = Some r → ∀ x, x ∈ t → le r x = true.
Proof.
  intros Htot Htr H x Hx. pose proof (order_by_sorted le t Htot) as Hs.
  apply Sorted_StronglySorted in Hs; [|done].
  apply elem_of_order_by with (le := le) in Hx. unfold first_by in H.
  destruct (order_by le t) as [|y l] eqn:E; [done|]. cbn in H. simplify_eq.
  apply elem_of_cons in Hx as [->|Hx].
  - by destruct (Htot r r).
  - inversion Hs as [|? ? _ HF]; simplify_eq. rewrite Forall_forall in HF. by apply HF.
Qed.
End Statements.

#[global] Arguments select_where : simpl never.
#[global] Arguments get_where : simpl never.

(** ** Keyed tables

    A primary key (or a unique index) is a projection of the row. *)

Section Keyed.
Context {row K : Type} `{EqDecision K} (pk : row → K).
Implicit Types (p : row → bool) (f : row → row) (t : list row) (k : K).

(** The uniqueness constraint of the column. *)
Definition keyed t : Prop := NoDup (List.map pk t).

(** [select * from t where pk = k] *)
Definition by_key k t : option row := get_where (λ r, bool_decide (pk r = k)) t.

Definition preserves_key f : Prop := ∀ r, pk (f r) = pk r.

Lemma by_key_Some k t r : by_key k t = Some r → r ∈ t ∧ pk r = k.
Proof. intros [Hin H]%get_where_Some. by rewrite bool_decide_eq_true in H. Qed.

Lemma by_key_None k t : by_key k t = None ↔ ∀ r, r ∈ t → pk r ≠ k.
Proof. unfold by_key. rewrite get_where_None. setoid_rewrite bool_decide_eq_false. done. Qed.

Lemma keyed_inj t x y : keyed t → x ∈ t → y ∈ t → pk x = pk y → x = y.
Proof. apply NoDup_map_inj_on. Qed.

Lemma keyed_by_key t r : keyed t → r ∈ t → by_key (pk r) t = Some r.
Proof.
  intros Hk Hin. destruct (by_key (pk r) t) as [r'|] eqn:E.
  - apply by_key_Some in E as [Hin' E]. f_equal. by eapply keyed_inj.
  - rewrite by_key_None in E. by destruct (E r Hin).
Qed.

Lemma map_pk_update p f t :
  preserves_key f → List.map pk (update_where p f t).1 = List.map pk t.
Proof.
  intros Hf. cbn. rewrite List.map_map. apply List.map_ext. intros r. destruct (p r); auto.
Qed.

Lemma keyed_update p f t : preserves_key f → keyed t → keyed (update_where p f t).1.
Proof. intros Hf Hk. unfold keyed. by rewrite map_pk_update. Qed.

(** An [update] acts on each row on its own. *)
Lemma by_key_update p f t k :
  preserves_key f →
  by_key k (update_where p f t).1 = (λ r, if p r then f r else r) <$> by_key k t.
Proof.
  intros Hf. unfold by_key, get_where, update_where; cbn.
  induction t as [|r t IH]; cbn; [done|].
  replace (pk (if p r then f r else r)) with (pk r) by (destruct (p r); auto).
  by case_bool_decide.
Qed.

Lemma by_key_update_hit p f t k r :
  preserves_key f → by_key k t = Some r → p r = true →
  by_key k (update_where p f t).1 = Some (f r).
Proof. intros Hf Hr Hp. rewrite by_key_update, Hr by done. cbn. by rewrite Hp. Qed.

Lemma by_key_update_miss p f t k :
  preserves_key f → (∀ r, by_key k t = Some r → p r = false) →
  by_key k (update_where p f t).1 = by_key k t.
Proof.
  intros Hf Hp. rewrite by_key_update by done.
  destruct (by_key k t) as [r|] eqn:E; cbn; [|done]. by rewrite (Hp r eq_refl).
Qed.

(** With a unique key, a [where] that fixes the key changes at most one row, and changes one
    exactly when the row of that key satisfies the rest of the condition. *)
Lemma filter_keyed p t k :
  keyed t → (∀ r, p r = true → pk r = k) →
  List.filter p t = match by_key k t with
                    | Some r => if p r then [r] else []
                    | None => []
                    end.
Proof.
  intros Hk Hp. induction t as [|r t IH]; [done|].
  unfold keyed in Hk. cbn in Hk. apply NoDup_cons in Hk as [Hn Hk]. specialize (IH Hk).
  cbn. unfold by_key, get_where in *. cbn. case_bool_decide as E.
  - assert (Hrest : List.filter p t = []).
    { apply Lfilter_none. intros x Hx. destruct (p x) eqn:Px; [|done].
      destruct Hn. rewrite E, <- (Hp _ Px). apply elem_of_Lmap; eauto. }
    rewrite Hrest. by destruct (p r).
  - destruct (p r) eqn:Pr; [by apply Hp in Pr|]. done.
Qed.

Lemma changes_keyed p f t k :
  keyed t → (∀ r, p r = true → pk r = k) →
  (update_where p f t).2 = match by_key k t with
                           | Some r => if p r then 1 else 0
                           | None => 0
                           end.
Proof.
  intros Hk Hp. cbn. rewrite (filter_keyed p t k) by done.
  destruct (by_key k t) as [r|]; [|done]. by destruct (p r).
Qed.

Lemma keyed_insert r t : keyed t → by_key (pk r) t = None → keyed (insert_row r t).
Proof.
  unfold keyed, insert_row. rewrite by_key_None, List.map_app. cbn. intros Hk Hn.
  apply NoDup_app. split; [done|]. split; [|apply NoDup_singleton].
  intros x (r' & -> & Hin)%elem_of_Lmap E%list_elem_of_singleton. by apply (Hn r').
Qed.

Lemma by_key_insert_eq r t : by_key (pk r) t = None → by_key (pk r) (insert_row r t) = Some r.
Proof.
  unfold by_key, insert_row, get_where. intros H. rewrite find_app, H. cbn.
  by rewrite bool_decide_eq_true_2.
Qed.

Lemma by_key_insert_ne r t k : k ≠ pk r → by_key k (insert_row r t) = by_key k t.
Proof.
  unfold by_key, insert_row, get_where. intros H. rewrite find_app. cbn.
  rewrite bool_decide_eq_false_2 by done. by destruct (List.find _ t).
Qed.

Lemma keyed_delete p t : keyed t → keyed (delete_where p t).1.
Proof.
  unfold keyed; cbn. induction t as [|r t IH]; cbn; [done|].
  rewrite NoDup_cons. intros [Hn Hk]. destruct (p r); cbn; [auto|].
  apply NoDup_cons. split; [|auto]. intros (x & E & Hin)%elem_of_Lmap.
  apply elem_of_Lfilter in Hin as [Hin _]. destruct Hn. apply elem_of_Lmap; eauto.
Qed.

Lemma keyed_select p t : keyed t → keyed (select_where p t).
Proof.
  unfold keyed, select_where. induction t as [|r t IH]; cbn; [done|].
  rewrite NoDup_cons. intros [Hn Hk]. destruct (p r); cbn; [|auto].
  apply NoDup_cons. split; [|auto]. intros (x & E & [Hx _]%elem_of_Lfilter)%elem_of_Lmap.
  destruct Hn. apply elem_of_Lmap; eauto.
Qed.

Lemma by_key_delete p t k :
  keyed t →
  by_key k (delete_where p t).1 =
    match by_key k t with Some r => if p r then None else Some r | None => None end.
Proof.
  intros Hk. destruct (by_key k t) as [r|] eqn:E.
  - apply by_key_Some in E as [Hin <-]. destruct (p r) eqn:Pr.
    + apply by_key_None. intros x [Hx Hp]%elem_of_Lfilter E.
      assert (x = r) as -> by (by eapply keyed_inj). by rewrite Pr in Hp.
    + apply keyed_by_key; [by apply keyed_delete|]. apply elem_of_Lfilter. by rewrite Pr.
  - apply by_key_None. intros x [Hx _]%elem_of_Lfilter. by apply by_key_None with (r := x) in E.
Qed.
End Keyed.

#[export] Hint Resolve keyed_update keyed_insert keyed_delete : kontrol.
#[export] Hint Unfold preserves_key : kontrol.

(** [auto] proves that an update leaves the key alone. *)
#[export] Hint Extern 1 (preserves_key _ _) => (intros []; reflexivity) : kontrol.

(** ** Compare-and-set loops

    The stores select candidates first and then update them one at a time, each update guarded by
    a condition on the row as it is by then. *)

Section CasLoop.
Context {row K : Type} `{EqDecision K} (pk : row → K).
Context (cas : row → row → bool) (f : row → row).

(** The table after the loop, and the candidates whose update changed a row. *)
Fixpoint cas_loop (candidates : list row) (t : list row) : list row * list row :=
  match candidates with
  | [] => (t, [])
  | r :: rest =>
      let '(t1, changes) := update_where (cas r) f t in
      let '(t2, hit) := cas_loop rest t1 in
      (t2, if Nat.eqb changes 0 then hit else r :: hit)
  end.

(** The table alone: the updates one after the other. *)
Lemma cas_loop_foldl candidates t :
  (cas_loop candidates t).1 = foldl (λ t' r, (update_where (cas r) f t').1) t candidates.
Proof.
  revert t; induction candidates as [|r rest IH]; intros t; cbn -[update_where]; [done|].
  rewrite (surjective_pairing (update_where _ _ t)), <- IH. cbn [fst].
  by destruct (cas_loop rest _).
Qed.

Hypothesis f_key : preserves_key pk f.
Hypothesis cas_key : ∀ r x, cas r x = true → pk x = pk r.

Lemma update_where_ext p q (t : list row) :
  (∀ x, x ∈ t → p x = q x) → update_where p f t = update_where q f t.
Proof.
  intros H. unfold update_where. rewrite (Lfilter_ext p q) by done. f_equal.
  apply List.map_ext_in. intros x Hx%list_elem_of_In. by rewrite H.
Qed.

(** When nothing else writes, the loop is the one statement that updates every candidate. *)
Lemma cas_loop_bulk sel t :
  keyed pk t → NoDup (List.map pk sel) →
  (∀ r, r ∈ sel → by_key pk (pk r) t = Some r ∧ cas r r = true) →
  cas_loop sel t = ((update_where (λ x, bool_decide (pk x ∈ List.map pk sel)) f t).1, sel).
Proof.
  revert t; induction sel as [|r sel IH]; intros t Hk Hnd Hsel.
  { cbn -[update_where]. rewrite update_where_none; [done|]. intros x _.
    by apply bool_decide_eq_false, not_elem_of_nil. }
  cbn in Hnd. apply NoDup_cons in Hnd as [Hn Hnd].
  destruct (Hsel r ltac:(by left)) as [Hr Hcas].
  assert (E1 : update_where (cas r) f t = update_where (λ x, bool_decide (pk x = pk r)) f t).
  { apply update_where_ext. intros x Hx. case_bool_decide as E.
    - assert (x = r) as ->; [|done]. apply by_key_Some in Hr as [Hin _].
      by eapply (keyed_inj pk t).
    - destruct (cas r x) eqn:C; [|done]. by apply cas_key in C. }
  assert (E2 : (update_where (λ x, bool_decide (pk x = pk r)) f t).2 = 1).
  { rewrite (changes_keyed pk _ _ _ (pk r)), Hr by (done || intros ? ?%bool_decide_eq_true; done).
    by rewrite bool_decide_eq_true_2. }
  cbn [cas_loop]. rewrite E1.
  rewrite (surjective_pairing (update_where (λ x, bool_decide (pk x = pk r)) f t)), E2.
  cbn [Nat.eqb].
  remember (update_where (λ x, bool_decide (pk x = pk r)) f t).1 as t1 eqn:Et1.
  rewrite IH; clear IH.
  - f_equal. subst t1. cbn. rewrite List.map_map. apply List.map_ext. intros x. cbn.
    destruct (decide (pk x = pk r)) as [Ex|Ex].
    + rewrite (bool_decide_eq_true_2 (pk x = pk r)) by done. rewrite f_key, Ex.
      rewrite (bool_decide_eq_false_2 (_ ∈ _)) by done.
      rewrite bool_decide_eq_true_2; [done|]. by left.
    + rewrite (bool_decide_eq_false_2 (pk x = pk r)) by done.
      erewrite bool_decide_ext; [reflexivity|]. set_solver.
  - subst t1. by apply keyed_update.
  - done.
  - intros r' Hr'. destruct (Hsel r' ltac:(by right)) as [Hb Hc]. split; [|done].
    subst t1. rewrite by_key_update_miss; [done|done|]. intros x Hx.
    apply by_key_Some in Hx as [_ Hx]. apply bool_decide_eq_false. intros E'.
    destruct Hn. rewrite <- E', Hx. apply elem_of_Lmap; eauto.
Qed.

(** The usual case: the candidates are the rows that satisfy a condition the guard repeats. *)
Lemma cas_loop_select p t :
  keyed pk t → (∀ r, r ∈ t → p r = true → cas r r = true) →
  cas_loop (select_where p t) t = ((update_where p f t).1, select_where p t).
Proof.
  intros Hk Hp. rewrite cas_loop_bulk; [|done| |].
  - f_equal. f_equal. apply update_where_ext. intros x Hx. apply eq_true_iff_eq.
    rewrite bool_decide_eq_true, elem_of_Lmap. split.
    + intros (y & E & [Hy Py]%elem_of_Lfilter).
      assert (x = y) as -> by (by eapply (keyed_inj pk t)). done.
    + intros Px. exists x. split; [done|]. by apply elem_of_Lfilter.
  - by apply keyed_select.
  - intros r [Hr Pr]%elem_of_Lfilter. split; [by apply keyed_by_key|auto].
Qed.
End CasLoop.

#[global] Arguments update_where : simpl never.
#[global] Arguments delete_where : simpl never.
#[global] Arguments cas_loop : simpl never.
