(* ===== verification/Outbox.v ===== *)
(** * The durable dispatch outbox ([src/src/dispatch-outbox.ts])

    Work for the dispatchers is queued in the table [dispatch_outbox].  A worker claims an event
    under a lease and a freshly minted fencing token; every transition of a claimed event presents
    the token.  The file models every operation of [createDispatchOutbox], with the row's columns
    as the code reads and writes them and the microtask queue of its notifications. *)

From S2P Require Import Prelude JsString Json Sql.

Module DispatchOutbox.

Inductive OutboxStatus := pending | claimed | suspended | completed | failed | dead_lettered.

#[export] Instance OutboxStatus_eq_dec : EqDecision OutboxStatus.
Proof. solve_decision. Defined.

(** A row of [dispatch_outbox]; also the [DispatchOutboxEvent] the code projects it to, where a
    null column reads as undefined. *)
Record DispatchOutboxEvent := mkEvent {
  id : jsstr;
  eventType : jsstr;
  aggregateId : jsstr;
  aggregateRevision : Z;
  payload : list (jsstr * json);
  status : OutboxStatus;
  claimToken : option jsstr;
  attemptCount : Z;
  failureCount : Z;
  availableAt : Z;
  claimedBy : option jsstr;
  claimExpiresAt : option Z;
  lastError : option jsstr;
  createdAt : Z;
  completedAt : option Z
}.

Record OutboxClaim := mkClaim { eventId : jsstr; claimOwner : jsstr; presentedToken : jsstr }.

(** A subscription: the identity of its entry and the event types it listens for. *)
Record listener := mkListener { listenerId : nat; eventTypes : option (list jsstr) }.

(** The outbox of one process: the table, the subscriptions, the queued microtasks and the
    notifications delivered so far. *)
Record outbox := mkOutbox {
  rows : list DispatchOutboxEvent;
  listeners : list listener;
  microtasks : list DispatchOutboxEvent;
  delivered : list (nat * jsstr)
}.

Definition set_rows (t : list DispatchOutboxEvent) (s : outbox) : outbox :=
  mkOutbox t (listeners s) (microtasks s) (delivered s).

(** [queueMicrotask(() => notify(event))] *)
Definition queueNotify (e : DispatchOutboxEvent) (s : outbox) : outbox :=
  mkOutbox (rows s) (listeners s) (microtasks s ++ [e]) (delivered s).

(** ** Notifications *)

(** The listeners an event reaches, in subscription order.  What a listener throws is dropped. *)
Definition notify (ls : list listener) (e : DispatchOutboxEvent) : list nat :=
  listenerId <$>
    List.filter (λ l, match eventTypes l with
                      | Some ts => existsb (js_eqb (eventType e)) ts
                      | None => true
                      end) ls.

(** [subscribe]: the new entry's identity is the handle its unsubscriber deletes. *)
Definition subscribe (entry : nat) (ts : option (list jsstr)) (s : outbox) : outbox :=
  mkOutbox (rows s) (listeners s ++ [mkListener entry ts]) (microtasks s) (delivered s).

Definition unsubscribe (entry : nat) (s : outbox) : outbox :=
  mkOutbox (rows s) (List.filter (λ l, negb (Nat.eqb (listenerId l) entry)) (listeners s))
    (microtasks s) (delivered s).

(** One microtask runs. *)
Definition runMicrotask (s : outbox) : outbox :=
  match microtasks s with
  | [] => s
  | e :: rest =>
      mkOutbox (rows s) (listeners s) rest
        (delivered s ++ List.map (λ l, (l, id e)) (notify (listeners s) e))
  end.

(** ** Enqueueing *)

(** [payloadRevision]: a non-negative integer [payload.revision] *)
Definition payloadRevision (p : list (jsstr * json)) : option Z :=
  match jfield "revision" p with
  | Some (JNum z) => if (0 <=? z)%Z then Some z else None
  | _ => None
  end.

Definition logical (r : DispatchOutboxEvent) : jsstr * jsstr * Z :=
  (eventType r, aggregateId r, aggregateRevision r).

Definition getByLogical (ty agg : jsstr) (rev : Z) (s : outbox) : option DispatchOutboxEvent :=
  by_key logical (ty, agg, rev) (rows s).

Record EnqueueInput := mkEnqueue {
  in_eventType : jsstr;
  in_aggregateId : jsstr;
  in_aggregateRevision : option Z;
  in_payload : option (list (jsstr * json));
  in_availableAt : option Z
}.

(** [input.aggregateRevision ?? payloadRevision(input.payload) ?? 0] *)
Definition effectiveRevision (i : EnqueueInput) : Z :=
  match in_aggregateRevision i with
  | Some r => r
  | None => default 0%Z (in_payload i ≫= payloadRevision)
  end.

Definition newEvent (now : Z) (uuid : jsstr) (i : EnqueueInput) : DispatchOutboxEvent :=
  {| id := "out_" +s uuid; eventType := in_eventType i; aggregateId := in_aggregateId i;
     aggregateRevision := effectiveRevision i; payload := default [] (in_payload i);
     status := pending; claimToken := None; attemptCount := 0; failureCount := 0;
     availableAt := default now (in_availableAt i); claimedBy := None; claimExpiresAt := None;
     lastError := None; createdAt := now; completedAt := None |}.

Definition enqueue (now : Z) (uuid : jsstr) (i : EnqueueInput) (s : outbox)
  : DispatchOutboxEvent * outbox :=
  match getByLogical (in_eventType i) (in_aggregateId i) (effectiveRevision i) s with
  | Some existing => (existing, s)
  | None =>
      let e := newEvent now uuid i in
      (e, queueNotify e (set_rows (insert_row e (rows s)) s))
  end.

(** ** Claiming *)

Definition le_available (a b : DispatchOutboxEvent) : bool := (availableAt a <=? availableAt b)%Z.

(** [...(eventTypes?.length ? [inArray(...)] : [])] *)
Definition inTypes (ts : option (list jsstr)) (r : DispatchOutboxEvent) : bool :=
  match ts with
  | Some ((_ :: _) as l) => existsb (js_eqb (eventType r)) l
  | _ => true
  end.

Definition notExcluded (xs : option (list jsstr)) (r : DispatchOutboxEvent) : bool :=
  match xs with
  | Some ((_ :: _) as l) => negb (existsb (js_eqb (aggregateId r)) l)
  | _ => true
  end.

Definition is_status (st : OutboxStatus) (r : DispatchOutboxEvent) : bool :=
  bool_decide (status r = st).

Definition has_id (k : jsstr) (r : DispatchOutboxEvent) : bool := bool_decide (id r = k).

Definition claimable (now : Z) (ts xs : option (list jsstr)) (r : DispatchOutboxEvent) : bool :=
  is_status pending r && (availableAt r <=? now)%Z && inTypes ts r && notExcluded xs r.

Definition set_claimed (worker : jsstr) (expires : Z) (token : jsstr) (attempts : Z)
  (r : DispatchOutboxEvent) : DispatchOutboxEvent :=
  {| id := id r; eventType := eventType r; aggregateId := aggregateId r;
     aggregateRevision := aggregateRevision r; payload := payload r; status := claimed;
     claimToken := Some token; attemptCount := attempts; failureCount := failureCount r;
     availableAt := availableAt r; claimedBy := Some worker; claimExpiresAt := Some expires;
     lastError := lastError r; createdAt := createdAt r; completedAt := completedAt r |}.

(** [claimNext]; [now] and [now'] are its two clock readings, [uuid] the randomness of the token. *)
Definition claimNext (now now' : Z) (uuid workerId : jsstr) (leaseMs : Z)
  (ts xs : option (list jsstr)) (s : outbox) : option DispatchOutboxEvent * outbox :=
  match first_by le_available (select_where (claimable now ts xs) (rows s)) with
  | None => (None, s)
  | Some candidate =>
      let '(t, changes) :=
        update_where (λ r, has_id (id candidate) r && is_status pending r)
          (set_claimed workerId (now' + leaseMs) ("clm_" +s uuid) (attemptCount candidate + 1))
          (rows s) in
      if Nat.eqb changes 0 then (None, set_rows t s)
      else (by_key id (id candidate) t, set_rows t s)
  end.

(** ** Fenced transitions of a claimed event *)

(** Columns the transitions of a claim clear. *)
Definition unclaimed (st : OutboxStatus) (available : Z) (failures : Z) (err : option jsstr)
  (done : option Z) (r : DispatchOutboxEvent) : DispatchOutboxEvent :=
  {| id := id r; eventType := eventType r; aggregateId := aggregateId r;
     aggregateRevision := aggregateRevision r; payload := payload r; status := st;
     claimToken := None; attemptCount := attemptCount r; failureCount := failures;
     availableAt := available; claimedBy := None; claimExpiresAt := None;
     lastError := err; createdAt := createdAt r; completedAt := done |}.

Definition fencedClaimWhere (now : Z) (c : OutboxClaim) (r : DispatchOutboxEvent) : bool :=
  has_id (eventId c) r && is_status claimed r
  && bool_decide (claimedBy r = Some (claimOwner c))
  && bool_decide (claimToken r = Some (presentedToken c))
  && match claimExpiresAt r with None => true | Some x => (now <? x)%Z end.

(** The updates of the four transitions. *)
Definition set_released (available : Z) (note : option jsstr) (r : DispatchOutboxEvent) :=
  unclaimed pending available (failureCount r) note (completedAt r) r.
Definition set_completed (now : Z) (r : DispatchOutboxEvent) :=
  unclaimed completed (availableAt r) (failureCount r) (lastError r) (Some now) r.
Definition set_dead_lettered (failures : Z) (err : jsstr) (r : DispatchOutboxEvent) :=
  unclaimed dead_lettered (availableAt r) failures (Some err) (completedAt r) r.
Definition set_failed_retry (failures available : Z) (err : jsstr) (r : DispatchOutboxEvent) :=
  unclaimed pending available failures (Some err) (completedAt r) r.
Definition set_suspended (reason : jsstr) (r : DispatchOutboxEvent) :=
  unclaimed suspended (availableAt r) (failureCount r) (Some reason) (completedAt r) r.

(** [update(...).set(f).where(fencedClaimWhere(claim))], returning [changes === 1] *)
Definition fenced_update (now : Z) (c : OutboxClaim)
  (f : DispatchOutboxEvent → DispatchOutboxEvent) (s : outbox) : bool * outbox :=
  let '(t, changes) := update_where (fencedClaimWhere now c) f (rows s) in
  (Nat.eqb changes 1, set_rows t s).

Definition release (now now' : Z) (c : OutboxClaim) (retryDelayMs : Z) (note : option jsstr)
  (s : outbox) : bool * outbox :=
  fenced_update now' c (set_released (now + retryDelayMs) note) s.

Definition markCompleted (now now' : Z) (c : OutboxClaim) (s : outbox) : bool * outbox :=
  fenced_update now' c (set_completed now) s.

(** [markFailed]; [now] is read by the select, [now'] by the backoff and [now''] by the update. *)
Definition markFailed (now now' now'' : Z) (c : OutboxClaim) (error : jsstr) (retryDelayMs : Z)
  (s : outbox) : bool * outbox :=
  match get_where (fencedClaimWhere now c) (rows s) with
  | None => (false, s)
  | Some row =>
      let failures := (failureCount row + 1)%Z in
      if (3 <=? failures)%Z then
        fenced_update now'' c (set_dead_lettered failures error) s
      else
        fenced_update now'' c
          (set_failed_retry failures (now' + retryDelayMs * 2 ^ (failures - 1)) error) s
  end.

Definition markSuspended (now : Z) (c : OutboxClaim) (reason : jsstr) (s : outbox)
  : bool * outbox :=
  fenced_update now c (set_suspended reason) s.

(** ** Reaping expired claims *)

(** [lt(claimExpiresAt, cutoff)]: a null lease never satisfies it. *)
Definition expired_before (cutoff : Z) (r : DispatchOutboxEvent) : bool :=
  match claimExpiresAt r with Some x => (x <? cutoff)%Z | None => false end.

Definition reapable (cutoff : Z) (r : DispatchOutboxEvent) : bool :=
  is_status claimed r && expired_before cutoff r.

Definition set_reaped (r : DispatchOutboxEvent) : DispatchOutboxEvent :=
  unclaimed pending (availableAt r) (failureCount r) (lastError r) (completedAt r) r.

(** The guard of the update for a candidate: its identity and claim as selected. *)
Definition same_claim (cutoff : Z) (candidate r : DispatchOutboxEvent) : bool :=
  has_id (id candidate) r && is_status claimed r
  && bool_decide (claimedBy r = claimedBy candidate)
  && bool_decide (claimToken r = claimToken candidate)
  && bool_decide (claimExpiresAt r = claimExpiresAt candidate)
  && expired_before cutoff r.

Definition reapExpiredClaims (now leaseMs : Z) (s : outbox) : nat * outbox :=
  let cutoff := (now - leaseMs)%Z in
  let '(t, hit) :=
    cas_loop (same_claim cutoff) set_reaped (select_where (reapable cutoff) (rows s)) (rows s) in
  (length hit, set_rows t s).

(** [finalizeCancellation] of the review workflow resolves a pending cancellation event with a
    statement of its own: [update dispatch_outbox set status = 'completed', completed_at = ?
    where id = ? and status = 'pending']. *)
Definition set_completed_direct (now : Z) (r : DispatchOutboxEvent) : DispatchOutboxEvent :=
  {| id := id r; eventType := eventType r; aggregateId := aggregateId r;
     aggregateRevision := aggregateRevision r; payload := payload r; status := completed;
     claimToken := claimToken r; attemptCount := attemptCount r; failureCount := failureCount r;
     availableAt := availableAt r; claimedBy := claimedBy r; claimExpiresAt := claimExpiresAt r;
     lastError := lastError r; createdAt := createdAt r; completedAt := Some now |}.

Definition completePending (now : Z) (k : jsstr) (s : outbox) : outbox :=
  set_rows (update_where (λ r, has_id k r && is_status pending r) (set_completed_direct now)
              (rows s)).1 s.

(** ** Suspension and redrive *)

(** [/^[A-Za-z0-9_]+$/] *)
Definition word_unit (c : N) : bool :=
  ((48 <=? c) && (c <=? 57) || (65 <=? c) && (c <=? 90) || (97 <=? c) && (c <=? 122) || (c =? 95))%N.
Definition valid_payload_key (k : jsstr) : bool := nonempty k && forallb word_unit k.

(** [reasonPrefix.length === 0 || reasonPrefix.length > 160 || /[\r\n\0]/.test(reasonPrefix)] *)
Definition invalid_reason_prefix (p : jsstr) : bool :=
  negb (nonempty p) || (160 <? length p)%nat
  || existsb (λ c, (N.eqb c CR || N.eqb c LF || N.eqb c NUL)) p.

Definition resumable (ty key value : jsstr) (prefix : option jsstr) (r : DispatchOutboxEvent)
  : bool :=
  js_eqb (eventType r) ty && is_status suspended r
  && bool_decide (as_string (jfield key (payload r)) = Some value)
  && match prefix with
     | None => true
     | Some p => match lastError r with Some e => js_eqb (take (length p) e) p | None => false end
     end.

Definition set_resumed (now : Z) (r : DispatchOutboxEvent) : DispatchOutboxEvent :=
  {| id := id r; eventType := eventType r; aggregateId := aggregateId r;
     aggregateRevision := aggregateRevision r; payload := payload r; status := pending;
     claimToken := claimToken r; attemptCount := attemptCount r; failureCount := failureCount r;
     availableAt := now; claimedBy := claimedBy r; claimExpiresAt := claimExpiresAt r;
     lastError := None; createdAt := createdAt r; completedAt := completedAt r |}.

Inductive OutboxError := InvalidPayloadKey | InvalidReasonPrefix.

Definition resumeSuspended (now : Z) (ty key value : jsstr) (prefix : option jsstr) (s : outbox)
  : res OutboxError (nat * outbox) :=
  _ ← ensure (valid_payload_key key) InvalidPayloadKey;
  _ ← reject (match prefix with Some p => invalid_reason_prefix p | None => false end)
        InvalidReasonPrefix;
  let '(t, hit) :=
    cas_loop (λ c r, has_id (id c) r && is_status suspended r) (set_resumed now)
      (select_where (resumable ty key value prefix) (rows s)) (rows s) in
  Ok (length hit,
      foldl (λ s' c, match by_key id (id c) t with Some r => queueNotify r s' | None => s' end)
        (set_rows t s) hit).

Definition set_redriven (now : Z) (r : DispatchOutboxEvent) : DispatchOutboxEvent :=
  {| id := id r; eventType := eventType r; aggregateId := aggregateId r;
     aggregateRevision := aggregateRevision r; payload := payload r; status := pending;
     claimToken := None; attemptCount := 0; failureCount := 0; availableAt := now;
     claimedBy := None; claimExpiresAt := None; lastError := None; createdAt := createdAt r;
     completedAt := None |}.

Definition redriveDeadLetter (now : Z) (ty agg : jsstr) (rev : option Z) (s : outbox)
  : option DispatchOutboxEvent * outbox :=
  match getByLogical ty agg (default 0%Z rev) s with
  | None => (None, s)
  | Some existing =>
      if negb (is_status dead_lettered existing) then (None, s)
      else
        let '(t, changes) :=
          update_where (λ r, has_id (id existing) r && is_status dead_lettered r
                             && Z.eqb (failureCount r) (failureCount existing)
                             && Z.eqb (attemptCount r) (attemptCount existing))
            (set_redriven now) (rows s) in
        if negb (Nat.eqb changes 1) then (None, set_rows t s)
        else match by_key id (id existing) t with
             | Some e => (Some e, queueNotify e (set_rows t s))
             | None => (None, set_rows t s)
             end
  end.

(** ** Queries *)

Definition get (k : jsstr) (s : outbox) : option DispatchOutboxEvent := by_key id k (rows s).

Definition listByAggregate (agg : jsstr) (s : outbox) : list DispatchOutboxEvent :=
  order_by (λ a b, createdAt a <=? createdAt b)%Z
    (select_where (λ r, js_eqb (aggregateId r) agg) (rows s)).

Definition listPending (n : option nat) (ts : option (list jsstr)) (s : outbox)
  : list DispatchOutboxEvent :=
  limit (default 50 n)
    (order_by le_available (select_where (λ r, is_status pending r && inTypes ts r) (rows s))).

Definition hasActive (ty agg : jsstr) (s : outbox) : bool :=
  bool_decide (is_Some (get_where (λ r,
    js_eqb (eventType r) ty && js_eqb (aggregateId r) agg
    && (is_status pending r || is_status claimed r || is_status suspended r)) (rows s))).

Definition hasLogical (ty agg : jsstr) (rev : option Z) (s : outbox) : bool :=
  bool_decide (is_Some (getByLogical ty agg (default 0%Z rev) s)).

(** ** Histories

    A world is an outbox together with the fencing tokens ever minted.  [randomUUID] never repeats
    a token or an event id, which is what the side conditions of the first two rules say. *)

Record world := mkWorld { box : outbox; issued : list jsstr }.

Inductive step : world → world → Prop :=
| step_enqueue now uuid i w :
    by_key id ("out_" +s uuid) (rows (box w)) = None →
    step w (mkWorld (enqueue now uuid i (box w)).2 (issued w))
| step_claim now now' uuid worker leaseMs ts xs w :
    "clm_" +s uuid ∉ issued w →
    step w (mkWorld (claimNext now now' uuid worker leaseMs ts xs (box w)).2
              (("clm_" +s uuid) :: issued w))
| step_reap now leaseMs w :
    step w (mkWorld (reapExpiredClaims now leaseMs (box w)).2 (issued w))
| step_release now now' c delay note w :
    step w (mkWorld (release now now' c delay note (box w)).2 (issued w))
| step_complete now now' c w :
    step w (mkWorld (markCompleted now now' c (box w)).2 (issued w))
| step_fail now now' now'' c err delay w :
    step w (mkWorld (markFailed now now' now'' c err delay (box w)).2 (issued w))
| step_suspend now c reason w :
    step w (mkWorld (markSuspended now c reason (box w)).2 (issued w))
| step_resume now ty key value prefix n s w :
    resumeSuspended now ty key value prefix (box w) = Ok (n, s) →
    step w (mkWorld s (issued w))
| step_redrive now ty agg rev w :
    step w (mkWorld (redriveDeadLetter now ty agg rev (box w)).2 (issued w))
| step_complete_pending now k w :
    step w (mkWorld (completePending now k (box w)) (issued w))
| step_subscribe n ts w :
    step w (mkWorld (subscribe n ts (box w)) (issued w))
| step_unsubscribe n w :
    step w (mkWorld (unsubscribe n (box w)) (issued w))
| step_microtask w :
    step w (mkWorld (runMicrotask (box w)) (issued w)).

(** What every row satisfies: a claim's owner, token and lease are there exactly while the event
    is claimed; an event is dead-lettered exactly at its third failure; a failure was paid for by
    a claim of its own. *)
Definition row_ok (r : DispatchOutboxEvent) : Prop :=
  (status r = claimed →
     is_Some (claimToken r) ∧ is_Some (claimedBy r) ∧ is_Some (claimExpiresAt r)
     ∧ (failureCount r < attemptCount r)%Z) ∧
  (status r ≠ claimed →
     claimToken r = None ∧ claimedBy r = None ∧ claimExpiresAt r = None) ∧
  (0 ≤ failureCount r ≤ 3)%Z ∧ (failureCount r ≤ attemptCount r)%Z ∧
  (status r = dead_lettered ↔ failureCount r = 3%Z).

(** The invariant of the table: unique ids, one event per logical identity, well-formed rows, and
    every live token was minted for that one event. *)
Record outbox_inv (w : world) : Prop := {
  inv_id : keyed id (rows (box w));
  inv_logical : keyed logical (rows (box w));
  inv_rows : Forall row_ok (rows (box w));
  inv_issued : ∀ r t, r ∈ rows (box w) → claimToken r = Some t → t ∈ issued w;
  inv_token : ∀ r r' t, r ∈ rows (box w) → r' ∈ rows (box w) →
    claimToken r = Some t → claimToken r' = Some t → r = r'
}.

Definition empty_world : world := mkWorld (mkOutbox [] [] [] []) [].

(** ** Rows the updates produce *)

Ltac row_ok_tac :=
  unfold row_ok; cbn; intros; destruct_and?; split_and!; try done; try lia; try tauto;
  intros; try congruence; try lia.

Lemma row_ok_claimed w e t r :
  row_ok r → status r = pending → row_ok (set_claimed w e t (attemptCount r + 1) r).
Proof.
  intros (_ & _ & Hf & Ha & Hd) Hs. unfold row_ok; cbn. split_and!; try done; try lia; try eauto 6.
  - intros _. split_and!; eauto; lia.
  - split; [done|]. intros Hc. apply Hd in Hc. congruence.
Qed.

(** A transition that leaves the claimed state without a failure. *)
Lemma row_ok_unclaimed st a e d r :
  row_ok r → status r = claimed → st ≠ claimed → st ≠ dead_lettered →
  row_ok (unclaimed st a (failureCount r) e d r).
Proof.
  intros (Hc & _ & Hf & Ha & Hd) Hs Hn Hn'. unfold row_ok; cbn. split_and!; try done; try lia.
  split; [done|]. intros ?. rewrite Hs in Hd. naive_solver.
Qed.

Lemma row_ok_failed st a n e d r :
  row_ok r → status r = claimed → n = (failureCount r + 1)%Z → st ≠ claimed →
  (st = dead_lettered ↔ n = 3%Z) → row_ok (unclaimed st a n e d r).
Proof.
  intros (Hc & _ & Hf & Ha & Hd) Hs -> Hn Hn'. destruct (Hc Hs) as (_ & _ & _ & Hlt).
  assert (failureCount r ≠ 3%Z) by (rewrite <- Hd; congruence).
  unfold row_ok; cbn. split_and!; try done; lia.
Qed.

Lemma row_ok_resumed now r : row_ok r → status r = suspended → row_ok (set_resumed now r).
Proof.
  intros (Hc & Hu & Hf & Ha & Hd) Hs. unfold row_ok; cbn.
  split_and!; try done; try lia; [intros _; apply Hu; congruence|].
  rewrite <- Hd, Hs. done.
Qed.

Lemma row_ok_completed_direct now r :
  row_ok r → status r = pending → row_ok (set_completed_direct now r).
Proof.
  intros (Hc & Hu & Hf & Ha & Hd) Hs. unfold row_ok; cbn.
  split_and!; try done; try lia; [intros _; apply Hu; congruence|].
  rewrite <- Hd, Hs. done.
Qed.

Lemma row_ok_redriven now r : row_ok r → row_ok (set_redriven now r).
Proof. intros _. unfold row_ok; cbn. split_and!; try done; lia. Qed.

Lemma row_ok_new now uuid i : row_ok (newEvent now uuid i).
Proof. unfold row_ok; cbn. split_and!; try done; lia. Qed.

#[export] Hint Resolve row_ok_claimed row_ok_unclaimed row_ok_failed row_ok_resumed
  row_ok_completed_direct row_ok_redriven row_ok_new : kontrol.

(** ** Updates preserve the invariant *)

(** An update that keeps ids, logical identities and row well-formedness, and mints no token. *)
Lemma inv_update p f l s :
  outbox_inv (mkWorld s l) →
  preserves_key id f → preserves_key logical f →
  (∀ r, p r = true → row_ok r → row_ok (f r)) →
  (∀ r t, claimToken (f r) = Some t → claimToken r = Some t) →
  outbox_inv (mkWorld (set_rows (update_where p f (rows s)).1 s) l).
Proof.
  intros [Hid Hlg Hok His Htk] Hi Hl Hf Ht; cbn in *. split; cbn.
  - by apply keyed_update.
  - by apply keyed_update.
  - apply Forall_update_where; auto.
  - intros r t (r0 & Hin & ->)%elem_of_update_where E.
    destruct (p r0); [apply Ht in E|]; eauto.
  - intros r r' t (r0 & Hin & ->)%elem_of_update_where (r0' & Hin' & ->)%elem_of_update_where E E'.
    assert (claimToken r0 = Some t) by (destruct (p r0); auto).
    assert (claimToken r0' = Some t) by (destruct (p r0'); auto).
    assert (r0 = r0') as -> by eauto. done.
Qed.

Lemma inv_irrelevant l s ls m d :
  outbox_inv (mkWorld s l) → outbox_inv (mkWorld (mkOutbox (rows s) ls m d) l).
Proof. by intros [? ? ? ? ?]. Qed.

Lemma fencedClaimWhere_true now c r :
  fencedClaimWhere now c r = true ↔
    id r = eventId c ∧ status r = claimed ∧ claimedBy r = Some (claimOwner c)
    ∧ claimToken r = Some (presentedToken c)
    ∧ (∀ x, claimExpiresAt r = Some x → (now < x)%Z).
Proof.
  unfold fencedClaimWhere, has_id, is_status. reflect_guards.
  destruct (claimExpiresAt r) as [x|]; reflect_guards; naive_solver.
Qed.

Lemma inv_fenced now c f l s :
  outbox_inv (mkWorld s l) →
  preserves_key id f → preserves_key logical f →
  (∀ r, status r = claimed → row_ok r → row_ok (f r)) →
  (∀ r, claimToken (f r) = None) →
  outbox_inv (mkWorld (fenced_update now c f s).2 l).
Proof.
  intros HI Hi Hl Hf Ht. unfold fenced_update. cbn. apply inv_update; auto.
  - intros r Hp. apply fencedClaimWhere_true in Hp as (_ & Hs & _). auto.
  - intros r t E. by rewrite Ht in E.
Qed.

Lemma has_id_refl r : has_id (id r) r = true.
Proof. by apply bool_decide_eq_true. Qed.

Lemma claim_candidate now ts xs s c :
  first_by le_available (select_where (claimable now ts xs) (rows s)) = Some c →
  c ∈ rows s ∧ status c = pending ∧ (availableAt c <= now)%Z
  ∧ inTypes ts c = true ∧ notExcluded xs c = true.
Proof.
  intros [Hin Hc]%first_by_elem%elem_of_Lfilter. unfold claimable, is_status in Hc.
  reflect_guards. naive_solver.
Qed.

(** Claiming: the candidate's row, and only it, becomes claimed. *)
Lemma claimNext_rows now now' uuid worker leaseMs ts xs s c :
  keyed id (rows s) →
  first_by le_available (select_where (claimable now ts xs) (rows s)) = Some c →
  let f := set_claimed worker (now' + leaseMs) ("clm_" +s uuid) (attemptCount c + 1) in
  claimNext now now' uuid worker leaseMs ts xs s =
    (Some (f c), set_rows (update_where (has_id (id c)) f (rows s)).1 s).
Proof.
  intros Hk Hc f. destruct (claim_candidate _ _ _ _ _ Hc) as (Hin & Hst & _).
  unfold claimNext. rewrite Hc.
  assert (Hext : update_where (λ r, has_id (id c) r && is_status pending r) f (rows s)
                 = update_where (has_id (id c)) f (rows s)).
  { apply update_where_ext. intros r Hr. unfold has_id, is_status.
    case_bool_decide as E; [|done]. assert (r = c) as -> by (by eapply (keyed_inj id)).
    by apply bool_decide_eq_true. }
  fold f. rewrite Hext, (surjective_pairing (update_where (has_id (id c)) f (rows s))).
  rewrite (changes_keyed id _ f _ (id c)) by (done || intros r Hr; by apply bool_decide_eq_true in Hr).
  rewrite (keyed_by_key id) by done.
  rewrite has_id_refl. cbn [Nat.eqb]. f_equal. rewrite (by_key_update_hit id _ _ _ _ c); [done|by intros []| |].
  - by apply keyed_by_key.
  - by apply bool_decide_eq_true.
Qed.

Lemma inv_claim now now' uuid worker leaseMs ts xs s l :
  outbox_inv (mkWorld s l) → "clm_" +s uuid ∉ l →
  outbox_inv (mkWorld (claimNext now now' uuid worker leaseMs ts xs s).2 (("clm_" +s uuid) :: l)).
Proof.
  intros HI Hf. assert (Hk : keyed id (rows s)) by apply HI.
  destruct (first_by le_available (select_where (claimable now ts xs) (rows s))) as [c|] eqn:Hc.
  2:{ unfold claimNext. rewrite Hc. destruct HI as [? ? ? His ?]. split; try done.
      intros r t Hr E. right. by apply (His r). }
  rewrite (claimNext_rows _ _ _ _ _ _ _ _ c) by done. cbn [snd].
  destruct (claim_candidate _ _ _ _ _ Hc) as (Hin & Hst & _).
  set (f := set_claimed _ _ _ _). destruct HI as [Hid Hlg Hok His Htk]; cbn in *.
  assert (Hnew : ∀ r r0 t, r0 ∈ rows s → r = (if has_id (id c) r0 then f r0 else r0) →
            claimToken r = Some t →
            (r0 = c ∧ t = "clm_" +s uuid) ∨ (r0 ≠ c ∧ claimToken r0 = Some t)).
  { intros r r0 t Hr0 -> E. unfold has_id in E. case_bool_decide as Ei.
    - left. cbn in E. split; [by eapply (keyed_inj id)|congruence].
    - right. split; [|done]. by intros ->. }
  split; cbn.
  - by apply keyed_update.
  - by apply keyed_update.
  - apply Forall_update_where; [done|]. intros r Hr Hrow Hp. apply bool_decide_eq_true in Hp.
    assert (r = c) as -> by (by eapply (keyed_inj id)). by apply row_ok_claimed.
  - intros r t (r0 & Hr0 & E)%elem_of_update_where Ht.
    destruct (Hnew r r0 t Hr0 E Ht) as [[_ ->]|[_ Ht0]]; [by left|right; eauto].
  - intros r r' t (r0 & Hr0 & E)%elem_of_update_where (r0' & Hr0' & E')%elem_of_update_where Ht Ht'.
    destruct (Hnew r r0 t Hr0 E Ht) as [[-> ->]|[Hn Ht0]],
      (Hnew r' r0' _ Hr0' E' Ht') as [[-> ?]|[Hn' Ht0']]; try congruence.
    + destruct Hf. eauto.
    + destruct Hf. subst. eauto.
    + assert (r0 = r0') as -> by eauto. congruence.
Qed.

Lemma reap_rows now leaseMs s :
  keyed id (rows s) →
  reapExpiredClaims now leaseMs s =
    (length (select_where (reapable (now - leaseMs)) (rows s)),
     set_rows (update_where (reapable (now - leaseMs)) set_reaped (rows s)).1 s).
Proof.
  intros Hk. unfold reapExpiredClaims.
  rewrite (cas_loop_select id); [done| | |done|].
  - by intros [].
  - intros r x H. unfold same_claim, has_id in H. by guards.
  - intros r Hin H. unfold reapable, same_claim, has_id in *. guards. by split_and!.
Qed.

Lemma inv_reap now leaseMs s l :
  outbox_inv (mkWorld s l) → outbox_inv (mkWorld (reapExpiredClaims now leaseMs s).2 l).
Proof.
  intros HI. rewrite reap_rows by apply HI. cbn [snd]. apply inv_update; auto with kontrol.
  - intros r Hp Hr. unfold reapable, is_status in Hp. reflect_guards. destruct Hp as [Hs _].
    by apply row_ok_unclaimed.
  - done.
Qed.

Lemma inv_enqueue now uuid i s l :
  outbox_inv (mkWorld s l) → by_key id ("out_" +s uuid) (rows s) = None →
  outbox_inv (mkWorld (enqueue now uuid i s).2 l).
Proof.
  intros [Hid Hlg Hok His Htk] Hf. unfold enqueue, getByLogical; cbn in *.
  destruct (by_key logical _ _) eqn:El; [by split|]. cbn.
  split; cbn; unfold insert_row.
  - by apply (keyed_insert id).
  - by apply (keyed_insert logical).
  - apply Forall_app. split; [done|]. constructor; auto with kontrol.
  - intros r t [Hr|Hr%list_elem_of_singleton]%elem_of_app E; [eauto|by subst].
  - intros r r' t [Hr|Hr%list_elem_of_singleton]%elem_of_app
      [Hr'|Hr'%list_elem_of_singleton]%elem_of_app E E'; subst; try done. eauto.
Qed.

Lemma inv_fail now now' now'' c err delay s l :
  outbox_inv (mkWorld s l) → outbox_inv (mkWorld (markFailed now now' now'' c err delay s).2 l).
Proof.
  intros HI. unfold markFailed. destruct (get_where _ _) as [row|] eqn:Hg; [|done].
  apply get_where_Some in Hg as [Hin Hf]. apply fencedClaimWhere_true in Hf as (Hi & Hs & _).
  assert (Hrow : ∀ r, r ∈ rows s → fencedClaimWhere now'' c r = true → r = row).
  { intros r Hr Hp. apply fencedClaimWhere_true in Hp as (Hi' & _).
    eapply (keyed_inj id); [apply HI|done|done|congruence]. }
  assert (Hok : row_ok row) by (destruct HI as [_ _ Hok _ _]; rewrite Forall_forall in Hok; auto).
  assert (Hgen : ∀ st a n e d, n = (failureCount row + 1)%Z → st ≠ claimed →
     (st = dead_lettered ↔ n = 3%Z) →
     outbox_inv (mkWorld (fenced_update now'' c (λ r, unclaimed st (a r) n e (d r) r) s).2 l)).
  { intros st a n e d -> Hst Hd. unfold fenced_update. cbn.
    rewrite (update_where_ext _ (fencedClaimWhere now'' c)
               (λ r, fencedClaimWhere now'' c r && Z.eqb (failureCount r) (failureCount row))).
    - apply inv_update; [done|by intros []|by intros []| |done].
      intros r Hp Hr. reflect_guards. destruct Hp as [Hp Ef].
      apply fencedClaimWhere_true in Hp as (_ & Hs' & _). apply row_ok_failed; auto. lia.
    - intros r Hr. destruct (fencedClaimWhere now'' c r) eqn:E; [|done]. cbn.
      symmetry. apply Z.eqb_eq. by rewrite (Hrow r). }
  destruct Hok as (_ & _ & ? & _ & Hd).
  assert (failureCount row ≠ 3%Z) by (rewrite <- Hd; congruence).
  destruct (Z.leb_spec 3 (failureCount row + 1)).
  - apply (Hgen dead_lettered availableAt _ _ completedAt); try done. split; [lia|done].
  - apply (Hgen pending (λ _, _) _ _ completedAt); try done. split; [done|lia].
Qed.

Lemma rows_queueNotify_all t hit s :
  rows (foldl (λ s' c, match by_key id (id c) t with Some r => queueNotify r s' | None => s' end)
          s hit) = rows s.
Proof.
  revert s; induction hit as [|c hit IH]; intros s; cbn; [done|]. rewrite IH.
  by destruct (by_key id (id c) t).
Qed.

(** Resuming is one update of every suspended event the payload identity and prefix select. *)
Lemma resume_rows now ty key value prefix s n s' :
  keyed id (rows s) →
  resumeSuspended now ty key value prefix s = Ok (n, s') →
  n = length (select_where (resumable ty key value prefix) (rows s))
  ∧ rows s' = (update_where (resumable ty key value prefix) (set_resumed now) (rows s)).1.
Proof.
  intros Hk. unfold resumeSuspended.
  rewrite (cas_loop_select id); [|by intros []| |done|].
  - intros H. res_inv H. split; [done|]. by rewrite rows_queueNotify_all.
  - intros r x H. unfold has_id in H. by guards.
  - intros r Hin H. unfold resumable, has_id in *. guards. by split_and!.
Qed.

Lemma inv_rows_eq s s' l :
  rows s' = rows s → outbox_inv (mkWorld s l) → outbox_inv (mkWorld s' l).
Proof. intros E [H1 H2 H3 H4 H5]; cbn in *. split; cbn; by rewrite E. Qed.

Lemma inv_resume now ty key value prefix s n s' l :
  outbox_inv (mkWorld s l) → resumeSuspended now ty key value prefix s = Ok (n, s') →
  outbox_inv (mkWorld s' l).
Proof.
  intros HI H. apply resume_rows in H as [_ H]; [|apply HI].
  eapply (inv_rows_eq (set_rows _ s)); [exact H|]. apply inv_update; [done|by intros []|by intros []| |].
  - intros r Hp Hr. unfold resumable, is_status in Hp. guards. by apply row_ok_resumed.
  - done.
Qed.

Lemma inv_redrive now ty agg rev s l :
  outbox_inv (mkWorld s l) → outbox_inv (mkWorld (redriveDeadLetter now ty agg rev s).2 l).
Proof.
  intros HI. unfold redriveDeadLetter. destruct (getByLogical _ _ _ s) as [e|]; [|done].
  destruct (negb _); [done|].
  assert (HI' : ∀ p, outbox_inv (mkWorld (set_rows (update_where p (set_redriven now) (rows s)).1 s) l)).
  { intros p. apply inv_update; auto with kontrol. done. }
  cbn. rewrite (surjective_pairing (update_where _ _ _)). destruct (negb _); [apply HI'|].
  destruct (by_key id _ _); [|apply HI']. eapply inv_rows_eq; [|apply HI']. done.
Qed.

Lemma inv_step w w' : step w w' → outbox_inv w → outbox_inv w'.
Proof.
  destruct 1; destruct w as [s0 l]; cbn [box issued] in *; intros HI.
  - by apply inv_enqueue.
  - by apply inv_claim.
  - by apply inv_reap.
  - apply inv_fenced; auto with kontrol; [by intros []..|]. intros; by apply row_ok_unclaimed.
  - apply inv_fenced; auto with kontrol; [by intros []..|]. intros; by apply row_ok_unclaimed.
  - by apply inv_fail.
  - apply inv_fenced; auto with kontrol; [by intros []..|]. intros; by apply row_ok_unclaimed.
  - by eapply inv_resume.
  - by apply inv_redrive.
  - apply inv_update; [done|by intros []..| |done]. intros r Hp Hr. unfold is_status in Hp.
    guards. by apply row_ok_completed_direct.
  - refine (inv_rows_eq s0 _ _ _ HI). done.
  - refine (inv_rows_eq s0 _ _ _ HI). done.
  - eapply inv_rows_eq; [|done]. unfold runMicrotask. by destruct (microtasks s0).
Qed.

Lemma inv_empty : outbox_inv empty_world.
Proof.
  split; cbn.
  1, 2: apply NoDup_nil_2.
  1: constructor.
  all: intros ? ? * H; by apply not_elem_of_nil in H.
Qed.

Lemma inv_steps w : steps step empty_world w → outbox_inv w.
Proof. intros H. eapply steps_invariant; eauto using inv_step, inv_empty. Qed.

(** every history of the outbox from the empty table keeps event ids unique, keeps at most one
    event per logical identity (type, aggregate, revision), keeps owner, token and lease present
    exactly on claimed events, dead-letters an event exactly at its third failure, never counts
    more failures than claims, and never lets two events share a live fencing token. *)
Theorem outbox_history_invariant w : steps step empty_world w → outbox_inv w.
Proof. apply inv_steps. Qed.

(** ** Fencing *)

(** What the fenced update of a claim does to a keyed table. *)
Lemma fenced_update_spec now c f s :
  keyed id (rows s) →
  fenced_update now c f s =
    match by_key id (eventId c) (rows s) with
    | Some r => if fencedClaimWhere now c r
                then (true, set_rows (update_where (has_id (eventId c)) f (rows s)).1 s)
                else (false, s)
    | None => (false, s)
    end.
Proof.
  intros Hk. unfold fenced_update.
  rewrite (surjective_pairing (update_where (fencedClaimWhere now c) f (rows s))).
  assert (Hkey : ∀ r, fencedClaimWhere now c r = true → id r = eventId c)
    by (intros r Hr; by apply fencedClaimWhere_true in Hr as [? _]).
  rewrite (changes_keyed id _ f _ (eventId c)) by done.
  assert (Hno : (update_where (fencedClaimWhere now c) f (rows s)).2 = 0 →
                (update_where (fencedClaimWhere now c) f (rows s)).1 = rows s)
    by apply update_where_changes_0.
  rewrite (changes_keyed id _ f _ (eventId c)) in Hno by done.
  destruct (by_key id (eventId c) (rows s)) as [r|] eqn:Er.
  2:{ cbn. rewrite Hno by done. by destruct s. }
  destruct (fencedClaimWhere now c r) eqn:Ef.
  2:{ cbn. rewrite Hno by done. by destruct s. }
  cbn. f_equal. f_equal. f_equal. apply update_where_ext. intros x Hx.
  unfold has_id. case_bool_decide as Ex.
  - apply by_key_Some in Er as [Hin Ei]. assert (x = r) as ->; [|done].
    eapply (keyed_inj id); eauto. congruence.
  - destruct (fencedClaimWhere now c x) eqn:E; [|done]. by apply Hkey in E.
Qed.

(** A claim is lost when its event, if still there, no longer carries its token. *)
Definition lost (c : OutboxClaim) (s : outbox) : Prop :=
  ∀ r, r ∈ rows s → id r = eventId c → claimToken r ≠ Some (presentedToken c).

(** The token of an event after an update is its old one, or the freshly minted one. *)
Lemma lost_rows c s s' :
  lost c s → (∀ r', r' ∈ rows s' → id r' = eventId c → claimToken r' = Some (presentedToken c) →
              ∃ r, r ∈ rows s ∧ id r = eventId c ∧ claimToken r = Some (presentedToken c)) →
  lost c s'.
Proof. intros Hl H r' Hin Hid Ht. destruct (H r' Hin Hid Ht) as (r & Hr & Hi & E). by apply (Hl r). Qed.

Lemma lost_update c p f s :
  preserves_key id f →
  (∀ r, claimToken (f r) = None ∨ claimToken (f r) = claimToken r) →
  lost c s → lost c (set_rows (update_where p f (rows s)).1 s).
Proof.
  intros Hf Ht Hl. eapply lost_rows; [exact Hl|]. intros r' (r & Hr & ->)%elem_of_update_where Hid E.
  exists r. destruct (p r); [|done]. rewrite Hf in Hid. destruct (Ht r) as [Et|Et]; rewrite Et in E; done.
Qed.

Lemma lost_rows_eq c s s' : rows s' = rows s → lost c s → lost c s'.
Proof. unfold lost. by intros ->. Qed.

Lemma lost_fenced c now c' f s :
  preserves_key id f → (∀ r, claimToken (f r) = None) → lost c s →
  lost c (fenced_update now c' f s).2.
Proof. intros Hf Ht Hl. by apply lost_update; auto. Qed.

Lemma lost_step c w w' :
  step w w' → outbox_inv w → presentedToken c ∈ issued w → lost c (box w) → lost c (box w').
Proof.
  intros Hs HI Hi Hl. pose proof (inv_id _ HI) as Hk.
  destruct Hs; destruct w as [s0 l]; cbn [box issued] in *.
  - unfold enqueue. destruct (getByLogical _ _ _ _); [done|]. eapply lost_rows; [done|].
    cbn. intros r' [Hr|Hr%list_elem_of_singleton]%elem_of_app Hid E; [eauto|by subst].
  - destruct (first_by le_available (select_where (claimable now ts xs) (rows s0))) as [e|] eqn:He.
    2:{ unfold claimNext. by rewrite He. }
    rewrite (claimNext_rows _ _ _ _ _ _ _ _ e) by done. eapply lost_rows; [done|]. cbn.
    intros r' (r & Hr & ->)%elem_of_update_where Hid E. exists r.
    destruct (has_id (id e) r); [|done]. cbn in E. destruct H. congruence.
  - rewrite reap_rows by done. apply lost_update; auto. by intros [].
  - by apply lost_fenced; [intros []| |].
  - by apply lost_fenced; [intros []| |].
  - unfold markFailed. destruct (get_where _ _); [|done].
    destruct (3 <=? _)%Z; by apply lost_fenced; [intros []| |].
  - by apply lost_fenced; [intros []| |].
  - apply resume_rows in H as [_ H]; [|done]. eapply (lost_rows_eq c (set_rows _ s0)); [exact H|].
    apply lost_update; auto. by intros [].
  - unfold redriveDeadLetter. destruct (getByLogical _ _ _ _); [|done]. destruct (negb _); [done|].
    assert (Hu : ∀ p, lost c (set_rows (update_where p (set_redriven now) (rows s0)).1 s0))
      by (intros p; apply lost_update; auto; by intros []).
    rewrite (surjective_pairing (update_where _ _ _)). destruct (negb _); [apply Hu|].
    destruct (by_key id _ _); [|apply Hu]. eapply lost_rows_eq; [|apply Hu]. done.
  - apply lost_update; auto. by intros [].
  - refine (lost_rows_eq _ s0 _ _ Hl). done.
  - refine (lost_rows_eq _ s0 _ _ Hl). done.
  - eapply lost_rows_eq; [|done]. unfold runMicrotask. by destruct (microtasks s0).
Qed.

Lemma lost_issued_step w w' t : step w w' → t ∈ issued w → t ∈ issued w'.
Proof. destruct 1; cbn; try done. intros. by right. Qed.

Lemma lost_rejected now c f s : outbox_inv (mkWorld s []) ∨ keyed id (rows s) →
  lost c s → fenced_update now c f s = (false, s).
Proof.
  intros HI Hl. rewrite fenced_update_spec by (destruct HI as [HI|]; [apply HI|done]).
  destruct (by_key id (eventId c) (rows s)) as [r|] eqn:Er; [|done].
  destruct (fencedClaimWhere now c r) eqn:Ef; [|done].
  apply by_key_Some in Er as [Hin Hid]. apply fencedClaimWhere_true in Ef as (_ & _ & _ & Ht & _).
  by destruct (Hl r Hin Hid).
Qed.

(** C5: fencing is permanent.  Once a minted token is no longer the token of its event (the claim
    was completed, released, failed, suspended, or reaped and possibly taken over by another
    worker), no later history makes it valid again: whatever happens next, releasing, completing,
    failing or suspending with it reports false and changes nothing. *)
Theorem stale_claim_never_acts w w' c :
  outbox_inv w → presentedToken c ∈ issued w → lost c (box w) → steps step w w' →
  ∀ now now' now'' delay note err,
    release now now' c delay note (box w') = (false, box w')
    ∧ markCompleted now now' c (box w') = (false, box w')
    ∧ markFailed now now' now'' c err delay (box w') = (false, box w')
    ∧ markSuspended now c err (box w') = (false, box w').
Proof.
  intros HI Hi Hl Hs.
  assert (H : outbox_inv w' ∧ lost c (box w')).
  { clear -HI Hi Hl Hs. induction Hs as [|w1 w2 w3 H _ IH]; [done|].
    apply IH; eauto using inv_step, lost_step, lost_issued_step. }
  destruct H as [HI' Hl']. pose proof (inv_id _ HI') as Hk. intros.
  unfold release, markCompleted, markFailed, markSuspended.
  rewrite !lost_rejected by auto. split_and!; try done.
  destruct (get_where _ _) as [r|] eqn:Hg; [|done]. exfalso.
  apply get_where_Some in Hg as [Hin Hf]. apply fencedClaimWhere_true in Hf as (Hid & _ & _ & Ht & _).
  by destruct (Hl' r Hin Hid).
Qed.

(** ** What each operation does *)

Lemma le_available_total a b : le_available a b = true ∨ le_available b a = true.
Proof. unfold le_available. rewrite !Z.leb_le. lia. Qed.

Lemma le_available_trans a b c :
  le_available a b = true → le_available b c = true → le_available a c = true.
Proof. unfold le_available. rewrite !Z.leb_le. lia. Qed.

(** claiming returns nothing only when no event can be claimed, and then changes nothing;
    otherwise it hands out a claimable event (pending, due, of a requested type, not excluded)
    that no claimable event precedes in availability, now claimed by the worker under the new
    token and lease with one more attempt and the same failures, and every other event is left
    alone. *)
Theorem claimNext_fair now now' uuid worker leaseMs ts xs s :
  keyed id (rows s) →
  match claimNext now now' uuid worker leaseMs ts xs s with
  | (None, s') => s' = s ∧ ∀ r, r ∈ rows s → claimable now ts xs r = false
  | (Some e, s') =>
      ∃ c, c ∈ rows s ∧ claimable now ts xs c = true
        ∧ (∀ r, r ∈ rows s → claimable now ts xs r = true → (availableAt c <= availableAt r)%Z)
        ∧ e = set_claimed worker (now' + leaseMs) ("clm_" +s uuid) (attemptCount c + 1) c
        ∧ get (id c) s' = Some e
        ∧ ∀ k, k ≠ id c → get k s' = get k s
  end.
Proof.
  intros Hk.
  destruct (first_by le_available (select_where (claimable now ts xs) (rows s))) as [c|] eqn:Hc.
  - rewrite (claimNext_rows _ _ _ _ _ _ _ _ c) by done.
    pose proof (first_by_elem _ _ _ Hc) as [Hin Hcl]%elem_of_Lfilter. exists c. split_and!; try done.
    + intros r Hr Hcr. apply Z.leb_le.
      eapply (first_by_least le_available) in Hc; eauto using le_available_total, le_available_trans.
      by apply elem_of_Lfilter.
    + unfold get; cbn. apply by_key_update_hit; auto with kontrol; [by apply (keyed_by_key id)|apply has_id_refl].
    + intros k Hne. unfold get; cbn. apply by_key_update_miss; auto with kontrol.
      intros r [_ Hr]%by_key_Some. apply bool_decide_eq_false. congruence.
  - unfold claimNext. rewrite Hc. split; [done|]. intros r Hr. apply first_by_None in Hc.
    destruct (claimable now ts xs r) eqn:E; [|done]. exfalso.
    eapply not_elem_of_nil. rewrite <- Hc. by apply elem_of_Lfilter.
Qed.

(** The outcome of a failure the fence admits. *)
Definition failed_row (now delay : Z) (err : jsstr) (r : DispatchOutboxEvent)
  : DispatchOutboxEvent :=
  if (2 <=? failureCount r)%Z then set_dead_lettered (failureCount r + 1) err r
  else set_failed_retry (failureCount r + 1) (now + delay * 2 ^ failureCount r) err r.

(** reporting a failure succeeds exactly when the presenter holds the live, unexpired claim
    both when the failure count is read and when the row is written.  It then counts this failure;
    the third one dead-letters the event, an earlier one requeues it after the delay doubled per
    previous failure.  In every other case it reports false and changes nothing. *)
Theorem markFailed_outcome now now' now'' c err delay s :
  keyed id (rows s) →
  markFailed now now' now'' c err delay s =
    match get (eventId c) s with
    | Some r => if fencedClaimWhere now c r && fencedClaimWhere now'' c r
                then (true, set_rows (update_where (has_id (eventId c))
                                        (λ _, failed_row now' delay err r) (rows s)).1 s)
                else (false, s)
    | None => (false, s)
    end.
Proof.
  intros Hk. unfold markFailed, get.
  assert (Hg : get_where (fencedClaimWhere now c) (rows s) =
    match by_key id (eventId c) (rows s) with
    | Some r => if fencedClaimWhere now c r then Some r else None | None => None end).
  { destruct (get_where (fencedClaimWhere now c) (rows s)) as [r|] eqn:E.
    - apply get_where_Some in E as [Hin Hf]. pose proof Hf as (Hi & _)%fencedClaimWhere_true.
      rewrite <- Hi, (keyed_by_key id) by done. by rewrite Hf.
    - rewrite get_where_None in E. destruct (by_key _ _ _) as [r|] eqn:Er; [|done].
      apply by_key_Some in Er as [Hin _]. by rewrite E. }
  rewrite Hg. destruct (by_key id (eventId c) (rows s)) as [r|] eqn:Er; [|done].
  destruct (fencedClaimWhere now c r); [|done].
  assert (Hsame : ∀ f g, f r = g r →
    update_where (has_id (eventId c)) f (rows s) = update_where (has_id (eventId c)) g (rows s)).
  { intros f g Hfg. apply by_key_Some in Er as [Hin Hid].
    unfold update_where. f_equal. apply List.map_ext_in. intros x Hx%list_elem_of_In.
    unfold has_id. case_bool_decide as Ex; [|done].
    assert (x = r) as ->; [|done]. eapply (keyed_inj id); eauto. congruence. }
  rewrite !fenced_update_spec, Er by done. unfold failed_row.
  destruct (Z.leb_spec 3 (failureCount r + 1)), (Z.leb_spec 2 (failureCount r)); try lia;
    destruct (fencedClaimWhere now'' c r); cbn [andb]; try done.
  - by rewrite (Hsame _ (λ _, set_dead_lettered (failureCount r + 1) err r)).
  - replace (failureCount r + 1 - 1)%Z with (failureCount r) by lia.
    by rewrite (Hsame _ (λ _, set_failed_retry (failureCount r + 1)
                                 (now' + delay * 2 ^ failureCount r) err r)).
Qed.

(** reaping, a loop of compare-and-set updates over selected candidates, does what one bulk
    statement would: every claim whose lease ended more than [leaseMs] ago returns to pending
    without owner, token or lease and with its failure count untouched, no other event changes,
    and the result is the number of such claims. *)
Theorem reap_is_bulk_update now leaseMs s :
  keyed id (rows s) →
  (reapExpiredClaims now leaseMs s).1
    = length (select_where (reapable (now - leaseMs)) (rows s))
  ∧ ∀ k, get k (reapExpiredClaims now leaseMs s).2 =
      (λ r, if reapable (now - leaseMs) r then set_reaped r else r) <$> get k s.
Proof.
  intros Hk. rewrite reap_rows by done. split; [done|]. intros k. unfold get; cbn.
  apply by_key_update. auto with kontrol.
Qed.

(** ** Witnesses *)

Section Example.
Let input := mkEnqueue "continuation.ready" "cont_1" None (Some [("revision" : jsstr, JNum 2)]) None.
Let s1 := (enqueue 0 "e" input (mkOutbox [] [] [] [])).2.
Let claimA := claimNext 10 10 "a" "workerA" 100 None None.
Let claimB := claimNext 400 400 "b" "workerB" 100 None None.
Let s2 := (claimA s1).2.
Let s3 := (reapExpiredClaims 300 100 s2).2.
Let s4 := (claimB s3).2.
Definition example_claim : OutboxClaim := mkClaim "out_e" "workerA" "clm_a".
Definition example_world : world := mkWorld s4 ["clm_b" : jsstr; "clm_a" : jsstr].
End Example.

Lemma example_steps : steps step empty_world example_world.
Proof.
  eapply steps_cons; [refine (step_enqueue 0 "e" (mkEnqueue "continuation.ready" "cont_1" None
    (Some [("revision" : jsstr, JNum 2)]) None) _ _); reflexivity|].
  eapply steps_cons; [refine (step_claim 10 10 "a" "workerA" 100 None None _ _); apply not_elem_of_nil|].
  eapply steps_cons; [refine (step_reap 300 100 _)|].
  eapply steps_cons; [refine (step_claim 400 400 "b" "workerB" 100 None None _ _);
    apply (bool_decide_unpack _); vm_compute; exact I|].
  apply steps_refl.
Qed.

Lemma outbox_history_invariant_witness : outbox_inv example_world.
Proof. apply (outbox_history_invariant example_world). exact example_steps. Defined.

(** Worker A's claim expired and was taken over by worker B: A can no longer complete the event. *)
Lemma stale_claim_never_acts_witness :
  markCompleted 410 410 example_claim (box example_world) = (false, box example_world).
Proof.
  refine (proj1 (proj2 (stale_claim_never_acts example_world example_world example_claim
    (inv_steps _ example_steps) _ _ (steps_refl _ _) 410 410 410 0 None []))).
  - apply (bool_decide_unpack _). vm_compute. exact I.
  - intros r Hr Hid. vm_compute in Hr. apply list_elem_of_singleton in Hr. subst r. by vm_compute.
Defined.

Lemma example_keyed : keyed id (rows (box example_world)).
Proof. apply (inv_id _ (inv_steps _ example_steps)). Qed.

Lemma claimNext_fair_witness :
  (claimNext 400 400 "c" "workerC" 100 None None (box example_world)).2 = box example_world.
Proof.
  pose proof (claimNext_fair 400 400 "c" "workerC" 100 None None (box example_world) example_keyed) as H.
  vm_compute in H. destruct H as [H _]. vm_compute. exact H.
Defined.

Lemma markFailed_outcome_witness :
  (markFailed 410 410 410 (mkClaim "out_e" "workerB" "clm_b") "boom" 50 (box example_world)).1 = true.
Proof.
  rewrite (markFailed_outcome 410 410 410 (mkClaim "out_e" "workerB" "clm_b") "boom" 50
             (box example_world) example_keyed).
  vm_compute. reflexivity.
Defined.

Lemma reap_is_bulk_update_witness :
  (reapExpiredClaims 1000 100 (box example_world)).1 = 1.
Proof.
  rewrite (proj1 (reap_is_bulk_update 1000 100 (box example_world) example_keyed)).
  vm_compute. reflexivity.
Defined.

End DispatchOutbox.
