(* ===== verification/Leases.v ===== *)
(** * Workspace leases ([src/src/work-sessions/lease-store.ts])

    A checkout is modified under a lease: one row per canonical root.  Acquisition purges expired
    rows, refuses a root another work session holds, lets a peer-job reservation exclude even its
    own session's ordinary workers, and renews or takes over the session's own lease.  The nonce
    minted at acquisition fences renewal and release. *)

From S2P Require Import Prelude JsString Sql.

Module WorkspaceLeases.

Inductive LeaseKind := modify | peer_job.

#[export] Instance LeaseKind_eq_dec : EqDecision LeaseKind.
Proof. solve_decision. Defined.

(** A row of [workspace_leases] and the [WorkspaceLease] it reads as. *)
Record WorkspaceLease := mkLease {
  canonicalRoot : jsstr;
  workspaceSessionId : jsstr;
  workSessionId : jsstr;
  leaseKind : LeaseKind;
  ownerInstanceId : jsstr;
  leaseNonce : jsstr;
  acquiredAt : Z;
  heartbeatAt : Z;
  expiresAt : Z
}.

#[export] Instance WorkspaceLease_eq_dec : EqDecision WorkspaceLease.
Proof. solve_decision. Defined.

Record AcquireInput := mkAcquire {
  in_canonicalRoot : jsstr;
  in_workspaceSessionId : jsstr;
  in_workSessionId : jsstr;
  in_ownerInstanceId : option jsstr;
  in_ttlMs : option Z;
  in_takeover : bool;
  in_leaseKind : option LeaseKind
}.

Inductive WorkspaceLeaseResult :=
| Acquired (lease : WorkspaceLease)
| Conflict (conflictingWorkSessionId workspaceSession : jsstr) (expires : Z).

Definition DEFAULT_TTL_MS : Z := 60 * 60 * 1000.

(** [delete from workspace_leases where expires_at < now] *)
Definition purgeExpired (now : Z) (t : list WorkspaceLease) : list WorkspaceLease :=
  (delete_where (λ l, expiresAt l <? now)%Z t).1.

Definition at_root (root : jsstr) (l : WorkspaceLease) : bool := bool_decide (canonicalRoot l = root).

Definition conflict (l : WorkspaceLease) : WorkspaceLeaseResult :=
  Conflict (workSessionId l) (workspaceSessionId l) (expiresAt l).

(** The three refusals of [acquireWorkspaceLease], in order. *)
Definition refuses (i : AcquireInput) (owner : jsstr) (existing : WorkspaceLease) : bool :=
  let requested := default modify (in_leaseKind i) in
  match leaseKind existing with
  | peer_job =>
      negb (bool_decide (requested = peer_job))
      || negb (workSessionId existing =s in_workSessionId i)
      || negb (workspaceSessionId existing =s in_workspaceSessionId i)
      || negb (ownerInstanceId existing =s owner)
  | modify => bool_decide (requested = peer_job)
  end
  || negb (workSessionId existing =s in_workSessionId i).

(** The renewal of the session's own lease. *)
Definition renewed (now expires : Z) (i : AcquireInput) (owner uuid : jsstr) (l : WorkspaceLease)
  : WorkspaceLease :=
  let peer := bool_decide (default modify (in_leaseKind i) = peer_job) in
  {| canonicalRoot := canonicalRoot l;
     workspaceSessionId := workspaceSessionId l;
     workSessionId := workSessionId l;
     leaseKind := if peer then peer_job else leaseKind l;
     ownerInstanceId := if peer || in_takeover i then owner else ownerInstanceId l;
     leaseNonce := if in_takeover i then uuid else leaseNonce l;
     acquiredAt := acquiredAt l; heartbeatAt := now; expiresAt := expires |}.

Definition newLease (now expires : Z) (i : AcquireInput) (owner uuid : jsstr) : WorkspaceLease :=
  {| canonicalRoot := in_canonicalRoot i;
     workspaceSessionId := in_workspaceSessionId i;
     workSessionId := in_workSessionId i;
     leaseKind := default modify (in_leaseKind i);
     ownerInstanceId := owner; leaseNonce := uuid;
     acquiredAt := now; heartbeatAt := now; expiresAt := expires |}.

Inductive LeaseError := AcquisitionFailed.

(** [acquireWorkspaceLease]; [pid] is [process.pid] and [uuid] what [randomUUID] returns. *)
Definition acquireWorkspaceLease (now : Z) (pid uuid : jsstr) (i : AcquireInput)
  (t : list WorkspaceLease) : res LeaseError (WorkspaceLeaseResult * list WorkspaceLease) :=
  let expires := (now + default DEFAULT_TTL_MS (in_ttlMs i))%Z in
  let owner := default pid (in_ownerInstanceId i) in
  let t0 := purgeExpired now t in
  let existing := get_where (at_root (in_canonicalRoot i)) t0 in
  let grant t1 :=
    match get_where (at_root (in_canonicalRoot i)) t1 with
    | Some lease => Ok (Acquired lease, t1)
    | None => Err AcquisitionFailed
    end in
  match existing with
  | Some l =>
      if refuses i owner l then Ok (conflict l, t0)
      else grant (update_where (at_root (in_canonicalRoot i))
                    (renewed now expires i owner uuid) t0).1
  | None => grant (insert_row (newLease now expires i owner uuid) t0)
  end.

(** The columns [restoreWorkspaceLeaseForSession] puts back after a failed takeover. *)
Definition restored (previous l : WorkspaceLease) : WorkspaceLease :=
  {| canonicalRoot := canonicalRoot l;
     workspaceSessionId := workspaceSessionId l;
     workSessionId := workSessionId l;
     leaseKind := leaseKind l;
     ownerInstanceId := ownerInstanceId previous; leaseNonce := leaseNonce previous;
     acquiredAt := acquiredAt previous; heartbeatAt := heartbeatAt previous;
     expiresAt := expiresAt previous |}.

Definition restoreWorkspaceLeaseForSession (previous : WorkspaceLease) (expectedLeaseNonce : jsstr)
  (t : list WorkspaceLease) : bool * list WorkspaceLease :=
  if negb (nonempty expectedLeaseNonce) || negb (nonempty (leaseNonce previous)) then (false, t)
  else
    let '(t', changes) :=
      update_where (λ l, at_root (canonicalRoot previous) l
                         && (workSessionId l =s workSessionId previous)
                         && (leaseNonce l =s expectedLeaseNonce)) (restored previous) t in
    ((0 <? changes)%nat, t').

Definition releaseWorkspaceLeasesForSession (session : jsstr) (t : list WorkspaceLease)
  : nat * list WorkspaceLease :=
  let '(t', changes) := delete_where (λ l, workSessionId l =s session) t in (changes, t').

Definition releaseWorkspaceLeaseForSession (session nonce : jsstr) (t : list WorkspaceLease)
  : bool * list WorkspaceLease :=
  if negb (nonempty nonce) then (false, t)
  else
    let '(t', changes) :=
      delete_where (λ l, (workSessionId l =s session) && (leaseNonce l =s nonce)) t in
    ((0 <? changes)%nat, t').

Definition set_heartbeat (now expires : Z) (l : WorkspaceLease) : WorkspaceLease :=
  {| canonicalRoot := canonicalRoot l; workspaceSessionId := workspaceSessionId l;
     workSessionId := workSessionId l; leaseKind := leaseKind l;
     ownerInstanceId := ownerInstanceId l; leaseNonce := leaseNonce l;
     acquiredAt := acquiredAt l; heartbeatAt := now; expiresAt := expires |}.

Definition renewWorkspaceLeaseForSession (now : Z) (session : jsstr) (ttlMs : option Z)
  (nonce : jsstr) (t : list WorkspaceLease) : nat * list WorkspaceLease :=
  if negb (nonempty nonce) then (0, t)
  else
    let '(t', changes) :=
      update_where (λ l, (workSessionId l =s session) && (now <=? expiresAt l)%Z
                         && (leaseNonce l =s nonce))
        (set_heartbeat now (now + default DEFAULT_TTL_MS ttlMs)) t in
    (changes, t').

Definition getActiveWorkspaceLease (now : Z) (root : jsstr) (t : list WorkspaceLease)
  : option WorkspaceLease :=
  get_where (λ l, at_root root l && (now <=? expiresAt l)%Z) t.

Definition getWorkspaceLeaseForSession (session : jsstr) (t : list WorkspaceLease)
  : option WorkspaceLease :=
  get_where (λ l, workSessionId l =s session) t.

(** ** The contract

    What the store promises, on the map from roots to live leases alone: who may acquire a root,
    and what the lease then is. *)

Definition promised_lease (now : Z) (pid uuid : jsstr) (i : AcquireInput)
  (held : option WorkspaceLease) : WorkspaceLeaseResult :=
  let expires := (now + default DEFAULT_TTL_MS (in_ttlMs i))%Z in
  let owner := default pid (in_ownerInstanceId i) in
  match held with
  | None => Acquired (newLease now expires i owner uuid)
  | Some l => if refuses i owner l then conflict l
              else Acquired (renewed now expires i owner uuid l)
  end.

(** The live leases, by root. *)
Definition live_view (now : Z) (t : list WorkspaceLease) (root : jsstr) : option WorkspaceLease :=
  getActiveWorkspaceLease now root t.

(** ** Lemmas *)

Lemma get_at_root root (t : list WorkspaceLease) :
  get_where (at_root root) t = by_key canonicalRoot root t.
Proof. done. Qed.

Lemma active_by_key now root t :
  keyed canonicalRoot t →
  live_view now t root =
    match by_key canonicalRoot root t with
    | Some l => if (now <=? expiresAt l)%Z then Some l else None
    | None => None
    end.
Proof.
  intros Hk. unfold live_view, getActiveWorkspaceLease.
  destruct (get_where _ t) as [l|] eqn:E.
  - apply get_where_Some in E as [Hin Hp]. unfold at_root in Hp. guards. subst root.
    rewrite (keyed_by_key canonicalRoot) by done. by rewrite (proj2 (Z.leb_le _ _)).
  - rewrite get_where_None in E. destruct (by_key _ _ _) as [l|] eqn:El; [|done].
    apply by_key_Some in El as [Hin Hr]. specialize (E l Hin). unfold at_root in E.
    rewrite bool_decide_eq_true_2 in E by done. cbn in E. by rewrite E.
Qed.

Lemma purge_by_key now root t :
  keyed canonicalRoot t →
  by_key canonicalRoot root (purgeExpired now t) = live_view now t root.
Proof.
  intros Hk. unfold purgeExpired. rewrite by_key_delete, active_by_key by done.
  destruct (by_key _ _ _) as [l|]; [|done].
  destruct (Z.ltb_spec (expiresAt l) now), (Z.leb_spec now (expiresAt l)); done || lia.
Qed.

Lemma purge_keyed now t : keyed canonicalRoot t → keyed canonicalRoot (purgeExpired now t).
Proof. apply keyed_delete. Qed.

Lemma renewed_key now x i o u : preserves_key canonicalRoot (renewed now x i o u).
Proof. by intros []. Qed.

#[export] Hint Resolve purge_keyed renewed_key : kontrol.

(** Acquisition never fails to find the lease it wrote. *)
Lemma acquire_total now pid uuid i t :
  keyed canonicalRoot t →
  ∃ t', acquireWorkspaceLease now pid uuid i t =
      Ok (promised_lease now pid uuid i (live_view now t (in_canonicalRoot i)), t')
    ∧ keyed canonicalRoot t'
    ∧ ∀ root, by_key canonicalRoot root t' =
        if decide (root = in_canonicalRoot i)
        then match promised_lease now pid uuid i (live_view now t root) with
             | Acquired l => Some l
             | Conflict _ _ _ => live_view now t root
             end
        else live_view now t root.
Proof.
  intros Hk. unfold acquireWorkspaceLease. rewrite get_at_root, purge_by_key by done.
  destruct (live_view now t (in_canonicalRoot i)) as [l|] eqn:El; cbn.
  - destruct (refuses i _ l) eqn:Er.
    + eexists. split; [done|]. split; [auto with kontrol|]. intros root.
      rewrite purge_by_key by done. case_decide; [|done]. subst root. rewrite El. cbn. by rewrite Er.
    + rewrite get_at_root. erewrite (by_key_update_hit canonicalRoot _ _ _ _ l);
        [|auto with kontrol|by rewrite purge_by_key|].
      2:{ apply bool_decide_eq_true. rewrite active_by_key in El by done.
          destruct (by_key _ _ _) as [l'|] eqn:E'; [|done]. apply by_key_Some in E' as [_ E'].
          destruct (_ <=? _)%Z; by simplify_eq. }
      eexists. split; [done|]. split; [auto with kontrol|]. intros root. case_decide as Hd.
      * subst root. rewrite El. cbn. rewrite Er.
        apply by_key_update_hit; [auto with kontrol|by rewrite purge_by_key|].
        rewrite active_by_key in El by done. destruct (by_key _ _ _) as [l'|] eqn:E'; [|done].
        apply by_key_Some in E' as [_ E']. apply bool_decide_eq_true.
        destruct (_ <=? _)%Z; by simplify_eq.
      * rewrite by_key_update_miss; [by apply purge_by_key|auto with kontrol|].
        intros r [_ Hr]%by_key_Some. apply bool_decide_eq_false. congruence.
  - set (n := newLease _ _ _ _ _).
    assert (Hn : by_key canonicalRoot (canonicalRoot n) (purgeExpired now t) = None)
      by (by rewrite purge_by_key).
    rewrite get_at_root, (by_key_insert_eq canonicalRoot n) by done.
    eexists. split; [done|]. split; [by apply keyed_insert, Hn; apply purge_keyed|].
    intros root. case_decide as Hd.
    + subst root. rewrite El. cbn. by apply (by_key_insert_eq canonicalRoot n).
    + rewrite by_key_insert_ne by done. by apply purge_by_key.
Qed.


(** ** Exclusion *)

(** Who may acquire a root whose live lease is [l]: the session that holds it, and, when either
    side is a peer-job reservation, only the very same reservation. *)
Definition may_acquire (pid : jsstr) (i : AcquireInput) (l : WorkspaceLease) : Prop :=
  workSessionId l = in_workSessionId i
  ∧ (default modify (in_leaseKind i) = peer_job ↔ leaseKind l = peer_job)
  ∧ (leaseKind l = peer_job →
     workspaceSessionId l = in_workspaceSessionId i ∧ ownerInstanceId l = default pid (in_ownerInstanceId i)).

Lemma refuses_spec pid i l :
  refuses i (default pid (in_ownerInstanceId i)) l = false ↔ may_acquire pid i l.
Proof.
  unfold refuses, may_acquire. destruct (leaseKind l) eqn:Ek; autorewrite with guards;
    destruct (default modify (in_leaseKind i)); naive_solver.
Qed.

(** A lease granted for at least no time is live when it is granted. *)
Lemma promised_live now pid uuid i held l :
  (0 <= default DEFAULT_TTL_MS (in_ttlMs i))%Z →
  promised_lease now pid uuid i held = Acquired l → (now <= expiresAt l)%Z.
Proof.
  intros Ht. unfold promised_lease. destruct held as [h|]; [destruct (refuses i _ h)|];
    intros; simplify_eq; cbn; lia.
Qed.

(** What a grant is: the renewed own lease, or a new one. *)
Definition granted (now : Z) (pid uuid : jsstr) (i : AcquireInput) (held : option WorkspaceLease)
  (l : WorkspaceLease) : Prop :=
  canonicalRoot l = in_canonicalRoot i ∧ workSessionId l = in_workSessionId i
  ∧ leaseKind l = default modify (in_leaseKind i)
  ∧ expiresAt l = (now + default DEFAULT_TTL_MS (in_ttlMs i))%Z
  ∧ leaseNonce l = match held with
                   | Some h => if in_takeover i then uuid else leaseNonce h
                   | None => uuid
                   end.

Lemma live_view_root now t root l :
  live_view now t root = Some l → l ∈ t ∧ canonicalRoot l = root ∧ (now <= expiresAt l)%Z.
Proof.
  unfold live_view, getActiveWorkspaceLease. intros [Hin Hp]%get_where_Some.
  unfold at_root in Hp. by guards.
Qed.

Lemma promised_granted now pid uuid i held l :
  (∀ h, held = Some h → canonicalRoot h = in_canonicalRoot i) →
  promised_lease now pid uuid i held = Acquired l → granted now pid uuid i held l.
Proof.
  intros Hr. unfold promised_lease, granted. destruct held as [h|]; [|by intros [= <-]].
  destruct (refuses i _ h) eqn:E; [done|]. intros [= <-]. cbn. rewrite (Hr h eq_refl).
  apply refuses_spec in E as (Es & Ek & _). rewrite Es. split_and!; try done.
  destruct (default modify (in_leaseKind i)), (leaseKind h); cbn in *; naive_solver.
Qed.

(** C14: [acquireWorkspaceLease] implements exclusive leases by root.  On a table with one row per
    root it always returns.  It grants the root exactly when the root has no live lease or the
    caller may acquire it (its own session, and a peer-job reservation only by the identical
    reservation); the grant then is the root's live lease.  Otherwise it names the holder and no
    live lease changes.  Live leases of other roots never change. *)
Theorem acquire_excludes now pid uuid i t :
  keyed canonicalRoot t → (0 <= default DEFAULT_TTL_MS (in_ttlMs i))%Z →
  let root := in_canonicalRoot i in
  ∃ r t', acquireWorkspaceLease now pid uuid i t = Ok (r, t') ∧ keyed canonicalRoot t'
    ∧ (∀ root', root' ≠ root → live_view now t' root' = live_view now t root')
    ∧ match r with
      | Acquired l =>
          granted now pid uuid i (live_view now t root) l ∧ live_view now t' root = Some l
          ∧ ∀ h, live_view now t root = Some h → may_acquire pid i h
      | Conflict session workspace expires =>
          live_view now t' root = live_view now t root
          ∧ ∃ h, live_view now t root = Some h ∧ ¬ may_acquire pid i h
                 ∧ session = workSessionId h ∧ workspace = workspaceSessionId h ∧ expires = expiresAt h
      end.
Proof.
  intros Hk Httl; cbv zeta. destruct (acquire_total now pid uuid i t Hk) as (t' & Ha & Hk' & Hrow).
  assert (Hidem : ∀ k, live_view now t' k =
            match by_key canonicalRoot k t' with
            | Some l => if (now <=? expiresAt l)%Z then Some l else None | None => None end)
    by (intros; by apply active_by_key).
  eexists _, t'. split; [exact Ha|]. split; [done|]. split.
  { intros k Hne. rewrite Hidem, Hrow, decide_False by done.
    destruct (live_view now t k) as [l|] eqn:E; [|done].
    apply live_view_root in E as (_ & _ & E').
    by rewrite (proj2 (Z.leb_le _ _)). }
  specialize (Hrow (in_canonicalRoot i)). rewrite decide_True in Hrow by done.
  rewrite Hidem, Hrow. destruct (promised_lease _ _ _ _ _) as [l|se we ex] eqn:Ep.
  - rewrite (proj2 (Z.leb_le _ _)) by (by eapply promised_live). split_and!; [|done|].
    + eapply promised_granted; [|done]. intros h Hh. by apply live_view_root in Hh as (_ & ? & _).
    + intros h Hh. rewrite Hh in Ep. cbn in Ep. apply refuses_spec. by destruct (refuses i _ h).
  - destruct (live_view now t (in_canonicalRoot i)) as [h|] eqn:Eh; [|done].
    apply live_view_root in Eh as (_ & _ & Eh). rewrite (proj2 (Z.leb_le _ _)) by done.
    split; [done|]. exists h. cbn in Ep. destruct (refuses i _ h) eqn:Er; [|done].
    unfold conflict in Ep. simplify_eq. split_and!; try done. intros Hm.
    apply refuses_spec in Hm. congruence.
Qed.

(** ** Fencing *)

(** The operations of the store, with their inputs and clock. *)
Inductive LeaseOp :=
| OpAcquire (now : Z) (pid uuid : jsstr) (i : AcquireInput)
| OpRestore (previous : WorkspaceLease) (expected : jsstr)
| OpRelease (session nonce : jsstr)
| OpReleaseAll (session : jsstr)
| OpRenew (now : Z) (session : jsstr) (ttl : option Z) (nonce : jsstr).

Definition run_op (op : LeaseOp) (t : list WorkspaceLease) : list WorkspaceLease :=
  match op with
  | OpAcquire now pid uuid i =>
      match acquireWorkspaceLease now pid uuid i t with Ok (_, t') => t' | Err _ => t end
  | OpRestore previous expected => (restoreWorkspaceLeaseForSession previous expected t).2
  | OpRelease s n => (releaseWorkspaceLeaseForSession s n t).2
  | OpReleaseAll s => (releaseWorkspaceLeasesForSession s t).2
  | OpRenew now s ttl n => (renewWorkspaceLeaseForSession now s ttl n t).2
  end.

(** An operation that does not bring nonce [n] back: it neither mints it nor restores it. *)
Definition avoids (n : jsstr) (op : LeaseOp) : Prop :=
  match op with
  | OpAcquire _ _ uuid _ => uuid ≠ n
  | OpRestore previous _ => leaseNonce previous ≠ n
  | _ => True
  end.

Definition absent (n : jsstr) (t : list WorkspaceLease) : Prop := ∀ l, l ∈ t → leaseNonce l ≠ n.

Lemma absent_update n p f t :
  absent n t → (∀ l, leaseNonce l ≠ n → leaseNonce (f l) ≠ n) → absent n (update_where p f t).1.
Proof.
  intros H Hf l (l0 & Hin & ->)%elem_of_update_where. destruct (p l0); auto.
Qed.

Lemma absent_delete n p t : absent n t → absent n (delete_where p t).1.
Proof. intros H l [Hin _]%elem_of_Lfilter. auto. Qed.

Lemma absent_insert n l t : absent n t → leaseNonce l ≠ n → absent n (insert_row l t).
Proof. unfold insert_row. intros H Hl x [Hx| ->%list_elem_of_singleton]%elem_of_app; auto. Qed.

#[local] Hint Resolve absent_update absent_delete absent_insert : kontrol.

Lemma run_op_absent n op t : avoids n op → absent n t → absent n (run_op op t).
Proof.
  intros Ha Ht. destruct op as [now pid uuid i|prev e|s e|s|now s ttl e]; cbn in *.
  - unfold acquireWorkspaceLease. assert (Hp : absent n (purgeExpired now t)) by (by apply absent_delete).
    destruct (get_where _ _) as [l|].
    + destruct (refuses i _ l); [done|]. destruct (get_where _ _); [|done].
      apply absent_update; [done|]. intros x Hx. cbn. by destruct (in_takeover i).
    + destruct (get_where _ _); [|done]. by apply absent_insert.
  - unfold restoreWorkspaceLeaseForSession. case_match; [done|].
    rewrite (surjective_pairing (update_where _ _ _)). by apply absent_update.
  - unfold releaseWorkspaceLeaseForSession. case_match; [done|].
    rewrite (surjective_pairing (delete_where _ _)). by apply absent_delete.
  - unfold releaseWorkspaceLeasesForSession.
    rewrite (surjective_pairing (delete_where _ _)). by apply absent_delete.
  - unfold renewWorkspaceLeaseForSession. case_match; [done|].
    rewrite (surjective_pairing (update_where _ _ _)). by apply absent_update.
Qed.

(** What presenting a nonce no row has does: nothing. *)
Definition powerless (n : jsstr) (t : list WorkspaceLease) : Prop :=
  ∀ session now ttl previous,
    renewWorkspaceLeaseForSession now session ttl n t = (0, t)
    ∧ releaseWorkspaceLeaseForSession session n t = (false, t)
    ∧ restoreWorkspaceLeaseForSession previous n t = (false, t).

Lemma absent_guard n (b : bool) t l :
  absent n t → l ∈ t → b && (leaseNonce l =s n) = false.
Proof.
  intros H Hl. apply andb_false_iff. right. apply js_eqb_neq. auto.
Qed.

Lemma absent_powerless n t : absent n t → powerless n t.
Proof.
  intros H s now ttl prev. unfold renewWorkspaceLeaseForSession, releaseWorkspaceLeaseForSession,
    restoreWorkspaceLeaseForSession. split_and!.
  - case_match; [done|]. rewrite update_where_none; [done|]. by intros; eapply absent_guard.
  - case_match; [done|]. unfold delete_where. rewrite Lfilter_none by (by intros; eapply absent_guard).
    rewrite Lfilter_all; [done|]. intros l Hl. apply negb_true_iff. by intros; eapply absent_guard.
  - case_match; [done|]. rewrite update_where_none; [done|]. by intros; eapply absent_guard.
Qed.

(** An acquisition that grants a root under another nonce leaves no row with the old one. *)
Lemma takeover_absent now pid uuid i t l r t' :
  keyed canonicalRoot t → keyed leaseNonce t →
  live_view now t (in_canonicalRoot i) = Some l → in_takeover i = true → uuid ≠ leaseNonce l →
  acquireWorkspaceLease now pid uuid i t = Ok (Acquired r, t') → absent (leaseNonce l) t'.
Proof.
  intros Hk Hn Hl Hto Hu Ha x Hx E.
  destruct (acquire_total now pid uuid i t Hk) as (t1 & Ha1 & Hk1 & Hrow).
  rewrite Ha in Ha1. simplify_eq. specialize (Hrow (canonicalRoot x)).
  rewrite (keyed_by_key canonicalRoot) in Hrow by done.
  apply live_view_root in Hl as Hl'. destruct Hl' as (Hin & Hroot & _).
  case_decide as Hd.
  - rewrite Hd, Hl in Hrow. rewrite Hl in *. cbn in *. destruct (refuses i _ l); simplify_eq.
    cbn in E. by rewrite Hto in E.
  - symmetry in Hrow. apply live_view_root in Hrow as (Hx' & _ & _).
    apply Hd. rewrite <- Hroot. f_equal. by eapply (keyed_inj leaseNonce).
Qed.

(** An operation does not mint the nonce [n] anew. *)
Definition fresh_of (n : jsstr) (op : LeaseOp) : Prop :=
  match op with OpAcquire _ _ uuid _ => uuid ≠ n | _ => True end.

(** The operation [op] rolls a lease back to the nonce [n], and the table [t] lets it: it presents
    another nonce, which a lease of the same root and session holds. *)
Definition rolls_back (n : jsstr) (op : LeaseOp) (t : list WorkspaceLease) : Prop :=
  ∃ previous e, op = OpRestore previous e ∧ leaseNonce previous = n ∧ e ≠ n
    ∧ (restoreWorkspaceLeaseForSession previous e t).1 = true
    ∧ ∃ h, h ∈ t ∧ leaseNonce h = e ∧ canonicalRoot h = canonicalRoot previous
           ∧ workSessionId h = workSessionId previous.

Lemma restore_cases previous e t :
  restoreWorkspaceLeaseForSession previous e t = (false, t)
  ∨ (restoreWorkspaceLeaseForSession previous e t).1 = true
    ∧ ∃ h, h ∈ t ∧ leaseNonce h = e ∧ canonicalRoot h = canonicalRoot previous
           ∧ workSessionId h = workSessionId previous.
Proof.
  unfold restoreWorkspaceLeaseForSession. case_match; [by left|].
  set (p := λ l, _ && _ && _). rewrite (surjective_pairing (update_where p _ _)).
  destruct ((update_where p (restored previous) t).2) eqn:E.
  - left. by rewrite (update_where_changes_0 _ _ _ E).
  - right. split; [done|]. unfold update_where in E. cbn in E.
    destruct (List.filter p t) as [|h l] eqn:Ef; [done|].
    assert (Hh : h ∈ List.filter p t) by (rewrite Ef; by left).
    apply elem_of_Lfilter in Hh as [Hin Hp]. exists h. split; [done|]. unfold p, at_root in Hp. guards.
    by split_and!.
Qed.

Lemma run_op_fenced n op t :
  fresh_of n op → absent n t → absent n (run_op op t) ∨ rolls_back n op t.
Proof.
  intros Hf Ht. destruct op as [now pid uuid i|previous e|s e|s|now s ttl e]; try (left; by apply run_op_absent).
  destruct (decide (leaseNonce previous = n)) as [Hp|Hp]; [|left; by apply run_op_absent].
  destruct (restore_cases previous e t) as [E|[E (h & Hh & He & Hr)]].
  - left. cbn [run_op]. by rewrite E.
  - right. exists previous, e. split; [done|]. split; [done|]. split; [|split; [done|by exists h]].
    rewrite <- He. by apply Ht.
Qed.

(** C22: A takeover fences the previous holder out.  After a session takes over its live lease,
    the nonce it held is on no row, and along every later history of acquisitions, renewals,
    releases and restorations, where random nonces do not repeat it, renewing, releasing or
    restoring with it changes nothing and reports so, until a restoration rolls the takeover back:
    and that one presents another nonce, which the lease it restores carries then, so the previous
    holder's own nonce never suffices. *)
Theorem takeover_fences_old_nonce now pid uuid i t l r t' ops :
  keyed canonicalRoot t → keyed leaseNonce t →
  live_view now t (in_canonicalRoot i) = Some l → in_takeover i = true → uuid ≠ leaseNonce l →
  acquireWorkspaceLease now pid uuid i t = Ok (Acquired r, t') →
  Forall (fresh_of (leaseNonce l)) ops →
  let after ops := foldl (λ s op, run_op op s) t' ops in
  powerless (leaseNonce l) (after ops)
  ∨ ∃ before op later, ops = before ++ op :: later ∧ powerless (leaseNonce l) (after before)
                       ∧ rolls_back (leaseNonce l) op (after before).
Proof.
  intros Hk Hn Hl Hto Hu Ha Hops. cbn zeta.
  assert (H : absent (leaseNonce l) t') by (by eapply takeover_absent).
  clear Ha Hl. revert t' H. induction Hops as [|op ops Hop _ IH]; intros t' H; cbn [foldl].
  { left. by apply absent_powerless. }
  destruct (run_op_fenced _ _ _ Hop H) as [H'|H'].
  - destruct (IH _ H') as [?|(before & op' & later & -> & ?)]; [by left|].
    right. by exists (op :: before), op', later.
  - right. exists [], op, ops. split; [done|]. split; [by apply absent_powerless|done].
Qed.

(** A failed takeover can be undone.  Restoring the lease read before a takeover, under the
    nonce the takeover returned, makes the root's row exactly the previous lease again and leaves
    the other roots' rows alone. *)
Theorem takeover_restore_roundtrip now pid uuid i t l r t' :
  keyed canonicalRoot t → live_view now t (in_canonicalRoot i) = Some l →
  in_takeover i = true → nonempty uuid = true → nonempty (leaseNonce l) = true →
  acquireWorkspaceLease now pid uuid i t = Ok (Acquired r, t') →
  ∃ t'', restoreWorkspaceLeaseForSession l (leaseNonce r) t' = (true, t'')
    ∧ live_view now t'' (in_canonicalRoot i) = Some l
    ∧ ∀ root, root ≠ in_canonicalRoot i → live_view now t'' root = live_view now t root.
Proof.
  intros Hk Hl Hto Hu Hn Ha.
  destruct (acquire_total now pid uuid i t Hk) as (t1 & Ha1 & Hk1 & Hrow).
  rewrite Ha in Ha1. apply live_view_root in Hl as Hl'. destruct Hl' as (_ & Hroot & Hlive).
  injection Ha1 as Ha1 <-. rewrite Hl in Ha1. cbn in Ha1.
  destruct (refuses i _ l) eqn:Er; [done|]. injection Ha1 as ->.
  set (r := renewed now _ i _ uuid l) in *.
  assert (Hr : leaseNonce r = uuid) by (cbn; by rewrite Hto).
  pose proof (Hrow (in_canonicalRoot i)) as Hri. rewrite decide_True, Hl in Hri by done.
  cbn in Hri. rewrite Er in Hri. fold r in Hri.
  assert (Hres : restored l r = l).
  { apply refuses_spec in Er as (_ & Ek & _). unfold restored, r. destruct l; cbn in *. f_equal.
    destruct (default modify (in_leaseKind i)), leaseKind0; cbn; naive_solver. }
  unfold restoreWorkspaceLeaseForSession. rewrite Hr, Hu, Hn. cbn [negb orb].
  set (p := λ x, _ && _). rewrite (surjective_pairing (update_where p _ _)).
  assert (Hp : p r = true) by (unfold p, at_root; subst r; cbn; rewrite Hto, !js_eqb_refl;
                               by rewrite bool_decide_eq_true_2).
  assert (Hpk : preserves_key canonicalRoot (restored l)) by (by intros []).
  assert (Hpr : ∀ x, p x = true → canonicalRoot x = in_canonicalRoot i).
  { intros x. unfold p, at_root. intros H. guards. congruence. }
  rewrite (changes_keyed canonicalRoot _ _ _ (in_canonicalRoot i)), Hri, Hp by done.
  eexists. split; [done|].
  split; [|intros k Hne]; rewrite !active_by_key by eauto using keyed_update.
  - erewrite by_key_update_hit by done. rewrite Hres. by rewrite (proj2 (Z.leb_le _ _)).
  - rewrite by_key_update_miss; [|done|].
    + rewrite Hrow, decide_False by done. rewrite <- active_by_key by done.
      destruct (live_view now t k) as [x|] eqn:Ex; [|done].
      apply live_view_root in Ex as (_ & _ & Ex). by rewrite (proj2 (Z.leb_le _ _)).
    + intros x [_ Hx]%by_key_Some. destruct (p x) eqn:Px; [|done]. apply Hpr in Px. congruence.
Qed.

(** ** Concrete runs *)

Definition ex_lease : WorkspaceLease :=
  {| canonicalRoot := "/repo"; workspaceSessionId := "ws1"; workSessionId := "s1";
     leaseKind := modify; ownerInstanceId := "41"; leaseNonce := "n1";
     acquiredAt := 0; heartbeatAt := 0; expiresAt := 1000 |}.

Definition ex_request (session : jsstr) (takeover : bool) : AcquireInput :=
  mkAcquire "/repo" "ws1" session (Some (js "42")) None takeover None.

Lemma acquire_excludes_witness :
  ∃ t', acquireWorkspaceLease 10 "42" "n2" (ex_request "s2" false) [ex_lease] =
      Ok (Conflict "s1" "ws1" 1000, t') ∧ live_view 10 t' "/repo" = Some ex_lease.
Proof.
  destruct (acquire_excludes 10 "42" "n2" (ex_request "s2" false) [ex_lease])
    as (r & t' & Hr & _ & _ & H); [apply NoDup_singleton|by vm_compute|].
  vm_compute in Hr. injection Hr as <- <-. eexists. split; [by vm_compute|]. by apply H.
Defined.

Definition ex_taken : WorkspaceLease :=
  {| canonicalRoot := "/repo"; workspaceSessionId := "ws1"; workSessionId := "s1";
     leaseKind := modify; ownerInstanceId := "42"; leaseNonce := "n2";
     acquiredAt := 0; heartbeatAt := 10; expiresAt := 3600010 |}.

Lemma takeover_fences_old_nonce_witness :
  acquireWorkspaceLease 10 "42" "n2" (ex_request "s1" true) [ex_lease] =
    Ok (Acquired ex_taken, [ex_taken])
  ∧ let ops := [OpRenew 20 "s1" None "n2"; OpRestore ex_lease "n1";
                OpAcquire 30 "43" "n3" (ex_request "s1" false); OpRestore ex_lease "n2"] in
    let after ops := foldl (λ s op, run_op op s) [ex_taken] ops in
    powerless "n1" (after ops)
    ∨ ∃ before op later, ops = before ++ op :: later ∧ powerless "n1" (after before)
                         ∧ rolls_back "n1" op (after before).
Proof.
  split; [by vm_compute|].
  apply (takeover_fences_old_nonce 10 "42" "n2" (ex_request "s1" true) [ex_lease] ex_lease ex_taken);
    try by vm_compute.
  1,2: apply NoDup_singleton.
  repeat constructor; by vm_compute.
Defined.

Lemma takeover_restore_roundtrip_witness :
  ∃ t'', restoreWorkspaceLeaseForSession ex_lease "n2" [ex_taken] = (true, t'')
    ∧ live_view 10 t'' "/repo" = Some ex_lease.
Proof.
  destruct (takeover_restore_roundtrip 10 "42" "n2" (ex_request "s1" true) [ex_lease] ex_lease
              ex_taken [ex_taken]) as (t'' & H1 & H2 & _); try by vm_compute.
  - apply NoDup_singleton.
  - by exists t''.
Defined.

End WorkspaceLeases.
