(* ===== verification/Continuation.v ===== *)
(** * Review-to-agent continuations ([src/src/continuation.ts])

    Review feedback reaches the agent as a continuation: a row of [continuations] with the prompt
    to deliver.  A dispatcher claims it, delivers it or parks it for reconciliation; the session's
    end supersedes what is outstanding.  The JSON columns hold arrays of strings and are modelled
    by those arrays. *)

From S2P Require Import Prelude JsString Sql.

Module Continuations.

Inductive ContinuationStatus :=
| pending | claimed | reconciliation_required | dispatched | completed | superseded.

#[export] Instance ContinuationStatus_eq_dec : EqDecision ContinuationStatus.
Proof. solve_decision. Defined.

Record Continuation := mkContinuation {
  id : jsstr;
  sessionId : jsstr;
  reviewId : jsstr;
  feedbackEventId : jsstr;
  reviewEpoch : Z;
  verdict : jsstr;
  requiredActions : list jsstr;
  allowedNextActions : list jsstr;
  reviewedDiffHash : option jsstr;
  feedbackSummary : option jsstr;
  resumeInstructions : option jsstr;
  status : ContinuationStatus;
  target : option jsstr;
  claimOwner : option jsstr;
  claimedAt : option Z;
  promptText : jsstr;
  createdAt : Z;
  deliveredAt : option Z;
  consumedAt : option Z
}.

Record CreateContinuationInput := mkInput {
  in_sessionId : jsstr;
  in_reviewId : jsstr;
  in_feedbackEventId : jsstr;
  in_verdict : jsstr;
  in_requiredActions : option (list jsstr);
  in_allowedNextActions : option (list jsstr);
  in_reviewedDiffHash : option jsstr;
  in_feedbackSummary : option jsstr;
  in_resumeInstructions : option jsstr;
  in_submissionMessage : option jsstr
}.

Definition DEFAULT_CLAIM_LEASE_MS : Z := 60000.

(** The columns a transition writes; the others never change after the row is created. *)
Definition with_cols (st : ContinuationStatus) (summary tgt owner : option jsstr)
  (claimed_at delivered consumed : option Z) (c : Continuation) : Continuation :=
  {| id := id c; sessionId := sessionId c; reviewId := reviewId c;
     feedbackEventId := feedbackEventId c; reviewEpoch := reviewEpoch c; verdict := verdict c;
     requiredActions := requiredActions c; allowedNextActions := allowedNextActions c;
     reviewedDiffHash := reviewedDiffHash c; feedbackSummary := summary;
     resumeInstructions := resumeInstructions c; status := st; target := tgt;
     claimOwner := owner; claimedAt := claimed_at; promptText := promptText c;
     createdAt := createdAt c; deliveredAt := delivered; consumedAt := consumed |}.

(** ** The prompt *)

(** [if (xs.length > 0) { header; items; "" }] *)
Definition block (header : jsstr) (items : list jsstr) : list jsstr :=
  match items with [] => [] | _ => header :: items ++ [js ""] end.

Definition numbered (actions : list jsstr) : list jsstr :=
  imap (λ i a, numeral (Z.of_nat i + 1) +s ". " +s a) actions.

Definition promptLines (i : CreateContinuationInput) : list jsstr :=
  let sid := in_sessionId i in
  [ "Review feedback has arrived for Kontrol work session " +s sid +s "."; js "";
    "Review ID: " +s in_reviewId i;
    "Feedback event: " +s in_feedbackEventId i;
    "Verdict: " +s in_verdict i; js "" ]
  ++ match in_feedbackSummary i with
     | Some s => if nonempty (trim s) then [js "Reviewer comments:"; trim s; js ""] else []
     | None => []
     end
  ++ block "Required actions:" (numbered (default [] (in_requiredActions i)))
  ++ block "Allowed next actions:"
       (List.map (λ a, "- " +s a) (default [] (in_allowedNextActions i)))
  ++ [ js "Use Kontrol MCP:";
       "- get_work_session(sessionId=" +s [DQUOTE] +s sid +s [DQUOTE] +s ")";
       "- get_review_submission(sessionId=" +s [DQUOTE] +s sid +s [DQUOTE] +s ")";
       js "- continue from the persisted session state."; js "" ]
  ++ match in_resumeInstructions i with
     | Some r => if nonempty r then [r; js ""] else []
     | None => []
     end
  ++ [ js "Do not restart from scratch. Continue this session and address the review feedback.";
       js ""; js "You MUST:";
       js "- Remain in the existing workspace.";
       js "- Preserve unrelated user changes.";
       js "- Address each required action.";
       js "- Submit a new review revision when done.";
       js "- Call submit_for_review, then await_review_feedback waiting for A-okay." ].

Definition renderPrompt (i : CreateContinuationInput) : jsstr := joinLines (promptLines i).

(** ** Creation *)

Definition of_session (s : jsstr) (c : Continuation) : bool := sessionId c =s s.
Definition is_status (st : ContinuationStatus) (c : Continuation) : bool :=
  bool_decide (status c = st).
Definition has_id (k : jsstr) (c : Continuation) : bool := bool_decide (id c = k).
Definition owned_by (owner : jsstr) (c : Continuation) : bool :=
  bool_decide (claimOwner c = Some owner).

Definition ge_epoch (a b : Continuation) : bool := (reviewEpoch b <=? reviewEpoch a)%Z.
Definition le_created (a b : Continuation) : bool := (createdAt a <=? createdAt b)%Z.
Definition ge_created (a b : Continuation) : bool := (createdAt b <=? createdAt a)%Z.

Definition getNextEpoch (session : jsstr) (t : list Continuation) : Z :=
  match first_by ge_epoch (select_where (of_session session) t) with
  | Some latest => reviewEpoch latest + 1
  | None => 1
  end.

Definition newContinuation (now : Z) (uuid : jsstr) (i : CreateContinuationInput) (epoch : Z)
  : Continuation :=
  {| id := "cont_" +s uuid; sessionId := in_sessionId i; reviewId := in_reviewId i;
     feedbackEventId := in_feedbackEventId i; reviewEpoch := epoch; verdict := in_verdict i;
     requiredActions := default [] (in_requiredActions i);
     allowedNextActions := default [] (in_allowedNextActions i);
     reviewedDiffHash := in_reviewedDiffHash i; feedbackSummary := in_feedbackSummary i;
     resumeInstructions := in_resumeInstructions i; status := pending; target := None;
     claimOwner := None; claimedAt := None; promptText := renderPrompt i; createdAt := now;
     deliveredAt := None; consumedAt := None |}.

Definition create (now : Z) (uuid : jsstr) (i : CreateContinuationInput) (t : list Continuation)
  : Continuation * list Continuation :=
  let c := newContinuation now uuid i (getNextEpoch (in_sessionId i) t) in
  (c, insert_row c t).

(** ** Queries *)

Definition get (k : jsstr) (t : list Continuation) : option Continuation := by_key id k t.

Definition getByFeedbackEventId (f : jsstr) (t : list Continuation) : option Continuation :=
  first_by ge_created (select_where (λ c, feedbackEventId c =s f) t).

Definition listPending (session : option jsstr) (t : list Continuation) : list Continuation :=
  order_by le_created
    (select_where (λ c, is_status pending c &&
       match session with Some ((_ :: _) as s) => of_session s c | _ => true end) t).

Definition listReconciliationRequired (t : list Continuation) : list Continuation :=
  order_by le_created (select_where (is_status reconciliation_required) t).

Definition listForSession (session : jsstr) (t : list Continuation) : list Continuation :=
  order_by le_created (select_where (of_session session) t).

Definition getPrompt (f : jsstr) (t : list Continuation) : option jsstr :=
  promptText <$> getByFeedbackEventId f t.

(** ** Claims *)

Record ClaimOpts := mkOpts { opt_id : option jsstr; opt_sessionId : option jsstr }.

(** The row [claim] selects, before it looks at its status. *)
Definition claimCandidate (o : ClaimOpts) (t : list Continuation) : option Continuation :=
  match opt_id o, opt_sessionId o with
  | Some ((_ :: _) as k), _ => by_key id k t
  | _, Some ((_ :: _) as s) =>
      first_by le_created (select_where (λ c, is_status pending c && of_session s c) t)
  | _, _ => first_by le_created (select_where (is_status pending) t)
  end.

Definition set_claimed (owner : jsstr) (now : Z) (c : Continuation) : Continuation :=
  with_cols claimed (feedbackSummary c) (target c) (Some owner) (Some now) (deliveredAt c)
    (consumedAt c) c.

Definition claim (now : Z) (owner : jsstr) (o : ClaimOpts) (t : list Continuation)
  : option Continuation * list Continuation :=
  match claimCandidate o t with
  | None => (None, t)
  | Some candidate =>
      if negb (is_status pending candidate) then (None, t)
      else
        let '(t', changes) :=
          update_where (λ c, has_id (id candidate) c && is_status pending c)
            (set_claimed owner now) t in
        if Nat.eqb changes 0 then (None, t') else (by_key id (id candidate) t', t')
  end.

Definition set_pending (c : Continuation) : Continuation :=
  with_cols pending (feedbackSummary c) (target c) None None (deliveredAt c) (consumedAt c) c.

Definition releasable (owner : jsstr) (o : ClaimOpts) (c : Continuation) : bool :=
  match opt_id o, opt_sessionId o with
  | Some ((_ :: _) as k), _ => is_status claimed c && has_id k c && owned_by owner c
  | _, Some ((_ :: _) as s) => is_status claimed c && of_session s c && owned_by owner c
  | _, _ => is_status claimed c && owned_by owner c
  end.

Definition release (owner : jsstr) (o : ClaimOpts) (t : list Continuation) : list Continuation :=
  (update_where (releasable owner o) set_pending t).1.

(** [lt(claimedAt, cutoff)], and the owner when one is given *)
Definition claim_expired (cutoff : Z) (owner : option jsstr) (c : Continuation) : bool :=
  is_status claimed c
  && match claimedAt c with Some x => (x <? cutoff)%Z | None => false end
  && match owner with Some ((_ :: _) as o) => owned_by o c | _ => true end.

Definition reapExpiredClaims (now leaseMs : Z) (owner : option jsstr) (t : list Continuation)
  : nat * list Continuation :=
  let expired := select_where (claim_expired (now - leaseMs) owner) t in
  (length expired, foldl (λ t' row, (update_where (has_id (id row)) set_pending t').1) t expired).

(** ** Supersession *)

Definition set_superseded (now : Z) (reason : jsstr) (c : Continuation) : Continuation :=
  with_cols superseded (Some reason) (target c) None None (deliveredAt c) (Some now) c.

Definition supersede (now : Z) (k reason : jsstr) (t : list Continuation)
  : bool * list Continuation :=
  let '(t', changes) := update_where (has_id k) (set_superseded now reason) t in
  ((0 <? changes)%nat, t').

Definition supersedeForSession (now now' : Z) (session reason : jsstr) (t : list Continuation)
  : nat * list Continuation :=
  let '(t1, updated) :=
    update_where (λ c, of_session session c && is_status pending c) (set_superseded now reason) t in
  let '(t2, from_claimed) :=
    update_where (λ c, of_session session c && is_status claimed c) (set_superseded now' reason) t1 in
  (updated + from_claimed, t2).

(** ** Delivery *)

Definition claimed_under (k owner : jsstr) (c : Continuation) : bool :=
  has_id k c && is_status claimed c && owned_by owner c.

Definition set_dispatched (now : Z) (run : jsstr) (c : Continuation) : Continuation :=
  with_cols dispatched (feedbackSummary c) (Some run) (claimOwner c) (claimedAt c) (Some now)
    (consumedAt c) c.

Definition markDelivered (now : Z) (k owner run : jsstr) (t : list Continuation)
  : bool * list Continuation :=
  let '(t', changes) := update_where (claimed_under k owner) (set_dispatched now run) t in
  ((0 <? changes)%nat, t').

Definition set_reconciliation (run reason : jsstr) (c : Continuation) : Continuation :=
  with_cols reconciliation_required (Some (take 2000 reason)) (Some run) None None (deliveredAt c)
    (consumedAt c) c.

Definition markReconciliationRequired (k owner run reason : jsstr) (t : list Continuation)
  : bool * list Continuation :=
  let '(t', changes) := update_where (claimed_under k owner) (set_reconciliation run reason) t in
  ((0 <? changes)%nat, t').

Inductive ReconciliationOutcome := outcome_dispatched | outcome_retry_safe.

Definition set_resolved (now : Z) (run : jsstr) (o : ReconciliationOutcome) (c : Continuation)
  : Continuation :=
  match o with
  | outcome_dispatched =>
      with_cols dispatched None (Some run) (claimOwner c) (claimedAt c) (Some now) (consumedAt c) c
  | outcome_retry_safe =>
      with_cols pending None None (claimOwner c) (claimedAt c) (deliveredAt c) (consumedAt c) c
  end.

Definition resolveReconciliation (now : Z) (k run : jsstr) (o : ReconciliationOutcome)
  (t : list Continuation) : bool * list Continuation :=
  let '(t', changes) :=
    update_where (λ c, has_id k c && is_status reconciliation_required c
                       && bool_decide (target c = Some run)) (set_resolved now run o) t in
  ((0 <? changes)%nat, t').

Definition set_status_dispatched (c : Continuation) : Continuation :=
  with_cols dispatched (feedbackSummary c) (target c) (claimOwner c) (claimedAt c) (deliveredAt c)
    (consumedAt c) c.

Definition markDispatched (k : jsstr) (t : list Continuation) : list Continuation :=
  (update_where (has_id k) set_status_dispatched t).1.

Definition set_completed (now : Z) (c : Continuation) : Continuation :=
  with_cols completed (feedbackSummary c) (target c) (claimOwner c) (claimedAt c) (deliveredAt c)
    (Some now) c.

Definition markCompleted (now : Z) (k : jsstr) (t : list Continuation) : list Continuation :=
  (update_where (has_id k) (set_completed now) t).1.

(** ** The life of one continuation

    The transitions a row can make, each with the status it requires. *)

Inductive row_move : Continuation → Continuation → Prop :=
| mv_claim owner now c : status c = pending → row_move c (set_claimed owner now c)
| mv_unclaim c : status c = claimed → row_move c (set_pending c)
| mv_supersede now reason c : row_move c (set_superseded now reason c)
| mv_deliver now run c : status c = claimed → row_move c (set_dispatched now run c)
| mv_park run reason c : status c = claimed → row_move c (set_reconciliation run reason c)
| mv_resolve now run o c :
    status c = reconciliation_required → row_move c (set_resolved now run o c)
| mv_dispatch c : row_move c (set_status_dispatched c)
| mv_complete now c : row_move c (set_completed now c).

#[local] Hint Constructors row_move : kontrol.

(** A row stays or moves. *)
Definition may_move (c c' : Continuation) : Prop := c' = c ∨ row_move c c'.

(** The operations that change the store. *)
Inductive step : list Continuation → list Continuation → Prop :=
| step_create now uuid i t :
    by_key id ("cont_" +s uuid) t = None → step t (create now uuid i t).2
| step_claim now owner o t : step t (claim now owner o t).2
| step_release owner o t : step t (release owner o t)
| step_reap now lease owner t : step t (reapExpiredClaims now lease owner t).2
| step_supersede now k reason t : step t (supersede now k reason t).2
| step_supersedeForSession now now' s reason t :
    step t (supersedeForSession now now' s reason t).2
| step_deliver now k owner run t : step t (markDelivered now k owner run t).2
| step_park k owner run reason t : step t (markReconciliationRequired k owner run reason t).2
| step_resolve now k run o t : step t (resolveReconciliation now k run o t).2
| step_dispatch k t : step t (markDispatched k t)
| step_complete now k t : step t (markCompleted now k t).

Lemma move_update p f t :
  (∀ c, c ∈ t → p c = true → row_move c (f c)) →
  Forall2 may_move t (update_where p f t).1.
Proof.
  intros H. unfold update_where; cbn. induction t as [|c t IH]; cbn; constructor.
  - destruct (p c) eqn:E; [right|by left]. apply H; [left|done].
  - apply IH. intros x Hx. apply H. by right.
Qed.

Lemma may_move_refl t : Forall2 may_move t t.
Proof. induction t; constructor; [by left|done]. Qed.

(** The reaping loop is one update of the expired claims. *)
Lemma reap_bulk now lease owner t :
  keyed id t →
  (reapExpiredClaims now lease owner t).2 =
    (update_where (claim_expired (now - lease) owner) set_pending t).1.
Proof.
  intros Hk. unfold reapExpiredClaims; cbn.
  rewrite <- (cas_loop_foldl (λ r, has_id (id r))), (cas_loop_select id).
  - done.
  - by intros [].
  - intros r x. unfold has_id. by guards.
  - done.
  - intros r _ _. unfold has_id. by apply bool_decide_eq_true.
Qed.

Ltac row_cases := intros; unfold has_id, is_status, of_session, owned_by in *; guards;
  eauto using row_move.

(** Every operation either adds one new continuation or moves each row by itself. *)
Lemma step_rows t t' :
  keyed id t → step t t' →
  Forall2 may_move t t'
  ∨ ∃ now uuid i, by_key id ("cont_" +s uuid) t = None
      ∧ t' = insert_row (newContinuation now uuid i (getNextEpoch (in_sessionId i) t)) t.
Proof.
  intros Hk Hs.
  destruct Hs as [now uuid i t Hn|now owner o t|owner o t|now lease owner t|now k r t
    |now now' s r t|now k o run t|k o run r t|now k run o t|k t|now k t];
    [right; by eauto 6|left..].
  - unfold claim. destruct (claimCandidate o t) as [c|]; [|apply may_move_refl].
    case_match; [apply may_move_refl|].
    rewrite (surjective_pairing (update_where _ _ t)). case_match; apply move_update; row_cases.
  - apply move_update. intros c _. unfold releasable. repeat case_match; row_cases.
  - rewrite reap_bulk by done. apply move_update. unfold claim_expired. row_cases.
  - apply move_update. row_cases.
  - unfold supersedeForSession. rewrite (surjective_pairing (update_where _ _ t)).
    rewrite (surjective_pairing (update_where _ _ (update_where _ _ t).1)). cbn [snd].
    unfold update_where; cbn. rewrite List.map_map. induction t as [|c t IH]; constructor.
    + unfold may_move, is_status, of_session. destruct (sessionId c =s s) eqn:E1; cbn.
      * repeat (case_bool_decide; cbn; rewrite ?E1; cbn); simplify_eq/=; eauto with kontrol.
      * rewrite E1. by left.
    + apply IH. unfold keyed in Hk. cbn in Hk. by apply NoDup_cons in Hk as [_ ?].
  - unfold markDelivered. rewrite (surjective_pairing (update_where _ _ t)).
    apply move_update. unfold claimed_under. row_cases.
  - unfold markReconciliationRequired. rewrite (surjective_pairing (update_where _ _ t)).
    apply move_update. unfold claimed_under. row_cases.
  - unfold resolveReconciliation. rewrite (surjective_pairing (update_where _ _ t)).
    apply move_update. row_cases.
  - apply move_update. row_cases.
  - apply move_update. row_cases.
Qed.

(** ** The invariant of the store *)

Definition wf (c : Continuation) : Prop :=
  match status c with
  | pending | superseded => claimOwner c = None ∧ claimedAt c = None
  | reconciliation_required => claimOwner c = None ∧ claimedAt c = None ∧ is_Some (target c)
  | claimed => is_Some (claimOwner c) ∧ is_Some (claimedAt c)
  | dispatched | completed => True
  end.

Definition epochs_of (s : jsstr) (t : list Continuation) : list Z :=
  List.map reviewEpoch (select_where (of_session s) t).

Record store_ok (t : list Continuation) : Prop := {
  ok_ids : keyed id t;
  ok_epochs : ∀ s, epochs_of s t = seqZ 1 (Z.of_nat (length (epochs_of s t)));
  ok_rows : Forall wf t
}.

Lemma row_move_wf c c' : row_move c c' → wf c → wf c'.
Proof.
  destruct 1 as [? ? c H|c H| |? ? c H|? ? c H|? ? o c H| |]; unfold wf; cbn; try done; eauto.
  rewrite H. by destruct o; cbn; intros (? & ? & _).
Qed.

Lemma may_move_keys c c' :
  may_move c c' → id c' = id c ∧ sessionId c' = sessionId c ∧ reviewEpoch c' = reviewEpoch c.
Proof. intros [->|[]]; try done. by destruct o. Qed.

Lemma moves_ids t t' : Forall2 may_move t t' → List.map id t' = List.map id t.
Proof. induction 1 as [|c c' t t' (E & _)%may_move_keys _ IH]; cbn; congruence. Qed.

Lemma moves_epochs s t t' : Forall2 may_move t t' → epochs_of s t' = epochs_of s t.
Proof.
  unfold epochs_of, select_where, of_session.
  induction 1 as [|c c' t t' (_ & E1 & E2)%may_move_keys _ IH]; cbn; [done|].
  rewrite E1. destruct (sessionId c =s s); cbn; [by rewrite E2, IH|done].
Qed.

Lemma moves_by_key k t t' :
  Forall2 may_move t t' → option_Forall2 may_move (by_key id k t) (by_key id k t').
Proof.
  unfold by_key, get_where. induction 1 as [|c c' t t' H _ IH]; cbn; [constructor|].
  apply may_move_keys in H as H'. destruct H' as (-> & _).
  case_bool_decide; [by constructor|done].
Qed.

(** The next epoch follows the ones given out so far. *)
Lemma getNextEpoch_dense s t :
  epochs_of s t = seqZ 1 (Z.of_nat (length (epochs_of s t))) →
  getNextEpoch s t = (1 + Z.of_nat (length (epochs_of s t)))%Z.
Proof.
  intros Hd. unfold getNextEpoch. destruct (first_by _ _) as [r|] eqn:E.
  - remember (length (epochs_of s t)) as n eqn:En.
    assert (Hn : n ≠ 0).
    { intros ->. apply first_by_elem in E. symmetry in En. apply nil_length_inv, map_eq_nil in En.
      rewrite En in E. by apply not_elem_of_nil in E. }
    apply first_by_elem in E as Hr.
    assert (Hre : reviewEpoch r ∈ epochs_of s t) by (apply elem_of_Lmap; eauto).
    rewrite Hd, elem_of_seqZ in Hre.
    assert (Hlast : Z.of_nat n ∈ epochs_of s t) by (rewrite Hd, elem_of_seqZ; lia).
    apply elem_of_Lmap in Hlast as (x & Ex & Hx).
    eapply first_by_least in E; [|by intros; unfold ge_epoch in *; guards; lia..|exact Hx].
    unfold ge_epoch in E. guards. lia.
  - rewrite first_by_None in E. unfold epochs_of. by rewrite E.
Qed.

Lemma create_ok now uuid i t :
  by_key id ("cont_" +s uuid) t = None → store_ok t → store_ok (create now uuid i t).2.
Proof.
  intros Hn [Hk He Hf]. unfold create; cbn [snd]. constructor.
  - by apply keyed_insert.
  - intros s. unfold epochs_of, insert_row, select_where in *.
    rewrite List.filter_app, List.map_app, length_app, Nat2Z.inj_add, seqZ_app by lia.
    rewrite <- He. f_equal. cbn. unfold of_session; cbn.
    destruct (in_sessionId i =s s) eqn:E; [|done]. guards. subst s. cbn.
    pose proof (getNextEpoch_dense (in_sessionId i) t (He _)) as Hg.
    rewrite Hg. by rewrite seqZ_cons by lia.
  - apply Forall_app. split; [done|]. by repeat constructor.
Qed.

Lemma step_ok t t' : step t t' → store_ok t → store_ok t'.
Proof.
  intros Hs Hok. pose proof (ok_ids _ Hok) as Hk.
  destruct (step_rows _ _ Hk Hs) as [Hm|(now & uuid & i & Hn & ->)]; [|by apply (create_ok now)].
  destruct Hok as [_ He Hf]. constructor.
  - unfold keyed. by rewrite (moves_ids t).
  - intros s. by rewrite (moves_epochs s t).
  - clear -Hm Hf. induction Hm as [|c c' t t' H _ IH]; [done|].
    apply Forall_cons in Hf as [Hc Hf]. constructor; [|auto].
    destruct H as [->|H]; [done|]. by eapply row_move_wf.
Qed.

Lemma steps_ok t t' : steps step t t' → store_ok t → store_ok t'.
Proof. apply steps_invariant, step_ok. Qed.

(** Along every history of creation, claiming, release, reaping, supersession, delivery and
    reconciliation, continuation ids stay unique, the epochs of each session are exactly
    [1, 2, ..., n] in order of creation, and the claim columns are set exactly while a row is
    claimed (until it is dispatched), with a target on every row awaiting reconciliation. *)
Theorem continuation_history_invariant t : steps step [] t → store_ok t.
Proof.
  intros H. apply (steps_ok _ _ H). by repeat constructor.
Qed.

(** ** Delivery *)

Definition settled_status (st : ContinuationStatus) : Prop :=
  match st with dispatched | completed | superseded => True | _ => False end.

Definition settled (k : jsstr) (t : list Continuation) : Prop :=
  ∃ c, by_key id k t = Some c ∧ settled_status (status c).

Lemma row_move_settled c c' : may_move c c' → settled_status (status c) → settled_status (status c').
Proof. intros [->|[]]; cbn; try done; by rewrite ?H. Qed.

Lemma step_settled k t t' : step t t' → keyed id t ∧ settled k t → keyed id t' ∧ settled k t'.
Proof.
  intros Hs [Hk (c & Hc & Hst)].
  destruct (step_rows _ _ Hk Hs) as [Hm|(now & uuid & i & Hn & ->)].
  - split; [unfold keyed; by rewrite (moves_ids t)|].
    pose proof (moves_by_key k _ _ Hm) as H. rewrite Hc in H.
    inversion H as [? c' Hcc E1 E2|]; subst. exists c'. split; [done|]. by eapply row_move_settled.
  - split; [by apply keyed_insert|]. exists c. split; [|done].
    rewrite by_key_insert_ne; [done|]. cbn. intros ->. congruence.
Qed.

(** No row of id [k] satisfies a claim-fenced condition once [k] is settled. *)
Lemma settled_unclaimed k owner t :
  keyed id t → settled k t → ∀ c, c ∈ t → claimed_under k owner c = false.
Proof.
  intros Hk (c & Hc & Hst) x Hx. unfold claimed_under, has_id, is_status.
  destruct (decide (id x = k)) as [Ex|Ex]; [|by rewrite bool_decide_eq_false_2].
  subst k. rewrite keyed_by_key in Hc by done. simplify_eq.
  rewrite (bool_decide_eq_false_2 (status c = claimed)); [by rewrite andb_false_r|].
  intros E. by rewrite E in Hst.
Qed.

(** What [claim] returns was pending. *)
Lemma claim_was_pending now owner o t c t' :
  claim now owner o t = (Some c, t') →
  ∃ r, claimCandidate o t = Some r ∧ status r = pending ∧ id c = id r.
Proof.
  unfold claim. destruct (claimCandidate o t) as [r|]; [|done].
  destruct (is_status pending r) eqn:E; cbn; [|done].
  rewrite (surjective_pairing (update_where _ _ t)). case_match; [done|].
  intros [= (_ & Hid)%by_key_Some <-]. exists r. unfold is_status in E. by guards.
Qed.

Lemma claimCandidate_elem o t r : claimCandidate o t = Some r → r ∈ t.
Proof.
  unfold claimCandidate.
  repeat case_match; try (by intros [? _]%by_key_Some);
    intros [? _]%first_by_elem%elem_of_Lfilter; done.
Qed.

(** C9: A continuation is delivered at most once.  When [markDelivered] succeeds, then along every
    later history no [claim] returns the continuation again and every further [markDelivered] or
    [markReconciliationRequired] of it, by whatever owner, fails and changes nothing. *)
Theorem delivered_at_most_once now k owner run t t' t'' :
  keyed id t → markDelivered now k owner run t = (true, t') → steps step t' t'' →
  (∀ now' owner' run' reason,
     markDelivered now' k owner' run' t'' = (false, t'')
     ∧ markReconciliationRequired k owner' run' reason t'' = (false, t''))
  ∧ ∀ now' owner' o c u, claim now' owner' o t'' = (Some c, u) → id c ≠ k.
Proof.
  intros Hk Hd Hs.
  assert (H : keyed id t'' ∧ settled k t'').
  { apply (steps_invariant _ _ (step_settled k) _ _ Hs).
    unfold markDelivered in Hd. rewrite (surjective_pairing (update_where _ _ t)) in Hd.
    apply pair_equal_spec in Hd as [Hch <-]. split; [apply keyed_update; [by intros []|done]|].
    rewrite (changes_keyed id _ _ _ k) in Hch
      by (done || (unfold claimed_under, has_id; intros; by guards)).
    destruct (by_key id k t) as [c|] eqn:E; [|done]. destruct (claimed_under k owner c) eqn:Ec; [|done].
    exists (set_dispatched now run c). split; [|done]. apply by_key_update_hit; [by intros []|done..]. }
  destruct H as [Hk'' Hset]. split.
  - intros. unfold markDelivered, markReconciliationRequired.
    rewrite !update_where_none by (by apply settled_unclaimed). done.
  - intros now' owner' o c u (r & Hr & Hp & Hid)%claim_was_pending Ek.
    apply claimCandidate_elem in Hr. destruct Hset as (x & Hx & Hst).
    rewrite <- Ek, Hid, keyed_by_key in Hx by done. simplify_eq. by rewrite Hp in Hst.
Qed.

(** ** Claiming *)

(** The rows a claim may take. *)
Definition eligible (o : ClaimOpts) (c : Continuation) : bool :=
  is_status pending c &&
  match opt_id o, opt_sessionId o with
  | Some ((_ :: _) as k), _ => has_id k c
  | _, Some ((_ :: _) as s) => of_session s c
  | _, _ => true
  end.

(** The candidate, when it is pending, is eligible and the oldest of the eligible rows; when it is
    missing or not pending, nothing is eligible. *)
Definition candidate_ok (o : ClaimOpts) (t : list Continuation) (c : option Continuation) : Prop :=
  match c with
  | Some r => r ∈ t ∧ (status r = pending → eligible o r = true
                ∧ ∀ x, x ∈ t → eligible o x = true → (createdAt r <= createdAt x)%Z)
              ∧ (status r ≠ pending → ∀ x, x ∈ t → eligible o x = false)
  | None => ∀ x, x ∈ t → eligible o x = false
  end.

Lemma scan_ok o t p :
  (∀ x, eligible o x = p x) → (∀ x, p x = true → status x = pending) →
  candidate_ok o t (first_by le_created (select_where p t)).
Proof.
  intros Ep Hp. destruct (first_by _ _) as [r|] eqn:E; cbn.
  - apply first_by_elem in E as Hr. apply elem_of_Lfilter in Hr as [Hr Pr].
    split; [done|]. split; [|intros Hst; by apply Hp in Pr]. intros _. split; [by rewrite Ep|].
    intros x Hx Px. rewrite Ep in Px.
    eapply first_by_least in E; [|by intros; unfold le_created in *; guards; lia..|].
    + unfold le_created in E. by guards.
    + by apply elem_of_Lfilter.
  - rewrite first_by_None in E. intros x Hx. destruct (eligible o x) eqn:Px; [|done].
    rewrite Ep in Px. assert (H : x ∈ select_where p t) by (by apply elem_of_Lfilter).
    rewrite E in H. by apply not_elem_of_nil in H.
Qed.

Lemma by_id_ok o t k :
  keyed id t → (∀ x, eligible o x = is_status pending x && has_id k x) →
  candidate_ok o t (by_key id k t).
Proof.
  intros Hk Ep. destruct (by_key id k t) as [r|] eqn:E; cbn.
  - apply by_key_Some in E as [Hr <-].
    assert (Hx : ∀ x, x ∈ t → eligible o x = true → x = r ∧ status x = pending).
    { intros x Hx. rewrite Ep. unfold has_id, is_status. guards. intros [? ?].
      split; [by eapply (keyed_inj id)|done]. }
    split; [done|]. split.
    + intros Hst. split; [rewrite Ep; unfold has_id, is_status; by guards|].
      intros x Hin Px. by destruct (Hx x Hin Px) as [-> _].
    + intros Hst x Hin. destruct (eligible o x) eqn:Px; [|done].
      by destruct (Hx x Hin Px) as [-> ?].
  - rewrite by_key_None in E. intros x Hin. rewrite Ep. unfold has_id.
    rewrite (bool_decide_eq_false_2 (id x = k)); [apply andb_false_r|]. by apply E.
Qed.

Lemma candidate_spec o t : keyed id t → candidate_ok o t (claimCandidate o t).
Proof.
  intros Hk. destruct o as [[[|a k]|] [[|b s]|]]; cbn;
    (by apply by_id_ok) || apply scan_ok; intros x; unfold eligible, is_status; cbn;
    rewrite ?andb_true_r; try done; intros; by guards.
Qed.

(** [claim] returns null exactly when no pending continuation matches its options, and then
    changes nothing.  Otherwise it claims, for its owner and at its clock, the oldest matching
    pending continuation, returns the row as written and leaves every other row alone. *)
Theorem claim_takes_oldest now owner o t :
  keyed id t →
  match claim now owner o t with
  | (None, t') => t' = t ∧ ∀ x, x ∈ t → eligible o x = false
  | (Some c, t') =>
      ∃ r, r ∈ t ∧ eligible o r = true
        ∧ (∀ x, x ∈ t → eligible o x = true → (createdAt r <= createdAt x)%Z)
        ∧ c = set_claimed owner now r
        ∧ ∀ k, by_key id k t' = if decide (k = id r) then Some c else by_key id k t
  end.
Proof.
  intros Hk. pose proof (candidate_spec o t Hk) as H. unfold claim.
  destruct (claimCandidate o t) as [r|]; [|done]. destruct H as (Hr & Hp & Hnp).
  destruct (is_status pending r) eqn:Est; unfold is_status in Est; guards; cbn; [|by auto].
  destruct (Hp Est) as [He Hold]. set (p := λ c, has_id (id r) c && is_status pending c).
  rewrite (surjective_pairing (update_where p _ t)).
  assert (Pr : p r = true) by (unfold p, has_id, is_status; by guards).
  assert (Hkey : preserves_key id (set_claimed owner now)) by (by intros []).
  assert (Hfix : ∀ x, p x = true → id x = id r) by (unfold p, has_id; intros; by guards).
  rewrite (changes_keyed id _ _ _ (id r)), (keyed_by_key id), Pr by done. cbn [Nat.eqb].
  assert (Hid : by_key id (id r) (update_where p (set_claimed owner now) t).1 =
                Some (set_claimed owner now r)).
  { apply by_key_update_hit; [done| |done]. by apply keyed_by_key. }
  rewrite Hid. exists r. split_and!; try done. intros k. case_decide as Ek; [by subst|].
  apply by_key_update_miss; [done|]. intros x [_ Hx]%by_key_Some.
  destruct (p x) eqn:Px; [|done]. apply Hfix in Px. congruence.
Qed.

(** ** Supersession *)

Definition outstanding (s : jsstr) (c : Continuation) : bool :=
  of_session s c && (is_status pending c || is_status claimed c).

(** [supersedeForSession] is one pass over the table: every pending or claimed continuation of
    the session becomes superseded with the reason and without a claim, every other row is left
    alone, the count is the number of rows superseded, and nothing of the session is left to claim
    or deliver. *)
Theorem supersede_clears_session now now' s reason t n t' :
  supersedeForSession now now' s reason t = (n, t') →
  n = length (select_where (outstanding s) t)
  ∧ t' = List.map (λ c, if outstanding s c
                        then set_superseded (if is_status pending c then now else now') reason c
                        else c) t
  ∧ ∀ c, c ∈ t' → outstanding s c = false.
Proof.
  unfold supersedeForSession. rewrite (surjective_pairing (update_where _ _ t)).
  rewrite (surjective_pairing (update_where _ _ (update_where _ _ t).1)). intros [= <- <-].
  unfold update_where, select_where; cbn. rewrite List.map_map.
  assert (Hrow : ∀ c,
    (let c1 := if of_session s c && is_status pending c then set_superseded now reason c else c in
     if of_session s c1 && is_status claimed c1 then set_superseded now' reason c1 else c1) =
    if outstanding s c then set_superseded (if is_status pending c then now else now') reason c else c).
  { intros c. unfold outstanding, is_status, of_session.
    destruct (sessionId c =s s) eqn:E; cbn; rewrite ?E; cbn; [|done].
    repeat (case_bool_decide; cbn; rewrite ?E; cbn); simplify_eq/=; done || congruence. }
  split_and!.
  - clear Hrow. induction t as [|c t IH]; cbn; [done|].
    unfold outstanding, is_status, of_session in *.
    destruct (sessionId c =s s) eqn:E; cbn; rewrite ?E; cbn; [|done].
    repeat (case_bool_decide; cbn; rewrite ?E; cbn); simplify_eq/=; lia || congruence.
  - apply List.map_ext. intros c. by rewrite <- Hrow.
  - intros c (x & -> & Hx)%elem_of_Lmap. rewrite Hrow.
    destruct (outstanding s x) eqn:E; [|done]. unfold outstanding, is_status, of_session; cbn.
    by rewrite andb_false_r.
Qed.

(** ** Concrete runs *)

Definition ex_input : CreateContinuationInput :=
  mkInput "s1" "r1" "f1" "changes_requested" (Some [js "fix it"]) None None (Some (js " late "))
    None None.

Definition ex_table : list Continuation := (create 1 "u1" ex_input []).2.
Definition ex_claimed : list Continuation := (claim 2 "w1" (mkOpts None None) ex_table).2.
Definition ex_delivered : list Continuation := (markDelivered 3 "cont_u1" "w1" "run" ex_claimed).2.

(** The two rows after a second feedback of the same session. *)
Definition ex_table2 : list Continuation := (create 5 "u2" ex_input ex_delivered).2.

Lemma ex_history : steps step [] ex_table2.
Proof.
  apply (steps_cons _ _ ex_table); [by apply step_create|].
  apply (steps_cons _ _ ex_claimed); [apply step_claim|].
  apply (steps_cons _ _ ex_delivered); [apply step_deliver|].
  apply steps_one, step_create. by vm_compute.
Qed.

Lemma ex_keyed : keyed id ex_table2.
Proof. apply ok_ids, (steps_ok _ _ ex_history). by repeat constructor. Qed.

Lemma continuation_history_invariant_witness :
  store_ok ex_table2 ∧ epochs_of "s1" ex_table2 = [1; 2]%Z.
Proof.
  split; [|by vm_compute]. apply continuation_history_invariant, ex_history.
Defined.

Lemma delivered_at_most_once_witness :
  markDelivered 3 "cont_u1" "w1" "run" ex_claimed = (true, ex_delivered)
  ∧ ∀ owner, (markDelivered 9 "cont_u1" owner "run2" ex_table2).1 = false.
Proof.
  assert (H : markDelivered 3 "cont_u1" "w1" "run" ex_claimed = (true, ex_delivered)) by by vm_compute.
  split; [exact H|]. intros owner.
  destruct (delivered_at_most_once 3 "cont_u1" "w1" "run" ex_claimed ex_delivered ex_table2)
    as [Hd _]; [apply NoDup_singleton|exact H| |].
  - apply steps_one, step_create. by vm_compute.
  - destruct (Hd 9%Z owner (js "run2") []) as [Hd' _]. by rewrite Hd'.
Defined.

Lemma claim_takes_oldest_witness :
  (claim 6 "w2" (mkOpts None (Some (js "s1"))) ex_table2).1 =
    set_claimed "w2" 6 <$> last ex_table2.
Proof.
  pose proof (claim_takes_oldest 6 "w2" (mkOpts None (Some (js "s1"))) ex_table2
                ex_keyed) as H.
  destruct (claim 6 "w2" _ ex_table2) as [[c|] t'] eqn:E.
  - destruct H as (r & Hr & He & _ & -> & _).
    apply elem_of_cons in Hr as [->|Hr]; [by vm_compute in He|].
    by apply list_elem_of_singleton in Hr as ->.
  - destruct H as [_ H]. vm_compute in E. discriminate E.
Defined.

Lemma supersede_clears_session_witness :
  (supersedeForSession 7 8 "s1" "over" ex_table2).1 = 1
  ∧ ∀ c, c ∈ (supersedeForSession 7 8 "s1" "over" ex_table2).2 → outstanding "s1" c = false.
Proof.
  destruct (supersede_clears_session 7 8 "s1" "over" ex_table2 _ _ (surjective_pairing _))
    as (Hn & _ & H). split; [rewrite Hn; by vm_compute|exact H].
Defined.

End Continuations.
