(* ===== verification/SessionState.v ===== *)
(** * The state of a work session ([src/src/work-sessions/internal.ts], [runtime-state.ts])

    The status a session stores, the runtime state derived from its latest run, the lifecycle
    bucket the interfaces group by, and the bounded reconciliation pass that stores freshly derived
    runtime states page by page. *)

From S2P Require Import Prelude JsString Sql.

Module SessionState.

Inductive WorkSessionStatus :=
| in_progress | cancelling | drafting | awaiting_review | in_review | review_in_progress | resuming
| changes_requested | approved | rejected | stale | cancelled | failed | failed_protocol.

Inductive WorkSessionRuntimeState :=
| rt_running | rt_parked | rt_detached | rt_stale | rt_orphaned | rt_archived | rt_pending.

Inductive WorkSessionLifecycle :=
| lc_active_worker | lc_awaiting_review | lc_resumable | lc_detached | lc_stale | lc_archived
| lc_pending.

Inductive CompletionPolicy := agent_completion | webui_approval_required.

#[export] Instance WorkSessionStatus_eq_dec : EqDecision WorkSessionStatus.
Proof. solve_decision. Defined.
#[export] Instance WorkSessionRuntimeState_eq_dec : EqDecision WorkSessionRuntimeState.
Proof. solve_decision. Defined.
#[export] Instance CompletionPolicy_eq_dec : EqDecision CompletionPolicy.
Proof. solve_decision. Defined.

(** A row of [work_sessions]. *)
Record WorkSessionRow := mkSession {
  id : jsstr;
  projectId : option jsstr;
  workspaceSessionId : jsstr;
  status : WorkSessionStatus;
  runtimeState : WorkSessionRuntimeState;
  runtimeClassifiedAt : option Z;
  completionPolicy : CompletionPolicy;
  reviewEpoch : Z;
  submittedBy : jsstr;
  ownerContextId : option jsstr;
  principalId : option jsstr;
  title : option jsstr;
  lastConsumedFeedbackId : option jsstr;
  lastConsumedReviewEpoch : Z;
  createdAt : Z;
  updatedAt : Z;
  terminalAt : option Z
}.

(** The columns of [acp_runs] the classification reads. *)
Record RunRow := mkRun {
  run_id : jsstr;
  run_workSessionId : jsstr;
  run_status : jsstr;
  run_lastHeartbeatAt : option Z;
  run_workerLeaseUntil : option Z;
  run_createdAt : Z;
  run_finishedAt : option Z
}.

(** ** Classification *)

Definition isTerminalStatus (s : WorkSessionStatus) : bool :=
  match s with approved | rejected | cancelled | failed | failed_protocol => true | _ => false end.

Definition lifecycleForRuntimeState (s : WorkSessionStatus) (r : WorkSessionRuntimeState)
  : WorkSessionLifecycle :=
  if bool_decide (r = rt_archived) then lc_archived
  else if bool_decide (s = awaiting_review) || bool_decide (s = review_in_progress)
          || bool_decide (r = rt_parked) then lc_awaiting_review
  else if bool_decide (s = changes_requested) then lc_resumable
  else if bool_decide (r = rt_running) then lc_active_worker
  else if bool_decide (r = rt_stale) then lc_stale
  else if bool_decide (r = rt_detached) || bool_decide (r = rt_orphaned) then lc_detached
  else lc_pending.

Definition STALE_THRESHOLD_MS : Z := 60 * 60 * 1000.

Definition classifyLifecycle (now : Z) (s : WorkSessionStatus) (updated : Z)
  (hasLiveRun hasRecentHeartbeat : bool) : WorkSessionLifecycle :=
  if isTerminalStatus s then lc_archived
  else if bool_decide (s = awaiting_review) then lc_awaiting_review
  else if bool_decide (s = changes_requested) then lc_resumable
  else if hasLiveRun && hasRecentHeartbeat then lc_active_worker
  else if negb hasLiveRun && negb hasRecentHeartbeat then
    (if STALE_THRESHOLD_MS <? now - updated then lc_stale else lc_detached)%Z
  else lc_pending.

Definition PARKED_LIMIT_MS : Z := 30 * 24 * 60 * 60 * 1000.
Definition HEARTBEAT_MS : Z := 2 * 60000.

Definition live_run_statuses : list jsstr :=
  [js "created"; js "in-progress"; js "running"; js "working"; js "awaiting"].

#[global] Arguments live_run_statuses : simpl never.

Definition runActive (run : option RunRow) : bool :=
  match run with
  | Some r => negb (bool_decide (is_Some (run_finishedAt r)))
              && existsb (js_eqb (run_status r)) live_run_statuses
  | None => false
  end.

(** [runtimeStateFor]; [now], [now'] and [now''] are its three clock readings. *)
Definition runtimeStateFor (now now' now'' : Z) (s : WorkSessionStatus) (updated : Z)
  (run : option RunRow) : WorkSessionRuntimeState :=
  if isTerminalStatus s then rt_archived
  else
    let ageMs := (now - updated)%Z in
    if bool_decide (s = awaiting_review) || bool_decide (s = review_in_progress) then
      if (PARKED_LIMIT_MS <? ageMs)%Z then rt_stale else rt_parked
    else
      let heartbeat := default 0%Z (run ≫= run_lastHeartbeatAt) in
      let lease := default 0%Z (run ≫= run_workerLeaseUntil) in
      let recentHeartbeat := (0 <? heartbeat)%Z && (now' - heartbeat <=? HEARTBEAT_MS)%Z in
      let validLease := (now'' <? lease)%Z in
      if runActive run && (recentHeartbeat || validLease) then rt_running
      else if (STALE_THRESHOLD_MS <? ageMs)%Z then rt_stale
      else rt_detached.

(** ** The reconciliation pass *)

(** [order by created_at desc, run_id desc], first row *)
Definition ge_run (a b : RunRow) : bool :=
  (run_createdAt b <? run_createdAt a)%Z
  || ((run_createdAt a =? run_createdAt b)%Z && negb (js_ltb (run_id a) (run_id b))).

Definition latestRun (session : jsstr) (runs : list RunRow) : option RunRow :=
  first_by ge_run (select_where (λ r, run_workSessionId r =s session) runs).

Definition le_id (a b : WorkSessionRow) : bool := negb (js_ltb (id b) (id a)).

Definition boundedLimit (l : Z) : nat := Z.to_nat (Z.max 1 (Z.min 500 l)).

Definition session_page (after : option jsstr) (l : Z) (t : list WorkSessionRow)
  : list WorkSessionRow :=
  limit (boundedLimit l)
    (order_by le_id
       (select_where (λ s, match after with Some a => js_ltb a (id s) | None => true end) t)).

(** The clock of the pass: the three readings of each classification, by session. *)
Definition clock : Type := jsstr → Z * Z * Z.

Definition nextState (clk : clock) (runs : list RunRow) (s : WorkSessionRow)
  : WorkSessionRuntimeState :=
  let '(n1, n2, n3) := clk (id s) in
  runtimeStateFor n1 n2 n3 (status s) (updatedAt s) (latestRun (id s) runs).

Definition set_runtimeState (now : Z) (st : WorkSessionRuntimeState) (s : WorkSessionRow)
  : WorkSessionRow :=
  {| id := id s; projectId := projectId s; workspaceSessionId := workspaceSessionId s;
     status := status s; runtimeState := st; runtimeClassifiedAt := Some now;
     completionPolicy := completionPolicy s; reviewEpoch := reviewEpoch s;
     submittedBy := submittedBy s; ownerContextId := ownerContextId s;
     principalId := principalId s; title := title s;
     lastConsumedFeedbackId := lastConsumedFeedbackId s;
     lastConsumedReviewEpoch := lastConsumedReviewEpoch s; createdAt := createdAt s;
     updatedAt := updatedAt s; terminalAt := terminalAt s |}.

Record RuntimeReconciliationPage := mkPage {
  examined : nat;
  reconciled : nat;
  markedStale : nat;
  nextAfterId : option jsstr;
  hasMore : bool
}.

(** [case id when ? then ? ... else runtime_state end]: the first matching arm *)
Definition case_id (updates : list (jsstr * WorkSessionRuntimeState)) (s : WorkSessionRow)
  : WorkSessionRuntimeState :=
  match List.find (λ u, u.1 =s id s) updates with
  | Some (_, st) => st
  | None => runtimeState s
  end.

Definition page_updates (clk : clock) (runs : list RunRow) (rows : list WorkSessionRow)
  : list (jsstr * WorkSessionRuntimeState) :=
  List.map (λ s, (id s, nextState clk runs s))
    (List.filter (λ s, negb (bool_decide (runtimeState s = nextState clk runs s))) rows).

Definition marks_stale (st : WorkSessionRuntimeState) : bool :=
  match st with rt_stale | rt_orphaned => true | _ => false end.

(** [reconcileRuntimeStates]; [now] is the reading stored in [runtime_classified_at]. *)
Definition reconcileRuntimeStates (clk : clock) (now : Z) (runs : list RunRow)
  (after : option jsstr) (l : Z) (t : list WorkSessionRow)
  : RuntimeReconciliationPage * list WorkSessionRow :=
  let rows := session_page after l t in
  let updates := page_updates clk runs rows in
  let t' :=
    match updates with
    | [] => t
    | _ => (update_where (λ s, existsb (λ u, u.1 =s id s) updates)
              (λ s, set_runtimeState now (case_id updates s) s) t).1
    end in
  ({| examined := length rows;
      reconciled := length updates;
      markedStale := length (List.filter (λ u, marks_stale u.2) updates);
      nextAfterId := id <$> last rows;
      hasMore := Nat.eqb (length rows) (boundedLimit l) |}, t').

(** The startup pass [reconcileRuntimeStatePage] ([src/src/server/startup-recovery.ts]): page after
    page of a hundred sessions, each resumed from the cursor of the one before.  [fuel] bounds the
    number of pages; [None] means it ran out. *)
Fixpoint reconcileRuntimeStatePage (fuel : nat) (clk : clock) (now : Z) (runs : list RunRow)
  (afterId : option jsstr) (t : list WorkSessionRow) : option (list WorkSessionRow) :=
  match fuel with
  | O => None
  | S fuel' =>
      let '(page, t') := reconcileRuntimeStates clk now runs afterId 100 t in
      if hasMore page && truthy (nextAfterId page)
      then reconcileRuntimeStatePage fuel' clk now runs (nextAfterId page) t'
      else Some t'
  end.

(** ** What the classification says *)

(** The runtime state is archived exactly for terminal sessions, parked only for reviews younger
    than thirty days, and running exactly when a session outside review has an unfinished run with
    a recent heartbeat or a valid worker lease; every other session is detached until its
    staleness limit passes and stale afterwards.  No session is classified orphaned or pending. *)
Theorem runtimeStateFor_spec now now' now'' s updated run :
  let reviewing := s = awaiting_review ∨ s = review_in_progress in
  let live := ∃ r, run = Some r ∧ run_finishedAt r = None ∧ run_status r ∈ live_run_statuses
              ∧ ((∃ h, run_lastHeartbeatAt r = Some h ∧ (0 < h)%Z ∧ (now' - h <= HEARTBEAT_MS)%Z)
                 ∨ (now'' < default 0%Z (run_workerLeaseUntil r))%Z) in
  match runtimeStateFor now now' now'' s updated run with
  | rt_archived => isTerminalStatus s = true
  | rt_parked => reviewing ∧ (now - updated <= PARKED_LIMIT_MS)%Z
  | rt_running => isTerminalStatus s = false ∧ ¬ reviewing ∧ live
  | rt_stale => isTerminalStatus s = false
                ∧ (reviewing ∧ (PARKED_LIMIT_MS < now - updated)%Z
                   ∨ ¬ reviewing ∧ ¬ live ∧ (STALE_THRESHOLD_MS < now - updated)%Z)
  | rt_detached => isTerminalStatus s = false ∧ ¬ reviewing ∧ ¬ live
                   ∧ (now - updated <= STALE_THRESHOLD_MS)%Z
  | rt_orphaned | rt_pending => False
  end.
Proof.
  cbv zeta. unfold runtimeStateFor. destruct (isTerminalStatus s) eqn:Et; [done|].
  destruct (bool_decide (s = awaiting_review) || bool_decide (s = review_in_progress)) eqn:Er.
  { destruct (PARKED_LIMIT_MS <? now - updated)%Z eqn:E; guards; naive_solver. }
  guards. set (live := ∃ r, run = Some r ∧ _).
  assert (Hlive : runActive run
      && ((0 <? default 0 (run ≫= run_lastHeartbeatAt))
          && (now' - default 0 (run ≫= run_lastHeartbeatAt) <=? HEARTBEAT_MS)
          || (now'' <? default 0 (run ≫= run_workerLeaseUntil)))%Z = true ↔ live).
  { subst live. destruct run as [r|]; cbn; [|split; [done|by intros (? & ? & _)]].
    destruct (run_finishedAt r) as [f|] eqn:Ef.
    { rewrite bool_decide_eq_true_2 by eauto. split; [done|]. intros (r' & [= <-] & E' & _). congruence. }
    rewrite bool_decide_eq_false_2 by (by intros [? ?]). cbn [negb andb].
    rewrite andb_true_iff, existsb_exists. guards. split.
    - intros [(x & Hx & Ex) Hh]. guards. exists r. split_and!; try done.
      + rewrite Ex. by apply list_elem_of_In.
      + destruct (run_lastHeartbeatAt r) as [h|]; cbn in *; naive_solver lia.
    - intros (r' & [= <-] & _ & Hs & Hh). split.
      + exists (run_status r). split; [by apply list_elem_of_In|by apply js_eqb_eq].
      + destruct (run_lastHeartbeatAt r) as [h|]; cbn in *; naive_solver lia. }
  destruct (_ && _) eqn:E.
  - split_and!; [done|naive_solver|by apply Hlive].
  - assert (¬ live) by (intros Hl; apply Hlive in Hl; congruence).
    destruct (STALE_THRESHOLD_MS <? now - updated)%Z eqn:Ea; guards; naive_solver.
Qed.

(** ** One page *)

Definition fresh (clk : clock) (runs : list RunRow) (s : WorkSessionRow) : Prop :=
  runtimeState s = nextState clk runs s.

(** What a page does to a row: a row of the page whose state changed is reclassified. *)
Definition refresh (clk : clock) (now : Z) (runs : list RunRow) (page : list WorkSessionRow)
  (s : WorkSessionRow) : WorkSessionRow :=
  if bool_decide (id s ∈ List.map id page) && negb (bool_decide (runtimeState s = nextState clk runs s))
  then set_runtimeState now (nextState clk runs s) s else s.

Lemma session_page_subset after l t s :
  s ∈ session_page after l t →
  s ∈ t ∧ match after with Some a => js_ltb a (id s) = true | None => True end.
Proof.
  unfold session_page, limit. intros Hs.
  apply elem_of_take in Hs as (i & Hi & _).
  apply list_elem_of_lookup_2, elem_of_order_by, elem_of_Lfilter in Hi as [? ?].
  split; [done|]. by destruct after.
Qed.

(** On a table with unique ids the batched [update] is a pass over the rows. *)
Lemma page_updates_find clk runs page t s :
  keyed id t → (∀ x, x ∈ page → x ∈ t) → s ∈ t →
  List.find (λ u, u.1 =s id s) (page_updates clk runs page) =
    if bool_decide (id s ∈ List.map id page)
       && negb (bool_decide (runtimeState s = nextState clk runs s))
    then Some (id s, nextState clk runs s) else None.
Proof.
  intros Hk Hsub Hs. unfold page_updates. induction page as [|x page IH]; cbn; [done|].
  assert (Hx : x ∈ t) by (apply Hsub; left).
  assert (Hsub' : ∀ y, y ∈ page → y ∈ t) by (intros; apply Hsub; by right).
  specialize (IH Hsub'). destruct (decide (id s = id x)) as [E|E].
  - assert (s = x) as -> by (by eapply (keyed_inj id)).
    rewrite (bool_decide_eq_true_2 (id x ∈ id x :: _)) by left. cbn.
    destruct (bool_decide (runtimeState x = _)) eqn:Er; cbn.
    + rewrite IH. by rewrite andb_false_r.
    + by rewrite js_eqb_refl.
  - replace (bool_decide (id s ∈ id x :: List.map id page))
      with (bool_decide (id s ∈ List.map id page)) by (apply bool_decide_ext; set_solver).
    destruct (negb (bool_decide (runtimeState x = _))); cbn; [|done].
    by rewrite (proj2 (js_eqb_neq (id x) (id s))).
Qed.

Lemma reconcile_pass clk now runs after l t :
  keyed id t →
  (reconcileRuntimeStates clk now runs after l t).2 =
    List.map (refresh clk now runs (session_page after l t)) t.
Proof.
  intros Hk. unfold reconcileRuntimeStates. cbn [snd].
  set (page := session_page after l t).
  assert (Hsub : ∀ x, x ∈ page → x ∈ t) by (by intros x [? _]%session_page_subset).
  assert (Hrow : ∀ s, s ∈ t →
    (if existsb (λ u, u.1 =s id s) (page_updates clk runs page)
     then set_runtimeState now (case_id (page_updates clk runs page) s) s else s) =
    refresh clk now runs page s).
  { intros s Hs. pose proof (page_updates_find clk runs page t s Hk Hsub Hs) as Hf.
    unfold refresh, case_id. rewrite Hf. destruct (_ && _) eqn:Eb.
    - assert (existsb (λ u, u.1 =s id s) (page_updates clk runs page) = true) as ->; [|done].
      apply find_some_iff in Hf as [Hin Hp]. apply existsb_exists.
      eexists. split; [by apply list_elem_of_In|]. done.
    - assert (existsb (λ u, u.1 =s id s) (page_updates clk runs page) = false) as ->; [|done].
      rewrite find_none_iff in Hf. apply not_true_iff_false. intros (u & Hu & Ep)%existsb_exists.
      rewrite Hf in Ep by (by apply list_elem_of_In). done. }
  transitivity (update_where (λ s, existsb (λ u, u.1 =s id s) (page_updates clk runs page))
    (λ s, set_runtimeState now (case_id (page_updates clk runs page) s) s) t).1.
  - destruct (page_updates clk runs page) eqn:E; [|done]. by rewrite update_where_none.
  - unfold update_where; cbn. apply List.map_ext_in. intros s Hs%list_elem_of_In. by apply Hrow.
Qed.

Lemma refresh_id clk now runs page s : id (refresh clk now runs page s) = id s.
Proof. unfold refresh. by destruct (_ && _). Qed.

Lemma nextState_refresh clk now runs page s :
  nextState clk runs (refresh clk now runs page s) = nextState clk runs s.
Proof. unfold refresh. by destruct (_ && _). Qed.

Lemma refresh_fresh clk now runs page s :
  id s ∈ List.map id page ∨ fresh clk runs s → fresh clk runs (refresh clk now runs page s).
Proof.
  unfold fresh. rewrite nextState_refresh. unfold refresh. intros H.
  destruct (bool_decide (runtimeState s = _)) eqn:E; guards.
  - by rewrite andb_false_r.
  - destruct H as [H|H]; [|done]. by rewrite bool_decide_eq_true_2.
Qed.

(** A reconciliation pass over one page changes exactly the rows of the page, the first
    [limit] sessions after the cursor in id order, whose stored runtime state differs from the one
    their latest run gives them now; it stores that state and the time, and reports how many rows
    it examined and changed. *)
Theorem reconcile_page_spec clk now runs after l t p t' :
  keyed id t → reconcileRuntimeStates clk now runs after l t = (p, t') →
  (∀ k, by_key id k t' =
     (λ s, if bool_decide (k ∈ List.map id (session_page after l t))
              && negb (bool_decide (runtimeState s = nextState clk runs s))
           then set_runtimeState now (nextState clk runs s) s else s) <$> by_key id k t)
  ∧ examined p = length (session_page after l t)
  ∧ reconciled p = length (List.filter
      (λ s, negb (bool_decide (runtimeState s = nextState clk runs s))) (session_page after l t))
  ∧ examined p ≤ boundedLimit l ≤ 500.
Proof.
  intros Hk E. pose proof (reconcile_pass clk now runs after l t Hk) as Hp.
  rewrite E in Hp. cbn in Hp. subst t'. injection E as <- _. cbn. split_and!.
  - intros k. unfold by_key, get_where. clear Hk. generalize (session_page after l t). intros page.
    induction t as [|s t IH]; cbn; [done|]. rewrite refresh_id.
    destruct (bool_decide (id s = k)) eqn:Ek; [|exact IH]. guards. by subst k.
  - done.
  - unfold page_updates. by rewrite List.length_map.
  - unfold session_page, limit. rewrite length_take. lia.
  - unfold boundedLimit. lia.
Qed.

(** ** The startup pass *)

Lemma le_id_total a b : le_id a b = true ∨ le_id b a = true.
Proof.
  unfold le_id. destruct (js_ltb (id b) (id a)) eqn:E; [|by left].
  right. by rewrite js_ltb_asym.
Qed.

(** A session the cursor passes is on the page it passes it with. *)
Lemma page_complete after l t s :
  keyed id t → s ∈ t → match after with Some a => js_ltb a (id s) = true | None => True end →
  (length (session_page after l t) < boundedLimit l
   ∨ ∃ y, last (session_page after l t) = Some y ∧ js_ltb (id y) (id s) = false) →
  id s ∈ List.map id (session_page after l t).
Proof.
  intros Hk Hs Ha Hor. apply elem_of_Lmap. exists s. split; [done|].
  unfold session_page, limit in *.
  set (q := select_where _ t) in *. assert (Hq : s ∈ order_by le_id q).
  { apply elem_of_order_by, elem_of_Lfilter. split; [done|]. by destruct after. }
  pose proof (order_by_sorted le_id q le_id_total) as Hsort.
  apply Sorted_StronglySorted in Hsort.
  2:{ intros a b c. unfold le_id. rewrite !negb_true_iff. apply js_ltb_cotrans. }
  destruct Hor as [Hlen|(y & Hy & Hle)].
  { rewrite length_take in Hlen. by rewrite take_ge by lia. }
  rewrite <- (take_drop (boundedLimit l) (order_by le_id q)) in Hq, Hsort.
  apply elem_of_app in Hq as [Hq|Hq]; [done|].
  apply last_Some_elem_of in Hy as Hy'.
  assert (Hys : le_id y s = true) by (exact (StronglySorted_app_1_elem_of _ _ _ _ _ Hsort Hy' Hq)).
  unfold le_id in Hys. rewrite negb_true_iff in Hys.
  assert (id y = id s) as E by (by apply js_ltb_total).
  assert (y = s) as ->; [|done]. eapply (keyed_inj id t); try done.
  apply elem_of_take in Hy' as (i & Hi & _).
  by apply list_elem_of_lookup_2, elem_of_order_by, elem_of_Lfilter in Hi as [? _].
Qed.

(** The invariant of the pass: every session up to the cursor is freshly classified. *)
Definition swept (clk : clock) (runs : list RunRow) (cursor : option jsstr)
  (t : list WorkSessionRow) : Prop :=
  ∀ s, s ∈ t → match cursor with Some a => js_ltb a (id s) = false | None => False end →
       fresh clk runs s.

(** The sessions still after the cursor. *)
Definition remaining (cursor : option jsstr) (t : list WorkSessionRow) : nat :=
  length (List.filter (λ s, match cursor with Some a => js_ltb a (id s) | None => true end) t).

Lemma length_filter_map {A} (p : A → bool) (f : A → A) (l : list A) :
  (∀ x, p (f x) = p x) → length (List.filter p (List.map f l)) = length (List.filter p l).
Proof.
  intros H. induction l as [|x l IH]; cbn; [done|]. rewrite H. destruct (p x); cbn; lia.
Qed.

Lemma length_filter_lt {A} (p q : A → bool) (l : list A) x :
  (∀ y, p y = true → q y = true) → x ∈ l → p x = false → q x = true →
  length (List.filter p l) < length (List.filter q l).
Proof.
  intros Hpq Hx Px Qx. apply list_elem_of_split in Hx as (l1 & l2 & ->).
  assert (Hle : ∀ l, length (List.filter p l) ≤ length (List.filter q l)).
  { induction l as [|y l IH]; cbn; [lia|]. destruct (p y) eqn:Py.
    - rewrite (Hpq y Py). cbn. lia.
    - destruct (q y); cbn; lia. }
  rewrite !List.filter_app, !length_app. cbn. rewrite Px, Qx. cbn.
  pose proof (Hle l1). pose proof (Hle l2). lia.
Qed.

Lemma keyed_pass clk now runs page t :
  keyed id t → keyed id (List.map (refresh clk now runs page) t).
Proof.
  unfold keyed. rewrite List.map_map. intros H.
  erewrite List.map_ext; [exact H|]. intros s. apply refresh_id.
Qed.

(** One page extends the classified prefix to its last session, or to everything. *)
Lemma page_sweeps clk now runs after t p t' :
  keyed id t → swept clk runs after t →
  reconcileRuntimeStates clk now runs after 100 t = (p, t') →
  keyed id t'
  ∧ (∀ s', s' ∈ t' → ∃ s, s ∈ t ∧ s' = refresh clk now runs (session_page after 100 t) s)
  ∧ (hasMore p = false → ∀ s, s ∈ t' → fresh clk runs s)
  ∧ (hasMore p = true → swept clk runs (nextAfterId p) t'
       ∧ remaining (nextAfterId p) t' < remaining after t).
Proof.
  intros Hk Hsw E. pose proof (reconcile_pass clk now runs after 100 t Hk) as Hp.
  rewrite E in Hp. cbn in Hp. subst t'. injection E as <- _. cbn [hasMore nextAfterId].
  set (page := session_page after 100 t). split_and!.
  - by apply keyed_pass.
  - intros s' (s & -> & Hs)%elem_of_Lmap. eauto.
  - intros Hmore s' (s & -> & Hs)%elem_of_Lmap. apply refresh_fresh.
    destruct (match after with Some a => js_ltb a (id s) | None => true end) eqn:Ea.
    + left. apply page_complete; [done..|by destruct after|]. left.
      apply Nat.eqb_neq in Hmore. fold page. unfold page, session_page, limit in *.
      rewrite length_take in *. lia.
    + right. apply Hsw; [done|]. by destruct after.
  - intros Hmore. apply Nat.eqb_eq in Hmore. assert (Hlen : length page = 100) by done.
    destruct (last page) as [y|] eqn:Ey; [|apply last_None in Ey; by rewrite Ey in Hlen].
    assert (Hy : y ∈ page) by (by apply last_Some_elem_of).
    apply session_page_subset in Hy as Hy'. destruct Hy' as [Hyt Hya]. cbn. split.
    + intros s' (s & -> & Hs)%elem_of_Lmap. rewrite refresh_id. intros Hle. apply refresh_fresh.
      destruct (match after with Some a => js_ltb a (id s) | None => true end) eqn:Ea.
      * left. apply page_complete; [done..|by destruct after|]. right. eauto.
      * right. apply Hsw; [done|]. by destruct after.
    + unfold remaining. rewrite length_filter_map by (intros; by rewrite refresh_id).
      apply (length_filter_lt _ _ _ y); [|done|apply js_ltb_irrefl|by destruct after].
      intros s Hs. destruct after as [a|]; [|done]. by eapply js_ltb_trans.
Qed.

Lemma sweep_done clk now runs fuel after t :
  keyed id t → (∀ s, s ∈ t → nonempty (id s) = true) → swept clk runs after t →
  remaining after t < fuel →
  ∃ t', reconcileRuntimeStatePage fuel clk now runs after t = Some t'
    ∧ List.map id t' = List.map id t ∧ ∀ s, s ∈ t' → fresh clk runs s.
Proof.
  revert after t; induction fuel as [|fuel IH]; intros after t Hk Hne Hsw Hf; [lia|].
  cbn [reconcileRuntimeStatePage].
  destruct (reconcileRuntimeStates clk now runs after 100 t) as [p t'] eqn:E.
  pose proof (reconcile_pass clk now runs after 100 t Hk) as Hpass. rewrite E in Hpass.
  cbn in Hpass.
  assert (Hids : List.map id t' = List.map id t).
  { subst t'. rewrite List.map_map. apply List.map_ext. intros; apply refresh_id. }
  destruct (page_sweeps _ _ _ _ _ _ _ Hk Hsw E) as (Hk' & Hrow & Hlast & Hmore).
  destruct (hasMore p) eqn:Em; cbn; [|by eauto].
  destruct (Hmore eq_refl) as [Hsw' Hrem].
  assert (Hne' : ∀ s, s ∈ t' → nonempty (id s) = true).
  { intros s' (s & Hs & ->)%Hrow. rewrite refresh_id. auto. }
  destruct (nextAfterId p) as [[|c a]|] eqn:En; cbn.
  - exfalso. injection E as <- _. cbn in En.
    destruct (last _) as [y|] eqn:Ey; [|done]. apply last_Some_elem_of in Ey.
    apply session_page_subset in Ey as [Ey _]. specialize (Hne y Ey). cbn in En.
    injection En as En. by rewrite En in Hne.
  - destruct (IH _ _ Hk' Hne' Hsw' ltac:(lia)) as (u & Hu & Hi & Hfresh).
    exists u. split_and!; [done|congruence|done].
  - exfalso. unfold swept, remaining in *. injection E as <- _. cbn in En, Em.
    apply fmap_None, last_None in En. rewrite En in Em. done.
Qed.

(** The startup pass terminates and reaches every session.  With unique non-empty session ids
    and no other writer in between, it runs at most one page per session and one more, and
    afterwards every session, whatever its position, stores the runtime state its latest run gives
    it. *)
Theorem startup_pass_reaches_every_session clk now runs t :
  keyed id t → (∀ s, s ∈ t → nonempty (id s) = true) →
  ∃ t', reconcileRuntimeStatePage (S (length t)) clk now runs None t = Some t'
    ∧ List.map id t' = List.map id t
    ∧ ∀ s, s ∈ t' → runtimeState s = nextState clk runs s.
Proof.
  intros Hk Hne. apply sweep_done; [done|done|by intros ? ? []|].
  unfold remaining. rewrite Lfilter_all by done. lia.
Qed.

(** ** Concrete runs *)

Definition ex_session (k : jsstr) (st : WorkSessionStatus) : WorkSessionRow :=
  {| id := k; projectId := None; workspaceSessionId := "ws"; status := st;
     runtimeState := rt_pending; runtimeClassifiedAt := None; completionPolicy := agent_completion;
     reviewEpoch := 0; submittedBy := "agent"; ownerContextId := None; principalId := None;
     title := None; lastConsumedFeedbackId := None; lastConsumedReviewEpoch := 0; createdAt := 0;
     updatedAt := 0; terminalAt := None |}.

Definition ex_run : RunRow := mkRun "r1" "a" "running" (Some 900%Z) None 1 None.

Definition ex_sessions : list WorkSessionRow :=
  [ex_session "b" approved; ex_session "a" in_progress].

Definition ex_clock : clock := λ _, (1000, 1000, 1000)%Z.

Lemma ex_sessions_keyed : keyed id ex_sessions.
Proof. repeat constructor; set_solver. Qed.

Lemma reconcile_page_spec_witness :
  ∃ p t', reconcileRuntimeStates ex_clock 7 [ex_run] None 1 ex_sessions = (p, t')
    ∧ runtimeState <$> by_key id "a" t' = Some rt_running
    ∧ runtimeState <$> by_key id "b" t' = Some rt_pending ∧ reconciled p = 1.
Proof.
  destruct (reconcileRuntimeStates ex_clock 7 [ex_run] None 1 ex_sessions) as [p t'] eqn:E.
  destruct (reconcile_page_spec _ _ _ _ _ _ _ _ ex_sessions_keyed E) as (H & _ & Hr & _).
  exists p, t'. rewrite !H, Hr. split_and!; [done|by vm_compute..].
Defined.

Lemma startup_pass_reaches_every_session_witness :
  ∃ t', reconcileRuntimeStatePage 3 ex_clock 7 [ex_run] None ex_sessions = Some t'
    ∧ ∀ s, s ∈ t' → runtimeState s = nextState ex_clock [ex_run] s.
Proof.
  destruct (startup_pass_reaches_every_session ex_clock 7 [ex_run] ex_sessions ex_sessions_keyed)
    as (t' & Ht & _ & Hf).
  - intros s [->|[->|[]%not_elem_of_nil]%elem_of_cons]%elem_of_cons; done.
  - by exists t'.
Defined.

End SessionState.
