(* ===== verification/WorkSessions.v ===== *)
(** * Work sessions, submissions and feedback ([src/src/work-sessions/])

    A work session is submitted for review in epochs: each submission takes the next number and
    epoch and parks the session, each feedback closes one submission and decides the session's next
    status, and the agent records which feedback it has consumed.  The file models the session
    store, the review store and the readers of [internal.ts] on one database value; a terminal
    status releases the session's workspace leases. *)

From S2P Require Import Prelude JsString Json Sql Leases SessionState.

Module WorkSessions.
Export SessionState.

(** ** Snapshot identities ([src/src/review-checkpoints.ts]) *)

Inductive WorkspaceSnapshotKind := git | filesystem.

#[export] Instance WorkspaceSnapshotKind_eq_dec : EqDecision WorkspaceSnapshotKind.
Proof. solve_decision. Defined.

Definition kind_name (k : WorkspaceSnapshotKind) : jsstr :=
  match k with git => "git" | filesystem => "filesystem" end.

Inductive WsError :=
| ConflictingSnapshot | KindWithoutReference | UnsupportedKind | KindConflictsWithReference
| WorkspaceNotActive | SessionNotFound | CannotSubmit (s : WorkSessionStatus)
| ChangedConcurrently | SubmissionNotFound | SubmissionOfOtherSession | FeedbackExists.

(** [s?.trim() || undefined] *)
Definition trimmed_or_none (s : option jsstr) : option jsstr :=
  match s with
  | Some s => if nonempty (trim s) then Some (trim s) else None
  | None => None
  end.

Definition normalizeWorkspaceSnapshotIdentity (kind ref commit : option jsstr)
  : res WsError (option (WorkspaceSnapshotKind * jsstr)) :=
  let modernRef := trimmed_or_none ref in
  let legacyRef := trimmed_or_none commit in
  _ ← reject (match modernRef, legacyRef with Some a, Some b => negb (a =s b) | _, _ => false end)
        ConflictingSnapshot;
  match (match modernRef with Some r => Some r | None => legacyRef end) with
  | None => _ ← reject (truthy kind) KindWithoutReference; Ok None
  | Some r =>
      let is_fs := startsWith r "fs:" in
      let k := default (if is_fs then js "filesystem" else js "git") kind in
      _ ← ensure ((k =s "git") || (k =s "filesystem")) UnsupportedKind;
      _ ← ensure (Bool.eqb (k =s "filesystem") is_fs) KindConflictsWithReference;
      Ok (Some (if k =s "filesystem" then filesystem else git, r))
  end.

(** ** Persisted review metadata ([internal.ts]) *)

(** A [ReviewFile] is the object it is stored as. *)
Definition ReviewFile : Type := list (jsstr * json).

Definition is_string (v : option json) : bool := match v with Some (JStr _) => true | _ => false end.
Definition is_number (v : option json) : bool :=
  match v with Some (JNum _) | Some (JFrac _) => true | _ => false end.

Definition is_review_file (f : ReviewFile) : bool :=
  is_string (jfield "path" f) && is_string (jfield "type" f)
  && is_number (jfield "additions" f) && is_number (jfield "removals" f).

(** The elements the type guard of [parseReviewFiles] keeps. *)
Definition keep_review_file (v : json) : option ReviewFile :=
  match v with JObj f => if is_review_file f then Some f else None | _ => None end.

Definition parseReviewFiles (value : option json_text) : option (list ReviewFile) :=
  match value with
  | Some (Some (JArr items)) =>
      let files := omap keep_review_file items in
      if Nat.eqb (length files) (length items) then Some files else None
  | _ => None
  end.

Definition stringifyFiles (files : option (list ReviewFile)) : option json_text :=
  (λ fs, Some (JArr (List.map JObj fs))) <$> files.

Record CheckpointCoverage := mkCoverage {
  uncoveredPaths : list jsstr;
  backend : WorkspaceSnapshotKind;
  reasons : list jsstr
}.

Definition keep_string (v : json) : option jsstr := match v with JStr s => Some s | _ => None end.

Definition parseCheckpointCoverage (value : option json_text) : option CheckpointCoverage :=
  match value with
  | Some (Some (JObj o)) =>
      match jfield "uncoveredPaths" o, jfield "reasons" o, as_string (jfield "backend" o) with
      | Some (JArr ps), Some (JArr rs), Some b =>
          if b =s "git" then Some (mkCoverage (omap keep_string ps) git (omap keep_string rs))
          else if b =s "filesystem"
          then Some (mkCoverage (omap keep_string ps) filesystem (omap keep_string rs))
          else None
      | _, _, _ => None
      end
  | _ => None
  end.

Definition stringifyCoverage (c : option CheckpointCoverage) : option json_text :=
  (λ c, Some (JObj [(js "uncoveredPaths", JArr (List.map JStr (uncoveredPaths c)));
                    (js "backend", JStr (kind_name (backend c)));
                    (js "reasons", JArr (List.map JStr (reasons c)))])) <$> c.

(** ** The tables *)

Inductive SubmissionStatus := sub_pending | sub_reviewed.
Inductive SubmissionVerdict := approve | verdict_changes_requested | reject_verdict.

#[export] Instance SubmissionStatus_eq_dec : EqDecision SubmissionStatus.
Proof. solve_decision. Defined.
#[export] Instance SubmissionVerdict_eq_dec : EqDecision SubmissionVerdict.
Proof. solve_decision. Defined.

(** A row of [work_session_submissions], the columns this store writes. *)
Record SubmissionRow := mkSubRow {
  sub_id : jsstr;
  sub_workSessionId : jsstr;
  submissionNumber : Z;
  diff : option jsstr;
  diffSha256 : option jsstr;
  filesJson : option json_text;
  snapshotCommit : option jsstr;
  snapshotKind : option jsstr;
  snapshotRef : option jsstr;
  sub_reviewEpoch : Z;
  message : option jsstr;
  summaryJson : option jsstr;
  coverageJson : option json_text;
  sub_status : SubmissionStatus;
  sub_createdAt : Z
}.

(** The [WorkSessionSubmission] a row reads as. *)
Record WorkSessionSubmission := mkSubmission {
  v_id : jsstr;
  v_workSessionId : jsstr;
  v_submissionNumber : Z;
  v_diff : option jsstr;
  v_diffSha256 : option jsstr;
  v_snapshot : option (WorkspaceSnapshotKind * jsstr);
  v_reviewEpoch : Z;
  v_message : option jsstr;
  v_summaryJson : option jsstr;
  v_files : option (list ReviewFile);
  v_coverage : option CheckpointCoverage;
  v_status : SubmissionStatus;
  v_createdAt : Z
}.

(** A row of [work_session_feedback]; the action columns hold JSON arrays of strings. *)
Record WorkSessionFeedback := mkFeedback {
  fb_id : jsstr;
  fb_workSessionId : jsstr;
  fb_submissionId : jsstr;
  fb_verdict : SubmissionVerdict;
  fb_comments : option jsstr;
  fb_filesJson : option jsstr;
  fb_requiredActions : option (list jsstr);
  fb_allowedNextActions : option (list jsstr);
  fb_reviewerId : option jsstr;
  fb_completionReportSha256 : option jsstr;
  fb_createdAt : Z
}.

(** A row of [workspace_sessions], the columns read here. *)
Record WorkspaceRow := mkWorkspace { wk_id : jsstr; wk_status : jsstr; wk_projectId : option jsstr }.

(** The database, and the sessions [onTerminal] was called with so far. *)
Record wsdb := mkDb {
  sessions : list WorkSessionRow;
  submissions : list SubmissionRow;
  feedback : list WorkSessionFeedback;
  leases : list WorkspaceLeases.WorkspaceLease;
  runs : list RunRow;
  workspaces : list WorkspaceRow;
  terminals : list jsstr
}.

Definition set_sessions (t : list WorkSessionRow) (d : wsdb) : wsdb :=
  mkDb t (submissions d) (feedback d) (leases d) (runs d) (workspaces d) (terminals d).
Definition set_submissions (t : list SubmissionRow) (d : wsdb) : wsdb :=
  mkDb (sessions d) t (feedback d) (leases d) (runs d) (workspaces d) (terminals d).
Definition set_feedback (t : list WorkSessionFeedback) (d : wsdb) : wsdb :=
  mkDb (sessions d) (submissions d) t (leases d) (runs d) (workspaces d) (terminals d).
Definition releaseLeases (session : jsstr) (d : wsdb) : wsdb :=
  mkDb (sessions d) (submissions d) (feedback d)
    (WorkspaceLeases.releaseWorkspaceLeasesForSession session (leases d)).2
    (runs d) (workspaces d) (terminals d).
Definition onTerminal (session : jsstr) (d : wsdb) : wsdb :=
  mkDb (sessions d) (submissions d) (feedback d) (leases d) (runs d) (workspaces d)
    (terminals d ++ [session]).

Definition rowToSubmission (r : SubmissionRow) : res WsError WorkSessionSubmission :=
  snapshot ← normalizeWorkspaceSnapshotIdentity (snapshotKind r) (snapshotRef r) (snapshotCommit r);
  Ok {| v_id := sub_id r; v_workSessionId := sub_workSessionId r;
        v_submissionNumber := submissionNumber r; v_diff := diff r; v_diffSha256 := diffSha256 r;
        v_snapshot := snapshot; v_reviewEpoch := sub_reviewEpoch r; v_message := message r;
        v_summaryJson := summaryJson r; v_files := parseReviewFiles (filesJson r);
        v_coverage := parseCheckpointCoverage (coverageJson r); v_status := sub_status r;
        v_createdAt := sub_createdAt r |}.

(** ** The session store *)

Definition has_id (k : jsstr) (s : WorkSessionRow) : bool := bool_decide (id s = k).

Definition projectIdForWorkspace (w : jsstr) (d : wsdb) : option jsstr :=
  by_key wk_id w (workspaces d) ≫= wk_projectId.

Record CreateSessionInput := mkCreate {
  cr_workspaceSessionId : jsstr;
  cr_submittedBy : jsstr;
  cr_title : option jsstr;
  cr_completionPolicy : option CompletionPolicy;
  cr_ownerContextId : option jsstr;
  cr_principalId : option jsstr
}.

Definition newSession (now : Z) (uuid : jsstr) (project : option jsstr) (i : CreateSessionInput)
  : WorkSessionRow :=
  {| id := "wsess_" +s uuid; projectId := project;
     workspaceSessionId := cr_workspaceSessionId i; status := in_progress;
     runtimeState := rt_pending; runtimeClassifiedAt := Some now;
     completionPolicy := default agent_completion (cr_completionPolicy i); reviewEpoch := 0;
     submittedBy := cr_submittedBy i; ownerContextId := cr_ownerContextId i;
     principalId := cr_principalId i; title := cr_title i; lastConsumedFeedbackId := None;
     lastConsumedReviewEpoch := 0; createdAt := now; updatedAt := now; terminalAt := None |}.

Definition create (now : Z) (uuid : jsstr) (i : CreateSessionInput) (d : wsdb)
  : res WsError (WorkSessionRow * wsdb) :=
  workspace ← require (by_key wk_id (cr_workspaceSessionId i) (workspaces d)) WorkspaceNotActive;
  _ ← ensure (wk_status workspace =s "active") WorkspaceNotActive;
  let s := newSession now uuid (projectIdForWorkspace (cr_workspaceSessionId i) d) i in
  Ok (s, set_sessions (insert_row s (sessions d)) d).

(** The columns a status change writes. *)
Definition with_status (now : Z) (st : WorkSessionStatus) (rt : WorkSessionRuntimeState)
  (epoch : Z) (s : WorkSessionRow) : WorkSessionRow :=
  {| id := id s; projectId := projectId s; workspaceSessionId := workspaceSessionId s;
     status := st; runtimeState := rt; runtimeClassifiedAt := Some now;
     completionPolicy := completionPolicy s; reviewEpoch := epoch;
     submittedBy := submittedBy s; ownerContextId := ownerContextId s;
     principalId := principalId s; title := title s;
     lastConsumedFeedbackId := lastConsumedFeedbackId s;
     lastConsumedReviewEpoch := lastConsumedReviewEpoch s; createdAt := createdAt s;
     updatedAt := now; terminalAt := if isTerminalStatus st then Some now else terminalAt s |}.

Definition stateAfterUpdate (st : WorkSessionStatus) : WorkSessionRuntimeState :=
  if isTerminalStatus st then rt_archived
  else match st with
       | awaiting_review | review_in_progress => rt_parked
       | changes_requested => rt_detached
       | _ => rt_pending
       end.

Definition set_status (now : Z) (st : WorkSessionStatus) (s : WorkSessionRow) : WorkSessionRow :=
  with_status now st (stateAfterUpdate st) (reviewEpoch s) s.

Definition updateStatus (now : Z) (k : jsstr) (st : WorkSessionStatus) (d : wsdb) : wsdb :=
  let d1 := set_sessions (update_where (has_id k) (set_status now st) (sessions d)).1 d in
  if isTerminalStatus st then onTerminal k (releaseLeases k d1) else d1.

(** ** Submissions *)

Record SubmitInput := mkSubmit {
  sm_workSessionId : jsstr;
  sm_diff : option jsstr;
  sm_diffSha256 : option jsstr;
  sm_snapshotCommit : option jsstr;
  sm_snapshotKind : option jsstr;
  sm_snapshotRef : option jsstr;
  sm_message : option jsstr;
  sm_summaryJson : option jsstr;
  sm_files : option (list ReviewFile);
  sm_coverage : option CheckpointCoverage
}.

Definition submittable (st : WorkSessionStatus) : bool :=
  match st with in_progress | changes_requested | resuming => true | _ => false end.

Definition of_session (k : jsstr) (r : SubmissionRow) : bool := sub_workSessionId r =s k.

(** [coalesce(max(submission_number), 0)] *)
Definition maxSubmissionNumber (k : jsstr) (t : list SubmissionRow) : Z :=
  foldr Z.max 0%Z (List.map submissionNumber (select_where (of_session k) t)).

Section Submit.

(** [createHash("sha256").update(s).digest("hex")] of [node:crypto] *)
Context (sha256 : jsstr → jsstr).

Definition newSubmission (now : Z) (uuid : jsstr) (i : SubmitInput)
  (snapshot : option (WorkspaceSnapshotKind * jsstr)) (number epoch : Z) : SubmissionRow :=
  {| sub_id := "wssub_" +s uuid; sub_workSessionId := sm_workSessionId i;
     submissionNumber := number; diff := sm_diff i;
     diffSha256 := Some (default (sha256 (or_empty (sm_diff i))) (sm_diffSha256 i));
     filesJson := stringifyFiles (sm_files i); snapshotCommit := snd <$> snapshot;
     snapshotKind := (λ s, kind_name s.1) <$> snapshot; snapshotRef := snd <$> snapshot;
     sub_reviewEpoch := epoch; message := sm_message i; summaryJson := sm_summaryJson i;
     coverageJson := stringifyCoverage (sm_coverage i); sub_status := sub_pending;
     sub_createdAt := now |}.

Definition submissionView (now : Z) (uuid : jsstr) (i : SubmitInput)
  (snapshot : option (WorkspaceSnapshotKind * jsstr)) (number epoch : Z) : WorkSessionSubmission :=
  {| v_id := "wssub_" +s uuid; v_workSessionId := sm_workSessionId i; v_submissionNumber := number;
     v_diff := sm_diff i;
     v_diffSha256 := Some (default (sha256 (or_empty (sm_diff i))) (sm_diffSha256 i));
     v_snapshot := snapshot; v_reviewEpoch := epoch; v_message := sm_message i;
     v_summaryJson := sm_summaryJson i; v_files := sm_files i; v_coverage := sm_coverage i;
     v_status := sub_pending; v_createdAt := now |}.

Definition submitForReview (now : Z) (uuid : jsstr) (i : SubmitInput) (d : wsdb)
  : res WsError (WorkSessionSubmission * wsdb) :=
  snapshot ← normalizeWorkspaceSnapshotIdentity (sm_snapshotKind i) (sm_snapshotRef i)
               (sm_snapshotCommit i);
  session ← require (by_key id (sm_workSessionId i) (sessions d)) SessionNotFound;
  _ ← ensure (submittable (status session)) (CannotSubmit (status session));
  let number := (maxSubmissionNumber (sm_workSessionId i) (submissions d) + 1)%Z in
  let epoch := (reviewEpoch session + 1)%Z in
  let d1 := set_submissions
    (insert_row (newSubmission now uuid i snapshot number epoch) (submissions d)) d in
  let '(t, changes) :=
    update_where (λ s, has_id (sm_workSessionId i) s && (reviewEpoch s =? reviewEpoch session)%Z
                       && submittable (status s))
      (with_status now awaiting_review rt_parked epoch) (sessions d1) in
  _ ← ensure (Nat.eqb changes 1) ChangedConcurrently;
  Ok (submissionView now uuid i snapshot number epoch, set_sessions t d1).
End Submit.

Definition ge_number (a b : SubmissionRow) : bool := (submissionNumber b <=? submissionNumber a)%Z.

Definition latestSubmissionRow (k : jsstr) (d : wsdb) : option SubmissionRow :=
  first_by ge_number (select_where (of_session k) (submissions d)).

Definition getLatestSubmission (k : jsstr) (d : wsdb) : res WsError (option WorkSessionSubmission) :=
  match latestSubmissionRow k d with
  | Some r => v ← rowToSubmission r; Ok (Some v)
  | None => Ok None
  end.

Definition getSubmissions (k : jsstr) (d : wsdb) : res WsError (list WorkSessionSubmission) :=
  foldr (λ r acc, v ← rowToSubmission r; vs ← acc; Ok (v :: vs)) (Ok [])
    (order_by (λ a b, ge_number b a) (select_where (of_session k) (submissions d))).

(** ** Feedback *)

Record FeedbackInput := mkFeedbackInput {
  fi_workSessionId : jsstr;
  fi_submissionId : jsstr;
  fi_verdict : SubmissionVerdict;
  fi_comments : option jsstr;
  fi_filesJson : option jsstr;
  fi_requiredActions : option (list jsstr);
  fi_allowedNextActions : option (list jsstr);
  fi_reviewerId : option jsstr;
  fi_completionReportSha256 : option jsstr
}.

Definition statusAfterVerdict (v : SubmissionVerdict) : WorkSessionStatus :=
  match v with
  | approve => approved | reject_verdict => rejected | verdict_changes_requested => changes_requested
  end.

Definition newFeedback (now : Z) (uuid : jsstr) (i : FeedbackInput) : WorkSessionFeedback :=
  {| fb_id := "wsfb_" +s uuid; fb_workSessionId := fi_workSessionId i;
     fb_submissionId := fi_submissionId i; fb_verdict := fi_verdict i;
     fb_comments := fi_comments i; fb_filesJson := fi_filesJson i;
     fb_requiredActions := fi_requiredActions i; fb_allowedNextActions := fi_allowedNextActions i;
     fb_reviewerId := fi_reviewerId i;
     fb_completionReportSha256 := fi_completionReportSha256 i; fb_createdAt := now |}.

Definition set_reviewed (r : SubmissionRow) : SubmissionRow :=
  {| sub_id := sub_id r; sub_workSessionId := sub_workSessionId r;
     submissionNumber := submissionNumber r; diff := diff r; diffSha256 := diffSha256 r;
     filesJson := filesJson r; snapshotCommit := snapshotCommit r; snapshotKind := snapshotKind r;
     snapshotRef := snapshotRef r; sub_reviewEpoch := sub_reviewEpoch r; message := message r;
     summaryJson := summaryJson r; coverageJson := coverageJson r; sub_status := sub_reviewed;
     sub_createdAt := sub_createdAt r |}.

Definition set_verdict (now : Z) (st : WorkSessionStatus) (s : WorkSessionRow) : WorkSessionRow :=
  with_status now st (if isTerminalStatus st then rt_archived else rt_detached) (reviewEpoch s) s.

(** [submitFeedback]; a second feedback for a submission violates the table's unique index and
    rolls the transaction back. *)
Definition submitFeedback (now : Z) (uuid : jsstr) (i : FeedbackInput) (d : wsdb)
  : res WsError (WorkSessionFeedback * wsdb) :=
  let fb := newFeedback now uuid i in
  let next := statusAfterVerdict (fi_verdict i) in
  submission ← require (by_key sub_id (fi_submissionId i) (submissions d)) SubmissionNotFound;
  _ ← ensure (sub_workSessionId submission =s fi_workSessionId i) SubmissionOfOtherSession;
  _ ← reject (bool_decide (is_Some (by_key fb_submissionId (fi_submissionId i) (feedback d))))
        FeedbackExists;
  let d1 := set_feedback (insert_row fb (feedback d)) d in
  let d2 := set_submissions
    (update_where (λ r, bool_decide (sub_id r = fi_submissionId i)) set_reviewed
       (submissions d1)).1 d1 in
  let d3 := set_sessions
    (update_where (has_id (fi_workSessionId i)) (set_verdict now next) (sessions d2)).1 d2 in
  Ok (fb, if isTerminalStatus next then releaseLeases (fi_workSessionId i) d3 else d3).

(** [inner join work_session_submissions s on s.id = f.submission_id] *)
Definition joined (d : wsdb) : list (WorkSessionFeedback * SubmissionRow) :=
  omap (λ f, (λ s, (f, s)) <$> by_key sub_id (fb_submissionId f) (submissions d)) (feedback d).

(** [order by submission_number desc, review_epoch desc, feedback.id desc] *)
Definition newer (a b : WorkSessionFeedback * SubmissionRow) : bool :=
  let '(fa, sa) := a in let '(fb, sb) := b in
  (submissionNumber sb <? submissionNumber sa)%Z
  || ((submissionNumber sb =? submissionNumber sa)%Z
      && ((sub_reviewEpoch sb <? sub_reviewEpoch sa)%Z
          || ((sub_reviewEpoch sb =? sub_reviewEpoch sa)%Z && negb (js_ltb (fb_id fa) (fb_id fb))))).

Definition getLatestFeedback (k : jsstr) (d : wsdb) : option WorkSessionFeedback :=
  fst <$> first_by newer (select_where (λ fs, fb_workSessionId fs.1 =s k) (joined d)).

Definition countFeedback (k : jsstr) (d : wsdb) : nat :=
  length (select_where (λ f, fb_workSessionId f =s k) (feedback d)).

Definition getLatestFeedbackAfter (k : jsstr) (afterFeedbackId : option jsstr) (d : wsdb)
  : option WorkSessionFeedback :=
  match afterFeedbackId with
  | Some ((_ :: _) as a) =>
      match get_where (λ fs, bool_decide (fb_id fs.1 = a)) (joined d) with
      | Some (anchor, s) =>
          if negb (fb_workSessionId anchor =s k) then getLatestFeedback k d
          else fst <$> first_by newer
                 (select_where (λ fs, (fb_workSessionId fs.1 =s k)
                                      && (submissionNumber s <? submissionNumber fs.2)%Z) (joined d))
      | None => getLatestFeedback k d
      end
  | _ => getLatestFeedback k d
  end.

Definition set_consumed (now : Z) (f : jsstr) (epoch : Z) (s : WorkSessionRow) : WorkSessionRow :=
  {| id := id s; projectId := projectId s; workspaceSessionId := workspaceSessionId s;
     status := status s; runtimeState := runtimeState s;
     runtimeClassifiedAt := runtimeClassifiedAt s; completionPolicy := completionPolicy s;
     reviewEpoch := reviewEpoch s; submittedBy := submittedBy s;
     ownerContextId := ownerContextId s; principalId := principalId s; title := title s;
     lastConsumedFeedbackId := Some f; lastConsumedReviewEpoch := epoch;
     createdAt := createdAt s; updatedAt := now; terminalAt := terminalAt s |}.

Definition markFeedbackConsumed (now : Z) (k f : jsstr) (d : wsdb) : wsdb :=
  match get_where (λ fs, bool_decide (fb_id fs.1 = f) && (fb_workSessionId fs.1 =s k)) (joined d) with
  | Some (fb, s) =>
      set_sessions
        (update_where (λ x, has_id k x && (lastConsumedReviewEpoch x <? sub_reviewEpoch s)%Z)
           (set_consumed now (fb_id fb) (sub_reviewEpoch s)) (sessions d)).1 d
  | None => d
  end.

(** ** Projections *)

(** The enriched session: the row with its latest submission and feedback and its classification. *)
Record WorkSession := mkWorkSession {
  ws_row : WorkSessionRow;
  latestSubmission : option WorkSessionSubmission;
  latestFeedback : option WorkSessionFeedback;
  lifecycle : WorkSessionLifecycle;
  ws_runtimeState : WorkSessionRuntimeState
}.

(** [order by created_at desc limit 1] *)
Definition latestRunForSession (k : jsstr) (d : wsdb) : option RunRow :=
  first_by (λ a b, (run_createdAt b <=? run_createdAt a)%Z)
    (select_where (λ r, run_workSessionId r =s k) (runs d)).

Definition enrichSession (now now' now'' : Z) (d : wsdb) (s : WorkSessionRow)
  : res WsError WorkSession :=
  sub ← getLatestSubmission (id s) d;
  let rt := if negb (bool_decide (runtimeState s = rt_pending)) then runtimeState s
            else runtimeStateFor now now' now'' (status s) (updatedAt s)
                   (latestRunForSession (id s) d) in
  Ok {| ws_row := s; latestSubmission := sub; latestFeedback := getLatestFeedback (id s) d;
        lifecycle := lifecycleForRuntimeState (status s) rt; ws_runtimeState := rt |}.

Definition get (now now' now'' : Z) (k : jsstr) (d : wsdb) : res WsError (option WorkSession) :=
  match by_key id k (sessions d) with
  | Some s => w ← enrichSession now now' now'' d s; Ok (Some w)
  | None => Ok None
  end.

Definition ge_updated (a b : WorkSessionRow) : bool := (updatedAt b <=? updatedAt a)%Z.

Definition listByWorkspace (now now' now'' : Z) (w : jsstr) (n : nat) (d : wsdb)
  : res WsError (list WorkSession) :=
  foldr (λ s acc, v ← enrichSession now now' now'' d s; vs ← acc; Ok (v :: vs)) (Ok [])
    (limit n (order_by ge_updated
       (select_where (λ s, match projectIdForWorkspace w d with
                           | Some ((_ :: _) as p) => bool_decide (projectId s = Some p)
                           | _ => workspaceSessionId s =s w
                           end) (sessions d)))).


(** ** The invariant of the database *)

Definition numbers_of (k : jsstr) (t : list SubmissionRow) : list Z :=
  List.map submissionNumber (select_where (of_session k) t).

Record db_ok (d : wsdb) : Prop := {
  ok_session_ids : keyed id (sessions d);
  ok_sub_ids : keyed sub_id (submissions d);
  ok_fb_ids : keyed fb_id (feedback d);
  ok_fb_once : keyed fb_submissionId (feedback d);
  ok_numbers : ∀ s, s ∈ sessions d → numbers_of (id s) (submissions d) = seqZ 1 (reviewEpoch s);
  ok_epochs : ∀ r, r ∈ submissions d → sub_reviewEpoch r = submissionNumber r
                ∧ is_Some (by_key id (sub_workSessionId r) (sessions d));
  ok_feedback : ∀ f, f ∈ feedback d → ∃ r, by_key sub_id (fb_submissionId f) (submissions d) = Some r
                  ∧ sub_workSessionId r = fb_workSessionId f;
  ok_reviewed : ∀ r, r ∈ submissions d →
                  (sub_status r = sub_reviewed ↔ ∃ f, f ∈ feedback d ∧ fb_submissionId f = sub_id r);
  ok_consumed : ∀ s, s ∈ sessions d → (0 <= lastConsumedReviewEpoch s <= reviewEpoch s)%Z
}.

Definition empty_db : wsdb := mkDb [] [] [] [] [] [] [].

Inductive step (sha256 : jsstr → jsstr) : wsdb → wsdb → Prop :=
| step_create now uuid i d s d' :
    by_key id ("wsess_" +s uuid) (sessions d) = None →
    create now uuid i d = Ok (s, d') → step sha256 d d'
| step_updateStatus now k st d : step sha256 d (updateStatus now k st d)
| step_submit now uuid i d v d' :
    by_key sub_id ("wssub_" +s uuid) (submissions d) = None →
    submitForReview sha256 now uuid i d = Ok (v, d') → step sha256 d d'
| step_feedback now uuid i d f d' :
    by_key fb_id ("wsfb_" +s uuid) (feedback d) = None →
    submitFeedback now uuid i d = Ok (f, d') → step sha256 d d'
| step_consume now k f d : step sha256 d (markFeedbackConsumed now k f d)
| step_reconcile clk now after l d :
    step sha256 d (set_sessions (reconcileRuntimeStates clk now (runs d) after l (sessions d)).2 d)
| step_other ls rs ws d :
    step sha256 d (mkDb (sessions d) (submissions d) (feedback d) ls rs ws (terminals d)).

(** ** Operations that rewrite session rows in place *)

Lemma by_key_map (g : WorkSessionRow → WorkSessionRow) k t :
  (∀ s, id (g s) = id s) → by_key id k (List.map g t) = g <$> by_key id k t.
Proof.
  intros Hg. unfold by_key, get_where. induction t as [|s t IH]; cbn; [done|].
  rewrite Hg. by case_bool_decide.
Qed.

Lemma map_sessions_ok (g : WorkSessionRow → WorkSessionRow) d :
  (∀ s, id (g s) = id s) → (∀ s, reviewEpoch (g s) = reviewEpoch s) →
  (∀ s, s ∈ sessions d → (0 <= lastConsumedReviewEpoch s <= reviewEpoch s)%Z →
        (0 <= lastConsumedReviewEpoch (g s) <= reviewEpoch s)%Z) →
  db_ok d → db_ok (set_sessions (List.map g (sessions d)) d).
Proof.
  intros Hid Hep Hc [H1 H2 H3 H4 H5 H6 H7 H8 H9]. constructor; cbn; try done.
  - unfold keyed. rewrite List.map_map. erewrite List.map_ext; [exact H1|]. done.
  - intros s' (s & -> & Hs)%elem_of_Lmap. rewrite Hid, Hep. auto.
  - intros r Hr. rewrite by_key_map, fmap_is_Some by done. auto.
  - intros s' (s & -> & Hs)%elem_of_Lmap. rewrite Hep. auto.
Qed.

Lemma updateStatus_sessions now k st d :
  sessions (updateStatus now k st d) =
    List.map (λ s, if has_id k s then set_status now st s else s) (sessions d).
Proof. unfold updateStatus. by destruct (isTerminalStatus st). Qed.

(** Databases with the same sessions, submissions and feedback are equally well-formed. *)
Lemma db_ok_ext d d' :
  sessions d' = sessions d → submissions d' = submissions d → feedback d' = feedback d →
  db_ok d → db_ok d'.
Proof. intros E1 E2 E3 []. constructor; by rewrite ?E1, ?E2, ?E3. Qed.

Lemma joined_elem d f r :
  (f, r) ∈ joined d ↔ f ∈ feedback d ∧ by_key sub_id (fb_submissionId f) (submissions d) = Some r.
Proof.
  unfold joined. rewrite list_elem_of_omap. split.
  - intros (f' & Hf & E). destruct (by_key _ _ _) as [r'|] eqn:Er; simplify_eq/=. done.
  - intros [Hf Er]. exists f. by rewrite Er.
Qed.

(** The submission a feedback of the session belongs to has an epoch of the session. *)
Lemma joined_epoch d f r s :
  db_ok d → (f, r) ∈ joined d → s ∈ sessions d → fb_workSessionId f = id s →
  (1 <= sub_reviewEpoch r <= reviewEpoch s)%Z.
Proof.
  intros Hok [Hf Hr]%joined_elem Hs Hfs.
  destruct (ok_feedback d Hok f Hf) as (r' & Hr' & Hown). simplify_eq.
  apply by_key_Some in Hr as [Hr _]. destruct (ok_epochs d Hok r Hr) as [-> _].
  assert (Hn : submissionNumber r ∈ numbers_of (id s) (submissions d)).
  { apply elem_of_Lmap. exists r. split; [done|]. apply elem_of_Lfilter. split; [done|].
    unfold of_session. apply js_eqb_eq. congruence. }
  rewrite (ok_numbers d Hok s Hs), elem_of_seqZ in Hn. lia.
Qed.

Lemma consume_cases now k f d :
  markFeedbackConsumed now k f d = d
  ∨ ∃ e b, markFeedbackConsumed now k f d =
        set_sessions (List.map (λ s, if has_id k s && (lastConsumedReviewEpoch s <? e)%Z
                                     then set_consumed now b e s else s) (sessions d)) d
      ∧ ∀ s, db_ok d → s ∈ sessions d → id s = k → (1 <= e <= reviewEpoch s)%Z.
Proof.
  unfold markFeedbackConsumed. destruct (get_where _ _) as [[fb r]|] eqn:E; [|by left].
  right. exists (sub_reviewEpoch r), (fb_id fb). split; [done|].
  intros s Hok Hs Hk. apply get_where_Some in E as [Hj Hp]. cbn in Hp. guards.
  apply (joined_epoch d fb r s Hok Hj Hs). congruence.
Qed.

Lemma consume_ok now k f d : db_ok d → db_ok (markFeedbackConsumed now k f d).
Proof.
  intros Hok. destruct (consume_cases now k f d) as [->|(e & b & -> & He)]; [done|].
  apply map_sessions_ok; [intros s; by destruct (_ && _)..| |done].
  intros s Hs Hc. destruct (_ && _) eqn:E; [|done]. cbn. unfold has_id in E. guards.
  destruct (He s Hok Hs); [done|]. lia.
Qed.

(** ** Each operation preserves the invariant *)

Lemma ws_create_ok now uuid i d s d' :
  by_key id ("wsess_" +s uuid) (sessions d) = None →
  create now uuid i d = Ok (s, d') → db_ok d → db_ok d'.
Proof.
  intros Hn E Hok. unfold create in E. res_inv E. subst.
  set (ns := newSession _ _ _ _). assert (Hns : id ns = "wsess_" +s uuid) by done.
  destruct Hok as [H1 H2 H3 H4 H5 H6 H7 H8 H9]. constructor; cbn; try done.
  - by apply keyed_insert.
  - intros s [Hs|Hs%list_elem_of_singleton]%elem_of_app; [auto|]. subst s.
    unfold numbers_of, select_where. rewrite Lfilter_none; [done|]. intros r Hr.
    apply js_eqb_neq. intros Er. destruct (H6 r Hr) as [_ [sx Hx]].
    rewrite Er, Hns, Hn in Hx. done.
  - intros r Hr. destruct (H6 r Hr) as [He [sx Hx]]. split; [done|]. exists sx.
    rewrite by_key_insert_ne; [done|]. rewrite Hns. intros Er. congruence.
  - intros s [Hs|Hs%list_elem_of_singleton]%elem_of_app; [auto|]. subst s. cbn. lia.
Qed.

Lemma foldr_max_seqZ n : (0 <= n)%Z → foldr Z.max 0%Z (seqZ 1 n) = n.
Proof.
  intros Hn. pattern n. apply natlike_ind; [done| |done]. clear n Hn. intros n Hn IH.
  replace (Z.succ n) with (n + 1)%Z by lia. rewrite seqZ_app, foldr_app by lia.
  rewrite (seqZ_cons (1 + n)) by lia. cbn.
  change (foldr Z.max 0%Z (seqZ (Z.succ (1 + n)) (Z.pred 1))) with 0%Z.
  assert (Hgen : ∀ l m, (0 <= m)%Z → foldr Z.max m l = Z.max m (foldr Z.max 0%Z l)).
  { induction l as [|x l IHl]; intros m Hm; cbn; [lia|]. rewrite IHl by done. lia. }
  rewrite Hgen, IH by lia. lia.
Qed.

Lemma maxSubmissionNumber_epoch d s :
  db_ok d → s ∈ sessions d → maxSubmissionNumber (id s) (submissions d) = reviewEpoch s.
Proof.
  intros Hok Hs. unfold maxSubmissionNumber. pose proof (ok_numbers d Hok s Hs) as Hn.
  unfold numbers_of in Hn. rewrite Hn. apply foldr_max_seqZ.
  pose proof (ok_consumed d Hok s Hs). lia.
Qed.

Definition advanced (now : Z) (k : jsstr) (s0 s : WorkSessionRow) : WorkSessionRow :=
  if has_id k s && (reviewEpoch s =? reviewEpoch s0)%Z && submittable (status s)
  then with_status now awaiting_review rt_parked (reviewEpoch s0 + 1) s else s.

(** A successful submission: what was looked up and what was written. *)
Lemma submit_inv sha now uuid i d v d' :
  submitForReview sha now uuid i d = Ok (v, d') →
  ∃ snap s0, normalizeWorkspaceSnapshotIdentity (sm_snapshotKind i) (sm_snapshotRef i) (sm_snapshotCommit i)
               = Ok snap
    ∧ by_key id (sm_workSessionId i) (sessions d) = Some s0 ∧ submittable (status s0) = true
    ∧ let n := (maxSubmissionNumber (sm_workSessionId i) (submissions d) + 1)%Z in
      let e := (reviewEpoch s0 + 1)%Z in
      v = submissionView sha now uuid i snap n e
      ∧ d' = set_sessions (List.map (advanced now (sm_workSessionId i) s0) (sessions d))
               (set_submissions (insert_row (newSubmission sha now uuid i snap n e) (submissions d)) d).
Proof.
  unfold submitForReview. intros E. res_inv E. subst. eauto 10.
Qed.

Lemma advanced_id now k s0 s : id (advanced now k s0 s) = id s.
Proof. unfold advanced. by destruct (_ && _). Qed.

Lemma submit_ok sha now uuid i d v d' :
  by_key sub_id ("wssub_" +s uuid) (submissions d) = None →
  submitForReview sha now uuid i d = Ok (v, d') → db_ok d → db_ok d'.
Proof.
  intros Hn E Hok. apply submit_inv in E as (snap & s0 & _ & Hs0 & Hst & _ & ->).
  set (k := sm_workSessionId i) in *. set (nr := newSubmission _ _ _ _ _ _ _).
  assert (Hnr : sub_id nr = "wssub_" +s uuid) by done.
  apply by_key_Some in Hs0 as Hs0'. destruct Hs0' as [Hin0 Hid0].
  assert (Hmax : maxSubmissionNumber k (submissions d) = reviewEpoch s0)
    by (rewrite <- Hid0; by apply maxSubmissionNumber_epoch).
  assert (Hadv : ∀ s, s ∈ sessions d → reviewEpoch (advanced now k s0 s) =
            if bool_decide (id s = k) then (reviewEpoch s + 1)%Z else reviewEpoch s).
  { intros s Hs. unfold advanced, has_id. destruct (decide (id s = k)) as [Ek|Ek].
    - assert (s = s0) as -> by (eapply (keyed_inj id); [apply Hok|done..|congruence]).
      by rewrite bool_decide_eq_true_2, Z.eqb_refl, Hst by done.
    - by rewrite bool_decide_eq_false_2. }
  destruct Hok as [H1 H2 H3 H4 H5 H6 H7 H8 H9]. constructor; cbn; try done.
  - unfold keyed. rewrite List.map_map. erewrite List.map_ext; [exact H1|].
    intros; apply advanced_id.
  - by apply keyed_insert.
  - intros s' (s & -> & Hs)%elem_of_Lmap. rewrite advanced_id, Hadv by done.
    unfold numbers_of, insert_row, select_where. rewrite List.filter_app, List.map_app.
    change (List.map submissionNumber (List.filter (of_session (id s)) (submissions d)))
      with (numbers_of (id s) (submissions d)). rewrite H5 by done. cbn. unfold of_session; cbn.
    pose proof (H9 s Hs) as Hc. fold k. case_bool_decide as Ek.
    + rewrite Ek, js_eqb_refl. cbn. rewrite Hmax.
      assert (s = s0) as -> by (eapply (keyed_inj id); [done..|congruence]).
      rewrite seqZ_app by lia. f_equal. rewrite seqZ_cons by lia. cbn. f_equal; lia.
    + rewrite (proj2 (js_eqb_neq k (id s))) by congruence. by rewrite app_nil_r.
  - intros r [Hr|Hr%list_elem_of_singleton]%elem_of_app;
      rewrite by_key_map, fmap_is_Some by (intros; apply advanced_id); [auto|]. subst r. cbn.
    rewrite Hmax. split; [lia|]. by exists s0.
  - intros f Hf. destruct (H7 f Hf) as (r & Hr & Hown). exists r. split; [|done].
    rewrite by_key_insert_ne; [done|]. rewrite Hnr. intros Ek. congruence.
  - intros r [Hr|Hr%list_elem_of_singleton]%elem_of_app; [auto|]. subst r. cbn. split; [done|].
    intros (f & Hf & Ef). destruct (H7 f Hf) as (r & Hr & _). rewrite Ef in Hr. congruence.
  - intros s' (s & -> & Hs)%elem_of_Lmap. rewrite Hadv by done. pose proof (H9 s Hs).
    replace (lastConsumedReviewEpoch (advanced now k s0 s)) with (lastConsumedReviewEpoch s)
      by (unfold advanced; by destruct (_ && _)).
    case_bool_decide; lia.
Qed.

Definition verdicted (now : Z) (i : FeedbackInput) (s : WorkSessionRow) : WorkSessionRow :=
  if has_id (fi_workSessionId i) s
  then set_verdict now (statusAfterVerdict (fi_verdict i)) s else s.

Definition closed (k : jsstr) (r : SubmissionRow) : SubmissionRow :=
  if bool_decide (sub_id r = k) then set_reviewed r else r.

Lemma feedback_inv now uuid i d f d' :
  submitFeedback now uuid i d = Ok (f, d') →
  ∃ r, by_key sub_id (fi_submissionId i) (submissions d) = Some r
    ∧ sub_workSessionId r = fi_workSessionId i
    ∧ by_key fb_submissionId (fi_submissionId i) (feedback d) = None
    ∧ f = newFeedback now uuid i
    ∧ sessions d' = List.map (verdicted now i) (sessions d)
    ∧ submissions d' = List.map (closed (fi_submissionId i)) (submissions d)
    ∧ feedback d' = insert_row f (feedback d)
    ∧ leases d' = (if isTerminalStatus (statusAfterVerdict (fi_verdict i))
                   then (WorkspaceLeases.releaseWorkspaceLeasesForSession (fi_workSessionId i) (leases d)).2
                   else leases d).
Proof.
  unfold submitFeedback. intros E. res_inv E. guards. subst.
  eexists. split; [done|]. split; [done|]. split; [by apply eq_None_not_Some|].
  by destruct (isTerminalStatus _).
Qed.

Lemma verdicted_id now i s : id (verdicted now i s) = id s.
Proof. unfold verdicted. by destruct (has_id _ s). Qed.

Lemma closed_id k r : sub_id (closed k r) = sub_id r.
Proof. unfold closed. by case_bool_decide. Qed.

Lemma by_key_closed k k' t :
  by_key sub_id k' (List.map (closed k) t) = closed k <$> by_key sub_id k' t.
Proof.
  unfold by_key, get_where. induction t as [|r t IH]; cbn; [done|].
  rewrite closed_id. by destruct (bool_decide (sub_id r = k')).
Qed.

Lemma closed_fields k r :
  sub_workSessionId (closed k r) = sub_workSessionId r
  ∧ submissionNumber (closed k r) = submissionNumber r
  ∧ sub_reviewEpoch (closed k r) = sub_reviewEpoch r.
Proof. unfold closed. by case_bool_decide. Qed.

Lemma numbers_of_closed k s t : numbers_of s (List.map (closed k) t) = numbers_of s t.
Proof.
  unfold numbers_of, select_where, of_session. induction t as [|r t IH]; cbn; [done|].
  destruct (closed_fields k r) as (-> & En & _). destruct (sub_workSessionId r =s s); cbn; congruence.
Qed.

Lemma feedback_ok now uuid i d f d' :
  by_key fb_id ("wsfb_" +s uuid) (feedback d) = None →
  submitFeedback now uuid i d = Ok (f, d') → db_ok d → db_ok d'.
Proof.
  intros Hn E Hok. apply feedback_inv in E as (r0 & Hr0 & Hown & Hnone & Hf & Es & Eu & Ef & _).
  destruct Hok as [H1 H2 H3 H4 H5 H6 H7 H8 H9].
  assert (Hfid : fb_id f = "wsfb_" +s uuid ∧ fb_submissionId f = fi_submissionId i
                 ∧ fb_workSessionId f = fi_workSessionId i) by (by subst f).
  destruct Hfid as (Hfid & Hfs & Hfw). clear Hf.
  assert (Hvd : ∀ s, reviewEpoch (verdicted now i s) = reviewEpoch s
            ∧ lastConsumedReviewEpoch (verdicted now i s) = lastConsumedReviewEpoch s)
    by (intros s; unfold verdicted; by destruct (has_id _ s)).
  constructor; rewrite ?Es, ?Eu, ?Ef.
  - unfold keyed. rewrite List.map_map. erewrite List.map_ext; [exact H1|]. apply verdicted_id.
  - unfold keyed. rewrite List.map_map. erewrite List.map_ext; [exact H2|]. apply closed_id.
  - apply keyed_insert; [done|]. by rewrite Hfid.
  - apply keyed_insert; [done|]. by rewrite Hfs.
  - intros s' (s & -> & Hs)%elem_of_Lmap. destruct (Hvd s) as [-> _].
    rewrite verdicted_id, numbers_of_closed. auto.
  - intros r' (r & -> & Hr)%elem_of_Lmap. destruct (closed_fields (fi_submissionId i) r) as (-> & -> & ->).
    rewrite by_key_map, fmap_is_Some by apply verdicted_id. auto.
  - intros g [Hg|Hg%list_elem_of_singleton]%elem_of_app; rewrite by_key_closed.
    + destruct (H7 g Hg) as (r & Hr & Ho). eexists. rewrite Hr. split; [done|].
      by destruct (closed_fields (fi_submissionId i) r) as (-> & _).
    + subst g. rewrite Hfs, Hr0. eexists. split; [done|].
      destruct (closed_fields (fi_submissionId i) r0) as (-> & _). congruence.
  - intros r' (r & -> & Hr)%elem_of_Lmap. rewrite closed_id. unfold closed, insert_row.
    setoid_rewrite elem_of_app. setoid_rewrite list_elem_of_singleton. case_bool_decide as Ek; cbn.
    + split; [|done]. intros _. exists f. split; [by right|congruence].
    + rewrite H8 by done. split.
      * intros (g & Hg & Eg). exists g. split; [by left|done].
      * intros (g & [Hg|Hg] & Eg); [by exists g|]. subst g. congruence.
  - intros s' (s & -> & Hs)%elem_of_Lmap. destruct (Hvd s) as [-> ->]. auto.
Qed.

Lemma ws_step_ok sha d d' : step sha d d' → db_ok d → db_ok d'.
Proof.
  intros Hs Hok. destruct Hs as [now uuid i d s d' Hn E|now k st d|now uuid i d v d' Hn E
    |now uuid i d f d' Hn E|now k f d|clk now after l d|ls rs ws d].
  - by eapply ws_create_ok.
  - apply (db_ok_ext (set_sessions (sessions (updateStatus now k st d)) d)); [done| | |].
    1,2: by unfold updateStatus; destruct (isTerminalStatus st).
    rewrite updateStatus_sessions. apply map_sessions_ok; [intros s; by destruct (has_id k s)..| |done].
    intros s _ H. by destruct (has_id k s).
  - by eapply submit_ok.
  - by eapply feedback_ok.
  - by apply consume_ok.
  - rewrite reconcile_pass by apply Hok.
    apply map_sessions_ok; [intros; apply refresh_id|..]; [| |done].
    + intros s. unfold refresh. by destruct (_ && _).
    + intros s _ H. unfold refresh. by destruct (_ && _).
  - by apply (db_ok_ext d).
Qed.

Lemma ws_steps_ok sha d d' : steps (step sha) d d' → db_ok d → db_ok d'.
Proof. apply steps_invariant, ws_step_ok. Qed.

(** C26: Along every history of session creation, status changes, submissions, feedback, consumption
    and reconciliation, the submissions of a session are numbered [1, 2, ..., n] in order, carry
    their number as review epoch, and the session's review epoch is [n]; a submission has at most
    one feedback, which belongs to the same session, and is reviewed exactly when it has one; and
    the epoch a session has consumed never exceeds the epoch it submitted. *)
Theorem submission_history_invariant sha d : steps (step sha) empty_db d → db_ok d.
Proof.
  intros H. apply (ws_steps_ok _ _ _ H). constructor; cbn; try (by intros ? ?%not_elem_of_nil);
    constructor.
Qed.

(** ** Consumption is monotone *)

(** Sessions persist, and neither their review epoch nor the epoch they consumed goes back. *)
Definition advances (d d' : wsdb) : Prop :=
  ∀ k s, by_key id k (sessions d) = Some s →
    ∃ s', by_key id k (sessions d') = Some s'
      ∧ (reviewEpoch s <= reviewEpoch s')%Z
      ∧ (lastConsumedReviewEpoch s <= lastConsumedReviewEpoch s')%Z.

Lemma advances_map (g : WorkSessionRow → WorkSessionRow) d d' :
  sessions d' = List.map g (sessions d) → (∀ s, id (g s) = id s) →
  (∀ s, s ∈ sessions d → (reviewEpoch s <= reviewEpoch (g s))%Z
        ∧ (lastConsumedReviewEpoch s <= lastConsumedReviewEpoch (g s))%Z) → advances d d'.
Proof.
  intros E Hid Hg k s Hs. rewrite E, by_key_map, Hs by done. cbn. eexists. split; [done|].
  apply Hg. by apply by_key_Some in Hs as [? _].
Qed.

Lemma advances_same d d' : sessions d' = sessions d → advances d d'.
Proof. intros E k s Hs. rewrite E. exists s. split; [done|lia]. Qed.

Lemma step_advances sha d d' : step sha d d' → db_ok d → advances d d'.
Proof.
  intros Hs Hok. destruct Hs as [now uuid i d s d' Hn E|now k st d|now uuid i d v d' Hn E
    |now uuid i d f d' Hn E|now k f d|clk now after l d|ls rs ws d].
  - unfold create in E. res_inv E. subst. intros k s Hs. exists s. split; [|lia]. cbn.
    rewrite by_key_insert_ne; [done|]. cbn. intros Ek. congruence.
  - eapply advances_map; [apply updateStatus_sessions|..]; intros s; cbn beta;
      destruct (has_id k s); cbn; try done; lia.
  - apply submit_inv in E as (snap & s0 & _ & Hs0 & _ & _ & ->).
    eapply (advances_map (advanced now _ s0)); [done|apply advanced_id|].
    intros s Hs. unfold advanced. destruct (_ && _) eqn:Eb; [|lia]. guards. cbn. lia.
  - apply feedback_inv in E as (r & _ & _ & _ & _ & Es & _).
    eapply advances_map; [exact Es|apply verdicted_id|].
    intros s _. unfold verdicted. destruct (has_id _ s); cbn; lia.
  - destruct (consume_cases now k f d) as [->|(e & b & -> & _)]; [by apply advances_same|].
    eapply advances_map; [done|..]; intros s; cbn beta; destruct (_ && _) eqn:Eb; try done; guards; cbn; lia.
  - rewrite reconcile_pass by apply Hok. eapply advances_map; [done|apply refresh_id|].
    intros s _. unfold refresh. destruct (_ && _); cbn; lia.
  - by apply advances_same.
Qed.

(** Consuming feedback only moves forward.  Along every history a session, once created,
    remains, its review epoch never decreases, and neither does the epoch of the feedback it last
    consumed, whatever feedback ids it acknowledges and in whatever order. *)
Theorem consumption_monotone sha d d' :
  db_ok d → steps (step sha) d d' → advances d d'.
Proof.
  intros Hok Hs. revert Hok. induction Hs as [d|d1 d2 d3 H12 _ IH]; intros Hok k s Hk.
  - exists s. split; [done|lia].
  - destruct (step_advances _ _ _ H12 Hok k s Hk) as (s2 & Hs2 & H1 & H2).
    destruct (IH (ws_step_ok _ _ _ H12 Hok) k s2 Hs2) as (s3 & Hs3 & H3 & H4).
    exists s3. split; [done|lia].
Qed.

(** ** Submitting *)

(** [submitForReview] on every branch.  It fails with the identity's error, for a missing
    session, or for a session whose status does not accept a submission; the concurrent-change
    error cannot occur inside its transaction.  Otherwise it allocates the next number and epoch,
    which agree, parks exactly this session as awaiting review under the new epoch, appends exactly
    one submission and touches nothing else. *)
Theorem submitForReview_outcome sha now uuid i d :
  db_ok d →
  let k := sm_workSessionId i in
  let snapshot := normalizeWorkspaceSnapshotIdentity (sm_snapshotKind i) (sm_snapshotRef i) (sm_snapshotCommit i) in
  match submitForReview sha now uuid i d with
  | Err e =>
      snapshot = Err e
      ∨ e = SessionNotFound ∧ by_key id k (sessions d) = None
      ∨ ∃ s, by_key id k (sessions d) = Some s ∧ submittable (status s) = false ∧ e = CannotSubmit (status s)
  | Ok (v, d') =>
      ∃ s, by_key id k (sessions d) = Some s ∧ submittable (status s) = true
        ∧ snapshot = Ok (v_snapshot v)
        ∧ v_submissionNumber v = (reviewEpoch s + 1)%Z ∧ v_reviewEpoch v = (reviewEpoch s + 1)%Z
        ∧ (∀ k', by_key id k' (sessions d') =
             if decide (k' = k)
             then Some (with_status now awaiting_review rt_parked (reviewEpoch s + 1) s)
             else by_key id k' (sessions d))
        ∧ (∃ r, submissions d' = submissions d ++ [r] ∧ sub_id r = v_id v ∧ sub_workSessionId r = k)
        ∧ feedback d' = feedback d ∧ leases d' = leases d ∧ terminals d' = terminals d
  end.
Proof.
  intros Hok k snapshot. destruct (submitForReview sha now uuid i d) as [[v d']|e] eqn:E.
  - apply submit_inv in E as (snap & s & Hsnap & Hs & Hst & -> & ->). fold k in Hs |- *.
    apply by_key_Some in Hs as Hs'. destruct Hs' as [Hin Hid].
    assert (Hmax : maxSubmissionNumber k (submissions d) = reviewEpoch s)
      by (rewrite <- Hid; by apply maxSubmissionNumber_epoch).
    exists s. cbn. fold k. rewrite Hmax. split_and!; try done; [|by eexists].
    intros k'. rewrite by_key_map by apply advanced_id. case_decide as Ek.
    + subst k'. rewrite Hs. cbn. unfold advanced, has_id.
      by rewrite bool_decide_eq_true_2, Z.eqb_refl, Hst by done.
    + destruct (by_key id k' (sessions d)) as [x|] eqn:Ex; [|done]. cbn.
      apply by_key_Some in Ex as [_ Ex]. unfold advanced, has_id.
      by rewrite bool_decide_eq_false_2 by congruence.
  - unfold submitForReview in E. fold snapshot k in E.
    apply bind_Err in E as [E|(snap & Hsnap & E)]; [by left|right].
    apply bind_Err in E as [E|(s & Hs & E)].
    { left. unfold require in E. destruct (by_key id k (sessions d)); by simplify_eq. }
    apply require_Ok in Hs. apply bind_Err in E as [E|([] & Hst & E)].
    { right. exists s. unfold ensure in E. destruct (submittable (status s)); by simplify_eq. }
    exfalso. apply ensure_Ok in Hst. cbv zeta in E.
    rewrite (surjective_pairing (update_where _ _ _)) in E.
    rewrite (changes_keyed id _ _ _ k) in E by (apply Hok || (unfold has_id; intros; by guards)).
    cbn [sessions set_submissions] in E. rewrite Hs in E. unfold has_id in E.
    apply by_key_Some in Hs as [_ Hid].
    by rewrite bool_decide_eq_true_2, Z.eqb_refl, Hst in E by done.
Qed.

(** ** Reading back *)

Lemma omap_keep_files fs :
  Forall (λ f, is_review_file f = true) fs → omap keep_review_file (List.map JObj fs) = fs.
Proof.
  induction 1 as [|f fs Hf _ IH]; cbn; [done|]. rewrite Hf. by f_equal.
Qed.

Lemma parse_files_roundtrip files :
  (∀ fs, files = Some fs → Forall (λ f, is_review_file f = true) fs) →
  parseReviewFiles (stringifyFiles files) = files.
Proof.
  destruct files as [fs|]; cbn; [|done]. intros H. rewrite omap_keep_files by auto.
  by rewrite List.length_map, Nat.eqb_refl.
Qed.

Lemma omap_keep_strings ss : omap keep_string (List.map JStr ss) = ss.
Proof. induction ss; cbn; congruence. Qed.

Lemma parse_coverage_roundtrip c : parseCheckpointCoverage (stringifyCoverage c) = c.
Proof.
  destruct c as [[ps b rs]|]; [|done].
  transitivity (Some (mkCoverage (omap keep_string (List.map JStr ps)) b
                        (omap keep_string (List.map JStr rs)))).
  - by destruct b.
  - by rewrite !omap_keep_strings.
Qed.

Lemma drop_spaces_head s c : head (drop_spaces s) = Some c → is_space c = false.
Proof. induction s as [|d s IH]; cbn; [done|]. destruct (is_space d) eqn:E; [done|]. by intros [= ->]. Qed.

Lemma drop_spaces_suffix s : ∃ p, s = p ++ drop_spaces s.
Proof.
  induction s as [|d s [p IH]]; cbn; [by exists []|]. destruct (is_space d).
  - exists (d :: p). cbn. by f_equal.
  - by exists [].
Qed.

(** [trim] is idempotent. *)
Lemma trim_trim s : trim (trim s) = trim s.
Proof.
  apply trim_id. unfold trim, trimEnd, trimStart. set (a := drop_spaces s).
  split; intros c Hc.
  - destruct (drop_spaces_suffix (rev a)) as [p Hp].
    assert (Ha : a = rev (drop_spaces (rev a)) ++ rev p).
    { rewrite <- rev_app_distr, <- Hp. by rewrite rev_involutive. }
    destruct (rev (drop_spaces (rev a))) as [|x l] eqn:El; [done|]. injection Hc as ->.
    apply (drop_spaces_head s). fold a. by rewrite Ha.
  - apply (drop_spaces_head (rev a)). rewrite <- Hc, (rev_alt (drop_spaces _)).
    symmetry. apply last_reverse.
Qed.

(** A normalized identity normalizes to itself, from the columns it is stored in. *)
Lemma normalize_stored kind ref commit snap :
  normalizeWorkspaceSnapshotIdentity kind ref commit = Ok snap →
  normalizeWorkspaceSnapshotIdentity ((λ s, kind_name s.1) <$> snap) (snd <$> snap) (snd <$> snap)
    = Ok snap.
Proof.
  intros E. destruct snap as [[k r]|]; [|done].
  assert (H : ∃ s, r = trim s ∧ nonempty (trim s) = true
              ∧ (k = filesystem ↔ startsWith r "fs:" = true)).
  { unfold normalizeWorkspaceSnapshotIdentity in E. res_inv E. guards.
    destruct (default _ kind =s "filesystem") eqn:Ek; cbn in *; simplify_eq;
    unfold trimmed_or_none in *; repeat case_match; simplify_eq; eauto;
    eexists; split_and!; try done; by destruct (startsWith _ _).
  }
  destruct H as (s & -> & Hne & Hk).
  unfold normalizeWorkspaceSnapshotIdentity, trimmed_or_none; cbn.
  rewrite trim_trim, Hne. cbn. rewrite js_eqb_refl. cbn.
  destruct k; cbn.
  - destruct (startsWith (trim s) "fs:") eqn:Es; [|done]. by destruct Hk as [_ Hk]; discriminate Hk.
  - rewrite (proj1 Hk) by done. done.
Qed.

(** The row a submission is stored as reads back as the value the caller was given. *)
Lemma newSubmission_reads sha now uuid i snap n e :
  (∃ kind ref commit, normalizeWorkspaceSnapshotIdentity kind ref commit = Ok snap) →
  (∀ fs, sm_files i = Some fs → Forall (λ f, is_review_file f = true) fs) →
  rowToSubmission (newSubmission sha now uuid i snap n e) = Ok (submissionView sha now uuid i snap n e).
Proof.
  intros (kind & ref & commit & Hs) Hf. unfold rowToSubmission. cbn -[mbind].
  rewrite (normalize_stored _ _ _ _ Hs). cbn.
  rewrite parse_files_roundtrip by done. by rewrite parse_coverage_roundtrip.
Qed.

(** The first of an order with a unique least element is that element. *)
Lemma first_by_unique {row} (le : row → row → bool) t r :
  (∀ a b, le a b = true ∨ le b a = true) →
  (∀ a b c, le a b = true → le b c = true → le a c = true) →
  r ∈ t → (∀ x, x ∈ t → le x r = true → x = r) → first_by le t = Some r.
Proof.
  intros Htot Htr Hr Hu. destruct (first_by le t) as [x|] eqn:E.
  - f_equal. apply Hu; [by eapply first_by_elem|]. by eapply (first_by_least le t).
  - apply first_by_None in E as ->. by apply not_elem_of_nil in Hr.
Qed.

Lemma ge_number_total a b : ge_number a b = true ∨ ge_number b a = true.
Proof. unfold ge_number. rewrite !Z.leb_le. lia. Qed.
Lemma ge_number_trans a b c : ge_number a b = true → ge_number b c = true → ge_number a c = true.
Proof. unfold ge_number. rewrite !Z.leb_le. lia. Qed.

(** What [submitForReview] returns is what the store then reports as the session's latest
    submission: snapshot identity, files, coverage and all.  (A file list has well-formed review
    files, as its type requires.) *)
Theorem submission_read_back sha now uuid i d v d' :
  db_ok d → submitForReview sha now uuid i d = Ok (v, d') →
  (∀ fs, sm_files i = Some fs → Forall (λ f, is_review_file f = true) fs) →
  getLatestSubmission (sm_workSessionId i) d' = Ok (Some v).
Proof.
  intros Hok E Hf. apply submit_inv in E as (snap & s & Hsnap & Hs & Hst & -> & ->).
  apply by_key_Some in Hs as [Hin Hid].
  unfold getLatestSubmission, latestSubmissionRow. cbn -[first_by mbind].
  rewrite <- Hid, maxSubmissionNumber_epoch by done. rewrite Hid.
  set (nr := newSubmission _ _ _ _ _ _ _).
  rewrite (first_by_unique _ _ nr ge_number_total ge_number_trans).
  - unfold nr. rewrite newSubmission_reads by (done || by repeat eexists). done.
  - apply elem_of_Lfilter. split; [apply elem_of_app; right; by left|]. unfold of_session; cbn.
    apply js_eqb_refl.
  - intros x [[Hx|Hx%list_elem_of_singleton]%elem_of_app Hk]%elem_of_Lfilter Hge; [|done].
    exfalso. unfold of_session in Hk. unfold ge_number in Hge. guards. cbn in Hge.
    assert (Hn : submissionNumber x ∈ numbers_of (id s) (submissions d)).
    { apply elem_of_Lmap. exists x. split; [done|]. apply elem_of_Lfilter. split; [done|].
      apply js_eqb_eq. congruence. }
    rewrite (ok_numbers d Hok s Hin), elem_of_seqZ in Hn. lia.
Qed.

(** ** Feedback *)

Definition no_lease (k : jsstr) (ls : list WorkspaceLeases.WorkspaceLease) : Prop :=
  ∀ l, l ∈ ls → WorkspaceLeases.workSessionId l ≠ k.

Lemma release_no_lease k ls : no_lease k (WorkspaceLeases.releaseWorkspaceLeasesForSession k ls).2.
Proof.
  unfold WorkspaceLeases.releaseWorkspaceLeasesForSession.
  rewrite (surjective_pairing (delete_where _ _)). cbn.
  intros l [Hl Hp]%elem_of_Lfilter. by guards.
Qed.

(** [submitFeedback] closes its submission once.  It succeeds exactly for a submission of the
    named session that has no feedback yet; it then marks that submission reviewed, gives the
    session the status of the verdict, releases the session's workspace leases when that status is
    terminal and keeps all leases otherwise, and any further feedback for the submission fails and
    is not stored. *)
Theorem submitFeedback_closes now uuid i d :
  db_ok d →
  match submitFeedback now uuid i d with
  | Err e =>
      by_key sub_id (fi_submissionId i) (submissions d) = None ∧ e = SubmissionNotFound
      ∨ (∃ r, by_key sub_id (fi_submissionId i) (submissions d) = Some r
           ∧ (sub_workSessionId r ≠ fi_workSessionId i ∧ e = SubmissionOfOtherSession
              ∨ sub_workSessionId r = fi_workSessionId i ∧ sub_status r = sub_reviewed ∧ e = FeedbackExists))
  | Ok (f, d') =>
      let next := statusAfterVerdict (fi_verdict i) in
      (∃ r, by_key sub_id (fi_submissionId i) (submissions d) = Some r ∧ sub_status r = sub_pending
          ∧ by_key sub_id (fi_submissionId i) (submissions d') = Some (set_reviewed r))
      ∧ (∃ s, by_key id (fi_workSessionId i) (sessions d) = Some s
          ∧ by_key id (fi_workSessionId i) (sessions d') = Some (set_verdict now next s))
      ∧ (if isTerminalStatus next then no_lease (fi_workSessionId i) (leases d')
         else leases d' = leases d)
      ∧ ∀ now2 uuid2 i2, fi_submissionId i2 = fi_submissionId i →
          is_ok (submitFeedback now2 uuid2 i2 d') = false
  end.
Proof.
  intros Hok. destruct (submitFeedback now uuid i d) as [[f d']|e] eqn:E.
  - apply feedback_inv in E as (r & Hr & Hown & Hnone & Hf & Es & Eu & Ef & El). cbv zeta.
    apply by_key_Some in Hr as Hr'. destruct Hr' as [Hin Hrid]. split_and!.
    + exists r. split; [done|]. split.
      * destruct (sub_status r) eqn:Est; [done|]. apply (ok_reviewed d Hok r Hin) in Est as (g & Hg & Eg).
        rewrite by_key_None in Hnone. destruct (Hnone g Hg). congruence.
      * rewrite Eu, by_key_closed, Hr. cbn. unfold closed. by rewrite bool_decide_eq_true_2.
    + destruct (ok_epochs d Hok r Hin) as [_ [s Hs]]. rewrite Hown in Hs. exists s. split; [done|].
      rewrite Es, by_key_map, Hs by apply verdicted_id. cbn. unfold verdicted, has_id.
      apply by_key_Some in Hs as [_ Hs]. by rewrite bool_decide_eq_true_2.
    + rewrite El. destruct (isTerminalStatus _); [apply release_no_lease|done].
    + intros now2 uuid2 i2 Hi2. destruct (submitFeedback now2 uuid2 i2 d') as [[f2 d2]|] eqn:E2; [|done].
      apply feedback_inv in E2 as (_ & _ & _ & Hn2 & _). rewrite Ef, Hi2 in Hn2.
      replace (fi_submissionId i) with (fb_submissionId f) in * by (by subst f).
      rewrite by_key_insert_eq in Hn2; done.
  - unfold submitFeedback in E. apply bind_Err in E as [E|(r & Hr & E)].
    { left. unfold require in E. destruct (by_key sub_id _ _); by simplify_eq. }
    right. apply require_Ok in Hr. exists r. split; [done|].
    apply bind_Err in E as [E|([] & Hown & E)].
    { left. unfold ensure in E. destruct (_ =s _) eqn:Eo; simplify_eq. by guards. }
    apply ensure_Ok in Hown. guards. right. split; [done|].
    apply bind_Err in E as [E|([] & _ & E)]; [|done].
    unfold reject in E. destruct (bool_decide _) eqn:Eb; simplify_eq. split; [|done].
    guards. destruct Eb as [g Hg]. apply by_key_Some in Hr as [Hin Hrid].
    apply by_key_Some in Hg as [Hg Eg]. apply (ok_reviewed d Hok r Hin). exists g. split; congruence.
Qed.

(** [updateStatus] on a terminal status ends the session's hold on the world: no workspace
    lease of the session is left, [onTerminal] is called once with it, and the session is archived
    with the current time as terminal time, even when a terminal time was already stored.  On any
    other status leases and notifications are untouched.  Other sessions never change. *)
Theorem updateStatus_effect now k st d :
  let d' := updateStatus now k st d in
  (∀ k', by_key id k' (sessions d') =
     (λ s, if decide (k' = k) then set_status now st s else s) <$> by_key id k' (sessions d))
  ∧ (∀ s, by_key id k (sessions d') = Some s → status s = st ∧ updatedAt s = now
       ∧ (isTerminalStatus st = true → terminalAt s = Some now ∧ runtimeState s = rt_archived))
  ∧ (if isTerminalStatus st
     then no_lease k (leases d') ∧ terminals d' = terminals d ++ [k]
     else leases d' = leases d ∧ terminals d' = terminals d)
  ∧ submissions d' = submissions d ∧ feedback d' = feedback d.
Proof.
  cbv zeta.
  assert (Hrow : ∀ k', by_key id k' (sessions (updateStatus now k st d)) =
     (λ s, if decide (k' = k) then set_status now st s else s) <$> by_key id k' (sessions d)).
  { intros k'. rewrite updateStatus_sessions, by_key_map by (intros s; by destruct (has_id k s)).
    destruct (by_key id k' (sessions d)) as [s|] eqn:Es; [|done]. cbn.
    apply by_key_Some in Es as [_ <-]. unfold has_id. f_equal.
    case_bool_decide; by case_decide. }
  split; [exact Hrow|]. split.
  { intros s Hs. rewrite Hrow in Hs.
    destruct (by_key id k (sessions d)) as [s0|]; [|done]. cbn in Hs.
    rewrite decide_True in Hs by done. injection Hs as <-. cbn.
    split_and!; try done. unfold stateAfterUpdate. by intros ->. }
  unfold updateStatus. destruct (isTerminalStatus st); [|done].
  split_and!; try done. apply release_no_lease.
Qed.

(** ** Polling for feedback *)

Lemma newer_total a b : newer a b = true ∨ newer b a = true.
Proof.
  destruct a as [fa sa], b as [fb sb]. unfold newer. destruct (js_ltb (fb_id fa) (fb_id fb)) eqn:E.
  - rewrite (js_ltb_asym _ _ E). cbn. guards. lia.
  - cbn. guards. lia.
Qed.

Lemma newer_trans a b c : newer a b = true → newer b c = true → newer a c = true.
Proof.
  destruct a as [fa sa], b as [fb sb], c as [fc sc]. unfold newer.
  pose proof (js_ltb_cotrans (fb_id fc) (fb_id fb) (fb_id fa)) as Ht.
  rewrite !orb_true_iff, !andb_true_iff, !orb_true_iff, !andb_true_iff, !negb_true_iff,
    !Z.ltb_lt, !Z.eqb_eq. intros H1 H2.
  destruct H1 as [?|[? [?|[? ?]]]], H2 as [?|[? [?|[? ?]]]];
    try (left; lia); right; (split; [lia|]); try (left; lia); right; (split; [lia|]); auto.
Qed.

(** Polling with a consumed feedback as anchor returns only news.  For an anchor of the session,
    the result is undefined exactly when no later submission of the session has feedback, and
    otherwise it is feedback of the session, of a later submission than the anchor's, than which no
    feedback of the session belongs to a later submission. *)
Theorem feedback_after_anchor k anchor s0 d :
  db_ok d → (anchor, s0) ∈ joined d → fb_workSessionId anchor = k →
  nonempty (fb_id anchor) = true →
  match getLatestFeedbackAfter k (Some (fb_id anchor)) d with
  | None => ∀ f s, (f, s) ∈ joined d → fb_workSessionId f = k →
              (submissionNumber s <= submissionNumber s0)%Z
  | Some f => ∃ s, (f, s) ∈ joined d ∧ fb_workSessionId f = k
              ∧ (submissionNumber s0 < submissionNumber s)%Z
              ∧ ∀ f' s', (f', s') ∈ joined d → fb_workSessionId f' = k →
                  (submissionNumber s' <= submissionNumber s)%Z
  end.
Proof.
  intros Hok Hj Hk Hne. unfold getLatestFeedbackAfter.
  destruct (fb_id anchor) as [|c a] eqn:Ea; [done|].
  destruct (get_where _ _) as [[g sg]|] eqn:Eg.
  2:{ rewrite get_where_None in Eg. specialize (Eg _ Hj). cbn in Eg. by guards. }
  apply get_where_Some in Eg as [Hg Hgid]. cbn in Hgid. guards.
  apply joined_elem in Hg as [Hg Hsg]. apply joined_elem in Hj as [Hj Hs0].
  assert (g = anchor) as -> by (eapply (keyed_inj fb_id); [apply Hok|done..|congruence]).
  rewrite Hs0 in Hsg. injection Hsg as <-.
  rewrite (proj2 (js_eqb_eq _ _)) by done. cbn [negb].
  set (q := select_where _ _). destruct (first_by newer q) as [[f s]|] eqn:E; cbn.
  - apply first_by_elem in E as Hin. apply elem_of_Lfilter in Hin as [Hin Hp]. cbn in Hp. guards.
    exists s. split_and!; try done. intros f' s' Hf' Hk'.
    destruct (Z.ltb_spec (submissionNumber s0) (submissionNumber s')) as [Hlt|]; [|lia].
    assert (Hq : (f', s') ∈ q).
    { apply elem_of_Lfilter. split; [done|]. cbn. guards. done. }
    pose proof (first_by_least newer q (f, s) newer_total newer_trans E _ Hq) as Hn.
    unfold newer in Hn. guards. lia.
  - apply first_by_None in E. intros f s Hf Hfk.
    destruct (Z.ltb_spec (submissionNumber s0) (submissionNumber s)) as [Hlt|]; [|done].
    assert (Hq : (f, s) ∈ q) by (apply elem_of_Lfilter; split; [done|]; cbn; by guards).
    rewrite E in Hq. by apply not_elem_of_nil in Hq.
Qed.

(** ** A concrete history: a session is created, submitted, sent back and resubmitted *)

Definition result_db {A} (r : res WsError (A * wsdb)) : wsdb :=
  match r with Ok (_, d) => d | Err _ => empty_db end.

(** A stand-in for the digest. *)
Definition ex_sha (s : jsstr) : jsstr := "sha:" +s s.

Definition ex_db0 : wsdb := mkDb [] [] [] [] [] [mkWorkspace "ws" "active" None] [].
Definition ex_create : CreateSessionInput := mkCreate "ws" "agent" None None None None.
Definition ex_db1 : wsdb := result_db (create 1 "s" ex_create ex_db0).

Definition ex_submit : SubmitInput :=
  mkSubmit "wsess_s" (Some (js "+a")) None (Some (js " c0ffee ")) None None None None
    (Some [[(js "path", JStr "a"); (js "type", JStr "new"); (js "additions", JNum 1);
            (js "removals", JNum 0)]])
    (Some (mkCoverage [js "dist/x"] git [js "ignored"])).
Definition ex_db2 : wsdb := result_db (submitForReview ex_sha 2 "1" ex_submit ex_db1).

Definition ex_verdict (sub : jsstr) (v : SubmissionVerdict) : FeedbackInput :=
  mkFeedbackInput "wsess_s" sub v None None None None None None.
Definition ex_db3 : wsdb :=
  result_db (submitFeedback 3 "f1" (ex_verdict "wssub_1" verdict_changes_requested) ex_db2).
Definition ex_db4 : wsdb := result_db (submitForReview ex_sha 4 "2" ex_submit ex_db3).
Definition ex_db5 : wsdb := result_db (submitFeedback 5 "f2" (ex_verdict "wssub_2" approve) ex_db4).

Lemma ex_history_3 : steps (step ex_sha) empty_db ex_db3.
Proof.
  apply (steps_cons _ _ ex_db0); [apply (step_other _ [] [] [mkWorkspace "ws" "active" None])|].
  apply (steps_cons _ _ ex_db1); [by eapply (step_create _ 1 "s" ex_create)|].
  apply (steps_cons _ _ ex_db2); [by eapply (step_submit _ 2 "1" ex_submit)|].
  apply steps_one. by eapply (step_feedback _ 3 "f1" (ex_verdict "wssub_1" verdict_changes_requested)).
Qed.

Lemma ex_history_35 : steps (step ex_sha) ex_db3 ex_db5.
Proof.
  apply (steps_cons _ _ ex_db4); [by eapply (step_submit _ 4 "2" ex_submit)|].
  apply steps_one. by eapply (step_feedback _ 5 "f2" (ex_verdict "wssub_2" approve)).
Qed.

Lemma empty_ok : db_ok empty_db.
Proof. constructor; cbn; try (by intros ? ?%not_elem_of_nil); constructor. Qed.

Lemma ex_db3_ok : db_ok ex_db3.
Proof. apply (ws_steps_ok _ _ _ ex_history_3 empty_ok). Qed.
Lemma ex_db5_ok : db_ok ex_db5.
Proof. apply (ws_steps_ok _ _ _ ex_history_35 ex_db3_ok). Qed.

Lemma submission_history_invariant_witness :
  db_ok ex_db5 ∧ numbers_of "wsess_s" (submissions ex_db5) = [1; 2]%Z.
Proof.
  split; [|by vm_compute]. apply (submission_history_invariant ex_sha).
  apply (steps_trans _ _ ex_db3); [apply ex_history_3|apply ex_history_35].
Defined.

Lemma consumption_monotone_witness : advances ex_db3 ex_db5.
Proof. apply (consumption_monotone ex_sha); [apply ex_db3_ok|apply ex_history_35]. Defined.

Lemma submitForReview_outcome_witness :
  ∃ v d', submitForReview ex_sha 4 "2" ex_submit ex_db3 = Ok (v, d') ∧ v_submissionNumber v = 2%Z
    ∧ v_snapshot v = Some (git, js "c0ffee").
Proof.
  pose proof (submitForReview_outcome ex_sha 4 "2" ex_submit ex_db3 ex_db3_ok) as H.
  destruct (submitForReview ex_sha 4 "2" ex_submit ex_db3) as [[v d']|e] eqn:E.
  - exists v, d'. destruct H as (s & Hs & _ & Hsnap & Hn & _). rewrite Hn.
    split; [done|]. vm_compute in Hs. injection Hs as <-. split; [done|].
    assert (Hc : Ok (E := WsError) (Some (git, js "c0ffee")) = Ok (v_snapshot v))
      by (rewrite <- Hsnap; by vm_compute). congruence.
  - vm_compute in E. discriminate E.
Defined.

Definition ex_view : WorkSessionSubmission :=
  submissionView ex_sha 4 "2" ex_submit (Some (git, js "c0ffee")) 2 2.

Lemma submission_read_back_witness :
  getLatestSubmission "wsess_s" ex_db4 = Ok (Some ex_view).
Proof.
  apply (submission_read_back ex_sha 4 "2" ex_submit ex_db3 ex_view ex_db4 ex_db3_ok).
  - by vm_compute.
  - intros fs [= <-]. by repeat constructor.
Defined.

Lemma submitFeedback_closes_witness :
  is_ok (submitFeedback 9 "f9" (ex_verdict "wssub_1" approve) ex_db3) = false
  ∧ no_lease "wsess_s" (leases ex_db5).
Proof.
  split.
  - pose proof (submitFeedback_closes 9 "f9" (ex_verdict "wssub_1" approve) ex_db3 ex_db3_ok) as H.
    destruct (submitFeedback _ _ _ _) as [[f d']|]; [|done].
    destruct H as [(r & Hr & Hst & _) _]. vm_compute in Hr. injection Hr as <-. done.
  - intros l Hl. by vm_compute in Hl; apply not_elem_of_nil in Hl.
Defined.

Lemma feedback_after_anchor_witness :
  ∃ f, getLatestFeedbackAfter "wsess_s" (Some (js "wsfb_f1")) ex_db5 = Some f ∧ fb_verdict f = approve.
Proof.
  destruct (joined ex_db5) as [|[anchor s0] rest] eqn:Ej; [vm_compute in Ej; discriminate Ej|].
  assert (Hj : (anchor, s0) ∈ joined ex_db5) by (rewrite Ej; left).
  vm_compute in Ej. injection Ej as <- <- _.
  pose proof (feedback_after_anchor "wsess_s" _ _ ex_db5 ex_db5_ok Hj eq_refl eq_refl) as H.
  cbn [fb_id] in H. change (getLatestFeedbackAfter _ _ ex_db5)
    with (getLatestFeedbackAfter "wsess_s" (Some (js "wsfb_f1")) ex_db5) in H.
  destruct (getLatestFeedbackAfter _ _ _) as [f|] eqn:E; vm_compute in E; [|discriminate E].
  injection E as <-. by eexists.
Defined.

End WorkSessions.
