(* ===== verification/ActionGuard.v ===== *)
(** * The work-session action guard ([src/src/work-session-action-guard.ts])

    Every tool call of a worker is authorized against the status of its work session, the latest
    reviewer feedback and the scheduled policy of its dispatch.  The table from tools to action
    classes is a JavaScript object literal: looking up a name that [Object.prototype] defines finds
    the inherited value, which the model keeps. *)

From S2P Require Import Prelude JsString Json Sql SessionState WorkSessions.

Module ActionGuard.
Export WorkSessions.

Inductive ActionClass :=
| read_files | edit_files | run_commands | resubmit | await_feedback | cancel.

#[export] Instance ActionClass_eq_dec : EqDecision ActionClass.
Proof. solve_decision. Defined.

Definition class_name (c : ActionClass) : jsstr :=
  match c with
  | read_files => "read_files" | edit_files => "edit_files" | run_commands => "run_commands"
  | resubmit => "resubmit" | await_feedback => "await_feedback" | cancel => "cancel"
  end.

(** ** The tool table *)

Definition tool_table : list (jsstr * ActionClass) :=
  [ (js "read", read_files); (js "ls", read_files); (js "grep", read_files);
    (js "glob", read_files); (js "git_status", read_files); (js "git_log", read_files);
    (js "git_diff", read_files); (js "git_show", read_files);
    (js "write", edit_files); (js "edit", edit_files); (js "apply_patch", edit_files);
    (js "kontrol-read", read_files); (js "kontrol-grep", read_files);
    (js "kontrol-glob", read_files); (js "kontrol-write", edit_files);
    (js "kontrol-edit", edit_files);
    (js "bash", run_commands); (js "kontrol-shell", run_commands);
    (js "exec_command", run_commands);
    (js "submit_for_review", resubmit); (js "kontrol-submit-work-to-webui", resubmit);
    (js "await_review_feedback", await_feedback); (js "check_review_status", await_feedback);
    (js "get_work_session", await_feedback); (js "get_review_submission", read_files);
    (js "await_work_session_events", await_feedback);
    (js "cancel", cancel); (js "cancel_work_session", cancel) ].

#[global] Arguments tool_table : simpl never.

(** What [TOOL_TO_ACTION_CLASS[tool]] evaluates to. *)
Inductive Lookup := Undefined | Own (c : ActionClass) | Inherited (text : jsstr).

#[export] Instance Lookup_eq_dec : EqDecision Lookup.
Proof. solve_decision. Defined.

Definition TOOL_TO_ACTION_CLASS (tool : jsstr) : Lookup :=
  match List.find (λ kv, kv.1 =s tool) tool_table with
  | Some (_, c) => Own c
  | None => if existsb (js_eqb tool) prototype_names then Inherited (inherited_text tool)
            else Undefined
  end.

Definition ALWAYS_ALLOWED_ACTION_CLASSES (c : ActionClass) : bool :=
  match c with await_feedback | cancel => true | _ => false end.

(** [TERMINAL_STATUSES.has(status)] *)
Definition TERMINAL_STATUSES (s : WorkSessionStatus) : bool :=
  match s with approved | rejected | cancelled | failed | failed_protocol => true | _ => false end.

Definition under_review (s : WorkSessionStatus) : bool :=
  match s with awaiting_review | in_review | review_in_progress => true | _ => false end.

Definition after_verdict (s : WorkSessionStatus) : bool :=
  match s with changes_requested | resuming => true | _ => false end.

Definition status_name (s : WorkSessionStatus) : jsstr :=
  match s with
  | in_progress => "in_progress" | cancelling => "cancelling" | drafting => "drafting"
  | awaiting_review => "awaiting_review" | in_review => "in_review"
  | review_in_progress => "review_in_progress" | resuming => "resuming"
  | changes_requested => "changes_requested" | approved => "approved" | rejected => "rejected"
  | stale => "stale" | cancelled => "cancelled" | failed => "failed"
  | failed_protocol => "failed_protocol"
  end.

(** ** Scheduled policies *)

Record ScheduledExecutionPolicy := mkPolicy {
  executionMode : option jsstr;
  workspaceAccess : option jsstr;
  mutate : option bool;
  allowedTools : option (list jsstr);
  allowedOutputs : option (list (list (jsstr * json)))
}.

Inductive Decision_ := Allowed | Denied (reason : jsstr).

Definition is_allowed (d : Decision_) : bool := match d with Allowed => true | Denied _ => false end.

Record ActionInput := mkAction {
  workSessionId : jsstr;
  tool : jsstr;
  path : option jsstr;
  scheduledExecutionPolicy : option ScheduledExecutionPolicy
}.

Definition quoted (s : jsstr) : jsstr := [DQUOTE] +s s +s [DQUOTE].

Definition is_read_only (p : ScheduledExecutionPolicy) : bool :=
  bool_decide (workspaceAccess p = Some (js "read_only")) && bool_decide (mutate p = Some false).

Definition scheduledReadOnlyDecision (policy : option ScheduledExecutionPolicy) (t : jsstr)
  : Decision_ :=
  match policy with
  | None => Allowed
  | Some p =>
      if negb (is_read_only p) then Allowed
      else if bool_decide (TOOL_TO_ACTION_CLASS t = Own read_files) then Allowed
      else if existsb (js_eqb t) (default [] (allowedTools p)) then Allowed
      else Denied ("Scheduled read-only audit policy denies tool " +s quoted t +s ".")
  end.

Definition output_path_is (requested : jsstr) (o : list (jsstr * json)) : bool :=
  bool_decide (as_string (jfield "path" o) = Some requested).

Definition is_bounded_write (p : ScheduledExecutionPolicy) : bool :=
  bool_decide (executionMode p = Some (js "bounded_file_write")).

Definition scheduledBoundedWriteDecision (policy : option ScheduledExecutionPolicy) (t : jsstr)
  (requested : option jsstr) : Decision_ :=
  match policy with
  | None => Allowed
  | Some p =>
      if negb (is_bounded_write p) then Allowed
      else if negb (bool_decide (workspaceAccess p = Some (js "staged_write")))
              || negb (bool_decide (mutate p = Some true))
      then Denied "Scheduled bounded-write policy is malformed."
      else if t =s "staged_file_write" then
        if match requested with
           | Some r => existsb (output_path_is r) (default [] (allowedOutputs p))
           | None => false
           end
        then Allowed
        else Denied ("Scheduled bounded-write policy denies "
                     +s quoted (default (js "unknown path") requested) +s ".")
      else if bool_decide (TOOL_TO_ACTION_CLASS t = Own read_files) then Allowed
      else if (t =s "submit_for_review") || (t =s "await_review_feedback")
              || (t =s "check_review_status") then Allowed
      else Denied ("Scheduled bounded-write policy denies tool " +s quoted t +s ".")
  end.

(** ** The guard *)

(** What the guard needs of the session manager: [workSessions.get]. *)
Class SessionReader := session_of : jsstr → option WorkSession.

(** The decision once the session is known not to be cancelling and the scheduled policies pass. *)
Definition sessionDecision (session : WorkSession) (t : jsstr) : Decision_ :=
  let st := status (ws_row session) in
  let human := bool_decide (completionPolicy (ws_row session) = webui_approval_required) in
  let prefix := "Work session is " +s status_name st in
  match TOOL_TO_ACTION_CLASS t with
  | Undefined =>
      if human then Denied ("Tool " +s t +s " has no work-session action classification.")
      else Allowed
  | l =>
      let c := match l with Own c => Some c | _ => None end in
      let cname := match l with Own c => class_name c | Inherited s => s | Undefined => [] end in
      if match c with Some c => ALWAYS_ALLOWED_ACTION_CLASSES c | None => false end then Allowed
      else if TERMINAL_STATUSES st then
        Denied (prefix +s "; worker actions are no longer permitted.")
      else if under_review st then
        if bool_decide (c = Some read_files) then Allowed
        else Denied (prefix +s "; worker edits and commands are blocked until reviewer feedback arrives.")
      else if negb (after_verdict st) then Allowed
      else
        match latestFeedback session with
        | None =>
            if human
            then Denied (prefix +s " but has no reviewer feedback to authorize actions.")
            else Allowed
        | Some fb =>
            let allowed := default [] (fb_allowedNextActions fb) in
            match allowed with
            | [] =>
                if bool_decide (c = Some edit_files) || bool_decide (c = Some run_commands)
                then Denied ("Work session is in changes_requested and no allowedNextActions permit "
                             +s quoted cname +s ".")
                else Allowed
            | _ =>
                if match c with Some c => existsb (js_eqb (class_name c)) allowed | None => false end
                then Allowed
                else Denied ("Action class " +s quoted cname
                       +s " is not permitted by the reviewer's allowedNextActions: "
                       +s join ", " allowed +s ".")
            end
        end
  end.

Definition authorizeWorkSessionAction `{SessionReader} (i : ActionInput) : Decision_ :=
  match session_of (workSessionId i) with
  | None => Denied "unknown work session"
  | Some session =>
      if bool_decide (status (ws_row session) = cancelling) then
        match TOOL_TO_ACTION_CLASS (tool i) with
        | Own await_feedback | Own cancel => Allowed
        | _ => Denied "Work session is cancelling; worker actions are fenced until shutdown is confirmed."
        end
      else
        let d1 := scheduledReadOnlyDecision (scheduledExecutionPolicy i) (tool i) in
        if negb (is_allowed d1) then d1
        else
          let d2 := scheduledBoundedWriteDecision (scheduledExecutionPolicy i) (tool i) (path i) in
          if negb (is_allowed d2) then d2
          else sessionDecision session (tool i)
  end.

(** ** What the guard permits *)

(** The rule the guard enforces for a classified tool, session by session. *)
Definition permitted (session : WorkSession) (c : ActionClass) : Prop :=
  ALWAYS_ALLOWED_ACTION_CLASSES c = true
  ∨ match status (ws_row session) with
    | approved | rejected | cancelled | failed | failed_protocol => False
    | awaiting_review | in_review | review_in_progress => c = read_files
    | changes_requested | resuming =>
        match latestFeedback session with
        | None => completionPolicy (ws_row session) = agent_completion
        | Some fb =>
            match default [] (fb_allowedNextActions fb) with
            | [] => c ≠ edit_files ∧ c ≠ run_commands
            | allowed => class_name c ∈ allowed
            end
        end
    | _ => True
    end.

Lemma is_allowed_if (b : bool) m : is_allowed (if b then Allowed else Denied m) = b.
Proof. by destruct b. Qed.

Lemma is_allowed_unless (b : bool) m : is_allowed (if b then Denied m else Allowed) = negb b.
Proof. by destruct b. Qed.

Lemma false_or P : (false = true ∨ P) ↔ P.
Proof. naive_solver. Qed.

Lemma listed_class c l : existsb (js_eqb (class_name c)) l = true ↔ class_name c ∈ l.
Proof.
  rewrite existsb_exists. setoid_rewrite <- list_elem_of_In. setoid_rewrite js_eqb_eq. naive_solver.
Qed.

(** The rule after a verdict. *)
Lemma verdict_rule session c m1 m2 (m3 : list jsstr → jsstr) :
  is_allowed
    match latestFeedback session with
    | None => if bool_decide (completionPolicy (ws_row session) = webui_approval_required)
              then Denied m1 else Allowed
    | Some fb =>
        match default [] (fb_allowedNextActions fb) with
        | [] => if bool_decide (Some c = Some edit_files) || bool_decide (Some c = Some run_commands)
                then Denied m2 else Allowed
        | _ => if existsb (js_eqb (class_name c)) (default [] (fb_allowedNextActions fb))
               then Allowed else Denied (m3 (default [] (fb_allowedNextActions fb)))
        end
    end = true ↔
  match latestFeedback session with
  | None => completionPolicy (ws_row session) = agent_completion
  | Some fb =>
      match default [] (fb_allowedNextActions fb) with
      | [] => c ≠ edit_files ∧ c ≠ run_commands
      | allowed => class_name c ∈ allowed
      end
  end.
Proof.
  destruct (latestFeedback session) as [fb|].
  - destruct (default [] (fb_allowedNextActions fb)) as [|a l].
    + rewrite is_allowed_unless. guards. naive_solver.
    + rewrite is_allowed_if. apply listed_class.
  - rewrite is_allowed_unless. guards. destruct (completionPolicy _); naive_solver.
Qed.

Lemma permitted_spec session t c :
  TOOL_TO_ACTION_CLASS t = Own c → is_allowed (sessionDecision session t) = true ↔ permitted session c.
Proof.
  intros Hc. unfold sessionDecision, permitted. rewrite Hc. cbv beta zeta iota.
  destruct (ALWAYS_ALLOWED_ACTION_CLASSES c) eqn:Ea; [by split; [left|]|]. rewrite false_or.
  destruct (status (ws_row session)) eqn:Es; cbn [TERMINAL_STATUSES under_review after_verdict negb];
    rewrite ?is_allowed_if; try done.
  all: try (rewrite bool_decide_eq_true; split; [by intros [= ->]|by intros ->]).
  all: apply (verdict_rule session c _ _ (λ allowed,
    "Action class " +s quoted (class_name c)
    +s " is not permitted by the reviewer's allowedNextActions: " +s join ", " allowed +s ".")).
Qed.

Section Guard.
Context `{SessionReader}.

(** For a classified tool under no scheduled policy the guard decides exactly by its rule.  An
    unknown session is refused; while a session is cancelling only awaiting and cancelling pass;
    otherwise these always pass, nothing else passes in a terminal session, only reading passes
    during review, and after a verdict what passes is what the reviewer listed, or anything but
    edits and commands when the reviewer listed nothing. *)
Theorem guard_decides_by_rule i c :
  TOOL_TO_ACTION_CLASS (tool i) = Own c → scheduledExecutionPolicy i = None →
  is_allowed (authorizeWorkSessionAction i) = true ↔
    ∃ session, session_of (workSessionId i) = Some session
      ∧ if bool_decide (status (ws_row session) = cancelling)
        then c = await_feedback ∨ c = cancel else permitted session c.
Proof.
  intros Hc Hp. unfold authorizeWorkSessionAction. rewrite Hp.
  destruct (session_of (workSessionId i)) as [session|]; [|split; [done|by intros (? & ? & _)]].
  transitivity (if bool_decide (status (ws_row session) = cancelling)
                then c = await_feedback ∨ c = cancel else permitted session c).
  - case_bool_decide as Es; cbn.
    + rewrite Hc. destruct c; cbn; intuition congruence.
    + by apply permitted_spec.
  - split; [by exists session|]. by intros (? & [= <-] & ?).
Qed.

(** The reads and writes a scheduled policy leaves to a worker. *)
Definition within_read_only (p : ScheduledExecutionPolicy) (t : jsstr) : Prop :=
  TOOL_TO_ACTION_CLASS t = Own read_files ∨ t ∈ default [] (allowedTools p).

Definition within_bounded_write (p : ScheduledExecutionPolicy) (t : jsstr) (requested : option jsstr)
  : Prop :=
  workspaceAccess p = Some (js "staged_write") ∧ mutate p = Some true
  ∧ ((t = js "staged_file_write"
       ∧ ∃ r o, requested = Some r ∧ o ∈ default [] (allowedOutputs p)
                ∧ as_string (jfield "path" o) = Some r)
     ∨ TOOL_TO_ACTION_CLASS t = Own read_files
     ∨ t ∈ [js "submit_for_review"; js "await_review_feedback"; js "check_review_status"]).

(** While a session is cancelling, only waiting and cancelling are left. *)
Definition leaving (session : WorkSession) (t : jsstr) : Prop :=
  status (ws_row session) = cancelling
  ∧ (TOOL_TO_ACTION_CLASS t = Own await_feedback ∨ TOOL_TO_ACTION_CLASS t = Own cancel).

Lemma read_only_sound p t :
  is_read_only p = true → is_allowed (scheduledReadOnlyDecision (Some p) t) = true →
  within_read_only p t.
Proof.
  intros Hr. unfold scheduledReadOnlyDecision. rewrite Hr. cbn [negb].
  case_bool_decide as Ec; [by left|]. destruct (existsb _ _) eqn:E; [|done].
  apply existsb_exists in E as (x & Hx%list_elem_of_In & E). guards. subst x. by right.
Qed.

Lemma bounded_write_sound p t requested :
  is_bounded_write p = true →
  is_allowed (scheduledBoundedWriteDecision (Some p) t requested) = true →
  within_bounded_write p t requested.
Proof.
  intros Hb. unfold scheduledBoundedWriteDecision. rewrite Hb. cbn [negb].
  destruct (negb _ || negb _) eqn:E; [done|]. guards. intros Ha. split_and!; [done..|].
  destruct (t =s "staged_file_write") eqn:Es; guards.
  - left. split; [done|]. destruct requested as [r|]; [|done].
    destruct (existsb _ _) eqn:Eo; [|done].
    apply existsb_exists in Eo as (o & Ho%list_elem_of_In & Eo). unfold output_path_is in Eo. guards.
    eauto.
  - right. case_bool_decide as Ec; [by left|]. right.
    destruct (_ || _) eqn:Et; [|done]. guards. set_solver.
Qed.

(** A scheduled policy confines its worker whatever the session and its feedback say: under a
    read-only policy only reading tools and the tools the policy names pass, under a bounded-write
    policy only staged writes to a declared output, reading, and the three review calls pass, and a
    malformed bounded-write policy passes nothing.  The one exception is a cancelling session, in
    which waiting and cancelling pass. *)
Theorem scheduled_policy_confines i p :
  scheduledExecutionPolicy i = Some p →
  is_allowed (authorizeWorkSessionAction i) = true →
  ∃ session, session_of (workSessionId i) = Some session
    ∧ (leaving session (tool i)
       ∨ ((is_read_only p = true → within_read_only p (tool i))
          ∧ (is_bounded_write p = true → within_bounded_write p (tool i) (path i)))).
Proof.
  intros Hp. unfold authorizeWorkSessionAction. rewrite Hp.
  destruct (session_of (workSessionId i)) as [session|]; [|done].
  intros Ha. exists session. split; [done|]. case_bool_decide as Es.
  - left. split; [done|]. destruct (TOOL_TO_ACTION_CLASS (tool i)) as [|[]|]; naive_solver.
  - right. destruct (is_allowed (scheduledReadOnlyDecision _ _)) eqn:E1; cbn [negb] in Ha;
      [|congruence].
    destruct (is_allowed (scheduledBoundedWriteDecision _ _ _)) eqn:E2; cbn [negb] in Ha;
      [|congruence].
    split; intros Hr; [by apply read_only_sound|by apply bounded_write_sound].
Qed.

(** A tool name that [Object.prototype] defines passes as classified: in a session that is in
    progress under human approval the tool "constructor" is allowed, although a tool without
    classification is refused there. *)
Theorem inherited_name_passes i session :
  session_of (workSessionId i) = Some session → status (ws_row session) = in_progress →
  completionPolicy (ws_row session) = webui_approval_required → scheduledExecutionPolicy i = None →
  (tool i = "constructor" → authorizeWorkSessionAction i = Allowed)
  ∧ (TOOL_TO_ACTION_CLASS (tool i) = Undefined → is_allowed (authorizeWorkSessionAction i) = false).
Proof.
  intros Hs Hst Hpol Hp. unfold authorizeWorkSessionAction. rewrite Hs, Hst, Hp. cbn.
  split; intros Ht.
  - unfold sessionDecision. rewrite Ht.
    replace (TOOL_TO_ACTION_CLASS "constructor") with (Inherited (inherited_text "constructor"))
      by by vm_compute. by rewrite Hst.
  - unfold sessionDecision. by rewrite Ht, Hpol.
Qed.

(** A read-only policy that names no tools refuses even the classes the guard declares always
    available: a worker in progress under it may neither await feedback nor cancel. *)
Theorem read_only_policy_refuses_always_allowed i p session :
  session_of (workSessionId i) = Some session → status (ws_row session) ≠ cancelling →
  scheduledExecutionPolicy i = Some p → is_read_only p = true → default [] (allowedTools p) = [] →
  TOOL_TO_ACTION_CLASS (tool i) ≠ Own read_files →
  is_allowed (authorizeWorkSessionAction i) = false.
Proof.
  intros Hs Hst Hp Hr Hn Ht. destruct (is_allowed _) eqn:Ha; [|done].
  unfold authorizeWorkSessionAction in Ha. rewrite Hs, Hp, bool_decide_eq_false_2 in Ha by done.
  destruct (is_allowed (scheduledReadOnlyDecision _ _)) eqn:E; cbn [negb] in Ha; [|congruence].
  apply read_only_sound in E as [E|E]; [done| |done]. rewrite Hn in E. by apply not_elem_of_nil in E.
Qed.
End Guard.

(** ** Concrete calls *)

Definition ex_row (pol : CompletionPolicy) (st : WorkSessionStatus) : WorkSession :=
  {| ws_row := set_status 1 st (newSession 0 "s" None (mkCreate "ws" "agent" None
                 (Some pol) None None));
     latestSubmission := None; latestFeedback := None; lifecycle := lc_pending;
     ws_runtimeState := rt_pending |}.

Definition ex_reader (st : WorkSessionStatus) : SessionReader :=
  λ _, Some (ex_row webui_approval_required st).

Lemma guard_decides_by_rule_witness :
  is_allowed (authorizeWorkSessionAction (H := ex_reader awaiting_review)
                (mkAction "wsess_s" "read" None None)) = true.
Proof.
  apply (guard_decides_by_rule (H := ex_reader awaiting_review) _ read_files); [by vm_compute|done|].
  exists (ex_row webui_approval_required awaiting_review). split; [done|]. by right.
Defined.

Definition ex_policy : ScheduledExecutionPolicy :=
  mkPolicy (Some (js "bounded_file_write")) (Some (js "staged_write")) (Some true) None
    (Some [[(js "path", JStr "out.txt")]]).

Lemma scheduled_policy_confines_witness :
  within_bounded_write ex_policy "staged_file_write" (Some (js "out.txt")).
Proof.
  destruct (scheduled_policy_confines (H := λ _, Some (ex_row agent_completion in_progress))
    (mkAction "wsess_s" "staged_file_write" (Some (js "out.txt")) (Some ex_policy)) ex_policy)
    as (s & Hs & [[Hl _]|[_ Hb]]); [done|by vm_compute|..].
  - injection Hs as <-. discriminate Hl.
  - by apply Hb.
Defined.

Lemma inherited_name_passes_witness :
  authorizeWorkSessionAction (H := ex_reader in_progress) (mkAction "wsess_s" "constructor" None None)
    = Allowed.
Proof. by apply (inherited_name_passes (H := ex_reader in_progress) _ (ex_row webui_approval_required in_progress)). Defined.

Lemma read_only_policy_refuses_always_allowed_witness :
  is_allowed (authorizeWorkSessionAction (H := ex_reader in_progress)
    (mkAction "wsess_s" "await_review_feedback" None
       (Some (mkPolicy None (Some (js "read_only")) (Some false) None None)))) = false.
Proof.
  by eapply (read_only_policy_refuses_always_allowed (H := ex_reader in_progress) _ _ (ex_row webui_approval_required in_progress));
    try by vm_compute.
Defined.

End ActionGuard.
