(* ===== verification/ScheduledLifecycle.v ===== *)
(** * The lifecycle of scheduled jobs ([src/src/scheduling/scheduled-job-lifecycle.ts])

    Events of the work session of a dispatched job project onto the job: which status it takes
    next and what is known of its worker.  The projection trusts an event only when it carries the
    identity of the current attempt, lets a requested cancellation fence later completions, and
    completes a job only on the reviewer's approval.  The file also models the shared outcome of
    [work-session-lifecycle.ts] and the scheduler's bounded counters. *)

From S2P Require Import Prelude JsString Json SessionState.

Module ScheduledLifecycle.
Import SessionState.

Inductive ScheduledJobStatus :=
| job_pending | job_due | job_dispatching | job_running | job_uncertain_dispatch
| job_operator_intervention | job_reconciling | job_awaiting_approval | job_completed
| job_blocked | job_failed | job_cancellation_requested | job_cancelled.

#[export] Instance ScheduledJobStatus_eq_dec : EqDecision ScheduledJobStatus.
Proof. solve_decision. Defined.

(** The event types the lifecycle names; every other type is [other_event]. *)
Inductive EventType :=
| run_started | run_completed | run_approved | run_rejected | run_cancelled | run_failed
| run_failed_protocol | turn_completed | attempt_failed | attempt_exited | review_submitted
| other_event.

#[export] Instance EventType_eq_dec : EqDecision EventType.
Proof. solve_decision. Defined.

Definition event_names : list (jsstr * EventType) :=
  [ (js "agent.run.started", run_started); (js "agent.run.completed", run_completed);
    (js "agent.run.approved", run_approved); (js "agent.run.rejected", run_rejected);
    (js "agent.run.cancelled", run_cancelled); (js "agent.run.failed", run_failed);
    (js "agent.run.failed_protocol", run_failed_protocol);
    (js "worker.turn.completed", turn_completed); (js "worker.attempt.failed", attempt_failed);
    (js "worker.attempt.exited", attempt_exited); (js "review.submitted", review_submitted) ].

Definition event_type (name : jsstr) : EventType :=
  match List.find (λ kv, kv.1 =s name) event_names with
  | Some (_, t) => t
  | None => other_event
  end.

(** ** Work-session outcomes ([work-session-lifecycle.ts]) *)

Inductive OutcomeStatus :=
| out_completed | out_approved | out_rejected | out_cancelled | out_failed | out_failed_protocol.

Record WorkSessionTerminalOutcome := mkOutcome { successful : bool; outcome : OutcomeStatus }.

Definition workSessionTerminalOutcome (eventType : option jsstr) (policy : option CompletionPolicy)
  : option WorkSessionTerminalOutcome :=
  match eventType with
  | None | Some [] => None
  | Some name =>
      match event_type name with
      | run_completed =>
          if bool_decide (policy = Some webui_approval_required) then None
          else Some (mkOutcome true out_completed)
      | run_approved => Some (mkOutcome true out_approved)
      | run_rejected => Some (mkOutcome false out_rejected)
      | run_cancelled => Some (mkOutcome false out_cancelled)
      | run_failed_protocol => Some (mkOutcome false out_failed_protocol)
      | run_failed => Some (mkOutcome false out_failed)
      | _ => None
      end
  end.

(** ** The projection *)

Inductive FinalOutcome := fin_completed | fin_failed | fin_cancelled.
Inductive ExecutionOutcome := ex_completed | ex_failed | ex_failed_protocol | ex_cancelled.

(** An absent boolean property is [false]. *)
Record Projection := mkProjection {
  nextStatus : option ScheduledJobStatus;
  finalWorkerOutcome : option FinalOutcome;
  workerExecutionOutcome : option ExecutionOutcome;
  autonomousCompletion : bool;
  lastError : option jsstr;
  executionStarted : bool;
  executionPaused : bool;
  executionStopped : bool
}.

(** [{}] *)
Definition nothing : Projection := mkProjection None None None false None false false false.

Record LifecycleEvent := mkEvent {
  ev_type : jsstr;
  ev_createdAt : Z;
  ev_payload : list (jsstr * json)
}.

Record Cancellation := mkCancellation {
  requestedAt : option Z;
  previousStatus : option ScheduledJobStatus
}.

Record Attempt := mkAttempt {
  dispatchId : option jsstr;
  runId : option jsstr;
  attemptNumber : option Z;
  remoteRunId : option jsstr
}.

Definition ACTIVE_JOB_STATUSES (s : ScheduledJobStatus) : bool :=
  match s with
  | job_dispatching | job_running | job_uncertain_dispatch | job_awaiting_approval
  | job_cancellation_requested | job_operator_intervention => true
  | _ => false
  end.

Definition WORKER_STOPPED_EVENTS (t : EventType) : bool :=
  match t with
  | run_cancelled | run_completed | run_failed | run_failed_protocol
  | turn_completed | attempt_failed | attempt_exited => true
  | _ => false
  end.

Definition EXECUTION_STOPPED_EVENTS (t : EventType) : bool :=
  match t with
  | run_completed | run_approved | run_rejected | run_cancelled | run_failed
  | run_failed_protocol => true
  | _ => false
  end.

Definition ATTEMPT_BOUND_EVENTS (t : EventType) : bool := WORKER_STOPPED_EVENTS t.

(** [typeof payload.k === "string" ? payload.k : undefined] *)
Definition payload_string (k : jsstr) (e : LifecycleEvent) : option jsstr :=
  as_string (jfield k (ev_payload e)).

(** [typeof payload.k === "number" ? payload.k : undefined] *)
Definition payload_number (k : jsstr) (e : LifecycleEvent) : option json :=
  match jfield k (ev_payload e) with
  | Some (JNum z) => Some (JNum z)
  | Some (JFrac s) => Some (JFrac s)
  | _ => None
  end.

Definition number_is (n : Z) (v : option json) : bool :=
  match v with Some (JNum z) => (z =? n)%Z | _ => false end.

(** A truthy attempt number. *)
Definition truthy_number (n : option Z) : bool :=
  match n with Some z => negb (z =? 0)%Z | None => false end.

Definition identified (a : Attempt) : bool :=
  truthy (dispatchId a) || truthy (runId a) || truthy_number (attemptNumber a)
  || truthy (remoteRunId a).

(** A string identity: absent from the attempt, equal, or omitted by an event not bound to
    attempts. *)
Definition id_matches (bound : bool) (expected actual : option jsstr) : bool :=
  negb (truthy expected) || bool_decide (actual = expected) || (negb bound && negb (truthy actual)).

Definition number_matches (bound : bool) (expected : option Z) (actual : option json) : bool :=
  negb (truthy_number expected)
  || match expected with Some n => number_is n actual | None => false end
  || (negb bound && match actual with None => true | Some _ => false end).

Definition matchesCurrentAttempt (e : LifecycleEvent) (a : Attempt) : bool :=
  let bound := ATTEMPT_BOUND_EVENTS (event_type (ev_type e)) in
  identified a
  && (negb (truthy (runId a)) || bool_decide (payload_string "runId" e = runId a))
  && number_matches bound (attemptNumber a) (payload_number "attemptNumber" e)
  && id_matches bound (dispatchId a) (payload_string "dispatchId" e)
  && id_matches bound (remoteRunId a) (payload_string "remoteRunId" e).

Definition stops (s : option ScheduledJobStatus) (f : FinalOutcome) (x : option ExecutionOutcome)
  (err : option jsstr) : Projection :=
  mkProjection s (Some f) x false err false false true.

(** The cancellation confirmed by an event that stops the worker. *)
Definition confirmCancellation (e : LifecycleEvent) : Projection :=
  if negb (WORKER_STOPPED_EVENTS (event_type (ev_type e))) then nothing
  else stops (Some job_cancelled) fin_cancelled (Some ex_cancelled)
    (Some (if bool_decide (event_type (ev_type e) = run_cancelled)
           then js "Scheduled worker cancellation confirmed."
           else "Cancellation completed after worker shutdown was confirmed by "
                +s ev_type e +s ".")).

(** The projection of a job whose cancellation was not requested. *)
Definition projectActive (s : ScheduledJobStatus) (e : LifecycleEvent) : Projection :=
  let intervention := bool_decide (s = job_operator_intervention) in
  let running := bool_decide (s = job_running) in
  let awaiting := bool_decide (s = job_awaiting_approval) in
  let uncertain := bool_decide (s = job_uncertain_dispatch) in
  let dispatching := bool_decide (s = job_dispatching) in
  match event_type (ev_type e) with
  | review_submitted =>
      if running || intervention
      then mkProjection (Some job_awaiting_approval) None None false None false true false
      else nothing
  | run_started =>
      if dispatching then mkProjection (Some job_running) None None false None true false false
      else if running || awaiting || uncertain || intervention
      then mkProjection (if running then None else Some job_running) None None false None
             true false false
      else nothing
  | (run_completed | turn_completed | attempt_failed | attempt_exited) as t =>
      mkProjection None None
        (Some (if bool_decide (t = attempt_failed) || bool_decide (t = attempt_exited)
               then ex_failed else ex_completed))
        (bool_decide (t = turn_completed)
         && match jfield "autonomousCompletion" (ev_payload e) with
            | Some (JBool b) => b
            | _ => false
            end)
        None false true false
  | t =>
      match outcome <$> workSessionTerminalOutcome (Some (ev_type e)) (Some webui_approval_required) with
      | Some out_approved =>
          if awaiting || intervention then stops (Some job_completed) fin_completed None None
          else nothing
      | Some out_rejected =>
          if awaiting || running || intervention
          then stops (Some job_failed) fin_failed None
                 (Some (js "Reviewer rejected the scheduled submission."))
          else nothing
      | Some ((out_failed | out_failed_protocol) as o) =>
          if dispatching || running || awaiting || uncertain || intervention
          then stops (Some job_failed) fin_failed
                 (Some match o with out_failed_protocol => ex_failed_protocol | _ => ex_failed end)
                 (Some ("Work session ended with " +s ev_type e +s "."))
          else nothing
      | Some out_cancelled =>
          stops (Some job_cancelled) fin_cancelled (Some ex_cancelled)
            (Some (js "Scheduled worker cancelled."))
      | _ =>
          if EXECUTION_STOPPED_EVENTS t
          then mkProjection None None None false None false false true
          else nothing
      end
  end.

(** The event came before the cancellation was requested. *)
Definition precedes (e : LifecycleEvent) (c : option Cancellation) : option ScheduledJobStatus :=
  match c with
  | Some {| requestedAt := Some at_; previousStatus := Some prev |} =>
      if (ev_createdAt e <? at_)%Z then Some prev else None
  | _ => None
  end.

Definition with_stopped (p : Projection) : Projection :=
  mkProjection (nextStatus p) (finalWorkerOutcome p) (workerExecutionOutcome p)
    (autonomousCompletion p) (lastError p) (executionStarted p) (executionPaused p) true.

(** [projectScheduledJobLifecycleEvent]; [fuel] bounds its recursion into the status before the
    cancellation. *)
Fixpoint project (fuel : nat) (s : ScheduledJobStatus) (e : LifecycleEvent)
  (cancellation : option Cancellation) (attempt : option Attempt) : option Projection :=
  match fuel with
  | O => None
  | S fuel' =>
      if negb (ACTIVE_JOB_STATUSES s) then Some nothing
      else if match attempt with Some a => negb (matchesCurrentAttempt e a) | None => false end
      then Some nothing
      else if bool_decide (s = job_cancellation_requested) then
        match precedes e cancellation with
        | Some prev =>
            match project fuel' prev e None attempt with
            | Some earlier =>
                match finalWorkerOutcome earlier with
                | Some _ => Some (with_stopped earlier)
                | None => Some (confirmCancellation e)
                end
            | None => None
            end
        | None => Some (confirmCancellation e)
        end
      else Some (projectActive s e)
  end.

Definition projectScheduledJobLifecycleEvent (s : ScheduledJobStatus) (e : LifecycleEvent)
  (cancellation : option Cancellation) (attempt : option Attempt) : Projection :=
  default nothing (project 2 s e cancellation attempt).

(** ** Termination *)

Definition stale_attempt (e : LifecycleEvent) (a : option Attempt) : bool :=
  match a with Some a => negb (matchesCurrentAttempt e a) | None => false end.

Lemma project_S fuel s e c a :
  project (S fuel) s e c a =
    if negb (ACTIVE_JOB_STATUSES s) || stale_attempt e a then Some nothing
    else if bool_decide (s = job_cancellation_requested) then
      match precedes e c with
      | Some prev =>
          match project fuel prev e None a with
          | Some earlier =>
              match finalWorkerOutcome earlier with
              | Some _ => Some (with_stopped earlier)
              | None => Some (confirmCancellation e)
              end
          | None => None
          end
      | None => Some (confirmCancellation e)
      end
    else Some (projectActive s e).
Proof. cbn [project]. by destruct (negb (ACTIVE_JOB_STATUSES s)). Qed.

(** A projection without cancellation, as one expression. *)
Definition project_plain (s : ScheduledJobStatus) (e : LifecycleEvent) (a : option Attempt)
  : Projection :=
  if negb (ACTIVE_JOB_STATUSES s) || stale_attempt e a then nothing
  else if bool_decide (s = job_cancellation_requested) then confirmCancellation e
  else projectActive s e.

Lemma project_plain_eq s e a :
  project_plain s e a =
    if negb (ACTIVE_JOB_STATUSES s) || stale_attempt e a then nothing
    else if bool_decide (s = job_cancellation_requested) then confirmCancellation e
    else projectActive s e.
Proof. done. Qed.

Lemma project_plain_spec fuel s e a : project (S fuel) s e None a = Some (project_plain s e a).
Proof.
  rewrite project_S. unfold project_plain. destruct (_ || _); [done|]. by case_bool_decide.
Qed.

(** The recursion of the projection is one level deep: with any fuel of at least two it returns,
    and returns what [projectScheduledJobLifecycleEvent] is defined by. *)
Theorem projection_terminates n s e c a :
  project (S (S n)) s e c a = Some (projectScheduledJobLifecycleEvent s e c a).
Proof.
  assert (H : ∀ m, ∃ p, project (S (S m)) s e c a = Some p ∧ project 2 s e c a = Some p).
  { intros m. rewrite !project_S. destruct (_ || _); [eauto|]. case_bool_decide; [|eauto].
    destruct (precedes e c) as [prev|]; [|eauto]. rewrite !project_plain_spec.
    destruct (finalWorkerOutcome _); eauto. }
  unfold projectScheduledJobLifecycleEvent. destruct (H n) as (p & -> & ->). done.
Qed.

(** ** What the projection is *)

Lemma projection_spec s e c a :
  projectScheduledJobLifecycleEvent s e c a =
    match precedes e c with
    | Some prev =>
        if bool_decide (s = job_cancellation_requested) && negb (stale_attempt e a)
           && bool_decide (is_Some (finalWorkerOutcome (project_plain prev e a)))
        then with_stopped (project_plain prev e a) else project_plain s e a
    | None => project_plain s e a
    end.
Proof.
  unfold projectScheduledJobLifecycleEvent. rewrite project_S, !(project_plain_eq s e a).
  destruct (ACTIVE_JOB_STATUSES s) eqn:Ea; cbn [negb orb].
  2:{ rewrite (bool_decide_eq_false_2 (s = job_cancellation_requested)) by (intros Hx; rewrite Hx in Ea; discriminate Ea). by destruct (precedes e c). }
  destruct (stale_attempt e a) eqn:Es.
  { rewrite andb_false_r. by destruct (precedes e c). }
  case_bool_decide as Ec; cbn [andb negb]; [|by destruct (precedes e c)].
  destruct (precedes e c) as [prev|]; [|done]. rewrite project_plain_spec.
  destruct (finalWorkerOutcome (project_plain prev e a)) as [o|] eqn:Eo.
  - by rewrite bool_decide_eq_true_2 by eauto.
  - by rewrite bool_decide_eq_false_2 by (by intros [? ?]).
Qed.

(** ** Attempts *)

Lemma project_plain_stale s e a : stale_attempt e a = true → project_plain s e a = nothing.
Proof. intros H. unfold project_plain. by rewrite H, orb_true_r. Qed.

(** An event of another attempt moves nothing.  With a current attempt, an event projects to
    anything at all only if the attempt has an identity, the event carries its run id, and, when
    the event says that a worker stopped, the event carries exactly the attempt number, dispatch
    id and remote run id that the attempt has. *)
Theorem stale_attempt_moves_nothing s e c a :
  projectScheduledJobLifecycleEvent s e c (Some a) ≠ nothing →
  identified a = true
  ∧ (truthy (runId a) = true → payload_string "runId" e = runId a)
  ∧ (WORKER_STOPPED_EVENTS (event_type (ev_type e)) = true →
       (∀ n, attemptNumber a = Some n → n ≠ 0%Z → payload_number "attemptNumber" e = Some (JNum n))
       ∧ (truthy (dispatchId a) = true → payload_string "dispatchId" e = dispatchId a)
       ∧ (truthy (remoteRunId a) = true → payload_string "remoteRunId" e = remoteRunId a)).
Proof.
  intros H. destruct (stale_attempt e (Some a)) eqn:Es.
  { destruct H. rewrite projection_spec, !project_plain_stale, Es, andb_false_r by done.
    by destruct (precedes e c). }
  clear H. cbn in Es. unfold matchesCurrentAttempt, id_matches, number_matches, ATTEMPT_BOUND_EVENTS in Es.
  rewrite negb_false_iff, !andb_true_iff in Es. destruct Es as ((((Hid & Hrun) & Hnum) & Hdis) & Hrem).
  split; [done|]. split.
  { intros Ht. rewrite Ht in Hrun. by apply bool_decide_eq_true in Hrun. }
  intros Hw. rewrite Hw in Hnum, Hdis, Hrem. cbn in Hnum, Hdis, Hrem. split_and!.
  - intros n Hn Hz. rewrite Hn in Hnum. cbn in Hnum.
    rewrite (proj2 (Z.eqb_neq n 0)), orb_false_r in Hnum by done. cbn in Hnum.
    unfold payload_number in *. destruct (jfield _ _) as [[]|]; try done. cbn in Hnum. by guards; subst.
  - intros Ht. rewrite Ht, orb_false_r in Hdis. by apply bool_decide_eq_true in Hdis.
  - intros Ht. rewrite Ht, orb_false_r in Hrem. by apply bool_decide_eq_true in Hrem.
Qed.

(** ** The review barrier and the job's transitions *)

(** The moves the projection may ask of a job that is not being cancelled, with the event each
    needs. *)
Inductive job_move : ScheduledJobStatus → EventType → ScheduledJobStatus → Prop :=
| move_start s : s ∈ [job_dispatching; job_uncertain_dispatch; job_awaiting_approval; job_operator_intervention] →
    job_move s run_started job_running
| move_submit s : s ∈ [job_running; job_operator_intervention] →
    job_move s review_submitted job_awaiting_approval
| move_approve s : s ∈ [job_awaiting_approval; job_operator_intervention] →
    job_move s run_approved job_completed
| move_reject s : s ∈ [job_running; job_awaiting_approval; job_operator_intervention] →
    job_move s run_rejected job_failed
| move_fail s t : ACTIVE_JOB_STATUSES s = true → t ∈ [run_failed; run_failed_protocol] →
    job_move s t job_failed
| move_cancel s : ACTIVE_JOB_STATUSES s = true → job_move s run_cancelled job_cancelled.

Lemma outcome_of_event name :
  outcome <$> workSessionTerminalOutcome (Some name) (Some webui_approval_required) =
    match event_type name with
    | run_approved => Some out_approved | run_rejected => Some out_rejected
    | run_cancelled => Some out_cancelled | run_failed => Some out_failed
    | run_failed_protocol => Some out_failed_protocol
    | _ => None
    end.
Proof.
  destruct name as [|x name]; [done|]. unfold workSessionTerminalOutcome.
  by destruct (event_type (x :: name)).
Qed.

Lemma projectActive_moves s e s' :
  ACTIVE_JOB_STATUSES s = true → s ≠ job_cancellation_requested →
  nextStatus (projectActive s e) = Some s' → job_move s (event_type (ev_type e)) s'.
Proof.
  intros Ha Hc. unfold projectActive. rewrite outcome_of_event.
  destruct (event_type (ev_type e)); cbv zeta; destruct s; try done; intros H;
    vm_compute in H; simplify_eq; constructor; try done; set_solver.
Qed.

Lemma projectActive_final s e :
  finalWorkerOutcome (projectActive s e) = Some fin_completed →
  nextStatus (projectActive s e) = Some job_completed.
Proof.
  unfold projectActive. rewrite outcome_of_event.
  destruct (event_type (ev_type e)); cbv zeta; cbn; repeat case_match; done.
Qed.

(** A scheduled job moves only along its state machine.  Whatever the projection asks of a job
    whose cancellation was not requested is a move of the machine, in particular a job that is not
    active never moves and a job completes only from review, or operator intervention, on the
    reviewer's approval: a worker that finishes its turn never completes a job. *)
Theorem jobs_move_by_the_machine s e c a :
  s ≠ job_cancellation_requested →
  let p := projectScheduledJobLifecycleEvent s e c a in
  (∀ s', nextStatus p = Some s' →
     ACTIVE_JOB_STATUSES s = true ∧ job_move s (event_type (ev_type e)) s')
  ∧ (finalWorkerOutcome p = Some fin_completed →
     event_type (ev_type e) = run_approved
     ∧ s ∈ [job_awaiting_approval; job_operator_intervention]).
Proof.
  intros Hc. cbv zeta. rewrite projection_spec. rewrite bool_decide_eq_false_2 by done. cbn [andb].
  assert (Hp : match precedes e c with Some _ => project_plain s e a | None => project_plain s e a end
               = project_plain s e a) by (by destruct (precedes e c)).
  rewrite Hp. unfold project_plain. rewrite bool_decide_eq_false_2 by done.
  destruct (negb (ACTIVE_JOB_STATUSES s) || stale_attempt e a) eqn:Eb; [done|]. guards.
  assert (Hm : ∀ s', nextStatus (projectActive s e) = Some s' → job_move s (event_type (ev_type e)) s')
    by (intros; by apply projectActive_moves).
  split; [by auto|]. intros Hf. apply projectActive_final, Hm in Hf.
  inversion Hf; by split.
Qed.

(** ** Cancellation *)

(** A requested cancellation fences later events.  For an event not earlier than the request,
    the job either stays or becomes cancelled; it becomes cancelled exactly when the event says that
    the worker of the current attempt stopped, whatever the event says the worker achieved. *)
Theorem cancellation_fences_completion e c a :
  precedes e c = None →
  let p := projectScheduledJobLifecycleEvent job_cancellation_requested e c a in
  (if WORKER_STOPPED_EVENTS (event_type (ev_type e)) && negb (stale_attempt e a)
   then nextStatus p = Some job_cancelled ∧ finalWorkerOutcome p = Some fin_cancelled
        ∧ executionStopped p = true
   else p = nothing).
Proof.
  intros Hp. cbv zeta. rewrite projection_spec, Hp. unfold project_plain, confirmCancellation.
  destruct (stale_attempt e a); cbn; [by rewrite andb_false_r|]. rewrite andb_true_r.
  by destruct (WORKER_STOPPED_EVENTS _).
Qed.

(** ** Concrete events *)

Definition ex_attempt : Attempt := mkAttempt (Some (js "d1")) (Some (js "r1")) (Some 2%Z) None.

Definition ex_event (name : jsstr) (at_ : Z) : LifecycleEvent :=
  mkEvent name at_ [(js "dispatchId", JStr "d1"); (js "runId", JStr "r1"); (js "attemptNumber", JNum 2)].

Lemma stale_attempt_moves_nothing_witness :
  payload_number "attemptNumber" (ex_event "agent.run.failed" 5) = Some (JNum 2).
Proof.
  destruct (stale_attempt_moves_nothing job_running (ex_event "agent.run.failed" 5) None ex_attempt)
    as (_ & _ & H); [by vm_compute|].
  by apply (H eq_refl).
Defined.

Lemma jobs_move_by_the_machine_witness :
  nextStatus (projectScheduledJobLifecycleEvent job_awaiting_approval (ex_event "agent.run.approved" 5)
                None (Some ex_attempt)) = Some job_completed
  ∧ job_move job_awaiting_approval run_approved job_completed.
Proof.
  split; [by vm_compute|].
  destruct (jobs_move_by_the_machine job_awaiting_approval (ex_event "agent.run.approved" 5) None
              (Some ex_attempt)) as [H _]; [done|].
  by apply (H job_completed).
Defined.

Lemma cancellation_fences_completion_witness :
  nextStatus (projectScheduledJobLifecycleEvent job_cancellation_requested
    (ex_event "agent.run.completed" 9) (Some (mkCancellation (Some 7%Z) (Some job_running)))
    (Some ex_attempt)) = Some job_cancelled.
Proof.
  pose proof (cancellation_fences_completion (ex_event "agent.run.completed" 9)
                (Some (mkCancellation (Some 7%Z) (Some job_running))) (Some ex_attempt)
                ltac:(vm_compute; reflexivity)) as H.
  cbv zeta in H.
  replace (WORKER_STOPPED_EVENTS _ && negb _) with true in H by (vm_compute; reflexivity).
  exact (proj1 H).
Defined.

End ScheduledLifecycle.

(** * Bounded counters ([src/src/scheduling/bounded-counter-map.ts])

    A JavaScript [Map] iterates in insertion order; it is modelled by its entries in that order.
    Reading and writing reinsert an entry at the end, so the first entry is the least recently
    used. *)

Module BoundedCounter.

Record Entry := mkEntry { count : Z; at_ : Z }.

Record BoundedCounterMap := mkMap { maxEntries : nat; values : list (jsstr * Entry) }.

(** The constructor; it throws unless [maxEntries] is a positive integer. *)
Definition construct (max : Z) : option BoundedCounterMap :=
  if (max <? 1)%Z then None else Some (mkMap (Z.to_nat max) []).

Definition size (m : BoundedCounterMap) : nat := length (values m).

(** [Map.prototype.get], [delete] and [set] (of an absent key) *)
Definition map_get (k : jsstr) (es : list (jsstr * Entry)) : option Entry :=
  snd <$> List.find (λ e, e.1 =s k) es.
Definition map_delete (k : jsstr) (es : list (jsstr * Entry)) : list (jsstr * Entry) :=
  List.filter (λ e, negb (e.1 =s k)) es.

Definition get (k : jsstr) (now ttlMs : Z) (m : BoundedCounterMap)
  : option Z * BoundedCounterMap :=
  match map_get k (values m) with
  | None => (None, m)
  | Some e =>
      if (ttlMs <? now - at_ e)%Z then (None, mkMap (maxEntries m) (map_delete k (values m)))
      else (Some (count e), mkMap (maxEntries m) (map_delete k (values m) ++ [(k, e)]))
  end.

(** [while (this.values.size > this.maxEntries) delete the first key]; [fuel] bounds the rounds. *)
Fixpoint evict (fuel max : nat) (es : list (jsstr * Entry)) : option (list (jsstr * Entry)) :=
  match fuel with
  | O => None
  | S fuel' =>
      if (max <? length es)%nat then
        match es with
        | [] => Some es
        | (oldest, _) :: _ => evict fuel' max (map_delete oldest es)
        end
      else Some es
  end.

Definition set (k : jsstr) (c a : Z) (m : BoundedCounterMap) : BoundedCounterMap :=
  let es := map_delete k (values m) ++ [(k, mkEntry c a)] in
  mkMap (maxEntries m) (default es (evict (S (length es)) (maxEntries m) es)).

(** ** Least recently used eviction *)

Definition map_ok (m : BoundedCounterMap) : Prop :=
  1 ≤ maxEntries m ∧ NoDup (List.map fst (values m)) ∧ size m ≤ maxEntries m.

Lemma map_delete_absent k es : k ∉ List.map fst es → map_delete k es = es.
Proof.
  intros H. apply Lfilter_all. intros e He. apply negb_true_iff, js_eqb_neq. intros <-.
  apply H, elem_of_Lmap. eauto.
Qed.

Lemma map_delete_keys k es : NoDup (List.map fst es) →
  NoDup (List.map fst (map_delete k es)) ∧ k ∉ List.map fst (map_delete k es).
Proof.
  intros Hd. split.
  - induction es as [|e es IH]; cbn; [constructor|]. cbn in Hd. apply NoDup_cons in Hd as [Hn Hd].
    destruct (e.1 =s k); cbn; [auto|]. apply NoDup_cons. split; [|auto].
    intros (x & E & [Hx _]%elem_of_Lfilter)%elem_of_Lmap. apply Hn, elem_of_Lmap. eauto.
  - intros (x & E & [_ Hx]%elem_of_Lfilter)%elem_of_Lmap. guards. congruence.
Qed.

Lemma length_map_delete k es : length (map_delete k es) ≤ length es.
Proof. apply List.filter_length_le. Qed.

Lemma evict_spec fuel max es :
  NoDup (List.map fst es) → length es < fuel + max → 1 ≤ fuel →
  evict fuel max es = Some (drop (length es - max) es).
Proof.
  revert es; induction fuel as [|fuel IH]; intros es Hd Hl Hf; [lia|]. cbn [evict].
  destruct (Nat.ltb_spec max (length es)) as [Hlt|Hge].
  - destruct es as [|[k e] es]; [cbn in Hlt; lia|]. cbn in Hd. apply NoDup_cons in Hd as [Hn Hd].
    cbn -[evict Nat.sub]. rewrite js_eqb_refl. cbn -[evict Nat.sub].
    change (List.filter (λ e0, negb (e0.1 =s k)) es) with (map_delete k es).
    rewrite map_delete_absent by done. cbn in Hl, Hlt. rewrite IH by (done || lia).
    replace (S (length es) - max) with (S (length es - max)) by lia. done.
  - by replace (length es - max) with 0 by lia.
Qed.

Lemma set_values k c a m :
  NoDup (List.map fst (values m)) →
  let es := map_delete k (values m) ++ [(k, mkEntry c a)] in
  values (set k c a m) = drop (length es - maxEntries m) es ∧ NoDup (List.map fst es).
Proof.
  intros Hd es. destruct (map_delete_keys k (values m) Hd) as [Hd' Hk].
  assert (Hes : NoDup (List.map fst es)).
  { unfold es. rewrite List.map_app. apply NoDup_app. split; [done|]. split; [|apply NoDup_singleton].
    intros x Hx Hx'. apply list_elem_of_singleton in Hx'. by subst x. }
  split; [|done]. unfold set. cbn [values]. fold es. rewrite evict_spec; [done|done|lia|lia].
Qed.

(** The counter map is a bounded least-recently-used cache.  After [set] the map still has at
    most its capacity of distinct keys, the entries it kept are the most recent ones in their order
    with the key just written last, nothing is evicted while there is room, and reading that key
    within its time to live gives the count written. *)
Theorem bounded_lru k c a m now ttl :
  map_ok m → (now - a <= ttl)%Z →
  map_ok (set k c a m)
  ∧ (∃ evicted, map_delete k (values m) ++ [(k, mkEntry c a)] = evicted ++ values (set k c a m)
       ∧ (length (map_delete k (values m)) < maxEntries m → evicted = []))
  ∧ last (values (set k c a m)) = Some (k, mkEntry c a)
  ∧ (get k now ttl (set k c a m)).1 = Some c.
Proof.
  intros (Hmax & Hd & Hs) Httl. destruct (set_values k c a m Hd) as [Hv Hes]. cbv zeta in Hv, Hes.
  destruct (map_delete_keys k (values m) Hd) as [_ Hk].
  set (es := map_delete k (values m) ++ [(k, mkEntry c a)]) in *.
  assert (Hlen : length es = S (length (map_delete k (values m)))) by (unfold es; rewrite length_app; cbn; lia).
  assert (Hsplit : es = take (length es - maxEntries m) es ++ values (set k c a m))
    by (rewrite Hv; by rewrite take_drop).
  assert (Hlast : last (values (set k c a m)) = Some (k, mkEntry c a)).
  { rewrite Hv. unfold es at 2. rewrite drop_app_le by lia. by rewrite last_snoc. }
  assert (Hnd : NoDup (List.map fst (values (set k c a m)))).
  { rewrite Hsplit, List.map_app in Hes. by apply NoDup_app in Hes as (_ & _ & ?). }
  split_and!.
  - split; [done|]. split; [done|]. unfold size. rewrite Hv, length_drop. cbn. lia.
  - exists (take (length es - maxEntries m) es). split; [done|]. intros Hroom.
    by replace (length es - maxEntries m) with 0 by lia.
  - done.
  - assert (Hget : map_get k (values (set k c a m)) = Some (mkEntry c a)).
    { unfold map_get. apply last_Some in Hlast as [l Hl]. rewrite Hl, find_app.
      rewrite Hl, List.map_app in Hnd. apply NoDup_app in Hnd as (_ & Hn & _).
      replace (List.find (λ e, e.1 =s k) l) with (@None (jsstr * Entry)).
      - cbn. by rewrite js_eqb_refl.
      - symmetry. apply find_none_iff. intros x Hx. apply js_eqb_neq. intros Ex.
        apply (Hn k); [|by left]. rewrite <- Ex. apply elem_of_Lmap. eauto. }
    unfold get. rewrite Hget. cbn. by rewrite (proj2 (Z.ltb_ge _ _)).
Qed.

Lemma bounded_lru_witness :
  values (set "c" 3 30 (mkMap 2 [(js "a", mkEntry 1 10); (js "b", mkEntry 2 20)]))
    = [(js "b", mkEntry 2 20); (js "c", mkEntry 3 30)]
  ∧ (get "c" 40 10 (set "c" 3 30 (mkMap 2 [(js "a", mkEntry 1 10); (js "b", mkEntry 2 20)]))).1 = Some 3%Z.
Proof.
  split; [by vm_compute|]. apply bounded_lru; [|done].
  split_and!; [cbn; lia| |cbn; lia]. repeat constructor; set_solver.
Defined.

End BoundedCounter.
