(* ===== verification/Files.v ===== *)
(** * The file system and paths the sources use ([node:fs], [node:path])

    POSIX paths as lists of components, a file system as a finite map from the path of an entry to
    the entry, and the operations of Node's file system the sources call: [lstat], [stat],
    [realpath], [access], [mkdir] with [recursive], [writeFile], [rename] and [rm] with [force].
    Path resolution follows symbolic links, at most forty of them, as the system does.  A file
    holds the text its bytes decode to, or nothing when they are not UTF-8. *)

From S2P Require Import Prelude JsString.

Module Files.

(** ** Paths *)

Abbreviation path := (list jsstr) (only parsing).

Definition SLASH : N := 47.
Definition BACKSLASH : N := 92.
Definition DOTS : jsstr := "..".
Definition DOT : jsstr := ".".
#[global] Arguments DOTS : simpl never.
#[global] Arguments DOT : simpl never.

(** The string of an absolute path. *)
Definition render (p : path) : jsstr := SLASH :: join [SLASH] p.

Definition isAbsolute (s : jsstr) : bool := startsWith s [SLASH].

Definition resolve_step (p : path) (c : jsstr) : path :=
  if negb (nonempty c) || (c =s DOT) then p
  else if c =s DOTS then removelast p
  else p ++ [c].

(** [path.resolve(base, s)] *)
Definition resolve (base : path) (s : jsstr) : path :=
  foldl resolve_step (if isAbsolute s then [] else base) (split SLASH s).

Fixpoint strip_common (a b : path) : path * path :=
  match a, b with
  | x :: a', y :: b' => if x =s y then strip_common a' b' else (a, b)
  | _, _ => (a, b)
  end.

(** [path.relative(a, b)] *)
Definition relative (a b : path) : jsstr :=
  let '(x, y) := strip_common a b in join [SLASH] (((λ _, DOTS) <$> x) ++ y).

(** [path.dirname(p)] *)
Definition dirname (p : path) : path := removelast p.

(** A component a path can have after [resolve]. *)
Definition proper (c : jsstr) : Prop := c ≠ [] ∧ c ≠ DOT ∧ c ≠ DOTS ∧ SLASH ∉ c.

(** ** Entries *)

Inductive Kind := Dir | File (text : option jsstr) | Symlink (target : jsstr).

Record Node := mkNode { ino : Z; mode : Z; what : Kind }.

Abbreviation Fs := (gmap (list jsstr) Node) (only parsing).

Inductive errno := ENOENT | ENOTDIR | ELOOP | EEXIST | EISDIR.

Definition is_dir (n : Node) : bool := match what n with Dir => true | _ => false end.
Definition is_file (n : Node) : bool := match what n with File _ => true | _ => false end.
Definition is_link (n : Node) : bool := match what n with Symlink _ => true | _ => false end.

(** The physical path a path denotes: [cur] is the directory reached, [rest] what is left.  The
    last component is followed when [follow] says so, and at most [links] links are. *)
Fixpoint walk (links : nat) (fs : Fs) (follow : bool) (cur : path) (rest : list jsstr)
  {struct links} : res errno path :=
  (fix go (cur : path) (rest : list jsstr) {struct rest} : res errno path :=
     match rest with
     | [] => Ok cur
     | c :: rest' =>
         if negb (bool_decide (is_dir <$> fs !! cur = Some true)) then Err ENOTDIR
         else if negb (nonempty c) || (c =s DOT) then go cur rest'
         else if c =s DOTS then go (removelast cur) rest'
         else
           match fs !! (cur ++ [c]) with
           | None => Err ENOENT
           | Some n =>
               match what n with
               | Symlink t =>
                   if negb follow && match rest' with [] => true | _ => false end
                   then Ok (cur ++ [c])
                   else match links with
                        | O => Err ELOOP
                        | S links' =>
                            walk links' fs follow (if isAbsolute t then [] else cur)
                              (split SLASH t ++ rest')
                        end
               | _ => go (cur ++ [c]) rest'
               end
           end
     end) cur rest.

(** The number of links a resolution follows before it gives up. *)
Definition MAXSYMLINKS : nat := 40.
#[global] Arguments MAXSYMLINKS : simpl never.

Definition lstat (fs : Fs) (p : path) : res errno Node :=
  q ← walk MAXSYMLINKS fs false [] p; require (fs !! q) ENOENT.
Definition stat (fs : Fs) (p : path) : res errno Node :=
  q ← walk MAXSYMLINKS fs true [] p; require (fs !! q) ENOENT.
Definition realpath (fs : Fs) (p : path) : res errno path := walk MAXSYMLINKS fs true [] p.

(** [access(p, F_OK)] succeeds *)
Definition fileExists (fs : Fs) (p : path) : bool := is_ok (stat fs p).

(** ** Changes *)

(** A computation changes the file system and succeeds or fails. *)
Definition IO (E A : Type) : Type := Fs → Fs * res E A.

#[export] Instance IO_ret E : MRet (IO E) := λ A a fs, (fs, Ok a).
#[export] Instance IO_bind E : MBind (IO E) := λ A B k m fs,
  match m fs with
  | (fs', Ok a) => k a fs'
  | (fs', Err e) => (fs', Err e)
  end.

(** A computation that only reads. *)
Definition reads {E A} (f : Fs → res E A) : IO E A := λ fs, (fs, f fs).

(** A number no entry has. *)
Definition fresh_ino (fs : Fs) : Z := 1 + map_fold (λ _ n m, Z.max (ino n) m) 0%Z fs.

(** Where an entry named [p] is, or would be, created. *)
Definition locate (fs : Fs) (p : path) : res errno path :=
  match last p with
  | None => Err EEXIST
  | Some name =>
      d ← realpath fs (dirname p);
      if bool_decide (is_dir <$> fs !! d = Some true) then Ok (d ++ [name]) else Err ENOTDIR
  end.

(** [mkdir(p, { recursive: true })], from the directory [cur] that exists.  The process's mask on
    the modes of new directories is left out. *)
Fixpoint mkdirFrom (cur : path) (rest : list jsstr) : IO errno unit :=
  match rest with
  | [] => mret tt
  | c :: rest' => λ fs,
      let p := cur ++ [c] in
      match stat fs p with
      | Ok n => if is_dir n then mkdirFrom p rest' fs else (fs, Err EEXIST)
      | Err ENOENT =>
          match locate fs p with
          | Ok q =>
              if bool_decide (fs !! q = None)
              then mkdirFrom p rest' (<[q := mkNode (fresh_ino fs) 511 Dir]> fs)
              else (fs, Err EEXIST)
          | Err e => (fs, Err e)
          end
      | Err e => (fs, Err e)
      end
  end.
Definition mkdir (p : path) : IO errno unit := mkdirFrom [] p.

(** [writeFile(p, text, { mode })]: the mode is that of a file it creates; the model is given the
    mode the process's mask leaves. *)
Definition writeFile (p : path) (text : jsstr) (m : Z) : IO errno unit := λ fs,
  match realpath fs p with
  | Ok q =>
      match fs !! q with
      | Some n => if is_dir n then (fs, Err EISDIR)
                  else (<[q := mkNode (ino n) (mode n) (File (Some text))]> fs, Ok tt)
      | None => (fs, Err ENOENT)
      end
  | Err ENOENT =>
      match locate fs p with
      | Ok q => if bool_decide (fs !! q = None)
                then (<[q := mkNode (fresh_ino fs) m (File (Some text))]> fs, Ok tt)
                else (fs, Err ENOENT)
      | Err e => (fs, Err e)
      end
  | Err e => (fs, Err e)
  end.

(** [rename(a, b)] of a file or a link: entries that are the same file stay. *)
Definition rename (a b : path) : IO errno unit := λ fs,
  match locate fs a, locate fs b with
  | Ok p, Ok q =>
      match fs !! p, fs !! q with
      | None, _ => (fs, Err ENOENT)
      | Some n, Some m =>
          if bool_decide (ino n = ino m) then (fs, Ok tt)
          else if is_dir n || is_dir m then (fs, Err EISDIR)
          else (<[q := n]> (delete p fs), Ok tt)
      | Some n, None => if is_dir n then (fs, Err EISDIR) else (<[q := n]> (delete p fs), Ok tt)
      end
  | Err e, _ => (fs, Err e)
  | _, Err e => (fs, Err e)
  end.

(** [rm(p, { force: true })] *)
Definition rm (p : path) : IO errno unit := λ fs,
  match walk MAXSYMLINKS fs false [] p with
  | Ok q =>
      match fs !! q with
      | Some n => if is_dir n then (fs, Err EISDIR) else (delete q fs, Ok tt)
      | None => (fs, Ok tt)
      end
  | Err ENOENT => (fs, Ok tt)
  | Err e => (fs, Err e)
  end.
#[global] Arguments walk : simpl never.

(** ** Lemmas on paths *)

Lemma proper_nonempty c : proper c → nonempty c = true.
Proof. intros (H & _). by destruct c. Qed.

Lemma resolve_step_proper p c : SLASH ∉ c → Forall proper p → Forall proper (resolve_step p c).
Proof.
  intros Hc Hp. unfold resolve_step.
  destruct (nonempty c) eqn:Hn; cbn [negb orb]; [|done].
  destruct (c =s DOT) eqn:Hd; cbn [orb]; [done|].
  destruct (c =s DOTS) eqn:Hs.
  - rewrite removelast_firstn_len. by apply Forall_take.
  - apply Forall_app. split; [done|]. apply Forall_singleton.
    apply js_eqb_neq in Hd, Hs. repeat split; try done. by intros ->.
Qed.

(** Resolving leaves no dots and no separators. *)
Lemma resolve_proper base s : Forall proper base → Forall proper (resolve base s).
Proof.
  intros Hb. unfold resolve. set (start := if isAbsolute s then _ else _).
  assert (Hs : Forall proper start) by (unfold start; by destruct (isAbsolute s)).
  clearbody start. pose proof (split_lines_no SLASH s) as Hl. revert start Hs.
  induction Hl as [|c cs Hc _ IH]; intros start Hs; cbn; [done|].
  apply IH. by apply resolve_step_proper.
Qed.

Lemma resolve_step_app p c : proper c → resolve_step p c = p ++ [c].
Proof.
  intros Hc. unfold resolve_step. rewrite (proper_nonempty _ Hc). cbn [negb orb].
  destruct Hc as (_ & H1 & H2 & _). apply js_eqb_neq in H1, H2. by rewrite H1, H2.
Qed.

(** A relative path of proper components resolves to the base and them. *)
Lemma resolve_app base l : Forall proper l → l ≠ [] → resolve base (join [SLASH] l) = base ++ l.
Proof.
  intros Hl Hne. unfold resolve. rewrite split_join; [|done|].
  2:{ eapply Forall_impl; [exact Hl|]. by intros c (_ & _ & _ & ?). }
  assert (isAbsolute (join [SLASH] l) = false) as ->.
  { destruct Hl as [|c l (Hc & _ & _ & Hs) _]; [done|]. destruct c as [|d c]; [done|].
    assert (Hd : (SLASH =? d)%N = false) by (apply N.eqb_neq; intros <-; apply Hs; by left).
    unfold isAbsolute. destruct l; cbn [join app startsWith]; by rewrite Hd. }
  clear Hne. revert base. induction Hl as [|c l Hc _ IH]; intros base; cbn.
  - by rewrite app_nil_r.
  - rewrite resolve_step_app, IH by done. by rewrite <- app_assoc.
Qed.

Lemma resolve_one base c : proper c → resolve base c = base ++ [c].
Proof. intros Hc. apply (resolve_app base [c]); [by constructor|done]. Qed.

Lemma strip_common_spec a b x y :
  strip_common a b = (x, y) → ∃ z, a = z ++ x ∧ b = z ++ y.
Proof.
  revert b x y; induction a as [|u a IH]; intros b x y E; [by injection E as <- <-; exists []|].
  destruct b as [|v b]; [by injection E as <- <-; exists []|]. cbn in E.
  destruct (u =s v) eqn:Eq; [|by injection E as <- <-; exists []].
  apply js_eqb_eq in Eq as ->. apply IH in E as (z & -> & ->). by exists (v :: z).
Qed.

Lemma strip_common_prefix a b : strip_common a (a ++ b) = ([], b).
Proof. induction a as [|u a IH]; cbn; [by destruct b|]. by rewrite js_eqb_refl. Qed.

Lemma relative_prefix a b : relative a (a ++ b) = join [SLASH] b.
Proof. unfold relative. by rewrite strip_common_prefix. Qed.

(** The components of the string of a path. *)
Lemma split_render p : Forall proper p → List.filter nonempty (split SLASH (render p)) = p.
Proof.
  intros Hp. unfold render. cbn [split]. rewrite N.eqb_refl. cbn [List.filter nonempty].
  destruct p as [|c p]; [done|]. rewrite split_join; [|done|].
  - apply Lfilter_all. intros x Hx. rewrite Forall_forall in Hp. by apply proper_nonempty, Hp.
  - eapply Forall_impl; [exact Hp|]. by intros x (_ & _ & _ & ?).
Qed.

(** ** Well-formed file systems *)

(** The root is a directory, what exists lies in a directory, and names are proper. *)
Record wf (fs : Fs) : Prop := {
  wf_root : is_dir <$> fs !! ([] : path) = Some true;
  wf_parent p c n : fs !! (p ++ [c]) = Some n → is_dir <$> fs !! p = Some true;
  wf_names p n : fs !! p = Some n → Forall proper p
}.

Definition dir_at (fs : Fs) (p : path) : Prop := is_dir <$> fs !! p = Some true.

#[export] Instance dir_at_dec fs p : Decision (dir_at fs p).
Proof. unfold dir_at. solve_decision. Defined.

Lemma dir_at_spec fs p : dir_at fs p ↔ ∃ n, fs !! p = Some n ∧ is_dir n = true.
Proof.
  unfold dir_at. destruct (fs !! p) as [n|]; cbn.
  - split; [intros [= H]; eauto|]. intros (m & [= <-] & ->). done.
  - split; [done|]. by intros (? & ? & _).
Qed.

Lemma dir_at_names fs p : wf fs → dir_at fs p → Forall proper p.
Proof. intros Hw (n & Hn & _)%dir_at_spec. by eapply wf_names. Qed.

(** Above something that exists there are directories. *)
Lemma wf_above fs p q n : wf fs → fs !! (p ++ q) = Some n → q ≠ [] → dir_at fs p.
Proof.
  intros Hw. revert n. induction q as [|c q IH] using rev_ind; intros n Hn Hne; [done|clear Hne].
  rewrite app_assoc in Hn. apply (wf_parent _ Hw) in Hn. fold (dir_at fs (p ++ q)) in Hn.
  destruct (decide (q = [])) as [->|Hq]; [rewrite app_nil_r in Hn; exact Hn|].
  apply dir_at_spec in Hn as (m & Hm & _). by eapply IH.
Qed.

Lemma wf_prefix_dir fs p q : wf fs → dir_at fs (p ++ q) → dir_at fs p.
Proof.
  intros Hw H. destruct (decide (q = [])) as [->|Hq]; [rewrite app_nil_r in H; exact H|].
  apply dir_at_spec in H as (n & Hn & _). by eapply wf_above.
Qed.

(** The directories on the way to [p] are plain directories as far as they exist, and [p] itself
    is not a link: the path denotes itself. *)
Definition plain (fs : Fs) (p : path) : Prop :=
  (∀ q r n, p = q ++ r → r ≠ [] → fs !! q = Some n → is_dir n = true)
  ∧ ∀ n, fs !! p = Some n → is_link n = false.

Lemma plain_dir fs p : wf fs → dir_at fs p → plain fs p.
Proof.
  intros Hw H. split.
  - intros q r n -> Hr Hn. apply wf_prefix_dir, dir_at_spec in H as (m & Hm & Hd); [|done].
    congruence.
  - intros n Hn. apply dir_at_spec in H as (m & Hm & Hd). simplify_eq.
    unfold is_dir in Hd. unfold is_link. by destruct (what m).
Qed.

Lemma plain_parent fs p c : wf fs → plain fs (p ++ [c]) → plain fs p.
Proof.
  intros Hw [H1 H2]. split.
  - intros q r n -> Hr Hn. apply (H1 q (r ++ [c])); [by rewrite <- app_assoc|by destruct r|done].
  - intros n Hn. assert (H := H1 p [c] n eq_refl ltac:(done) Hn).
    unfold is_dir in H. unfold is_link. by destruct (what n).
Qed.

(** ** Resolution *)

Lemma walk_nil k fs follow cur : walk k fs follow cur [] = Ok cur.
Proof. by destruct k. Qed.

Lemma walk_cons k fs follow cur c rest :
  walk k fs follow cur (c :: rest)
  = (if negb (bool_decide (is_dir <$> fs !! cur = Some true)) then Err ENOTDIR
     else if negb (nonempty c) || (c =s DOT) then walk k fs follow cur rest
     else if c =s DOTS then walk k fs follow (removelast cur) rest
     else
       match fs !! (cur ++ [c]) with
       | None => Err ENOENT
       | Some n =>
           match what n with
           | Symlink t =>
               if negb follow && match rest with [] => true | _ => false end
               then Ok (cur ++ [c])
               else match k with
                    | O => Err ELOOP
                    | S k' => walk k' fs follow (if isAbsolute t then [] else cur)
                                (split SLASH t ++ rest)
                    end
           | _ => walk k fs follow (cur ++ [c]) rest
           end
       end).
Proof. by destruct k. Qed.

Lemma walk_step k fs follow cur c rest :
  dir_at fs cur → proper c →
  walk k fs follow cur (c :: rest)
  = match fs !! (cur ++ [c]) with
    | None => Err ENOENT
    | Some n =>
        match what n with
        | Symlink t =>
            if negb follow && match rest with [] => true | _ => false end
            then Ok (cur ++ [c])
            else match k with
                 | O => Err ELOOP
                 | S k' => walk k' fs follow (if isAbsolute t then [] else cur)
                             (split SLASH t ++ rest)
                 end
        | _ => walk k fs follow (cur ++ [c]) rest
        end
    end.
Proof.
  intros Hd Hc. rewrite walk_cons. unfold dir_at in Hd. rewrite bool_decide_true by done.
  cbn [negb]. rewrite (proper_nonempty _ Hc). cbn [negb orb].
  destruct Hc as (_ & H1 & H2 & _). apply js_eqb_neq in H1, H2. by rewrite H1, H2.
Qed.

(** A plain path is where it says it is. *)
Lemma walk_plain k fs follow cur rest :
  wf fs → dir_at fs cur → Forall proper rest → plain fs (cur ++ rest) →
  walk k fs follow cur rest = match fs !! (cur ++ rest) with Some _ => Ok (cur ++ rest) | None => Err ENOENT end.
Proof.
  intros Hw Hd Hr. revert cur Hd. induction Hr as [|c rest Hc Hr IH]; intros cur Hd Hp.
  - rewrite walk_nil, app_nil_r. by apply dir_at_spec in Hd as (n & -> & _).
  - rewrite walk_step by done. destruct (fs !! (cur ++ [c])) as [n|] eqn:En.
    + destruct (decide (rest = [])) as [->|Hne].
      { destruct Hp as [_ Hp]. rewrite En. specialize (Hp n En). unfold is_link in Hp.
        destruct (what n); [by rewrite walk_nil..|done]. }
      assert (Hn : is_dir n = true).
      { apply (proj1 Hp (cur ++ [c]) rest); [by rewrite <- app_assoc|done..]. }
      assert (Hd' : dir_at fs (cur ++ [c])) by (apply dir_at_spec; eauto).
      unfold is_dir in Hn. destruct (what n); try done.
      rewrite IH; [|done|by rewrite <- app_assoc]. by rewrite <- app_assoc.
    + destruct (fs !! (cur ++ c :: rest)) as [m|] eqn:Em; [|done]. exfalso.
      destruct rest as [|d rest]; [congruence|].
      assert (E : dir_at fs (cur ++ [c])).
      { apply (wf_above fs (cur ++ [c]) (d :: rest) m); [done| |done]. by rewrite <- app_assoc. }
      apply dir_at_spec in E as (? & ? & _). congruence.
Qed.

Section Plain.
Context (fs : Fs) (p : path) (Hw : wf fs) (Hn : Forall proper p) (Hp : plain fs p).

Lemma walk_root k follow :
  walk k fs follow [] p = match fs !! p with Some _ => Ok p | None => Err ENOENT end.
Proof. apply (walk_plain k fs follow [] p); [done|apply wf_root, Hw|done..]. Qed.

Lemma realpath_plain : realpath fs p = match fs !! p with Some _ => Ok p | None => Err ENOENT end.
Proof. apply walk_root. Qed.

Lemma stat_plain : stat fs p = require (fs !! p) ENOENT.
Proof. unfold stat. rewrite walk_root. destruct (fs !! p) eqn:E; [cbn; by rewrite E|done]. Qed.

Lemma lstat_plain : lstat fs p = require (fs !! p) ENOENT.
Proof. unfold lstat. rewrite walk_root. destruct (fs !! p) eqn:E; [cbn; by rewrite E|done]. Qed.
End Plain.

Lemma realpath_dir fs p : wf fs → dir_at fs p → realpath fs p = Ok p.
Proof.
  intros Hw Hd. rewrite realpath_plain; [|done|by eapply dir_at_names|by apply plain_dir].
  by apply dir_at_spec in Hd as (n & -> & _).
Qed.

(** [lstat] of a name in a directory looks the name up, link or not. *)
Lemma lstat_child fs p c :
  wf fs → dir_at fs p → proper c → lstat fs (p ++ [c]) = require (fs !! (p ++ [c])) ENOENT.
Proof.
  intros Hw Hd Hc. unfold lstat.
  assert (E : ∀ cur rest, dir_at fs cur → Forall proper rest → cur ++ rest = p →
            walk MAXSYMLINKS fs false cur (rest ++ [c])
            = match fs !! (p ++ [c]) with Some _ => Ok (p ++ [c]) | None => Err ENOENT end).
  { intros cur rest Hcur Hr. revert cur Hcur. induction Hr as [|d rest Hdp Hr IH]; intros cur Hcur Epath; cbn [app].
    - rewrite app_nil_r in Epath. subst cur. rewrite walk_step by done.
      destruct (fs !! (p ++ [c])) as [n|]; [|done]. by destruct (what n); rewrite ?walk_nil.
    - rewrite walk_step by done.
      assert (Hd' : dir_at fs (cur ++ [d])).
      { apply (wf_prefix_dir fs _ rest); [done|]. by rewrite <- app_assoc; cbn [app]; rewrite Epath. }
      pose proof Hd' as (n & En & Hn)%dir_at_spec. rewrite En. unfold is_dir in Hn.
      destruct (what n) eqn:Ew; try done. apply IH; [done|by rewrite <- app_assoc]. }
  rewrite (E [] p); [|apply wf_root, Hw|by eapply dir_at_names|done].
  destruct (fs !! (p ++ [c])) eqn:En; [cbn; by rewrite En|done].
Qed.

Lemma locate_child fs p c :
  wf fs → dir_at fs p → locate fs (p ++ [c]) = Ok (p ++ [c]).
Proof.
  intros Hw Hd. unfold locate, dirname. rewrite last_snoc, removelast_last, realpath_dir by done.
  cbn. by rewrite bool_decide_true by exact Hd.
Qed.

(** ** Effects *)

Lemma fresh_ino_lt fs p n : fs !! p = Some n → (ino n < fresh_ino fs)%Z.
Proof.
  intros H. unfold fresh_ino.
  cut (ino n <= map_fold (λ _ n m, Z.max (ino n) m) 0 fs)%Z; [lia|]. revert H. apply (map_fold_weak_ind (λ m fs, fs !! p = Some n → (ino n <= m)%Z)); [by rewrite lookup_empty|].
  intros q m fs' z _ IH H. apply lookup_insert_Some in H as [[-> ->]|[_ H]]; [lia|].
  specialize (IH H). lia.
Qed.

Lemma dir_at_insert_ne fs p q n : p ≠ q → dir_at fs p → dir_at (<[q := n]> fs) p.
Proof. intros Hne H. unfold dir_at. by rewrite lookup_insert_ne by done. Qed.

Lemma wf_insert fs p c n :
  wf fs → dir_at fs p → proper c →
  (∀ m, fs !! (p ++ [c]) = Some m → is_dir m = true → is_dir n = true) →
  wf (<[p ++ [c] := n]> fs).
Proof.
  intros Hw Hp Hc Hd.
  assert (Hsub : ∀ q, dir_at fs q → is_dir <$> <[p ++ [c] := n]> fs !! q = Some true).
  { intros q Hq. destruct (decide (q = p ++ [c])) as [->|Hne]; [|by apply dir_at_insert_ne].
    rewrite lookup_insert_eq. cbn. apply dir_at_spec in Hq as (m & Hm & Hmd).
    by rewrite (Hd m Hm Hmd). }
  split.
  - apply Hsub, wf_root, Hw.
  - intros q d m H. apply lookup_insert_Some in H as [[E _]|[_ H]].
    + apply app_inj_tail in E as [<- _]. by apply Hsub.
    + by apply Hsub, (wf_parent _ Hw q d m).
  - intros q m H. apply lookup_insert_Some in H as [[<- _]|[_ H]]; [|by eapply wf_names].
    apply Forall_app. split; [by eapply dir_at_names|by constructor].
Qed.

Lemma wf_delete fs q : wf fs → ¬ dir_at fs q → wf (delete q fs).
Proof.
  intros Hw Hq.
  assert (Hsub : ∀ p, dir_at fs p → is_dir <$> delete q fs !! p = Some true).
  { intros p Hp. rewrite lookup_delete_ne; [done|]. intros ->. done. }
  split.
  - apply Hsub, wf_root, Hw.
  - intros p c n H. apply lookup_delete_Some in H as [_ H]. by apply Hsub, (wf_parent _ Hw p c n).
  - intros p n H. apply lookup_delete_Some in H as [_ H]. by eapply wf_names.
Qed.

(** [fs'] is [fs] with some missing directories on the way to [p]. *)
Definition grows (fs fs' : Fs) (p : path) : Prop :=
  ∀ q, fs' !! q = fs !! q ∨ (fs !! q = None ∧ dir_at fs' q ∧ ∃ r, p = q ++ r).

Lemma grows_refl fs p : grows fs fs p.
Proof. intros q. by left. Qed.

Lemma grows_dir fs fs' p q : grows fs fs' p → dir_at fs q → dir_at fs' q.
Proof.
  intros H Hd. unfold dir_at. destruct (H q) as [->|(_ & ? & _)]; done.
Qed.

Lemma grows_trans fs1 fs2 fs3 p : grows fs1 fs2 p → grows fs2 fs3 p → grows fs1 fs3 p.
Proof.
  intros H1 H2 q. destruct (H2 q) as [E2|(E2 & D2 & P2)].
  - destruct (H1 q) as [E1|(E1 & D1 & P1)]; [left; congruence|].
    right. split_and!; [done| |done]. unfold dir_at. by rewrite E2.
  - destruct (H1 q) as [E1|(E1 & D1 & P1)]; [right; split_and!; [congruence|done..]|].
    apply dir_at_spec in D1 as (? & ? & _). congruence.
Qed.

(** What exists on the way from [cur] down [rest] is directories. *)
Definition dirs_below (fs : Fs) (cur : path) (rest : list jsstr) : Prop :=
  ∀ q r n, rest = q ++ r → fs !! (cur ++ q) = Some n → is_dir n = true.

Lemma dirs_below_cons fs cur c rest : dirs_below fs cur (c :: rest) → dirs_below fs (cur ++ [c]) rest.
Proof. intros H q r n -> Hn. apply (H (c :: q) r); [done|]. by rewrite <- app_assoc in Hn. Qed.

Lemma mkdirFrom_spec cur rest fs :
  wf fs → dir_at fs cur → Forall proper rest → dirs_below fs cur rest →
  ∃ fs', mkdirFrom cur rest fs = (fs', Ok tt) ∧ wf fs' ∧ dir_at fs' (cur ++ rest)
         ∧ grows fs fs' (cur ++ rest).
Proof.
  intros Hw Hd Hr. revert cur fs Hw Hd. induction Hr as [|c rest Hc Hr IH]; intros cur fs Hw Hd Hb.
  { exists fs. rewrite app_nil_r. split_and!; try done. apply grows_refl. }
  assert (Hp : plain fs (cur ++ [c])).
  { split.
    - intros q r n E Hne Hn. destruct r as [|x r _] using rev_ind; [done|].
      rewrite app_assoc in E. apply app_inj_tail in E as [-> _].
      apply wf_prefix_dir, dir_at_spec in Hd as (m & Hm & Hmd); [congruence|done].
    - intros n Hn. assert (H := Hb [c] rest n eq_refl Hn). unfold is_dir in H. unfold is_link.
      by destruct (what n). }
  assert (Hnames : Forall proper (cur ++ [c])).
  { apply Forall_app. split; [by eapply dir_at_names|by constructor]. }
  cbn [mkdirFrom]. rewrite stat_plain by done. unfold require.
  replace (cur ++ c :: rest) with ((cur ++ [c]) ++ rest) by (by rewrite <- app_assoc).
  destruct (fs !! (cur ++ [c])) as [n|] eqn:En.
  - assert (Hn : is_dir n = true) by (by apply (Hb [c] rest)). rewrite Hn.
    apply IH; [done|apply dir_at_spec; eauto|by apply dirs_below_cons].
  - rewrite locate_child by done. rewrite bool_decide_true by done.
    set (fs1 := <[_ := _]> fs).
    assert (Hw1 : wf fs1) by (apply wf_insert; [done..|congruence]).
    assert (Hd1 : dir_at fs1 (cur ++ [c])) by (unfold dir_at, fs1; by rewrite lookup_insert_eq).
    destruct (IH (cur ++ [c]) fs1 Hw1 Hd1) as (fs' & E & Hw' & Hd' & Hg).
    { intros q r m -> Hm. unfold fs1 in Hm. apply lookup_insert_Some in Hm as [[Eq <-]|[_ Hm]]; [done|].
      by apply (Hb (c :: q) r); [|rewrite <- app_assoc in Hm]. }
    exists fs'. split_and!; try done. apply (grows_trans _ fs1); [|done].
    intros q. unfold fs1. destruct (decide (q = cur ++ [c])) as [->|Hne].
    + right. split_and!; [done|done|]. by exists rest.
    + left. by rewrite lookup_insert_ne.
Qed.

Lemma mkdir_spec p fs :
  wf fs → Forall proper p → dirs_below fs [] p →
  ∃ fs', mkdir p fs = (fs', Ok tt) ∧ wf fs' ∧ dir_at fs' p ∧ grows fs fs' p.
Proof. intros Hw Hn Hb. by apply (mkdirFrom_spec [] p fs); [|apply wf_root| |]. Qed.

(** Creating a file that does not exist in a directory. *)
Lemma writeFile_new fs p c text m :
  wf fs → dir_at fs p → proper c → fs !! (p ++ [c]) = None →
  writeFile (p ++ [c]) text m fs
  = (<[p ++ [c] := mkNode (fresh_ino fs) m (File (Some text))]> fs, Ok tt).
Proof.
  intros Hw Hd Hc Hn. unfold writeFile.
  rewrite realpath_plain; [|done| |].
  - rewrite Hn, locate_child by done. by rewrite bool_decide_true.
  - apply Forall_app. split; [by eapply dir_at_names|by constructor].
  - split; [|intros n E; congruence]. intros q r n E Hne Hq.
    destruct r as [|x r _] using rev_ind; [done|]. rewrite app_assoc in E.
    apply app_inj_tail in E as [-> _]. apply wf_prefix_dir, dir_at_spec in Hd as (k & Hk & Hkd); [congruence|done].
Qed.

(** Renaming a file to a name in a directory. *)
Lemma rename_child fs p a b n :
  wf fs → dir_at fs p → fs !! (p ++ [a]) = Some n → is_dir n = false →
  (∀ m, fs !! (p ++ [b]) = Some m → ino m ≠ ino n) →
  rename (p ++ [a]) (p ++ [b]) fs
  = if bool_decide (dir_at fs (p ++ [b])) then (fs, Err EISDIR)
    else (<[p ++ [b] := n]> (delete (p ++ [a]) fs), Ok tt).
Proof.
  intros Hw Hd Hn Hf Hi. unfold rename. rewrite !locate_child by done. rewrite Hn.
  destruct (fs !! (p ++ [b])) as [m|] eqn:Em.
  - rewrite bool_decide_false by (intros E; by apply (Hi m)). rewrite Hf. cbn [orb].
    destruct (is_dir m) eqn:Dm.
    + rewrite bool_decide_true; [done|]. apply dir_at_spec; eauto.
    + rewrite bool_decide_false; [done|]. intros (k & Hk & Dk)%dir_at_spec. congruence.
  - rewrite Hf, bool_decide_false; [done|]. intros (k & Hk & _)%dir_at_spec. congruence.
Qed.

(** Removing what a plain path names. *)
Lemma rm_plain fs p :
  wf fs → Forall proper p → plain fs p →
  rm p fs = if bool_decide (dir_at fs p) then (fs, Err EISDIR) else (delete p fs, Ok tt).
Proof.
  intros Hw Hn Hp. unfold rm. rewrite walk_root by done.
  destruct (fs !! p) as [n|] eqn:En.
  - rewrite En. destruct (is_dir n) eqn:Dn.
    + rewrite bool_decide_true; [done|]. apply dir_at_spec; eauto.
    + rewrite bool_decide_false; [done|]. intros (k & Hk & Dk)%dir_at_spec. congruence.
  - rewrite bool_decide_false; [|intros (k & Hk & _)%dir_at_spec; congruence].
    by rewrite delete_id.
Qed.

End Files.
