(* ===== verification/ApplyPatch.v ===== *)
(** * Parsing patches and applying hunks ([src/src/apply-patch.ts])

    A patch is a list of file actions in the "*** Begin Patch" format.  The parser scans the lines
    with an index that only grows, so the model's loops recurse on the lines that are left.  A
    file's lines are edited hunk by hunk: each hunk is located from a cursor, first exactly, then
    up to trailing and then up to surrounding white space. *)

From S2P Require Import Prelude JsString Files.

Module Patch.

Inductive HunkKind := context | add_line | remove_line.

#[export] Instance HunkKind_eq_dec : EqDecision HunkKind.
Proof. solve_decision. Defined.

Record HunkLine := mkLine { kind : HunkKind; text : jsstr }.

#[export] Instance HunkLine_eq_dec : EqDecision HunkLine.
Proof. solve_decision. Defined.

Record UpdateHunk := mkHunk {
  hlines : list HunkLine;
  changeContext : option jsstr;
  endOfFile : bool
}.

Inductive PatchAction :=
| AddFile (path content : jsstr)
| DeleteFile (path : jsstr)
| UpdateFile (path : jsstr) (moveTo : option jsstr) (hunks : list UpdateHunk).

Inductive PatchError :=
| MissingBegin | MissingEnd | EmptyEnvironmentId
| AddedLineWithoutPlus (line : jsstr) | AddWithoutContent (path : jsstr)
| EmptyHunk (path : jsstr) | EofWithoutHunk (path : jsstr) | BadHunkLine (line : jsstr)
| UpdateWithoutHunks (path : jsstr) | UnknownHeader (header : jsstr) | NoActions
| ContextNotFound (path preview : jsstr)
| PathNotRelative (path : jsstr) | PathEscapes (path : jsstr) | PathResolvesOutside (path : jsstr)
| SymlinkComponent (path : jsstr) | NotADirectory (path : jsstr)
| NotARegularFile (path : jsstr) | NotUtf8 (path : jsstr) | Binary (path : jsstr)
| FileDoesNotExist (path : jsstr) | IoError (e : Files.errno).

(** ** Lines *)

Definition BEGIN : jsstr := "*** Begin Patch".
Definition END : jsstr := "*** End Patch".
Definition ADD : jsstr := "*** Add File: ".
Definition DELETE : jsstr := "*** Delete File: ".
Definition UPDATE : jsstr := "*** Update File: ".
Definition ENVIRONMENT : jsstr := "*** Environment ID: ".
Definition MOVE : jsstr := "*** Move to: ".
Definition EOF_MARKER : jsstr := "*** End of File".
Definition NO_NEWLINE : jsstr := [92%N] +s " No newline at end of file".

#[global] Arguments BEGIN : simpl never.
#[global] Arguments END : simpl never.
#[global] Arguments ADD : simpl never.
#[global] Arguments DELETE : simpl never.
#[global] Arguments UPDATE : simpl never.
#[global] Arguments ENVIRONMENT : simpl never.
#[global] Arguments MOVE : simpl never.
#[global] Arguments EOF_MARKER : simpl never.
#[global] Arguments NO_NEWLINE : simpl never.

Definition isTopLevelHeader (line : jsstr) : bool :=
  let t := trim line in
  startsWith t ADD || startsWith t DELETE || startsWith t UPDATE || startsWith t ENVIRONMENT.

(** [lines.slice(1, -1)] *)
Definition inner {A} (l : list A) : list A := removelast (tail l).

Definition heredoc_start (s : jsstr) : bool :=
  (s =s "<<EOF") || (s =s "<<'EOF'") || (s =s ("<<" +s [DQUOTE] +s "EOF" +s [DQUOTE])).

Definition patchLines (patch : jsstr) : list jsstr :=
  let lines := split LF (trim (crlfToLf patch)) in
  if match head lines with Some l => heredoc_start (trim l) | None => false end
     && match last lines with Some l => endsWith (trim l) "EOF" | None => false end
     && (4 <=? length lines)%nat
  then inner lines else lines.

(** ** Added files *)

(** The lines of an added file, up to the next header. *)
Fixpoint addLines (ls : list jsstr) : res PatchError (list jsstr * list jsstr) :=
  match ls with
  | [] => Ok ([], [])
  | line :: rest =>
      if isTopLevelHeader line then Ok ([], ls)
      else if negb (startsWith line "+") then Err (AddedLineWithoutPlus line)
      else '(content, rest') ← addLines rest; Ok (slice 1 line :: content, rest')
  end.

(** ** Updated files *)

Definition emptyHunk (ctx : option jsstr) : UpdateHunk := mkHunk [] ctx false.

Definition push (l : HunkLine) (h : UpdateHunk) : UpdateHunk :=
  mkHunk (hlines h ++ [l]) (changeContext h) (endOfFile h).

(** [finishCurrent] *)
Definition finishCurrent (path : jsstr) (current : option UpdateHunk) (hunks : list UpdateHunk)
  : res PatchError (list UpdateHunk) :=
  match current with
  | None => Ok hunks
  | Some h => match hlines h with [] => Err (EmptyHunk path) | _ => Ok (hunks ++ [h]) end
  end.

(** [changeContext || undefined] *)
Definition or_undefined (s : jsstr) : option jsstr := if nonempty s then Some s else None.

(** What a line adds to the hunk it is in. *)
Definition hunkLine (line : jsstr) (h : UpdateHunk) : res PatchError UpdateHunk :=
  if startsWith line " " then Ok (push (mkLine context (slice 1 line)) h)
  else if startsWith line "+" then Ok (push (mkLine add_line (slice 1 line)) h)
  else if startsWith line "-" then Ok (push (mkLine remove_line (slice 1 line)) h)
  else if line =s NO_NEWLINE then Ok h
  else Err (BadHunkLine line).

(** The loop over the hunks of an update: the hunks, and the lines after them. *)
Fixpoint hunkLoop (path : jsstr) (ls : list jsstr) (current : option UpdateHunk)
  (hunks : list UpdateHunk) : res PatchError (list UpdateHunk * list jsstr) :=
  match ls with
  | [] => hs ← finishCurrent path current hunks; Ok (hs, [])
  | line :: rest =>
      let trimmed := trim line in
      let spaced := startsWith line " " in
      let idle := match current with None => true | Some _ => false end in
      if idle && negb (nonempty trimmed) then hunkLoop path rest current hunks
      else if trimmed =s EOF_MARKER then
        match current with
        | None => Err (EofWithoutHunk path)
        | Some h => hunkLoop path rest (Some (mkHunk (hlines h) (changeContext h) true)) hunks
        end
      else if (idle || negb spaced) && isTopLevelHeader line then
        hs ← finishCurrent path current hunks; Ok (hs, ls)
      else if startsWith trimmed "@@" && negb spaced then
        hs ← finishCurrent path current hunks;
        hunkLoop path rest (Some (emptyHunk (or_undefined (trim (slice 2 trimmed))))) hs
      else
        h ← hunkLine line (default (emptyHunk None) current);
        hunkLoop path rest (Some h) hunks
  end.

(** [if (lines[index]?.trim().startsWith("*** Move to: "))] *)
Definition moveLine (ls : list jsstr) : option jsstr * list jsstr :=
  match ls with
  | line :: rest =>
      if startsWith (trim line) MOVE then (Some (slice (length MOVE) (trim line)), rest)
      else (None, ls)
  | [] => (None, [])
  end.

(** ** The parser *)

(** One action header and what follows it; [None] is a line that adds no action. *)
Definition parseAction (header : jsstr) (rest : list jsstr)
  : res PatchError (option PatchAction * list jsstr) :=
  if header =s [] then Ok (None, rest)
  else if startsWith header ENVIRONMENT then
    if negb (nonempty (trim (slice (length ENVIRONMENT) header))) then Err EmptyEnvironmentId
    else Ok (None, rest)
  else if startsWith header ADD then
    let path := slice (length ADD) header in
    '(content, rest') ← addLines rest;
    match content with
    | [] => Err (AddWithoutContent path)
    | _ => Ok (Some (AddFile path (joinLines content +s [LF])), rest')
    end
  else if startsWith header DELETE then
    Ok (Some (DeleteFile (slice (length DELETE) header)), rest)
  else if startsWith header UPDATE then
    let path := slice (length UPDATE) header in
    let '(moveTo, rest1) := moveLine rest in
    '(hunks, rest2) ← hunkLoop path rest1 None [];
    if match hunks with [] => true | _ => false end && negb (truthy moveTo)
    then Err (UpdateWithoutHunks path)
    else Ok (Some (UpdateFile path moveTo hunks), rest2)
  else Err (UnknownHeader header).

(** [while (index < lines.length)]; [None] means the fuel ran out. *)
Fixpoint parseActions (fuel : nat) (ls : list jsstr) : option (res PatchError (list PatchAction)) :=
  match ls, fuel with
  | [], _ => Some (Ok [])
  | _, O => None
  | line :: rest, S fuel' =>
      match parseAction (trim line) rest with
      | Err e => Some (Err e)
      | Ok (a, rest') =>
          match parseActions fuel' rest' with
          | None => None
          | Some (Err e) => Some (Err e)
          | Some (Ok actions) => Some (Ok (match a with Some a => a :: actions | None => actions end))
          end
      end
  end.

(** The lines between the markers. *)
Definition patchBody (lines : list jsstr) : res PatchError (list jsstr) :=
  match lines with
  | first :: rest =>
      _ ← ensure (trim first =s BEGIN) MissingBegin;
      match last rest with
      | Some l => _ ← ensure (trim l =s END) MissingEnd; Ok (removelast rest)
      | None => Err MissingEnd
      end
  | [] => Err MissingBegin
  end.

Definition parsePatchFuel (fuel : nat) (patch : jsstr) : option (res PatchError (list PatchAction)) :=
  match patchBody (patchLines patch) with
  | Err e => Some (Err e)
  | Ok body =>
      match parseActions fuel body with
      | Some (Ok []) => Some (Err NoActions)
      | r => r
      end
  end.

Definition parsePatch (patch : jsstr) : res PatchError (list PatchAction) :=
  default (Err NoActions) (parsePatchFuel (length (patchLines patch)) patch).

(** ** Hunks *)

Record SplitFile := mkSplit { lines : list jsstr; crlf : bool; finalNewline : bool }.

Definition splitFile (content : jsstr) : SplitFile :=
  let normalized := crlfToLf content in
  let finalNewline := endsWith normalized [LF] in
  let ls := split LF normalized in
  mkSplit (if finalNewline then removelast ls else ls) (includesCRLF content) finalNewline.

(** The three comparisons, in order. *)
Definition normalizations : list (jsstr → jsstr) := [λ s, s; trimEnd; trim].

Definition matchAt (haystack needle : list jsstr) (norm : jsstr → jsstr) (index : nat) : bool :=
  forallb (λ p, norm (or_empty (haystack !! (index + p.1)%nat)) =s norm p.2) (imap pair needle).

(** [for (let index = start; index <= end; index += 1)]: the first match among [n] positions *)
Fixpoint scan (p : nat → bool) (index n : nat) : option nat :=
  match n with
  | O => None
  | S n' => if p index then Some index else scan p (S index) n'
  end.

(** The first match at the first normalization that has one; [None] is -1.  The positions run from
    [from], or from the last possible one at the end of the file, and only a position of at least
    [from] counts. *)
Fixpoint findWith (norms : list (jsstr → jsstr)) (haystack needle : list jsstr) (from : nat)
  (eof : bool) : option nat :=
  match norms with
  | [] => None
  | norm :: norms' =>
      let limit := (length haystack - length needle)%nat in
      let hit :=
        if (length haystack <? length needle)%nat then None
        else if eof
        then scan (λ i, (from <=? i)%nat && matchAt haystack needle norm i) limit 1
        else scan (λ i, (from <=? i)%nat && matchAt haystack needle norm i) from (S limit - from) in
      match hit with
      | Some i => Some i
      | None => findWith norms' haystack needle from eof
      end
  end.

Definition findSequence (haystack needle : list jsstr) (from : nat) (eof : bool) : option nat :=
  match needle with [] => Some from | _ => findWith normalizations haystack needle from eof end.

Definition oldLines (h : UpdateHunk) : list jsstr :=
  text <$> List.filter (λ l, negb (bool_decide (kind l = add_line))) (hlines h).
Definition newLines (h : UpdateHunk) : list jsstr :=
  text <$> List.filter (λ l, negb (bool_decide (kind l = remove_line))) (hlines h).

(** [lines.splice(index, n, ...items)]: an index past the end is the end. *)
Definition splice {A} (index n : nat) (items l : list A) : list A :=
  take index l ++ items ++ drop (index + n) l.

(** One round of the loop: the lines and the cursor. *)
Definition applyHunk (path : jsstr) (h : UpdateHunk) (st : list jsstr * nat)
  : res PatchError (list jsstr * nat) :=
  let '(ls, cursor0) := st in
  cursor ← match changeContext h with
           | Some ((_ :: _) as ctx) =>
               i ← require (findSequence ls [ctx] cursor0 false) (ContextNotFound path ctx);
               Ok (S i)
           | _ => Ok cursor0
           end;
  let old := oldLines h in
  let new := newLines h in
  index ← require (if endOfFile h && match old with [] => true | _ => false end
                   then Some (length ls) else findSequence ls old cursor (endOfFile h))
            (ContextNotFound path (joinLines (take 3 old)));
  Ok (splice index (length old) new ls, (index + length new)%nat).

Fixpoint applyHunkList (path : jsstr) (hs : list UpdateHunk) (st : list jsstr * nat)
  : res PatchError (list jsstr * nat) :=
  match hs with
  | [] => Ok st
  | h :: hs' => st' ← applyHunk path h st; applyHunkList path hs' st'
  end.

Definition applyHunks (path content : jsstr) (hs : list UpdateHunk) : res PatchError jsstr :=
  let file := splitFile content in
  '(ls, _) ← applyHunkList path hs (lines file, 0%nat);
  let normalized := joinLines ls +s [LF] in
  Ok (if crlf file then lfToCrlf normalized else normalized).

(** ** The parser terminates *)

Lemma addLines_shrinks ls c rest : addLines ls = Ok (c, rest) → length rest ≤ length ls.
Proof.
  revert c; induction ls as [|l ls IH]; intros c E; cbn in E; [by simplify_eq|].
  destruct (isTopLevelHeader l); [by simplify_eq|]. destruct (negb _); [done|].
  apply bind_Ok in E as ([c' r] & E1 & E). simplify_eq. apply IH in E1. cbn. lia.
Qed.

Lemma hunkLoop_shrinks path ls cur hs hs' rest :
  hunkLoop path ls cur hs = Ok (hs', rest) → length rest ≤ length ls.
Proof.
  revert cur hs; induction ls as [|l ls IH]; intros cur hs E; cbn -[trim] in E.
  - apply bind_Ok in E as (x & _ & E). by simplify_eq.
  - repeat case_match; try (apply IH in E; cbn; lia); try done;
      apply bind_Ok in E as (x & _ & E); try (apply IH in E; cbn; lia); by simplify_eq.
Qed.

Lemma moveLine_shrinks ls : length (moveLine ls).2 ≤ length ls.
Proof. destruct ls as [|l ls]; cbn; [done|]. case_match; cbn; lia. Qed.

Lemma parseAction_shrinks h rest a rest' :
  parseAction h rest = Ok (a, rest') → length rest' ≤ length rest.
Proof.
  unfold parseAction. intros E. pose proof (moveLine_shrinks rest) as Hm.
  repeat case_match; simplify_eq; try done.
  - apply bind_Ok in E as ([c r] & E1 & E). apply addLines_shrinks in E1.
    destruct c; by simplify_eq.
  - apply bind_Ok in E as ([c r] & E1 & E). apply hunkLoop_shrinks in E1.
    destruct (_ && _); simplify_eq. cbn in Hm. lia.
Qed.

Lemma parseActions_total fuel ls :
  length ls ≤ fuel → ∃ r, ∀ fuel', fuel ≤ fuel' → parseActions fuel' ls = Some r.
Proof.
  revert ls; induction fuel as [|fuel IH]; intros [|l ls] Hl; cbn in Hl; try lia.
  1,2: exists (Ok []); by intros [|?].
  destruct (parseAction (trim l) ls) as [[a rest]|e] eqn:E.
  - apply parseAction_shrinks in E as Hs. destruct (IH rest) as [r Hr]; [lia|].
    eexists (match r with Ok actions => Ok (match a with Some a => a :: actions | None => actions end)
             | Err e => Err e end).
    intros [|f] Hf; [lia|]. cbn [parseActions]. rewrite E, Hr by lia. by destruct r.
  - exists (Err e). intros [|f] Hf; [lia|]. cbn [parseActions]. by rewrite E.
Qed.

Lemma patchBody_length ls body : patchBody ls = Ok body → length body ≤ length ls.
Proof.
  destruct ls as [|l ls]; cbn; [done|]. intros E. res_inv E. subst.
  destruct ls as [|y ls] using rev_ind; [done|]. rewrite removelast_last, length_app. lia.
Qed.

(** The parser terminates on every string: each round of its loop consumes a line, so as many
    rounds as the patch has lines are enough, and more change nothing. *)
Lemma parsePatch_terminates patch fuel :
  length (patchLines patch) ≤ fuel → parsePatchFuel fuel patch = Some (parsePatch patch).
Proof.
  intros Hf. unfold parsePatch, parsePatchFuel.
  destruct (patchBody (patchLines patch)) as [body|e] eqn:E; [|done].
  apply patchBody_length in E.
  destruct (parseActions_total _ body E) as [r Hr].
  rewrite !Hr by lia. by destruct r as [[|]|].
Qed.

(** ** Finding a sequence of lines *)

Definition matches (norm : jsstr → jsstr) (haystack needle : list jsstr) (i : nat) : Prop :=
  ∀ o l, needle !! o = Some l → ∃ x, haystack !! (i + o) = Some x ∧ norm x = norm l.

(** The positions the search considers. *)
Definition position (haystack needle : list jsstr) (from : nat) (eof : bool) (i : nat) : Prop :=
  from ≤ i ∧ i + length needle ≤ length haystack ∧ (eof = true → i + length needle = length haystack).

Lemma matchAt_spec norm haystack needle i :
  i + length needle ≤ length haystack →
  matchAt haystack needle norm i = true ↔ matches norm haystack needle i.
Proof.
  intros Hl. unfold matchAt, matches. rewrite forallb_forall. split.
  - intros H o l Ho. destruct (lookup_lt_is_Some_2 haystack (i + o)) as [x Hx].
    { apply lookup_lt_Some in Ho. lia. }
    exists x. split; [done|]. assert (E : In (o, l) (imap pair needle)).
    { apply list_elem_of_In, elem_of_lookup_imap. eauto. }
    apply H, js_eqb_eq in E. change (norm (or_empty (haystack !! (i + o))) = norm l) in E.
    by rewrite Hx in E.
  - intros H p Hp%list_elem_of_In. apply elem_of_lookup_imap in Hp as (o & l & -> & Ho).
    destruct (H o l Ho) as (x & Hx & E).
    apply js_eqb_eq. change (norm (or_empty (haystack !! (i + o))) = norm l). by rewrite Hx.
Qed.

Lemma scan_spec p i n :
  match scan p i n with
  | Some j => i ≤ j < i + n ∧ p j = true ∧ ∀ k, i ≤ k < j → p k = false
  | None => ∀ k, i ≤ k < i + n → p k = false
  end.
Proof.
  revert i; induction n as [|n IH]; intros i; cbn; [intros; lia|].
  destruct (p i) eqn:E; [split; [lia|]; split; [done|]; intros; lia|].
  specialize (IH (S i)). destruct (scan p (S i) n) as [j|].
  - destruct IH as (? & ? & Hk). split; [lia|]. split; [done|]. intros k Hk'.
    destruct (decide (k = i)) as [->|]; [done|]. apply Hk. lia.
  - intros k Hk. destruct (decide (k = i)) as [->|]; [done|]. apply IH. lia.
Qed.

(** One normalization: the least position that matches. *)
Definition hit_spec norm haystack needle from eof (hit : option nat) : Prop :=
  match hit with
  | Some i => position haystack needle from eof i ∧ matches norm haystack needle i
              ∧ ∀ j, position haystack needle from eof j → j < i → ¬ matches norm haystack needle j
  | None => ∀ j, position haystack needle from eof j → ¬ matches norm haystack needle j
  end.

Lemma hit_ok norm haystack needle from eof :
  let limit := (length haystack - length needle)%nat in
  hit_spec norm haystack needle from eof
    (if (length haystack <? length needle)%nat then None
     else if eof
     then scan (λ i, (from <=? i)%nat && matchAt haystack needle norm i) limit 1
     else scan (λ i, (from <=? i)%nat && matchAt haystack needle norm i) from (S limit - from)).
Proof.
  cbv zeta. set (p := λ i, _ && _). unfold hit_spec, position.
  assert (Hp : ∀ i, from ≤ i → i + length needle ≤ length haystack →
            p i = true ↔ matches norm haystack needle i).
  { intros i Hf Hi. unfold p. rewrite (proj2 (Nat.leb_le _ _)) by done. by apply matchAt_spec. }
  assert (Hn : ∀ i, from ≤ i → i + length needle ≤ length haystack →
            p i = false → ¬ matches norm haystack needle i).
  { intros i Hf Hi E Hm. apply Hp in Hm; [congruence|done..]. }
  destruct (Nat.ltb_spec (length haystack) (length needle)); [intros j (? & ? & _); lia|].
  destruct eof; pose proof (scan_spec p) as Hs.
  - specialize (Hs (length haystack - length needle) 1). destruct (scan _ _ _) as [i|].
    + destruct Hs as (Hi & Pi & _). assert (from ≤ i) by (unfold p in Pi; by guards).
      split_and!; try (by intros; lia). apply Hp; [lia..|done].
    + intros j (? & ? & Hj). specialize (Hj eq_refl). apply Hn; [lia..|]. apply Hs. lia.
  - specialize (Hs from (S (length haystack - length needle) - from)). destruct (scan _ _ _) as [i|].
    + destruct Hs as (Hi & Pi & Hk). split_and!; try lia; try done; [apply Hp; [lia..|done]|].
      intros j (? & ? & _) ?. apply Hn; [lia..|]. apply Hk. lia.
    + intros j (? & ? & _). apply Hn; [lia..|]. apply Hs. lia.
Qed.

Lemma findSequence_spec haystack needle from eof :
  needle ≠ [] →
  match findSequence haystack needle from eof with
  | Some i => ∃ k norm, normalizations !! k = Some norm
      ∧ position haystack needle from eof i ∧ matches norm haystack needle i
      ∧ (∀ j, position haystack needle from eof j → j < i → ¬ matches norm haystack needle j)
      ∧ (∀ k' norm' j, k' < k → normalizations !! k' = Some norm' →
           position haystack needle from eof j → ¬ matches norm' haystack needle j)
  | None => ∀ norm j, norm ∈ normalizations → position haystack needle from eof j →
              ¬ matches norm haystack needle j
  end.
Proof.
  intros Hne. unfold findSequence. destruct needle as [|l0 needle0]; [done|].
  generalize (l0 :: needle0). clear Hne l0 needle0. intros needle.
  generalize normalizations. induction l as [|norm norms IH]; cbn [findWith].
  { intros norm j H. by apply not_elem_of_nil in H. }
  pose proof (hit_ok norm haystack needle from eof) as Hh. cbv zeta in Hh |- *.
  destruct (if (_ <? _)%nat then None else _) as [i|].
  - destruct Hh as (H1 & H2 & H3). exists 0, norm. split_and!; try done. intros; lia.
  - cbn in Hh. destruct (findWith norms haystack needle from eof) as [i|].
    + destruct IH as (k & norm1 & Hk & H1 & H2 & H3 & H4). exists (S k), norm1. split_and!; try done.
      intros [|k'] norm' j Hlt Hk' Hj; cbn in Hk'; [simplify_eq; by apply Hh|].
      apply (H4 k'); [lia|done|done].
    + intros norm' j [->|Hin]%elem_of_cons Hj; [by apply Hh|by apply IH].
Qed.

(** [findSequence] finds the best match.  For a non-empty needle it returns the first position
    from the start index on (at the end of the file when asked) at which the lines match under the
    strictest of the three comparisons that matches anywhere; -1 means no position matches under
    any of them. *)
Theorem findSequence_finds_best haystack needle from eof :
  needle ≠ [] →
  match findSequence haystack needle from eof with
  | Some i => ∃ k norm, normalizations !! k = Some norm
      ∧ position haystack needle from eof i ∧ matches norm haystack needle i
      ∧ (∀ j, position haystack needle from eof j → j < i → ¬ matches norm haystack needle j)
      ∧ (∀ k' norm' j, k' < k → normalizations !! k' = Some norm' →
           position haystack needle from eof j → ¬ matches norm' haystack needle j)
  | None => ∀ norm j, norm ∈ normalizations → position haystack needle from eof j →
              ¬ matches norm haystack needle j
  end.
Proof. apply findSequence_spec. Qed.

(** ** Hunks edit disjoint regions, in order *)

(** Two lines agree when one of the comparisons takes them for the same. *)
Definition agree (x y : jsstr) : Prop := ∃ norm, norm ∈ normalizations ∧ norm x = norm y.

(** [edits hs l l']: going through [l], each hunk skips a gap, replaces lines that agree with its
    old lines by its new lines, and leaves the rest to the hunks after it.  A hunk with a context
    finds it in its gap, and a hunk at the end of the file leaves no rest. *)
Inductive edits : list UpdateHunk → list jsstr → list jsstr → Prop :=
| edits_nil l : edits [] l l
| edits_cons h hs gap mid rest rest' :
    Forall2 agree mid (oldLines h) →
    match changeContext h with
    | Some ((_ :: _) as ctx) => ∃ x, x ∈ gap ∧ agree x ctx
    | _ => True
    end →
    (endOfFile h = true → rest = []) →
    edits hs rest rest' →
    edits (h :: hs) (gap ++ mid ++ rest) (gap ++ newLines h ++ rest').

(** A found position carries lines that agree with the needle. *)
Lemma find_sound haystack needle from eof i :
  from ≤ length haystack → findSequence haystack needle from eof = Some i →
  from ≤ i ∧ i + length needle ≤ length haystack
  ∧ Forall2 agree (take (length needle) (drop i haystack)) needle
  ∧ (eof = true → needle ≠ [] → i + length needle = length haystack).
Proof.
  intros Hf E. destruct (decide (needle = [])) as [->|Hne].
  { cbn in *. simplify_eq. split_and!; [lia..|by constructor|done]. }
  pose proof (findSequence_spec haystack needle from eof Hne) as H. rewrite E in H.
  destruct H as (k & norm & Hk & (H1 & H2 & H3) & Hm & _). split_and!; [done..| |by auto].
  apply Forall2_same_length_lookup_2.
  - rewrite length_take, length_drop. lia.
  - intros o x y Hx Hy. rewrite lookup_take_Some, lookup_drop in Hx. destruct Hx as [Hx _].
    destruct (Hm o y Hy) as (x' & Hx' & En). simplify_eq. exists norm.
    split; [by eapply list_elem_of_lookup_2|done].
Qed.

Lemma applyHunk_edit path h pre l ls' c' :
  applyHunk path h (pre ++ l, length pre) = Ok (ls', c') →
  ∃ gap mid rest, l = gap ++ mid ++ rest ∧ ls' = (pre ++ gap ++ newLines h) ++ rest
    ∧ c' = length (pre ++ gap ++ newLines h)
    ∧ Forall2 agree mid (oldLines h)
    ∧ match changeContext h with
      | Some ((_ :: _) as ctx) => ∃ x, x ∈ gap ∧ agree x ctx
      | _ => True
      end
    ∧ (endOfFile h = true → rest = []).
Proof.
  unfold applyHunk. intros E. apply bind_Ok in E as (c & Hc & E). cbv zeta in E.
  apply bind_Ok in E as (i & Hi & E). apply require_Ok in Hi.
  apply (f_equal (λ r, match r with Ok p => p | Err _ => ([], 0) end)) in E. injection E as <- <-.
  assert (Hctx : length pre ≤ c ≤ length (pre ++ l)
    ∧ match changeContext h with
      | Some ((_ :: _) as ctx) => ∃ j x, length pre ≤ j < c ∧ (pre ++ l) !! j = Some x ∧ agree x ctx
      | _ => True
      end).
  { destruct (changeContext h) as [[|a ctx]|]; [simplify_eq; rewrite length_app; split; [lia|done]| |
      simplify_eq; rewrite length_app; split; [lia|done]].
    apply bind_Ok in Hc as (j & Hj & Hc). apply require_Ok in Hj.
    assert (S j = c) as <- by (by injection Hc).
    apply find_sound in Hj as (H1 & H2 & H3 & _); [|rewrite length_app; lia]. cbn in H2, H3.
    split; [lia|]. destruct (lookup_lt_is_Some_2 (pre ++ l) j) as [y Hy]; [lia|].
    exists j, y. split_and!; [lia..|done|]. rewrite (drop_S _ y) in H3 by done. cbn in H3.
    by inversion H3. }
  destruct Hctx as [Hcl Hctx].
  assert (Hpos : c ≤ i ∧ i + length (oldLines h) ≤ length (pre ++ l)
            ∧ Forall2 agree (take (length (oldLines h)) (drop i (pre ++ l))) (oldLines h)
            ∧ (endOfFile h = true → i + length (oldLines h) = length (pre ++ l))).
  { destruct (endOfFile h) eqn:Ee, (oldLines h) as [|o os] eqn:Eo; cbn [andb] in Hi;
      try (apply find_sound in Hi as (H1 & H2 & H3 & H4); [|lia]; by auto).
    simplify_eq. cbn. split_and!; [lia..|by constructor|lia]. }
  destruct Hpos as (H1 & H2 & H3 & H4). rewrite length_app in H2, H4, Hcl.
  set (n := length (oldLines h)) in *. set (g := i - length pre).
  assert (Hpre : drop i (pre ++ l) = drop g l)
    by (rewrite drop_app, (drop_ge pre) by lia; done).
  rewrite Hpre in H3.
  exists (take g l), (take n (drop g l)), (drop n (drop g l)). split_and!.
  - by rewrite !take_drop.
  - unfold splice. rewrite take_app, (take_ge pre) by lia.
    rewrite drop_app, (drop_ge pre), drop_drop by lia. rewrite <- !app_assoc. cbn [app].
    by replace (g + n) with (i + n - length pre) by lia.
  - rewrite !length_app, length_take. lia.
  - done.
  - destruct (changeContext h) as [[|a ctx]|]; [done| |done].
    destruct Hctx as (j & x & Hj & Hx & Hag). exists x. split; [|done].
    rewrite lookup_app_r in Hx by lia. apply list_elem_of_lookup_2 with (i := j - length pre).
    rewrite lookup_take_Some. split; [done|lia].
  - intros He. apply H4 in He. rewrite drop_drop. apply drop_ge. lia.
Qed.

(** Applying hunks edits disjoint regions of the file from top to bottom.  When [applyHunks]
    succeeds, the file's lines split, in order, into gaps that stay as they are and regions that
    agree with the hunks' context and removed lines, the output is the same with each region
    replaced by its hunk's new lines, a hunk's change context lies in the gap before it, a hunk
    marked end-of-file ends the file, and the output keeps the file's line ending and ends with
    one. *)
Theorem applyHunks_edits path content hs out :
  applyHunks path content hs = Ok out →
  ∃ ls', edits hs (lines (splitFile content)) ls'
    ∧ out = (if includesCRLF content then lfToCrlf (joinLines ls' +s [LF]) else joinLines ls' +s [LF]).
Proof.
  unfold applyHunks. intros E. apply bind_Ok in E as ([ls c] & Hl & E). injection E as <-.
  exists ls. split; [|done]. revert Hl. generalize (lines (splitFile content)). intros l.
  assert (H : ∀ pre l, applyHunkList path hs (pre ++ l, length pre) = Ok (ls, c) →
            ∃ l', ls = pre ++ l' ∧ edits hs l l').
  { induction hs as [|h hs' IH]; intros pre l0 E.
    - cbn in E. injection E as <- _. exists l0. split; [done|constructor].
    - cbn in E. apply bind_Ok in E as ([ls1 c1] & E1 & E).
      apply applyHunk_edit in E1 as (gap & mid & rest & -> & -> & -> & Hag & Hctx & Heof).
      apply IH in E as (l' & -> & He). exists (gap ++ newLines h ++ l').
      split; [by rewrite <- !app_assoc|by constructor]. }
  intros E. apply (H []) in E as (l' & -> & He). done.
Qed.

Lemma findSequence_finds_best_witness :
  match findSequence [js "a"; "b" +s [9%N]; js "c"] [js "b"] 0 false with
  | Some i => ∃ k norm, normalizations !! k = Some norm
      ∧ matches norm [js "a"; "b" +s [9%N]; js "c"] [js "b"] i
  | None => False
  end.
Proof.
  assert (Hne : [js "b"] ≠ []) by discriminate.
  pose proof (findSequence_finds_best [js "a"; "b" +s [9%N]; js "c"] [js "b"] 0 false Hne) as H.
  destruct (findSequence _ _ _ _) as [i|] eqn:E; [|vm_compute in E; discriminate E].
  destruct H as (k & norm & Hk & _ & Hm & _). by exists k, norm.
Defined.

Definition sampleHunk : UpdateHunk :=
  mkHunk [mkLine context "one"; mkLine remove_line "two"; mkLine add_line "2"] (Some (js "zero")) true.

Lemma applyHunks_edits_witness :
  ∃ out, applyHunks "f" (joinLines [js "zero"; js "one"; js "two"; []]) [sampleHunk] = Ok out
    ∧ ∃ ls', edits [sampleHunk] (lines (splitFile (joinLines [js "zero"; js "one"; js "two"; []]))) ls'.
Proof.
  destruct (applyHunks "f" (joinLines [js "zero"; js "one"; js "two"; []]) [sampleHunk]) as [out|e] eqn:E;
    [|vm_compute in E; discriminate E].
  exists out. split; [done|]. destruct (applyHunks_edits _ _ _ _ E) as (ls' & H & _). by exists ls'.
Defined.

End Patch.
