(* ===== verification/PatchFormat.v ===== *)
(** * The patch format: a printer, and the parser inverts it

    [print] writes a list of file actions in the format [parsePatch] of [src/src/apply-patch.ts]
    reads.  The printer is not in the program; it states which texts the parser accepts and what
    they mean.  The conditions [wf_action] are those the line-based format imposes. *)

From S2P Require Import Prelude JsString Files ApplyPatch.
Import Patch.

Module PatchFormat.

(** ** Printing *)

Definition PLUS : N := 43.
Definition MINUS : N := 45.
Definition SPACE : N := 32.

Definition printLine (l : HunkLine) : jsstr :=
  (match kind l with context => SPACE | add_line => PLUS | remove_line => MINUS end) :: text l.

Definition printContext (ctx : option jsstr) : jsstr :=
  match ctx with Some c => "@@ " +s c | None => js "@@" end.

Definition printHunk (h : UpdateHunk) : list jsstr :=
  printContext (changeContext h) :: ((printLine <$> hlines h)
  ++ (if endOfFile h then [EOF_MARKER] else [])).

Definition plusLine (l : jsstr) : jsstr := PLUS :: l.

Definition printAction (a : PatchAction) : list jsstr :=
  match a with
  | AddFile p content => (ADD +s p) :: (plusLine <$> removelast (split LF content))
  | DeleteFile p => [DELETE +s p]
  | UpdateFile p mv hs =>
      (UPDATE +s p) :: (match mv with Some m => [MOVE +s m] | None => [] end ++ (hs ≫= printHunk))
  end.

Definition print (actions : list PatchAction) : jsstr :=
  joinLines (BEGIN :: ((actions ≫= printAction) ++ [END])).

(** ** What can be printed *)

(** A text on one line. *)
Definition one_line (s : jsstr) : Prop := (LF ∉ s) ∧ (CR ∉ s).

(** A path, a move destination or a change context: read back trimmed. *)
Definition name_ok (s : jsstr) : Prop := trimmed s ∧ s ≠ [] ∧ one_line s.

(** A context line that reads [*** End of File] is taken for the marker. *)
Definition line_ok (l : HunkLine) : Prop :=
  one_line (text l) ∧ (kind l = context → trim (SPACE :: text l) ≠ EOF_MARKER).

Definition hunk_ok (h : UpdateHunk) : Prop :=
  hlines h ≠ [] ∧ Forall line_ok (hlines h)
  ∧ match changeContext h with Some c => name_ok c | None => True end.

Definition wf_action (a : PatchAction) : Prop :=
  match a with
  | AddFile p content =>
      name_ok p ∧ ∃ ls, ls ≠ [] ∧ Forall one_line ls ∧ content = joinLines ls +s [LF]
  | DeleteFile p => name_ok p
  | UpdateFile p mv hs =>
      name_ok p ∧ Forall hunk_ok hs
      ∧ match mv with Some m => name_ok m | None => hs ≠ [] end
  end.

(** ** Trimming what is printed *)

Lemma trimEnd_cons c s : is_space c = false → ∃ t, trimEnd (c :: s) = c :: t.
Proof.
  intros Hc. unfold trimEnd. cbn [rev].
  assert (H : ∀ l, ∃ k, drop_spaces (l ++ [c]) = k ++ [c]).
  { induction l as [|d l [k IH]]; cbn.
    - rewrite Hc. by exists [].
    - destruct (is_space d); [by exists k|]. by exists (d :: l). }
  destruct (H (rev s)) as [k ->]. rewrite rev_app_distr. by exists (rev k).
Qed.

Lemma trim_cons c s : is_space c = false → ∃ t, trim (c :: s) = c :: t.
Proof.
  intros Hc. unfold trim, trimStart. cbn [drop_spaces]. rewrite Hc. by apply trimEnd_cons.
Qed.

(** A header and a trimmed name are trimmed. *)
Lemma trim_header p s :
  trimmed s → s ≠ [] → (∀ c, head p = Some c → is_space c = false) → p ≠ [] → trim (p +s s) = p +s s.
Proof.
  intros [_ Hl] Hs Hp Hne. apply trim_id. unfold js_app. split.
  - destruct p; [done|]. intros c [= <-]. by apply Hp.
  - intros c Hc. apply Hl. rewrite last_app in Hc. destruct (last s) eqn:E; [done|].
    by apply last_None in E.
Qed.

Lemma startsWith_app_false s p q t :
  startsWith (take (length p) s) p = false → length p ≤ length s → q = s ++ t → startsWith q p = false.
Proof.
  intros H Hl ->. destruct (startsWith (s ++ t) p) eqn:E; [|done].
  apply startsWith_app in E as [u E]. rewrite <- H. symmetry. apply startsWith_app. exists [].
  apply (f_equal (take (length p))) in E. rewrite take_app_le in E by done.
  by rewrite take_app_length in E; rewrite app_nil_r.
Qed.

(** The four action headers. *)
Definition headers : list jsstr := [ADD; DELETE; UPDATE; ENVIRONMENT].

(** A line that ends an update's hunks and an added file's lines. *)
Definition header_line (l : jsstr) : Prop :=
  ∃ h n, h ∈ headers ∧ name_ok n ∧ l = h +s n.

Lemma header_line_spec l :
  header_line l →
  isTopLevelHeader l = true ∧ startsWith l " " = false ∧ trim l = l ∧ (l =s EOF_MARKER) = false
  ∧ nonempty l = true ∧ startsWith l MOVE = false.
Proof.
  intros (h & n & Hh & (Ht & Hne & _) & ->).
  unfold headers in Hh. repeat (apply elem_of_cons in Hh as [->|Hh]); [..|by apply not_elem_of_nil in Hh].
  all: assert (E : ∀ h, h ∈ headers → trim (h +s n) = h +s n);
    [intros h Hh; apply trim_header; [done..| |];
     unfold headers in Hh; repeat (apply elem_of_cons in Hh as [->|Hh]); try done;
     try (by apply not_elem_of_nil in Hh); by intros c [= <-]|].
  all: unfold isTopLevelHeader; rewrite !E by (unfold headers; set_solver); cbv zeta; unfold js_app.
  all: split_and!; try done.
  all: try (rewrite startsWith_prefix; rewrite ?orb_true_r; done).
  all: try (apply js_eqb_neq; intros Eq; apply (f_equal (take 9)) in Eq; vm_compute in Eq; discriminate Eq).
Qed.

(** ** The parser on printed hunks *)

Definition appendLines (h : UpdateHunk) (ls : list HunkLine) : UpdateHunk :=
  mkHunk (hlines h ++ ls) (changeContext h) (endOfFile h).

Lemma startsWith_ne c d s t : c ≠ d → startsWith (c :: s) (d :: t) = false.
Proof. intros H. cbn. by rewrite (proj2 (N.eqb_neq d c)) by congruence. Qed.

(** A printed line is none of the markers, and is read back. *)
Lemma printLine_spec l h :
  line_ok l →
  (trim (printLine l) =s EOF_MARKER) = false
  ∧ negb (startsWith (printLine l) " ") && isTopLevelHeader (printLine l) = false
  ∧ startsWith (trim (printLine l)) "@@" && negb (startsWith (printLine l) " ") = false
  ∧ hunkLine (printLine l) h = Ok (push l h).
Proof.
  intros [_ Hctx]. destruct l as [[] s]; unfold printLine; cbn [kind text] in *.
  - assert (Hs : startsWith (SPACE :: s) " " = true) by (by destruct s).
    unfold hunkLine. rewrite Hs, andb_false_r. split_and!; try done. apply js_eqb_neq. by apply Hctx.
  - destruct (trim_cons PLUS s eq_refl) as [t E]. unfold isTopLevelHeader. rewrite E. cbv zeta.
    split_and!; try done. by destruct s.
  - destruct (trim_cons MINUS s eq_refl) as [t E]. unfold isTopLevelHeader. rewrite E. cbv zeta.
    split_and!; try done. by destruct s.
Qed.

Lemma hunkLoop_lines path ls rest h hs :
  Forall line_ok ls →
  hunkLoop path ((printLine <$> ls) ++ rest) (Some h) hs = hunkLoop path rest (Some (appendLines h ls)) hs.
Proof.
  intros Hls. revert h. induction Hls as [|l ls Hl _ IH]; intros h.
  - cbn. f_equal. f_equal. destruct h. unfold appendLines. cbn. by rewrite app_nil_r.
  - destruct (printLine_spec l h Hl) as (H1 & H2 & H3 & H4).
    cbn [fmap list_fmap app hunkLoop]. cbv zeta. cbn [andb negb orb].
    rewrite H1, H2, H3. change (default (emptyHunk None) (Some h)) with h. rewrite H4.
    cbn [mbind res_bind].
    rewrite (IH (push l h)). do 2 f_equal. unfold appendLines, push. cbn. by rewrite <- app_assoc.
Qed.

Lemma printContext_spec ctx :
  match ctx with Some c => name_ok c | None => True end →
  trim (printContext ctx) = printContext ctx ∧ startsWith (printContext ctx) "@@" = true
  ∧ startsWith (printContext ctx) " " = false ∧ isTopLevelHeader (printContext ctx) = false
  ∧ (printContext ctx =s EOF_MARKER) = false ∧ nonempty (printContext ctx) = true
  ∧ or_undefined (trim (slice 2 (printContext ctx))) = ctx ∧ startsWith (printContext ctx) MOVE = false.
Proof.
  destruct ctx as [c|]; [|by vm_compute]. intros (Ht & Hne & _). unfold printContext.
  assert (E : trim ("@@ " +s c) = "@@ " +s c).
  { apply trim_header; [done..| |done]. by intros x [= <-]. }
  unfold isTopLevelHeader. rewrite E. cbv zeta. split_and!; try done.
  assert (Es : trim (slice 2 ("@@ " +s c)) = c).
  { change (slice 2 ("@@ " +s c)) with (SPACE :: c). destruct Ht as [Hh Hl].
    transitivity (trim c); [done|]. apply trim_id. by split. }
  rewrite Es. unfold or_undefined. by destruct c.
Qed.

(** After a context marker the hunk before it is finished. *)
Lemma hunkLoop_context path ctx rest cur hs hs' :
  match ctx with Some c => name_ok c | None => True end → finishCurrent path cur hs = Ok hs' →
  hunkLoop path (printContext ctx :: rest) cur hs = hunkLoop path rest (Some (emptyHunk ctx)) hs'.
Proof.
  intros Hc Hf. apply printContext_spec in Hc as (H1 & H2 & H3 & H4 & H5 & H6 & H7 & _).
  cbn [hunkLoop]. cbv zeta. rewrite H1, H2, H3, H4, H5, H6, Hf, H7. cbn [negb].
  rewrite andb_false_r, !andb_false_r. done.
Qed.

Lemma hunkLoop_eof path rest h hs :
  hunkLoop path (EOF_MARKER :: rest) (Some h) hs
  = hunkLoop path rest (Some (mkHunk (hlines h) (changeContext h) true)) hs.
Proof. done. Qed.

(** What follows an update: another header, or nothing. *)
Definition stop (rest : list jsstr) : Prop :=
  match rest with [] => True | l :: _ => header_line l end.

Lemma hunkLoop_stop path rest cur hs hs' :
  stop rest → finishCurrent path cur hs = Ok hs' → hunkLoop path rest cur hs = Ok (hs', rest).
Proof.
  destruct rest as [|l rest]; intros Hs Hf; cbn [hunkLoop]; [by rewrite Hf|].
  apply header_line_spec in Hs as (H1 & H2 & H3 & H4 & H5 & _). cbv zeta.
  rewrite H3, H4, H5, H1, H2, Hf. cbn [negb]. rewrite andb_false_r, orb_true_r. done.
Qed.

(** The hunks of an update, from a finished state. *)
Lemma hunkLoop_hunks path hunks rest cur hs hs' :
  Forall hunk_ok hunks → stop rest → finishCurrent path cur hs = Ok hs' →
  hunkLoop path ((hunks ≫= printHunk) ++ rest) cur hs = Ok (hs' ++ hunks, rest).
Proof.
  intros Hh Hs. revert cur hs hs'. induction Hh as [|h hunks (Hne & Hls & Hc) _ IH]; intros cur hs hs' Hf.
  - rewrite app_nil_r. by apply hunkLoop_stop.
  - cbn [mbind list_bind]. unfold printHunk at 1. cbn [app].
    rewrite (hunkLoop_context _ _ _ _ _ hs') by done. rewrite <- !app_assoc, hunkLoop_lines by done.
    unfold appendLines, emptyHunk. cbn [hlines changeContext endOfFile app].
    assert (Hd : ∀ e, finishCurrent path (Some (mkHunk (hlines h) (changeContext h) e)) hs'
              = Ok (hs' ++ [mkHunk (hlines h) (changeContext h) e])).
    { intros e. unfold finishCurrent. cbn [hlines]. by destruct (hlines h). }
    destruct h as [ls c e]. cbn [hlines changeContext endOfFile] in *. 
    destruct e; cbn [app]; rewrite ?hunkLoop_eof; cbn [hlines changeContext];
      rewrite (IH _ _ _ (Hd _)), <- app_assoc; done.
Qed.

Lemma addLines_print ls rest :
  stop rest → addLines ((plusLine <$> ls) ++ rest) = Ok (ls, rest).
Proof.
  intros Hs. induction ls as [|l ls IH].
  - cbn. destruct rest as [|x rest]; [done|]. cbn. apply header_line_spec in Hs as (-> & _). done.
  - cbn [fmap list_fmap app addLines].
    assert (isTopLevelHeader (plusLine l) = false) as ->.
    { unfold isTopLevelHeader, plusLine. destruct (trim_cons PLUS l eq_refl) as [t ->]. done. }
    assert (startsWith (plusLine l) "+" = true) as -> by (by destruct l). cbn [negb].
    by rewrite IH.
Qed.

(** ** The parser on printed actions *)

Lemma slice_app p s : slice (length p) (p +s s) = s.
Proof. apply slice_prefix. Qed.

Lemma printHunk_move h hs rest :
  hunk_ok h → moveLine (printHunk h ++ hs ++ rest) = (None, printHunk h ++ hs ++ rest).
Proof.
  intros (_ & _ & Hc). apply printContext_spec in Hc as (H1 & _ & _ & _ & _ & _ & _ & H2).
  unfold printHunk. cbn [app moveLine]. by rewrite H1, H2.
Qed.

Lemma stop_move rest : stop rest → moveLine rest = (None, rest).
Proof.
  destruct rest as [|l rest]; [done|]. intros H. apply header_line_spec in H as (_ & _ & H1 & _ & _ & H2).
  cbn [moveLine]. by rewrite H1, H2.
Qed.

Lemma content_lines ls :
  ls ≠ [] → Forall one_line ls → removelast (split LF (joinLines ls +s [LF])) = ls.
Proof.
  intros Hne Hls. assert (E : joinLines ls +s [LF] = join [LF] (ls ++ [[]])).
  { clear Hls. unfold js_app, joinLines. induction ls as [|l ls IH]; [done|].
    destruct ls as [|l' ls]; [done|]. 
    change (join [LF] ((l :: l' :: ls) ++ [[]])) with (l ++ [LF] ++ join [LF] ((l' :: ls) ++ [[]])).
    rewrite <- IH by done. cbn [join]. by rewrite <- !app_assoc. }
  rewrite E, split_join; [by rewrite removelast_last|by destruct ls|].
  apply Forall_app. split.
  - eapply Forall_impl; [exact Hls|]. by intros l [? _].
  - constructor; [apply not_elem_of_nil|constructor].
Qed.

(** The header of a printed action. *)
Lemma printAction_head a :
  wf_action a → ∃ h n tl, h ∈ headers ∧ name_ok n ∧ printAction a = (h +s n) :: tl.
Proof.
  destruct a as [p content|p|p mv hs]; intros Hw.
  - exists ADD, p. eexists. split_and!; [by left|apply Hw|done].
  - exists DELETE, p. eexists. split_and!; [right; by left|apply Hw|done].
  - exists UPDATE, p. eexists. split_and!; [right; right; by left|apply Hw|done].
Qed.

Lemma parseAction_print a rest header tl :
  wf_action a → stop rest → printAction a = header :: tl →
  parseAction header (tl ++ rest) = Ok (Some a, rest).
Proof.
  intros Hw Hs E. destruct a as [p content|p|p mv hs]; cbn [printAction] in E; injection E as <- <-.
  - destruct Hw as (Hp & ls & Hne & Hls & ->). rewrite content_lines by done.
    unfold parseAction. change (startsWith (ADD +s p) ADD) with (startsWith (ADD ++ p) ADD).
    rewrite startsWith_prefix, slice_app, addLines_print by done. cbn [mbind res_bind].
    by destruct ls.
  - unfold parseAction. change (startsWith (DELETE +s p) DELETE) with (startsWith (DELETE ++ p) DELETE).
    rewrite startsWith_prefix, slice_app. done.
  - destruct Hw as (Hp & Hh & Hm). unfold parseAction.
    change (startsWith (UPDATE +s p) UPDATE) with (startsWith (UPDATE ++ p) UPDATE).
    rewrite startsWith_prefix, slice_app.
    assert (Ef : finishCurrent p None [] = Ok []) by done.
    assert (Emv : moveLine ((match mv with Some m => [MOVE +s m] | None => [] end ++ (hs ≫= printHunk)) ++ rest)
              = (mv, (hs ≫= printHunk) ++ rest)).
    { destruct mv as [m|]; cbn [app].
      - destruct Hm as (Ht & Hne & _). cbn [moveLine].
        rewrite trim_header; [|done..| |done]; [|by intros c [= <-]].
        unfold js_app at 1. rewrite startsWith_prefix, slice_app. done.
      - destruct Hh as [|h hs Hh _]; [done|]. cbn [mbind list_bind]. rewrite <- app_assoc.
        by apply printHunk_move. }
    cbv zeta. change (startsWith (UPDATE +s p) ENVIRONMENT) with false.
    change (startsWith (UPDATE +s p) ADD) with false. change (startsWith (UPDATE +s p) DELETE) with false.
    cbn [js_eqb]. rewrite Emv, (hunkLoop_hunks _ _ _ _ _ _ Hh Hs Ef). cbn [mbind res_bind app].
    destruct mv as [m|]; [|by destruct hs]. destruct Hm as (_ & Hne & _).
    destruct m; [done|]. by rewrite andb_false_r.
Qed.

Lemma parseActions_print actions fuel :
  Forall wf_action actions → length (actions ≫= printAction) ≤ fuel →
  parseActions fuel (actions ≫= printAction) = Some (Ok actions).
Proof.
  intros Hw. revert fuel. induction Hw as [|a actions Ha Hw IH]; intros fuel Hf; [by destruct fuel|].
  cbn [mbind list_bind] in *.
  destruct (printAction_head a Ha) as (h & n & tl & Hh & Hn & E). rewrite E in *. cbn [app length] in *.
  destruct fuel as [|fuel]; [lia|]. cbn [parseActions].
  destruct (header_line_spec (h +s n)) as (_ & _ & -> & _); [by exists h, n|].
  assert (Hs : stop (actions ≫= printAction)).
  { destruct Hw as [|b bs Hb _]; [done|]. cbn [mbind list_bind].
    destruct (printAction_head b Hb) as (h' & n' & tl' & ? & ? & ->). by exists h', n'. }
  rewrite (parseAction_print a _ _ tl Ha Hs E). rewrite IH; [done|].
  rewrite length_app in Hf. lia.
Qed.

(** ** The whole patch *)

Lemma one_line_app a b : one_line a → one_line b → one_line (a +s b).
Proof. intros [? ?] [? ?]. unfold js_app. split; intros [?|?]%elem_of_app; done. Qed.

Lemma one_line_cons c s : c ≠ LF → c ≠ CR → one_line s → one_line (c :: s).
Proof. intros H1 H2 [? ?]. split; intros [?|?]%elem_of_cons; first [done|congruence]. Qed.

(** A literal without line ends. *)
Lemma one_line_lit s : forallb (λ c, negb (c =? LF)%N && negb (c =? CR)%N) s = true → one_line s.
Proof.
  rewrite forallb_forall. intros H.
  split; intros Hin%list_elem_of_In%H; by vm_compute in Hin.
Qed.

Lemma printAction_lines a : wf_action a → Forall one_line (printAction a).
Proof.
  destruct a as [p content|p|p mv hs]; cbn [wf_action printAction].
  - intros ((_ & _ & Hp) & ls & Hne & Hls & ->). rewrite content_lines by done.
    constructor; [apply one_line_app; [by apply one_line_lit|done]|].
    apply Forall_fmap. eapply Forall_impl; [exact Hls|]. intros l Hl. by apply one_line_cons.
  - intros (_ & _ & Hp). constructor; [|done]. apply one_line_app; [by apply one_line_lit|done].
  - intros ((_ & _ & Hp) & Hh & Hm). constructor; [apply one_line_app; [by apply one_line_lit|done]|].
    apply Forall_app. split.
    + destruct mv as [m|]; [|done]. constructor; [|done].
      apply one_line_app; [by apply one_line_lit|apply Hm].
    + clear Hm. induction Hh as [|h hs (_ & Hls & Hc) _ IH]; [done|]. cbn [mbind list_bind].
      apply Forall_app. split; [|done]. unfold printHunk. constructor.
      * destruct (changeContext h) as [c|]; [|by apply one_line_lit].
        apply one_line_app; [by apply one_line_lit|apply Hc].
      * apply Forall_app. split; [|destruct (endOfFile h); repeat constructor; by apply one_line_lit].
        apply Forall_fmap. eapply Forall_impl; [exact Hls|]. intros [k s] [Hl _].
        by apply one_line_cons; [destruct k|destruct k|].
Qed.

Lemma crlfToLf_id s : CR ∉ s → crlfToLf s = s.
Proof.
  induction s as [|c s IH]; intros H; [done|]. apply not_elem_of_cons in H as [Hc Hs].
  cbn [crlfToLf]. rewrite (IH Hs). destruct s; [done|].
  by rewrite (proj2 (N.eqb_neq c CR)) by congruence.
Qed.

Lemma joinLines_no_cr ls : Forall one_line ls → CR ∉ joinLines ls.
Proof.
  unfold joinLines. induction 1 as [|l ls [_ Hl] _ IH]; [apply not_elem_of_nil|].
  destruct ls as [|l' ls]; [done|]. cbn [join]. rewrite !not_elem_of_app. split_and!; [done| |done].
  apply not_elem_of_cons. split; [done|apply not_elem_of_nil].
Qed.

Lemma last_join ls l c : last l = Some c → last (joinLines (ls ++ [l])) = Some c.
Proof.
  intros Hl. unfold joinLines. induction ls as [|l0 ls IH]; [done|].
  cbn [app join]. destruct (ls ++ [l]) eqn:E; [by destruct ls|].
  rewrite last_app. cbn [app last] in *. rewrite last_cons, IH. done.
Qed.

(** The lines of a text between the markers. *)
Lemma patchLines_print body :
  Forall one_line body → patchLines (joinLines (BEGIN :: (body ++ [END]))) = BEGIN :: (body ++ [END]).
Proof.
  intros Hb. set (ls := BEGIN :: (body ++ [END])).
  assert (Hls : Forall one_line ls).
  { constructor; [by apply one_line_lit|]. apply Forall_app. split; [done|].
    constructor; [by apply one_line_lit|done]. }
  assert (Ht : trimmed (joinLines ls)).
  { split.
    - intros c Hc. unfold ls, joinLines in Hc. cbn [join] in Hc. destruct (body ++ [END]); vm_compute in Hc; by injection Hc as <-.
    - intros c Hc. unfold ls in Hc. change (BEGIN :: (body ++ [END])) with ((BEGIN :: body) ++ [END]) in Hc.
      rewrite (last_join _ _ 104%N) in Hc by done. by injection Hc as <-. }
  unfold patchLines. rewrite crlfToLf_id by (by apply joinLines_no_cr). rewrite trim_id by done.
  unfold joinLines. rewrite split_join; [|done|].
  2:{ eapply Forall_impl; [exact Hls|]. by intros l [? _]. }
  cbv zeta. unfold ls. cbn [head]. replace (heredoc_start (trim BEGIN)) with false by (by vm_compute). done.
Qed.

(** C39: Parsing undoes printing: every non-empty list of well-formed actions, printed in the patch
    format, is read back by [parsePatch] as it was. *)
Theorem parse_print actions :
  actions ≠ [] → Forall wf_action actions → parsePatch (print actions) = Ok actions.
Proof.
  intros Hne Hw.
  assert (Hb : Forall one_line (actions ≫= printAction)).
  { clear Hne. induction Hw as [|a actions Ha _ IH]; [done|]. cbn [mbind list_bind].
    apply Forall_app. split; [by apply printAction_lines|done]. }
  unfold parsePatch, parsePatchFuel, print. rewrite patchLines_print by done.
  unfold patchBody. replace (trim BEGIN =s BEGIN) with true by (by vm_compute).
  cbn [ensure mbind res_bind]. rewrite last_snoc. replace (trim END =s END) with true by (by vm_compute).
  cbn [ensure mbind res_bind]. rewrite removelast_last, parseActions_print; [by destruct actions|done|].
  cbn. rewrite length_app. lia.
Qed.

Definition sample : list PatchAction :=
  [AddFile "a b.txt" (joinLines [js "x"; []; js "*** End Patch"] +s [LF]);
   UpdateFile "c" (Some (js "d"))
     [mkHunk [mkLine context "one"; mkLine remove_line "@@"; mkLine add_line []] (Some (js "fn ()")) true;
      mkHunk [mkLine add_line "*** Add File: y"] None false];
   DeleteFile "e"].

Lemma name_ok_lit s :
  nonempty s && bool_decide (trim s = s)
  && forallb (λ c, negb (c =? LF)%N && negb (c =? CR)%N) s
  && match head s with Some c => negb (is_space c) | None => true end
  && match last s with Some c => negb (is_space c) | None => true end = true → name_ok s.
Proof.
  intros H. apply andb_true_iff in H as [H Hl]. apply andb_true_iff in H as [H Hh].
  apply andb_true_iff in H as [H Hf]. apply andb_true_iff in H as [Hn _]. split_and!.
  - split; intros c Hc; [rewrite Hc in Hh|rewrite Hc in Hl]; by apply negb_true_iff.
  - by intros ->.
  - by apply one_line_lit.
Qed.

Lemma sample_wf : Forall wf_action sample.
Proof.
  repeat constructor; try (by apply name_ok_lit; vm_compute); try (by apply one_line_lit; vm_compute);
    try done.
  exists [js "x"; []; js "*** End Patch"]. split_and!; [done| |done].
  repeat constructor; by apply one_line_lit; vm_compute.
Qed.

Lemma parse_print_witness : sample ≠ [] ∧ parsePatch (print sample) = Ok sample.
Proof. split; [discriminate|]. apply (parse_print sample); [discriminate|exact sample_wf]. Defined.

End PatchFormat.
