(* ===== verification/PatchStaging.v ===== *)
(** * Applying a patch to the workspace ([src/src/apply-patch.ts])

    The actions of a patch are staged in a map from absolute path to the file's new content, or to
    its absence; only when every action has been staged are the files written, and then the
    removed ones deleted.  Every path is confined to the workspace when it is staged and again
    before it is written.  The library that renders unified diffs, the process's umask and the
    unique names of temporary files are parameters. *)

From S2P Require Import Prelude JsString Files ApplyPatch.
Import Files Patch.

Module Staging.

(** ** Confinement *)

(** [isInside] *)
Definition isInside (root p : path) : bool :=
  let rel := relative root p in
  negb (nonempty rel) || (negb (startsWith rel DOTS) && negb (isAbsolute rel)).

(** The pieces [rejectSymlinkComponents] splits an absolute path into. *)
Definition components (p : path) : list jsstr :=
  let s := render p in
  List.filter nonempty (split (if includesUnit s BACKSLASH then BACKSLASH else SLASH) s).

(** The loop of [rejectSymlinkComponents], from [current]. *)
Fixpoint rejectFrom (fs : Fs) (target current : path) (cs : list jsstr) : res PatchError unit :=
  match cs with
  | [] => Ok tt
  | c :: cs' =>
      let current := resolve current c in
      match lstat fs current with
      | Ok n =>
          _ ← reject (is_link n) (SymlinkComponent (render target));
          _ ← reject (negb (is_dir n) && negb (bool_decide (current = target)))
                (NotADirectory (render current));
          rejectFrom fs target current cs'
      | Err ENOENT => Ok tt
      | Err e => Err (IoError e)
      end
  end.

Definition rejectSymlinkComponents (fs : Fs) (target : path) : res PatchError unit :=
  rejectFrom fs target [] (components target).

(** [while (true)]: the nearest ancestor that exists is inside the root.  The components are
    reversed, so [dirname] is the tail. *)
Fixpoint nearestInside (fs : Fs) (root : path) (input : jsstr) (existing : list jsstr)
  : res PatchError unit :=
  match realpath fs (rev existing) with
  | Ok r => ensure (isInside root r) (PathResolvesOutside input)
  | Err ENOENT =>
      match existing with
      | [] => Err (IoError ENOENT)
      | _ :: parent => nearestInside fs root input parent
      end
  | Err e => Err (IoError e)
  end.

(** [realpath] as the code awaits it *)
Definition io {A} (r : res errno A) : res PatchError A :=
  match r with Ok a => Ok a | Err e => Err (IoError e) end.

Definition resolveConfinedPath (fs : Fs) (root : path) (input : jsstr) : res PatchError path :=
  _ ← reject (negb (nonempty input) || includesUnit input NUL || isAbsolute input)
        (PathNotRelative input);
  rootPath ← io (realpath fs root);
  let target := resolve rootPath input in
  _ ← ensure (isInside rootPath target) (PathEscapes input);
  _ ← rejectSymlinkComponents fs target;
  _ ← nearestInside fs rootPath input (rev target);
  Ok target.

Definition revalidateConfinedDestination (fs : Fs) (root destination : path) : res PatchError unit :=
  canonicalRoot ← io (realpath fs root);
  let relativePath := relative canonicalRoot destination in
  _ ← reject (startsWith relativePath DOTS || isAbsolute relativePath)
        (PathEscapes (render destination));
  _ ← resolveConfinedPath fs root relativePath;
  Ok tt.

(** [isSamePatchFile], with [lstat] as the reader of identities *)
Definition isSamePatchFile (fs : Fs) (source destination : path) : res PatchError bool :=
  if bool_decide (source = destination) then Ok true
  else if negb (toLowerCase (render source) =s toLowerCase (render destination)) then Ok false
  else
    match lstat fs source, lstat fs destination with
    | Ok a, Ok b => Ok (bool_decide (ino a = ino b))
    | Err ENOENT, _ | Err ENOTDIR, _ | _, Err ENOENT | _, Err ENOTDIR => Ok false
    | Err e, _ | _, Err e => Err (IoError e)
    end.

(** ** Reading *)

Record TextFile := mkText { content : jsstr; fmode : option Z }.

Definition readOptionalTextFile (fs : Fs) (absolute : path) (displayPath : jsstr)
  : res PatchError (option TextFile) :=
  if negb (fileExists fs absolute) then Ok None
  else
    n ← io (stat fs absolute);
    match what n with
    | File (Some text) =>
        _ ← reject (includesUnit text NUL) (Binary displayPath);
        Ok (Some (mkText text (Some (mode n))))
    | File None => Err (NotUtf8 displayPath)
    | _ => Err (NotARegularFile displayPath)
    end.

(** ** The staged files: a [Map], in insertion order *)

Definition Staged : Type := list (path * option TextFile).

Definition lookup_staged (staged : Staged) (p : path) : option (option TextFile) :=
  snd <$> List.find (λ e, bool_decide (e.1 = p)) staged.

(** [staged.set(p, f)] *)
Definition set_staged (p : path) (f : option TextFile) (staged : Staged) : Staged :=
  match lookup_staged staged p with
  | Some _ => List.map (λ e, if bool_decide (e.1 = p) then (p, f) else e) staged
  | None => staged ++ [(p, f)]
  end.

(** [staged.delete(p)] *)
Definition delete_staged (p : path) (staged : Staged) : Staged :=
  List.filter (λ e, negb (bool_decide (e.1 = p))) staged.

Definition readStagedOptional (fs : Fs) (absolute : path) (displayPath : jsstr) (staged : Staged)
  : res PatchError (option TextFile * Staged) :=
  match lookup_staged staged absolute with
  | Some f => Ok (f, staged)
  | None =>
      f ← readOptionalTextFile fs absolute displayPath;
      Ok (f, set_staged absolute f staged)
  end.

Definition readStagedRequired (fs : Fs) (absolute : path) (displayPath : jsstr) (staged : Staged)
  : res PatchError (TextFile * Staged) :=
  '(f, staged') ← readStagedOptional fs absolute displayPath staged;
  f ← require f (FileDoesNotExist displayPath);
  Ok (f, staged').

(** ** Results *)

Inductive PatchOperation := op_add | op_update | op_delete | op_move.

Record AppliedPatchFile := mkApplied {
  apath : jsstr;
  previousPath : option jsstr;
  operation : PatchOperation
}.

Definition stripFinalNewline (value : jsstr) : jsstr :=
  if endsWith value [CR; LF] then take (length value - 2) value
  else if endsWith value [LF] then take (length value - 1) value
  else value.

Definition countPatchStats (patch : jsstr) : nat * nat :=
  let ls := split LF patch in
  (length (List.filter (λ l, startsWith l "+" && negb (startsWith l "+++")) ls),
   length (List.filter (λ l, startsWith l "-" && negb (startsWith l "---")) ls)).

Record State := mkState {
  staged : Staged;
  results : list AppliedPatchFile;
  patches : list jsstr
}.

Record ApplyPatchResult := mkResult {
  files : list AppliedPatchFile;
  patch : jsstr;
  additions : nat;
  removals : nat
}.

Section Run.
(** [createTwoFilesPatch] of the package [diff] on two names and two contents, the names of
    temporary files and the process's file creation mask. *)
Context (createTwoFilesPatch : jsstr → jsstr → jsstr → jsstr → jsstr).
Context (suffix : nat → jsstr) (umask : Z).

Definition unifiedFilePatch (oldPath newPath : jsstr) (oldContent newContent : option jsstr) : jsstr :=
  let oldFileName := match oldContent with None => js "/dev/null" | _ => "a/" +s oldPath end in
  let newFileName := match newContent with None => js "/dev/null" | _ => "b/" +s newPath end in
  let body := createTwoFilesPatch oldFileName newFileName (or_empty oldContent) (or_empty newContent) in
  joinLines
    (["diff --git a/" +s oldPath +s " b/" +s newPath]
     ++ match oldContent with None => [js "new file mode 100644"] | _ => [] end
     ++ match newContent with None => [js "deleted file mode 100644"] | _ => [] end
     ++ [stripFinalNewline body]).

(** ** Staging an action *)

Definition record (op : AppliedPatchFile) (diff : jsstr) (staged : Staged) (st : State) : State :=
  mkState staged (results st ++ [op]) (patches st ++ [diff]).

Definition stageAdd (fs : Fs) (root : path) (p text : jsstr) (st : State) : res PatchError State :=
  absolute ← resolveConfinedPath fs root p;
  '(original, s1) ← readStagedOptional fs absolute p (staged st);
  Ok (record (mkApplied p None op_add)
        (unifiedFilePatch p p (content <$> original) (Some text))
        (set_staged absolute (Some (mkText text (original ≫= fmode))) s1) st).

Definition stageDelete (fs : Fs) (root : path) (p : jsstr) (st : State) : res PatchError State :=
  absolute ← resolveConfinedPath fs root p;
  '(file, s1) ← readStagedRequired fs absolute p (staged st);
  Ok (record (mkApplied p None op_delete)
        (unifiedFilePatch p p (Some (content file)) None)
        (set_staged absolute None s1) st).

Definition stageUpdate (fs : Fs) (root : path) (p : jsstr) (moveTo : option jsstr)
  (hunks : list UpdateHunk) (st : State) : res PatchError State :=
  absolute ← resolveConfinedPath fs root p;
  '(file, s1) ← readStagedRequired fs absolute p (staged st);
  updated ← applyHunks p (content file) hunks;
  match moveTo with
  | Some ((_ :: _) as m) =>
      destination ← resolveConfinedPath fs root m;
      same ← isSamePatchFile fs absolute destination;
      s2 ← (if (same : bool) then Ok (delete_staged absolute s1)
            else '(_, s2) ← readStagedOptional fs destination m s1; Ok s2);
      let s3 := set_staged destination (Some (mkText updated (fmode file))) s2 in
      let s4 := if (same : bool) then s3 else set_staged absolute None s3 in
      Ok (record (mkApplied m (Some p) op_move)
            (unifiedFilePatch p m (Some (content file)) (Some updated)) s4 st)
  | _ =>
      Ok (record (mkApplied p None op_update)
            (unifiedFilePatch p p (Some (content file)) (Some updated))
            (set_staged absolute (Some (mkText updated (fmode file))) s1) st)
  end.

Definition stageAction (fs : Fs) (root : path) (a : PatchAction) : State → res PatchError State :=
  match a with
  | AddFile p text => stageAdd fs root p text
  | DeleteFile p => stageDelete fs root p
  | UpdateFile p moveTo hunks => stageUpdate fs root p moveTo hunks
  end.

Fixpoint stageActions (fs : Fs) (root : path) (actions : list PatchAction) (st : State)
  : res PatchError State :=
  match actions with
  | [] => Ok st
  | a :: actions' => st' ← stageAction fs root a st; stageActions fs root actions' st'
  end.

(** ** Writing *)

Definition lift {A} (m : IO errno A) : IO PatchError A := λ fs,
  let '(fs', r) := m fs in (fs', io r).

(** [`${destination}.kontrol-patch-${process.pid}-${randomUUID()}`] *)
Definition temporary (n : nat) (destination : path) : path :=
  dirname destination ++ [(or_empty (last destination) ++ suffix n : jsstr)].

(** [replaceFile] where [rename] replaces: everywhere but on Windows *)
Definition replaceFile (temporary destination : path) : IO errno unit := rename temporary destination.

(** [writeFile]'s mode, 0o666 unless the file has one, less the process's mask *)
Definition createdMode (m : option Z) : Z := Z.land (Z.ldiff (default 438%Z m) umask) 4095.

(** The [try] of [writeTextFile]: a failure removes the temporary file. *)
Definition writeThrough (n : nat) (destination : path) (text : jsstr) (m : option Z)
  : IO PatchError unit := λ fs,
  let tmp := temporary n destination in
  let write : IO errno unit :=
    _ ← writeFile tmp text (createdMode m); replaceFile tmp destination in
  match write fs with
  | (fs', Ok _) => (fs', Ok tt)
  | (fs', Err e) =>
      match rm tmp fs' with
      | (fs'', Ok _) => (fs'', Err (IoError e))
      | (fs'', Err e') => (fs'', Err (IoError e'))
      end
  end.

Definition writeTextFile (n : nat) (destination : path) (text : jsstr) (m : option Z)
  : IO PatchError unit :=
  _ ← lift (mkdir (dirname destination)); writeThrough n destination text m.

(** The first loop over the staged files; [n] numbers the temporary files. *)
Fixpoint writeStaged (root : path) (n : nat) (staged : Staged) : IO PatchError unit :=
  match staged with
  | [] => mret tt
  | (absolute, Some file) :: rest =>
      _ ← reads (λ fs, revalidateConfinedDestination fs root absolute);
      _ ← writeTextFile n absolute (content file) (fmode file);
      writeStaged root (S n) rest
  | (_, None) :: rest => writeStaged root n rest
  end.

(** The second loop *)
Fixpoint removeStaged (root : path) (staged : Staged) : IO PatchError unit :=
  match staged with
  | [] => mret tt
  | (absolute, None) :: rest =>
      _ ← reads (λ fs, revalidateConfinedDestination fs root absolute);
      _ ← lift (rm absolute);
      removeStaged root rest
  | (_, Some _) :: rest => removeStaged root rest
  end.

Definition summary (st : State) : ApplyPatchResult :=
  let unifiedPatch := joinLines (List.filter nonempty (patches st)) in
  let '(a, r) := countPatchStats unifiedPatch in
  mkResult (results st) unifiedPatch a r.

Definition applyPatch (root : path) (patch : jsstr) : IO PatchError ApplyPatchResult :=
  actions ← reads (λ _, parsePatch patch);
  st ← reads (λ fs, stageActions fs root actions (mkState [] [] []));
  _ ← writeStaged root 0 (staged st);
  _ ← removeStaged root (staged st);
  mret (summary st).

End Run.

#[global] Arguments resolveConfinedPath : simpl never.
#[global] Arguments readOptionalTextFile : simpl never.
#[global] Arguments unifiedFilePatch : simpl never.
#[global] Arguments summary : simpl never.

End Staging.
