(* ===== verification/PatchConfinement.v ===== *)
(** * Confined paths of a patch

    What [resolveConfinedPath] and [revalidateConfinedDestination] of [PatchStaging] accept and
    return: over a well-formed file system an accepted path names an entry below the workspace that
    no symbolic link leads out of. *)

From S2P Require Import Prelude JsString Files ApplyPatch PatchStaging.
Import Files Patch Staging.

Module Confinement.

(** ** Confined paths *)

(** Units that neither end a name nor, as a backslash does, change how a path is split. *)
Definition ordinary (x : N) : Prop := x ≠ BACKSLASH ∧ x ≠ NUL.

Definition ordinary_path (p : path) : Prop := Forall (Forall ordinary) p.

Lemma includesUnit_spec s c : includesUnit s c = true ↔ c ∈ s.
Proof.
  unfold includesUnit. rewrite existsb_exists. setoid_rewrite N.eqb_eq. rewrite list_elem_of_In. naive_solver.
Qed.

(** The pieces of a string hold units of the string. *)
Lemma split_elem c s l x : l ∈ split c s → x ∈ l → x ∈ s.
Proof.
  revert l; induction s as [|d s IH]; intros l; cbn.
  - intros [->|?%not_elem_of_nil]%elem_of_cons; done.
  - destruct (N.eqb d c).
    + intros [->|Hl]%elem_of_cons Hx; [by apply not_elem_of_nil in Hx|]. right. by eapply IH.
    + destruct (split c s) as [|l0 ls].
      * intros [->|?%not_elem_of_nil]%elem_of_cons; [|done].
        intros [->|?%not_elem_of_nil]%elem_of_cons; [by left|done].
      * intros [->|Hl]%elem_of_cons.
        { intros [->|Hx]%elem_of_cons; [by left|]. right. by eapply IH; [left|]. }
        intros Hx. right. by eapply IH; [right|].
Qed.

Lemma join_elem x p : x ∈ join [SLASH] p → x = SLASH ∨ ∃ c, c ∈ p ∧ x ∈ c.
Proof.
  induction p as [|c p IH]; cbn; [by intros ?%not_elem_of_nil|].
  destruct p as [|c' p].
  - intros H. right. exists c. split; [by left|done].
  - intros [H|H]%elem_of_app; [right; exists c; split; [by left|done]|].
    apply elem_of_cons in H as [->|H]; [by left|]. destruct (IH H) as [->|(y & Hy & Hx)]; [by left|].
    right. exists y. split; [by right|done].
Qed.

(** What holds of the units of a base and of an input holds of the path they resolve to. *)
Lemma resolve_units (P : N → Prop) base s :
  Forall (Forall P) base → Forall P s → Forall (Forall P) (resolve base s).
Proof.
  intros Hb Hs. unfold resolve. set (start := if isAbsolute s then _ else _).
  assert (Hst : Forall (Forall P) start) by (unfold start; by destruct (isAbsolute s)).
  assert (Hp : Forall (Forall P) (split SLASH s)).
  { apply Forall_forall. intros l Hl. apply Forall_forall. intros x Hx.
    rewrite Forall_forall in Hs. apply Hs. by eapply split_elem. }
  clearbody start. revert start Hst. induction Hp as [|c cs Hc _ IH]; intros start Hst; cbn; [done|].
  apply IH. unfold resolve_step. destruct (_ || _); [done|]. destruct (c =s DOTS).
  - rewrite removelast_firstn_len. by apply Forall_take.
  - apply Forall_app. split; [done|by constructor].
Qed.

Lemma components_ordinary p : Forall proper p → ordinary_path p → components p = p.
Proof.
  intros Hp Hs. unfold components. cbv zeta.
  destruct (includesUnit (render p) BACKSLASH) eqn:E; [|by apply split_render].
  exfalso. apply includesUnit_spec in E. unfold render in E.
  apply elem_of_cons in E as [E|E]; [by vm_compute in E|].
  apply join_elem in E as [E|(c & Hc & Hx)]; [by vm_compute in E|].
  unfold ordinary_path in Hs. rewrite Forall_forall in Hs. specialize (Hs c Hc).
  rewrite Forall_forall in Hs. by destruct (Hs BACKSLASH Hx).
Qed.

Lemma isInside_inv root p : isInside root p = true → ∃ r, p = root ++ r.
Proof.
  unfold isInside, relative. destruct (strip_common root p) as [x y] eqn:E.
  apply strip_common_spec in E as (z & -> & ->).
  destruct x as [|u x]; [intros _; exists y; by rewrite app_nil_r|].
  cbn [fmap list_fmap app]. by destruct (_ ++ y); intros H; vm_compute in H.
Qed.

(** What the component loop accepts is plain. *)
Lemma rejectFrom_plain fs target cur rest :
  wf fs → dir_at fs cur → Forall proper rest → cur ++ rest = target →
  rejectFrom fs target cur rest = Ok tt → plain fs target.
Proof.
  intros Hw Hd Hr. revert cur Hd. induction Hr as [|c rest Hc Hr IH]; intros cur Hd <- E.
  { rewrite app_nil_r. by apply plain_dir. }
  cbn [rejectFrom] in E. rewrite resolve_one, lstat_child in E by done. cbv zeta in E.
  destruct (fs !! (cur ++ [c])) as [n|] eqn:En; cbn [require] in E.
  - apply bind_Ok in E as (_ & Hl%reject_Ok & E). apply bind_Ok in E as (_ & Hf%reject_Ok & E).
    destruct (is_dir n) eqn:Dn.
    + apply (IH (cur ++ [c])); [apply dir_at_spec; eauto|by rewrite <- app_assoc|done].
    + guards. destruct Hf as [|Hf]; [done|]. apply app_inv_head in Hf. injection Hf as Hf.
      subst rest. split; [|intros m Hm; congruence].
      intros q r m Eq Hne Hm. destruct r as [|x r _] using rev_ind; [done|].
      rewrite app_assoc in Eq. apply app_inj_tail in Eq as [-> _].
      apply wf_prefix_dir, dir_at_spec in Hd as (k & Hk & Hkd); [congruence|done].
  - assert (Hnone : ∀ r, fs !! (cur ++ c :: r) = None).
    { intros r. destruct (fs !! (cur ++ c :: r)) as [m|] eqn:Em; [|done].
      destruct r as [|x r]; [congruence|].
      replace (cur ++ c :: x :: r) with ((cur ++ [c]) ++ x :: r) in Em by (by rewrite <- app_assoc).
      apply wf_above, dir_at_spec in Em as (k & Hk & _); [congruence|done..]. }
    split; [|by intros n; rewrite Hnone].
    intros q r n Eq Hne Hn. apply app_eq_inv in Eq as [(k & E1 & E2)|(k & E1 & E2)].
    + subst cur. apply wf_prefix_dir, dir_at_spec in Hd as (m & Hm & Hmd); [congruence|done].
    + destruct k as [|x k].
      * rewrite app_nil_r in E1. subst q. apply dir_at_spec in Hd as (m & Hm & Hmd). congruence.
      * cbn in E2. injection E2 as <- E2. subst q. by rewrite Hnone in Hn.
Qed.

Lemma plain_prefix fs p q : wf fs → plain fs (p ++ q) → plain fs p.
Proof.
  intros Hw. induction q as [|c q IH] using rev_ind; [by rewrite app_nil_r|].
  rewrite app_assoc. intros H. apply IH. by eapply plain_parent.
Qed.

(** ... and it accepts what is plain. *)
Lemma rejectFrom_complete fs target cur rest :
  wf fs → dir_at fs cur → Forall proper rest → cur ++ rest = target → plain fs target →
  rejectFrom fs target cur rest = Ok tt.
Proof.
  intros Hw Hd Hr. revert cur Hd. induction Hr as [|c rest Hc Hr IH]; intros cur Hd <- Hp; [done|].
  cbn [rejectFrom]. rewrite resolve_one, lstat_child by done. cbv zeta.
  assert (Hp' : plain fs (cur ++ [c])).
  { apply (plain_prefix _ _ rest); [done|]. by rewrite <- app_assoc. }
  destruct (fs !! (cur ++ [c])) as [n|] eqn:En; cbn [require]; [|done].
  rewrite (proj2 Hp' n En). cbn [reject mbind res_bind].
  destruct rest as [|d rest].
  - rewrite bool_decide_true by done. by rewrite andb_false_r.
  - assert (Dn : is_dir n = true).
    { apply (proj1 Hp (cur ++ [c]) (d :: rest)); [by rewrite <- app_assoc|done..]. }
    rewrite Dn. cbn [negb andb reject mbind res_bind].
    apply IH; [apply dir_at_spec; eauto|by rewrite <- app_assoc|done].
Qed.

Lemma nearestInside_eq fs root input existing :
  nearestInside fs root input existing
  = match realpath fs (rev existing) with
    | Ok r => ensure (isInside root r) (PathResolvesOutside input)
    | Err ENOENT =>
        match existing with
        | [] => Err (IoError ENOENT)
        | _ :: parent => nearestInside fs root input parent
        end
    | Err e => Err (IoError e)
    end.
Proof. by destruct existing. Qed.

Lemma join_app_prefix p q : ∃ t, join [SLASH] (p ++ q) = join [SLASH] p ++ t.
Proof.
  induction p as [|c p [t IH]]; [by exists (join [SLASH] q)|].
  destruct p as [|c' p].
  - destruct q as [|d q]; [exists []; cbn; by rewrite app_nil_r|]. exists (SLASH :: join [SLASH] (d :: q)). done.
  - exists t. change (join [SLASH] ((c :: c' :: p) ++ q)) with (c ++ [SLASH] ++ join [SLASH] ((c' :: p) ++ q)).
    rewrite IH. change (join [SLASH] (c :: c' :: p)) with (c ++ [SLASH] ++ join [SLASH] (c' :: p)).
    by rewrite <- !app_assoc.
Qed.

Lemma join_nonempty p : Forall proper p → p ≠ [] → nonempty (join [SLASH] p) = true.
Proof. intros [|c q (Hc & _) _]; [done|]. destruct c; [done|]. by destruct q. Qed.

Lemma join_relative p : Forall proper p → isAbsolute (join [SLASH] p) = false.
Proof.
  intros [|c q (Hc & _ & _ & Hs) _]; [done|]. destruct c as [|x c]; [done|].
  assert (E : (SLASH =? x)%N = false) by (apply N.eqb_neq; intros <-; apply Hs; by left).
  unfold isAbsolute. destruct q; cbn [join app startsWith]; by rewrite E.
Qed.

Lemma isInside_app root r :
  Forall proper r → isInside root (root ++ r) = negb (startsWith (join [SLASH] r) DOTS).
Proof.
  intros Hr. unfold isInside. rewrite relative_prefix. cbv zeta. rewrite join_relative by done.
  destruct (decide (r = [])) as [->|Hne]; [done|]. rewrite join_nonempty by done.
  cbn [negb orb]. by rewrite andb_true_r.
Qed.

Lemma isInside_refl root : isInside root root = true.
Proof.
  pose proof (isInside_app root [] (Forall_nil_2 _)) as H. rewrite app_nil_r in H. exact H.
Qed.

Lemma isInside_prefix root p q :
  Forall proper (p ++ q) → isInside root (root ++ p ++ q) = true → isInside root (root ++ p) = true.
Proof.
  intros Hp. rewrite !isInside_app; [|by apply Forall_app in Hp as [? _]|done].
  destruct (join_app_prefix p q) as [t ->]. rewrite !negb_true_iff. intros H.
  destruct (startsWith (join [SLASH] p) DOTS) eqn:E; [|done].
  apply startsWith_app in E as [u E]. by rewrite E, <- app_assoc, startsWith_prefix in H.
Qed.

Lemma nearestInside_complete fs root input p q :
  wf fs → dir_at fs root → Forall proper (p ++ q) → plain fs (root ++ p ++ q) →
  isInside root (root ++ p ++ q) = true → nearestInside fs root input (rev (root ++ p)) = Ok tt.
Proof.
  intros Hw Hd. revert q. induction p as [|c p IH] using rev_ind; intros q Hn Hp Hi.
  - rewrite app_nil_r, nearestInside_eq, rev_involutive, realpath_dir by done.
    cbn [ensure]. by rewrite isInside_refl.
  - rewrite nearestInside_eq, rev_involutive. pose proof Hp as Hpr. rewrite app_assoc in Hpr.
    apply plain_prefix in Hpr; [|done]. rewrite realpath_plain; [|done| |done].
    2:{ apply Forall_app. split; [by eapply dir_at_names|by apply Forall_app in Hn as [? _]]. }
    destruct (fs !! _).
    + by rewrite (isInside_prefix _ _ q).
    + rewrite app_assoc, rev_app_distr. cbn [rev app].
      apply (IH (c :: q)); rewrite <- ?app_assoc in *; done.
Qed.

(** What does not depend on the file system: the path of an entry of the workspace that the
    checks can accept. *)
Record entry (root p : path) : Prop := {
  entry_proper : Forall proper p;
  entry_ordinary : ordinary_path p;
  entry_inside : isInside root p = true
}.

Section Confined.
Context (fs : Fs) (root : path) (Hw : wf fs) (Hd : dir_at fs root) (Ho : ordinary_path root).

Lemma root_proper : Forall proper root.
Proof using Hw Hd. by eapply dir_at_names. Qed.

Lemma resolveConfined_entry input target :
  BACKSLASH ∉ input → resolveConfinedPath fs root input = Ok target →
  target = resolve root input ∧ entry root target ∧ plain fs target.
Proof using Hw Hd Ho.
  intros Hb E. unfold resolveConfinedPath in E. rewrite realpath_dir in E by done.
  apply bind_Ok in E as (_ & Hg%reject_Ok & E). cbn [io mbind res_bind] in E.
  apply bind_Ok in E as (_ & Hi%ensure_Ok & E). apply bind_Ok in E as ([] & Hr & E).
  apply bind_Ok in E as (_ & _ & E). injection E as <-.
  assert (Hp : Forall proper (resolve root input)) by apply resolve_proper, root_proper.
  assert (Hn : ordinary_path (resolve root input)).
  { apply resolve_units; [done|]. apply Forall_forall. intros x Hx. split.
    - by intros ->.
    - intros ->. guards. apply includesUnit_spec in Hx. congruence. }
  split_and!; [done|by constructor|]. unfold rejectSymlinkComponents in Hr.
  rewrite components_ordinary in Hr by done.
  by apply (rejectFrom_plain fs _ [] (resolve root input)) in Hr; [|done|apply wf_root| |].
Qed.

Lemma entry_below p : entry root p → ∃ r, p = root ++ r ∧ Forall proper r ∧ ordinary_path r.
Proof.
  intros [Hp Hn Hi]. apply isInside_inv in Hi as [r ->]. exists r.
  by apply Forall_app in Hp as [_ ?], Hn as [_ ?].
Qed.

(** Every entry of the workspace whose path is plain passes the checks. *)
Lemma resolveConfined_complete r :
  r ≠ [] → entry root (root ++ r) → plain fs (root ++ r) →
  resolveConfinedPath fs root (join [SLASH] r) = Ok (root ++ r).
Proof using Hw Hd.
  intros Hne [Hp Hn Hi] Hpl. unfold resolveConfinedPath.
  apply Forall_app in Hp as [_ Hr]. apply Forall_app in Hn as Hn'. destruct Hn' as [_ Hnr].
  rewrite join_nonempty, join_relative by done.
  assert (includesUnit (join [SLASH] r) NUL = false) as ->.
  { destruct (includesUnit _ NUL) eqn:E; [|done]. apply includesUnit_spec, join_elem in E as [E|(c & Hc & Hx)].
    - by vm_compute in E.
    - unfold ordinary_path in Hnr. rewrite Forall_forall in Hnr. specialize (Hnr c Hc).
      rewrite Forall_forall in Hnr. by destruct (Hnr NUL Hx). }
  cbn [negb orb reject mbind res_bind]. rewrite realpath_dir by done. cbn [io mbind res_bind].
  rewrite resolve_app by done. cbv zeta. rewrite Hi. cbn [ensure mbind res_bind].
  assert (Hpr : Forall proper (root ++ r)) by (apply Forall_app; split; [apply root_proper|done]).
  unfold rejectSymlinkComponents. rewrite components_ordinary by done.
  rewrite (rejectFrom_complete fs _ [] (root ++ r)) by (done || apply wf_root, Hw).
  cbn [mbind res_bind].
  pose proof (nearestInside_complete fs root (join [SLASH] r) r [] Hw Hd) as H.
  rewrite app_nil_r in H. by rewrite H.
Qed.

Lemma revalidate_plain p :
  entry root p → revalidateConfinedDestination fs root p = Ok tt → p ≠ root ∧ plain fs p.
Proof using Hw Hd Ho.
  intros He E. destruct (entry_below p He) as (r & -> & Hr & Hnr).
  unfold revalidateConfinedDestination in E. rewrite realpath_dir in E by done.
  cbn [io mbind res_bind] in E. rewrite relative_prefix in E. cbv zeta in E.
  apply bind_Ok in E as (_ & _ & E). apply bind_Ok in E as (t & E & _).
  assert (Hne : r ≠ []) by (by intros ->).
  split; [intros H; apply Hne; apply (app_inv_head root); by rewrite app_nil_r|].
  apply resolveConfined_entry in E as (-> & _ & E); [by rewrite resolve_app in E|].
  intros [Hx|(c & Hc & Hx)]%join_elem; [by vm_compute in Hx|].
  unfold ordinary_path in Hnr. rewrite Forall_forall in Hnr. specialize (Hnr c Hc).
  rewrite Forall_forall in Hnr. by destruct (Hnr _ Hx).
Qed.

Lemma revalidate_complete p :
  entry root p → p ≠ root → plain fs p → revalidateConfinedDestination fs root p = Ok tt.
Proof using Hw Hd.
  intros He Hne Hp. destruct (entry_below p He) as (r & -> & Hr & Hnr).
  assert (r ≠ []) by (intros ->; by rewrite app_nil_r in Hne).
  unfold revalidateConfinedDestination. rewrite realpath_dir by done.
  cbn [io mbind res_bind]. rewrite relative_prefix. cbv zeta.
  pose proof (entry_inside _ _ He) as Hi. rewrite isInside_app, negb_true_iff in Hi by done.
  rewrite Hi, join_relative by done. cbn [orb reject mbind res_bind].
  by rewrite resolveConfined_complete.
Qed.
End Confined.

End Confinement.
