(* ===== verification/PatchApplied.v ===== *)
(** * What applying a patch does

    The staged map simulates the actions run one after the other on the texts of the files; writing
    and removing then realise the map on the file system.  The theorems about [applyPatch] of
    [PatchStaging] follow, with concrete file systems at the end. *)

From S2P Require Import Prelude JsString Files ApplyPatch PatchStaging PatchConfinement.
Import Files Patch Staging Confinement.

Module Applied.

(** ** Reading *)

(** The text of a file; nothing for what is not a text file. *)
Definition textAt (fs : Fs) (p : path) : option jsstr :=
  n ← fs !! p; match what n with File t => t | _ => None end.

Lemma readOptional_plain fs p display f :
  wf fs → Forall proper p → plain fs p → readOptionalTextFile fs p display = Ok f →
  content <$> f = textAt fs p ∧ ¬ dir_at fs p ∧ (f = None → fs !! p = None).
Proof.
  intros Hw Hn Hp. unfold readOptionalTextFile, fileExists, textAt. rewrite stat_plain by done.
  rewrite dir_at_spec. destruct (fs !! p) as [n|] eqn:En; cbn [require is_ok negb].
  - intros E. cbn [io mbind res_bind option_bind] in *.
    destruct (what n) as [|[t|]|] eqn:Ew; try done. apply bind_Ok in E as (_ & _ & E). injection E as <-.
    split_and!; [done| |done]. intros (m & [= <-] & Hm).
    unfold is_dir in Hm. by rewrite Ew in Hm.
  - intros [= <-]. split_and!; [done| |done]. by intros (? & ? & _).
Qed.

(** ** The sequential specification *)

(** The text files of a file system. *)
Definition texts (fs : Fs) : gmap (list jsstr) jsstr :=
  omap (λ n, match what n with File t => t | _ => None end) fs.

Lemma lookup_texts fs p : texts fs !! p = textAt fs p.
Proof. apply lookup_omap. Qed.

(** An action on the text files, with nothing staged. *)
Definition runAction (root : path) (a : PatchAction) (σ : gmap (list jsstr) jsstr)
  : res PatchError (gmap (list jsstr) jsstr) :=
  match a with
  | AddFile p text => Ok (<[resolve root p := text]> σ)
  | DeleteFile p =>
      _ ← require (σ !! resolve root p) (FileDoesNotExist p);
      Ok (delete (resolve root p) σ)
  | UpdateFile p moveTo hunks =>
      old ← require (σ !! resolve root p) (FileDoesNotExist p);
      new ← applyHunks p old hunks;
      Ok (match moveTo with
          | Some ((_ :: _) as m) => <[resolve root m := new]> (delete (resolve root p) σ)
          | _ => <[resolve root p := new]> σ
          end)
  end.

Fixpoint runActions (root : path) (actions : list PatchAction) (σ : gmap (list jsstr) jsstr)
  : res PatchError (gmap (list jsstr) jsstr) :=
  match actions with
  | [] => Ok σ
  | a :: actions' => σ' ← runAction root a σ; runActions root actions' σ'
  end.

(** What an action reports. *)
Definition applied (a : PatchAction) : AppliedPatchFile :=
  match a with
  | AddFile p _ => mkApplied p None op_add
  | DeleteFile p => mkApplied p None op_delete
  | UpdateFile p (Some ((_ :: _) as m)) _ => mkApplied m (Some p) op_move
  | UpdateFile p _ _ => mkApplied p None op_update
  end.

(** The paths an action names. *)
Definition inputs (a : PatchAction) : list jsstr :=
  match a with
  | AddFile p _ | DeleteFile p => [p]
  | UpdateFile p (Some ((_ :: _) as m)) _ => [p; m]
  | UpdateFile p _ _ => [p]
  end.

(** ** The staged map *)

Lemma lookup_staged_cons p f s q :
  lookup_staged ((p, f) :: s) q = if decide (q = p) then Some f else lookup_staged s q.
Proof.
  unfold lookup_staged. cbn. destruct (decide (q = p)) as [->|Hne].
  - by rewrite bool_decide_true.
  - by rewrite bool_decide_false by congruence.
Qed.

Lemma lookup_staged_app s t q :
  lookup_staged (s ++ t) q
  = match lookup_staged s q with Some f => Some f | None => lookup_staged t q end.
Proof.
  unfold lookup_staged. rewrite find_app. by destruct (List.find _ s).
Qed.

Lemma lookup_staged_elem s p f : lookup_staged s p = Some f → (p, f) ∈ s.
Proof.
  unfold lookup_staged. intros H. apply fmap_Some in H as ([q g] & H & ->).
  apply find_some_iff in H as [Hin Hq]. guards. cbn in *. by subst q.
Qed.

Lemma lookup_staged_None s p : lookup_staged s p = None → p ∉ s.*1.
Proof.
  intros H Hin. apply list_elem_of_fmap in Hin as ([q f] & -> & Hin). cbn in H.
  unfold lookup_staged in H. apply fmap_None in H.
  rewrite find_none_iff in H. specialize (H _ Hin). guards. done.
Qed.

Lemma keys_set p f s : (set_staged p f s).*1 = match lookup_staged s p with Some _ => s.*1 | None => s.*1 ++ [p] end.
Proof.
  unfold set_staged. destruct (lookup_staged s p) as [g|].
  - induction s as [|[q h] s IH]; cbn; [done|]. f_equal; [|exact IH].
    case_bool_decide as E; [by subst q|done].
  - by rewrite fmap_app.
Qed.

Lemma lookup_replaced p f s q :
  lookup_staged (List.map (λ e, if bool_decide (e.1 = p) then (p, f) else e) s) q
  = if decide (q = p) then (λ _, f) <$> lookup_staged s p else lookup_staged s q.
Proof.
  induction s as [|[r h] s IH]; cbn [List.map]; [by destruct (decide _)|]. cbn [fst].
  case_bool_decide as E; rewrite !lookup_staged_cons, IH.
  - subst r. destruct (decide (q = p)) as [->|]; [by rewrite decide_True|done].
  - destruct (decide (q = r)) as [->|].
    + by rewrite decide_False.
    + destruct (decide (q = p)); [|done]. rewrite decide_False; [done|congruence].
Qed.

Lemma lookup_set p f s q :
  lookup_staged (set_staged p f s) q = if decide (q = p) then Some f else lookup_staged s q.
Proof.
  unfold set_staged. destruct (lookup_staged s p) as [g|] eqn:E.
  - by rewrite lookup_replaced, E.
  - rewrite lookup_staged_app, lookup_staged_cons. destruct (decide (q = p)) as [->|]; [by rewrite E|].
    by destruct (lookup_staged s q).
Qed.

Lemma lookup_delete p s q :
  lookup_staged (delete_staged p s) q = if decide (q = p) then None else lookup_staged s q.
Proof.
  unfold delete_staged. induction s as [|[r h] s IH]; cbn [List.filter fst]; [by destruct (decide _)|].
  case_bool_decide as E; cbn [negb]; rewrite ?lookup_staged_cons, IH;
    destruct (decide (q = p)), (decide (q = r)); congruence.
Qed.

Lemma NoDup_set p f s : NoDup s.*1 → NoDup (set_staged p f s).*1.
Proof.
  intros H. rewrite keys_set. destruct (lookup_staged s p) eqn:E; [done|].
  apply NoDup_app. split_and!; [done| |apply NoDup_singleton].
  intros x Hx ->%list_elem_of_singleton. by apply lookup_staged_None in E.
Qed.

Lemma elem_delete p s e : e ∈ delete_staged p s ↔ e ∈ s ∧ e.1 ≠ p.
Proof. unfold delete_staged. rewrite elem_of_Lfilter. reflect_guards. done. Qed.

Lemma NoDup_delete p s : NoDup s.*1 → NoDup (delete_staged p s).*1.
Proof.
  unfold delete_staged. induction s as [|[r h] s IH]; [done|]. cbn [fmap list_fmap fst].
  rewrite NoDup_cons. intros [Hn Hd]. cbn [List.filter fst].
  case_bool_decide; cbn [negb fmap list_fmap fst]; [by apply IH|]. apply NoDup_cons. split; [|by apply IH].
  intros Hin. apply Hn. apply list_elem_of_fmap in Hin as (e & -> & He).
  apply (elem_delete p) in He as [He _]. by apply list_elem_of_fmap_2.
Qed.

Lemma key_of_set p f s k g : (k, g) ∈ set_staged p f s → k = p ∨ k ∈ s.*1.
Proof.
  intros H. apply (list_elem_of_fmap_2 fst) in H. rewrite keys_set in H. cbn in H.
  destruct (lookup_staged s p); [by right|]. apply elem_of_app in H as [H|H%list_elem_of_singleton]; auto.
Qed.

(** ** Staging simulates the sequential run *)

(** No entry goes by two paths. *)
Definition no_aliases (fs : Fs) : Prop :=
  ∀ p q n m, fs !! p = Some n → fs !! q = Some m → ino n = ino m → p = q.

(** What one inode is, it is under all its paths: only a directory is a directory. *)
Definition one_kind (fs : Fs) : Prop :=
  ∀ p q n m, fs !! p = Some n → fs !! q = Some m → ino n = ino m → is_dir n = is_dir m.

Lemma no_aliases_one_kind fs : no_aliases fs → one_kind fs.
Proof. intros H p q n m Hp Hq E. assert (p = q) as -> by (by eapply H). congruence. Qed.

Section Staging.
Context (diff : jsstr → jsstr → jsstr → jsstr → jsstr).
Context (fs : Fs) (root : path) (Hw : wf fs) (Hd : dir_at fs root) (Ho : ordinary_path root).
(** The paths the patch names. *)
Context (names : list jsstr) (Hnames : ∀ i, i ∈ names → BACKSLASH ∉ i).

(** A staged path is one the patch names, was accepted and is no directory. *)
Definition stageable (p : path) : Prop :=
  entry root p ∧ plain fs p ∧ ¬ dir_at fs p ∧ ∃ i, i ∈ names ∧ p = resolve root i.

Definition staged_ok (s : Staged) : Prop := NoDup s.*1 ∧ ∀ p, p ∈ s.*1 → stageable p.

(** The text files there would be if what is staged were written. *)
Definition represents (s : Staged) (σ : gmap (list jsstr) jsstr) : Prop :=
  ∀ p, σ !! p = match lookup_staged s p with Some f => content <$> f | None => textAt fs p end.

Lemma staged_ok_set p f s : staged_ok s → stageable p → staged_ok (set_staged p f s).
Proof.
  intros [Hn Hs] Hp. split; [by apply NoDup_set|]. intros k Hk. rewrite keys_set in Hk.
  destruct (lookup_staged s p); [by apply Hs|].
  apply elem_of_app in Hk as [Hk| ->%list_elem_of_singleton]; [by apply Hs|done].
Qed.

Lemma staged_ok_delete p s : staged_ok s → staged_ok (delete_staged p s).
Proof.
  intros [Hn Hs]. split; [by apply NoDup_delete|]. intros k (e & -> & He)%list_elem_of_fmap.
  apply elem_delete in He as [He _]. by apply Hs, list_elem_of_fmap_2.
Qed.

Lemma represents_set p f s σ σ' :
  represents s σ → (∀ q, σ' !! q = if decide (q = p) then content <$> f else σ !! q) →
  represents (set_staged p f s) σ'.
Proof.
  intros H Hσ q. rewrite Hσ, lookup_set. destruct (decide (q = p)); [done|]. apply H.
Qed.

Lemma represents_insert p f s σ :
  represents s σ → represents (set_staged p (Some f) s) (<[p := content f]> σ).
Proof.
  intros H. apply (represents_set _ _ _ σ); [done|]. intros q.
  destruct (decide (q = p)) as [->|]; [by rewrite lookup_insert_eq|by rewrite lookup_insert_ne].
Qed.

Lemma represents_remove p s σ : represents s σ → represents (set_staged p None s) (delete p σ).
Proof.
  intros H. apply (represents_set _ _ _ σ); [done|]. intros q.
  destruct (decide (q = p)) as [->|]; [by rewrite lookup_delete_eq|by rewrite lookup_delete_ne].
Qed.

(** Unstaging and staging again, as for a move onto the same file, leaves the later content. *)
Lemma represents_restage p f s σ :
  represents s σ → represents (set_staged p (Some f) (delete_staged p s)) (<[p := content f]> σ).
Proof.
  intros H q. rewrite lookup_set, lookup_delete.
  destruct (decide (q = p)) as [->|]; [by rewrite lookup_insert_eq|rewrite lookup_insert_ne by done; apply H].
Qed.

(** There is always a map that what is staged represents. *)
Lemma represents_exists s : ∃ σ, represents s σ.
Proof.
  induction s as [|[p f] s [σ H]]; [exists (texts fs); intros p; apply lookup_texts|].
  exists (match f with Some g => <[p := content g]> σ | None => delete p σ end).
  intros q. rewrite lookup_staged_cons. destruct (decide (q = p)) as [->|Hne].
  - destruct f; [by rewrite lookup_insert_eq|by rewrite lookup_delete_eq].
  - destruct f; [rewrite lookup_insert_ne by done|rewrite lookup_delete_ne by done]; apply H.
Qed.

(** Reading a confined path through the staged map. *)
Lemma readStaged_spec i absolute f s s' σ :
  i ∈ names → resolveConfinedPath fs root i = Ok absolute →
  readStagedOptional fs absolute i s = Ok (f, s') → staged_ok s → represents s σ →
  absolute = resolve root i ∧ σ !! absolute = content <$> f ∧ staged_ok s' ∧ represents s' σ
  ∧ stageable absolute ∧ lookup_staged s' absolute = Some f.
Proof using Hw Hd Ho Hnames.
  intros Hi Hr E Hs Hσ. apply resolveConfined_entry in Hr as (Ea & He & Hp); [|by auto..].
  split; [done|]. unfold readStagedOptional in E.
  destruct (lookup_staged s absolute) as [g|] eqn:El.
  - injection E as <- <-. rewrite (Hσ absolute), El. split_and!; try done.
    apply Hs. apply lookup_staged_elem in El. by apply (list_elem_of_fmap_2 fst) in El.
  - apply bind_Ok in E as (f' & Hf & E). apply pair_equal_spec in E as [<- <-] || injection E as <- <-.
    apply readOptional_plain in Hf as (Ht & Hnd & _); [|done|apply He|done].
    assert (Hst : stageable absolute) by (split_and!; [done..|by exists i]).
    rewrite (Hσ absolute), El. split_and!; try done.
    + by apply staged_ok_set.
    + apply (represents_set _ _ _ σ); [done|]. intros q. destruct (decide (q = absolute)) as [->|]; [|done].
      by rewrite (Hσ absolute), El.
    + rewrite lookup_set. by rewrite decide_True.
Qed.

Lemma readRequired_spec i absolute f s s' σ :
  i ∈ names → resolveConfinedPath fs root i = Ok absolute →
  readStagedRequired fs absolute i s = Ok (f, s') → staged_ok s → represents s σ →
  absolute = resolve root i ∧ σ !! absolute = Some (content f) ∧ staged_ok s' ∧ represents s' σ
  ∧ stageable absolute.
Proof using Hw Hd Ho Hnames.
  intros Hi Hr E Hs Hσ. unfold readStagedRequired in E. apply bind_Ok in E as ([g s1] & E1 & E).
  apply bind_Ok in E as (f' & Hf%require_Ok & E). simplify_eq.
  eapply readStaged_spec in E1 as (-> & Hl & ? & ? & ? & _); [|done..]. by split_and!.
Qed.

(** ... and what is staged stays as it should be. *)
Lemma readStaged_ok i absolute f s s' :
  i ∈ names → resolveConfinedPath fs root i = Ok absolute →
  readStagedOptional fs absolute i s = Ok (f, s') → staged_ok s → staged_ok s' ∧ stageable absolute.
Proof using Hw Hd Ho Hnames.
  intros Hi Hr E Hs. destruct (represents_exists s) as [σ Hσ].
  eapply readStaged_spec in E as (_ & _ & ? & _ & ? & _); [|done..]. done.
Qed.

Lemma readRequired_ok i absolute f s s' :
  i ∈ names → resolveConfinedPath fs root i = Ok absolute →
  readStagedRequired fs absolute i s = Ok (f, s') → staged_ok s → staged_ok s' ∧ stageable absolute.
Proof using Hw Hd Ho Hnames.
  intros Hi Hr E Hs. destruct (represents_exists s) as [σ Hσ].
  eapply readRequired_spec in E as (_ & _ & ? & _ & ?); [|done..]. done.
Qed.

(** What goes by the path of a file is a file. *)
Lemma samePatchFile_file p q :
  one_kind fs → entry root p → entry root q → plain fs p → plain fs q →
  isSamePatchFile fs p q = Ok true → ¬ dir_at fs p → ¬ dir_at fs q.
Proof using Hw.
  intros Hk Hp Hq Hpp Hqp. unfold isSamePatchFile. case_bool_decide as E; [by subst q|].
  destruct (negb _); [by intros [=]|]. rewrite !lstat_plain by (done || apply Hp || apply Hq).
  rewrite !dir_at_spec.
  destruct (fs !! p) as [n|] eqn:En, (fs !! q) as [m|] eqn:Em; cbn; try by intros [=].
  intros [= Ei%bool_decide_eq_true] Hn (m' & [= <-] & Hm). apply Hn. exists n. split; [done|].
  by rewrite (Hk _ _ _ _ En Em Ei).
Qed.

Lemma stageAction_ok a st st' :
  one_kind fs → (∀ i, i ∈ inputs a → i ∈ names) →
  staged_ok (staged st) → stageAction diff fs root a st = Ok st' → staged_ok (staged st').
Proof using Hw Hd Ho Hnames.
  intros Hk Hin Hs E. destruct a as [p text|p|p mv hs]; cbn [stageAction] in E;
    apply bind_Ok in E as (t & Ht & E); apply bind_Ok in E as ([f s1] & E1 & E).
  - injection E as <-. eapply readStaged_ok in E1 as [Hs1 Hst]; [|apply Hin; by left|done..].
    by apply staged_ok_set.
  - injection E as <-. eapply readRequired_ok in E1 as [Hs1 Hst]; [|apply Hin; by left|done..].
    by apply staged_ok_set.
  - apply bind_Ok in E as (new & _ & E).
    eapply readRequired_ok in E1 as [Hs1 Hst]; [|apply Hin; destruct mv as [[|]|]; by left|done..].
    destruct mv as [[|x m]|]; [by injection E as <-; apply staged_ok_set| |by injection E as <-; apply staged_ok_set].
    apply bind_Ok in E as (d & Hr & E). apply bind_Ok in E as (b & Hb & E).
    apply bind_Ok in E as (s2 & E2 & E). injection E as <-. cbn [staged record].
    assert (Hmv : x :: m ∈ names) by (apply Hin; right; by left).
    destruct b.
    + injection E2 as <-. apply staged_ok_set; [by apply staged_ok_delete|].
      apply resolveConfined_entry in Hr as (Ed & He & Hp); [|by auto..].
      split; [done|]. split; [done|]. split; [|by exists (x :: m)].
      eapply samePatchFile_file; [done|apply Hst|done|apply Hst|done..|apply Hst].
    + apply bind_Ok in E2 as ([g s2'] & E2 & E3). injection E3 as <-.
      eapply readStaged_ok in E2 as [Hs2 Hstd]; [|done..]. by repeat apply staged_ok_set.
Qed.

Lemma stageActions_ok actions st st' :
  one_kind fs → (∀ a i, a ∈ actions → i ∈ inputs a → i ∈ names) →
  staged_ok (staged st) → stageActions diff fs root actions st = Ok st' → staged_ok (staged st').
Proof using Hw Hd Ho Hnames.
  intros Hk. revert st. induction actions as [|a actions IH]; intros st Hin Hs E.
  - by injection E as <-.
  - cbn [stageActions] in E. apply bind_Ok in E as (st1 & E1 & E).
    eapply IH; [|eapply stageAction_ok; [done| |exact Hs|exact E1]|exact E].
    + intros b i Hb. apply (Hin b). by right.
    + intros i. apply (Hin a). by left.
Qed.

(** Distinct confined paths are distinct files. *)
Lemma samePatchFile_spec p q b :
  no_aliases fs → entry root p → entry root q → plain fs p → plain fs q →
  isSamePatchFile fs p q = Ok b → b = bool_decide (p = q).
Proof using Hw.
  intros Ha Hp Hq Hpp Hqp. unfold isSamePatchFile.
  case_bool_decide as E; [by intros [= <-]|]. destruct (negb _); [by intros [= <-]|].
  rewrite !lstat_plain by (done || apply Hp || apply Hq).
  destruct (fs !! p) as [n|] eqn:En, (fs !! q) as [m|] eqn:Em; cbn; try by intros [= <-].
  intros [= <-]. apply bool_decide_eq_false. intros Ei. by destruct E; eapply Ha.
Qed.

Lemma stageMove_simulates p x m hs st st' σ absolute f s1 new :
  let mv := x :: m in
  no_aliases fs → mv ∈ names → staged_ok s1 → represents s1 σ → stageable absolute →
  absolute = resolve root p →
  (destination ← resolveConfinedPath fs root mv;
   same ← isSamePatchFile fs absolute destination;
   s2 ← (if (same : bool) then Ok (delete_staged absolute s1)
         else '(_, s2) ← readStagedOptional fs destination mv s1; Ok s2);
   let s3 := set_staged destination (Some (mkText new (fmode f))) s2 in
   let s4 := if (same : bool) then s3 else set_staged absolute None s3 in
   Ok (record (mkApplied mv (Some p) op_move)
         (unifiedFilePatch diff p mv (Some (content f)) (Some new)) s4 st)) = Ok st' →
  staged_ok (staged st') ∧ represents (staged st') (<[resolve root mv := new]> (delete (resolve root p) σ))
  ∧ results st' = results st ++ [applied (UpdateFile p (Some mv) hs)].
Proof using Hw Hd Ho Hnames.
  cbv zeta. intros Ha Hm Hs Hσ Hst -> E. apply bind_Ok in E as (d & Hr & E).
  apply bind_Ok in E as (b & Hb & E). apply bind_Ok in E as (s2 & E2 & E). injection E as <-. cbn [staged results record].
  apply resolveConfined_entry in Hr as Hr'; [|by auto..]. destruct Hr' as (Ed & He & Hp).
  apply samePatchFile_spec in Hb as ->; [|done|apply Hst|done|apply Hst|done].
  rewrite <- Ed. case_bool_decide as Ead; cbn [bool_decide] in *.
  - injection E2 as <-. rewrite <- Ead. split_and!.
    + by apply staged_ok_set, Hst; apply staged_ok_delete.
    + rewrite insert_delete_eq. by apply (represents_restage _ (mkText new (fmode f))).
    + done.
  - apply bind_Ok in E2 as ([g s2'] & E2 & E3). injection E3 as <-.
    eapply readStaged_spec in E2 as (_ & _ & Hs2 & Hσ2 & Hstd & _); [|done..].
    split_and!; [by repeat apply staged_ok_set| |done].
    rewrite <- delete_insert_ne by congruence. by apply represents_remove, (represents_insert _ (mkText new (fmode f))).
Qed.

Lemma stageAction_simulates a st st' σ :
  no_aliases fs → (∀ i, i ∈ inputs a → i ∈ names) →
  staged_ok (staged st) → represents (staged st) σ → stageAction diff fs root a st = Ok st' →
  ∃ σ', runAction root a σ = Ok σ' ∧ staged_ok (staged st') ∧ represents (staged st') σ'
        ∧ results st' = results st ++ [applied a].
Proof using Hw Hd Ho Hnames.
  intros Ha Hin Hs Hσ E. destruct a as [p text|p|p mv hs]; cbn [stageAction] in E;
    apply bind_Ok in E as (t & Ht & E); apply bind_Ok in E as ([f s1] & E1 & E).
  - injection E as <-. eapply readStaged_spec in E1 as (-> & Hl & Hs1 & Hσ1 & Hst & _);
      [|apply Hin; by left|done..].
    eexists. split; [done|]. split_and!; [by apply staged_ok_set|by apply (represents_insert _ (mkText text _))|done].
  - injection E as <-. eapply readRequired_spec in E1 as (-> & Hl & Hs1 & Hσ1 & Hst);
      [|apply Hin; by left|done..].
    cbn. rewrite Hl. eexists. split; [done|].
    split_and!; [by apply staged_ok_set|by apply represents_remove|done].
  - apply bind_Ok in E as (new & Hnew & E).
    eapply readRequired_spec in E1 as (Et & Hl & Hs1 & Hσ1 & Hst);
      [|apply Hin; destruct mv as [[|]|]; by left|done..].
    cbn [runAction]. rewrite <- Et, Hl. cbn [require mbind res_bind]. rewrite Hnew.
    cbn [mbind res_bind]. destruct mv as [[|x m]|].
    2:{ eapply stageMove_simulates in E; [|done| |done..]; [|apply Hin; right; by left].
        eexists. split; [done|]. rewrite Et. exact E. }
    all: injection E as <-; eexists; split; [done|];
      split_and!; [by apply staged_ok_set|by apply (represents_insert _ (mkText new (fmode f)))|done].
Qed.

Lemma stageActions_simulates actions st st' σ :
  no_aliases fs → (∀ a i, a ∈ actions → i ∈ inputs a → i ∈ names) →
  staged_ok (staged st) → represents (staged st) σ → stageActions diff fs root actions st = Ok st' →
  ∃ σ', runActions root actions σ = Ok σ' ∧ staged_ok (staged st') ∧ represents (staged st') σ'
        ∧ results st' = results st ++ (applied <$> actions).
Proof using Hw Hd Ho Hnames.
  intros Ha. revert st σ. induction actions as [|a actions IH]; intros st σ Hin Hs Hσ E.
  - injection E as <-. exists σ. rewrite app_nil_r. done.
  - cbn [stageActions] in E. apply bind_Ok in E as (st1 & E1 & E).
    destruct (stageAction_simulates a st st1 σ) as (σ1 & R1 & Hs1 & Hσ1 & Er); [done| |done..|].
    { intros i Hi. by apply (Hin a); [left|]. }
    destruct (IH st1 σ1) as (σ2 & R2 & Hs2 & Hσ2 & Er2); [|done..|].
    { intros b i Hb. apply (Hin b). by right. }
    exists σ2. cbn [runActions fmap list_fmap]. rewrite R1. split_and!; [done..|].
    rewrite Er2, Er, <- app_assoc. done.
Qed.

End Staging.

(** ** Writing *)

Section Writing.
Context (diff : jsstr → jsstr → jsstr → jsstr → jsstr) (suffix : nat → jsstr) (umask : Z).
(** The suffix of a temporary name is some ".kontrol-patch-<pid>-<uuid>". *)
Context (Hsuffix : ∀ n, 3 ≤ length (suffix n) ∧ SLASH ∉ suffix n).
Context (root : path) (Ho : ordinary_path root).

Definition temp_like (c : jsstr) : Prop := ∃ n name, c = name ++ suffix n.

(** No entry is named like a temporary file. *)
Definition unused (fs : Fs) : Prop := ∀ p c, temp_like c → fs !! (p ++ [c]) = None.

Record sane (fs : Fs) : Prop := {
  sane_wf : wf fs;
  sane_root : dir_at fs root;
  sane_unused : unused fs
}.

(** From [fs] to [fs'] only files strictly inside the workspace change, and entries are added. *)
Definition touches (fs fs' : Fs) : Prop :=
  ∀ p, fs' !! p = fs !! p
       ∨ (∃ q, q ≠ [] ∧ p = root ++ q) ∧ ∀ n, fs !! p = Some n → is_file n = true.

Lemma touches_refl fs : touches fs fs.
Proof. intros p. by left. Qed.

Lemma touches_trans fs1 fs2 fs3 : touches fs1 fs2 → touches fs2 fs3 → touches fs1 fs3.
Proof.
  intros H1 H2 p. destruct (H1 p) as [E1|[I1 F1]]; [|by right].
  destruct (H2 p) as [E2|[I2 F2]]; [left; congruence|]. right. split; [done|]. by rewrite <- E1.
Qed.

(** A path the patch can write: an entry of the workspace not named like a temporary file. *)
Definition writable (p : path) : Prop := entry root p ∧ Forall (λ c, ¬ temp_like c) p.

Lemma grows_plain fs fs' d p : grows fs fs' d → plain fs p → plain fs' p.
Proof.
  intros Hg [H1 H2]. split.
  - intros q r n E Hne Hn. destruct (Hg q) as [Eq|(_ & Hq & _)].
    + rewrite Eq in Hn. by eapply H1.
    + apply dir_at_spec in Hq as (m & Hm & Hmd). congruence.
  - intros n Hn. destruct (Hg p) as [Eq|(_ & Hq & _)].
    + rewrite Eq in Hn. by eapply H2.
    + apply dir_at_spec in Hq as (m & Hm & Hmd). assert (m = n) as -> by congruence.
      unfold is_dir in Hmd. unfold is_link. by destruct (what n).
Qed.

Lemma insert_plain fs p n q :
  plain fs q → (∀ r, q = p ++ r → r = []) → is_link n = false → plain (<[p := n]> fs) q.
Proof.
  intros [H1 H2] Hp Hl. split.
  - intros k r m E Hne Hm. apply lookup_insert_Some in Hm as [[-> _]|[_ Hm]]; [by apply Hp in E|by eapply H1].
  - intros m Hm. apply lookup_insert_Some in Hm as [[_ <-]|[_ Hm]]; [done|by apply H2].
Qed.

Lemma delete_plain fs p q : plain fs q → plain (delete p fs) q.
Proof.
  intros [H1 H2]. split.
  - intros k r m E Hne Hm. apply lookup_delete_Some in Hm as [_ Hm]. by eapply H1.
  - intros m Hm. apply lookup_delete_Some in Hm as [_ Hm]. by apply H2.
Qed.

Lemma plain_child fs d c :
  wf fs → dir_at fs d → (∀ n, fs !! (d ++ [c]) = Some n → is_link n = false) → plain fs (d ++ [c]).
Proof.
  intros Hw Hd Hl. split; [|done]. intros q r n E Hne Hq.
  destruct r as [|x r _] using rev_ind; [done|]. rewrite app_assoc in E.
  apply app_inj_tail in E as [-> _].
  apply wf_prefix_dir, dir_at_spec in Hd as (k & Hk & Hkd); [congruence|done].
Qed.

Lemma temp_proper n c : proper c → proper (c ++ suffix n).
Proof using Hsuffix.
  destruct (Hsuffix n) as [Hl Hs]. intros (Hc & _ & _ & Hsl).
  split_and!; try (intros E; apply (f_equal length) in E; rewrite length_app in E; cbn in E).
  - lia.
  - vm_compute (length DOT) in E. lia.
  - vm_compute (length DOTS) in E. destruct c; [done|cbn in E; lia].
  - by intros [?|?]%elem_of_app.
Qed.

(** What [writeTextFile] does to a plain path: the directories on the way are made, and unless
    the path is a directory the file is there; no temporary file is left. *)
Lemma writeTextFile_effect n d c text m fs :
  wf fs → unused fs → plain fs (d ++ [c]) → Forall proper (d ++ [c]) →
  Forall (λ c, ¬ temp_like c) (d ++ [c]) →
  ∃ fs1, wf fs1 ∧ dir_at fs1 d ∧ grows fs fs1 d ∧ unused fs1
    ∧ writeTextFile suffix umask n (d ++ [c]) text m fs
      = if bool_decide (dir_at fs1 (d ++ [c])) then (fs1, Err (IoError EISDIR))
        else (<[d ++ [c] := mkNode (fresh_ino fs1) (createdMode umask m) (File (Some text))]> fs1, Ok tt).
Proof using Hsuffix.
  intros Hw Hu Hp Hn Ht. apply Forall_app in Hn as [Hnd Hnc]. rewrite Forall_singleton in Hnc.
  apply Forall_app in Ht as [Htd Htc]. rewrite Forall_singleton in Htc.
  destruct (mkdir_spec d fs Hw Hnd) as (fs1 & Em & Hw1 & Hd1 & Hg).
  { intros q r k -> Hk. apply (proj1 Hp q (r ++ [c])); [by rewrite <- app_assoc|by destruct r|done]. }
  assert (Hu1 : unused fs1).
  { intros p x Hx. destruct (Hg (p ++ [x])) as [->|(_ & _ & r & ->)]; [by apply Hu|].
    apply Forall_app in Htd as [Htd _]. apply Forall_app in Htd as [_ Htx].
    by rewrite Forall_singleton in Htx. }
  exists fs1. split_and!; [done..|]. unfold writeTextFile, lift, mbind, IO_bind.
  unfold dirname at 1. rewrite removelast_last, Em. cbn [io]. unfold writeThrough. cbv zeta.
  unfold temporary, dirname. rewrite removelast_last, last_snoc. change (or_empty (Some c)) with c.
  set (t := (c ++ suffix n : jsstr)).
  assert (Htmp : fs1 !! (d ++ [t]) = None) by (apply Hu1; by exists n, c).
  assert (Hpt : proper t) by (by apply temp_proper).
  assert (Hne : d ++ [t] ≠ d ++ [c]).
  { intros [_ E]%app_inj_tail. apply Htc. rewrite <- E. by exists n, c. }
  unfold mbind, IO_bind. fold t.
  rewrite writeFile_new by done. set (node := mkNode _ _ _). set (fs2 := <[_ := _]> fs1).
  assert (Hw2 : wf fs2) by (apply wf_insert; [done..|]; intros k Hk; by rewrite Htmp in Hk).
  assert (Hd2 : dir_at fs2 d) by (apply dir_at_insert_ne; [|done]; intros E; apply (f_equal length) in E; rewrite length_app in E; cbn in E; lia).
  assert (Hback : delete (d ++ [t]) fs2 = fs1) by (by apply delete_insert_id).
  unfold replaceFile. rewrite (rename_child fs2 d t c node); try done.
  - assert (Hdd : dir_at fs2 (d ++ [c]) ↔ dir_at fs1 (d ++ [c])).
    { unfold dir_at, fs2. by rewrite lookup_insert_ne. }
    rewrite (bool_decide_ext _ _ Hdd). case_bool_decide as Hdir.
    + rewrite rm_plain; [|done| |].
      * rewrite bool_decide_false; [by rewrite Hback|]. unfold dir_at, fs2. by rewrite lookup_insert_eq.
      * by apply Forall_app; split; [|constructor].
      * apply plain_child; [done..|]. intros k. unfold fs2. rewrite lookup_insert_eq. by intros [= <-].
    + by rewrite Hback.
  - unfold fs2. by rewrite lookup_insert_eq.
  - intros k Hk. unfold fs2 in Hk. rewrite lookup_insert_ne in Hk by done.
    apply fresh_ino_lt in Hk. cbn. lia.
Qed.

Lemma grows_touches fs fs' k :
  wf fs → dir_at fs root → grows fs fs' (root ++ k) → touches fs fs'.
Proof.
  intros Hw Hd Hg p. destruct (Hg p) as [?|(E & _ & r & Ep)]; [by left|]. right.
  split; [|intros n; congruence]. apply app_eq_inv in Ep as [(j & E1 & E2)|(j & E1 & E2)].
  - subst. apply wf_prefix_dir, dir_at_spec in Hd as (m & Hm & _); [congruence|done].
  - exists j. split; [|done]. intros ->. rewrite app_nil_r in E1. subst p.
    apply dir_at_spec in Hd as (m & Hm & _). congruence.
Qed.

(** New directories hold no text, and what is not on the way stays as it is. *)
Lemma grows_text fs fs' d q : grows fs fs' d → textAt fs' q = textAt fs q.
Proof.
  intros Hg. unfold textAt. destruct (Hg q) as [->|(-> & Hq & _)]; [done|].
  apply dir_at_spec in Hq as (k & -> & Hk). cbn. unfold is_dir in Hk. by destruct (what k).
Qed.

Lemma grows_dir_inv fs fs' d q :
  grows fs fs' d → (∀ k, d ≠ q ++ k) → dir_at fs' q → dir_at fs q.
Proof.
  intros Hg Hq. unfold dir_at. destruct (Hg q) as [->|(_ & _ & k & Ek)]; [done|]. by destruct (Hq k).
Qed.

Lemma longer_ne {A} (d : list A) c k : d ≠ (d ++ [c]) ++ k.
Proof. intros E. apply (f_equal length) in E. rewrite !length_app in E. cbn in E. lia. Qed.

(** A file put at a plain path that is no directory. *)
Lemma insert_sane fs d c n :
  sane fs → dir_at fs d → writable (d ++ [c]) → ¬ dir_at fs (d ++ [c]) →
  sane (<[d ++ [c] := n]> fs).
Proof.
  intros [Hw Hd Hu] Hdd [He Ht] Hnd. split.
  - apply wf_insert; [done..| |].
    + pose proof (entry_proper _ _ He) as H. apply Forall_app in H as [_ H]. by rewrite Forall_singleton in H.
    + intros k Hk Hkd. destruct Hnd. apply dir_at_spec; eauto.
  - apply dir_at_insert_ne; [|done]. intros E. by rewrite <- E in Hnd.
  - intros q x Hx. rewrite lookup_insert_ne; [by apply Hu|]. intros [_ ->]%app_inj_tail.
    apply Forall_app in Ht as [_ Ht]. by rewrite Forall_singleton in Ht.
Qed.

Lemma insert_touches fs p e n :
  e ≠ [] → p = root ++ e → plain fs p → ¬ dir_at fs p → touches fs (<[p := n]> fs).
Proof.
  intros He Ee Hp Hnd q. destruct (decide (q = p)) as [->|Hq]; [|by left; rewrite lookup_insert_ne].
  right. split; [by exists e|]. intros k Hk. pose proof (proj2 Hp k Hk) as Hl.
  unfold is_file. unfold is_link in Hl. destruct (what k) eqn:Ek; [|done..].
  destruct Hnd. apply dir_at_spec. exists k. split; [done|]. unfold is_dir. by rewrite Ek.
Qed.

Lemma textAt_insert fs p n q :
  textAt (<[p := n]> fs) q
  = if decide (q = p) then match what n with File t => t | _ => None end else textAt fs q.
Proof.
  unfold textAt. destruct (decide (q = p)) as [->|]; [by rewrite lookup_insert_eq|by rewrite lookup_insert_ne].
Qed.

(** One staged file written: what changes, and what is read then. *)
Lemma write_step n p text m fs fs' r :
  sane fs → writable p → plain fs p → p ≠ root →
  writeTextFile suffix umask n p text m fs = (fs', r) →
  sane fs' ∧ touches fs fs'
  ∧ (r = Ok tt → ∀ q, textAt fs' q = if decide (q = p) then Some text else textAt fs q)
  ∧ (¬ dir_at fs p → r = Ok tt ∧ plain fs' p ∧ ¬ dir_at fs' p
     ∧ ∀ q, plain fs q → ¬ dir_at fs q → (∀ k, q = p ++ k → k = []) → (∀ k, p = q ++ k → k = []) →
         plain fs' q ∧ ¬ dir_at fs' q).
Proof using Hsuffix Ho.
  intros [Hw Hd Hu] [He Ht] Hp Hne E.
  destruct (isInside_inv _ _ (entry_inside _ _ He)) as [e Ee].
  destruct e as [|c e _] using rev_ind; [by rewrite app_nil_r in Ee|].
  pose proof Ee as Ep. rewrite app_assoc in Ep.
  destruct (writeTextFile_effect n (root ++ e) c text m fs) as (fs1 & Hw1 & Hd1 & Hg & Hu1 & Ew);
    [done|done|rewrite <- Ep..|]; [done|apply He|done|].
  rewrite <- Ep in Ew. rewrite Ew in E. clear Ew.
  pose proof (grows_touches _ _ _ Hw Hd Hg) as Htch.
  assert (Hs1 : sane fs1) by (split; [done|by eapply grows_dir|done]).
  assert (Hp1 : plain fs1 p) by (by eapply grows_plain).
  destruct (bool_decide (dir_at fs1 p)) eqn:Eb; reflect_guards; injection E as <- <-.
  { split_and!; [done..|]. intros Hnd. destruct Hnd. apply (grows_dir_inv _ _ _ _ Hg); [|done].
    rewrite Ep. apply longer_ne. }
  split_and!.
  - rewrite Ep. by apply insert_sane; [..|rewrite <- Ep|rewrite <- Ep].
  - eapply touches_trans; [done|]. eapply insert_touches; [|exact Ee|done..]. by destruct e.
  - intros _ q. rewrite textAt_insert. cbn [what]. by rewrite (grows_text _ _ _ _ Hg).
  - intros Hnd. split; [done|]. split_and!.
    + apply insert_plain; [done| |done]. intros r Er. apply (app_inv_head p). by rewrite app_nil_r.
    + unfold dir_at. by rewrite lookup_insert_eq.
    + intros q Hq Hqd H1 H2. split; [apply insert_plain; [by eapply grows_plain|done..]|].
      unfold dir_at. destruct (decide (q = p)) as [->|Hqn]; [by rewrite lookup_insert_eq|].
      rewrite lookup_insert_ne by done. intros Hd'. apply Hqd, (grows_dir_inv _ _ _ _ Hg); [|done].
      intros k Ek. specialize (H2 (k ++ [c])). rewrite app_assoc, <- Ek in H2.
      by destruct k; specialize (H2 Ep).
Qed.

(** ... and one removed. *)
Lemma remove_step p fs :
  sane fs → writable p → plain fs p → p ≠ root → ¬ dir_at fs p →
  rm p fs = (delete p fs, Ok tt) ∧ sane (delete p fs) ∧ touches fs (delete p fs)
  ∧ (∀ q, textAt (delete p fs) q = if decide (q = p) then None else textAt fs q)
  ∧ ∀ q, plain fs q → ¬ dir_at fs q → plain (delete p fs) q ∧ ¬ dir_at (delete p fs) q.
Proof.
  intros [Hw Hd Hu] [He Ht] Hp Hne Hnd. split_and!.
  - rewrite rm_plain; [|done|apply He|done]. by rewrite bool_decide_false.
  - split; [by apply wf_delete| |].
    + unfold dir_at. by rewrite lookup_delete_ne.
    + intros q x Hx. apply lookup_delete_None. right. by apply Hu.
  - intros q. destruct (decide (q = p)) as [->|Hq]; [|by left; rewrite lookup_delete_ne].
    right. destruct (isInside_inv _ _ (entry_inside _ _ He)) as [e Ee]. split.
    + exists e. split; [|done]. intros ->. by rewrite app_nil_r in Ee.
    + intros n Hn. pose proof (proj2 Hp n Hn) as Hl. unfold is_file. unfold is_link in Hl.
      destruct (what n) eqn:En; [|done..]. destruct Hnd. apply dir_at_spec. exists n.
      split; [done|]. unfold is_dir. by rewrite En.
  - intros q. unfold textAt. destruct (decide (q = p)) as [->|]; [by rewrite lookup_delete_eq|by rewrite lookup_delete_ne].
  - intros q Hq Hqd. split; [by apply delete_plain|]. unfold dir_at.
    destruct (decide (q = p)) as [->|]; [by rewrite lookup_delete_eq|by rewrite lookup_delete_ne].
Qed.

(** *** The two loops *)

(** Whatever happens, only files of the workspace change. *)
Lemma writeStaged_safe s n fs fs' r :
  (∀ p, p ∈ s.*1 → writable p) → sane fs → writeStaged suffix umask root n s fs = (fs', r) →
  sane fs' ∧ touches fs fs'
  ∧ (r = Ok tt → NoDup s.*1 → ∀ q,
       textAt fs' q = match lookup_staged s q with Some (Some f) => Some (content f) | _ => textAt fs q end).
Proof using Hsuffix Ho.
  revert n fs fs' r. induction s as [|[p [f|]] s IH]; intros n fs fs' r Hs Hsane E.
  - injection E as <- <-. split_and!; [done|apply touches_refl|done].
  - cbn [writeStaged] in E. unfold reads, mbind, IO_bind in E.
    destruct (revalidateConfinedDestination fs root p) as [[]|e] eqn:Er.
    2:{ injection E as <- <-. split_and!; [done|apply touches_refl|done]. }
    apply revalidate_plain in Er as [Hne Hp]; [|apply Hsane|apply Hsane|done|apply Hs; by left].
    destruct (writeTextFile _ _ _ _ _ _ _) as [fs1 r1] eqn:Ew.
    apply write_step in Ew as (Hs1 & Ht1 & Hx1 & _); [|done|apply Hs; by left|done..].
    destruct r1 as [[]|e]; [|by injection E as <- <-].
    apply IH in E as (Hs2 & Ht2 & Hx2); [|intros q Hq; apply Hs; by right|done].
    split_and!; [done|by eapply touches_trans|]. intros -> Hnd q.
    cbn [fmap list_fmap fst] in Hnd. apply NoDup_cons in Hnd as [Hn Hnd].
    rewrite Hx2, lookup_staged_cons, Hx1 by done. destruct (decide (q = p)) as [->|]; [|done].
    destruct (lookup_staged s p) as [g|] eqn:El; [|done].
    apply lookup_staged_elem, (list_elem_of_fmap_2 fst) in El. done.
  - cbn [writeStaged] in E. apply IH in E as (Hs2 & Ht2 & Hx2); [|intros q Hq; apply Hs; by right|done].
    split_and!; [done..|]. intros -> Hnd q. apply NoDup_cons in Hnd as [Hn Hnd].
    rewrite Hx2, lookup_staged_cons by done. destruct (decide (q = p)) as [->|]; [|done].
    destruct (lookup_staged s p) as [g|] eqn:El; [|done].
    apply lookup_staged_elem, (list_elem_of_fmap_2 fst) in El. done.
Qed.

Lemma removeStaged_safe s fs fs' r :
  (∀ p, p ∈ s.*1 → writable p) → sane fs → removeStaged root s fs = (fs', r) →
  sane fs' ∧ touches fs fs'
  ∧ (r = Ok tt → NoDup s.*1 → ∀ q,
       textAt fs' q = match lookup_staged s q with Some None => None | _ => textAt fs q end).
Proof using Ho.
  revert fs fs' r. induction s as [|[p [f|]] s IH]; intros fs fs' r Hs Hsane E.
  - injection E as <- <-. split_and!; [done|apply touches_refl|done].
  - cbn [removeStaged] in E. apply IH in E as (Hs2 & Ht2 & Hx2); [|intros q Hq; apply Hs; by right|done].
    split_and!; [done..|]. intros -> Hnd q. apply NoDup_cons in Hnd as [Hn Hnd].
    rewrite Hx2, lookup_staged_cons by done. destruct (decide (q = p)) as [->|]; [|done].
    destruct (lookup_staged s p) as [g|] eqn:El; [|done].
    apply lookup_staged_elem, (list_elem_of_fmap_2 fst) in El. done.
  - cbn [removeStaged] in E. unfold reads, lift, mbind, IO_bind in E.
    destruct (revalidateConfinedDestination fs root p) as [[]|e] eqn:Er.
    2:{ injection E as <- <-. split_and!; [done|apply touches_refl|done]. }
    apply revalidate_plain in Er as [Hne Hp]; [|apply Hsane|apply Hsane|done|apply Hs; by left].
    assert (Hwr : writable p) by (apply Hs; by left).
    destruct (decide (dir_at fs p)) as [Hdp|Hdp].
    { rewrite rm_plain in E; [|apply Hsane|apply Hwr|done]. rewrite bool_decide_true in E by done.
      injection E as <- <-. split_and!; [done|apply touches_refl|done]. }
    destruct (remove_step p fs) as (Erm & Hs1 & Ht1 & Hx1 & _); [done..|]. rewrite Erm in E. cbn [io] in E.
    apply IH in E as (Hs2 & Ht2 & Hx2); [|intros q Hq; apply Hs; by right|done].
    split_and!; [done|by eapply touches_trans|]. intros -> Hnd q.
    apply NoDup_cons in Hnd as [Hn Hnd].
    rewrite Hx2, lookup_staged_cons, Hx1 by done. destruct (decide (q = p)) as [->|]; [|done].
    destruct (lookup_staged s p) as [g|] eqn:El; [|done].
    apply lookup_staged_elem, (list_elem_of_fmap_2 fst) in El. done.
Qed.

(** *** ... and they go through

    when no staged path lies below another. *)
Definition prefix_free (K : list path) : Prop := ∀ p q k, p ∈ K → q ∈ K → q = p ++ k → k = [].

Definition pending (K : list path) (fs : Fs) : Prop := ∀ p, p ∈ K → plain fs p ∧ ¬ dir_at fs p.

Lemma writeStaged_complete K s n fs :
  prefix_free K → (∀ p, p ∈ K → writable p) → (∀ p, p ∈ s.*1 → p ∈ K) → sane fs → pending K fs →
  ∃ fs', writeStaged suffix umask root n s fs = (fs', Ok tt) ∧ sane fs' ∧ pending K fs'.
Proof using Hsuffix Ho.
  intros Hpf Hwr. revert n fs. induction s as [|[p [f|]] s IH]; intros n fs Hs Hsane Hk.
  - by exists fs.
  - assert (Hin : p ∈ K) by (apply Hs; by left). destruct (Hk p Hin) as [Hp Hnd].
    assert (Hne : p ≠ root) by (intros ->; apply Hnd, Hsane).
    cbn [writeStaged]. unfold reads, mbind, IO_bind.
    rewrite revalidate_complete; [|apply Hsane|apply Hsane|apply Hwr, Hin|done..].
    destruct (writeTextFile _ _ _ _ _ _ _) as [fs1 r1] eqn:Ew.
    apply write_step in Ew as (Hs1 & _ & _ & Hc); [|done|by apply Hwr|done..].
    destruct (Hc Hnd) as (-> & Hp1 & Hnd1 & Hother). apply IH; [intros q Hq; apply Hs; by right|done|].
    intros q Hq. destruct (decide (q = p)) as [->|]; [done|]. destruct (Hk q Hq) as [Hq1 Hq2].
    apply Hother; [done..| |]; intros k; by apply Hpf.
  - apply IH; [intros q Hq; apply Hs; by right|done..].
Qed.

Lemma removeStaged_complete K s fs :
  (∀ p, p ∈ K → writable p) → (∀ p, p ∈ s.*1 → p ∈ K) → sane fs → pending K fs →
  ∃ fs', removeStaged root s fs = (fs', Ok tt).
Proof using Ho.
  intros Hwr. revert fs. induction s as [|[p [f|]] s IH]; intros fs Hs Hsane Hk.
  - by exists fs.
  - apply IH; [intros q Hq; apply Hs; by right|done..].
  - assert (Hin : p ∈ K) by (apply Hs; by left). destruct (Hk p Hin) as [Hp Hnd].
    assert (Hne : p ≠ root) by (intros ->; apply Hnd, Hsane).
    cbn [removeStaged]. unfold reads, lift, mbind, IO_bind.
    rewrite revalidate_complete; [|apply Hsane|apply Hsane|apply Hwr, Hin|done..].
    destruct (remove_step p fs) as (-> & Hs1 & _ & _ & Hother); [done|by apply Hwr|done..|].
    apply IH; [intros q Hq; apply Hs; by right|done|]. intros q Hq.
    destruct (Hk q Hq). by apply Hother.
Qed.

End Writing.

(** ** The whole run *)

(** What the environment and a patch must be like for the theorems below: the file system is
    well-formed, an inode is of one kind, the workspace is a directory of it, no existing entry and
    no path of the patch is named like a temporary file, and neither the workspace nor a path of the
    patch has a backslash, which hides symbolic links from the code (see [backslash_hides_symlink]
    and [backslash_replaces_link]). *)
Record setting (suffix : nat → jsstr) (root : path) (fs : Fs) (actions : list PatchAction) : Prop := {
  set_suffix n : 3 ≤ length (suffix n) ∧ SLASH ∉ suffix n;
  set_root : ordinary_path root;
  set_sane : sane suffix root fs;
  set_kind : one_kind fs;
  set_backslash a i : a ∈ actions → i ∈ inputs a → BACKSLASH ∉ i;
  set_temp a i : a ∈ actions → i ∈ inputs a →
    Forall (λ c, ¬ temp_like suffix c) (resolve root i)
}.

Section Theorems.
Context (diff : jsstr → jsstr → jsstr → jsstr → jsstr) (suffix : nat → jsstr) (umask : Z).
Context (root : path) (fs : Fs) (actions : list PatchAction).
Context (Hset : setting suffix root fs actions).

Definition names : list jsstr := actions ≫= inputs.

Lemma elem_of_names i : i ∈ names ↔ ∃ a, a ∈ actions ∧ i ∈ inputs a.
Proof. unfold names. rewrite list_elem_of_bind. naive_solver. Qed.

Lemma staged_writable s : staged_ok fs root names s → ∀ p, p ∈ s.*1 → writable suffix root p.
Proof.
  intros [_ Hs] p Hp. destruct (Hs p Hp) as (He & _ & _ & i & (a & Ha & Hi)%elem_of_names & ->).
  split; [done|]. by eapply set_temp.
Qed.

Lemma represents_start : represents fs [] (texts fs).
Proof. intros p. apply lookup_texts. Qed.

Lemma names_plain i : i ∈ names → BACKSLASH ∉ i.
Proof. intros (a & Ha & Hi)%elem_of_names. by eapply set_backslash. Qed.

Lemma staged_ok_start : staged_ok fs root names [].
Proof. split; [constructor|]. by intros p ?%not_elem_of_nil. Qed.

(** What staging leaves. *)
Lemma staging_ok st :
  stageActions diff fs root actions (mkState [] [] []) = Ok st → staged_ok fs root names (staged st).
Proof.
  intros E. destruct Hset as [Hsx Hr [Hw Hd Hu] Hk Hb Ht].
  eapply (stageActions_ok diff fs root Hw Hd Hr names names_plain actions (mkState [] [] [])); [done| |apply staged_ok_start|done].
  intros a i Hin Hi. apply elem_of_names. by exists a.
Qed.

Lemma staging_outcome st :
  no_aliases fs → stageActions diff fs root actions (mkState [] [] []) = Ok st →
  ∃ σ, runActions root actions (texts fs) = Ok σ ∧ staged_ok fs root names (staged st)
       ∧ represents fs (staged st) σ ∧ results st = applied <$> actions.
Proof.
  intros Ha E. destruct Hset as [Hsx Hr [Hw Hd Hu] Hk Hb Ht].
  destruct (stageActions_simulates diff fs root Hw Hd Hr names names_plain actions (mkState [] [] []) st (texts fs))
    as (σ & R & Hs & Hσ & Er); [done| |apply staged_ok_start|apply represents_start|done|by exists σ].
  intros a i Hin Hi. apply elem_of_names. by exists a.
Qed.

Lemma applyPatch_cases text fs' r :
  parsePatch text = Ok actions → applyPatch diff suffix umask root text fs = (fs', r) →
  (∃ e, stageActions diff fs root actions (mkState [] [] []) = Err e ∧ fs' = fs ∧ r = Err e)
  ∨ (∃ st fs1 r1, stageActions diff fs root actions (mkState [] [] []) = Ok st
      ∧ writeStaged suffix umask root 0 (staged st) fs = (fs1, r1)
      ∧ match r1 with
        | Err e => fs' = fs1 ∧ r = Err e
        | Ok _ => ∃ r2, removeStaged root (staged st) fs1 = (fs', r2)
                  ∧ r = match r2 with Ok _ => Ok (summary st) | Err e => Err e end
        end).
Proof.
  intros Hp E. unfold applyPatch, reads, mbind, IO_bind in E. rewrite Hp in E.
  destruct (stageActions diff fs root actions _) as [st|e] eqn:Es.
  - right. exists st. destruct (writeStaged _ _ _ _ _ _) as [fs1 [[]|e]] eqn:Ew.
    + exists fs1, (Ok tt). split_and!; [done..|].
      destruct (removeStaged _ _ _) as [fs2 [[]|e]] eqn:Er; injection E as <- <-; by eexists.
    + exists fs1, (Err e). by injection E as <- <-.
  - left. exists e. by injection E as <- <-.
Qed.

Lemma start_writes st : stageActions diff fs root actions (mkState [] [] []) = Ok st →
  (∀ p, p ∈ (staged st).*1 → writable suffix root p) ∧ NoDup (staged st).*1
  ∧ pending (staged st).*1 fs ∧ ∀ p, p ∈ (staged st).*1 → ∃ i, i ∈ names ∧ p = resolve root i.
Proof.
  intros Es. pose proof (staging_ok st Es) as Hs. split_and!.
  - by apply staged_writable.
  - apply Hs.
  - intros p Hp. by destruct (proj2 Hs p Hp) as (_ & ? & ? & _).
  - intros p Hp. by destruct (proj2 Hs p Hp) as (_ & _ & _ & ?).
Qed.

(** Applying a patch succeeds once its actions are staged, provided that no path of the patch
    lies below another: nothing that staging accepts is refused when the files are written and
    removed. *)
Theorem applyPatch_succeeds text st :
  parsePatch text = Ok actions → stageActions diff fs root actions (mkState [] [] []) = Ok st →
  prefix_free (resolve root <$> names) →
  ∃ fs', applyPatch diff suffix umask root text fs = (fs', Ok (summary st)).
Proof.
  intros Hp Es Hpf. destruct (start_writes st Es) as (Hwr & Hnd & Hpd & Hin).
  assert (Hpf' : prefix_free (staged st).*1).
  { intros p q k (i & Hi & ->)%Hin (j & Hj & ->)%Hin. apply Hpf; by apply list_elem_of_fmap_2. }
  destruct (writeStaged_complete suffix umask (set_suffix _ _ _ _ Hset) root (set_root _ _ _ _ Hset)
    (staged st).*1 (staged st) 0 fs) as (fs1 & Ew & Hs1 & Hk1); [done..|apply Hset|done|].
  destruct (removeStaged_complete suffix root (set_root _ _ _ _ Hset) (staged st).*1 (staged st) fs1)
    as (fs2 & Er); [done..|].
  exists fs2. unfold applyPatch, reads, mbind, IO_bind. by rewrite Hp, Es, Ew, Er.
Qed.
End Theorems.

(** C7: Applying a patch confines itself to the workspace.  In a [setting] for it (hard links to
    files are fine there, backslashes in its paths are not), whatever the outcome, an error in the
    middle of writing included, an entry that differs afterwards lies strictly inside the workspace
    and was not there or was a file, so directories and symbolic links stay, the file system is
    well-formed and no temporary file is left behind. *)
Theorem applyPatch_confined diff suffix umask root fs actions text fs' r :
  setting suffix root fs actions → parsePatch text = Ok actions →
  applyPatch diff suffix umask root text fs = (fs', r) →
  (∀ p, fs' !! p = fs !! p
        ∨ (∃ q, q ≠ [] ∧ p = root ++ q) ∧ ∀ n, fs !! p = Some n → is_file n = true)
  ∧ wf fs' ∧ unused suffix fs'.
Proof.
  intros Hset Hp E. pose proof (set_sane _ _ _ _ Hset) as Hs.
  eapply applyPatch_cases in E as [(e & _ & -> & _)|(st & fs1 & r1 & Es & Ew & Hr)]; [..|done].
  { split; [apply touches_refl|]. split; apply Hs. }
  destruct (start_writes _ _ _ _ _ Hset st Es) as (Hwr & _).
  eapply writeStaged_safe in Ew as (Hs1 & Ht1 & _); [|apply Hset..|done|done].
  destruct r1 as [u|e].
  - destruct Hr as (r2 & Er & _).
    eapply removeStaged_safe in Er as (Hs2 & Ht2 & _); [|apply Hset|done|done].
    split; [by eapply touches_trans|]. split; apply Hs2.
  - destruct Hr as [-> _]. split; [exact Ht1|]. split; apply Hs1.
Qed.

(** C18: Applying a patch implements its actions one after another.  In a [setting] for it where no
    entry goes by two paths, if running the actions in order on the text files fails at one of
    them, applying the patch fails and changes nothing; and when applying the patch succeeds the
    text files are those the actions leave, run in order, and the report lists the actions' files
    in order. *)
Theorem applyPatch_refines diff suffix umask root fs actions text :
  setting suffix root fs actions → no_aliases fs → parsePatch text = Ok actions →
  match runActions root actions (texts fs) with
  | Err _ => ∃ e, applyPatch diff suffix umask root text fs = (fs, Err e)
  | Ok σ => ∀ fs' result, applyPatch diff suffix umask root text fs = (fs', Ok result) →
              texts fs' = σ ∧ files result = applied <$> actions
  end.
Proof.
  intros Hset Ha Hp. destruct (runActions root actions (texts fs)) as [σ|e] eqn:Er.
  - intros fs' result E.
    eapply applyPatch_cases in E as [(e & _ & _ & ?)|(st & fs1 & r1 & Es & Ew & Hr)]; [done| |done].
    destruct r1 as [u|e]; [|by destruct Hr]. destruct Hr as (r2 & Em & Hr).
    destruct r2 as [u2|e]; [|done]. injection Hr as ->.
    destruct (staging_outcome _ _ _ _ _ Hset st Ha Es) as (σ' & Er' & Hs & Hσ & Eres).
    assert (σ' = σ) as -> by congruence. destruct (start_writes _ _ _ _ _ Hset st Es) as (Hwr & Hnd & _).
    eapply writeStaged_safe in Ew as (Hs1 & _ & Hx1); [|apply Hset..|done|apply Hset].
    eapply removeStaged_safe in Em as (_ & _ & Hx2); [|apply Hset|done|done].
    destruct u, u2. split.
    + apply map_eq. intros p. rewrite lookup_texts, (Hσ p), Hx2, Hx1 by done.
      by destruct (lookup_staged (staged st) p) as [[f|]|].
    + unfold summary. by destruct (countPatchStats _).
  - destruct (applyPatch diff suffix umask root text fs) as [fs' r] eqn:E.
    eapply applyPatch_cases in E as [(e' & _ & -> & ->)|(st & fs1 & r1 & Es & _)]; [by exists e'| |done].
    destruct (staging_outcome _ _ _ _ _ Hset st Ha Es) as (σ' & Er' & _). congruence.
Qed.

(** ** Concrete file systems *)

Definition properb (c : jsstr) : bool :=
  nonempty c && negb (c =s DOT) && negb (c =s DOTS) && negb (includesUnit c SLASH).

Definition wfb (fs : Fs) : bool :=
  bool_decide (dir_at fs [])
  && forallb (λ e, forallb properb e.1
                   && match e.1 with [] => true | _ => bool_decide (dir_at fs (removelast e.1)) end)
       (map_to_list fs).

Lemma properb_spec c : properb c = true → proper c.
Proof.
  unfold properb. intros H. guards. destruct c; [done|]. split_and!; try done.
  intros Hs%includesUnit_spec. congruence.
Qed.

Lemma wfb_spec fs : wfb fs = true → wf fs.
Proof.
  unfold wfb. rewrite andb_true_iff, forallb_forall, bool_decide_eq_true. intros [Hr H].
  assert (He : ∀ p n, fs !! p = Some n → Forall proper p ∧ (p ≠ [] → dir_at fs (removelast p))).
  { intros p n Hn. specialize (H (p, n)). rewrite <- list_elem_of_In, elem_of_map_to_list in H.
    specialize (H Hn). cbn [fst] in H. apply andb_true_iff in H as [Hp Hd]. split.
    - rewrite forallb_forall in Hp. apply Forall_forall. intros c Hc%list_elem_of_In. by apply properb_spec, Hp.
    - intros Hne. destruct p; [done|]. by apply bool_decide_eq_true in Hd. }
  split; [done| |by intros p n [? _]%He].
  intros p c n [_ Hd]%He. rewrite removelast_last in Hd. apply Hd. by destruct p.
Qed.

(** No entry ends like a temporary name whose suffix is always [s]. *)
Definition unusedb (s : jsstr) (fs : Fs) : bool :=
  forallb (λ e, match last e.1 with Some c => negb (endsWith c s) | None => true end) (map_to_list fs).

Lemma temp_like_ends s c : temp_like (λ _, s) c → endsWith c s = true.
Proof.
  intros (n & name & ->). cbv beta. unfold endsWith. rewrite rev_app_distr. apply startsWith_prefix.
Qed.

Lemma unusedb_spec s fs : unusedb s fs = true → unused (λ _, s) fs.
Proof.
  unfold unusedb. rewrite forallb_forall. intros H p c Hc%temp_like_ends.
  destruct (fs !! (p ++ [c])) as [n|] eqn:En; [|done]. specialize (H (p ++ [c], n)).
  rewrite <- list_elem_of_In, elem_of_map_to_list in H. specialize (H En). cbn [fst] in H.
  rewrite last_snoc, Hc in H. done.
Qed.

Definition distinctb (fs : Fs) : bool := bool_decide (NoDup (ino ∘ snd <$> map_to_list fs)).

Lemma distinctb_spec fs : distinctb fs = true → no_aliases fs.
Proof.
  unfold distinctb. intros Hn%bool_decide_eq_true p q n m Hp Hq E.
  apply (NoDup_map_inj_on _ _ (p, n) (q, m)) in Hn; [congruence| | |done]; by apply elem_of_map_to_list.
Qed.

Definition tameb (s : jsstr) (root : path) (actions : list PatchAction) : bool :=
  forallb (λ i, negb (includesUnit i BACKSLASH) && forallb (λ c, negb (endsWith c s)) (resolve root i))
    (names actions).

Definition ordinaryb (p : path) : bool :=
  forallb (λ c, negb (includesUnit c BACKSLASH) && negb (includesUnit c NUL)) p.

Lemma ordinaryb_spec p : ordinaryb p = true → ordinary_path p.
Proof.
  unfold ordinaryb, ordinary_path. rewrite forallb_forall. intros H.
  apply Forall_forall. intros c Hc%list_elem_of_In%H. apply Forall_forall. intros x Hx. guards.
  split; intros ->; apply includesUnit_spec in Hx; congruence.
Qed.

Lemma settingb s root fs actions :
  (3 <=? length s)%nat && negb (includesUnit s SLASH) && ordinaryb root && wfb fs
  && bool_decide (dir_at fs root) && unusedb s fs && distinctb fs && tameb s root actions = true →
  setting (λ _, s) root fs actions.
Proof.
  rewrite !andb_true_iff, negb_true_iff, bool_decide_eq_true, Nat.leb_le.
  intros [[[[[[[Hl Hs] Ho] Hw] Hd] Hu] Ha] Ht].
  assert (Hin : ∀ a i, a ∈ actions → i ∈ inputs a →
            includesUnit i BACKSLASH = false ∧ Forall (λ c, endsWith c s = false) (resolve root i)).
  { intros a i Ha' Hi. unfold tameb in Ht. rewrite forallb_forall in Ht. specialize (Ht i).
    rewrite <- list_elem_of_In in Ht. rewrite andb_true_iff, negb_true_iff, forallb_forall in Ht.
    destruct Ht as [Hb Hf]; [apply elem_of_names; eauto|]. split; [done|].
    apply Forall_forall. intros c Hc%list_elem_of_In%Hf. by apply negb_true_iff in Hc. }
  split.
  - intros _. split; [done|]. intros Hx%includesUnit_spec. congruence.
  - by apply ordinaryb_spec.
  - split; [by apply wfb_spec|done|by apply unusedb_spec].
  - by apply no_aliases_one_kind, distinctb_spec.
  - intros a i Ha' Hi Hb%includesUnit_spec. destruct (Hin a i Ha' Hi). congruence.
  - intros a i Ha' Hi. destruct (Hin a i Ha' Hi) as [_ Hf]. eapply Forall_impl; [exact Hf|].
    intros c Hc Hx%temp_like_ends. congruence.
Qed.

(** A workspace [/w] with a file [a.txt], a directory [dir] and a link to it. *)
Definition sampleRoot : path := [js "w"].
Definition sampleFs : Fs :=
  let dir := mkNode 1 493 Dir in
  list_to_map
    [([], dir); (sampleRoot, mkNode 2 493 Dir);
     (sampleRoot ++ [js "a.txt"], mkNode 3 420 (File (Some (joinLines [js "one"; js "two"; []]))));
     (sampleRoot ++ [js "dir"], mkNode 4 493 Dir);
     (sampleRoot ++ [js "link"], mkNode 5 511 (Symlink "dir"))].
Definition sampleSuffix : jsstr := ".kontrol-patch-7-0".
Definition samplePatch : jsstr :=
  joinLines [js "*** Begin Patch"; js "*** Update File: a.txt"; js "*** Move to: new/b.txt"; js "@@";
             js " one"; js "-two"; js "+2"; js "*** Add File: dir/c.txt"; js "+hi"; js "*** End Patch"].
Definition sampleActions : list PatchAction :=
  [UpdateFile "a.txt" (Some (js "new/b.txt"))
     [mkHunk [mkLine context "one"; mkLine remove_line "two"; mkLine add_line "2"] None false];
   AddFile "dir/c.txt" ("hi" +s [LF])].

Definition sampleDiff (_ _ _ _ : jsstr) : jsstr := [].

Lemma sampleFs_setting : setting (λ _, sampleSuffix) sampleRoot sampleFs sampleActions.
Proof. apply settingb. by vm_compute. Qed.

Lemma sampleFs_no_aliases : no_aliases sampleFs.
Proof. apply distinctb_spec. by vm_compute. Qed.

Lemma samplePatch_parses : parsePatch samplePatch = Ok sampleActions.
Proof. by vm_compute. Qed.

Lemma applyPatch_confined_witness :
  ∃ fs' r, applyPatch sampleDiff (λ _, sampleSuffix) 18 sampleRoot samplePatch sampleFs = (fs', r)
    ∧ wf fs'.
Proof.
  destruct (applyPatch sampleDiff (λ _, sampleSuffix) 18 sampleRoot samplePatch sampleFs) as [fs' r] eqn:E.
  exists fs', r. split; [done|].
  exact (proj1 (proj2 (applyPatch_confined sampleDiff (λ _, sampleSuffix) 18 sampleRoot sampleFs
    sampleActions samplePatch fs' r sampleFs_setting samplePatch_parses E))).
Defined.

Lemma applyPatch_refines_witness :
  match runActions sampleRoot sampleActions (texts sampleFs) with
  | Err _ => False
  | Ok σ => ∀ fs' result,
      applyPatch sampleDiff (λ _, sampleSuffix) 18 sampleRoot samplePatch sampleFs = (fs', Ok result) →
      texts fs' = σ
  end.
Proof.
  pose proof (applyPatch_refines sampleDiff (λ _, sampleSuffix) 18 sampleRoot sampleFs
    sampleActions samplePatch sampleFs_setting sampleFs_no_aliases samplePatch_parses) as H.
  destruct (runActions sampleRoot sampleActions (texts sampleFs)) as [σ|e] eqn:E.
  - intros fs' result Ha. exact (proj1 (H fs' result Ha)).
  - vm_compute in E. discriminate E.
Defined.

Lemma sample_stages :
  is_ok (stageActions sampleDiff sampleFs sampleRoot sampleActions (mkState [] [] [])) = true.
Proof. by vm_compute. Qed.

Lemma sample_prefix_free : prefix_free (resolve sampleRoot <$> names sampleActions).
Proof.
  intros p q k Hp Hq. set (l := resolve sampleRoot <$> names sampleActions) in *.
  vm_compute in l. subst l.
  repeat (apply elem_of_cons in Hp as [->|Hp]); [..|by apply not_elem_of_nil in Hp];
    repeat (apply elem_of_cons in Hq as [->|Hq]); try (by apply not_elem_of_nil in Hq);
    intros E; cbn in E; by simplify_list_eq.
Qed.

Lemma applyPatch_succeeds_witness :
  ∃ fs' result, applyPatch sampleDiff (λ _, sampleSuffix) 18 sampleRoot samplePatch sampleFs = (fs', Ok result).
Proof.
  pose proof sample_stages as Hs.
  destruct (stageActions sampleDiff sampleFs sampleRoot sampleActions (mkState [] [] [])) as [st|e] eqn:E;
    [|discriminate Hs].
  destruct (applyPatch_succeeds sampleDiff (λ _, sampleSuffix) 18 sampleRoot sampleFs
    sampleActions sampleFs_setting samplePatch st samplePatch_parses E sample_prefix_free) as [fs' Ha].
  exists fs', (summary st). exact Ha.
Defined.

(** A backslash in a path hides a symbolic link from the check.  In the sample workspace the
    path [link/ab] is refused because [link] is a link, but with a backslash between [a] and [b]
    the path is split at the backslash, the link is never looked at, the path is accepted, and a
    file added there is written through the link into the directory it leads to. *)
Theorem backslash_hides_symlink :
  let hidden := "link/a" +s [BACKSLASH] +s "b" in
  let added := joinLines [js "*** Begin Patch"; "*** Add File: " +s hidden; js "+hi"; js "*** End Patch"] in
  resolveConfinedPath sampleFs sampleRoot "link/ab"
    = Err (SymlinkComponent (render (sampleRoot ++ [js "link"; js "ab"])))
  ∧ resolveConfinedPath sampleFs sampleRoot hidden = Ok (resolve sampleRoot hidden)
  ∧ let '(fs', r) := applyPatch sampleDiff (λ _, sampleSuffix) 18 sampleRoot added sampleFs in
    is_ok r = true
    ∧ textAt fs' (sampleRoot ++ [js "dir"; "a" +s [BACKSLASH] +s "b"]) = Some ("hi" +s [LF]).
Proof. cbv zeta. by vm_compute. Qed.

(** A file whose name has a backslash replaces a symbolic link of that name, which leads nowhere. *)
Example backslash_replaces_link :
  let name := "a" +s [BACKSLASH] +s "b" in
  let fs := <[sampleRoot ++ [name] := mkNode 6 511 (Symlink "nowhere")]> sampleFs in
  let added := joinLines [js "*** Begin Patch"; "*** Add File: " +s name; js "+hi"; js "*** End Patch"] in
  let '(fs', r) := applyPatch sampleDiff (λ _, sampleSuffix) 18 sampleRoot added fs in
  is_ok r = true ∧ textAt fs' (sampleRoot ++ [name]) = Some ("hi" +s [LF]).
Proof. by vm_compute. Qed.

(** A file of two names that differ in case: moving it onto its other name leaves the first, where
    running the move alone would not. *)
Example moved_onto_its_link :
  let text := joinLines [js "one"; []] in
  let fs := <[sampleRoot ++ [js "x"] := mkNode 6 420 (File (Some text))]>
              (<[sampleRoot ++ [js "X"] := mkNode 6 420 (File (Some text))]> sampleFs) in
  let move := joinLines [js "*** Begin Patch"; js "*** Update File: X"; js "*** Move to: x"; js "@@";
                         js "-one"; js "+two"; js "*** End Patch"] in
  let '(fs', r) := applyPatch sampleDiff (λ _, sampleSuffix) 18 sampleRoot move fs in
  is_ok r = true ∧ textAt fs' (sampleRoot ++ [js "X"]) = Some text
  ∧ textAt fs' (sampleRoot ++ [js "x"]) = Some (joinLines [js "two"; []]).
Proof. by vm_compute. Qed.

End Applied.
