(* ===== verification/Paging.v ===== *)
(** * Keyset pagination

    Several stores list their rows in pages: a query selects the rows after a cursor in a fixed
    order, one row more than the page holds, and the cursor of the next page is the last row of
    this one.  The lemmas here say that going through the pages lists everything once. *)

From S2P Require Import Prelude JsString Sql.

Section Sorting.
Context {row : Type} (le : row → row → bool).
Hypothesis le_total : ∀ a b, le a b = true ∨ le b a = true.
Hypothesis le_trans : ∀ a b c, le a b = true → le b c = true → le a c = true.

Lemma insert_by_least r t :
  Forall (λ x, le r x = true) t → insert_by le r t = r :: t.
Proof. destruct t as [|a t]; [done|]. intros [H _]%Forall_cons. cbn. by rewrite H. Qed.

Lemma filter_insert_by p r t :
  StronglySorted (λ a b, le a b = true) t →
  List.filter p (insert_by le r t) = if p r then insert_by le r (List.filter p t) else List.filter p t.
Proof.
  induction 1 as [|a t Hs IH HF]; cbn [insert_by List.filter]; [by destruct (p r)|].
  destruct (le r a) eqn:E.
  - cbn [List.filter]. destruct (p r); [|done].
    rewrite insert_by_least; [done|]. rewrite Forall_forall. intros x Hx.
    assert (Hin : x ∈ a :: t).
    { destruct (p a); [|right; by apply elem_of_Lfilter in Hx as [? _]].
      apply elem_of_cons in Hx as [->|Hx]; [by left|right; by apply elem_of_Lfilter in Hx as [? _]]. }
    apply elem_of_cons in Hin as [->|Hin]; [done|].
    rewrite Forall_forall in HF. by eapply le_trans, HF.
  - cbn [List.filter]. rewrite IH. destruct (p a), (p r); try done. cbn [insert_by]. by rewrite E.
Qed.

Lemma order_by_strongly t : StronglySorted (λ a b, le a b = true) (order_by le t).
Proof.
  apply Sorted_StronglySorted; [exact le_trans|]. by apply order_by_sorted.
Qed.

(** Selecting and ordering commute. *)
Lemma order_by_filter p t : order_by le (List.filter p t) = List.filter p (order_by le t).
Proof.
  induction t as [|r t IH]; [done|].
  change (order_by le (r :: t)) with (insert_by le r (order_by le t)). cbn [List.filter].
  rewrite filter_insert_by by apply order_by_strongly. rewrite <- IH. by destruct (p r).
Qed.
End Sorting.

(** ** Pages *)

Section Pages.
Context {row K : Type} (key : row → K) (lt : K → K → bool).
Hypothesis lt_irrefl : ∀ a, lt a a = false.
Hypothesis lt_trans : ∀ a b c, lt a b = true → lt b c = true → lt a c = true.

Definition after (cursor : option K) (l : list row) : list row :=
  match cursor with None => l | Some c => List.filter (λ x, lt c (key x)) l end.

(** A page of [n] rows and the cursor of the next, from one row more. *)
Definition page (n : nat) (l : list row) : list row * option K :=
  let rows := take (S n) l in
  if (n <? length rows)%nat then (take n rows, key <$> last (take n rows)) else (rows, None).

(** All the pages from a cursor on; [None] means that the fuel ran out. *)
Fixpoint pages (fuel n : nat) (cursor : option K) (l : list row) : option (list row) :=
  match fuel with
  | O => None
  | S fuel' =>
      match page n (after cursor l) with
      | (rows, None) => Some rows
      | (rows, Some c) => rest ← pages fuel' n (Some c) l; Some (rows ++ rest)
      end
  end.

Definition ascending (l : list row) : Prop := StronglySorted (λ a b, lt (key a) (key b) = true) l.

Lemma after_split a x b : ascending (a ++ x :: b) → after (Some (key x)) (a ++ x :: b) = b.
Proof.
  intros Hs. cbn. rewrite List.filter_app. cbn [List.filter]. rewrite lt_irrefl.
  apply StronglySorted_app in Hs as (Hab & _ & Hb).
  rewrite Lfilter_none, Lfilter_all; [done| |].
  - inversion Hb as [|? ? _ HF]. subst. rewrite Forall_forall in HF. exact HF.
  - intros y Hy. destruct (lt (key x) (key y)) eqn:E; [|done].
    assert (H : lt (key y) (key x) = true) by (apply Hab; [done|by left]).
    pose proof (lt_trans _ _ _ H E) as Hbad. by rewrite lt_irrefl in Hbad.
Qed.

Lemma pages_after fuel n (done rest l : list row) cursor :
  1 ≤ n → l = done ++ rest → ascending l → after cursor l = rest →
  length rest < fuel → pages fuel n cursor l = Some rest.
Proof.
  intros Hn. revert done rest cursor. induction fuel as [|fuel IH]; intros dn rest cursor El Hs Ha Hf; [lia|].
  cbn [pages]. rewrite Ha. unfold page. cbv zeta. rewrite take_take, length_take.
  replace (n `min` S n) with n by lia.
  destruct (Nat.ltb_spec n (S n `min` length rest)) as [Hlt|Hge].
  - destruct (last (take n rest)) as [x|] eqn:Ex.
    2:{ apply last_None in Ex. apply (f_equal length) in Ex. rewrite length_take in Ex. cbn in Ex. lia. }
    cbn [fmap option_fmap option_map mbind option_bind]. apply last_Some in Ex as [a Ea].
    assert (Hb : length (drop n rest) < fuel) by (rewrite length_drop; lia).
    assert (Er : take n rest ++ drop n rest = rest) by apply take_drop.
    rewrite <- Er in El. rewrite Ea in El. set (b := drop n rest) in *. clearbody b.
    assert (El' : l = (dn ++ a) ++ x :: b) by (rewrite El; by rewrite <- !app_assoc).
    rewrite (IH (dn ++ a ++ [x]) b).
    + cbn [mbind option_bind]. by rewrite Er.
    + rewrite El. by rewrite <- !app_assoc.
    + done.
    + rewrite El'. apply after_split. by rewrite <- El'.
    + done.
  - rewrite take_ge by lia. done.
Qed.

(** Going through the pages lists every row once, in order. *)
Lemma pages_all fuel n l :
  1 ≤ n → ascending l → length l < fuel → pages fuel n None l = Some l.
Proof. intros Hn Hs Hf. by apply (pages_after _ _ [] l). Qed.
End Pages.

(** ** Rows in the order of a text column *)

Section ByName.
Context {row : Type} (key : row → jsstr).

Definition le_name (a b : row) : bool := negb (js_ltb (key b) (key a)).

Lemma le_name_total a b : le_name a b = true ∨ le_name b a = true.
Proof.
  unfold le_name. destruct (js_ltb (key b) (key a)) eqn:E; [|by left].
  right. by rewrite js_ltb_asym.
Qed.

Lemma le_name_trans a b c : le_name a b = true → le_name b c = true → le_name a c = true.
Proof. unfold le_name. rewrite !negb_true_iff. intros H1 H2. by eapply js_ltb_cotrans. Qed.

(** Rows ordered by a unique column ascend strictly. *)
Lemma ordered_ascending t : keyed key t → ascending key js_ltb (order_by le_name t).
Proof.
  intros Hk. pose proof (order_by_strongly le_name le_name_total le_name_trans t) as Hs.
  assert (Hk' : keyed key (order_by le_name t)).
  { unfold keyed. by rewrite (order_by_perm le_name t). }
  revert Hs Hk'. generalize (order_by le_name t). clear Hk t. intros l.
  induction 1 as [|a l Hs IH HF]; intros Hk; [constructor|].
  unfold keyed in Hk. cbn in Hk. apply NoDup_cons in Hk as [Hn Hk]. constructor; [by apply IH|].
  rewrite Forall_forall in HF |- *. intros b Hb. specialize (HF b Hb). unfold le_name in HF.
  apply negb_true_iff in HF. destruct (js_ltb (key a) (key b)) eqn:E; [done|].
  destruct Hn. rewrite (js_ltb_total _ _ E HF). apply elem_of_Lmap. eauto.
Qed.
End ByName.
