(* ===== verification/Policy.v ===== *)
(** * The approval policy ([src/src/policy.ts]): configuration, globs and evaluation

    The environment configures a default mode, a mode per tool and a mode per path pattern.
    [evaluate] decides a tool invocation by the most specific matching path rule, else by the
    tool's rule, else by the default, and names the decision by an approval key. *)

From S2P Require Import Prelude JsString.

Module Policy.

Inductive PolicyMode := allow | deny | ask.
Inductive PolicySource := src_path | src_tool | src_default.
Inductive ApprovalScope := once | work_session | workspace.

#[export] Instance PolicyMode_eq_dec : EqDecision PolicyMode.
Proof. enum_dec. Defined.
#[export] Instance PolicySource_eq_dec : EqDecision PolicySource.
Proof. enum_dec. Defined.
#[export] Instance ApprovalScope_eq_dec : EqDecision ApprovalScope.
Proof. enum_dec. Defined.

(** A string, or a path resolved to its workspace-relative and its absolute spelling. *)
Inductive PolicyInputPath :=
| PathString (s : jsstr)
| PolicyPath (relativePath absolutePath : jsstr).

Record PathRule := mkRule { pattern : jsstr; rmode : PolicyMode }.

Record PolicyConfig := mkConfig {
  defaultMode : PolicyMode;
  toolRules : gmap jsstr PolicyMode;
  pathRules : list PathRule
}.

Record PolicyDecision := mkDecision {
  dmode : PolicyMode;
  approvalKey : jsstr;
  source : PolicySource;
  matchedPattern : option jsstr
}.

(** ** Tools *)

Definition SECURE_BASELINE_TOOL_RULES : list (jsstr * PolicyMode) :=
  [(js "bash", ask); (js "write", ask); (js "edit", ask); (js "apply_patch", ask)].

Definition CANONICAL_TOOLS : list jsstr :=
  [js "read"; js "write"; js "edit"; js "grep"; js "glob"; js "ls"; js "bash"; js "apply_patch"].

Definition KNOWN_POLICY_CONFIGURATION_KEYS : list jsstr :=
  [js "KONTROL_POLICY_MODE"; js "KONTROL_POLICY_PATH_RULES"; js "KONTROL_POLICY_APPROVAL_TIMEOUT_MS";
   js "KONTROL_POLICY_DIRECT_APPROVAL_TTL_MS"; js "KONTROL_POLICY_DIRECT_REATTACH_GRACE_MS"].

Definition CANONICAL_TOOL_ALIASES : list (jsstr * jsstr) :=
  [(js "kontrol-shell", js "bash"); (js "kontrol-read", js "read"); (js "kontrol-write", js "write");
   (js "kontrol-edit", js "edit"); (js "kontrol-grep", js "grep"); (js "kontrol-glob", js "glob");
   (js "exec_command", js "bash")].

Definition in_list (l : list jsstr) (s : jsstr) : bool := existsb (js_eqb s) l.

(** [CANONICAL_TOOL_ALIASES[tool] ?? tool].  A name object literals inherit yields the inherited
    value, which its uses, as a property name and in template literals, turn into its text. *)
Definition canonicalTool (tool : jsstr) : jsstr :=
  match List.find (λ kv, kv.1 =s tool) CANONICAL_TOOL_ALIASES with
  | Some (_, canonical) => canonical
  | None => if in_list prototype_names tool then inherited_text tool else tool
  end.

#[global] Arguments canonicalTool : simpl never.
#[global] Arguments SECURE_BASELINE_TOOL_RULES : simpl never.
#[global] Arguments CANONICAL_TOOLS : simpl never.
#[global] Arguments KNOWN_POLICY_CONFIGURATION_KEYS : simpl never.

(** ** Configuration *)

Definition parseMode (value : option jsstr) : option PolicyMode :=
  if negb (truthy value) then None
  else
    let v := toLowerCase (or_empty value) in
    if v =s "allow" then Some allow else if v =s "deny" then Some deny
    else if v =s "ask" then Some ask else None.

Inductive ConfigError :=
| PathRulesNotJson | BadPathRule | UnknownTool (key : jsstr) | BadToolMode (key value : jsstr)
| UnknownKey (key : jsstr) | BadDefaultMode (value : option jsstr).

(** [process.env]: names and values *)
Definition Env : Type := list (jsstr * jsstr).

Definition getenv (env : Env) (k : jsstr) : option jsstr := snd <$> List.find (λ kv, kv.1 =s k) env.

Definition TOOL_PREFIX : jsstr := "KONTROL_POLICY_TOOL_".
Definition KEY_PREFIX : jsstr := "KONTROL_POLICY_".
Definition MODE_KEY : jsstr := "KONTROL_POLICY_MODE".
Definition PATH_RULES_KEY : jsstr := "KONTROL_POLICY_PATH_RULES".
#[global] Arguments TOOL_PREFIX : simpl never.
#[global] Arguments KEY_PREFIX : simpl never.
#[global] Arguments MODE_KEY : simpl never.
#[global] Arguments PATH_RULES_KEY : simpl never.

(** [s.replaceAll("_", "-")] *)
Definition dashes (s : jsstr) : jsstr := List.map (λ c, if N.eqb c 95 then 45%N else c) s.

(** The tool a [KONTROL_POLICY_TOOL_*] key names. *)
Definition toolOfKey (key : jsstr) : option jsstr :=
  let suffix := toLowerCase (slice (length TOOL_PREFIX) key) in
  List.find (in_list CANONICAL_TOOLS) (List.map canonicalTool [suffix; dashes suffix]).

(** [value !== "allow" && value !== "ask" && value !== "deny"], case-sensitive *)
Definition exactMode (value : jsstr) : option PolicyMode :=
  if value =s "allow" then Some allow else if value =s "ask" then Some ask
  else if value =s "deny" then Some deny else None.

(** One entry of the environment. *)
Definition configEntry (e : jsstr * jsstr) (rules : gmap jsstr PolicyMode)
  : res ConfigError (gmap jsstr PolicyMode) :=
  let '(key, value) := e in
  if startsWith key TOOL_PREFIX then
    tool ← require (toolOfKey key) (UnknownTool key);
    m ← require (exactMode value) (BadToolMode key value);
    Ok (<[tool := m]> rules)
  else if startsWith key KEY_PREFIX && negb (in_list KNOWN_POLICY_CONFIGURATION_KEYS key)
  then Err (UnknownKey key)
  else Ok rules.

Fixpoint configEntries (env : Env) (rules : gmap jsstr PolicyMode)
  : res ConfigError (gmap jsstr PolicyMode) :=
  match env with
  | [] => Ok rules
  | e :: env' => rules' ← configEntry e rules; configEntries env' rules'
  end.

(** [if (!toolRules[tool]) toolRules[tool] = mode] over the baseline *)
Definition addBaseline (rules : gmap jsstr PolicyMode) : gmap jsstr PolicyMode :=
  foldl (λ r kv, match r !! kv.1 with Some _ => r | None => <[kv.1 := kv.2]> r end)
    rules SECURE_BASELINE_TOOL_RULES.

(** An entry of the parsed path rules: each needs a pattern and a valid mode. *)
Definition pathRule (e : option jsstr * option jsstr) : res ConfigError PathRule :=
  match e.1, parseMode e.2 with
  | Some ((_ :: _) as p), Some m => Ok (mkRule p m)
  | _, _ => Err BadPathRule
  end.

Fixpoint pathRuleList (es : list (option jsstr * option jsstr)) : res ConfigError (list PathRule) :=
  match es with
  | [] => Ok []
  | e :: es' => r ← pathRule e; rs ← pathRuleList es'; Ok (r :: rs)
  end.

Section Load.
(** [JSON.parse] on a text of the declared shape [Array<{ pattern?: string; mode?: string }>];
    [None] is a [SyntaxError]. *)
Context (parse : jsstr → option (list (option jsstr * option jsstr))).

Definition loadPathRules (text : option jsstr) : res ConfigError (list PathRule) :=
  match text with
  | Some ((_ :: _) as t) => es ← require (parse t) PathRulesNotJson; pathRuleList es
  | _ => Ok []
  end.

Definition loadPolicyConfig (env : Env) : res ConfigError PolicyConfig :=
  paths ← loadPathRules (getenv env PATH_RULES_KEY);
  rules ← configEntries env ∅;
  let rules' := match parseMode (getenv env MODE_KEY) with
                | None => addBaseline rules
                | Some _ => rules
                end in
  m ← require (parseMode (Some (default (js "allow") (getenv env MODE_KEY))))
        (BadDefaultMode (getenv env MODE_KEY));
  Ok (mkConfig m rules' paths).
End Load.

(** [policyCanAsk]: whether any rule can ask *)
Definition policyCanAsk (config : PolicyConfig) : bool :=
  bool_decide (defaultMode config = ask)
  || existsb (λ kv, bool_decide (kv.2 = ask)) (map_to_list (toolRules config))
  || existsb (λ r, bool_decide (rmode r = ask)) (pathRules config).

(** ** Globs *)

(** What the regular expression built from a pattern is made of: a character, [.], [[^/]*] and
    [.*]. *)
Inductive Token := Lit (c : N) | Any | Star | GlobStar.

Definition STAR : N := 42.
Definition QUESTION : N := 63.
Definition SLASH : N := 47.

(** The placeholder the translation puts for [**], which a pattern may also spell out. *)
Definition MARKER : jsstr := "<<<GLOBSTAR>>>".
#[global] Arguments MARKER : simpl never.

(** The translation of a pattern, in one pass; [skip] characters belong to the last token. *)
Fixpoint tokenize (skip : nat) (s : jsstr) : list Token :=
  match s with
  | [] => []
  | c :: s' =>
      match skip with
      | S k => tokenize k s'
      | O =>
          if startsWith s MARKER then GlobStar :: tokenize (length MARKER - 1) s'
          else if N.eqb c STAR then
            match s' with
            | d :: _ => if N.eqb d STAR then GlobStar :: tokenize 1 s' else Star :: tokenize 0 s'
            | [] => [Star]
            end
          else if N.eqb c QUESTION then Any :: tokenize 0 s'
          else Lit c :: tokenize 0 s'
      end
  end.

(** Some prefix of characters that satisfy [p], then [k]. *)
Fixpoint many (p : N → bool) (k : jsstr → bool) (s : jsstr) : bool :=
  k s || match s with c :: s' => p c && many p k s' | [] => false end.

Definition not_slash (c : N) : bool := negb (N.eqb c SLASH).
(** What [.] matches. *)
Definition not_line_end (c : N) : bool := negb (is_line_terminator c).

(** [new RegExp("^...$").test(path)] *)
Fixpoint matchTokens (ts : list Token) (s : jsstr) : bool :=
  match ts with
  | [] => match s with [] => true | _ => false end
  | Lit c :: ts' => match s with d :: s' => N.eqb c d && matchTokens ts' s' | [] => false end
  | Any :: ts' => match s with d :: s' => not_line_end d && matchTokens ts' s' | [] => false end
  | Star :: ts' => many not_slash (matchTokens ts') s
  | GlobStar :: ts' => many not_line_end (matchTokens ts') s
  end.

Definition globMatch (p pat : jsstr) : bool := matchTokens (tokenize 0 pat) p.

(** ** Evaluation *)

(** [path.replaceAll("\\", "/").replace(/^\.\//, "")] *)
Definition normalizePolicyPath (p : jsstr) : jsstr :=
  let q := List.map (λ c, if N.eqb c 92 then SLASH else c) p in
  if startsWith q "./" then slice 2 q else q.

Definition pathCandidates (p : PolicyInputPath) : list jsstr :=
  match p with
  | PathString s => [normalizePolicyPath s]
  | PolicyPath r a => [normalizePolicyPath r; normalizePolicyPath a]
  end.

(** The number of characters that are not wildcards. *)
Definition pathRuleSpecificity (pat : jsstr) : nat :=
  length (List.filter (λ c, negb (N.eqb c QUESTION || N.eqb c STAR)) pat).

(** The loop over the rules: a rule replaces the best so far when it is more specific. *)
Fixpoint bestRule (matches : PathRule → bool) (rules : list PathRule) (best : option PathRule)
  : option PathRule :=
  match rules with
  | [] => best
  | r :: rules' =>
      bestRule matches rules'
        (if negb (matches r) then best
         else match best with
              | None => Some r
              | Some b =>
                  if (pathRuleSpecificity (pattern b) <? pathRuleSpecificity (pattern r))%nat
                  then Some r else best
              end)
  end.

(** [if (path)]: no path, or the empty string, skips the path rules *)
Definition given (p : option PolicyInputPath) : option PolicyInputPath :=
  match p with Some (PathString []) => None | _ => p end.

Definition ruleMatches (p : PolicyInputPath) (r : PathRule) : bool :=
  existsb (λ c, globMatch c (pattern r)) (pathCandidates p).

Definition pathDecision (config : PolicyConfig) (p : option PolicyInputPath) : option PathRule :=
  match given p with
  | Some p => bestRule (ruleMatches p) (pathRules config) None
  | None => None
  end.

Definition evaluate (config : PolicyConfig) (tool : jsstr) (p : option PolicyInputPath)
  : PolicyDecision :=
  let canon := canonicalTool tool in
  match pathDecision config p with
  | Some r => mkDecision (rmode r) ("path:" +s pattern r) src_path (Some (pattern r))
  | None =>
      match toolRules config !! canon with
      | Some m => mkDecision m ("tool:" +s canon) src_tool (Some canon)
      | None => mkDecision (defaultMode config) ("default:" +s canon) src_default None
      end
  end.

(** ** Globs denote decompositions *)

(** What one token matches. *)
Definition piece (t : Token) (s : jsstr) : Prop :=
  match t with
  | Lit c => s = [c]
  | Any => ∃ c, s = [c] ∧ not_line_end c = true
  | Star => Forall (λ c, not_slash c = true) s
  | GlobStar => Forall (λ c, not_line_end c = true) s
  end.

Lemma many_spec p k s :
  many p k s = true ↔ ∃ a b, s = a ++ b ∧ Forall (λ c, p c = true) a ∧ k b = true.
Proof.
  induction s as [|c s IH].
  - cbn. rewrite orb_false_r. split.
    + intros H. exists [], []. by repeat constructor.
    + intros (a & b & E & _ & H). symmetry in E. by apply app_eq_nil in E as [-> ->].
  - cbn [many]. rewrite orb_true_iff, andb_true_iff, IH. split.
    + intros [H|[Hc (a & b & -> & Ha & Hb)]].
      * exists [], (c :: s). by repeat constructor.
      * exists (c :: a), b. split_and!; [done|by constructor|done].
    + intros ([|d a] & b & E & Ha & Hb); cbn in E; [subst b; by left|].
      injection E as <- ->. apply Forall_cons in Ha as [Hc Ha]. right. split; [done|]. eauto.
Qed.

Lemma matchTokens_spec ts s :
  matchTokens ts s = true ↔ ∃ pieces, s = List.concat pieces ∧ Forall2 piece ts pieces.
Proof.
  revert s. induction ts as [|t ts IH]; intros s.
  - cbn. split.
    + destruct s; [|done]. intros _. by exists [].
    + intros (ps & -> & H). by inversion H.
  - assert (Hcons : (∃ a b, s = a ++ b ∧ piece t a ∧ matchTokens ts b = true)
              ↔ ∃ pieces, s = List.concat pieces ∧ Forall2 piece (t :: ts) pieces).
    { split.
      - intros (a & b & -> & Ha & (ps & -> & Hps)%IH). exists (a :: ps). by split; [|constructor].
      - intros (ps & -> & H). inversion H as [|? a ? ps' Ha Hps]. subst. exists a, (List.concat ps').
        split_and!; [done..|]. apply IH. eauto. }
    rewrite <- Hcons. destruct t; cbn [matchTokens piece]; [| |apply many_spec..].
    + destruct s as [|d s]; [split; [done|]; by intros (a & b & E & -> & _)|].
      rewrite andb_true_iff, N.eqb_eq. split.
      * intros [-> H]. by exists [d], s.
      * intros (a & b & E & -> & H). cbn in E. by injection E as -> ->.
    + destruct s as [|d s]; [split; [done|]; by intros (a & b & E & (? & -> & _) & _)|].
      rewrite andb_true_iff. split.
      * intros [Hd H]. exists [d], s. split_and!; eauto.
      * intros (a & b & E & (x & -> & Hx) & H). cbn in E. by injection E as -> ->.
Qed.

(** What a path pattern matches.  [globMatch] accepts a path exactly when the path can be cut
    into pieces, one per token of the pattern: a literal is itself, [?] is one character that does
    not end a line, [*] is any characters but slashes, and [**] is any characters that do not end
    a line. *)
Theorem glob_denotes p pat :
  globMatch p pat = true ↔ ∃ pieces, p = List.concat pieces ∧ Forall2 piece (tokenize 0 pat) pieces.
Proof. apply matchTokens_spec. Qed.

(** A pattern without wildcards and placeholders is read literally. *)
Definition literal (s : jsstr) : bool :=
  forallb (λ c, negb (N.eqb c STAR || N.eqb c QUESTION || N.eqb c 60)) s.

Lemma tokenize_literal s t : literal s = true → tokenize 0 (s ++ t) = (Lit <$> s) ++ tokenize 0 t.
Proof.
  induction s as [|c s IH]; [done|]. cbn [literal forallb]. rewrite andb_true_iff. intros [Hc Hs].
  apply negb_true_iff in Hc. rewrite !orb_false_iff in Hc. destruct Hc as [[H1 H2] H3].
  cbn [app tokenize].
  assert (startsWith (c :: s ++ t) MARKER = false) as ->.
  { change (N.eqb 60 c && startsWith (s ++ t) "<<GLOBSTAR>>>" = false). by rewrite N.eqb_sym, H3. }
  rewrite H1, H2. cbn [fmap list_fmap app]. f_equal. by apply IH.
Qed.

Lemma matchTokens_literal s ts x : matchTokens ((Lit <$> s) ++ ts) (s ++ x) = matchTokens ts x.
Proof. induction s as [|c s IH]; cbn; [done|]. by rewrite N.eqb_refl. Qed.

Lemma many_all p s : many p (matchTokens []) s = forallb p s.
Proof.
  induction s as [|c s IH]; [done|]. cbn [many forallb].
  change (matchTokens [] (c :: s)) with false. cbn [orb]. by rewrite IH.
Qed.

(** A [**] rule stops at a line end.  A rule [dir**], with a literal [dir], matches a path
    [dir ++ rest] exactly when [rest] has no line terminator: a file whose name has a line feed in
    it is not covered by the rule of its directory, and a deny rule does not deny it. *)
Theorem globstar_stops_at_line_end (dir rest : jsstr) :
  literal dir = true →
  globMatch (dir +s rest) (dir +s "**") = negb (existsb is_line_terminator rest).
Proof.
  intros Hd. unfold globMatch, js_app. rewrite tokenize_literal by done.
  change (tokenize 0 "**") with [GlobStar]. rewrite matchTokens_literal. cbn [matchTokens].
  transitivity (forallb not_line_end rest); [by apply many_all|].
  induction rest as [|c rest IH]; [done|]. cbn. rewrite IH. unfold not_line_end. by rewrite negb_orb.
Qed.

Lemma globstar_stops_at_line_end_witness :
  globMatch ("private/" +s "a" +s [LF]) ("private/" +s "**") = false.
Proof.
  exact (globstar_stops_at_line_end "private/" ("a" +s [LF]) eq_refl).
Defined.

(** ** The most specific rule *)

Section Best.
Context (matches : PathRule → bool).

Definition spec (r : PathRule) : nat := pathRuleSpecificity (pattern r).

(** The first of the most specific matching rules of a list. *)
Definition best_of (rules : list PathRule) (o : option PathRule) : Prop :=
  match o with
  | None => ∀ r, r ∈ rules → matches r = false
  | Some b => ∃ i, rules !! i = Some b ∧ matches b = true
      ∧ ∀ j r, rules !! j = Some r → matches r = true → spec r < spec b ∨ (spec r = spec b ∧ i ≤ j)
  end.

Lemma best_of_snoc rules r o :
  best_of rules o →
  best_of (rules ++ [r])
    (if negb (matches r) then o
     else match o with
          | None => Some r
          | Some b => if (spec b <? spec r)%nat then Some r else o
          end).
Proof.
  assert (Hlook : ∀ j r', (rules ++ [r]) !! j = Some r' → rules !! j = Some r' ∨ (j = length rules ∧ r' = r)).
  { intros j r' H. apply lookup_app_Some in H as [H|[Hj H]]; [by left|]. right.
    apply list_lookup_singleton_Some in H as [? <-]. split; [lia|done]. }
  assert (Hlast : (rules ++ [r]) !! length rules = Some r).
  { apply lookup_app_Some. right. split; [done|]. by rewrite Nat.sub_diag. }
  intros H. destruct (matches r) eqn:Hm; cbn [negb].
  - destruct o as [b|]; [destruct H as (i & Hi & Hb & Hbest); destruct (Nat.ltb_spec (spec b) (spec r))|].
    + exists (length rules). split_and!; [done..|]. intros j r' [Hj|[-> ->]]%Hlook Hm'; [|lia].
      destruct (Hbest j r' Hj Hm') as [?|[? _]]; lia.
    + exists i. split_and!; [by apply lookup_app_l_Some|done|].
      intros j r' [Hj|[-> ->]]%Hlook Hm'; [by apply Hbest|].
      apply lookup_lt_Some in Hi. destruct (decide (spec r = spec b)); lia.
    + exists (length rules). split_and!; [done..|]. intros j r' [Hj|[-> ->]]%Hlook Hm'; [|lia].
      apply list_elem_of_lookup_2 in Hj. by rewrite (H r' Hj) in Hm'.
  - destruct o as [b|].
    + destruct H as (i & Hi & Hb & Hbest). exists i. split_and!; [by apply lookup_app_l_Some|done|].
      intros j r' [Hj|[-> ->]]%Hlook Hm'; [by apply Hbest|congruence].
    + intros r' [Hr| ->%list_elem_of_singleton]%elem_of_app; [by apply H|done].
Qed.

Lemma bestRule_spec rules : best_of rules (bestRule matches rules None).
Proof.
  assert (H : ∀ rest done o, best_of done o → best_of (done ++ rest) (bestRule matches rest o)).
  { induction rest as [|r rest IH]; intros dn o Ho; [by rewrite app_nil_r|].
    cbn [bestRule]. replace (dn ++ r :: rest) with ((dn ++ [r]) ++ rest) by (by rewrite <- app_assoc).
    apply IH. by apply best_of_snoc. }
  apply (H rules [] None). intros r Hr. by apply not_elem_of_nil in Hr.
Qed.
End Best.

(** The decisions the policy describes: a path rule that is the first of the most specific
    matching ones, else the tool's rule when no path rule matches, else the default. *)
Inductive decides (config : PolicyConfig) (tool : jsstr) (p : option PolicyInputPath)
  : PolicyDecision → Prop :=
| decides_path q r i :
    given p = Some q → pathRules config !! i = Some r → ruleMatches q r = true →
    (∀ j r', pathRules config !! j = Some r' → ruleMatches q r' = true →
       spec r' < spec r ∨ (spec r' = spec r ∧ i ≤ j)) →
    decides config tool p (mkDecision (rmode r) ("path:" +s pattern r) src_path (Some (pattern r)))
| decides_tool m :
    (∀ q r, given p = Some q → r ∈ pathRules config → ruleMatches q r = false) →
    toolRules config !! canonicalTool tool = Some m →
    decides config tool p
      (mkDecision m ("tool:" +s canonicalTool tool) src_tool (Some (canonicalTool tool)))
| decides_default :
    (∀ q r, given p = Some q → r ∈ pathRules config → ruleMatches q r = false) →
    toolRules config !! canonicalTool tool = None →
    decides config tool p
      (mkDecision (defaultMode config) ("default:" +s canonicalTool tool) src_default None).

Lemma pathDecision_spec config p :
  match pathDecision config p with
  | Some r => ∃ q, given p = Some q ∧ best_of (ruleMatches q) (pathRules config) (Some r)
  | None => ∀ q, given p = Some q → best_of (ruleMatches q) (pathRules config) None
  end.
Proof.
  unfold pathDecision. destruct (given p) as [q|]; [|done].
  pose proof (bestRule_spec (ruleMatches q) (pathRules config)) as H.
  destruct (bestRule _ _ _); [by exists q|]. by intros ? [= <-].
Qed.

Lemma evaluate_decides config tool p : decides config tool p (evaluate config tool p).
Proof.
  unfold evaluate. pose proof (pathDecision_spec config p) as H.
  destruct (pathDecision config p) as [r|].
  - destruct H as (q & Hq & i & Hi & Hm & Hbest). by eapply decides_path.
  - assert (Hn : ∀ q r, given p = Some q → r ∈ pathRules config → ruleMatches q r = false).
    { intros q r Hq. by apply (H q Hq). }
    cbv zeta. destruct (toolRules config !! canonicalTool tool) eqn:E; [by apply decides_tool|by apply decides_default].
Qed.

Lemma decides_functional config tool p d d' :
  decides config tool p d → decides config tool p d' → d = d'.
Proof.
  assert (Hno : ∀ q q' r i, given p = Some q → pathRules config !! i = Some r → ruleMatches q r = true →
            (∀ q r, given p = Some q → r ∈ pathRules config → ruleMatches q r = false) → given p = Some q' → False).
  { intros q q' r i Hq Hi Hm Hn _. apply list_elem_of_lookup_2 in Hi. by rewrite (Hn q r Hq Hi) in Hm. }
  intros H H'. destruct H as [q r i Hq Hi Hm Hb|m Hn Ht|Hn Ht], H' as [q' r' i' Hq' Hi' Hm' Hb'|m' Hn' Ht'|Hn' Ht'];
    try (exfalso; eauto; fail); try congruence.
  assert (q' = q) as -> by congruence.
  assert (i' = i) as ->.
  { destruct (Hb i' r' Hi' Hm') as [?|[? ?]], (Hb' i r Hi Hm) as [?|[? ?]]; lia. }
  by assert (r' = r) as -> by congruence.
Qed.

(** C32: [evaluate] implements the policy.  Its result is the one decision the rules describe: the
    first of the most specific path rules that match one of the path's spellings decides,
    independently of the order of less specific ones; else the rule of the canonical tool; else
    the default mode. *)
Theorem evaluate_spec config tool p d : evaluate config tool p = d ↔ decides config tool p d.
Proof.
  split; [intros <-; apply evaluate_decides|].
  intros H. eapply decides_functional; [apply evaluate_decides|done].
Qed.

(** An approval key stands for one rule.  Two invocations whose decisions carry the same
    approval key are decided by the same rule: mode, source and pattern agree.  So an approval
    recorded under the key of an invocation that asks is never looked up by one that is denied. *)
Theorem approval_key_names_rule config tool p tool' p' :
  approvalKey (evaluate config tool p) = approvalKey (evaluate config tool' p') →
  evaluate config tool p = evaluate config tool' p'.
Proof.
  pose proof (evaluate_decides config tool p) as H. pose proof (evaluate_decides config tool' p') as H'.
  destruct H as [q r i Hq Hi Hm Hb|m Hn Ht|Hn Ht], H' as [q' r' i' Hq' Hi' Hm' Hb'|m' Hn' Ht'|Hn' Ht'];
    cbn [approvalKey]; intros E; try (apply (f_equal (take 4)) in E; vm_compute in E; discriminate E).
  - apply (app_inv_head (js "path:")) in E.
    assert (Hq1 : ruleMatches q r' = true) by (unfold ruleMatches; by rewrite <- E).
    assert (Hq2 : ruleMatches q' r = true) by (unfold ruleMatches; by rewrite E).
    assert (i' = i) as ->; [|by assert (r' = r) as -> by congruence].
    assert (spec r' = spec r) by (unfold spec; by rewrite E).
    destruct (Hb i' r' Hi' Hq1) as [?|[? ?]], (Hb' i r Hi Hq2) as [?|[? ?]]; lia.
  - apply (app_inv_head (js "tool:")) in E. rewrite E in *. by assert (m' = m) as -> by congruence.
  - apply (app_inv_head (js "default:")) in E. by rewrite E.
Qed.

Definition sampleConfig : PolicyConfig :=
  mkConfig allow (<[js "bash" := ask]> ∅) [mkRule "src/**" allow; mkRule "src/private/**" deny].

Lemma approval_key_names_rule_witness :
  evaluate sampleConfig "edit" (Some (PathString "src/private/a"))
  = evaluate sampleConfig "write" (Some (PathString "./src/private/b/c")).
Proof. apply approval_key_names_rule. vm_compute. reflexivity. Defined.

(** ** Loading the configuration *)

(** The mode the environment gives a tool: that of the last entry that names it. *)
Definition configured (env : Env) (tool : jsstr) : option PolicyMode :=
  foldl (λ o e, if startsWith e.1 TOOL_PREFIX && bool_decide (toolOfKey e.1 = Some tool)
                then exactMode e.2 else o) None env.

(** What an entry must be like for the configuration to load: a tool key names a known tool and
    its value is a mode as spelled, and any other policy key is known. *)
Definition entry_ok (e : jsstr * jsstr) : Prop :=
  (startsWith e.1 TOOL_PREFIX = true → is_Some (toolOfKey e.1) ∧ is_Some (exactMode e.2))
  ∧ (startsWith e.1 TOOL_PREFIX = false → startsWith e.1 KEY_PREFIX = true →
       e.1 ∈ KNOWN_POLICY_CONFIGURATION_KEYS).

Lemma in_list_spec l s : in_list l s = true ↔ s ∈ l.
Proof.
  unfold in_list. rewrite existsb_exists. setoid_rewrite js_eqb_eq. rewrite list_elem_of_In. naive_solver.
Qed.

Lemma configEntry_spec e rules rules' :
  configEntry e rules = Ok rules' →
  entry_ok e
  ∧ ∀ t, rules' !! t = if startsWith e.1 TOOL_PREFIX && bool_decide (toolOfKey e.1 = Some t)
                       then exactMode e.2 else rules !! t.
Proof.
  destruct e as [k v]. unfold configEntry, entry_ok. cbn [fst snd].
  destruct (startsWith k TOOL_PREFIX) eqn:Ep; cbn [andb].
  - intros E. apply bind_Ok in E as (t & Ht%require_Ok & E). apply bind_Ok in E as (m & Hm%require_Ok & E).
    injection E as <-. split; [by rewrite Ht, Hm|]. intros t'. rewrite Ht. case_bool_decide as Eq.
    + injection Eq as ->. by rewrite lookup_insert_eq.
    + rewrite lookup_insert_ne; [done|congruence].
  - destruct (startsWith k KEY_PREFIX && _) eqn:Ek; [done|]. intros [= <-]. split; [|done].
    split; [done|]. intros _ Hk. rewrite Hk in Ek. cbn in Ek. apply negb_false_iff in Ek.
    by apply in_list_spec.
Qed.

Lemma configEntries_spec env rules rules' :
  configEntries env rules = Ok rules' →
  Forall entry_ok env
  ∧ ∀ t, rules' !! t
       = foldl (λ o e, if startsWith e.1 TOOL_PREFIX && bool_decide (toolOfKey e.1 = Some t)
                       then exactMode e.2 else o) (rules !! t) env.
Proof.
  revert rules. induction env as [|e env IH]; intros rules E; cbn [configEntries foldl] in *.
  - injection E as <-. done.
  - apply bind_Ok in E as (r1 & H1 & E). apply configEntry_spec in H1 as [He H1].
    apply IH in E as [Henv E]. split; [by constructor|]. intros t. by rewrite E, H1.
Qed.

Lemma addBaseline_spec rules t :
  addBaseline rules !! t
  = match rules !! t with
    | Some m => Some m
    | None => if in_list (fst <$> SECURE_BASELINE_TOOL_RULES) t then Some ask else None
    end.
Proof.
  assert (H : ∀ l (r : gmap jsstr PolicyMode), Forall (λ kv, kv.2 = ask) l →
    foldl (λ r kv, match r !! kv.1 with Some _ => r | None => <[kv.1 := kv.2]> r end) r l !! t
    = match r !! t with Some m => Some m | None => if in_list (fst <$> l) t then Some ask else None end).
  { induction l as [|[k m] l IH]; intros r Hl; cbn [foldl fmap list_fmap]; [by destruct (r !! t)|].
    apply Forall_cons in Hl as [Hm Hl]. cbn in Hm. subst m. rewrite IH by done. cbn [fst snd].
    unfold in_list at 2. cbn [existsb]. fold (in_list (fst <$> l) t).
    destruct (t =s k) eqn:Et; guards.
    - subst k. destruct (r !! t) eqn:Er; [by rewrite Er|]. by rewrite lookup_insert_eq.
    - destruct (r !! k); [done|]. by rewrite lookup_insert_ne. }
  apply H. repeat constructor.
Qed.

(** A configuration that loads says what the environment says, and fails closed.  Every policy
    key of the environment is known and every tool mode is spelled exactly; the mode of a tool is
    that of the last entry naming it; without a global mode the default is to allow and a mutating
    tool that no entry names asks; and a global mode is the default as written. *)
Theorem config_effective parse env config :
  loadPolicyConfig parse env = Ok config →
  Forall entry_ok env
  ∧ Some (defaultMode config) = match getenv env MODE_KEY with
                                | None => Some allow
                                | Some m => parseMode (Some m)
                                end
  ∧ ∀ t, toolRules config !! t
      = match configured env t with
        | Some m => Some m
        | None => if in_list (fst <$> SECURE_BASELINE_TOOL_RULES) t
                     && bool_decide (getenv env MODE_KEY = None)
                  then Some ask else None
        end.
Proof.
  unfold loadPolicyConfig. intros E. apply bind_Ok in E as (ps & _ & E).
  apply bind_Ok in E as (rules & Hr & E). cbv zeta in E.
  apply bind_Ok in E as (m & Hm%require_Ok & E). injection E as <-. cbn [defaultMode toolRules].
  apply configEntries_spec in Hr as [Henv Hr]. split; [done|].
  destruct (getenv env MODE_KEY) as [v|] eqn:Ev.
  - split; [done|]. change (default (js "allow") (Some v)) with v in Hm. rewrite Hm.
    rewrite bool_decide_false by done. intros t. rewrite andb_false_r, Hr, lookup_empty.
    unfold configured. by destruct (foldl _ _ _).
  - split; [vm_compute in Hm; congruence|]. rewrite bool_decide_true by done.
    change (parseMode None) with (@None PolicyMode). cbv iota. intros t.
    rewrite andb_true_r, addBaseline_spec, Hr, lookup_empty. done.
Qed.

Definition sampleEnv : Env :=
  [(js "PATH", js "/bin"); (js "KONTROL_POLICY_TOOL_EXEC_COMMAND", js "deny")].

Lemma config_effective_witness :
  ∃ config, loadPolicyConfig (λ _, None) sampleEnv = Ok config
    ∧ toolRules config !! js "bash" = Some deny ∧ toolRules config !! js "write" = Some ask.
Proof.
  destruct (loadPolicyConfig (λ _, None) sampleEnv) as [config|e] eqn:E; [|vm_compute in E; discriminate E].
  exists config. split; [done|]. destruct (config_effective _ _ _ E) as (_ & _ & H).
  rewrite !H. by vm_compute.
Defined.

End Policy.
