(* ===== verification/Grants.v ===== *)
(** * Durable approval grants ([src/src/policy-grants.ts])

    A grant records that a principal may act under an approval key in a scope until it is revoked
    or expires.  [GrantStore] is the interface the policy engine uses; the SQLite store implements
    it over the table [policy_approval_grants]. *)

From S2P Require Import Prelude JsString Sql Paging Policy.
Import Policy.

Module Grants.

Record Grant := mkGrant {
  gid : jsstr;
  principalId : jsstr;
  scope : ApprovalScope;
  scopeId : jsstr;
  gkey : jsstr;
  createdAt : Z;
  expiresAt : option Z;
  revokedAt : option Z;
  reviewerId : option jsstr
}.

(** Who a grant lets act, where and under which key. *)
Record Subject := mkSubject {
  sub_principal : jsstr;
  sub_scope : ApprovalScope;
  sub_scopeId : jsstr;
  sub_key : jsstr
}.

#[export] Instance Subject_eq_dec : EqDecision Subject.
Proof. solve_decision. Defined.

Definition subject (g : Grant) : Subject := mkSubject (principalId g) (scope g) (scopeId g) (gkey g).

(** [revoked_at is null and (expires_at is null or expires_at > now)] *)
Definition effective (now : Z) (g : Grant) : bool :=
  match revokedAt g with
  | Some _ => false
  | None => match expiresAt g with None => true | Some e => (now <? e)%Z end
  end.

(** The columns of [work_sessions] that the listing of a workspace reads. *)
Record SessionRef := mkSession {
  ws_id : jsstr;
  workspaceSessionId : jsstr;
  ownerContextId : option jsstr
}.

(** [Number.isSafeInteger(limit) ? Math.max(1, Math.min(200, limit)) : 100], [None] when not *)
Definition pageLimit (l : option Z) : nat :=
  match l with Some l => Z.to_nat (Z.max 1 (Z.min 200 l)) | None => 100 end.

(** ** The interface *)

Class GrantStore (S : Type) := {
  insert : Grant → S → S;
  revokeForScope : Z → ApprovalScope → jsstr → S → S;
  revokeGrant : Z → jsstr → S → S;
  hasEffective : Z → Subject → S → bool;
  getEffective : Z → jsstr → S → option Grant;
  listEffective : Z → S → list Grant;
  listEffectiveForWorkspace :
    Z → list SessionRef → jsstr → option jsstr → option Z → option jsstr → S → list Grant * option jsstr;
  (** An id is in the store. *)
  known : jsstr → S → Prop;
  (** The store holds grants as the policy engine makes them: ids are unique, none expires, and no
      two effective ones have the same subject. *)
  store_ok : S → Prop
}.

(** What the policy engine relies on. *)
Class GrantLaws (S : Type) `{GrantStore S} := {
  has_any_time now now' q s : store_ok s → hasEffective now q s = hasEffective now' q s;
  has_insert now q g s :
    revokedAt g = None → expiresAt g = None →
    hasEffective now q (insert g s) = hasEffective now q s || bool_decide (subject g = q);
  has_revokeForScope now now' q sc sid s :
    hasEffective now q (revokeForScope now' sc sid s)
    = hasEffective now q s && negb (bool_decide (sub_scope q = sc ∧ sub_scopeId q = sid));
  has_revokeGrant now now' q i s :
    store_ok s →
    hasEffective now q (revokeGrant now' i s)
    = hasEffective now q s
      && negb (match getEffective now' i s with Some g => bool_decide (subject g = q) | None => false end);
  ok_insert now g s :
    store_ok s → revokedAt g = None → expiresAt g = None → ¬ known (gid g) s →
    hasEffective now (subject g) s = false → store_ok (insert g s);
  ok_revokeForScope now sc sid s : store_ok s → store_ok (revokeForScope now sc sid s);
  ok_revokeGrant now i s : store_ok s → store_ok (revokeGrant now i s)
}.

(** ** The SQLite store *)

Definition Table : Type := list Grant.

Definition sqlInsert (g : Grant) (t : Table) : Table :=
  insert_row (mkGrant (gid g) (principalId g) (scope g) (scopeId g) (gkey g) (createdAt g)
                (expiresAt g) None (reviewerId g)) t.

Definition unrevoked (g : Grant) : bool := match revokedAt g with None => true | Some _ => false end.

Definition revoke (now : Z) (g : Grant) : Grant :=
  mkGrant (gid g) (principalId g) (scope g) (scopeId g) (gkey g) (createdAt g) (expiresAt g)
    (Some now) (reviewerId g).

Definition sqlRevokeForScope (now : Z) (sc : ApprovalScope) (sid : jsstr) (t : Table) : Table :=
  (update_where (λ g, bool_decide (scope g = sc) && (scopeId g =s sid) && unrevoked g)
     (revoke now) t).1.

Definition sqlRevokeGrant (now : Z) (i : jsstr) (t : Table) : Table :=
  (update_where (λ g, (gid g =s i) && unrevoked g) (revoke now) t).1.

Definition sqlHasEffective (now : Z) (q : Subject) (t : Table) : bool :=
  match get_where (λ g, bool_decide (subject g = q) && effective now g) t with
  | Some _ => true
  | None => false
  end.

Definition sqlGetEffective (now : Z) (i : jsstr) (t : Table) : option Grant :=
  get_where (λ g, (gid g =s i) && effective now g) t.

(** The rows not revoked, filtered by expiry. *)
Definition sqlListEffective (now : Z) (t : Table) : list Grant :=
  List.filter (λ g, match expiresAt g with None => true | Some e => (now <? e)%Z end)
    (select_where unrevoked t).

(** *** Pages of a workspace's grants *)

(** [exists (select 1 from work_sessions ws where ws.id = g.scope_id and ...)] *)
Definition session_where (p : SessionRef → bool) (sid : jsstr) (sessions : list SessionRef) : bool :=
  existsb (λ s, (ws_id s =s sid) && p s) sessions.

(** The [where] clause but for the cursor: effective, of the workspace or of one of its work
    sessions, and, when an owner is given, the owner's or of a work session the owner owns. *)
Definition inWorkspace (now : Z) (sessions : list SessionRef) (w : jsstr) (owner : option jsstr)
  (g : Grant) : bool :=
  effective now g
  && ((bool_decide (scope g = workspace) && (scopeId g =s w))
      || (bool_decide (scope g = work_session)
          && session_where (λ s, workspaceSessionId s =s w) (scopeId g) sessions))
  && match owner with
     | None => true
     | Some o =>
         (principalId g =s o)
         || (bool_decide (scope g = work_session)
             && session_where (λ s, (workspaceSessionId s =s w) && bool_decide (ownerContextId s = Some o))
                  (scopeId g) sessions)
     end.

Definition le_gid (a b : Grant) : bool := negb (js_ltb (gid b) (gid a)).

(** [g.id > ?] with [afterId ?? ""], ordered by id. *)
Definition sqlListEffectiveForWorkspace (now : Z) (sessions : list SessionRef) (w : jsstr)
  (afterId : option jsstr) (l : option Z) (owner : option jsstr) (t : Table)
  : list Grant * option jsstr :=
  let n := pageLimit l in
  let rows := limit (S n)
    (order_by le_gid
       (select_where (λ g, inWorkspace now sessions w owner g && js_ltb (or_empty afterId) (gid g)) t)) in
  if (n <? length rows)%nat then (take n rows, gid <$> last (take n rows)) else (rows, None).

(** No unrevoked row expires, and the unrevoked rows' subjects are distinct. *)
Definition engine_rows (t : Table) : Prop :=
  keyed gid t ∧ (∀ g, g ∈ t → expiresAt g = None)
  ∧ ∀ g g', g ∈ t → g' ∈ t → unrevoked g = true → unrevoked g' = true → subject g = subject g' → g = g'.

#[export] Instance sqlite_store : GrantStore Table := {
  insert := sqlInsert;
  revokeForScope := sqlRevokeForScope;
  revokeGrant := sqlRevokeGrant;
  hasEffective := sqlHasEffective;
  getEffective := sqlGetEffective;
  listEffective := sqlListEffective;
  listEffectiveForWorkspace := sqlListEffectiveForWorkspace;
  known i t := ∃ g, g ∈ t ∧ gid g = i;
  store_ok := engine_rows
}.

(** ** The store satisfies the interface *)

Lemma has_spec now q t :
  sqlHasEffective now q t = true ↔ ∃ g, g ∈ t ∧ subject g = q ∧ effective now g = true.
Proof.
  unfold sqlHasEffective. destruct (get_where _ t) as [g|] eqn:E.
  - apply get_where_Some in E as [Hin H]. guards. split; [|done]. intros _. by exists g.
  - rewrite get_where_None in E. split; [done|]. intros (g & Hin & Hs & He).
    specialize (E g Hin). rewrite He, bool_decide_true in E by done. done.
Qed.

Lemma has_false now q t :
  sqlHasEffective now q t = false ↔ ∀ g, g ∈ t → subject g = q → effective now g = false.
Proof.
  rewrite <- not_true_iff_false, has_spec. split.
  - intros H g Hin Hs. destruct (effective now g) eqn:E; [|done]. destruct H. eauto.
  - intros H (g & Hin & Hs & He). by rewrite (H g Hin Hs) in He.
Qed.

Lemma effective_revoke now now' g : effective now (revoke now' g) = false.
Proof. done. Qed.

Lemma effective_unrevoked now g : effective now g = true → unrevoked g = true.
Proof. unfold effective, unrevoked. by destruct (revokedAt g). Qed.

Lemma no_expiry now g : expiresAt g = None → effective now g = unrevoked g.
Proof. unfold effective, unrevoked. intros ->. by destruct (revokedAt g). Qed.

(** Revoking by a condition removes exactly the subjects' rights it hits. *)
Lemma has_revoke now now' q p t :
  sqlHasEffective now q (update_where (λ g, p g && unrevoked g) (revoke now') t).1 = true
  ↔ ∃ g, g ∈ t ∧ subject g = q ∧ effective now g = true ∧ p g = false.
Proof.
  rewrite has_spec. setoid_rewrite elem_of_update_where. split.
  - intros (g & (g0 & Hin & ->) & Hs & He). destruct (p g0 && unrevoked g0) eqn:E; [done|].
    exists g0. split_and!; [done..|]. rewrite (effective_unrevoked _ _ He), andb_true_r in E. done.
  - intros (g & Hin & Hs & He & Hp). exists g. split_and!; [|done..]. exists g. by rewrite Hp.
Qed.

Lemma sql_has_revokeGrant now now' q i t :
  engine_rows t →
  sqlHasEffective now q (sqlRevokeGrant now' i t)
  = sqlHasEffective now q t
    && negb (match sqlGetEffective now' i t with Some g => bool_decide (subject g = q) | None => false end).
Proof.
  intros (Hk & He & Hu). apply eq_true_iff_eq. unfold sqlRevokeGrant.
  rewrite has_revoke, andb_true_iff, negb_true_iff, has_spec.
  destruct (sqlGetEffective now' i t) as [g|] eqn:Eg.
  - apply get_where_Some in Eg as [Hg Pg]. guards. split.
    + intros (g' & Hin & <- & Heff & Hp). split; [by exists g'|]. intros E.
      apply js_eqb_neq in Hp. destruct Hp. rewrite <- H. f_equal.
      symmetry. eauto using effective_unrevoked.
    + intros [(g' & Hin & <- & Heff) Hn]. exists g'. split_and!; [done..|]. apply js_eqb_neq. intros E.
      destruct Hn. f_equal. apply (keyed_inj gid t); congruence || done.
  - unfold sqlGetEffective in Eg. rewrite get_where_None in Eg. split; [intros (g' & ? & ? & ? & _); split; eauto|].
    intros [(g' & Hin & Hs & Heff) _]. exists g'. split_and!; [done..|]. specialize (Eg g' Hin).
    rewrite (no_expiry now' g'), (effective_unrevoked now g') in Eg by auto. by rewrite andb_true_r in Eg.
Qed.

Lemma sql_has_insert now q t g :
  revokedAt g = None → expiresAt g = None →
  sqlHasEffective now q (sqlInsert g t) = sqlHasEffective now q t || bool_decide (subject g = q).
Proof.
  intros Hr He. apply eq_true_iff_eq. rewrite orb_true_iff, !has_spec, bool_decide_eq_true.
  unfold sqlInsert, insert_row. setoid_rewrite elem_of_app. setoid_rewrite list_elem_of_singleton.
  destruct g as [i p sc sid k c e rv r]; cbn in Hr, He; subst rv e. split.
  - intros (g & [Hin| ->] & Hs & He); [left; by exists g|by right].
  - intros [(g & Hin & Hs & He)|Hs]; [exists g; by split_and!; [left|..]|].
    eexists. split_and!; [by right|done..].
Qed.

Lemma sql_has_revokeForScope now now' q sc sid t :
  sqlHasEffective now q (sqlRevokeForScope now' sc sid t)
  = sqlHasEffective now q t && negb (bool_decide (sub_scope q = sc ∧ sub_scopeId q = sid)).
Proof.
  apply eq_true_iff_eq. unfold sqlRevokeForScope.
  rewrite has_revoke, andb_true_iff, negb_true_iff, bool_decide_eq_false, has_spec. split.
  - intros (g & Hin & <- & He & Hp). split; [by exists g|]. intros [<- <-]. cbn in Hp.
    by rewrite bool_decide_true, js_eqb_refl in Hp.
  - intros [(g & Hin & <- & He) Hn]. exists g. split_and!; [done..|]. cbn in Hn.
    apply not_true_iff_false. intros H. guards. by apply Hn.
Qed.

Lemma engine_rows_insert now g t :
  engine_rows t → revokedAt g = None → expiresAt g = None → (¬ ∃ r, r ∈ t ∧ gid r = gid g) →
  sqlHasEffective now (subject g) t = false → engine_rows (sqlInsert g t).
Proof.
  intros (Hk & He & Hu) Hr Hx Hn Hf. rewrite has_false in Hf.
  assert (Hf' : ∀ r, r ∈ t → unrevoked r = true → subject r ≠ subject g).
  { intros r Hin Hv E. specialize (Hf r Hin E). by rewrite (no_expiry now r), Hv in Hf by auto. }
  unfold sqlInsert. destruct g as [i p sc sid k c e rv rw]; cbn in Hr, Hx; subst rv e.
  split_and!; unfold insert_row in *.
  - apply keyed_insert; [done|]. apply by_key_None. intros r Hin E. apply Hn. by exists r.
  - intros r [?| ->%list_elem_of_singleton]%elem_of_app; auto.
  - intros r r' [?| ->%list_elem_of_singleton]%elem_of_app [?| ->%list_elem_of_singleton]%elem_of_app Hv Hv' E;
      [by auto| | |done]; exfalso; eapply Hf'; eauto; exact (eq_sym E).
Qed.

Lemma engine_rows_revoke p now t :
  engine_rows t → engine_rows (update_where p (revoke now) t).1.
Proof.
  intros (Hk & He & Hu). split_and!.
  - by apply keyed_update; [intros []|].
  - intros g (g0 & Hin & ->)%elem_of_update_where. destruct (p g0); cbn; auto.
  - intros g g' (g0 & Hin & ->)%elem_of_update_where (g1 & Hin' & ->)%elem_of_update_where.
    destruct (p g0), (p g1); try done. auto.
Qed.

#[export] Instance sqlite_laws : GrantLaws Table.
Proof.
  split; cbn [insert hasEffective revokeForScope revokeGrant getEffective known store_ok sqlite_store].
  - intros now now' q t (_ & He & _). apply eq_true_iff_eq. rewrite !has_spec.
    split; intros (g & Hin & Hs & H); exists g; (split_and!; [done..|]); rewrite no_expiry by auto; rewrite no_expiry in H by auto; done.
  - intros. by apply sql_has_insert.
  - intros. apply sql_has_revokeForScope.
  - intros. by apply sql_has_revokeGrant.
  - intros. by eapply engine_rows_insert.
  - intros. by apply engine_rows_revoke.
  - intros. by apply engine_rows_revoke.
Qed.

(** ** Pages list every grant once *)

Lemma le_gid_name a b : le_gid a b = le_name gid a b.
Proof. done. Qed.

(** Rows ordered by their ids ascend strictly. *)
Lemma grants_ascending t : keyed gid t → ascending gid js_ltb (order_by le_gid t).
Proof. exact (ordered_ascending gid t). Qed.

(** A reader that goes through the pages, from a cursor on; [None] means the fuel ran out. *)
Fixpoint readPages (fuel : nat) (now : Z) (sessions : list SessionRef) (w : jsstr)
  (afterId : option jsstr) (l : option Z) (owner : option jsstr) (t : Table) : option (list Grant) :=
  match fuel with
  | O => None
  | S fuel' =>
      match sqlListEffectiveForWorkspace now sessions w afterId l owner t with
      | (grants, None) => Some grants
      | (grants, Some c) =>
          rest ← readPages fuel' now sessions w (Some c) l owner t; Some (grants ++ rest)
      end
  end.

Section Read.
Context (now : Z) (sessions : list SessionRef) (w : jsstr) (l : option Z) (owner : option jsstr).
Context (t : Table) (Hk : keyed gid t) (Hne : ∀ g, g ∈ t → gid g ≠ []).

Definition visible : list Grant := order_by le_gid (select_where (inWorkspace now sessions w owner) t).

Lemma page_is_page afterId :
  (∀ c, afterId = Some c → c ≠ []) →
  sqlListEffectiveForWorkspace now sessions w afterId l owner t
  = page gid (pageLimit l) (after gid js_ltb afterId visible).
Proof using Hne.
  intros Hc. unfold sqlListEffectiveForWorkspace, page, visible, limit. cbv zeta.
  replace (order_by le_gid (select_where (λ g, inWorkspace now sessions w owner g && js_ltb (or_empty afterId) (gid g)) t))
    with (after gid js_ltb afterId (order_by le_gid (select_where (inWorkspace now sessions w owner) t))); [done|].
  destruct afterId as [c|]; cbn [after or_empty default].
  - rewrite <- order_by_filter; [|apply (le_name_total gid)|apply (le_name_trans gid)]. f_equal.
    unfold select_where. clear. induction t as [|g u IH]; [done|]. cbn [List.filter].
    destruct (inWorkspace _ _ _ _ g); cbn [andb]; [|done]. cbn [List.filter]. rewrite IH.
    change (or_empty (Some c)) with c. done.
  - f_equal. apply Lfilter_ext. intros g Hg. apply Hne in Hg. destruct (gid g); [done|].
    cbn. by rewrite andb_true_r.
Qed.
End Read.

(** Paging through a workspace's grants shows every one once.  Whatever page size the caller
    asks for, reading page after page from the start returns the effective grants of the workspace
    and its work sessions that the owner may see, each exactly once and in the order of their
    ids. *)
Theorem grant_pages_complete now sessions w l owner t fuel :
  keyed gid t → (∀ g, g ∈ t → gid g ≠ []) → length t < fuel →
  readPages fuel now sessions w None l owner t
  = Some (order_by le_gid (select_where (inWorkspace now sessions w owner) t)).
Proof.
  intros Hk Hne Hf.
  assert (Hv : ascending gid js_ltb (visible now sessions w owner t)).
  { apply grants_ascending. unfold keyed, select_where in *. clear -Hk.
    induction t as [|g t IH]; [constructor|]. cbn in Hk. apply NoDup_cons in Hk as [Hn Hk]. cbn.
    destruct (inWorkspace _ _ _ _ g); [|auto]. cbn. apply NoDup_cons. split; [|auto].
    intros (x & E & [Hx _]%elem_of_Lfilter)%elem_of_Lmap. destruct Hn. apply elem_of_Lmap; eauto. }
  assert (Hl : length (visible now sessions w owner t) ≤ length t).
  { unfold visible. rewrite length_order_by. apply List.filter_length_le. }
  assert (Hn : 1 ≤ pageLimit l) by (unfold pageLimit; destruct l; lia).
  fold (visible now sessions w owner t).
  rewrite <- (pages_all gid js_ltb js_ltb_irrefl js_ltb_trans fuel (pageLimit l) (visible now sessions w owner t));
    [|done..|lia].
  assert (Hrec : ∀ fuel c, (∀ x, c = Some x → x ≠ []) →
    readPages fuel now sessions w c l owner t = pages gid js_ltb fuel (pageLimit l) c (visible now sessions w owner t)).
  { clear -Hne. induction fuel as [|fuel IH]; intros c Hc; [done|]. cbn [readPages pages].
    rewrite page_is_page by done.
    destruct (page gid (pageLimit l) (after gid js_ltb c (visible now sessions w owner t))) as [rows [x|]] eqn:E; [|done].
    rewrite IH; [done|]. intros y [= <-]. unfold page in E. cbv zeta in E.
    destruct (_ <? _)%nat; [|done]. injection E as <- E.
    destruct (last _) as [g|] eqn:El; [|done]. injection E as <-. apply Hne.
    apply last_Some in El as [k Ek]. assert (Hin : g ∈ after gid js_ltb c (visible now sessions w owner t)).
    { apply (subseteq_take (S (pageLimit l))). apply (subseteq_take (pageLimit l)). rewrite Ek. set_solver. }
    assert (Hin' : g ∈ visible now sessions w owner t).
    { destruct c; [by apply elem_of_Lfilter in Hin as [? _]|done]. }
    apply elem_of_order_by in Hin'. by apply elem_of_Lfilter in Hin' as [? _]. }
  by apply Hrec.
Qed.

Definition sampleGrants : Table :=
  let g i p sc sid e r := mkGrant i p sc sid "tool:bash" 0 e r None in
  [g (js "g3") (js "p") workspace (js "w") None None; g (js "g1") (js "q") workspace (js "w") (Some 9%Z) None;
   g (js "g2") (js "p") work_session (js "s") None None; g (js "g0") (js "p") workspace (js "w") None (Some 1%Z)].

Lemma grant_pages_complete_witness :
  gid <$> default [] (readPages 5 5 [mkSession "s" "w" None] "w" None (Some 1%Z) None sampleGrants)
  = [js "g1"; js "g2"; js "g3"].
Proof.
  rewrite (grant_pages_complete 5 [mkSession "s" "w" None] "w" (Some 1%Z) None sampleGrants 5); [reflexivity|..].
  - unfold keyed. repeat (apply NoDup_cons; split; [vm_compute; set_solver|]). constructor.
  - apply Forall_forall. repeat constructor; discriminate.
  - cbn. lia.
Defined.

End Grants.
