(* ===== verification/Approvals.v ===== *)
(** * Durable approval requests ([src/src/approval-requests.ts])

    An approval request is a row that waits for a reviewer: pending, then approved, denied,
    expired or cancelled.  An approval of a single execution is consumed by the operation it was
    given for.  Clock readings and fresh ids are arguments. *)

From S2P Require Import Prelude JsString Sql Policy.
Import Policy.

Module Approvals.

Inductive ApprovalKind := k_tool | filesystem | command | work_review | agent_permission | user_input.
Inductive ApprovalStatus := pending | approved | denied | expired | cancelled.
Inductive Effect := e_approve | e_deny | e_changes_requested.
Inductive Origin := direct_mcp | o_work_session.

#[export] Instance ApprovalKind_eq_dec : EqDecision ApprovalKind.
Proof. enum_dec. Defined.
#[export] Instance ApprovalStatus_eq_dec : EqDecision ApprovalStatus.
Proof. enum_dec. Defined.
#[export] Instance Effect_eq_dec : EqDecision Effect.
Proof. enum_dec. Defined.
#[export] Instance Origin_eq_dec : EqDecision Origin.
Proof. enum_dec. Defined.

Record ApprovalOption := mkOption {
  oid : jsstr;
  label : jsstr;
  effect : Effect;
  oscope : option ApprovalScope
}.

(** The columns the store only carries. *)
Record Details := mkDetails {
  runId : option jsstr;
  agentId : option jsstr;
  mcpSessionId : option jsstr;
  mcpRequestId : option jsstr;
  conversationId : option jsstr;
  title : jsstr;
  description : option jsstr;
  risk : option jsstr;
  tool : option jsstr;
  command_ : option jsstr;
  path : option jsstr
}.

(** [resolutionJson] *)
Record Resolution := mkResolution {
  r_option : option jsstr;
  r_effect : option Effect;
  r_scope : option ApprovalScope;
  r_reason : option jsstr;
  r_reviewer : option jsstr
}.

Record Row := mkRow {
  aid : jsstr;
  kind : ApprovalKind;
  workspaceSessionId : jsstr;
  workSessionId : option jsstr;
  ownerContextId : option jsstr;
  principalId : option jsstr;
  approvalKey : option jsstr;
  operationHash : option jsstr;
  waiterKey : option jsstr;
  liveWaiterId : option jsstr;
  origin : option Origin;
  orphanedAt : option Z;
  reattachDeadline : option Z;
  options : list ApprovalOption;
  status : ApprovalStatus;
  createdAt : Z;
  expiresAt : option Z;
  resolvedAt : option Z;
  resolution : option Resolution;
  consumedAt : option Z;
  details : Details
}.

Definition Table : Type := list Row.

Definition set_status (s : ApprovalStatus) (now : Z) (res : Resolution) (r : Row) : Row :=
  mkRow (aid r) (kind r) (workspaceSessionId r) (workSessionId r) (ownerContextId r) (principalId r)
    (approvalKey r) (operationHash r) (waiterKey r) (liveWaiterId r) (origin r) (orphanedAt r)
    (reattachDeadline r) (options r) s (createdAt r) (expiresAt r) (Some now) (Some res)
    (consumedAt r) (details r).

Definition set_waiter (w : option jsstr) (orphaned deadline : option Z) (r : Row) : Row :=
  mkRow (aid r) (kind r) (workspaceSessionId r) (workSessionId r) (ownerContextId r) (principalId r)
    (approvalKey r) (operationHash r) (waiterKey r) w (origin r) orphaned
    deadline (options r) (status r) (createdAt r) (expiresAt r) (resolvedAt r) (resolution r)
    (consumedAt r) (details r).

Definition set_consumed (now : Z) (r : Row) : Row :=
  mkRow (aid r) (kind r) (workspaceSessionId r) (workSessionId r) (ownerContextId r) (principalId r)
    (approvalKey r) (operationHash r) (waiterKey r) (liveWaiterId r) (origin r) (orphanedAt r)
    (reattachDeadline r) (options r) (status r) (createdAt r) (expiresAt r) (resolvedAt r)
    (resolution r) (Some now) (details r).

Inductive ApprovalError :=
| WorkspaceNotActive | DuplicateId | InvalidStatus | EffectWithoutOption | UnknownOption
| NotAnApproveOption | NotADenyOption | OptionOnExpiry | EffectMismatch | ScopeMismatch.

(** ** Creating *)

(** [options.directToolApprovalTtlMs] and [options.directReattachGraceMs], defaults applied *)
Record Config := mkConfigA { directTtl : Z; reattachGrace : Z }.

Definition DEFAULT_CONFIG : Config := mkConfigA (10 * 60000) (5 * 60000).
Definition WORK_SESSION_TOOL_APPROVAL_TTL_MS : Z := 24 * 60 * 60000.

Record CreateInput := mkInput {
  c_approvalId : option jsstr;
  c_kind : ApprovalKind;
  c_workspaceSessionId : jsstr;
  c_workSessionId : option jsstr;
  c_ownerContextId : option jsstr;
  c_principalId : option jsstr;
  c_approvalKey : option jsstr;
  c_operationHash : option jsstr;
  c_waiterKey : option jsstr;
  c_liveWaiterId : option jsstr;
  c_origin : option Origin;
  c_orphanedAt : option Z;
  c_reattachDeadline : option Z;
  c_options : list ApprovalOption;
  c_expiresAt : option Z;
  c_details : Details
}.

Definition defaultOptions : list ApprovalOption :=
  [mkOption "approve" "Approve" e_approve (Some once); mkOption "deny" "Deny" e_deny None].

(** The request [create] builds; [uuid] is the text of [randomUUID()]. *)
Definition newRequest (cfg : Config) (now : Z) (uuid : jsstr) (i : CreateInput) : Row :=
  mkRow (default ("apr_" +s uuid) (c_approvalId i)) (c_kind i) (c_workspaceSessionId i)
    (c_workSessionId i) (c_ownerContextId i) (c_principalId i) (c_approvalKey i)
    (c_operationHash i) (c_waiterKey i) (c_liveWaiterId i)
    (Some (default (if truthy (c_workSessionId i) then o_work_session else direct_mcp) (c_origin i)))
    (c_orphanedAt i) (c_reattachDeadline i)
    (match c_options i with [] => defaultOptions | l => l end)
    pending now
    (match c_expiresAt i with
     | Some e => Some e
     | None =>
         match c_kind i with
         | k_tool => Some (now + (if truthy (c_workSessionId i) then WORK_SESSION_TOOL_APPROVAL_TTL_MS
                                  else directTtl cfg))%Z
         | _ => None
         end
     end)
    None None None (c_details i).

(** [create]: [workspaceActive] is whether the workspace's row, when there is one, is active. *)
Definition create (cfg : Config) (now : Z) (uuid : jsstr) (workspaceActive : jsstr → option bool)
  (i : CreateInput) (t : Table) : res ApprovalError (Row * Table) :=
  let request := newRequest cfg now uuid i in
  _ ← reject (match workspaceActive (workspaceSessionId request) with Some b => negb b | None => false end)
        WorkspaceNotActive;
  _ ← ensure (match by_key aid (aid request) t with None => true | Some _ => false end) DuplicateId;
  Ok (request, insert_row request t).

(** ** Expiring *)

Definition is_pending (r : Row) : bool := match status r with pending => true | _ => false end.

(** [status = 'pending' and expires_at is not null and expires_at <= now] *)
Definition due (now : Z) (r : Row) : bool :=
  is_pending r && match expiresAt r with Some e => (e <=? now)%Z | None => false end.

Definition le_expiry (a b : Row) : bool :=
  let ea := default 0%Z (expiresAt a) in
  let eb := default 0%Z (expiresAt b) in
  (ea <? eb)%Z || ((ea =? eb)%Z && negb (js_ltb (aid b) (aid a))).

Definition timedOut : Resolution := mkResolution None None None (Some (js "approval timed out")) None.

Definition boundedLimit (l : Z) : nat := Z.to_nat (Z.max 1 (Z.min 500 l)).

Definition expirePending (now : Z) (l : Z) (t : Table) : Table * list Row :=
  let candidates := limit (boundedLimit l) (order_by le_expiry (select_where (due now) t)) in
  let '(t', hits) := cas_loop (λ c r, bool_decide (aid r = aid c) && is_pending r)
                       (set_status expired now timedOut) candidates t in
  (t', select_where (λ r, bool_decide (aid r ∈ List.map aid hits)) t').

(** ** Reading *)

Definition get (now : Z) (i : jsstr) (t : Table) : Table * option Row :=
  let t' := (expirePending now 100 t).1 in (t', by_key aid i t').

Definition le_created_desc (a b : Row) : bool := (createdAt b <=? createdAt a)%Z.

Definition listPending (now : Z) (w : option jsstr) (t : Table) : Table * list Row :=
  let t' := (expirePending now 100 t).1 in
  (t', order_by le_created_desc
         (select_where (λ r, is_pending r
                             && match w with
                                | Some ((_ :: _) as w) => workspaceSessionId r =s w
                                | _ => true
                                end) t')).

(** What [rowToApproval] makes of the origin column. *)
Definition rowOrigin (r : Row) : Origin :=
  match origin r with
  | Some o => o
  | None => if truthy (workSessionId r) then o_work_session else direct_mcp
  end.

(** [a] comes after [b] in the order of [listPendingPage]: created earlier, or with a smaller id. *)
Definition earlier (a b : Z * jsstr) : bool :=
  (a.1 <? b.1)%Z || ((a.1 =? b.1)%Z && js_ltb a.2 b.2).

Definition cursor_of (r : Row) : Z * jsstr := (createdAt r, aid r).

Definition le_page (a b : Row) : bool := negb (earlier (cursor_of a) (cursor_of b)).

Definition listPendingPage (w : option jsstr) (l : Z) (before : option (Z * jsstr))
  (o : option Origin) (t : Table) : list Row * option (Z * jsstr) :=
  let n := boundedLimit l in
  let rows := limit (S n)
    (order_by le_page
       (select_where
          (λ r, is_pending r
                && (match w with Some ((_ :: _) as w) => workspaceSessionId r =s w | _ => true end
                    && match o with Some o => bool_decide (origin r = Some o) | None => true end)
                && match before with Some c => earlier (cursor_of r) c | None => true end) t)) in
  if (n <? length rows)%nat then (take n rows, cursor_of <$> last (take n rows)) else (rows, None).

(** ** Resolving *)

Record ResolveInput := mkResolve {
  i_status : ApprovalStatus;
  i_option : option jsstr;
  i_effect : option Effect;
  i_scope : option ApprovalScope;
  i_reason : option jsstr;
  i_reviewer : option jsstr
}.

Definition approves (e : Effect) : bool := match e with e_approve => true | _ => false end.

(** The effect a decision expects of its option. *)
Definition expectedEffect (i : ResolveInput) : option Effect :=
  match i_effect i with
  | Some e => Some e
  | None => match i_status i with approved => Some e_approve | denied => Some e_deny | _ => None end
  end.

(** The checks of a selected option, and the scope the decision then has. *)
Definition checkOption (i : ResolveInput) (o : ApprovalOption) : res ApprovalError (option ApprovalScope) :=
  _ ← reject (bool_decide (i_status i = approved) && negb (approves (effect o))) NotAnApproveOption;
  _ ← reject (bool_decide (i_status i = denied) && approves (effect o)) NotADenyOption;
  _ ← reject (bool_decide (i_status i = expired) || bool_decide (i_status i = cancelled)) OptionOnExpiry;
  _ ← reject (match expectedEffect i with Some e => negb (bool_decide (effect o = e)) | None => false end)
        EffectMismatch;
  let expected := default once (oscope o) in
  if bool_decide (i_status i = approved) then
    _ ← reject (match i_scope i with Some s => negb (bool_decide (s = expected)) | None => false end)
          ScopeMismatch;
    Ok (Some expected)
  else Ok None.

(** The scope of the decision, all checks made. *)
Definition decisionScope (i : ResolveInput) (existing : Row) : res ApprovalError (option ApprovalScope) :=
  _ ← reject (match i_effect i with Some _ => negb (truthy (i_option i)) | None => false end)
        EffectWithoutOption;
  match i_option i with
  | Some ((_ :: _) as oid0) =>
      o ← require (List.find (λ o, oid o =s oid0) (options existing)) UnknownOption;
      checkOption i o
  | _ => Ok (i_scope i)
  end.

(** [resolve]; [t1], [t2] and [t3] are its clock readings, in order. *)
Definition resolve (t1 t2 t3 : Z) (i : jsstr) (input : ResolveInput) (t : Table)
  : res ApprovalError (Table * option Row) :=
  _ ← reject (bool_decide (i_status input = pending)) InvalidStatus;
  let '(tb, existing) := get t1 i t in
  match existing with
  | Some r =>
      if negb (is_pending r) then Ok (tb, existing)
      else
        sc ← decisionScope input r;
        let resolution := mkResolution (i_option input) (i_effect input) sc (i_reason input) (i_reviewer input) in
        let tb' := (update_where (λ r, (aid r =s i) && is_pending r)
                      (set_status (i_status input) t2 resolution) tb).1 in
        Ok (get t3 i tb')
  | None => Ok (tb, None)
  end.

(** ** Waiters *)

Definition detachLiveWaiter (cfg : Config) (now : Z) (i w : jsstr) (t : Table) : Table :=
  (update_where (λ r, (aid r =s i) && bool_decide (liveWaiterId r = Some w))
     (set_waiter None (Some now) (Some (now + reattachGrace cfg)%Z)) t).1.

Definition reattachLiveWaiter (i w : jsstr) (t : Table) : Table :=
  (update_where (λ r, (aid r =s i) && is_pending r)
     (λ r, set_waiter (Some w) None (reattachDeadline r) r) t).1.

Definition touchDirectApproval (cfg : Config) (now : Z) (i : jsstr) (t : Table) : Table :=
  (update_where
     (λ r, (aid r =s i) && bool_decide (kind r = k_tool) && bool_decide (workSessionId r = None)
           && bool_decide (origin r = Some direct_mcp ∨ origin r = None) && is_pending r)
     (λ r, set_waiter (liveWaiterId r) (orphanedAt r) (Some (now + reattachGrace cfg)%Z) r) t).1.

(** ** Consuming *)

Definition unconsumed (r : Row) : bool :=
  match status r with approved => true | _ => false end
  && match consumedAt r with None => true | Some _ => false end.

Definition scope_once (r : Row) : bool :=
  match resolution r with Some res => bool_decide (r_scope res = Some once) | None => false end.

(** [desc(resolvedAt)]; a null is last *)
Definition le_resolved_desc (a b : Row) : bool :=
  match resolvedAt a, resolvedAt b with
  | Some x, Some y => (y <=? x)%Z
  | Some _, None | None, None => true
  | None, Some _ => false
  end.

(** The loop over the candidates: the first one whose update changes a row ends it. *)
Fixpoint consumeLoop (now : Z) (candidates : list Row) (t : Table) : Table * bool :=
  match candidates with
  | [] => (t, false)
  | c :: rest =>
      if negb (scope_once c) then consumeLoop now rest t
      else
        let '(t', changes) := update_where (λ r, (aid r =s aid c) && unconsumed r) (set_consumed now) t in
        if Nat.eqb changes 1 then (t', true) else consumeLoop now rest t'
  end.

Definition consumeWhere (p : Row → bool) (now : Z) (t : Table) : Table * bool :=
  consumeLoop now (order_by le_resolved_desc (select_where (λ r, p r && unconsumed r) t)) t.

Definition byWaiterKey (w : jsstr) (r : Row) : bool := bool_decide (waiterKey r = Some w).

Definition consumeApprovedOperation (now : Z) (w : jsstr) (t : Table) : Table * bool :=
  consumeWhere (byWaiterKey w) now t.

(** The exact operation of a direct caller. *)
Definition byOperation (principal w owner hash : jsstr) (r : Row) : bool :=
  bool_decide (principalId r = Some principal) && (workspaceSessionId r =s w)
  && bool_decide (ownerContextId r = Some owner) && bool_decide (operationHash r = Some hash)
  && bool_decide (origin r = Some direct_mcp) && bool_decide (workSessionId r = None).

Definition consumeApprovedDirectOperation (now : Z) (principal w owner hash : jsstr) (t : Table)
  : Table * bool :=
  consumeWhere (byOperation principal w owner hash) now t.

#[global] Arguments expirePending : simpl never.
#[global] Arguments decisionScope : simpl never.
#[global] Arguments boundedLimit : simpl never.

(** ** How a row may change *)

(** What identifies a request and never changes. *)
Definition same_request (r r' : Row) : Prop :=
  aid r' = aid r ∧ kind r' = kind r ∧ workspaceSessionId r' = workspaceSessionId r
  ∧ workSessionId r' = workSessionId r ∧ ownerContextId r' = ownerContextId r
  ∧ principalId r' = principalId r ∧ approvalKey r' = approvalKey r
  ∧ operationHash r' = operationHash r ∧ waiterKey r' = waiterKey r ∧ origin r' = origin r
  ∧ options r' = options r ∧ createdAt r' = createdAt r ∧ expiresAt r' = expiresAt r.

(** A pending request may be decided; a decision stays; a consumption stays, and only an approval
    of one execution is consumed. *)
Definition evolves (r r' : Row) : Prop :=
  same_request r r'
  ∧ (status r ≠ pending → status r' = status r ∧ resolution r' = resolution r ∧ resolvedAt r' = resolvedAt r)
  ∧ (∀ c, consumedAt r = Some c → consumedAt r' = Some c)
  ∧ (consumedAt r = None → consumedAt r' ≠ None → status r' = approved ∧ scope_once r' = true).

(** A request is pending until it has a resolution, and what is consumed was approved once. *)
Definition row_ok (r : Row) : Prop :=
  (status r = pending ↔ resolution r = None) ∧ (resolution r = None ↔ resolvedAt r = None)
  ∧ (consumedAt r ≠ None → status r = approved ∧ scope_once r = true).

Lemma evolves_refl r : evolves r r.
Proof. repeat split; done. Qed.

Lemma evolves_trans r1 r2 r3 : row_ok r2 → evolves r1 r2 → evolves r2 r3 → evolves r1 r3.
Proof.
  intros Hok (S1 & D1 & C1 & N1) (S2 & D2 & C2 & N2). split_and!.
  - unfold same_request in *. destruct_and!. split_and!; congruence.
  - intros Hp. destruct (D1 Hp) as (E1 & E2 & E3). rewrite <- E1 in Hp.
    destruct (D2 Hp) as (-> & -> & ->). done.
  - intros c Hc. by apply C2, C1.
  - intros Hn Hs. destruct (consumedAt r2) as [c|] eqn:E2; [|by apply N2].
    destruct (N1 Hn) as [Ha Ho]; [congruence|]. rewrite <- Ha at 1.
    assert (Hp : status r2 ≠ pending) by congruence. destruct (D2 Hp) as (-> & Hres & _).
    split; [done|]. unfold scope_once in *. by rewrite Hres.
Qed.

Lemma pending_spec r : is_pending r = true ↔ status r = pending.
Proof. unfold is_pending. by destruct (status r). Qed.

Lemma evolves_status r s now res :
  row_ok r → is_pending r = true → s ≠ pending →
  evolves r (set_status s now res r) ∧ row_ok (set_status s now res r).
Proof.
  rewrite pending_spec. intros (H1 & H2 & H3) Hp Hs.
  assert (Hc : consumedAt r = None).
  { destruct (consumedAt r) eqn:E; [|done]. destruct H3; congruence. }
  split; [|unfold row_ok; cbn; rewrite Hc; naive_solver].
  split_and!; [repeat split|done|done|]. intros _. cbn. rewrite Hc. done.
Qed.

Lemma evolves_waiter r w o d : row_ok r → evolves r (set_waiter w o d r) ∧ row_ok (set_waiter w o d r).
Proof. intros H. split; [|exact H]. repeat split; done. Qed.

Lemma evolves_consumed r now :
  row_ok r → unconsumed r = true → scope_once r = true →
  evolves r (set_consumed now r) ∧ row_ok (set_consumed now r).
Proof.
  intros (H1 & H2 & H3) Hu Hs. unfold unconsumed in Hu.
  destruct (status r) eqn:Es; try done. destruct (consumedAt r) eqn:Ec; try done.
  split; [|by repeat split; cbn; try rewrite Es; try apply H1; try apply H2].
  split_and!; [repeat split|done|congruence|]. intros _ _. by split; [|exact Hs].
Qed.

(** ** How a table may change *)

Definition good (t : Table) : Prop := keyed aid t ∧ Forall row_ok t.

Definition table_evolves (t t' : Table) : Prop := ∀ r, r ∈ t → ∃ r', r' ∈ t' ∧ evolves r r'.

(** A change of a good table to a good table in which every row evolves. *)
Definition progress (t t' : Table) : Prop := good t → good t' ∧ table_evolves t t'.

Lemma progress_refl t : progress t t.
Proof. intros H. split; [done|]. intros r Hr. exists r. split; [done|apply evolves_refl]. Qed.

Lemma progress_trans t1 t2 t3 : progress t1 t2 → progress t2 t3 → progress t1 t3.
Proof.
  intros H1 H2 Hg. destruct (H1 Hg) as [Hg2 E1]. destruct (H2 Hg2) as [Hg3 E2]. split; [done|].
  intros r Hr. destruct (E1 r Hr) as (r2 & Hr2 & He). destruct (E2 r2 Hr2) as (r3 & Hr3 & He').
  exists r3. split; [done|]. eapply evolves_trans; [|done..].
  destruct Hg2 as [_ Hok]. rewrite Forall_forall in Hok. by apply Hok.
Qed.

Lemma progress_update p f t :
  preserves_key aid f → (∀ r, row_ok r → p r = true → evolves r (f r) ∧ row_ok (f r)) →
  progress t (update_where p f t).1.
Proof.
  intros Hf He [Hk Hok]. split; [split; [by apply keyed_update|]|].
  - apply Forall_update_where; [done|]. intros r _ Hr Hp. by apply He.
  - intros r Hr. exists (if p r then f r else r). split; [apply elem_of_update_where; by exists r|].
    destruct (p r) eqn:Ep; [|apply evolves_refl]. rewrite Forall_forall in Hok. by apply He; [apply Hok|].
Qed.

Lemma progress_cas cas f candidates t :
  preserves_key aid f → (∀ c r, row_ok r → cas c r = true → evolves r (f r) ∧ row_ok (f r)) →
  progress t (cas_loop cas f candidates t).1.
Proof.
  intros Hf He. rewrite cas_loop_foldl. revert t. induction candidates as [|c cs IH]; intros t; cbn [foldl].
  - apply progress_refl.
  - eapply progress_trans; [|apply IH]. apply progress_update; [done|]. intros r. apply He.
Qed.

Lemma progress_expire now l t : progress t (expirePending now l t).1.
Proof.
  unfold expirePending. cbv zeta.
  destruct (cas_loop _ _ _ _) as [t' hits] eqn:E. cbn [fst].
  change t' with ((t', hits).1). rewrite <- E. apply progress_cas; [intros []; done|].
  intros c r Hok Hp. apply andb_true_iff in Hp as [_ Hp]. by apply evolves_status.
Qed.

Lemma progress_get now i t : progress t (get now i t).1.
Proof. apply progress_expire. Qed.

Lemma progress_resolve t1 t2 t3 i input t t' x :
  resolve t1 t2 t3 i input t = Ok (t', x) → progress t t'.
Proof.
  unfold resolve. intros E. apply bind_Ok in E as (_ & Hs%reject_Ok & E).
  destruct (get t1 i t) as [tb existing] eqn:Eg.
  assert (Hb : progress t tb) by (pose proof (progress_get t1 i t) as H; by rewrite Eg in H).
  destruct existing as [r|]; [|by injection E as <- <-].
  destruct (negb (is_pending r)); [by injection E as <- <-|].
  apply bind_Ok in E as (sc & _ & E). cbv zeta in E.
  assert (Et : t' = (get t3 i (update_where (λ r, (aid r =s i) && is_pending r)
      (set_status (i_status input) t2 (mkResolution (i_option input) (i_effect input) sc
         (i_reason input) (i_reviewer input))) tb).1).1).
  { injection E as E1 _. by rewrite <- E1. }
  rewrite Et. eapply progress_trans; [exact Hb|]. eapply progress_trans; [|apply progress_get].
  apply progress_update; [intros []; done|]. intros r' Hok Hp. apply andb_true_iff in Hp as [_ Hp].
  apply evolves_status; [done..|]. intros Ep. by rewrite Ep in Hs.
Qed.

(** With unique ids the loop ends at the first candidate approved for one execution. *)
Lemma consumeLoop_spec now cs t :
  keyed aid t → (∀ c, c ∈ cs → c ∈ t ∧ unconsumed c = true) →
  consumeLoop now cs t
  = match List.find scope_once cs with
    | Some c => ((update_where (λ r, (aid r =s aid c) && unconsumed r) (set_consumed now) t).1, true)
    | None => (t, false)
    end.
Proof.
  intros Hk Hin. induction cs as [|c cs IH]; [done|]. cbn [consumeLoop List.find].
  destruct (scope_once c) eqn:Hc; cbn [negb]; [|by apply IH; intros c' Hc'; apply Hin; right].
  destruct (Hin c ltac:(by left)) as [Hct Hu].
  assert (Hn : (update_where (λ r, (aid r =s aid c) && unconsumed r) (set_consumed now) t).2 = 1).
  { rewrite (changes_keyed aid _ _ _ (aid c)), (keyed_by_key aid) by (done || intros ? ?; guards; done).
    by rewrite js_eqb_refl, Hu. }
  rewrite (surjective_pairing (update_where _ _ _)), Hn. done.
Qed.

Definition usable (p : Row → bool) (r : Row) : bool := p r && unconsumed r && scope_once r.

Definition available (p : Row → bool) (t : Table) : nat := length (List.filter (usable p) t).

(** A consumption takes the row [c]. *)
Definition consumes (now : Z) (c : Row) (t : Table) : Table :=
  (update_where (λ r, (aid r =s aid c) && unconsumed r) (set_consumed now) t).1.

Lemma consumeWhere_spec p now t :
  keyed aid t →
  match consumeWhere p now t with
  | (t', true) => ∃ c, c ∈ t ∧ usable p c = true ∧ t' = consumes now c t
  | (t', false) => t' = t ∧ ∀ r, r ∈ t → usable p r = false
  end.
Proof.
  intros Hk. unfold consumeWhere. rewrite consumeLoop_spec; [|done|].
  2:{ intros c Hc. apply elem_of_order_by, elem_of_Lfilter in Hc as [Hc Hp]. guards. done. }
  destruct (List.find scope_once _) as [c|] eqn:Ef.
  - apply find_some_iff in Ef as [Hc Hs]. apply elem_of_order_by, elem_of_Lfilter in Hc as [Hc Hp].
    exists c. split_and!; [done| |done]. unfold usable. by rewrite Hp, Hs.
  - rewrite find_none_iff in Ef. split; [done|]. intros r Hr. unfold usable.
    destruct (p r && unconsumed r) eqn:Ep; [|done]. apply Ef. apply elem_of_order_by, elem_of_Lfilter. done.
Qed.

Lemma progress_consumeWhere p now t : progress t (consumeWhere p now t).1.
Proof.
  intros Hg. pose proof (consumeWhere_spec p now t (proj1 Hg)) as H.
  destruct (consumeWhere p now t) as [t' [|]]; cbn [fst].
  - destruct H as (c & Hc & Hu & ->). unfold usable in Hu. apply andb_true_iff in Hu as [_ Hs].
    split.
    + split; [by apply keyed_update; [intros []|apply Hg]|]. apply Forall_update_where; [apply Hg|].
      intros r Hr Hok Hp. apply andb_true_iff in Hp as [He Hu']. apply js_eqb_eq in He.
      assert (r = c) as -> by (apply (keyed_inj aid t); [apply Hg|done..]). by apply evolves_consumed.
    + intros r Hr. exists (if (aid r =s aid c) && unconsumed r then set_consumed now r else r).
      split; [apply elem_of_update_where; by exists r|].
      destruct ((aid r =s aid c) && unconsumed r) eqn:Ep; [|apply evolves_refl].
      apply andb_true_iff in Ep as [He Hu']. apply js_eqb_eq in He.
      assert (r = c) as -> by (apply (keyed_inj aid t); [apply Hg|done..]).
      destruct Hg as [_ Hok]. rewrite Forall_forall in Hok. by apply evolves_consumed; [apply Hok|..].
  - destruct H as [-> _]. by apply progress_refl.
Qed.

(** ** Histories *)

Inductive step (cfg : Config) : Table → Table → Prop :=
| step_create now uuid active i t r t' :
    create cfg now uuid active i t = Ok (r, t') → step cfg t t'
| step_get now i t : step cfg t (get now i t).1
| step_list now w t : step cfg t (listPending now w t).1
| step_expire now l t : step cfg t (expirePending now l t).1
| step_resolve t1 t2 t3 i input t t' x : resolve t1 t2 t3 i input t = Ok (t', x) → step cfg t t'
| step_detach now i w t : step cfg t (detachLiveWaiter cfg now i w t)
| step_reattach i w t : step cfg t (reattachLiveWaiter i w t)
| step_touch now i t : step cfg t (touchDirectApproval cfg now i t)
| step_consume now w t : step cfg t (consumeApprovedOperation now w t).1
| step_consume_direct now p w o h t : step cfg t (consumeApprovedDirectOperation now p w o h t).1.

Lemma progress_create cfg now uuid active i t r t' :
  create cfg now uuid active i t = Ok (r, t') → progress t t'.
Proof.
  unfold create. intros E. apply bind_Ok in E as (_ & _ & E). apply bind_Ok in E as (_ & Hk%ensure_Ok & E).
  injection E as <- <-. intros [Hkey Hok]. split.
  - split; [apply keyed_insert; [done|]; by destruct (by_key _ _ _)|].
    apply Forall_app. split; [done|]. apply Forall_singleton. repeat split; done.
  - intros x Hx. exists x. split; [apply elem_of_app; by left|apply evolves_refl].
Qed.

Lemma progress_step cfg t t' : step cfg t t' → progress t t'.
Proof.
  destruct 1; [by eapply progress_create|apply progress_get|apply progress_expire|apply progress_expire
    |by eapply progress_resolve| | | |apply progress_consumeWhere|apply progress_consumeWhere].
  all: apply progress_update; [intros []; done|]; intros r Hok _; by apply evolves_waiter.
Qed.

Lemma progress_steps cfg t t' : steps (step cfg) t t' → progress t t'.
Proof.
  apply steps_preorder; [apply progress_refl|apply progress_trans|apply progress_step].
Qed.

(** C23: A decision is final.  Along every history of creating, reading, resolving, expiring,
    attaching, touching and consuming, no request disappears or changes what it was asked for; one
    that is approved, denied, expired or cancelled keeps its status, resolution and time; and one
    that is consumed stays consumed and had been approved for one execution. *)
Theorem decision_is_final cfg t t' r :
  keyed aid t → Forall row_ok t → steps (step cfg) t t' → r ∈ t →
  ∃ r', by_key aid (aid r) t' = Some r' ∧ same_request r r'
    ∧ (status r ≠ pending → status r' = status r ∧ resolution r' = resolution r ∧ resolvedAt r' = resolvedAt r)
    ∧ (∀ c, consumedAt r = Some c → consumedAt r' = Some c)
    ∧ (consumedAt r' ≠ None → status r' = approved ∧ scope_once r' = true).
Proof.
  intros Hk Hok Hs Hr. destruct (progress_steps _ _ _ Hs (conj Hk Hok)) as [[Hk' Hok'] He].
  destruct (He r Hr) as (r' & Hr' & Hsame & Hd & Hc & _). exists r'. split_and!; try done.
  - destruct Hsame as [<- _]. by apply keyed_by_key.
  - rewrite Forall_forall in Hok'. by apply Hok'.
Qed.

Lemma consumes_available p now c t :
  keyed aid t → c ∈ t → usable p c = true → available p t = S (available p (consumes now c t)).
Proof.
  intros Hk Hc Hu. unfold available, consumes. cbn.
  assert (Huc : unconsumed c = true) by (unfold usable in Hu; guards; done).
  unfold update_where. cbn [fst]. induction t as [|a t IH]; [by apply not_elem_of_nil in Hc|].
  unfold keyed in Hk. cbn in Hk. apply NoDup_cons in Hk as [Hn Hk]. cbn [List.filter List.map].
  destruct (aid a =s aid c) eqn:Ea; cbn [andb].
  - apply js_eqb_eq in Ea. apply elem_of_cons in Hc as [->|Hc].
    2:{ destruct Hn. rewrite Ea. apply elem_of_Lmap; eauto. }
    rewrite Huc, Hu.
    assert (usable p (set_consumed now a) = false) as ->.
    { unfold usable, unconsumed. cbn. by rewrite !andb_false_r. }
    cbn [length]. do 2 f_equal. rewrite map_id_on; [done|]. intros x Hx.
    destruct (aid x =s aid a) eqn:Ex; [|done]. apply js_eqb_eq in Ex. destruct Hn. rewrite <- Ex.
    apply elem_of_Lmap; eauto.
  - apply elem_of_cons in Hc as [->|Hc]; [by rewrite js_eqb_refl in Ea|].
    specialize (IH Hk Hc). destruct (usable p a); cbn [length]; by rewrite IH.
Qed.

(** An approval of one execution is used once.  Consuming succeeds exactly when a matching
    request is approved for one execution and not yet consumed; it then marks one such request and
    no other row, and leaves one fewer to consume. *)
Theorem consume_is_one_shot p now t :
  keyed aid t →
  match consumeWhere p now t with
  | (t', true) => available p t = S (available p t')
      ∧ ∃ c, c ∈ t ∧ usable p c = true
             ∧ ∀ k, by_key aid k t' = if k =s aid c then Some (set_consumed now c) else by_key aid k t
  | (t', false) => t' = t ∧ available p t = 0
  end.
Proof.
  intros Hk. pose proof (consumeWhere_spec p now t Hk) as H.
  destruct (consumeWhere p now t) as [t' [|]].
  - destruct H as (c & Hc & Hu & ->). split; [by apply consumes_available|].
    exists c. split_and!; [done..|]. intros k. unfold consumes. rewrite by_key_update by (intros []; done).
    assert (Huc : unconsumed c = true) by (unfold usable in Hu; guards; done).
    destruct (k =s aid c) eqn:Ek; guards.
    + subst k. rewrite (keyed_by_key aid) by done. cbn. by rewrite js_eqb_refl, Huc.
    + destruct (by_key aid k t) as [x|] eqn:Ex; [|done]. apply by_key_Some in Ex as [_ <-]. cbn.
      by rewrite (proj2 (js_eqb_neq _ _) Ek).
  - destruct H as [-> Hno]. split; [done|]. unfold available. by rewrite Lfilter_none.
Qed.

Lemma create_succeeds cfg now uuid active i t :
  active (c_workspaceSessionId i) ≠ Some false → by_key aid (aid (newRequest cfg now uuid i)) t = None →
  create cfg now uuid active i t
  = Ok (newRequest cfg now uuid i, insert_row (newRequest cfg now uuid i) t).
Proof.
  intros Ha Hn. unfold create. cbv zeta. rewrite Hn. cbn.
  by destruct (active (c_workspaceSessionId i)) as [[]|].
Qed.

(** Expiring acts on the rows one by one, and only on those that are due. *)
Lemma expire_rows now l t :
  keyed aid t →
  ∃ g, (expirePending now l t).1 = List.map g t
       ∧ ∀ r, r ∈ t → g r = r ∨ due now r = true ∧ g r = set_status expired now timedOut r.
Proof.
  intros Hk. unfold expirePending. cbv zeta.
  destruct (cas_loop _ _ _ _) as [t' hits] eqn:E. cbn [fst].
  change t' with ((t', hits).1). rewrite <- E, cas_loop_foldl. clear E t' hits.
  assert (Hcs : ∀ c, c ∈ limit (boundedLimit l) (order_by le_expiry (select_where (due now) t)) →
                c ∈ t ∧ due now c = true).
  { intros c Hc. apply subseteq_take, elem_of_order_by, elem_of_Lfilter in Hc. done. }
  revert Hcs. generalize (limit (boundedLimit l) (order_by le_expiry (select_where (due now) t))). intros cs Hcs.
  set (ok := λ g, ∀ r, r ∈ t → g r = r ∨ due now r = true ∧ g r = set_status expired now timedOut r).
  cut (∀ g, ok g → ∃ g', foldl (λ t c, (update_where (λ r, bool_decide (aid r = aid c) && is_pending r)
         (set_status expired now timedOut) t).1) (List.map g t) cs = List.map g' t ∧ ok g').
  { intros H. specialize (H id). rewrite List.map_id in H. apply H. intros r _. by left. }
  induction cs as [|c cs IH]; intros g Hg; [by exists g|]. cbn [foldl].
  destruct (Hcs c ltac:(by left)) as [Hct Hd].
  replace (update_where _ _ (List.map g t)).1 with
    (List.map (λ r, if bool_decide (aid (g r) = aid c) && is_pending (g r)
                    then set_status expired now timedOut (g r) else g r) t)
    by (unfold update_where; cbn [fst]; by rewrite List.map_map).
  apply IH; [intros; apply Hcs; by right|]. intros r Hr.
  destruct (bool_decide (aid (g r) = aid c) && is_pending (g r)) eqn:Ec; [|by apply Hg].
  apply andb_true_iff in Ec as [Ea%bool_decide_eq_true Ep]. right.
  destruct (Hg r Hr) as [E|[_ E]]; rewrite E in *; [|done].
  assert (r = c) as -> by (by apply (keyed_inj aid t)). done.
Qed.

Lemma available_map p g t :
  (∀ r, r ∈ t → usable p (g r) = usable p r) → available p (List.map g t) = available p t.
Proof.
  unfold available. intros H. induction t as [|r t IH]; [done|]. cbn [List.map List.filter].
  rewrite (H r) by (by left). specialize (IH ltac:(intros; apply H; by right)).
  destruct (usable p r); cbn [length]; by rewrite IH.
Qed.

(** What is not due or not pending is not touched, so expiry consumes no approval. *)
Lemma expire_available now l p t : keyed aid t → available p (expirePending now l t).1 = available p t.
Proof.
  intros Hk. destruct (expire_rows now l t Hk) as (g & -> & Hg). apply available_map. intros r Hr.
  destruct (Hg r Hr) as [->|[Hd ->]]; [done|]. unfold usable, unconsumed.
  apply andb_true_iff in Hd as [Hp%pending_spec _]. cbn. by rewrite Hp, !andb_false_r.
Qed.

Lemma keyed_expire now l t : keyed aid t → keyed aid (expirePending now l t).1.
Proof.
  intros Hk. destruct (expire_rows now l t Hk) as (g & -> & Hg). unfold keyed. rewrite List.map_map.
  replace (List.map (λ r, aid (g r)) t) with (List.map aid t); [done|].
  apply List.map_ext_in. intros r Hr. apply list_elem_of_In in Hr. by destruct (Hg r Hr) as [->|[_ ->]].
Qed.

(** Expiry leaves what is decided alone. *)
Lemma expire_decided now l t k r :
  by_key aid k t = Some r → is_pending r = false → by_key aid k (expirePending now l t).1 = Some r.
Proof.
  intros Hr Hp. unfold expirePending. cbv zeta.
  destruct (cas_loop _ _ _ _) as [t' hits] eqn:E. cbn [fst].
  change t' with ((t', hits).1). rewrite <- E, cas_loop_foldl. clear E t' hits.
  generalize (limit (boundedLimit l) (order_by le_expiry (select_where (due now) t))). intros cs.
  revert t Hr. induction cs as [|c cs IH]; intros t Hr; [done|]. cbn [foldl]. apply IH.
  rewrite by_key_update_miss; [done|intros []; done|]. intros x Hx. assert (x = r) as -> by congruence.
  by rewrite Hp, andb_false_r.
Qed.

Lemma checkOption_spec i o sc :
  checkOption i o = Ok sc →
  (i_status i = approved ∧ effect o = e_approve ∧ sc = Some (default once (oscope o)))
  ∨ (i_status i = denied ∧ effect o ≠ e_approve ∧ sc = None)
  ∨ i_status i = pending.
Proof.
  unfold checkOption. intros E. apply bind_Ok in E as (_ & H1%reject_Ok & E).
  apply bind_Ok in E as (_ & H2%reject_Ok & E). apply bind_Ok in E as (_ & H3%reject_Ok & E).
  apply bind_Ok in E as (_ & _ & E). cbv zeta in E.
  destruct (i_status i) eqn:Es; cbn in H1, H2, H3; try done; [by right; right| |].
  - left. rewrite bool_decide_true in E by done. apply bind_Ok in E as (_ & _ & E).
    injection E as <-. by destruct (effect o).
  - right; left. rewrite bool_decide_false in E by done. injection E as <-.
    by destruct (effect o).
Qed.

(** The row a resolution decides. *)
Lemma resolve_decides t1 t2 t3 i input t r sc :
  keyed aid t → by_key aid i (expirePending t1 100 t).1 = Some r → is_pending r = true →
  i_status input ≠ pending → decisionScope input r = Ok sc →
  let r' := set_status (i_status input) t2
              (mkResolution (i_option input) (i_effect input) sc (i_reason input) (i_reviewer input)) r in
  let t' := (expirePending t3 100 (update_where (λ r, (aid r =s i) && is_pending r)
               (set_status (i_status input) t2
                  (mkResolution (i_option input) (i_effect input) sc (i_reason input) (i_reviewer input)))
               (expirePending t1 100 t).1).1).1 in
  resolve t1 t2 t3 i input t = Ok (t', Some r') ∧ by_key aid i t' = Some r'.
Proof.
  cbv zeta. intros Hk Hr Hp Hs Hd. unfold resolve. rewrite bool_decide_false by done.
  cbn [reject mbind res_bind]. unfold get at 1. cbv zeta. rewrite Hr, Hp. cbn [negb]. rewrite Hd.
  cbn [mbind res_bind]. set (tb := (expirePending t1 100 t).1) in *.
  set (f := set_status _ _ _). set (tb' := (update_where _ f tb).1).
  assert (Hr' : by_key aid i (expirePending t3 100 tb').1 = Some (f r)).
  { apply expire_decided; [|by unfold is_pending; cbn; destruct (i_status input)].
    unfold tb'. rewrite (by_key_update_hit aid _ _ _ _ r); [done|intros []; done|done|].
    apply by_key_Some in Hr as [_ ->]. by rewrite js_eqb_refl, Hp. }
  unfold get. cbv zeta. by rewrite Hr'.
Qed.

(** A reviewer's decision has the breadth of the option the server offered.  When a pending
    request is resolved with a selected option, the option is one of the request's; the request is
    then decided with the given status; an approval takes an approving option and its scope is
    exactly the scope the option declares, one execution when it declares none; and a denial takes
    an option that does not approve and carries no scope. *)
Theorem decision_scope_is_the_option t1 t2 t3 i input t o r t' x :
  keyed aid t → by_key aid i (expirePending t1 100 t).1 = Some r → is_pending r = true →
  i_option input = Some o → o ≠ [] → resolve t1 t2 t3 i input t = Ok (t', x) →
  ∃ op r', op ∈ options r ∧ oid op = o ∧ x = Some r' ∧ by_key aid i t' = Some r'
    ∧ status r' = i_status input
    ∧ ((i_status input = approved ∧ effect op = e_approve
          ∧ (r_scope <$> resolution r') = Some (Some (default once (oscope op))))
       ∨ (i_status input = denied ∧ effect op ≠ e_approve ∧ (r_scope <$> resolution r') = Some None)).
Proof.
  intros Hk Hr Hp Ho Hne E.
  assert (Hs : i_status input ≠ pending).
  { intros Es. unfold resolve in E. by rewrite Es in E. }
  destruct (decisionScope input r) as [sc|e] eqn:Ed.
  2:{ unfold resolve in E. rewrite bool_decide_false in E by done. unfold get at 1 in E.
      cbn [reject mbind res_bind] in E. by rewrite Hr, Hp, Ed in E. }
  destruct (resolve_decides t1 t2 t3 i input t r sc Hk Hr Hp Hs Ed) as [E' Hr'].
  rewrite E in E'. injection E' as -> ->.
  unfold decisionScope in Ed. apply bind_Ok in Ed as (_ & _ & Ed). rewrite Ho in Ed.
  destruct o as [|c o]; [done|]. apply bind_Ok in Ed as (op & Hop%require_Ok & Ed).
  apply find_some_iff in Hop as [Hin Hid]. apply js_eqb_eq in Hid.
  exists op. eexists. split_and!; [done..|]. cbn.
  apply checkOption_spec in Ed as [(? & ? & ->)|[(? & ? & ->)|?]]; [by left|by right|done].
Qed.

(** ** Concrete requests *)

Definition sampleInput (i : jsstr) (expiry : Z) : CreateInput :=
  mkInput (Some i) k_tool "w" None (Some (js "own")) (Some (js "p")) (Some (js "tool:bash"))
    (Some (js "hash")) (Some (js "key")) None None None None
    [mkOption "ok" "Approve Once" e_approve (Some once); mkOption "no" "Deny" e_deny None]
    (Some expiry)
    (mkDetails None None None None None "Approve bash" None None (Some (js "bash")) None None).

Definition sampleRow (i : jsstr) (expiry : Z) : Row := newRequest DEFAULT_CONFIG 0 [] (sampleInput i expiry).

Definition sampleTable : Table := [sampleRow "a" 100; sampleRow "b" 200].

Definition approveOnce : ResolveInput :=
  mkResolve approved (Some (js "ok")) None None None (Some (js "reviewer")).

Lemma sampleTable_keyed : keyed aid sampleTable.
Proof. apply NoDup_cons. split; [vm_compute; set_solver|apply NoDup_singleton]. Qed.

Lemma sampleTable_ok : Forall row_ok sampleTable.
Proof. repeat constructor; done. Qed.

Definition resolvedTable : Table :=
  match resolve 50 51 52 "b" approveOnce sampleTable with Ok (t, _) => t | Err _ => [] end.

Lemma decision_is_final_witness :
  steps (step DEFAULT_CONFIG) resolvedTable (consumeApprovedOperation 53 "key" resolvedTable).1
  ∧ ∃ r', by_key aid "b" (consumeApprovedOperation 53 "key" resolvedTable).1 = Some r'
          ∧ status r' = approved.
Proof.
  assert (Hs : steps (step DEFAULT_CONFIG) resolvedTable (consumeApprovedOperation 53 "key" resolvedTable).1).
  { apply steps_one, step_consume. }
  split; [exact Hs|].
  destruct (resolve_decides 50 51 52 "b" approveOnce sampleTable (sampleRow "b" 200) (Some once)
    sampleTable_keyed eq_refl eq_refl ltac:(discriminate) eq_refl) as [E Hr].
  set (t' := (expirePending 52 100 _).1) in *.
  assert (Et : resolvedTable = t') by (unfold resolvedTable; by rewrite E).
  assert (Hg : good resolvedTable).
  { rewrite Et. apply (progress_resolve _ _ _ _ _ _ _ _ E). split; [exact sampleTable_keyed|exact sampleTable_ok]. }
  rewrite <- Et in Hr. destruct (by_key_Some aid _ _ _ Hr) as [Hin Hid].
  destruct (decision_is_final DEFAULT_CONFIG _ _ _ (proj1 Hg) (proj2 Hg) Hs Hin) as (r' & Hr' & _ & Hd & _).
  exists r'. rewrite Hid in Hr'. split; [exact Hr'|]. apply (proj1 (Hd ltac:(discriminate))).
Defined.

Lemma consume_is_one_shot_witness :
  available (byWaiterKey "key") resolvedTable = 1
  ∧ available (byWaiterKey "key") (consumeWhere (byWaiterKey "key") 53 resolvedTable).1 = 0.
Proof.
  assert (Hk : keyed aid resolvedTable).
  { unfold keyed. apply NoDup_cons. split; [vm_compute; set_solver|apply NoDup_singleton]. }
  pose proof (consume_is_one_shot (byWaiterKey "key") 53 resolvedTable Hk) as H.
  assert (E1 : available (byWaiterKey "key") resolvedTable = 1) by (by vm_compute).
  split; [exact E1|]. destruct (consumeWhere (byWaiterKey "key") 53 resolvedTable) as [t' [|]] eqn:E.
  - destruct H as [Ha _]. cbn [fst]. rewrite E1 in Ha. injection Ha as Ha. done.
  - destruct H as [-> Ha]. cbn [fst]. done.
Defined.

Lemma decision_scope_is_the_option_witness :
  ∃ op r', op ∈ options (sampleRow "b" 200) ∧ r_scope <$> resolution r' = Some (Some (default once (oscope op))).
Proof.
  destruct (resolve 50 51 52 "b" approveOnce sampleTable) as [[t' x]|e] eqn:E; [|vm_compute in E; discriminate E].
  destruct (decision_scope_is_the_option 50 51 52 "b" approveOnce sampleTable "ok" (sampleRow "b" 200) t' x
    sampleTable_keyed eq_refl eq_refl eq_refl ltac:(discriminate) E)
    as (op & r' & Hin & _ & _ & _ & _ & [(_ & _ & H)|(H & _)]); [by exists op, r'|discriminate H].
Defined.

(** A hundred and one requests, all past their expiry at time 1000. *)
Definition backlog : Table :=
  (λ k, sampleRow (numeral (Z.of_nat k)) (Z.of_nat k)) <$> seq 100 101.

(** A backlog keeps an expired request approvable.  A read expires at most a hundred requests,
    and the update that resolves a request does not look at its expiry; with a hundred requests
    due before it, a request whose expiry is long past is still pending when a reviewer resolves
    it, is approved, and its operation then goes through. *)
Theorem expired_backlog_is_approvable :
  forallb (due 1000) backlog = true
  ∧ match resolve 1000 1001 1002 "200" approveOnce backlog with
    | Ok (t', Some r') =>
        status r' = approved ∧ expiresAt r' = Some 200%Z
        ∧ (consumeApprovedOperation 1003 "key" t').2 = true
    | _ => False
    end.
Proof. by vm_compute. Qed.

End Approvals.
