(* ===== verification/PolicyEngine.v ===== *)
(** * The policy engine ([createPolicyEngine] of [src/src/policy.ts])

    The engine joins the evaluation of the policy with what reviewers granted: scoped approvals,
    in a durable [GrantStore] or in a cache of its own, and requests waiting for a decision, in
    memory and, when it is configured with one, in the durable approval store.  Clock readings and
    fresh ids are arguments. *)

From S2P Require Import Prelude JsString Sql Policy Grants Approvals.
Import Policy.

Module PolicyEngine.

Import Grants.
#[local] Existing Instances Approvals.ApprovalKind_eq_dec Approvals.ApprovalStatus_eq_dec
  Approvals.Effect_eq_dec Approvals.Origin_eq_dec.

(** ** State *)

Record ScopeContext := mkCtx { c_workspaceId : jsstr; c_workSessionId : option jsstr }.

(** [ToolApprovalRequest] *)
Record Request := mkRequest {
  q_id : jsstr;
  q_principalId : jsstr;
  q_workspaceId : jsstr;
  q_workSessionId : option jsstr;
  q_ownerContextId : option jsstr;
  q_approvalKey : option jsstr;
  q_operationHash : option jsstr;
  q_waiterKey : option jsstr;
  q_liveWaiterId : option jsstr;
  q_origin : option Approvals.Origin;
  q_orphanedAt : option Z;
  q_reattachDeadline : option Z;
  q_options : option (list Approvals.ApprovalOption);
  q_tool : jsstr;
  q_path : option jsstr;
  q_command : option jsstr;
  q_runId : option jsstr;
  q_agentId : option jsstr;
  q_mcpSessionId : option jsstr;
  q_mcpRequestId : option jsstr;
  q_conversationId : option jsstr;
  q_requestedAt : Z;
  q_expiresAt : option Z
}.

(** What [directOperationIdentity] spells. *)
Definition Operation : Type := jsstr * jsstr * jsstr * jsstr.

Record Engine (S : Type) := mkEngine {
  sessionApprovals : gset (jsstr * jsstr * jsstr * jsstr);
  pendingApprovals : list (jsstr * Request);
  liveWaitersByApproval : gmap jsstr (gset jsstr);
  inMemoryOneShotApprovals : gset jsstr;
  inMemoryDirectOneShotApprovals : gset Operation;
  grantStore : option S;
  approvalRequests : option Approvals.Table
}.
Arguments mkEngine {S}.
Arguments sessionApprovals {S}.
Arguments pendingApprovals {S}.
Arguments liveWaitersByApproval {S}.
Arguments inMemoryOneShotApprovals {S}.
Arguments inMemoryDirectOneShotApprovals {S}.
Arguments grantStore {S}.
Arguments approvalRequests {S}.

Section Engine.
Context {S : Type} `{GrantStore S}.
Implicit Types (e : Engine S).

Definition set_approvals (a : gset (jsstr * jsstr * jsstr * jsstr)) (g : option S) e : Engine S :=
  mkEngine a (pendingApprovals e) (liveWaitersByApproval e) (inMemoryOneShotApprovals e)
    (inMemoryDirectOneShotApprovals e) g (approvalRequests e).

Definition set_pending (p : list (jsstr * Request)) (w : gmap jsstr (gset jsstr))
  (t : option Approvals.Table) e : Engine S :=
  mkEngine (sessionApprovals e) p w (inMemoryOneShotApprovals e)
    (inMemoryDirectOneShotApprovals e) (grantStore e) t.

Definition set_oneshots (o : gset jsstr) (d : gset Operation) (t : option Approvals.Table) e : Engine S :=
  mkEngine (sessionApprovals e) (pendingApprovals e) (liveWaitersByApproval e) o d (grantStore e) t.

(** ** Scoped approvals *)

(** The text of a scope in a key of the cache. *)
Definition scope_text (s : ApprovalScope) : jsstr :=
  match s with once => "once" | work_session => "work_session" | workspace => "workspace" end.

(** [approvalIdentity]: the four components, which [JSON.stringify] keeps apart *)
Definition approvalIdentity (q : Subject) : jsstr * jsstr * jsstr * jsstr :=
  (sub_principal q, scope_text (sub_scope q), sub_scopeId q, sub_key q).

Definition scopeIdFor (sc : ApprovalScope) (ctx : ScopeContext) : option jsstr :=
  match sc with
  | workspace => Some (c_workspaceId ctx)
  | work_session =>
      match c_workSessionId ctx with Some w => Some w | None => Some (c_workspaceId ctx) end
  | once => None
  end.

(** [grantStore ? grantStore.hasEffective(...) : sessionApprovals.get(key)] *)
Definition holds (now : Z) (q : Subject) e : bool :=
  match grantStore e with
  | Some g => hasEffective now q g
  | None => bool_decide (approvalIdentity q ∈ sessionApprovals e)
  end.

Definition isApproved (now : Z) (principal key : jsstr) (ctx : ScopeContext) e : bool :=
  holds now (mkSubject principal workspace (c_workspaceId ctx) key) e
  || match c_workSessionId ctx with
     | Some ((_ :: _) as w) => holds now (mkSubject principal work_session w key) e
     | _ => false
     end.

Definition recordApproval (now : Z) (uuid principal key : jsstr) (sc : ApprovalScope)
  (ctx : ScopeContext) (reviewer : option jsstr) e : Engine S :=
  match sc, scopeIdFor sc ctx with
  | once, _ | _, None | _, Some [] => e
  | _, Some sid =>
      if bool_decide (sc = work_session) && negb (truthy (c_workSessionId ctx)) then e
      else
        let q := mkSubject principal sc sid key in
        set_approvals ({[approvalIdentity q]} ∪ sessionApprovals e)
          (match grantStore e with
           | Some g =>
               Some (if hasEffective now q g then g
                     else insert (mkGrant ("grant_" +s uuid) principal sc sid key now None None reviewer) g)
           | None => None
           end) e
  end.

Definition revokeScope (now : Z) (sc : ApprovalScope) (sid : jsstr) e : Engine S :=
  set_approvals
    (filter (λ k, ¬ (k.1.1.2 = scope_text sc ∧ k.1.2 = sid)) (sessionApprovals e))
    (revokeForScope now sc sid <$> grantStore e) e.

Definition revokeGrantById (now : Z) (i : jsstr) e : Engine S :=
  match grantStore e with
  | Some g =>
      set_approvals
        (match getEffective now i g with
         | Some gr => sessionApprovals e ∖ {[approvalIdentity (subject gr)]}
         | None => sessionApprovals e
         end) (Some (revokeGrant now i g)) e
  | None => e
  end.

Definition listGrants (now : Z) (sc : option ApprovalScope) (sid : option jsstr) e : list Grant :=
  List.filter
    (λ g, match sc with Some s => bool_decide (scope g = s) | None => true end
          && match sid with Some ((_ :: _) as i) => scopeId g =s i | _ => true end)
    (match grantStore e with Some g => listEffective now g | None => [] end).

(** ** Live waiters *)

Inductive LiveWaiterState := live | dead.

Definition getLiveWaiterState (i w : jsstr) e : option LiveWaiterState :=
  (λ s : gset jsstr, if bool_decide (w ∈ s) then live else dead) <$> liveWaitersByApproval e !! i.

Definition countLiveWaiters (i : jsstr) e : nat :=
  match liveWaitersByApproval e !! i with Some s => size s | None => 0 end.

Definition attach (i w : jsstr) (m : gmap jsstr (gset jsstr)) : gmap jsstr (gset jsstr) :=
  <[i := {[w]} ∪ default ∅ (m !! i)]> m.

Definition detachLiveWaiter (cfg : Approvals.Config) (now : Z) (i w : jsstr) e : Engine S :=
  match liveWaitersByApproval e !! i with
  | None => e
  | Some s =>
      let s' := s ∖ {[w]} in
      set_pending (pendingApprovals e)
        (if bool_decide (size s' = 0) then delete i (liveWaitersByApproval e)
         else <[i := s']> (liveWaitersByApproval e))
        (Approvals.detachLiveWaiter cfg now i w <$> approvalRequests e) e
  end.

Definition reattachLiveWaiter (i w : jsstr) e : Engine S :=
  set_pending (pendingApprovals e) (attach i w (liveWaitersByApproval e))
    (Approvals.reattachLiveWaiter i w <$> approvalRequests e) e.

(** ** Requests *)

Definition clearPending (i : jsstr) e : Engine S :=
  set_pending (List.filter (λ kv, negb (kv.1 =s i)) (pendingApprovals e))
    (delete i (liveWaitersByApproval e)) (approvalRequests e) e.

Definition pendingById (i : jsstr) e : option Request :=
  snd <$> List.find (λ kv, kv.1 =s i) (pendingApprovals e).

(** [pendingApprovals.set(id, request)] *)
Definition putPending (r : Request) (l : list (jsstr * Request)) : list (jsstr * Request) :=
  if existsb (λ kv, kv.1 =s q_id r) l
  then List.map (λ kv, if kv.1 =s q_id r then (q_id r, r) else kv) l
  else l ++ [(q_id r, r)].

(** The options [addPending] gives a request that brings none. *)
Definition serverOptions (r : Request) : list Approvals.ApprovalOption :=
  [Approvals.mkOption "approve" "Approve Once" Approvals.e_approve (Some once)]
  ++ (if truthy (q_workSessionId r)
      then [Approvals.mkOption "approve_session" "Approve Session" Approvals.e_approve (Some work_session)]
      else [])
  ++ [Approvals.mkOption "approve_workspace" "Approve Workspace" Approvals.e_approve (Some workspace);
      Approvals.mkOption "deny" "Deny" Approvals.e_deny None].

Definition createInput (r : Request) : Approvals.CreateInput :=
  Approvals.mkInput (Some (q_id r)) Approvals.k_tool (q_workspaceId r) (q_workSessionId r)
    (q_ownerContextId r) (Some (q_principalId r)) (q_approvalKey r) (q_operationHash r)
    (q_waiterKey r) (q_liveWaiterId r) (q_origin r) (q_orphanedAt r) (q_reattachDeadline r)
    (default (serverOptions r) (q_options r)) (q_expiresAt r)
    (Approvals.mkDetails (q_runId r) (q_agentId r) (q_mcpSessionId r) (q_mcpRequestId r)
       (q_conversationId r) ("Approve " +s q_tool r) None None (Some (q_tool r)) (q_command r) (q_path r)).

(** The maps are changed before the durable store is, which may refuse the request. *)
Definition addPending (cfg : Approvals.Config) (now : Z) (active : jsstr → option bool) (r : Request) e
  : Engine S * option Approvals.ApprovalError :=
  let pend := putPending r (pendingApprovals e) in
  let waiters := match q_liveWaiterId r with
                 | Some ((_ :: _) as w) => attach (q_id r) w (liveWaitersByApproval e)
                 | _ => liveWaitersByApproval e
                 end in
  match approvalRequests e with
  | None => (set_pending pend waiters None e, None)
  | Some t =>
      match Approvals.create cfg now [] active (createInput r) t with
      | Ok (_, t') => (set_pending pend waiters (Some t') e, None)
      | Err x => (set_pending pend waiters (Some t) e, Some x)
      end
  end.

Definition is_tool (r : Approvals.Row) : bool :=
  match Approvals.kind r with Approvals.k_tool => true | _ => false end.

(** The request a durable row is read back as; the two lookups leave out its owner and its waiter. *)
Definition ofRow (owner waiter : option jsstr) (r : Approvals.Row) : Request :=
  let d := Approvals.details r in
  mkRequest (Approvals.aid r) (or_empty (Approvals.principalId r)) (Approvals.workspaceSessionId r)
    (if truthy (Approvals.workSessionId r) then Approvals.workSessionId r else None) owner
    (Approvals.approvalKey r) (Approvals.operationHash r) (Approvals.waiterKey r) waiter
    (Some (Approvals.rowOrigin r)) (Approvals.orphanedAt r) (Approvals.reattachDeadline r)
    (Some (Approvals.options r)) (or_empty (Approvals.tool d)) (Approvals.path d) (Approvals.command_ d)
    (Approvals.runId d) (Approvals.agentId d) (Approvals.mcpSessionId d) (Approvals.mcpRequestId d)
    (Approvals.conversationId d) (Approvals.createdAt r) (Approvals.expiresAt r).

Definition lookedUp : Approvals.Row → Request := ofRow None None.

Definition set_table (t : Approvals.Table) e : Engine S :=
  set_pending (pendingApprovals e) (liveWaitersByApproval e) (Some t) e.

Definition findPendingByKey (now : Z) (rowKey : jsstr) e : Engine S * option Request :=
  match List.find (λ kv, bool_decide (q_waiterKey kv.2 = Some rowKey)) (pendingApprovals e) with
  | Some (_, r) => (e, Some r)
  | None =>
      match approvalRequests e with
      | None => (e, None)
      | Some t =>
          let '(t', rows) := Approvals.listPending now None t in
          (set_table t' e,
           lookedUp <$> head (List.filter
             (λ r, is_tool r && bool_decide (Approvals.waiterKey r = Some rowKey)) rows))
      end
  end.

(** [request.workspaceId === ctx.workspaceId] and the rest of [findPending]'s condition *)
Definition requestMatches (principal key : jsstr) (ctx : ScopeContext) (r : Request) : bool :=
  (q_principalId r =s principal) && (q_workspaceId r =s c_workspaceId ctx)
  && bool_decide (q_workSessionId r = c_workSessionId ctx) && bool_decide (q_approvalKey r = Some key).

Definition findPending (now : Z) (principal key : jsstr) (ctx : ScopeContext) e
  : Engine S * option Request :=
  match List.find (λ kv, requestMatches principal key ctx kv.2) (pendingApprovals e) with
  | Some (_, r) => (e, Some r)
  | None =>
      match approvalRequests e with
      | None => (e, None)
      | Some t =>
          let '(t', rows) := Approvals.listPending now (Some (c_workspaceId ctx)) t in
          (set_table t' e,
           List.find (requestMatches principal key ctx) (lookedUp <$> List.filter is_tool rows))
      end
  end.

(** Refreshing the reattachment deadline of a direct request. *)
Definition touched (cfg : Approvals.Config) (now : Z) (r : Request) : Request :=
  if negb (truthy (q_workSessionId r)) && negb (bool_decide (q_origin r = Some Approvals.o_work_session))
  then mkRequest (q_id r) (q_principalId r) (q_workspaceId r) (q_workSessionId r) (q_ownerContextId r)
         (q_approvalKey r) (q_operationHash r) (q_waiterKey r) (q_liveWaiterId r) (q_origin r)
         (q_orphanedAt r) (Some (now + Approvals.reattachGrace cfg)%Z) (q_options r) (q_tool r)
         (q_path r) (q_command r) (q_runId r) (q_agentId r) (q_mcpSessionId r) (q_mcpRequestId r)
         (q_conversationId r) (q_requestedAt r) (q_expiresAt r)
  else r.

(** [t1] and [t2] are the two clock readings. *)
Definition touchPending (cfg : Approvals.Config) (t1 t2 : Z) (i : jsstr) e : Engine S :=
  set_pending (List.map (λ kv, if kv.1 =s i then (kv.1, touched cfg t1 kv.2) else kv) (pendingApprovals e))
    (liveWaitersByApproval e) (Approvals.touchDirectApproval cfg t2 i <$> approvalRequests e) e.

Definition getPendingApprovals (now : Z) (w : option jsstr) e : Engine S * list Request :=
  match approvalRequests e with
  | Some t =>
      let '(t', rows) := Approvals.listPending now w t in
      (set_table t' e,
       (λ r, ofRow (Approvals.ownerContextId r) (Approvals.liveWaiterId r) r) <$> List.filter is_tool rows)
  | None =>
      (e, List.filter (λ r, match w with Some ((_ :: _) as w) => q_workspaceId r =s w | _ => true end)
            (snd <$> pendingApprovals e))
  end.

(** ** Decisions *)

(** What a decision records when there is no durable store: the operation's key, and for a direct
    caller's operation its identity. *)
Definition oneShots (pend : Request) (o : gset jsstr) (d : gset Operation) : gset jsstr * gset Operation :=
  (match q_waiterKey pend with Some ((_ :: _) as k) => {[k]} ∪ o | _ => o end,
   match q_ownerContextId pend, q_operationHash pend with
   | Some ((_ :: _) as owner), Some ((_ :: _) as hash) =>
       if bool_decide (q_origin pend = Some Approvals.direct_mcp) && negb (truthy (q_workSessionId pend))
       then {[(q_principalId pend, q_workspaceId pend, owner, hash)]} ∪ d else d
   | _, _ => d
   end).

(** The clock is read at [t0] for looking the row up and at [t1], [t2] and [t3] for resolving it.
    A status is never pending.  The store checks a decision only after the maps are changed, and
    what it expired before refusing stays expired. *)
Definition resolvePending (t0 t1 t2 t3 : Z) (i : jsstr) (st : Approvals.ApprovalStatus)
  (reason : option jsstr) (sc : option ApprovalScope) (opt : option jsstr) e
  : Engine S * option Approvals.ApprovalError :=
  let rest := List.filter (λ kv, negb (kv.1 =s i)) (pendingApprovals e) in
  match approvalRequests e with
  | None =>
      let '(o, d) :=
        match pendingById i e with
        | Some pend =>
            if bool_decide (st = Approvals.approved) && bool_decide (sc = Some once)
            then oneShots pend (inMemoryOneShotApprovals e) (inMemoryDirectOneShotApprovals e)
            else (inMemoryOneShotApprovals e, inMemoryDirectOneShotApprovals e)
        | None => (inMemoryOneShotApprovals e, inMemoryDirectOneShotApprovals e)
        end in
      (set_pending rest (liveWaitersByApproval e) None (set_oneshots o d None e), None)
  | Some t =>
      let '(t', _) := Approvals.get t0 i t in
      let eff := if truthy opt then
                   match st with
                   | Approvals.approved => Some Approvals.e_approve
                   | Approvals.denied => Some Approvals.e_deny
                   | _ => None
                   end
                 else None in
      match Approvals.resolve t1 t2 t3 i (Approvals.mkResolve st opt eff sc reason None) t' with
      | Ok (t'', _) => (set_pending rest (liveWaitersByApproval e) (Some t'') e, None)
      | Err x =>
          (set_pending rest (liveWaitersByApproval e) (Some (Approvals.get t1 i t').1) e, Some x)
      end
  end.

Definition consumeApprovedOperation (now : Z) (k : jsstr) e : Engine S * bool :=
  match approvalRequests e with
  | Some t => let '(t', b) := Approvals.consumeApprovedOperation now k t in (set_table t' e, b)
  | None =>
      if bool_decide (k ∈ inMemoryOneShotApprovals e)
      then (set_oneshots (inMemoryOneShotApprovals e ∖ {[k]}) (inMemoryDirectOneShotApprovals e) None e, true)
      else (e, false)
  end.

Definition consumeApprovedDirectOperation (now : Z) (op : Operation) e : Engine S * bool :=
  match approvalRequests e with
  | Some t =>
      let '(principal, w, owner, hash) := op in
      let '(t', b) := Approvals.consumeApprovedDirectOperation now principal w owner hash t in
      (set_table t' e, b)
  | None =>
      if bool_decide (op ∈ inMemoryDirectOneShotApprovals e)
      then (set_oneshots (inMemoryOneShotApprovals e) (inMemoryDirectOneShotApprovals e ∖ {[op]}) None e, true)
      else (e, false)
  end.

(** *** Resuming by id *)

(** [OperationResumeContent] *)
Record ResumeContent := mkResume {
  rc_principalId : jsstr;
  rc_workspaceId : jsstr;
  rc_workSessionId : option jsstr;
  rc_ownerContextId : option jsstr;
  rc_tool : jsstr;
  rc_approvalKey : jsstr;
  rc_path : option jsstr;
  rc_command : option jsstr;
  rc_operationHash : jsstr
}.

(** The fields of a durable row that are compared; a request in memory has the same names. *)
Definition rowContent (r : Approvals.Row) : Request :=
  let d := Approvals.details r in
  mkRequest (Approvals.aid r) (or_empty (Approvals.principalId r)) (Approvals.workspaceSessionId r)
    (Approvals.workSessionId r) (Approvals.ownerContextId r) (Approvals.approvalKey r)
    (Approvals.operationHash r) (Approvals.waiterKey r) (Approvals.liveWaiterId r)
    (Approvals.origin r) (Approvals.orphanedAt r) (Approvals.reattachDeadline r)
    (Some (Approvals.options r)) (or_empty (Approvals.tool d)) (Approvals.path d) (Approvals.command_ d)
    (Approvals.runId d) (Approvals.agentId d) (Approvals.mcpSessionId d) (Approvals.mcpRequestId d)
    (Approvals.conversationId d) (Approvals.createdAt r) (Approvals.expiresAt r).

(** [named]: the request has a principal at all *)
Definition sameOperation (named : bool) (c : ResumeContent) (r : Request) : bool :=
  named && (q_principalId r =s rc_principalId c)
  && (q_workspaceId r =s rc_workspaceId c)
  && bool_decide (q_workSessionId r = rc_workSessionId c)
  && (negb (truthy (rc_workSessionId c)) || bool_decide (q_ownerContextId r = rc_ownerContextId c))
  && (q_tool r =s rc_tool c)
  && bool_decide (q_approvalKey r = Some (rc_approvalKey c))
  && bool_decide (q_path r = rc_path c)
  && bool_decide (q_command r = rc_command c)
  && truthy (q_operationHash r) && bool_decide (q_operationHash r = Some (rc_operationHash c)).

Definition resumeOperation (now : Z) (i : jsstr) (c : ResumeContent) e : Engine S * option jsstr :=
  let inMemory :=
    match List.find (λ r, q_id r =s i) (snd <$> pendingApprovals e) with
    | Some r => if sameOperation true c r then q_waiterKey r else None
    | None => None
    end in
  match approvalRequests e with
  | None => (e, inMemory)
  | Some t =>
      let '(t', row) := Approvals.get now i t in
      (set_table t' e,
       match row with
       | Some r =>
           if sameOperation (match Approvals.principalId r with Some _ => true | None => false end) c (rowContent r)
           then Approvals.waiterKey r else None
       | None => inMemory
       end)
  end.

(** *** Listing a workspace's grants *)

Definition listGrantsForWorkspace (now : Z) (sessions : list SessionRef) (w : jsstr)
  (afterId : option jsstr) (l : option Z) (owner : option jsstr) e : list Grant * option jsstr :=
  match grantStore e with
  | None => ([], None)
  | Some g => listEffectiveForWorkspace now sessions w afterId (Some (Z.of_nat (pageLimit l))) owner g
  end.

End Engine.

(** ** Scoped approvals implement a ledger of rights *)

Lemma scope_text_inj s s' : scope_text s = scope_text s' → s = s'.
Proof. by destruct s, s'. Qed.

Lemma approvalIdentity_inj q q' : approvalIdentity q = approvalIdentity q' ↔ q = q'.
Proof.
  split; [|by intros ->]. destruct q, q'. unfold approvalIdentity. cbn.
  intros [= -> ->%scope_text_inj -> ->]. done.
Qed.

(** What a ledger promises: who may act where and under which key. *)
Definition Ledger : Type := Subject → Prop.

(** The right an approval gives; one for a single call gives none. *)
Definition right_of (principal key : jsstr) (sc : ApprovalScope) (ctx : ScopeContext) : option Subject :=
  match sc with
  | once => None
  | workspace =>
      match c_workspaceId ctx with [] => None | w => Some (mkSubject principal workspace w key) end
  | work_session =>
      match c_workSessionId ctx with
      | Some ((_ :: _) as w) => Some (mkSubject principal work_session w key)
      | _ => None
      end
  end.

(** A call is permitted by a right in its workspace or in its work session. *)
Definition permits (A : Ledger) (principal key : jsstr) (ctx : ScopeContext) : Prop :=
  A (mkSubject principal workspace (c_workspaceId ctx) key)
  ∨ ∃ w, c_workSessionId ctx = Some w ∧ w ≠ [] ∧ A (mkSubject principal work_session w key).

Section Authority.
Context {S : Type} `{!GrantStore S} `{!GrantLaws S}.
Implicit Types (e : Engine S) (A : Ledger).

(** The subject of the grant with an id. *)
Definition named (now : Z) (i : jsstr) e : option Subject :=
  g ← grantStore e; subject <$> getEffective now i g.

(** The operations that concern requests. *)
Inductive request_step : Engine S → Engine S → Prop :=
| rs_add cfg now active r e : request_step e (addPending cfg now active r e).1
| rs_clear i e : request_step e (clearPending i e)
| rs_resolve t0 t1 t2 t3 i st reason sc opt e :
    request_step e (resolvePending t0 t1 t2 t3 i st reason sc opt e).1
| rs_consume now k e : request_step e (consumeApprovedOperation now k e).1
| rs_consume_direct now op e : request_step e (consumeApprovedDirectOperation now op e).1
| rs_resume now i c e : request_step e (resumeOperation now i c e).1
| rs_find now p k ctx e : request_step e (findPending now p k ctx e).1
| rs_find_key now k e : request_step e (findPendingByKey now k e).1
| rs_list now w e : request_step e (getPendingApprovals now w e).1
| rs_detach cfg now i w e : request_step e (detachLiveWaiter cfg now i w e)
| rs_reattach i w e : request_step e (reattachLiveWaiter i w e)
| rs_touch cfg t1 t2 i e : request_step e (touchPending cfg t1 t2 i e).

(** A history of an engine, next to the ledger its operations should keep.  It starts with an empty
    cache and, with a durable store, with what the store holds. *)
Inductive history : Engine S → Ledger → Prop :=
| h_start e A :
    sessionApprovals e = ∅ →
    match grantStore e with
    | None => ∀ q, ¬ A q
    | Some s => store_ok s ∧ ∀ now q, A q ↔ hasEffective now q s = true
    end →
    history e A
| h_record now uuid p k sc ctx reviewer e A :
    history e A → (∀ s, grantStore e = Some s → ¬ known ("grant_" +s uuid) s) →
    history (recordApproval now uuid p k sc ctx reviewer e) (λ q, A q ∨ right_of p k sc ctx = Some q)
| h_revokeScope now sc sid e A :
    history e A →
    history (revokeScope now sc sid e) (λ q, A q ∧ ¬ (sub_scope q = sc ∧ sub_scopeId q = sid))
| h_revokeGrant now i e A :
    history e A → history (revokeGrantById now i e) (λ q, A q ∧ named now i e ≠ Some q)
| h_request e e' A : history e A → request_step e e' → history e' A.

(** The engine's state represents the ledger. *)
Definition represents e A : Prop :=
  (∀ now q, holds now q e = true ↔ A q)
  ∧ match grantStore e with Some s => store_ok s | None => True end.

Lemma recordApproval_right now uuid p k sc ctx reviewer e :
  recordApproval now uuid p k sc ctx reviewer e
  = match right_of p k sc ctx with
    | None => e
    | Some q =>
        set_approvals ({[approvalIdentity q]} ∪ sessionApprovals e)
          ((λ s, if hasEffective now q s then s
                 else insert (mkGrant ("grant_" +s uuid) p sc (sub_scopeId q) k now None None reviewer) s)
           <$> grantStore e) e
    end.
Proof.
  unfold recordApproval, right_of, scopeIdFor.
  destruct sc, (c_workspaceId ctx), (c_workSessionId ctx) as [[|]|]; cbn; try done;
    by destruct (grantStore e).
Qed.

Lemma right_of_subject p k sc ctx q :
  right_of p k sc ctx = Some q → q = mkSubject p sc (sub_scopeId q) k.
Proof.
  unfold right_of.
  destruct sc, (c_workspaceId ctx), (c_workSessionId ctx) as [[|]|]; try done; by intros [= <-].
Qed.

Lemma record_represents now uuid p k sc ctx reviewer e A :
  represents e A → (∀ s, grantStore e = Some s → ¬ known ("grant_" +s uuid) s) →
  represents (recordApproval now uuid p k sc ctx reviewer e) (λ q, A q ∨ right_of p k sc ctx = Some q).
Proof using GrantLaws0.
  intros [Hh Hs] Hf. rewrite recordApproval_right.
  destruct (right_of p k sc ctx) as [q|] eqn:Eq.
  2:{ split; [|done]. intros now' q. rewrite Hh. naive_solver. }
  apply right_of_subject in Eq. unfold represents, holds in *. cbn.
  destruct (grantStore e) as [s|]; cbn.
  - set (g := mkGrant _ _ _ _ _ _ _ _ _). assert (Hg : subject g = q) by (by rewrite Eq).
    specialize (Hf s eq_refl). destruct (hasEffective now q s) eqn:E; (split; [|eauto using ok_insert]).
    + intros now' q'. rewrite Hh. rewrite <- (Hh now). naive_solver.
    + intros now' q'. rewrite has_insert, orb_true_iff, bool_decide_eq_true, Hh, Hg by done. naive_solver.
    + eapply (ok_insert now); try done. by rewrite Hg.
  - split; [|done]. intros now' q'. rewrite bool_decide_eq_true, elem_of_union, elem_of_singleton.
    rewrite approvalIdentity_inj, <- (Hh now'), bool_decide_eq_true. naive_solver.
Qed.

Lemma revokeScope_represents now sc sid e A :
  represents e A →
  represents (revokeScope now sc sid e) (λ q, A q ∧ ¬ (sub_scope q = sc ∧ sub_scopeId q = sid)).
Proof using GrantLaws0.
  intros [Hh Hs]. unfold represents, holds, revokeScope in *. cbn.
  destruct (grantStore e) as [s|]; cbn.
  - split; [|by apply ok_revokeForScope]. intros now' q.
    by rewrite has_revokeForScope, andb_true_iff, Hh, negb_true_iff, bool_decide_eq_false.
  - split; [|done]. intros now' q. rewrite bool_decide_eq_true, elem_of_filter. cbn.
    rewrite <- (Hh now'), bool_decide_eq_true.
    assert (scope_text (sub_scope q) = scope_text sc ↔ sub_scope q = sc) as ->; [|tauto].
    split; [apply scope_text_inj|by intros ->].
Qed.

Lemma revokeGrant_represents now i e A :
  represents e A → represents (revokeGrantById now i e) (λ q, A q ∧ named now i e ≠ Some q).
Proof using GrantLaws0.
  intros [Hh Hs]. unfold represents, holds, revokeGrantById, named in *.
  destruct (grantStore e) as [s|] eqn:Es; cbn; [|rewrite Es; split; [|done]; intros; rewrite Hh; naive_solver].
  split; [|by apply ok_revokeGrant]. intros now' q.
  rewrite has_revokeGrant, andb_true_iff, Hh, negb_true_iff by done.
  destruct (getEffective now i s) as [g|]; cbn; [|naive_solver].
  rewrite bool_decide_eq_false. naive_solver.
Qed.

(** Operations on requests leave both the cache and the store alone. *)
Lemma request_step_frame e e' :
  request_step e e' → sessionApprovals e' = sessionApprovals e ∧ grantStore e' = grantStore e.
Proof.
  destruct 1; unfold addPending, resolvePending, consumeApprovedOperation, consumeApprovedDirectOperation,
    resumeOperation, findPending, findPendingByKey, getPendingApprovals, detachLiveWaiter;
    repeat case_match; simplify_eq/=; done.
Qed.

Lemma history_represents e A : history e A → represents e A.
Proof using GrantLaws0.
  induction 1 as [e A Hc Hs| | | |e e' A _ IH Hr%request_step_frame].
  - unfold represents, holds. destruct (grantStore e) as [s|].
    + destruct Hs as [Hs HA]. split; [|done]. intros. by rewrite HA.
    + split; [|done]. intros now q. rewrite bool_decide_eq_true, Hc. specialize (Hs q). set_solver.
  - by apply record_represents.
  - by apply revokeScope_represents.
  - by apply revokeGrant_represents.
  - destruct Hr as [H1 H2], IH as [IH1 IH2]. unfold represents, holds in *. by rewrite H1, H2.
Qed.

End Authority.

(** C15: Scoped approvals implement a ledger of rights.  Whatever approvals are recorded, scopes and
    grants revoked and requests handled in between, over a durable store that keeps its laws or
    over the engine's own cache, a call is approved exactly when the ledger holds a right of its
    principal under its key in its workspace or its work session: nothing else is ever approved,
    nothing recorded is lost, and a revocation takes effect at once. *)
Theorem isApproved_reads_ledger {S : Type} `{!GrantStore S} `{!GrantLaws S} (e : Engine S) A now p k ctx :
  history e A → isApproved now p k ctx e = true ↔ permits A p k ctx.
Proof.
  intros [Hh _]%history_represents. unfold isApproved, permits.
  rewrite orb_true_iff, Hh. destruct (c_workSessionId ctx) as [[|x w]|]; [naive_solver| |naive_solver].
  rewrite Hh. naive_solver.
Qed.

Definition emptyEngine {S : Type} (g : option S) (t : option Approvals.Table) : Engine S :=
  mkEngine ∅ [] ∅ ∅ ∅ g t.

Definition sampleCtx : ScopeContext := mkCtx "w" (Some (js "s")).

Lemma isApproved_reads_ledger_witness :
  let e0 := emptyEngine (Some ([] : Grants.Table)) None in
  let e1 := recordApproval 5 "u" "p" "tool:bash" work_session sampleCtx None e0 in
  let e2 := revokeScope 7 work_session "s" e1 in
  isApproved 6 "p" "tool:bash" sampleCtx e1 = true ∧ isApproved 8 "p" "tool:bash" sampleCtx e2 = false.
Proof.
  intros e0 e1 e2.
  assert (H0 : history e0 (λ _, False)).
  { apply h_start; [done|]. split; [|done]. split; [constructor|]. split; set_solver. }
  assert (H1 := h_record 5 "u" "p" "tool:bash" work_session sampleCtx None _ _ H0).
  specialize (H1 ltac:(intros s [= <-] (g & Hg & _); set_solver)).
  assert (H2 := h_revokeScope 7 work_session "s" _ _ H1). split.
  - apply (isApproved_reads_ledger _ _ 6 "p" "tool:bash" sampleCtx H1). right. exists (js "s"). split; [done|].
    split; [done|]. by right.
  - apply not_true_iff_false. intros H%(isApproved_reads_ledger _ _ 8 "p" "tool:bash" sampleCtx H2).
    destruct H as [[[[]|[=]] _]|(w & [= <-] & _ & [_ H])]. by apply H.
Defined.

End PolicyEngine.
