(* ===== verification/Enforcement.v ===== *)
(** * Enforcing the policy ([src/src/policy-enforcement.ts])

    [createPolicyEnforcer]: every affected path of a call is evaluated, a denial ends the call before
    anything is asked, and what must be asked is covered by a scoped approval, by an approval of this
    one operation, or by a new request.  A direct call gets the request's id back at once; a
    controlled one waits.  The wait splits [enforce] in two: [enforceFrom] runs up to it and [wake]
    goes on from it, so that anything may happen to the engine in between.

    Two functions outside the program are parameters: the SHA-256 digest of an operation's JSON text
    and the order of [localeCompare]. *)

From S2P Require Import Prelude JsString Json Sql Policy Grants Approvals PolicyEngine.
Import Policy PolicyEngine.

Module Enforcement.

(** ** Invocations *)

Inductive PrincipalRole := reviewer | worker | client | peer.

(** [PolicyInvocation], but for its signal and its callbacks *)
Record Invocation := mkInvocation {
  v_principalId : jsstr;
  v_principalRole : PrincipalRole;
  v_workspaceId : jsstr;
  v_workSessionId : option jsstr;
  v_ownerContextId : option jsstr;
  v_runId : option jsstr;
  v_tool : jsstr;
  v_path : option PolicyInputPath;
  v_paths : option (list PolicyInputPath);
  v_command : option jsstr;
  v_operationContent : option json;
  v_blockingApproval : option bool;
  v_conversationId : option jsstr;
  v_approvalResumeId : option jsstr;
  v_approvalCorrelationId : option jsstr;
  v_mcpSessionId : option jsstr;
  v_mcpRequestId : option jsstr
}.

Inductive Outcome := o_approved | o_denied | o_timed_out | o_cancelled | o_caller_gone.

(** What [enforce] resolves to *)
Record Verdict := mkVerdict {
  allowed : bool;
  decision : PolicyDecision;
  outcome : option Outcome;
  approvalRequired : bool;
  approvalId : option jsstr
}.

Definition canonicalToolName (tool : jsstr) : jsstr := canonicalTool tool.

Definition labelOf (p : PolicyInputPath) : jsstr :=
  match p with PathString s => s | PolicyPath rel _ => rel end.

Definition policyPathLabel (p : option PolicyInputPath) : option jsstr := labelOf <$> p.

(** ** The identity of an operation *)

Definition IGNORED_KEYS : list jsstr := [js "approvalResumeId"; js "instructionContentHash"; js "clientMutationId"].

(** What [canonicalOperationHash] stringifies *)
Record OperationText := mkText {
  t_principalId : jsstr;
  t_workspaceId : jsstr;
  t_workSessionId : jsstr;
  t_correlation : jsstr;
  t_ownerContextId : jsstr;
  t_tool : jsstr;
  t_approvalKey : jsstr;
  t_path : jsstr;
  t_paths : list jsstr;
  t_command : jsstr;
  t_content : json
}.

Section Identity.
Context (localeLe : jsstr → jsstr → bool) (digest : OperationText → jsstr).

(** Filtering and sorting only read the keys, so the values may be made canonical first. *)
Fixpoint canonicalOperationValue (v : json) : json :=
  match v with
  | JArr items => JArr (List.map canonicalOperationValue items)
  | JObj fields =>
      JObj (order_by (λ a b, localeLe a.1 b.1)
        (List.filter (λ kv, negb (in_list IGNORED_KEYS kv.1))
          (List.map (λ kv, (kv.1, canonicalOperationValue kv.2)) fields)))
  | _ => v
  end.

Definition operationText (inv : Invocation) (approvalKey : jsstr) (p : option PolicyInputPath) : OperationText :=
  mkText (v_principalId inv) (v_workspaceId inv) (or_empty (v_workSessionId inv))
    (or_empty (v_approvalCorrelationId inv))
    (if truthy (v_workSessionId inv) then or_empty (v_ownerContextId inv) else [])
    (canonicalToolName (v_tool inv)) approvalKey (or_empty (policyPathLabel p))
    (match v_paths inv with Some ps => List.map labelOf ps | None => [] end)
    (or_empty (v_command inv)) (canonicalOperationValue (default JNull (v_operationContent inv))).

Definition canonicalOperationHash inv approvalKey p : jsstr := digest (operationText inv approvalKey p).

Definition approvalRowKey (inv : Invocation) (operationHash uuid : jsstr) : jsstr :=
  if truthy (v_mcpSessionId inv) || truthy (v_mcpRequestId inv)
  then "operation:" +s operationHash
  else "legacy:" +s operationHash +s ":" +s uuid.

(** ** The state of a call *)

(** [timeoutMs] ([None] when it is not finite) and [directApprovalTtlMs], defaults applied *)
Record Options := mkOptions { timeoutMs : option Z; directApprovalTtlMs : Z }.

Definition DEFAULT_OPTIONS : Options := mkOptions (Some (24 * 60 * 60000)%Z) (10 * 60000).

(** The clock readings of one request for an approval, and the ids it draws. *)
Record Fresh := mkFresh {
  t_resume : Z;
  t_find : Z;
  t_consume : Z;
  t_consumeDirect : Z;
  t_touch : Z;
  t_touchRow : Z;
  t_requested : Z;
  t_expires : Z;
  t_create : Z;
  u_rowKey : jsstr;
  u_approval : jsstr;
  u_waiter : jsstr
}.

(** [PolicyApprovalEventPayload] *)
Record Payload := mkPayload {
  p_approvalId : jsstr;
  p_workspaceId : jsstr;
  p_workSessionId : option jsstr;
  p_runId : option jsstr;
  p_principalId : jsstr;
  p_tool : jsstr;
  p_path : option jsstr;
  p_command : option jsstr;
  p_approvalKey : jsstr;
  p_approvalKeyType : PolicySource;
  p_matchedPattern : option jsstr;
  p_origin : Approvals.Origin;
  p_conversationId : option jsstr;
  p_ownerContextId : option jsstr;
  p_requestedAt : Z;
  p_expiresAt : option Z;
  p_options : list Approvals.ApprovalOption
}.

(** [PolicyWaitContext], with the decision that is asked about *)
Record WaitContext := mkWait {
  w_approvalId : jsstr;
  w_waiterKey : jsstr;
  w_liveWaiterId : jsstr;
  w_path : option jsstr;
  w_coalesced : bool;
  w_decision : PolicyDecision
}.

(** What a call does besides changing the engine: events it appends and the callbacks it makes. *)
Inductive Effect :=
| Requested (session : jsstr) (p : Payload)
| WaitStart (w : WaitContext)
| WaitEnd (w : WaitContext) (o : Outcome).

Record World (S : Type) := mkWorld { engine : Engine S; effects : list Effect }.
#[global] Arguments mkWorld {S}.
#[global] Arguments engine {S}.
#[global] Arguments effects {S}.

(** A request for approval returns, throws, or waits. *)
Inductive Asked :=
| Answered (v : Verdict)
| Threw (x : Approvals.ApprovalError)
| Waits (w : WaitContext).

Section Enforce.
Context {S : Type} `{!Grants.GrantStore S}.
Context (config : PolicyConfig) (cfg : Approvals.Config) (opts : Options)
  (active : jsstr → option bool) (inv : Invocation).
Implicit Types (w : World S) (e : Engine S).

Definition set_engine e w : World S := mkWorld e (effects w).

Definition emit (x : Effect) w : World S := mkWorld (engine w) (effects w ++ [x]).

Definition context : ScopeContext := mkCtx (v_workspaceId inv) (v_workSessionId inv).

Definition blocking : bool := negb (bool_decide (v_blockingApproval inv = Some false)).

Definition session : jsstr := default (v_workspaceId inv) (v_workSessionId inv).

Definition origin : Approvals.Origin :=
  if truthy (v_workSessionId inv) then Approvals.o_work_session else Approvals.direct_mcp.

(** [{ allowed: false, decision, outcome }] *)
Definition refused (d : PolicyDecision) (o : Outcome) : Verdict := mkVerdict false d (Some o) false None.

Definition granted (d : PolicyDecision) : Verdict := mkVerdict true d (Some o_approved) false None.

(** [inv.paths && inv.paths.length > 0 ? inv.paths : [inv.path]] *)
Definition affected : list (option PolicyInputPath) :=
  match v_paths inv with Some ((_ :: _) as ps) => Some <$> ps | _ => [v_path inv] end.

Definition Entry : Type := option PolicyInputPath * PolicyDecision.

Definition decisions : list Entry :=
  (λ p, (p, evaluate config (canonicalToolName (v_tool inv)) p)) <$> affected.

Definition denies (d : PolicyDecision) : bool := bool_decide (dmode d = deny).

(** ** Asking *)

Definition resumeContent (key hash : jsstr) (p : option PolicyInputPath) : ResumeContent :=
  mkResume (v_principalId inv) (v_workspaceId inv) (v_workSessionId inv) (v_ownerContextId inv)
    (canonicalToolName (v_tool inv)) key (policyPathLabel p) (v_command inv) hash.

(** The waiter key of the request the caller resumes, if it resumes one, else the operation's own. *)
Definition rowKeyOf (f : Fresh) (key hash : jsstr) (p : option PolicyInputPath) e : Engine S * jsstr :=
  if truthy (v_approvalResumeId inv) then
    let '(e', k) := resumeOperation (t_resume f) (or_empty (v_approvalResumeId inv)) (resumeContent key hash p) e in
    (e', default (approvalRowKey inv hash (u_rowKey f)) k)
  else (e, approvalRowKey inv hash (u_rowKey f)).

(** A direct caller that does not resume may use an approval of the same operation. *)
Definition consumeDirect (f : Fresh) (hash : jsstr) e : Engine S * bool :=
  if negb (truthy (v_approvalResumeId inv)) && negb blocking && negb (truthy (v_workSessionId inv))
     && truthy (v_ownerContextId inv)
  then consumeApprovedDirectOperation (t_consumeDirect f)
         (v_principalId inv, v_workspaceId inv, or_empty (v_ownerContextId inv), hash) e
  else (e, false).

Definition serverOptions : list Approvals.ApprovalOption :=
  [Approvals.mkOption "approve" "Approve Once" Approvals.e_approve (Some once)]
  ++ (if truthy (v_workSessionId inv)
      then [Approvals.mkOption "approve_session" "Approve Session" Approvals.e_approve (Some work_session)]
      else [])
  ++ (if negb (truthy (v_workSessionId inv))
         && negb (startsWith (v_principalId inv) "transport:" || startsWith (v_principalId inv) "ephemeral-workspace:")
      then [Approvals.mkOption "approve_workspace" "Approve Workspace" Approvals.e_approve (Some workspace)]
      else [])
  ++ [Approvals.mkOption "deny" "Deny" Approvals.e_deny None].

Definition expiry (f : Fresh) : option Z :=
  (λ ms, (t_expires f + (if blocking then ms else Z.min ms (directApprovalTtlMs opts)))%Z) <$> timeoutMs opts.

Definition newRequest (f : Fresh) (hash rowKey i waiter : jsstr) (key : jsstr) (p : option PolicyInputPath) : Request :=
  mkRequest i (v_principalId inv) (v_workspaceId inv) (v_workSessionId inv) (v_ownerContextId inv)
    (Some key) (Some hash) (Some rowKey) (if blocking then Some waiter else None) (Some origin) None None
    (Some serverOptions) (canonicalToolName (v_tool inv)) (policyPathLabel p) (v_command inv) (v_runId inv)
    None (v_mcpSessionId inv) (v_mcpRequestId inv) (v_conversationId inv) (t_requested f) (expiry f).

Definition payload (f : Fresh) (i : jsstr) (d : PolicyDecision) (p : option PolicyInputPath) : Payload :=
  mkPayload i (v_workspaceId inv) (v_workSessionId inv) (v_runId inv) (v_principalId inv)
    (canonicalToolName (v_tool inv)) (policyPathLabel p) (v_command inv) (approvalKey d) (source d)
    (matchedPattern d) origin (v_conversationId inv) (v_ownerContextId inv) (t_requested f) (expiry f)
    serverOptions.

(** Publishing a new request, or attaching to the one that exists. *)
Definition publish (f : Fresh) (hash rowKey i waiter : jsstr) (existing : option Request) (en : Entry) w
  : World S * option Approvals.ApprovalError :=
  let '(p, d) := en in
  match existing with
  | None =>
      let '(e', err) := addPending cfg (t_create f) active (newRequest f hash rowKey i waiter (approvalKey d) p) (engine w) in
      match err with
      | Some x => (set_engine e' w, Some x)
      | None => (emit (Requested session (payload f i d p)) (set_engine e' w), None)
      end
  | Some _ => (if blocking then set_engine (reattachLiveWaiter i waiter (engine w)) w else w, None)
  end.

(** [waitForApproval] up to its wait; [aborted] is the signal when it is looked at. *)
Definition ask (f : Fresh) (aborted : bool) (en : Entry) w : World S * Asked :=
  let '(p, d) := en in
  let hash := canonicalOperationHash inv (approvalKey d) p in
  let '(e1, rowKey) := rowKeyOf f (approvalKey d) hash p (engine w) in
  let '(e2, existing) := findPendingByKey (t_find f) rowKey e1 in
  let '(e3, consumed) :=
    match existing with Some _ => (e2, false) | None => consumeApprovedOperation (t_consume f) rowKey e2 end in
  if consumed then (set_engine e3 w, Answered (granted d)) else
  let '(e4, consumed) := match existing with Some _ => (e3, false) | None => consumeDirect f hash e3 end in
  if consumed then (set_engine e4 w, Answered (granted d)) else
  let i := match existing with Some r => q_id r | None => "pol_" +s u_approval f end in
  let waiter := default ("synthetic_" +s u_waiter f) (v_mcpRequestId inv) in
  let ctx := mkWait i rowKey waiter (policyPathLabel p) (bool_decide (is_Some existing)) d in
  let e5 := if bool_decide (is_Some existing) && negb blocking
            then touchPending cfg (t_touch f) (t_touchRow f) i e4 else e4 in
  if aborted then (set_engine e5 w, Answered (refused d o_cancelled)) else
  let w1 := if blocking then emit (WaitStart ctx) (set_engine e5 w) else set_engine e5 w in
  let '(w2, err) := publish f hash rowKey i waiter existing en w1 in
  match err with
  | Some x => (w2, Threw x)
  | None =>
      if blocking then (w2, Waits ctx)
      else (w2, Answered (mkVerdict false d None true (Some i)))
  end.

(** ** Waking up *)

(** The payload of [policy.approval.provided] *)
Record Provided := mkProvided {
  d_decision : option jsstr;
  d_scope : option ApprovalScope;
  d_reason : option jsstr
}.

(** The clock readings after a wait, and the id of a grant. *)
Record Settling := mkSettling {
  s_record : Z;
  u_grant : jsstr;
  s_resolve : Z * Z * Z * Z;
  s_consume : Z;
  s_detach : Z;
  s_finally : Z
}.

(** [policy.resolvePending] at the readings of a [Settling] *)
Definition resolveAt (s : Settling) (i : jsstr) (st : Approvals.ApprovalStatus) (reason : jsstr)
  (sc : option ApprovalScope) e : Engine S * option Approvals.ApprovalError :=
  let '(t0, t1, t2, t3) := s_resolve s in resolvePending t0 t1 t2 t3 i st (Some reason) sc None e.

(** The end of the [try] block once the request is resolved: the outcome, unless resolving threw. *)
Definition closeWith (x : WaitContext) (r : Engine S * option Approvals.ApprovalError) (v : Verdict)
  (o : Outcome) w : World S * Asked :=
  match r with
  | (e, Some err) => (set_engine e w, Threw err)
  | (e, None) => (emit (WaitEnd x o) (set_engine e w), Answered v)
  end.

Definition waiterGone (x : WaitContext) e : bool :=
  match getLiveWaiterState (w_approvalId x) (w_liveWaiterId x) e with Some dead => true | _ => false end.

(** The [try] block after the wait: [aborted] is the signal, [ev] the event, if one came in time. *)
Definition decideWait (s : Settling) (aborted : bool) (ev : option Provided) (x : WaitContext) w
  : World S * Asked :=
  let d := w_decision x in
  let i := w_approvalId x in
  if aborted then
    (emit (WaitEnd x o_caller_gone)
       (set_engine (detachLiveWaiter cfg (s_detach s) i (w_liveWaiterId x) (engine w)) w),
     Answered (refused d o_caller_gone))
  else
    match ev with
    | None =>
        closeWith x (resolveAt s i Approvals.expired "approval timed out" None (engine w))
          (refused d o_timed_out) o_timed_out w
    | Some ev =>
        let sc := default once (d_scope ev) in
        let gone := waiterGone x (engine w) in
        if negb (default (js "deny") (d_decision ev) =s "approve") then
          let o := if gone then o_caller_gone else o_denied in
          closeWith x (resolveAt s i Approvals.denied (default (js "denied by reviewer") (d_reason ev)) (Some sc) (engine w))
            (refused d o) o w
        else
          let e1 := recordApproval (s_record s) (u_grant s) (v_principalId inv) (approvalKey d) sc context None (engine w) in
          let '(e2, err) := resolveAt s i Approvals.approved (default (js "approved by reviewer") (d_reason ev)) (Some sc) e1 in
          if gone then closeWith x (e2, err) (refused d o_caller_gone) o_caller_gone w
          else
            let e3 := match sc, err with
                      | once, None => (consumeApprovedOperation (s_consume s) (w_waiterKey x) e2).1
                      | _, _ => e2
                      end in
            closeWith x (e3, err) (granted d) o_approved w
    end.

(** ... and its [finally] *)
Definition settle (s : Settling) (aborted : bool) (ev : option Provided) (x : WaitContext) w : World S * Asked :=
  let '(w', r) := decideWait s aborted ev x w in
  (set_engine (detachLiveWaiter cfg (s_finally s) (w_approvalId x) (w_liveWaiterId x) (engine w')) w', r).

(** ** [enforce] *)

(** How far a call is: at its end, or waiting with the entries that are left. *)
Inductive Progress :=
| Finished (v : Verdict)
| Failed (x : Approvals.ApprovalError)
| Suspended (x : WaitContext) (rest : list Entry).

(** What the environment supplies for one entry: the clock for its grants, the readings of its
    request and the signal. *)
Record Supply := mkSupply { y_now : Z; y_fresh : Fresh; y_aborted : bool }.

(** The loop over the entries: [first] is the first decision and [last] the last outcome.  The supply
    is indexed by the number of entries left. *)
Fixpoint enforceFrom (first : PolicyDecision) (last : option Outcome) (supply : nat → Supply)
  (es : list Entry) w : World S * Progress :=
  match es with
  | [] => (w, Finished (mkVerdict true first last false None))
  | en :: rest =>
      let y := supply (length es) in
      if bool_decide (dmode en.2 = allow) then enforceFrom first last supply rest w
      else if isApproved (y_now y) (v_principalId inv) (approvalKey en.2) context (engine w)
      then enforceFrom first last supply rest w
      else
        match ask (y_fresh y) (y_aborted y) en w with
        | (w', Answered v) =>
            if allowed v then enforceFrom first (outcome v) supply rest w' else (w', Finished v)
        | (w', Threw x) => (w', Failed x)
        | (w', Waits x) => (w', Suspended x rest)
        end
  end.

Definition firstDecision : PolicyDecision :=
  match decisions with en :: _ => en.2 | [] => evaluate config (canonicalToolName (v_tool inv)) None end.

Definition enforce (supply : nat → Supply) w : World S * Progress :=
  match List.find (λ en, denies en.2) decisions with
  | Some en => (w, Finished (mkVerdict false en.2 None false None))
  | None => enforceFrom firstDecision None supply decisions w
  end.

(** Going on after a wait. *)
Definition wake (s : Settling) (aborted : bool) (ev : option Provided) (supply : nat → Supply)
  (x : WaitContext) (rest : list Entry) w : World S * Progress :=
  match settle s aborted ev x w with
  | (w', Answered v) =>
      if allowed v then enforceFrom firstDecision (outcome v) supply rest w' else (w', Finished v)
  | (w', Threw err) => (w', Failed err)
  | (w', Waits x) => (w', Suspended x rest)
  end.
End Enforce.
End Identity.

End Enforcement.
