(* ===== verification/EnforcementFacts.v ===== *)
(** * What enforcing the policy guarantees

    The theorems about [Enforcement], over the engine of [PolicyEngine] and the table of
    [Approvals].  A waiter key names the operation it was made for ([names]); [spent] says what a
    step of the engine uses up, and is composed along the calls of [ask] to what a call uses between
    its waits ([stretch]); [decided_by] says what a decision adds, and [wait_cost] what a wait costs;
    [operation_row] follows the one request of an operation through the table. *)

From S2P Require Import Prelude JsString Json Sql Policy Grants Approvals PolicyEngine Enforcement.
Import Policy PolicyEngine Enforcement.

Module EnforcementFacts.

(** ** Waiter keys name their operation *)

Definition COLON : N := 58.

(** [k] is a key [approvalRowKey] makes for the hash [h]. *)
Definition names (k h : jsstr) : Prop :=
  k = "operation:" +s h ∨ ∃ u, k = "legacy:" +s h +s ":" +s u.

Definition hex_like (h : jsstr) : Prop := COLON ∉ h.

Definition bound_keys (waiterKey operationHash : option jsstr) : Prop :=
  ∀ k, waiterKey = Some k → ∃ h, operationHash = Some h ∧ hex_like h ∧ names k h.

Definition bound (r : Approvals.Row) : Prop :=
  bound_keys (Approvals.waiterKey r) (Approvals.operationHash r).

Definition bound_request (r : Request) : Prop := bound_keys (q_waiterKey r) (q_operationHash r).

Lemma colon_split (h h' u u' : jsstr) :
  hex_like h → hex_like h' → h ++ COLON :: u = h' ++ COLON :: u' → h = h'.
Proof.
  unfold hex_like. revert h'. induction h as [|c h IH]; intros [|c' h'] H H' E; cbn in E; try done.
  - injection E as E _. destruct H'. rewrite <- E. by left.
  - injection E as E _. destruct H. rewrite E. by left.
  - injection E as -> E. f_equal. apply IH; [set_solver..|done].
Qed.

Lemma names_inj k h h' : hex_like h → hex_like h' → names k h → names k h' → h = h'.
Proof.
  intros H H' [->|[u ->]] [E|[u' E]]; cbn in E; try done; injection E as E; [done|].
  apply (colon_split h h' u u'); done.
Qed.

(** Rows that differ in their decision, waiter or consumption are bound alike. *)
Lemma bound_ext r r' :
  Approvals.waiterKey r' = Approvals.waiterKey r → Approvals.operationHash r' = Approvals.operationHash r →
  bound r → bound r'.
Proof. unfold bound. by intros -> ->. Qed.

(** ** What a step costs *)

(** Approvals of one execution that are still to be used. *)
Definition spendable (t : Approvals.Table) : nat := Approvals.available (λ _, true) t.

Definition durable_ok (t : Approvals.Table) : Prop := keyed Approvals.aid t ∧ ∀ r, r ∈ t → bound r.

(** What can be used in [t'] could be used in [t], for the same operation. *)
Definition usable_from (t t' : Approvals.Table) : Prop :=
  ∀ c', c' ∈ t' → Approvals.usable (λ _, true) c' = true →
        ∃ c, c ∈ t ∧ Approvals.usable (λ _, true) c = true ∧ Approvals.aid c = Approvals.aid c'
             ∧ Approvals.operationHash c = Approvals.operationHash c'.

Lemma usable_from_refl t : usable_from t t.
Proof. intros c Hc Hu. by exists c. Qed.

Lemma usable_from_trans t1 t2 t3 : usable_from t1 t2 → usable_from t2 t3 → usable_from t1 t3.
Proof.
  intros H1 H2 c3 Hc3 Hu3. destruct (H2 c3 Hc3 Hu3) as (c2 & Hc2 & Hu2 & <- & <-).
  exact (H1 c2 Hc2 Hu2).
Qed.

(** Nothing became usable, and [n] approvals were used. *)
Definition uses (n : nat) (t t' : Approvals.Table) : Prop :=
  durable_ok t' ∧ spendable t = n + spendable t' ∧ usable_from t t'.

Section Cost.
Context {S : Type} `{!Grants.GrantStore S}.
Implicit Types (e : Engine S).

(** An engine over a table in order, whose requests in memory are bound too. *)
Definition stored e (t : Approvals.Table) : Prop :=
  approvalRequests e = Some t ∧ durable_ok t ∧ ∀ kv, kv ∈ pendingApprovals e → bound_request kv.2.

(** A step leaves the scoped approvals alone and uses [n] approvals of one execution. *)
Definition spent (n : nat) e e' : Prop :=
  (sessionApprovals e' = sessionApprovals e ∧ grantStore e' = grantStore e)
  ∧ ∀ t, stored e t → ∃ t', stored e' t' ∧ uses n t t'.

Lemma spent_refl e : spent 0 e e.
Proof.
  split; [done|]. intros t Ht. exists t. split; [done|]. split_and!; [by destruct Ht as (? & ? & ?)|done|].
  apply usable_from_refl.
Qed.

Lemma uses_trans n m t1 t2 t3 : uses n t1 t2 → uses m t2 t3 → uses (n + m) t1 t3.
Proof.
  intros (_ & E1 & F1) (Hok & E2 & F2). split_and!; [done|lia|by eapply usable_from_trans].
Qed.

Lemma spent_trans n m e1 e2 e3 : spent n e1 e2 → spent m e2 e3 → spent (n + m) e1 e3.
Proof.
  intros [[A1 A2] A] [[B1 B2] B]. split; [split; congruence|]. intros t Ht.
  destruct (A t Ht) as (t' & Ht' & E). destruct (B t' Ht') as (t'' & Ht'' & E').
  exists t''. split; [done|by eapply uses_trans].
Qed.

(** A step whose table is the image of the old one under a function that acts on decisions of
    pending rows and on waiters only. *)
Definition idle (r r' : Approvals.Row) : Prop :=
  Approvals.aid r' = Approvals.aid r ∧ Approvals.waiterKey r' = Approvals.waiterKey r
  ∧ Approvals.operationHash r' = Approvals.operationHash r
  ∧ Approvals.usable (λ _, true) r' = Approvals.usable (λ _, true) r.

Lemma idle_refl r : idle r r.
Proof. done. Qed.

Lemma idle_map g t :
  (∀ r, r ∈ t → idle r (g r)) → durable_ok t → uses 0 t (List.map g t).
Proof.
  intros Hg [Hk Hb]. split; [split|split].
  - unfold keyed. rewrite List.map_map.
    replace (List.map (λ r, Approvals.aid (g r)) t) with (List.map Approvals.aid t); [done|].
    apply List.map_ext_in. intros r Hr%list_elem_of_In. symmetry. by apply Hg.
  - intros r' (r & -> & Hr)%elem_of_Lmap. destruct (Hg r Hr) as (_ & Hw & Hh & _).
    eapply bound_ext; [done..|]. by apply Hb.
  - unfold spendable. symmetry. apply Approvals.available_map. intros r Hr. by apply Hg.
  - intros r' (r & -> & Hr)%elem_of_Lmap Hu. destruct (Hg r Hr) as (Ha & _ & Hh & Hu').
    exists r. split_and!; congruence || done.
Qed.

Lemma idle_expired now r : Approvals.due now r = true → idle r (Approvals.set_status Approvals.expired now Approvals.timedOut r).
Proof.
  intros [Hp%Approvals.pending_spec _]%andb_true_iff. unfold idle. split_and!; try done.
  unfold Approvals.usable, Approvals.unconsumed. cbn. by rewrite Hp.
Qed.

Lemma expire_idle now l t :
  durable_ok t → uses 0 t (Approvals.expirePending now l t).1.
Proof.
  intros Hok. destruct (Approvals.expire_rows now l t (proj1 Hok)) as (g & -> & Hg).
  apply idle_map; [|done]. intros r Hr. destruct (Hg r Hr) as [->|[Hd ->]]; [apply idle_refl|by apply idle_expired].
Qed.

Lemma update_idle p f t :
  (∀ r, idle r (f r)) → durable_ok t → uses 0 t (update_where p f t).1.
Proof. intros Hf. unfold update_where. cbn [fst]. apply idle_map. intros r _. by destruct (p r). Qed.

(** A step that changes the table idly and keeps the requests in memory bound. *)
Lemma spent_idle e e' :
  sessionApprovals e' = sessionApprovals e → grantStore e' = grantStore e →
  (∀ t, stored e t → (∀ kv, kv ∈ pendingApprovals e' → bound_request kv.2)
     ∧ ∃ t', approvalRequests e' = Some t' ∧ uses 0 t t') →
  spent 0 e e'.
Proof.
  intros H1 H2 Hd. split; [done|]. intros t Ht. destruct (Hd t Ht) as (? & t' & ? & Hu).
  exists t'. split; [|done]. split_and!; [done|apply Hu|done].
Qed.

(** [idle_step] leaves the table the step makes of [t]. *)
Ltac idle_step :=
  apply spent_idle; [repeat case_match; simplify_eq/=; done..|];
  let t := fresh "t" in let Ht := fresh "Ht" in let Hok := fresh "Hok" in let Hb := fresh "Hb" in
  intros t (Ht & Hok & Hb); rewrite ?Ht; cbn; (split; [try exact Hb|eexists; (split; [done|])]).

Lemma findPendingByKey_spent now k e : spent 0 e (findPendingByKey now k e).1.
Proof.
  unfold findPendingByKey. destruct (List.find _ _) as [[? ?]|]; [apply spent_refl|].
  idle_step. by apply expire_idle.
Qed.

Lemma resumeOperation_spent now i c e : spent 0 e (resumeOperation now i c e).1.
Proof. unfold resumeOperation. idle_step. by apply expire_idle. Qed.

Lemma touchPending_spent cfg t1 t2 i e : spent 0 e (touchPending cfg t1 t2 i e).
Proof.
  unfold touchPending. idle_step; [|by apply update_idle].
  intros kv ([i' r] & -> & Hr)%elem_of_Lmap. specialize (Hb _ Hr). cbn. destruct (i' =s i); [|done].
  cbn in *. unfold touched. by destruct (negb _ && negb _).
Qed.

Lemma reattachLiveWaiter_spent i k e : spent 0 e (reattachLiveWaiter i k e).
Proof. unfold reattachLiveWaiter. idle_step. by apply update_idle. Qed.

Lemma durable_insert r t :
  durable_ok t → by_key Approvals.aid (Approvals.aid r) t = None → bound r → durable_ok (insert_row r t).
Proof.
  intros [Hk Hb] Hn Hr. split; [by apply keyed_insert|].
  intros x [Hx| ->%list_elem_of_singleton]%elem_of_app; [by apply Hb|done].
Qed.

Lemma putPending_bound (r : Request) l :
  bound_request r → (∀ kv, kv ∈ l → bound_request kv.2) → ∀ kv, kv ∈ putPending r l → bound_request kv.2.
Proof.
  intros Hr Hl kv. unfold putPending. destruct (existsb _ l).
  - intros (kv' & -> & Hin)%elem_of_Lmap. destruct (kv'.1 =s q_id r); [done|by apply Hl].
  - intros [Hin| ->%list_elem_of_singleton]%elem_of_app; [by apply Hl|done].
Qed.

(** A new request is pending, so there is nothing to use of it yet. *)
Lemma addPending_spent cfg now active (r : Request) e :
  bound_request r → spent 0 e (addPending cfg now active r e).1.
Proof.
  intros Hr. unfold addPending. split; [by repeat case_match; simplify_eq/=|].
  intros t (Ht & [Hk Hb'] & Hb). rewrite Ht.
  assert (Hb2 := putPending_bound r _ Hr Hb).
  destruct (Approvals.create cfg now [] active (createInput r) t) as [[row t']|x] eqn:E; cbn.
  2:{ exists t. split; [done|]. split_and!; [done..|apply usable_from_refl]. }
  exists t'. unfold Approvals.create in E.
  apply bind_Ok in E as (_ & _ & E). apply bind_Ok in E as (_ & Hn%ensure_Ok & E).
  injection E as <- <-.
  assert (Hok : durable_ok (insert_row (Approvals.newRequest cfg now [] (createInput r)) t)).
  { apply durable_insert; [done|by destruct (by_key _ _ _)|exact Hr]. }
  split; [by split_and!|]. split_and!; [done| |].
  2:{ intros x [Hx| ->%list_elem_of_singleton]%elem_of_app Hu; [by exists x|done]. }
  - unfold spendable, Approvals.available, insert_row. by rewrite List.filter_app, app_nil_r.
Qed.

(** Consuming uses one approval of one execution, which was in the table. *)
Lemma consumeWhere_spent p now t :
  durable_ok t →
  match Approvals.consumeWhere p now t with
  | (t', b) =>
      uses (Nat.b2n b) t t'
      ∧ (b = true → ∃ c, c ∈ t ∧ Approvals.usable p c = true)
  end.
Proof.
  intros [Hk Hb]. pose proof (Approvals.consumeWhere_spec p now t Hk) as Hc.
  destruct (Approvals.consumeWhere p now t) as [t' [|]].
  - destruct Hc as (c & Hin & Hu & ->).
    assert (Hu' : Approvals.usable (λ _, true) c = true).
    { unfold Approvals.usable in *. by destruct (p c), (Approvals.unconsumed c). }
    split; [|intros _; by exists c]. split; [split|split].
    + by apply keyed_update; [intros []|].
    + intros r' (r & Hr & ->)%elem_of_update_where. eapply bound_ext; [..|by apply Hb]; by destruct (_ && _).
    + by apply Approvals.consumes_available.
    + intros r' (r & Hr & ->)%elem_of_update_where. destruct (_ && _); [|by exists r].
      unfold Approvals.usable, Approvals.unconsumed. cbn. by rewrite !andb_false_r.
  - destruct Hc as [-> _]. split; [|done]. split_and!; [done..|apply usable_from_refl].
Qed.

Lemma consumeOperation_spent now k e :
  spent (Nat.b2n (consumeApprovedOperation now k e).2) e (consumeApprovedOperation now k e).1.
Proof.
  unfold consumeApprovedOperation. split; [by repeat case_match|]. intros t (Ht & Hok & Hb). rewrite Ht.
  pose proof (consumeWhere_spent (Approvals.byWaiterKey k) now t Hok) as Hc.
  unfold Approvals.consumeApprovedOperation.
  destruct (Approvals.consumeWhere _ now t) as [t' b]. exists t'. unfold stored, uses in *. naive_solver.
Qed.

Lemma consumeDirectOperation_spent now op e :
  spent (Nat.b2n (consumeApprovedDirectOperation now op e).2) e (consumeApprovedDirectOperation now op e).1.
Proof.
  unfold consumeApprovedDirectOperation. destruct op as [[[p w] o] h].
  split; [by repeat case_match|]. intros t (Ht & Hok & Hb). rewrite Ht.
  pose proof (consumeWhere_spent (Approvals.byOperation p w o h) now t Hok) as Hc.
  unfold Approvals.consumeApprovedDirectOperation.
  destruct (Approvals.consumeWhere _ now t) as [t' b]. exists t'. unfold stored, uses in *. naive_solver.
Qed.

End Cost.

(** ** What a call costs *)

Section Calls.
Context (localeLe : jsstr → jsstr → bool) (digest : OperationText → jsstr).
Hypothesis digest_hex : ∀ x, hex_like (digest x).
Context {S : Type} `{!Grants.GrantStore S}.
Context (config : PolicyConfig) (cfg : Approvals.Config) (opts : Options)
  (active : jsstr → option bool) (inv : Invocation).
Implicit Types (e : Engine S) (w : World S).

Abbreviation hash_of d p := (canonicalOperationHash localeLe digest inv (approvalKey d) p).

(** A resumed key names the operation the caller described. *)
Lemma resumeOperation_names now i c e t k :
  stored e t → (resumeOperation now i c e).2 = Some k → names k (rc_operationHash c).
Proof.
  intros (Ht & Hok & Hb). unfold resumeOperation. rewrite Ht. cbn.
  assert (Hs : ∀ b (r : Request), bound_request r → sameOperation b c r = true → q_waiterKey r = Some k →
                 names k (rc_operationHash c)).
  { intros b r Hr Hsame Hk. destruct (Hr k Hk) as (h & Hh & _ & Hn). unfold sameOperation in Hsame.
    apply andb_true_iff in Hsame as [_ He%bool_decide_eq_true]. congruence. }
  destruct (by_key _ _ _) as [r|] eqn:Er.
  - destruct (sameOperation _ c (rowContent r)) eqn:E; [|done]. intros Hk. eapply Hs; [|done|exact Hk].
    apply by_key_Some in Er as [Hr _]. by apply (expire_idle now 100 t Hok).
  - destruct (List.find _ _) as [r|] eqn:Ef; [|done]. destruct (sameOperation true c r) eqn:E; [|done].
    intros Hk. apply find_some_iff in Ef as [Hin _]. apply list_elem_of_fmap in Hin as (kv & -> & Hin).
    eapply Hs; [by apply Hb|done|done].
Qed.

Lemma approvalRowKey_names h u : names (approvalRowKey inv h u) h.
Proof. unfold approvalRowKey, names. destruct (_ || _); eauto. Qed.

Lemma rowKeyOf_spec f d p e t :
  stored e t →
  spent 0 e (rowKeyOf inv f (approvalKey d) (hash_of d p) p e).1
  ∧ names (rowKeyOf inv f (approvalKey d) (hash_of d p) p e).2 (hash_of d p).
Proof.
  intros Ht. unfold rowKeyOf.
  destruct (truthy _); [|split; [apply spent_refl|apply approvalRowKey_names]].
  set (c := resumeContent _ _ _ _).
  pose proof (resumeOperation_spent (t_resume f) (or_empty (v_approvalResumeId inv)) c e) as Hs.
  pose proof (resumeOperation_names (t_resume f) (or_empty (v_approvalResumeId inv)) c e t) as Hn.
  destruct (resumeOperation _ _ c e) as [e' [k|]]; cbn in *; (split; [done|]).
  - by apply Hn.
  - apply approvalRowKey_names.
Qed.

(** The approvals a request for approval uses: one when it returns with leave to go on. *)
Definition cost (r : Asked) : nat := match r with Answered v => Nat.b2n (allowed v) | _ => 0 end.

(** An approval given for the operation was among those that could be used. *)
Definition own_approval (h : jsstr) (t : Approvals.Table) : Prop :=
  ∃ c, c ∈ t ∧ Approvals.usable (λ _, true) c = true ∧ Approvals.operationHash c = Some h.

Lemma own_approval_from h t t' : usable_from t t' → own_approval h t' → own_approval h t.
Proof. intros Hf (c' & Hc' & Hu & Hh). destruct (Hf c' Hc' Hu) as (c & ? & ? & _ & E). exists c. by rewrite E. Qed.

Lemma usable_any p c : Approvals.usable p c = true → Approvals.usable (λ _, true) c = true ∧ p c = true.
Proof. unfold Approvals.usable. by destruct (p c), (Approvals.unconsumed c). Qed.

(** Consuming by a key that names the operation uses an approval of the operation. *)
Lemma consumeOperation_own now k h e t :
  stored e t → hex_like h → names k h → (consumeApprovedOperation now k e).2 = true → own_approval h t.
Proof.
  intros (Ht & Hok & _) Hh Hn. unfold consumeApprovedOperation. rewrite Ht.
  pose proof (consumeWhere_spent (Approvals.byWaiterKey k) now t Hok) as Hc.
  unfold Approvals.consumeApprovedOperation. destruct (Approvals.consumeWhere _ now t) as [t' b]. cbn.
  intros ->. destruct Hc as (_ & c & Hin & [Hu Hp]%usable_any); [done|]. exists c. split_and!; [done..|].
  apply bool_decide_eq_true in Hp. destruct Hok as [_ Hb]. destruct (Hb c Hin k Hp) as (h' & -> & Hh' & Hn').
  f_equal. by eapply names_inj.
Qed.

Lemma consumeDirect_own f h e t : stored e t → (consumeDirect inv f h e).2 = true → own_approval h t.
Proof.
  intros (Ht & Hok & _). unfold consumeDirect. destruct (_ && _ && _ && _); [|done].
  unfold consumeApprovedDirectOperation. rewrite Ht.
  set (p := Approvals.byOperation (v_principalId inv) (v_workspaceId inv) (or_empty (v_ownerContextId inv)) h). pose proof (consumeWhere_spent p (t_consumeDirect f) t Hok) as Hc.
  unfold Approvals.consumeApprovedDirectOperation. fold p.
  destruct (Approvals.consumeWhere _ _ t) as [t' b]. cbn. intros ->.
  destruct Hc as (_ & c & Hin & [Hu Hp]%usable_any); [done|]. exists c. split_and!; [done..|].
  unfold p, Approvals.byOperation in Hp. by repeat (apply andb_true_iff in Hp as [Hp ?H']); guards.
Qed.

Lemma consumeDirect_spent f h e : spent (Nat.b2n (consumeDirect inv f h e).2) e (consumeDirect inv f h e).1.
Proof. unfold consumeDirect. destruct (_ && _ && _ && _); [apply consumeDirectOperation_spent|apply spent_refl]. Qed.

Abbreviation ask' := (ask localeLe digest cfg opts active inv).

(** The rest of [ask] once nothing could be consumed. *)
Lemma publish_spent f rowKey i waiter existing p d w w' err :
  names rowKey (hash_of d p) →
  publish cfg opts active inv f (hash_of d p) rowKey i waiter existing (p, d) w = (w', err) →
  spent 0 (engine w) (engine w').
Proof.
  intros Hn. unfold publish. destruct existing as [r|].
  - intros [= <- _]. destruct (blocking inv); [apply reattachLiveWaiter_spent|apply spent_refl].
  - set (r := newRequest _ _ _ _ _ _ _ _ _).
    assert (Hb : bound_request r) by (intros k [= <-]; eexists; split; [done|split; [apply digest_hex|done]]).
    pose proof (addPending_spent cfg (t_create f) active r (engine w) Hb) as Hs.
    destruct (addPending _ _ _ r _) as [e' [x|]]; intros [= <- _]; exact Hs.
Qed.

Lemma touch_spent (b : bool) t1 t2 i e : spent 0 e (if b then touchPending cfg t1 t2 i e else e).
Proof. destruct b; [apply touchPending_spent|apply spent_refl]. Qed.

Lemma ask_spent f ab p d w t w' r :
  stored (engine w) t → ask' f ab (p, d) w = (w', r) →
  spent (cost r) (engine w) (engine w') ∧ (cost r = 1 → own_approval (hash_of d p) t).
Proof using digest_hex.
  intros Ht E. unfold ask in E.
  destruct (rowKeyOf_spec f d p (engine w) t Ht) as [S1 Hn].
  destruct (rowKeyOf _ f _ _ p _) as [e1 rowKey]. cbn in S1, Hn.
  pose proof (findPendingByKey_spent (t_find f) rowKey e1) as S2.
  destruct (findPendingByKey _ rowKey e1) as [e2 existing]. cbn in S2.
  assert (S12 : spent 0 (engine w) e2) by (by eapply (spent_trans 0 0)).
  destruct (proj2 S12 t Ht) as (t2 & Ht2 & _ & _ & F2).
  destruct (match existing with Some _ => _ | None => consumeApprovedOperation _ _ _ end) as [e3 b] eqn:E3.
  assert (S3 : spent (Nat.b2n b) (engine w) e3).
  { apply (spent_trans 0 _ _ _ _ S12). destruct existing; [injection E3 as <- <-; apply spent_refl|].
    pose proof (consumeOperation_spent (t_consume f) rowKey e2) as Hs. by rewrite E3 in Hs. }
  destruct b.
  { injection E as <- <-. split; [exact S3|]. intros _. eapply own_approval_from; [exact F2|].
    destruct existing; [done|].
    eapply (consumeOperation_own (t_consume f)); [exact Ht2|apply digest_hex|exact Hn|by rewrite E3]. }
  destruct (proj2 S3 t Ht) as (t3 & Ht3 & _ & _ & F3).
  destruct (match existing with Some _ => _ | None => consumeDirect _ _ _ _ end) as [e4 b] eqn:E4.
  assert (S4 : spent (Nat.b2n b) (engine w) e4).
  { apply (spent_trans 0 _ _ _ _ S3). destruct existing; [injection E4 as <- <-; apply spent_refl|].
    pose proof (consumeDirect_spent f (hash_of d p) e3) as Hs. by rewrite E4 in Hs. }
  destruct b.
  { injection E as <- <-. split; [exact S4|]. intros _. eapply own_approval_from; [exact F3|].
    destruct existing; [done|]. eapply (consumeDirect_own f); [exact Ht3|by rewrite E4]. }
  cbv zeta in E. set (i := match existing with Some r => q_id r | None => _ end) in E.
  set (e5 := if _ && _ then touchPending _ _ _ _ _ else _) in E.
  assert (S5 : spent 0 (engine w) e5).
  { apply (spent_trans 0 0 _ _ _ S4). apply touch_spent. }
  clearbody e5. destruct ab; [injection E as <- <-; by split|].
  destruct (publish _ _ _ _ _ _ _ _ _ _ _ _) as [w2 err] eqn:Ep.
  apply publish_spent in Ep; [|exact Hn].
  assert (S6 : spent 0 (engine w) (engine w2)).
  { apply (spent_trans 0 0 _ _ _ S5). by destruct (blocking inv). }
  destruct err; [|destruct (blocking inv)]; injection E as <- <-; by split.
Qed.

(** A path that the policy allows or a scoped approval covers. *)
Definition covered (y : Supply) e (en : Entry) : bool :=
  bool_decide (dmode en.2 = allow)
  || isApproved (y_now y) (v_principalId inv) (approvalKey en.2) (context inv) e.

(** The paths a call needs an approval of its own for. *)
Fixpoint uncovered (supply : nat → Supply) (es : list Entry) e : list Entry :=
  match es with
  | [] => []
  | en :: rest =>
      if covered (supply (length es)) e en then uncovered supply rest e else en :: uncovered supply rest e
  end.

Lemma isApproved_frame now p k ctx e e' :
  sessionApprovals e' = sessionApprovals e → grantStore e' = grantStore e →
  isApproved now p k ctx e' = isApproved now p k ctx e.
Proof. intros H1 H2. unfold isApproved, holds. by rewrite H1, H2. Qed.

Lemma uncovered_frame supply es e e' :
  sessionApprovals e' = sessionApprovals e → grantStore e' = grantStore e →
  uncovered supply es e' = uncovered supply es e.
Proof.
  intros H1 H2. induction es as [|en es IH]; [done|]. cbn [uncovered]. unfold covered.
  by rewrite (isApproved_frame _ _ _ _ e e' H1 H2), IH.
Qed.

(** Where a call stops among the paths that need an approval of their own: nowhere, when it is let
    through, and at the first that is left, when it waits for the request of that one. *)
Definition stops (supply : nat → Supply) e (r : Progress) (left : list Entry) : Prop :=
  match r with
  | Finished v => allowed v = true → left = []
  | Failed _ => left ≠ []
  | Suspended x rest =>
      ∃ p, left = (p, w_decision x) :: uncovered supply rest e ∧ names (w_waiterKey x) (hash_of (w_decision x) p)
  end.

(** What a stretch of a call costs, from [t] to [t'], that has the paths [es] before it: it gets past
    some of those that need an approval of their own, and uses exactly one approval for each, given
    for that very operation. *)
Definition stretch (supply : nat → Supply) (es : list Entry) e (r : Progress) (t t' : Approvals.Table) : Prop :=
  ∃ past left, uncovered supply es e = past ++ left ∧ stops supply e r left
    ∧ spendable t = length past + spendable t'
    ∧ Forall (λ en, own_approval (hash_of en.2 en.1) t) past.

Lemma stops_frame supply e e' r left :
  sessionApprovals e' = sessionApprovals e → grantStore e' = grantStore e →
  stops supply e' r left → stops supply e r left.
Proof.
  intros H1 H2. destruct r as [v|x|x rest]; [done..|]. intros (p & -> & Hn). exists p.
  by rewrite (uncovered_frame _ _ e e').
Qed.

Lemma ask_waits f ab p d w w' x t :
  stored (engine w) t → ask' f ab (p, d) w = (w', Waits x) →
  w_decision x = d ∧ names (w_waiterKey x) (hash_of d p).
Proof using digest_hex.
  intros Ht E. unfold ask in E. destruct (rowKeyOf_spec f d p (engine w) t Ht) as [_ Hn].
  destruct (rowKeyOf _ f _ _ p _) as [e1 rowKey]. cbn in Hn.
  destruct (findPendingByKey _ rowKey e1) as [e2 existing].
  destruct (match existing with Some _ => _ | None => consumeApprovedOperation _ _ _ end) as [e3 [|]]; [done|].
  destruct (match existing with Some _ => _ | None => consumeDirect _ _ _ _ end) as [e4 [|]]; [done|].
  cbv zeta in E. destruct ab; [done|]. destruct (publish _ _ _ _ _ _ _ _ _ _ _ _) as [w2 [err|]]; [done|].
  destruct (blocking inv); [|done]. by injection E as _ <-.
Qed.

Lemma enforceFrom_spent first last supply es w t w' r :
  stored (engine w) t →
  enforceFrom localeLe digest cfg opts active inv first last supply es w = (w', r) →
  ∃ t', stored (engine w') t' ∧ stretch supply es (engine w) r t t'.
Proof using digest_hex.
  revert last w t. induction es as [|[p d] es IH]; intros last w t Ht E; cbn [enforceFrom] in E.
  - injection E as <- <-. exists t. split; [done|]. by exists [], [].
  - assert (Hc : covered (supply (Datatypes.S (length es))) (engine w) (p, d) = true →
                 enforceFrom localeLe digest cfg opts active inv first last supply es w = (w', r) →
                 ∃ t', stored (engine w') t' ∧ stretch supply ((p, d) :: es) (engine w) r t t').
    { intros Hcov E'. destruct (IH _ _ _ Ht E') as (t' & Ht' & Hp). exists t'. split; [done|].
      unfold stretch in *. cbn [uncovered length]. by rewrite Hcov. }
    cbn [length] in E. unfold covered in Hc. cbn [snd] in E, Hc.
    destruct (bool_decide _) eqn:Ha; [by apply Hc|]. cbn [orb] in Hc.
    destruct (isApproved _ _ _ _ _) eqn:Hi; [by apply Hc|]. clear Hc.
    assert (Hu : uncovered supply ((p, d) :: es) (engine w) = (p, d) :: uncovered supply es (engine w)).
    { cbn [uncovered length]. unfold covered. cbn [snd]. by rewrite Ha, Hi. }
    unfold stretch. destruct (ask' _ _ _ w) as [w1 a] eqn:Ek.
    destruct (ask_spent _ _ _ _ _ _ _ _ Ht Ek) as [[[F1 F2] Hs] Hown].
    destruct (Hs t Ht) as (t1 & Ht1 & _ & Hn & Hf).
    destruct a as [v1|y|x]; cbn [cost] in *.
    + destruct (allowed v1) eqn:Ev; cbn [Nat.b2n] in *.
      * destruct (IH _ _ _ Ht1 E) as (t' & Ht' & past & left & Hu' & Hst & Hp & HF). exists t'. split; [done|].
        rewrite (uncovered_frame _ _ (engine w)) in Hu' by done. exists ((p, d) :: past), left.
        split; [etrans; [exact Hu|]; by rewrite Hu'|]. split; [by eapply stops_frame|]. split; [cbn [length]; lia|].
        constructor; [by apply Hown|]. eapply Forall_impl; [exact HF|]. intros en. by apply own_approval_from.
      * injection E as <- <-. exists t1. split; [done|]. eexists [], _. split; [exact Hu|].
        split; [by cbn; rewrite Ev|by split].
    + injection E as <- <-. exists t1. split; [done|]. eexists [], _. split; [exact Hu|]. by split.
    + injection E as <- <-. exists t1. split; [done|].
      destruct (ask_waits _ _ _ _ _ _ _ _ Ht Ek) as [Ed Hname]. eexists [], _. split; [exact Hu|].
      split; [exists p; by rewrite Ed|by split].
Qed.
End Calls.

(** ** A direct call: asked, approved once, run once *)

(** A direct call on one path that does not resume an earlier one, from an MCP session. *)
Record direct_call (inv : Invocation) : Prop := {
  dc_direct : v_blockingApproval inv = Some false;
  dc_path : v_paths inv = None;
  dc_new : truthy (v_approvalResumeId inv) = false;
  dc_session : truthy (v_mcpSessionId inv) = true
}.

(** In a table where only the request [i] is for the operation [h]: that request. *)
Definition operation_row (h i : jsstr) (r : Approvals.Row) (t : Approvals.Table) : Prop :=
  durable_ok t ∧ by_key Approvals.aid i t = Some r
  ∧ ∀ r', r' ∈ t → Approvals.operationHash r' = Some h → Approvals.aid r' = i.

(** Functions on rows that leave alone what the tables are searched by. *)
Definition keeps (g : Approvals.Row → Approvals.Row) : Prop :=
  ∀ r, Approvals.aid (g r) = Approvals.aid r ∧ Approvals.waiterKey (g r) = Approvals.waiterKey r
       ∧ Approvals.operationHash (g r) = Approvals.operationHash r.

Lemma by_key_image {A} (key : A → jsstr) g i (t : list A) :
  (∀ r, r ∈ t → key (g r) = key r) → by_key key i (List.map g t) = g <$> by_key key i t.
Proof.
  intros Hg. unfold by_key, get_where. induction t as [|r t IH]; [done|]. cbn [List.map List.find].
  rewrite (Hg r) by (by left). case_bool_decide; [done|]. apply IH. intros; apply Hg; by right.
Qed.

Lemma durable_update (p : Approvals.Row → bool) f t : keeps f → durable_ok t → durable_ok (update_where p f t).1.
Proof.
  intros Hf [Hk Hb]. split.
  - apply keyed_update; [|done]. intros r. apply Hf.
  - intros r' (r & Hr & ->)%elem_of_update_where. destruct (Hf r) as (_ & Hw & Hh).
    destruct (p r); [|by apply Hb]. eapply bound_ext; [done..|by apply Hb].
Qed.

Lemma operation_row_update h i r (p : Approvals.Row → bool) f t :
  keeps f → operation_row h i r t → operation_row h i (if p r then f r else r) (update_where p f t).1.
Proof.
  intros Hf (Hok & Hr & Hu). split_and!.
  - by apply durable_update.
  - rewrite by_key_update, Hr; [done|]. intros x. apply Hf.
  - intros r' (x & Hx & ->)%elem_of_update_where. destruct (Hf x) as (Ha & _ & Hh).
    destruct (p x); rewrite ?Ha, ?Hh; by apply Hu.
Qed.

Lemma operation_row_expire h i r now t :
  operation_row h i r t → Approvals.due now r = false →
  operation_row h i r (Approvals.expirePending now 100 t).1.
Proof.
  intros (Hok & Hr & Hu) Hd. split; [by apply expire_idle|].
  destruct (Approvals.expire_rows now 100 t (proj1 Hok)) as (g & -> & Hg).
  apply by_key_Some in Hr as Hr'. destruct Hr' as [Hin Hi]. split.
  - rewrite by_key_image, Hr; [|intros x Hx; by destruct (Hg x Hx) as [->|[_ ->]]].
    cbn. destruct (Hg r Hin) as [->|[Hd' _]]; [done|congruence].
  - intros r' (x & -> & Hx)%elem_of_Lmap. destruct (Hg x Hx) as [->|[_ ->]]; exact (Hu x Hx).
Qed.

Section Flow.
Context (localeLe : jsstr → jsstr → bool) (digest : OperationText → jsstr).
Hypothesis digest_hex : ∀ x, hex_like (digest x).
Context {S : Type} `{!Grants.GrantStore S}.
Context (config : PolicyConfig) (cfg : Approvals.Config) (opts : Options)
  (active : jsstr → option bool) (inv : Invocation).
Hypothesis Hdirect : direct_call inv.
Implicit Types (e : Engine S) (w : World S).

Let d : PolicyDecision := evaluate config (canonicalToolName (v_tool inv)) (v_path inv).
Let h : jsstr := canonicalOperationHash localeLe digest inv (approvalKey d) (v_path inv).
Let k : jsstr := "operation:" +s h.

(** No request in memory is for the operation. *)
Definition nothing_in_memory e : Prop :=
  ∀ kv, kv ∈ pendingApprovals e → q_operationHash kv.2 ≠ Some h.

Lemma key_names : names k h.
Proof. by left. Qed.

Lemma row_of_key t r : durable_ok t → r ∈ t → Approvals.waiterKey r = Some k → Approvals.operationHash r = Some h.
Proof using digest_hex.
  intros [_ Hb] Hr Hk. destruct (Hb r Hr k Hk) as (h' & -> & Hh & Hn). f_equal.
  eapply names_inj; [exact Hh|apply digest_hex|exact Hn|apply key_names].
Qed.

(** A request of the operation that is not pending is not found again. *)
Lemma find_nothing now e t :
  stored e t → nothing_in_memory e →
  (∀ r, r ∈ t → Approvals.operationHash r = Some h → Approvals.is_pending r = false) →
  findPendingByKey now k e = (set_table (Approvals.expirePending now 100 t).1 e, None).
Proof using digest_hex.
  intros (Ht & Hok & Hb) Hm Hp. unfold findPendingByKey.
  destruct (List.find _ (pendingApprovals e)) as [[j q]|] eqn:Ef.
  { apply find_some_iff in Ef as [Hin Hk%bool_decide_eq_true]. cbn in Hk.
    destruct (Hb _ Hin k Hk) as (h' & Hh' & Hhex & Hn). destruct (Hm _ Hin). rewrite Hh'. f_equal.
    eapply names_inj; [exact Hhex|apply digest_hex|exact Hn|apply key_names]. }
  rewrite Ht. unfold Approvals.listPending. cbn. rewrite Lfilter_none; [done|].
  intros r Hr. apply elem_of_order_by, elem_of_Lfilter in Hr as [Hr Hpend].
  apply andb_true_iff in Hpend as [Hpend _]. apply andb_false_iff. right. apply bool_decide_eq_false. intros Hk.
  assert (Hok1 : durable_ok (Approvals.expirePending now 100 t).1) by (by apply expire_idle).
  assert (Hh := row_of_key _ r Hok1 Hr Hk).
  destruct (Approvals.expire_rows now 100 t (proj1 Hok)) as (g & Eg & Hg).
  rewrite Eg in Hr. apply elem_of_Lmap in Hr as (x & -> & Hx). destruct (Hg x Hx) as [E|[_ E]]; rewrite E in *.
  - by rewrite (Hp x Hx Hh) in Hpend.
  - done.
Qed.

(** Nothing is consumed while no approval of the operation can be used. *)
Lemma consume_nothing now e t :
  stored e t → ¬ own_approval h t → consumeApprovedOperation now k e = (set_table t e, false).
Proof using digest_hex.
  intros Ht Hno. pose proof (consumeOperation_own now k h e t Ht (digest_hex _) key_names) as Hc.
  destruct Ht as (Ht & Hok & _). unfold consumeApprovedOperation in *. rewrite Ht in *.
  pose proof (Approvals.consumeWhere_spec (Approvals.byWaiterKey k) now t (proj1 Hok)) as Hs.
  unfold Approvals.consumeApprovedOperation in *.
  destruct (Approvals.consumeWhere _ now t) as [t' [|]]; [destruct Hno; by apply Hc|]. by destruct Hs as [-> _].
Qed.

Lemma consumeDirect_nothing f e t :
  stored e t → ¬ own_approval h t →
  ∃ e', consumeDirect inv f h e = (e', false) ∧ stored e' t ∧ pendingApprovals e' = pendingApprovals e.
Proof.
  intros Ht Hno. pose proof (consumeDirect_own inv f h e t Ht) as Hc. unfold consumeDirect in *.
  destruct (_ && _ && _ && _); [|by exists e].
  destruct Ht as (Ht & Hok & Hb). unfold consumeApprovedDirectOperation in *. rewrite Ht in *.
  unfold Approvals.consumeApprovedDirectOperation in *.
  set (p := Approvals.byOperation (v_principalId inv) (v_workspaceId inv) (or_empty (v_ownerContextId inv)) h) in *.
  pose proof (Approvals.consumeWhere_spec p (t_consumeDirect f) t (proj1 Hok)) as Hs.
  destruct (Approvals.consumeWhere _ _ t) as [t' [|]]; [destruct Hno; by apply Hc|].
  destruct Hs as [-> _]. eexists. split; [done|]. by split_and!.
Qed.

Lemma not_own t : (∀ r, r ∈ t → Approvals.operationHash r = Some h → Approvals.usable (λ _, true) r = false) →
  ¬ own_approval h t.
Proof. intros Hn (c & Hc & Hu & Hh). by rewrite (Hn c Hc Hh) in Hu. Qed.

(** The request of a call: when it expires, and its row. *)
Definition deadline (f : Fresh) : Z :=
  default (t_create f + (if truthy (v_workSessionId inv) then Approvals.WORK_SESSION_TOOL_APPROVAL_TTL_MS
                         else Approvals.directTtl cfg))%Z (expiry opts inv f).

Definition requestOf (f : Fresh) : Request :=
  newRequest opts inv f h k ("pol_" +s u_approval f) (default ("synthetic_" +s u_waiter f) (v_mcpRequestId inv))
    (approvalKey d) (v_path inv).

Definition rowOf (f : Fresh) : Approvals.Row :=
  Approvals.newRequest cfg (t_create f) [] (createInput (requestOf f)).

Lemma rowOf_deadline f : Approvals.expiresAt (rowOf f) = Some (deadline f).
Proof. unfold rowOf, deadline. cbn. by destruct (expiry opts inv f). Qed.

(** Nothing of the operation is in the engine: neither in memory nor in its table. *)
Definition unasked e (t : Approvals.Table) : Prop :=
  stored e t ∧ nothing_in_memory e ∧ ∀ r, r ∈ t → Approvals.operationHash r ≠ Some h.

(** The engine after the call: its one row of the operation is [r], and in memory only the request
    [i] is for it. *)
Definition asked_as (i : jsstr) (r : Approvals.Row) e : Prop :=
  ∃ t, stored e t ∧ operation_row h i r t
       ∧ ∀ kv, kv ∈ pendingApprovals e → kv.1 ≠ i → q_operationHash kv.2 ≠ Some h.

Abbreviation askd := (ask localeLe digest cfg opts active inv).

Lemma direct_key f e : rowKeyOf inv f (approvalKey d) h (v_path inv) e = (e, k).
Proof using Hdirect.
  unfold rowKeyOf, approvalRowKey. by rewrite (dc_new _ Hdirect), (dc_session _ Hdirect).
Qed.

Lemma not_blocking : blocking inv = false.
Proof using Hdirect. unfold blocking. by rewrite (dc_direct _ Hdirect). Qed.

Lemma putPending_other (r : Request) l kv :
  kv ∈ putPending r l → kv.1 ≠ q_id r → kv ∈ l.
Proof.
  unfold putPending. destruct (existsb _ l).
  - intros (kv' & -> & Hin)%elem_of_Lmap. destruct (kv'.1 =s q_id r); [|done]. by intros [].
  - intros [Hin| ->%list_elem_of_singleton]%elem_of_app; [done|]. by intros [].
Qed.

(** The first call is answered with a new request. *)
Lemma first_ask f w t :
  unasked (engine w) t → active (v_workspaceId inv) ≠ Some false →
  by_key Approvals.aid ("pol_" +s u_approval f) t = None →
  ∃ w', askd f false (v_path inv, d) w
        = (w', Answered (mkVerdict false d None true (Some ("pol_" +s u_approval f))))
        ∧ asked_as ("pol_" +s u_approval f) (rowOf f) (engine w').
Proof using digest_hex Hdirect.
  intros (Ht & Hm & Hno) Hact Hfresh. unfold ask. fold h. rewrite direct_key.
  rewrite (find_nothing _ _ t Ht Hm) by (intros r Hr Hh; by destruct (Hno r Hr)).
  set (t1 := (Approvals.expirePending (t_find f) 100 t).1).
  assert (Hok1 : durable_ok t1) by (apply expire_idle, Ht).
  assert (Hno1 : ∀ r, r ∈ t1 → Approvals.operationHash r ≠ Some h).
  { destruct (Approvals.expire_rows (t_find f) 100 t) as (g & Eg & Hg); [apply Ht|].
    unfold t1. rewrite Eg. intros r (x & -> & Hx)%elem_of_Lmap. destruct (Hg x Hx) as [->|[_ ->]]; by apply (Hno x). }
  assert (Hf1 : by_key Approvals.aid ("pol_" +s u_approval f) t1 = None).
  { destruct (Approvals.expire_rows (t_find f) 100 t) as (g & Eg & Hg); [apply Ht|].
    unfold t1. rewrite Eg, by_key_image, Hfresh; [done|]. intros x Hx. by destruct (Hg x Hx) as [->|[_ ->]]. }
  assert (Ht1 : stored (set_table t1 (engine w)) t1) by (split_and!; [done..|apply Ht]).
  assert (Hown : ¬ own_approval h t1) by (apply not_own; intros r Hr Hh; by destruct (Hno1 r Hr)).
  rewrite (consume_nothing _ _ t1 Ht1 Hown).
  assert (Ht1' : stored (set_table t1 (set_table t1 (engine w))) t1) by exact Ht1.
  destruct (consumeDirect_nothing f _ t1 Ht1' Hown) as (e4 & -> & Ht4 & Hp4).
  cbv zeta. rewrite not_blocking. rewrite bool_decide_false by (by intros []). cbn [andb].
  unfold publish. fold (requestOf f).
  change (addPending cfg (t_create f) active _ _) with (addPending cfg (t_create f) active (requestOf f) e4).
  unfold addPending. rewrite (proj1 Ht4).
  rewrite (Approvals.create_succeeds cfg (t_create f) [] active (createInput (requestOf f)) t1) by done.
  fold (rowOf f). eexists. split; [done|].
  assert (Hb : bound_request (requestOf f)).
  { intros k' [= <-]. exists h. split; [done|]. split; [apply digest_hex|apply key_names]. }
  assert (Hok2 : durable_ok (insert_row (rowOf f) t1)) by (by apply durable_insert).
  exists (insert_row (rowOf f) t1). split; [|split; [split_and!; [done| |]|]].
  - split_and!; [done..|]. intros kv. apply putPending_bound; [done|]. apply Ht4.
  - exact (by_key_insert_eq Approvals.aid (rowOf f) t1 Hf1).
  - intros r [Hr| ->%list_elem_of_singleton]%elem_of_app Hh; [by destruct (Hno1 r Hr)|done].
  - intros kv Hkv Hne. apply (Hm kv). apply putPending_other in Hkv; [|exact Hne]. by rewrite Hp4 in Hkv.
Qed.

(** The reviewer approves it for one execution before it expires. *)
Lemma approve_once t0 t1 t2 t3 reason i r e :
  asked_as i r e → Approvals.is_pending r = true →
  Approvals.due t0 r = false → Approvals.due t1 r = false →
  let r' := Approvals.set_status Approvals.approved t2
              (Approvals.mkResolution None None (Some once) reason None) r in
  ∃ e', resolvePending t0 t1 t2 t3 i Approvals.approved reason (Some once) None e = (e', None)
        ∧ asked_as i r' e' ∧ nothing_in_memory e'
        ∧ sessionApprovals e' = sessionApprovals e ∧ grantStore e' = grantStore e.
Proof.
  cbv zeta. intros (t & (Ht & Hok & Hb) & Hop & Hmem) Hp Hd0 Hd1. unfold resolvePending. rewrite Ht.
  unfold Approvals.get at 1. cbn [fst snd].
  set (ta := (Approvals.expirePending t0 100 t).1).
  assert (Ha : operation_row h i r ta) by (by apply operation_row_expire).
  assert (Hb1 := operation_row_expire _ _ _ t1 _ Ha Hd1). destruct Hb1 as (Hok1 & Hr1 & Hu1).
  set (input := Approvals.mkResolve Approvals.approved None None (Some once) reason None).
  destruct (Approvals.resolve_decides t1 t2 t3 i input ta r (Some once) (proj1 (proj1 Ha)) Hr1 Hp) as [E Hr'];
    [done..|].
  set (g := Approvals.set_status Approvals.approved t2 (Approvals.mkResolution None None (Some once) reason None)) in *.
  set (t' := (Approvals.expirePending t3 100 _).1) in E.
  change (truthy None) with false. cbv beta iota. fold input. rewrite E. eexists. split; [done|].
  assert (Hop' : operation_row h i (g r) t').
  { apply operation_row_expire; [|done].
    replace (g r) with (if (Approvals.aid r =s i) && Approvals.is_pending r then g r else r).
    { exact (operation_row_update h i r (λ r, (Approvals.aid r =s i) && Approvals.is_pending r) g _
               ltac:(by intros []) (conj Hok1 (conj Hr1 Hu1))). }
    apply by_key_Some in Hr1 as [_ ->]. by rewrite js_eqb_refl, Hp. }
  split_and!; [|..|done|done].
  - exists t'. split; [split_and!; [done|apply Hop'|]|split; [exact Hop'|]]; intros kv [Hkv _]%elem_of_Lfilter;
      [by apply Hb|by apply Hmem].
  - intros kv [Hkv Hne]%elem_of_Lfilter. apply Hmem; [done|]. intros Ei. by rewrite Ei, js_eqb_refl in Hne.
Qed.

(** The repeated call is let through and uses the approval up. *)
Lemma second_ask f w i r :
  asked_as i r (engine w) → nothing_in_memory (engine w) →
  Approvals.waiterKey r = Some k → Approvals.operationHash r = Some h →
  Approvals.usable (λ _, true) r = true →
  ∃ w' r', askd f false (v_path inv, d) w = (w', Answered (granted d))
    ∧ asked_as i r' (engine w') ∧ nothing_in_memory (engine w')
    ∧ Approvals.consumedAt r' = Some (t_consume f).
Proof using digest_hex Hdirect.
  intros (t & Ht & Hop & _) Hm Hk Hh Hu.
  assert (Hnp : Approvals.is_pending r = false).
  { unfold Approvals.usable, Approvals.unconsumed, Approvals.is_pending in *. by destruct (Approvals.status r). }
  assert (Hdue : ∀ now, Approvals.due now r = false) by (intros now; unfold Approvals.due; by rewrite Hnp).
  unfold ask. fold h. rewrite direct_key. destruct Hop as (Hok & Hr & Hone).
  apply by_key_Some in Hr as Hr'. destruct Hr' as [Hin Hi].
  rewrite (find_nothing _ _ t Ht Hm).
  2:{ intros x Hx Hhx. replace x with r; [done|].
      apply (keyed_inj Approvals.aid t); [apply Hok|done..|]. by rewrite (Hone x Hx Hhx). }
  assert (Hop1 := operation_row_expire _ _ _ (t_find f) _ (conj Hok (conj Hr Hone)) (Hdue _)).
  set (t1 := (Approvals.expirePending (t_find f) 100 t).1) in *. destruct Hop1 as (Hok1 & Hr1 & Hone1).
  apply by_key_Some in Hr1 as Hr1'. destruct Hr1' as [Hin1 _].
  unfold consumeApprovedOperation at 1. cbn [approvalRequests set_table set_pending].
  pose proof (Approvals.consumeWhere_spec (Approvals.byWaiterKey k) (t_consume f) t1 (proj1 Hok1)) as Hs.
  unfold Approvals.consumeApprovedOperation.
  destruct (Approvals.consumeWhere _ _ t1) as [t2 [|]].
  2:{ destruct Hs as [_ Hno]. specialize (Hno r Hin1). unfold Approvals.usable, Approvals.byWaiterKey in *.
      rewrite bool_decide_true in Hno by done. congruence. }
  destruct Hs as (c & Hc & [Huc Hkc%bool_decide_eq_true]%usable_any & ->).
  assert (c = r) as ->.
  { apply (keyed_inj Approvals.aid t1); [apply Hok1|done..|].
    rewrite (Hone1 c Hc (row_of_key _ _ Hok1 Hc Hkc)). done. }
  eexists. exists (Approvals.set_consumed (t_consume f) r). split; [done|].
  assert (Hop2 := operation_row_update h i r (λ x, (Approvals.aid x =s Approvals.aid r) && Approvals.unconsumed x)
                    (Approvals.set_consumed (t_consume f)) t1 ltac:(intros []; done) (conj Hok1 (conj Hr1 Hone1))).
  assert (Hun : Approvals.unconsumed r = true) by (unfold Approvals.usable in Hu; by destruct (Approvals.unconsumed r)).
  cbv beta in Hop2. rewrite js_eqb_refl, Hun in Hop2. cbn [andb] in Hop2.
  split; [|by split]. eexists. split; [split_and!; [done|apply Hop2|apply Ht]|]. split; [exact Hop2|].
  intros kv Hkv _. by apply Hm.
Qed.

(** A path that must be asked about: the policy says so, and no scoped approval covers it. *)
Definition must_ask e : Prop :=
  dmode d = Policy.ask ∧ ∀ now, isApproved now (v_principalId inv) (approvalKey d) (context inv) e = false.

Lemma must_ask_frame e e' :
  sessionApprovals e' = sessionApprovals e → grantStore e' = grantStore e → must_ask e → must_ask e'.
Proof. intros H1 H2 [Hd Hn]. split; [done|]. intros now. rewrite <- (Hn now). by apply isApproved_frame. Qed.

Abbreviation enforced := (enforce localeLe digest config cfg opts active inv).

(** Such a call is its one question. *)
Lemma enforce_asks y w w' v :
  must_ask (engine w) → y_aborted y = false → askd (y_fresh y) false (v_path inv, d) w = (w', Answered v) →
  enforced (λ _, y) w
  = (w', Finished (if allowed v then mkVerdict true d (outcome v) false None else v)).
Proof using Hdirect.
  intros [Hd Hn] Hy E. unfold enforce, firstDecision, decisions, affected.
  rewrite (dc_path _ Hdirect). cbn [fmap list_fmap List.find]. fold d. unfold denies at 1.
  cbn [snd enforceFrom length]. rewrite Hd, !bool_decide_false, Hn, Hy, E by done.
  by destruct (allowed v).
Qed.

(** Once its approval is used, the operation is refused until it is approved again. *)
Lemma used_up supply w i r now w' v :
  must_ask (engine w) → asked_as i r (engine w) → Approvals.consumedAt r = Some now →
  enforced supply w = (w', Finished v) → allowed v = false.
Proof using digest_hex Hdirect.
  intros [Hd Hn] (t & Ht & (Hok & Hr & Hone) & _) Hc E. unfold enforce, decisions, affected in E.
  rewrite (dc_path _ Hdirect) in E. cbn [fmap list_fmap List.find] in E. fold d in E. unfold denies at 1 in E.
  cbn [snd] in E. rewrite Hd, bool_decide_false in E by done.
  eapply enforceFrom_spent in E as (t' & _ & Hp); [|exact digest_hex|exact Ht].
  destruct (allowed v) eqn:Ev; [|done]. destruct Hp as (past & left & Hu & Hst & _ & HF).
  rewrite (Hst Ev), app_nil_r in Hu. subst past. cbn [uncovered] in HF. unfold covered in HF.
  cbn [snd] in HF. rewrite Hn, bool_decide_false in HF by (by rewrite Hd). cbn [orb] in HF.
  apply Forall_cons in HF as [Hown _]. exfalso. revert Hown. apply not_own. intros x Hx Hhx.
  apply by_key_Some in Hr as [Hin Hi].
  assert (x = r) as -> by (apply (keyed_inj Approvals.aid t); [apply Hok|done..|]; by rewrite (Hone x Hx Hhx)).
  unfold Approvals.usable, Approvals.unconsumed. rewrite Hc. by rewrite !andb_false_r.
Qed.
End Flow.


(** ** Denials *)

Lemma ask_decision localeLe digest {S : Type} cfg opts active inv f ab p d
  (w w' : World S) v :
  ask localeLe digest cfg opts active inv f ab (p, d) w = (w', Answered v) → decision v = d.
Proof.
  unfold ask. intros E.
  destruct (rowKeyOf _ _ _ _ _ _) as [e1 rk]. destruct (findPendingByKey _ _ _) as [e2 ex].
  destruct (match ex with Some _ => _ | None => consumeApprovedOperation _ _ _ end) as [e3 b].
  destruct b; [by injection E as _ <-|].
  destruct (match ex with Some _ => _ | None => consumeDirect _ _ _ _ end) as [e4 b].
  destruct b; [by injection E as _ <-|]. cbv zeta in E. destruct ab; [by injection E as _ <-|].
  destruct (publish _ _ _ _ _ _ _ _ _ _ _ _) as [w2 [x|]]; [done|].
  destruct (blocking inv); [done|]. by injection E as _ <-.
Qed.

Lemma enforceFrom_decision localeLe digest {S : Type} `{!Grants.GrantStore S} cfg opts active inv
  (P : PolicyDecision → Prop) first last supply es (w w' : World S) v :
  P first → (∀ en, en ∈ es → P en.2) →
  enforceFrom localeLe digest cfg opts active inv first last supply es w = (w', Finished v) → P (decision v).
Proof.
  intros Hf. revert last w. induction es as [|[p d] es IH]; intros last w Hes E; cbn [enforceFrom] in E.
  - by injection E as _ <-.
  - assert (Hes' : ∀ en, en ∈ es → P en.2) by (intros en Hen; apply Hes; by right).
    destruct (bool_decide _); [by eapply IH|]. destruct (isApproved _ _ _ _ _); [by eapply IH|].
    destruct (ask _ _ _ _ _ _ _ _ _ _) as [w1 [v1|x|x]] eqn:Ek; [|done..].
    destruct (allowed v1); [by eapply IH|]. injection E as _ <-.
    apply ask_decision in Ek as ->. apply (Hes (p, d)). by left.
Qed.

(** C27: A denial is decided before anything is asked.  When the policy denies one of a call's paths,
    the call is refused by a denial and nothing else happens: no approval is used, no request
    made, no event appended, whatever the other paths would need; and when it denies none, no
    verdict of the call is a denial. *)
Theorem denial_is_preflight (localeLe : jsstr → jsstr → bool) digest {S : Type} `{!Grants.GrantStore S}
  config cfg opts active inv supply (w : World S) :
  let call := enforce localeLe digest config cfg opts active inv supply w in
  let verdict_on p := evaluate config (canonicalToolName (v_tool inv)) p in
  ((∃ p, p ∈ affected inv ∧ dmode (verdict_on p) = deny) →
     ∃ d, dmode d = deny ∧ call = (w, Finished (mkVerdict false d None false None)))
  ∧ ((∀ p, p ∈ affected inv → dmode (verdict_on p) ≠ deny) →
     ∀ w' v, call = (w', Finished v) → dmode (decision v) ≠ deny).
Proof.
  cbv zeta. unfold enforce. destruct (List.find (λ en, denies en.2) (decisions config inv)) as [[p d]|] eqn:Ef.
  - apply find_some_iff in Ef as [Hin Hd%bool_decide_eq_true]. cbn in Hd. split; [by exists d|].
    intros Hn. apply list_elem_of_fmap in Hin as (p' & [= -> ->] & Hin). by destruct (Hn p' Hin).
  - rewrite find_none_iff in Ef. split.
    + intros (p & Hin & Hd). exfalso.
      assert (Hen : (p, evaluate config (canonicalToolName (v_tool inv)) p) ∈ decisions config inv).
      { apply list_elem_of_fmap. by exists p. }
      specialize (Ef _ Hen). unfold denies in Ef. cbn in Ef. by rewrite bool_decide_true in Ef.
    + intros Hn w' v E. assert (Hes : ∀ en, en ∈ decisions config inv → dmode en.2 ≠ deny).
      { intros en (p & -> & Hin)%list_elem_of_fmap. by apply Hn. }
      eapply (enforceFrom_decision _ _ _ _ _ _ (λ d, dmode d ≠ deny)); [|exact Hes|exact E].
      unfold firstDecision. destruct (decisions config inv) as [|en es] eqn:Ed; [|apply Hes; by left].
      unfold decisions, affected in Ed. by destruct (v_paths inv) as [[]|].
Qed.

(** ** Waiting *)

Lemma detached_not_live {S : Type} cfg now i k (e : Engine S) :
  getLiveWaiterState i k (detachLiveWaiter cfg now i k e) ≠ Some live.
Proof.
  unfold getLiveWaiterState, detachLiveWaiter. destruct (liveWaitersByApproval e !! i) as [s|] eqn:E; [|by rewrite E].
  cbn. case_bool_decide; [by rewrite lookup_delete_eq|]. rewrite lookup_insert_eq. cbn.
  case_bool_decide; [set_solver|done].
Qed.

Lemma closeWith_spec {S : Type} x (r : Engine S * option Approvals.ApprovalError) v o (w w' : World S) a :
  closeWith x r v o w = (w', a) →
  (a = Answered v ∧ effects w' = effects w ++ [WaitEnd x o]) ∨ ((∃ err, a = Threw err) ∧ effects w' = effects w).
Proof. unfold closeWith. destruct r as [e [err|]]; intros [= <- <-]; [right; eauto|by left]. Qed.

(** The waiter of a wait is attached to its request no more. *)
Definition released {S : Type} (x : WaitContext) (e : Engine S) : Prop :=
  getLiveWaiterState (w_approvalId x) (w_liveWaiterId x) e ≠ Some live.

(** A wait ends once and releases its waiter.  Whatever happened to the engine meanwhile, a call
    that wakes up detaches its waiter; unless resolving its request throws, it reports the end of
    the wait exactly once, with the outcome of its verdict; and it is let through only by an event
    that says approve, while its caller is still there. *)
Theorem wait_settles {S : Type} `{!Grants.GrantStore S} cfg inv s aborted ev x (w w' : World S) r :
  settle cfg inv s aborted ev x w = (w', r) →
  released x (engine w')
  ∧ match r with
    | Answered v =>
        ∃ o, outcome v = Some o ∧ effects w' = effects w ++ [WaitEnd x o]
             ∧ (allowed v = true ↔ o = o_approved)
             ∧ (allowed v = true → aborted = false ∧ waiterGone x (engine w) = false
                                   ∧ ∃ p, ev = Some p ∧ d_decision p = Some (js "approve"))
    | Threw _ => effects w' = effects w
    | Waits _ => False
    end.
Proof.
  unfold settle. destruct (decideWait _ _ _ _ _ _ _) as [w1 a] eqn:E. intros [= <- <-].
  split; [apply detached_not_live|]. cbn [effects set_engine].
  unfold decideWait in E. cbv zeta in E.
  destruct aborted; [injection E as <- <-; by exists o_caller_gone|].
  destruct ev as [p|].
  2:{ apply closeWith_spec in E as [[-> ->]|[[err ->] ->]]; [by exists o_timed_out|done]. }
  destruct (default (js "deny") (d_decision p) =s "approve") eqn:Ed; cbn [negb] in E.
  2:{ apply closeWith_spec in E as [[-> ->]|[[err ->] ->]]; [|done]. eexists. split_and!; [done..| |done].
      by destruct (waiterGone x (engine w)). }
  destruct (resolveAt _ _ _ _ _ _) as [e2 err]. destruct (waiterGone x (engine w)) eqn:Eg.
  - apply closeWith_spec in E as [[-> ->]|[[er ->] ->]]; [by exists o_caller_gone|done].
  - apply closeWith_spec in E as [[-> ->]|[[er ->] ->]]; [|done]. exists o_approved. split_and!; [done..|].
    intros _. split_and!; [done..|]. exists p. split; [done|]. apply js_eqb_eq in Ed.
    destruct (d_decision p) as [t|]; [by f_equal|done].
Qed.

(** ** What a wait costs *)

Abbreviation usable_row := (Approvals.usable (λ _, true)).

Lemma image_gains {A} (p q : A → bool) g l :
  (∀ x, x ∈ l → q (g x) = true → p x = true ∨ q x = true) →
  length (List.filter q (List.map g l)) ≤ length (List.filter q l) + length (List.filter p l).
Proof.
  induction l as [|x l IH]; intros H; [done|]. cbn [List.map List.filter].
  specialize (IH ltac:(intros; apply H; [by right|done])). specialize (H x ltac:(by left)).
  destruct (q (g x)), (p x), (q x); cbn [length]; lia.
Qed.

Lemma image_loses {A} (q : A → bool) g l :
  (∀ x, x ∈ l → q x = true → q (g x) = true) →
  length (List.filter q l) ≤ length (List.filter q (List.map g l)).
Proof.
  induction l as [|x l IH]; intros H; [done|]. cbn [List.map List.filter].
  specialize (IH ltac:(intros; apply H; [by right|done])). specialize (H x ltac:(by left)).
  destruct (q x); [rewrite H by done|destruct (q (g x))]; cbn [length]; lia.
Qed.

(** The approvals of one execution that can be used in [t], of the operations [P], can be used in [t']. *)
Definition kept (P : option jsstr → Prop) (t t' : Approvals.Table) : Prop :=
  ∀ r, r ∈ t → usable_row r = true → P (Approvals.operationHash r) →
       ∃ r', r' ∈ t' ∧ usable_row r' = true ∧ Approvals.aid r' = Approvals.aid r
             ∧ Approvals.operationHash r' = Approvals.operationHash r.

Abbreviation all_kept := (kept (λ _, True)).

Lemma kept_weaken (P Q : option jsstr → Prop) t t' : (∀ h, Q h → P h) → kept P t t' → kept Q t t'.
Proof. intros H Hk r Hr Hu HQ. apply Hk; auto. Qed.

Lemma kept_trans P t1 t2 t3 : kept P t1 t2 → kept P t2 t3 → kept P t1 t3.
Proof.
  intros H1 H2 r Hr Hu HP. destruct (H1 r Hr Hu HP) as (r2 & Hr2 & Hu2 & <- & Ho).
  destruct (H2 r2 Hr2 Hu2) as (r3 & ? & ? & ? & ?); [by rewrite Ho|]. exists r3. split_and!; [done..|congruence].
Qed.

(** The request [i] was decided, which made at most [n] approvals, and that one is of [i]; none is
    lost and rows keep their keys. *)
Record decided_by (i : jsstr) (n : nat) (t t' : Approvals.Table) : Prop := {
  db_ok : durable_ok t';
  db_kept : all_kept t t';
  db_least : spendable t ≤ spendable t';
  db_most : spendable t' ≤ spendable t + n;
  db_none : (∀ r, r ∈ t' → Approvals.aid r = i → usable_row r = false) → spendable t' ≤ spendable t;
  db_keys : ∀ r', r' ∈ t' → ∃ r, r ∈ t ∧ Approvals.aid r = Approvals.aid r'
                                 ∧ Approvals.waiterKey r = Approvals.waiterKey r'
}.

(** A step that neither decides nor uses anything *)
Definition quiet (t t' : Approvals.Table) : Prop := ∃ g, t' = List.map g t ∧ ∀ r, r ∈ t → idle r (g r).

Lemma quiet_refl t : quiet t t.
Proof. exists id. split; [by rewrite List.map_id|done]. Qed.

Lemma quiet_expire now l t : durable_ok t → quiet t (Approvals.expirePending now l t).1.
Proof.
  intros Hok. destruct (Approvals.expire_rows now l t (proj1 Hok)) as (g & -> & Hg). exists g.
  split; [done|]. intros r Hr. destruct (Hg r Hr) as [->|[Hd ->]]; [apply idle_refl|by apply idle_expired].
Qed.

Lemma quiet_update p f t : (∀ r, idle r (f r)) → quiet t (update_where p f t).1.
Proof. intros Hf. eexists. split; [done|]. intros r _. cbn. by destruct (p r). Qed.

Lemma quiet_uses t t' : durable_ok t → quiet t t' → durable_ok t' ∧ spendable t = spendable t'.
Proof. intros Hok (g & -> & Hg). by destruct (idle_map g t Hg Hok) as (? & ? & _). Qed.

Lemma quiet_kept P t t' : quiet t t' → kept P t t'.
Proof.
  intros (g & -> & Hg) r Hr Hu _. destruct (Hg r Hr) as (Ha & _ & Ho & Hu'). exists (g r).
  split_and!; [by apply elem_of_Lmap; exists r|congruence|done..].
Qed.

Lemma quiet_decided i t t' : durable_ok t → quiet t t' → decided_by i 0 t t'.
Proof.
  intros Hok Hq. destruct (quiet_uses t t' Hok Hq) as [Hok' E].
  constructor; [done|by apply quiet_kept|lia..|]. intros r' Hr'. destruct Hq as (g & -> & Hg).
  apply elem_of_Lmap in Hr' as (r & -> & Hr). destruct (Hg r Hr) as (? & ? & _). exists r. by split_and!.
Qed.

Lemma decided_after i n t1 t2 t3 : quiet t1 t2 → durable_ok t1 → decided_by i n t2 t3 → decided_by i n t1 t3.
Proof.
  intros Hq Hok []. destruct (quiet_decided i t1 t2 Hok Hq).
  constructor; [done|by eapply kept_trans|lia|lia|intros Hn; specialize (db_none0 Hn); lia|].
  intros r3 Hr3. destruct (db_keys0 r3 Hr3) as (r2 & Hr2 & <- & <-). by apply db_keys1.
Qed.

Lemma decided_before i n t1 t2 t3 : decided_by i n t1 t2 → quiet t2 t3 → decided_by i n t1 t3.
Proof.
  intros Hd Hq. pose proof (quiet_decided i t2 t3 (db_ok _ _ _ _ Hd) Hq) as []. destruct Hd.
  constructor; [done|by eapply kept_trans|lia|lia| |].
  - intros Hn. enough (spendable t2 ≤ spendable t1) by lia. apply db_none1. intros r Hr Hi.
    destruct Hq as (g & -> & Hg). destruct (Hg r Hr) as (Ea & _ & _ & <-).
    apply Hn; [by apply elem_of_Lmap; exists r|congruence].
  - intros r3 Hr3. destruct (db_keys0 r3 Hr3) as (r2 & Hr2 & <- & <-). by apply db_keys1.
Qed.

#[local] Existing Instance Approvals.ApprovalStatus_eq_dec.

(** What a decision gives leave for: one execution, when it approves for that. *)
Definition leave (st : Approvals.ApprovalStatus) (sc : option ApprovalScope) : nat :=
  Nat.b2n (bool_decide (st = Approvals.approved) && bool_decide (sc = Some once)).

(** Deciding the pending request [i] *)
Lemma decide_row i st now res t :
  durable_ok t →
  decided_by i (leave st (Approvals.r_scope res)) t
    (update_where (λ r, (Approvals.aid r =s i) && Approvals.is_pending r) (Approvals.set_status st now res) t).1.
Proof.
  intros Hok. set (p := λ r, _ && _). set (f := Approvals.set_status st now res).
  assert (Hkeep : keeps f) by (by intros []).
  assert (Hnp : ∀ r, p r = true → usable_row r = false).
  { intros r [_ Hp%Approvals.pending_spec]%andb_true_iff. unfold Approvals.usable, Approvals.unconsumed.
    by rewrite Hp. }
  assert (Hf : ∀ r, usable_row (f r) = true → leave st (Approvals.r_scope res) = 1).
  { intros r Hu. unfold Approvals.usable, Approvals.unconsumed, Approvals.scope_once in Hu. cbn in Hu.
    destruct st; try done. guards. unfold leave. by rewrite !bool_decide_true. }
  assert (Hgain : ∀ q, (∀ r, r ∈ t → usable_row (if p r then f r else r) = true → q r = true ∨ usable_row r = true) →
    spendable (update_where p f t).1 ≤ spendable t + length (List.filter q t)).
  { intros q. apply image_gains. }
  assert (Hlose : ∀ r, usable_row r = true → (if p r then f r else r) = r).
  { intros r Hu. destruct (p r) eqn:Hp; [|done]. by rewrite (Hnp r Hp) in Hu. }
  constructor.
  - by apply durable_update.
  - intros r Hr Hu _. exists r. split_and!; [|done..]. apply elem_of_update_where. exists r. by rewrite Hlose.
  - apply image_loses. intros r _ Hu. by rewrite Hlose.
  - destruct (leave st (Approvals.r_scope res)) as [|n] eqn:Hs.
    + specialize (Hgain (λ _, false)). lapply Hgain; [rewrite Lfilter_none by done; cbn; lia|].
      intros r _ Hu. right. destruct (p r) eqn:Hp; [|done]. by apply Hf in Hu.
    + assert (Hone : length (List.filter p t) ≤ 1).
      { change (length (List.filter p t)) with (update_where p f t).2.
        rewrite (changes_keyed Approvals.aid p f t i (proj1 Hok)).
        - destruct (by_key _ _ _) as [x|]; [destruct (p x)|]; lia.
        - intros r [Ha _]%andb_true_iff. by apply js_eqb_eq. }
      specialize (Hgain p). lapply Hgain; [lia|]. intros r _ Hu. destruct (p r); auto.
  - intros Hn. specialize (Hgain (λ _, false)). lapply Hgain; [rewrite Lfilter_none by done; cbn; lia|].
    intros r Hr Hu. right. destruct (p r) eqn:Hp; [|done]. pose proof Hp as [Ha%js_eqb_eq _]%andb_true_iff.
    assert (Hin : f r ∈ (update_where p f t).1) by (apply elem_of_update_where; exists r; by rewrite Hp).
    rewrite (Hn _ Hin) in Hu; [done|]. by destruct (Hkeep r) as (-> & _).
  - intros r' (r & Hr & ->)%elem_of_update_where. exists r. destruct (Hkeep r) as (? & ? & _).
    destruct (p r); by split_and!.
Qed.

Section Waits.
Context {S : Type} `{!Grants.GrantStore S}.
Implicit Types (e : Engine S) (w : World S).

(** Resolving a request, which does not fail when it is not resolved to pending *)
Lemma resolvePending_decides t0 t1 t2 t3 i st reason sc e t :
  stored e t → st ≠ Approvals.pending →
  ∃ e' t', resolvePending t0 t1 t2 t3 i st reason sc None e = (e', None) ∧ stored e' t'
           ∧ decided_by i (leave st sc) t t'.
Proof.
  intros (Ht & Hok & Hb) Hst. unfold resolvePending. rewrite Ht. unfold Approvals.get at 1. cbn [truthy].
  set (ta := (Approvals.expirePending t0 100 t).1). set (input := Approvals.mkResolve _ _ _ _ _ _).
  assert (Qa : quiet t ta) by (by apply quiet_expire). assert (Hoka : durable_ok ta) by (by apply (quiet_uses t)).
  set (tb := (Approvals.expirePending t1 100 ta).1).
  assert (Qb : quiet ta tb) by (by apply quiet_expire). assert (Hokb : durable_ok tb) by (by apply (quiet_uses ta)).
  enough (∃ t' o, Approvals.resolve t1 t2 t3 i input ta = Ok (t', o) ∧ decided_by i (leave st sc) tb t')
    as (t' & o & -> & Hd).
  { eexists _, t'. split; [done|]. split; [|by eapply decided_after, decided_after].
    split_and!; [done|by apply (db_ok _ _ _ _ Hd)|]. intros kv [Hkv _]%elem_of_Lfilter. by apply Hb. }
  assert (Hnone : decided_by i (leave st sc) tb tb).
  { destruct (quiet_decided i tb tb Hokb (quiet_refl tb)). constructor; auto with lia. }
  unfold Approvals.resolve. rewrite bool_decide_false by done. cbn [reject mbind res_bind].
  unfold Approvals.get at 1. cbv zeta. fold tb.
  destruct (by_key Approvals.aid i tb) as [r|]; [|by eexists _, _].
  destruct (Approvals.is_pending r); cbn [negb]; [|by eexists _, _].
  unfold Approvals.decisionScope. cbn [Approvals.i_effect Approvals.i_option input reject mbind res_bind].
  pose proof (decide_row i st t2 (Approvals.mkResolution None None sc reason None) tb Hokb) as Hd.
  eexists _, _. split; [done|]. eapply decided_before; [exact Hd|]. by apply quiet_expire, Hd.
Qed.

Lemma detach_quiet cfg now i k e t :
  stored e t → ∃ t', stored (detachLiveWaiter cfg now i k e) t' ∧ quiet t t'.
Proof.
  intros (Ht & Hok & Hb). unfold detachLiveWaiter.
  destruct (liveWaitersByApproval e !! i) as [l|]; [|by exists t; split; [|apply quiet_refl]].
  assert (Hq : quiet t (Approvals.detachLiveWaiter cfg now i k t)) by (by apply quiet_update).
  rewrite Ht. eexists. split; [|exact Hq]. split_and!; [done|by apply (quiet_uses t)|done].
Qed.

Lemma recordApproval_stored now u p k sc ctx rv e t : stored e t → stored (recordApproval now u p k sc ctx rv e) t.
Proof. intros (? & ? & ?). rewrite recordApproval_right. destruct (right_of _ _ _ _); by split_and!. Qed.

(** Requests by the id of a wait go by its waiter key. *)
Definition waits_on (x : WaitContext) (t : Approvals.Table) : Prop :=
  ∀ r, r ∈ t → Approvals.aid r = w_approvalId x → Approvals.waiterKey r = Some (w_waiterKey x).

(** Once its request is approved, a wait consumes an approval of its waiter key. *)
Lemma consume_after now x h e t t1 :
  decided_by (w_approvalId x) 1 t t1 → stored e t1 → waits_on x t →
  hex_like h → names (w_waiterKey x) h →
  ∃ t2, stored (consumeApprovedOperation now (w_waiterKey x) e).1 t2
        ∧ spendable t2 ≤ spendable t ≤ Datatypes.S (spendable t2)
        ∧ kept (λ o, o ≠ Some h) t t2.
Proof.
  intros Hd (Ht & Hok & Hb) Hw Hh Hn. unfold consumeApprovedOperation. rewrite Ht.
  pose proof (consumeWhere_spent (Approvals.byWaiterKey (w_waiterKey x)) now t1 Hok) as Hs.
  pose proof (Approvals.consumeWhere_spec (Approvals.byWaiterKey (w_waiterKey x)) now t1 (proj1 Hok)) as Hc.
  unfold Approvals.consumeApprovedOperation. destruct (Approvals.consumeWhere _ now t1) as [t2 b].
  destruct Hs as ((Hok2 & E & _) & _). exists t2. split; [by split_and!|]. destruct Hd.
  assert (K1 : kept (λ o, o ≠ Some h) t t1) by (eapply (kept_weaken (λ _, True)); done).
  destruct b; cbn [Nat.b2n] in E.
  - split; [lia|]. eapply kept_trans; [exact K1|]. destruct Hc as (c & Hc & [_ Hk%bool_decide_eq_true]%usable_any & ->).
    intros r Hr Hu Ho. exists r. split_and!; [|done..]. apply elem_of_update_where. exists r. split; [done|].
    destruct (Approvals.aid r =s Approvals.aid c) eqn:Ea; [|done]. exfalso. apply js_eqb_eq in Ea.
    assert (r = c) as -> by (by apply (keyed_inj Approvals.aid t1); [apply Hok|..]).
    destruct (proj2 Hok c Hc _ Hk) as (h' & Eh & Hh' & Hn'). apply Ho. rewrite Eh. f_equal. by eapply names_inj.
  - destruct Hc as [-> Hno]. split; [|done]. enough (spendable t1 ≤ spendable t) by lia. apply db_none0.
    intros r Hr Hi. specialize (Hno r Hr). destruct (db_keys0 r Hr) as (r0 & Hr0 & Ha & Hk).
    rewrite Hi in Ha. specialize (Hw r0 Hr0 Ha). unfold Approvals.usable, Approvals.byWaiterKey in *.
    by rewrite <- Hk, bool_decide_true in Hno.
Qed.

Lemma resolveAt_decides s i st reason sc e t :
  stored e t → st ≠ Approvals.pending →
  ∃ e' t', resolveAt s i st reason sc e = (e', None) ∧ stored e' t' ∧ decided_by i (leave st sc) t t'.
Proof. unfold resolveAt. destruct (s_resolve s) as [[[t0 t1] t2] t3]. apply resolvePending_decides. Qed.

(** An approval of one execution that comes after the caller has left *)
Definition late (aborted : bool) (ev : option Provided) (x : WaitContext) e : bool :=
  negb aborted && waiterGone x e
  && match ev with
     | Some p => (default (js "deny") (d_decision p) =s "approve") && bool_decide (default once (d_scope p) = once)
     | None => false
     end.

(** What a wait for the operation [h] costs, from [t] to [t'].  It lets the call through only on an
    approval of its request, while its caller is there; then it uses up what that approval adds and
    at most one more, of the operation.  Otherwise it uses nothing, and adds nothing but a late
    approval. *)
Definition wait_cost (h : jsstr) aborted ev (x : WaitContext) e (v : Verdict) (t t' : Approvals.Table) : Prop :=
  if allowed v then
    aborted = false ∧ waiterGone x e = false ∧ (∃ p, ev = Some p ∧ d_decision p = Some (js "approve"))
    ∧ spendable t' ≤ spendable t ≤ Datatypes.S (spendable t') ∧ kept (λ o, o ≠ Some h) t t'
  else spendable t ≤ spendable t' ≤ spendable t + Nat.b2n (late aborted ev x e) ∧ all_kept t t'.

Lemma wait_cost_quiet h aborted ev x e v t t1 t2 :
  durable_ok t1 → quiet t1 t2 → wait_cost h aborted ev x e v t t1 → wait_cost h aborted ev x e v t t2.
Proof.
  intros Hok Hq. destruct (quiet_uses t1 t2 Hok Hq) as [_ E]. unfold wait_cost. rewrite E.
  destruct (allowed v).
  - intros (? & ? & ? & [? ?] & Hk). split_and!; [done..|]. eapply kept_trans; [exact Hk|by apply quiet_kept].
  - intros (? & Hk). split; [done|]. eapply kept_trans; [exact Hk|by apply quiet_kept].
Qed.

(** A wait that ends with a decision which refuses the call *)
Lemma refused_cost h aborted ev x e d o n t t' :
  decided_by (w_approvalId x) n t t' → n ≤ Nat.b2n (late aborted ev x e) →
  wait_cost h aborted ev x e (refused d o) t t'.
Proof. intros [] Hn. unfold wait_cost. cbn [allowed refused]. split; [lia|done]. Qed.

Lemma decideWait_cost cfg inv s aborted ev x h w t w1 a :
  stored (engine w) t → waits_on x t → hex_like h → names (w_waiterKey x) h →
  decideWait cfg inv s aborted ev x w = (w1, a) →
  ∃ v t1, a = Answered v ∧ stored (engine w1) t1 ∧ wait_cost h aborted ev x (engine w) v t t1.
Proof.
  intros Ht Hw Hh Hn. unfold decideWait. cbv zeta. destruct aborted.
  { intros [= <- <-]. destruct (detach_quiet cfg (s_detach s) (w_approvalId x) (w_liveWaiterId x) _ t Ht) as (t1 & Ht1 & Hq).
    eexists _, t1. split_and!; [done|exact Ht1|]. eapply refused_cost; [|apply Nat.le_0_l].
    apply quiet_decided; [apply Ht|done]. }
  destruct ev as [p|].
  2:{ destruct (resolveAt_decides s (w_approvalId x) Approvals.expired "approval timed out" None _ t Ht) as (e' & t1 & -> & Ht1 & Hd);
        [done|]. intros [= <- <-]. eexists _, t1. split_and!; [done|exact Ht1|]. eapply refused_cost; [exact Hd|].
      unfold leave. rewrite bool_decide_false by done. apply Nat.le_0_l. }
  set (sc := default once (d_scope p)).
  destruct (default (js "deny") (d_decision p) =s "approve") eqn:Ea; cbn [negb].
  2:{ destruct (resolveAt_decides s (w_approvalId x) Approvals.denied (default (js "denied by reviewer") (d_reason p)) (Some sc) _ t Ht)
        as (e' & t1 & -> & Ht1 & Hd); [done|]. intros [= <- <-]. eexists _, t1. split_and!; [done|exact Ht1|].
      eapply refused_cost; [exact Hd|]. unfold leave. rewrite bool_decide_false by done. apply Nat.le_0_l. }
  set (e1 := recordApproval _ _ _ _ _ _ _ _).
  assert (Ht1 : stored e1 t) by (by apply recordApproval_stored).
  destruct (resolveAt_decides s (w_approvalId x) Approvals.approved (default (js "approved by reviewer") (d_reason p)) (Some sc) e1 t Ht1)
    as (e2 & t2 & -> & Ht2 & Hd); [done|]. unfold leave in Hd. rewrite bool_decide_true in Hd by done.
  destruct (waiterGone x (engine w)) eqn:Eg.
  { intros [= <- <-]. eexists _, t2. split_and!; [done|exact Ht2|]. eapply refused_cost; [exact Hd|].
    unfold late. rewrite Eg, Ea. cbn [negb andb]. fold sc. repeat case_bool_decide; cbn; lia || congruence. }
  intros [= <- <-]. assert (Hp : d_decision p = Some (js "approve")).
  { apply js_eqb_eq in Ea. destruct (d_decision p) as [y|]; [by f_equal|done]. }
  enough (∃ t3, stored (match sc with once => (consumeApprovedOperation (s_consume s) (w_waiterKey x) e2).1 | _ => e2 end) t3
                ∧ spendable t3 ≤ spendable t ≤ Datatypes.S (spendable t3) ∧ kept (λ o, o ≠ Some h) t t3)
    as (t3 & Ht3 & Hc & Hk).
  { eexists _, t3. split_and!; [done|by destruct sc|]. unfold wait_cost. cbn [allowed granted]. split_and!; eauto; lia. }
  assert (Hother : sc ≠ once → spendable t2 ≤ spendable t ≤ Datatypes.S (spendable t2) ∧ kept (λ o, o ≠ Some h) t t2).
  { intros Hsc. rewrite bool_decide_false in Hd by congruence. destruct Hd. cbn in db_most0. split; [lia|].
    by eapply (kept_weaken (λ _, True)). }
  destruct sc; [|by exists t2; destruct Hother..]. cbn in Hd. by eapply consume_after.
Qed.

Lemma settle_cost cfg inv s aborted ev x h w t w1 a :
  stored (engine w) t → waits_on x t → hex_like h → names (w_waiterKey x) h →
  settle cfg inv s aborted ev x w = (w1, a) →
  ∃ v t1, a = Answered v ∧ stored (engine w1) t1 ∧ wait_cost h aborted ev x (engine w) v t t1.
Proof.
  intros Ht Hw Hh Hn. unfold settle. destruct (decideWait _ _ _ _ _ _ _) as [w2 a2] eqn:E. intros [= <- <-].
  destruct (decideWait_cost _ _ _ _ _ _ _ _ _ _ _ Ht Hw Hh Hn E) as (v & t2 & -> & Ht2 & Hc).
  destruct (detach_quiet cfg (s_finally s) (w_approvalId x) (w_liveWaiterId x) _ _ Ht2) as (t3 & Ht3 & Hq).
  exists v, t3. split_and!; [done|exact Ht3|]. eapply wait_cost_quiet; [apply Ht2|exact Hq|exact Hc].
Qed.
End Waits.

(** ** A whole call *)

Section WholeCall.
Context (localeLe : jsstr → jsstr → bool) (digest : OperationText → jsstr).
Hypothesis digest_hex : ∀ x, hex_like (digest x).
Context {S : Type} `{!Grants.GrantStore S}.
Context (config : PolicyConfig) (cfg : Approvals.Config) (opts : Options)
  (active : jsstr → option bool) (inv : Invocation).
Implicit Types (e : Engine S) (w : World S).

(** A new request goes by the key of its wait. *)
Lemma addPending_waits_on now (r : Request) e e' t x t' :
  stored e t → addPending cfg now active r e = (e', None) → approvalRequests e' = Some t' →
  q_id r = w_approvalId x → q_waiterKey r = Some (w_waiterKey x) → waits_on x t'.
Proof.
  intros (Ht & _) E Ht' Hi Hk. unfold addPending in E. rewrite Ht in E.
  destruct (Approvals.create cfg now [] active (createInput r) t) as [[row t2]|y] eqn:Ec; [|done].
  injection E as <-. injection Ht' as <-. unfold Approvals.create in Ec.
  apply bind_Ok in Ec as (_ & _ & Ec). apply bind_Ok in Ec as (_ & Hn%ensure_Ok & Ec). injection Ec as <- <-.
  intros r' [Hr'| ->%list_elem_of_singleton]%elem_of_app Ha; [|exact Hk]. exfalso.
  destruct (by_key _ _ t) eqn:Eb; [done|]. rewrite by_key_None in Eb. apply (Eb r' Hr').
  by rewrite Ha, <- Hi.
Qed.

Lemma ask_waits_on f ab p d w w' x t t' :
  stored (engine w) t → ask localeLe digest cfg opts active inv f ab (p, d) w = (w', Waits x) →
  w_coalesced x = false → approvalRequests (engine w') = Some t' → waits_on x t'.
Proof using digest_hex.
  intros Ht E Hco Ht'. unfold ask in E.
  pose proof (proj1 (rowKeyOf_spec localeLe digest inv f d p (engine w) t Ht)) as S1.
  destruct (rowKeyOf _ f _ _ p _) as [e1 rowKey]. cbn in S1.
  pose proof (findPendingByKey_spent (t_find f) rowKey e1) as S2.
  destruct (findPendingByKey _ rowKey e1) as [e2 [r|]]; cbn in S2.
  { cbv zeta in E. rewrite bool_decide_true in E by done. destruct ab; [done|].
    destruct (publish _ _ _ _ _ _ _ _ _ _ _ _) as [w2 [|]]; [done|]. destruct (blocking inv); [|done].
    by injection E as _ <-. }
  pose proof (consumeOperation_spent (t_consume f) rowKey e2) as S3.
  destruct (consumeApprovedOperation _ _ e2) as [e3 [|]]; [done|].
  pose proof (consumeDirect_spent inv f (canonicalOperationHash localeLe digest inv (approvalKey d) p) e3) as S4.
  destruct (consumeDirect _ _ _ e3) as [e4 [|]]; [done|]. cbn in S3, S4. cbv zeta in E.
  assert (S14 : spent 0 (engine w) e4) by (by do 3 (eapply (spent_trans 0 0); [eassumption|])).
  destruct (proj2 S14 t Ht) as (t4 & Ht4 & _).
  rewrite bool_decide_false in E by (by intros []). cbn [andb] in E. destruct ab; [done|].
  unfold publish in E.
  destruct (addPending _ _ _ _ _) as [e6 err] eqn:Ea. destruct err as [|]; [done|].
  destruct (blocking inv); [|done]. injection E as <- <-.
  eapply (addPending_waits_on _ _ e4); [exact Ht4|exact Ea|exact Ht'|done..].
Qed.

Lemma enforceFrom_waits_on first last supply es w t w' x rest t' :
  stored (engine w) t →
  enforceFrom localeLe digest cfg opts active inv first last supply es w = (w', Suspended x rest) →
  w_coalesced x = false → approvalRequests (engine w') = Some t' → waits_on x t'.
Proof using digest_hex.
  revert last w t. induction es as [|[p d] es IH]; intros last w t Ht E Hco Ht'; cbn [enforceFrom] in E; [done|].
  destruct (bool_decide _); [by eapply IH|]. destruct (isApproved _ _ _ _ _); [by eapply IH|].
  destruct (ask _ _ _ _ _ _ _ _ _ w) as [w1 a] eqn:Ek.
  destruct (ask_spent localeLe digest digest_hex cfg opts active inv _ _ _ _ _ _ _ _ Ht Ek) as [[_ Hs] _].
  destruct (Hs t Ht) as (t1 & Ht1 & _).
  destruct a as [v|y|y]; [|done|].
  - destruct (allowed v); [by eapply IH|done].
  - injection E as <- <- _. eapply ask_waits_on; [exact Ht|exact Ek|exact Hco|exact Ht'].
Qed.

Lemma enforce_stretch supply w t w' r :
  stored (engine w) t → enforce localeLe digest config cfg opts active inv supply w = (w', r) →
  ∃ t', stored (engine w') t' ∧ stretch localeLe digest inv supply (decisions config inv) (engine w) r t t'
        ∧ ∀ x rest, r = Suspended x rest → w_coalesced x = false → waits_on x t'.
Proof using digest_hex.
  intros Ht E. unfold enforce in E. destruct (List.find _ _).
  - injection E as <- <-. exists t. split; [done|]. split; [by eexists [], _|done].
  - pose proof E as E'. eapply enforceFrom_spent in E as (t' & Ht' & Hs); [|exact digest_hex|exact Ht].
    exists t'. split_and!; [done..|]. intros x rest -> Hco.
    eapply enforceFrom_waits_on; [exact Ht|exact E'|exact Hco|apply Ht'].
Qed.
End WholeCall.

(** C6: A call uses its own approvals.  Over the durable store, what a call does before its first
    wait, and again between two waits, uses exactly one approval of one execution for each path it
    gets past that policy and scoped approvals leave uncovered, given for that very operation; a
    call that is let through got past all of them, and one that waits does so for the next.  A wait
    for a request that goes by its key, as the requests a call makes itself do, always ends with an
    answer.  It lets the call through only on an approval of its request, while
    the caller is there: then what that approval adds is used up, and at most one more, never of
    another operation.  A refusal uses no approval, and adds none but the one for an execution that
    came after its caller had left. *)
Theorem call_uses_its_own_approvals (localeLe : jsstr → jsstr → bool) digest
  {S : Type} `{!Grants.GrantStore S} config cfg opts active inv :
  (∀ x, hex_like (digest x)) →
  let hash x p := canonicalOperationHash localeLe digest inv (approvalKey (w_decision x)) p in
  (∀ supply (w w' : World S) t r,
     stored (engine w) t → enforce localeLe digest config cfg opts active inv supply w = (w', r) →
     ∃ t', stored (engine w') t'
       ∧ stretch localeLe digest inv supply (decisions config inv) (engine w) r t t'
       ∧ ∀ x rest, r = Suspended x rest → w_coalesced x = false → waits_on x t')
  ∧ (∀ s aborted ev supply x rest p (w w' : World S) t r,
       stored (engine w) t → waits_on x t → names (w_waiterKey x) (hash x p) →
       wake localeLe digest config cfg opts active inv s aborted ev supply x rest w = (w', r) →
       ∃ w1 v t1 t',
         settle cfg inv s aborted ev x w = (w1, Answered v) ∧ stored (engine w1) t1 ∧ stored (engine w') t'
         ∧ wait_cost (hash x p) aborted ev x (engine w) v t t1
         ∧ if allowed v then stretch localeLe digest inv supply rest (engine w1) r t1 t'
           else r = Finished v ∧ w' = w1).
Proof.
  intros Hd hash. split; [intros supply w w' t r; by apply enforce_stretch|].
  intros s aborted ev supply x rest p w w' t r Ht Hw Hn E. unfold wake in E.
  destruct (settle cfg inv s aborted ev x w) as [w1 a] eqn:Es.
  destruct (settle_cost _ _ _ _ _ _ _ _ _ _ _ Ht Hw (Hd _) Hn Es) as (v & t1 & -> & Ht1 & Hc).
  exists w1, v, t1. destruct (allowed v) eqn:Ev.
  - eapply enforceFrom_spent in E as (t' & Ht' & Hs); [|exact Hd|exact Ht1]. by exists t'.
  - injection E as <- <-. by exists t1.
Qed.

(** ** A sample call *)

#[local] Existing Instance Grants.sqlite_store.

Definition sampleLe (a b : jsstr) : bool := negb (js_ltb b a).

(** A digest that keeps the operation's tool and command. *)
Definition sampleDigest (x : OperationText) : jsstr :=
  List.filter (λ c, negb (N.eqb c COLON)) (t_tool x +s "_" +s t_command x).

Lemma sampleDigest_hex x : hex_like (sampleDigest x).
Proof. unfold hex_like, sampleDigest. by intros [_ H]%elem_of_Lfilter. Qed.

Definition sampleConfig : PolicyConfig :=
  mkConfig allow {[js "bash" := Policy.ask; js "edit" := deny]} [].

Definition sampleCall (tool : jsstr) : Invocation :=
  mkInvocation "p" client "w" None (Some (js "own")) None tool None None (Some (js "ls")) None (Some false)
    None None None (Some (js "mcp")) None.

Definition at_time (n : Z) (u : jsstr) : Fresh := mkFresh n n n n n n n n n u u u.

Definition runSample {S : Type} `{!Grants.GrantStore S} (tool : jsstr) (n : Z) (u : jsstr) (w : World S)
  : World S * Progress :=
  enforce sampleLe sampleDigest sampleConfig Approvals.DEFAULT_CONFIG DEFAULT_OPTIONS (λ _, None)
    (sampleCall tool) (λ _, mkSupply n (at_time n u) false) w.

(** Whether the call ended, and was let through. *)
Definition letThrough (p : Progress) : option bool :=
  match p with Finished v => Some (allowed v) | _ => None end.

Definition startOf (t : option Approvals.Table) : World Grants.Table := mkWorld (emptyEngine None t) [].

(** Asked, approved once, and called three more times. *)
Definition approvedOnce (t : option Approvals.Table) : list (option bool) :=
  let '(w1, r1) := runSample "bash" 1 "a" (startOf t) in
  let '(e2, _) := resolvePending 2 2 2 2 "pol_a" Approvals.approved None (Some once) None (engine w1) in
  let '(w3, r3) := runSample "bash" 3 "b" (mkWorld e2 (effects w1)) in
  let '(w4, r4) := runSample "bash" 4 "c" w3 in
  let '(w5, r5) := runSample "bash" 5 "d" w4 in
  letThrough <$> [r1; r3; r4; r5].

(** Without the durable store an approval of one execution runs two.  The engine that keeps
    approvals in memory notes an approved direct operation twice, by its waiter key and by its
    identity, and each note lets one call through; the durable store lets one. *)
Theorem in_memory_once_runs_twice :
  approvedOnce None = [Some false; Some true; Some true; Some false]
  ∧ approvedOnce (Some []) = [Some false; Some true; Some false; Some false].
Proof. split; vm_compute; reflexivity. Qed.


(** The same call through a host that waits for the decision. *)
Definition waitingCall : Invocation :=
  mkInvocation "p" client "w" None (Some (js "own")) None "bash" None None (Some (js "ls")) None None
    None None None (Some (js "mcp")) None.

Definition runWaiting (n : Z) (u : jsstr) (w : World Grants.Table) : World Grants.Table * Progress :=
  enforce sampleLe sampleDigest sampleConfig Approvals.DEFAULT_CONFIG DEFAULT_OPTIONS (λ _, None)
    waitingCall (λ _, mkSupply n (at_time n u) false) w.

Definition approveAt (n : Z) (u : jsstr) (x : WaitContext) (w : World Grants.Table) : World Grants.Table * Asked :=
  settle Approvals.DEFAULT_CONFIG waitingCall (mkSettling n u (n, n, n, n)%Z n n n) false
    (Some (mkProvided (Some (js "approve")) (Some once) None)) x w.

Definition waitOf (p : Progress) : WaitContext :=
  match p with Suspended x _ => x | _ => mkWait [] [] [] None false (mkDecision deny [] src_default None) end.

(** Two calls wait for the one request of their operation, which is approved once. *)
Definition sharedWait : list (option bool) :=
  let '(w1, r1) := runWaiting 1 "a" (startOf (Some [])) in
  let '(w2, r2) := runWaiting 2 "b" w1 in
  let '(w3, a3) := approveAt 3 "g" (waitOf r1) w2 in
  let '(w4, a4) := approveAt 4 "g" (waitOf r2) w3 in
  (λ a, match a with Answered v => Some (allowed v) | _ => None end) <$> [a3; a4].

(** Calls that wait for the same request share its approval.  A call that finds the request of its
    operation pending waits for it too, both wake up by the one event, and the second goes on
    although there is nothing left for it to consume. *)
Example shared_wait_runs_twice : sharedWait = [Some true; Some true].
Proof. vm_compute. reflexivity. Qed.

Lemma call_uses_its_own_approvals_witness :
  let '(w1, r1) := runWaiting 1 "a" (startOf (Some [])) in
  let '(w2, a) := approveAt 2 "g" (waitOf r1) w1 in
  ∃ v t1 t2, a = Answered v ∧ allowed v = true ∧ stored (engine w1) t1 ∧ stored (engine w2) t2
             ∧ spendable t2 ≤ spendable t1 ≤ Datatypes.S (spendable t2).
Proof.
  assert (Ht : stored (engine (startOf (Some []))) []).
  { split_and!; [done|split; [apply NoDup_nil_2|]|]; intros x Hx; by apply not_elem_of_nil in Hx. }
  destruct (call_uses_its_own_approvals sampleLe sampleDigest sampleConfig Approvals.DEFAULT_CONFIG DEFAULT_OPTIONS
    (λ _, None) waitingCall sampleDigest_hex) as [H1 H2].
  destruct (runWaiting 1 "a" (startOf (Some []))) as [w1 r1] eqn:E1.
  destruct (H1 _ _ w1 [] r1 Ht E1) as (t1 & Ht1 & _ & Hw).
  set (x := waitOf (runWaiting 1 "a" (startOf (Some []))).2).
  assert (Er : r1 = Suspended x []) by (change r1 with (w1, r1).2; rewrite <- E1; vm_compute; reflexivity).
  assert (Hco : w_coalesced x = false) by (vm_compute; reflexivity). subst r1. cbn [waitOf].
  specialize (Hw x [] eq_refl Hco).
  edestruct (H2 (mkSettling 2 "g" (2, 2, 2, 2)%Z 2 2 2) false (Some (mkProvided (Some (js "approve")) (Some once) None))
    (λ _, mkSupply 2 (at_time 2 "b") false) x [] None w1) as (w2 & v & t2 & t' & Es & Ht2 & _ & Hc & _);
    [exact Ht1|exact Hw|left; vm_compute; reflexivity|apply surjective_pairing|].
  unfold approveAt. rewrite Es. exists v, t1, t2.
  assert (Hv : allowed v = true).
  { transitivity (match (approveAt 2 "g" x w1).2 with Answered v => allowed v | _ => false end).
    - unfold approveAt. by rewrite Es.
    - change w1 with (w1, Suspended x []).1. rewrite <- E1. vm_compute. reflexivity. }
  unfold wait_cost in Hc. rewrite Hv in Hc. by destruct Hc as (_ & _ & _ & Hs & _).
Defined.

Lemma wait_settles_witness :
  let x := mkWait "pol_a" "k" "live" None false (mkDecision Policy.ask "tool:bash" src_tool (Some (js "bash"))) in
  let s := mkSettling 5 "g" (5, 5, 5, 5)%Z 5 5 5 in
  let e := reattachLiveWaiter "pol_a" "live" (engine (startOf (Some [rowOf sampleLe sampleDigest sampleConfig
             Approvals.DEFAULT_CONFIG DEFAULT_OPTIONS (sampleCall "bash") (at_time 1 "a")]))) in
  let r := settle Approvals.DEFAULT_CONFIG (sampleCall "bash") s false (Some (mkProvided (Some (js "approve")) None None)) x
             (mkWorld e []) in
  r.2 = Answered (granted (w_decision x)) ∧ effects r.1 = [WaitEnd x o_approved].
Proof.
  intros x s e r. assert (E : r.2 = Answered (granted (w_decision x))) by (vm_compute; reflexivity).
  split; [exact E|].
  destruct (wait_settles _ _ _ _ _ x (mkWorld e []) r.1 r.2 (surjective_pairing r)) as [_ H].
  rewrite E in H. destruct H as (o & [= <-] & -> & _). reflexivity.
Defined.

End EnforcementFacts.
