(* ===== verification/Admission.v ===== *)
(** * Bounded request admission ([src/src/server/mcp-admission.ts])

    [McpAdmission] gives weighted permits to requests, under a global cap and a cap per key, and
    parks what does not fit in a bounded queue.  The objects its closures share are kept in the
    state: a waiter is an index of [waiters], a permit (the [release] function [grant] returns) an
    index of [grants], an [AbortSignal] a number whose aborted ones are in [aborted].  Timers and
    abort events are steps of their own.  Counts are integers; a weight that is not an integer is
    [None]. *)

From S2P Require Import Prelude JsString.

Module McpAdmission.
Local Open Scope Z_scope.

(** ** Classes of requests *)

Definition named (o : option jsstr) (name : jsstr) : bool :=
  match o with Some x => x =s name | None => false end.

Definition is_one_of (o : option jsstr) (names : list jsstr) : bool := existsb (named o) names.

Definition heaviest_tools : list jsstr := [js "show_changes"; js "run_mission_verification"].
Definition searching_tools : list jsstr :=
  [js "grep"; js "glob"; js "find"; js "list_pending_reviews"].
Definition mutating_tools : list jsstr :=
  [js "bash"; js "exec_command"; js "write_stdin"; js "write"; js "edit"; js "apply_patch"].

Definition mcpAdmissionWeight (rpcMethod toolName : option jsstr) : Z :=
  if negb (named rpcMethod "tools/call") then 1
  else if is_one_of toolName heaviest_tools then 4
  else if is_one_of toolName searching_tools
          || match toolName with Some t => startsWith t "git_" | None => false end then 2
  else if is_one_of toolName mutating_tools then 3
  else 1.

Definition MCP_UNBOUNDED_TOOL_NAMES : list jsstr :=
  [ js "await_review_feedback"; js "await_work_session_events"; js "await_work_session_terminal";
    js "await_workspace_events"; js "bash"; js "exec_command"; js "write_stdin"; js "write";
    js "edit"; js "apply_patch"; js "submit_to_coding_agent"; js "call_acp_agent";
    js "begin_supervised_work"; js "run_mission_verification"; js "provide_policy_approval" ].

Definition mcpRequestHasExecutionDeadline (rpcMethod toolName : option jsstr) : bool :=
  negb (named rpcMethod "tools/call")
  || negb (existsb (js_eqb (or_empty toolName)) MCP_UNBOUNDED_TOOL_NAMES).

(** ** State *)

(** [answer] is what the promise [acquire] returned was resolved with: [Some (Some g)] a permit,
    [Some None] [null].  [timer] is the delay of the armed timer; [listening] tells that [onAbort]
    is registered on the signal. *)
Record McpAdmissionWaiter := mkWaiter {
  key : jsstr; weight : Z; timer : option Z; signal : option nat; listening : bool;
  settled : bool; answer : option (option nat)
}.

#[export] Instance waiter_inhabited : Inhabited McpAdmissionWaiter :=
  populate (mkWaiter [] 0 None None false false None).

(** What one [release] function closes over. *)
Record Permit := mkPermit { p_key : jsstr; p_weight : Z; released : bool }.

Record Limits := mkLimits {
  maxInflight : Z; maxInflightPerKey : Z; maxQueue : Z; maxQueuePerKey : Z
}.

Record Admission := mkAdmission {
  limits : Limits;
  active : Z; activeWeight : Z;
  activeByKey : gmap jsstr Z; queuedByKey : gmap jsstr Z;
  queue : list nat; closed : bool;
  waiters : list McpAdmissionWaiter; grants : list Permit; aborted : gset nat
}.

Inductive LimitError :=
| maxInflight_must_be_positive | maxInflightPerKey_must_be_positive
| maxQueue_must_be_non_negative | maxQueuePerKey_must_be_non_negative.

(** [Number.isInteger(n) && n >= least] *)
Definition integer_from (least : Z) (n : option Z) : bool :=
  match n with Some z => least <=? z | None => false end.

(** The constructor; the last argument defaults to [maxQueue]. *)
Definition construct (inflight inflightPerKey queueLength : option Z)
    (queuePerKey : option (option Z)) : res LimitError Admission :=
  let queuePerKey := default queueLength queuePerKey in
  _ ← ensure (integer_from 1 inflight) maxInflight_must_be_positive;
  _ ← ensure (integer_from 1 inflightPerKey) maxInflightPerKey_must_be_positive;
  _ ← ensure (integer_from 0 queueLength) maxQueue_must_be_non_negative;
  _ ← ensure (integer_from 0 queuePerKey) maxQueuePerKey_must_be_non_negative;
  Ok (mkAdmission (mkLimits (default 0 inflight) (default 0 inflightPerKey)
                     (default 0 queueLength) (default 0 queuePerKey))
        0 0 ∅ ∅ [] false [] [] ∅).

(** *** Assignments to the fields *)

Definition set_active a w m (s : Admission) : Admission :=
  mkAdmission (limits s) a w m (queuedByKey s) (queue s) (closed s) (waiters s) (grants s)
    (aborted s).
Definition set_queue q m (s : Admission) : Admission :=
  mkAdmission (limits s) (active s) (activeWeight s) (activeByKey s) m q (closed s) (waiters s)
    (grants s) (aborted s).
Definition set_waiters ws (s : Admission) : Admission :=
  mkAdmission (limits s) (active s) (activeWeight s) (activeByKey s) (queuedByKey s) (queue s)
    (closed s) ws (grants s) (aborted s).
Definition set_grants gs (s : Admission) : Admission :=
  mkAdmission (limits s) (active s) (activeWeight s) (activeByKey s) (queuedByKey s) (queue s)
    (closed s) (waiters s) gs (aborted s).
Definition set_closed (s : Admission) : Admission :=
  mkAdmission (limits s) (active s) (activeWeight s) (activeByKey s) (queuedByKey s) (queue s)
    true (waiters s) (grants s) (aborted s).
Definition set_aborted a (s : Admission) : Admission :=
  mkAdmission (limits s) (active s) (activeWeight s) (activeByKey s) (queuedByKey s) (queue s)
    (closed s) (waiters s) (grants s) a.

(** ** Counters by key *)

(** [m.set(k, (m.get(k) ?? 0) + n)] *)
Definition bump (k : jsstr) (n : Z) (m : gmap jsstr Z) : gmap jsstr Z :=
  <[k := default 0 (m !! k) + n]> m.

(** [const count = (m.get(k) ?? n) - n; if (count > 0) m.set(k, count); else m.delete(k);] *)
Definition lower (k : jsstr) (n : Z) (m : gmap jsstr Z) : gmap jsstr Z :=
  let count := default n (m !! k) - n in
  if 0 <? count then <[k := count]> m else delete k m.

(** ** Statistics *)

Record Stats := mkStats {
  st_active : Z; st_activeWeight : Z; st_availableWeight : Z; st_queued : Z; st_limits : Limits
}.

Definition getStats (s : Admission) : Stats :=
  mkStats (active s) (activeWeight s) (Z.max 0 (maxInflight (limits s) - activeWeight s))
    (Z.of_nat (length (queue s))) (limits s).

Definition getQueuedForKey (k : jsstr) (s : Admission) : Z := default 0 (queuedByKey s !! k).

(** ** Permits and the queue *)

Definition canAdmit (k : jsstr) (w : Z) (s : Admission) : bool :=
  (activeWeight s + w <=? maxInflight (limits s))
  && (default 0 (activeByKey s !! k) + w <=? maxInflightPerKey (limits s)).

(** Returns the index of the new permit. *)
Definition grant (k : jsstr) (w : Z) (s : Admission) : nat * Admission :=
  let s := set_active (active s + 1) (activeWeight s + w) (bump k w (activeByKey s)) s in
  (length (grants s), set_grants (grants s ++ [mkPermit k w false]) s).

Definition decrementQueuedKey (k : jsstr) (s : Admission) : Admission :=
  set_queue (queue s) (lower k 1 (queuedByKey s)) s.

(** [this.queue.splice(i, 1)] *)
Definition splice (i : nat) (s : Admission) : Admission :=
  set_queue (delete i (queue s)) (queuedByKey s) s.

Definition removeQueued (w : nat) (s : Admission) : Admission :=
  match list_find (w =.) (queue s) with
  | None => s
  | Some (index, _) => decrementQueuedKey (key (waiters s !!! w)) (splice index s)
  end.

(** [waiter.settled = true], the timer cleared, the listener removed. *)
Definition unwait (w : nat) (s : Admission) : Admission :=
  set_waiters (alter (λ x, mkWaiter (key x) (weight x) None (signal x) false true (answer x)) w
                 (waiters s)) s.

(** [waiter.resolve(release)]: a promise keeps its first value. *)
Definition resolve (w : nat) (release : option nat) (s : Admission) : Admission :=
  set_waiters (alter (λ x, mkWaiter (key x) (weight x) (timer x) (signal x) (listening x)
                             (settled x) (Some (default release (answer x)))) w (waiters s)) s.

Definition settle (w : nat) (release : option nat) (s : Admission) : Admission :=
  if settled (waiters s !!! w) then s else resolve w release (unwait w s).

Definition removeAndCancel (w : nat) (s : Admission) : Admission :=
  settle w None (removeQueued w s).

(** ** Acquiring *)

Inductive Acquired := Resolved (release : option nat) | Waiting (w : nat).

(** The executor of the promise [acquire] returns; the new waiter is the last of [waiters]. *)
Definition park (k : jsstr) (waitDeadlineMs w : Z) (sig : option nat) (s : Admission)
  : Acquired * Admission :=
  let id := length (waiters s) in
  let s' := set_waiters (waiters s ++
              [mkWaiter k w (Some (Z.max 1 waitDeadlineMs)) sig (bool_decide (is_Some sig)) false
                 None]) s in
  if match sig with Some x => bool_decide (x ∈ aborted s) | None => false end
  then (Waiting id, removeAndCancel id s')
  else if closed s then (Waiting id, removeAndCancel id s')
  else (Waiting id, set_queue (queue s ++ [id]) (bump k 1 (queuedByKey s)) s').

Definition acquire (k : jsstr) (waitDeadlineMs : Z) (w : option Z) (sig : option nat)
    (s : Admission) : Acquired * Admission :=
  if closed s then (Resolved None, s)
  else match w with
  | None => (Resolved None, s)
  | Some w =>
    if (w <? 1) || (maxInflight (limits s) <? w) || (maxInflightPerKey (limits s) <? w)
    then (Resolved None, s)
    else if match sig with Some x => bool_decide (x ∈ aborted s) | None => false end
    then (Resolved None, s)
    else if canAdmit k w s then let '(g, s) := grant k w s in (Resolved (Some g), s)
    else if (maxQueue (limits s) <=? Z.of_nat (length (queue s)))
            || (maxQueuePerKey (limits s) <=? default 0 (queuedByKey s !! k))
    then (Resolved None, s)
    else park k waitDeadlineMs w sig s
  end.

(** ** Draining, releasing, closing *)

(** The body of the loop of [drain] that admits the waiter [w] at place [i]. *)
Definition admitWaiter (i w : nat) (s : Admission) : Admission :=
  let x := waiters s !!! w in
  let s := unwait w (decrementQueuedKey (key x) (splice i s)) in
  let '(g, s) := grant (key x) (weight x) s in
  resolve w (Some g) s.

(** The loop of [drain] from place [i]; [fuel] bounds the rounds left. *)
Fixpoint drain_from (fuel i : nat) (s : Admission) : option Admission :=
  match fuel with
  | O => None
  | S fuel =>
      match queue s !! i with
      | None => Some s
      | Some w =>
          let x := waiters s !!! w in
          if settled x then drain_from fuel i (decrementQueuedKey (key x) (splice i s))
          else if negb (canAdmit (key x) (weight x) s) then drain_from fuel (S i) s
          else drain_from fuel i (admitWaiter i w s)
      end
  end.

Definition drain (s : Admission) : Admission :=
  if closed s then s else default s (drain_from (S (length (queue s))) 0 s).

(** Calling the function [grant] returned for the permit [g]. *)
Definition release (g : nat) (s : Admission) : Admission :=
  match grants s !! g with
  | None => s
  | Some p =>
      if released p then s
      else
        let s := set_grants (<[g := mkPermit (p_key p) (p_weight p) true]> (grants s)) s in
        drain (set_active (Z.max 0 (active s - 1)) (Z.max 0 (activeWeight s - p_weight p))
                 (lower (p_key p) (p_weight p) (activeByKey s)) s)
  end.

(** The loop of [close], over the queue it empties. *)
Fixpoint close_all (q : list nat) (s : Admission) : Admission :=
  match q with
  | [] => s
  | w :: q =>
      let s := decrementQueuedKey (key (waiters s !!! w)) (splice 0 s) in
      close_all q (if settled (waiters s !!! w) then s else resolve w None (unwait w s))
  end.

Definition close (s : Admission) : Admission := close_all (queue s) (set_closed s).

(** ** Events *)

(** The timer of [w] fires. *)
Definition fireTimer (w : nat) (s : Admission) : Admission := removeAndCancel w s.

(** [controller.abort()]: the listeners of the signal run in the order of their registration. *)
Definition hear (sig : nat) (s : Admission) (w : nat) : Admission :=
  let x := waiters s !!! w in
  if listening x && bool_decide (signal x = Some sig) then removeAndCancel w s else s.

Definition abort (sig : nat) (s : Admission) : Admission :=
  if bool_decide (sig ∈ aborted s) then s
  else foldl (hear sig) (set_aborted ({[sig]} ∪ aborted s) s) (seq 0 (length (waiters s))).

Inductive step (s : Admission) : Admission → Prop :=
| step_acquire k deadline w sig : step s (acquire k deadline w sig s).2
| step_release g : step s (release g s)
| step_timer w d : timer (waiters s !!! w) = Some d → step s (fireTimer w s)
| step_abort sig : step s (abort sig s)
| step_close : step s (close s).

(** ** Sums over a list *)

Section Sums.
Context {A : Type}.
Implicit Types (f : A → Z) (l : list A).

Definition sum_by f l : Z := foldr (λ a, Z.add (f a)) 0 l.

Lemma sum_by_cons f a l : sum_by f (a :: l) = f a + sum_by f l.
Proof. done. Qed.

Lemma sum_by_app f l1 l2 : sum_by f (l1 ++ l2) = sum_by f l1 + sum_by f l2.
Proof. induction l1 as [|a l1 IH]; [done|]. cbn [app]. rewrite !sum_by_cons. lia. Qed.

Lemma sum_by_delete f l i a : l !! i = Some a → sum_by f (delete i l) = sum_by f l - f a.
Proof.
  revert i; induction l as [|b l IH]; intros [|i] H; cbn in H; simplify_eq.
  - cbn [delete list_delete]. rewrite sum_by_cons. lia.
  - change (delete (S i) (b :: l)) with (b :: delete i l). rewrite !sum_by_cons, (IH i) by done. lia.
Qed.

Lemma sum_by_insert f l i a b :
  l !! i = Some a → sum_by f (<[i:=b]> l) = sum_by f l - f a + f b.
Proof.
  revert i; induction l as [|c l IH]; intros [|i] H; cbn in H; simplify_eq.
  - change (<[0%nat:=b]> (a :: l)) with (b :: l). rewrite !sum_by_cons. lia.
  - change (<[S i:=b]> (c :: l)) with (c :: <[i:=b]> l). rewrite !sum_by_cons, (IH i) by done. lia.
Qed.

Lemma sum_by_nonneg f l : (∀ a, a ∈ l → 0 <= f a) → 0 <= sum_by f l.
Proof.
  induction l as [|a l IH]; intros H; [done|]. rewrite sum_by_cons.
  pose proof (H a ltac:(left)). enough (0 <= sum_by f l) by lia. apply IH. intros; apply H; by right.
Qed.

Lemma sum_by_elem f l a : (∀ x, x ∈ l → 0 <= f x) → a ∈ l → f a <= sum_by f l.
Proof.
  intros H (i & Hi)%list_elem_of_lookup.
  pose proof (sum_by_delete f l i a Hi).
  enough (0 <= sum_by f (delete i l)) by lia. apply sum_by_nonneg. intros x Hx. apply H.
  by eapply list_elem_of_delete_inv.
Qed.

Lemma elem_of_insert_inv l i a b : b ∈ <[i:=a]> l → b = a ∨ b ∈ l.
Proof.
  intros (j & Hj)%list_elem_of_lookup. rewrite list_lookup_insert in Hj.
  case_decide; [left; by simplify_eq|right]. apply list_elem_of_lookup. eauto.
Qed.

Lemma sum_by_ext f g l : (∀ a, a ∈ l → f a = g a) → sum_by f l = sum_by g l.
Proof.
  induction l as [|a l IH]; intros H; [done|]. rewrite !sum_by_cons, (H a) by left.
  f_equal. apply IH. intros; apply H; by right.
Qed.
End Sums.

(** ** What a counter map counts

    [tracks m f]: the map [m] holds exactly the positive values of [f]. *)

Definition tracks (m : gmap jsstr Z) (f : jsstr → Z) : Prop :=
  ∀ k, m !! k = if decide (0 < f k) then Some (f k) else None.

Lemma tracks_get m f k : tracks m f → 0 <= f k → default 0 (m !! k) = f k.
Proof. intros H Hf. rewrite H. case_decide; cbn; lia. Qed.

Lemma tracks_bump m f g k n :
  tracks m f → 0 <= f k → 0 < n → g k = f k + n → (∀ k', k' ≠ k → g k' = f k') →
  tracks (bump k n m) g.
Proof.
  intros H Hf Hn Hk Ho k'. unfold bump. rewrite (tracks_get m f) by done.
  destruct (decide (k' = k)) as [->|Hne].
  - rewrite lookup_insert_eq, Hk. case_decide; [done|lia].
  - by rewrite lookup_insert_ne, H, Ho.
Qed.

Lemma tracks_lower m f g k n :
  tracks m f → 0 < n → n <= f k → g k = f k - n → (∀ k', k' ≠ k → g k' = f k') →
  tracks (lower k n m) g.
Proof.
  intros H Hn Hf Hk Ho k'. unfold lower.
  assert (E : default n (m !! k) - n = g k) by (rewrite H, decide_True by lia; cbn; lia).
  rewrite E. destruct (decide (k' = k)) as [->|Hne].
  - destruct (Z.ltb_spec 0 (g k)).
    + by rewrite lookup_insert_eq, decide_True.
    + by rewrite lookup_delete_eq, decide_False by lia.
  - rewrite (Ho k'), <- (H k') by done. destruct (0 <? g k).
    + by rewrite lookup_insert_ne by done.
    + by rewrite lookup_delete_ne by done.
Qed.

(** ** The invariant *)

Definition count_out (p : Permit) : Z := if released p then 0 else 1.
Definition weight_out (p : Permit) : Z := if released p then 0 else p_weight p.
Definition weight_at (k : jsstr) (p : Permit) : Z := if p_key p =s k then weight_out p else 0.

(** One for each waiter of the key [k] *)
Definition waits_at (s : Admission) (k : jsstr) (w : nat) : Z :=
  if key (waiters s !!! w) =s k then 1 else 0.

Definition limits_ok (l : Limits) : Prop :=
  1 <= maxInflight l ∧ 1 <= maxInflightPerKey l ∧ 0 <= maxQueue l ∧ 0 <= maxQueuePerKey l.

Definition weight_fits (l : Limits) (w : Z) : Prop :=
  1 <= w ∧ w <= maxInflight l ∧ w <= maxInflightPerKey l.

(** The permits that are out are what the counters say, within the caps. *)
Record permits_ok (s : Admission) : Prop := {
  po_weights : ∀ p, p ∈ grants s → 1 <= p_weight p;
  po_active : active s = sum_by count_out (grants s);
  po_weight : activeWeight s = sum_by weight_out (grants s);
  po_bykey : tracks (activeByKey s) (λ k, sum_by (weight_at k) (grants s));
  po_cap : activeWeight s <= maxInflight (limits s);
  po_keycap : ∀ k, sum_by (weight_at k) (grants s) <= maxInflightPerKey (limits s)
}.

(** A waiter has an answer once it is settled, and a timer and its listener until then. *)
Definition waiter_ok (l : Limits) (x : McpAdmissionWaiter) : Prop :=
  weight_fits l (weight x)
  ∧ if settled x then timer x = None ∧ listening x = false ∧ is_Some (answer x)
    else (∃ d, timer x = Some d ∧ 1 <= d) ∧ listening x = bool_decide (is_Some (signal x))
         ∧ answer x = None.

(** The queue holds the unsettled waiters in the order of their arrival. *)
Record queue_ok (s : Admission) : Prop := {
  qo_waiters : ∀ w x, waiters s !! w = Some x → waiter_ok (limits s) x;
  qo_pending : ∀ w, w ∈ queue s ↔ (w < length (waiters s))%nat ∧ settled (waiters s !!! w) = false;
  qo_order : StronglySorted lt (queue s);
  qo_bykey : tracks (queuedByKey s) (λ k, sum_by (waits_at s k) (queue s));
  qo_cap : Z.of_nat (length (queue s)) <= maxQueue (limits s);
  qo_keycap : ∀ k, sum_by (waits_at s k) (queue s) <= maxQueuePerKey (limits s);
  qo_closed : closed s = true → queue s = []
}.

(** The request of the waiter [w] does not fit beside the permits that are out. *)
Definition unfit (s : Admission) (w : nat) : Prop :=
  canAdmit (key (waiters s !!! w)) (weight (waiters s !!! w)) s = false.

Definition work_conserving (s : Admission) : Prop := ∀ w, w ∈ queue s → unfit s w.

(** No waiter got a permit while one of the same key that came before and asks for no more waits. *)
Definition in_turn (s : Admission) : Prop :=
  ∀ v w g, (v < w < length (waiters s))%nat →
    key (waiters s !!! v) = key (waiters s !!! w) →
    weight (waiters s !!! v) <= weight (waiters s !!! w) →
    answer (waiters s !!! w) = Some (Some g) → settled (waiters s !!! v) = true.

(** ** Permits *)

Lemma weight_out_nonneg s p : permits_ok s → p ∈ grants s → 0 <= weight_out p.
Proof. intros H Hp. pose proof (po_weights s H p Hp). unfold weight_out. destruct (released p); lia. Qed.

Lemma weight_at_bounds s k p :
  permits_ok s → p ∈ grants s → 0 <= weight_at k p <= weight_out p.
Proof.
  intros H Hp. pose proof (weight_out_nonneg s p H Hp). unfold weight_at. destruct (p_key p =s k); lia.
Qed.

Lemma load_nonneg s k : permits_ok s → 0 <= sum_by (weight_at k) (grants s).
Proof. intros H. apply sum_by_nonneg. intros p Hp. by apply (weight_at_bounds s). Qed.

Lemma key_load s k : permits_ok s → default 0 (activeByKey s !! k) = sum_by (weight_at k) (grants s).
Proof. intros H. by apply (tracks_get _ _ k (po_bykey s H)), load_nonneg. Qed.

Lemma canAdmit_iff s k w :
  permits_ok s →
  canAdmit k w s = true ↔
    sum_by weight_out (grants s) + w <= maxInflight (limits s)
    ∧ sum_by (weight_at k) (grants s) + w <= maxInflightPerKey (limits s).
Proof.
  intros H. unfold canAdmit. rewrite (key_load s k H), (po_weight s H). reflect_guards. tauto.
Qed.

Lemma permits_ok_grant s k w :
  permits_ok s → 1 <= w → canAdmit k w s = true → permits_ok (grant k w s).2.
Proof.
  intros H Hw [Hc Hk]%(canAdmit_iff s k w H).
  assert (E : ∀ f : Permit → Z, sum_by f (grants (grant k w s).2)
                = sum_by f (grants s) + f (mkPermit k w false)).
  { intros f. cbn [grant set_grants set_active grants snd]. rewrite sum_by_app.
    unfold sum_by at 2. cbn [foldr]. lia. }
  split.
  - intros p [Hp| ->%list_elem_of_singleton]%elem_of_app; [by apply (po_weights s)|done].
  - rewrite E. cbn. rewrite (po_active s H). done.
  - rewrite E. cbn. rewrite (po_weight s H). done.
  - change (activeByKey (grant k w s).2) with (bump k w (activeByKey s)).
    apply (tracks_bump _ (λ k', sum_by (weight_at k') (grants s))); try done.
    + apply (po_bykey s H).
    + by apply load_nonneg.
    + lia.
    + rewrite E. unfold weight_at at 2. cbn. by rewrite js_eqb_refl.
    + intros k' Hne. rewrite E. unfold weight_at at 2. cbn.
      rewrite (proj2 (js_eqb_neq k k')) by done. lia.
  - cbn. rewrite (po_weight s H). done.
  - intros k'. rewrite E. unfold weight_at at 2. cbn. pose proof (po_keycap s H k').
    destruct (k =s k') eqn:Ek; [apply js_eqb_eq in Ek; subst; done|lia].
Qed.

(** The state a release leaves to [drain]. *)
Definition given_back (g : nat) (p : Permit) (s : Admission) : Admission :=
  set_active (Z.max 0 (active s - 1)) (Z.max 0 (activeWeight s - p_weight p))
    (lower (p_key p) (p_weight p) (activeByKey s))
    (set_grants (<[g := mkPermit (p_key p) (p_weight p) true]> (grants s)) s).

Lemma permits_ok_release s g p :
  permits_ok s → grants s !! g = Some p → released p = false → permits_ok (given_back g p s).
Proof.
  intros H Hg Hr.
  assert (Hin : p ∈ grants s) by (apply list_elem_of_lookup; eauto).
  assert (Hw := po_weights s H p Hin).
  assert (E : ∀ f : Permit → Z, f (mkPermit (p_key p) (p_weight p) true) = 0 →
                sum_by f (grants (given_back g p s)) = sum_by f (grants s) - f p).
  { intros f Hf. cbn [given_back set_active set_grants grants].
    rewrite (sum_by_insert f _ g p) by done. lia. }
  assert (Hz : ∀ k, weight_at k (mkPermit (p_key p) (p_weight p) true) = 0).
  { intros k. unfold weight_at. cbn. by destruct (p_key p =s k). }
  assert (Ho : weight_out p = p_weight p) by (unfold weight_out; by rewrite Hr).
  assert (Hc : count_out p = 1) by (unfold count_out; by rewrite Hr).
  assert (Hk : ∀ k, weight_at k p = if p_key p =s k then p_weight p else 0).
  { intros k. unfold weight_at. by rewrite Ho. }
  assert (Hge : ∀ f : Permit → Z, (∀ q, q ∈ grants s → 0 <= f q) → f p <= sum_by f (grants s)).
  { intros f Hf. by apply sum_by_elem. }
  split.
  - intros q [->|Hq]%elem_of_insert_inv; cbn; [done|by apply (po_weights s)].
  - rewrite E by done. cbn. rewrite (po_active s H), Hc.
    enough (1 <= sum_by count_out (grants s)) by lia.
    rewrite <- Hc at 1. apply Hge. intros q _. unfold count_out. by destruct (released q).
  - rewrite E by done. cbn. rewrite (po_weight s H), Ho.
    enough (weight_out p <= sum_by weight_out (grants s)) by lia.
    apply Hge. intros q Hq. by apply (weight_out_nonneg s).
  - change (activeByKey (given_back g p s)) with (lower (p_key p) (p_weight p) (activeByKey s)).
    apply (tracks_lower _ (λ k', sum_by (weight_at k') (grants s))); [apply (po_bykey s H)|lia|..].
    + transitivity (weight_at (p_key p) p); [rewrite Hk, js_eqb_refl; done|].
      apply Hge. intros q Hq. by apply (weight_at_bounds s).
    + by rewrite E, Hk, js_eqb_refl by done.
    + intros k' Hne. rewrite E, Hk, (proj2 (js_eqb_neq _ _)) by done. lia.
  - cbn. pose proof (po_cap s H). pose proof (po_weight s H).
    enough (0 <= maxInflight (limits s)) by lia.
    assert (0 <= sum_by weight_out (grants s)); [|lia].
    apply sum_by_nonneg. intros q Hq. by apply (weight_out_nonneg s).
  - intros k. rewrite E by done. cbn [limits given_back set_active set_grants].
    pose proof (po_keycap s H k). pose proof (weight_at_bounds s k p H Hin). lia.
Qed.

(** ** The queue *)

Lemma sorted_elem_delete (q : list nat) i w v :
  StronglySorted lt q → q !! i = Some w → v ∈ delete i q ↔ v ∈ q ∧ v ≠ w.
Proof.
  intros Hs. revert i; induction Hs as [|a q Hs IH Ha]; intros i Hi; [done|].
  rewrite List.Forall_forall in Ha. destruct i as [|i]; cbn in Hi.
  - simplify_eq. change (delete 0%nat (w :: q)) with q. rewrite elem_of_cons.
    split; [|naive_solver]. intros Hv. split; [by right|]. intros ->.
    specialize (Ha w (proj1 (list_elem_of_In _ _) Hv)). lia.
  - change (delete (S i) (a :: q)) with (a :: delete i q). rewrite !elem_of_cons, (IH i Hi).
    assert (a ≠ w); [|naive_solver]. intros ->.
    assert (Hw : w ∈ q) by (apply list_elem_of_lookup; eauto).
    specialize (Ha w (proj1 (list_elem_of_In _ _) Hw)). lia.
Qed.

Lemma sorted_delete (q : list nat) i : StronglySorted lt q → StronglySorted lt (delete i q).
Proof.
  intros Hs. revert i; induction Hs as [|a q Hs IH Ha]; intros i; [destruct i; constructor|].
  destruct i as [|i]; [done|]. change (delete (S i) (a :: q)) with (a :: delete i q).
  constructor; [apply IH|]. rewrite List.Forall_forall in *. intros x Hx. apply Ha.
  apply list_elem_of_In. apply list_elem_of_In in Hx. by eapply list_elem_of_delete_inv.
Qed.

(** The waiter [w] at place [i] leaves the queue with the answer [r]. *)
Definition leave (i w : nat) (r : option nat) (s : Admission) : Admission :=
  resolve w r (unwait w (decrementQueuedKey (key (waiters s !!! w)) (splice i s))).

Definition answered (r : option nat) (x : McpAdmissionWaiter) : McpAdmissionWaiter :=
  mkWaiter (key x) (weight x) None (signal x) false true (Some (default r (answer x))).

Lemma leave_waiter i w r s v :
  (w < length (waiters s))%nat →
  waiters (leave i w r s) !!! v
  = if decide (v = w) then answered r (waiters s !!! w) else waiters s !!! v.
Proof.
  intros Hw. cbn. destruct (decide (v = w)) as [->|Hne].
  - by rewrite !list_lookup_total_alter_eq by (rewrite ?length_alter; done).
  - by rewrite !list_lookup_total_alter_ne.
Qed.

Lemma leave_length i w r s : length (waiters (leave i w r s)) = length (waiters s).
Proof. cbn. by rewrite !length_alter. Qed.

Lemma queued_waits s i w :
  queue_ok s → queue s !! i = Some w →
  w ∈ queue s ∧ (w < length (waiters s))%nat ∧ settled (waiters s !!! w) = false.
Proof.
  intros H Hi. assert (w ∈ queue s) as Hin by (apply list_elem_of_lookup; eauto).
  split; [done|]. by apply (qo_pending s H).
Qed.

Lemma waits_at_sum_delete s k i w :
  queue s !! i = Some w →
  sum_by (waits_at s k) (delete i (queue s)) = sum_by (waits_at s k) (queue s) - waits_at s k w.
Proof. apply sum_by_delete. Qed.

Lemma waits_at_nonneg s k w : 0 <= waits_at s k w <= 1.
Proof. unfold waits_at. case_match; lia. Qed.

Lemma lookup_total_waiter s w x : waiters s !! w = Some x → waiters s !!! w = x.
Proof. apply list_lookup_total_correct. Qed.

Lemma waiter_lookup s w :
  (w < length (waiters s))%nat → waiters s !! w = Some (waiters s !!! w).
Proof. apply list_lookup_lookup_total_lt. Qed.

Lemma queue_ok_leave i w r s :
  queue_ok s → queue s !! i = Some w → queue_ok (leave i w r s).
Proof.
  intros H Hi. destruct (queued_waits s i w H Hi) as (Hin & Hlt & Hns).
  assert (Hat : ∀ k v, waits_at (leave i w r s) k v = waits_at s k v).
  { intros k v. unfold waits_at. rewrite leave_waiter by done. by case_decide; subst. }
  assert (Hsum : ∀ k, sum_by (waits_at (leave i w r s) k) (queue (leave i w r s))
                      = sum_by (waits_at s k) (queue s) - waits_at s k w).
  { intros k. rewrite (sum_by_ext _ (waits_at s k)) by auto. by apply sum_by_delete. }
  split.
  - intros v x Hx. assert (Hv := lookup_lt_Some _ _ _ Hx). apply lookup_total_waiter in Hx.
    rewrite leave_length in Hv. rewrite leave_waiter in Hx by done. subst x.
    pose proof (qo_waiters s H v _ (waiter_lookup s v Hv)) as Hok.
    case_decide; [subst v|done]. destruct Hok as [Hf _]. split; [done|]. cbn. eauto.
  - intros v. cbn [queue leave resolve unwait set_waiters decrementQueuedKey splice set_queue].
    rewrite sorted_elem_delete by (try apply (qo_order s H); done).
    rewrite (qo_pending s H), leave_length, leave_waiter by done.
    case_decide; [subst; cbn; naive_solver|naive_solver].
  - by apply sorted_delete, (qo_order s H).
  - change (queuedByKey (leave i w r s)) with (lower (key (waiters s !!! w)) 1 (queuedByKey s)).
    assert (Hself : waits_at s (key (waiters s !!! w)) w = 1).
    { unfold waits_at. by rewrite js_eqb_refl. }
    apply (tracks_lower _ (λ k, sum_by (waits_at s k) (queue s))); [apply (qo_bykey s H)|lia|..].
    + rewrite <- Hself at 1. apply sum_by_elem; [|done]. intros. apply waits_at_nonneg.
    + by rewrite Hsum, Hself.
    + intros k Hne. rewrite Hsum. unfold waits_at at 2.
      rewrite (proj2 (js_eqb_neq _ _)) by done. lia.
  - cbn. pose proof (qo_cap s H). rewrite length_delete by eauto. lia.
  - intros k. rewrite Hsum. pose proof (qo_keycap s H k). pose proof (waits_at_nonneg s k w).
    cbn [limits leave resolve unwait set_waiters decrementQueuedKey splice set_queue]. lia.
  - intros Hc. cbn in Hc. apply (qo_closed s H) in Hc. by rewrite Hc in Hi.
Qed.

(** *** What never changes, and what only grows *)

Record grows (s s' : Admission) : Prop := {
  gr_limits : limits s' = limits s;
  gr_closed : closed s = true → closed s' = true;
  gr_waiters : (length (waiters s) <= length (waiters s'))%nat;
  gr_waiter : ∀ w, (w < length (waiters s))%nat →
    key (waiters s' !!! w) = key (waiters s !!! w)
    ∧ weight (waiters s' !!! w) = weight (waiters s !!! w)
    ∧ signal (waiters s' !!! w) = signal (waiters s !!! w)
    ∧ (settled (waiters s !!! w) = true → settled (waiters s' !!! w) = true)
    ∧ (∀ r, answer (waiters s !!! w) = Some r → answer (waiters s' !!! w) = Some r);
  gr_permit : ∀ g p, grants s !! g = Some p → ∃ p', grants s' !! g = Some p'
    ∧ p_key p' = p_key p ∧ p_weight p' = p_weight p ∧ (released p = true → p' = p)
}.

#[local] Instance grows_preorder : PreOrder grows.
Proof.
  split.
  - intros s. split; try done. intros g p Hp. eauto.
  - intros a b c H1 H2. split.
    + by rewrite (gr_limits b c H2), (gr_limits a b H1).
    + intros Hc. by apply (gr_closed b c H2), (gr_closed a b H1).
    + pose proof (gr_waiters a b H1). pose proof (gr_waiters b c H2). lia.
    + intros w Hw. pose proof (gr_waiters a b H1).
      destruct (gr_waiter a b H1 w Hw) as (K1 & W1 & G1 & S1 & A1).
      destruct (gr_waiter b c H2 w ltac:(lia)) as (K2 & W2 & G2 & S2 & A2).
      repeat split; first [congruence|auto].
    + intros g p Hp. destruct (gr_permit a b H1 g p Hp) as (p1 & Hp1 & K1 & W1 & R1).
      destruct (gr_permit b c H2 g p1 Hp1) as (p2 & Hp2 & K2 & W2 & R2).
      exists p2. split; [done|]. split; [congruence|]. split; [congruence|].
      intros Hr. rewrite <- (R1 Hr). apply R2. by rewrite (R1 Hr).
Qed.

Lemma grows_same s s' :
  limits s' = limits s → closed s' = closed s → waiters s' = waiters s → grants s' = grants s →
  grows s s'.
Proof. intros El Ec Ew Eg. split; rewrite ?Ec, ?Ew, ?Eg; try done. intros g p Hp. eauto. Qed.

Lemma grows_leave i w r s : (w < length (waiters s))%nat → grows s (leave i w r s).
Proof.
  intros Hw. split; try done.
  - by rewrite leave_length.
  - intros v Hv. rewrite leave_waiter by done. case_decide; [subst v; cbn|done].
    repeat split; try done. intros a ->. done.
  - intros g p Hp. eauto.
Qed.

Lemma grows_grant k w s : grows s (grant k w s).2.
Proof.
  split; try done. intros g p Hp. exists p. split; [|done]. cbn.
  rewrite lookup_app_l; [done|]. by eapply lookup_lt_Some.
Qed.

(** *** The parts of the invariant kept by each operation *)

Lemma permits_ok_same s s' :
  limits s' = limits s → active s' = active s → activeWeight s' = activeWeight s →
  activeByKey s' = activeByKey s → grants s' = grants s → permits_ok s → permits_ok s'.
Proof.
  intros El Ea Ew Ek Eg [H1 H2 H3 H4 H5 H6].
  split; rewrite ?El, ?Ea, ?Ew, ?Ek, ?Eg; done.
Qed.

Lemma queue_ok_same s s' :
  limits s' = limits s → queue s' = queue s → queuedByKey s' = queuedByKey s →
  closed s' = closed s → waiters s' = waiters s → queue_ok s → queue_ok s'.
Proof.
  intros El Eq Ek Ec Ew [H1 H2 H3 H4 H5 H6 H7].
  assert (E : waits_at s' = waits_at s) by (unfold waits_at; by rewrite Ew).
  split; rewrite ?El, ?Eq, ?Ek, ?Ec, ?Ew, ?E; done.
Qed.

Lemma canAdmit_anti s k w w' : w <= w' → canAdmit k w s = false → canAdmit k w' s = false.
Proof.
  unfold canAdmit. intros Hw H. reflect_guards. destruct H; [left|right]; lia.
Qed.

Lemma unfit_grant s k w k' w' :
  permits_ok s → 1 <= w → canAdmit k w s = true →
  canAdmit k' w' s = false → canAdmit k' w' (grant k w s).2 = false.
Proof.
  intros H Hw Hc Hf. pose proof (permits_ok_grant s k w H Hw Hc) as H'.
  destruct (canAdmit k' w' (grant k w s).2) eqn:E; [|done].
  apply (canAdmit_iff _ _ _ H') in E as [E1 E2].
  enough (canAdmit k' w' s = true) by congruence. apply (canAdmit_iff _ _ _ H).
  cbn [grant snd set_grants set_active grants limits] in E1, E2. rewrite !sum_by_app in E1, E2.
  unfold sum_by in E1 at 2. unfold sum_by in E2 at 2. cbn in E1, E2.
  unfold weight_at in E2 at 2. unfold weight_out in E2 at 1. cbn in E2.
  change (weight_out (mkPermit k w false)) with w in *.
  destruct (k =s k'); lia.
Qed.

Lemma admit_eq i w s :
  admitWaiter i w s = (grant (key (waiters s !!! w)) (weight (waiters s !!! w))
                   (leave i w (Some (length (grants s))) s)).2.
Proof. done. Qed.

Lemma in_turn_same s s' : waiters s' = waiters s → in_turn s → in_turn s'.
Proof. intros E H. unfold in_turn. by rewrite E. Qed.

Lemma in_turn_leave i w r s :
  queue_ok s → queue s !! i = Some w →
  (r = None ∨ ∀ v, v ∈ queue s → (v < w)%nat → key (waiters s !!! v) = key (waiters s !!! w) →
                weight (waiters s !!! v) <= weight (waiters s !!! w) → False) →
  in_turn s → in_turn (leave i w r s).
Proof.
  intros Hq Hi Hr Ht v u g Hvu. destruct (queued_waits s i w Hq Hi) as (Hin & Hlt & Hns).
  rewrite leave_length in Hvu. rewrite !leave_waiter by done.
  assert (Hnone : answer (waiters s !!! w) = None).
  { destruct (qo_waiters s Hq w _ (waiter_lookup s w Hlt)) as [_ Hw]. rewrite Hns in Hw.
    by destruct Hw as (_ & _ & ?). }
  destruct (decide (v = w)) as [->|Hv]; [done|]. destruct (decide (u = w)) as [->|Hu]; cbn.
  - rewrite Hnone. cbn. intros Hk Hw [= ->]. destruct Hr as [?|Hr]; [done|].
    destruct (settled (waiters s !!! v)) eqn:Es; [done|]. destruct (Hr v); try done; [|lia].
    apply (qo_pending s Hq). split; [lia|done].
  - apply Ht. lia.
Qed.

Record core (s : Admission) : Prop := {
  co_limits : limits_ok (limits s);
  co_permits : permits_ok s;
  co_queue : queue_ok s;
  co_turn : in_turn s
}.

Lemma core_leave i w s : core s → queue s !! i = Some w → core (leave i w None s).
Proof.
  intros [Hl Hp Hq Ht] Hi. split.
  - done.
  - by apply (permits_ok_same s).
  - by apply queue_ok_leave.
  - apply in_turn_leave; auto.
Qed.

Lemma core_grant k w s : core s → 1 <= w → canAdmit k w s = true → core (grant k w s).2.
Proof.
  intros [Hl Hp Hq Ht] Hw Hc. split.
  - done.
  - by apply permits_ok_grant.
  - by apply (queue_ok_same s).
  - by apply (in_turn_same s).
Qed.

(** *** The loop of [drain] *)

Definition unfit_before (i : nat) (s : Admission) : Prop :=
  ∀ j w, (j < i)%nat → queue s !! j = Some w → unfit s w.

Lemma sorted_lookup (q : list nat) i j v w :
  StronglySorted lt q → (i < j)%nat → q !! i = Some v → q !! j = Some w → (v < w)%nat.
Proof.
  intros Hs. revert i j; induction Hs as [|a q Hs IH Ha]; intros i j Hij Hi Hj; [done|].
  destruct j as [|j]; [lia|]. cbn in Hj. destruct i as [|i]; cbn in Hi; simplify_eq.
  - rewrite List.Forall_forall in Ha. apply Ha, list_elem_of_In, list_elem_of_lookup. eauto.
  - apply (IH i j); [lia|done|done].
Qed.

Lemma sorted_lookup_lt (q : list nat) i j v w :
  StronglySorted lt q → q !! i = Some w → q !! j = Some v → (v < w)%nat → (j < i)%nat.
Proof.
  intros Hs Hi Hj Hv. destruct (Nat.lt_trichotomy i j) as [Hij|[->|]]; [|by simplify_eq; lia|done].
  pose proof (sorted_lookup q i j w v Hs Hij Hi Hj). lia.
Qed.

Lemma queued_weight s i w :
  queue_ok s → queue s !! i = Some w → weight_fits (limits s) (weight (waiters s !!! w)).
Proof.
  intros H Hi. destruct (queued_waits s i w H Hi) as (_ & Hlt & _).
  by destruct (qo_waiters s H w _ (waiter_lookup s w Hlt)).
Qed.

Lemma admit_ok i w s :
  core s → queue s !! i = Some w → unfit_before i s →
  canAdmit (key (waiters s !!! w)) (weight (waiters s !!! w)) s = true →
  core (admitWaiter i w s) ∧ unfit_before i (admitWaiter i w s) ∧ grows s (admitWaiter i w s).
Proof.
  intros [Hl Hp Hq Ht] Hi Hb Hc. destruct (queued_weight s i w Hq Hi) as [Hw _].
  destruct (queued_waits s i w Hq Hi) as (Hin & Hlt & Hns).
  rewrite admit_eq. set (s1 := leave i w (Some (length (grants s))) s).
  assert (Hp1 : permits_ok s1) by by apply (permits_ok_same s).
  split; [|split].
  - apply core_grant; [|done|done]. split; [done|done|by apply queue_ok_leave|].
    apply in_turn_leave; [done|done| |done]. right. intros v Hv Hlv Hk Hwv.
    apply list_elem_of_lookup in Hv as [j Hj].
    pose proof (sorted_lookup_lt _ i j v w (qo_order s Hq) Hi Hj Hlv) as Hji.
    pose proof (Hb j v Hji Hj) as Hu. unfold unfit in Hu. rewrite Hk in Hu.
    by rewrite (canAdmit_anti s _ _ _ Hwv Hu) in Hc.
  - intros j v Hji Hj. cbn in Hj. rewrite list_lookup_delete_lt in Hj by done.
    unfold unfit. apply (unfit_grant s1); [done|done|done|].
    assert (v ≠ w) as Hne.
    { intros ->. pose proof (sorted_lookup _ j i w w (qo_order s Hq) Hji Hj Hi). lia. }
    cbn [grant snd set_grants set_active waiters]. unfold s1.
    rewrite leave_waiter, decide_False by done. exact (Hb j v Hji Hj).
  - transitivity s1; [by apply grows_leave|apply grows_grant].
Qed.

(** The fuel of [drain] is enough, and what it leaves queued does not fit. *)
Lemma drain_from_ok fuel i s :
  core s → unfit_before i s → (i <= length (queue s))%nat →
  (length (queue s) < fuel + i)%nat →
  ∃ s', drain_from fuel i s = Some s' ∧ core s' ∧ work_conserving s' ∧ grows s s'.
Proof.
  revert i s; induction fuel as [|fuel IH]; intros i s Hco Hb Hle Hf; [lia|]. cbn [drain_from].
  destruct (queue s !! i) as [w|] eqn:Hi.
  2:{ apply lookup_ge_None in Hi. exists s. split; [done|]. split; [done|]. split; [|done].
      intros w (j & Hj)%list_elem_of_lookup. apply (Hb j w); [|done].
      apply lookup_lt_Some in Hj. lia. }
  pose proof (lookup_lt_Some _ _ _ Hi) as Hlen.
  destruct (queued_waits s i w (co_queue s Hco) Hi) as (_ & _ & ->).
  destruct (canAdmit (key (waiters s !!! w)) (weight (waiters s !!! w)) s) eqn:Hc; cbn [negb].
  - destruct (admit_ok i w s Hco Hi Hb Hc) as (Hco' & Hb' & Hg).
    assert (El : length (queue (admitWaiter i w s)) = (length (queue s) - 1)%nat).
    { cbn. apply length_delete. eauto. }
    destruct (IH i (admitWaiter i w s)) as (s' & E & Hs' & Hwc & Hgr); [done|done|lia|lia|].
    exists s'. split; [done|]. split; [done|]. split; [done|]. by transitivity (admitWaiter i w s).
  - apply IH; [done| |lia|lia]. intros j v Hj Hv.
    destruct (decide (j = i)) as [->|]; [by simplify_eq|]. apply (Hb j v); [lia|done].
Qed.

Lemma drain_ok s : core s → core (drain s) ∧ work_conserving (drain s) ∧ grows s (drain s).
Proof.
  intros Hco. unfold drain. destruct (closed s) eqn:Hc.
  - split; [done|]. split; [|done]. intros w Hw.
    rewrite (qo_closed s (co_queue s Hco) Hc) in Hw. by apply not_elem_of_nil in Hw.
  - destruct (drain_from_ok (S (length (queue s))) 0 s) as (s' & -> & ?); [done| |lia|lia|done].
    intros j w Hj. lia.
Qed.

(** *** The other operations *)

Definition inv (s : Admission) : Prop := core s ∧ work_conserving s.

Lemma release_eq g s :
  release g s = match grants s !! g with
                | Some p => if released p then s else drain (given_back g p s)
                | None => s
                end.
Proof. done. Qed.

Lemma release_ok g s : inv s → inv (release g s) ∧ grows s (release g s).
Proof.
  intros Hinv. rewrite release_eq. destruct (grants s !! g) as [p|] eqn:Hg; [|done].
  destruct (released p) eqn:Hr; [done|]. destruct Hinv as [[Hl Hp Hq Ht] _].
  destruct (drain_ok (given_back g p s)) as (Hco & Hwc & Hgr).
  { split; [done|by apply permits_ok_release|by apply (queue_ok_same s)|by apply (in_turn_same s)]. }
  split; [done|]. etransitivity; [|exact Hgr]. split; try done.
  intros h q Hh. cbn. rewrite list_lookup_insert.
  case_decide as E; [|by eauto]. destruct E as [-> _]. simplify_eq.
  eexists. split; [done|]. split; [done|]. split; [done|]. congruence.
Qed.

Lemma cancel_cases w s :
  queue_ok s → (w < length (waiters s))%nat →
  (settled (waiters s !!! w) = true ∧ removeAndCancel w s = s)
  ∨ (∃ i, queue s !! i = Some w ∧ removeAndCancel w s = leave i w None s).
Proof.
  intros Hq Hw. unfold removeAndCancel, removeQueued.
  destruct (list_find (w =.) (queue s)) as [[i v]|] eqn:E.
  - apply list_find_Some in E as (Hi & <- & _). right. exists i. split; [done|].
    destruct (queued_waits s i w Hq Hi) as (_ & _ & Hns). unfold settle.
    change (waiters (decrementQueuedKey (key (waiters s !!! w)) (splice i s))) with (waiters s).
    by rewrite Hns.
  - left. apply list_find_None in E. assert (Hs : settled (waiters s !!! w) = true).
    { destruct (settled (waiters s !!! w)) eqn:Es; [done|].
      assert (Hin : w ∈ queue s) by by apply (qo_pending s Hq).
      rewrite Forall_forall in E. by destruct (E w Hin). }
    split; [done|]. unfold settle. by rewrite Hs.
Qed.

Lemma cancel_ok w s :
  inv s → (w < length (waiters s))%nat →
  inv (removeAndCancel w s) ∧ grows s (removeAndCancel w s).
Proof.
  intros [Hco Hwc] Hw.
  destruct (cancel_cases w s (co_queue s Hco) Hw) as [[_ ->]|(i & Hi & ->)]; [done|].
  split; [|by apply grows_leave]. split; [by apply core_leave|].
  intros v Hv. cbn in Hv. apply sorted_elem_delete with (w := w) in Hv as [Hv Hne];
    [|apply (qo_order s (co_queue s Hco))|done].
  unfold unfit. rewrite leave_waiter, decide_False by done. exact (Hwc v Hv).
Qed.

Lemma park_eq k deadline w sig s :
  match sig with Some x => bool_decide (x ∈ aborted s) | None => false end = false →
  closed s = false →
  park k deadline w sig s
  = (Waiting (length (waiters s)),
     set_queue (queue s ++ [length (waiters s)]) (bump k 1 (queuedByKey s))
       (set_waiters (waiters s ++ [mkWaiter k w (Some (Z.max 1 deadline)) sig
                                     (bool_decide (is_Some sig)) false None]) s)).
Proof. intros Ha Hc. unfold park. by rewrite Ha, Hc. Qed.

Lemma StronglySorted_snoc (q : list nat) n :
  StronglySorted lt q → (∀ w, w ∈ q → (w < n)%nat) → StronglySorted lt (q ++ [n]).
Proof.
  induction 1 as [|a q Hs IH Ha]; intros Hn; cbn; [repeat constructor|].
  constructor; [apply IH; intros; apply Hn; by right|].
  rewrite List.Forall_app. split; [done|]. repeat constructor. apply Hn. left.
Qed.

(** The state [park] leaves. *)
Definition parked (x : McpAdmissionWaiter) (s : Admission) : Admission :=
  set_queue (queue s ++ [length (waiters s)]) (bump (key x) 1 (queuedByKey s))
    (set_waiters (waiters s ++ [x]) s).

Lemma parked_waiter x s w :
  (w < length (waiters s))%nat → waiters (parked x s) !!! w = waiters s !!! w.
Proof. intros Hw. cbn. by rewrite lookup_total_app_l. Qed.

Lemma parked_new x s : waiters (parked x s) !!! length (waiters s) = x.
Proof. cbn. rewrite lookup_total_app_r by lia. by rewrite Nat.sub_diag. Qed.

Lemma queue_ok_parked x s :
  queue_ok s → waiter_ok (limits s) x → settled x = false → closed s = false →
  Z.of_nat (length (queue s)) < maxQueue (limits s) →
  default 0 (queuedByKey s !! key x) < maxQueuePerKey (limits s) → queue_ok (parked x s).
Proof.
  intros H Hx Hs Hc Hq Hk.
  assert (Hlt : ∀ w, w ∈ queue s → (w < length (waiters s))%nat) by (intros w Hw; by apply (qo_pending s H)).
  assert (Hn : ∀ k, 0 <= sum_by (waits_at s k) (queue s)).
  { intros k. apply sum_by_nonneg. intros. apply waits_at_nonneg. }
  assert (E : ∀ k, sum_by (waits_at (parked x s) k) (queue (parked x s))
                   = sum_by (waits_at s k) (queue s) + if key x =s k then 1 else 0).
  { intros k. cbn [parked queue set_queue]. rewrite sum_by_app. unfold sum_by at 2. cbn [foldr].
    unfold waits_at at 2. rewrite parked_new, Z.add_0_r. f_equal. apply sum_by_ext. intros w Hw.
    unfold waits_at. by rewrite parked_waiter by auto. }
  rewrite (tracks_get _ _ _ (qo_bykey s H)) in Hk by done.
  split.
  - intros w y Hw. cbn in Hw. apply lookup_snoc_Some in Hw as [[_ Hw]|[_ <-]]; [|done].
    by apply (qo_waiters s H w).
  - intros w. change (queue (parked x s)) with (queue s ++ [length (waiters s)]).
    rewrite elem_of_app, list_elem_of_singleton, (qo_pending s H).
    change (length (waiters (parked x s))) with (length (waiters s ++ [x])). rewrite length_app.
    cbn [length]. destruct (decide (w = length (waiters s))) as [->|Hne].
    + rewrite parked_new. split; [intros _; split; [lia|done]|by right].
    + split.
      * intros [[Hw Hw']|]; [|done]. rewrite parked_waiter by done. split; [lia|done].
      * intros [Hw Hw']. left. rewrite parked_waiter in Hw' by lia. split; [lia|done].
  - apply StronglySorted_snoc; [apply (qo_order s H)|done].
  - change (queuedByKey (parked x s)) with (bump (key x) 1 (queuedByKey s)).
    apply (tracks_bump _ (λ k, sum_by (waits_at s k) (queue s)));
      [apply (qo_bykey s H)|apply Hn|lia|by rewrite E, js_eqb_refl|].
    intros k Hne. rewrite E, (proj2 (js_eqb_neq _ _)) by done. lia.
  - cbn. rewrite length_app. cbn. lia.
  - intros k. rewrite E. cbn [limits parked set_queue set_waiters].
    pose proof (qo_keycap s H k). destruct (key x =s k) eqn:Ek; [apply js_eqb_eq in Ek; subst|]; lia.
  - intros Hc'. cbn in Hc'. congruence.
Qed.

Lemma parked_ok x s :
  inv s → waiter_ok (limits s) x → settled x = false → closed s = false →
  canAdmit (key x) (weight x) s = false →
  Z.of_nat (length (queue s)) < maxQueue (limits s) →
  default 0 (queuedByKey s !! key x) < maxQueuePerKey (limits s) →
  inv (parked x s) ∧ grows s (parked x s).
Proof.
  intros [[Hl Hp Hq Ht] Hwc] Hx Hs Hc Hf H1 H2.
  assert (Hans : answer x = None) by (destruct Hx as [_ Hx]; rewrite Hs in Hx; tauto).
  split; [split; [split|]|].
  - done.
  - by apply (permits_ok_same s).
  - by apply queue_ok_parked.
  - intros v w g [Hvw Hw]. change (length (waiters (parked x s))) with (length (waiters s ++ [x])) in Hw.
    rewrite length_app in Hw. cbn in Hw. destruct (decide (w = length (waiters s))) as [->|Hne].
    + rewrite parked_new. congruence.
    + rewrite !parked_waiter by lia. apply Ht. lia.
  - intros w [Hw| ->%list_elem_of_singleton]%elem_of_app; unfold unfit.
    + rewrite parked_waiter by by apply (qo_pending s Hq). exact (Hwc w Hw).
    + by rewrite parked_new.
  - split; try done.
    + cbn. rewrite length_app. lia.
    + intros w Hw. rewrite parked_waiter by done. auto 6.
    + intros g p Hg. eauto.
Qed.

Definition signal_aborted (sig : option nat) (s : Admission) : Prop :=
  ∃ x, sig = Some x ∧ x ∈ aborted s.

Definition newWaiter (k : jsstr) (deadline w : Z) (sig : option nat) : McpAdmissionWaiter :=
  mkWaiter k w (Some (Z.max 1 deadline)) sig (bool_decide (is_Some sig)) false None.

(** The three ends of [acquire]: refused, admitted, parked. *)
Lemma acquire_cases k deadline w sig s :
  acquire k deadline w sig s = (Resolved None, s)
  ∨ (∃ n, w = Some n ∧ closed s = false ∧ weight_fits (limits s) n ∧ canAdmit k n s = true
       ∧ acquire k deadline w sig s = (Resolved (Some (length (grants s))), (grant k n s).2))
  ∨ (∃ n, w = Some n ∧ closed s = false ∧ weight_fits (limits s) n ∧ canAdmit k n s = false
       ∧ ¬ signal_aborted sig s
       ∧ Z.of_nat (length (queue s)) < maxQueue (limits s)
       ∧ default 0 (queuedByKey s !! k) < maxQueuePerKey (limits s)
       ∧ acquire k deadline w sig s
         = (Waiting (length (waiters s)), parked (newWaiter k deadline n sig) s)).
Proof.
  unfold acquire. destruct (closed s) eqn:Hc; [by left|]. destruct w as [w|]; [|by left].
  destruct ((w <? 1) || _ || _) eqn:Hw; [by left|].
  destruct (match sig with Some x => _ | None => _ end) eqn:Ha; [by left|].
  assert (Hna : ¬ signal_aborted sig s).
  { intros (x & -> & Hx). by apply bool_decide_eq_false in Ha. }
  destruct (canAdmit k w s) eqn:Had.
  - right; left. exists w. guards. done.
  - destruct ((maxQueue (limits s) <=? _) || _) eqn:Hq; [by left|]. right; right. exists w.
    rewrite park_eq by done. guards. done.
Qed.

Lemma acquire_ok k deadline w sig s :
  inv s → inv (acquire k deadline w sig s).2 ∧ grows s (acquire k deadline w sig s).2.
Proof.
  intros Hinv. destruct (acquire_cases k deadline w sig s)
    as [->|[(n & -> & Hc & [Hw _] & Ha & ->)|(n & -> & Hc & Hw & Ha & Hs & Hq & Hk & ->)]]; [done|..].
  - destruct Hinv as [Hco Hwc]. split; [|apply (grows_grant k n)]. split; [by apply core_grant|].
    intros v Hv. by apply (unfit_grant s); [apply Hco|..|apply Hwc].
  - apply parked_ok; try done. split; [done|]. split; [eexists; split; [done|lia]|done].
Qed.

(** *** Closing and aborting *)

Lemma close_all_closed q s : close_all q (set_closed s) = set_closed (close_all q s).
Proof.
  revert s; induction q as [|w q IH]; intros s; [done|]. cbn [close_all].
  rewrite <- IH. f_equal.
  change (waiters (decrementQueuedKey (key (waiters (set_closed s) !!! w))
                     (splice 0 (set_closed s)))) with (waiters s).
  change (waiters (decrementQueuedKey (key (waiters s !!! w)) (splice 0 s))) with (waiters s).
  by destruct (settled (waiters s !!! w)).
Qed.

Lemma close_all_ok q s :
  core s → queue s = q →
  core (close_all q s) ∧ queue (close_all q s) = [] ∧ grows s (close_all q s).
Proof.
  revert s; induction q as [|w q IH]; intros s Hco Hq; [done|]. cbn [close_all].
  assert (Hi : queue s !! 0%nat = Some w) by by rewrite Hq.
  destruct (queued_waits s 0 w (co_queue s Hco) Hi) as (_ & Hlt & Hns).
  change (waiters (decrementQueuedKey (key (waiters s !!! w)) (splice 0 s))) with (waiters s).
  rewrite Hns. change (resolve w None _) with (leave 0 w None s).
  destruct (IH (leave 0 w None s)) as (H1 & H2 & H3).
  - by apply core_leave.
  - cbn. by rewrite Hq.
  - split; [done|]. split; [done|]. transitivity (leave 0 w None s); [by apply grows_leave|done].
Qed.

Lemma close_ok s :
  inv s → inv (close s) ∧ grows s (close s) ∧ closed (close s) = true ∧ queue (close s) = [].
Proof.
  intros [Hco _]. unfold close. rewrite close_all_closed.
  destruct (close_all_ok (queue s) s Hco eq_refl) as ([Hl Hp Hq Ht] & He & Hg).
  set (s' := close_all (queue s) s) in *. split; [split; [split|]|split; [|done]].
  - done.
  - by apply (permits_ok_same s').
  - destruct Hq as [Q1 Q2 Q3 Q4 Q5 Q6 Q7]. by split.
  - by apply (in_turn_same s').
  - intros w Hw. cbn in Hw. rewrite He in Hw. by apply not_elem_of_nil in Hw.
  - transitivity s'; [done|]. split; try done. intros g p Hp'. eauto.
Qed.

Lemma hear_ok sig s w :
  inv s → (w < length (waiters s))%nat → inv (hear sig s w) ∧ grows s (hear sig s w).
Proof. intros H Hw. unfold hear. destruct (_ && _); [by apply cancel_ok|done]. Qed.

Lemma hear_all_ok sig ws s :
  inv s → (∀ w, w ∈ ws → (w < length (waiters s))%nat) →
  inv (foldl (hear sig) s ws) ∧ grows s (foldl (hear sig) s ws).
Proof.
  revert s; induction ws as [|w ws IH]; intros s Hs Hw; [done|]. cbn.
  destruct (hear_ok sig s w Hs) as [H1 G1]; [apply Hw; left|].
  destruct (IH (hear sig s w) H1) as [H2 G2].
  - intros v Hv. pose proof (gr_waiters _ _ G1). specialize (Hw v ltac:(by right)). lia.
  - split; [done|]. by transitivity (hear sig s w).
Qed.

Lemma set_aborted_ok a s : inv s → inv (set_aborted a s) ∧ grows s (set_aborted a s).
Proof.
  intros [[Hl Hp Hq Ht] Hwc]. split; [|by apply grows_same]. split; [split|]; [done|..|done].
  - by apply (permits_ok_same s).
  - by apply (queue_ok_same s).
  - by apply (in_turn_same s).
Qed.

Lemma abort_ok sig s : inv s → inv (abort sig s) ∧ grows s (abort sig s).
Proof.
  intros Hs. unfold abort. case_bool_decide; [done|].
  destruct (set_aborted_ok ({[sig]} ∪ aborted s) s Hs) as [H1 G1].
  destruct (hear_all_ok sig (seq 0 (length (waiters s))) _ H1) as [H2 G2].
  - intros w Hw%elem_of_seq. cbn. lia.
  - split; [done|]. by transitivity (set_aborted ({[sig]} ∪ aborted s) s).
Qed.

(** *** Every history keeps the invariant *)

Lemma timer_in_range s w d : timer (waiters s !!! w) = Some d → (w < length (waiters s))%nat.
Proof.
  intros H. destruct (decide (w < length (waiters s))%nat); [done|].
  rewrite list_lookup_total_alt, lookup_ge_None_2 in H by lia. done.
Qed.

Lemma admission_step_ok s s' : step s s' → inv s → inv s' ∧ grows s s'.
Proof.
  intros Hstep Hs. destruct Hstep.
  - by apply acquire_ok.
  - by apply release_ok.
  - eapply cancel_ok; [done|by eapply timer_in_range].
  - by apply abort_ok.
  - by destruct (close_ok s Hs) as (? & ? & _).
Qed.

Lemma admission_steps_ok s s' : steps step s s' → inv s → inv s' ∧ grows s s'.
Proof.
  induction 1 as [|s s1 s2 Hstep _ IH]; intros Hs; [done|].
  destruct (admission_step_ok _ _ Hstep Hs) as [H1 G1]. destruct (IH H1) as [H2 G2].
  split; [done|]. by transitivity s1.
Qed.

Lemma construct_ok a b c d s : construct a b c d = Ok s → inv s.
Proof.
  intros H. unfold construct in H. res_inv H.
  assert (Hn : ∀ l n, integer_from l n = true → l <= default 0 n) by
    (intros l [z|] Hz; cbn in *; [guards; done|done]).
  assert (Hl : limits_ok (mkLimits (default 0 a) (default 0 b) (default 0 c)
                            (default 0 (default c d)))) by (repeat split; cbn; apply Hn; done).
  destruct Hl as (L1 & L2 & L3 & L4). cbn in L1, L2, L3, L4.
  split; [split|].
  - done.
  - split; try done.
    + intros p Hp. by apply not_elem_of_nil in Hp.
    + cbn. lia.
    + intros k. cbn. lia.
  - split; try done.
    + intros w. cbn. split; [by intros ?%not_elem_of_nil|lia].
    + constructor.
  - intros v w g Hv. cbn in Hv. lia.
  - intros w Hw. by apply not_elem_of_nil in Hw.
Qed.

(** The states a constructed admission reaches. *)
Definition reachable (s : Admission) : Prop :=
  ∃ a b c d s0, construct a b c d = Ok s0 ∧ steps step s0 s.

Lemma admission_inv s : reachable s → inv s.
Proof.
  intros (a & b & c & d & s0 & H & Hs). by apply (admission_steps_ok s0), (construct_ok a b c d).
Qed.

End McpAdmission.
