(* ===== verification/AdmissionFacts.v ===== *)
(** * What bounded admission promises

    Theorems about every reachable state of [Admission]: the permits that are out and the parked
    requests stay within their bounds and are what the statistics report; a parked request waits
    only for capacity, and its timer, its caller's disconnection and the shutdown each end the
    wait; among requests of one key a heavier newcomer does not overtake; and a configuration the
    program accepts admits every tool. *)

From S2P Require Import Prelude JsString Admission.

Module AdmissionFacts.
Export McpAdmission.
Local Open Scope Z_scope.

(** ** Bounds *)

(** The permits that are out *)
Definition outstanding (s : Admission) : list Permit :=
  List.filter (λ p, negb (released p)) (grants s).

Definition of_key (k : jsstr) (ps : list Permit) : list Permit :=
  List.filter (λ p, p_key p =s k) ps.

Definition total (ps : list Permit) : Z := sum_by p_weight ps.

Definition unanswered (s : Admission) (w : nat) : bool :=
  match answer (waiters s !!! w) with None => true | Some _ => false end.

(** The requests whose promise has no value yet, in the order they came *)
Definition pending (s : Admission) : list nat :=
  List.filter (unanswered s) (seq 0 (length (waiters s))).

Definition pending_of (k : jsstr) (s : Admission) : list nat :=
  List.filter (λ w, key (waiters s !!! w) =s k) (pending s).

Lemma sum_by_filter {A} (f g : A → Z) (p : A → bool) (l : list A) :
  (∀ a, g a = if p a then f a else 0) → sum_by g l = sum_by f (List.filter p l).
Proof.
  intros H. induction l as [|a l IH]; [done|]. cbn [List.filter]. rewrite sum_by_cons, IH, H.
  destruct (p a); [by rewrite sum_by_cons|lia].
Qed.

Lemma sum_by_one {A} (l : list A) : sum_by (λ _, 1) l = Z.of_nat (length l).
Proof. induction l as [|a l IH]; [done|]. rewrite sum_by_cons. cbn [length]. lia. Qed.

Lemma total_outstanding s : sum_by weight_out (grants s) = total (outstanding s).
Proof. apply sum_by_filter. intros p. unfold weight_out. by destruct (released p). Qed.

Lemma total_of_key s k : sum_by (weight_at k) (grants s) = total (of_key k (outstanding s)).
Proof.
  transitivity (sum_by (λ p, if p_key p =s k then p_weight p else 0) (outstanding s)).
  - apply sum_by_filter. intros p. unfold weight_at, weight_out. destruct (released p), (_ =s _); done.
  - by apply sum_by_filter.
Qed.

Lemma count_outstanding s : sum_by count_out (grants s) = Z.of_nat (length (outstanding s)).
Proof.
  rewrite <- sum_by_one. apply sum_by_filter. intros p. unfold count_out. by destruct (released p).
Qed.

Lemma unanswered_settled s w :
  queue_ok s → (w < length (waiters s))%nat → unanswered s w = negb (settled (waiters s !!! w)).
Proof.
  intros H Hw. destruct (qo_waiters s H w _ (waiter_lookup s w Hw)) as [_ Hx]. unfold unanswered.
  destruct (settled (waiters s !!! w)).
  - by destruct Hx as (_ & _ & [r ->]).
  - by destruct Hx as (_ & _ & ->).
Qed.

Lemma StronglySorted_Lfilter (p : nat → bool) (l : list nat) :
  StronglySorted lt l → StronglySorted lt (List.filter p l).
Proof.
  induction 1 as [|a l Hs IH Ha]; cbn; [constructor|]. destruct (p a); [|done].
  constructor; [done|]. rewrite List.Forall_forall in *. intros x [Hx _]%List.filter_In. auto.
Qed.

Lemma StronglySorted_seq n m : StronglySorted lt (seq n m).
Proof.
  revert n; induction m as [|m IH]; intros n; cbn; constructor; [done|].
  rewrite List.Forall_forall. intros x Hx%List.in_seq. lia.
Qed.

Lemma sorted_unique (l k : list nat) :
  StronglySorted lt l → StronglySorted lt k → (∀ w, w ∈ l ↔ w ∈ k) → l = k.
Proof.
  assert (Hd : ∀ q : list nat, StronglySorted lt q → NoDup q).
  { induction 1 as [|a q _ IH Ha]; constructor; [|done]. intros Hin%list_elem_of_In.
    rewrite List.Forall_forall in Ha. specialize (Ha a Hin). lia. }
  assert (Hle : ∀ q : list nat, StronglySorted lt q → StronglySorted le q).
  { induction 1 as [|a q _ IH Ha]; constructor; [done|]. eapply List.Forall_impl; [|exact Ha].
    intros; cbn in *; lia. }
  intros Hl Hk H. apply (StronglySorted_unique le); [by apply Hle..|].
  apply NoDup_Permutation; auto.
Qed.

(** The queue is the pending requests. *)
Lemma queue_pending s : queue_ok s → queue s = pending s.
Proof.
  intros H. apply sorted_unique.
  - apply (qo_order s H).
  - apply StronglySorted_Lfilter, StronglySorted_seq.
  - intros w. unfold pending. rewrite elem_of_Lfilter, (qo_pending s H), elem_of_seq.
    split.
    + intros [Hw Hs]. split; [lia|]. by rewrite unanswered_settled, Hs.
    + intros [Hw Hs]. rewrite unanswered_settled in Hs by (done || lia). guards. split; [lia|done].
Qed.

Lemma pending_count s k :
  queue_ok s → sum_by (waits_at s k) (queue s) = Z.of_nat (length (pending_of k s)).
Proof.
  intros H. rewrite queue_pending, <- sum_by_one by done. by apply sum_by_filter.
Qed.

(** ** An admission in use: one permit out, two requests of its key and one of another parked *)

Definition demo_run (s : Admission) : Admission :=
  let s := (acquire "a" 100 (Some 3) None s).2 in
  let s := (acquire "a" 100 (Some 1) None s).2 in
  let s := (acquire "b" 0 (Some 2) (Some 7%nat) s).2 in
  (acquire "a" 100 (Some 2) None s).2.

Definition demo_start : Admission := mkAdmission (mkLimits 4 3 3 2) 0 0 ∅ ∅ [] false [] [] ∅.
Definition demo : Admission := demo_run demo_start.

Lemma demo_reachable : reachable demo.
Proof.
  exists (Some 4), (Some 3), (Some 3), (Some (Some 2)), demo_start. split; [done|].
  unfold demo, demo_run. do 4 (eapply steps_cons; [apply step_acquire|]). apply steps_refl.
Qed.

(** C28: The bounds of admission hold in every reachable state.  The weights of the permits that
    are out stay within the global cap and, for each key, within the cap per key; the requests
    still waiting stay within the bound of the queue and, for each key, within the bound per key;
    and [getStats] and [getQueuedForKey] report exactly these permits and requests. *)
Theorem admission_bounds s :
  reachable s →
  total (outstanding s) <= maxInflight (limits s)
  ∧ (∀ k, total (of_key k (outstanding s)) <= maxInflightPerKey (limits s))
  ∧ Z.of_nat (length (pending s)) <= maxQueue (limits s)
  ∧ (∀ k, Z.of_nat (length (pending_of k s)) <= maxQueuePerKey (limits s))
  ∧ getStats s = mkStats (Z.of_nat (length (outstanding s))) (total (outstanding s))
                   (maxInflight (limits s) - total (outstanding s))
                   (Z.of_nat (length (pending s))) (limits s)
  ∧ ∀ k, getQueuedForKey k s = Z.of_nat (length (pending_of k s)).
Proof.
  intros [[_ Hp Hq _] _]%admission_inv.
  pose proof (po_cap s Hp) as Hcap. rewrite (po_weight s Hp), total_outstanding in Hcap.
  split; [done|]. split; [intros k; rewrite <- total_of_key; apply (po_keycap s Hp)|].
  split; [rewrite <- queue_pending by done; apply (qo_cap s Hq)|].
  split; [intros k; rewrite <- pending_count by done; apply (qo_keycap s Hq)|]. split.
  - unfold getStats. rewrite (po_active s Hp), (po_weight s Hp), count_outstanding,
      total_outstanding, (queue_pending s Hq). f_equal. lia.
  - intros k. unfold getQueuedForKey. rewrite <- pending_count by done.
    apply (tracks_get _ (λ k, sum_by (waits_at s k) (queue s)) k (qo_bykey s Hq)).
    apply sum_by_nonneg. intros. apply waits_at_nonneg.
Qed.

Lemma admission_bounds_witness :
  pending demo = [0; 1; 2]%nat
  ∧ pending_of "a" demo = [0; 2]%nat
  ∧ getStats demo = mkStats 1 3 1 3 (limits demo).
Proof.
  destruct (admission_bounds demo demo_reachable) as (_ & _ & _ & _ & H & _).
  split; [by vm_compute|]. split; [by vm_compute|]. rewrite H. by vm_compute.
Defined.

(** ** Abort signals *)

(** Nobody waits on a signal that was aborted. *)
Definition heard (s : Admission) : Prop :=
  ∀ w, (w < length (waiters s))%nat → settled (waiters s !!! w) = false →
    ∀ sig, signal (waiters s !!! w) = Some sig → sig ∉ aborted s.

Lemma heard_grows s s' :
  grows s s' → aborted s' = aborted s →
  (∀ w, (length (waiters s) <= w < length (waiters s'))%nat → settled (waiters s' !!! w) = false →
     ∀ sig, signal (waiters s' !!! w) = Some sig → sig ∉ aborted s) →
  heard s → heard s'.
Proof.
  intros G Ea Hnew H w Hw Hs sig Hsig. rewrite Ea.
  destruct (decide (w < length (waiters s))%nat) as [Hlt|]; [|apply (Hnew w); [lia|done|done]].
  destruct (gr_waiter _ _ G w Hlt) as (_ & _ & Eg & Es & _). apply (H w Hlt); [|congruence].
  destruct (settled (waiters s !!! w)); [|done]. rewrite Es in Hs; done.
Qed.

Lemma drain_from_frame fuel i s s' :
  drain_from fuel i s = Some s' →
  aborted s' = aborted s ∧ length (waiters s') = length (waiters s).
Proof.
  revert i s; induction fuel as [|fuel IH]; intros i s H; [done|]. cbn [drain_from] in H.
  destruct (queue s !! i) as [w|]; [|by simplify_eq].
  destruct (settled _); [by apply IH in H|]. destruct (negb _); [by apply IH in H|].
  apply IH in H as [-> ->]. split; [done|]. cbn. by rewrite !length_alter.
Qed.

Lemma drain_frame s :
  aborted (drain s) = aborted s ∧ length (waiters (drain s)) = length (waiters s).
Proof.
  unfold drain. destruct (closed s); [done|]. destruct (drain_from _ _ _) as [s'|] eqn:E; [|done].
  by apply drain_from_frame in E.
Qed.

Lemma cancel_frame w s :
  aborted (removeAndCancel w s) = aborted s
  ∧ length (waiters (removeAndCancel w s)) = length (waiters s).
Proof.
  unfold removeAndCancel, settle, removeQueued.
  destruct (list_find _ _) as [[i v]|]; destruct (settled _); cbn; by rewrite ?length_alter.
Qed.

Lemma close_all_frame q s :
  aborted (close_all q s) = aborted s ∧ length (waiters (close_all q s)) = length (waiters s).
Proof.
  revert s; induction q as [|w q IH]; intros s; [done|]. cbn [close_all].
  destruct (settled _); destruct (IH (if true then
    decrementQueuedKey (key (waiters s !!! w)) (splice 0 s) else s)) as [E1 E2].
  - by rewrite E1, E2.
  - match goal with |- context [close_all q ?x] => destruct (IH x) as [-> ->] end.
    cbn. by rewrite !length_alter.
Qed.

Lemma hear_settles sig ws s w :
  inv s → (∀ v, v ∈ ws → (v < length (waiters s))%nat) → w ∈ ws →
  signal (waiters s !!! w) = Some sig →
  settled (waiters (foldl (hear sig) s ws) !!! w) = true.
Proof.
  revert s; induction ws as [|v ws IH]; intros s Hs Hws Hw Hsig; [by apply not_elem_of_nil in Hw|].
  cbn. assert (Hv : (v < length (waiters s))%nat) by (apply Hws; left).
  destruct (hear_ok sig s v Hs Hv) as [H1 G1].
  assert (Hws' : ∀ u, u ∈ ws → (u < length (waiters (hear sig s v)))%nat).
  { intros u Hu. pose proof (gr_waiters _ _ G1). specialize (Hws u ltac:(by right)). lia. }
  destruct (gr_waiter _ _ G1 w) as (_ & _ & Eg & _); [by apply Hws|].
  apply elem_of_cons in Hw as [->|Hw]; [|apply IH; [done|done|done|congruence]].
  destruct (hear_all_ok sig ws _ H1 Hws') as [_ G2].
  apply (gr_waiter _ _ G2); [pose proof (gr_waiters _ _ G1); lia|].
  unfold hear in *. rewrite bool_decide_true, andb_true_r by done. destruct Hs as [Hco Hwc].
  destruct (settled (waiters s !!! v)) eqn:Es.
  - destruct (cancel_cases v s (co_queue s Hco) Hv) as [[_ ->]|(i & Hi & _)].
    + by destruct (listening _).
    + destruct (queued_waits s i v (co_queue s Hco) Hi) as (_ & _ & ?). congruence.
  - destruct (qo_waiters s (co_queue s Hco) v _ (waiter_lookup s v Hv)) as [_ Hx].
    rewrite Es, Hsig in Hx. destruct Hx as (_ & -> & _). cbn.
    destruct (cancel_cases v s (co_queue s Hco) Hv) as [[? _]|(i & Hi & ->)]; [congruence|].
    by rewrite leave_waiter, decide_True.
Qed.

Lemma hear_all_frame sig ws s :
  aborted (foldl (hear sig) s ws) = aborted s
  ∧ length (waiters (foldl (hear sig) s ws)) = length (waiters s).
Proof.
  revert s; induction ws as [|w ws IH]; intros s; [done|]. cbn.
  destruct (IH (hear sig s w)) as [-> ->]. unfold hear. destruct (_ && _); [apply cancel_frame|done].
Qed.

Lemma abort_settles sig s w :
  inv s → (w < length (waiters s))%nat → signal (waiters s !!! w) = Some sig →
  sig ∉ aborted s → settled (waiters (abort sig s) !!! w) = true.
Proof.
  intros Hs Hw Hsig Hn. unfold abort. rewrite bool_decide_false by done.
  apply hear_settles; [by apply set_aborted_ok|..|done].
  - intros v Hv%elem_of_seq. cbn. lia.
  - apply elem_of_seq. lia.
Qed.

Lemma heard_step s s' : step s s' → inv s → heard s → heard s'.
Proof.
  intros Hstep Hs Hh. destruct (admission_step_ok s s' Hstep Hs) as [_ G].
  destruct Hstep as [k deadline w sig|g|w d Ht|sig|].
  - destruct (acquire_cases k deadline w sig s) as
      [E|[(n & -> & _ & _ & _ & E)|(n & -> & _ & _ & _ & Hn & _ & _ & E)]];
      rewrite E in G |- *; [done|..].
    + apply (heard_grows s); [done..| |done]. cbn. intros v Hv. lia.
    + apply (heard_grows s); [done..| |done]. cbn [snd]. intros v Hv _ x Hx Hin. apply Hn.
      change (waiters (parked _ s)) with (waiters s ++ [newWaiter k deadline n sig]) in Hv.
      rewrite length_app in Hv. cbn in Hv. replace v with (length (waiters s)) in Hx by lia.
      rewrite parked_new in Hx. by exists x.
  - assert (E : aborted (release g s) = aborted s
                ∧ length (waiters (release g s)) = length (waiters s)).
    { rewrite release_eq. destruct (grants s !! g) as [p|]; [|done].
      destruct (released p); [done|]. destruct (drain_frame (given_back g p s)) as [-> ->]. done. }
    destruct E as [Ea El]. apply (heard_grows s); [done..| |done]. intros v. lia.
  - destruct (cancel_frame w s) as [Ea El]. apply (heard_grows s); [done..| |done].
    intros v. unfold fireTimer. lia.
  - unfold heard. destruct (decide (sig ∈ aborted s)) as [Hin|Hn].
    { unfold abort. by rewrite bool_decide_true. }
    assert (E : aborted (abort sig s) = {[sig]} ∪ aborted s
                ∧ length (waiters (abort sig s)) = length (waiters s)).
    { unfold abort. rewrite bool_decide_false by done.
      destruct (hear_all_frame sig (seq 0 (length (waiters s)))
                  (set_aborted ({[sig]} ∪ aborted s) s)) as [-> ->]. done. }
    destruct E as [Ea El]. intros w Hw Hset x Hx. rewrite El in Hw.
    destruct (gr_waiter _ _ G w Hw) as (_ & _ & Eg & Es & _). rewrite Ea.
    assert (x ≠ sig) as Hne.
    { intros ->. rewrite abort_settles in Hset; [done..|congruence|done]. }
    assert (Hset' : settled (waiters s !!! w) = false).
    { destruct (settled (waiters s !!! w)); [|done]. by rewrite Es in Hset. }
    specialize (Hh w Hw Hset' x ltac:(congruence)). set_solver.
  - assert (E : aborted (close s) = aborted s ∧ length (waiters (close s)) = length (waiters s)).
    { unfold close. destruct (close_all_frame (queue s) (set_closed s)) as [-> ->]. done. }
    destruct E as [Ea El]. apply (heard_grows s); [done..| |done]. intros v. lia.
Qed.

Lemma reachable_heard s : reachable s → heard s.
Proof.
  intros (a & b & c & d & s0 & H & Hsteps).
  assert (Hs0 : inv s0 ∧ heard s0).
  { split; [by eapply construct_ok|]. unfold construct in H. res_inv H. intros w Hw. cbn in Hw. lia. }
  apply (steps_invariant step (λ s, inv s ∧ heard s)) in Hsteps; [by destruct Hsteps| |done].
  intros u v Huv [Hu Hh]. split; [by apply (admission_step_ok u)|by apply (heard_step u)].
Qed.

(** ** Waiting ends *)

Lemma settled_answer s w :
  queue_ok s → (w < length (waiters s))%nat → settled (waiters s !!! w) = true →
  is_Some (answer (waiters s !!! w)).
Proof.
  intros H Hw Hs. destruct (qo_waiters s H w _ (waiter_lookup s w Hw)) as [_ Hx].
  rewrite Hs in Hx. tauto.
Qed.

Lemma cancel_answers s w :
  inv s → (w < length (waiters s))%nat → answer (waiters s !!! w) = None →
  answer (waiters (removeAndCancel w s) !!! w) = Some None.
Proof.
  intros [Hco Hwc] Hw Ha.
  destruct (cancel_cases w s (co_queue s Hco) Hw) as [[Hs _]|(i & Hi & ->)].
  - destruct (settled_answer s w (co_queue s Hco) Hw Hs). congruence.
  - rewrite leave_waiter, decide_True by done. cbn. by rewrite Ha.
Qed.

(** The request was not given a permit. *)
Definition without_permit (s : Admission) (w : nat) : Prop :=
  ∀ g, answer (waiters s !!! w) ≠ Some (Some g).

Lemma leave_without i v w s :
  (v < length (waiters s))%nat → without_permit s w → without_permit (leave i v None s) w.
Proof.
  intros Hv H g. rewrite leave_waiter by done. case_decide; [subst v; cbn|apply H].
  specialize (H g). destruct (answer _) as [r|]; cbn; congruence.
Qed.

Lemma hear_without sig s v w :
  inv s → (v < length (waiters s))%nat → without_permit s w → without_permit (hear sig s v) w.
Proof.
  intros [Hco _] Hv H. unfold hear. destruct (_ && _); [|done].
  destruct (cancel_cases v s (co_queue s Hco) Hv) as [[_ ->]|(i & _ & ->)]; [done|].
  by apply leave_without.
Qed.

Lemma hear_all_without sig ws s w :
  inv s → (∀ v, v ∈ ws → (v < length (waiters s))%nat) → without_permit s w →
  without_permit (foldl (hear sig) s ws) w.
Proof.
  revert s; induction ws as [|v ws IH]; intros s Hs Hws H; [done|]. cbn.
  assert (Hv : (v < length (waiters s))%nat) by (apply Hws; left).
  destruct (hear_ok sig s v Hs Hv) as [H1 G1]. apply IH; [done| |by apply hear_without].
  intros u Hu. pose proof (gr_waiters _ _ G1). specialize (Hws u ltac:(by right)). lia.
Qed.

Lemma close_all_without q s w :
  core s → queue s = q → without_permit s w → without_permit (close_all q s) w.
Proof.
  revert s; induction q as [|v q IH]; intros s Hco Hq H; [done|]. cbn [close_all].
  assert (Hi : queue s !! 0%nat = Some v) by by rewrite Hq.
  destruct (queued_waits s 0 v (co_queue s Hco) Hi) as (_ & Hlt & Hns).
  change (waiters (decrementQueuedKey (key (waiters s !!! v)) (splice 0 s))) with (waiters s).
  rewrite Hns. change (resolve v None _) with (leave 0 v None s).
  apply IH; [by apply core_leave|cbn; by rewrite Hq|by apply leave_without].
Qed.

Lemma refused s w :
  queue_ok s → (w < length (waiters s))%nat → settled (waiters s !!! w) = true →
  without_permit s w → answer (waiters s !!! w) = Some None.
Proof.
  intros H Hw Hs Hn. destruct (settled_answer s w H Hw Hs) as [[g|] Hg]; [|done].
  by destruct (Hn g).
Qed.

Lemma abort_answers sig s w :
  inv s → (w < length (waiters s))%nat → answer (waiters s !!! w) = None →
  signal (waiters s !!! w) = Some sig → sig ∉ aborted s →
  answer (waiters (abort sig s) !!! w) = Some None.
Proof.
  intros Hs Hw Ha Hsig Hn. destruct (abort_ok sig s Hs) as [[Hco _] G]. apply refused.
  - apply Hco.
  - pose proof (gr_waiters _ _ G). lia.
  - by apply abort_settles.
  - unfold abort. rewrite bool_decide_false by done. apply hear_all_without.
    + by apply set_aborted_ok.
    + intros v Hv%elem_of_seq. cbn. lia.
    + intros g. cbn. congruence.
Qed.

Lemma close_answers s w :
  inv s → (w < length (waiters s))%nat → answer (waiters s !!! w) = None →
  answer (waiters (close s) !!! w) = Some None.
Proof.
  intros Hs Hw Ha. destruct (close_ok s Hs) as ([Hco _] & G & _ & Hq). pose proof (gr_waiters _ _ G).
  apply refused; [apply Hco|lia|..].
  - destruct (settled (waiters (close s) !!! w)) eqn:E; [done|].
    assert (Hin : w ∈ queue (close s)) by (apply (qo_pending _ (co_queue _ Hco)); split; [lia|done]).
    rewrite Hq in Hin. by apply not_elem_of_nil in Hin.
  - unfold close. rewrite close_all_closed.
    destruct Hs as [Hc _]. intros g. apply (close_all_without (queue s) s w Hc eq_refl).
    intros h. congruence.
Qed.

(** C24: Requests wait only for capacity, and their wait ends.  In every reachable state, a request
    whose promise has no value yet is in an admission that is not closed and does not fit beside
    the permits that are out, of which there is one at least: no wake-up is lost.  Its timer is
    armed, for a millisecond or more, and answers it with a refusal when it fires; so do the abort
    of its signal, which nobody has aborted yet, and [close]. *)
Theorem waits_only_for_capacity s w :
  reachable s → (w < length (waiters s))%nat → answer (waiters s !!! w) = None →
  closed s = false
  ∧ canAdmit (key (waiters s !!! w)) (weight (waiters s !!! w)) s = false
  ∧ outstanding s ≠ []
  ∧ (∃ d, timer (waiters s !!! w) = Some d ∧ 1 <= d
       ∧ answer (waiters (fireTimer w s) !!! w) = Some None)
  ∧ (∀ sig, signal (waiters s !!! w) = Some sig →
       (sig ∉ aborted s) ∧ answer (waiters (abort sig s) !!! w) = Some None)
  ∧ answer (waiters (close s) !!! w) = Some None.
Proof.
  intros Hr Hw Ha. pose proof (admission_inv s Hr) as Hs. pose proof (reachable_heard s Hr) as Hh.
  destruct (Hs) as [[_ Hp Hq _] Hwc].
  assert (Hns : settled (waiters s !!! w) = false).
  { pose proof (unanswered_settled s w Hq Hw) as E. unfold unanswered in E. rewrite Ha in E.
    by destruct (settled _). }
  assert (Hin : w ∈ queue s) by by apply (qo_pending s Hq).
  destruct (qo_waiters s Hq w _ (waiter_lookup s w Hw)) as [(F1 & F2 & F3) Hx]. rewrite Hns in Hx.
  destruct Hx as ((d & Hd & Hd1) & _ & _). pose proof (Hwc w Hin) as Hu. unfold unfit in Hu.
  split.
  { destruct (closed s) eqn:E; [|done]. rewrite (qo_closed s Hq E) in Hin.
    by apply not_elem_of_nil in Hin. }
  split; [done|]. split.
  { intros E. enough (canAdmit (key (waiters s !!! w)) (weight (waiters s !!! w)) s = true) by congruence.
    apply canAdmit_iff; [done|]. rewrite total_outstanding, total_of_key, E. cbn. lia. }
  split; [exists d; split; [done|split; [done|by apply cancel_answers]]|].
  split; [|by apply close_answers]. intros sig Hsig.
  assert (Hn : sig ∉ aborted s) by by apply (Hh w).
  split; [done|by apply abort_answers].
Qed.

Lemma waits_only_for_capacity_witness :
  answer (waiters demo !!! 1%nat) = None
  ∧ signal (waiters demo !!! 1%nat) = Some 7%nat
  ∧ answer (waiters (abort 7 demo) !!! 1%nat) = Some None
  ∧ answer (waiters (release 0 demo) !!! 1%nat) = Some (Some 2%nat).
Proof.
  destruct (waits_only_for_capacity demo 1 demo_reachable) as (_ & _ & _ & _ & H & _);
    [vm_compute; lia|by vm_compute|].
  split; [by vm_compute|]. split; [by vm_compute|]. split; [|by vm_compute].
  by apply (H 7%nat).
Defined.

(** ** Turns *)

(** Requests of one key take turns.  In every reachable state, no parked request has got a
    permit while another of the same key that came before it, and asks for no more, still waits;
    and a new request is not admitted past such a request either. *)
Theorem first_come_first_served s :
  reachable s →
  (∀ v w g, (v < w < length (waiters s))%nat →
     key (waiters s !!! v) = key (waiters s !!! w) →
     weight (waiters s !!! v) <= weight (waiters s !!! w) →
     answer (waiters s !!! w) = Some (Some g) → v ∉ pending s)
  ∧ (∀ k deadline n sig g v, (acquire k deadline (Some n) sig s).1 = Resolved (Some g) →
       key (waiters s !!! v) = k → weight (waiters s !!! v) <= n → v ∉ pending s).
Proof.
  intros [[_ Hp Hq Ht] Hwc]%admission_inv. rewrite <- queue_pending by done. split.
  - intros v w g Hvw Hk Hle Hg [_ Hs]%(qo_pending s Hq). by rewrite (Ht v w g) in Hs.
  - intros k deadline n sig g v Hacq Hk Hle Hin.
    destruct (acquire_cases k deadline (Some n) sig s)
      as [E|[(n' & [= <-] & _ & _ & Hc & E)|(n' & [= <-] & _ & _ & _ & _ & _ & _ & E)]];
      rewrite E in Hacq; [done| |done].
    pose proof (Hwc v Hin) as Hu. unfold unfit in Hu. rewrite Hk in Hu.
    by rewrite (canAdmit_anti s k _ n Hle Hu) in Hc.
Qed.

Lemma first_come_first_served_witness :
  let s := release 0 demo in
  answer (waiters s !!! 0%nat) = Some (Some 1%nat)
  ∧ answer (waiters s !!! 2%nat) = None
  ∧ (acquire "a" 100 (Some 2) None s).1 ≠ Resolved (Some 3%nat).
Proof.
  intros s. assert (Hr : reachable s).
  { destruct demo_reachable as (a & b & c & d & s0 & H & Hs). exists a, b, c, d, s0. split; [done|].
    eapply steps_trans; [exact Hs|]. apply steps_one, step_release. }
  destruct (first_come_first_served s Hr) as [_ H].
  split; [by vm_compute|]. split; [by vm_compute|]. intros Ha.
  apply (H "a" 100 2 None 3%nat 2%nat Ha); [by vm_compute|vm_compute; done|].
  assert (E : pending s = [2]%nat) by by vm_compute. rewrite E. by left.
Defined.

(** Answers are final, and a permit once released stays released: releasing it again does
    nothing. *)
Lemma answers_are_final s s' :
  reachable s → steps step s s' →
  (∀ w r, (w < length (waiters s))%nat → answer (waiters s !!! w) = Some r →
     answer (waiters s' !!! w) = Some r)
  ∧ (∀ g p, grants s !! g = Some p → released p = true → release g s' = s').
Proof.
  intros Hr Hsteps. destruct (admission_steps_ok s s' Hsteps (admission_inv s Hr)) as [_ G]. split.
  - intros w r Hw Ha. by apply (gr_waiter _ _ G).
  - intros g p Hg Hrel. destruct (gr_permit _ _ G g p Hg) as (p' & Hg' & _ & _ & E).
    rewrite (E Hrel) in Hg'. rewrite release_eq, Hg'. by rewrite Hrel.
Qed.

End AdmissionFacts.
