(* ===== verification/AdmissionConfig.v ===== *)
(** * Admission limits of the configuration ([src/src/config.ts], [src/src/server.ts])

    The limits of admission come from environment variables.  A variable is what [Number] makes of
    its text: unset (or empty), a finite number, or not one.  [loadConfig] parses each, then checks
    them against each other; [createServer] builds the three admissions from the result. *)

From S2P Require Import Prelude JsString Admission AdmissionFacts.
From Stdlib Require Import QArith.QArith QArith.Qround.

Module AdmissionConfig.
Export AdmissionFacts.
Local Open Scope Z_scope.

Inductive Setting := Unset | Finite (q : Q) | NotFinite.

Inductive ConfigError :=
| invalid_setting (name : jsstr)
| inflight_below_weight | inflight_per_session_below_weight | waiters_per_session_above_waiters
| soft_cap_above_hard_cap | per_client_above_hard_cap | reaper_above_idle.

Definition parsePositiveInteger (value : Setting) (fallback : Z) (name : jsstr)
  : res ConfigError Z :=
  match value with
  | Unset => Ok fallback
  | NotFinite => Err (invalid_setting name)
  | Finite q => if Qle_bool 1 q then Ok (Qfloor q) else Err (invalid_setting name)
  end.

(** The variables, without their prefix [KONTROL_MCP_]. *)
Record Env := mkEnv {
  MAX_INFLIGHT : Setting; MAX_INFLIGHT_PER_SESSION : Setting; MAX_QUEUE : Setting;
  MAX_QUEUE_PER_SESSION : Setting; MAX_WAITERS : Setting; MAX_WAITERS_PER_SESSION : Setting;
  MAX_WAITER_QUEUE : Setting; MAX_RESOURCE_READS : Setting;
  MAX_RESOURCE_READS_PER_CLIENT : Setting; MAX_RESOURCE_READ_QUEUE : Setting;
  UNUSED_SESSION_IDLE_MS : Setting; SESSION_REAPER_INTERVAL_MS : Setting;
  SESSION_MAX_PER_CLIENT : Setting; SESSION_SOFT_CAP : Setting; SESSION_HARD_CAP : Setting
}.

Record McpConfig := mkConfig {
  mcpMaxInflight : Z; mcpMaxInflightPerSession : Z; mcpMaxQueue : Z; mcpMaxQueuePerSession : Z;
  mcpMaxWaiters : Z; mcpMaxWaitersPerSession : Z; mcpMaxWaiterQueue : Z;
  mcpMaxResourceReads : Z; mcpMaxResourceReadsPerClient : Z; mcpMaxResourceReadQueue : Z;
  mcpUnusedSessionIdleMs : Z; mcpSessionReaperIntervalMs : Z;
  mcpSessionMaxPerClient : Z; mcpSessionSoftCap : Z; mcpSessionHardCap : Z
}.

Definition parseMcpConfig (env : Env) : res ConfigError McpConfig :=
  inflight ← parsePositiveInteger (MAX_INFLIGHT env) 32 "KONTROL_MCP_MAX_INFLIGHT";
  inflightPerSession ← parsePositiveInteger (MAX_INFLIGHT_PER_SESSION env) 8
                         "KONTROL_MCP_MAX_INFLIGHT_PER_SESSION";
  queued ← parsePositiveInteger (MAX_QUEUE env) 128 "KONTROL_MCP_MAX_QUEUE";
  queuedPerSession ← parsePositiveInteger (MAX_QUEUE_PER_SESSION env) 16
                       "KONTROL_MCP_MAX_QUEUE_PER_SESSION";
  waiting ← parsePositiveInteger (MAX_WAITERS env) 64 "KONTROL_MCP_MAX_WAITERS";
  waitingPerSession ← parsePositiveInteger (MAX_WAITERS_PER_SESSION env) 2
                        "KONTROL_MCP_MAX_WAITERS_PER_SESSION";
  waiterQueue ← parsePositiveInteger (MAX_WAITER_QUEUE env) 64 "KONTROL_MCP_MAX_WAITER_QUEUE";
  reads ← parsePositiveInteger (MAX_RESOURCE_READS env) 2 "KONTROL_MCP_MAX_RESOURCE_READS";
  readsPerClient ← parsePositiveInteger (MAX_RESOURCE_READS_PER_CLIENT env) 1
                     "KONTROL_MCP_MAX_RESOURCE_READS_PER_CLIENT";
  readQueue ← parsePositiveInteger (MAX_RESOURCE_READ_QUEUE env) 16
                "KONTROL_MCP_MAX_RESOURCE_READ_QUEUE";
  idle ← parsePositiveInteger (UNUSED_SESSION_IDLE_MS env) 600000
           "KONTROL_MCP_UNUSED_SESSION_IDLE_MS";
  interval ← parsePositiveInteger (SESSION_REAPER_INTERVAL_MS env) 15000
               "KONTROL_MCP_SESSION_REAPER_INTERVAL_MS";
  perClient ← parsePositiveInteger (SESSION_MAX_PER_CLIENT env) 20
                "KONTROL_MCP_SESSION_MAX_PER_CLIENT";
  soft ← parsePositiveInteger (SESSION_SOFT_CAP env) 150 "KONTROL_MCP_SESSION_SOFT_CAP";
  hard ← parsePositiveInteger (SESSION_HARD_CAP env) 200 "KONTROL_MCP_SESSION_HARD_CAP";
  Ok (mkConfig inflight inflightPerSession queued queuedPerSession waiting waitingPerSession
        waiterQueue reads readsPerClient readQueue idle interval perClient soft hard).

Definition MAX_ADMISSION_WEIGHT : Z := 4.

(** The relational checks of [loadConfig] *)
Definition validateMcpConfig (c : McpConfig) : res ConfigError unit :=
  _ ← reject (mcpMaxInflight c <? MAX_ADMISSION_WEIGHT) inflight_below_weight;
  _ ← reject (mcpMaxInflightPerSession c <? MAX_ADMISSION_WEIGHT) inflight_per_session_below_weight;
  _ ← reject (mcpMaxWaiters c <? mcpMaxWaitersPerSession c) waiters_per_session_above_waiters;
  _ ← reject (mcpSessionHardCap c <? mcpSessionSoftCap c) soft_cap_above_hard_cap;
  _ ← reject (mcpSessionHardCap c <? mcpSessionMaxPerClient c) per_client_above_hard_cap;
  reject (mcpUnusedSessionIdleMs c <? mcpSessionReaperIntervalMs c) reaper_above_idle.

Definition loadMcpConfig (env : Env) : res ConfigError McpConfig :=
  c ← parseMcpConfig env;
  _ ← validateMcpConfig c;
  Ok c.

(** *** The admissions of [createServer] *)

Definition mcpAdmission (c : McpConfig) : res LimitError Admission :=
  construct (Some (mcpMaxInflight c)) (Some (mcpMaxInflightPerSession c)) (Some (mcpMaxQueue c))
    (Some (Some (mcpMaxQueuePerSession c))).
Definition mcpWaiterAdmission (c : McpConfig) : res LimitError Admission :=
  construct (Some (mcpMaxWaiters c)) (Some (mcpMaxWaitersPerSession c))
    (Some (mcpMaxWaiterQueue c)) (Some (Some (mcpMaxQueuePerSession c))).
Definition mcpResourceAdmission (c : McpConfig) : res LimitError Admission :=
  construct (Some (mcpMaxResourceReads c)) (Some (mcpMaxResourceReadsPerClient c))
    (Some (mcpMaxResourceReadQueue c)) (Some (Some (mcpMaxQueuePerSession c))).

(** ** Every tool can be admitted *)

Lemma mcpAdmissionWeight_bounds method tool :
  1 <= mcpAdmissionWeight method tool <= MAX_ADMISSION_WEIGHT.
Proof. unfold mcpAdmissionWeight, MAX_ADMISSION_WEIGHT. repeat case_match; lia. Qed.

Lemma parsePositiveInteger_pos value fallback name z :
  1 <= fallback → parsePositiveInteger value fallback name = Ok z → 1 <= z.
Proof.
  intros Hf H. unfold parsePositiveInteger in H. destruct value as [|q|]; [by simplify_eq| |done].
  destruct (Qle_bool 1 q) eqn:E; simplify_eq. apply Qle_bool_iff in E.
  change 1 with (Qfloor 1). by apply Qfloor_resp_le.
Qed.

Record accepted (c : McpConfig) : Prop := {
  ac_inflight : MAX_ADMISSION_WEIGHT <= mcpMaxInflight c;
  ac_per_session : MAX_ADMISSION_WEIGHT <= mcpMaxInflightPerSession c;
  ac_queue : 1 <= mcpMaxQueue c ∧ 1 <= mcpMaxQueuePerSession c;
  ac_waiters : 1 <= mcpMaxWaiters c ∧ 1 <= mcpMaxWaitersPerSession c ∧ 1 <= mcpMaxWaiterQueue c;
  ac_reads : 1 <= mcpMaxResourceReads c ∧ 1 <= mcpMaxResourceReadsPerClient c
             ∧ 1 <= mcpMaxResourceReadQueue c
}.

Lemma loadMcpConfig_accepted env c : loadMcpConfig env = Ok c → accepted c.
Proof.
  intros H. unfold loadMcpConfig in H. apply bind_Ok in H as (c' & Hp & H).
  apply bind_Ok in H as (? & Hv & [= <-]). unfold validateMcpConfig in Hv. res_inv Hv.
  unfold parseMcpConfig in Hp.
  repeat match type of Hp with
  | _ ≫= _ = Ok _ =>
      let z := fresh "z" in let E := fresh "E" in
      apply bind_Ok in Hp as (z & E & Hp); apply parsePositiveInteger_pos in E; [|lia]
  end.
  simplify_eq. guards. by split.
Qed.

Lemma construct_Ok a b c d :
  1 <= a → 1 <= b → 0 <= c → 0 <= d →
  construct (Some a) (Some b) (Some c) (Some (Some d))
  = Ok (mkAdmission (mkLimits a b c d) 0 0 ∅ ∅ [] false [] [] ∅).
Proof.
  intros Ha Hb Hc Hd. unfold construct, ensure. cbn.
  rewrite !(proj2 (Z.leb_le _ _)) by done. done.
Qed.

(** A configuration the program accepts admits every tool.  From any environment that loads,
    the three admissions are constructed; and in every state the execution admission then reaches,
    until it closes, a request of any method and tool whose caller is there is admitted at once
    when no permit is out, and is admitted or parked as long as the queue has room for it and for
    its key: it is never refused for its weight. *)
Theorem every_tool_can_be_admitted env c :
  loadMcpConfig env = Ok c →
  is_ok (mcpWaiterAdmission c) = true ∧ is_ok (mcpResourceAdmission c) = true
  ∧ ∃ s0, mcpAdmission c = Ok s0
    ∧ ∀ s method tool k deadline sig,
        steps step s0 s → closed s = false → ¬ signal_aborted sig s →
        let verdict :=
          (acquire k deadline (Some (mcpAdmissionWeight method tool)) sig s).1 in
        (outstanding s = [] → ∃ g, verdict = Resolved (Some g))
        ∧ (Z.of_nat (length (pending s)) < mcpMaxQueue c →
           Z.of_nat (length (pending_of k s)) < mcpMaxQueuePerSession c →
           verdict ≠ Resolved None).
Proof.
  intros [H1 H2 [H3 H4] (H5 & H6 & H7) (H8 & H9 & H10)]%loadMcpConfig_accepted.
  unfold MAX_ADMISSION_WEIGHT in *. unfold mcpWaiterAdmission, mcpResourceAdmission, mcpAdmission.
  rewrite !construct_Ok by lia. split; [done|]. split; [done|]. eexists. split; [done|].
  intros s method tool k deadline sig Hsteps Hc Hsig.
  pose proof (mcpAdmissionWeight_bounds method tool) as [W1 W2]. unfold MAX_ADMISSION_WEIGHT in W2.
  set (w := mcpAdmissionWeight method tool) in *.
  destruct (admission_steps_ok _ _ Hsteps) as [Hinv G].
  { eapply construct_ok, construct_Ok; lia. }
  pose proof (gr_limits _ _ G) as El. cbn in El.
  destruct Hinv as [[_ Hp Hq _] _]. unfold acquire. rewrite Hc.
  assert (Hfit : (w <? 1) || (maxInflight (limits s) <? w) || (maxInflightPerKey (limits s) <? w)
                 = false).
  { rewrite El. cbn. rewrite !orb_false_iff, !Z.ltb_ge. lia. }
  rewrite Hfit. assert (Hna : match sig with Some x => bool_decide (x ∈ aborted s) | None => false end
                        = false).
  { destruct sig as [x|]; [|done]. apply bool_decide_eq_false. intros Hx. apply Hsig. by exists x. }
  rewrite Hna. split.
  - intros Ho. assert (Hcan : canAdmit k w s = true).
    { apply canAdmit_iff; [done|]. rewrite total_outstanding, total_of_key, Ho, El. cbn. lia. }
    rewrite Hcan. cbn. eauto.
  - intros Hlen Hk. destruct (canAdmit k w s); [done|].
    rewrite <- queue_pending in Hlen by done. rewrite <- pending_count in Hk by done.
    rewrite (tracks_get _ _ k (qo_bykey s Hq)) by (apply sum_by_nonneg; intros; apply waits_at_nonneg).
    rewrite El. cbn [maxQueue maxQueuePerKey].
    rewrite !(proj2 (Z.leb_gt _ _)) by done. cbn [orb].
    unfold park. rewrite Hna, Hc. done.
Qed.

Definition default_env : Env :=
  mkEnv Unset Unset Unset Unset Unset Unset Unset Unset Unset Unset Unset Unset Unset Unset Unset.

Definition default_config : McpConfig :=
  mkConfig 32 8 128 16 64 2 64 2 1 16 600000 15000 20 150 200.

Lemma every_tool_can_be_admitted_witness :
  loadMcpConfig default_env = Ok default_config
  ∧ (∃ s0 g, mcpAdmission default_config = Ok s0
       ∧ (acquire "session" 1000 (Some (mcpAdmissionWeight (Some (js "tools/call"))
                                         (Some (js "show_changes")))) None s0).1
         = Resolved (Some g))
  ∧ is_ok (loadMcpConfig (mkEnv (Finite (7 # 2)) Unset Unset Unset Unset Unset Unset Unset Unset
                            Unset Unset Unset Unset Unset Unset)) = false.
Proof.
  split; [by vm_compute|]. split; [|by vm_compute].
  destruct (every_tool_can_be_admitted default_env default_config) as (_ & _ & s0 & E & H);
    [by vm_compute|].
  destruct (H s0 (Some (js "tools/call")) (Some (js "show_changes")) (js "session") 1000 None)
    as [Hnow _].
  - apply steps_refl.
  - revert E. vm_compute. by intros [= <-].
  - by intros (x & ? & _).
  - destruct Hnow as [g Hg]; [revert E; vm_compute; by intros [= <-]|]. by exists s0, g.
Defined.

End AdmissionConfig.
