(* ===== verification/Deadline.v ===== *)
(** * The execution deadline of a request ([handleMcpRequestWithDeadline] of
      [src/src/server/mcp-admission.ts])

    The handler of a request races a timer.  The caller of the helper gets the first of the two;
    the callbacks tell it when the handler settles, late or not: that, and not the deadline, is
    when [mcp-http.ts] releases the request's permit.  Each callback is recorded when it is
    called. *)

From S2P Require Import Prelude JsString.

Module Deadline.

Inductive Outcome := completed | failed (error : jsstr).
Inductive Answer := Handled (o : Outcome) | McpExecutionTimeout (timeoutMs : Z).
Inductive Callback := onDeadline | onExpiredHandlerSettled (o : Outcome) | onHandlerSettled.

Record Race := mkRace {
  timeoutMs : Z;
  deadlineExpired : bool;
  handler : option Outcome;
  timer : bool;
  answer : option Answer;
  callbacks : list Callback
}.

(** [handleMcpRequestWithDeadline] up to its [await] *)
Definition begin (ms : Z) : Race := mkRace ms false None true None [].

(** The handler settles; a late one is reported first, and when that callback throws
    ([lateThrows]) the one after it is not called.  The end of the race clears the timer. *)
Definition settle (o : Outcome) (lateThrows : bool) (r : Race) : Race :=
  match handler r with
  | Some _ => r
  | None =>
      mkRace (timeoutMs r) (deadlineExpired r) (Some o) false
        (Some (default (Handled o) (answer r)))
        (callbacks r
         ++ (if deadlineExpired r then [onExpiredHandlerSettled o] else [])
         ++ (if deadlineExpired r && lateThrows then [] else [onHandlerSettled]))
  end.

(** The timer fires; what [onDeadline] throws is dropped. *)
Definition expire (r : Race) : Race :=
  if timer r then
    mkRace (timeoutMs r) true (handler r) false
      (Some (default (McpExecutionTimeout (timeoutMs r)) (answer r))) (callbacks r ++ [onDeadline])
  else r.

Inductive step (r : Race) : Race → Prop :=
| step_settle o : step r (settle o false r)
| step_late_throw o : step r (settle o true r)
| step_expire : step r (expire r).

(** The states a race goes through *)
Inductive stage (ms : Z) : Race → Prop :=
| racing : stage ms (begin ms)
| in_time o : stage ms (mkRace ms false (Some o) false (Some (Handled o)) [onHandlerSettled])
| expired : stage ms (mkRace ms true None false (Some (McpExecutionTimeout ms)) [onDeadline])
| late o :
    stage ms (mkRace ms true (Some o) false (Some (McpExecutionTimeout ms))
                [onDeadline; onExpiredHandlerSettled o; onHandlerSettled])
| late_thrown o :
    stage ms (mkRace ms true (Some o) false (Some (McpExecutionTimeout ms))
                [onDeadline; onExpiredHandlerSettled o]).

Lemma stages ms r : steps step (begin ms) r → stage ms r.
Proof.
  intros H. apply (steps_invariant step (stage ms)) in H; [done| |constructor].
  intros s s' Hs Hst. destruct Hst; destruct Hs; cbn; constructor.
Qed.

(** The caller learns of the handler's end once at most, and not while it runs; it is told of an
    expired deadline exactly when it gets the timeout; and unless the report of a late end throws,
    every handler that settles is reported. *)
Lemma deadline_protocol ms r :
  steps step (begin ms) r →
  (handler r = None → onHandlerSettled ∉ callbacks r)
  ∧ (onDeadline ∈ callbacks r ↔ answer r = Some (McpExecutionTimeout ms))
  ∧ (∀ o, handler r = Some o → answer r = Some (Handled o) ∨
       onExpiredHandlerSettled o ∈ callbacks r ∧ answer r = Some (McpExecutionTimeout ms))
  ∧ NoDup (callbacks r).
Proof.
  intros [|o| |o|o]%stages; cbn; split_and!; try set_solver; repeat constructor; set_solver.
Qed.

End Deadline.
