(* ===== verification/CanonicalJson.v ===== *)
(** * Canonical JSON text ([canonicalJson] of [src/src/mutation-receipts.ts])

    The text whose digest identifies the content of a request: JSON without spaces, the fields of
    every object sorted by name.  [quote] is what [JSON.stringify] makes of a string (ECMA-262,
    QuoteJSONString).  The main result is that two values have the same text exactly when they are
    the same value up to the order of the fields of their objects. *)

From S2P Require Import Prelude JsString Json Sql.
From stdpp Require pretty.

Module CanonicalJson.
Local Open Scope N_scope.

(** ** Text *)

Definition hex_digit (n : N) : N := if n <? 10 then 48 + n else 87 + n.

(** [\uXXXX] *)
Definition unicode_escape (c : N) : jsstr :=
  [92; 117; hex_digit (c / 4096 mod 16); hex_digit (c / 256 mod 16); hex_digit (c / 16 mod 16);
   hex_digit (c mod 16)].

Definition leading_surrogate (c : N) : bool := (55296 <=? c) && (c <=? 56319).
Definition trailing_surrogate (c : N) : bool := (56320 <=? c) && (c <=? 57343).

(** One unit that is not part of a surrogate pair *)
Definition quote_unit (c : N) : jsstr :=
  if c =? 8 then [92; 98] else if c =? 9 then [92; 116] else if c =? 10 then [92; 110]
  else if c =? 12 then [92; 102] else if c =? 13 then [92; 114]
  else if c =? 34 then [92; 34] else if c =? 92 then [92; 92]
  else if (c <? 32) || leading_surrogate c || trailing_surrogate c then unicode_escape c
  else [c].

(** A leading surrogate waits in [lead] for the unit that follows it. *)
Fixpoint quote_units (lead : option N) (s : jsstr) : jsstr :=
  match s with
  | [] => from_option quote_unit [] lead
  | c :: s =>
      match lead with
      | Some d =>
          if trailing_surrogate c then d :: c :: quote_units None s
          else if leading_surrogate c then quote_unit d ++ quote_units (Some c) s
          else quote_unit d ++ quote_unit c ++ quote_units None s
      | None =>
          if leading_surrogate c then quote_units (Some c) s
          else quote_unit c ++ quote_units None s
      end
  end.

(** [JSON.stringify(s)] *)
Definition quote (s : jsstr) : jsstr := [DQUOTE] ++ quote_units None s ++ [DQUOTE].

(** The order of [sort()] *)
Definition key_le {A} (a b : jsstr * A) : bool := negb (js_ltb b.1 a.1).

Definition field_text (kv : jsstr * jsstr) : jsstr := quote kv.1 +s ":" +s kv.2.

(** Sorting reads only the names, so the values may be written first.  A number that is not an
    integer is written as it is spelled. *)
Fixpoint canonicalJson (v : json) : jsstr :=
  match v with
  | JNull => "null"
  | JBool b => if b then "true" else "false"
  | JNum z => numeral z
  | JFrac s => s
  | JStr s => quote s
  | JArr items => "[" +s join "," (List.map canonicalJson items) +s "]"
  | JObj fields =>
      "{" +s join "," (List.map field_text
                         (order_by key_le (List.map (λ kv, (kv.1, canonicalJson kv.2)) fields)))
          +s "}"
  end.

Example canonical_text :
  canonicalJson (JObj [(js "b", JArr [JNum (-2); JBool true]); (js "a", JStr (js "x" ++ [10; 34]))])
  = js "{" ++ [34; 97; 34] ++ js ":" ++ [34; 120; 92; 110; 92; 34; 34] ++ js ","
    ++ [34; 98; 34] ++ js ":[-2,true]}".
Proof. vm_compute. reflexivity. Qed.

(** ** The same value up to the order of fields *)

Section Induction.
Context (P : json → Prop).
Hypothesis Hnull : P JNull.
Hypothesis Hbool : ∀ b, P (JBool b).
Hypothesis Hnum : ∀ z, P (JNum z).
Hypothesis Hfrac : ∀ s, P (JFrac s).
Hypothesis Hstr : ∀ s, P (JStr s).
Hypothesis Harr : ∀ items, Forall P items → P (JArr items).
Hypothesis Hobj : ∀ fields, Forall (λ kv, P kv.2) fields → P (JObj fields).

Fixpoint json_nested_ind (v : json) : P v :=
  match v with
  | JNull => Hnull
  | JBool b => Hbool b
  | JNum z => Hnum z
  | JFrac s => Hfrac s
  | JStr s => Hstr s
  | JArr items =>
      Harr items ((fix go l : Forall P l :=
        match l with [] => Forall_nil_2 _ | x :: l => Forall_cons_2 _ _ _ (json_nested_ind x) (go l) end)
        items)
  | JObj fields =>
      Hobj fields ((fix go l : Forall (λ kv, P kv.2) l :=
        match l with
        | [] => Forall_nil_2 _
        | kv :: l => Forall_cons_2 _ kv _ (json_nested_ind kv.2) (go l)
        end) fields)
  end.
End Induction.

Inductive same_json : json → json → Prop :=
| same_null : same_json JNull JNull
| same_bool b : same_json (JBool b) (JBool b)
| same_num z : same_json (JNum z) (JNum z)
| same_frac s : same_json (JFrac s) (JFrac s)
| same_str s : same_json (JStr s) (JStr s)
| same_arr l k : Forall2 same_json l k → same_json (JArr l) (JArr k)
| same_obj l m k :
    l ≡ₚ m → Forall2 (λ a b, a.1 = b.1 ∧ same_json a.2 b.2) m k → same_json (JObj l) (JObj k).

(** What a number that is not an integer is spelled with *)
Definition number_char (c : N) : bool :=
  ((48 <=? c) && (c <=? 57)) || existsb (N.eqb c) [43; 45; 46; 101].

(** Names are distinct in an object; a number has one spelling. *)
Inductive wf_json : json → Prop :=
| wf_null : wf_json JNull
| wf_bool b : wf_json (JBool b)
| wf_num z : wf_json (JNum z)
| wf_frac s : s ≠ [] → forallb number_char s = true → (∀ z, s ≠ numeral z) → wf_json (JFrac s)
| wf_str s : wf_json (JStr s)
| wf_arr l : Forall wf_json l → wf_json (JArr l)
| wf_obj l : NoDup (List.map fst l) → Forall (λ kv, wf_json kv.2) l → wf_json (JObj l).

(** ** Sorting by name *)

Section Sorting.
Context {A : Type}.
Implicit Types l k : list (jsstr * A).

Lemma key_le_total (a b : jsstr * A) : key_le a b = true ∨ key_le b a = true.
Proof.
  unfold key_le. destruct (js_ltb b.1 a.1) eqn:E; [|by left]. right. by rewrite js_ltb_asym.
Qed.

Lemma key_le_trans (a b c : jsstr * A) :
  key_le a b = true → key_le b c = true → key_le a c = true.
Proof. unfold key_le. rewrite !negb_true_iff. apply js_ltb_cotrans. Qed.

Lemma key_sorted_unique l k :
  StronglySorted (λ a b, key_le a b = true) l → StronglySorted (λ a b, key_le a b = true) k →
  NoDup (List.map fst l) → l ≡ₚ k → l = k.
Proof.
  intros Hl. revert k; induction Hl as [|a l Hl IH Ha]; intros k Hk Hd Hp.
  - by apply Permutation_nil in Hp.
  - destruct Hk as [|b k Hk Hb]; [by apply symmetry, Permutation_nil in Hp|].
    rewrite List.Forall_forall in Ha, Hb.
    assert (a = b) as ->; [|f_equal; apply IH; [done|by inversion Hd|by apply Permutation_cons_inv in Hp]].
    assert (Hab : b ∈ a :: l) by (rewrite Hp; left).
    assert (Hba : a ∈ b :: k) by (rewrite <- Hp; left).
    apply elem_of_cons in Hab as [|Hab]; [done|]. apply elem_of_cons in Hba as [|Hba]; [done|].
    apply list_elem_of_In in Hab as Hab', Hba. specialize (Ha b Hab'). specialize (Hb a Hba).
    cbn in Ha, Hb. unfold key_le in Ha, Hb. rewrite negb_true_iff in Ha, Hb.
    assert (E : a.1 = b.1) by by apply js_ltb_total.
    cbn in Hd. apply NoDup_cons in Hd as [Hn _]. destruct Hn. rewrite E. apply elem_of_Lmap. eauto.
Qed.

Lemma order_by_key_sorted l : StronglySorted (λ a b, key_le a b = true) (order_by key_le l).
Proof.
  apply Sorted_StronglySorted; [intros a b c; apply key_le_trans|].
  apply order_by_sorted, key_le_total.
Qed.

(** Distinct names leave one order. *)
Lemma order_by_key_perm l k :
  NoDup (List.map fst l) → l ≡ₚ k → order_by key_le l = order_by key_le k.
Proof.
  intros Hd Hp. apply key_sorted_unique; [apply order_by_key_sorted..| |].
  - by rewrite (order_by_perm key_le l).
  - by rewrite !order_by_perm.
Qed.
End Sorting.

Lemma order_by_map {A B} (f : A → B) (le : A → A → bool) (le' : B → B → bool) (l : list A) :
  (∀ a b, le' (f a) (f b) = le a b) →
  order_by le' (List.map f l) = List.map f (order_by le l).
Proof.
  intros H. assert (Hi : ∀ a t, insert_by le' (f a) (List.map f t) = List.map f (insert_by le a t)).
  { intros a t. induction t as [|b t IH]; cbn; [done|]. rewrite H. destruct (le a b); cbn; [done|].
    by rewrite IH. }
  unfold order_by. induction l as [|a l IH]; cbn; [done|]. by rewrite IH, Hi.
Qed.

(** ** Strings *)

Definition unhex (c : N) : N := if c <? 58 then c - 48 else c - 87.

Definition unescape (e : N) : N :=
  if e =? 98 then 8 else if e =? 116 then 9 else if e =? 110 then 10
  else if e =? 102 then 12 else if e =? 114 then 13 else e.

(** Reads a string up to its closing quote. *)
Fixpoint unquote (t : jsstr) : option (jsstr * jsstr) :=
  match t with
  | [] => None
  | c :: t =>
      if c =? 34 then Some ([], t)
      else if c =? 92 then
        match t with
        | e :: t =>
            if e =? 117 then
              match t with
              | w :: x :: y :: z :: t =>
                  '(s, r) ← unquote t;
                  Some (unhex w * 4096 + unhex x * 256 + unhex y * 16 + unhex z :: s, r)
              | _ => None
              end
            else '(s, r) ← unquote t; Some (unescape e :: s, r)
        | [] => None
        end
      else '(s, r) ← unquote t; Some (c :: s, r)
  end.

Lemma unhex_digit n : n < 16 → unhex (hex_digit n) = n.
Proof.
  intros H. unfold unhex, hex_digit. destruct (N.ltb_spec n 10).
  - rewrite (proj2 (N.ltb_lt _ _)) by lia. lia.
  - rewrite (proj2 (N.ltb_ge _ _)) by lia. lia.
Qed.

Lemma hex_value c :
  c < 65536 →
  unhex (hex_digit (c / 4096 mod 16)) * 4096 + unhex (hex_digit (c / 256 mod 16)) * 256
  + unhex (hex_digit (c / 16 mod 16)) * 16 + unhex (hex_digit (c mod 16)) = c.
Proof.
  intros H. rewrite !unhex_digit by (by apply N.mod_lt).
  rewrite (N.mod_small (c / 4096)) by (apply N.Div0.div_lt_upper_bound; lia).
  assert (E1 : c / 4096 = c / 16 / 16 / 16) by by rewrite !N.Div0.div_div.
  assert (E2 : c / 256 = c / 16 / 16) by by rewrite !N.Div0.div_div.
  rewrite E1, E2.
  pose proof (N.div_mod c 16 ltac:(done)). pose proof (N.div_mod (c / 16) 16 ltac:(done)).
  pose proof (N.div_mod (c / 16 / 16) 16 ltac:(done)). lia.
Qed.

Lemma unquote_unit c t : unquote (quote_unit c ++ t) = ('(s, r) ← unquote t; Some (c :: s, r)).
Proof.
  unfold quote_unit.
  repeat match goal with
  | |- context [if ?x =? ?y then _ else _] =>
      destruct (N.eqb_spec x y) as [->|]; [cbn; by destruct (unquote t) as [[]|]|]
  end.
  destruct (_ || _) eqn:E.
  - assert (Hc : c < 65536).
    { unfold leading_surrogate, trailing_surrogate in E.
      rewrite !orb_true_iff, !andb_true_iff, !N.leb_le, N.ltb_lt in E. lia. }
    cbn -[N.div N.modulo]. by rewrite hex_value.
  - cbn. rewrite (proj2 (N.eqb_neq c 34)), (proj2 (N.eqb_neq c 92)) by done. done.
Qed.

Lemma surrogate_plain c : leading_surrogate c || trailing_surrogate c = true → c ≠ 34 ∧ c ≠ 92.
Proof.
  unfold leading_surrogate, trailing_surrogate.
  rewrite !orb_true_iff, !andb_true_iff, !N.leb_le. lia.
Qed.

Lemma unquote_plain c t :
  c ≠ 34 ∧ c ≠ 92 → unquote (c :: t) = ('(s, r) ← unquote t; Some (c :: s, r)).
Proof. intros [H1 H2]. cbn. by rewrite (proj2 (N.eqb_neq c 34)), (proj2 (N.eqb_neq c 92)). Qed.

(** Reading back what [quote] wrote. *)
Lemma unquote_quote lead s r :
  (∀ d, lead = Some d → leading_surrogate d = true) →
  unquote (quote_units lead s ++ 34 :: r) = Some (from_option (λ d, [d]) [] lead ++ s, r).
Proof.
  revert lead; induction s as [|c s IH]; intros lead Hl; cbn [quote_units].
  - destruct lead as [d|]; cbn [from_option]; [|done]. rewrite unquote_unit. done.
  - destruct lead as [d|]; cbn [from_option app].
    + specialize (Hl d eq_refl). destruct (trailing_surrogate c) eqn:Et.
      * cbn [app]. rewrite unquote_plain by (apply surrogate_plain; by rewrite Hl).
        rewrite unquote_plain by (apply surrogate_plain; by rewrite Et, orb_true_r).
        by rewrite IH.
      * destruct (leading_surrogate c) eqn:El; rewrite <- !app_assoc, unquote_unit.
        -- rewrite IH by (intros ? [= <-]; done). done.
        -- rewrite unquote_unit, IH by done. done.
    + destruct (leading_surrogate c) eqn:El.
      * rewrite IH by (intros ? [= <-]; done). done.
      * rewrite <- app_assoc, unquote_unit, IH by done. done.
Qed.

Lemma quote_inj s s' r r' : quote s ++ r = quote s' ++ r' → s = s' ∧ r = r'.
Proof.
  unfold quote. cbn [app]. rewrite <- !app_assoc. cbn [app]. intros [= H].
  apply (f_equal unquote) in H. unfold DQUOTE in H. rewrite !unquote_quote in H by done.
  by injection H.
Qed.

(** ** Numbers *)

Lemma js_inj a b : js a = js b → a = b.
Proof.
  unfold js. intros H.
  assert (Hm : ∀ l k, List.map Ascii.N_of_ascii l = List.map Ascii.N_of_ascii k → l = k).
  { induction l as [|x l IH]; intros [|y k]; cbn; intros [=]; [done|]. f_equal; [|auto].
    rewrite <- (Ascii.ascii_N_embedding x), <- (Ascii.ascii_N_embedding y). congruence. }
  apply Hm in H. rewrite <- (String.string_of_list_ascii_of_string a),
    <- (String.string_of_list_ascii_of_string b). by rewrite H.
Qed.

Lemma numeral_inj a b : numeral a = numeral b → a = b.
Proof. intros H%js_inj. by apply (inj pretty.pretty). Qed.

Lemma pretty_go_chars n s :
  forallb number_char (js s) = true → (s ≠ String.EmptyString ∨ 0 < n) →
  forallb number_char (js (pretty.pretty_N_go n s)) = true ∧ js (pretty.pretty_N_go n s) ≠ [].
Proof.
  revert s; induction (N.lt_wf_0 n) as [n _ IH]; intros s Hs Hne.
  destruct (decide (0 < n)) as [Hn|Hn].
  - rewrite pretty.pretty_N_go_step by done. apply IH; [by apply N.div_lt| |by left].
    change (forallb number_char (js (String.String ?c ?s)))
      with (number_char (Ascii.N_of_ascii c) && forallb number_char (js s)).
    unfold pretty.pretty_N_char. rewrite Hs, andb_true_r. repeat case_match; done.
  - assert (n = 0) as -> by lia. rewrite pretty.pretty_N_go_0. split; [done|].
    destruct Hne as [Hne|]; [|lia]. by destruct s.
Qed.

Lemma numeral_chars z : forallb number_char (numeral z) = true ∧ numeral z ≠ [].
Proof.
  unfold numeral. destruct z as [|p|p].
  - done.
  - apply (pretty_go_chars (N.pos p) String.EmptyString); [done|right; lia].
  - destruct (pretty_go_chars (N.pos p) String.EmptyString) as [H _]; [done|right; lia|].
    split; [|done]. change (js (pretty.pretty (Z.neg p)))
      with (45 :: js (pretty.pretty_N_go (N.pos p) String.EmptyString)). done.
Qed.

(** The longest prefix of units that satisfy [p] is determined. *)
Lemma span_unique (p : N → bool) a b r r' :
  forallb p a = true → forallb p b = true →
  (∀ c, head r = Some c → p c = false) → (∀ c, head r' = Some c → p c = false) →
  a ++ r = b ++ r' → a = b ∧ r = r'.
Proof.
  intros Ha Hb Hr Hr'. revert b Hb; induction a as [|x a IH]; intros [|y b] Hb E; cbn in *.
  - done.
  - subst r. guards. specialize (Hr y eq_refl). congruence.
  - subst r'. guards. specialize (Hr' x eq_refl). congruence.
  - guards. simplify_eq. destruct (IH ltac:(done) b) as [-> ->]; done.
Qed.

(** ** The text without sorting *)

Fixpoint render (v : json) : jsstr :=
  match v with
  | JNull => "null"
  | JBool b => if b then "true" else "false"
  | JNum z => numeral z
  | JFrac s => s
  | JStr s => quote s
  | JArr items => "[" +s join "," (List.map render items) +s "]"
  | JObj fields =>
      "{" +s join "," (List.map (λ kv, field_text (kv.1, render kv.2)) fields) +s "}"
  end.

(** Every object with its fields in order *)
Fixpoint sort_fields (v : json) : json :=
  match v with
  | JArr items => JArr (List.map sort_fields items)
  | JObj fields => JObj (order_by key_le (List.map (λ kv, (kv.1, sort_fields kv.2)) fields))
  | _ => v
  end.

Lemma canonicalJson_render v : canonicalJson v = render (sort_fields v).
Proof.
  induction v as [| | | | |items IH|fields IH] using json_nested_ind; try done.
  - cbn. do 2 f_equal. f_equal. rewrite List.map_map. apply List.map_ext_in. intros x Hx.
    rewrite List.Forall_forall in IH. auto.
  - cbn. do 3 f_equal.
    transitivity (List.map field_text (order_by key_le
      (List.map (λ kv, (kv.1, render kv.2)) (List.map (λ kv, (kv.1, sort_fields kv.2)) fields)))).
    + rewrite List.map_map. do 2 f_equal. apply List.map_ext_in. intros x Hx.
      rewrite List.Forall_forall in IH. cbn. by rewrite IH.
    + rewrite (order_by_map _ key_le key_le) by done. by rewrite List.map_map.
Qed.

(** ** One text, one value *)

(** What may follow a value in a text *)
Definition stops (r : jsstr) : Prop := ∀ c, head r = Some c → c = 44 ∨ c = 93 ∨ c = 125.

(** The kind of value a text that begins with [c] is of *)
Definition kind_of_head (c : N) : nat :=
  if c =? 110 then 0 else if c =? 116 then 1 else if c =? 102 then 2 else if c =? 34 then 3
  else if c =? 91 then 4 else if c =? 123 then 5
  else if existsb (N.eqb c) [44; 93; 125] then 7 else 6.

Definition kind (v : json) : nat :=
  match v with
  | JNull => 0 | JBool true => 1 | JBool false => 2 | JStr _ => 3 | JArr _ => 4 | JObj _ => 5
  | JNum _ | JFrac _ => 6
  end.

Lemma number_char_kind c : number_char c = true → kind_of_head c = 6%nat.
Proof.
  unfold number_char. cbn [existsb]. rewrite !orb_true_iff, andb_true_iff, !N.leb_le, !N.eqb_eq.
  intros H. unfold kind_of_head.
  rewrite (proj2 (N.eqb_neq c 110)), (proj2 (N.eqb_neq c 116)), (proj2 (N.eqb_neq c 102)),
    (proj2 (N.eqb_neq c 34)), (proj2 (N.eqb_neq c 91)), (proj2 (N.eqb_neq c 123)) by naive_solver lia.
  cbn [existsb].
  by rewrite (proj2 (N.eqb_neq c 44)), (proj2 (N.eqb_neq c 93)), (proj2 (N.eqb_neq c 125))
    by naive_solver lia.
Qed.

Lemma stops_number r c : stops r → head r = Some c → number_char c = false.
Proof. intros H Hc. by destruct (H c Hc) as [->|[->| ->]]. Qed.

(** The spelling of a number *)
Definition spelling (v : json) : option jsstr :=
  match v with JNum z => Some (numeral z) | JFrac s => Some s | _ => None end.

Lemma spelling_chars v s :
  wf_json v → spelling v = Some s → forallb number_char s = true ∧ s ≠ [] ∧ render v = s.
Proof.
  intros Hv Hs. destruct v; cbn in Hs; simplify_eq; [|by inversion Hv].
  by destruct (numeral_chars z).
Qed.

Lemma spelling_inj v v' s :
  wf_json v → wf_json v' → spelling v = Some s → spelling v' = Some s → v = v'.
Proof.
  intros Hv Hv' Hs Hs'. destruct v, v'; cbn in Hs, Hs'; simplify_eq; try done.
  - f_equal. by apply numeral_inj.
  - inversion Hv'; subst. by edestruct H2.
  - inversion Hv; subst. by edestruct H2.
Qed.

Lemma kind_number v : kind v = 6%nat ↔ is_Some (spelling v).
Proof. destruct v as [|[]| | | | |]; cbn; split; intros H; try done; by destruct H. Qed.

Lemma render_head v : wf_json v → ∃ c t, render v = c :: t ∧ kind_of_head c = kind v.
Proof.
  intros Hv. destruct (spelling v) as [s|] eqn:Es.
  - destruct (spelling_chars v s Hv Es) as (Hc & Hn & ->). destruct s as [|c s]; [done|].
    exists c, s. split; [done|]. cbn in Hc. guards. rewrite number_char_kind by done.
    symmetry. apply kind_number. by rewrite Es.
  - destruct v as [|[]| | | | |]; cbn in Es; try done; eexists _, _; split; reflexivity.
Qed.

Lemma kind_stop c : kind_of_head c = 7%nat ∨ c ≠ 44 ∧ c ≠ 93 ∧ c ≠ 125.
Proof.
  destruct (decide (c = 44)) as [->|]; [by left|]. destruct (decide (c = 93)) as [->|]; [by left|].
  destruct (decide (c = 125)) as [->|]; [by left|]. by right.
Qed.

Lemma render_not_stop v c t : wf_json v → render v = c :: t → c ≠ 44 ∧ c ≠ 93 ∧ c ≠ 125.
Proof.
  intros Hv E. destruct (render_head v Hv) as (c' & t' & E' & Hk). rewrite E in E'. simplify_eq.
  destruct (kind_stop c') as [H|]; [|done]. rewrite H in Hk. by destruct v as [|[]| | | | |].
Qed.

(** *** Lists of texts *)

Section Joined.
Context {A : Type} (txt : A → jsstr) (ok : A → Prop).
Hypothesis txt_starts : ∀ a, ok a → ∃ c t, txt a = c :: t ∧ c ≠ 93 ∧ c ≠ 125.

(** The text of [a] cannot be taken for the text of another value. *)
Definition readable (a : A) : Prop :=
  ∀ a' r r', ok a' → stops r → stops r' → txt a ++ r = txt a' ++ r' → a = a' ∧ r = r'.

Definition rest (l : list A) : jsstr := List.concat (List.map (λ a, 44 :: txt a) l).

Lemma join_rest a l : join [44] (List.map txt (a :: l)) = txt a ++ rest l.
Proof.
  revert a; induction l as [|b l IH]; intros a; [cbn; by rewrite app_nil_r|].
  change (join [44] (List.map txt (a :: b :: l)))
    with (txt a ++ [44] ++ join [44] (List.map txt (b :: l))).
  rewrite IH. done.
Qed.

Lemma rest_stops l z r : z = 93 ∨ z = 125 → stops (rest l ++ z :: r).
Proof. intros Hz c. destruct l as [|a l]; cbn; intros [= <-]; [by right|by left]. Qed.

Lemma rest_inj l l' z r r' :
  z = 93 ∨ z = 125 → Forall readable l → Forall ok l' →
  rest l ++ z :: r = rest l' ++ z :: r' → l = l' ∧ r = r'.
Proof.
  intros Hz Hl. revert l'; induction Hl as [|a l Ha Hl IH]; intros l' Hok E.
  - destruct l' as [|a' l']; cbn in E; [by simplify_eq|]. destruct Hz; simplify_eq.
  - destruct l' as [|a' l']; cbn in E; [destruct Hz; simplify_eq|].
    apply Forall_cons in Hok as [Ha' Hok]. injection E as E. rewrite <- !app_assoc in E.
    destruct (Ha a' (rest l ++ z :: r) (rest l' ++ z :: r') Ha') as [-> E'];
      [by apply rest_stops..|exact E|].
    destruct (IH l' Hok E') as [-> ->]. done.
Qed.

Lemma joined_inj l l' z r r' :
  z = 93 ∨ z = 125 → Forall readable l → Forall ok l → Forall ok l' →
  join [44] (List.map txt l) ++ z :: r = join [44] (List.map txt l') ++ z :: r' →
  l = l' ∧ r = r'.
Proof.
  intros Hz Hl Hok Hok' E. destruct l as [|a l], l' as [|a' l'].
  - cbn in E. by simplify_eq.
  - rewrite join_rest in E. apply Forall_cons in Hok' as [(c & t & Et & ?)%txt_starts _].
    rewrite Et in E. cbn in E. destruct Hz; naive_solver.
  - rewrite join_rest in E. apply Forall_cons in Hok as [(c & t & Et & ?)%txt_starts _].
    rewrite Et in E. cbn in E. destruct Hz; naive_solver.
  - rewrite !join_rest, <- !app_assoc in E.
    apply Forall_cons in Hl as [Ha Hl]. apply Forall_cons in Hok' as [Ha' Hok'].
    apply (Ha a') in E as [-> E]; [|done|by apply rest_stops..].
    destruct (rest_inj l l' z r r' Hz Hl Hok' E) as [-> ->]. done.
Qed.
End Joined.

Lemma kind_eq v v' r r' :
  wf_json v → wf_json v' → render v ++ r = render v' ++ r' → kind v = kind v'.
Proof.
  intros Hv Hv' E. destruct (render_head v Hv) as (c & t & Ec & <-).
  destruct (render_head v' Hv') as (c' & t' & Ec' & <-). rewrite Ec, Ec' in E. by simplify_eq.
Qed.

Lemma number_inj v v' r r' :
  wf_json v → wf_json v' → is_Some (spelling v) → is_Some (spelling v') → stops r → stops r' →
  render v ++ r = render v' ++ r' → v = v' ∧ r = r'.
Proof.
  intros Hv Hv' [s Es] [s' Es'] Hr Hr' E.
  destruct (spelling_chars v s Hv Es) as (Hc & _ & Er).
  destruct (spelling_chars v' s' Hv' Es') as (Hc' & _ & Er'). rewrite Er, Er' in E.
  destruct (span_unique number_char s s' r r' Hc Hc') as [<- ->]; [| |done|].
  - intros c. by apply stops_number.
  - intros c. by apply stops_number.
  - split; [|done]. by apply (spelling_inj v v' s).
Qed.

Definition field_render (kv : jsstr * json) : jsstr := field_text (kv.1, render kv.2).

Lemma field_readable kv :
  readable render wf_json kv.2 → readable field_render (λ kv, wf_json kv.2) kv.
Proof.
  intros H [k' v'] r r' Hv Hr Hr' E. destruct kv as [k v].
  unfold field_render, field_text, js_app in E. cbn [fst snd] in *. rewrite <- !app_assoc in E.
  apply quote_inj in E as [-> E]. change (js ":") with [58] in E. cbn [app] in E. injection E as E.
  destruct (H v' r r' Hv Hr Hr' E) as [-> ->]. done.
Qed.

Lemma render_inj v : wf_json v → readable render wf_json v.
Proof.
  induction v as [|b|z|s|s|items IH|fields IH] using json_nested_ind;
    intros Hv v' r r' Hv' Hr Hr' E; pose proof (kind_eq _ _ _ _ Hv Hv' E) as Hk.
  - destruct v' as [|[]| | | | |]; try done. by apply app_inv_head in E.
  - destruct b, v' as [|[]| | | | |]; try done; by apply app_inv_head in E.
  - apply number_inj; try done. by apply kind_number.
  - apply number_inj; try done. by apply kind_number.
  - destruct v' as [|[]| | | | |]; try done. cbn in E. apply quote_inj in E as [-> ->]. done.
  - destruct v' as [|[]| | | |items'|]; try done. cbn in E.
    change (js "[") with [91] in E. change (js "]") with [93] in E. change (js ",") with [44] in E.
    unfold js_app in E. rewrite <- !app_assoc in E. cbn [app] in E. injection E as E.
    inversion Hv as [| | | | |l Hl|]; subst. inversion Hv' as [| | | | |l' Hl'|]; subst.
    eapply joined_inj in E; [destruct E as [-> ->]; done|..].
    + intros a Ha. destruct (render_head a Ha) as (c & t & Et & _). exists c, t. split; [done|].
      by destruct (render_not_stop a c t Ha Et) as (_ & ? & ?).
    + by left.
    + rewrite Forall_forall in *. intros x Hx. by apply IH, Hl.
    + done.
    + done.
  - destruct v' as [|[]| | | | |fields']; try done. cbn in E.
    change (js "{") with [123] in E. change (js "}") with [125] in E. change (js ",") with [44] in E.
    unfold js_app in E. rewrite <- !app_assoc in E. cbn [app] in E. injection E as E.
    inversion Hv as [| | | | | |l _ Hl]; subst. inversion Hv' as [| | | | | |l' _ Hl']; subst.
    eapply (joined_inj field_render (λ kv, wf_json kv.2)) in E; [destruct E as [-> ->]; done|..].
    + intros a Ha. eexists 34, _. split; [reflexivity|done].
    + by right.
    + rewrite Forall_forall in *. intros x Hx. apply field_readable. by apply IH, Hl.
    + done.
    + done.
Qed.

(** *** Sorting fields *)

Definition with_sorted (kv : jsstr * json) : jsstr * json := (kv.1, sort_fields kv.2).

Lemma with_sorted_names l : List.map fst (List.map with_sorted l) = List.map fst l.
Proof. by rewrite List.map_map. Qed.

Lemma sort_fields_wf v : wf_json v → wf_json (sort_fields v).
Proof.
  induction v as [| | | | |items IH|fields IH] using json_nested_ind; intros Hv; try done.
  - inversion Hv as [| | | | |l Hl|]; subst. constructor. rewrite Forall_forall in *.
    intros x (y & -> & Hy)%elem_of_Lmap. auto.
  - inversion Hv as [| | | | | |l Hd Hl]; subst. cbn. constructor.
    + rewrite (order_by_perm key_le). by rewrite with_sorted_names.
    + rewrite (order_by_perm key_le). rewrite Forall_forall in *.
      intros x (y & -> & Hy)%elem_of_Lmap. cbn. auto.
Qed.

Lemma map_eq_Forall2 {A B} (f : A → B) (R : A → A → Prop) (l k : list A) :
  (∀ x y, x ∈ l → y ∈ k → f x = f y ↔ R x y) →
  List.map f l = List.map f k ↔ Forall2 R l k.
Proof.
  revert k; induction l as [|x l IH]; intros [|y k] H; cbn.
  - split; [constructor|done].
  - split; [done|inversion 1].
  - split; [done|inversion 1].
  - rewrite Forall2_cons, <- (H x y), <- (IH k); [split; [intros [= ??]; done|by intros [-> ->]]|..].
    + intros a b Ha Hb. apply H; by right.
    + left.
    + left.
Qed.

Lemma sorted_objects (fields fields' : list (jsstr * json)) :
  NoDup (List.map fst fields) →
  (∀ a b, a ∈ fields → b ∈ fields' → sort_fields a.2 = sort_fields b.2 ↔ same_json a.2 b.2) →
  sort_fields (JObj fields) = sort_fields (JObj fields') ↔ same_json (JObj fields) (JObj fields').
Proof.
  intros Hd IH. set (R := λ a b : jsstr * json, a.1 = b.1 ∧ same_json a.2 b.2).
  assert (Hm : ∀ m, fields ≡ₚ m →
            List.map with_sorted m = List.map with_sorted fields' ↔ Forall2 R m fields').
  { intros m Hp. apply map_eq_Forall2. intros a b Ha Hb. rewrite <- Hp in Ha.
    unfold R. rewrite <- (IH a b Ha Hb). unfold with_sorted. split; [by intros [= -> ->]|].
    by intros [-> ->]. }
  cbn. change (List.map _ fields) with (List.map with_sorted fields).
  change (List.map _ fields') with (List.map with_sorted fields'). split.
  - intros [= E]. assert (Hp : List.map with_sorted fields' ≡ₚ List.map with_sorted fields).
    { by rewrite <- (order_by_perm key_le (List.map with_sorted fields)), E, order_by_perm. }
    apply Permutation_map_inv in Hp as (m & Em & Hp). apply (same_obj fields m fields' Hp).
    by apply Hm.
  - inversion 1 as [| | | | | |l m k Hp Hf]; subst. apply Hm in Hf; [|done]. f_equal.
    rewrite <- Hf. apply order_by_key_perm; [by rewrite with_sorted_names|].
    by apply Permutation_map.
Qed.

Lemma sorted_same v v' : wf_json v → wf_json v' → sort_fields v = sort_fields v' ↔ same_json v v'.
Proof.
  revert v'. induction v as [| | | | |items IH|fields IH] using json_nested_ind; intros v' Hv Hv'.
  1-5: destruct v'; split; intros H; cbn in *; simplify_eq; try constructor; by inversion H.
  - inversion Hv as [| | | | |l Hl|]; subst. rewrite Forall_forall in IH, Hl.
    destruct v' as [| | | | |items'|]; try (split; intros H; by inversion H).
    inversion Hv' as [| | | | |l' Hl'|]; subst. rewrite Forall_forall in Hl'.
    transitivity (Forall2 same_json items items'); [|split; [by constructor|by inversion 1]].
    rewrite <- (map_eq_Forall2 sort_fields); [cbn; split; [by intros [= ?]|by intros ->]|].
    intros x y Hx Hy. apply IH; auto.
  - destruct v' as [| | | | | |fields']; try (split; intros H; by inversion H).
    inversion Hv as [| | | | | |l Hd Hl]; subst. inversion Hv' as [| | | | | |l' _ Hl']; subst.
    rewrite Forall_forall in IH, Hl, Hl'. apply sorted_objects; [done|].
    intros a b Ha Hb. apply IH; auto.
Qed.

(** C40: The canonical text identifies a request.  Two values, with distinct names in each object,
    have the same canonical text exactly when they are the same value up to the order of the
    fields of their objects, at every depth. *)
Theorem canonicalJson_identifies v v' :
  wf_json v → wf_json v' → canonicalJson v = canonicalJson v' ↔ same_json v v'.
Proof.
  intros Hv Hv'. rewrite !canonicalJson_render, <- sorted_same by done. split; [|by intros ->].
  intros E. apply (f_equal (λ t, t ++ [])) in E.
  apply render_inj in E as [E _]; [done|by apply sort_fields_wf..| |]; by intros c.
Qed.

Lemma canonicalJson_identifies_witness :
  let v := JObj [(js "b", JNum 2); (js "a", JArr [JNum 1; JStr (js "1")])] in
  let v' := JObj [(js "a", JArr [JNum 1; JStr (js "1")]); (js "b", JNum 2)] in
  let w := JObj [(js "a", JArr [JNum 1; JNum 1]); (js "b", JNum 2)] in
  canonicalJson v = canonicalJson v' ∧ same_json v v' ∧ ¬ same_json v w.
Proof.
  intros v v' w.
  assert (Hv : wf_json v) by (repeat first [constructor|set_solver]).
  assert (Hv' : wf_json v') by (repeat first [constructor|set_solver]).
  assert (Hw : wf_json w) by (repeat first [constructor|set_solver]).
  assert (E : canonicalJson v = canonicalJson v') by (vm_compute; reflexivity).
  split; [done|]. split; [by apply (canonicalJson_identifies v v')|].
  rewrite <- (canonicalJson_identifies v w) by done. vm_compute. discriminate.
Defined.

End CanonicalJson.
