(* ===== verification/Receipts.v ===== *)
(** * Mutation receipts ([src/src/mutation-receipts.ts])

    A client that retries a mutation sends the same mutation id; the receipt of the first execution
    makes the retry harmless.  [begin], [complete] and [reconcile] are the operations of the table
    [client_mutation_receipts]; [start] and [finish] are the two halves of
    [runWithMutationReceipt], before and after the execution it awaits, so that other calls can run
    in between.  The SHA-256 digest and the collation of SQLite are parameters.  What a handler
    returns is the value its JSON text stands for, [None] when it has no JSON text. *)

From S2P Require Import Prelude JsString Json Sql CanonicalJson.

Module MutationReceipts.
Export CanonicalJson.

Record Key := mkKey { principalId : jsstr; operation : jsstr; clientMutationId : jsstr }.

#[export] Instance Key_eq_dec : EqDecision Key.
Proof. solve_decision. Defined.

Inductive ReceiptStatus := st_pending | st_completed | st_other.

#[export] Instance ReceiptStatus_eq_dec : EqDecision ReceiptStatus.
Proof. solve_decision. Defined.

(** [result_json] is [None] for SQL [null]. *)
Record Receipt := mkReceipt {
  receipt_key : Key;
  request_hash : jsstr;
  status : ReceiptStatus;
  result_json : option json_text;
  created_at : Z;
  updated_at : Z
}.

Record Input := mkInput {
  in_principalId : jsstr;
  in_operation : jsstr;
  in_clientMutationId : option jsstr;
  request : json
}.

Inductive MutationReceiptDecision :=
| d_disabled | d_new | d_replay (result : json) | d_pending | d_conflict.

Inductive ReceiptError := not_serializable | not_finalized | bad_retention | bad_date.

Section Receipts.
Context (sha256 : jsstr → jsstr) (binaryLt : jsstr → jsstr → bool).

Definition requestHash (op : jsstr) (req : json) : jsstr := sha256 (op +s [LF] +s canonicalJson req).

Definition find_receipt (k : Key) (t : list Receipt) : option Receipt := by_key receipt_key k t.

(** [insert or ignore]: the table and the number of rows inserted *)
Definition beginStatement (k : Key) (hash : jsstr) (now : Z) (t : list Receipt)
  : list Receipt * nat :=
  match find_receipt k t with
  | Some _ => (t, 0)
  | None => (insert_row (mkReceipt k hash st_pending None now now) t, 1)
  end.

(** [begin]; the mutation id is not empty. *)
Definition begin_ (k : Key) (req : json) (now : Z) (t : list Receipt)
  : MutationReceiptDecision * list Receipt :=
  let hash := requestHash (operation k) req in
  let '(t, inserted) := beginStatement k hash now t in
  (match find_receipt k t with
   | None => d_conflict
   | Some row =>
       if negb (request_hash row =s hash) then d_conflict
       else match status row with
       | st_completed =>
           match default (Some JNull) (result_json row) with
           | Some v => d_replay v
           | None => d_conflict
           end
       | st_other => d_conflict
       | st_pending => if inserted =? 1 then d_new else d_pending
       end
   end, t).

Definition begin (input : Input) (now : Z) (t : list Receipt)
  : MutationReceiptDecision * list Receipt :=
  match in_clientMutationId input with
  | None | Some [] => (d_disabled, t)
  | Some id => begin_ (mkKey (in_principalId input) (in_operation input) id) (request input) now t
  end.

(** [complete]; [req] is the content of the request object by then. *)
Definition complete (k : Key) (req : json) (result : option json) (now : Z) (t : list Receipt)
  : res ReceiptError (list Receipt) :=
  let hash := requestHash (operation k) req in
  serialized ← require result not_serializable;
  let '(t, changes) := update_where
    (λ r, bool_decide (receipt_key r = k) && (request_hash r =s hash)
          && bool_decide (status r = st_pending))
    (λ r, mkReceipt (receipt_key r) (request_hash r) st_completed (Some (Some serialized))
            (created_at r) now) t in
  _ ← ensure (changes =? 1) not_finalized;
  Ok t.

(** ** Reconciliation *)

Record Maintenance := mkMaintenance {
  deletedCompleted : nat;
  pendingSample : list (Key * Z);
  pendingHasMore : bool
}.

(** [Math.max(1, Math.min(500, Math.trunc(limit ?? 100)))] *)
Definition clampLimit (lim : option Z) : nat := Z.to_nat (Z.max 1 (Z.min 500 (default 100%Z lim))).

Definition thirtyDays : Z := 30 * 24 * 60 * 60 * 1000.

(** What [toISOString] accepts *)
Definition valid_date (ms : Z) : bool := (Z.abs ms <=? 8640000000000000)%Z.

Definition older (a b : Receipt) : bool := (updated_at a <=? updated_at b)%Z.

(** [order by updated_at, principal_id, operation, client_mutation_id] *)
Definition pendingLe (a b : Receipt) : bool :=
  let lex (x y : jsstr) (rest : bool) := binaryLt x y || negb (binaryLt y x) && rest in
  ((updated_at a <? updated_at b)
   || (updated_at a =? updated_at b)
      && lex (principalId (receipt_key a)) (principalId (receipt_key b))
           (lex (operation (receipt_key a)) (operation (receipt_key b))
              (negb (binaryLt (clientMutationId (receipt_key b)) (clientMutationId (receipt_key a))))))%Z.

Definition prunable (cutoff : Z) (r : Receipt) : bool :=
  bool_decide (status r = st_completed) && (updated_at r <? cutoff)%Z.

(** The receipts [deleteCompletedStatement] deletes; its subquery names rows by their rowid, which
    the primary key determines. *)
Definition pruned (cutoff : Z) (n : nat) (t : list Receipt) : list Key :=
  List.map receipt_key (limit n (order_by older (select_where (prunable cutoff) t))).

(** [retentionMs] is [Some None] when it is not finite; [now] is the argument or the clock. *)
Definition reconcile (retentionMs : option (option Z)) (lim : option Z) (now : Z)
    (t : list Receipt) : res ReceiptError (Maintenance * list Receipt) :=
  let n := clampLimit lim in
  retention ← require (default (Some thirtyDays) retentionMs) bad_retention;
  _ ← reject (retention <? 0)%Z bad_retention;
  let cutoff := (now - retention)%Z in
  _ ← ensure (valid_date cutoff) bad_date;
  let '(t, deleted) :=
    delete_where (λ r, bool_decide (receipt_key r ∈ pruned cutoff n t)) t in
  let rows := limit (n + 1) (order_by pendingLe (select_where (λ r, bool_decide (status r = st_pending)) t)) in
  Ok (mkMaintenance deleted (List.map (λ r, (receipt_key r, updated_at r)) (take n rows))
        (n <? length rows), t).

(** ** [runWithMutationReceipt] *)

Definition errorContent (text : jsstr) : json :=
  JObj [(js "content", JArr [JObj [(js "type", JStr "text"); (js "text", JStr text)]]);
        (js "isError", JBool true)].

Definition mutationReceiptResult (d : MutationReceiptDecision) : json :=
  errorContent
    match d with
    | d_pending => "This mutation is already in progress or its prior outcome is unknown. Reconcile authoritative state before retrying."
    | d_conflict => "This client mutation ID was already used with different request content."
    | _ => "Stored mutation result could not be replayed."
    end.

Definition unfinalized : json :=
  errorContent "Mutation committed, but its durable receipt could not be finalized. Reconcile authoritative state before retrying.".

(** Where a call is: executing without a receipt, executing under the receipt of a key, returned
    (a value, or a thrown message when it runs without a receipt), or lost with its process. *)
Inductive Phase :=
| Direct
| Executing (k : Key)
| Returned (answer : option json)
| Thrown (message : jsstr)
| Lost.

Record Call := mkCall { input : Input; phase : Phase }.

(** [executions] are the executions begun under a receipt; [prunes] the receipts deleted since. *)
Record World := mkWorld {
  table : list Receipt;
  calls : list Call;
  executions : list Key;
  prunes : list Key
}.

Definition set_phase (i : nat) (p : Phase) (cs : list Call) : list Call :=
  alter (λ c, mkCall (input c) p) i cs.

(** Up to the execution; [stored] tells whether the server has a receipt store. *)
Definition start (stored : bool) (inp : Input) (now : Z) (w : World) : World :=
  let arrive p t ex := mkWorld t (calls w ++ [mkCall inp p]) ex (prunes w) in
  match in_clientMutationId inp with
  | None | Some [] => arrive Direct (table w) (executions w)
  | Some id =>
      if negb stored then arrive Direct (table w) (executions w)
      else
        let k := mkKey (in_principalId inp) (in_operation inp) id in
        let '(d, t) := begin inp now (table w) in
        match d with
        | d_disabled => arrive Direct t (executions w)
        | d_replay v => arrive (Returned (Some v)) t (executions w)
        | d_new => arrive (Executing k) t (executions w ++ [k])
        | d_pending | d_conflict => arrive (Returned (Some (mutationReceiptResult d))) t (executions w)
        end
  end.

(** The execution of call [i] ends with a result or a thrown message; [req] is the content of its
    request by then. *)
Definition finish (i : nat) (outcome : option json + jsstr) (req : json) (now : Z) (w : World)
  : World :=
  let return_ p t := mkWorld t (set_phase i p (calls w)) (executions w) (prunes w) in
  match phase <$> calls w !! i with
  | Some Direct =>
      return_ match outcome with inl v => Returned v | inr message => Thrown message end (table w)
  | Some (Executing k) =>
      let result := match outcome with inl v => v | inr message => Some (errorContent message) end in
      match complete k req result now (table w) with
      | Err _ => return_ (Returned (Some unfinalized)) (table w)
      | Ok t => return_ (Returned result) t
      end
  | _ => w
  end.

(** A maintenance pass; one that throws has changed nothing. *)
Definition maintain (retentionMs : option (option Z)) (lim : option Z) (now : Z) (w : World)
  : World :=
  match reconcile retentionMs lim now (table w) with
  | Err _ => w
  | Ok (_, t) =>
      mkWorld t (calls w) (executions w)
        (prunes w ++ List.filter (λ k, negb (bool_decide (is_Some (find_receipt k t))))
                       (List.map receipt_key (table w)))
  end.

(** The process ends; the table stays. *)
Definition crash (w : World) : World :=
  mkWorld (table w)
    (List.map (λ c, mkCall (input c)
       match phase c with Direct | Executing _ => Lost | p => p end) (calls w))
    (executions w) (prunes w).

Inductive step (w : World) : World → Prop :=
| step_start stored inp now : step w (start stored inp now w)
| step_finish i outcome req now : step w (finish i outcome req now w)
| step_maintain retention lim now : step w (maintain retention lim now w)
| step_crash : step w (crash w).

Definition empty_world : World := mkWorld [] [] [] [].

End Receipts.

(** [principalId?.trim() || `role:${role ?? "anonymous"}`] *)
Definition mutationPrincipalId (principalId role : option jsstr) : jsstr :=
  let p := trim (or_empty principalId) in
  if nonempty p then p else "role:" +s default (js "anonymous") role.

Definition receiptKey (k : Key) : jsstr :=
  principalId k +s [NUL] +s operation k +s [NUL] +s clientMutationId k.

End MutationReceipts.
