(* ===== verification/ReceiptFacts.v ===== *)
(** * What mutation receipts promise

    Along every history of starts, ends, maintenance passes and crashes: a mutation executes at
    most once until a maintenance pass deletes its completed receipt, which is then older than the
    retention; a retry of a completed mutation gets the first result, a different request under
    its id a conflict; and a mutation whose outcome was lost is never executed again. *)

From S2P Require Import Prelude JsString Json Sql CanonicalJson Receipts.

Module ReceiptFacts.
Export MutationReceipts.

Definition times (k : Key) (l : list Key) : nat :=
  length (List.filter (λ x, bool_decide (x = k)) l).

Lemma times_app k l1 l2 : times k (l1 ++ l2) = times k l1 + times k l2.
Proof. unfold times. by rewrite List.filter_app, length_app. Qed.

Lemma times_one k k' : times k [k'] = if decide (k' = k) then 1 else 0.
Proof. unfold times. cbn. by case_bool_decide; case_decide. Qed.

Lemma times_filter_NoDup k p l :
  NoDup l → times k (List.filter p l) = if decide (k ∈ l ∧ p k = true) then 1 else 0.
Proof.
  induction 1 as [|a l Hn Hd IH]; cbn [List.filter].
  - rewrite decide_False; [done|]. intros [H _]. by apply not_elem_of_nil in H.
  - assert (E : times k (List.filter p (a :: l))
                = (if p a then times k [a] else 0) + times k (List.filter p l)).
    { cbn [List.filter]. destruct (p a); [|done]. by rewrite <- (times_app k [a]). }
    cbn [List.filter] in E. rewrite E, IH, times_one. destruct (decide (a = k)) as [->|Hne].
    + rewrite (decide_False (P := k ∈ l ∧ _)) by naive_solver.
      destruct (p k); [rewrite decide_True by (split; [left|done]); lia|].
      by rewrite decide_False by naive_solver.
    + destruct (decide (k ∈ l ∧ p k = true)) as [[]|Hk].
      * rewrite decide_True by (split; [by right|done]). by destruct (p a).
      * rewrite decide_False; [by destruct (p a)|]. intros [[->|]%elem_of_cons ?]; [done|]. tauto.
Qed.

Section Facts.
Context (sha256 : jsstr → jsstr) (binaryLt : jsstr → jsstr → bool).

Abbreviation hash_of k req := (requestHash sha256 (operation k) req).
Abbreviation step := (MutationReceipts.step sha256 binaryLt).

(** ** The operations on the table *)

Definition row_ok (r : Receipt) : Prop :=
  match status r with
  | st_pending => result_json r = None
  | st_completed => ∃ v, result_json r = Some (Some v)
  | st_other => False
  end.

Definition table_ok (t : list Receipt) : Prop := keyed receipt_key t ∧ ∀ r, r ∈ t → row_ok r.

Definition fresh (k : Key) (req : json) (now : Z) : Receipt :=
  mkReceipt k (hash_of k req) st_pending None now now.

(** What a retry is told about the receipt [r]. *)
Definition verdict (r : Receipt) (k : Key) (req : json) : MutationReceiptDecision :=
  if request_hash r =s hash_of k req then
    match status r, result_json r with
    | st_completed, Some (Some v) => d_replay v
    | st_pending, _ => d_pending
    | _, _ => d_conflict
    end
  else d_conflict.

Lemma begin_new k req now t :
  find_receipt k t = None → begin_ sha256 k req now t = (d_new, insert_row (fresh k req now) t).
Proof.
  intros H. unfold begin_, beginStatement. rewrite H. unfold find_receipt.
  rewrite (by_key_insert_eq receipt_key (fresh k req now)) by done. cbn.
  by rewrite js_eqb_refl.
Qed.

Lemma begin_known k req now t r :
  table_ok t → find_receipt k t = Some r → begin_ sha256 k req now t = (verdict r k req, t).
Proof.
  intros [_ Hr] H. unfold begin_, beginStatement. rewrite H, H. unfold verdict.
  apply by_key_Some in H as [Hin _]. specialize (Hr r Hin). unfold row_ok in Hr.
  destruct (request_hash r =s hash_of k req); cbn [negb]; [|done].
  destruct (status r); [done| |done]. by destruct Hr as [v ->].
Qed.

Definition completed_row (v : json) (now : Z) (r : Receipt) : Receipt :=
  mkReceipt (receipt_key r) (request_hash r) st_completed (Some (Some v)) (created_at r) now.

Lemma complete_Ok k req result now t t' :
  keyed receipt_key t → complete sha256 k req result now t = Ok t' →
  ∃ v r, result = Some v ∧ find_receipt k t = Some r ∧ status r = st_pending
    ∧ request_hash r = hash_of k req ∧ keyed receipt_key t'
    ∧ (∀ k', find_receipt k' t'
             = if decide (k' = k) then Some (completed_row v now r) else find_receipt k' t).
Proof.
  intros Hk H. unfold complete in H. apply bind_Ok in H as (v & Hv & H).
  apply require_Ok in Hv. set (p := λ r, _ && _) in H. set (f := completed_row v now).
  change (λ r, mkReceipt _ _ _ _ _ _) with f in H.
  pose proof (changes_keyed receipt_key p f t k Hk) as Hc.
  assert (Hp : ∀ r, p r = true → receipt_key r = k) by (intros r Hr; unfold p in Hr; guards; done).
  specialize (Hc Hp). assert (Hf : preserves_key receipt_key f) by (by intros []).
  destruct (update_where p f t) as [t1 n] eqn:E. cbn in Hc. apply bind_Ok in H as ([] & Hn & H).
  apply ensure_Ok, Nat.eqb_eq in Hn. injection H as ->. rewrite Hn in Hc.
  change (by_key receipt_key k t) with (find_receipt k t) in Hc.
  destruct (find_receipt k t) as [r|] eqn:Er; [|done]. destruct (p r) eqn:Pr; [|done].
  exists v, r. split; [done|]. split; [done|]. unfold p in Pr. apply andb_true_iff in Pr as [Pr P3].
  apply andb_true_iff in Pr as [P1 P2]. apply js_eqb_eq in P2. apply bool_decide_eq_true in P3.
  split; [done|]. split; [done|].
  assert (Et : t' = (update_where p f t).1) by by rewrite E. subst t'.
  split; [by apply keyed_update|]. intros k'. unfold find_receipt.
  rewrite by_key_update by done. destruct (decide (k' = k)) as [->|Ek].
  - change (by_key receipt_key k t) with (find_receipt k t). rewrite Er. cbn.
    unfold p. rewrite P1. rewrite (proj2 (js_eqb_eq _ _) P2), bool_decide_eq_true_2 by done. done.
  - destruct (by_key receipt_key k' t) as [r'|] eqn:Er'; [|done]. cbn.
    destruct (p r') eqn:Pr'; [|done]. apply by_key_Some in Er' as [_ <-]. by destruct Ek; apply Hp.
Qed.

Lemma complete_succeeds k req v now t r :
  keyed receipt_key t → find_receipt k t = Some r → status r = st_pending →
  request_hash r = hash_of k req → is_ok (complete sha256 k req (Some v) now t) = true.
Proof.
  intros Hk Hr Hs Hh. unfold complete. cbn [require mbind res_bind]. set (p := λ r, _ && _).
  set (f := λ r, mkReceipt _ _ _ _ _ _). pose proof (changes_keyed receipt_key p f t k Hk) as Hc.
  destruct (update_where p f t) as [t1 n]. cbn in Hc. rewrite Hc.
  - change (by_key receipt_key k t) with (find_receipt k t). rewrite Hr.
    apply by_key_Some in Hr as [_ Hkey]. unfold p. rewrite Hs, Hh, Hkey.
    rewrite js_eqb_refl. by rewrite !bool_decide_eq_true_2.
  - intros r' Hr'. unfold p in Hr'. guards. done.
Qed.

(** A pass deletes only completed receipts older than the cutoff. *)
Lemma pruned_prunable cutoff n t k r :
  keyed receipt_key t → find_receipt k t = Some r → k ∈ pruned cutoff n t →
  prunable cutoff r = true.
Proof.
  intros Hk Hr (r' & -> & Hin)%elem_of_Lmap. unfold limit in Hin.
  assert (Hin' : r' ∈ order_by older (select_where (prunable cutoff) t)).
  { rewrite <- (take_drop n). apply elem_of_app. by left. }
  rewrite elem_of_order_by in Hin'. apply elem_of_Lfilter in Hin' as [Ht Hp].
  unfold find_receipt in Hr. rewrite (keyed_by_key receipt_key t r' Hk Ht) in Hr. by simplify_eq.
Qed.

Lemma reconcile_Ok retention lim now t m t' :
  keyed receipt_key t → reconcile binaryLt retention lim now t = Ok (m, t') →
  keyed receipt_key t' ∧ (∀ r, r ∈ t' → r ∈ t)
  ∧ ∀ k, find_receipt k t' = find_receipt k t
      ∨ find_receipt k t' = None ∧ ∃ r ms, find_receipt k t = Some r ∧ status r = st_completed
        ∧ default (Some thirtyDays) retention = Some ms ∧ (updated_at r < now - ms)%Z.
Proof.
  intros Hk H. unfold reconcile in H. apply bind_Ok in H as (ms & Hms & H).
  apply require_Ok in Hms. res_inv H. split; [by apply keyed_delete|]. split.
  - intros r [Hr _]%elem_of_Lfilter. done.
  - intros k. unfold find_receipt.
    match goal with |- context [List.filter ?q t] => change (List.filter q t)
      with (delete_where (λ r, bool_decide (receipt_key r
              ∈ pruned (now - ms) (clampLimit lim) t)) t).1 end.
    rewrite by_key_delete by done. destruct (by_key receipt_key k t) as [r|] eqn:Er; [|by left].
    case_bool_decide as Hin; [|by left]. right. split; [done|]. exists r, ms. split; [done|].
    assert (Ek : receipt_key r = k) by by apply by_key_Some in Er as [_ ?].
    rewrite Ek in Hin. apply (pruned_prunable _ _ t k r) in Hin; [|done|done].
    unfold prunable in Hin. guards. done.
Qed.

(** ** The invariant *)

Definition input_key (inp : Input) : option Key :=
  match in_clientMutationId inp with
  | None | Some [] => None
  | Some id => Some (mkKey (in_principalId inp) (in_operation inp) id)
  end.

Definition known (k : Key) (t : list Receipt) : nat := if find_receipt k t is Some _ then 1 else 0.

Definition executes (w : World) (i : nat) (k : Key) : Prop :=
  ∃ c, calls w !! i = Some c ∧ phase c = Executing k.

Record inv (w : World) : Prop := {
  iv_table : table_ok (table w);
  iv_call : ∀ i c k, calls w !! i = Some c → phase c = Executing k →
    input_key (input c) = Some k
    ∧ ∃ r, find_receipt k (table w) = Some r ∧ status r = st_pending
        ∧ request_hash r = hash_of k (request (input c));
  iv_unique : ∀ i j k, executes w i k → executes w j k → i = j;
  iv_count : ∀ k, times k (executions w) = times k (prunes w) + known k (table w)
}.

(** The end of a call *)
Lemma set_phase_lookup i p cs j c :
  set_phase i p cs !! j = Some c →
  (j = i ∧ ∃ c0, cs !! i = Some c0 ∧ c = mkCall (input c0) p) ∨ (j ≠ i ∧ cs !! j = Some c).
Proof.
  unfold set_phase. destruct (decide (j = i)) as [->|Hne].
  - rewrite list_lookup_alter_eq. destruct (cs !! i) as [c0|]; [|done]. intros [= <-]. left. eauto.
  - rewrite list_lookup_alter_ne by done. auto.
Qed.

Lemma executes_set_phase w i p t ex pr j k :
  (∀ k', p ≠ Executing k') →
  executes (mkWorld t (set_phase i p (calls w)) ex pr) j k → j ≠ i ∧ executes w j k.
Proof.
  intros Hp (c & Hc & Hk). cbn in Hc.
  apply set_phase_lookup in Hc as [(_ & c0 & _ & ->)|[Hne Hc]]; [by destruct (Hp k)|].
  split; [done|]. by exists c.
Qed.

(** A call arrives that does not execute under a receipt. *)
Lemma inv_arrive w inp p :
  (∀ k, p ≠ Executing k) → inv w →
  inv (mkWorld (table w) (calls w ++ [mkCall inp p]) (executions w) (prunes w)).
Proof.
  intros Hp [H1 H2 H3 H4].
  assert (Hex : ∀ j c k, (calls w ++ [mkCall inp p]) !! j = Some c → phase c = Executing k →
                  calls w !! j = Some c).
  { intros j c k [[_ Hj]|[_ <-]]%lookup_snoc_Some Hk; [done|]. by destruct (Hp k). }
  split; [done| | |done].
  - intros i c k Hc Hk. cbn in Hc. apply (H2 i); eauto.
  - intros i j k (c & Hc & Hk) (d & Hd & Hk'). cbn in Hc, Hd. eapply H3; [exists c|exists d]; eauto.
Qed.

(** A call returns and leaves the table alone. *)
Lemma inv_return w i p :
  (∀ k, p ≠ Executing k) → inv w →
  inv (mkWorld (table w) (set_phase i p (calls w)) (executions w) (prunes w)).
Proof.
  intros Hp [H1 H2 H3 H4]. split; [done| | |done].
  - intros j c k Hc Hk. cbn in Hc.
    apply set_phase_lookup in Hc as [(_ & c0 & _ & ->)|[_ Hc]]; [by destruct (Hp k)|]. by apply (H2 j).
  - intros j j' k Hj Hj'. apply executes_set_phase in Hj as [_ Hj], Hj' as [_ Hj']; eauto.
Qed.

Lemma inv_new w inp k now :
  inv w → input_key inp = Some k → find_receipt k (table w) = None →
  inv (mkWorld (insert_row (fresh k (request inp) now) (table w))
         (calls w ++ [mkCall inp (Executing k)]) (executions w ++ [k]) (prunes w)).
Proof.
  intros [[Hk Hr] H2 H3 H4] Hinp Hnone.
  assert (Hnew : find_receipt k (insert_row (fresh k (request inp) now) (table w))
                 = Some (fresh k (request inp) now)) by exact (by_key_insert_eq receipt_key (fresh k (request inp) now) _ Hnone).
  assert (Hold : ∀ k', k' ≠ k → find_receipt k' (insert_row (fresh k (request inp) now) (table w))
                 = find_receipt k' (table w)) by (intros k' Hk'; exact (by_key_insert_ne receipt_key (fresh k (request inp) now) _ k' Hk')).
  assert (Hno : ∀ i, ¬ executes w i k).
  { intros i (c & Hc & Hp). destruct (H2 i c k Hc Hp) as (_ & r & Hf & _). congruence. }
  split.
  - split; [exact (keyed_insert receipt_key (fresh k (request inp) now) _ Hk Hnone)|]. intros r [Hin| ->%list_elem_of_singleton]%elem_of_app; [auto|done].
  - intros i c k' [[_ Hc]|[_ <-]]%lookup_snoc_Some Hp.
    + assert (k' ≠ k) by (intros ->; by destruct (Hno i); exists c). cbn [table].
      rewrite Hold by done. by apply (H2 i).
    + cbn in Hp. simplify_eq. split; [done|]. exists (fresh k' (request inp) now). done.
  - assert (Hx : ∀ i k', executes (mkWorld (insert_row (fresh k (request inp) now) (table w))
         (calls w ++ [mkCall inp (Executing k)]) (executions w ++ [k]) (prunes w)) i k' →
         executes w i k' ∧ k' ≠ k ∨ i = length (calls w) ∧ k' = k).
    { intros i k' (c & [[_ Hc]|[-> <-]]%lookup_snoc_Some & Hp); cbn in Hp; [left|right; by simplify_eq].
      assert (He : executes w i k') by by exists c. split; [done|]. intros ->. by destruct (Hno i). }
    intros i j k' [[Hi ?]|[-> ->]]%Hx [[Hj ?]|[-> ?]]%Hx; try done. eauto.
  - intros k'. cbn [executions prunes table]. rewrite times_app, times_one, H4. unfold known.
    case_decide as Ek; [subst k'; rewrite Hnew, Hnone; lia|]. rewrite Hold by done. lia.
Qed.

Lemma inv_completed w i c k v now t :
  inv w → calls w !! i = Some c → phase c = Executing k → keyed receipt_key t →
  (∃ r, find_receipt k (table w) = Some r
        ∧ ∀ k', find_receipt k' t = if decide (k' = k) then Some (completed_row v now r)
                                    else find_receipt k' (table w)) →
  inv (mkWorld t (set_phase i (Returned (Some v)) (calls w)) (executions w) (prunes w)).
Proof.
  intros [[Hk Hr] H2 H3 H4] Hc Hp Hkt (r & Hf & Ht). split.
  - split; [done|]. intros r' Hin. pose proof (keyed_by_key receipt_key t r' Hkt Hin) as Hf'.
    change (by_key receipt_key (receipt_key r') t) with (find_receipt (receipt_key r') t) in Hf'.
    rewrite Ht in Hf'. case_decide; [simplify_eq; by exists v|]. apply Hr.
    by apply by_key_Some in Hf' as [? _].
  - intros j d k' Hd Hp'. cbn in Hd.
    apply set_phase_lookup in Hd as [(_ & c0 & _ & ->)|[Hne Hd]]; [done|].
    cbn [table]. rewrite Ht, decide_False; [by apply (H2 j)|]. intros ->. destruct Hne.
    apply (H3 j i k); [by exists d|by exists c].
  - intros j j' k' Hj Hj'. apply executes_set_phase in Hj as [_ Hj], Hj' as [_ Hj']; eauto.
  - intros k'. cbn [executions prunes table]. rewrite H4. unfold known. rewrite Ht.
    case_decide; [subst k'; by rewrite Hf|done].
Qed.

(** ** Steps *)

(** What a retry is answered. *)
Definition reply (d : MutationReceiptDecision) : json :=
  match d with d_replay v => v | _ => mutationReceiptResult d end.

Lemma start_eq stored inp now w :
  table_ok (table w) →
  start sha256 stored inp now w =
    match (if stored then input_key inp else None) with
    | None => mkWorld (table w) (calls w ++ [mkCall inp Direct]) (executions w) (prunes w)
    | Some k =>
        match find_receipt k (table w) with
        | None => mkWorld (insert_row (fresh k (request inp) now) (table w))
                    (calls w ++ [mkCall inp (Executing k)]) (executions w ++ [k]) (prunes w)
        | Some r =>
            mkWorld (table w)
              (calls w ++ [mkCall inp (Returned (Some (reply (verdict r k (request inp)))))])
              (executions w) (prunes w)
        end
    end.
Proof.
  intros Ht. unfold start, input_key, begin.
  destruct (in_clientMutationId inp) as [[|c id]|]; [by destruct stored| |by destruct stored].
  destruct stored; [|done]. cbn [negb].
  set (k := mkKey _ _ _). destruct (find_receipt k (table w)) as [r|] eqn:Er.
  - rewrite (begin_known k _ now _ r) by done. unfold verdict, reply.
    destruct (_ =s _); [|done]. destruct (status r); [done| |done].
    by destruct (result_json r) as [[v|]|].
  - by rewrite begin_new.
Qed.

(** The value a call returns with when its execution ends, if it can be written. *)
Definition outcome_value (outcome : option json + jsstr) : option json :=
  match outcome with inl v => v | inr message => Some (errorContent message) end.

Lemma finish_cases i outcome req now w :
  inv w →
  finish sha256 i outcome req now w = w
  ∨ (∃ p, (∀ k, p ≠ Executing k) ∧ finish sha256 i outcome req now w
       = mkWorld (table w) (set_phase i p (calls w)) (executions w) (prunes w))
  ∨ (∃ c k v t r, calls w !! i = Some c ∧ phase c = Executing k ∧ outcome_value outcome = Some v
       ∧ find_receipt k (table w) = Some r ∧ status r = st_pending ∧ keyed receipt_key t
       ∧ (∀ k', find_receipt k' t = if decide (k' = k) then Some (completed_row v now r)
                                    else find_receipt k' (table w))
       ∧ finish sha256 i outcome req now w
         = mkWorld t (set_phase i (Returned (Some v)) (calls w)) (executions w) (prunes w)).
Proof.
  intros Hinv. unfold finish. destruct (calls w !! i) as [c|] eqn:Hc; cbn; [|by left].
  destruct (phase c) as [|k|a|m|] eqn:Hp; [| |by left..].
  - right; left. eexists. split; [|done]. by destruct outcome.
  - fold (outcome_value outcome).
    destruct (complete sha256 k req (outcome_value outcome) now (table w)) as [t|e] eqn:E.
    + destruct (complete_Ok _ _ _ _ _ _ (proj1 (iv_table w Hinv)) E)
        as (v & r & Ev & Hr & Hs & _ & Hk & Ht).
      right; right. exists c, k, v, t, r. by rewrite Ev.
    + right; left. eexists. split; [|done]. done.
Qed.

Lemma maintain_cases retention lim now w :
  inv w →
  maintain binaryLt retention lim now w = w
  ∨ ∃ t ks, maintain binaryLt retention lim now w
            = mkWorld t (calls w) (executions w) (prunes w ++ ks)
      ∧ table_ok t
      ∧ ∀ k, (find_receipt k t = find_receipt k (table w) ∧ times k ks = 0)
        ∨ (find_receipt k t = None ∧ times k ks = 1
           ∧ ∃ r ms, find_receipt k (table w) = Some r ∧ status r = st_completed
               ∧ default (Some thirtyDays) retention = Some ms ∧ (updated_at r < now - ms)%Z).
Proof.
  intros Hinv. destruct (iv_table w Hinv) as [Hk Hrows]. unfold maintain.
  destruct (reconcile binaryLt retention lim now (table w)) as [[m t]|e] eqn:E; [|by left].
  destruct (reconcile_Ok _ _ _ _ _ _ Hk E) as (Hkt & Hsub & Hf). right. eexists t, _.
  split; [done|]. split; [by split; [|auto]|]. intros k.
  rewrite times_filter_NoDup by exact Hk.
  assert (Hin : ∀ r, find_receipt k (table w) = Some r → k ∈ List.map receipt_key (table w)).
  { intros r [Hin <-]%by_key_Some. apply elem_of_Lmap. eauto. }
  destruct (Hf k) as [Hsame|(Hnone & r & ms & Hr & Hs & Hms & Hu)].
  - left. split; [done|]. rewrite decide_False; [done|]. intros [(r & -> & Hr)%elem_of_Lmap Hp].
    rewrite Hsame in Hp. unfold find_receipt in Hp. rewrite keyed_by_key in Hp by done. done.
  - right. split; [done|]. split; [|by exists r, ms]. rewrite Hnone.
    rewrite decide_True; [done|]. split; [eauto|done].
Qed.

Lemma receipts_inv_step w w' : step w w' → inv w → inv w'.
Proof.
  intros Hstep Hinv. destruct Hstep as [stored inp now|i outcome req now|retention lim now|].
  - rewrite start_eq by apply Hinv. destruct (if stored then input_key inp else None) as [k|] eqn:Ek.
    + destruct stored; [|done]. destruct (find_receipt k (table w)) as [r|] eqn:Er.
      * by apply inv_arrive.
      * by apply inv_new.
    + by apply inv_arrive.
  - destruct (finish_cases i outcome req now w Hinv)
      as [->|[(p & Hp & ->)|(c & k & v & t & r & Hc & Hph & _ & Hr & _ & Hk & Ht & ->)]]; [done|..].
    + by apply inv_return.
    + by apply (inv_completed w i c k v now t); [..|exists r].
  - destruct (maintain_cases retention lim now w Hinv) as [->|(t & ks & -> & Ht & Hf)]; [done|].
    destruct Hinv as [_ H2 H3 H4]. split; [done| |exact H3|].
    + intros i c k Hc Hp. destruct (H2 i c k Hc Hp) as (Hi & r & Hr & Hs & Hh). split; [done|].
      exists r. split; [|done]. cbn [table]. destruct (Hf k) as [[-> _]|(_ & _ & r' & ms & Hr' & Hs' & _)]; [done|].
      congruence.
    + intros k. cbn [executions prunes table]. rewrite times_app, H4. unfold known.
      destruct (Hf k) as [[-> ->]|(-> & -> & r & ms & -> & _)]; lia.
  - destruct Hinv as [H1 H2 H3 H4]. unfold crash.
    assert (Hno : ∀ i c k, List.map (λ c, mkCall (input c)
       match phase c with Direct | Executing _ => Lost | p => p end) (calls w) !! i = Some c →
       phase c ≠ Executing k).
    { intros i c k. change (List.map ?f ?l) with (f <$> l). rewrite list_lookup_fmap.
      destruct (calls w !! i) as [c0|]; [|done]. intros [= <-]. by destruct (phase c0). }
    split; [done| | |done].
    + intros i c k Hc Hp. by destruct (Hno i c k Hc).
    + intros i j k (c & Hc & Hp) _. by destruct (Hno i c k Hc).
Qed.

Lemma empty_inv : inv empty_world.
Proof.
  split.
  - split; [constructor|]. intros r Hr. by apply not_elem_of_nil in Hr.
  - done.
  - by intros i j k (c & Hc & _).
  - done.
Qed.

Definition reachable (w : World) : Prop := steps step empty_world w.

Lemma receipts_inv w : reachable w → inv w.
Proof. intros H. exact (steps_invariant step inv receipts_inv_step _ _ H empty_inv). Qed.

(** *** What a step does to one receipt *)

Definition same_row (k : Key) (w w' : World) : Prop :=
  find_receipt k (table w') = find_receipt k (table w)
  ∧ times k (executions w') = times k (executions w)
  ∧ times k (prunes w') = times k (prunes w).

Lemma step_row w w' k r :
  step w w' → inv w → find_receipt k (table w) = Some r →
  (same_row k w w' ∧ (∀ i, executes w' i k → executes w i k))
  ∨ (status r = st_pending ∧ ∃ i, executes w i k)
  ∨ (status r = st_completed ∧ times k (prunes w') = S (times k (prunes w))).
Proof.
  intros Hstep Hinv Hr. destruct Hstep as [stored inp now|i outcome req now|retention lim now|].
  - left. rewrite start_eq by apply Hinv.
    assert (Hex : ∀ t p ex, p ≠ Executing k → ∀ i,
      executes (mkWorld t (calls w ++ [mkCall inp p]) ex (prunes w)) i k → executes w i k).
    { intros t p ex Hp i (c & [[_ Hc]|[_ <-]]%lookup_snoc_Some & Hph); [by exists c|done]. }
    destruct (if stored then input_key inp else None) as [k'|]; [|split; [done|by apply Hex]].
    destruct (find_receipt k' (table w)) as [r'|] eqn:Er'; [split; [done|by apply Hex]|].
    assert (Hne : k ≠ k') by (intros ->; congruence). split; [split; [|split; [|done]]|].
    + exact (by_key_insert_ne receipt_key (fresh k' (request inp) now) _ k Hne).
    + cbn [executions prunes]. rewrite times_app, times_one, decide_False by done. lia.
    + apply Hex. congruence.
  - destruct (finish_cases i outcome req now w Hinv)
      as [->|[(p & Hp & ->)|(c & k' & v & t & r' & Hc & Hph & _ & Hr' & Hs & _ & Ht & ->)]].
    + by left.
    + left. split; [done|]. intros j Hj. by apply executes_set_phase in Hj as [_ ?].
    + destruct (decide (k = k')) as [->|Hne].
      * right; left. simplify_eq. split; [done|]. exists i. by exists c.
      * left. split; [split; [|done]|].
        -- cbn. by rewrite Ht, decide_False.
        -- intros j Hj. by apply executes_set_phase in Hj as [_ ?].
  - destruct (maintain_cases retention lim now w Hinv) as [->|(t & ks & -> & _ & Hf)]; [by left|].
    destruct (Hf k) as [[Hsame Hz]|(_ & Hone & r' & ms & Hr' & Hs & _)].
    + left. split; [|done]. split; [done|]. split; [done|]. cbn [executions prunes]. rewrite times_app. lia.
    + right; right. simplify_eq. split; [done|]. cbn [executions prunes]. rewrite times_app. lia.
  - left. split; [done|]. intros i (c & Hc & Hp). cbn in Hc.
    change (List.map ?f ?l) with (f <$> l) in Hc. rewrite list_lookup_fmap in Hc.
    destruct (calls w !! i) as [c0|] eqn:E; [|done]. cbn in Hc. simplify_eq. cbn in Hp.
    exists c0. split; [done|]. by destruct (phase c0).
Qed.

Lemma step_prunes w w' k :
  step w w' → inv w → times k (prunes w) <= times k (prunes w').
Proof.
  intros Hstep Hinv. destruct Hstep as [stored inp now|i outcome req now|retention lim now|].
  - rewrite start_eq by apply Hinv. by repeat case_match.
  - destruct (finish_cases i outcome req now w Hinv)
      as [->|[(p & Hp & ->)|(c & k' & v & t & r' & _ & _ & _ & _ & _ & _ & _ & ->)]]; done.
  - destruct (maintain_cases retention lim now w Hinv) as [->|(t & ks & -> & _)]; [done|].
    cbn [executions prunes]. rewrite times_app. lia.
  - done.
Qed.

Lemma steps_prunes w w' k :
  steps step w w' → inv w → times k (prunes w) <= times k (prunes w').
Proof.
  induction 1 as [|w w1 w2 Hs _ IH]; intros Hinv; [done|].
  pose proof (step_prunes w w1 k Hs Hinv). specialize (IH (receipts_inv_step _ _ Hs Hinv)). lia.
Qed.

(** ** At most once *)

(** C19: A mutation executes at most once per retention.  In every reachable state, the executions
    begun under a key outnumber the deletions of its receipt by one at most, and by none when it
    has no receipt; and the one step that deletes receipts, a maintenance pass, deletes none but
    completed ones that are older than the retention it is given, thirty days by default. *)
Theorem mutation_executes_once w k :
  reachable w →
  times k (executions w) <= 1 + times k (prunes w)
  ∧ (find_receipt k (table w) = None → times k (executions w) = times k (prunes w))
  ∧ ∀ w' r, step w w' → find_receipt k (table w) = Some r → find_receipt k (table w') = None →
      ∃ retention lim now ms, w' = maintain binaryLt retention lim now w
        ∧ default (Some thirtyDays) retention = Some ms
        ∧ status r = st_completed ∧ (updated_at r < now - ms)%Z.
Proof.
  intros Hinv%receipts_inv. pose proof (iv_count w Hinv k) as Hc. unfold known in Hc.
  split; [destruct (find_receipt k (table w)); lia|]. split; [intros E; rewrite E in Hc; lia|].
  intros w' r Hstep Hr Hnone.
  destruct Hstep as [stored inp now|i outcome req now|retention lim now|].
  - rewrite start_eq in Hnone by apply Hinv.
    destruct (if stored then input_key inp else None) as [k'|]; [|cbn in Hnone; congruence].
    destruct (find_receipt k' (table w)) as [r'|] eqn:Er'; cbn [table] in Hnone; [congruence|].
    assert (Hne : k ≠ k') by (intros ->; congruence).
    pose proof (by_key_insert_ne receipt_key (fresh k' (request inp) now) (table w) k Hne) as E.
    unfold find_receipt in *. congruence.
  - destruct (finish_cases i outcome req now w Hinv)
      as [E|[(p & _ & E)|(c & k' & v & t & r' & _ & _ & _ & _ & _ & _ & Ht & E)]];
      rewrite E in Hnone; cbn [table] in Hnone; [congruence..|].
    rewrite Ht in Hnone. case_decide; [done|congruence].
  - destruct (maintain_cases retention lim now w Hinv) as [E|(t & ks & E & _ & Hf)];
      rewrite E in Hnone; cbn [table] in Hnone; [congruence|].
    destruct (Hf k) as [[Hsame _]|(_ & _ & r' & ms & Hr' & Hs & Hms & Hu)]; [congruence|].
    exists retention, lim, now, ms. simplify_eq. done.
  - cbn in Hnone. congruence.
Qed.

(** ** Lost outcomes *)

(** A mutation whose outcome was lost is never executed again.  When the receipt of a key is
    pending and no call executes under it (its process ended, or its completion failed), then
    after any further steps the receipt is unchanged, no execution of the key has been added, and
    a call that brings the key is answered with an error at once, whatever its request. *)
Theorem lost_outcome_is_never_retried w k r :
  reachable w → find_receipt k (table w) = Some r → status r = st_pending →
  (∀ i, ¬ executes w i k) →
  ∀ w', steps step w w' →
    find_receipt k (table w') = Some r
    ∧ times k (executions w') = times k (executions w)
    ∧ ∀ inp now, input_key inp = Some k →
        let w'' := start sha256 true inp now w' in
        executions w'' = executions w'
        ∧ ∃ d, (d = d_pending ∨ d = d_conflict)
            ∧ last (calls w'') = Some (mkCall inp (Returned (Some (mutationReceiptResult d)))).
Proof.
  intros Hw%receipts_inv Hr Hs Hno w' Hsteps.
  assert (Hinv : inv w' ∧ find_receipt k (table w') = Some r
                 ∧ times k (executions w') = times k (executions w) ∧ ∀ i, ¬ executes w' i k).
  { apply (steps_invariant step (λ u, inv u ∧ find_receipt k (table u) = Some r
      ∧ times k (executions u) = times k (executions w) ∧ ∀ i, ¬ executes u i k)) in Hsteps; [done| |done].
    intros u v Huv (Hu & Hru & Hcu & Hnu). split; [by apply (receipts_inv_step u)|].
    destruct (step_row u v k r Huv Hu Hru) as [[(E1 & E2 & E3) Hx]|[[_ [i Hi]]|[? _]]].
    - rewrite E1, E2. split; [done|]. split; [done|]. intros i Hi. by apply (Hnu i), Hx.
    - by destruct (Hnu i).
    - congruence. }
  destruct Hinv as (Hinv & Hr' & Hc & _). split; [done|]. split; [done|].
  intros inp now Hk. rewrite start_eq by apply Hinv. rewrite Hk, Hr'. split; [done|].
  exists (verdict r k (request inp)). cbn [calls]. rewrite last_snoc. unfold verdict. rewrite Hs.
  destruct (_ =s _); cbn; auto.
Qed.

(** ** Replay *)

Lemma steps_completed w w' k r :
  steps step w w' → inv w → find_receipt k (table w) = Some r → status r = st_completed →
  times k (prunes w') = times k (prunes w) →
  inv w' ∧ find_receipt k (table w') = Some r.
Proof.
  induction 1 as [|w w1 w2 Hs Hrest IH]; intros Hinv Hr Hst Hp; [done|].
  pose proof (receipts_inv_step _ _ Hs Hinv) as Hinv1.
  pose proof (step_prunes w w1 k Hs Hinv). pose proof (steps_prunes w1 w2 k Hrest Hinv1).
  destruct (step_row w w1 k r Hs Hinv Hr) as [[(E1 & _ & _) _]|[[? _]|[_ ?]]]; [|congruence|lia].
  apply IH; [done|congruence|done|lia].
Qed.

(** C37: A retry gets the result of the first execution.  Let a call that executes under the
    receipt of a key end, with a result that has a JSON text or by throwing, its request object as
    it was.  The call returns that result (the error content, when it threw), and until a
    maintenance pass deletes the receipt, every later call that brings the key returns at once and
    executes nothing: with the same result when its request is the same up to the order of fields,
    and otherwise, unless the digests of the two texts collide, with a conflict. *)
Theorem retries_replay w i c k outcome v now :
  reachable w → calls w !! i = Some c → phase c = Executing k → outcome_value outcome = Some v →
  wf_json (request (input c)) →
  let w1 := finish sha256 i outcome (request (input c)) now w in
  calls w1 !! i = Some (mkCall (input c) (Returned (Some v)))
  ∧ ∀ w2 inp now',
      steps step w1 w2 → times k (prunes w2) = times k (prunes w1) →
      input_key inp = Some k → wf_json (request inp) →
      let w3 := start sha256 true inp now' w2 in
      let text := λ req, operation k +s [LF] +s canonicalJson req in
      executions w3 = executions w2
      ∧ (same_json (request (input c)) (request inp) →
           last (calls w3) = Some (mkCall inp (Returned (Some v))))
      ∧ (¬ same_json (request (input c)) (request inp) →
           sha256 (text (request (input c))) ≠ sha256 (text (request inp)) →
           last (calls w3)
           = Some (mkCall inp (Returned (Some (mutationReceiptResult d_conflict))))).
Proof.
  intros Hw%receipts_inv Hc Hp Hv Hwf w1.
  destruct (iv_call w Hw i c k Hc Hp) as (_ & r & Hr & Hs & Hh).
  assert (Hk : keyed receipt_key (table w)) by apply Hw.
  pose proof (complete_succeeds k (request (input c)) v now (table w) r Hk Hr Hs Hh) as Hok.
  destruct (complete sha256 k (request (input c)) (Some v) now (table w)) as [t|] eqn:E; [|done].
  destruct (complete_Ok _ _ _ _ _ _ Hk E) as (v' & r' & [= <-] & Hr' & _ & _ & Hkt & Ht).
  assert (Ew1 : w1 = mkWorld t (set_phase i (Returned (Some v)) (calls w)) (executions w) (prunes w)).
  { unfold w1, finish. rewrite Hc. cbn [fmap option_fmap option_map]. rewrite Hp.
    fold (outcome_value outcome). by rewrite Hv, E. }
  rewrite Ew1. cbn [calls]. split.
  { unfold set_phase. rewrite list_lookup_alter_eq, Hc. done. }
  intros w2 inp now' Hsteps Hpr Hinp Hwf'.
  assert (Hrow : find_receipt k t = Some (completed_row v now r)).
  { rewrite Ht, decide_True by done. congruence. }
  destruct (steps_completed _ w2 k (completed_row v now r) Hsteps) as [Hinv2 Hr2]; [|done..|].
  { rewrite <- Ew1. apply (receipts_inv_step w); [by constructor|done]. }
  rewrite start_eq by apply Hinv2. rewrite Hinp, Hr2. split; [done|].
  cbn [calls]. rewrite last_snoc. unfold verdict. cbn [completed_row request_hash status result_json].
  rewrite Hh. split.
  - intros Hsame. apply canonicalJson_identifies in Hsame; [|done..]. unfold requestHash.
    rewrite Hsame, js_eqb_refl. done.
  - intros _ Hne. destruct (_ =s _) eqn:Eh; [|done]. apply js_eqb_eq in Eh. by destruct Hne.
Qed.

End Facts.

(** ** A mutation and its retries *)

Definition demo_sha (t : jsstr) : jsstr := t.
Definition demo_key : Key := mkKey "conversation:test" "test_mutation" "mutation-1".
Definition demo_input (req : json) : Input :=
  mkInput "conversation:test" "test_mutation" (Some (js "mutation-1")) req.
Definition demo_request : json := JObj [(js "b", JNum 2); (js "a", JNum 1)].
Definition demo_reordered : json := JObj [(js "a", JNum 1); (js "b", JNum 2)].
Definition demo_other : json := JObj [(js "a", JNum 99)].
Definition demo_result : json := JObj [(js "executions", JNum 1)].

Definition demo_started : World := start demo_sha true (demo_input demo_request) 10 empty_world.
Definition demo_finished : World :=
  finish demo_sha 0 (inl (Some demo_result)) demo_request 20 demo_started.
Definition demo_pruned : World := maintain js_ltb (Some (Some 50%Z)) None 100 demo_finished.

Lemma demo_started_reachable : reachable demo_sha js_ltb demo_started.
Proof. apply steps_one, step_start. Qed.

Lemma demo_wf : wf_json demo_request ∧ wf_json demo_reordered ∧ wf_json demo_other.
Proof. unfold demo_request, demo_reordered, demo_other. repeat first [split|constructor|set_solver]. Qed.

Lemma mutation_executes_once_witness :
  let w := start demo_sha true (demo_input demo_other) 200 demo_pruned in
  times demo_key (executions w) = 2 ∧ times demo_key (prunes w) = 1
  ∧ times demo_key (executions w) <= 1 + times demo_key (prunes w).
Proof.
  intros w. assert (Hr : reachable demo_sha js_ltb w).
  { eapply steps_trans; [apply demo_started_reachable|].
    apply (steps_cons _ _ demo_finished); [apply step_finish|].
    apply (steps_cons _ _ demo_pruned); [apply step_maintain|]. apply steps_one, step_start. }
  split; [by vm_compute|]. split; [by vm_compute|].
  apply (mutation_executes_once demo_sha js_ltb w demo_key Hr).
Defined.

Lemma lost_outcome_is_never_retried_witness :
  let w := crash demo_started in
  let w' := maintain js_ltb (Some (Some 0%Z)) None 1000000 w in
  times demo_key (executions w') = 1
  ∧ ∃ d, last (calls (start demo_sha true (demo_input demo_request) 2000000 w'))
         = Some (mkCall (demo_input demo_request) (Returned (Some (mutationReceiptResult d)))).
Proof.
  intros w w'.
  destruct (lost_outcome_is_never_retried demo_sha js_ltb w demo_key
              (fresh demo_sha demo_key demo_request 10)) with (w' := w') as (_ & E & H).
  - eapply steps_trans; [apply demo_started_reachable|]. apply steps_one, step_crash.
  - by vm_compute.
  - done.
  - intros [|i] (c & Hc & Hp); [|done]. vm_compute in Hc. by simplify_eq.
  - apply steps_one, step_maintain.
  - split; [rewrite E; by vm_compute|].
    destruct (H (demo_input demo_request) 2000000%Z eq_refl) as (_ & d & _ & Hd). by exists d.
Defined.

Lemma retries_replay_witness :
  last (calls (start demo_sha true (demo_input demo_reordered) 30 demo_finished))
  = Some (mkCall (demo_input demo_reordered) (Returned (Some demo_result)))
  ∧ last (calls (start demo_sha true (demo_input demo_other) 30 demo_finished))
    = Some (mkCall (demo_input demo_other)
              (Returned (Some (mutationReceiptResult d_conflict)))).
Proof.
  destruct demo_wf as (W1 & W2 & W3).
  destruct (retries_replay demo_sha js_ltb demo_started 0
              (mkCall (demo_input demo_request) (Executing demo_key)) demo_key
              (inl (Some demo_result)) demo_result 20) as [_ H];
    [apply demo_started_reachable|by vm_compute|done|done|done|].
  split.
  - destruct (H demo_finished (demo_input demo_reordered) 30%Z) as (_ & Hsame & _);
      [apply steps_refl|done|done|done|].
    apply Hsame, canonicalJson_identifies; [done|done|by vm_compute].
  - destruct (H demo_finished (demo_input demo_other) 30%Z) as (_ & _ & Hdiff);
      [apply steps_refl|done|done|done|].
    apply Hdiff; [|by vm_compute]. rewrite <- canonicalJson_identifies by done. by vm_compute.
Defined.

End ReceiptFacts.
