(* ===== verification/ReviewerJobs.v ===== *)
(** * Reviewer jobs ([src/src/review-thread/reviewer-job-store.ts])

    A review message is shown to a reviewer in a browser conversation by an attempt, a row of
    [review_browser_turns].  The dispatcher claims the message, which creates the attempt under a
    lease, and moves the attempt along its states; an expired lease is recovered, an uncertain
    attempt is resolved by the reviewer, feedback settles it.  The file models every operation of
    [createReviewerJobStore] on the tables it reads and writes, with the unique indexes of
    [db/schema.ts], and the two statements of [review-handoff/route-store.ts] that supersede
    attempts.  Parameters are the SHA-256 digest, [JSON.parse], SQLite's collation of ids, and
    [render], which makes the text of a prompt out of its content. *)

From S2P Require Import Prelude JsString Json Sql.

Module ReviewerJobs.

(** ** Tables *)

Inductive TurnState :=
| leased | browser_ready | dispatching | prompt_accepted | model_generating | generation_finished
| awaiting_feedback | uncertain
| blocked_auth | blocked_browser | failed | recovered | feedback_committed | settled | superseded.

#[export] Instance TurnState_eq_dec : EqDecision TurnState.
Proof. solve_decision. Defined.

(** A row of [review_browser_turns], and the [ReviewerAttempt] that [asAttempt] projects it to.
    The two baseline counts, which nothing here touches, are left out. *)
Record Turn := mkTurn {
  id : jsstr;
  reviewMessageId : jsstr;
  reviewThreadId : jsstr;
  routeEpoch : Z;
  profileId : jsstr;
  conversationFingerprint : jsstr;
  bindingRevision : option Z;
  attemptNumber : Z;
  browserGeneration : option Z;
  leaseOwner : option jsstr;
  leaseTokenSha256 : option jsstr;
  leaseExpiresAt : option Z;
  state : TurnState;
  promptSha256 : jsstr;
  submittedAt : option Z;
  generationStartedAt : option Z;
  generationStartedObservationId : option jsstr;
  generationFinishedAt : option Z;
  generationFinishedObservationId : option jsstr;
  feedbackCommittedAt : option Z;
  errorCode : option jsstr;
  lastProgressAt : option Z;
  createdAt : Z
}.

Inductive MessageStatus :=
| m_awaiting_activation | m_queued | m_presenting | m_presented | m_reviewer_claimed | m_failed
| m_feedback_committed | m_superseded | m_settled.

#[export] Instance MessageStatus_eq_dec : EqDecision MessageStatus.
Proof. solve_decision. Defined.

(** The columns of [review_thread_messages] that are read or written here. *)
Record Message := mkMessage {
  m_id : jsstr;
  threadId : jsstr;
  m_routeEpoch : Z;
  handoffId : jsstr;
  m_kind : jsstr;
  payloadJson : jsstr;
  payloadSha256 : jsstr;
  m_status : MessageStatus;
  m_revision : Z;
  updatedAt : Z
}.

(** ... of [review_threads] *)
Record Thread := mkThread {
  t_id : jsstr;
  routeId : jsstr;
  t_routeEpoch : Z;
  workSessionId : jsstr;
  t_reviewerPrincipalId : option jsstr;
  t_browserProfileId : option jsstr;
  t_browserGeneration : option Z;
  conversationUrl : option jsstr;
  conversationKey : option jsstr;
  t_conversationFingerprint : option jsstr;
  conversationBindingRevision : option Z;
  conversationBindingStatus : option jsstr;
  t_status : jsstr
}.

(** ... of [review_routes] *)
Record Route := mkRoute {
  r_id : jsstr;
  r_routeEpoch : Z;
  r_status : jsstr;
  deliveryTransport : jsstr;
  r_browserProfileId : option jsstr
}.

(** ... of [review_handoffs] *)
Record Handoff := mkHandoff { h_id : jsstr; h_routeEpoch : Z; h_status : jsstr }.

(** ... of [agent_messages] *)
Record AgentMessage := mkAgentMessage {
  a_id : jsstr; a_workSessionId : jsstr; a_kind : jsstr; a_status : jsstr }.

Inductive ResolutionKind := confirmed_prompt_absent_requeue | reviewer_unrecoverable.

#[export] Instance ResolutionKind_eq_dec : EqDecision ResolutionKind.
Proof. solve_decision. Defined.

(** A row of [review_browser_turn_resolutions] *)
Record Resolution := mkResolution {
  attemptId : jsstr;
  res_reviewThreadId : jsstr;
  res_routeEpoch : Z;
  reviewerPrincipalId : jsstr;
  resolution : ResolutionKind;
  reasonCode : option jsstr;
  evidenceSha256 : jsstr;
  res_createdAt : Z
}.

(** A row of [review_browser_partial_observations] *)
Record Partial := mkPartial {
  p_attemptId : jsstr;
  seq : Z;
  textSha256 : jsstr;
  textPrefix : jsstr;
  capturedAt : Z;
  provenance : jsstr
}.

Record store := mkStore {
  turns : list Turn;
  messages : list Message;
  threads : list Thread;
  routes : list Route;
  handoffs : list Handoff;
  agentMessages : list AgentMessage;
  resolutions : list Resolution;
  partials : list Partial
}.

Definition set_turns (t : list Turn) (s : store) : store :=
  mkStore t (messages s) (threads s) (routes s) (handoffs s) (agentMessages s) (resolutions s)
    (partials s).
Definition set_messages (m : list Message) (s : store) : store :=
  mkStore (turns s) m (threads s) (routes s) (handoffs s) (agentMessages s) (resolutions s)
    (partials s).
Definition set_resolutions (r : list Resolution) (s : store) : store :=
  mkStore (turns s) (messages s) (threads s) (routes s) (handoffs s) (agentMessages s) r
    (partials s).
Definition set_partials (p : list Partial) (s : store) : store :=
  mkStore (turns s) (messages s) (threads s) (routes s) (handoffs s) (agentMessages s)
    (resolutions s) p.

(** The errors the operations throw, one per message of the source; [type_error] is a property
    read on [null], [constraint_failed] a unique index. *)
Inductive Error :=
| bad_reason_code | outcome_unauthenticated | attempt_terminal | live_lease_outcome
| feedback_already_committed | not_bound_reviewer | attempt_changed | message_changed
| packet_corrupt | packet_invalid | type_error | constraint_failed
| lease_stale | prompt_submitted | turn_fenced | cas_failed
| partial_too_long | digest_malformed | digest_mismatch | unknown_attempt | partial_fenced
| not_generating | renewal_fenced
| recovery_unauthenticated | uncertain_unavailable | live_lease_recovery | no_longer_matches
| uncertain_changed.

(** ** Sets of states *)

Definition has_state (sts : list TurnState) (r : Turn) : bool := bool_decide (state r ∈ sts).

Definition ACTIVE : list TurnState :=
  [leased; browser_ready; dispatching; prompt_accepted; model_generating; generation_finished;
   awaiting_feedback; uncertain].

Definition TERMINAL_ELIGIBLE_STATES : list TurnState :=
  [prompt_accepted; model_generating; generation_finished; awaiting_feedback; uncertain;
   blocked_auth; blocked_browser].

Definition is_active (r : Turn) : bool := has_state ACTIVE r.

Definition has_id (k : jsstr) (r : Turn) : bool := bool_decide (id r = k).

Definition message_in (sts : list MessageStatus) (m : Message) : bool :=
  bool_decide (m_status m ∈ sts).

Definition message_id (k : jsstr) (m : Message) : bool := bool_decide (m_id m = k).

(** ** Updates of a row *)

(** State, error code and the lease columns *)
Definition set_state (st : TurnState) (err : option jsstr) (token : option jsstr)
  (expires : option Z) (r : Turn) : Turn :=
  {| id := id r; reviewMessageId := reviewMessageId r; reviewThreadId := reviewThreadId r;
     routeEpoch := routeEpoch r; profileId := profileId r;
     conversationFingerprint := conversationFingerprint r; bindingRevision := bindingRevision r;
     attemptNumber := attemptNumber r; browserGeneration := browserGeneration r;
     leaseOwner := leaseOwner r; leaseTokenSha256 := token; leaseExpiresAt := expires;
     state := st; promptSha256 := promptSha256 r; submittedAt := submittedAt r;
     generationStartedAt := generationStartedAt r;
     generationStartedObservationId := generationStartedObservationId r;
     generationFinishedAt := generationFinishedAt r;
     generationFinishedObservationId := generationFinishedObservationId r;
     feedbackCommittedAt := feedbackCommittedAt r; errorCode := err;
     lastProgressAt := lastProgressAt r; createdAt := createdAt r |}.

(** The columns that record progress *)
Definition set_progress (sub gs : option Z) (gso : option jsstr) (gf : option Z)
  (gfo : option jsstr) (fb lp : option Z) (r : Turn) : Turn :=
  {| id := id r; reviewMessageId := reviewMessageId r; reviewThreadId := reviewThreadId r;
     routeEpoch := routeEpoch r; profileId := profileId r;
     conversationFingerprint := conversationFingerprint r; bindingRevision := bindingRevision r;
     attemptNumber := attemptNumber r; browserGeneration := browserGeneration r;
     leaseOwner := leaseOwner r; leaseTokenSha256 := leaseTokenSha256 r;
     leaseExpiresAt := leaseExpiresAt r; state := state r; promptSha256 := promptSha256 r;
     submittedAt := sub; generationStartedAt := gs; generationStartedObservationId := gso;
     generationFinishedAt := gf; generationFinishedObservationId := gfo;
     feedbackCommittedAt := fb; errorCode := errorCode r; lastProgressAt := lp;
     createdAt := createdAt r |}.

(** [lease_token_sha256 = null, lease_expires_at = null] with a state and an error code *)
Definition set_unleased (st : TurnState) (err : option jsstr) (r : Turn) : Turn :=
  set_state st err None None r.

(** [set status = st, revision = revision + 1, updated_at = now] *)
Definition set_status (st : MessageStatus) (now : Z) (m : Message) : Message :=
  {| m_id := m_id m; threadId := threadId m; m_routeEpoch := m_routeEpoch m;
     handoffId := handoffId m; m_kind := m_kind m; payloadJson := payloadJson m;
     payloadSha256 := payloadSha256 m; m_status := st; m_revision := m_revision m + 1;
     updatedAt := now |}.

(** ** Inserts under the unique indexes *)

(** The primary key, [review_browser_turns_message_number_unique] and the two partial indexes on
    the active attempts *)
Definition turn_conflicts (n r : Turn) : bool :=
  has_id (id n) r
  || bool_decide (reviewMessageId r = reviewMessageId n) && Z.eqb (attemptNumber r) (attemptNumber n)
  || is_active n && is_active r
     && (bool_decide (reviewMessageId r = reviewMessageId n)
         || bool_decide (reviewThreadId r = reviewThreadId n)).

Definition insert_turn (n : Turn) (t : list Turn) : res Error (list Turn) :=
  _ ← reject (existsb (turn_conflicts n) t) constraint_failed;
  Ok (insert_row n t).

Definition insert_resolution (n : Resolution) (t : list Resolution) : res Error (list Resolution) :=
  _ ← reject (existsb (λ r, bool_decide (attemptId r = attemptId n)) t) constraint_failed;
  Ok (insert_row n t).

Definition insert_partial (n : Partial) (t : list Partial) : res Error (list Partial) :=
  _ ← reject (existsb (λ r, bool_decide (p_attemptId r = p_attemptId n) && Z.eqb (seq r) (seq n)) t)
        constraint_failed;
  Ok (insert_row n t).

(** ** Lookups *)

Definition find_turn (k : jsstr) (s : store) : option Turn := by_key id k (turns s).
Definition find_message (k : jsstr) (s : store) : option Message := by_key m_id k (messages s).
Definition find_thread (k : jsstr) (s : store) : option Thread := by_key t_id k (threads s).
Definition find_route (k : jsstr) (s : store) : option Route := by_key r_id k (routes s).
Definition find_handoff (k : jsstr) (s : store) : option Handoff := by_key h_id k (handoffs s).
Definition find_agent_message (k : jsstr) (s : store) : option AgentMessage :=
  by_key a_id k (agentMessages s).

(** [select seq, text_sha256 ... where attempt_id = ? order by seq desc limit 1] *)
Definition latest_partial (k : jsstr) (s : store) : option Partial :=
  first_by (λ a b, (seq b <=? seq a)%Z)
    (select_where (λ p, bool_decide (p_attemptId p = k)) (partials s)).

(** [getActiveForThread] *)
Definition getActiveForThread (thread : jsstr) (s : store) : option Turn :=
  get_where (λ r, bool_decide (reviewThreadId r = thread) && is_active r) (turns s).

(** [coalesce(max(attempt_number), 0)] over the attempts of a message *)
Definition max_attempt (message : jsstr) (s : store) : Z :=
  match select_where (λ r, bool_decide (reviewMessageId r = message)) (turns s) with
  | [] => 0
  | r :: rs => foldl (λ acc x, Z.max acc (attemptNumber x)) (attemptNumber r) rs
  end.

(** [Math.max(30_000, Math.min(leaseMs ?? 5 * 60_000, 30 * 60_000))] *)
Definition lease_length (leaseMs : option Z) : Z :=
  Z.max 30000 (Z.min (default (5 * 60000)%Z leaseMs) (30 * 60000)).

(** A number column that is neither null nor zero *)
Definition truthyZ (o : option Z) : bool := match o with None | Some 0%Z => false | Some _ => true end.

(** ** Prompts *)

(** [v.k] for a name that [Object.prototype] does not have: undefined unless [v] is an object with
    that field; reading a property of [null] throws. *)
Definition jprop (k : jsstr) (v : json) : option json :=
  match v with JObj fs => jfield k fs | _ => None end.

Definition jread (k : jsstr) (v : json) : res Error (option json) :=
  match v with JNull => Err type_error | _ => Ok (jprop k v) end.

(** The content of [safePacket] before redaction: the fields that are kept, a missing one being
    undefined. *)
Record SafePacket := mkSafePacket {
  sp_workSessionId : option json;
  sp_originalObjective : option json;
  sp_authorityNote : option json;
  sp_submissionId : option json;
  sp_roundNumber : option json;
  sp_reviewEpoch : option json;
  sp_summary : option json;
  sp_diffSha256 : option json;
  sp_snapshot : option json;
  sp_affectedFiles : list (option json * option json * option json)
}.

(** The fields of the two prompts that vary; [render] adds the constant ones, redacts the packet
    and the request, and makes the text. *)
Inductive Prompt :=
| agentMessagePrompt (thread delivery : jsstr) (message : option json) (epoch : Z)
    (payloadSha : jsstr) (request : json)
| reviewPrompt (thread job handoff : jsstr) (epoch : Z) (payloadSha : jsstr) (packet : SafePacket).

Section Jobs.
Context (sha256 : jsstr → jsstr) (parse : jsstr → json_text) (binaryLt : jsstr → jsstr → bool).
Context (render : Prompt → jsstr).

(** [rawFiles.slice(0, 20).map(...)] *)
Fixpoint affected_files (n : nat) (fs : list json)
  : res Error (list (option json * option json * option json)) :=
  match n, fs with
  | S n', f :: fs' =>
      path ← jread "path" f;
      rest ← affected_files n' fs';
      Ok ((path, jprop "previousPath" f, jprop "type" f) :: rest)
  | _, _ => Ok []
  end.

Definition safe_packet (packet : json) : res Error SafePacket :=
  let submission := default JNull (jprop "submission" packet) in
  files ← affected_files 20
    match jprop "affectedFiles" submission with Some (JArr l) => l | _ => [] end;
  Ok {| sp_workSessionId := jprop "workSessionId" packet;
        sp_originalObjective := jprop "originalObjective" packet;
        sp_authorityNote := jprop "authorityNote" packet;
        sp_submissionId := jprop "submissionId" submission;
        sp_roundNumber := jprop "roundNumber" submission;
        sp_reviewEpoch := jprop "reviewEpoch" submission;
        sp_summary := jprop "summary" submission;
        sp_diffSha256 := jprop "diffSha256" submission;
        sp_snapshot := jprop "snapshot" submission;
        sp_affectedFiles := files |}.

(** The packet of a message: its text parses, has the recorded digest and is of version 1. *)
Definition read_packet (m : Message) : res Error json :=
  packet ← require (parse (payloadJson m)) packet_corrupt;
  _ ← ensure (sha256 (payloadJson m) =s payloadSha256 m) packet_invalid;
  version ← jread "version" packet;
  _ ← ensure (bool_decide (as_integer version = Some 1%Z)) packet_invalid;
  Ok packet.

(** The source of a consultation: an open clarification request or blocker of the work session,
    and a payload that names it.  [Ok None] is the early [return undefined]. *)
Definition read_consultation (m : Message) (workSession : jsstr) (s : store)
  : res Error (option json) :=
  match find_agent_message (handoffId m) s with
  | None => Ok None
  | Some source =>
      if negb (a_workSessionId source =s workSession) || negb (a_status source =s "open")
         || negb (existsb (js_eqb (a_kind source)) [js "clarification_request"; js "blocker"])
      then Ok None
      else match parse (payloadJson m) with
      | None => Ok None
      | Some consultation =>
          if negb (sha256 (payloadJson m) =s payloadSha256 m) then Ok None
          else
            version ← jread "version" consultation;
            Ok (if bool_decide (as_integer version = Some 1%Z)
                   && bool_decide (as_string (jprop "messageId" consultation) = Some (a_id source))
                   && bool_decide (as_string (jprop "kind" consultation) = Some (a_kind source))
                then Some consultation else None)
      end
  end.

(** ** Claiming *)

Record ClaimInput := mkClaimInput {
  ci_messageId : jsstr;
  ci_profileId : jsstr;
  ci_browserGeneration : Z;
  ci_leaseMs : option Z
}.

Record ReviewerJobClaim := mkClaim {
  c_attemptId : jsstr;
  c_messageId : jsstr;
  c_reviewThreadId : jsstr;
  c_handoffId : jsstr;
  c_routeId : jsstr;
  c_routeEpoch : Z;
  c_attemptNumber : Z;
  c_profileId : jsstr;
  c_browserGeneration : Z;
  c_leaseToken : jsstr;
  c_leaseExpiresAt : Z;
  c_conversationUrl : jsstr;
  c_conversationKey : jsstr;
  c_conversationFingerprint : jsstr;
  c_bindingRevision : Z;
  c_promptPayloadSha256 : jsstr;
  c_prompt : jsstr
}.

(** The route and the thread serve this profile and this generation of the browser, and the thread
    is bound to a conversation. *)
Definition claim_route_ok (i : ClaimInput) (m : Message) (thread : Thread) (route : Route) : bool :=
  (r_status route =s "active") && Z.eqb (r_routeEpoch route) (m_routeEpoch m)
  && (deliveryTransport route =s "native_cdp")
  && bool_decide (r_browserProfileId route = Some (ci_profileId i))
  && bool_decide (t_browserProfileId thread = Some (ci_profileId i))
  && bool_decide (t_browserGeneration thread = Some (ci_browserGeneration i))
  && bool_decide (conversationBindingStatus thread = Some (js "bound"))
  && truthy (conversationUrl thread) && truthy (conversationKey thread)
  && truthy (t_conversationFingerprint thread) && truthyZ (conversationBindingRevision thread).

(** The message, thread and route a claim is for, up to [claim_route_ok]: [None] where the code
    returns undefined. *)
Definition claim_context (i : ClaimInput) (s : store) : option (Message * Thread * Route) :=
  m ← find_message (ci_messageId i) s;
  if negb (message_in [m_queued] m) then None
  else
    thread ← find_thread (threadId m) s;
    if negb (t_status thread =s "active") || negb (Z.eqb (t_routeEpoch thread) (m_routeEpoch m))
    then None
    else
      route ← find_route (routeId thread) s;
      if claim_route_ok i m thread route then Some (m, thread, route) else None.

(** Whether the message is still to be shown: [Ok None] returns undefined; [Ok (Some c)] goes on
    with the consultation [c], if the message is one. *)
Definition claim_source (m : Message) (thread : Thread) (route : Route) (s : store)
  : res Error (option (option json)) :=
  if m_kind m =s "agent_message" then
    (λ c : option json, Some <$> c) <$> read_consultation m (workSessionId thread) s
  else
    Ok match get_where (λ h, bool_decide (h_id h = handoffId m)
                             && Z.eqb (h_routeEpoch h) (r_routeEpoch route)) (handoffs s) with
       | Some h =>
           if existsb (js_eqb (h_status h)) [js "ready"; js "awaiting_attachment"]
           then Some None else None
       | None => None
       end.

Definition prompt_of (m : Message) (thread attempt : jsstr) (consultation : option json)
  (packet : SafePacket) : Prompt :=
  match consultation with
  | Some c =>
      agentMessagePrompt thread attempt (jprop "messageId" c) (m_routeEpoch m) (payloadSha256 m) c
  | None =>
      reviewPrompt thread attempt (handoffId m) (m_routeEpoch m) (payloadSha256 m) packet
  end.

(** The row a claim inserts *)
Definition new_turn (now : Z) (attempt token prompt : jsstr) (number : Z) (i : ClaimInput)
  (m : Message) (thread : Thread) : Turn :=
  {| id := attempt; reviewMessageId := m_id m; reviewThreadId := t_id thread;
     routeEpoch := m_routeEpoch m; profileId := ci_profileId i;
     conversationFingerprint := or_empty (t_conversationFingerprint thread);
     bindingRevision := conversationBindingRevision thread; attemptNumber := number;
     browserGeneration := Some (ci_browserGeneration i); leaseOwner := Some (ci_profileId i);
     leaseTokenSha256 := Some (sha256 token);
     leaseExpiresAt := Some (now + lease_length (ci_leaseMs i))%Z; state := leased;
     promptSha256 := sha256 prompt; submittedAt := None; generationStartedAt := None;
     generationStartedObservationId := None; generationFinishedAt := None;
     generationFinishedObservationId := None; feedbackCommittedAt := None; errorCode := None;
     lastProgressAt := None; createdAt := now |}.

Definition claim_result (now : Z) (attempt token prompt : jsstr) (number : Z) (i : ClaimInput)
  (m : Message) (thread : Thread) (route : Route) : ReviewerJobClaim :=
  {| c_attemptId := attempt; c_messageId := m_id m; c_reviewThreadId := t_id thread;
     c_handoffId := handoffId m; c_routeId := r_id route; c_routeEpoch := m_routeEpoch m;
     c_attemptNumber := number; c_profileId := ci_profileId i;
     c_browserGeneration := ci_browserGeneration i; c_leaseToken := token;
     c_leaseExpiresAt := (now + lease_length (ci_leaseMs i))%Z;
     c_conversationUrl := or_empty (conversationUrl thread);
     c_conversationKey := or_empty (conversationKey thread);
     c_conversationFingerprint := or_empty (t_conversationFingerprint thread);
     c_bindingRevision := default 0%Z (conversationBindingRevision thread);
     c_promptPayloadSha256 := sha256 prompt; c_prompt := prompt |}.

(** [claim]; [uuid] and [random] are the randomness of the attempt's id and of its lease token.
    What it throws rolls the transaction back. *)
Definition claim (now : Z) (uuid random : jsstr) (i : ClaimInput) (s : store)
  : res Error (option ReviewerJobClaim * store) :=
  match claim_context i s with
  | None => Ok (None, s)
  | Some (m, thread, route) =>
      source ← claim_source m thread route s;
      match source with
      | None => Ok (None, s)
      | Some consultation =>
          match getActiveForThread (t_id thread) s with
          | Some _ => Ok (None, s)
          | None =>
              let number := (max_attempt (m_id m) s + 1)%Z in
              packet ← read_packet m;
              safe ← safe_packet packet;
              let attempt := "rturn_" +s uuid in
              let token := "rlease_" +s random in
              let prompt := render (prompt_of m (t_id thread) attempt consultation safe) in
              let '(ms, changes) :=
                update_where (λ x, message_id (m_id m) x && Z.eqb (m_revision x) (m_revision m)
                                   && message_in [m_queued] x)
                  (set_status m_presenting now) (messages s) in
              if negb (Nat.eqb changes 1) then Ok (None, set_messages ms s)
              else
                ts ← insert_turn (new_turn now attempt token prompt number i m thread) (turns s);
                Ok (Some (claim_result now attempt token prompt number i m thread route),
                    set_turns ts (set_messages ms s))
          end
      end
  end.

(** ** Moving an attempt *)

Inductive NextStatus :=
| to_browser_ready | to_dispatching | to_prompt_accepted | to_model_generating
| to_generation_finished | to_awaiting_feedback | to_uncertain | to_blocked_auth
| to_blocked_browser | to_failed.

Definition next_state (n : NextStatus) : TurnState :=
  match n with
  | to_browser_ready => browser_ready
  | to_dispatching => dispatching
  | to_prompt_accepted => prompt_accepted
  | to_model_generating => model_generating
  | to_generation_finished => generation_finished
  | to_awaiting_feedback => awaiting_feedback
  | to_uncertain => uncertain
  | to_blocked_auth => blocked_auth
  | to_blocked_browser => blocked_browser
  | to_failed => failed
  end.

(** [["blocked_auth", "blocked_browser", "failed"].includes(nextStatus)] *)
Definition gives_up (n : NextStatus) : bool :=
  match n with to_blocked_auth | to_blocked_browser | to_failed => true | _ => false end.

Record TransitionInput := mkTransition {
  ti_attemptId : jsstr;
  ti_leaseToken : jsstr;
  ti_profileId : jsstr;
  ti_browserGeneration : Z;
  nextStatus : NextStatus;
  ti_errorCode : option jsstr
}.

(** The lease of a row is live at [now] and the caller holds it. *)
Definition holds_lease (now : Z) (token profile : jsstr) (generation : Z) (r : Turn) : bool :=
  (profileId r =s profile) && bool_decide (browserGeneration r = Some generation)
  && truthy (leaseTokenSha256 r) && bool_decide (leaseTokenSha256 r = Some (sha256 token))
  && match leaseExpiresAt r with Some x => (now <? x)%Z | None => false end.

(** The route and the thread are still those the attempt was made for. *)
Definition still_bound (i : TransitionInput) (r : Turn) (thread : Thread) (route : Route) : bool :=
  (r_status route =s "active") && (deliveryTransport route =s "native_cdp")
  && Z.eqb (r_routeEpoch route) (routeEpoch r)
  && bool_decide (r_browserProfileId route = Some (ti_profileId i))
  && Z.eqb (t_routeEpoch thread) (routeEpoch r)
  && bool_decide (t_browserProfileId thread = Some (ti_profileId i))
  && bool_decide (t_browserGeneration thread = Some (ti_browserGeneration i))
  && bool_decide (conversationBindingStatus thread = Some (js "bound"))
  && bool_decide (t_conversationFingerprint thread = Some (conversationFingerprint r))
  && bool_decide (conversationBindingRevision thread = bindingRevision r).

Definition moved (now : Z) (i : TransitionInput) (r : Turn) : Turn :=
  let n := nextStatus i in
  let '(token, expires) :=
    if gives_up n then (None, None) else (leaseTokenSha256 r, leaseExpiresAt r) in
  let started := match n with to_model_generating => true | _ => false end in
  let finished := match n with to_generation_finished => true | _ => false end in
  let accepted := match n with to_prompt_accepted => true | _ => false end in
  set_progress
    (if accepted then Some now else submittedAt r)
    (if started then Some now else generationStartedAt r)
    (if started then Some (id r +s ":chatgpt-dom:start") else generationStartedObservationId r)
    (if finished then Some now else generationFinishedAt r)
    (if finished then Some (id r +s ":chatgpt-dom:finish") else generationFinishedObservationId r)
    (feedbackCommittedAt r)
    (if started || finished || accepted then Some now else lastProgressAt r)
    (set_state (next_state n) (ti_errorCode i) token expires r).

(** [update review_thread_messages set status = st where id = k and status = 'presenting'] *)
Definition leave_presenting (st : MessageStatus) (now : Z) (k : jsstr) (s : store) : store :=
  set_messages
    (update_where (λ m, message_id k m && message_in [m_presenting] m) (set_status st now)
       (messages s)).1 s.

(** What a move does to the message of the attempt: an accepted prompt is presented, and an
    attempt given up before its prompt was accepted queues the message again. *)
Definition move_message (now : Z) (n : NextStatus) (row : Turn) (s : store) : store :=
  let s := match n with
           | to_prompt_accepted => leave_presenting m_presented now (reviewMessageId row) s
           | _ => s
           end in
  if gives_up n && has_state [leased; browser_ready; dispatching] row
  then leave_presenting m_queued now (reviewMessageId row) s else s.

(** [transition]; [now] is the time it writes and [now'] the time it holds the lease against. *)
Definition transition (now now' : Z) (i : TransitionInput) (s : store) : res Error (Turn * store) :=
  row ← require (find_turn (ti_attemptId i) s) lease_stale;
  _ ← ensure (holds_lease now' (ti_leaseToken i) (ti_profileId i) (ti_browserGeneration i) row
              && is_active row) lease_stale;
  _ ← reject (gives_up (nextStatus i)
              && has_state [prompt_accepted; model_generating; generation_finished;
                            awaiting_feedback] row) prompt_submitted;
  thread ← require (find_thread (reviewThreadId row) s) turn_fenced;
  route ← require (find_route (routeId thread) s) turn_fenced;
  _ ← ensure (still_bound i row thread route) turn_fenced;
  let '(ts, changes) :=
    update_where (λ r, has_id (id row) r && bool_decide (leaseTokenSha256 r = leaseTokenSha256 row)
                       && has_state [state row] r) (moved now i) (turns s) in
  _ ← ensure (Nat.eqb changes 1) cas_failed;
  let s := move_message now (nextStatus i) row (set_turns ts s) in
  row' ← require (find_turn (id row) s) type_error;
  Ok (row', s).

(** ** Partial observations *)

Record PartialInput := mkPartialInput {
  pi_attemptId : jsstr;
  pi_leaseToken : jsstr;
  pi_profileId : jsstr;
  pi_browserGeneration : Z;
  pi_textPrefix : jsstr;
  pi_textSha256 : jsstr;
  pi_provenance : option jsstr
}.

Definition PARTIAL_OBSERVATION_PREFIX_LIMIT : Z := 4000.

(** [/^[0-9a-f]{64}$/] *)
Definition hex_digest (s : jsstr) : bool :=
  Nat.eqb (length s) 64
  && forallb (λ c, (48 <=? c) && (c <=? 57) || (97 <=? c) && (c <=? 102))%N s.

Definition provenance_of (p : option jsstr) : jsstr :=
  if nonempty (trim (or_empty p)) then take 64 (trim (or_empty p)) else js "chatgpt-dom".

Definition touch_progress (now : Z) (r : Turn) : Turn :=
  set_progress (submittedAt r) (generationStartedAt r) (generationStartedObservationId r)
    (generationFinishedAt r) (generationFinishedObservationId r) (feedbackCommittedAt r)
    (Some now) r.

(** [recordPartialObservation]: the number of the latest observation and whether it is new. *)
Definition recordPartialObservation (now : Z) (i : PartialInput) (s : store)
  : res Error (Z * bool * store) :=
  _ ← reject (PARTIAL_OBSERVATION_PREFIX_LIMIT <? Z.of_nat (length (pi_textPrefix i)))%Z
        partial_too_long;
  _ ← ensure (hex_digest (pi_textSha256 i)) digest_malformed;
  _ ← ensure (sha256 (pi_textPrefix i) =s pi_textSha256 i) digest_mismatch;
  row ← require (find_turn (pi_attemptId i) s) unknown_attempt;
  _ ← ensure (holds_lease now (pi_leaseToken i) (pi_profileId i) (pi_browserGeneration i) row)
        partial_fenced;
  _ ← ensure (has_state [prompt_accepted; model_generating; generation_finished;
                         awaiting_feedback] row) not_generating;
  let latest := latest_partial (pi_attemptId i) s in
  let observed := default 0%Z (seq <$> latest) in
  if bool_decide (textSha256 <$> latest = Some (pi_textSha256 i)) then Ok (observed, false, s)
  else
    let n := (observed + 1)%Z in
    ps ← insert_partial (mkPartial (pi_attemptId i) n (pi_textSha256 i) (pi_textPrefix i) now
                           (provenance_of (pi_provenance i))) (partials s);
    let ts := (update_where (λ r, has_id (pi_attemptId i) r
                                  && bool_decide (leaseTokenSha256 r = leaseTokenSha256 row))
                 (touch_progress now) (turns s)).1 in
    Ok (n, true, set_turns ts (set_partials ps s)).

(** ** Leases *)

Record RenewInput := mkRenew {
  rn_attemptId : jsstr;
  rn_leaseToken : jsstr;
  rn_profileId : jsstr;
  rn_browserGeneration : Z;
  rn_leaseMs : option Z
}.

Definition renewable (now : Z) (i : RenewInput) (r : Turn) : bool :=
  has_id (rn_attemptId i) r && (profileId r =s rn_profileId i)
  && bool_decide (browserGeneration r = Some (rn_browserGeneration i))
  && bool_decide (leaseTokenSha256 r = Some (sha256 (rn_leaseToken i)))
  && match leaseExpiresAt r with Some x => (now <? x)%Z | None => false end
  && has_state [leased; browser_ready; dispatching; prompt_accepted; model_generating] r.

Definition set_expiry (expires : Z) (r : Turn) : Turn :=
  set_state (state r) (errorCode r) (leaseTokenSha256 r) (Some expires) r.

Definition renewLease (now : Z) (i : RenewInput) (s : store) : res Error (Z * store) :=
  let expires := (now + lease_length (rn_leaseMs i))%Z in
  let '(ts, changes) := update_where (renewable now i) (set_expiry expires) (turns s) in
  _ ← ensure (Nat.eqb changes 1) renewal_fenced;
  Ok (expires, set_turns ts s).

(** ** Recovery of expired attempts *)

Definition expired (now : Z) (r : Turn) : bool :=
  match leaseExpiresAt r with Some x => (x <=? now)%Z | None => false end && is_active r.

(** [order by lease_expires_at, id] *)
Definition le_expiry (a b : Turn) : bool :=
  let x := default 0%Z (leaseExpiresAt a) in
  let y := default 0%Z (leaseExpiresAt b) in
  ((x <? y) || (x =? y) && negb (binaryLt (id b) (id a)))%Z.

Record Recovery := mkRecovery { reconciled : nat; uncertains : nat; fenced : nat }.

Definition recovered_total (c : Recovery) : nat := reconciled c + uncertains c + fenced c.

(** [update review_browser_turns set ... where id = ? and state = ?] *)
Definition update_selected (row : Turn) (f : Turn → Turn) (s : store) : store :=
  set_turns (update_where (λ r, has_id (id row) r && has_state [state row] r) f (turns s)).1 s.

(** One iteration of the loop *)
Definition reconcile_row (now : Z) (acc : Recovery * store) (row : Turn) : Recovery * store :=
  let '(c, s) := acc in
  match state row with
  | leased | browser_ready =>
      (mkRecovery (reconciled c + 1) (uncertains c) (fenced c),
       leave_presenting m_queued now (reviewMessageId row)
         (update_selected row
            (set_unleased recovered (Some (js "lease_expired_before_dispatch"))) s))
  | generation_finished =>
      (mkRecovery (reconciled c + 1) (uncertains c) (fenced c),
       update_selected row (λ r, set_unleased awaiting_feedback (errorCode r) r) s)
  | dispatching =>
      (mkRecovery (reconciled c) (uncertains c + 1) (fenced c),
       update_selected row
         (set_unleased uncertain (Some (js "lease_expired_after_dispatch_boundary"))) s)
  | _ =>
      (mkRecovery (reconciled c) (uncertains c) (fenced c + 1),
       update_selected row
         (λ r, set_unleased (state r)
                 (Some (default (js "lease_expired_reconciliation_required") (errorCode r))) r) s)
  end.

(** [reconcileExpiredAttempts] *)
Definition reconcileExpiredAttempts (now lim : Z) (s : store) : Recovery * store :=
  let n := Z.to_nat (Z.max 1 (Z.min lim 500)) in
  let rows := limit n (order_by le_expiry (select_where (expired now) (turns s))) in
  foldl (reconcile_row now) (mkRecovery 0 0 0, s) rows.

(** The loop with which [drainOnce] of [review-browser/turn-dispatcher.ts] starts: pass [i] reads
    the clock [clock i] and afterwards finds the dispatcher stopped or not.  [None] is no fuel. *)
Fixpoint recover_all (fuel : nat) (clock : nat → Z) (stopped : nat → bool) (i : nat) (s : store)
  : option (nat * store) :=
  match fuel with
  | 0 => None
  | S fuel' =>
      let '(recovery, s') := reconcileExpiredAttempts (clock i) 100 s in
      if negb (stopped i) && Nat.eqb (recovered_total recovery) 100
      then recover_all fuel' clock stopped (S i) s'
      else Some (i, s')
  end.

(** ** Decisions of the reviewer *)

Definition binding_revision_matches (r : Turn) (thread : Thread) : bool :=
  bool_decide (bindingRevision r = conversationBindingRevision thread)
  || bool_decide (bindingRevision r = None)
     && bool_decide (t_conversationFingerprint thread = Some (conversationFingerprint r)).

(** The attempt is on the active route and the bound conversation, and its message unresolved. *)
Definition unresolved (epoch : Z) (r : Turn) (thread : Thread) (route : Route) (m : Message)
  : bool :=
  (t_status thread =s "active") && Z.eqb (t_routeEpoch thread) epoch
  && (r_status route =s "active") && Z.eqb (r_routeEpoch route) epoch
  && (deliveryTransport route =s "native_cdp")
  && bool_decide (r_browserProfileId route = Some (profileId r))
  && bool_decide (t_browserProfileId thread = Some (profileId r))
  && bool_decide (conversationBindingStatus thread = Some (js "bound"))
  && bool_decide (t_conversationFingerprint thread = Some (conversationFingerprint r))
  && binding_revision_matches r thread
  && (threadId m =s t_id thread) && Z.eqb (m_routeEpoch m) epoch
  && message_in [m_presenting; m_presented] m.

Definition feedback_is_committed (m : option Message) (s : store) : bool :=
  match m ≫= (λ m, find_handoff (handoffId m) s) with
  | Some h => h_status h =s "feedback_committed"
  | None => false
  end.

(** [leaseExpiresAt && Date.parse(leaseExpiresAt) > Date.parse(now)] *)
Definition lease_live (now : Z) (r : Turn) : bool :=
  match leaseExpiresAt r with Some x => (now <? x)%Z | None => false end.

(** Close the attempt with a state and an error, move its message to [ms] and record a
    resolution: the writes the two decisions share. *)
Definition decide_attempt (now : Z) (from : list TurnState) (st : TurnState) (err : jsstr)
  (changed : Error) (ms : MessageStatus) (attempt : Turn) (m : Message) (rec : Resolution)
  (s : store) : res Error store :=
  let '(ts, changes) :=
    update_where (λ r, has_id (id attempt) r && has_state from r && negb (lease_live now r))
      (set_unleased st (Some err)) (turns s) in
  _ ← ensure (Nat.eqb changes 1) changed;
  let '(msgs, changes) :=
    update_where (λ x, message_id (m_id m) x && Z.eqb (m_revision x) (m_revision m)
                       && message_in [m_presenting; m_presented] x)
      (set_status ms now) (messages s) in
  _ ← ensure (Nat.eqb changes 1) message_changed;
  rs ← insert_resolution rec (resolutions s);
  Ok (set_resolutions rs (set_messages msgs (set_turns ts s))).

Record ResolveInput := mkResolve {
  ri_attemptId : jsstr;
  ri_reviewThreadId : jsstr;
  ri_routeEpoch : Z;
  ri_reviewerPrincipalId : jsstr;
  ri_confirmPromptAbsent : bool;
  ri_inspectionEvidence : jsstr
}.

(** [resolveUncertainAttemptForRetry]: the message, its new revision and the evidence's digest *)
Definition resolveUncertainAttemptForRetry (now : Z) (i : ResolveInput) (s : store)
  : res Error (jsstr * Z * jsstr * store) :=
  let evidence := trim (ri_inspectionEvidence i) in
  _ ← ensure (nonempty (trim (ri_reviewerPrincipalId i)) && ri_confirmPromptAbsent i
              && (12 <=? length evidence)) recovery_unauthenticated;
  attempt ← require (find_turn (ri_attemptId i) s) uncertain_unavailable;
  _ ← ensure ((reviewThreadId attempt =s ri_reviewThreadId i)
              && Z.eqb (routeEpoch attempt) (ri_routeEpoch i)
              && has_state [uncertain] attempt) uncertain_unavailable;
  _ ← reject (lease_live now attempt) live_lease_recovery;
  thread ← require (find_thread (reviewThreadId attempt) s) no_longer_matches;
  route ← require (find_route (routeId thread) s) no_longer_matches;
  m ← require (find_message (reviewMessageId attempt) s) no_longer_matches;
  _ ← ensure (unresolved (ri_routeEpoch i) attempt thread route m
              && negb (feedback_is_committed (Some m) s)) no_longer_matches;
  s' ← decide_attempt now [uncertain] recovered "operator_confirmed_prompt_absent"
         uncertain_changed m_queued attempt m
         (mkResolution (id attempt) (t_id thread) (ri_routeEpoch i) (ri_reviewerPrincipalId i)
            confirmed_prompt_absent_requeue None (sha256 evidence) now) s;
  Ok (m_id m, (m_revision m + 1)%Z, sha256 evidence, s').

(** [/^[a-z0-9_]{1,120}$/] *)
Definition reason_code (c : jsstr) : bool :=
  nonempty c && (length c <=? 120)
  && forallb (λ u, (97 <=? u) && (u <=? 122) || (48 <=? u) && (u <=? 57) || (u =? 95))%N c.

Record TerminalOutcomeInput := mkTerminalInput {
  to_attemptId : jsstr;
  to_reviewThreadId : jsstr;
  to_routeEpoch : Z;
  to_reviewerPrincipalId : jsstr;
  to_reasonCode : jsstr;
  to_inspectionEvidence : jsstr
}.

(** [classification] and [partialComplete] have one value each. *)
Record TerminalOutcome := mkOutcome {
  o_attemptId : jsstr;
  o_reasonCode : jsstr;
  o_evidenceSha256 : jsstr;
  o_partialSeq : option Z;
  o_partialSha256 : option jsstr;
  o_lastProgressAt : option Z
}.

Definition recordTerminalOutcome (now : Z) (i : TerminalOutcomeInput) (s : store)
  : res Error (TerminalOutcome * store) :=
  let reason := trim (to_reasonCode i) in
  _ ← ensure (reason_code reason) bad_reason_code;
  let evidence := trim (to_inspectionEvidence i) in
  _ ← ensure (nonempty (trim (to_reviewerPrincipalId i)) && (12 <=? length evidence))
        outcome_unauthenticated;
  attempt ← require (find_turn (to_attemptId i) s) attempt_terminal;
  _ ← ensure ((reviewThreadId attempt =s to_reviewThreadId i)
              && Z.eqb (routeEpoch attempt) (to_routeEpoch i)) attempt_terminal;
  _ ← reject (lease_live now attempt) live_lease_outcome;
  _ ← ensure (has_state TERMINAL_ELIGIBLE_STATES attempt) attempt_terminal;
  _ ← reject (feedback_is_committed (find_message (reviewMessageId attempt) s) s)
        feedback_already_committed;
  thread ← require (find_thread (reviewThreadId attempt) s) not_bound_reviewer;
  route ← require (find_route (routeId thread) s) not_bound_reviewer;
  m ← require (find_message (reviewMessageId attempt) s) not_bound_reviewer;
  _ ← ensure (unresolved (to_routeEpoch i) attempt thread route m
              && bool_decide (t_reviewerPrincipalId thread = Some (to_reviewerPrincipalId i)))
        not_bound_reviewer;
  let latest := latest_partial (id attempt) s in
  s' ← decide_attempt now TERMINAL_ELIGIBLE_STATES failed "reviewer_unrecoverable" attempt_changed
         m_failed attempt m
         (mkResolution (id attempt) (t_id thread) (to_routeEpoch i) (to_reviewerPrincipalId i)
            reviewer_unrecoverable (Some reason) (sha256 evidence) now) s;
  Ok (mkOutcome (id attempt) reason (sha256 evidence) (seq <$> latest) (textSha256 <$> latest)
        (lastProgressAt attempt), s').

Record TerminalOutcomeRecord := mkOutcomeRecord {
  or_outcome : TerminalOutcome;
  or_reviewThreadId : jsstr;
  or_routeEpoch : Z;
  or_reviewerPrincipalId : jsstr;
  or_createdAt : Z;
  or_attemptState : TurnState;
  or_attemptErrorCode : option jsstr;
  or_partialPrefix : option jsstr;
  or_partialCapturedAt : option Z
}.

(** [order by r.created_at desc, r.attempt_id desc] *)
Definition le_latest (a b : Resolution * Turn) : bool :=
  let x := res_createdAt a.1 in
  let y := res_createdAt b.1 in
  ((y <? x) || (x =? y) && negb (binaryLt (attemptId a.1) (attemptId b.1)))%Z.

(** [... r join review_browser_turns t on t.id = r.attempt_id where ...] *)
Definition outcome_rows (thread : jsstr) (s : store) : list (Resolution * Turn) :=
  omap (λ r, (λ t, (r, t)) <$> find_turn (attemptId r) s)
    (select_where (λ r, bool_decide (res_reviewThreadId r = thread)
                        && bool_decide (resolution r = reviewer_unrecoverable)) (resolutions s)).

Definition getTerminalOutcome (thread : jsstr) (s : store) : option TerminalOutcomeRecord :=
  '(r, t) ← first_by le_latest (outcome_rows thread s);
  let latest := latest_partial (attemptId r) s in
  Some {| or_outcome := mkOutcome (attemptId r) (default (js "unspecified") (reasonCode r))
                          (evidenceSha256 r) (seq <$> latest) (textSha256 <$> latest)
                          (lastProgressAt t);
          or_reviewThreadId := res_reviewThreadId r; or_routeEpoch := res_routeEpoch r;
          or_reviewerPrincipalId := reviewerPrincipalId r; or_createdAt := res_createdAt r;
          or_attemptState := state t; or_attemptErrorCode := errorCode t;
          or_partialPrefix := textPrefix <$> latest; or_partialCapturedAt := capturedAt <$> latest |}.

(** ** Settlement *)

Definition set_settled (st : TurnState) (now : Z) (r : Turn) : Turn :=
  set_progress (submittedAt r) (generationStartedAt r) (generationStartedObservationId r)
    (generationFinishedAt r) (generationFinishedObservationId r) (Some now) (lastProgressAt r)
    (set_unleased st (errorCode r) r).

(** [route_epoch = ? and review_message_id in (select id from review_thread_messages where p) and
    state in ACTIVE] *)
Definition settles (epoch : Z) (p : Message → bool) (s : store) (r : Turn) : bool :=
  Z.eqb (routeEpoch r) epoch
  && bool_decide (reviewMessageId r ∈ List.map m_id (select_where p (messages s)))
  && is_active r.

Definition settleForFeedback (now : Z) (handoff : jsstr) (epoch : Z) (s : store) : store :=
  set_turns (update_where (settles epoch (λ m, handoffId m =s handoff) s)
               (set_settled feedback_committed now) (turns s)).1 s.

Definition settleForAgentMessage (now : Z) (agentMessage : jsstr) (epoch : Z) (s : store) : store :=
  let s := set_turns (update_where
             (settles epoch (λ m, (handoffId m =s agentMessage) && (m_kind m =s "agent_message")) s)
             (set_settled settled now) (turns s)).1 s in
  set_messages (update_where (λ m, Z.eqb (m_routeEpoch m) epoch && (handoffId m =s agentMessage)
                                   && (m_kind m =s "agent_message")
                                   && message_in [m_presented; m_presenting] m)
                  (set_status m_settled now) (messages s)).1 s.

(** [closeThreadForSession] of [route-store.ts], its statement on the attempts of one thread *)
Definition supersedeThread (thread : jsstr) (s : store) : store :=
  set_turns (update_where (λ r, bool_decide (reviewThreadId r = thread) && is_active r)
               (λ r, set_unleased superseded (errorCode r) r) (turns s)).1 s.

(** [supersedeRouteEpoch] of [route-store.ts], its statements on attempts and messages *)
Definition supersedeRouteEpoch (now : Z) (route : jsstr) (epoch : Z) (s : store) : store :=
  let ids := List.map t_id (select_where (λ t, (routeId t =s route)
                                              && Z.eqb (t_routeEpoch t) epoch) (threads s)) in
  let s := set_turns (update_where (λ r, bool_decide (reviewThreadId r ∈ ids) && is_active r)
                        (λ r, set_unleased superseded (errorCode r) r) (turns s)).1 s in
  set_messages (update_where (λ m, Z.eqb (m_routeEpoch m) epoch && bool_decide (threadId m ∈ ids)
                                   && message_in [m_awaiting_activation; m_queued; m_presenting;
                                                  m_reviewer_claimed] m)
                  (set_status m_superseded now) (messages s)).1 s.

(** ** Histories

    The operations as data, one constructor each.  [OtherWrites] is what the rest of the program
    does to the tables this store only reads, and to the state of messages. *)

Inductive Call :=
| Claim (now : Z) (uuid random : jsstr) (i : ClaimInput)
| Transition (now now' : Z) (i : TransitionInput)
| Observe (now : Z) (i : PartialInput)
| Renew (now : Z) (i : RenewInput)
| Reconcile (now lim : Z)
| Resolve (now : Z) (i : ResolveInput)
| RecordOutcome (now : Z) (i : TerminalOutcomeInput)
| SettleFeedback (now : Z) (handoff : jsstr) (epoch : Z)
| SettleAgentMessage (now : Z) (agentMessage : jsstr) (epoch : Z)
| SupersedeThread (thread : jsstr)
| SupersedeRoute (now : Z) (route : jsstr) (epoch : Z)
| OtherWrites (ms : list Message) (ths : list Thread) (rs : list Route) (hs : list Handoff)
    (ams : list AgentMessage).

(** The store after an operation; one that throws has changed nothing. *)
Definition perform (c : Call) (s : store) : store :=
  let keep {A} (r : res Error (A * store)) := match r with Ok (_, s') => s' | Err _ => s end in
  match c with
  | Claim now uuid random i => keep (claim now uuid random i s)
  | Transition now now' i => keep (transition now now' i s)
  | Observe now i => keep (recordPartialObservation now i s)
  | Renew now i => keep (renewLease now i s)
  | Reconcile now lim => (reconcileExpiredAttempts now lim s).2
  | Resolve now i => keep (resolveUncertainAttemptForRetry now i s)
  | RecordOutcome now i => keep (recordTerminalOutcome now i s)
  | SettleFeedback now h e => settleForFeedback now h e s
  | SettleAgentMessage now a e => settleForAgentMessage now a e s
  | SupersedeThread t => supersedeThread t s
  | SupersedeRoute now r e => supersedeRouteEpoch now r e s
  | OtherWrites ms ths rs hs ams => mkStore (turns s) ms ths rs hs ams (resolutions s) (partials s)
  end.

(** What an operation throws *)
Definition thrown (c : Call) (s : store) : option Error :=
  let error {A} (r : res Error A) := match r with Ok _ => None | Err e => Some e end in
  match c with
  | Claim now uuid random i => error (claim now uuid random i s)
  | Transition now now' i => error (transition now now' i s)
  | Observe now i => error (recordPartialObservation now i s)
  | Renew now i => error (renewLease now i s)
  | Resolve now i => error (resolveUncertainAttemptForRetry now i s)
  | RecordOutcome now i => error (recordTerminalOutcome now i s)
  | _ => None
  end.

(** The time at which an operation holds leases, when it does *)
Definition reading (c : Call) : option Z :=
  match c with
  | Claim now _ _ _ | Transition _ now _ | Observe now _ | Renew now _ | Reconcile now _
  | Resolve now _ | RecordOutcome now _ => Some now
  | _ => None
  end.

(** Messages are never deleted and stay on their thread and handoff. *)
Definition keeps_messages (ms ms' : list Message) : Prop :=
  keyed m_id ms' ∧
  ∀ m, m ∈ ms → ∃ m', m' ∈ ms' ∧ m_id m' = m_id m ∧ threadId m' = threadId m
                       ∧ handoffId m' = handoffId m.

(** A store with the time of its latest reading.  The clock does not go back, and [randomUUID]
    does not repeat an id. *)
Record world := mkWorld { db : store; time : Z }.

Inductive step : world → Call → world → Prop :=
| step_call c w :
    (∀ now, reading c = Some now → (time w ≤ now)%Z) →
    match c with
    | Claim _ uuid _ _ => find_turn ("rturn_" +s uuid) (db w) = None
    | OtherWrites ms _ _ _ _ => keeps_messages (messages (db w)) ms
    | _ => True
    end →
    step w c (mkWorld (perform c (db w)) (default (time w) (reading c))).

(** A history and the operations it performs *)
Inductive history : world → list Call → world → Prop :=
| history_nil w : history w [] w
| history_cons w1 c w2 cs w3 : step w1 c w2 → history w2 cs w3 → history w1 (c :: cs) w3.

(** ** The schema

    What the unique indexes and the foreign keys say, and what the operations add to it: attempts
    of a message are numbered from one, a lease's token and expiry come and go together and only
    with an active attempt, a decided attempt is closed, the observations of an attempt are
    numbered from one and each digest covers its prefix. *)

Definition of_message (k : jsstr) (r : Turn) : bool := bool_decide (reviewMessageId r = k).

Definition of_attempt (k : jsstr) (p : Partial) : bool := bool_decide (p_attemptId p = k).

(** [1, 2, ..., length l] *)
Definition numbered (l : list Z) : Prop := l = seqZ 1 (Z.of_nat (length l)).

Definition lease_ok (r : Turn) : Prop :=
  (is_Some (leaseTokenSha256 r) ↔ is_Some (leaseExpiresAt r)) ∧
  (is_active r = false → leaseTokenSha256 r = None).

Definition partial_ok (p : Partial) : Prop :=
  textSha256 p = sha256 (textPrefix p) ∧
  (Z.of_nat (length (textPrefix p)) ≤ PARTIAL_OBSERVATION_PREFIX_LIMIT)%Z.

(** The attempts [t] beside the messages [ms] *)
Record attempts_ok (t : list Turn) (ms : list Message) : Prop := {
  at_ids : keyed id t;
  at_active_message : NoDup (List.map reviewMessageId (List.filter is_active t));
  at_active_thread : NoDup (List.map reviewThreadId (List.filter is_active t));
  at_numbers : ∀ k, numbered (List.map attemptNumber (List.filter (of_message k) t));
  at_foreign : ∀ r, r ∈ t →
    ∃ m, m ∈ ms ∧ m_id m = reviewMessageId r ∧ threadId m = reviewThreadId r;
  at_leases : Forall lease_ok t
}.

Record well_formed (s : store) : Prop := {
  wf_attempts : attempts_ok (turns s) (messages s);
  wf_messages : keyed m_id (messages s);
  wf_resolutions : keyed attemptId (resolutions s);
  wf_decided : ∀ d, d ∈ resolutions s →
    ∃ r, r ∈ turns s ∧ id r = attemptId d ∧ (state r = recovered ∨ state r = failed);
  wf_partials : ∀ k, numbered (List.map seq (List.filter (of_attempt k) (partials s)));
  wf_observations : Forall partial_ok (partials s)
}.

End Jobs.

End ReviewerJobs.
