(* ===== verification/ReviewerJobFacts.v ===== *)
(** * Reviewer jobs: theorems

    Every operation changes an attempt in one of the ways [moves] lists.  From that list follow the
    schema, the death of expired leases and the hold a sent prompt has on its thread; the recovery
    loop ends; a decision of the reviewer lets the message be shown again. *)

From S2P Require Import Prelude JsString Json Sql ReviewerJobs.

Module ReviewerJobFacts.
Export ReviewerJobs.

Section Facts.
Context (sha256 : jsstr → jsstr) (parse : jsstr → json_text) (binaryLt : jsstr → jsstr → bool).
Context (render : Prompt → jsstr).

#[local] Abbreviation perform := (perform sha256 parse binaryLt render).
#[local] Abbreviation thrown := (thrown sha256 parse render).
#[local] Abbreviation step := (step sha256 parse binaryLt render).
#[local] Abbreviation history := (history sha256 parse binaryLt render).
#[local] Abbreviation claim := (claim sha256 parse render).
#[local] Abbreviation well_formed := (well_formed sha256).

(** ** What an operation does to an attempt *)

(** An iteration of the recovery loop on its row *)
Definition set_reconciled (r : Turn) : Turn :=
  match state r with
  | leased | browser_ready => set_unleased recovered (Some (js "lease_expired_before_dispatch")) r
  | generation_finished => set_unleased awaiting_feedback (errorCode r) r
  | dispatching =>
      set_unleased uncertain (Some (js "lease_expired_after_dispatch_boundary")) r
  | _ => set_unleased (state r)
           (Some (default (js "lease_expired_reconciliation_required") (errorCode r))) r
  end.

Inductive moves (s : store) : Call → Turn → Turn → Prop :=
| stays c r : moves s c r r
| transitions now now' i r :
    id r = ti_attemptId i →
    holds_lease sha256 now' (ti_leaseToken i) (ti_profileId i) (ti_browserGeneration i) r = true →
    is_active r = true → moves s (Transition now now' i) r (moved now i r)
| touched now i r : moves s (Observe now i) r (touch_progress now r)
| renewed now i r :
    renewable sha256 now i r = true →
    moves s (Renew now i) r (set_expiry (now + lease_length (rn_leaseMs i)) r)
| reconciles now lim r : expired now r = true → moves s (Reconcile now lim) r (set_reconciled r)
| resolves now i err r :
    id r = ri_attemptId i → state r = uncertain →
    moves s (Resolve now i) r (set_unleased recovered err r)
| given_up now i err r :
    id r = to_attemptId i → has_state TERMINAL_ELIGIBLE_STATES r = true →
    moves s (RecordOutcome now i) r (set_unleased failed err r)
| feedback_settles now h e r :
    settles e (λ m, handoffId m =s h) s r = true →
    moves s (SettleFeedback now h e) r (set_settled feedback_committed now r)
| answer_settles now a e r :
    settles e (λ m, (handoffId m =s a) && (m_kind m =s "agent_message")) s r = true →
    moves s (SettleAgentMessage now a e) r (set_settled settled now r)
| thread_supersedes t r :
    reviewThreadId r = t → is_active r = true →
    moves s (SupersedeThread t) r (set_unleased superseded (errorCode r) r)
| route_supersedes now route e r :
    is_active r = true →
    moves s (SupersedeRoute now route e) r (set_unleased superseded (errorCode r) r).

#[local] Hint Constructors moves : core.

Lemma Forall2_update_where {A} (R : A → A → Prop) p f (t : list A) :
  (∀ r, R r r) → (∀ r, r ∈ t → p r = true → R r (f r)) → Forall2 R t (update_where p f t).1.
Proof.
  intros Hr Hf. unfold update_where; cbn. induction t as [|r t IH]; cbn; [constructor|].
  constructor.
  - destruct (p r) eqn:E; [|done]. apply Hf; [by left|done].
  - apply IH. intros x Hx. apply Hf. by right.
Qed.

Lemma update_where_split {A} p f (t : list A) :
  update_where p f t = ((update_where p f t).1, (update_where p f t).2).
Proof. by destruct (update_where p f t). Qed.

(** ** Messages *)

Lemma keeps_messages_refl ms : keyed m_id ms → keeps_messages ms ms.
Proof. intros Hk. split; [done|]. eauto. Qed.

Lemma keeps_messages_trans a b c :
  keeps_messages a b → keeps_messages b c → keeps_messages a c.
Proof.
  intros [_ Hab] [Hk Hbc]. split; [done|]. intros m Hm.
  destruct (Hab m Hm) as (m1 & Hm1 & ? & ? & ?).
  destruct (Hbc m1 Hm1) as (m2 & Hm2 & ? & ? & ?).
  exists m2. repeat split; congruence.
Qed.

Lemma keeps_messages_status p st now ms :
  keyed m_id ms → keeps_messages ms (update_where p (set_status st now) ms).1.
Proof.
  intros Hk. split; [by apply keyed_update|]. intros m Hm.
  exists (if p m then set_status st now m else m). split; [|by destruct (p m)].
  apply elem_of_update_where. eauto.
Qed.

#[local] Hint Resolve keeps_messages_refl keeps_messages_status : core.

(** ** The recovery loop *)

Definition selected (row r : Turn) : bool := has_id (id row) r && has_state [state row] r.

Lemma selected_spec row r : selected row r = true ↔ id r = id row ∧ state r = state row.
Proof.
  unfold selected, has_id, has_state. rewrite andb_true_iff, !bool_decide_eq_true.
  by rewrite list_elem_of_singleton.
Qed.

Lemma update_selected_reconciled row f s :
  (∀ r, state r = state row → f r = set_reconciled r) →
  turns (update_selected row f s) = (update_where (selected row) set_reconciled (turns s)).1.
Proof.
  intros Hf. unfold update_selected, update_where; cbn. apply List.map_ext. intros r.
  fold (selected row r). destruct (selected row r) eqn:E; [|done].
  apply selected_spec in E as [_ E]. auto.
Qed.

(** What one iteration leaves of the store *)
Record recovers (s s' : store) : Prop := {
  rc_messages : keyed m_id (messages s) → keeps_messages (messages s) (messages s');
  rc_resolutions : resolutions s' = resolutions s;
  rc_partials : partials s' = partials s
}.

Lemma reconcile_row_spec now c s row c' s' :
  reconcile_row now (c, s) row = (c', s') →
  turns s' = (update_where (selected row) set_reconciled (turns s)).1 ∧
  recovered_total c' = S (recovered_total c) ∧ recovers s s'.
Proof.
  unfold reconcile_row, recovered_total, leave_presenting.
  destruct (state row) eqn:E; intros [= <- <-]; cbn -[update_where update_selected];
    (split; [apply update_selected_reconciled; intros r Hr; unfold set_reconciled;
             rewrite Hr, E; reflexivity|]);
    (split; [lia|]); split; try reflexivity; intros Hk;
    first [by apply keeps_messages_refl | by apply keeps_messages_status].
Qed.

Lemma reconcile_rows_spec now rows : ∀ c s c' s',
  foldl (reconcile_row now) (c, s) rows = (c', s') →
  turns s' = (cas_loop selected set_reconciled rows (turns s)).1 ∧
  recovered_total c' = recovered_total c + length rows ∧ recovers s s'.
Proof.
  setoid_rewrite cas_loop_foldl.
  induction rows as [|row rows IH]; intros c s c' s'; cbn [foldl].
  - intros [= <- <-]. split; [done|]. split; [cbn; lia|]. by split; auto.
  - destruct (reconcile_row now (c, s) row) as [c1 s1] eqn:E. intros H.
    apply reconcile_row_spec in E as (Et & Ec & [Em Er Ep]).
    apply IH in H as (Ht & Hc & [Hm Hr Hp]).
    rewrite Ht, Et, Hc, Ec. split; [done|]. split; [cbn; lia|]. split; [|congruence|congruence].
    intros Hk. eapply keeps_messages_trans; [by apply Em|]. apply Hm. by apply Em.
Qed.

Lemma set_reconciled_key : preserves_key id set_reconciled.
Proof. intros r. unfold set_reconciled. by destruct (state r). Qed.

(** The rows one call selects *)
Definition expired_rows (now lim : Z) (s : store) : list Turn :=
  limit (Z.to_nat (Z.max 1 (Z.min lim 500)))
    (order_by (le_expiry binaryLt) (select_where (expired now) (turns s))).

Lemma expired_rows_elem now lim s r :
  r ∈ expired_rows now lim s → r ∈ turns s ∧ expired now r = true.
Proof.
  unfold expired_rows, limit. intros H%(subseteq_take _ _). revert H.
  rewrite elem_of_order_by. apply elem_of_Lfilter.
Qed.

Lemma reconcile_spec now lim s :
  keyed id (turns s) →
  let '(c, s') := reconcileExpiredAttempts binaryLt now lim s in
  turns s' = (update_where (λ r, bool_decide (id r ∈ List.map id (expired_rows now lim s)))
                set_reconciled (turns s)).1 ∧
  recovered_total c = length (expired_rows now lim s) ∧ recovers s s'.
Proof.
  intros Hk. unfold reconcileExpiredAttempts. fold (expired_rows now lim s).
  destruct (foldl _ _ _) as [c s'] eqn:E. apply reconcile_rows_spec in E as (Ht & Hc & Hr).
  rewrite Ht. split; [|by split].
  rewrite (cas_loop_bulk id); [done|apply set_reconciled_key| |done| |].
  - intros r x Hx%selected_spec. naive_solver.
  - unfold expired_rows, limit. rewrite <- firstn_map. eapply sublist_NoDup; [|apply sublist_take].
    rewrite order_by_perm. by apply keyed_select.
  - intros r [Hin _]%expired_rows_elem. split; [by apply keyed_by_key|].
    by apply selected_spec.
Qed.

(** ** Inversion of the operations that may throw *)

Definition queued_of (m x : Message) : bool :=
  message_id (m_id m) x && Z.eqb (m_revision x) (m_revision m) && message_in [m_queued] x.

(** The messages after a claim *)
Definition presented_messages (now : Z) (m : Message) (s : store) : list Message :=
  (update_where (queued_of m) (set_status m_presenting now) (messages s)).1.

Lemma insert_turn_Ok n t t' :
  insert_turn n t = Ok t' ↔ existsb (turn_conflicts n) t = false ∧ t' = t ++ [n].
Proof. unfold insert_turn. destruct (existsb _ t); cbn; naive_solver. Qed.

Lemma claim_inv now uuid random i s o s' :
  claim now uuid random i s = Ok (o, s') →
  (o = None ∧ (s' = s ∨ ∃ m, s' = set_messages (presented_messages now m s) s)) ∨
  ∃ m thread route prompt n,
    claim_context i s = Some (m, thread, route) ∧
    getActiveForThread (t_id thread) s = None ∧
    n = new_turn sha256 now ("rturn_" +s uuid) ("rlease_" +s random) prompt
          (max_attempt (m_id m) s + 1) i m thread ∧
    o = Some (claim_result sha256 now ("rturn_" +s uuid) ("rlease_" +s random) prompt
                (max_attempt (m_id m) s + 1) i m thread route) ∧
    existsb (turn_conflicts n) (turns s) = false ∧
    s' = set_turns (turns s ++ [n]) (set_messages (presented_messages now m s) s).
Proof.
  unfold claim, ReviewerJobs.claim.
  destruct (claim_context i s) as [[[m thread] route]|] eqn:Ec; [|naive_solver].
  intros H. apply bind_Ok in H as ([consultation|] & _ & H); [|naive_solver].
  destruct (getActiveForThread (t_id thread) s) eqn:Ea; [naive_solver|].
  apply bind_Ok in H as (packet & _ & H). apply bind_Ok in H as (safe & _ & H).
  rewrite (update_where_split (λ x, _) _ _) in H. fold (queued_of m) in H.
  fold (presented_messages now m s) in H.
  destruct (negb _) in H; [naive_solver|].
  apply bind_Ok in H as (ts & [Hf ->]%insert_turn_Ok & [= <- <-]).
  right. by repeat eexists.
Qed.

(** The row a transition changes *)
Definition same_lease (row r : Turn) : bool :=
  has_id (id row) r && bool_decide (leaseTokenSha256 r = leaseTokenSha256 row)
  && has_state [state row] r.

Lemma move_message_spec now n row s :
  turns (move_message now n row s) = turns s ∧ recovers s (move_message now n row s).
Proof.
  unfold move_message. destruct (gives_up n && _) eqn:E; destruct n; try done;
    (split; [done|]); split; try done; intros Hk;
    first [by apply keeps_messages_refl | by apply keeps_messages_status].
Qed.

Lemma transition_inv now now' i s r' s' :
  transition sha256 now now' i s = Ok (r', s') →
  ∃ row, find_turn (ti_attemptId i) s = Some row ∧
    holds_lease sha256 now' (ti_leaseToken i) (ti_profileId i) (ti_browserGeneration i) row = true ∧
    is_active row = true ∧
    (gives_up (nextStatus i) = true →
     has_state [prompt_accepted; model_generating; generation_finished; awaiting_feedback] row
       = false) ∧
    turns s' = (update_where (same_lease row) (moved now i) (turns s)).1 ∧ recovers s s'.
Proof.
  unfold transition. intros (row & Hf%require_Ok & H)%bind_Ok.
  apply bind_Ok in H as (_ & [Hl Ha]%ensure_Ok%andb_true_iff & H).
  apply bind_Ok in H as (_ & Hg%reject_Ok & H).
  apply bind_Ok in H as (thread & _ & H). apply bind_Ok in H as (route & _ & H).
  apply bind_Ok in H as (_ & _ & H).
  rewrite (update_where_split (λ r, _) _ _) in H. fold (same_lease row) in H.
  exists row. do 3 (split; [done|]). split; [intros Hn; by rewrite Hn in Hg|].
  set (ts := (update_where (same_lease row) (moved now i) (turns s)).1) in *. clearbody ts.
  apply bind_Ok in H as (_ & _ & H). apply bind_Ok in H as (row' & _ & H).
  injection H as _ <-.
  destruct (move_message_spec now (nextStatus i) row (set_turns ts s)) as [-> Hr].
  split; [done|]. destruct Hr. by split.
Qed.

Lemma observe_inv now i s n b s' :
  recordPartialObservation sha256 now i s = Ok (n, b, s') →
  ∃ row, find_turn (pi_attemptId i) s = Some row ∧
    holds_lease sha256 now (pi_leaseToken i) (pi_profileId i) (pi_browserGeneration i) row = true ∧
    sha256 (pi_textPrefix i) = pi_textSha256 i ∧
    (Z.of_nat (length (pi_textPrefix i)) ≤ PARTIAL_OBSERVATION_PREFIX_LIMIT)%Z ∧
    let observed := default 0%Z (seq <$> latest_partial (pi_attemptId i) s) in
    (s' = s ∧ n = observed ∨
     n = (observed + 1)%Z ∧
     s' = set_turns (update_where (λ r, has_id (pi_attemptId i) r
                       && bool_decide (leaseTokenSha256 r = leaseTokenSha256 row))
                       (touch_progress now) (turns s)).1
            (set_partials (partials s ++ [mkPartial (pi_attemptId i) n (pi_textSha256 i)
                             (pi_textPrefix i) now (provenance_of (pi_provenance i))]) s)).
Proof.
  unfold recordPartialObservation. intros (_ & Hlen%reject_Ok%Z.ltb_ge & H)%bind_Ok.
  apply bind_Ok in H as (_ & _ & H). apply bind_Ok in H as (_ & Hd%ensure_Ok%js_eqb_eq & H).
  apply bind_Ok in H as (row & Hf%require_Ok & H). apply bind_Ok in H as (_ & Hl%ensure_Ok & H).
  apply bind_Ok in H as (_ & _ & H). exists row. do 4 (split; [done|]).
  destruct (bool_decide _) in H; [injection H as <- <- <-; by left|].
  unfold insert_partial in H. destruct (existsb _ _) in H; [done|].
  injection H as <- <- <-. by right.
Qed.

Lemma renew_inv now i s x s' :
  renewLease sha256 now i s = Ok (x, s') →
  s' = set_turns (update_where (renewable sha256 now i)
                    (set_expiry (now + lease_length (rn_leaseMs i))) (turns s)).1 s ∧
  (update_where (renewable sha256 now i) (set_expiry (now + lease_length (rn_leaseMs i)))
     (turns s)).2 = 1.
Proof.
  unfold renewLease. rewrite (update_where_split (renewable _ _ _) _ _).
  intros (_ & Hc%ensure_Ok%Nat.eqb_eq & [= _ <-])%bind_Ok. done.
Qed.

(** The row a decision of the reviewer closes *)
Definition decided_row (now : Z) (from : list TurnState) (attempt r : Turn) : bool :=
  has_id (id attempt) r && has_state from r && negb (lease_live now r).

Definition unresolved_message (m x : Message) : bool :=
  message_id (m_id m) x && Z.eqb (m_revision x) (m_revision m)
  && message_in [m_presenting; m_presented] x.

Lemma decide_attempt_inv now from st err changed ms attempt m rec s s' :
  decide_attempt now from st err changed ms attempt m rec s = Ok s' →
  existsb (λ r, bool_decide (attemptId r = attemptId rec)) (resolutions s) = false ∧
  (update_where (decided_row now from attempt) (set_unleased st (Some err)) (turns s)).2 = 1 ∧
  (update_where (unresolved_message m) (set_status ms now) (messages s)).2 = 1 ∧
  s' = set_resolutions (resolutions s ++ [rec])
         (set_messages (update_where (unresolved_message m) (set_status ms now) (messages s)).1
            (set_turns (update_where (decided_row now from attempt) (set_unleased st (Some err))
                          (turns s)).1 s)).
Proof.
  unfold decide_attempt.
  fold (decided_row now from attempt) (unresolved_message m).
  rewrite (update_where_split (decided_row now from attempt) _ _),
    (update_where_split (unresolved_message m) _ _).
  intros (_ & H1%ensure_Ok%Nat.eqb_eq & H)%bind_Ok.
  apply bind_Ok in H as (_ & H2%ensure_Ok%Nat.eqb_eq & H). unfold insert_resolution in H.
  destruct (existsb _ _) in H |- *; [done|]. by injection H as <-.
Qed.

Definition resolution_of (now : Z) (i : ResolveInput) (attempt : Turn) (thread : Thread)
  : Resolution :=
  mkResolution (id attempt) (t_id thread) (ri_routeEpoch i) (ri_reviewerPrincipalId i)
    confirmed_prompt_absent_requeue None (sha256 (trim (ri_inspectionEvidence i))) now.

Lemma resolve_inv now i s x s' :
  resolveUncertainAttemptForRetry sha256 now i s = Ok (x, s') →
  ∃ attempt thread route m,
    find_turn (ri_attemptId i) s = Some attempt ∧ state attempt = uncertain ∧
    find_thread (reviewThreadId attempt) s = Some thread ∧
    find_route (routeId thread) s = Some route ∧
    find_message (reviewMessageId attempt) s = Some m ∧
    unresolved (ri_routeEpoch i) attempt thread route m = true ∧
    x = (m_id m, (m_revision m + 1)%Z, sha256 (trim (ri_inspectionEvidence i))) ∧
    decide_attempt now [uncertain] recovered "operator_confirmed_prompt_absent"
      uncertain_changed m_queued attempt m (resolution_of now i attempt thread) s = Ok s'.
Proof.
  unfold resolveUncertainAttemptForRetry. intros (_ & _ & H)%bind_Ok.
  apply bind_Ok in H as (attempt & Ha%require_Ok & H).
  apply bind_Ok in H as (_ & [_ Hs%bool_decide_eq_true%list_elem_of_singleton]%ensure_Ok%andb_true_iff
                         & H).
  apply bind_Ok in H as (_ & _ & H). apply bind_Ok in H as (thread & Ht%require_Ok & H).
  apply bind_Ok in H as (route & Hr%require_Ok & H). apply bind_Ok in H as (m & Hm%require_Ok & H).
  apply bind_Ok in H as (_ & [Hu _]%ensure_Ok%andb_true_iff & H).
  apply bind_Ok in H as (s1 & Hd & H). injection H as <- <-. by repeat eexists.
Qed.

Definition outcome_resolution (now : Z) (i : TerminalOutcomeInput) (attempt : Turn)
  (thread : Thread) : Resolution :=
  mkResolution (id attempt) (t_id thread) (to_routeEpoch i) (to_reviewerPrincipalId i)
    reviewer_unrecoverable (Some (trim (to_reasonCode i)))
    (sha256 (trim (to_inspectionEvidence i))) now.

Lemma outcome_inv now i s o s' :
  recordTerminalOutcome sha256 now i s = Ok (o, s') →
  ∃ attempt thread m,
    find_turn (to_attemptId i) s = Some attempt ∧
    has_state TERMINAL_ELIGIBLE_STATES attempt = true ∧
    find_thread (reviewThreadId attempt) s = Some thread ∧
    reviewThreadId attempt = to_reviewThreadId i ∧
    o = mkOutcome (id attempt) (trim (to_reasonCode i)) (sha256 (trim (to_inspectionEvidence i)))
          (seq <$> latest_partial (id attempt) s) (textSha256 <$> latest_partial (id attempt) s)
          (lastProgressAt attempt) ∧
    decide_attempt now TERMINAL_ELIGIBLE_STATES failed "reviewer_unrecoverable" attempt_changed
      m_failed attempt m (outcome_resolution now i attempt thread) s = Ok s'.
Proof.
  unfold recordTerminalOutcome. intros (_ & _ & H)%bind_Ok. apply bind_Ok in H as (_ & _ & H).
  apply bind_Ok in H as (attempt & Ha%require_Ok & H).
  apply bind_Ok in H as (_ & [He%js_eqb_eq _]%ensure_Ok%andb_true_iff & H).
  apply bind_Ok in H as (_ & _ & H). apply bind_Ok in H as (_ & Hs%ensure_Ok & H).
  apply bind_Ok in H as (_ & _ & H). apply bind_Ok in H as (thread & Ht%require_Ok & H).
  apply bind_Ok in H as (route & _ & H). apply bind_Ok in H as (m & _ & H).
  apply bind_Ok in H as (_ & _ & H).
  apply bind_Ok in H as (s1 & Hd & H). injection H as <- <-. by repeat eexists.
Qed.

(** ** Every operation is made of moves *)

Lemma find_turn_Some k s r : find_turn k s = Some r → r ∈ turns s ∧ id r = k.
Proof. apply by_key_Some. Qed.

Lemma same_id s x y : keyed id (turns s) → x ∈ turns s → y ∈ turns s → id x = id y → x = y.
Proof. apply keyed_inj. Qed.

(** The row an operation inserted, if it did *)
Definition inserted (c : Call) (s : store) (new : list Turn) : Prop :=
  new = [] ∨
  ∃ now uuid random i m thread route prompt n,
    c = Claim now uuid random i ∧ new = [n] ∧ claim_context i s = Some (m, thread, route) ∧
    getActiveForThread (t_id thread) s = None ∧
    n = new_turn sha256 now ("rturn_" +s uuid) ("rlease_" +s random) prompt
          (max_attempt (m_id m) s + 1) i m thread ∧
    existsb (turn_conflicts n) (turns s) = false.

#[local] Instance moves_reflexive s c : Reflexive (moves s c).
Proof. constructor. Qed.

Lemma moves_none s c : Forall2 (moves s c) (turns s) (turns s).
Proof. reflexivity. Qed.

Lemma moves_update s c p f :
  (∀ r, r ∈ turns s → p r = true → moves s c r (f r)) →
  Forall2 (moves s c) (turns s) (update_where p f (turns s)).1.
Proof. intros H. by apply Forall2_update_where. Qed.

#[local] Hint Resolve moves_none moves_update : core.

Lemma decided_turns s now from st err changed ms attempt m rec s' :
  decide_attempt now from st err changed ms attempt m rec s = Ok s' →
  turns s' = (update_where (decided_row now from attempt) (set_unleased st (Some err)) (turns s)).1.
Proof. by intros (_ & _ & _ & ->)%decide_attempt_inv. Qed.

Lemma decided_row_spec now from attempt r :
  decided_row now from attempt r = true → id r = id attempt ∧ has_state from r = true.
Proof. unfold decided_row, has_id. rewrite !andb_true_iff, bool_decide_eq_true. tauto. Qed.

Lemma transition_moves s now now' i :
  keyed id (turns s) →
  Forall2 (moves s (Transition now now' i)) (turns s) (turns (perform (Transition now now' i) s)).
Proof.
  intros Hk. cbn. destruct (transition _ _ _ _ _) as [[r' s']|] eqn:E; [|done].
  apply transition_inv in E as (row & Hf & Hl & Ha & _ & Et & _).
  rewrite Et. apply moves_update.
  intros r Hr Hs. apply find_turn_Some in Hf as [Hin Hid].
  assert (r = row) as ->; [|by apply transitions].
  eapply same_id; [done..|]. unfold same_lease, has_id in Hs. by guards.
Qed.

Lemma reconcile_moves s now lim :
  keyed id (turns s) →
  Forall2 (moves s (Reconcile now lim)) (turns s) (turns (perform (Reconcile now lim) s)).
Proof.
  intros Hk. cbn. pose proof (reconcile_spec now lim s Hk) as H.
  destruct (reconcileExpiredAttempts _ _ _ _) as [c s']. destruct H as (Ht & _ & _).
  cbn [snd]. rewrite Ht. apply moves_update.
  intros r Hr (x & E & [Hx He]%expired_rows_elem)%bool_decide_eq_true%elem_of_Lmap.
  assert (r = x) as -> by (by eapply same_id). by constructor.
Qed.

Lemma other_moves s c :
  match c with Claim _ _ _ _ | Transition _ _ _ | Reconcile _ _ => False | _ => True end →
  Forall2 (moves s c) (turns s) (turns (perform c s)).
Proof.
  destruct c; try done; intros _; cbn.
  - destruct (recordPartialObservation _ _ _ _) as [[[n b] s']|] eqn:E; [|done].
    apply observe_inv in E as (row & _ & _ & _ & _ & [[-> _]|[_ ->]]); [done|].
    apply moves_update. auto.
  - destruct (renewLease _ _ _ _) as [[x s']|] eqn:E; [|done].
    apply renew_inv in E as [-> _]. apply moves_update. auto.
  - destruct (resolveUncertainAttemptForRetry _ _ _ _) as [[x s']|] eqn:E; [|done].
    apply resolve_inv in E as (attempt & ? & ? & m & Hf & Hu & _ & _ & _ & _ & _ & Hd).
    apply decided_turns in Hd as ->. apply moves_update.
    intros r _ [Hid Hs%bool_decide_eq_true%list_elem_of_singleton]%decided_row_spec.
    apply find_turn_Some in Hf as [_ Ha]. constructor; congruence.
  - destruct (recordTerminalOutcome _ _ _ _) as [[x s']|] eqn:E; [|done].
    apply outcome_inv in E as (attempt & ? & m & Hf & _ & _ & _ & _ & Hd).
    apply decided_turns in Hd as ->. apply moves_update.
    intros r _ [Hid Hs]%decided_row_spec.
    apply find_turn_Some in Hf as [_ Ha]. constructor; congruence.
  - apply moves_update. auto.
  - apply moves_update. auto.
  - apply moves_update. intros r _ Hp. guards. by constructor.
  - apply moves_update. intros r _ Hp. apply andb_true_iff in Hp as [_ Hp]. by constructor.
Qed.

Lemma perform_turns c s :
  keyed id (turns s) →
  ∃ ts new, turns (perform c s) = ts ++ new ∧ Forall2 (moves s c) (turns s) ts ∧ inserted c s new.
Proof.
  intros Hk.
  assert (Hmove : Forall2 (moves s c) (turns s) (turns (perform c s)) →
                  ∃ ts new, turns (perform c s) = ts ++ new ∧ Forall2 (moves s c) (turns s) ts
                            ∧ inserted c s new).
  { intros H. exists (turns (perform c s)), []. rewrite app_nil_r. split; [done|].
    split; [done|]. by left. }
  destruct c; try (apply Hmove, other_moves; exact I).
  - cbn in *. destruct (claim _ _ _ _ _) as [[o s']|] eqn:E; [|by apply Hmove].
    apply claim_inv in E as [[_ [->|[m ->]]]|(m & thread & route & prompt & n & E)];
      [by apply Hmove..|].
    destruct E as (Hc & Ha & Hn & _ & Hf & ->). exists (turns s), [n]. split; [done|].
    split; [done|]. right. by repeat eexists.
  - by apply Hmove, transition_moves.
  - by apply Hmove, reconcile_moves.
Qed.

(** ** What every move respects *)

Definition identity (r : Turn) : jsstr * jsstr * jsstr * Z :=
  (id r, reviewMessageId r, reviewThreadId r, attemptNumber r).

Definition closed (r : Turn) : Prop := state r = recovered ∨ state r = failed.

(** A move keeps the identity of the row, opens nothing that was closed, and keeps the lease
    columns in order. *)
Record tame (r r' : Turn) : Prop := {
  tame_identity : identity r' = identity r;
  tame_active : is_active r' = true → is_active r = true;
  tame_lease : lease_ok r → lease_ok r';
  tame_closed : closed r → closed r'
}.

Lemma lease_ok_unleased st err r : lease_ok (set_unleased st err r).
Proof. split; [|done]. cbn. split; intros []; done. Qed.

#[local] Hint Resolve lease_ok_unleased : core.

Lemma is_active_spec r : is_active r = true ↔ state r ∈ ACTIVE.
Proof. apply bool_decide_eq_true. Qed.

Lemma active_not_closed r : is_active r = true → ¬ closed r.
Proof. unfold is_active, has_state. by intros H [E|E]; rewrite E in H. Qed.

Lemma tame_unleased st err r :
  is_active r = true → tame r (set_unleased st err r).
Proof. intros Ha. split; [done|done|auto|]. intros Hc. by apply active_not_closed in Ha. Qed.

Lemma lease_ok_progress a b c d e f g r :
  lease_ok r → lease_ok (set_progress a b c d e f g r).
Proof. done. Qed.

Lemma tame_settled st now r : is_active r = true → tame r (set_settled st now r).
Proof. intros Ha. by destruct (tame_unleased st (errorCode r) r Ha). Qed.

Lemma tame_moved now i r : is_active r = true → tame r (moved now i r).
Proof.
  intros Ha. unfold moved. split; [by destruct (gives_up _)|done| |].
  - intros [Hl Hn]. destruct (gives_up (nextStatus i)) eqn:E; apply lease_ok_progress.
    + apply lease_ok_unleased.
    + split; [done|]. unfold is_active, has_state; cbn. by destruct (nextStatus i).
  - intros Hc. by apply active_not_closed in Ha.
Qed.

Lemma moves_tame s c r r' : moves s c r r' → tame r r'.
Proof.
  destruct 1 as [| |now i r|now i r Hr|now lim r He|now i err r _ Hs|now i err r _ Hs
                |now h e r Hs|now a e r Hs|t r _ Ha|now route e r Ha].
  - by split.
  - by apply tame_moved.
  - by split.
  - unfold renewable in Hr. guards. split; try done. intros [Hl Hn]. split; [cbn|done].
    naive_solver.
  - unfold expired in He. apply andb_true_iff in He as [_ Ha].
    unfold set_reconciled. destruct (state r); by apply tame_unleased.
  - apply tame_unleased. unfold is_active, has_state. by rewrite Hs.
  - unfold has_state in Hs. apply bool_decide_eq_true in Hs. split; [done|done|auto|].
    intros _. by right.
  - unfold settles in Hs. apply andb_true_iff in Hs as [_ Ha]. by apply tame_settled.
  - unfold settles in Hs. apply andb_true_iff in Hs as [_ Ha]. by apply tame_settled.
  - by apply tame_unleased.
  - by apply tame_unleased.
Qed.

(** ** The schema is kept *)

Lemma identity_eq r r' :
  identity r' = identity r ↔
  id r' = id r ∧ reviewMessageId r' = reviewMessageId r ∧ reviewThreadId r' = reviewThreadId r
  ∧ attemptNumber r' = attemptNumber r.
Proof.
  unfold identity. split; [by intros [= -> -> -> ->]|]. by intros (-> & -> & -> & ->).
Qed.

Lemma tame_map {B} (k : Turn → B) t ts :
  (∀ r r', identity r' = identity r → k r' = k r) →
  Forall2 tame t ts → List.map k ts = List.map k t.
Proof.
  intros Hk. induction 1 as [|r r' l l' Hr _ IH]; [done|]. cbn. rewrite IH.
  f_equal. apply Hk, Hr.
Qed.

Lemma tame_filter {B} (p : Turn → bool) (k : Turn → B) t ts :
  (∀ r r', identity r' = identity r → k r' = k r ∧ p r' = p r) →
  Forall2 tame t ts → List.map k (List.filter p ts) = List.map k (List.filter p t).
Proof.
  intros Hk. induction 1 as [|r r' l l' Hr _ IH]; [done|]. cbn.
  destruct (Hk r r' (tame_identity _ _ Hr)) as [Ek ->].
  destruct (p r); cbn; rewrite IH; congruence.
Qed.

Lemma tame_sublist {B} (k : Turn → B) t ts :
  (∀ r r', identity r' = identity r → k r' = k r) → Forall2 tame t ts →
  List.map k (List.filter is_active ts) `sublist_of` List.map k (List.filter is_active t).
Proof.
  intros Hk. induction 1 as [|r r' l l' Hr _ IH]; [done|]. cbn.
  destruct (is_active r') eqn:E.
  - rewrite (tame_active _ _ Hr E). cbn. rewrite (Hk r r') by apply Hr. by apply sublist_skip.
  - destruct (is_active r); cbn; [by apply sublist_cons|done].
Qed.

Lemma attempts_moves t ts ms : Forall2 tame t ts → attempts_ok t ms → attempts_ok ts ms.
Proof.
  intros Htame [Hi Hm Ht Hn Hf Hl]. split.
  - unfold keyed. rewrite (tame_map id t); [done| |done]. intros r r' ?%identity_eq. tauto.
  - eapply sublist_NoDup; [exact Hm|]. apply tame_sublist; [|done].
    intros r r' ?%identity_eq. tauto.
  - eapply sublist_NoDup; [exact Ht|]. apply tame_sublist; [|done].
    intros r r' ?%identity_eq. tauto.
  - intros k. rewrite (tame_filter (of_message k) attemptNumber t); [done| |done].
    unfold of_message. intros r r' (_ & -> & _ & ->)%identity_eq. done.
  - intros r' Hr'. destruct (Forall2_elem_r _ _ _ _ Htame Hr') as (r & Hr & Hrr).
    apply tame_identity, identity_eq in Hrr as (_ & -> & -> & _). auto.
  - rewrite Forall_forall in *. intros r' Hr'.
    destruct (Forall2_elem_r _ _ _ _ Htame Hr') as (r & Hr & Hrr). apply Hrr; auto.
Qed.

Lemma attempts_messages t ms ms' :
  keeps_messages ms ms' → attempts_ok t ms → attempts_ok t ms'.
Proof.
  intros [_ Hk] [Hi Hm Ht Hn Hf Hl]. split; try done.
  intros r Hr. destruct (Hf r Hr) as (m & Hin & Em & Et).
  destruct (Hk m Hin) as (m' & Hin' & Em' & Et' & _). exists m'. split_and!; congruence.
Qed.

Lemma existsb_false {A} (p : A → bool) l :
  existsb p l = false ↔ ∀ x, x ∈ l → p x = false.
Proof.
  rewrite <- not_true_iff_false, List.existsb_exists. setoid_rewrite <- list_elem_of_In.
  split; [intros H x Hx; apply not_true_iff_false; eauto|].
  intros H (x & Hx & E). by rewrite (H x Hx) in E.
Qed.

(** A column of the rows that satisfy [p] stays without duplicates when a row is appended whose
    value no such row has. *)
Lemma NoDup_filter_snoc {A B} (p : A → bool) (k : A → B) l n :
  NoDup (List.map k (List.filter p l)) →
  (p n = true → ∀ x, x ∈ l → p x = true → k x ≠ k n) →
  NoDup (List.map k (List.filter p (l ++ [n]))).
Proof.
  intros Hd Hn. rewrite List.filter_app, List.map_app. cbn. destruct (p n) eqn:E; cbn.
  - apply NoDup_app. split; [done|]. split; [|apply NoDup_singleton].
    intros y (x & -> & [Hx Px]%elem_of_Lfilter)%elem_of_Lmap Hk%list_elem_of_singleton.
    by apply (Hn eq_refl x).
  - by rewrite app_nil_r.
Qed.

Lemma numbered_snoc l : numbered l → numbered (l ++ [(Z.of_nat (length l) + 1)%Z]).
Proof.
  unfold numbered. intros H. rewrite length_app, Nat2Z.inj_add, seqZ_app by lia.
  rewrite <- H, (Z.add_comm 1). by f_equal.
Qed.

Lemma foldl_max_seqZ (l : list Turn) : ∀ n,
  List.map attemptNumber l = seqZ (n + 1) (Z.of_nat (length l)) →
  foldl (λ acc x, Z.max acc (attemptNumber x)) n l = (n + Z.of_nat (length l))%Z.
Proof.
  induction l as [|r l IH]; intros n; cbn [foldl List.map length]; [lia|].
  rewrite seqZ_cons by lia. intros [= Hr Hl].
  rewrite Hr, Z.max_r, (IH (n + 1)%Z) by (lia || rewrite Hl; f_equal; lia). lia.
Qed.

(** The next number of a message is the one after its last. *)
Lemma max_attempt_numbered k s :
  numbered (List.map attemptNumber (List.filter (of_message k) (turns s))) →
  max_attempt k s = Z.of_nat (length (List.filter (of_message k) (turns s))).
Proof.
  unfold max_attempt, select_where. fold (of_message k). unfold numbered.
  rewrite List.length_map. destruct (List.filter _ _) as [|r l] eqn:E; cbn [List.map length]; [done|].
  rewrite seqZ_cons by lia. intros [= Hr Hl].
  rewrite foldl_max_seqZ.
  - rewrite Hr. lia.
  - rewrite Hl, Hr. f_equal. lia.
Qed.

Lemma attempts_insert s n m :
  attempts_ok (turns s) (messages s) → m ∈ messages s →
  m_id m = reviewMessageId n → threadId m = reviewThreadId n → lease_ok n → is_active n = true →
  attemptNumber n = (max_attempt (reviewMessageId n) s + 1)%Z →
  existsb (turn_conflicts n) (turns s) = false →
  attempts_ok (turns s ++ [n]) (messages s).
Proof.
  intros [Hi Hm Ht Hn Hf Hl] Hin Em Et Hlease Ha Hnum Hc. rewrite existsb_false in Hc.
  unfold turn_conflicts, has_id in Hc. split.
  - apply keyed_insert; [done|]. apply by_key_None. intros r Hr. specialize (Hc r Hr). by guards.
  - apply NoDup_filter_snoc; [done|]. intros _ r Hr Har. specialize (Hc r Hr).
    rewrite Ha, Har in Hc. guards. naive_solver.
  - apply NoDup_filter_snoc; [done|]. intros _ r Hr Har. specialize (Hc r Hr).
    rewrite Ha, Har in Hc. guards. naive_solver.
  - intros k. rewrite List.filter_app, List.map_app. cbn.
    destruct (of_message k n) eqn:E; cbn; [|by rewrite app_nil_r].
    apply bool_decide_eq_true in E as <-.
    rewrite Hnum, (max_attempt_numbered _ _ (Hn _)), <- (List.length_map attemptNumber).
    apply numbered_snoc, Hn.
  - intros r [Hr|Hr%list_elem_of_singleton]%elem_of_app; [auto|]. subst r. eauto.
  - apply Forall_app. split; [done|]. by apply Forall_singleton.
Qed.

(** ** Preservation of the whole schema *)

Lemma claim_context_Some i s m thread route :
  claim_context i s = Some (m, thread, route) →
  find_message (ci_messageId i) s = Some m ∧ m_status m = m_queued ∧
  find_thread (threadId m) s = Some thread ∧ find_route (routeId thread) s = Some route ∧
  t_status thread = js "active" ∧ t_routeEpoch thread = m_routeEpoch m ∧
  claim_route_ok i m thread route = true.
Proof.
  unfold claim_context. destruct (find_message _ _) as [m'|] eqn:Em; [|done]. cbn.
  destruct (message_in [m_queued] m') eqn:Eq; [|done]. cbn.
  destruct (find_thread (threadId m') s) as [th|] eqn:Et; [|done]. cbn.
  destruct (negb _ || negb _) eqn:Es; [done|].
  destruct (find_route (routeId th) s) as [r|] eqn:Er; [|done]. cbn.
  destruct (claim_route_ok _ _ _ _) eqn:Eo; [|done]. intros [= -> -> ->].
  unfold message_in in Eq. guards. split_and!; try done.
  by apply list_elem_of_singleton.
Qed.

Lemma new_turn_fits now uuid random i s m thread route prompt :
  let n := new_turn sha256 now ("rturn_" +s uuid) ("rlease_" +s random) prompt
             (max_attempt (m_id m) s + 1) i m thread in
  claim_context i s = Some (m, thread, route) →
  existsb (turn_conflicts n) (turns s) = false →
  attempts_ok (turns s) (messages s) → attempts_ok (turns s ++ [n]) (messages s).
Proof.
  intros n (Hm & _ & Ht & _)%claim_context_Some Hc Hok.
  apply by_key_Some in Hm as [Hin _]. apply by_key_Some in Ht as [_ Ht].
  apply (attempts_insert s n m); try done.
Qed.

Lemma update_where_changed {A} p f (t : list A) :
  (update_where p f t).2 = 1 → ∃ r, r ∈ t ∧ p r = true.
Proof.
  unfold update_where; cbn. destruct (List.filter p t) as [|r l] eqn:E; [done|]. intros _.
  exists r. apply elem_of_Lfilter. rewrite E. by left.
Qed.

(** The row a decision of the reviewer adds: no other is there for the attempt, which is closed. *)
Definition new_resolution (s s' : store) (d : Resolution) : Prop :=
  (∀ x, x ∈ resolutions s → attemptId x ≠ attemptId d) ∧
  ∃ r, r ∈ turns s' ∧ id r = attemptId d ∧ closed r.

(** The row an observation adds *)
Definition new_partial (s : store) (p : Partial) : Prop :=
  seq p = (default 0%Z (seq <$> latest_partial (p_attemptId p) s) + 1)%Z ∧ partial_ok sha256 p.

(** What an operation does beside the attempts *)
Record aside (s s' : store) : Prop := {
  as_messages : keyed m_id (messages s) → keeps_messages (messages s) (messages s');
  as_resolutions : resolutions s' = resolutions s ∨
    ∃ d, resolutions s' = resolutions s ++ [d] ∧ new_resolution s s' d;
  as_partials : partials s' = partials s ∨
    ∃ p, partials s' = partials s ++ [p] ∧ new_partial s p
}.

Lemma aside_quiet s s' :
  (keyed m_id (messages s) → keeps_messages (messages s) (messages s')) →
  resolutions s' = resolutions s → partials s' = partials s → aside s s'.
Proof. split; auto. Qed.

Lemma aside_refl s : aside s s.
Proof. by apply aside_quiet; auto. Qed.

Lemma aside_recovers s s' : recovers s s' → aside s s'.
Proof. intros []. by apply aside_quiet. Qed.

Lemma aside_decision s now from st err changed ms attempt m rec s' :
  decide_attempt now from st err changed ms attempt m rec s = Ok s' →
  attemptId rec = id attempt → st = recovered ∨ st = failed → aside s s'.
Proof.
  intros (Hno & Hc & _ & ->)%decide_attempt_inv Hid Hst. split; cbn -[update_where].
  - intros Hk. by apply keeps_messages_status.
  - right. exists rec. split; [done|]. split.
    + intros x Hx. apply existsb_false with (x := x) in Hno; [|done]. by guards.
    + apply update_where_changed in Hc as (r & Hr & Hd).
      exists (set_unleased st (Some err) r). split; [|split; [|exact Hst]].
      * apply elem_of_update_where. exists r. by rewrite Hd.
      * apply decided_row_spec in Hd as [Hr' _]. cbn. congruence.
  - by left.
Qed.

#[local] Hint Resolve aside_refl : core.

Lemma perform_aside c s :
  match c with OtherWrites ms _ _ _ _ => keeps_messages (messages s) ms | _ => True end →
  aside s (perform c s).
Proof.
  intros Hc. destruct c; cbn -[update_where]; try (by apply aside_quiet; auto).
  - destruct (claim _ _ _ _ _) as [[o s']|] eqn:E; [|done].
    apply claim_inv in E as [[_ [->|[m ->]]]|(m & ? & ? & ? & n & _ & _ & _ & _ & _ & ->)];
      [done|..]; apply aside_quiet; try done; intros Hk; by apply keeps_messages_status.
  - destruct (transition _ _ _ _ _) as [[r' s']|] eqn:E; [|done].
    apply transition_inv in E as (_ & _ & _ & _ & _ & _ & Hr). by apply aside_recovers.
  - destruct (recordPartialObservation _ _ _ _) as [[[n b] s']|] eqn:E; [|done].
    apply observe_inv in E as (row & _ & _ & Hd & Hlen & [[-> _]|[Hn ->]]); [done|].
    split; [cbn; auto|by left|]. right. eexists. split; [reflexivity|]. by split; [|split].
  - destruct (renewLease _ _ _ _) as [[x s']|] eqn:E; [|done].
    apply renew_inv in E as [-> _]. by apply aside_quiet; auto.
  - unfold reconcileExpiredAttempts. destruct (foldl _ _ _) as [x s'] eqn:E.
    apply reconcile_rows_spec in E as (_ & _ & Hr). by apply aside_recovers.
  - destruct (resolveUncertainAttemptForRetry _ _ _ _) as [[x s']|] eqn:E; [|done].
    apply resolve_inv in E as (attempt & ? & ? & m & _ & _ & _ & _ & _ & _ & _ & Hd).
    eapply aside_decision; [exact Hd|done|by left].
  - destruct (recordTerminalOutcome _ _ _ _) as [[x s']|] eqn:E; [|done].
    apply outcome_inv in E as (attempt & ? & m & _ & _ & _ & _ & _ & Hd).
    eapply aside_decision; [exact Hd|done|by right].
  - apply aside_quiet; try done. intros Hk. by apply keeps_messages_status.
  - apply aside_quiet; try done. intros Hk. by apply keeps_messages_status.
Qed.

(** The latest observation of an attempt bears the number of observations. *)
Lemma latest_partial_numbered k s :
  numbered (List.map seq (List.filter (of_attempt k) (partials s))) →
  default 0%Z (seq <$> latest_partial k s)
    = Z.of_nat (length (List.filter (of_attempt k) (partials s))).
Proof.
  unfold numbered. rewrite List.length_map. intros Hn.
  unfold latest_partial, select_where. fold (of_attempt k).
  set (l := List.filter (of_attempt k) (partials s)) in *.
  destruct (first_by _ l) as [p|] eqn:E; cbn; [|by apply first_by_None in E as ->].
  assert (Hle : ∀ x, x ∈ l → (seq x ≤ seq p)%Z).
  { intros x Hx. apply Z.leb_le. revert x Hx.
    apply (first_by_least (λ a b, (seq b <=? seq a)%Z)); [| |exact E];
      intros; rewrite ?Z.leb_le in *; lia. }
  apply first_by_elem in E as Hp.
  assert (Hin : ∀ z, z ∈ List.map seq l ↔ (1 ≤ z < 1 + Z.of_nat (length l))%Z)
    by (intros z; rewrite Hn; apply elem_of_seqZ).
  assert (seq p ∈ List.map seq l) as Hs%Hin by (apply elem_of_Lmap; eauto).
  assert (Z.of_nat (length l) ∈ List.map seq l) as (x & Ex & Hx)%elem_of_Lmap by (apply Hin; lia).
  pose proof (Hle x Hx). lia.
Qed.

Lemma wf_perform c s :
  well_formed s →
  match c with OtherWrites ms _ _ _ _ => keeps_messages (messages s) ms | _ => True end →
  well_formed (perform c s).
Proof.
  intros [Ha Hm Hr Hd Hp Ho] Hc.
  destruct (perform_turns c s (at_ids _ _ Ha)) as (ts & new & Et & Hmoves & Hnew).
  destruct (perform_aside c s Hc) as [Km Kr Kp]. specialize (Km Hm).
  assert (Htame : Forall2 tame (turns s ++ new) (ts ++ new)).
  { apply Forall2_app; [by eapply Forall2_impl; [exact Hmoves|apply moves_tame]|].
    apply Forall2_same_length_lookup_2; [done|]. intros j x y Hx Hy. simplify_eq. by split. }
  assert (Hsnoc : attempts_ok (turns s ++ new) (messages s)).
  { destruct Hnew as [->|(now & uuid & random & i & m & th & route & pr & n & _ & -> & Hcc & _ & -> & Hf)].
    - by rewrite app_nil_r.
    - by eapply new_turn_fits. }
  split.
  - rewrite Et. eapply attempts_messages; [exact Km|]. by eapply attempts_moves.
  - apply Km.
  - destruct Kr as [->|(d & -> & Hfresh & _)]; [done|]. apply keyed_insert; [done|].
    by apply by_key_None.
  - assert (Hold : ∀ d, d ∈ resolutions s →
              ∃ r, r ∈ turns (perform c s) ∧ id r = attemptId d ∧ closed r).
    { intros d (r & Hin & Hid & Hcl)%Hd.
      destruct (Forall2_elem_l _ _ _ r Htame) as (r' & Hr' & [Hi _ _ Hcl']);
        [apply elem_of_app; by left|].
      exists r'. rewrite Et. apply identity_eq in Hi as (-> & _). auto. }
    destruct Kr as [->|(d & -> & _ & Hrow)]; [done|].
    intros d' [Hd'|Hd'%list_elem_of_singleton]%elem_of_app; [auto|]. by subst d'.
  - destruct Kp as [->|(p & -> & Hs & _)]; [done|]. intros k.
    rewrite List.filter_app, List.map_app. cbn.
    destruct (of_attempt k p) eqn:E; cbn; [|by rewrite app_nil_r].
    apply bool_decide_eq_true in E as <-.
    rewrite Hs, (latest_partial_numbered _ _ (Hp _)), <- (List.length_map seq).
    apply numbered_snoc, Hp.
  - destruct Kp as [->|(p & -> & _ & Hok)]; [done|]. apply Forall_app. split; [done|].
    by apply Forall_singleton.
Qed.

Lemma wf_step w c w' : step w c w' → well_formed (db w) → well_formed (db w').
Proof. intros [c' w0 _ Hc] Hwf. cbn. apply wf_perform; [done|]. by destruct c'. Qed.

Lemma wf_history w cs w' : history w cs w' → well_formed (db w) → well_formed (db w').
Proof. induction 1; eauto using wf_step. Qed.

(** ** No unique index is ever violated *)

(** [not_thrown H] takes apart a computation that is supposed to have thrown: a guard whose error
    is another is discarded. *)
Ltac not_thrown H :=
  repeat match type of H with
  | _ ≫= _ = Err _ => apply bind_Err in H as [H|(? & ? & H)]
  | ensure ?b _ = Err _ => unfold ensure in H; destruct b; discriminate
  | reject ?b _ = Err _ => unfold reject in H; destruct b; discriminate
  | require ?o _ = Err _ => unfold require in H; destruct o; discriminate
  | Ok _ = Err _ => discriminate
  end.

Lemma jread_no_conflict k v : jread k v ≠ Err constraint_failed.
Proof. by destruct v. Qed.

Lemma affected_files_no_conflict n fs : affected_files n fs ≠ Err constraint_failed.
Proof.
  revert fs; induction n as [|n IH]; intros [|f fs]; cbn; try done. intros H.
  not_thrown H; [by apply jread_no_conflict in H|by apply IH in H].
Qed.

Lemma claim_source_no_conflict m th route s :
  claim_source sha256 parse m th route s ≠ Err constraint_failed.
Proof.
  unfold claim_source, read_consultation. destruct (_ =s _); [|done].
  destruct (find_agent_message _ s); [|done]. destruct (_ || _); [done|].
  destruct (parse _); [|done]. destruct (negb _); [done|]. intros H. cbn in H.
  destruct (jread _ _) eqn:E in H; [done|]. cbn in H.
  injection H as ->. by apply jread_no_conflict in E.
Qed.

Lemma read_packet_no_conflict m : read_packet sha256 parse m ≠ Err constraint_failed.
Proof. unfold read_packet. intros H. not_thrown H. by apply jread_no_conflict in H. Qed.

Lemma safe_packet_no_conflict v : safe_packet v ≠ Err constraint_failed.
Proof. unfold safe_packet. intros H. not_thrown H. by apply affected_files_no_conflict in H. Qed.

Lemma numbered_bound {A} (k : A → Z) (l : list A) x :
  numbered (List.map k l) → x ∈ l → (1 ≤ k x ≤ Z.of_nat (length l))%Z.
Proof.
  unfold numbered. rewrite List.length_map. intros Hn Hx.
  assert (k x ∈ List.map k l) as Hk by (apply elem_of_Lmap; eauto).
  rewrite Hn in Hk. apply elem_of_seqZ in Hk. lia.
Qed.

(** When no attempt of the thread is active, a fresh attempt of the message fits in. *)
Lemma new_turn_no_conflict s m th n :
  well_formed s → m ∈ messages s → threadId m = t_id th →
  getActiveForThread (t_id th) s = None → find_turn (id n) s = None →
  reviewMessageId n = m_id m → reviewThreadId n = t_id th →
  attemptNumber n = (max_attempt (m_id m) s + 1)%Z →
  existsb (turn_conflicts n) (turns s) = false.
Proof.
  intros [Ha Hm _ _ _ _] Hin Hth Hact Hfresh Emsg Eth Enum. apply existsb_false. intros r Hr.
  assert (Hno : reviewThreadId r = t_id th → is_active r = false).
  { intros E. apply get_where_None with (r := r) in Hact; [|done].
    rewrite (bool_decide_eq_true_2 _ E) in Hact. done. }
  unfold turn_conflicts, has_id. rewrite Emsg, Eth, Enum.
  rewrite !orb_false_iff, !andb_false_iff, !orb_false_iff, !bool_decide_eq_false, Z.eqb_neq.
  split; [split|].
  - intros E. unfold find_turn in Hfresh. rewrite by_key_None in Hfresh. by apply (Hfresh r).
  - destruct (decide (reviewMessageId r = m_id m)) as [E|E]; [right|by left].
    rewrite max_attempt_numbered by apply Ha.
    pose proof (numbered_bound attemptNumber _ r (at_numbers _ _ Ha (m_id m))) as Hb.
    assert (r ∈ List.filter (of_message (m_id m)) (turns s)) as Hrm
      by (apply elem_of_Lfilter; split; [done|by apply bool_decide_eq_true]).
    specialize (Hb Hrm). lia.
  - destruct (is_active r) eqn:Er; [right|by left; right]. split.
    + intros E. destruct (at_foreign _ _ Ha r Hr) as (m' & Hm' & Em' & Et').
      assert (m' = m) as -> by (eapply (keyed_inj m_id); [done..|congruence]).
      enough (true = false) by done. apply Hno. congruence.
    + intros E. by apply Hno in E.
Qed.

Lemma claim_no_conflict now uuid random i s :
  well_formed s → find_turn ("rturn_" +s uuid) s = None →
  claim now uuid random i s ≠ Err constraint_failed.
Proof.
  intros Hwf Hfresh. unfold ReviewerJobs.claim.
  destruct (claim_context i s) as [[[m th] route]|] eqn:Ec; [|done].
  intros H. apply bind_Err in H as [H|([c|] & _ & H)];
    [by apply claim_source_no_conflict in H| |done].
  destruct (getActiveForThread _ s) eqn:Ea; [done|].
  apply bind_Err in H as [H|(packet & _ & H)]; [by apply read_packet_no_conflict in H|].
  apply bind_Err in H as [H|(safe & _ & H)]; [by apply safe_packet_no_conflict in H|].
  rewrite (update_where_split (λ x, _) _ _) in H. destruct (negb _) in H; [done|].
  apply bind_Err in H as [H|(? & _ & H)]; [|done].
  unfold insert_turn in H. apply bind_Err in H as [H|(? & _ & H)]; [|done].
  apply claim_context_Some in Ec as ([Hin _]%by_key_Some & _ & [_ Hth]%by_key_Some & _).
  rewrite (new_turn_no_conflict s m th) in H; done.
Qed.

Lemma decision_no_conflict s now from st err changed ms attempt m rec :
  well_formed s → attempt ∈ turns s → attemptId rec = id attempt → ¬ closed attempt →
  changed ≠ constraint_failed →
  decide_attempt now from st err changed ms attempt m rec s ≠ Err constraint_failed.
Proof.
  intros [Ha _ _ Hd _ _] Hin Hid Hncl Hch H. unfold decide_attempt in H.
  rewrite (update_where_split (λ r, _) _ (turns s)) in H.
  rewrite (update_where_split (λ r, _) _ (messages s)) in H.
  apply bind_Err in H as [H|(_ & _ & H)].
  { unfold ensure in H. destruct (Nat.eqb _ _) in H; [done|]. by injection H. }
  not_thrown H. unfold insert_resolution in H. not_thrown H.
  unfold reject in H. destruct (existsb _ _) eqn:E in H; [|done].
  apply List.existsb_exists in E as (d & Hd'%list_elem_of_In & E%bool_decide_eq_true).
  destruct (Hd d Hd') as (r & Hr & Er & Hcl). apply Hncl.
  by assert (attempt = r) as -> by (eapply same_id; [apply Ha|done..|congruence]).
Qed.

Lemma observe_no_conflict now i s :
  well_formed s → recordPartialObservation sha256 now i s ≠ Err constraint_failed.
Proof.
  intros [_ _ _ _ Hp _] H. unfold recordPartialObservation in H. not_thrown H.
  destruct (bool_decide _) in H; [done|].
  apply bind_Err in H as [H|(? & _ & H)]; [|done]. unfold insert_partial in H.
  apply bind_Err in H as [H|(? & _ & H)]; [|done].
  unfold reject in H. destruct (existsb _ _) eqn:E in H; [|done].
  apply List.existsb_exists in E as (p & Hin%list_elem_of_In & E). cbn in E.
  apply andb_true_iff in E as [Eid Eseq%Z.eqb_eq].
  rewrite (latest_partial_numbered _ _ (Hp _)) in Eseq.
  assert (p ∈ List.filter (of_attempt (pi_attemptId i)) (partials s)) as Hpin
    by (by apply elem_of_Lfilter).
  pose proof (numbered_bound seq _ p (Hp (pi_attemptId i)) Hpin). lia.
Qed.

Lemma resolve_no_conflict now i s :
  well_formed s → resolveUncertainAttemptForRetry sha256 now i s ≠ Err constraint_failed.
Proof.
  intros Hwf H. unfold resolveUncertainAttemptForRetry in H.
  apply bind_Err in H as [H|(_ & _ & H)]; [not_thrown H|].
  apply bind_Err in H as [H|(attempt & [Hin _]%require_Ok%find_turn_Some & H)]; [not_thrown H|].
  apply bind_Err in H as [H|(_ & [_ Hs]%ensure_Ok%andb_true_iff & H)]; [not_thrown H|].
  not_thrown H. apply decision_no_conflict in H; try done.
  apply bool_decide_eq_true, list_elem_of_singleton in Hs. by intros [E|E]; rewrite E in Hs.
Qed.

Lemma outcome_no_conflict now i s :
  well_formed s → recordTerminalOutcome sha256 now i s ≠ Err constraint_failed.
Proof.
  intros Hwf H. unfold recordTerminalOutcome in H.
  do 2 (apply bind_Err in H as [H|(_ & _ & H)]; [not_thrown H|]).
  apply bind_Err in H as [H|(attempt & [Hin _]%require_Ok%find_turn_Some & H)]; [not_thrown H|].
  do 2 (apply bind_Err in H as [H|(_ & _ & H)]; [not_thrown H|]).
  apply bind_Err in H as [H|(_ & Hs%ensure_Ok & H)]; [not_thrown H|].
  not_thrown H. apply decision_no_conflict in H; try done.
  unfold has_state in Hs. by intros [E|E]; rewrite E in Hs.
Qed.

Lemma transition_no_conflict now now' i s :
  transition sha256 now now' i s ≠ Err constraint_failed.
Proof.
  intros H. unfold transition in H. not_thrown H.
  rewrite (update_where_split (λ r, _) _ (turns s)) in H. not_thrown H.
Qed.

Lemma renew_no_conflict now i s : renewLease sha256 now i s ≠ Err constraint_failed.
Proof.
  intros H. unfold renewLease in H. rewrite (update_where_split _ _ (turns s)) in H. not_thrown H.
Qed.

Lemma no_conflict w c w' :
  step w c w' → well_formed (db w) → thrown c (db w) ≠ Some constraint_failed.
Proof.
  intros [c' w0 _ Hc] Hwf.
  destruct c'; cbn; try done; destr_match; try done; intros [= ->].
  - by apply claim_no_conflict in Heqr.
  - by apply transition_no_conflict in Heqr.
  - by apply observe_no_conflict in Heqr.
  - by apply renew_no_conflict in Heqr.
  - by apply resolve_no_conflict in Heqr.
  - by apply outcome_no_conflict in Heqr.
Qed.

(** C21: From a store that meets the schema every history leads to stores that meet it: one active
    attempt per message and per thread, attempts and observations numbered from one, a lease only
    on an active attempt, one resolution per decided attempt, every digest that of its text.  And
    no operation ever trips over a unique index of the database. *)
Theorem schema_is_kept w cs w' :
  well_formed (db w) → history w cs w' →
  well_formed (db w') ∧
  ∀ c w'', step w' c w'' → thrown c (db w') ≠ Some constraint_failed.
Proof.
  intros Hwf Hh. pose proof (wf_history _ _ _ Hh Hwf) as Hwf'. split; [done|].
  intros c w'' Hs. by eapply no_conflict.
Qed.

(** A store without attempts meets the schema. *)
Lemma wf_fresh ms ths rs hs ams : keyed m_id ms → well_formed (mkStore [] ms ths rs hs ams [] []).
Proof.
  intros Hk. split; cbn; try done; [|constructor|by intros d ?%not_elem_of_nil].
  split; cbn; try done; try constructor. by intros r ?%not_elem_of_nil.
Qed.

End Facts.

#[global] Arguments wf_step {_ _ _ _}.
#[global] Arguments wf_history {_ _ _ _}.
#[global] Arguments moves_tame {_}.
#[global] Arguments perform_aside {_ _ _ _}.
#[global] Arguments perform_turns {_ _ _ _}.
#[global] Arguments claim_inv {_ _ _}.
#[global] Arguments transition_inv {_}.
#[global] Arguments observe_inv {_}.
#[global] Arguments renew_inv {_}.
#[global] Arguments resolve_inv {_}.
#[global] Arguments outcome_inv {_}.

(** ** A small store

    One message of a ready handoff, on a thread bound to a conversation; the digest is the text
    itself and every text parses to an object of version 1. *)

Module Sample.
Definition digest (t : jsstr) : jsstr := t.
Definition parse (t : jsstr) : json_text := Some (JObj [(js "version", JNum 1)]).
Definition render (p : Prompt) : jsstr := "prompt".

Definition message : Message :=
  mkMessage "m" "t" 1 "h" "review" "{}" "{}" m_queued 1 0.
Definition thread : Thread :=
  mkThread "t" "r" 1 "w" (Some (js "ann")) (Some (js "p")) (Some 7%Z) (Some (js "url"))
    (Some (js "key")) (Some (js "print")) (Some 3%Z) (Some (js "bound")) "active".
Definition route : Route := mkRoute "r" 1 "active" "native_cdp" (Some (js "p")).
Definition db0 : store :=
  mkStore [] [message] [thread] [route] [mkHandoff "h" 1 "ready"] [] [] [].
Definition w0 : world := mkWorld db0 0.

Definition claim_input : ClaimInput := mkClaimInput "m" "p" 7 None.
Definition move (k token : jsstr) (n : NextStatus) : TransitionInput :=
  mkTransition k token "p" 7 n None.

(** The claim and the way of the prompt up to the boundary *)
Definition opening : list Call :=
  [Claim 0 "1" "1" claim_input;
   Transition 1 1 (move "rturn_1" "rlease_1" to_browser_ready);
   Transition 2 2 (move "rturn_1" "rlease_1" to_dispatching)].

Definition run (cs : list Call) (w : world) : world :=
  foldl (λ w c, mkWorld (perform digest parse js_ltb render c (db w)) (default (time w) (reading c)))
    w cs.

(** Whether every operation may be the next: the clock does not go back and ids are fresh. *)
Fixpoint legal (cs : list Call) (w : world) : bool :=
  match cs with
  | [] => true
  | c :: cs' =>
      match reading c with Some n => (time w <=? n)%Z | None => true end
      && match c with
         | Claim _ uuid _ _ => bool_decide (find_turn ("rturn_" +s uuid) (db w) = None)
         | OtherWrites _ _ _ _ _ => false
         | _ => true
         end
      && legal cs' (run [c] w)
  end.

Lemma legal_history cs : ∀ w,
  legal cs w = true → history digest parse js_ltb render w cs (run cs w).
Proof.
  induction cs as [|c cs IH]; intros w; cbn [legal]; [constructor|].
  rewrite !andb_true_iff. intros [[Ht Hc] Hl]. eapply history_cons; [|by apply IH].
  apply step_call.
  - intros n En. rewrite En in Ht. by apply Z.leb_le.
  - destruct c; try done. by apply bool_decide_eq_true in Hc.
Qed.

Lemma legal_step c w : legal [c] w = true → step digest parse js_ltb render w c (run [c] w).
Proof. intros H%legal_history. inversion H as [|? ? ? ? ? Hs Hn]; subst. by inversion Hn; subst. Qed.

Lemma wf0 : well_formed digest db0.
Proof. apply wf_fresh. cbn. by apply NoDup_singleton. Qed.

Lemma wf_run cs : legal cs w0 = true → well_formed digest (db (run cs w0)).
Proof. intros H. eapply wf_history; [by apply legal_history|apply wf0]. Qed.
End Sample.

Lemma schema_is_kept_witness :
  history Sample.digest Sample.parse js_ltb Sample.render Sample.w0 Sample.opening
    (Sample.run Sample.opening Sample.w0) ∧
  well_formed Sample.digest (db (Sample.run Sample.opening Sample.w0)).
Proof.
  assert (H : Sample.legal Sample.opening Sample.w0 = true) by (vm_compute; reflexivity).
  split; [exact (Sample.legal_history _ _ H)|].
  exact (proj1 (schema_is_kept Sample.digest Sample.parse js_ltb Sample.render Sample.w0 _ _ Sample.wf0
                  (Sample.legal_history _ _ H))).
Defined.

End ReviewerJobFacts.
