(* ===== verification/ReviewerLeases.v ===== *)
(** * Reviewer jobs: one attempt along a history

    What happens to an attempt whose lease is over, and what an attempt whose prompt may have been
    sent means for its thread. *)

From S2P Require Import Prelude JsString Json Sql ReviewerJobs ReviewerJobFacts.

Module ReviewerLeases.
Export ReviewerJobFacts.

Section Facts.
Context (sha256 : jsstr → jsstr) (parse : jsstr → json_text) (binaryLt : jsstr → jsstr → bool).
Context (render : Prompt → jsstr).

#[local] Abbreviation perform := (perform sha256 parse binaryLt render).
#[local] Abbreviation thrown := (thrown sha256 parse render).
#[local] Abbreviation step := (step sha256 parse binaryLt render).
#[local] Abbreviation history := (history sha256 parse binaryLt render).
#[local] Abbreviation claim := (claim sha256 parse render).
#[local] Abbreviation moves := (moves sha256).
#[local] Abbreviation well_formed := (well_formed sha256).

(** ** Following one attempt *)

Lemma find_turn_move w c w' k r :
  step w c w' → well_formed (db w) → find_turn k (db w) = Some r →
  ∃ r', find_turn k (db w') = Some r' ∧ moves (db w) c r r'.
Proof.
  intros Hs Hwf [Hin Hid]%find_turn_Some. pose proof (wf_step _ _ _ Hs Hwf) as Hwf'.
  destruct Hs as [c w _ _]. cbn in *.
  destruct (@perform_turns sha256 parse binaryLt render c (db w)) as (ts & new & Et & Hmoves & _); [apply Hwf|].
  destruct (Forall2_elem_l _ _ _ _ Hmoves Hin) as (r' & Hr' & Hm). exists r'. split; [|done].
  pose proof (tame_identity _ _ (moves_tame _ _ _ _ Hm)) as [Hi _]%identity_eq.
  rewrite <- Hid, <- Hi. apply keyed_by_key; [apply Hwf'|]. rewrite Et. apply elem_of_app. by left.
Qed.

Lemma step_time w c w' : step w c w' → (time w ≤ time w')%Z.
Proof.
  intros [c' w0 Ht _]. cbn. destruct (reading c') as [n|]; cbn; [by apply Ht|lia].
Qed.

Lemma history_time w cs w' : history w cs w' → (time w ≤ time w')%Z.
Proof. induction 1 as [|w1 c w2 cs w3 H%step_time _ IH]; lia. Qed.

(** ** Expired leases *)

(** The lease of the row is gone, or over by [now]. *)
Definition lease_over (now : Z) (r : Turn) : Prop :=
  ∀ x, leaseExpiresAt r = Some x → (x ≤ now)%Z.

(** An operation that acts under the lease of attempt [k] *)
Definition acts_under (k : jsstr) (c : Call) : bool :=
  match c with
  | Transition _ _ i => ti_attemptId i =s k
  | Observe _ i => pi_attemptId i =s k
  | Renew _ i => rn_attemptId i =s k
  | _ => false
  end.

Lemma lease_over_mono now now' r : (now ≤ now')%Z → lease_over now r → lease_over now' r.
Proof. intros Hle H x Hx%H. lia. Qed.

Lemma lease_over_unleased now st err r : lease_over now (set_unleased st err r).
Proof. by intros x [= ]. Qed.

Lemma lease_over_move s c r r' now :
  (∀ x, reading c = Some x → (now ≤ x)%Z) → moves s c r r' → lease_over now r → lease_over now r'.
Proof.
  intros Ht Hm Ho. destruct Hm as [| | |n i r Hr|n lim r| | | | | |]; try done.
  - unfold moved. intros x. destruct (gives_up _); [done|apply Ho].
  - unfold renewable in Hr. specialize (Ht n eq_refl).
    destruct (leaseExpiresAt r) as [x|] eqn:E; [|by rewrite !andb_false_r in Hr].
    specialize (Ho x E). guards. lia.
  - unfold set_reconciled. destruct (state r); apply lease_over_unleased.
Qed.

Lemma holds_lease_over now now' token profile generation r :
  (now ≤ now')%Z → lease_over now r → holds_lease sha256 now' token profile generation r = false.
Proof.
  intros Hle Ho. unfold holds_lease. destruct (leaseExpiresAt r) as [x|] eqn:E;
    [|by rewrite !andb_false_r].
  specialize (Ho x E). rewrite (proj2 (Z.ltb_ge now' x)) by lia. by rewrite !andb_false_r.
Qed.

(** A call under a lease that is over throws. *)
Lemma lease_over_refuses w c w' k r :
  step w c w' → well_formed (db w) → find_turn k (db w) = Some r → lease_over (time w) r →
  acts_under k c = true → is_Some (thrown c (db w)).
Proof.
  intros [c' w0 Ht _] Hwf Hf Ho Hk. pose proof Hf as [Hin Hid]%find_turn_Some.
  destruct c'; try done; cbn in Hk; apply js_eqb_eq in Hk; cbn.
  - destruct (transition _ _ _ _ _) as [[r' s']|] eqn:E; [|done].
    apply transition_inv in E as (row & Hrow & Hl & _).
    rewrite Hk in Hrow. simplify_eq. specialize (Ht now' eq_refl).
    rewrite (holds_lease_over (time w0)) in Hl; done.
  - destruct (recordPartialObservation _ _ _ _) as [[[n b] s']|] eqn:E; [|done].
    apply observe_inv in E as (row & Hrow & Hl & _).
    rewrite Hk in Hrow. simplify_eq. specialize (Ht now eq_refl).
    rewrite (holds_lease_over (time w0)) in Hl; done.
  - destruct (renewLease _ _ _ _) as [[x s']|] eqn:E; [|done].
    apply renew_inv in E as [_ (y & Hy & Hr)%update_where_changed].
    unfold renewable, has_id in Hr.
    destruct (leaseExpiresAt y) as [z|] eqn:Ez; [|by rewrite !andb_false_r in Hr]. guards.
    assert (y = r) as -> by (eapply same_id; [apply Hwf|done..|congruence]).
    specialize (Ht now eq_refl). specialize (Ho z Ez). lia.
Qed.

Lemma lease_over_history w cs w' :
  history w cs w' → ∀ k r, well_formed (db w) → find_turn k (db w) = Some r →
  lease_over (time w) r →
  ∃ r', find_turn k (db w') = Some r' ∧ lease_over (time w') r'.
Proof.
  induction 1 as [|w1 c w2 cs w3 Hs _ IH]; intros k r Hwf Hf Ho; [eauto|].
  destruct (find_turn_move _ _ _ _ _ Hs Hwf Hf) as (r' & Hf' & Hm).
  apply (IH k r'); [by eapply wf_step|done|].
  eapply lease_over_mono; [by eapply step_time|].
  eapply lease_over_move; [|done..]. by destruct Hs.
Qed.

(** ** A sent prompt *)

(** The boundary the dispatcher crosses before it sends the prompt has been passed, and nobody has
    decided the attempt yet. *)
Definition sent (r : Turn) : bool :=
  has_state [dispatching; prompt_accepted; model_generating; generation_finished;
             awaiting_feedback; uncertain] r.

(** The operations that may decide the attempt [r] of a message of handoff [h]: its holder gives it
    up or takes it back before the boundary, the reviewer resolves it, feedback or an answer for
    the handoff settles it, its thread or a route is superseded. *)
Definition decides (r : Turn) (h : jsstr) (c : Call) : bool :=
  match c with
  | Transition _ _ i =>
      (ti_attemptId i =s id r)
      && (gives_up (nextStatus i) || match nextStatus i with to_browser_ready => true | _ => false end)
  | Resolve _ i => ri_attemptId i =s id r
  | RecordOutcome _ i => to_attemptId i =s id r
  | SettleFeedback _ h' e | SettleAgentMessage _ h' e => (h' =s h) && Z.eqb e (routeEpoch r)
  | SupersedeThread t => t =s reviewThreadId r
  | SupersedeRoute _ _ _ => true
  | _ => false
  end.

Lemma sent_active r : sent r = true → is_active r = true.
Proof.
  unfold sent, is_active, has_state. by destruct (state r).
Qed.

(** The message of the attempt is of handoff [h]. *)
Definition belongs (s : store) (r : Turn) (h : jsstr) : Prop :=
  ∃ m, find_message (reviewMessageId r) s = Some m ∧ handoffId m = h.

Lemma settles_handoff e p s r h :
  settles e p s r = true → belongs s r h → keyed m_id (messages s) →
  routeEpoch r = e ∧ ∃ m, p m = true ∧ handoffId m = h.
Proof.
  unfold settles. intros Hs (m & Hm & <-) Hk.
  apply by_key_Some in Hm as [Hm Em].
  rewrite !andb_true_iff, Z.eqb_eq, bool_decide_eq_true in Hs. destruct Hs as [[He Hin] _].
  split; [done|]. apply elem_of_Lmap in Hin as (x & Ex & [Hx Hp]%elem_of_Lfilter).
  exists x. split; [done|]. by assert (x = m) as -> by (eapply (keyed_inj m_id); [done..|congruence]).
Qed.

Lemma sent_move s c r r' h :
  moves s c r r' → sent r = true → belongs s r h → keyed m_id (messages s) →
  decides r h c = false → sent r' = true.
Proof.
  intros Hm Hsent Hb Hk Hd.
  destruct Hm as [|n n' i r Hid _ _| | |n lim r _|n i err r Hid|n i err r Hid
                 |n h' e r Hs|n a e r Hs|t r Ht|n route e r]; try done; cbn in Hd.
  - rewrite Hid, js_eqb_refl in Hd. unfold moved, sent, has_state. by destruct (nextStatus i).
  - unfold set_reconciled, sent, has_state in *. by destruct (state r) eqn:E; cbn; rewrite ?E.
  - by rewrite Hid, js_eqb_refl in Hd.
  - by rewrite Hid, js_eqb_refl in Hd.
  - destruct (settles_handoff _ _ _ _ _ Hs Hb Hk) as [<- (m & <-%js_eqb_eq & Em)].
    by rewrite Em, js_eqb_refl, Z.eqb_refl in Hd.
  - destruct (settles_handoff _ _ _ _ _ Hs Hb Hk) as [<- (m & [<-%js_eqb_eq _]%andb_true_iff & Em)].
    by rewrite Em, js_eqb_refl, Z.eqb_refl in Hd.
  - by rewrite Ht, js_eqb_refl in Hd.
Qed.

Lemma moves_routeEpoch s c r r' : moves s c r r' → routeEpoch r' = routeEpoch r.
Proof.
  destruct 1; try done.
  - unfold moved. by destruct (gives_up _).
  - unfold set_reconciled. by destruct (state r).
Qed.

Lemma decides_move s c r r' h c' : moves s c r r' → decides r' h c' = decides r h c'.
Proof.
  intros Hm. pose proof (moves_routeEpoch _ _ _ _ Hm) as He.
  pose proof (tame_identity _ _ (moves_tame _ _ _ _ Hm)) as (Hi & _ & Ht & _)%identity_eq.
  unfold decides. by rewrite He, Hi, Ht.
Qed.

Lemma belongs_step w c w' r r' h :
  step w c w' → well_formed (db w) → moves (db w) c r r' → belongs (db w) r h →
  belongs (db w') r' h.
Proof.
  intros Hs Hwf Hm (m & [Hin Em]%by_key_Some & Eh).
  pose proof (tame_identity _ _ (moves_tame _ _ _ _ Hm)) as (_ & Hi & _)%identity_eq.
  pose proof (wf_step _ _ _ Hs Hwf) as Hwf'.
  assert (Hkeep : keeps_messages (messages (db w)) (messages (db w'))).
  { destruct Hs as [c w0 _ Hc]. cbn. apply perform_aside; [by destruct c|apply Hwf]. }
  destruct Hkeep as [Hk Hkeep]. destruct (Hkeep m Hin) as (m' & Hm' & Em' & _ & Eh').
  exists m'. split; [|congruence]. rewrite Hi, <- Em, <- Em'. by apply keyed_by_key.
Qed.

Lemma sent_history w cs w' :
  history w cs w' → ∀ k r h, well_formed (db w) → find_turn k (db w) = Some r → sent r = true →
  belongs (db w) r h → Forall (λ c, decides r h c = false) cs →
  ∃ r', find_turn k (db w') = Some r' ∧ sent r' = true ∧ reviewThreadId r' = reviewThreadId r.
Proof.
  induction 1 as [|w1 c w2 cs w3 Hs _ IH]; intros k r h Hwf Hf Hsent Hb HF; [eauto|].
  apply Forall_cons in HF as [Hd HF].
  destruct (find_turn_move _ _ _ _ _ Hs Hwf Hf) as (r' & Hf' & Hm).
  pose proof (tame_identity _ _ (moves_tame _ _ _ _ Hm)) as (_ & _ & Et & _)%identity_eq.
  destruct (IH k r' h) as (r'' & ? & ? & ?); eauto using wf_step, belongs_step.
  - eapply sent_move; eauto. apply Hwf.
  - eapply Forall_impl; [exact HF|]. intros c' Hc'. cbn. by rewrite (decides_move _ _ _ _ _ _ Hm).
  - exists r''. split_and!; congruence.
Qed.

(** While an attempt of a thread is active, no message of the thread is claimed. *)
Lemma active_bars_claim s r now uuid random i c s' :
  r ∈ turns s → is_active r = true → claim now uuid random i s = Ok (Some c, s') →
  c_reviewThreadId c ≠ reviewThreadId r.
Proof.
  intros Hin Ha Hc. apply (@claim_inv sha256 parse binaryLt render) in Hc as [[? _]|(m & th & route & pr & n & _ & Hact & _ & Ec & _)];
    [done|].
  injection Ec as ->. cbn. intros E. unfold getActiveForThread in Hact.
  rewrite get_where_None in Hact. specialize (Hact r Hin).
  rewrite (bool_decide_eq_true_2 _ (eq_sym E)), Ha in Hact. done.
Qed.

(** Once the lease of an attempt is over, no operation under it ever has an effect again: in
    every later history a transition, a renewal or an observation of the attempt throws, whatever
    token it presents. *)
Theorem expired_lease_never_acts w cs w' k r :
  well_formed (db w) → find_turn k (db w) = Some r → lease_over (time w) r → history w cs w' →
  ∀ c w'', step w' c w'' → acts_under k c = true → is_Some (thrown c (db w')).
Proof.
  intros Hwf Hf Ho Hh c w'' Hs Hc.
  destruct (lease_over_history _ _ _ Hh k r Hwf Hf Ho) as (r' & Hf' & Ho').
  eapply lease_over_refuses; [exact Hs| |exact Hf'|done|done]. by eapply wf_history.
Qed.

(** C8: From the moment a prompt may have been sent, and until somebody decides about the attempt,
    the attempt stays there and no message of its thread is claimed: expired leases, crashes and
    recovery never make the program send a second prompt into the conversation. *)
Theorem sent_prompt_bars_another w cs w' k r h :
  well_formed (db w) → find_turn k (db w) = Some r → sent r = true → belongs (db w) r h →
  Forall (λ c, decides r h c = false) cs → history w cs w' →
  (∃ r', find_turn k (db w') = Some r' ∧ sent r' = true) ∧
  ∀ now uuid random i c s',
    claim now uuid random i (db w') = Ok (Some c, s') → c_reviewThreadId c ≠ reviewThreadId r.
Proof.
  intros Hwf Hf Hsent Hb HF Hh.
  destruct (sent_history _ _ _ Hh k r h Hwf Hf Hsent Hb HF) as (r' & Hf' & Hs' & <-).
  split; [eauto|]. intros now uuid random i c s'. apply active_bars_claim.
  - by apply find_turn_Some in Hf' as [].
  - by apply sent_active.
Qed.

End Facts.

(** The lease of the opening lasts five minutes; the recovery after that leaves the attempt
    uncertain. *)
Definition lapse : list Call := Sample.opening ++ [Reconcile 300000 100].

Lemma expired_lease_never_acts_witness :
  let w := Sample.run lapse Sample.w0 in
  is_Some (thrown Sample.digest Sample.parse Sample.render
             (Transition 300001 300001 (Sample.move "rturn_1" "rlease_1" to_prompt_accepted)) (db w)).
Proof.
  intros w.
  assert (Hl : Sample.legal lapse Sample.w0 = true) by (vm_compute; reflexivity).
  assert (Hl' : Sample.legal [Transition 300001 300001
                  (Sample.move "rturn_1" "rlease_1" to_prompt_accepted)] w = true)
    by (vm_compute; reflexivity).
  destruct (find_turn "rturn_1" (db w)) as [r|] eqn:E; [|vm_compute in E; discriminate].
  eapply (expired_lease_never_acts Sample.digest Sample.parse js_ltb Sample.render w [] w _ r).
  - exact (Sample.wf_run _ Hl).
  - exact E.
  - vm_compute in E. injection E as <-. by intros x [= ].
  - constructor.
  - exact (Sample.legal_step _ _ Hl').
  - vm_compute. reflexivity.
Defined.

Lemma sent_prompt_bars_another_witness :
  let w := Sample.run Sample.opening Sample.w0 in
  ∃ r', find_turn "rturn_1" (db (Sample.run [Reconcile 300000 100] w)) = Some r' ∧ sent r' = true.
Proof.
  intros w.
  assert (Hl : Sample.legal Sample.opening Sample.w0 = true) by (vm_compute; reflexivity).
  destruct (find_turn "rturn_1" (db w)) as [r|] eqn:E; [|vm_compute in E; discriminate].
  refine (proj1 (sent_prompt_bars_another Sample.digest Sample.parse js_ltb Sample.render w
                   [Reconcile 300000 100] _ "rturn_1" r "h" (Sample.wf_run _ Hl) E _ _ _ _)).
  - vm_compute in E. injection E as <-. reflexivity.
  - vm_compute in E. injection E as <-. eexists. split; vm_compute; reflexivity.
  - by repeat constructor.
  - apply Sample.legal_history. vm_compute. reflexivity.
Defined.

End ReviewerLeases.
