(* ===== verification/ReviewerDecisions.v ===== *)
(** * Reviewer jobs: recovery and the reviewer's decisions

    The recovery loop of the dispatcher ends with nothing expired left; an uncertain attempt that
    the reviewer resolves lets its message be shown again; a terminal outcome is read back as it
    was recorded, and can be recorded against an attempt that was already given up. *)

From S2P Require Import Prelude JsString Json Sql ReviewerJobs ReviewerJobFacts.

Module ReviewerDecisions.
Export ReviewerJobFacts.

Section Facts.
Context (sha256 : jsstr → jsstr) (parse : jsstr → json_text) (binaryLt : jsstr → jsstr → bool).
Context (render : Prompt → jsstr).

#[local] Abbreviation perform := (perform sha256 parse binaryLt render).
#[local] Abbreviation thrown := (thrown sha256 parse render).
#[local] Abbreviation step := (step sha256 parse binaryLt render).
#[local] Abbreviation history := (history sha256 parse binaryLt render).
#[local] Abbreviation claim := (claim sha256 parse render).
#[local] Abbreviation moves := (moves sha256).
#[local] Abbreviation well_formed := (well_formed sha256).

(** ** The recovery loop *)

(** An update that takes the rows it changes out of [q] *)
Lemma count_update {A} (p q : A → bool) f (t : list A) :
  (∀ r, r ∈ t → p r = true → q r = true ∧ q (f r) = false) →
  length (List.filter q (update_where p f t).1) + length (List.filter p t)
    = length (List.filter q t).
Proof.
  unfold update_where; cbn. induction t as [|r t IH]; intros H; cbn; [done|].
  specialize (IH (λ x Hx, H x (list_elem_of_further _ _ _ Hx))).
  destruct (p r) eqn:Ep; cbn.
  - destruct (H r ltac:(by left) Ep) as [-> ->]. cbn. lia.
  - destruct (q r); cbn; lia.
Qed.

Definition has_expiry (r : Turn) : bool := bool_decide (is_Some (leaseExpiresAt r)).

(** The leases that are still recorded *)
Definition leases (s : store) : nat := length (List.filter has_expiry (turns s)).

Lemma set_reconciled_expiry r : leaseExpiresAt (set_reconciled r) = None.
Proof. unfold set_reconciled. by destruct (state r). Qed.

Lemma expired_has_expiry now r : expired now r = true → has_expiry r = true.
Proof. unfold expired, has_expiry. by destruct (leaseExpiresAt r). Qed.

Section Pass.
Context (now : Z) (s : store) (Hk : keyed id (turns s)).
Let rows := expired_rows binaryLt now 100 s.
Let chosen (r : Turn) : bool := bool_decide (id r ∈ List.map id rows).

Lemma chosen_expired r : r ∈ turns s → chosen r = true → r ∈ rows.
Proof using Hk.
  intros Hr (x & E & Hx)%bool_decide_eq_true%elem_of_Lmap.
  pose proof Hx as [Hin _]%expired_rows_elem. by assert (r = x) as -> by (by eapply same_id).
Qed.

(** A pass that selects a row leaves fewer leases. *)
Lemma pass_progress :
  rows ≠ [] → leases (reconcileExpiredAttempts binaryLt now 100 s).2 < leases s.
Proof using Hk.
  intros Hne. pose proof (reconcile_spec binaryLt now 100 s Hk) as H.
  destruct (reconcileExpiredAttempts _ _ _ _) as [c s']. destruct H as (Ht & _ & _).
  unfold leases. cbn [snd]. rewrite Ht. fold rows. fold chosen.
  rewrite <- (count_update chosen has_expiry set_reconciled (turns s)).
  - assert (∃ r, r ∈ rows) as [r Hin]
      by (destruct rows as [|r l]; [done|]; exists r; by left).
    assert (Hr : r ∈ List.filter chosen (turns s)).
    { apply elem_of_Lfilter. split; [by apply expired_rows_elem in Hin as []|].
      apply bool_decide_eq_true, elem_of_Lmap. eauto. }
    destruct (List.filter chosen (turns s)); [by apply not_elem_of_nil in Hr|]. cbn. lia.
  - intros r Hr Hc%chosen_expired; [|done]. apply expired_rows_elem in Hc as [_ He].
    split; [by eapply expired_has_expiry|]. unfold has_expiry. by rewrite set_reconciled_expiry.
Qed.

(** A pass that selects fewer rows than it may leaves nothing expired. *)
Lemma pass_complete :
  length rows ≠ 100 →
  ∀ r, r ∈ turns (reconcileExpiredAttempts binaryLt now 100 s).2 → expired now r = false.
Proof using Hk.
  intros Hlen r. pose proof (reconcile_spec binaryLt now 100 s Hk) as H.
  destruct (reconcileExpiredAttempts _ _ _ _) as [c s']. destruct H as (Ht & _ & _).
  cbn [snd]. rewrite Ht. fold rows. fold chosen.
  intros (x & Hx & ->)%elem_of_update_where. destruct (chosen x) eqn:E.
  - unfold expired. by rewrite set_reconciled_expiry.
  - destruct (expired now x) eqn:Ex; [|done].
    assert (x ∈ rows) as Hin; [|unfold chosen in E; apply bool_decide_eq_false in E;
                                destruct E; apply elem_of_Lmap; eauto].
    unfold rows, expired_rows, limit in Hlen |- *. rewrite length_take in Hlen.
    change (Z.to_nat (Z.max 1 (Z.min 100 500))) with 100 in *.
    rewrite take_ge by lia. by apply elem_of_order_by, elem_of_Lfilter.
Qed.
End Pass.

Lemma reconcile_keyed now lim s :
  keyed id (turns s) → keyed id (turns (reconcileExpiredAttempts binaryLt now lim s).2).
Proof.
  intros Hk. pose proof (reconcile_spec binaryLt now lim s Hk) as H.
  destruct (reconcileExpiredAttempts _ _ _ _) as [c s']. destruct H as (Ht & _ & _).
  cbn [snd]. rewrite Ht. apply keyed_update; [apply set_reconciled_key|done].
Qed.

Lemma recover_all_returns clock stopped : ∀ fuel i s,
  well_formed s → leases s < fuel →
  ∃ k s', recover_all binaryLt fuel clock stopped i s = Some (k, s') ∧ well_formed s' ∧
    (stopped k = false → ∀ r, r ∈ turns s' → expired (clock k) r = false).
Proof.
  induction fuel as [|fuel IH]; intros i s Hwf Hlt; [lia|]. cbn [recover_all].
  pose proof (at_ids _ _ (wf_attempts _ _ Hwf)) as Hk.
  pose proof (pass_progress (clock i) s Hk) as Hp.
  pose proof (pass_complete (clock i) s Hk) as Hc.
  pose proof (@wf_perform sha256 parse binaryLt render (Reconcile (clock i) 100) s Hwf I) as Hwf'.
  pose proof (reconcile_spec binaryLt (clock i) 100 s Hk) as Hs.
  cbn in Hwf'. destruct (reconcileExpiredAttempts _ _ _ _) as [c s']. cbn [snd] in *.
  destruct Hs as (_ & Htot & _).
  destruct (negb (stopped i) && (recovered_total c =? 100)) eqn:E.
  - apply IH; [done|]. apply andb_true_iff in E as [_ E%Nat.eqb_eq]. rewrite Htot in E.
    assert (Hne : expired_rows binaryLt (clock i) 100 s ≠ []) by (intros E'; by rewrite E' in E).
    specialize (Hp Hne). lia.
  - exists i, s'. split; [done|]. split; [done|]. intros Hst. apply Hc.
    rewrite Hst, Htot in E. by apply Nat.eqb_neq in E.
Qed.

(** C33: The recovery loop the dispatcher starts with, its passes run back to back, always ends, after
    at most as many passes as there are leases, and, unless the dispatcher is stopped meanwhile, no attempt is left whose
    lease had expired at the last pass. *)
Theorem recovery_loop_settles clock stopped s :
  well_formed s →
  ∃ k s', recover_all binaryLt (S (leases s)) clock stopped 0 s = Some (k, s') ∧ well_formed s' ∧
    (stopped k = false → ∀ r, r ∈ turns s' → expired (clock k) r = false).
Proof. intros Hwf. apply recover_all_returns; [done|lia]. Qed.

(** ** A resolved attempt *)

Lemma claim_source_status m m' th route s s' :
  m_kind m' = m_kind m → handoffId m' = handoffId m → payloadJson m' = payloadJson m →
  payloadSha256 m' = payloadSha256 m → handoffs s' = handoffs s →
  agentMessages s' = agentMessages s →
  claim_source sha256 parse m' th route s' = claim_source sha256 parse m th route s.
Proof.
  intros Ek Eh Ep Ed Es Ea. unfold claim_source, read_consultation, find_agent_message.
  by rewrite Ek, Eh, Ep, Ed, Es, Ea.
Qed.

(** When nothing stands in its way a claim succeeds. *)
Lemma claim_succeeds now uuid random i s m thread route c packet safe :
  well_formed s → claim_context i s = Some (m, thread, route) →
  claim_source sha256 parse m thread route s = Ok (Some c) →
  getActiveForThread (t_id thread) s = None → find_turn ("rturn_" +s uuid) s = None →
  read_packet sha256 parse m = Ok packet → safe_packet packet = Ok safe →
  ∃ s', claim now uuid random i s =
    Ok (Some (claim_result sha256 now ("rturn_" +s uuid) ("rlease_" +s random)
                (render (prompt_of m (t_id thread) ("rturn_" +s uuid) c safe))
                (max_attempt (m_id m) s + 1) i m thread route), s').
Proof.
  intros Hwf Hc Hs Ha Hfresh Hp Hsafe. unfold ReviewerJobs.claim.
  rewrite Hc, Hs. cbn [mbind res_bind]. rewrite Ha, Hp. cbn [mbind res_bind]. rewrite Hsafe.
  cbn [mbind res_bind]. rewrite (update_where_split (λ x, _) _ _).
  apply claim_context_Some in Hc as (Hm & Hq & [_ Ht]%by_key_Some & _).
  pose proof Hm as [Hin Hid]%by_key_Some.
  rewrite (changes_keyed m_id _ _ _ (m_id m));
    [|apply Hwf|intros x Hx; unfold message_id in Hx; by guards].
  rewrite Hid. unfold find_message in Hm. rewrite Hm.
  unfold message_id, message_in. rewrite Hid, bool_decide_eq_true_2, Z.eqb_refl by done.
  rewrite (bool_decide_eq_true_2 (m_status m ∈ _)) by (rewrite Hq; left). cbn [andb negb Nat.eqb].
  unfold insert_turn. rewrite <- Hid.
  rewrite (new_turn_no_conflict sha256 s m thread); try done. eexists. reflexivity.
Qed.

(** A decision closes the only active attempt of its thread. *)
Lemma decision_frees_thread s now from st err changed ms attempt m rec s' :
  well_formed s → decide_attempt now from st err changed ms attempt m rec s = Ok s' →
  attempt ∈ turns s → is_active attempt = true → is_active (set_unleased st (Some err) attempt) = false →
  getActiveForThread (reviewThreadId attempt) s' = None.
Proof.
  intros Hwf Hd Hin Ha Hst. pose proof (decided_turns _ _ _ _ _ _ _ _ _ _ _ Hd) as Et.
  apply decide_attempt_inv in Hd as (_ & (y & Hy & Hdy)%update_where_changed & _).
  pose proof Hdy as [Ey _]%decided_row_spec.
  assert (y = attempt) as -> by (eapply same_id; [apply Hwf|done..]).
  apply get_where_None. rewrite Et. intros r (x & Hx & ->)%elem_of_update_where.
  destruct (decided_row now from attempt x) eqn:Ex.
  - apply andb_false_iff. right. exact Hst.
  - apply andb_false_iff. destruct (is_active x) eqn:Eax; [left|by right].
    apply bool_decide_eq_false. intros Eth.
    assert (x = attempt) as ->; [|congruence].
    apply (NoDup_map_inj_on reviewThreadId (List.filter is_active (turns s))); try done;
      [apply Hwf|by apply elem_of_Lfilter..].
Qed.

(** The message is still to be shown, its packet readable, and the thread served by generation [g]
    of the browser. *)
Definition showable (m : Message) (thread : Thread) (route : Route) (g : Z) (s : store) : Prop :=
  (∃ c packet safe, claim_source sha256 parse m thread route s = Ok (Some c) ∧
     read_packet sha256 parse m = Ok packet ∧ safe_packet packet = Ok safe) ∧
  t_browserGeneration thread = Some g ∧
  truthy (conversationUrl thread) = true ∧ truthy (conversationKey thread) = true ∧
  truthy (t_conversationFingerprint thread) = true ∧
  truthyZ (conversationBindingRevision thread) = true.

Lemma unresolved_claim_context s s' epoch attempt thread route m g now leaseMs :
  unresolved epoch attempt thread route m = true → showable m thread route g s →
  find_message (m_id m) s' = Some (set_status m_queued now m) →
  find_thread (threadId m) s' = Some thread → find_route (routeId thread) s' = Some route →
  claim_context (mkClaimInput (m_id m) (profileId attempt) g leaseMs) s'
    = Some (set_status m_queued now m, thread, route).
Proof.
  unfold unresolved, showable. intros Hu (_ & Hg & Hurl & Hkey & Hfp & Hrev) Hm Ht Hr. guards.
  unfold claim_context. cbn [ci_messageId]. rewrite Hm. cbn [mbind option_bind].
  cbn. rewrite Ht. cbn. rewrite Hr. cbn.
  unfold message_in, claim_route_ok; cbn. simplify_eq.
  rewrite !bool_decide_eq_true_2 by (done || by left). rewrite Hurl, Hkey, Hfp, Hrev.
  repeat match goal with H : ?x = ?y |- context [(?x =s ?y)] => rewrite (proj2 (js_eqb_eq x y) H) end.
  replace (r_routeEpoch route) with (m_routeEpoch m) by congruence.
  replace (t_routeEpoch thread) with (m_routeEpoch m) by congruence.
  by rewrite Z.eqb_refl.
Qed.

(** What a decision leaves for a later claim: the other tables, the message in its new state, the
    numbers of the attempts. *)
Lemma decision_leaves s now from st err changed ms attempt m rec s' :
  well_formed s → m ∈ messages s →
  decide_attempt now from st err changed ms attempt m rec s = Ok s' →
  find_message (m_id m) s' = Some (set_status ms now m) ∧
  threads s' = threads s ∧ routes s' = routes s ∧ handoffs s' = handoffs s ∧
  agentMessages s' = agentMessages s ∧
  (∀ k, find_turn k s = None → find_turn k s' = None).
Proof.
  intros Hwf Hin (_ & _ & (x & Hx & Hu)%update_where_changed & ->)%decide_attempt_inv.
  split; [|split_and!; try done].
  - assert (x = m) as ->.
    { unfold unresolved_message, message_id in Hu. guards.
      by eapply (keyed_inj m_id); [apply Hwf|..]. }
    unfold find_message. cbn -[update_where].
    apply by_key_update_hit; [done| |done]. by apply keyed_by_key; [apply Hwf|].
  - intros k Hk. unfold find_turn in *. cbn -[update_where]. rewrite by_key_update; [|done].
    by rewrite Hk.
Qed.

Lemma max_attempt_perform c s k :
  well_formed s → match c with Claim _ _ _ _ | OtherWrites _ _ _ _ _ => False | _ => True end →
  max_attempt k (perform c s) = max_attempt k s.
Proof.
  intros Hwf Hc.
  assert (Hwf' : well_formed (perform c s)) by (apply wf_perform; [done|by destruct c]).
  rewrite (max_attempt_numbered _ _ (at_numbers _ _ (wf_attempts _ _ Hwf) k)),
    (max_attempt_numbered _ _ (at_numbers _ _ (wf_attempts _ _ Hwf') k)). f_equal.
  destruct (@perform_turns sha256 parse binaryLt render c s) as (ts & new & Et & Hm & Hnew); [apply Hwf|].
  destruct Hnew as [->|(? & ? & ? & ? & ? & ? & ? & ? & ? & -> & _)]; [|done].
  rewrite app_nil_r in Et. rewrite Et.
  rewrite <- (List.length_map attemptNumber), <- (List.length_map attemptNumber (List.filter _ (turns s))).
  f_equal. apply tame_filter.
  - unfold of_message. by intros r r' (_ & -> & _ & ->)%identity_eq.
  - eapply Forall2_impl; [exact Hm|]. apply moves_tame.
Qed.

(** After the reviewer has confirmed that the prompt of an uncertain attempt is not in the
    conversation, the message can be claimed again at once, as long as it is still to be shown and
    its packet is readable: the claim succeeds and makes a new attempt of the same message, for the
    same conversation, under the next number. *)
Theorem resolved_attempt_is_retried now i s k rev dig s' attempt thread route m g leaseMs now'
    uuid random :
  well_formed s → resolveUncertainAttemptForRetry sha256 now i s = Ok ((k, rev, dig), s') →
  find_turn (ri_attemptId i) s = Some attempt →
  find_thread (reviewThreadId attempt) s = Some thread →
  find_route (routeId thread) s = Some route →
  find_message (reviewMessageId attempt) s = Some m →
  showable m thread route g s → find_turn ("rturn_" +s uuid) s = None →
  ∃ cl s'', claim now' uuid random (mkClaimInput k (profileId attempt) g leaseMs) s'
      = Ok (Some cl, s'') ∧
    c_messageId cl = reviewMessageId attempt ∧ c_reviewThreadId cl = reviewThreadId attempt ∧
    c_conversationFingerprint cl = conversationFingerprint attempt ∧
    c_attemptNumber cl = (max_attempt (reviewMessageId attempt) s + 1)%Z.
Proof.
  intros Hwf Hr Ha Ht Hro Hm Hshow Hfresh.
  pose proof (@wf_perform sha256 parse binaryLt render (Resolve now i) s Hwf I) as Hwf'.
  cbn in Hwf'. rewrite Hr in Hwf'.
  pose proof (max_attempt_perform (Resolve now i) s (reviewMessageId attempt) Hwf I) as Hmax.
  cbn in Hmax. rewrite Hr in Hmax.
  apply resolve_inv in Hr as (a' & th' & ro' & m' & ? & Hst & ? & ? & Hm' & Hu & E & Hd).
  simplify_eq. pose proof Hm' as [Hin Hid]%by_key_Some.
  destruct (decision_leaves _ _ _ _ _ _ _ _ _ _ _ Hwf Hin Hd) as (Hm2 & Et & Er & Eh & Ea & Hf).
  assert (Hth : t_id th' = reviewThreadId a') by (by apply by_key_Some in H0 as []).
  assert (Hc : claim_context (mkClaimInput (m_id m') (profileId a') g leaseMs) s'
               = Some (set_status m_queued now m', th', ro')).
  { eapply unresolved_claim_context; [exact Hu|exact Hshow|exact Hm2| |].
    - unfold find_thread. rewrite Et. replace (threadId m') with (reviewThreadId a'); [done|].
      unfold unresolved in Hu. guards. congruence.
    - unfold find_route. by rewrite Er. }
  destruct Hshow as ((c & packet & safe & Hs & Hp & Hsafe) & _).
  destruct (claim_succeeds now' uuid random _ _ _ _ _ c packet safe Hwf' Hc) as (s'' & Hcl); try done.
  - rewrite <- Hs. by apply claim_source_status.
  - rewrite Hth. eapply decision_frees_thread; [exact Hwf|exact Hd| | |done].
    + by apply find_turn_Some in H as [].
    + unfold is_active, has_state. by rewrite Hst.
  - by apply Hf.
  - eexists _, s''. split; [exact Hcl|]. cbn. split_and!; try congruence.
    unfold unresolved in Hu. guards. by match goal with E : t_conversationFingerprint _ = _ |- _ => rewrite E end.
Qed.

(** ** Terminal outcomes *)

(** The appended row comes first when every other row comes after it. *)
Lemma first_by_last {A} (le : A → A → bool) l b :
  (∀ a, a ∈ l → le a b = false) → first_by le (l ++ [b]) = Some b.
Proof.
  unfold first_by, order_by. rewrite foldr_app. induction l as [|a l IH]; intros H; [done|].
  cbn [foldr]. specialize (IH (λ x Hx, H x (list_elem_of_further _ _ _ Hx))). cbn [foldr] in IH.
  destruct (foldr _ _ l) as [|c t]; [done|]. injection IH as ->.
  cbn. by rewrite (H a) by left.
Qed.

(** A terminal outcome is read back as it was recorded: the attempt, the reason, the evidence's
    digest and the latest partial text, with the reviewer who declared it and the attempt failed. *)
Theorem outcome_reads_back now i s o s' :
  well_formed s → recordTerminalOutcome sha256 now i s = Ok (o, s') →
  (∀ d, d ∈ resolutions s → (res_createdAt d < now)%Z) →
  ∃ rec, getTerminalOutcome binaryLt (to_reviewThreadId i) s' = Some rec ∧
    or_outcome rec = o ∧ or_reviewerPrincipalId rec = to_reviewerPrincipalId i ∧
    or_routeEpoch rec = to_routeEpoch i ∧ or_createdAt rec = now ∧ or_attemptState rec = failed ∧
    or_attemptErrorCode rec = Some (js "reviewer_unrecoverable").
Proof.
  intros Hwf Hr Hold.
  apply outcome_inv in Hr as (attempt & th & m & Hf & Hs & Ht & Hth & -> & Hd).
  pose proof Hf as [Hin Hid]%find_turn_Some.
  apply by_key_Some in Ht as [_ Ht].
  apply decide_attempt_inv in Hd as (_ & (y & Hy & Hdy)%update_where_changed & _ & ->).
  pose proof Hdy as [Ey _]%decided_row_spec.
  assert (y = attempt) as -> by (eapply same_id; [apply Hwf|done..]).
  set (d := outcome_resolution sha256 now i attempt th) in *.
  match goal with |- context [getTerminalOutcome _ _ ?x] => set (s' := x) end.
  assert (Hrow : find_turn (id attempt) s'
                 = Some (set_unleased failed (Some (js "reviewer_unrecoverable")) attempt)).
  { unfold find_turn. cbn -[update_where]. apply by_key_update_hit; [done| |done].
    by apply keyed_by_key; [apply Hwf|]. }
  assert (Hres : resolutions s' = resolutions s ++ [d]) by done.
  assert (Hpar : latest_partial (id attempt) s' = latest_partial (id attempt) s) by done.
  assert (Hd : res_reviewThreadId d = to_reviewThreadId i) by (cbn; congruence).
  clearbody s'.
  assert (Hfirst : first_by (le_latest binaryLt) (outcome_rows (to_reviewThreadId i) s') =
            Some (d, set_unleased failed (Some (js "reviewer_unrecoverable")) attempt)).
  { unfold outcome_rows, select_where. rewrite Hres, List.filter_app, omap_app. cbn [List.filter].
    rewrite (bool_decide_eq_true_2 _ Hd), (bool_decide_eq_true_2 (resolution d = _)) by done.
    cbn. rewrite Hrow. apply first_by_last.
    intros a (r & [Hr _]%elem_of_Lfilter & Ha)%list_elem_of_omap.
    destruct (find_turn (attemptId r) s') as [t|]; [|done]. injection Ha as <-.
    specialize (Hold r Hr). unfold le_latest. cbn.
    rewrite (proj2 (Z.ltb_ge _ _)), (proj2 (Z.eqb_neq _ _)) by lia. done. }
  unfold getTerminalOutcome. rewrite Hfirst. cbn [mbind option_bind].
  eexists. split; [reflexivity|]. cbn -[latest_partial]. by rewrite Hpar.
Qed.

End Facts.

(** ** Witnesses and behaviour that contradicts the code's intent *)

(** The opening, and the recovery that leaves its attempt uncertain *)
Definition stranded : list Call := Sample.opening ++ [Reconcile 300000 100].
Definition stranded_store : store := db (Sample.run stranded Sample.w0).

Lemma stranded_wf : well_formed Sample.digest stranded_store.
Proof. apply Sample.wf_run. vm_compute. reflexivity. Qed.

Lemma recovery_loop_settles_witness :
  ∃ k s', recover_all js_ltb (S (leases stranded_store)) (λ i, Z.of_nat i) (λ _, false) 0
            stranded_store = Some (k, s') ∧ well_formed Sample.digest s' ∧
    (false = false → ∀ r, r ∈ turns s' → expired (Z.of_nat k) r = false).
Proof.
  exact (recovery_loop_settles Sample.digest Sample.parse js_ltb Sample.render (λ i, Z.of_nat i)
           (λ _, false) stranded_store stranded_wf).
Defined.

Definition inspection : jsstr := "no prompt in the page".

Lemma resolved_attempt_is_retried_witness :
  ∃ s', resolveUncertainAttemptForRetry Sample.digest 300001
          (mkResolve "rturn_1" "t" 1 "ann" true inspection) stranded_store
        = Ok ((js "m", 3%Z, inspection), s') ∧
  ∃ cl s'', claim Sample.digest Sample.parse Sample.render 300002 "2" "2"
              (mkClaimInput "m" "p" 7 None) s' = Ok (Some cl, s'') ∧
    c_attemptNumber cl = 2%Z.
Proof.
  destruct (resolveUncertainAttemptForRetry Sample.digest 300001
              (mkResolve "rturn_1" "t" 1 "ann" true inspection) stranded_store)
    as [[[[k rev] dig] s']|e] eqn:E; [|vm_compute in E; discriminate].
  destruct (find_turn "rturn_1" stranded_store) as [r|] eqn:Er; [|vm_compute in Er; discriminate].
  destruct (find_message "m" stranded_store) as [m|] eqn:Em; [|vm_compute in Em; discriminate].
  assert (Ek : k = js "m" ∧ rev = 3%Z ∧ dig = inspection).
  { vm_compute in E. injection E as <- <- <- _. repeat split; reflexivity. }
  assert (Ep : reviewMessageId r = js "m" ∧ profileId r = js "p").
  { vm_compute in Er. injection Er as <-. split; reflexivity. }
  destruct Ek as (-> & -> & ->). destruct Ep as [Emr Ep].
  exists s'. split; [reflexivity|].
  destruct (resolved_attempt_is_retried Sample.digest Sample.parse js_ltb Sample.render 300001
              _ stranded_store _ _ _ s' r Sample.thread Sample.route m 7 None 300002 "2" "2"
              stranded_wf E) as (cl & s'' & Hc & _ & _ & _ & Hn).
  - exact Er.
  - vm_compute in Er. injection Er as <-. reflexivity.
  - reflexivity.
  - rewrite Emr. exact Em.
  - vm_compute in Em. injection Em as <-. repeat split. eexists None, _, _.
    split; [reflexivity|]. split; reflexivity.
  - reflexivity.
  - rewrite Ep in Hc. exists cl, s''. split; [exact Hc|]. rewrite Hn, Emr. reflexivity.
Defined.

Definition outcome_input (k : jsstr) : TerminalOutcomeInput :=
  mkTerminalInput k "t" 1 "ann" "reviewer_gone" inspection.

Lemma outcome_reads_back_witness :
  ∃ o s' rec, recordTerminalOutcome Sample.digest 300001 (outcome_input "rturn_1") stranded_store
              = Ok (o, s') ∧
    getTerminalOutcome js_ltb "t" s' = Some rec ∧ or_outcome rec = o.
Proof.
  destruct (recordTerminalOutcome Sample.digest 300001 (outcome_input "rturn_1") stranded_store)
    as [[o s']|e] eqn:E; [|vm_compute in E; discriminate].
  destruct (outcome_reads_back Sample.digest js_ltb 300001 _ stranded_store o s' stranded_wf E)
    as (rec & Hrec & Ho & _).
  - intros d Hd. apply not_elem_of_nil in Hd. destruct Hd.
  - exists o, s', rec. split; [reflexivity|]. split; [exact Hrec|exact Ho].
Defined.

(** An attempt given up before its prompt was sent, and a second one whose prompt has been sent *)
Definition second_attempt : list Call :=
  [Claim 0 "1" "1" Sample.claim_input;
   Transition 1 1 (Sample.move "rturn_1" "rlease_1" to_blocked_browser);
   Claim 2 "2" "2" Sample.claim_input;
   Transition 3 3 (Sample.move "rturn_2" "rlease_2" to_browser_ready);
   Transition 4 4 (Sample.move "rturn_2" "rlease_2" to_dispatching)].

(** A terminal outcome can be recorded against an attempt that was given up long ago while a
    later attempt of the same message holds a live lease and has sent its prompt: the guard on live
    leases looks at the old attempt only, and the message fails under the live one. *)
Theorem stale_attempt_fails_live_message :
  let w := Sample.run second_attempt Sample.w0 in
  let c := RecordOutcome 5 (outcome_input "rturn_1") in
  let w' := Sample.run [c] w in
  history Sample.digest Sample.parse js_ltb Sample.render Sample.w0 second_attempt w ∧
  thrown Sample.digest Sample.parse Sample.render c (db w) = None ∧
  (∃ r, find_turn "rturn_2" (db w') = Some r ∧ state r = dispatching ∧
        leaseExpiresAt r = Some 300002%Z) ∧
  m_status <$> find_message "m" (db w) = Some m_presenting ∧
  m_status <$> find_message "m" (db w') = Some m_failed.
Proof.
  split; [apply Sample.legal_history; vm_compute; reflexivity|].
  split; [vm_compute; reflexivity|]. split; [eexists; vm_compute; eauto|].
  split; vm_compute; reflexivity.
Qed.

(** A submitted prompt cannot be given up at once, but it can be after a step back. *)
Lemma submitted_prompt_given_up_in_two_steps :
  let w := Sample.run (Sample.opening ++
             [Transition 3 3 (Sample.move "rturn_1" "rlease_1" to_prompt_accepted)]) Sample.w0 in
  let back := Transition 4 4 (Sample.move "rturn_1" "rlease_1" to_browser_ready) in
  let abandon := Transition 5 5 (Sample.move "rturn_1" "rlease_1" to_failed) in
  thrown Sample.digest Sample.parse Sample.render abandon (db w) = Some prompt_submitted ∧
  state <$> find_turn "rturn_1" (db (Sample.run [back; abandon] w)) = Some failed.
Proof. split; vm_compute; reflexivity. Qed.

End ReviewerDecisions.
