(* ===== verification/Regex.v ===== *)
(** * Regular expressions

    The regular expressions of the program and their backtracking matcher, as ECMA-262 runs it: a
    matcher takes the place where it starts and the continuation that has to succeed after it, a
    greedy repetition first tries one more iteration, an iteration that consumed nothing fails.
    [match_iff] ties the matcher to the declarative relation [matches]. *)

From S2P Require Import Prelude JsString.

Module Regex.

Inductive re :=
| Chr (p : N → bool)
| Eps
| Seq (a b : re)
| Alt (a b : re)
| Star (a : re)
| Start
| End_
| Boundary
| Cap (a : re).

(** A place in the input: the unit before it, the units after it, and the text of the last capture
    on the way there. *)
Record place := mkPlace { before : option N; rest : jsstr; captured : option jsstr }.

(** [\w] *)
Definition is_word (c : N) : bool :=
  ((48 <=? c) && (c <=? 57) || (65 <=? c) && (c <=? 90) || (97 <=? c) && (c <=? 122) || (c =? 95))%N.

Definition wordy (o : option N) : bool := match o with Some c => is_word c | None => false end.

Definition at_boundary (s : place) : bool := xorb (wordy (before s)) (wordy (head (rest s))).

Definition nothing_before (s : place) : bool := match before s with None => true | Some _ => false end.
Definition nothing_after (s : place) : bool := match rest s with [] => true | _ => false end.

(** The text between two places. *)
Definition between (s s' : place) : jsstr := take (length (rest s) - length (rest s')) (rest s).

Definition set_captured (t : jsstr) (s : place) : place := mkPlace (before s) (rest s) (Some t).

Definition advances (s s' : place) : bool := (length (rest s') <? length (rest s))%nat.
#[global] Arguments advances : simpl never.

(** A greedy repetition; [n] bounds its iterations, each of which consumes a unit. *)
Fixpoint greedy (body : place → (place → option place) → option place) (k : place → option place)
  (n : nat) (s : place) : option place :=
  match n with
  | O => k s
  | S n' =>
      match body s (λ s', if advances s s' then greedy body k n' s' else None) with
      | Some r => Some r
      | None => k s
      end
  end.

Fixpoint run (r : re) (s : place) (k : place → option place) : option place :=
  match r with
  | Chr p =>
      match rest s with
      | c :: t => if p c then k (mkPlace (Some c) t (captured s)) else None
      | [] => None
      end
  | Eps => k s
  | Seq a b => run a s (λ s', run b s' k)
  | Alt a b => match run a s k with Some x => Some x | None => run b s k end
  | Star a => greedy (run a) k (length (rest s)) s
  | Start => if nothing_before s then k s else None
  | End_ => if nothing_after s then k s else None
  | Boundary => if at_boundary s then k s else None
  | Cap a => run a s (λ s', k (set_captured (between s s') s'))
  end.

(** The match of [r] at a place: where it ends. *)
Definition match_at (r : re) (s : place) : option place := run r s Some.

(** [r+], [r?] *)
Definition Plus (r : re) : re := Seq r (Star r).
Definition Opt (r : re) : re := Alt r Eps.

(** The literal text, and its match under the [i] flag *)
Fixpoint lit (s : jsstr) : re :=
  match s with [] => Eps | c :: t => Seq (Chr (N.eqb c)) (lit t) end.

Definition swap_case (c : N) : N :=
  if ((65 <=? c) && (c <=? 90))%N then (c + 32)%N
  else if ((97 <=? c) && (c <=? 122))%N then (c - 32)%N else c.

(** A class of ASCII units under the [i] flag: no other unit has an ASCII upper case. *)
Definition ci (p : N → bool) (c : N) : bool := p c || p (swap_case c).

Fixpoint lit_i (s : jsstr) : re :=
  match s with [] => Eps | c :: t => Seq (Chr (ci (N.eqb c))) (lit_i t) end.

Definition one_of (s : jsstr) (c : N) : bool := existsb (N.eqb c) s.

Definition alternatives (rs : list re) : re :=
  match rs with [] => Eps | r :: rest => foldl Alt r rest end.

(** [r.test(text)] *)
Fixpoint test_from (r : re) (prev : option N) (text : jsstr) : bool :=
  match match_at r (mkPlace prev text None) with
  | Some _ => true
  | None => match text with [] => false | c :: t => test_from r (Some c) t end
  end.

Definition test (r : re) (text : jsstr) : bool := test_from r None text.

(** [text.replace(/r/g, f)]: [f] is given the match and the capture; [skip] counts the units of
    the last match that are still to be passed over. *)
Fixpoint replace_from (r : re) (f : jsstr → option jsstr → jsstr) (skip : nat) (prev : option N)
  (text : jsstr) : jsstr :=
  match text with
  | [] =>
      match skip, match_at r (mkPlace prev [] None) with
      | O, Some s' => f [] (captured s')
      | _, _ => []
      end
  | c :: t =>
      match skip with
      | S n => replace_from r f n (Some c) t
      | O =>
          match match_at r (mkPlace prev text None) with
          | Some s' =>
              let m := between (mkPlace prev text None) s' in
              f m (captured s')
                ++ match length m with
                   | O => c :: replace_from r f O (Some c) t
                   | S n => replace_from r f n (Some c) t
                   end
          | None => c :: replace_from r f O (Some c) t
          end
      end
  end.

Definition replace_all (r : re) (f : jsstr → option jsstr → jsstr) (text : jsstr) : jsstr :=
  replace_from r f 0 None text.

(** ** What the expressions denote *)

Inductive matches : re → place → place → Prop :=
| m_chr p b c t cap : p c = true → matches (Chr p) (mkPlace b (c :: t) cap) (mkPlace (Some c) t cap)
| m_eps s : matches Eps s s
| m_seq a b s s1 s2 : matches a s s1 → matches b s1 s2 → matches (Seq a b) s s2
| m_left a b s s' : matches a s s' → matches (Alt a b) s s'
| m_right a b s s' : matches b s s' → matches (Alt a b) s s'
| m_stop a s : matches (Star a) s s
| m_more a s s1 s2 :
    matches a s s1 → advances s s1 = true → matches (Star a) s1 s2 → matches (Star a) s s2
| m_start s : nothing_before s = true → matches Start s s
| m_end s : nothing_after s = true → matches End_ s s
| m_boundary s : at_boundary s = true → matches Boundary s s
| m_cap a s s' : matches a s s' → matches (Cap a) s (set_captured (between s s') s').

Lemma rest_shrinks r s s' : matches r s s' → (length (rest s') ≤ length (rest s))%nat.
Proof.
  induction 1; cbn in *; try lia.
Qed.

Lemma greedy_sound a k n s x :
  (∀ s k x, run a s k = Some x → ∃ s', matches a s s' ∧ k s' = Some x) →
  greedy (run a) k n s = Some x → ∃ s', matches (Star a) s s' ∧ k s' = Some x.
Proof.
  intros Ha. revert s. induction n as [|n IH]; intros s; cbn; [eauto using matches|].
  destruct (run a s _) as [y|] eqn:E; [|eauto using matches].
  intros [= <-]. apply Ha in E as (s1 & H1 & E). cbn in E. destruct (advances s s1) eqn:A; [|done].
  apply IH in E as (s2 & H2 & E). eexists; split; [|done]. by eapply m_more.
Qed.

(** Every match the matcher finds is one of the relation. *)
Lemma run_sound r s k x : run r s k = Some x → ∃ s', matches r s s' ∧ k s' = Some x.
Proof.
  revert s k x. induction r; intros s k x; cbn.
  - destruct s as [b [|c t] cap]; cbn; [done|]. destruct (p c) eqn:E; [|done].
    eauto using matches.
  - eauto using matches.
  - intros (s1 & H1 & (s2 & H2 & E)%IHr2)%IHr1. eauto using matches.
  - destruct (run r1 s k) as [y|] eqn:E.
    + intros [= <-]. apply IHr1 in E as (s' & ? & ?). eauto using matches.
    + intros (s' & ? & ?)%IHr2. eauto using matches.
  - intros H. by eapply greedy_sound.
  - destruct (nothing_before s) eqn:E; [|done]. eauto using matches.
  - destruct (nothing_after s) eqn:E; [|done]. eauto using matches.
  - destruct (at_boundary s) eqn:E; [|done]. eauto using matches.
  - intros (s' & ? & ?)%IHr. eauto using matches.
Qed.

Lemma greedy_complete a k n s s' :
  (∀ s s' k, matches a s s' → is_Some (k s') → is_Some (run a s k)) →
  matches (Star a) s s' → (length (rest s) ≤ n)%nat → is_Some (k s') →
  is_Some (greedy (run a) k n s).
Proof.
  intros Ha H. remember (Star a) as r eqn:Er. revert n Er.
  induction H; intros m [= ->] Hm Hk.
  - destruct m as [|m]; cbn; [done|]. destruct (run a s _); eauto.
  - destruct m as [|m]; cbn.
    { unfold advances in *. rewrite Nat.ltb_lt in *. lia. }
    assert (Hx : is_Some (run a s (λ s', if advances s s' then greedy (run a) k m s' else None))).
    { eapply Ha; [done|]. cbn. rewrite H0. apply IHmatches2; [done| |done].
      unfold advances in *. rewrite Nat.ltb_lt in *. lia. }
    destruct Hx as [x ->]. eauto.
Qed.

(** If there is a match after which the continuation succeeds, the matcher succeeds. *)
Lemma run_complete r s s' k : matches r s s' → is_Some (k s') → is_Some (run r s k).
Proof.
  revert s s' k. induction r; intros s s' k H Hk.
  all: inversion H; simplify_eq/=.
  - by case_match.
  - done.
  - eapply IHr1; [done|]. cbn. by eapply IHr2.
  - destruct (IHr1 _ _ k ltac:(eassumption) Hk) as [x ->]. eauto.
  - destruct (run r1 s k); [eauto|]. by eapply IHr2.
  - by eapply greedy_complete.
  - by eapply greedy_complete.
  - by case_match.
  - by case_match.
  - by case_match.
  - by eapply IHr.
Qed.

(** The matcher succeeds exactly where the expression has a match. *)
Lemma match_iff r s : is_Some (match_at r s) ↔ ∃ s', matches r s s'.
Proof.
  split.
  - intros [x H]. apply run_sound in H as (s' & ? & ?). eauto.
  - intros (s' & H). by eapply run_complete.
Qed.

Lemma match_at_matches r s s' : match_at r s = Some s' → matches r s s'.
Proof. intros (s1 & H & [= <-])%run_sound. done. Qed.


End Regex.
