(* ===== verification/Redaction.v ===== *)
(** * Redaction ([src/src/redaction.ts])

    The sanitizer of everything the program logs or persists: patterns for the values of
    credentials, names of sensitive keys, exact secrets, and the bounded preview.  The regular
    expressions are transcribed for the matcher of [Regex]. *)

From S2P Require Import Prelude JsString Json Regex.

Module Redaction.
Import Regex.

Definition DEFAULT_PREVIEW_LENGTH : Z := 160.

Definition REDACTED : jsstr := "[REDACTED]".

(** ** Character classes *)

Definition range (a b c : N) : bool := ((a <=? c) && (c <=? b))%N.
Definition digit : N → bool := range 48 57.
Definition upper : N → bool := range 65 90.
Definition lower : N → bool := range 97 122.
Definition alnum (c : N) : bool := digit c || upper c || lower c.

(** [\s], [\S] *)
Definition space : re := Chr is_space.
Definition non_space : re := Chr (λ c, negb (is_space c)).

(** [[_\-.]], [[_\-]] *)
Definition separator : N → bool := one_of "_-.".
Definition dash : N → bool := one_of "_-".

(** ** The patterns *)

(** [SENSITIVE_KEY_PATTERN] *)
Definition SENSITIVE_KEY_PATTERN : re :=
  Alt
    (Seq (Alt Start (Chr separator))
    (Seq (alternatives
            [lit_i "token"; lit_i "secret"; lit_i "password"; lit_i "credential";
             Seq (lit_i "private") (Seq (Opt (Chr separator)) (lit_i "key"));
             Seq (lit_i "api") (Seq (Opt (Chr separator)) (lit_i "key"));
             lit_i "authorization"; lit_i "cookie"; lit_i "session"])
         (Alt End_ (Chr separator))))
    (Seq (Alt Start (Chr separator))
    (Seq (alternatives
            [lit_i "kontrol"; lit_i "acp"; lit_i "oauth"; lit_i "reviewer"; lit_i "tunnel"])
         (Alt End_ (Chr separator)))).

(** [/Bearer\s+[A-Za-z0-9\-._~+/]+=*/gi] *)
Definition bearer_pattern : re :=
  Seq (lit_i "Bearer") (Seq (Plus space)
    (Seq (Plus (Chr (ci (λ c, alnum c || one_of "-._~+/" c)))) (Star (Chr (N.eqb 61))))).

(** [/Basic\s+[A-Za-z0-9+/=]+/gi] *)
Definition basic_pattern : re :=
  Seq (lit_i "Basic") (Seq (Plus space) (Plus (Chr (ci (λ c, alnum c || one_of "+/=" c))))).

(** [/(?:authorization|cookie|set-cookie)\s*:\s*\S+/gi] *)
Definition header_pattern : re :=
  Seq (alternatives [lit_i "authorization"; lit_i "cookie"; lit_i "set-cookie"])
    (Seq (Star space) (Seq (lit ":") (Seq (Star space) (Plus non_space)))).

Definition VALUE_PATTERNS : list (re * jsstr) :=
  [ (bearer_pattern, js "Bearer [REDACTED]"); (basic_pattern, js "Basic [REDACTED]");
    (header_pattern, js "[REDACTED]") ].

(** [\s*[=:]\s*("[^"]*"|'[^']*'|[^\s&"'`]+)] *)
Definition assigned_value : re :=
  Seq (Star space) (Seq (Chr (one_of "=:")) (Seq (Star space)
    (alternatives
       [ Seq (Chr (N.eqb DQUOTE)) (Seq (Star (Chr (λ c, negb (N.eqb c DQUOTE)))) (Chr (N.eqb DQUOTE)));
         Seq (lit "'") (Seq (Star (Chr (λ c, negb (one_of "'" c)))) (lit "'"));
         Plus (Chr (λ c, negb (is_space c || one_of "&'`" c || N.eqb c DQUOTE))) ]))).

(** The [key=value] forms whose key looks sensitive; flags [gi]. *)
Definition key_value_pattern : re :=
  Seq (Cap
    (Seq (Star (Chr (λ c, alnum c || dash c)))
    (Seq (alternatives
            [lit_i "token"; lit_i "secret"; lit_i "password"; lit_i "credential";
             Seq (lit_i "private") (Seq (Opt (Chr dash)) (lit_i "key"));
             Seq (lit_i "api") (Seq (Opt (Chr dash)) (lit_i "key"))])
         (Star (Chr (λ c, alnum c || dash c))))))
  assigned_value.

(** The namespaces of the control plane; flag [g]. *)
Definition namespace_pattern : re :=
  let tail := Star (Chr (λ c, upper c || digit c || N.eqb c 95)) in
  Seq Boundary
    (Seq (Cap (alternatives
                 [Seq (lit "KONTROL_") tail; Seq (lit "ACP_") tail; Seq (lit "OAUTH_") tail]))
         assigned_value).

(** ** The functions *)

Definition isSensitiveKeyName (key : jsstr) : bool := test SENSITIVE_KEY_PATTERN key.

(** [(_match, key) => `${key}=${REDACTED}`] *)
Definition keep_key (_ : jsstr) (key : option jsstr) : jsstr := or_empty key +s "=" +s REDACTED.

Definition redactString (text : jsstr) : jsstr :=
  let result :=
    foldl (λ r p, replace_all p.1 (λ _ _, p.2) r) text VALUE_PATTERNS in
  replace_all namespace_pattern keep_key (replace_all key_value_pattern keep_key result).

(** [result.split(secret)] for a non-empty [secret]; [skip] counts the units of an occurrence
    still to be passed over, [piece] is the current piece, reversed. *)
Fixpoint split_on (secret : jsstr) (skip : nat) (piece text : jsstr) : list jsstr :=
  match text with
  | [] => [rev piece]
  | c :: t =>
      match skip with
      | S n => split_on secret n piece t
      | O =>
          if startsWith text secret then rev piece :: split_on secret (pred (length secret)) [] t
          else split_on secret 0 (c :: piece) t
      end
  end.

(** [text.includes(s)] *)
Fixpoint includes (text s : jsstr) : bool :=
  startsWith text s || match text with [] => false | _ :: t => includes t s end.

(** [redactExactSecrets] *)
Definition redact_secret (result secret : jsstr) : jsstr :=
  if (8 <=? length secret)%nat && includes result secret
  then join REDACTED (split_on secret 0 [] result) else result.

Definition redactExactSecrets (text : jsstr) (secrets : list jsstr) : jsstr :=
  foldl redact_secret text secrets.

(** [redactValue]; assigning [result["__proto__"]] makes no own property. *)
Fixpoint redactValue (value : json) : json :=
  match value with
  | JStr s => JStr (redactString s)
  | JArr l => JArr (List.map redactValue l)
  | JObj fs =>
      JObj
        ((fix entries (fs : list (jsstr * json)) : list (jsstr * json) :=
            match fs with
            | [] => []
            | (key, entry) :: rest =>
                if key =s "__proto__" then entries rest
                else (key, if isSensitiveKeyName key then JStr REDACTED else redactValue entry)
                       :: entries rest
            end) fs)
  | v => v
  end.

(** [text.slice(0, n)] *)
Definition slice_to (n : Z) (text : jsstr) : jsstr :=
  if (0 <=? n)%Z then take (Z.to_nat n) text else take (length text - Z.to_nat (- n)) text.

Definition redactedPreview (text : jsstr) (maxLength : Z) : jsstr :=
  let redacted := redactString text in
  if (maxLength <? Z.of_nat (length redacted))%Z
  then slice_to (maxLength - 3) redacted +s "..." else redacted.

(** [shellTelemetrySync]; [sha256] is the hexadecimal digest of the command. *)
Record ShellTelemetryRecord := mkTelemetry {
  commandHash : jsstr; commandPreview : jsstr; commandLength : nat }.

Definition shellTelemetrySync (sha256 : jsstr → jsstr) (command : jsstr) (previewLength : Z)
  : ShellTelemetryRecord :=
  mkTelemetry (sha256 command) (redactedPreview command previewLength) (length command).

(** The examples of the source's tests. *)
Example redact_headers :
  redactString "Authorization: Bearer abc123.def456" = js "[REDACTED] [REDACTED]"
  ∧ redactString "GITHUB_TOKEN=ghp_abcdefghijklmnop" = js "GITHUB_TOKEN=[REDACTED]"
  ∧ redactString "KONTROL_ACP_WORKER_SECRET: super-secret-value" = js "KONTROL_ACP_WORKER_SECRET=[REDACTED]"
  ∧ redactString "git status --porcelain" = js "git status --porcelain".
Proof. by vm_compute. Qed.

Example redact_keys :
  isSensitiveKeyName "API_TOKEN" = true ∧ isSensitiveKeyName "TLS_PRIVATE_KEY" = true
  ∧ isSensitiveKeyName "ACP_REVIEWER_SECRET" = true ∧ isSensitiveKeyName "workspaceId" = false
  ∧ isSensitiveKeyName "accessToken" = false.
Proof. by vm_compute. Qed.

End Redaction.
