(* ===== verification/RedactionFacts.v ===== *)
(** * What redaction keeps out of the logs

    Exact secrets do not survive [redactExactSecrets], a structured value has no value left under a
    sensitive key, and a preview has the length it was given. *)

From S2P Require Import Prelude JsString Json Regex Redaction.

Module RedactionFacts.
Import Redaction.

(** [s] occurs in [text]. *)
Definition occurs (s text : jsstr) : Prop := ∃ l r, text = l ++ s ++ r.

Lemma includes_occurs text s : includes text s = true ↔ occurs s text.
Proof.
  induction text as [|c t IH]; cbn [includes].
  - rewrite orb_false_r, startsWith_app. split.
    + intros [r E]. by exists [], r.
    + intros (l & r & E). exists r. destruct l; [done|discriminate].
  - rewrite orb_true_iff, startsWith_app, IH. split.
    + intros [[r E]|(l & r & E)]; [by exists [], r|]. exists (c :: l), r. by rewrite E.
    + intros ([|x l] & r & E); [left; by exists r|]. injection E as -> ->. right. by exists l, r.
Qed.

Lemma occurs_app_l s x y : occurs s x → occurs s (x ++ y).
Proof. intros (l & r & ->). exists l, (r ++ y). by rewrite <- !app_assoc. Qed.
Lemma occurs_app_r s x y : occurs s y → occurs s (x ++ y).
Proof. intros (l & r & ->). exists (x ++ l), r. by rewrite <- app_assoc. Qed.
Lemma occurs_trans a b c : occurs a b → occurs b c → occurs a c.
Proof.
  intros (l1 & r1 & ->) (l2 & r2 & ->). exists (l2 ++ l1), (r1 ++ r2). by rewrite <- !app_assoc.
Qed.

(** A unit that is not in [s] splits its occurrences. *)
Lemma occurs_around s b x y : b ∉ s → occurs s (x ++ [b] ++ y) → occurs s x ∨ occurs s y.
Proof.
  intros Hb (l & r & E). revert l E. induction x as [|c x IH]; intros l E.
  - destruct l as [|d l].
    + destruct s as [|e s]; [left; by exists [], []|]. injection E as -> _. set_solver.
    + injection E as -> ->. right. by exists l, r.
  - destruct l as [|d l].
    + clear IH. cbn [app] in E. destruct (decide (length s ≤ length (c :: x))) as [Hl|Hl].
      * left. exists [], (drop (length s) (c :: x)). cbn [app].
        rewrite <- (take_drop (length s) (c :: x)) at 1. f_equal.
        transitivity (take (length s) ((c :: x) ++ b :: y)); [by rewrite take_app_le|].
        cbn [app]. rewrite E. by rewrite take_app_length.
      * exfalso. apply Hb. apply list_elem_of_lookup. exists (length (c :: x)).
        rewrite <- (lookup_app_l s r) by lia. rewrite <- E. change (c :: x ++ b :: y) with ((c :: x) ++ b :: y).
        by rewrite list_lookup_middle.
    + injection E as -> E. destruct (IH l E) as [H|H]; [left|by right].
      change (d :: x) with ([d] ++ x). by apply occurs_app_r.
Qed.

(** ** Exact secrets *)

Lemma split_on_skip secret n t : split_on secret n [] t = split_on secret 0 [] (drop n t).
Proof. revert t. induction n as [|n IH]; intros [|c t]; cbn; done. Qed.

Definition starts_after (secret piece text : jsstr) : Prop :=
  ∀ l r, rev piece ++ text = l ++ secret ++ r → length piece ≤ length l.

Lemma piece_clean secret piece text :
  secret ≠ [] → starts_after secret piece text → ¬ occurs secret (rev piece).
Proof.
  intros Hne Hpos (l & r & E). pose proof (Hpos l (r ++ text)) as Hx.
  rewrite E, <- !app_assoc in Hx. specialize (Hx eq_refl).
  apply (f_equal length) in E. rewrite length_rev, !length_app in E.
  destruct secret; [done|cbn in E; lia].
Qed.

(** No piece holds the secret, and every piece is part of the text. *)
Lemma split_on_pieces secret n piece text :
  secret ≠ [] → length text ≤ n → starts_after secret piece text →
  ∀ p, p ∈ split_on secret 0 piece text → ¬ occurs secret p ∧ occurs p (rev piece ++ text).
Proof.
  intros Hne. revert piece text. induction n as [|n IH]; intros piece text Hn Hpos p Hp;
    pose proof (piece_clean secret piece text Hne Hpos) as Hpiece;
    (destruct text as [|c t];
      [cbn in Hp; apply list_elem_of_singleton in Hp as ->; split; [done|];
       exists [], []; by rewrite !app_nil_r|cbn in Hn; try lia]).
  cbn [split_on] in Hp. destruct (startsWith (c :: t) secret) eqn:Es.
  - apply elem_of_cons in Hp as [->|Hp].
    + split; [done|]. exists [], (c :: t). done.
    + rewrite split_on_skip in Hp. apply IH in Hp as [H1 H2]; [|rewrite length_drop; lia|intros ? ? _; cbn; lia].
      split; [done|]. eapply occurs_trans; [exact H2|]. cbn [rev app].
      exists (rev piece ++ c :: take (pred (length secret)) t), [].
      rewrite app_nil_r, <- app_assoc. cbn. by rewrite take_drop.
  - apply IH in Hp as [H1 H2]; [| lia |].
    + split; [done|]. cbn [rev] in H2. by rewrite <- app_assoc in H2.
    + intros l r E. cbn [rev] in E. rewrite <- app_assoc in E. cbn in E.
      pose proof (Hpos l r E) as Hl. cbn [length].
      destruct (decide (length l = length piece)) as [El|El]; [|lia]. exfalso.
      apply not_true_iff_false in Es. apply Es, startsWith_app. exists r.
      apply app_inj_1 in E as [_ E]; [done|]. by rewrite length_rev.
Qed.

(** What occurs in a join around the marker occurs in a piece or inside the marker. *)
Lemma occurs_join s ps :
  s ≠ [] → 91%N ∉ s → 93%N ∉ s → occurs s (join REDACTED ps) →
  (∃ p, p ∈ ps ∧ occurs s p) ∨ occurs s (js "REDACTED").
Proof.
  intros Hne Hl Hr. induction ps as [|p [|q ps] IH]; intros H.
  - destruct H as (l & r & E). cbn in E. destruct l; [|done]. by destruct s.
  - left. exists p. by split; [left|].
  - change (join REDACTED (p :: q :: ps))
      with (p ++ [91%N] ++ (js "REDACTED" ++ [93%N] ++ join REDACTED (q :: ps))) in H.
    apply occurs_around in H as [H|H]; [left; exists p; by split; [left|]| |done].
    apply occurs_around in H as [H|H]; [by right| |done].
    destruct (IH H) as [(x & Hx & Hs)|?]; [left; exists x; by split; [right|]|by right].
Qed.

(** A secret that the marker does not hide: long enough, and made of other units. *)
Definition plain_secret (s : jsstr) : Prop :=
  8 ≤ length s ∧ (91%N ∉ s) ∧ (93%N ∉ s) ∧ s ≠ js "REDACTED".

#[export] Instance plain_secret_dec s : Decision (plain_secret s).
Proof. apply _. Defined.

Lemma plain_not_marker s : plain_secret s → ¬ occurs s (js "REDACTED").
Proof.
  intros (Hl & _ & _ & Hne) (l & r & E). pose proof (f_equal length E) as El.
  rewrite !length_app in El. change (length (js "REDACTED")) with 8 in El.
  destruct l; [|cbn in El; lia]. destruct r; [|cbn in El; lia]. apply Hne.
  by rewrite app_nil_r in E.
Qed.

Lemma redact_secret_clears r s s' :
  plain_secret s → plain_secret s' → s' = s ∨ ¬ occurs s' r → ¬ occurs s' (redact_secret r s).
Proof.
  intros Hs Hs' Hr. unfold redact_secret.
  assert (Hlen : (8 <=? length s)%nat = true) by (apply Nat.leb_le, Hs). rewrite Hlen. cbn [andb].
  destruct (includes r s) eqn:Ei.
  2:{ destruct Hr as [->|?]; [|done]. intros H%includes_occurs. congruence. }
  assert (Hne : s ≠ []) by (intros ->; destruct Hs; cbn in *; lia).
  assert (Hne' : s' ≠ []) by (intros ->; destruct Hs'; cbn in *; lia).
  intros Ho. destruct (proj2 Hs') as (Hb1 & Hb2 & _).
  apply occurs_join in Ho as [(p & Hp & Ho)|Ho]; [| |done..].
  - apply (split_on_pieces s (length r) [] r Hne) in Hp as [H1 H2]; [|done|intros ? ? _; cbn; lia].
    destruct Hr as [->|Hr]; [done|]. exact (Hr (occurs_trans _ _ _ Ho H2)).
  - by apply (plain_not_marker s').
Qed.

(** No configured secret of at least eight units survives, wherever it stands in the text and
    whatever the other secrets are; a secret with brackets, or the word of the marker itself, may. *)
Theorem exact_secrets_never_survive text secrets s :
  Forall plain_secret secrets → s ∈ secrets → includes (redactExactSecrets text secrets) s = false.
Proof.
  intros Hall Hin. apply not_true_iff_false. rewrite includes_occurs. unfold redactExactSecrets.
  assert (H : ∀ l r, Forall plain_secret l → plain_secret s → s ∈ l ∨ ¬ occurs s r →
            ¬ occurs s (foldl redact_secret r l)).
  { clear. induction l as [|x l IH]; intros r Hl Hs Hr; cbn; [by destruct Hr; [set_solver|]|].
    apply Forall_cons in Hl as [Hx Hl]. apply IH; [done|done|].
    destruct (decide (s ∈ l)) as [?|Hn]; [by left|]. right.
    apply redact_secret_clears; [done|done|]. destruct Hr as [[->|?]%elem_of_cons|?]; auto. }
  apply H; [done| |by left]. rewrite Forall_forall in Hall. by apply Hall.
Qed.

Lemma exact_secrets_never_survive_witness :
  includes (redactExactSecrets "run hunter2hunter2 now" [js "hunter2hunter2"; js "correct horse"])
    "hunter2hunter2" = false.
Proof.
  apply exact_secrets_never_survive; [|by left].
  apply (bool_decide_unpack _). vm_compute. exact I.
Defined.

(** ** Previews *)

(** A preview is as long as it may be, whatever the text. *)
Theorem preview_is_bounded text n : (3 <= n)%Z → (Z.of_nat (length (redactedPreview text n)) <= n)%Z.
Proof.
  intros Hn. unfold redactedPreview. destruct (Z.ltb_spec n (Z.of_nat (length (redactString text)))); [|lia].
  rewrite length_app. unfold slice_to. rewrite (proj2 (Z.leb_le 0 _)) by lia.
  change (length (js "...")) with 3. rewrite length_take. lia.
Qed.

(** ** Structured values *)

(** No value is left under a sensitive key, at any depth. *)
Inductive cleared : json → Prop :=
| cleared_scalar v : match v with JArr _ | JObj _ => False | _ => True end → cleared v
| cleared_array l : Forall cleared l → cleared (JArr l)
| cleared_object fs :
    Forall (λ kv, (isSensitiveKeyName kv.1 = true → kv.2 = JStr REDACTED) ∧ cleared kv.2) fs →
    cleared (JObj fs).

Theorem redactValue_clears v : cleared (redactValue v).
Proof.
  revert v. fix IH 1. intros [| | | | |l|fs]; cbn [redactValue]; try (by apply cleared_scalar).
  - apply cleared_array. induction l as [|v l IHl]; cbn; constructor; [apply IH|exact IHl].
  - apply cleared_object. induction fs as [|[k v] fs IHf]; cbn; [constructor|].
    destruct (k =s "__proto__"); [exact IHf|]. constructor; [|exact IHf]. cbn [fst snd].
    destruct (isSensitiveKeyName k); [split; [done|by apply cleared_scalar]|split; [done|apply IH]].
Qed.

End RedactionFacts.
