(* ===== verification/ScheduledJobs.v ===== *)
(** * The scheduled-job store ([src/src/scheduling/scheduled-job-store.ts])

    A scheduled job is a row of [scheduled_jobs]; every try to launch it is a row of
    [scheduled_job_attempts], and the job names the attempt that is active.  The file models the
    operations of [createScheduledJobStore] on the jobs, the attempts, the reports of their workers
    and the obligations to record them, together with the due events they put into the dispatch
    outbox, and the statements of [scheduled-job-runtime.ts] that write the table themselves.  The
    verification executions and the publication receipts have files of their own.  Parameters are
    the SHA-256 digest and [parse], the validation of a request by the zod schema. *)

From S2P Require Import Prelude JsString Json Sql Outbox ScheduledLifecycle CanonicalJson Redaction.

Module ScheduledJobs.
Import ScheduledLifecycle.

(** ** Tables *)

Inductive ExecutionMode := read_only_audit | bounded_file_write.
Inductive DispatchTarget := direct_acp | peer_pull (peerId : jsstr).
Inductive BlockerKind := temporary_dependency | permanent_configuration.
Inductive CancellationState :=
| not_dispatched | worker_active | termination_acknowledged | remote_missing | worker_stopped
| worker_cancelled | unknown.

#[export] Instance ExecutionMode_eq_dec : EqDecision ExecutionMode.
Proof. solve_decision. Defined.
#[export] Instance BlockerKind_eq_dec : EqDecision BlockerKind.
Proof. solve_decision. Defined.
#[export] Instance CancellationState_eq_dec : EqDecision CancellationState.
Proof. solve_decision. Defined.

(** The time a request names: its text, the instant [Date.parse] reads, and the place of the text
    among the UTC texts of the database, with which SQLite compares it.  The last two are the same
    for a UTC text; a text with an offset has the place of its local time. *)
Record RunTime := mkRunTime { text : jsstr; instant : Z; collates : Z }.

(** [ScheduledJobInput] *)
Record ScheduledJobInput := mkInput {
  in_principalId : jsstr;
  in_ownerContextId : jsstr;
  in_projectId : jsstr;
  in_workspaceRoot : jsstr;
  in_runAt : RunTime;
  in_instructionJson : json;
  in_executionMode : ExecutionMode;
  in_policySnapshotJson : json;
  in_agentName : option jsstr;
  in_dispatchTarget : option DispatchTarget;
  in_workSessionId : option jsstr;
  in_maxRuntimeMs : Z;
  in_clientMutationId : option jsstr
}.

(** A request that passed [scheduledJobRequestSchema]. *)
Record JobRequest := mkRequest {
  principalId : jsstr;
  ownerContextId : jsstr;
  projectId : jsstr;
  workspaceRoot : jsstr;
  runAt : RunTime;
  instructionJson : list (jsstr * json);
  executionMode : ExecutionMode;
  policySnapshotJson : list (jsstr * json);
  dispatchTarget : DispatchTarget;
  maxRuntimeMs : Z
}.

(** The columns of the cancellation. *)
Record Cancellation := mkCancellation {
  requestId : option jsstr;
  previousStatus : option ScheduledJobStatus;
  requestedAt : option Z;
  lastAttemptAt : option Z;
  lastConfirmedState : option CancellationState
}.

(** The columns of the dispatch retries. *)
Record Retry := mkRetry {
  retryCount : Z;
  retryAt : option Z;
  lastAttemptedAgent : option jsstr;
  blockerKind : option BlockerKind
}.

(** [terminal_at], [blocked_at], [operator_intervention_at], [last_state_changed_at] *)
Record Stamps := mkStamps {
  terminalAt : option Z;
  blockedAt : option Z;
  operatorInterventionAt : option Z;
  lastStateChangedAt : option Z
}.

(** A row of [scheduled_jobs].  The columns no statement updates are those of its request and
    [agentName], [clientMutationId], [requestFingerprint] and [createdAt]. *)
Record Job := mkJob {
  id : jsstr;
  request : JobRequest;
  agentName : option jsstr;
  clientMutationId : option jsstr;
  requestFingerprint : jsstr;
  createdAt : Z;
  status : ScheduledJobStatus;
  revision : Z;
  workSessionId : option jsstr;
  activeDispatchAttemptId : option jsstr;
  lifecycleEventCursor : Z;
  cancellation : Cancellation;
  retry : Retry;
  lastError : option jsstr;
  updatedAt : Z;
  stamps : Stamps
}.

Inductive TransportStatus := tr_dispatching | tr_accepted | tr_uncertain | tr_rejected | tr_unstarted.

#[export] Instance TransportStatus_eq_dec : EqDecision TransportStatus.
Proof. solve_decision. Defined.

(** The ACP identity of an attempt. *)
Record AcpIdentity := mkAcp {
  acpRunId : option jsstr;
  acpDispatchId : option jsstr;
  acpAttemptNumber : option Z;
  acpRemoteRunId : option jsstr
}.

(** The active time of its worker. *)
Record Execution := mkExecution {
  executionStartedAt : option Z;
  executionActiveSince : option Z;
  activeRuntimeMs : Z;
  executionStoppedAt : option Z;
  workerExecutionOutcome : option ExecutionOutcome;
  workerExecutionAt : option Z
}.

(** The diagnostics of its dispatch; a JSON column holds the text. *)
Record Diagnostics := mkDiagnostics {
  d_agentName : option jsstr;
  dispatchFailureClass : option jsstr;
  dispatchFailureReason : option jsstr;
  dispatchProbeResultJson : option jsstr;
  nextEligibleAt : option Z;
  executionReceiptJson : option jsstr
}.

(** The backoff of its reconciliation. *)
Record Probe := mkProbe {
  reconcileProbeCount : Z;
  nextReconcileAt : option Z;
  lastReconcileEvidence : option jsstr
}.

(** A row of [scheduled_job_attempts] *)
Record Attempt := mkAttempt {
  a_id : jsstr;
  jobId : jsstr;
  dispatchId : jsstr;
  startedAt : Z;
  dispatcherInstanceId : jsstr;
  leaseExpiresAt : Z;
  completedAt : option Z;
  transportStatus : TransportStatus;
  outcome : option FinalOutcome;
  acp : AcpIdentity;
  execution : Execution;
  diagnostics : Diagnostics;
  probe : Probe;
  publicationReceipts : option (list (list (jsstr * json)))
}.

(** A row of [scheduled_job_reports] *)
Record Report := mkReport {
  r_id : jsstr;
  r_jobId : jsstr;
  r_runId : jsstr;
  reportSha256 : jsstr;
  reportText : jsstr;
  r_createdAt : Z
}.

Inductive FinalizationStatus := f_pending | f_completed | f_no_output | f_unavailable.

#[export] Instance FinalizationStatus_eq_dec : EqDecision FinalizationStatus.
Proof. solve_decision. Defined.

(** A row of [scheduled_job_report_finalizations] *)
Record Finalization := mkFinalization {
  f_id : jsstr;
  f_jobId : jsstr;
  f_runId : jsstr;
  f_attemptNumber : Z;
  eventId : jsstr;
  f_status : FinalizationStatus;
  f_reportText : option jsstr;
  f_reportSha256 : option jsstr;
  f_lastError : option jsstr;
  f_createdAt : Z;
  f_updatedAt : Z
}.

Record store := mkStore {
  jobs : list Job;
  attempts : list Attempt;
  reports : list Report;
  finalizations : list Finalization;
  outbox : DispatchOutbox.outbox
}.

Definition set_jobs (t : list Job) (s : store) : store :=
  mkStore t (attempts s) (reports s) (finalizations s) (outbox s).
Definition set_attempts (t : list Attempt) (s : store) : store :=
  mkStore (jobs s) t (reports s) (finalizations s) (outbox s).
Definition set_reports (t : list Report) (s : store) : store :=
  mkStore (jobs s) (attempts s) t (finalizations s) (outbox s).
Definition set_finalizations (t : list Finalization) (s : store) : store :=
  mkStore (jobs s) (attempts s) (reports s) t (outbox s).
Definition set_outbox (o : DispatchOutbox.outbox) (s : store) : store :=
  mkStore (jobs s) (attempts s) (reports s) (finalizations s) o.

(** What the operations throw; [constraint_failed] is a unique index. *)
Inductive Error :=
| request_invalid | mutation_reused | not_read_back | constraint_failed
| claim_conflict | job_disappeared | release_conflict | unknown_job | retry_conflict
| completion_conflict | reconciliation_conflict | projection_conflict
| already_final | cancellation_conflict | evidence_conflict | not_confirmed
| run_missing | report_too_large | report_changed
| cancellation_states | transition_conflict
| session_conflict | identity_invalid | binding_conflict | already_bound | could_not_bind.

(** ** Updates of a row, one column (or group) each *)

Definition with_status (x : ScheduledJobStatus) (j : Job) : Job :=
  mkJob (id j) (request j) (agentName j) (clientMutationId j) (requestFingerprint j) (createdAt j)
    x (revision j) (workSessionId j) (activeDispatchAttemptId j) (lifecycleEventCursor j)
    (cancellation j) (retry j) (lastError j) (updatedAt j) (stamps j).
Definition with_revision (x : Z) (j : Job) : Job :=
  mkJob (id j) (request j) (agentName j) (clientMutationId j) (requestFingerprint j) (createdAt j)
    (status j) x (workSessionId j) (activeDispatchAttemptId j) (lifecycleEventCursor j)
    (cancellation j) (retry j) (lastError j) (updatedAt j) (stamps j).
Definition with_session (x : option jsstr) (j : Job) : Job :=
  mkJob (id j) (request j) (agentName j) (clientMutationId j) (requestFingerprint j) (createdAt j)
    (status j) (revision j) x (activeDispatchAttemptId j) (lifecycleEventCursor j)
    (cancellation j) (retry j) (lastError j) (updatedAt j) (stamps j).
Definition with_active (x : option jsstr) (j : Job) : Job :=
  mkJob (id j) (request j) (agentName j) (clientMutationId j) (requestFingerprint j) (createdAt j)
    (status j) (revision j) (workSessionId j) x (lifecycleEventCursor j)
    (cancellation j) (retry j) (lastError j) (updatedAt j) (stamps j).
Definition with_cursor (x : Z) (j : Job) : Job :=
  mkJob (id j) (request j) (agentName j) (clientMutationId j) (requestFingerprint j) (createdAt j)
    (status j) (revision j) (workSessionId j) (activeDispatchAttemptId j) x
    (cancellation j) (retry j) (lastError j) (updatedAt j) (stamps j).
Definition with_cancellation (x : Cancellation) (j : Job) : Job :=
  mkJob (id j) (request j) (agentName j) (clientMutationId j) (requestFingerprint j) (createdAt j)
    (status j) (revision j) (workSessionId j) (activeDispatchAttemptId j) (lifecycleEventCursor j)
    x (retry j) (lastError j) (updatedAt j) (stamps j).
Definition with_retry (x : Retry) (j : Job) : Job :=
  mkJob (id j) (request j) (agentName j) (clientMutationId j) (requestFingerprint j) (createdAt j)
    (status j) (revision j) (workSessionId j) (activeDispatchAttemptId j) (lifecycleEventCursor j)
    (cancellation j) x (lastError j) (updatedAt j) (stamps j).
Definition with_error (x : option jsstr) (j : Job) : Job :=
  mkJob (id j) (request j) (agentName j) (clientMutationId j) (requestFingerprint j) (createdAt j)
    (status j) (revision j) (workSessionId j) (activeDispatchAttemptId j) (lifecycleEventCursor j)
    (cancellation j) (retry j) x (updatedAt j) (stamps j).
Definition with_updated (x : Z) (j : Job) : Job :=
  mkJob (id j) (request j) (agentName j) (clientMutationId j) (requestFingerprint j) (createdAt j)
    (status j) (revision j) (workSessionId j) (activeDispatchAttemptId j) (lifecycleEventCursor j)
    (cancellation j) (retry j) (lastError j) x (stamps j).
Definition with_stamps (x : Stamps) (j : Job) : Job :=
  mkJob (id j) (request j) (agentName j) (clientMutationId j) (requestFingerprint j) (createdAt j)
    (status j) (revision j) (workSessionId j) (activeDispatchAttemptId j) (lifecycleEventCursor j)
    (cancellation j) (retry j) (lastError j) (updatedAt j) x.

Definition with_completed (x : option Z) (a : Attempt) : Attempt :=
  mkAttempt (a_id a) (jobId a) (dispatchId a) (startedAt a) (dispatcherInstanceId a)
    (leaseExpiresAt a) x (transportStatus a) (outcome a) (acp a) (execution a) (diagnostics a)
    (probe a) (publicationReceipts a).
Definition with_transport (x : TransportStatus) (a : Attempt) : Attempt :=
  mkAttempt (a_id a) (jobId a) (dispatchId a) (startedAt a) (dispatcherInstanceId a)
    (leaseExpiresAt a) (completedAt a) x (outcome a) (acp a) (execution a) (diagnostics a)
    (probe a) (publicationReceipts a).
Definition with_outcome (x : option FinalOutcome) (a : Attempt) : Attempt :=
  mkAttempt (a_id a) (jobId a) (dispatchId a) (startedAt a) (dispatcherInstanceId a)
    (leaseExpiresAt a) (completedAt a) (transportStatus a) x (acp a) (execution a) (diagnostics a)
    (probe a) (publicationReceipts a).
Definition with_acp (x : AcpIdentity) (a : Attempt) : Attempt :=
  mkAttempt (a_id a) (jobId a) (dispatchId a) (startedAt a) (dispatcherInstanceId a)
    (leaseExpiresAt a) (completedAt a) (transportStatus a) (outcome a) x (execution a)
    (diagnostics a) (probe a) (publicationReceipts a).
Definition with_execution (x : Execution) (a : Attempt) : Attempt :=
  mkAttempt (a_id a) (jobId a) (dispatchId a) (startedAt a) (dispatcherInstanceId a)
    (leaseExpiresAt a) (completedAt a) (transportStatus a) (outcome a) (acp a) x
    (diagnostics a) (probe a) (publicationReceipts a).
Definition with_diagnostics (x : Diagnostics) (a : Attempt) : Attempt :=
  mkAttempt (a_id a) (jobId a) (dispatchId a) (startedAt a) (dispatcherInstanceId a)
    (leaseExpiresAt a) (completedAt a) (transportStatus a) (outcome a) (acp a) (execution a)
    x (probe a) (publicationReceipts a).
Definition with_probe (x : Probe) (a : Attempt) : Attempt :=
  mkAttempt (a_id a) (jobId a) (dispatchId a) (startedAt a) (dispatcherInstanceId a)
    (leaseExpiresAt a) (completedAt a) (transportStatus a) (outcome a) (acp a) (execution a)
    (diagnostics a) x (publicationReceipts a).
Definition with_receipts (x : option (list (list (jsstr * json)))) (a : Attempt) : Attempt :=
  mkAttempt (a_id a) (jobId a) (dispatchId a) (startedAt a) (dispatcherInstanceId a)
    (leaseExpiresAt a) (completedAt a) (transportStatus a) (outcome a) (acp a) (execution a)
    (diagnostics a) (probe a) x.

Definition no_acp : AcpIdentity := mkAcp None None None None.
Definition no_execution : Execution := mkExecution None None 0 None None None.
Definition no_diagnostics : Diagnostics := mkDiagnostics None None None None None None.
Definition no_probe : Probe := mkProbe 0 None None.

(** ** Times of the states *)

Definition DEFINITIVE_TERMINAL_JOB_STATUSES (st : ScheduledJobStatus) : bool :=
  match st with job_completed | job_failed | job_cancelled => true | _ => false end.

Definition stateTimestampFields (next : ScheduledJobStatus) (previous : option ScheduledJobStatus)
  (now : Z) (t : Stamps) : Stamps :=
  if bool_decide (Some next = previous) then t
  else
    {| terminalAt := if DEFINITIVE_TERMINAL_JOB_STATUSES next
                     then Some (default now (terminalAt t)) else terminalAt t;
       blockedAt := if bool_decide (next = job_blocked) then Some now else blockedAt t;
       operatorInterventionAt := if bool_decide (next = job_operator_intervention) then Some now
                                 else operatorInterventionAt t;
       lastStateChangedAt := Some now |}.

(** [{ status: next, updatedAt: now, ...stateTimestampFields(next, previous, now) }] *)
Definition move (next : ScheduledJobStatus) (previous : option ScheduledJobStatus) (now : Z)
  (j : Job) : Job :=
  with_status next (with_updated now (with_stamps (stateTimestampFields next previous now (stamps j)) j)).

(** ** Lookups *)

Definition has_id (k : jsstr) (j : Job) : bool := bool_decide (id j = k).
Definition in_status (sts : list ScheduledJobStatus) (j : Job) : bool := bool_decide (status j ∈ sts).
Definition is_active (k : jsstr) (j : Job) : bool :=
  bool_decide (activeDispatchAttemptId j = Some k).
Definition at_revision (rev : Z) (j : Job) : bool := (revision j =? rev)%Z.

Definition attempt_is (k job : jsstr) (a : Attempt) : bool :=
  bool_decide (a_id a = k) && bool_decide (jobId a = job).
Definition is_open (a : Attempt) : bool := bool_decide (completedAt a = None).

(** [get] *)
Definition get (k : jsstr) (s : store) : option Job := by_key id k (jobs s).
Definition find_attempt (k : jsstr) (s : store) : option Attempt := by_key a_id k (attempts s).

Definition le_created (a b : Job) : bool := (createdAt a <=? createdAt b)%Z.

(** [select ... where work_session_id = ? order by created_at limit 1] *)
Definition session_job (session : jsstr) (s : store) : option Job :=
  first_by le_created
    (select_where (λ j, bool_decide (workSessionId j = Some session)) (jobs s)).

(** The job [getByWorkSessionId] finds, with the ACP identity of its active attempt. *)
Definition getByWorkSessionId (session : jsstr) (s : store)
  : option (Job * option AcpIdentity) :=
  j ← get_where (λ j, bool_decide (workSessionId j = Some session)) (jobs s);
  Some (j, match activeDispatchAttemptId j with
           | Some k => if nonempty k then acp <$> find_attempt k s else None
           | None => None
           end).

(** [order by started_at desc, id desc] *)
Definition newer_attempt (a b : Attempt) : bool :=
  (startedAt b <? startedAt a)%Z
  || (startedAt a =? startedAt b)%Z && negb (js_ltb (a_id a) (a_id b)).

Definition getAttempt (job : jsstr) (attempt : option jsstr) (s : store) : option Attempt :=
  match attempt with
  | Some k => if nonempty k then get_where (attempt_is k job) (attempts s)
              else first_by newer_attempt (select_where (λ a, bool_decide (jobId a = job)) (attempts s))
  | None => first_by newer_attempt (select_where (λ a, bool_decide (jobId a = job)) (attempts s))
  end.

(** [Math.trunc(requestedLimit) || 50] between 1 and 100; the newest attempts, oldest first *)
Definition listDispatchAttempts (job : jsstr) (requestedLimit : Z) (s : store) : list Attempt :=
  let l := Z.max 1 (Z.min 100 (if (requestedLimit =? 0)%Z then 50 else requestedLimit)) in
  rev (limit (Z.to_nat l)
         (order_by newer_attempt (select_where (λ a, bool_decide (jobId a = job)) (attempts s)))).

(** Pages in the order of ids; the ids are ASCII, which SQLite compares as JavaScript does. *)
Definition le_id (a b : Job) : bool := negb (js_ltb (id b) (id a)).

Definition job_page (p : Job → bool) (after : jsstr) (top l : Z) (s : store) : list Job :=
  limit (Z.to_nat (Z.max 1 (Z.min top l)))
    (order_by le_id (select_where (λ j, p j && js_ltb after (id j)) (jobs s))).

Definition listForOwner (owner : jsstr) (l : Z) (after : jsstr) (s : store) : list Job :=
  job_page (λ j, bool_decide (ownerContextId (request j) = owner)) after 200 l s.
Definition listForPrincipal (principal : jsstr) (l : Z) (after : jsstr) (s : store) : list Job :=
  job_page (λ j, bool_decide (principalId (request j) = principal)) after 200 l s.
Definition listProjectionTargets (after : jsstr) (l : Z) (s : store) : list Job :=
  job_page (λ j, in_status [job_running; job_uncertain_dispatch; job_awaiting_approval;
                            job_cancellation_requested; job_operator_intervention] j
                 && bool_decide (is_Some (workSessionId j))) after 500 l s.
Definition listCancellationTargets (after : jsstr) (l : Z) (s : store) : list Job :=
  job_page (in_status [job_cancellation_requested]) after 500 l s.

(** [current?.status === "cancellation_requested" && Boolean(current.cancellationRequestId)] *)
Definition cancellationPending (j : Job) : bool :=
  in_status [job_cancellation_requested] j && truthy (requestId (cancellation j)).

(** ** Due events *)

Definition due_event : jsstr := "scheduled_job.due".

(** The event of a revision of a job; [note] is the extra field of its payload. *)
Definition enqueueDue (now : Z) (uuid : jsstr) (job : jsstr) (rev available : Z)
  (note : list (jsstr * json)) (s : store) : store :=
  set_outbox
    (DispatchOutbox.enqueue now uuid
       (DispatchOutbox.mkEnqueue due_event job (Some rev)
          (Some ([(js "scheduledJobId", JStr job); (js "revision", JNum rev)] ++ note))
          (Some available)) (outbox s)).2 s.

Section Jobs.
Context (sha256 : jsstr → jsstr) (parse : ScheduledJobInput → option JobRequest).

(** ** Creation *)

Definition mode_text (m : ExecutionMode) : jsstr :=
  match m with read_only_audit => js "read_only_audit" | bounded_file_write => js "bounded_file_write" end.

Definition target_json (t : option DispatchTarget) : json :=
  match t with
  | Some (peer_pull p) => JObj [(js "kind", JStr (js "peer_pull")); (js "peerId", JStr p)]
  | _ => JObj [(js "kind", JStr (js "direct_acp"))]
  end.

Definition canonicalRequest (i : ScheduledJobInput) : json :=
  JObj
    [ (js "agentName", match in_agentName i with Some a => JStr a | None => JNull end);
      (js "dispatchTarget", target_json (in_dispatchTarget i));
      (js "executionMode", JStr (mode_text (in_executionMode i)));
      (js "instructionJson", in_instructionJson i);
      (js "maxRuntimeMs", JNum (in_maxRuntimeMs i));
      (js "ownerContextId", JStr (in_ownerContextId i));
      (js "policySnapshotJson", in_policySnapshotJson i);
      (js "principalId", JStr (in_principalId i));
      (js "projectId", JStr (in_projectId i));
      (js "runAt", JStr (text (in_runAt i)));
      (js "workspaceRoot", JStr (in_workspaceRoot i)) ].

(** [createHash("sha256").update(JSON.stringify(value))] *)
Definition canonicalFingerprint (v : json) : jsstr := sha256 (CanonicalJson.render v).

Definition new_job (k : jsstr) (now : Z) (i : ScheduledJobInput) (r : JobRequest) : Job :=
  {| id := k; request := r; agentName := in_agentName i;
     clientMutationId := in_clientMutationId i;
     requestFingerprint := if truthy (in_clientMutationId i)
                           then canonicalFingerprint (canonicalRequest i) else js "{}";
     createdAt := now; status := job_pending; revision := 1;
     workSessionId := in_workSessionId i; activeDispatchAttemptId := None;
     lifecycleEventCursor := 0;
     cancellation := mkCancellation None None None None None; retry := mkRetry 0 None None None;
     lastError := None; updatedAt := now; stamps := mkStamps None None None (Some now) |}.

(** The primary key and [scheduled_jobs_principal_mutation_unique] *)
Definition job_conflicts (n j : Job) : bool :=
  has_id (id n) j
  || bool_decide (is_Some (clientMutationId n))
     && bool_decide (clientMutationId j = clientMutationId n)
     && bool_decide (principalId (request j) = principalId (request n)).

(** [commitJob]; [now'] is the clock of the outbox. *)
Definition commitJob (now now' : Z) (uuid uuid' : jsstr) (i : ScheduledJobInput) (s : store)
  : res Error (Job * store) :=
  r ← require (parse i) request_invalid;
  let k := "sched_" +s uuid in
  let n := new_job k now i r in
  _ ← reject (existsb (job_conflicts n) (jobs s)) constraint_failed;
  let s1 := enqueueDue now' uuid' k 1 (collates (runAt r)) [] (set_jobs (insert_row n (jobs s)) s) in
  created ← require (get k s1) not_read_back;
  Ok (created, s1).

Definition create (now now' : Z) (uuid uuid' : jsstr) (i : ScheduledJobInput) (s : store)
  : res Error (Job * store) :=
  match in_clientMutationId i with
  | Some ((_ :: _) as m) =>
      match get_where (λ j, bool_decide (principalId (request j) = in_principalId i)
                            && bool_decide (clientMutationId j = Some m)) (jobs s) with
      | Some prior =>
          if requestFingerprint prior =s canonicalFingerprint (canonicalRequest i)
          then Ok (prior, s) else Err mutation_reused
      | None => commitJob now now' uuid uuid' i s
      end
  | _ => commitJob now now' uuid uuid' i s
  end.

(** ** Dispatch *)

Record DispatchClaim := mkClaim {
  c_jobId : jsstr; c_attemptId : jsstr; c_dispatchId : jsstr; c_leaseExpiresAt : Z; c_revision : Z }.

Record ClaimInput := mkClaimInput {
  ci_jobId : jsstr; ci_expectedRevision : Z; ci_dispatchAttemptId : option jsstr;
  ci_dispatcherInstanceId : jsstr; ci_leaseMs : option Z }.

Definition claimDispatch (now : Z) (uuid uuid' : jsstr) (i : ClaimInput) (s : store)
  : res Error (DispatchClaim * store) :=
  let attempt := default ("scha_" +s uuid) (ci_dispatchAttemptId i) in
  let dispatch := "disp_" +s uuid' in
  let expires := (now + default 60000 (ci_leaseMs i))%Z in
  let '(js', changes) :=
    update_where
      (λ j, has_id (ci_jobId i) j && at_revision (ci_expectedRevision i) j && in_status [job_due] j)
      (λ j, with_revision (ci_expectedRevision i + 1)
              (with_active (Some attempt) (move job_dispatching (Some job_due) now j)))
      (jobs s) in
  _ ← ensure (Nat.eqb changes 1) claim_conflict;
  _ ← reject (existsb (λ a, bool_decide (a_id a = attempt)) (attempts s)) constraint_failed;
  let a := mkAttempt attempt (ci_jobId i) dispatch now (ci_dispatcherInstanceId i) expires None
             tr_dispatching None no_acp no_execution no_diagnostics no_probe None in
  let s' := set_attempts (insert_row a (attempts s)) (set_jobs js' s) in
  row ← require (get (ci_jobId i) s') job_disappeared;
  Ok (mkClaim (ci_jobId i) attempt dispatch expires (revision row), s').

Record Blocker := mkBlocker {
  b_kind : BlockerKind; b_reason : jsstr; b_nextEligibleAt : option Z;
  b_lastAttemptedAgent : option jsstr; b_failureClass : option jsstr; b_probeResult : option json }.

Definition kind_text (k : BlockerKind) : jsstr :=
  match k with
  | temporary_dependency => js "temporary_dependency"
  | permanent_configuration => js "permanent_configuration"
  end.

(** [probeResult ? JSON.stringify(probeResult).slice(0, 4_000) : null] *)
Definition probe_text (p : option json) : option jsstr :=
  take 4000 <$> (CanonicalJson.render <$> p).

Record ReleaseInput := mkRelease {
  ri_jobId : jsstr; ri_dispatchAttemptId : jsstr; ri_expectedRevision : Z;
  ri_dispatcherInstanceId : jsstr; ri_blocker : option Blocker }.

Definition released_status (pending : bool) (b : option Blocker) : ScheduledJobStatus :=
  if pending then job_cancellation_requested
  else if bool_decide (b_kind <$> b = Some permanent_configuration) then job_blocked else job_due.

(** The columns of the blocker. *)
Definition set_blocker (b : option Blocker) (j : Job) : Job :=
  match b with
  | None => j
  | Some b =>
      let temporary := bool_decide (b_kind b = temporary_dependency) in
      with_error (Some (Redaction.redactedPreview (b_reason b) 1000))
        (with_retry
           (mkRetry (if temporary then retryCount (retry j) + 1 else retryCount (retry j))
              (if temporary then b_nextEligibleAt b else None) (b_lastAttemptedAgent b)
              (Some (b_kind b))) j)
  end.

Definition with_confirmed (c : CancellationState) (j : Job) : Job :=
  let k := cancellation j in
  with_cancellation (mkCancellation (requestId k) (previousStatus k) (requestedAt k)
                       (lastAttemptAt k) (Some c)) j.

Definition released_diagnostics (b : option Blocker) (d : Diagnostics) : Diagnostics :=
  {| d_agentName := b ≫= b_lastAttemptedAgent;
     dispatchFailureClass :=
       Some match b ≫= b_failureClass with
            | Some c => c
            | None => match b with Some b => kind_text (b_kind b) | None => js "released_unstarted" end
            end;
     dispatchFailureReason :=
       Some (Redaction.redactedPreview
               (match b with
                | Some b => b_reason b
                | None => js "Dispatch claim was released before a worker started."
                end) 1000);
     dispatchProbeResultJson := probe_text (b ≫= b_probeResult);
     nextEligibleAt := b ≫= b_nextEligibleAt;
     executionReceiptJson := executionReceiptJson d |}.

Definition releaseDispatch (now : Z) (i : ReleaseInput) (s : store) : res Error (Job * store) :=
  let current := get (ri_jobId i) s in
  let pending := match current with Some j => cancellationPending j | None => false end in
  let rev := match current with Some j => revision j | None => ri_expectedRevision i end in
  let next := released_status pending (ri_blocker i) in
  let '(js', job_changes) :=
    update_where
      (λ j, has_id (ri_jobId i) j && at_revision rev j
            && in_status [job_dispatching; job_cancellation_requested] j
            && is_active (ri_dispatchAttemptId i) j)
      (λ j, (if pending then with_confirmed not_dispatched else λ j, j)
              (with_revision (rev + 1) (with_active None (set_blocker (ri_blocker i)
                 (move next (status <$> current) now j)))))
      (jobs s) in
  let '(as', attempt_changes) :=
    update_where
      (λ a, attempt_is (ri_dispatchAttemptId i) (ri_jobId i) a
            && bool_decide (dispatcherInstanceId a = ri_dispatcherInstanceId i)
            && is_open a && bool_decide (outcome a = None))
      (λ a, with_completed (Some now) (with_transport tr_unstarted (with_outcome None
              (with_diagnostics (released_diagnostics (ri_blocker i) (diagnostics a)) a))))
      (attempts s) in
  _ ← ensure (Nat.eqb job_changes 1 && Nat.eqb attempt_changes 1) release_conflict;
  let s' := set_attempts as' (set_jobs js' s) in
  row ← require (get (ri_jobId i) s') job_disappeared;
  Ok (row, s').

(** [retryBlockedJob]; [now'] is the clock of the outbox. *)
Definition retryBlockedJob (now now' : Z) (uuid : jsstr) (job : jsstr)
  (expectedRevision : option Z) (s : store) : res Error (Job * store) :=
  current ← require (get job s) unknown_job;
  if negb (in_status [job_blocked] current) then Ok (current, s)
  else
    _ ← reject (match expectedRevision with
                | Some r => negb (at_revision r current)
                | None => false
                end) retry_conflict;
    let rev := (revision current + 1)%Z in
    let '(js', changes) :=
      update_where
        (λ j, has_id job j && at_revision (revision current) j && in_status [job_blocked] j)
        (λ j, with_revision rev (with_error None
                (with_retry (mkRetry (retryCount (retry j)) None (lastAttemptedAgent (retry j)) None)
                   (move job_due (Some (status current)) now j))))
        (jobs s) in
    _ ← ensure (Nat.eqb changes 1) retry_conflict;
    let s' := enqueueDue now' uuid job rev now [(js "reviewerRetried", JBool true)] (set_jobs js' s) in
    row ← require (get job s') job_disappeared;
    Ok (row, s').

Inductive DispatchOutcome := dispatched | uncertain | not_launched.

#[export] Instance DispatchOutcome_eq_dec : EqDecision DispatchOutcome.
Proof. solve_decision. Defined.

Definition outcome_text (o : DispatchOutcome) : jsstr :=
  match o with dispatched => js "dispatched" | uncertain => js "uncertain" | not_launched => js "failed" end.

Record CompleteInput := mkComplete {
  co_jobId : jsstr; co_dispatchAttemptId : jsstr; co_expectedRevision : Z;
  co_outcome : DispatchOutcome; co_dispatcherInstanceId : jsstr; co_workSessionId : option jsstr;
  co_acp : AcpIdentity; co_executionReceipt : option json; co_agentName : option jsstr;
  co_lastError : option jsstr; co_failureClass : option jsstr; co_probeResult : option json }.

Definition completed_status (o : DispatchOutcome) : ScheduledJobStatus :=
  match o with
  | dispatched => job_running
  | uncertain => job_uncertain_dispatch
  | not_launched => job_failed
  end.

(** The lifecycle of the active attempt is already past the dispatch. *)
Definition lifecycleAdvanced (attempt : jsstr) (j : Job) : bool :=
  is_active attempt j
  && (in_status [job_awaiting_approval] j
      || in_status [job_running] j && (0 <? lifecycleEventCursor j)%Z).

Definition completed_diagnostics (i : CompleteInput) : Diagnostics :=
  {| d_agentName := co_agentName i;
     dispatchFailureClass :=
       Some (default (if bool_decide (co_outcome i = dispatched) then js "accepted"
                      else "dispatch_" +s outcome_text (co_outcome i)) (co_failureClass i));
     dispatchFailureReason :=
       if bool_decide (co_outcome i = dispatched) then None
       else Some (Redaction.redactedPreview
                    (default ("Dispatch " +s outcome_text (co_outcome i) +s ".") (co_lastError i)) 1000);
     dispatchProbeResultJson := probe_text (co_probeResult i);
     nextEligibleAt := None;
     executionReceiptJson := CanonicalJson.render <$> co_executionReceipt i |}.

(** [input.workSessionId ?? undefined]: the column is set when a value is given. *)
Definition set_session_if (w : option jsstr) (j : Job) : Job :=
  match w with Some _ => with_session w j | None => j end.

Definition set_agent_if (a : option jsstr) (r : Retry) : Retry :=
  if truthy a then mkRetry (retryCount r) (retryAt r) a (blockerKind r) else r.

Definition completeDispatch (now : Z) (i : CompleteInput) (s : store) : res Error (Job * store) :=
  let failed := bool_decide (co_outcome i = not_launched) in
  current ← require (get (co_jobId i) s) completion_conflict;
  let pending := cancellationPending current in
  let advanced := lifecycleAdvanced (co_dispatchAttemptId i) current in
  _ ← reject (negb (is_active (co_dispatchAttemptId i) current)
              || negb pending && negb advanced
                 && (negb (in_status [job_dispatching] current)
                     || negb (at_revision (co_expectedRevision i) current))) completion_conflict;
  let next := if pending then job_cancellation_requested
              else if advanced then status current else completed_status (co_outcome i) in
  let '(js', job_changes) :=
    update_where
      (λ j, has_id (co_jobId i) j && at_revision (revision current) j
            && in_status [job_dispatching; job_running; job_awaiting_approval;
                          job_cancellation_requested] j
            && is_active (co_dispatchAttemptId i) j)
      (λ j, (if pending && failed then with_confirmed not_dispatched else λ j, j)
              (with_revision (revision current + 1)
                 (with_active (if failed then None else Some (co_dispatchAttemptId i))
                    (set_session_if (co_workSessionId i)
                       (with_retry
                          (let r := set_agent_if (co_agentName i) (retry j) in
                           mkRetry (retryCount r) None (lastAttemptedAgent r) None)
                          (with_error
                             (if truthy (co_lastError i)
                              then Some (Redaction.redactedPreview (or_empty (co_lastError i)) 1000)
                              else None)
                             (move next (Some (status current)) now j)))))))
      (jobs s) in
  let '(as', attempt_changes) :=
    update_where
      (λ a, attempt_is (co_dispatchAttemptId i) (co_jobId i) a
            && bool_decide (dispatcherInstanceId a = co_dispatcherInstanceId i) && is_open a)
      (λ a, with_completed (if failed then Some now else None)
              (with_transport (match co_outcome i with
                               | dispatched => tr_accepted
                               | uncertain => tr_uncertain
                               | not_launched => tr_rejected
                               end)
                 (with_outcome None (with_acp (co_acp i)
                    (with_diagnostics (completed_diagnostics i) a)))))
      (attempts s) in
  _ ← ensure (Nat.eqb job_changes 1 && Nat.eqb attempt_changes 1) completion_conflict;
  let s' := set_attempts as' (set_jobs js' s) in
  row ← require (get (co_jobId i) s') job_disappeared;
  Ok (row, s').

Inductive Resolution :=
| res_accepted | res_unstarted | res_failed | res_completed | res_cancelled
| res_operator_intervention.

#[export] Instance Resolution_eq_dec : EqDecision Resolution.
Proof. solve_decision. Defined.

Record ResolveInput := mkResolve {
  re_jobId : jsstr; re_dispatchAttemptId : jsstr; re_expectedRevision : Z;
  re_resolution : Resolution; re_workSessionId : option jsstr; re_acp : AcpIdentity;
  re_executionReceipt : option json; re_lastError : option jsstr }.

Definition resolved_terminal (r : Resolution) : option FinalOutcome :=
  match r with
  | res_failed => Some fin_failed
  | res_completed => Some fin_completed
  | res_cancelled => Some fin_cancelled
  | _ => None
  end.

Definition resolved_status (r : Resolution) : ScheduledJobStatus :=
  match r with
  | res_accepted => job_running
  | res_unstarted => job_due
  | res_failed => job_failed
  | res_completed => job_completed
  | res_cancelled => job_cancelled
  | res_operator_intervention => job_operator_intervention
  end.

Definition resolved_transport (r : Resolution) (run : option jsstr) : TransportStatus :=
  if bool_decide (r = res_accepted) || bool_decide (is_Some (resolved_terminal r)) && truthy run
  then tr_accepted
  else match r with
       | res_unstarted => tr_unstarted
       | res_failed => tr_rejected
       | res_operator_intervention => tr_uncertain
       | _ => tr_accepted
       end.

(** [x ?? undefined] over the four columns *)
Definition merge_acp (x y : AcpIdentity) : AcpIdentity :=
  mkAcp (match acpRunId x with Some v => Some v | None => acpRunId y end)
    (match acpDispatchId x with Some v => Some v | None => acpDispatchId y end)
    (match acpAttemptNumber x with Some v => Some v | None => acpAttemptNumber y end)
    (match acpRemoteRunId x with Some v => Some v | None => acpRemoteRunId y end).

Definition set_execution_receipt (r : option json) (d : Diagnostics) : Diagnostics :=
  match r with
  | None => d
  | Some v =>
      mkDiagnostics (d_agentName d) (dispatchFailureClass d) (dispatchFailureReason d)
        (dispatchProbeResultJson d) (nextEligibleAt d) (Some (CanonicalJson.render v))
  end.

Definition resolveDispatch (now : Z) (i : ResolveInput) (s : store) : res Error (Job * store) :=
  let r := re_resolution i in
  let current := get (re_jobId i) s in
  let pending := match current with Some j => cancellationPending j | None => false end in
  let keeps := bool_decide (r ∈ [res_accepted; res_unstarted; res_operator_intervention]) in
  let next := if pending && keeps then job_cancellation_requested else resolved_status r in
  let '(js', job_changes) :=
    update_where
      (λ j, has_id (re_jobId i) j && at_revision (re_expectedRevision i) j
            && is_active (re_dispatchAttemptId i) j
            && in_status [job_dispatching; job_uncertain_dispatch; job_operator_intervention;
                          job_cancellation_requested] j)
      (λ j, (if pending && bool_decide (r = res_unstarted) then with_confirmed not_dispatched
             else λ j, j)
              (with_revision (re_expectedRevision i + 1)
                 (with_active (if bool_decide (r ∈ [res_accepted; res_operator_intervention])
                               then Some (re_dispatchAttemptId i) else None)
                    (set_session_if (re_workSessionId i)
                       (with_error
                          (match re_lastError i with
                           | Some e => Some e
                           | None => if pending then current ≫= lastError else None
                           end)
                          (move next (status <$> current) now j))))))
      (jobs s) in
  let '(as', attempt_changes) :=
    update_where
      (λ a, attempt_is (re_dispatchAttemptId i) (re_jobId i) a && is_open a)
      (λ a, with_completed (if bool_decide (is_Some (resolved_terminal r))
                               || bool_decide (r = res_unstarted) then Some now else None)
              (with_transport (resolved_transport r (acpRunId (re_acp i)))
                 (with_outcome (resolved_terminal r) (with_acp (merge_acp (re_acp i) (acp a))
                    (with_diagnostics (set_execution_receipt (re_executionReceipt i) (diagnostics a))
                       a)))))
      (attempts s) in
  _ ← ensure (Nat.eqb job_changes 1 && Nat.eqb attempt_changes 1) reconciliation_conflict;
  let s' := set_attempts as' (set_jobs js' s) in
  row ← require (get (re_jobId i) s') job_disappeared;
  Ok (row, s').

Record TransitionInput := mkTransition {
  tr_jobId : jsstr; tr_expectedRevision : Z; tr_nextStatus : ScheduledJobStatus;
  tr_expectedSourceStatuses : list ScheduledJobStatus;
  tr_workSessionId : option (option jsstr); tr_lastError : option (option jsstr) }.

Definition transition (now : Z) (i : TransitionInput) (s : store) : res Error (Job * store) :=
  _ ← reject (bool_decide (tr_nextStatus i ∈ [job_cancellation_requested; job_cancelled]))
        cancellation_states;
  current ← require (get (tr_jobId i) s) unknown_job;
  let '(js', changes) :=
    update_where
      (λ j, has_id (tr_jobId i) j && at_revision (tr_expectedRevision i) j
            && match tr_expectedSourceStatuses i with [] => true | l => in_status l j end)
      (λ j, with_revision (tr_expectedRevision i + 1)
              ((match tr_workSessionId i with Some w => with_session w | None => λ j, j end)
                 ((match tr_lastError i with Some e => with_error e | None => λ j, j end)
                    (move (tr_nextStatus i) (Some (status current)) now j))))
      (jobs s) in
  _ ← ensure (Nat.eqb changes 1) transition_conflict;
  let s' := set_jobs js' s in
  row ← require (get (tr_jobId i) s') job_disappeared;
  Ok (row, s').

(** ** Cancellation *)

Definition cancellable : list ScheduledJobStatus :=
  [job_pending; job_due; job_dispatching; job_running; job_uncertain_dispatch;
   job_operator_intervention; job_reconciling; job_awaiting_approval; job_blocked].

Definition knownIdle (j : Job) : bool :=
  negb (truthy (activeDispatchAttemptId j)) && negb (truthy (workSessionId j)).

Definition requestCancellation (now : Z) (job : jsstr) (expectedRevision : Z) (request : jsstr)
  (reason : option jsstr) (s : store) : res Error (Job * store) :=
  current ← require (get job s) unknown_job;
  if in_status [job_cancelled; job_cancellation_requested] current then Ok (current, s)
  else
    _ ← reject (in_status [job_completed; job_failed] current) already_final;
    _ ← reject (negb (in_status cancellable current) || negb (at_revision expectedRevision current))
          cancellation_conflict;
    let '(js', changes) :=
      update_where (λ j, has_id job j && at_revision expectedRevision j)
        (λ j, with_revision (revision current + 1)
                (with_cancellation
                   (mkCancellation (Some request) (Some (status current)) (Some now) None
                      (Some (if knownIdle current then not_dispatched else unknown)))
                   (with_error
                      (Some (default (js "Cancellation requested; waiting for worker-state confirmation.")
                               reason))
                      (move job_cancellation_requested (Some (status current)) now j))))
        (jobs s) in
    _ ← ensure (Nat.eqb changes 1) cancellation_conflict;
    let s' := set_jobs js' s in
    row ← require (get job s') job_disappeared;
    Ok (row, s').

Definition with_request (k : jsstr) (j : Job) : bool :=
  bool_decide (requestId (cancellation j) = Some k).

Definition with_last_attempt (now : Z) (c : Cancellation) : Cancellation :=
  mkCancellation (requestId c) (previousStatus c) (requestedAt c) (Some now) (lastConfirmedState c).

Definition claimCancellationAttempt (now : Z) (job request : jsstr) (minimumIntervalMs : Z)
  (s : store) : bool * store :=
  let before := (now - Z.max 0 minimumIntervalMs)%Z in
  let '(js', changes) :=
    update_where
      (λ j, has_id job j && in_status [job_cancellation_requested] j && with_request request j
            && match lastAttemptAt (cancellation j) with None => true | Some t => (t <=? before)%Z end)
      (λ j, with_revision (revision j + 1)
              (with_updated now (with_cancellation (with_last_attempt now (cancellation j)) j)))
      (jobs s) in
  (Nat.eqb changes 1, set_jobs js' s).

Definition recordCancellationEvidence (now : Z) (job request : jsstr) (state : CancellationState)
  (error : option jsstr) (s : store) : res Error (Job * store) :=
  let '(js', changes) :=
    update_where
      (λ j, has_id job j && in_status [job_cancellation_requested] j && with_request request j)
      (λ j, with_revision (revision j + 1)
              (with_updated now (with_error error (with_confirmed state j))))
      (jobs s) in
  _ ← ensure (Nat.eqb changes 1) evidence_conflict;
  let s' := set_jobs js' s in
  row ← require (get job s') job_disappeared;
  Ok (row, s').

Definition finalizeCancellation (now : Z) (job request : jsstr) (state : CancellationState)
  (reason : option jsstr) (s : store) : res Error (Job * store) :=
  let '(js', changes) :=
    update_where
      (λ j, has_id job j && in_status [job_cancellation_requested] j && with_request request j
            && bool_decide (lastConfirmedState (cancellation j) = Some state))
      (λ j, with_revision (revision j + 1)
              (with_active None (with_confirmed state
                 (with_error (Some (default (js "Scheduled job cancellation confirmed.") reason))
                    (move job_cancelled (Some job_cancellation_requested) now j)))))
      (jobs s) in
  _ ← ensure (Nat.eqb changes 1) not_confirmed;
  let as' :=
    (update_where (λ a, bool_decide (jobId a = job) && is_open a)
       (λ a, with_completed (Some now) (with_outcome (Some fin_cancelled) a)) (attempts s)).1 in
  let s' := set_attempts as' (set_jobs js' s) in
  row ← require (get job s') job_disappeared;
  Ok (row, s').

(** ** Bindings and probes *)

Definition bindWorkSession (now : Z) (job attempt session : jsstr) (s : store)
  : res Error (Job * store) :=
  let '(js', changes) :=
    update_where
      (λ j, has_id job j && is_active attempt j
            && in_status [job_dispatching; job_running; job_uncertain_dispatch;
                          job_operator_intervention; job_cancellation_requested] j)
      (λ j, with_updated now (with_session (Some session) j)) (jobs s) in
  _ ← ensure (Nat.eqb changes 1) session_conflict;
  let s' := set_jobs js' s in
  row ← require (get job s') job_disappeared;
  Ok (row, s').

(** [Number.isSafeInteger] *)
Definition safe_integer (z : Z) : bool := (Z.abs z <=? 2 ^ 53 - 1)%Z.

Record BindInput := mkBind {
  bi_jobId : jsstr; bi_dispatchAttemptId : jsstr; bi_workSessionId : jsstr;
  bi_dispatchIdempotencyKey : jsstr; bi_runId : jsstr; bi_attemptNumber : Z }.

Definition bindAcpAttempt (i : BindInput) (s : store) : res Error store :=
  _ ← reject (negb (nonempty (trim (bi_runId i)))
              || negb (nonempty (trim (bi_dispatchIdempotencyKey i)))
              || negb (safe_integer (bi_attemptNumber i)) || (bi_attemptNumber i <? 1)%Z)
        identity_invalid;
  job ← require (get (bi_jobId i) s) binding_conflict;
  a ← require (get_where (attempt_is (bi_dispatchAttemptId i) (bi_jobId i)) (attempts s))
        binding_conflict;
  _ ← reject (negb (is_active (bi_dispatchAttemptId i) job)
              || negb (in_status [job_dispatching] job)
              || negb (bool_decide (workSessionId job = Some (bi_workSessionId i)))
              || negb (bool_decide (dispatchId a = bi_dispatchIdempotencyKey i))
              || negb (is_open a) || bool_decide (is_Some (outcome a))) binding_conflict;
  let bound := mkAcp (Some (bi_runId i)) (Some (bi_dispatchIdempotencyKey i))
                 (Some (bi_attemptNumber i)) (acpRemoteRunId (acp a)) in
  if bool_decide (is_Some (acpRunId (acp a))) || bool_decide (is_Some (acpAttemptNumber (acp a)))
     || bool_decide (is_Some (acpDispatchId (acp a)))
  then
    _ ← ensure (bool_decide (acpRunId (acp a) = acpRunId bound)
                && bool_decide (acpAttemptNumber (acp a) = acpAttemptNumber bound)
                && bool_decide (acpDispatchId (acp a) = acpDispatchId bound)) already_bound;
    Ok s
  else
    let '(as', changes) :=
      update_where
        (λ x, attempt_is (bi_dispatchAttemptId i) (bi_jobId i) x
              && bool_decide (dispatchId x = bi_dispatchIdempotencyKey i)
              && bool_decide (acpRunId (acp x) = None)
              && bool_decide (acpAttemptNumber (acp x) = None)
              && is_open x && bool_decide (outcome x = None))
        (λ x, with_acp (mkAcp (acpRunId bound) (acpDispatchId bound) (acpAttemptNumber bound)
                          (acpRemoteRunId (acp x))) x) (attempts s) in
    _ ← ensure (Nat.eqb changes 1) could_not_bind;
    Ok (set_attempts as' s).

(** The backoff of [recordReconcileProbe]; [random] over [2 ^ 53] is [Math.random()]. *)
Definition backoff_base (count : Z) : Z := Z.min (2 ^ count * 1000) 600000.
Definition backoff_jitter (random count : Z) : Z :=
  (random * Z.min (backoff_base count / 4) 60000 / 2 ^ 53)%Z.

Definition recordReconcileProbe (now random : Z) (job attempt evidence : jsstr) (s : store) : store :=
  match get_where (attempt_is attempt job) (attempts s) with
  | None => s
  | Some row =>
      let count := (reconcileProbeCount (probe row) + 1)%Z in
      let next := (now + backoff_base count + backoff_jitter random count)%Z in
      set_attempts
        (update_where (λ a, bool_decide (a_id a = attempt))
           (with_probe (mkProbe count (Some next) (Some (take 2000 evidence)))) (attempts s)).1 s
  end.

(** ** Reports *)

(** [Buffer.byteLength(s, "utf8")]; a lone surrogate becomes the replacement character. *)
Fixpoint utf8_length (s : jsstr) : Z :=
  match s with
  | [] => 0
  | c :: t =>
      if (c <? 128)%N then 1 + utf8_length t
      else if (c <? 2048)%N then 2 + utf8_length t
      else
        match t with
        | d :: t' =>
            if CanonicalJson.leading_surrogate c && CanonicalJson.trailing_surrogate d
            then 4 + utf8_length t' else 3 + utf8_length t
        | [] => 3
        end
  end%Z.

Definition REPORT_LIMIT : Z := 8 * 1024 * 1024.

(** [scheduledReportRunKey] *)
Definition scheduledReportRunKey (run : jsstr) (number : Z) : jsstr :=
  run +s "#attempt:" +s numeral number.

Definition report_of (job run : jsstr) (r : Report) : bool :=
  bool_decide (r_jobId r = job) && bool_decide (r_runId r = run).

(** [persistReportWithinTransaction]; the conflict on (job, run) is ignored. *)
Definition persistReportWithinTransaction (now : Z) (uuid job run report : jsstr) (s : store)
  : res Error (Report * store) :=
  _ ← ensure (nonempty (trim run)) run_missing;
  _ ← reject (REPORT_LIMIT <? utf8_length report)%Z report_too_large;
  let sha := sha256 report in
  let n := mkReport ("sched_report_" +s uuid) job run sha report now in
  let t := if existsb (report_of job run) (reports s) then reports s else insert_row n (reports s) in
  existing ← require (get_where (report_of job run) t) report_changed;
  _ ← ensure (reportSha256 existing =s sha) report_changed;
  Ok (existing, set_reports t s).

Definition persistReport (now : Z) (uuid job run report : jsstr) (s : store)
  : res Error (Report * store) :=
  _ ← require (get job s) unknown_job;
  persistReportWithinTransaction now uuid job run report s.

Definition getReport (job sha : jsstr) (s : store) : option Report :=
  get_where (λ r, bool_decide (r_jobId r = job) && bool_decide (reportSha256 r = sha)) (reports s).

Definition getReportForAttempt (job run : jsstr) (number : Z) (s : store) : option Report :=
  get_where (report_of job (scheduledReportRunKey run number)) (reports s).

Definition finalization_of (job run : jsstr) (number : Z) (f : Finalization) : bool :=
  bool_decide (f_jobId f = job) && bool_decide (f_runId f = run) && (f_attemptNumber f =? number)%Z.

Definition getReportFinalization (job run : jsstr) (number : Z) (s : store) : option Finalization :=
  get_where (finalization_of job run number) (finalizations s).

Definition is_pending (k : jsstr) (f : Finalization) : bool :=
  bool_decide (f_id f = k) && bool_decide (f_status f = f_pending).

Definition set_finalized (now : Z) (sha : jsstr) (f : Finalization) : Finalization :=
  mkFinalization (f_id f) (f_jobId f) (f_runId f) (f_attemptNumber f) (eventId f) f_completed
    None (Some sha) None (f_createdAt f) now.

Definition set_finalization_error (now : Z) (e : jsstr) (f : Finalization) : Finalization :=
  mkFinalization (f_id f) (f_jobId f) (f_runId f) (f_attemptNumber f) (eventId f) (f_status f)
    (f_reportText f) (f_reportSha256 f) (Some e) (f_createdAt f) now.

(** [finalizeReportObligationWithinTransaction] *)
Definition finalizeReportObligationWithinTransaction (now : Z) (uuid : jsstr) (o : Finalization)
  (s : store) : res Error store :=
  match f_status o, f_reportText o with
  | f_completed, _ | _, None => Ok s
  | _, Some report =>
      '(artifact, s1) ← persistReportWithinTransaction now uuid (f_jobId o)
                          (scheduledReportRunKey (f_runId o) (f_attemptNumber o)) report s;
      Ok (set_finalizations
            (update_where (is_pending (f_id o)) (set_finalized now (reportSha256 artifact))
               (finalizations s1)).1 s1)
  end.

(** [error.message] of what a finalization throws. *)
Definition error_message (e : Error) : jsstr :=
  match e with
  | run_missing => js "Scheduled report requires a correlated ACP run ID."
  | report_too_large => js "Scheduled report exceeds the 8 MiB immutable artifact limit."
  | _ => js "Scheduled ACP report changed after its immutable artifact was recorded."
  end.

(** The obligation is finalized, or its error recorded. *)
Definition try_finalize (now : Z) (uuid : jsstr) (o : Finalization) (s : store) : store :=
  match finalizeReportObligationWithinTransaction now uuid o s with
  | Ok s' => s'
  | Err e =>
      set_finalizations
        (update_where (is_pending (f_id o))
           (set_finalization_error now (take 2000 (error_message e))) (finalizations s)).1 s
  end.

Definition le_updated (a b : Finalization) : bool :=
  (f_updatedAt a <? f_updatedAt b)%Z
  || (f_updatedAt a =? f_updatedAt b)%Z && negb (js_ltb (f_id b) (f_id a)).

(** One turn of the loop; the count of those that are completed. *)
Definition finalize_one (now : Z) (uuid : jsstr) (o : Finalization) (acc : Z * store) : Z * store :=
  let s' := try_finalize now uuid o acc.2 in
  ((if bool_decide (f_status <$> by_key f_id (f_id o) (finalizations s') = Some f_completed)
       && is_ok (finalizeReportObligationWithinTransaction now uuid o acc.2)
    then acc.1 + 1 else acc.1)%Z, s').

(** [reconcilePendingReportFinalizations]; each turn of the loop has a clock reading and an id. *)
Definition reconcilePendingReportFinalizations (clock : jsstr → Z * jsstr) (l : Z) (s : store)
  : Z * store :=
  foldl (λ acc o, finalize_one (clock (f_id o)).1 (clock (f_id o)).2 o acc) (0%Z, s)
    (limit (Z.to_nat (Z.max 1 (Z.min 250 l)))
       (order_by le_updated
          (select_where (λ f, bool_decide (f_status f = f_pending)) (finalizations s)))).

(** ** Projection of events *)

(** [EventStoreEvent] *)
Record StoreEvent := mkStoreEvent {
  ev_id : jsstr; durable : bool; ev_seq : Z; sessionId : jsstr; event : LifecycleEvent }.

(** [Number.isInteger(payload.attemptNumber)], and truthy *)
Definition event_attempt_number (e : LifecycleEvent) : option Z :=
  as_integer (jfield "attemptNumber" (ev_payload e)).

(** The event names an ACP identity for an attempt that has none yet. *)
Definition bindsInitialAttempt (e : LifecycleEvent) (a : Attempt) : bool :=
  negb (truthy (acpRunId (acp a))) && truthy (payload_string "runId" e)
  && bool_decide (payload_string "dispatchId" e = Some (dispatchId a))
  && truthy_number (event_attempt_number e).

(** The event names a newer attempt of the same run. *)
Definition advancesAttempt (e : LifecycleEvent) (a : Attempt) : bool :=
  truthy_number (event_attempt_number e)
  && match payload_string "runId" e with
     | Some r => bool_decide (acpRunId (acp a) = Some r)
     | None => false
     end
  && (negb (truthy_number (acpAttemptNumber (acp a)))
      || (default 0 (acpAttemptNumber (acp a)) <? default 0 (event_attempt_number e))%Z)
  && truthy (payload_string "dispatchId" e).

Definition binds (e : LifecycleEvent) (a : Attempt) : bool :=
  truthy_number (event_attempt_number e) && truthy (payload_string "runId" e)
  && truthy (payload_string "dispatchId" e)
  && (bindsInitialAttempt e a || advancesAttempt e a).

Definition bound_attempt (e : LifecycleEvent) (a : Attempt) : Attempt :=
  if binds e a
  then with_acp (mkAcp (if bindsInitialAttempt e a then payload_string "runId" e
                        else acpRunId (acp a))
                   (payload_string "dispatchId" e) (event_attempt_number e)
                   (payload_string "remoteRunId" e)) a
  else a.

(** The identity the projection compares with; [{}] without an active attempt. *)
Definition attempt_identity (a : option Attempt) : ScheduledLifecycle.Attempt :=
  match a with
  | None => ScheduledLifecycle.mkAttempt None None None None
  | Some a =>
      ScheduledLifecycle.mkAttempt (Some (default (dispatchId a) (acpDispatchId (acp a))))
        (acpRunId (acp a)) (acpAttemptNumber (acp a)) (acpRemoteRunId (acp a))
  end.

Definition job_cancellation (j : Job) : ScheduledLifecycle.Cancellation :=
  ScheduledLifecycle.mkCancellation (requestedAt (cancellation j)) (previousStatus (cancellation j)).

(** What the projection does to the active time of the worker. *)
Definition execution_after (e : LifecycleEvent) (p : Projection) (advances : bool) (x : Execution)
  : Execution :=
  if executionStarted p then
    {| executionStartedAt := Some (default (ev_createdAt e) (executionStartedAt x));
       executionActiveSince := Some (default (ev_createdAt e) (executionActiveSince x));
       activeRuntimeMs := activeRuntimeMs x;
       executionStoppedAt := None;
       workerExecutionOutcome := if advances then None else workerExecutionOutcome x;
       workerExecutionAt := if advances then None else workerExecutionAt x |}
  else
    {| executionStartedAt := executionStartedAt x;
       executionActiveSince := None;
       activeRuntimeMs :=
         (Z.max 0 (activeRuntimeMs x)
          + match executionActiveSince x with
            | Some since => Z.max 0 (ev_createdAt e - since)
            | None => 0
            end)%Z;
       executionStoppedAt := Some (ev_createdAt e);
       workerExecutionOutcome := match ScheduledLifecycle.workerExecutionOutcome p with
                                 | Some o => Some o
                                 | None => workerExecutionOutcome x
                                 end;
       workerExecutionAt := match ScheduledLifecycle.workerExecutionOutcome p with
                            | Some _ => Some (ev_createdAt e)
                            | None => workerExecutionAt x
                            end |}.

Definition touches_execution (p : Projection) : bool :=
  executionStarted p || executionPaused p || executionStopped p
  || bool_decide (is_Some (finalWorkerOutcome p)).

(** The active attempt after the event was bound to it and projected on it. *)
Definition projected_attempt (e : LifecycleEvent) (p : Projection) (a : Attempt) : Attempt :=
  let b := bound_attempt e a in
  if touches_execution p
  then with_execution (execution_after e p (advancesAttempt e a) (execution b)) b else b.

Definition terminal_status (j : Job) (p : Projection) : option ScheduledJobStatus :=
  if autonomousCompletion p && bool_decide (executionMode (request j) = bounded_file_write)
  then Some job_completed else nextStatus p.

(** The update of the job. *)
Definition projected_job (now seq : Z) (p : Projection) (row j : Job) : Job :=
  let st := terminal_status row p in
  let terminal := match st with Some x => DEFINITIVE_TERMINAL_JOB_STATUSES x | None => false end in
  with_cursor seq
    (with_error (match ScheduledLifecycle.lastError p with
                 | Some m => Some m
                 | None => if bool_decide (is_Some (nextStatus p)) then None else lastError j
                 end)
       (with_revision (if terminal then revision row + 1 else revision row)
          (with_active (if terminal then None else activeDispatchAttemptId j)
             (match st with
              | Some x => move x (Some (status row)) now j
              | None => with_updated now j
              end)))).

(** The attempt of a job that reached its end. *)
Definition closed_attempt (now : Z) (e : LifecycleEvent) (p : Projection) (a : Attempt) : Attempt :=
  with_completed (Some (default now (completedAt a)))
    (with_outcome (match finalWorkerOutcome p with Some o => Some o | None => outcome a end)
       (with_transport (if bool_decide (transportStatus a = tr_uncertain) then tr_accepted
                        else transportStatus a)
          (with_acp (mkAcp (match acpRunId (acp a) with
                            | Some r => Some r
                            | None => payload_string "runId" e
                            end)
                       (acpDispatchId (acp a)) (acpAttemptNumber (acp a)) (acpRemoteRunId (acp a))) a))).

(** [recordReportFinalizationObligation] *)
Definition report_outcomes (t : EventType) : bool :=
  match t with
  | turn_completed | run_completed | run_failed | run_failed_protocol | run_cancelled
  | attempt_failed | attempt_exited => true
  | _ => false
  end.

(** The identity of the event is that of the attempt, binds it, or advances it. *)
Definition obligation_identity (e : LifecycleEvent) (run dispatch : jsstr) (number : Z) (a : Attempt)
  : bool :=
  let expected := default (dispatchId a) (acpDispatchId (acp a)) in
  bool_decide (dispatch = expected)
  && (negb (truthy (acpRunId (acp a)))
      || bool_decide (acpRunId (acp a) = Some run)
         && ((default 0 (acpAttemptNumber (acp a)) <? number)%Z
             || bool_decide (acpAttemptNumber (acp a) = Some number)))
  && (negb (truthy (acpRemoteRunId (acp a)))
      || bool_decide (payload_string "remoteRunId" e = acpRemoteRunId (acp a))).

Definition new_obligation (now : Z) (uuid : jsstr) (ev : StoreEvent) (job run : jsstr) (number : Z)
  : Finalization :=
  let report := match payload_string "final_output" (event ev) with
                | Some ((_ :: _) as t) => Some t
                | _ => None
                end in
  let unavailable :=
    bool_decide (payload_string "report_availability" (event ev) = Some (js "unavailable")) in
  {| f_id := "sched_finalization_" +s uuid; f_jobId := job; f_runId := run;
     f_attemptNumber := number; eventId := ev_id ev;
     f_status := match report with
                 | Some _ => f_pending
                 | None => if unavailable then f_unavailable else f_no_output
                 end;
     f_reportText := report; f_reportSha256 := None;
     f_lastError := match report with
                    | Some _ => None
                    | None => Some (if unavailable
                                    then js "This execution stopped before an authoritative ACP report was available."
                                    else js "The authoritative ACP prompt response contained no report text.")
                    end;
     f_createdAt := now; f_updatedAt := now |}.

(** The obligation the event gives rise to. *)
Definition report_obligation (now : Z) (uuid : jsstr) (ev : StoreEvent) (s : store)
  : option Finalization :=
  let e := event ev in
  if negb (report_outcomes (event_type (ev_type e))) || negb (nonempty (sessionId ev))
     || negb (nonempty (ev_id ev)) then None
  else
    match payload_string "runId" e, payload_string "dispatchId" e, event_attempt_number e with
    | Some ((_ :: _) as run), Some ((_ :: _) as dispatch), Some number =>
        if (number <=? 0)%Z then None
        else
          j ← session_job (sessionId ev) s;
          k ← activeDispatchAttemptId j;
          a ← (if nonempty k then get_where (attempt_is k (id j)) (attempts s) else None);
          if negb (obligation_identity e run dispatch number a) then None
          else
            let p := projectScheduledJobLifecycleEvent (status j) e (Some (job_cancellation j))
                       (Some (ScheduledLifecycle.mkAttempt
                                (Some (default (dispatchId a) (acpDispatchId (acp a))))
                                (Some run) (Some number) (payload_string "remoteRunId" e))) in
            match ScheduledLifecycle.workerExecutionOutcome p with
            | None => None
            | Some _ => Some (new_obligation now uuid ev (id j) run number)
            end
    | _, _, _ => None
    end.

(** [insert ... on conflict (job_id, run_id, attempt_number) do nothing] *)
Definition recordReportFinalizationObligation (now : Z) (uuid : jsstr) (ev : StoreEvent) (s : store)
  : store :=
  match report_obligation now uuid ev s with
  | None => s
  | Some f =>
      if existsb (finalization_of (f_jobId f) (f_runId f) (f_attemptNumber f)) (finalizations s)
      then s else set_finalizations (insert_row f (finalizations s)) s
  end.

(** The clock readings and the ids of [projectEvent]. *)
Record Readings := mkReadings {
  obligation_now : Z; obligation_uuid : jsstr; report_now : Z; report_uuid : jsstr;
  state_now : Z; completed_now : Z }.

(** The active attempt of a row. *)
Definition active_attempt (row : Job) (s : store) : option Attempt :=
  match activeDispatchAttemptId row with
  | Some k => if nonempty k then find_attempt k s else None
  | None => None
  end.

(** The event projected on the row, whose active attempt is [found]. *)
Definition row_projection (e : LifecycleEvent) (row : Job) (found : option Attempt) : Projection :=
  projectScheduledJobLifecycleEvent (status row) e (Some (job_cancellation row))
    (Some (attempt_identity (bound_attempt e <$> found))).

(** The update of the active attempt. *)
Definition project_attempt (e : LifecycleEvent) (p : Projection) (found : option Attempt)
  (s : store) : store :=
  match found with
  | None => s
  | Some a =>
      set_attempts
        (update_where (λ x, bool_decide (a_id x = a_id a)) (projected_attempt e p) (attempts s)).1 s
  end.

(** The pending report of the worker that stopped. *)
Definition project_report (t : Readings) (e : LifecycleEvent) (p : Projection) (row : Job)
  (found : option Attempt) (s : store) : store :=
  match ScheduledLifecycle.workerExecutionOutcome p, found with
  | Some _, Some _ =>
      match getReportFinalization (id row) (or_empty (payload_string "runId" e))
              (default 0%Z (event_attempt_number e)) s with
      | Some o => if bool_decide (f_status o = f_pending)
                  then try_finalize (report_now t) (report_uuid t) o s else s
      | None => s
      end
  | _, _ => s
  end.

Definition reaches_end (row : Job) (p : Projection) : bool :=
  match terminal_status row p with Some x => DEFINITIVE_TERMINAL_JOB_STATUSES x | None => false end.

(** The attempt of a job that reached its end is closed. *)
Definition project_end (t : Readings) (e : LifecycleEvent) (p : Projection) (row : Job)
  (found : option Attempt) (s : store) : store :=
  match found with
  | Some a =>
      if reaches_end row p
      then set_attempts
             (update_where (λ x, bool_decide (a_id x = a_id a))
                (closed_attempt (completed_now t) e p) (attempts s)).1 s
      else s
  | None => s
  end.

(** The transaction of [projectEvent] on the job [row] of the session. *)
Definition project_row (t : Readings) (ev : StoreEvent) (row : Job) (s : store)
  : res Error (Job * store) :=
  let e := event ev in
  let found := active_attempt row s in
  let p := row_projection e row found in
  let s1 := project_report t e p row found (project_attempt e p found s) in
  let '(js', changes) :=
    update_where
      (λ j, has_id (id row) j && at_revision (revision row) j
            && (lifecycleEventCursor j <? ev_seq ev)%Z)
      (projected_job (state_now t) (ev_seq ev) p row) (jobs s1) in
  _ ← ensure (Nat.eqb changes 1) projection_conflict;
  let s2 := project_end t e p row found (set_jobs js' s1) in
  j ← require (get (id row) s2) job_disappeared;
  Ok (j, s2).

(** [projectEvent]: what it returns or throws, and the store; the obligation stays recorded when
    the transaction throws. *)
Definition projectEvent (t : Readings) (ev : StoreEvent) (s : store)
  : res Error (option Job) * store :=
  if negb (durable ev) || (ev_seq ev <=? 0)%Z || negb (nonempty (sessionId ev)) then (Ok None, s)
  else
    let s' := recordReportFinalizationObligation (obligation_now t) (obligation_uuid t) ev s in
    match session_job (sessionId ev) s' with
    | None => (Ok None, s')
    | Some row =>
        if (ev_seq ev <=? lifecycleEventCursor row)%Z then (Ok (Some row), s')
        else match project_row t ev row s' with
             | Ok (j, s'') => (Ok (Some j), s'')
             | Err x => (Err x, s')
             end
    end.

(** ** Statements of the runtime *)

(** [markDue] of [scheduled-job-runtime.ts] *)
Definition markDue (now : Z) (job : jsstr) (s : store) : option Z * store :=
  let '(js', changes) :=
    update_where (λ j, has_id job j && in_status [job_pending] j)
      (λ j, with_revision (revision j + 1)
              (with_status job_due (with_updated now
                 (with_stamps (mkStamps (terminalAt (stamps j)) (blockedAt (stamps j))
                                 (operatorInterventionAt (stamps j)) (Some now)) j)))) (jobs s) in
  let s' := set_jobs js' s in
  if Nat.eqb changes 1 then (revision <$> get job s', s') else (None, s').

(** One row of [reconcileNonterminalJobs]: a row the scan read is armed again.  The instant of
    [run_at] decides its status, its text the availability of the event. *)
Definition rearm (now now' : Z) (uuid : jsstr) (row : Job) (s : store) : store :=
  let next := if (instant (runAt (request row)) <=? now)%Z then job_due else job_pending in
  let s1 :=
    if in_status [job_reconciling] row then
      set_jobs
        (update_where
           (λ j, has_id (id row) j && in_status [job_pending; job_due; job_reconciling] j
                 && at_revision (revision row) j)
           (λ j, with_status next (with_updated now
              (with_stamps (mkStamps (terminalAt (stamps j)) (blockedAt (stamps j))
                              (operatorInterventionAt (stamps j))
                              (if bool_decide (status j = next) then lastStateChangedAt (stamps j)
                               else Some now)) j))) (jobs s)).1 s
    else s in
  enqueueDue now' uuid (id row) (revision row) (collates (runAt (request row)))
    [(js "reconciled", JBool true)] s1.

End Jobs.
End ScheduledJobs.
