(* ===== verification/ScheduledPublications.v ===== *)
(** * Publication receipts of bounded-write jobs ([scheduled-job-store.ts], [acp/http/event-routes.ts])

    A job that may write files lists its authorized outputs in its policy.  Before the publisher
    writes an output it records an intent on the active attempt; the receipt of the committed file
    replaces the intent.  When the worker reports completion, the event route looks at the receipts
    to decide whether the job completed on its own.  The file models the three operations of the
    store, the list of pending intents and that decision. *)

From S2P Require Import Prelude JsString Json Sql CanonicalJson Redaction ScheduledLifecycle ScheduledJobs.

Module ScheduledPublications.
Import ScheduledJobs.

Definition Fields : Type := list (jsstr * json).

Inductive PublicationError :=
| intent_unbound | intent_stale | intent_identity | intent_unauthorized | intent_conflict
| intent_not_stored
| receipt_unknown_job | receipt_wrong_mode | receipt_unbound | receipt_not_committed
| receipt_no_attempt | receipt_attempt_gone | receipt_identity | receipt_number
| receipt_unauthorized | receipt_content | receipt_conflict | receipt_no_intent
| receipt_intent_differs | receipt_stale | receipt_not_stored
| publication_type_error.

(** ** JavaScript operators on JSON values *)

(** [a === b]; two objects that were parsed apart are never identical. *)
Definition strict_eq (a b : option json) : bool :=
  match a, b with
  | None, None => true
  | Some JNull, Some JNull => true
  | Some (JBool x), Some (JBool y) => Bool.eqb x y
  | Some (JNum x), Some (JNum y) => (x =? y)%Z
  | Some (JFrac x), Some (JFrac y) => x =s y
  | Some (JStr x), Some (JStr y) => x =s y
  | _, _ => false
  end.

(** A column that may be null, as a value. *)
Definition column (o : option jsstr) : option json :=
  Some match o with Some s => JStr s | None => JNull end.

(** [output?.k] *)
Definition member (k : jsstr) (v : json) : option json :=
  match v with JObj fs => jfield k fs | _ => None end.

(** [typeof v === "string" ? v : undefined], as a value *)
Definition string_or_undefined (v : option json) : option json := JStr <$> as_string v.

(** [Number.isSafeInteger(v) && Number(v) >= 0] *)
Definition safe_count (v : option json) : bool :=
  match v with Some (JNum z) => safe_integer z && (0 <=? z)%Z | _ => false end.

(** [/^[a-f0-9]{64}$/] *)
Definition hex64 (s : jsstr) : bool :=
  Nat.eqb (length s) 64 && forallb (λ c, (48 <=? c) && (c <=? 57) || (97 <=? c) && (c <=? 102))%N s.

(** [policy.allowedOutputs?.find((output) => output?.path === path)] *)
Definition authorized_output (policy : Fields) (path : option json)
  : res PublicationError (option json) :=
  match jfield "allowedOutputs" policy with
  | None | Some JNull => Ok None
  | Some (JArr l) => Ok (List.find (λ o, strict_eq (member "path" o) path) l)
  | Some _ => Err publication_type_error
  end.

Definition set_field (k : jsstr) (v : json) (fs : Fields) : Fields :=
  if existsb (λ kv, kv.1 =s k) fs
  then List.map (λ kv, if kv.1 =s k then (kv.1, v) else kv) fs else fs ++ [(k, v)].

Definition receipts_of (a : Attempt) : list Fields := default [] (publicationReceipts a).

(** Writing the list to the attempt, under a condition. *)
Definition store_receipts (p : Attempt → bool) (l : list Fields) (s : store) : nat * store :=
  let '(as', changes) := update_where p (with_receipts (Some l)) (attempts s) in
  (changes, set_attempts as' s).

(** [column.acp_attempt_number = value] *)
Definition number_is (n : Z) (a : Attempt) : bool := bool_decide (acpAttemptNumber (acp a) = Some n).

(** ** Intents *)

Definition intent_authorized (authorized : json) (intent : Fields) : bool :=
  let f k := jfield k intent in
  strict_eq (member "operation" authorized) (f (js "operation"))
  && match as_string (f (js "sha256")) with Some h => hex64 h | None => false end
  && (strict_eq (member "expectedSha256" authorized) None
      || strict_eq (member "expectedSha256" authorized) (f (js "sha256")))
  && (negb (strict_eq (member "overwrite" authorized) (Some (JStr (js "expected_hash"))))
      || strict_eq (member "expectedPreviousSha256" authorized) (f (js "expectedPreviousSha256")))
  && (negb (strict_eq (member "overwrite" authorized) (Some (JStr (js "deny"))))
      || strict_eq (f (js "expectedPreviousSha256")) None)
  && safe_count (f (js "bytes"))
  && truthy (as_string (f (js "receiptId")))
  && strict_eq (f (js "state")) (Some (JStr (js "pending"))).

(** The attempt is live and has the identity the intent names. *)
Definition intent_matches (intent : Fields) (a : Attempt) : bool :=
  is_open a && bool_decide (outcome a = None)
  && match acpAttemptNumber (acp a) with
     | Some n => safe_integer n && strict_eq (jfield "attemptNumber" intent) (Some (JNum n))
     | None => false
     end
  && truthy (acpRunId (acp a))
  && strict_eq (jfield "runId" intent) (column (acpRunId (acp a)))
  && strict_eq (jfield "dispatchIdempotencyKey" intent) (column (acpDispatchId (acp a))).

Definition recordPublicationIntent (job : jsstr) (intent : Fields) (s : store)
  : res PublicationError store :=
  j ← require (get job s) intent_unbound;
  _ ← ensure (bool_decide (executionMode (request j) = bounded_file_write)
              && truthy (workSessionId j)
              && strict_eq (column (workSessionId j)) (jfield "workSessionId" intent)) intent_unbound;
  k ← require (activeDispatchAttemptId j) intent_stale;
  _ ← ensure (nonempty k && strict_eq (jfield "attemptId" intent) (Some (JStr k))) intent_stale;
  a ← require (get_where (attempt_is k job) (attempts s)) intent_identity;
  _ ← ensure (intent_matches intent a) intent_identity;
  found ← authorized_output (policySnapshotJson (request j))
            (string_or_undefined (jfield "path" intent));
  authorized ← require found intent_unauthorized;
  _ ← ensure (intent_authorized authorized intent) intent_unauthorized;
  match List.find (λ c, strict_eq (jfield "receiptId" c) (jfield "receiptId" intent))
          (receipts_of a) with
  | Some duplicate =>
      _ ← ensure (CanonicalJson.render (JObj duplicate) =s CanonicalJson.render (JObj intent))
            intent_conflict;
      Ok s
  | None =>
      let '(changes, s') :=
        store_receipts
          (λ x, attempt_is k job x
                && match jfield "attemptNumber" intent with Some (JNum n) => number_is n x | _ => false end
                && is_open x && bool_decide (outcome x = None))
          (receipts_of a ++ [intent]) s in
      _ ← ensure (Nat.eqb changes 1) intent_not_stored;
      Ok s'
  end.

(** ** Receipts *)

(** [candidate.k === receipt.k] for each of the names *)
Definition same_fields (names : list jsstr) (a b : Fields) : bool :=
  forallb (λ k, strict_eq (jfield k a) (jfield k b)) names.

Definition is_committed (c : Fields) : bool :=
  strict_eq (jfield "outcome" c) (Some (JStr (js "committed"))).
Definition is_verified (c : Fields) : bool :=
  strict_eq (jfield "readBackVerified" c) (Some (JBool true)).
Definition pending_intent (receiptId : option json) (c : Fields) : bool :=
  strict_eq (jfield "receiptId" c) receiptId
  && strict_eq (jfield "state" c) (Some (JStr (js "pending"))).

(** The position of the first element that satisfies [p]. *)
Fixpoint find_index {A} (p : A → bool) (l : list A) : option nat :=
  match l with
  | [] => None
  | x :: t => if p x then Some 0%nat else S <$> find_index p t
  end.

Definition receipt_fields : list jsstr :=
  [js "sha256"; js "attemptNumber"; js "workSessionId"; js "operation"; js "bytes"; js "receiptId";
   js "runId"; js "dispatchIdempotencyKey"].
Definition intent_fields : list jsstr :=
  [js "path"; js "sha256"; js "bytes"; js "operation"; js "attemptId"; js "attemptNumber";
   js "workSessionId"; js "runId"; js "dispatchIdempotencyKey"].

Definition recordPublicationReceipt (job : jsstr) (receipt : Fields) (s : store)
  : res PublicationError store :=
  j ← require (get job s) receipt_unknown_job;
  _ ← ensure (bool_decide (executionMode (request j) = bounded_file_write)) receipt_wrong_mode;
  _ ← ensure (bool_decide (is_Some (as_string (jfield "workSessionId" receipt)))
              && strict_eq (jfield "jobId" receipt) (Some (JStr job))) receipt_unbound;
  _ ← ensure (is_committed receipt && is_verified receipt) receipt_not_committed;
  k ← require (as_string (jfield "attemptId" receipt)) receipt_no_attempt;
  _ ← ensure (nonempty k) receipt_no_attempt;
  a ← require (get_where (attempt_is k job) (attempts s)) receipt_attempt_gone;
  _ ← ensure (truthy (acpRunId (acp a))
              && strict_eq (jfield "runId" receipt) (column (acpRunId (acp a)))
              && truthy (acpDispatchId (acp a))
              && strict_eq (jfield "dispatchIdempotencyKey" receipt) (column (acpDispatchId (acp a))))
        receipt_identity;
  n ← require (as_integer (jfield "attemptNumber" receipt)) receipt_number;
  _ ← ensure (safe_integer n && number_is n a) receipt_number;
  found ← authorized_output (policySnapshotJson (request j))
            (string_or_undefined (jfield "path" receipt));
  path ← require (as_string (jfield "path" receipt)) receipt_unauthorized;
  authorized ← require found receipt_unauthorized;
  _ ← ensure (nonempty path && strict_eq (member "operation" authorized) (jfield "operation" receipt))
        receipt_unauthorized;
  sha ← require (as_string (jfield "sha256" receipt)) receipt_content;
  _ ← ensure (hex64 sha
              && (strict_eq (member "expectedSha256" authorized) None
                  || strict_eq (member "expectedSha256" authorized) (Some (JStr sha)))
              && safe_count (jfield "bytes" receipt)) receipt_content;
  match List.find (λ c, strict_eq (jfield "path" c) (Some (JStr path))
                        && strict_eq (jfield "attemptId" c) (Some (JStr k)) && is_committed c)
          (receipts_of a) with
  | Some duplicate =>
      _ ← ensure (same_fields receipt_fields duplicate receipt) receipt_conflict;
      Ok s
  | None =>
      i ← require (find_index (pending_intent (jfield "receiptId" receipt)) (receipts_of a))
            receipt_no_intent;
      intent ← require (receipts_of a !! i) receipt_no_intent;
      _ ← ensure (same_fields intent_fields intent receipt) receipt_intent_differs;
      _ ← reject (negb (is_active k j) && is_open a && bool_decide (outcome a = None)) receipt_stale;
      let '(changes, s') :=
        store_receipts (λ x, attempt_is k job x && number_is n x)
          (<[i := receipt]> (receipts_of a)) s in
      _ ← ensure (Nat.eqb changes 1) receipt_not_stored;
      Ok s'
  end.

(** ** Failures *)

Inductive FailureOutcome := pub_rejected | pub_conflict.

Definition failure_text (o : FailureOutcome) : jsstr :=
  match o with pub_rejected => js "rejected" | pub_conflict => js "conflict" end.

(** [{ ...receipt, state, reason, resolvedAt }]; [now] is the text of the clock. *)
Definition failed_receipt (now : jsstr) (o : FailureOutcome) (reason : jsstr) (c : Fields) : Fields :=
  set_field "resolvedAt" (JStr now)
    (set_field "reason" (JStr (take 2000 reason)) (set_field "state" (JStr (failure_text o)) c)).

(** The attempts with receipts, in order; the first with the pending intent is updated. *)
Fixpoint fail_first (now receiptId : jsstr) (o : FailureOutcome) (reason : jsstr)
  (rows : list Attempt) (s : store) : store :=
  match rows with
  | [] => s
  | a :: rest =>
      match find_index (pending_intent (Some (JStr receiptId))) (receipts_of a) with
      | Some i =>
          (store_receipts (λ x, bool_decide (a_id x = a_id a))
             (alter (failed_receipt now o reason) i (receipts_of a)) s).2
      | None => fail_first now receiptId o reason rest s
      end
  end.

Definition recordPublicationFailure (now job receiptId : jsstr) (o : FailureOutcome)
  (reason : jsstr) (s : store) : store :=
  fail_first now receiptId o reason
    (select_where (λ a, bool_decide (jobId a = job) && bool_decide (is_Some (publicationReceipts a)))
       (attempts s)) s.

(** ** Pending intents *)

Record PendingIntent := mkPending {
  pi_jobId : jsstr; pi_workSessionId : jsstr; pi_workspaceRoot : jsstr; pi_attemptId : jsstr;
  pi_attemptNumber : Z; pi_intent : Fields }.

Definition pending_needle : jsstr :=
  [DQUOTE] +s "state" +s [DQUOTE] +s ":" +s [DQUOTE] +s "pending" +s [DQUOTE].

(** [instr(publication_receipts_json, '"state":"pending"') > 0] *)
Definition mentions_pending (a : Attempt) : bool :=
  match publicationReceipts a with
  | Some l => Redaction.includes (CanonicalJson.render (JArr (JObj <$> l))) pending_needle
  | None => false
  end.

Definition le_started (x y : Attempt * Job) : bool :=
  (startedAt x.1 <? startedAt y.1)%Z
  || (startedAt x.1 =? startedAt y.1)%Z && negb (js_ltb (id y.2) (id x.2)).

(** [scheduled_jobs join scheduled_job_attempts], of bounded-write jobs *)
Definition publication_rows (s : store) : list (Attempt * Job) :=
  order_by le_started
    (concat ((λ j, (λ a, (a, j)) <$>
                select_where (λ a, bool_decide (jobId a = id j) && mentions_pending a) (attempts s))
             <$> select_where (λ j, bool_decide (executionMode (request j) = bounded_file_write))
                   (jobs s))).

Definition pending_of (row : Attempt * Job) : list PendingIntent :=
  match workSessionId row.2 with
  | Some ((_ :: _) as w) =>
      omap (λ c, match jfield "attemptNumber" c with
                 | Some (JNum n) =>
                     if safe_integer n
                     then Some (mkPending (id row.2) w (workspaceRoot (request row.2)) (a_id row.1) n c)
                     else None
                 | _ => None
                 end)
        (List.filter (λ c, strict_eq (jfield "state" c) (Some (JStr (js "pending"))))
           (receipts_of row.1))
  | _ => []
  end.

Definition listPendingPublicationIntents (l : Z) (s : store) : list PendingIntent :=
  let bounded := Z.to_nat (Z.max 1 (Z.min 100 l)) in
  take bounded (concat (pending_of <$> limit bounded (publication_rows s))).

(** ** The decision of the event route *)

(** The receipts of the attempt that count: committed, read back, and of this attempt. *)
Definition committedReceipts (a : option Attempt) (number : Z) : list Fields :=
  List.filter
    (λ c, is_committed c && is_verified c
          && strict_eq (jfield "attemptId" c) (JStr <$> (a_id <$> a))
          && strict_eq (jfield "attemptNumber" c) (Some (JNum number)))
    (default [] (receipts_of <$> a)).

(** A committed receipt without a path, or two of one path. *)
Fixpoint conflicting (seen : list jsstr) (l : list Fields) : bool :=
  match l with
  | [] => false
  | c :: t =>
      match as_string (jfield "path" c) with
      | Some ((_ :: _) as p) => bool_decide (p ∈ seen) || conflicting (p :: seen) t
      | _ => true
      end
  end.

(** The paths collected until the loop ends or breaks. *)
Fixpoint receiptPaths (seen : list jsstr) (l : list Fields) : list jsstr :=
  match l with
  | [] => seen
  | c :: t =>
      match as_string (jfield "path" c) with
      | Some ((_ :: _) as p) => if bool_decide (p ∈ seen) then seen else receiptPaths (p :: seen) t
      | _ => seen
      end
  end.

Definition unresolvedPublicationFailure (a : option Attempt) : bool :=
  existsb (λ c, strict_eq (jfield "outcome" c) (Some (JStr (js "rejected")))
                || strict_eq (jfield "outcome" c) (Some (JStr (js "conflict"))))
    (default [] (receipts_of <$> a)).

Definition outputsVerified (outputs : list json) (receipts : list Fields) : bool :=
  negb (bool_decide (outputs = []))
  && forallb (λ o,
       match member "path" o with
       | Some (JStr p) =>
           bool_decide (p ∈ receiptPaths [] receipts)
           && existsb (λ c, strict_eq (jfield "path" c) (Some (JStr p))
                            && (strict_eq (member "expectedSha256" o) None
                                || strict_eq (jfield "sha256" c) (member "expectedSha256" o))) receipts
       | _ => false
       end) outputs.

(** [autonomousBoundedWrite], from the report, the completion policy of the session, the number of
    its run and the job of the session. *)
Definition autonomousBoundedWrite (completed agent_completion : bool) (run_number : option Z)
  (job : option Job) (s : store) : bool :=
  let a := match job with Some j => getAttempt (id j) None s | None => None end in
  let number := match a ≫= (λ a, acpAttemptNumber (acp a)) with
                | Some n => n
                | None => default 1%Z run_number
                end in
  let outputs := match job with
                 | Some j => match jfield "allowedOutputs" (policySnapshotJson (request j)) with
                             | Some (JArr l) => l
                             | _ => []
                             end
                 | None => []
                 end in
  let receipts := committedReceipts a number in
  completed && agent_completion
  && match job with Some j => bool_decide (executionMode (request j) = bounded_file_write) | None => false end
  && outputsVerified outputs receipts
  && negb (conflicting [] receipts)
  && negb (unresolvedPublicationFailure a).

End ScheduledPublications.
