(* ===== verification/ScheduledLaunches.v ===== *)
(** * The machine of a scheduled job

    What the store promises of one job: its status, the attempt that is active, and its launches,
    the attempts with what is known of each.  [life] is the machine these three move by, and
    [sound] its invariant; [ScheduledJobFacts] proves that every operation of the store is a move
    of the machine on one job and leaves the other jobs alone. *)

From S2P Require Import Prelude JsString Sql ScheduledLifecycle ScheduledJobs.

Module ScheduledLaunches.
Import ScheduledLifecycle ScheduledJobs.

(** An attempt: its id, whether it is still open, and the state of its transport. *)
Record Launch := mkLaunch { l_id : jsstr; l_open : bool; l_transport : TransportStatus }.

Record View := mkView {
  v_status : ScheduledJobStatus;
  v_active : option jsstr;
  v_launches : list Launch
}.

Definition launch (a : Attempt) : Launch := mkLaunch (a_id a) (is_open a) (transportStatus a).

Definition launches (k : jsstr) (s : store) : list Launch :=
  launch <$> select_where (λ a, bool_decide (jobId a = k)) (attempts s).

Definition view (j : Job) (s : store) : View :=
  mkView (status j) (activeDispatchAttemptId j) (launches (id j) s).

(** The launch [k] with other knowledge. *)
Definition set_launch (k : jsstr) (open : bool) (t : TransportStatus → TransportStatus)
  (l : list Launch) : list Launch :=
  (λ x, if bool_decide (l_id x = k) then mkLaunch k open (t (l_transport x)) else x) <$> l.

(** Every open launch is closed. *)
Definition close_all (l : list Launch) : list Launch :=
  (λ x, if l_open x then mkLaunch (l_id x) false (l_transport x) else x) <$> l.

(** ** Moves *)

Definition waiting (st : ScheduledJobStatus) : bool :=
  match st with job_pending | job_due | job_blocked => true | _ => false end.
(** A job that waits for its dispatch, and whose due event must be at hand. *)
Definition armed (st : ScheduledJobStatus) : bool :=
  match st with job_pending | job_due => true | _ => false end.
Definition launching (st : ScheduledJobStatus) : bool :=
  match st with job_dispatching | job_uncertain_dispatch | job_operator_intervention => true | _ => false end.
Definition settled (st : ScheduledJobStatus) : bool :=
  match st with job_completed | job_failed | job_cancelled => true | _ => false end.
Definition working (st : ScheduledJobStatus) : bool :=
  match st with job_running | job_awaiting_approval | job_cancellation_requested => true | _ => false end.

(** A job whose cancellation was requested keeps that status until it is settled. *)
Definition keeps_cancelling (st st' : ScheduledJobStatus) : Prop :=
  st = job_cancellation_requested → st' = job_cancellation_requested.

Definition under_way (st : ScheduledJobStatus) : Prop := launching st ∨ working st.

Inductive life : View → View → Prop :=
| life_stays v : life v v
(** The time of the job came, or a reviewer retries a blocked one. *)
| life_due st k l : st = job_pending ∨ st = job_blocked →
    life (mkView st k l) (mkView job_due k l)
(** A dispatcher claims it: a new launch. *)
| life_claimed a k l : k ≠ [] → k ∉ l_id <$> l →
    life (mkView job_due a l)
      (mkView job_dispatching (Some k) (l ++ [mkLaunch k true tr_dispatching]))
(** The launch is known not to have started. *)
| life_unstarted st st' k l :
    under_way st → st' = job_due ∨ st' = job_blocked ∨ st' = job_cancellation_requested →
    keeps_cancelling st st' →
    life (mkView st (Some k) l) (mkView st' None (set_launch k false (λ _, tr_unstarted) l))
(** News of the launch: it stays open. *)
| life_progress st st' k l t :
    under_way st → under_way st' → keeps_cancelling st st' → t ≠ tr_unstarted →
    life (mkView st (Some k) l) (mkView st' (Some k) (set_launch k true (λ _, t) l))
(** News of the worker. *)
| life_news st st' k l :
    under_way st → under_way st' → keeps_cancelling st st' →
    (launching st' → launching st) →
    life (mkView st k l) (mkView st' k l)
(** The launch ended, whatever became of it. *)
| life_ended st st' k l t :
    under_way st → settled st' ∨ keeps_cancelling st st' ∧ working st' →
    (∀ x, x ≠ tr_unstarted → t x ≠ tr_unstarted) →
    life (mkView st (Some k) l) (mkView st' None (set_launch k false t l))
(** A cancellation is requested, and confirmed. *)
| life_cancelling st k l : waiting st ∨ under_way st →
    life (mkView st k l) (mkView job_cancellation_requested k l)
| life_cancelled k l :
    life (mkView job_cancellation_requested k l) (mkView job_cancelled None (close_all l)).

(** ** The invariant *)

(** What was never started, or may have been. *)
Definition unstarted (x : Launch) : Prop := l_transport x = tr_unstarted.

Record sound (v : View) : Prop := mkSound {
  (** the ids of the launches are distinct *)
  sound_ids : NoDup (l_id <$> v_launches v);
  (** a launch is open exactly when it is the active one *)
  sound_open : ∀ x, x ∈ v_launches v → l_open x = true ↔ v_active v = Some (l_id x);
  (** the active attempt is a launch *)
  sound_active : ∀ k, v_active v = Some k → k ≠ [] ∧ ∃ t, mkLaunch k true t ∈ v_launches v;
  (** an open launch may have started *)
  sound_started : ∀ x, x ∈ v_launches v → l_open x = true → ¬ unstarted x;
  (** no two launches of a job may both have started *)
  sound_once : ∀ x y, x ∈ v_launches v → y ∈ v_launches v → ¬ unstarted x → ¬ unstarted y → x = y;
  (** a job that waits to be launched has not been launched *)
  sound_waiting : waiting (v_status v) → ∀ x, x ∈ v_launches v → unstarted x;
  (** which statuses have an active attempt *)
  sound_idle : waiting (v_status v) ∨ settled (v_status v) → v_active v = None;
  sound_launching : launching (v_status v) → v_active v ≠ None;
  sound_reconciling : v_status v ≠ job_reconciling
}.

Lemma elem_of_set_launch k o t l x :
  x ∈ set_launch k o t l ↔
    ∃ y, y ∈ l ∧ x = if bool_decide (l_id y = k) then mkLaunch k o (t (l_transport y)) else y.
Proof. unfold set_launch. rewrite list_elem_of_fmap. naive_solver. Qed.

Lemma set_launch_ids k o t l : l_id <$> set_launch k o t l = l_id <$> l.
Proof.
  unfold set_launch. rewrite <- list_fmap_compose. apply list_fmap_ext. intros _ x _. cbn.
  by case_bool_decide.
Qed.

Lemma close_all_ids l : l_id <$> close_all l = l_id <$> l.
Proof.
  unfold close_all. rewrite <- list_fmap_compose. apply list_fmap_ext. intros _ x _. cbn.
  by destruct (l_open x).
Qed.

Lemma elem_of_close_all l x :
  x ∈ close_all l ↔ ∃ y, y ∈ l ∧ x = if l_open y then mkLaunch (l_id y) false (l_transport y) else y.
Proof. unfold close_all. rewrite list_elem_of_fmap. naive_solver. Qed.

(** Launches with one id are one launch. *)
Lemma launch_unique l x y : NoDup (l_id <$> l) → x ∈ l → y ∈ l → l_id x = l_id y → x = y.
Proof. apply NoDup_map_inj_on. Qed.

(** The id of the active launch determines it. *)
Lemma active_launch v k x :
  sound v → v_active v = Some k → x ∈ v_launches v → l_id x = k →
  l_open x = true ∧ ¬ unstarted x.
Proof.
  intros H Hk Hx <-. assert (Ho : l_open x = true) by (by apply (sound_open v H)).
  split; [done|]. by apply (sound_started v H).
Qed.

(** Setting the active launch: the others are closed, and nothing else may have started. *)
Lemma sound_set v st' k' k o t l' :
  sound v → v_active v = Some k → l' = set_launch k o t (v_launches v) →
  k' = (if o then Some k else None) →
  (∀ x, o = true → x ≠ tr_unstarted → t x ≠ tr_unstarted) →
  (waiting st' → ∀ x, t x = tr_unstarted) →
  (waiting st' ∨ settled st' → k' = None) → (launching st' → k' ≠ None) →
  st' ≠ job_reconciling →
  sound (mkView st' k' l').
Proof.
  intros H Hk -> -> Ht Hw Hi Hl Hr.
  destruct (sound_active v H k Hk) as [Hne [t0 Hk0]].
  assert (Hcl : ∀ y, y ∈ v_launches v → l_id y ≠ k → l_open y = false ∧ unstarted y).
  { intros y Hy Hyk. split.
    - destruct (l_open y) eqn:E; [|done]. apply (sound_open v H) in E; [|done]. congruence.
    - destruct (decide (l_transport y = tr_unstarted)) as [E|E]; [done|]. destruct Hyk.
      pose proof (active_launch v k _ H Hk Hk0 eq_refl) as [_ Hs].
      by rewrite (sound_once v H y (mkLaunch k true t0) Hy Hk0 E Hs). }
  constructor; cbn.
  - rewrite set_launch_ids. apply H.
  - intros x (y & Hy & ->)%elem_of_set_launch. case_bool_decide as E; cbn.
    + destruct o; split; congruence.
    + destruct (Hcl y Hy E) as [-> _]. destruct o; split; congruence.
  - destruct o; intros k1 [= <-]. split; [done|]. exists (t t0).
    apply elem_of_set_launch. exists (mkLaunch k true t0). split; [done|]. cbn.
    by rewrite bool_decide_eq_true_2.
  - intros x (y & Hy & ->)%elem_of_set_launch. case_bool_decide as E; cbn.
    + intros ->. apply Ht; [done|]. by apply (active_launch v k _ H Hk Hy E).
    + destruct (Hcl y Hy E) as [-> _]. done.
  - intros x1 x2 (y1 & Hy1 & ->)%elem_of_set_launch (y2 & Hy2 & ->)%elem_of_set_launch.
    case_bool_decide as E1; case_bool_decide as E2; cbn; intros S1 S2.
    + assert (y1 = y2) as ->; [|done]. eapply launch_unique; [apply H|done..|congruence].
    + destruct S2. by apply Hcl.
    + destruct S1. by apply Hcl.
    + destruct S1. by apply Hcl.
  - intros Hst x (y & Hy & ->)%elem_of_set_launch. case_bool_decide as E; cbn; [by apply Hw|].
    by apply Hcl.
  - done.
  - done.
  - done.
Qed.

(** Changing the status alone *)
Lemma sound_status v st' :
  sound v → (waiting st' → waiting (v_status v)) → (settled st' → v_active v = None) →
  (launching st' → v_active v ≠ None) → st' ≠ job_reconciling →
  sound (mkView st' (v_active v) (v_launches v)).
Proof.
  intros [] Hw Hi Hl Hr. constructor; cbn; naive_solver.
Qed.

(** Case analysis on a status and what is known of its class. *)
Ltac by_status st := unfold under_way, keeps_cancelling in *; destruct st; cbn in *; intuition congruence.

(** The machine keeps its invariant. *)
Lemma life_sound v v' : life v v' → sound v → sound v'.
Proof.
  destruct 1 as [v|st k l Hst|a k l Hne Hk|st st' k l Hst Hst' Hc|st st' k l t Hst Hst' Hc Ht
                |st st' k l Hst Hst' Hc Hl|st st' k l t Hst Hst' Ht|st k l Hst|k l]; intros H.
  - done.
  - apply (sound_status (mkView st k l)); [done|..]; cbn; [|done..].
    by destruct Hst as [-> | ->].
  - assert (a = None) as -> by (apply (sound_idle _ H); by left).
    assert (Hu : ∀ x, x ∈ l → unstarted x) by (by apply (sound_waiting _ H)).
    assert (Hcl : ∀ x, x ∈ l → l_open x = false).
    { intros x Hx. destruct (l_open x) eqn:E; [|done]. by apply (sound_open _ H) in E. }
    constructor; cbn.
    + rewrite fmap_app. apply NoDup_app. split; [apply H|]. split; [set_solver|].
      apply NoDup_singleton.
    + intros x [Hx| ->%list_elem_of_singleton]%elem_of_app; [|done]. rewrite (Hcl x Hx).
      split; [done|]. intros [= ->]. destruct Hk. apply list_elem_of_fmap. eauto.
    + intros k' [= <-]. split; [done|]. exists tr_dispatching. set_solver.
    + intros x [Hx| ->%list_elem_of_singleton]%elem_of_app; [|done]. by rewrite (Hcl x Hx).
    + intros x y [Hx| ->%list_elem_of_singleton]%elem_of_app
                 [Hy| ->%list_elem_of_singleton]%elem_of_app; naive_solver.
    + done.
    + naive_solver.
    + done.
    + done.
  - eapply sound_set; [exact H|done|done|done|done|..]; by_status st'.
  - eapply sound_set; [exact H|done|done|done|..]; by_status st'.
  - apply (sound_status (mkView st k l)); [done|..]; cbn; try by_status st'.
    intros Hst''. by apply (sound_launching _ H), Hl.
  - eapply sound_set; [exact H|done|done|done|done|..]; by_status st'.
  - apply (sound_status (mkView st k l)); done.
  - constructor; cbn.
    + rewrite close_all_ids. apply H.
    + intros x (y & Hy & ->)%elem_of_close_all. destruct (l_open y) eqn:E; cbn; [done|].
      by rewrite E.
    + done.
    + intros x (y & Hy & ->)%elem_of_close_all. destruct (l_open y) eqn:E; cbn; [done|].
      by rewrite E.
    + intros x1 x2 (y1 & Hy1 & ->)%elem_of_close_all (y2 & Hy2 & ->)%elem_of_close_all S1 S2.
      assert (y1 = y2) as ->; [|done]. apply (sound_once _ H); [done..| |].
      * by destruct (l_open y1).
      * by destruct (l_open y2).
    + done.
    + done.
    + done.
    + done.
Qed.

End ScheduledLaunches.
