(* ===== verification/ScheduledJobFacts.v ===== *)
(** * The scheduled-job store moves its jobs by the machine

    The histories of the store: calls of its operations, of the statements of the runtime and of
    the publication store, in any order, with any arguments the program passes.  Every call is a
    move of the machine of [ScheduledLaunches] on one job and leaves the other jobs alone, so the
    invariant of the machine holds along every history. *)

From S2P Require Import Prelude JsString Json Sql Outbox ScheduledLifecycle ScheduledJobs.
From S2P Require Import ScheduledPublications ScheduledLaunches.

Module ScheduledJobFacts.
Import ScheduledLifecycle ScheduledJobs ScheduledPublications ScheduledLaunches.

(** ** Calls *)

Inductive Call :=
| Create (now now' : Z) (uuid uuid' : jsstr) (i : ScheduledJobInput)
| Claim (now : Z) (uuid uuid' : jsstr) (i : ClaimInput)
| Release (now : Z) (i : ReleaseInput)
| RetryBlocked (now now' : Z) (uuid job : jsstr) (rev : option Z)
| Complete (now : Z) (i : CompleteInput)
| Resolve (now : Z) (i : ResolveInput)
| Transition (now : Z) (i : TransitionInput)
| RequestCancellation (now : Z) (job : jsstr) (rev : Z) (request : jsstr) (reason : option jsstr)
| ClaimCancellation (now : Z) (job request : jsstr) (interval : Z)
| RecordEvidence (now : Z) (job request : jsstr) (state : CancellationState) (error : option jsstr)
| FinalizeCancellation (now : Z) (job request : jsstr) (state : CancellationState)
    (reason : option jsstr)
| BindSession (now : Z) (job attempt session : jsstr)
| BindAcp (i : BindInput)
| RecordProbe (now random : Z) (job attempt evidence : jsstr)
| PersistReport (now : Z) (uuid job run report : jsstr)
| ReconcileReports (clock : jsstr → Z * jsstr) (l : Z)
| ProjectEvent (t : Readings) (ev : StoreEvent)
| MarkDue (now : Z) (job : jsstr)
| Rearm (now now' : Z) (uuid : jsstr) (row : Job)
| RecordIntent (job : jsstr) (intent : Fields)
| RecordReceipt (job : jsstr) (receipt : Fields)
| RecordFailure (now job receiptId : jsstr) (o : FailureOutcome) (reason : jsstr)
| Dispatcher (o : DispatchOutbox.outbox).

(** The state a fallible call leaves behind. *)
Definition after {E A} (m : res E (A * store)) (s : store) : store :=
  match m with Ok (_, s') => s' | Err _ => s end.
Definition after' {E} (m : res E store) (s : store) : store :=
  match m with Ok s' => s' | Err _ => s end.

(** ** The guards of the rows *)

Lemma has_id_spec k j : has_id k j = true ↔ id j = k.
Proof. apply bool_decide_eq_true. Qed.
Lemma at_revision_spec r j : at_revision r j = true ↔ revision j = r.
Proof. apply Z.eqb_eq. Qed.
Lemma active_on_spec k j : is_active k j = true ↔ activeDispatchAttemptId j = Some k.
Proof. apply bool_decide_eq_true. Qed.
Lemma in_status_spec l j : in_status l j = true ↔ status j ∈ l.
Proof. apply bool_decide_eq_true. Qed.
Lemma attempt_is_spec k job a : attempt_is k job a = true ↔ a_id a = k ∧ jobId a = job.
Proof. unfold attempt_is. by rewrite andb_true_iff, !bool_decide_eq_true. Qed.
Lemma is_open_spec a : is_open a = true ↔ completedAt a = None.
Proof. apply bool_decide_eq_true. Qed.

#[export] Hint Rewrite has_id_spec at_revision_spec active_on_spec in_status_spec attempt_is_spec
  is_open_spec : guards.

Section Facts.
Context (sha256 : jsstr → jsstr) (parse : ScheduledJobInput → option JobRequest).

Definition perform (c : Call) (s : store) : store :=
  match c with
  | Create now now' uuid uuid' i => after (create sha256 parse now now' uuid uuid' i s) s
  | Claim now uuid uuid' i => after (claimDispatch now uuid uuid' i s) s
  | Release now i => after (releaseDispatch now i s) s
  | RetryBlocked now now' uuid job rev => after (retryBlockedJob now now' uuid job rev s) s
  | Complete now i => after (completeDispatch now i s) s
  | Resolve now i => after (resolveDispatch now i s) s
  | Transition now i => after (transition now i s) s
  | RequestCancellation now job rev request reason =>
      after (requestCancellation now job rev request reason s) s
  | ClaimCancellation now job request interval => (claimCancellationAttempt now job request interval s).2
  | RecordEvidence now job request state error =>
      after (recordCancellationEvidence now job request state error s) s
  | FinalizeCancellation now job request state reason =>
      after (finalizeCancellation now job request state reason s) s
  | BindSession now job attempt session => after (bindWorkSession now job attempt session s) s
  | BindAcp i => after' (bindAcpAttempt i s) s
  | RecordProbe now random job attempt evidence => recordReconcileProbe now random job attempt evidence s
  | PersistReport now uuid job run report => after (persistReport sha256 now uuid job run report s) s
  | ReconcileReports clock l => (reconcilePendingReportFinalizations sha256 clock l s).2
  | ProjectEvent t ev => (projectEvent sha256 t ev s).2
  | MarkDue now job => (markDue now job s).2
  | Rearm now now' uuid row => rearm now now' uuid row s
  | RecordIntent job intent => after' (recordPublicationIntent job intent s) s
  | RecordReceipt job receipt => after' (recordPublicationReceipt job receipt s) s
  | RecordFailure now job receiptId o reason => recordPublicationFailure now job receiptId o reason s
  | Dispatcher o => set_outbox o s
  end.

(** What the program passes: a claim names no empty attempt id, the two calls of [transition] give
    up a dispatch that is uncertain, a request for cancellation has an id, a row that is armed again
    was read in the same turn, and an intent has no outcome yet. *)
Definition legal (c : Call) (s : store) : Prop :=
  match c with
  | Claim _ _ _ i => ci_dispatchAttemptId i ≠ Some []
  | Transition _ i =>
      tr_nextStatus i = job_uncertain_dispatch ∧ tr_expectedSourceStatuses i = [job_dispatching]
  | RequestCancellation _ _ _ request _ => request ≠ []
  | Rearm _ _ _ row => row ∈ jobs s
  | RecordIntent _ intent => jfield "outcome" intent = None
  | _ => True
  end.

Definition step (s s' : store) : Prop := ∃ c, legal c s ∧ s' = perform c s.
Definition history : store → store → Prop := steps step.

End Facts.

(** ** What a move keeps of a row *)

Record keeps (j j' : Job) : Prop := mkKeeps {
  keeps_id : id j' = id j;
  keeps_request : request j' = request j;
  keeps_mutation : clientMutationId j' = clientMutationId j;
  keeps_fingerprint : requestFingerprint j' = requestFingerprint j;
  keeps_created : createdAt j' = createdAt j;
  keeps_revision : (revision j <= revision j')%Z;
  keeps_cursor : (lifecycleEventCursor j <= lifecycleEventCursor j')%Z;
  keeps_armed : armed (status j') → status j' = status j ∨ (revision j < revision j')%Z;
  keeps_terminal : settled (status j) →
    revision j' = revision j ∧ terminalAt (stamps j') = terminalAt (stamps j)
}.

(** A requested cancellation has an id, and the terminal time is that of the terminal status. *)
Record job_ok (j : Job) : Prop := mkJobOk {
  ok_cancelling : status j = job_cancellation_requested → truthy (requestId (cancellation j)) = true;
  ok_terminal : is_Some (terminalAt (stamps j)) ↔ settled (status j)
}.

Record store_ok (s : store) : Prop := mkStoreOk {
  ok_jobs : keyed id (jobs s);
  ok_attempts : keyed a_id (attempts s);
  ok_owner : ∀ a, a ∈ attempts s → is_Some (get (jobId a) s);
  ok_row : ∀ j, j ∈ jobs s → job_ok j ∧ sound (view j s)
}.

(** A call touched the job [k] and no other. *)
Record touched (k : jsstr) (s s' : store) : Prop := mkTouched {
  to_ids : List.map id (jobs s') = List.map id (jobs s);
  to_keys : keyed a_id (attempts s');
  to_owner : ∀ a, a ∈ attempts s' → is_Some (get (jobId a) s);
  to_others : ∀ k', k' ≠ k → get k' s' = get k' s ∧ launches k' s' = launches k' s;
  to_job : ∀ j, get k s = Some j →
    ∃ j', get k s' = Some j' ∧ keeps j j' ∧ job_ok j' ∧ life (view j s) (view j' s')
}.

(** A call created a job. *)
Definition created (s s' : store) : Prop :=
  ∃ n, jobs s' = insert_row n (jobs s) ∧ get (id n) s = None ∧ attempts s' = attempts s
       ∧ status n = job_pending ∧ activeDispatchAttemptId n = None ∧ job_ok n
       ∧ id n ≠ [] ∧ existsb (job_conflicts n) (jobs s) = false.

Lemma keeps_refl j : keeps j j.
Proof. constructor; by auto. Qed.

Lemma get_Some k s j : get k s = Some j → j ∈ jobs s ∧ id j = k.
Proof. apply by_key_Some. Qed.

Lemma get_in s j : store_ok s → j ∈ jobs s → get (id j) s = Some j.
Proof. intros H. by apply keyed_by_key, ok_jobs. Qed.

Lemma ok_get s k j : store_ok s → get k s = Some j → job_ok j ∧ sound (view j s).
Proof. intros H [Hj _]%get_Some. by apply H. Qed.

Lemma launches_eq k s s' : attempts s' = attempts s → launches k s' = launches k s.
Proof. intros E. unfold launches. by rewrite E. Qed.

Lemma elem_of_launches k s x :
  x ∈ launches k s ↔ ∃ a, x = launch a ∧ a ∈ attempts s ∧ jobId a = k.
Proof.
  unfold launches, select_where. rewrite list_elem_of_fmap.
  setoid_rewrite elem_of_Lfilter. setoid_rewrite bool_decide_eq_true. naive_solver.
Qed.

(** Launches under an update of the attempts. *)
Lemma launches_update k q g (h : Launch → Launch) t s :
  attempts s = (update_where q g t).1 →
  (∀ a, jobId (g a) = jobId a) →
  (∀ a, a ∈ t → jobId a = k → launch (if q a then g a else a) = h (launch a)) →
  launches k s = h <$> (launch <$> select_where (λ a, bool_decide (jobId a = k)) t).
Proof.
  intros E Hg Hh. unfold launches. rewrite E. clear E. unfold update_where, select_where. cbn.
  induction t as [|a t IH]; [done|]. cbn.
  replace (jobId (if q a then g a else a)) with (jobId a) by (destruct (q a); auto).
  case_bool_decide as Ea; cbn.
  - rewrite IH by (intros; apply Hh; [by right|done]). f_equal. apply Hh; [by left|done].
  - apply IH. intros; apply Hh; [by right|done].
Qed.

Lemma launches_same k q g t s :
  attempts s = (update_where q g t).1 → (∀ a, jobId (g a) = jobId a) →
  (∀ a, a ∈ t → jobId a = k → q a → launch (g a) = launch a) →
  launches k s = launch <$> select_where (λ a, bool_decide (jobId a = k)) t.
Proof.
  intros E Hg Hh. rewrite (launches_update k q g (λ x, x) t s E Hg).
  - by rewrite list_fmap_id.
  - intros a Ha Hk. destruct (q a) eqn:Q; [|done]. apply Hh; [done..|by rewrite Q].
Qed.

(** ** Touching *)

Lemma touched_ok k s s' : store_ok s → touched k s s' → store_ok s'.
Proof.
  intros H [Hids Hk Ho Hoth Hj].
  assert (Hin : ∀ k0, is_Some (get k0 s) → is_Some (get k0 s')).
  { intros k0 [j Hj0]. destruct (decide (k0 = k)) as [->|E].
    - destruct (Hj j Hj0) as (j' & -> & _). eauto.
    - destruct (Hoth k0 E) as [-> _]. eauto. }
  constructor.
  - unfold keyed. rewrite Hids. apply H.
  - done.
  - intros a Ha. by apply Hin, Ho.
  - assert (Hkey : keyed id (jobs s')) by (unfold keyed; rewrite Hids; apply H).
    intros j' Hj'. pose proof (keyed_by_key id _ _ Hkey Hj') as Hg. fold (get (id j') s') in Hg.
    destruct (decide (id j' = k)) as [E|E].
    + assert (Hs : is_Some (get k s)).
      { destruct (get k s) eqn:G; [eauto|]. apply by_key_None with (r := j') in G; [done|].
        assert (Hx : id j' ∈ List.map id (jobs s)) by (rewrite <- Hids; apply elem_of_Lmap; eauto).
        apply elem_of_Lmap in Hx as (x & Ex & Hx). exfalso.
        pose proof (get_in s x H Hx) as Gx. rewrite <- Ex, E in Gx. congruence. }
      destruct Hs as [j Hs]. destruct (Hj j Hs) as (j1 & G1 & _ & Ho1 & Hl).
      rewrite <- E, Hg in G1. injection G1 as <-. split; [done|].
      eapply life_sound; [exact Hl|]. by apply (ok_get s k).
    + destruct (Hoth _ E) as [G Hl]. rewrite G in Hg. destruct (ok_get s _ _ H Hg) as [? Hs].
      split; [done|]. unfold view in *. by rewrite Hl.
Qed.

Lemma touched_refl k s : store_ok s → touched k s s.
Proof.
  intros H. constructor; [done|apply H|apply H|done|]. intros j Hj. exists j.
  split; [done|]. split; [apply keeps_refl|]. split; [|constructor].
  by apply (ok_get s k j H).
Qed.

(** The other tables do not matter. *)
Lemma touched_eq k s s1 s2 :
  touched k s s1 → jobs s2 = jobs s1 → attempts s2 = attempts s1 → touched k s s2.
Proof.
  intros [H1 H2 H3 H4 H5] Ej Ea.
  assert (Hl : ∀ k', launches k' s2 = launches k' s1) by (intros; by apply launches_eq).
  constructor; [by rewrite Ej|by rewrite Ea|by rewrite Ea|..].
  - intros k' Hk'. rewrite Hl. unfold get. rewrite Ej. by apply H4.
  - intros j Hj. unfold get, view. rewrite Ej. setoid_rewrite Hl. by apply H5.
Qed.

Lemma touched_none k s s' :
  store_ok s → jobs s' = jobs s → attempts s' = attempts s → touched k s s'.
Proof. intros H. apply touched_eq, touched_refl, H. Qed.

(** An update of the job, and one of attempts that moves the launches of the job. *)
Lemma touched_both k p f q g (h : Launch → Launch) s s' :
  store_ok s →
  jobs s' = (update_where p f (jobs s)).1 → attempts s' = (update_where q g (attempts s)).1 →
  (∀ j, p j → id j = k) → (∀ j, id (f j) = id j) →
  (∀ a, a_id (g a) = a_id a) → (∀ a, jobId (g a) = jobId a) →
  (∀ a, a ∈ attempts s → q a → jobId a ≠ k → launch (g a) = launch a) →
  (∀ a, a ∈ attempts s → jobId a = k → launch (if q a then g a else a) = h (launch a)) →
  (∀ j, get k s = Some j →
     let j' := if p j then f j else j in
     keeps j j' ∧ job_ok j'
     ∧ life (view j s) (mkView (status j') (activeDispatchAttemptId j') (h <$> launches k s))) →
  touched k s s'.
Proof.
  intros H Ej Ea Hp Hf Hg Hgj Hoth Hk Hlife.
  assert (Hget : ∀ k', get k' s' = (λ j, if p j then f j else j) <$> get k' s).
  { intros k'. unfold get. rewrite Ej. by apply by_key_update. }
  constructor.
  - rewrite Ej. by apply map_pk_update.
  - rewrite Ea. apply keyed_update; [done|]. apply H.
  - rewrite Ea. intros a (a0 & Ha0 & ->)%elem_of_update_where.
    replace (jobId (if q a0 then g a0 else a0)) with (jobId a0) by (destruct (q a0); auto).
    by apply H.
  - intros k' Hne. split.
    + rewrite Hget. destruct (get k' s) as [j|] eqn:G; [|done]. cbn.
      destruct (p j) eqn:P; [|done]. apply get_Some in G as [_ E]. destruct Hne.
      rewrite <- E. apply Hp. by rewrite P.
    + rewrite (launches_same k' q g (attempts s) s'); [done..|].
      intros a Ha Hka Hq. apply Hoth; congruence.
  - intros j G. destruct (Hlife j G) as (Hke & Hok & Hl).
    exists (if p j then f j else j). split; [by rewrite Hget, G|]. split; [done|].
    split; [done|]. unfold view at 2.
    replace (id (if p j then f j else j)) with k.
    { by rewrite (launches_update k q g h (attempts s) s'). }
    apply get_Some in G as [_ E]. destruct (p j); [by rewrite Hf|done].
Qed.

(** An update of the job alone. *)
Lemma touched_job k p f s s' :
  store_ok s →
  jobs s' = (update_where p f (jobs s)).1 → attempts s' = attempts s →
  (∀ j, p j → id j = k) → (∀ j, id (f j) = id j) →
  (∀ j, get k s = Some j → p j → job_ok j → sound (view j s) →
     keeps j (f j) ∧ job_ok (f j)
     ∧ life (view j s) (mkView (status (f j)) (activeDispatchAttemptId (f j)) (launches k s))) →
  touched k s s'.
Proof.
  intros H Ej Ea Hp Hf Hlife.
  apply (touched_both k p f (λ _, false) (λ a, a) (λ x, x) s); try done.
  - rewrite Ea. by rewrite update_where_none.
  - intros j G. cbn. rewrite list_fmap_id. destruct (ok_get s k j H G) as [Hok Hs].
    destruct (p j) eqn:P.
    + apply Hlife; [done|by rewrite P|done..].
    + split; [apply keeps_refl|]. split; [done|]. apply get_Some in G as [_ <-]. constructor.
Qed.

(** An update of attempts that their launches do not see. *)
Lemma touched_quiet k q g s s' :
  store_ok s → jobs s' = jobs s → attempts s' = (update_where q g (attempts s)).1 →
  (∀ a, launch (g a) = launch a) → (∀ a, jobId (g a) = jobId a) → touched k s s'.
Proof.
  intros H Ej Ea Hg Hgj.
  apply (touched_both k (λ _, false) (λ j, j) q g (λ x, x) s); try done.
  - rewrite Ej. by rewrite update_where_none.
  - intros a. by injection (Hg a).
  - intros a _ _. by destruct (q a).
  - intros j G. cbn. rewrite list_fmap_id. split; [apply keeps_refl|].
    split; [by apply (ok_get s k j)|]. apply get_Some in G as [_ <-]. constructor.
Qed.

(** An update as an equation that the tactics leave alone. *)
Definition updated {row} (p : row → bool) f (t t' : list row) (n : nat) : Prop :=
  update_where p f t = (t', n).

(** An update that changed one row found it by its key. *)
Lemma changed_one {row K} `{EqDecision K} (pk : row → K) p f t k t' :
  updated p f t t' 1 → keyed pk t → (∀ r, p r = true → pk r = k) →
  t' = (update_where p f t).1 ∧ ∃ r, by_key pk k t = Some r ∧ p r = true.
Proof.
  unfold updated. intros E Hk Hp. split; [by rewrite E|].
  pose proof (changes_keyed pk p f t k Hk Hp) as Hc. rewrite E in Hc. cbn in Hc.
  destruct (by_key pk k t) as [r|]; [|done]. destruct (p r) eqn:P; [eauto|done].
Qed.

(** An update of the job [k] and of its active attempt [x]. *)
Lemma touched_active k x p f q g o t js as_ s :
  store_ok s →
  updated p f (jobs s) js 1 → updated q g (attempts s) as_ 1 →
  (∀ j, p j = true → id j = k ∧ activeDispatchAttemptId j = Some x) → (∀ j, id (f j) = id j) →
  (∀ a, q a = true → a_id a = x ∧ jobId a = k) →
  (∀ a, launch (g a) = mkLaunch (a_id a) o (t (transportStatus a))) →
  (∀ a, jobId (g a) = jobId a) →
  (∀ j, get k s = Some j → p j = true → job_ok j →
     keeps j (f j) ∧ job_ok (f j)
     ∧ life (mkView (status j) (Some x) (launches k s))
         (mkView (status (f j)) (activeDispatchAttemptId (f j)) (set_launch x o t (launches k s)))) →
  touched k s (set_attempts as_ (set_jobs js s)).
Proof.
  intros H Ej Ea Hp Hf Hq Hg Hgj Hl.
  destruct (changed_one id p f (jobs s) k js) as (Ejs & j & Gj & Pj);
    [done|apply H|by intros ? [? _]%Hp|].
  destruct (changed_one a_id q g (attempts s) x as_) as (Eas & a & Ga & Qa);
    [done|apply H|by intros ? [? _]%Hq|].
  apply (touched_both k p f q g
           (λ y, if bool_decide (l_id y = x) then mkLaunch x o (t (l_transport y)) else y) s);
    try done.
  - by intros ? [? _]%Is_true_eq_true%Hp.
  - intros b. by injection (Hg b).
  - intros b _ [_ ?]%Is_true_eq_true%Hq. done.
  - intros b Hb Hbk. cbn. case_bool_decide as Eb.
    + assert (b = a) as ->.
      { apply by_key_Some in Ga as [Ha Ea']. eapply keyed_inj; [apply H|done..|congruence]. }
      rewrite Qa, Hg. by rewrite Eb.
    + destruct (q b) eqn:Qb; [|done]. by apply Hq in Qb as [? _].
  - intros j' G'. assert (j' = j) as -> by (unfold get in G'; congruence). rewrite Pj.
    destruct (ok_get s k j H G') as [Hok _]. destruct (Hl j G' Pj Hok) as (? & ? & HL).
    split; [done|]. split; [done|]. apply get_Some in G' as [_ E]. destruct (Hp j Pj) as [_ Ex].
    unfold view. by rewrite E, Ex.
Qed.

Lemma touched_update k p f js n s :
  store_ok s → updated p f (jobs s) js n →
  (∀ j, p j = true → id j = k) → (∀ j, id (f j) = id j) →
  (∀ j, get k s = Some j → p j = true → job_ok j → sound (view j s) →
     keeps j (f j) ∧ job_ok (f j)
     ∧ life (view j s) (mkView (status (f j)) (activeDispatchAttemptId (f j)) (launches k s))) →
  touched k s (set_jobs js s).
Proof.
  unfold updated. intros H Ej Hp Hf Hl. apply (touched_job k p f s); [done|by rewrite Ej|done| |done|].
  - by intros j ?%Is_true_eq_true%Hp.
  - intros j G P%Is_true_eq_true. by apply Hl.
Qed.

(** ** Rows *)

Lemma settled_definitive st : DEFINITIVE_TERMINAL_JOB_STATUSES st = settled st.
Proof. by destruct st. Qed.

Lemma job_ok_move j j' next now :
  job_ok j → status j' = next →
  stamps j' = stateTimestampFields next (Some (status j)) now (stamps j) →
  ¬ settled (status j) →
  (next = job_cancellation_requested → truthy (requestId (cancellation j')) = true) → job_ok j'.
Proof.
  intros [_ Ht] <- Es Hs Hc. constructor; [done|]. rewrite Es. unfold stateTimestampFields.
  case_bool_decide as E.
  - injection E as ->. done.
  - cbn. rewrite settled_definitive. destruct (settled (status j')) eqn:S; [split; eauto|].
    rewrite Ht. split; [done|]. by intros [].
Qed.

Lemma unsettled st : waiting st ∨ under_way st → ¬ settled st.
Proof. intros [H|[H|H]] S; by destruct st. Qed.

Lemma keeps_unsettled j j' :
  id j' = id j → request j' = request j → clientMutationId j' = clientMutationId j →
  requestFingerprint j' = requestFingerprint j → createdAt j' = createdAt j →
  (revision j <= revision j')%Z → (lifecycleEventCursor j <= lifecycleEventCursor j')%Z →
  (armed (status j') → status j' = status j ∨ (revision j < revision j')%Z) →
  ¬ settled (status j) → keeps j j'.
Proof. by constructor. Qed.

(** [one_of H] splits the membership of a status in a list of statuses. *)
Ltac one_of H :=
  repeat (apply elem_of_cons in H as [H|H]); [..|by apply not_elem_of_nil in H].

(** An update that moves a job to a status: what it leaves alone, and what it sets. *)
Record moved (next : ScheduledJobStatus) (act : option jsstr) (now : Z) (j j' : Job) : Prop :=
  mkMoved {
    mv_id : id j' = id j;
    mv_request : request j' = request j;
    mv_mutation : clientMutationId j' = clientMutationId j;
    mv_fingerprint : requestFingerprint j' = requestFingerprint j;
    mv_created : createdAt j' = createdAt j;
    mv_revision : (revision j <= revision j')%Z;
    mv_cursor : (lifecycleEventCursor j <= lifecycleEventCursor j')%Z;
    mv_armed : armed (status j') → status j' = status j ∨ (revision j < revision j')%Z;
    mv_status : status j' = next;
    mv_active : activeDispatchAttemptId j' = act;
    mv_stamps : stamps j' = stateTimestampFields next (Some (status j)) now (stamps j)
  }.

Lemma row_moves next act now j j' v l :
  moved next act now j j' → job_ok j → ¬ settled (status j) →
  (next = job_cancellation_requested → truthy (requestId (cancellation j')) = true) →
  life v (mkView next act l) →
  keeps j j' ∧ job_ok j' ∧ life v (mkView (status j') (activeDispatchAttemptId j') l).
Proof.
  intros [] Ok Hs Hc Hl. split; [by apply keeps_unsettled|].
  split; [by eapply job_ok_move|]. by rewrite mv_status0, mv_active0.
Qed.

(** [moved] for an update whose columns are written out. *)
Ltac moves := constructor; cbn; first [reflexivity | lia | congruence | intros; right; lia].

(** An update of columns the machine does not see. *)
Record keeps_aside (j j' : Job) : Prop := mkAside {
  as_id : id j' = id j;
  as_origin : request j' = request j;
  as_mutation : clientMutationId j' = clientMutationId j;
  as_fingerprint : requestFingerprint j' = requestFingerprint j;
  as_created : createdAt j' = createdAt j;
  as_revision : (revision j <= revision j')%Z;
  as_cursor : (lifecycleEventCursor j <= lifecycleEventCursor j')%Z;
  as_status : status j' = status j;
  as_active : activeDispatchAttemptId j' = activeDispatchAttemptId j;
  as_stamps : stamps j' = stamps j;
  as_request : requestId (cancellation j') = requestId (cancellation j)
}.

(** The updates of an operation, one after the other *)
Ltac split_update Hc :=
  repeat match type of Hc with
  | context [update_where ?p ?f ?t] =>
      let U := fresh "U" in
      destruct (update_where p f t) as [? ?] eqn:U;
      match type of U with _ = (?a, ?n) => change (updated p f t a n) in U end
  end.

(** [keeps] between a row and an update of it whose columns are written out. *)
Ltac kept :=
  apply keeps_unsettled; cbn;
    [reflexivity..|guards; lia|lia|first [by intros [] | intros; right; guards; lia | by auto]|].

(** ** Each operation *)

Section Operations.
Context (sha256 : jsstr → jsstr) (parse : ScheduledJobInput → option JobRequest).

Lemma launches_insert k a s :
  launches k (set_attempts (insert_row a (attempts s)) s)
  = launches k s ++ (if bool_decide (jobId a = k) then [launch a] else []).
Proof.
  unfold launches, insert_row, select_where. cbn. rewrite List.filter_app, fmap_app. cbn.
  by case_bool_decide.
Qed.

Lemma claim_touches now u u' i s c s' :
  ci_dispatchAttemptId i ≠ Some [] → store_ok s →
  claimDispatch now u u' i s = Ok (c, s') → touched (ci_jobId i) s s'.
Proof.
  intros Hne H Hc. unfold claimDispatch in Hc. split_update Hc. res_inv Hc.
  set (k := default ("scha_" +s u) (ci_dispatchAttemptId i)) in *. guards. subst n.
  destruct (changed_one id _ _ _ (ci_jobId i) _ U (ok_jobs s H) ltac:(intros; by guards))
    as (El & j & G & Pj).
  set (a := mkAttempt k _ _ _ _ _ _ _ _ _ _ _ _ _).
  assert (Hfresh : ∀ b, b ∈ attempts s → a_id b ≠ k).
  { intros b Hb E. apply not_true_iff_false in H1. destruct H1. apply List.existsb_exists.
    exists b. split; [by apply list_elem_of_In|]. by apply bool_decide_eq_true. }
  assert (Hget : ∀ k', get k' (set_attempts (insert_row a (attempts s)) (set_jobs l s))
                       = get k' (set_jobs l s)) by done.
  assert (Hl : ∀ k', launches k' (set_attempts (insert_row a (attempts s)) (set_jobs l s))
    = launches k' s ++ (if bool_decide (ci_jobId i = k') then [launch a] else [])).
  { intros k'. exact (launches_insert k' a s). }
  constructor.
  - cbn. rewrite El. by apply map_pk_update.
  - cbn. apply keyed_insert; [apply H|]. by apply by_key_None.
  - cbn. intros b [Hb| ->%list_elem_of_singleton]%elem_of_app; [by apply H|]. cbn. eauto.
  - intros k' Hk'. rewrite Hget, Hl, bool_decide_eq_false_2, app_nil_r by done. split; [|done].
    unfold get. cbn [jobs set_jobs]. rewrite El, by_key_update_miss; [done|done|].
    intros r [_ Er]%by_key_Some. apply not_true_iff_false. intros Pr. guards. congruence.
  - intros j0 G0. assert (j0 = j) as -> by (unfold get in G0; congruence).
    eexists. split; [rewrite Hget; unfold get; cbn; rewrite El; by eapply by_key_update_hit|].
    assert (Hok : job_ok j) by (by apply (ok_get s _ j H G0)).
    autorewrite with guards in Pj. destruct Pj as [[Ej Er] Es%list_elem_of_singleton].
    split; [kept; rewrite Es; by intros []|]. split.
    + eapply job_ok_move; [done|done|cbn; by rewrite Es|rewrite Es; by intros []|done].
    + unfold view. cbn. rewrite Hl, Es, Ej, bool_decide_eq_true_2 by done. constructor.
      * unfold k. by destruct (ci_dispatchAttemptId i) as [[|]|].
      * intros (x' & Ex & Hx)%list_elem_of_fmap. apply elem_of_launches in Hx as (b & -> & Hb & _).
        by apply (Hfresh b Hb).
Qed.

(** The columns a blocker sets are not those of the machine. *)
Lemma set_blocker_columns b j :
  id (set_blocker b j) = id j ∧ request (set_blocker b j) = request j
  ∧ clientMutationId (set_blocker b j) = clientMutationId j
  ∧ requestFingerprint (set_blocker b j) = requestFingerprint j
  ∧ createdAt (set_blocker b j) = createdAt j ∧ status (set_blocker b j) = status j
  ∧ lifecycleEventCursor (set_blocker b j) = lifecycleEventCursor j
  ∧ stamps (set_blocker b j) = stamps j ∧ cancellation (set_blocker b j) = cancellation j.
Proof. by destruct b. Qed.

Lemma cancellation_pending_spec j :
  cancellationPending j = true ↔
    status j = job_cancellation_requested ∧ truthy (requestId (cancellation j)) = true.
Proof.
  unfold cancellationPending. rewrite andb_true_iff, in_status_spec, list_elem_of_singleton. done.
Qed.

(** An update that changed one job found the row of its id. *)
Lemma updated_found s k p f js :
  store_ok s → updated p f (jobs s) js 1 → (∀ j, p j = true → id j = k) → is_Some (get k s).
Proof.
  intros H U Hp. destruct (changed_one id p f (jobs s) k js U (ok_jobs s H) Hp) as (_ & j & G & _).
  unfold get. by rewrite G.
Qed.

Lemma release_touches now i s c s' :
  store_ok s → releaseDispatch now i s = Ok (c, s') → touched (ri_jobId i) s s'.
Proof.
  intros H Hc. unfold releaseDispatch in Hc.
  destruct (get (ri_jobId i) s) as [j0|] eqn:G0; cbn zeta in Hc; split_update Hc; res_inv Hc;
    guards; subst.
  2:{ destruct (updated_found s (ri_jobId i) _ _ _ H U ltac:(intros; by guards)). congruence. }
  eapply (touched_active _ (ri_dispatchAttemptId i) _ _ _ _ false (λ _, tr_unstarted));
    [done|exact U|exact U0|..].
  - intros j P. by guards.
  - intros j. by destruct (cancellationPending j0), (ri_blocker i).
  - intros a P. by guards.
  - done.
  - done.
  - intros j G P Ok. assert (j0 = j) as -> by congruence. autorewrite with guards in P.
    destruct P as [[[Ej Er] Es] Ea].
    assert (Hst : ¬ settled (status j)) by (one_of Es; rewrite Es; by intros []).
    destruct (cancellationPending j) eqn:Pd.
    + apply cancellation_pending_spec in Pd as [Es' Hr].
      eapply (row_moves job_cancellation_requested None now); [|done|done| |].
      * destruct (ri_blocker i); moves.
      * intros _. by destruct (ri_blocker i).
      * constructor; [rewrite Es'; by right|by right; right|done].
    + assert (Es' : status j = job_dispatching).
      { one_of Es; [done|]. exfalso. apply not_true_iff_false in Pd. apply Pd, cancellation_pending_spec.
        split; [done|]. by apply Ok. }
      eapply (row_moves (released_status false (ri_blocker i)) None now); [|done|done| |].
      * destruct (ri_blocker i); moves.
      * by destruct (ri_blocker i) as [[[] ? ? ? ? ?]|].
      * constructor; rewrite ?Es'; [by left| |done].
        destruct (ri_blocker i) as [[[] ? ? ? ? ?]|]; cbn; auto.
Qed.

Lemma retry_touches now now' u job rev s c s' :
  store_ok s → retryBlockedJob now now' u job rev s = Ok (c, s') → touched job s s'.
Proof.
  intros H Hc. unfold retryBlockedJob in Hc. apply bind_Ok in Hc as (j0 & G0 & Hc).
  apply require_Ok in G0. split_update Hc. res_inv Hc; [by apply touched_refl|]. guards. subst.
  eapply (touched_eq job s (set_jobs l s)); [|done..].
  eapply touched_update; [done|exact U|intros j P; by guards|done|].
  intros j G P Ok _. assert (j0 = j) as -> by congruence. autorewrite with guards in P.
  destruct P as [[Ej Er] Es%list_elem_of_singleton].
  eapply (row_moves job_due _ now); [|done|rewrite Es; by intros []|done|].
  - moves.
  - unfold view. rewrite Es, Ej. constructor. by right.
Qed.

Lemma complete_touches now i s c s' :
  store_ok s → completeDispatch now i s = Ok (c, s') → touched (co_jobId i) s s'.
Proof.
  intros H Hc. unfold completeDispatch in Hc. apply bind_Ok in Hc as (j0 & G0 & Hc).
  apply require_Ok in G0. apply bind_Ok in Hc as (? & Hr & Hc). apply reject_Ok in Hr.
  split_update Hc. res_inv Hc. guards. subst.
  set (failed := bool_decide (co_outcome i = not_launched)) in *.
  eapply (touched_active _ (co_dispatchAttemptId i) _ _ _ _ (negb failed)
            (λ _, match co_outcome i with
                  | dispatched => tr_accepted | uncertain => tr_uncertain | not_launched => tr_rejected
                  end)); [done|exact U|exact U0|..].
  - intros j P. by guards.
  - intros j. by destruct (cancellationPending j0), failed, (co_workSessionId i).
  - intros a P. by guards.
  - intros a. unfold launch. cbn. by destruct failed.
  - done.
  - intros j G P Ok. assert (j0 = j) as -> by congruence. autorewrite with guards in P.
    destruct P as [[[Ej _] Es] Ea].
    assert (Hst : ¬ settled (status j)) by (one_of Es; rewrite Es; by intros []).
    set (next := if cancellationPending j then _ else _).
    assert (Hnext : next = status j ∧ working (status j)
                    ∨ status j = job_dispatching ∧ next = completed_status (co_outcome i)).
    { unfold next. destruct (cancellationPending j) eqn:Pd.
      { apply cancellation_pending_spec in Pd as [-> _]. by left. }
      destruct (lifecycleAdvanced _ j) eqn:Ad.
      { left. split; [done|]. apply andb_true_iff in Ad as [_ Ad]. autorewrite with guards in Ad.
        destruct Ad as [Ad|[Ad _]]; apply list_elem_of_singleton in Ad; by rewrite Ad. }
      right. split; [|done].
      destruct H4 as [[H4|H4]|[H4%list_elem_of_singleton _]]; [congruence..|done]. }
    eapply (row_moves next (if failed then None else Some (co_dispatchAttemptId i)) now);
      [|done|done| |].
    + destruct (cancellationPending j), failed, (co_workSessionId i); moves.
    + intros E. assert (Hc : status j = job_cancellation_requested).
      { destruct Hnext as [[-> _]|[_ ->]]; [done|]. by destruct (co_outcome i). }
      apply Ok in Hc. by destruct (cancellationPending j), failed, (co_workSessionId i).
    + assert (Hf : failed = match co_outcome i with not_launched => true | _ => false end)
        by (unfold failed; by destruct (co_outcome i)).
      rewrite Hf. clear -Hnext.
      assert (Hu : under_way (status j)) by (destruct Hnext as [[_ ?]|[-> _]]; [by right|by left]).
      assert (Hk : keeps_cancelling (status j) next).
      { destruct Hnext as [[-> _]|[-> _]]; [by intros ?|done]. }
      destruct (co_outcome i); cbn [negb].
      1-2: apply life_progress; [done| |done|done];
        destruct Hnext as [[-> Hw]|[_ ->]]; [done|by (right + left)].
      apply life_ended; [done| |done]. destruct Hnext as [[-> Hw]|[_ ->]]; [by right|by left].
Qed.

Lemma resolve_touches now i s c s' :
  store_ok s → resolveDispatch now i s = Ok (c, s') → touched (re_jobId i) s s'.
Proof.
  intros H Hc. unfold resolveDispatch in Hc.
  destruct (get (re_jobId i) s) as [j0|] eqn:G0; cbn zeta in Hc; split_update Hc; res_inv Hc;
    guards; subst.
  2:{ destruct (updated_found s (re_jobId i) _ _ _ H U ltac:(intros; by guards)). congruence. }
  set (r := re_resolution i) in *.
  eapply (touched_active _ (re_dispatchAttemptId i) _ _ _ _
            (bool_decide (r ∈ [res_accepted; res_operator_intervention]))
            (λ _, resolved_transport r (acpRunId (re_acp i)))); [done|exact U|exact U0|..].
  - intros j P. by guards.
  - intros j. by destruct (_ && _), (re_workSessionId i).
  - intros a P. by guards.
  - intros a. unfold launch, is_open. cbn. f_equal. by destruct r.
  - done.
  - intros j G P Ok. assert (j0 = j) as -> by congruence. autorewrite with guards in P.
    destruct P as [[[Ej Er] Ea] Es]. clear U U0.
    assert (Hst : ¬ settled (status j)) by (one_of Es; rewrite Es; by intros []).
    assert (Hu : under_way (status j)).
    { one_of Es; rewrite Es; [by left..|by right]. }
    set (next := if _ && bool_decide (r ∈ [res_accepted; res_unstarted; _]) then _ else _).
    eapply (row_moves next (if bool_decide (r ∈ [res_accepted; res_operator_intervention])
                            then Some (re_dispatchAttemptId i) else None) now); [|done|done| |].
    + destruct (_ && bool_decide (r = res_unstarted)), (re_workSessionId i); moves.
    + intros E. assert (Hc : truthy (requestId (cancellation j)) = true).
      { unfold next in E. destruct (cancellationPending j) eqn:Pd.
        - by apply cancellation_pending_spec in Pd as [_ ?].
        - by destruct r. }
      by destruct (_ && bool_decide (r = res_unstarted)), (re_workSessionId i).
    + assert (Hp : status j = job_cancellation_requested → cancellationPending j = true).
      { intros E. apply cancellation_pending_spec. split; [done|]. by apply Ok. }
      assert (Hn : next = if cancellationPending j && negb (settled (resolved_status r))
                          then job_cancellation_requested else resolved_status r).
      { unfold next. f_equal. by destruct r. }
      rewrite Hn. clear -Hu Hp.
      assert (Hk : ∀ st, keeps_cancelling (status j)
                (if cancellationPending j then job_cancellation_requested else st)).
      { intros st E. by rewrite Hp. }
      assert (Hw : ∀ st, under_way st →
                under_way (if cancellationPending j then job_cancellation_requested else st)).
      { intros st ?. destruct (cancellationPending j); [by right|done]. }
      destruct r; cbn [resolved_status settled negb]; rewrite ?andb_true_r, ?andb_false_r.
      * apply life_progress; [done|apply Hw; by right|done|done].
      * apply life_unstarted; [done| |done]. destruct (cancellationPending j); auto.
      * apply life_ended; [done|by left|]. intros x _. unfold resolved_transport. by destruct (_ || _).
      * apply life_ended; [done|by left|]. intros x _. unfold resolved_transport. by destruct (_ || _).
      * apply life_ended; [done|by left|]. intros x _. unfold resolved_transport. by destruct (_ || _).
      * apply life_progress; [done|apply Hw; by left|done|done].
Qed.

Lemma transition_touches now i s c s' :
  legal (Transition now i) s → store_ok s → transition now i s = Ok (c, s') → touched (tr_jobId i) s s'.
Proof.
  intros [En Es0] H Hc. unfold transition in Hc. rewrite En, Es0 in Hc.
  apply bind_Ok in Hc as (? & _ & Hc). apply bind_Ok in Hc as (j0 & G0 & Hc).
  apply require_Ok in G0. split_update Hc. res_inv Hc. guards. subst.
  eapply touched_update; [done|exact U|intros j P; by guards| |].
  - intros j. by destruct (tr_workSessionId i), (tr_lastError i).
  - intros j G P Ok _. assert (j0 = j) as -> by congruence. autorewrite with guards in P.
    destruct P as [[Ej Er] Es%list_elem_of_singleton].
    eapply (row_moves job_uncertain_dispatch (activeDispatchAttemptId j) now);
      [|done|rewrite Es; by intros []|done|].
    + destruct (tr_workSessionId i), (tr_lastError i); moves.
    + unfold view. rewrite Es, Ej. by constructor; [left..| |].
Qed.

Lemma request_touches now job rev req reason s c s' :
  req ≠ [] → store_ok s → requestCancellation now job rev req reason s = Ok (c, s') →
  touched job s s'.
Proof.
  intros Hne H Hc. unfold requestCancellation in Hc. apply bind_Ok in Hc as (j0 & G0 & Hc).
  apply require_Ok in G0. split_update Hc.
  destruct (in_status [job_cancelled; _] j0) eqn:Ec; [res_inv Hc; by apply touched_refl|].
  apply bind_Ok in Hc as (? & Hf & Hc). apply bind_Ok in Hc as (? & Hr & Hc).
  apply reject_Ok in Hf, Hr. apply orb_false_iff in Hr as [Hr _]. apply negb_false_iff in Hr.
  autorewrite with guards in Hr.
  assert (Hst : waiting (status j0) ∨ under_way (status j0)).
  { one_of Hr; rewrite Hr; try (by left); try (by right; left); try (by right; right).
    destruct (ok_get s job j0 H G0) as [_ Hs]. by destruct (sound_reconciling _ Hs). }
  res_inv Hc. guards. subst.
  eapply touched_update; [done|exact U|intros j P; by guards|done|].
  intros j G P Ok _. assert (j0 = j) as -> by congruence. autorewrite with guards in P.
  destruct P as [Ej Er].
  eapply (row_moves job_cancellation_requested (activeDispatchAttemptId j) now); [moves|done| | |].
  - by apply unsettled.
  - intros _. cbn. by destruct req.
  - unfold view. rewrite Ej. by constructor.
Qed.

(** An update of columns the machine does not see, on a job under way. *)
Lemma aside_touches job p f js n s :
  store_ok s → updated p f (jobs s) js n →
  (∀ j, p j = true → id j = job ∧ under_way (status j)) →
  (∀ j, keeps_aside j (f j)) → touched job s (set_jobs js s).
Proof.
  intros H U Hp Hf. eapply touched_update; [done|exact U|by intros j [? _]%Hp| |].
  - intros j. apply Hf.
  - intros j G P [Ok1 Ok2] _. destruct (Hp j P) as [Ej Hu]. destruct (Hf j).
    split; [apply keeps_unsettled; try done; [by left|by apply unsettled; right]|].
    split; [by constructor; rewrite as_status0, ?as_stamps0, ?as_request0|].
    unfold view. rewrite Ej, as_status0, as_active0. constructor.
Qed.

Lemma attempt_cancellation_touches now job req interval s :
  store_ok s → touched job s (claimCancellationAttempt now job req interval s).2.
Proof.
  intros H. unfold claimCancellationAttempt.
  destruct (update_where _ _ _) as [js n] eqn:U. eapply aside_touches; [done|exact U| |].
  - intros j P. guards. set_unfold. destruct_and?. split; [done|].
    assert (Es : status j = job_cancellation_requested) by naive_solver. rewrite Es. by right.
  - intros j. by constructor; cbn; try lia.
Qed.

Lemma evidence_touches now job req st err s c s' :
  store_ok s → recordCancellationEvidence now job req st err s = Ok (c, s') → touched job s s'.
Proof.
  intros H Hc. unfold recordCancellationEvidence in Hc. split_update Hc. res_inv Hc.
  eapply aside_touches; [done|exact U| |].
  - intros j P. autorewrite with guards in P. destruct P as [[Ej Es%list_elem_of_singleton] _].
    split; [done|]. rewrite Es. by right.
  - intros j. by constructor; cbn; try lia.
Qed.

Lemma session_touches now job k w s c s' :
  store_ok s → bindWorkSession now job k w s = Ok (c, s') → touched job s s'.
Proof.
  intros H Hc. unfold bindWorkSession in Hc. split_update Hc. res_inv Hc.
  eapply aside_touches; [done|exact U| |].
  - intros j P. autorewrite with guards in P. destruct P as [[Ej _] Es].
    split; [done|]. one_of Es; rewrite Es; by (left + right).
  - intros j. by constructor; cbn; try lia.
Qed.

Lemma finalize_touches now job req st reason s c s' :
  store_ok s → finalizeCancellation now job req st reason s = Ok (c, s') → touched job s s'.
Proof.
  intros H Hc. unfold finalizeCancellation in Hc. split_update Hc. res_inv Hc. guards. subst.
  destruct (changed_one id _ _ _ job _ U (ok_jobs s H) ltac:(intros; by guards))
    as (Ejs & j & Gj & Pj).
  eapply (touched_both job _ _ _ _
            (λ x, if l_open x then mkLaunch (l_id x) false (l_transport x) else x) s);
    [done|exact Ejs|by unfold updated in U0; rewrite U0| |done|done|done| | |].
  - intros j1 P. by guards.
  - intros a _ Q. by guards.
  - intros a _ Ea. cbv beta. rewrite (bool_decide_eq_true_2 _ Ea). unfold launch, is_open. cbn.
    by destruct (completedAt a) eqn:O; cbn; rewrite ?O.
  - intros j1 G. assert (j1 = j) as -> by (unfold get in G; congruence). rewrite Pj. cbn zeta.
    autorewrite with guards in Pj. destruct Pj as [[[Ej Es%list_elem_of_singleton] _] _].
    eapply (row_moves job_cancelled None now); [moves; by rewrite Es| | |done|].
    + by apply (ok_get s job).
    + rewrite Es. by intros [].
    + unfold view. rewrite Es, Ej. constructor.
Qed.

Lemma bind_touches i s s' :
  store_ok s → bindAcpAttempt i s = Ok s' → touched (bi_jobId i) s s'.
Proof.
  intros H Hc. unfold bindAcpAttempt in Hc. apply bind_Ok in Hc as (? & _ & Hc).
  apply bind_Ok in Hc as (j & _ & Hc). apply bind_Ok in Hc as (a & _ & Hc).
  apply bind_Ok in Hc as (? & _ & Hc). cbv zeta in Hc. split_update Hc.
  res_inv Hc; [by apply touched_refl|].
  unfold updated in U. eapply touched_quiet; [done|done|cbn; by rewrite U|done|done].
Qed.

Lemma probe_touches now random job k evidence s :
  store_ok s → touched job s (recordReconcileProbe now random job k evidence s).
Proof.
  intros H. unfold recordReconcileProbe.
  destruct (get_where _ _) as [row|]; [|by apply touched_refl]. by eapply touched_quiet.
Qed.

Lemma due_touches now job s : store_ok s → touched job s (markDue now job s).2.
Proof.
  intros H. unfold markDue. destruct (update_where _ _ _) as [js n] eqn:U.
  replace (_ : option Z * store).2 with (set_jobs js s) by (by destruct (Nat.eqb n 1)).
  eapply touched_update; [done|exact U|intros j P; by guards|done|].
  intros j G P Ok _. autorewrite with guards in P. destruct P as [Ej Es%list_elem_of_singleton].
  eapply (row_moves job_due (activeDispatchAttemptId j) now); [|done|rewrite Es; by intros []|done|].
  - constructor; cbn; try first [reflexivity | lia]; by rewrite Es.
  - unfold view. rewrite Es, Ej. constructor. by left.
Qed.

(** [rearm] writes no row: no job is ever [reconciling]. *)
Lemma rearm_touches now now' u row s :
  row ∈ jobs s → store_ok s → touched (id row) s (rearm now now' u row s).
Proof.
  intros Hr H. unfold rearm. destruct (in_status [job_reconciling] row) eqn:E.
  - apply in_status_spec, list_elem_of_singleton in E. destruct (ok_row s H row Hr) as [_ Hs].
    by destruct (sound_reconciling _ Hs).
  - by apply touched_none.
Qed.

End Operations.
End ScheduledJobFacts.
