(* ===== verification/ScheduledMoves.v ===== *)
(** * Histories of the scheduled-job store

    What [ScheduledJobFacts] leaves: the projection of an event, the reports, the publications and
    the creation of a job; then every call of a history is a move of the machine of
    [ScheduledLaunches] on one job, or creates one, and the invariant holds along the history. *)

From S2P Require Import Prelude JsString Json Sql Outbox ScheduledLifecycle ScheduledJobs.
From S2P Require Import ScheduledPublications ScheduledLaunches ScheduledJobFacts.

Module ScheduledMoves.
Import ScheduledLifecycle ScheduledJobs ScheduledPublications ScheduledLaunches ScheduledJobFacts.

(** ** Calls that touch neither jobs nor launches *)

(** Two updates of the same rows are one. *)
Lemma update_twice {row} (p : row → bool) f g t :
  (∀ r, p (f r) = p r) →
  (update_where p g (update_where p f t).1).1 = (update_where p (λ r, g (f r)) t).1.
Proof.
  intros Hf. unfold update_where. cbn. rewrite List.map_map. apply List.map_ext. intros r.
  destruct (p r) eqn:P; [by rewrite Hf, P|by rewrite P].
Qed.

Definition quiet (s s' : store) : Prop := jobs s' = jobs s ∧ attempts s' = attempts s.

Lemma quiet_trans s1 s2 s3 : quiet s1 s2 → quiet s2 s3 → quiet s1 s3.
Proof. intros [? ?] [? ?]. split; congruence. Qed.

Lemma quiet_touched k s s' : store_ok s → quiet s s' → touched k s s'.
Proof. intros H [? ?]. by apply touched_none. Qed.

Lemma touched_after_quiet k s s1 s2 : quiet s s1 → touched k s1 s2 → touched k s s2.
Proof.
  intros [Ej Ea] [E1 E2 E3 E4 E5].
  assert (Hl : ∀ k, launches k s1 = launches k s) by (intros; by apply launches_eq).
  constructor; [congruence|done| | |].
  - intros a Hx. unfold get. rewrite <- Ej. by apply E3.
  - intros k' Hk. unfold get. rewrite <- Ej, <- Hl. by apply E4.
  - intros j Hj. unfold get in Hj. rewrite <- Ej in Hj. destruct (E5 j Hj) as (j' & ? & ? & ? & Hv).
    exists j'. split; [done|]. split; [done|]. split; [done|]. unfold view in *. by rewrite <- Hl.
Qed.

Section Reports.
Context (sha256 : jsstr → jsstr).

Lemma persist_quiet now u job run report s r s' :
  persistReportWithinTransaction sha256 now u job run report s = Ok (r, s') → quiet s s'.
Proof. intros Hc. unfold persistReportWithinTransaction in Hc. by res_inv Hc. Qed.

Lemma persistReport_quiet now u job run report s r s' :
  persistReport sha256 now u job run report s = Ok (r, s') → quiet s s'.
Proof.
  intros Hc. unfold persistReport in Hc. apply bind_Ok in Hc as (? & _ & Hc). by eapply persist_quiet.
Qed.

Lemma finalize_quiet now u o s s' :
  finalizeReportObligationWithinTransaction sha256 now u o s = Ok s' → quiet s s'.
Proof.
  intros Hc. unfold finalizeReportObligationWithinTransaction in Hc.
  destruct (f_status o), (f_reportText o); try (by injection Hc as <-);
    apply bind_Ok in Hc as ([r s1] & Hp & Hc); apply persist_quiet in Hp; by injection Hc as <-.
Qed.

Lemma try_quiet now u o s : quiet s (try_finalize sha256 now u o s).
Proof.
  unfold try_finalize. destruct (finalizeReportObligationWithinTransaction _ _ _ _ _) eqn:E; [|done].
  by eapply finalize_quiet.
Qed.

Lemma reconcile_quiet clock l s : quiet s (reconcilePendingReportFinalizations sha256 clock l s).2.
Proof.
  unfold reconcilePendingReportFinalizations. generalize (limit (Z.to_nat (Z.max 1 (Z.min 250 l)))
    (order_by le_updated (select_where (λ f, bool_decide (f_status f = f_pending)) (finalizations s)))).
  generalize 0%Z. intros n os. change s with (n, s).2 at 1. generalize (n, s). clear n s.
  induction os as [|o os IH]; intros acc; cbn; [done|].
  eapply quiet_trans; [|apply IH]. apply try_quiet.
Qed.

Lemma obligation_quiet now u ev s : quiet s (recordReportFinalizationObligation now u ev s).
Proof.
  unfold recordReportFinalizationObligation. destruct (report_obligation _ _ _ _); [|done].
  by case_match.
Qed.

End Reports.

(** ** Publications *)

Lemma store_receipts_touches k p l s : store_ok s → touched k s (store_receipts p l s).2.
Proof.
  intros H. unfold store_receipts. destruct (update_where _ _ _) as [t n] eqn:E. cbn.
  eapply touched_quiet; [done|done|cbn; by rewrite E|done|done].
Qed.

Lemma intent_touches job intent s s' :
  store_ok s → recordPublicationIntent job intent s = Ok s' → touched job s s'.
Proof.
  intros H Hc. unfold recordPublicationIntent in Hc. res_inv Hc; [by apply touched_refl|].
  exact (store_receipts_touches job _ _ s H).
Qed.

Lemma receipt_touches job receipt s s' :
  store_ok s → recordPublicationReceipt job receipt s = Ok s' → touched job s s'.
Proof.
  intros H Hc. unfold recordPublicationReceipt in Hc. res_inv Hc; [by apply touched_refl|].
  exact (store_receipts_touches job _ _ s H).
Qed.

Lemma failure_touches now job receipt o reason s :
  store_ok s → touched job s (recordPublicationFailure now job receipt o reason s).
Proof.
  intros H. unfold recordPublicationFailure. generalize (select_where
    (λ a, bool_decide (jobId a = job) && bool_decide (is_Some (publicationReceipts a))) (attempts s)).
  intros rows. induction rows as [|a rows IH]; cbn; [by apply touched_refl|].
  destruct (find_index _ _); [|done]. by apply store_receipts_touches.
Qed.

(** ** The projection of an event *)

Lemma projection_stale s e c a :
  stale_attempt e (Some a) = true → projectScheduledJobLifecycleEvent s e c (Some a) = nothing.
Proof.
  intros Hs. rewrite projection_spec, !project_plain_stale, Hs, andb_false_r by done.
  by destruct (precedes e c).
Qed.

Lemma job_move_end s t s' :
  job_move s t s' → ACTIVE_JOB_STATUSES s = true
  ∧ (settled s' = true ∨ s' = job_running ∨ s' = job_awaiting_approval).
Proof.
  intros H. destruct H as [s Hs|s Hs|s Hs|s Hs|s t Hs Ht|s Hs]; try (split; [done|by left]).
  all: split; [one_of Hs; by rewrite Hs|auto].
Qed.

(** A projection without cancellation ends a job, or moves an active one that is not being
    cancelled. *)
Lemma plain_moves s e a s' :
  nextStatus (project_plain s e a) = Some s' →
  settled s' = true ∨ s ≠ job_cancellation_requested ∧ (s' = job_running ∨ s' = job_awaiting_approval).
Proof.
  unfold project_plain. destruct (ACTIVE_JOB_STATUSES s) eqn:Ea; [|done]. cbn.
  destruct (stale_attempt e a); [done|]. case_bool_decide as Ec.
  - unfold confirmCancellation. destruct (WORKER_STOPPED_EVENTS _); [|done]. cbn.
    intros [= <-]. by left.
  - intros Hn. apply projectActive_moves in Hn; [|done..]. apply job_move_end in Hn as [_ [?|?]]; auto.
Qed.

Lemma plain_final s e a o :
  finalWorkerOutcome (project_plain s e a) = Some o →
  ∃ s', nextStatus (project_plain s e a) = Some s' ∧ settled s' = true.
Proof.
  unfold project_plain. destruct (_ || _); [done|]. case_bool_decide.
  { unfold confirmCancellation. destruct (WORKER_STOPPED_EVENTS _); [eauto|done]. }
  unfold projectActive. rewrite outcome_of_event.
  destruct (event_type (ev_type e)); cbv zeta; cbn; repeat case_match; try done; eauto.
Qed.

Lemma plain_autonomous s e a :
  autonomousCompletion (project_plain s e a) = true → s ≠ job_cancellation_requested.
Proof.
  unfold project_plain. destruct (_ || _); [done|]. case_bool_decide; [|done].
  unfold confirmCancellation. by destruct (WORKER_STOPPED_EVENTS _).
Qed.

Lemma plain_active s e a : project_plain s e a ≠ nothing → ACTIVE_JOB_STATUSES s = true.
Proof. unfold project_plain. by destruct (ACTIVE_JOB_STATUSES s). Qed.

Lemma under_way_active st : ACTIVE_JOB_STATUSES st = true → under_way st.
Proof. intros H. unfold under_way. destruct st; try done; by (left + right). Qed.

Lemma terminal_moves row e fa x :
  terminal_status row (projectScheduledJobLifecycleEvent (status row) e (Some (job_cancellation row))
                         (Some (attempt_identity fa))) = Some x →
  under_way (status row) ∧ is_Some fa
  ∧ (settled x ∨ status row ≠ job_cancellation_requested
                 ∧ (x = job_running ∨ x = job_awaiting_approval)).
Proof.
  intros Hx. assert (Hfa : is_Some fa).
  { destruct fa as [a|]; [eauto|]. by rewrite projection_stale in Hx. }
  revert Hx. rewrite projection_spec. set (p := project_plain (status row) e _).
  assert (Hp : terminal_status row p = Some x →
    under_way (status row) ∧ (settled x ∨ status row ≠ job_cancellation_requested
                              ∧ (x = job_running ∨ x = job_awaiting_approval))).
  { unfold terminal_status. intros Hx. split.
    - apply under_way_active, (plain_active _ e (Some (attempt_identity fa))). fold p.
      intros E. by rewrite E in Hx.
    - destruct (_ && _); [injection Hx as <-; by left|].
      apply plain_moves in Hx as [Hx|Hx]; [left; by rewrite Hx|by right]. }
  destruct (precedes _ _) as [prev|]; [|intros [? ?]%Hp; auto].
  destruct (bool_decide (status row = _) && _ && _) eqn:Eb; [|intros [? ?]%Hp; auto].
  guards. intros Hx. match goal with E : status row = _ |- _ => rewrite E end.
  split; [by right|]. split; [done|]. left. destruct H0 as [o Ho].
  apply plain_final in Ho as (s' & Hn & Hs). unfold terminal_status in Hx. cbn in Hx.
  destruct (_ && _); [by injection Hx as <-|]. rewrite Hn in Hx. injection Hx as <-. by rewrite Hs.
Qed.

(** The active attempt of a job, as the projection finds it. *)
Lemma active_found row s k a :
  store_ok s → row ∈ jobs s → activeDispatchAttemptId row = Some k → find_attempt k s = Some a →
  a ∈ attempts s ∧ a_id a = k ∧ jobId a = id row.
Proof.
  intros H Hr Hk [Ha Ea]%by_key_Some. split; [done|]. split; [done|].
  destruct (ok_row s H row Hr) as [_ Hs]. destruct (sound_active _ Hs k Hk) as (_ & t & Hl).
  apply elem_of_launches in Hl as (b & Eb & Hb & <-). f_equal.
  eapply keyed_inj; [apply H|done..|]. rewrite Ea. by injection Eb.
Qed.

Lemma projected_launch e p a :
  launch (projected_attempt e p a) = launch a ∧ jobId (projected_attempt e p a) = jobId a
  ∧ a_id (projected_attempt e p a) = a_id a.
Proof. unfold projected_attempt, bound_attempt. by destruct (touches_execution p), (binds e a). Qed.

(** What the end of a job does to its launch. *)
Definition closing (t : TransportStatus) : TransportStatus :=
  if bool_decide (t = tr_uncertain) then tr_accepted else t.

Lemma closed_launch now e p a :
  launch (closed_attempt now e p a) = mkLaunch (a_id a) false (closing (transportStatus a)).
Proof. done. Qed.

(** The row after the event, and the move it is. *)
Lemma projected_row now seq e fa row :
  let p := projectScheduledJobLifecycleEvent (status row) e (Some (job_cancellation row))
             (Some (attempt_identity fa)) in
  let j := projected_job now seq p row row in
  let terminal := match terminal_status row p with
                  | Some x => DEFINITIVE_TERMINAL_JOB_STATUSES x
                  | None => false
                  end in
  job_ok row → (lifecycleEventCursor row < seq)%Z →
  keeps row j ∧ job_ok j
  ∧ (terminal = false → ∀ l, life (mkView (status row) (activeDispatchAttemptId row) l)
                               (mkView (status j) (activeDispatchAttemptId j) l))
  ∧ (terminal = true → ∀ k l, activeDispatchAttemptId row = Some k →
       life (mkView (status row) (Some k) l)
         (mkView (status j) (activeDispatchAttemptId j) (set_launch k false closing l))).
Proof.
  intros p j terminal Hok Hseq.
  assert (Hac : activeDispatchAttemptId j = if terminal then None else activeDispatchAttemptId row)
    by done.
  assert (Hrev : revision j = if terminal then (revision row + 1)%Z else revision row) by done.
  assert (Hcur : lifecycleEventCursor j = seq) by done.
  destruct (terminal_status row p) as [x|] eqn:Ex.
  - destruct (terminal_moves row e fa x Ex) as (Hu & _ & Hx).
    assert (Hs : ¬ settled (status row)) by (by apply unsettled; right).
    assert (Hst : status j = x) by (unfold j, projected_job; by rewrite Ex).
    assert (Ht : terminal = settled x) by apply settled_definitive.
    split; [|split; [|split]].
    + apply keeps_unsettled; try done; unfold j, projected_job; rewrite Ex; cbn; [done..| |lia|].
      * destruct (DEFINITIVE_TERMINAL_JOB_STATUSES x); lia.
      * intros A. by destruct Hx as [Hx|[_ [-> | ->]]]; [destruct x|..].
    + eapply (job_ok_move row j x now); try done.
      * unfold j, projected_job. by rewrite Ex.
      * intros ->. by destruct Hx as [[]|[_ [?|?]]].
    + rewrite Hst, Hac, Ht. intros E l. rewrite E.
      destruct Hx as [Hx|[Hne Hx]]; [by rewrite E in Hx|].
      apply life_news; [done|..]; destruct Hx as [-> | ->]; first [done | by right | by intros ?].
    + rewrite Hst, Hac, Ht. intros E k l _. rewrite E. apply life_ended; [done|by left; rewrite E|].
      intros t Hne. unfold closing. by case_bool_decide.
  - split; [|split; [|split; [|done]]].
    + constructor; try done; unfold j, projected_job; rewrite Ex; cbn; first [done | by left | lia].
    + constructor; unfold j, projected_job; rewrite Ex; apply Hok.
    + intros _ l. unfold j, projected_job. rewrite Ex. constructor.
Qed.

(** The attempts of a job whose active attempt [a] changes by [g]. *)
Lemma update_active s k a g (h : Launch → Launch) :
  store_ok s → a ∈ attempts s →
  (∀ b, a_id (g b) = a_id b) → (∀ b, jobId (g b) = jobId b) →
  launch (g a) = h (launch a) →
  (∀ y, l_id y ≠ a_id a → h y = y) →
  ∀ b, b ∈ attempts s → jobId b = k →
    launch (if bool_decide (a_id b = a_id a) then g b else b) = h (launch b).
Proof.
  intros H Ha Hg Hgj Hl Hh b Hb _. case_bool_decide as E; [|by rewrite Hh].
  assert (b = a) as -> by (by eapply keyed_inj; [apply H|..]). done.
Qed.

Section Projection.
Context (sha256 : jsstr → jsstr).

Lemma project_report_quiet t e p row found s : quiet s (project_report sha256 t e p row found s).
Proof. unfold project_report. repeat case_match; first [apply try_quiet | done]. Qed.

(** The attempts of a store whose event was projected. *)
Lemma projected_attempts t e p row found s1 :
  attempts (project_end t e p row found s1)
  = match found with
    | Some a => if reaches_end row p
                then (update_where (λ x, bool_decide (a_id x = a_id a))
                        (closed_attempt (completed_now t) e p) (attempts s1)).1
                else attempts s1
    | None => attempts s1
    end.
Proof. unfold project_end. by repeat case_match. Qed.

Lemma project_row_touches t ev row s c s' :
  store_ok s → row ∈ jobs s → (lifecycleEventCursor row < ev_seq ev)%Z →
  project_row sha256 t ev row s = Ok (c, s') → touched (id row) s s'.
Proof.
  intros H Hr Hseq Hc. unfold project_row in Hc. cbv zeta in Hc.
  set (found := active_attempt row s) in Hc. set (p := row_projection _ _ _) in Hc.
  set (s1 := project_report _ _ _ _ _ _ _) in Hc.
  destruct (project_report_quiet t (event ev) p row found (project_attempt (event ev) p found s))
    as [Hqj Hqa]. fold s1 in Hqj, Hqa.
  assert (Hj1 : jobs s1 = jobs s) by (rewrite Hqj; unfold project_attempt; by destruct found).
  rewrite Hj1 in Hc. split_update Hc. res_inv Hc. guards. subst n.
  destruct (changed_one id _ _ _ (id row) _ U (ok_jobs s H) ltac:(intros; by guards)) as (El & _).
  pose proof (get_in s row H Hr) as Hg. destruct (ok_row s H row Hr) as [Hok Hs].
  destruct (projected_row (state_now t) (ev_seq ev) (event ev) (bound_attempt (event ev) <$> found)
              row Hok Hseq) as (Hkeep & Hok' & Hgo & Hend).
  fold (row_projection (event ev) row found) in Hkeep, Hok', Hgo, Hend. fold p in Hkeep, Hok', Hgo, Hend.
  fold (reaches_end row p) in Hgo, Hend. clearbody s1. clear U.
  assert (Pr : has_id (id row) row && at_revision (revision row) row
               && (lifecycleEventCursor row <? ev_seq ev)%Z = true) by (by guards).
  destruct found as [a|] eqn:Ef.
  - unfold found, active_attempt in Ef.
    destruct (activeDispatchAttemptId row) as [k|] eqn:Ek; [|done].
    destruct (nonempty k); [|done].
    destruct (active_found row s k a H Hr Ek Ef) as (Ha & Eak & Eaj).
    assert (Ea : attempts (project_end t (event ev) p row (Some a) (set_jobs l s1))
      = (update_where (λ x, bool_decide (a_id x = a_id a))
           (λ x, let y := projected_attempt (event ev) p x in
                 if reaches_end row p then closed_attempt (completed_now t) (event ev) p y else y)
           (attempts s)).1).
    { rewrite projected_attempts. cbn [attempts set_jobs]. rewrite Hqa. unfold project_attempt.
      cbn [attempts set_attempts]. destruct (reaches_end row p); [|done].
      apply update_twice. intros b. by destruct (projected_launch (event ev) p b) as (_ & _ & ->). }
    set (h y := if reaches_end row p && bool_decide (l_id y = k)
                then mkLaunch k false (closing (l_transport y)) else y).
    eapply (touched_both (id row) _ _ _ _ h);
      [done| |exact Ea|..].
    + transitivity l; [|exact El]. unfold project_end. by destruct (reaches_end row p).
    + intros j P. by guards.
    + intros j. unfold projected_job. by destruct (terminal_status row p).
    + intros b. destruct (projected_launch (event ev) p b) as (_ & _ & E).
      by destruct (reaches_end row p).
    + intros b. destruct (projected_launch (event ev) p b) as (_ & E & _).
      by destruct (reaches_end row p).
    + intros b Hb Q Hne. guards. destruct Hne. rewrite <- Eaj. f_equal.
      by eapply keyed_inj; [apply H|..].
    + apply (update_active s (id row) a _ h H Ha).
      * intros b. destruct (projected_launch (event ev) p b) as (_ & _ & E).
        by destruct (reaches_end row p).
      * intros b. destruct (projected_launch (event ev) p b) as (_ & E & _).
        by destruct (reaches_end row p).
      * unfold h. destruct (projected_launch (event ev) p a) as (E & _ & Ei). cbv zeta.
        destruct (reaches_end row p); [|done]. rewrite closed_launch, Ei.
        injection E as _ _ ->. cbn [launch l_id l_transport andb].
        by rewrite (bool_decide_eq_true_2 _ Eak), Eak.
      * intros y Hy. unfold h. rewrite (bool_decide_eq_false_2 (l_id y = k)) by congruence.
        by rewrite andb_false_r.
    + intros j Gj. assert (j = row) as -> by congruence. rewrite Pr. cbv zeta.
      split; [done|]. split; [done|]. unfold view, h. rewrite Ek.
      destruct (reaches_end row p) eqn:Er; [exact (Hend eq_refl k _ eq_refl)|].
      rewrite list_fmap_id. by apply Hgo.
  - assert (Er : reaches_end row p = false).
    { unfold reaches_end. destruct (terminal_status row p) as [x'|] eqn:Ex; [|done].
      by apply terminal_moves in Ex as (_ & [? ?] & _). }
    eapply (touched_job (id row)); [done| | | | |].
    + transitivity l; [done|exact El].
    + rewrite projected_attempts. exact Hqa.
    + intros j P. by guards.
    + intros j. unfold projected_job. by destruct (terminal_status row p).
    + intros j Gj _ _ _. assert (j = row) as -> by congruence.
      split; [done|]. split; [done|]. by apply Hgo.
Qed.

(** What a call did: it touched one job and no other, or it created one. *)
Definition moves_one (s s' : store) : Prop := (∃ k, touched k s s') ∨ created s s'.

Lemma session_job_in session s row : session_job session s = Some row → row ∈ jobs s.
Proof.
  unfold session_job. intros Hr. apply first_by_elem in Hr. unfold select_where in Hr.
  by apply elem_of_Lfilter in Hr as [? _].
Qed.

Lemma project_touches t ev s : store_ok s → ∃ k, touched k s (projectEvent sha256 t ev s).2.
Proof.
  intros H. unfold projectEvent. destruct (_ || _ || _); [exists []; by apply touched_refl|].
  destruct (obligation_quiet (obligation_now t) (obligation_uuid t) ev s) as [Ej Ea].
  set (s' := recordReportFinalizationObligation _ _ _ _) in *.
  assert (H' : touched [] s s') by (by apply touched_none).
  destruct (session_job (sessionId ev) s') as [row|] eqn:Er; [|by exists []].
  destruct (Z.leb_spec (ev_seq ev) (lifecycleEventCursor row)); [by exists []|].
  destruct (project_row sha256 t ev row s') as [[j s2]|] eqn:Ep; [|by exists []].
  exists (id row). apply session_job_in in Er.
  apply project_row_touches in Ep; [|by eapply touched_ok|done|done].
  by eapply touched_after_quiet.
Qed.

End Projection.

(** ** Creation *)

Section Histories.
Context (sha256 : jsstr → jsstr) (parse : ScheduledJobInput → option JobRequest).

(** A row without conflict has a new id. *)
Lemma no_job_conflict n s : existsb (job_conflicts n) (jobs s) = false → get (id n) s = None.
Proof.
  intros Hc. apply by_key_None. intros j Hj E. apply not_true_iff_false in Hc. apply Hc.
  apply List.existsb_exists. exists j. split; [by apply list_elem_of_In|].
  apply orb_true_iff. left. by apply has_id_spec.
Qed.

Lemma commit_creates now now' u u' i s c s' :
  commitJob sha256 parse now now' u u' i s = Ok (c, s') → created s s'.
Proof.
  intros Hc. unfold commitJob in Hc. apply bind_Ok in Hc as (r & _ & Hc).
  set (n := new_job sha256 _ now i r) in *. apply bind_Ok in Hc as (? & Hr & Hc).
  apply reject_Ok in Hr. res_inv Hc. exists n. split_and!; try done.
  - by apply no_job_conflict.
  - constructor; [done|]. by split; [intros []|].
Qed.

Lemma created_ok s s' : store_ok s → created s s' → store_ok s'.
Proof.
  intros H (n & Ej & Hn & Ea & Es & Hact & Hok & _).
  assert (Hg : ∀ k, get k s' = if bool_decide (k = id n) then Some n else get k s).
  { intros k. unfold get. rewrite Ej. case_bool_decide as E.
    - subst k. by apply by_key_insert_eq.
    - by apply by_key_insert_ne. }
  assert (Hl : ∀ k, launches k s' = launches k s) by (intros; by apply launches_eq).
  constructor.
  - rewrite Ej. apply keyed_insert; [apply H|done].
  - rewrite Ea. apply H.
  - intros a Ha. rewrite Ea in Ha. rewrite Hg. case_bool_decide; [eauto|by apply H].
  - intros j Hj. rewrite Ej in Hj. unfold view. rewrite Hl.
    apply elem_of_app in Hj as [Hj| ->%list_elem_of_singleton]; [by apply H|].
    split; [done|]. rewrite Es, Hact.
    assert (El : launches (id n) s = []).
    { destruct (launches (id n) s) as [|x l] eqn:E; [done|].
      assert (Hx : x ∈ launches (id n) s) by (rewrite E; by left).
      apply elem_of_launches in Hx as (a & _ & Ha & Hi). apply (ok_owner s H) in Ha as [j Hja].
      rewrite Hi in Hja. congruence. }
    rewrite El. constructor; cbn; try done; [constructor|set_solver..].
Qed.

Lemma create_moves now now' u u' i s c s' :
  store_ok s → create sha256 parse now now' u u' i s = Ok (c, s') → moves_one s s'.
Proof.
  intros H Hc. unfold create in Hc.
  destruct (in_clientMutationId i) as [[|]|]; try (right; by eapply commit_creates).
  destruct (get_where _ _) as [prior|]; [|right; by eapply commit_creates].
  res_inv Hc. left. exists []. by apply touched_refl.
Qed.

(** ** Histories *)

Lemma after_moves {E A} (m : res E (A * store)) s :
  store_ok s → (∀ a s', m = Ok (a, s') → moves_one s s') → moves_one s (after m s).
Proof.
  intros H Hm. destruct m as [[a s']|]; cbn; [by eapply Hm|]. left. exists [].
  by apply touched_refl.
Qed.

Lemma after'_moves {E} (m : res E store) s :
  store_ok s → (∀ s', m = Ok s' → moves_one s s') → moves_one s (after' m s).
Proof. intros H Hm. destruct m; cbn; [by apply Hm|]. left. exists []. by apply touched_refl. Qed.

Lemma one_touched k s s' : touched k s s' → moves_one s s'.
Proof. intros H. left. by exists k. Qed.

Lemma perform_moves c s : store_ok s → legal c s → moves_one s (perform sha256 parse c s).
Proof.
  intros H Hl. destruct c; cbn [perform];
    try (apply after_moves; [done|]; intros r s' Hc); try (apply after'_moves; [done|]; intros s' Hc).
  - by eapply create_moves.
  - eapply one_touched, claim_touches; [exact Hl|done|exact Hc].
  - by eapply one_touched, release_touches.
  - by eapply one_touched, retry_touches.
  - by eapply one_touched, complete_touches.
  - by eapply one_touched, resolve_touches.
  - by eapply one_touched, transition_touches.
  - eapply one_touched, request_touches; [exact Hl|done|exact Hc].
  - by eapply one_touched, attempt_cancellation_touches.
  - by eapply one_touched, evidence_touches.
  - by eapply one_touched, finalize_touches.
  - by eapply one_touched, session_touches.
  - by eapply one_touched, bind_touches.
  - by eapply one_touched, probe_touches.
  - eapply (one_touched []), quiet_touched, persistReport_quiet; [done|exact Hc].
  - apply (one_touched []), quiet_touched, reconcile_quiet; done.
  - by left; apply project_touches.
  - by eapply one_touched, due_touches.
  - by eapply one_touched, rearm_touches.
  - by eapply one_touched, intent_touches.
  - by eapply one_touched, receipt_touches.
  - by eapply one_touched, failure_touches.
  - apply (one_touched []), touched_none; done.
Qed.

Lemma moves_one_ok s s' : store_ok s → moves_one s s' → store_ok s'.
Proof. intros H [[k Hk]|Hc]; [by eapply touched_ok|by eapply created_ok]. Qed.

Lemma history_ok s s' : history sha256 parse s s' → store_ok s → store_ok s'.
Proof.
  intros Hh. induction Hh as [s|s1 s2 s3 (c & Hl & ->) Hh IH]; intros H; [done|].
  apply IH. eapply moves_one_ok; [done|]. by apply perform_moves.
Qed.

End Histories.

End ScheduledMoves.
