(* ===== verification/ScheduledDispatch.v ===== *)
(** * What the scheduled-job store promises

    Along every history of the store: the store refines the board of job machines, no job is
    launched twice, an attempt that was closed never acts again, a cancelled job is not launched
    again, and a job that ended stays as it ended. *)

From S2P Require Import Prelude JsString Json Sql Outbox ScheduledLifecycle ScheduledJobs.
From S2P Require Import ScheduledPublications ScheduledLaunches ScheduledJobFacts ScheduledMoves.

Module ScheduledDispatch.
Import ScheduledLifecycle ScheduledJobs ScheduledPublications ScheduledLaunches ScheduledJobFacts
  ScheduledMoves.

(** ** Lives of a job *)

Definition lives : View → View → Prop := steps life.

(** A job that ended does not move. *)
Lemma life_settled v v' : settled (v_status v) → life v v' → v' = v.
Proof.
  intros Hs Hl. destruct Hl as [v|st k l Hst|a k l Hne Hk|st st' k l Hst Hst' Hc|st st' k l t Hst Hst' Hc Ht
    |st st' k l Hst Hst' Hc Hl|st st' k l t Hst Hst' Ht|st k l Hst|k l]; cbn in *; try done.
  - by destruct Hst as [-> | ->].
  - by destruct (unsettled st (or_intror Hst)).
  - by destruct (unsettled st (or_intror Hst)).
  - by destruct (unsettled st (or_intror Hst)).
  - by destruct (unsettled st (or_intror Hst)).
  - by destruct (unsettled st Hst).
Qed.

Lemma lives_settled v v' : lives v v' → settled (v_status v) → v' = v.
Proof.
  induction 1 as [v|v1 v2 v3 Hl Hs IH]; intros H; [done|].
  apply life_settled in Hl as ->; [by apply IH|done].
Qed.

Lemma lives_sound v v' : lives v v' → sound v → sound v'.
Proof. induction 1; eauto using life_sound. Qed.

(** What is known of a launch that was closed does not change. *)
Lemma life_closed v v' x :
  sound v → life v v' → x ∈ v_launches v → l_open x = false → x ∈ v_launches v'.
Proof.
  intros H Hl Hx Ho.
  assert (Hset : ∀ st k l o t, v = mkView st (Some k) l → x ∈ set_launch k o t l).
  { intros st k l o t ->. apply elem_of_set_launch. exists x. split; [done|].
    rewrite bool_decide_eq_false_2; [done|]. intros E.
    apply not_true_iff_false in Ho. apply Ho, (sound_open _ H x Hx). cbn. by rewrite E. }
  destruct Hl; cbn in *; eauto.
  - apply elem_of_app. by left.
  - apply elem_of_close_all. exists x. by rewrite Ho.
Qed.

Lemma lives_closed v v' x :
  lives v v' → sound v → x ∈ v_launches v → l_open x = false → x ∈ v_launches v'.
Proof. induction 1; eauto using life_sound, life_closed. Qed.

(** A job whose cancellation was requested. *)
Definition cancelling (st : ScheduledJobStatus) : bool :=
  match st with job_cancellation_requested => true | _ => settled st end.

Lemma life_cancelling v v' :
  life v v' → cancelling (v_status v) →
  cancelling (v_status v') ∧ l_id <$> v_launches v' = l_id <$> v_launches v.
Proof.
  intros Hl Hc. destruct (decide (settled (v_status v))) as [Hs|Hs].
  { apply life_settled in Hl as ->; done. }
  assert (E : v_status v = job_cancellation_requested) by (by destruct (v_status v)).
  destruct Hl as [v|st k l Hst|a k l Hne Hk|st st' k l Hst Hst' Hk|st st' k l t Hst Hst' Hk Ht
    |st st' k l Hst Hst' Hk Hl|st st' k l t Hst Hst' Ht|st k l Hst|k l]; cbn in *; subst; try done.
  - by destruct Hst.
  - rewrite set_launch_ids. by rewrite Hk.
  - rewrite set_launch_ids. by rewrite Hk.
  - by rewrite Hk.
  - rewrite set_launch_ids. split; [|done].
    destruct Hst' as [Hst'|[Hk _]]; [by destruct st'|by rewrite Hk].
  - by rewrite close_all_ids.
Qed.

Lemma lives_cancelling v v' :
  lives v v' → cancelling (v_status v) →
  cancelling (v_status v') ∧ l_id <$> v_launches v' = l_id <$> v_launches v.
Proof.
  induction 1 as [v|v1 v2 v3 Hl Hs IH]; intros Hc; [done|].
  apply life_cancelling in Hl as [Hc2 E2]; [|done]. destruct (IH Hc2) as [Hc3 E3].
  split; congruence.
Qed.

(** ** Lives along a history *)

Lemma keeps_trans j1 j2 j3 :
  keeps j1 j2 → keeps j2 j3 → (settled (status j1) → settled (status j2)) → keeps j1 j3.
Proof.
  intros [] [] Hs. constructor; try congruence; try lia.
  - intros A. destruct (keeps_armed1 A) as [E|E]; [|right; lia].
    rewrite E in A |- *. destruct (keeps_armed0 A); [by left|right; lia].
  - intros H. destruct keeps_terminal0; [done|]. destruct keeps_terminal1; [auto|]. split; congruence.
Qed.

Section Histories.
Context (sha256 : jsstr → jsstr) (parse : ScheduledJobInput → option JobRequest).

Lemma moves_job k s s' j :
  store_ok s → moves_one s s' → get k s = Some j →
  ∃ j', get k s' = Some j' ∧ keeps j j' ∧ life (view j s) (view j' s').
Proof.
  intros H [[k1 Hk]|(n & Ej & Hn & Ea & _)] G.
  - destruct (decide (k = k1)) as [->|Hne].
    + destruct (to_job _ _ _ Hk j G) as (j' & ? & ? & _ & ?). by exists j'.
    + destruct (to_others _ _ _ Hk k Hne) as [Eg El]. exists j. rewrite Eg. split; [done|].
      split; [apply keeps_refl|]. apply get_Some in G as [_ <-]. unfold view. rewrite El. constructor.
  - exists j. split.
    + unfold get. rewrite Ej. rewrite by_key_insert_ne; [done|]. intros ->. congruence.
    + split; [apply keeps_refl|]. unfold view. rewrite (launches_eq _ s s' Ea). constructor.
Qed.

Lemma history_job k s s' j :
  history sha256 parse s s' → store_ok s → get k s = Some j →
  ∃ j', get k s' = Some j' ∧ keeps j j' ∧ lives (view j s) (view j' s').
Proof.
  intros Hh. revert j. induction Hh as [s|s1 s2 s3 (c & Hl & ->) Hh IH]; intros j H G.
  { exists j. split; [done|]. split; [apply keeps_refl|constructor]. }
  pose proof (perform_moves sha256 parse c s1 H Hl) as Hm.
  destruct (moves_job k _ _ j H Hm G) as (j2 & G2 & K2 & L2).
  destruct (IH j2 (moves_one_ok _ _ H Hm) G2) as (j3 & G3 & K3 & L3).
  exists j3. split; [done|]. split; [|by econstructor].
  eapply keeps_trans; [done|done|]. intros Hs. apply life_settled in L2; [|done].
  by injection L2 as -> _ _.
Qed.

End Histories.

(** The launch of an attempt, among those of its job. *)
Lemma attempt_launch a s j :
  a ∈ attempts s → get (jobId a) s = Some j → launch a ∈ v_launches (view j s).
Proof.
  intros Ha G. apply get_Some in G as [_ E]. apply elem_of_launches. rewrite E. by exists a.
Qed.

(** No job is on an attempt that was closed. *)
Lemma closed_inactive s a j :
  store_ok s → a ∈ attempts s → is_open a = false → j ∈ jobs s →
  activeDispatchAttemptId j ≠ Some (a_id a).
Proof.
  intros H Ha Ho Hj E. destruct (ok_row s H j Hj) as [_ Hs].
  destruct (sound_active _ Hs _ E) as (_ & t & Hl). apply elem_of_launches in Hl as (b & Eb & Hb & _).
  assert (b = a) as -> by (eapply keyed_inj; [apply H|done..|by injection Eb]).
  injection Eb as Eo _. congruence.
Qed.

Lemma updated_get s k p f js :
  store_ok s → updated p f (jobs s) js 1 → (∀ j, p j = true → id j = k) →
  ∃ j, get k s = Some j ∧ p j = true.
Proof.
  intros H U Hp. destruct (changed_one id p f (jobs s) k js U (ok_jobs s H) Hp) as (_ & j & G & P).
  by exists j.
Qed.

(** A claim finds a job that is due. *)
Lemma claim_due now u u' i s :
  store_ok s → is_ok (claimDispatch now u u' i s) = true →
  ∃ j, get (ci_jobId i) s = Some j ∧ status j = job_due.
Proof.
  intros H Hc. destruct (claimDispatch now u u' i s) as [[c s']|] eqn:E; [|done]. clear Hc.
  unfold claimDispatch in E. split_update E. res_inv E. guards. subst.
  destruct (updated_get s (ci_jobId i) _ _ _ H U ltac:(intros; by guards)) as (j & G & P).
  exists j. split; [done|]. autorewrite with guards in P. destruct P as [_ P].
  by apply list_elem_of_singleton in P.
Qed.

(** Each act for an attempt finds a job on it. *)
Definition on_attempt (k : jsstr) (s : store) : Prop :=
  ∃ j, j ∈ jobs s ∧ activeDispatchAttemptId j = Some k.

Lemma release_on now i s :
  store_ok s → is_ok (releaseDispatch now i s) = true → on_attempt (ri_dispatchAttemptId i) s.
Proof.
  intros H Hc. destruct (releaseDispatch now i s) as [[c s']|] eqn:E; [|done]. clear Hc.
  unfold releaseDispatch in E. cbv zeta in E. split_update E. res_inv E. guards. subst.
  destruct (updated_get s (ri_jobId i) _ _ _ H U ltac:(intros; by guards)) as (j & [Hj _]%get_Some & P).
  exists j. split; [done|]. by guards.
Qed.

Lemma complete_on now i s :
  is_ok (completeDispatch now i s) = true → on_attempt (co_dispatchAttemptId i) s.
Proof.
  intros Hc. destruct (completeDispatch now i s) as [[c s']|] eqn:E; [|done]. clear Hc.
  unfold completeDispatch in E. apply bind_Ok in E as (j & G%require_Ok & E).
  apply bind_Ok in E as (? & Hr%reject_Ok & _). apply orb_false_iff in Hr as [Hr _].
  exists j. apply get_Some in G as [Hj _]. split; [done|]. by guards.
Qed.

Lemma resolve_on now i s :
  store_ok s → is_ok (resolveDispatch now i s) = true → on_attempt (re_dispatchAttemptId i) s.
Proof.
  intros H Hc. destruct (resolveDispatch now i s) as [[c s']|] eqn:E; [|done]. clear Hc.
  unfold resolveDispatch in E. cbv zeta in E. split_update E. res_inv E. guards. subst.
  destruct (updated_get s (re_jobId i) _ _ _ H U ltac:(intros; by guards)) as (j & [Hj _]%get_Some & P).
  exists j. split; [done|]. by guards.
Qed.

Lemma session_on now job k w s :
  store_ok s → is_ok (bindWorkSession now job k w s) = true → on_attempt k s.
Proof.
  intros H Hc. destruct (bindWorkSession now job k w s) as [[c s']|] eqn:E; [|done]. clear Hc.
  unfold bindWorkSession in E. split_update E. res_inv E. guards. subst.
  destruct (updated_get s job _ _ _ H U ltac:(intros; by guards)) as (j & [Hj _]%get_Some & P).
  exists j. split; [done|]. by guards.
Qed.

Lemma bind_on i s : is_ok (bindAcpAttempt i s) = true → on_attempt (bi_dispatchAttemptId i) s.
Proof.
  intros Hc. destruct (bindAcpAttempt i s) as [s'|] eqn:E; [|done]. clear Hc.
  unfold bindAcpAttempt in E. apply bind_Ok in E as (? & _ & E).
  apply bind_Ok in E as (j & G%require_Ok & E). apply bind_Ok in E as (a & _ & E).
  apply bind_Ok in E as (? & Hr%reject_Ok & _). exists j. apply get_Some in G as [Hj _].
  split; [done|]. by guards.
Qed.

(** ** The promises *)

(** The database before the first job; the outbox also holds the events of others. *)
Definition opening (o : DispatchOutbox.outbox) : store := mkStore [] [] [] [] o.

Lemma opening_ok o : store_ok (opening o).
Proof. constructor; cbn; [constructor|constructor|set_solver|set_solver]. Qed.

(** The jobs of the store as machines. *)
Definition board : Type := jsstr → option View.

Definition abs (s : store) : board := λ k, (λ j, view j s) <$> get k s.

(** One machine of a board moves, or a new one starts. *)
Inductive board_step : board → board → Prop :=
| board_stays b b' : (∀ k, b' k = b k) → board_step b b'
| board_moves b b' k v v' :
    b k = Some v → life v v' → b' k = Some v' → (∀ k', k' ≠ k → b' k' = b k') → board_step b b'
| board_creates b b' k :
    b k = None → b' k = Some (mkView job_pending None []) → (∀ k', k' ≠ k → b' k' = b k') →
    board_step b b'.

Lemma abs_get k s s' :
  get k s' = get k s → launches k s' = launches k s → abs s' k = abs s k.
Proof.
  intros Eg El. unfold abs. rewrite Eg. destruct (get k s) as [j|] eqn:G; [|done].
  apply get_Some in G as [_ <-]. unfold view. cbn. by rewrite El.
Qed.

Lemma touched_none_stays k s s' : touched k s s' → get k s = None → get k s' = None.
Proof.
  intros H. unfold get. rewrite !by_key_None. intros G j Hj E.
  assert (Hin : k ∈ List.map id (jobs s)).
  { rewrite <- (to_ids _ _ _ H), <- E. apply elem_of_Lmap. by exists j. }
  apply elem_of_Lmap in Hin as (j0 & E0 & Hj0). by apply (G j0).
Qed.

Lemma moves_board s s' : store_ok s → moves_one s s' → board_step (abs s) (abs s').
Proof.
  intros H [[k Hk]|(n & Ej & Hn & Ea & Es & Hact & _)].
  - assert (Hoth : ∀ k', k' ≠ k → abs s' k' = abs s k').
    { intros k' Hne. destruct (to_others _ _ _ Hk k' Hne). by apply abs_get. }
    destruct (get k s) as [j|] eqn:G.
    + destruct (to_job _ _ _ Hk j G) as (j' & G' & _ & _ & Hl).
      apply (board_moves _ _ k (view j s) (view j' s')); [|done| |done]; unfold abs.
      * by rewrite G.
      * by rewrite G'.
    + apply board_stays. intros k'. destruct (decide (k' = k)) as [->|?]; [|by apply Hoth].
      unfold abs. by rewrite G, (touched_none_stays k s s' Hk G).
  - apply (board_creates _ _ (id n)); unfold abs.
    + by rewrite Hn.
    + unfold get. rewrite Ej, by_key_insert_eq by done. cbn. unfold view.
      rewrite Es, Hact, (launches_eq _ s s' Ea). do 2 f_equal.
      destruct (launches (id n) s) as [|x l] eqn:E; [done|].
      assert (Hx : x ∈ launches (id n) s) by (rewrite E; by left).
      apply elem_of_launches in Hx as (a & _ & Ha & Hi). apply (ok_owner s H) in Ha as [j Hja].
      congruence.
    + intros k' Hne. apply abs_get; [|by apply launches_eq]. unfold get.
      by rewrite Ej, by_key_insert_ne.
Qed.

Section Promises.
Context (sha256 : jsstr → jsstr) (parse : ScheduledJobInput → option JobRequest).

(** A store the program can reach. *)
Definition reachable (s : store) : Prop := ∃ o, history sha256 parse (opening o) s.

Lemma reachable_ok s : reachable s → store_ok s.
Proof. intros [o Hh]. eapply history_ok; [exact Hh|]. apply opening_ok. Qed.

Lemma reachable_more s s' : reachable s → history sha256 parse s s' → reachable s'.
Proof. intros [o Hh] Hh'. exists o. by eapply steps_trans. Qed.

(** C29: The scheduled-job store refines its abstract specification, a board of job machines.  From
    any store the program can reach, whatever operation is called, at most one machine moves and
    it moves by the machine of a job (or a new one starts, pending and never launched); every
    machine of the board satisfies the invariant: distinct launches, exactly the active one open,
    at most one that may have started, none that may have started while the job waits. *)
Theorem store_refines_board s c :
  reachable s → legal c s →
  board_step (abs s) (abs (perform sha256 parse c s))
  ∧ (∀ k v, abs (perform sha256 parse c s) k = Some v → sound v).
Proof.
  intros H%reachable_ok Hl. pose proof (perform_moves sha256 parse c s H Hl) as Hm.
  split; [by apply moves_board|]. intros k v Hv. unfold abs in Hv.
  destruct (get k _) as [j|] eqn:G; [|done]. injection Hv as <-.
  eapply ok_get; [|done]. by eapply moves_one_ok.
Qed.

(** C1: No job is launched twice.  Of two attempts of one job, in any store the program can reach,
    one is closed and known not to have started; and a job with an attempt that may have started
    cannot be claimed, whoever asks and with whatever revision. *)
Theorem at_most_one_launch s a b :
  reachable s → a ∈ attempts s → b ∈ attempts s → jobId b = jobId a →
  (a ≠ b → (is_open a = false ∧ transportStatus a = tr_unstarted)
           ∨ (is_open b = false ∧ transportStatus b = tr_unstarted))
  ∧ (transportStatus a ≠ tr_unstarted →
     ∀ now u u' i, ci_jobId i = jobId a → is_ok (claimDispatch now u u' i s) = false).
Proof.
  intros H%reachable_ok Ha Hb Eb. destruct (ok_owner s H a Ha) as [j G].
  destruct (ok_get s _ j H G) as [_ Hs].
  pose proof (attempt_launch a s j Ha G) as La. rewrite <- Eb in G.
  pose proof (attempt_launch b s j Hb G) as Lb. rewrite Eb in G. split.
  - intros Hne.
    assert (Hc : ∀ x, x ∈ attempts s → launch x ∈ v_launches (view j s) →
               transportStatus x = tr_unstarted → is_open x = false).
    { intros x Hx Lx E. apply not_true_iff_false. intros Eo.
      by apply (sound_started _ Hs (launch x) Lx Eo). }
    destruct (decide (transportStatus a = tr_unstarted)) as [E|E]; [left; auto|].
    destruct (decide (transportStatus b = tr_unstarted)) as [E'|E']; [right; auto|].
    destruct Hne. pose proof (sound_once _ Hs _ _ La Lb E E') as El.
    eapply keyed_inj; [apply H|done..|]. by injection El.
  - intros E now u u' i Ei. apply not_true_iff_false. intros Hc.
    destruct (claim_due now u u' i s H Hc) as (j' & G' & Es). rewrite Ei in G'.
    assert (j' = j) as -> by congruence. apply E.
    apply (sound_waiting _ Hs) with (x := launch a); [|done]. cbn. by rewrite Es.
Qed.

(** An attempt that was closed never acts again.  From then on, along any history, its launch
    stays as it is known, and no release, completion, resolution or binding that names the attempt
    is accepted, for whatever job, revision or dispatcher. *)
Theorem closed_attempt_never_acts s s' a :
  reachable s → a ∈ attempts s → is_open a = false → history sha256 parse s s' →
  (∃ a', a' ∈ attempts s' ∧ jobId a' = jobId a ∧ launch a' = launch a)
  ∧ (∀ now i, ri_dispatchAttemptId i = a_id a → is_ok (releaseDispatch now i s') = false)
  ∧ (∀ now i, co_dispatchAttemptId i = a_id a → is_ok (completeDispatch now i s') = false)
  ∧ (∀ now i, re_dispatchAttemptId i = a_id a → is_ok (resolveDispatch now i s') = false)
  ∧ (∀ now job w, is_ok (bindWorkSession now job (a_id a) w s') = false)
  ∧ (∀ i, bi_dispatchAttemptId i = a_id a → is_ok (bindAcpAttempt i s') = false).
Proof.
  intros Hr Ha Ho Hh. pose proof (reachable_ok s Hr) as H.
  pose proof (reachable_ok s' (reachable_more s s' Hr Hh)) as H'.
  destruct (ok_owner s H a Ha) as [j G].
  destruct (history_job sha256 parse _ _ _ j Hh H G) as (j' & G' & _ & L).
  pose proof (lives_closed _ _ (launch a) L (proj2 (ok_get s _ j H G)) (attempt_launch a s j Ha G) Ho)
    as Hx.
  apply elem_of_launches in Hx as (a' & Ea & Ha' & Ej). apply get_Some in G' as [_ Ej'].
  assert (Hno : ∀ k, k = a_id a → ¬ on_attempt k s').
  { intros k -> (x & Hx & Ex). apply (closed_inactive s' a' x H' Ha'); [|done|].
    - unfold launch in Ea. congruence.
    - unfold launch in Ea. congruence. }
  split; [exists a'; split; [done|]; split; congruence|].
  split_and!; intros; apply not_true_iff_false; intros Hc; eapply Hno;
    eauto using release_on, complete_on, resolve_on, session_on, bind_on.
Qed.

(** A cancelled job is not launched again.  Once its cancellation was requested, along any
    history, a job only stays so or reaches an end, it has the launches it had, and no claim of it
    is accepted. *)
Theorem cancellation_never_relaunches s s' k j :
  reachable s → get k s = Some j → status j = job_cancellation_requested →
  history sha256 parse s s' →
  ∃ j', get k s' = Some j'
    ∧ status j' ∈ [job_cancellation_requested; job_cancelled; job_completed; job_failed]
    ∧ l_id <$> launches k s' = l_id <$> launches k s
    ∧ (∀ now u u' i, ci_jobId i = k → is_ok (claimDispatch now u u' i s') = false).
Proof.
  intros Hr G Es Hh. pose proof (reachable_ok s Hr) as H.
  pose proof (reachable_ok s' (reachable_more s s' Hr Hh)) as H'.
  destruct (history_job sha256 parse _ _ _ j Hh H G) as (j' & G' & _ & L).
  destruct (lives_cancelling _ _ L) as [Hc El]; [cbn; by rewrite Es|].
  apply get_Some in G as [_ Ek]. destruct (get_Some _ _ _ G') as [_ Ek'].
  unfold view in El. cbn in El, Hc. rewrite Ek, Ek' in El.
  exists j'. split; [done|]. split; [destruct (status j'); set_solver|]. split; [done|].
  intros now u u' i Ei. apply not_true_iff_false. intros Hd.
  destruct (claim_due now u u' i s' H' Hd) as (j2 & G2 & E2). rewrite Ei in G2.
  assert (j2 = j') as -> by congruence. by rewrite E2 in Hc.
Qed.

(** A job that ended stays as it ended.  Along any history a completed, failed or cancelled job
    keeps its status, its revision, the time of its end and its launches, and it has no active
    attempt; and in every store the program can reach the time of the end is set exactly when the
    job ended. *)
Theorem ended_jobs_stay s s' k j :
  reachable s → get k s = Some j → history sha256 parse s s' →
  (is_Some (terminalAt (stamps j)) ↔ settled (status j))
  ∧ (settled (status j) →
     ∃ j', get k s' = Some j' ∧ status j' = status j ∧ revision j' = revision j
       ∧ terminalAt (stamps j') = terminalAt (stamps j)
       ∧ activeDispatchAttemptId j' = None ∧ launches k s' = launches k s).
Proof.
  intros Hr G Hh. pose proof (reachable_ok s Hr) as H.
  destruct (ok_get s k j H G) as [Hok Hs]. split; [apply Hok|]. intros He.
  destruct (history_job sha256 parse _ _ _ j Hh H G) as (j' & G' & K & L).
  pose proof (lives_settled _ _ L He) as E. destruct (keeps_terminal _ _ K He).
  apply get_Some in G as [_ Ek]. destruct (get_Some _ _ _ G') as [_ Ek'].
  unfold view in E. rewrite Ek, Ek' in E. injection E as E1 E2 E3.
  exists j'. split_and!; try done. rewrite E2. apply (sound_idle _ Hs). by right.
Qed.

End Promises.

(** ** A concrete history *)

Section Plays.
Context (sha256 : jsstr → jsstr) (parse : ScheduledJobInput → option JobRequest).

(** The calls, one after the other. *)
Fixpoint play (cs : list Call) (s : store) : store :=
  match cs with [] => s | c :: rest => play rest (perform sha256 parse c s) end.

Fixpoint all_legal (cs : list Call) (s : store) : Prop :=
  match cs with [] => True | c :: rest => legal c s ∧ all_legal rest (perform sha256 parse c s) end.

Lemma play_history cs s : all_legal cs s → history sha256 parse s (play cs s).
Proof.
  revert s. induction cs as [|c cs IH]; intros s; cbn; [constructor|]. intros [Hc Hl].
  econstructor; [exists c; by split|by apply IH].
Qed.

Lemma play_app cs cs' s : play (cs ++ cs') s = play cs' (play cs s).
Proof. revert s. induction cs as [|c cs IH]; intros s; cbn; [done|apply IH]. Qed.

Lemma play_reachable cs o : all_legal cs (opening o) → reachable sha256 parse (play cs (opening o)).
Proof. intros H. exists o. by apply play_history. Qed.

End Plays.

(** A bounded-write job with one authorized output. *)
Definition ex_policy : Fields :=
  [(js "allowedOutputs", JArr [JObj [(js "path", JStr "out.txt"); (js "operation", JStr "create")]])].

Definition ex_input : ScheduledJobInput :=
  mkInput "p" "ctx" "prj" "/w" (mkRunTime "1970-01-01T00:00:01.000Z" 1000 1000) (JObj [])
    bounded_file_write (JObj ex_policy) None None None 60000 (Some (js "m")).

(** A schema that trims the principal. *)
Definition ex_parse (i : ScheduledJobInput) : option JobRequest :=
  match in_instructionJson i, in_policySnapshotJson i with
  | JObj ins, JObj pol =>
      Some (mkRequest (trim (in_principalId i)) (in_ownerContextId i) (in_projectId i)
              (in_workspaceRoot i) (in_runAt i) ins (in_executionMode i) pol
              (default direct_acp (in_dispatchTarget i)) (in_maxRuntimeMs i))
  | _, _ => None
  end.

Definition ex_hash (s : jsstr) : jsstr := s.

Definition ex_job : jsstr := "sched_u".
Definition ex_acp : AcpIdentity := mkAcp (Some (js "run")) (Some (js "disp_d2")) (Some 1%Z) None.

(** The job is created, comes due, is claimed and released, and claimed again. *)
Definition ex_claimed : list Call :=
  [Create 0 0 "u" "v" ex_input; MarkDue 1000 ex_job;
   Claim 1000 "a1" "d1" (mkClaimInput ex_job 2 None "me" None);
   Release 1001 (mkRelease ex_job "scha_a1" 3 "me" None);
   Claim 1002 "a2" "d2" (mkClaimInput ex_job 4 None "me" None)].

(** Its worker runs. *)
Definition ex_running : list Call :=
  ex_claimed ++
  [BindSession 1003 ex_job "scha_a2" "ws";
   BindAcp (mkBind ex_job "scha_a2" "ws" "disp_d2" "run" 1);
   Complete 1004 (mkComplete ex_job "scha_a2" 5 dispatched "me" (Some (js "ws")) ex_acp None None None None None)].

Definition ex_cancelling : list Call := ex_running ++ [RequestCancellation 1005 ex_job 6 "req" None].

(** Its worker was stopped, and the cancellation is final. *)
Definition ex_end : list Call :=
  [RecordEvidence 1006 ex_job "req" worker_stopped None;
   FinalizeCancellation 1007 ex_job "req" worker_stopped None].
Definition ex_ended : list Call := ex_cancelling ++ ex_end.

Definition ex_store (cs : list Call) : store := play ex_hash ex_parse cs (opening (DispatchOutbox.mkOutbox [] [] [] [])).

Ltac plays := split_and!; first [exact I | discriminate | vm_compute; discriminate | idtac].

Lemma ex_claimed_reachable : reachable ex_hash ex_parse (ex_store ex_claimed).
Proof. apply play_reachable. cbn [all_legal ex_claimed]. plays. Qed.

Lemma ex_cancelling_reachable : reachable ex_hash ex_parse (ex_store ex_cancelling).
Proof. apply play_reachable. cbn [all_legal ex_cancelling ex_running ex_claimed app]. plays. Qed.

Lemma ex_ended_reachable : reachable ex_hash ex_parse (ex_store ex_ended).
Proof. apply play_reachable. cbn [all_legal ex_ended ex_end ex_cancelling ex_running ex_claimed app]. plays. Qed.

Lemma ex_end_history : history ex_hash ex_parse (ex_store ex_cancelling) (ex_store ex_ended).
Proof.
  unfold ex_ended, ex_store. rewrite play_app. apply play_history. cbn [all_legal ex_end]. plays.
Qed.

Example ex_claimed_row :
  (λ j, (status j, revision j, activeDispatchAttemptId j)) <$> get ex_job (ex_store ex_claimed)
  = Some (job_dispatching, 5%Z, Some (js "scha_a2")).
Proof. vm_compute. reflexivity. Qed.

Example ex_cancelling_row :
  (λ j, (status j, revision j, activeDispatchAttemptId j)) <$> get ex_job (ex_store ex_cancelling)
  = Some (job_cancellation_requested, 7%Z, Some (js "scha_a2")).
Proof. vm_compute. reflexivity. Qed.

Example ex_ended_row :
  (λ j, (status j, revision j, activeDispatchAttemptId j)) <$> get ex_job (ex_store ex_ended)
  = Some (job_cancelled, 9%Z, None).
Proof. vm_compute. reflexivity. Qed.

(** The attempts of the claimed store: the first was released, the second is active. *)
Definition ex_first : Attempt := List.nth 0 (attempts (ex_store ex_claimed)) (mkAttempt [] [] [] 0 [] 0
  None tr_dispatching None no_acp no_execution no_diagnostics no_probe None).
Definition ex_second : Attempt := List.nth 1 (attempts (ex_store ex_claimed)) ex_first.

Lemma ex_first_in : ex_first ∈ attempts (ex_store ex_claimed).
Proof. apply list_elem_of_In, List.nth_In. vm_compute. lia. Qed.
Lemma ex_second_in : ex_second ∈ attempts (ex_store ex_claimed).
Proof. apply list_elem_of_In, List.nth_In. vm_compute. lia. Qed.

(** The released attempt is completed late. *)
Definition ex_late : CompleteInput :=
  mkComplete ex_job "scha_a1" 5 dispatched "me" None ex_acp None None None None None.

Lemma store_refines_board_witness :
  board_step (abs (ex_store ex_claimed))
    (abs (perform ex_hash ex_parse (Release 1003 (mkRelease ex_job "scha_a2" 5 "me" None))
            (ex_store ex_claimed))).
Proof. apply store_refines_board; [apply ex_claimed_reachable|exact I]. Defined.

Lemma at_most_one_launch_witness :
  (is_open ex_first = false ∧ transportStatus ex_first = tr_unstarted
   ∨ is_open ex_second = false ∧ transportStatus ex_second = tr_unstarted)
  ∧ is_ok (claimDispatch 2000 "x" "y" (mkClaimInput ex_job 5 None "other" None) (ex_store ex_claimed))
    = false.
Proof.
  split.
  - apply (at_most_one_launch ex_hash ex_parse (ex_store ex_claimed) ex_first ex_second);
      [apply ex_claimed_reachable|apply ex_first_in|apply ex_second_in|vm_compute; reflexivity|].
    vm_compute. discriminate.
  - apply (at_most_one_launch ex_hash ex_parse (ex_store ex_claimed) ex_second ex_second);
      [apply ex_claimed_reachable|apply ex_second_in|apply ex_second_in|reflexivity| |].
    + vm_compute. discriminate.
    + vm_compute. reflexivity.
Defined.

Lemma closed_attempt_never_acts_witness :
  is_ok (completeDispatch 2000 ex_late (ex_store ex_claimed)) = false.
Proof.
  destruct (closed_attempt_never_acts ex_hash ex_parse (ex_store ex_claimed) (ex_store ex_claimed)
              ex_first ex_claimed_reachable ex_first_in ltac:(vm_compute; reflexivity)
              (steps_refl _ _)) as (_ & _ & Hc & _).
  apply Hc. vm_compute. reflexivity.
Defined.

Lemma cancellation_never_relaunches_witness :
  ∃ j, get ex_job (ex_store ex_cancelling) = Some j ∧ status j = job_cancellation_requested
    ∧ l_id <$> launches ex_job (ex_store ex_ended) = [js "scha_a1"; js "scha_a2"].
Proof.
  pose proof ex_cancelling_row as R.
  destruct (get ex_job (ex_store ex_cancelling)) as [j|] eqn:G; [|discriminate R].
  assert (Es : status j = job_cancellation_requested) by (cbn in R; congruence).
  destruct (cancellation_never_relaunches ex_hash ex_parse (ex_store ex_cancelling)
              (ex_store ex_ended) ex_job j ex_cancelling_reachable G Es ex_end_history)
    as (j' & _ & _ & E & _).
  exists j. split; [done|]. split; [done|]. rewrite E. vm_compute. reflexivity.
Defined.

Lemma ended_jobs_stay_witness :
  ∃ j, get ex_job (ex_store ex_ended) = Some j ∧ status j = job_cancelled
    ∧ is_Some (terminalAt (stamps j)) ∧ activeDispatchAttemptId j = None.
Proof.
  pose proof ex_ended_row as R.
  destruct (get ex_job (ex_store ex_ended)) as [j|] eqn:G; [|discriminate R].
  assert (Es : status j = job_cancelled) by (cbn in R; congruence).
  assert (He : settled (status j)) by (by rewrite Es).
  destruct (ended_jobs_stay ex_hash ex_parse _ (ex_store ex_ended) ex_job j
              ex_ended_reachable G (steps_refl _ _)) as [Ht Hj].
  exists j. split; [done|]. split; [done|]. split; [by apply Ht|].
  destruct (Hj He) as (j' & G' & _ & _ & _ & E & _). congruence.
Defined.

End ScheduledDispatch.
