(* ===== verification/ScheduledRecords.v ===== *)
(** * Records of the scheduled-job store

    What the store wrote down stays: the mutation id of a job, the reports of its workers, the
    cursor of its events and the receipts of its publications.  The theorems are the idempotence
    of [create], the replay of events, the immutability of reports, and what the autonomous
    completion of a bounded-write job rests on. *)

From S2P Require Import Prelude JsString Json Sql Outbox ScheduledLifecycle ScheduledJobs.
From S2P Require Import ScheduledPublications ScheduledLaunches ScheduledJobFacts ScheduledMoves ScheduledDispatch.

Module ScheduledRecords.
Import ScheduledLifecycle ScheduledJobs ScheduledPublications ScheduledLaunches ScheduledJobFacts
  ScheduledMoves ScheduledDispatch.

(** ** What a call does to the records *)

Section Calls.
Context (sha256 : jsstr → jsstr) (parse : ScheduledJobInput → option JobRequest).

(** The attempts keep their receipts; a new attempt has none. *)
Definition kept_receipts (s s' : store) : Prop :=
  ∀ a', a' ∈ attempts s' → receipts_of a' = [] ∨
    ∃ a, a ∈ attempts s ∧ a_id a' = a_id a ∧ jobId a' = jobId a ∧ receipts_of a' = receipts_of a.

Definition hashed (r : Report) : Prop := reportSha256 r = sha256 (reportText r).

(** The reports are only added to, with the digest of their text. *)
Definition more_reports (s s' : store) : Prop :=
  ∃ l, reports s' = reports s ++ l ∧ Forall hashed l.

Lemma more_reports_eq s s' : reports s' = reports s → more_reports s s'.
Proof. intros E. exists []. by rewrite app_nil_r. Qed.

Definition aside (s s' : store) : Prop := kept_receipts s s' ∧ more_reports s s'.

Lemma records_aside_refl s : aside s s.
Proof. split; [intros a Ha; right; by exists a|by apply more_reports_eq]. Qed.

Lemma aside_trans s1 s2 s3 : aside s1 s2 → aside s2 s3 → aside s1 s3.
Proof.
  intros [A1 (l1 & R1 & F1)] [A2 (l2 & R2 & F2)]. split.
  - intros a Ha. destruct (A2 a Ha) as [?|(b & Hb & -> & -> & ->)]; [by left|].
    destruct (A1 b Hb) as [?|?]; [by left|by right].
  - exists (l1 ++ l2). rewrite R2, R1, app_assoc. split; [done|by apply Forall_app].
Qed.

Lemma aside_jobs js s : aside s (set_jobs js s).
Proof. destruct (records_aside_refl s) as [? ?]. by split. Qed.
Lemma aside_outbox o s : aside s (set_outbox o s).
Proof. destruct (records_aside_refl s) as [? ?]. by split. Qed.
Lemma aside_finalizations f s : aside s (set_finalizations f s).
Proof. destruct (records_aside_refl s) as [? ?]. by split. Qed.

(** An update of the attempts that leaves their receipts alone. *)
Lemma aside_attempts q g s as_ n :
  update_where q g (attempts s) = (as_, n) →
  (∀ a, a_id (g a) = a_id a) → (∀ a, jobId (g a) = jobId a) →
  (∀ a, publicationReceipts (g a) = publicationReceipts a) → aside s (set_attempts as_ s).
Proof.
  intros E Hi Hj Hp. assert (E' : as_ = (update_where q g (attempts s)).1) by (by rewrite E). subst as_.
  split; [|by apply more_reports_eq].
  intros a' (a & Ha & ->)%elem_of_update_where. right. exists a. split; [done|].
  destruct (q a); [|done]. by rewrite Hi, Hj; unfold receipts_of; rewrite Hp.
Qed.

Lemma aside_set_attempts js q g s as_ n :
  update_where q g (attempts s) = (as_, n) →
  (∀ a, a_id (g a) = a_id a) → (∀ a, jobId (g a) = jobId a) →
  (∀ a, publicationReceipts (g a) = publicationReceipts a) →
  aside s (set_attempts as_ (set_jobs js s)).
Proof.
  intros E Hi Hj Hp. eapply aside_trans; [apply aside_jobs|]. by eapply aside_attempts.
Qed.

(** Sweeps an operation of the store. *)
Ltac set_aside :=
  match goal with
  | |- aside ?s ?s => apply records_aside_refl
  | |- aside ?s (set_jobs _ ?s) => apply aside_jobs
  | |- aside ?s (set_outbox _ ?s) => apply aside_outbox
  | |- aside _ (enqueueDue _ _ _ _ _ _ _) => eapply aside_trans; [|apply aside_outbox]; set_aside
  | U : updated _ _ (attempts ?s) ?t _ |- aside ?s (set_attempts ?t (set_jobs _ ?s)) =>
      eapply aside_set_attempts; [exact U|done|done|done]
  end.

Lemma create_aside now now' u u' i s c s' :
  create sha256 parse now now' u u' i s = Ok (c, s') → aside s s'.
Proof.
  intros Hc. assert (Hn : commitJob sha256 parse now now' u u' i s = Ok (c, s') → aside s s').
  { clear. intros Hc. unfold commitJob in Hc. cbv zeta in Hc. res_inv Hc. set_aside. }
  unfold create in Hc. destruct (in_clientMutationId i) as [[|]|]; auto.
  destruct (get_where _ _); [|auto]. res_inv Hc. set_aside.
Qed.

Lemma claim_aside now u u' i s c s' : claimDispatch now u u' i s = Ok (c, s') → aside s s'.
Proof.
  intros Hc. unfold claimDispatch in Hc. split_update Hc. res_inv Hc.
  split; [|by apply more_reports_eq].
  intros a [Ha| ->%list_elem_of_singleton]%elem_of_app; [|by left]. right. by exists a.
Qed.

Lemma release_aside now i s c s' : releaseDispatch now i s = Ok (c, s') → aside s s'.
Proof. intros Hc. unfold releaseDispatch in Hc. cbv zeta in Hc. split_update Hc. res_inv Hc; set_aside. Qed.

Lemma retry_aside now now' u job rev s c s' :
  retryBlockedJob now now' u job rev s = Ok (c, s') → aside s s'.
Proof.
  intros Hc. unfold retryBlockedJob in Hc. apply bind_Ok in Hc as (j & _ & Hc). split_update Hc.
  res_inv Hc; set_aside.
Qed.

Lemma complete_aside now i s c s' : completeDispatch now i s = Ok (c, s') → aside s s'.
Proof.
  intros Hc. unfold completeDispatch in Hc. apply bind_Ok in Hc as (j & _ & Hc).
  apply bind_Ok in Hc as (? & _ & Hc). cbv zeta in Hc. split_update Hc. res_inv Hc; set_aside.
Qed.

Lemma resolve_aside now i s c s' : resolveDispatch now i s = Ok (c, s') → aside s s'.
Proof. intros Hc. unfold resolveDispatch in Hc. cbv zeta in Hc. split_update Hc. res_inv Hc; set_aside. Qed.

Lemma transition_aside now i s c s' : transition now i s = Ok (c, s') → aside s s'.
Proof.
  intros Hc. unfold transition in Hc. apply bind_Ok in Hc as (? & _ & Hc).
  apply bind_Ok in Hc as (j & _ & Hc). split_update Hc. res_inv Hc; set_aside.
Qed.

Lemma request_aside now job rev req reason s c s' :
  requestCancellation now job rev req reason s = Ok (c, s') → aside s s'.
Proof.
  intros Hc. unfold requestCancellation in Hc. apply bind_Ok in Hc as (j & _ & Hc).
  destruct (in_status _ j); [res_inv Hc; set_aside|].
  apply bind_Ok in Hc as (? & _ & Hc). apply bind_Ok in Hc as (? & _ & Hc).
  split_update Hc. res_inv Hc; set_aside.
Qed.

Lemma attempt_cancellation_aside now job req interval s :
  aside s (claimCancellationAttempt now job req interval s).2.
Proof. unfold claimCancellationAttempt. destruct (update_where _ _ _). apply aside_jobs. Qed.

Lemma evidence_aside now job req st err s c s' :
  recordCancellationEvidence now job req st err s = Ok (c, s') → aside s s'.
Proof.
  intros Hc. unfold recordCancellationEvidence in Hc. split_update Hc. res_inv Hc; set_aside.
Qed.

Lemma finalize_aside now job req st reason s c s' :
  finalizeCancellation now job req st reason s = Ok (c, s') → aside s s'.
Proof. intros Hc. unfold finalizeCancellation in Hc. split_update Hc. res_inv Hc; set_aside. Qed.

Lemma session_aside now job k w s c s' :
  bindWorkSession now job k w s = Ok (c, s') → aside s s'.
Proof. intros Hc. unfold bindWorkSession in Hc. split_update Hc. res_inv Hc; set_aside. Qed.

Lemma bind_aside i s s' : bindAcpAttempt i s = Ok s' → aside s s'.
Proof.
  intros Hc. unfold bindAcpAttempt in Hc. apply bind_Ok in Hc as (? & _ & Hc).
  apply bind_Ok in Hc as (j & _ & Hc). apply bind_Ok in Hc as (a & _ & Hc).
  apply bind_Ok in Hc as (? & _ & Hc). cbv zeta in Hc. split_update Hc.
  res_inv Hc; [set_aside|]. by eapply aside_attempts.
Qed.

Lemma probe_aside now random job k evidence s :
  aside s (recordReconcileProbe now random job k evidence s).
Proof.
  unfold recordReconcileProbe. destruct (get_where _ _); [|set_aside].
  by eapply aside_attempts; [apply surjective_pairing|..].
Qed.

Lemma due_aside now job s : aside s (markDue now job s).2.
Proof. unfold markDue. destruct (update_where _ _ _) as [js n]. destruct (Nat.eqb n 1); apply aside_jobs. Qed.

Lemma rearm_aside now now' u row s : aside s (rearm now now' u row s).
Proof. unfold rearm. destruct (in_status _ row); set_aside. Qed.

(** *** Reports *)

Lemma persist_aside now u job run report s r s' :
  persistReportWithinTransaction sha256 now u job run report s = Ok (r, s') → aside s s'.
Proof.
  intros Hc. unfold persistReportWithinTransaction in Hc. cbv zeta in Hc. res_inv Hc.
  destruct (records_aside_refl s) as [? ?]. split; [done|]. unfold more_reports. cbn.
  destruct (existsb _ _); [by apply more_reports_eq|]. eexists. split; [done|].
  by apply Forall_singleton.
Qed.

Lemma persistReport_aside now u job run report s r s' :
  persistReport sha256 now u job run report s = Ok (r, s') → aside s s'.
Proof.
  intros Hc. unfold persistReport in Hc. apply bind_Ok in Hc as (? & _ & Hc). by eapply persist_aside.
Qed.

Lemma try_aside now u o s : aside s (try_finalize sha256 now u o s).
Proof.
  unfold try_finalize. destruct (finalizeReportObligationWithinTransaction _ _ _ _ _) eqn:E;
    [|apply aside_finalizations].
  unfold finalizeReportObligationWithinTransaction in E.
  destruct (f_status o), (f_reportText o); try (injection E as <-; apply records_aside_refl);
    apply bind_Ok in E as ([r s1] & Hp%persist_aside & E); injection E as <-;
    (eapply aside_trans; [exact Hp|apply aside_finalizations]).
Qed.

Lemma reconcile_aside clock l s : aside s (reconcilePendingReportFinalizations sha256 clock l s).2.
Proof.
  unfold reconcilePendingReportFinalizations. generalize (limit (Z.to_nat (Z.max 1 (Z.min 250 l)))
    (order_by le_updated (select_where (λ f, bool_decide (f_status f = f_pending)) (finalizations s)))).
  generalize 0%Z. intros n os. change s with (n, s).2 at 1. generalize (n, s). clear n s.
  induction os as [|o os IH]; intros acc; cbn; [apply records_aside_refl|].
  eapply aside_trans; [|apply IH]. apply try_aside.
Qed.

(** *** The projection *)

Lemma obligation_aside now u ev s : aside s (recordReportFinalizationObligation now u ev s).
Proof.
  unfold recordReportFinalizationObligation. destruct (report_obligation _ _ _ _); [|apply records_aside_refl].
  case_match; [apply records_aside_refl|apply aside_finalizations].
Qed.

Lemma project_attempt_aside e p found s : aside s (project_attempt e p found s).
Proof.
  unfold project_attempt. destruct found; [|apply records_aside_refl].
  eapply aside_attempts; [apply surjective_pairing|..]; intros b;
    unfold projected_attempt, bound_attempt; by destruct (touches_execution p), (binds e b).
Qed.

Lemma project_report_aside t e p row found s : aside s (project_report sha256 t e p row found s).
Proof. unfold project_report. repeat case_match; first [apply try_aside | apply records_aside_refl]. Qed.

Lemma project_end_aside t e p row found s : aside s (project_end t e p row found s).
Proof.
  unfold project_end. repeat case_match; try apply records_aside_refl.
  by eapply aside_attempts; [apply surjective_pairing|..].
Qed.

Lemma project_row_aside t ev row s c s' : project_row sha256 t ev row s = Ok (c, s') → aside s s'.
Proof.
  intros Hc. unfold project_row in Hc. cbv zeta in Hc.
  destruct (update_where _ _ _) as [js n]. res_inv Hc.
  eapply aside_trans; [|apply project_end_aside]. eapply aside_trans; [|apply aside_jobs].
  eapply aside_trans; [apply project_attempt_aside|apply project_report_aside].
Qed.

Lemma project_aside t ev s : aside s (projectEvent sha256 t ev s).2.
Proof.
  unfold projectEvent. destruct (_ || _ || _); [apply records_aside_refl|].
  eapply aside_trans; [apply (obligation_aside (obligation_now t) (obligation_uuid t) ev)|].
  set (s' := recordReportFinalizationObligation _ _ _ _).
  destruct (session_job (sessionId ev) s') as [row|]; [|apply records_aside_refl].
  destruct (_ <=? _)%Z; [apply records_aside_refl|].
  destruct (project_row sha256 t ev row s') as [[j s2]|] eqn:E; [|apply records_aside_refl].
  by eapply project_row_aside.
Qed.

(** The calls of the publication store are apart. *)
Definition publishes (c : Call) : bool :=
  match c with RecordIntent _ _ | RecordReceipt _ _ | RecordFailure _ _ _ _ _ => true | _ => false end.

Lemma after_aside {E A} (m : res E (A * store)) s :
  (∀ a s', m = Ok (a, s') → aside s s') → aside s (after m s).
Proof. intros H. destruct m as [[a s']|]; cbn; [by eapply H|apply records_aside_refl]. Qed.

Lemma after'_aside {E} (m : res E store) s : (∀ s', m = Ok s' → aside s s') → aside s (after' m s).
Proof. intros H. destruct m; cbn; [by apply H|apply records_aside_refl]. Qed.

Lemma records_perform_aside c s : publishes c = false → aside s (perform sha256 parse c s).
Proof.
  intros Hp. destruct c; try discriminate Hp; cbn [perform];
    try (apply after_aside; intros r s' Hc); try (apply after'_aside; intros s' Hc);
    eauto using create_aside, claim_aside, release_aside, retry_aside, complete_aside,
      resolve_aside, transition_aside, request_aside, attempt_cancellation_aside, evidence_aside,
      finalize_aside, session_aside, bind_aside, probe_aside, persistReport_aside, reconcile_aside,
      project_aside, due_aside, rearm_aside, aside_outbox.
Qed.

End Calls.
(** ** Reports *)

Section ReportFacts.
Context (sha256 : jsstr → jsstr) (parse : ScheduledJobInput → option JobRequest).

(** The three calls of the publication store leave the reports alone. *)
Lemma store_receipts_reports p l s : reports (store_receipts p l s).2 = reports s.
Proof. unfold store_receipts. by destruct (update_where _ _ _). Qed.

Lemma publish_reports c s : publishes c = true → reports (perform sha256 parse c s) = reports s.
Proof.
  destruct c; try done; intros _; cbn [perform].
  - destruct (recordPublicationIntent job intent s) as [s'|] eqn:E; [|done].
    unfold recordPublicationIntent in E. by res_inv E.
  - destruct (recordPublicationReceipt job receipt s) as [s'|] eqn:E; [|done].
    unfold recordPublicationReceipt in E. by res_inv E.
  - unfold recordPublicationFailure. induction (select_where _ _) as [|a rows IH]; cbn; [done|].
    destruct (find_index _ _); [apply store_receipts_reports|done].
Qed.

Lemma perform_reports c s : more_reports sha256 s (perform sha256 parse c s).
Proof.
  destruct (publishes c) eqn:E.
  - by apply more_reports_eq, publish_reports.
  - by apply records_perform_aside.
Qed.

Lemma history_reports s s' : history sha256 parse s s' → more_reports sha256 s s'.
Proof.
  induction 1 as [s|s1 s2 s3 (c & _ & ->) Hh (l2 & E2 & F2)]; [by apply more_reports_eq|].
  destruct (perform_reports c s1) as (l1 & E1 & F1). exists (l1 ++ l2).
  rewrite E2, E1, app_assoc. split; [done|by apply Forall_app].
Qed.

Lemma reachable_hashed s : reachable sha256 parse s → Forall (hashed sha256) (reports s).
Proof. intros [o Hh]. apply history_reports in Hh as (l & -> & F). done. Qed.

Lemma get_where_more {row} (p : row → bool) t l r :
  get_where p t = Some r → get_where p (t ++ l) = Some r.
Proof. unfold get_where. intros H. by rewrite find_app, H. Qed.

Lemma persist_Ok now u job run text s r s' :
  persistReport sha256 now u job run text s = Ok (r, s') →
  get_where (report_of job run) (reports s') = Some r ∧ reportSha256 r = sha256 text
  ∧ nonempty (trim run) = true ∧ (utf8_length text <= REPORT_LIMIT)%Z.
Proof.
  intros Hc. unfold persistReport in Hc. apply bind_Ok in Hc as (j & _ & Hc).
  unfold persistReportWithinTransaction in Hc. cbv zeta in Hc. res_inv Hc. guards.
  split_and!; done.
Qed.

(** A recorded report is immutable and reads back.  Once the report of a run was persisted,
    along any history it is what is read for that run, it has the digest of the text that was
    given, a report with that digest is found under it, persisting a text with the same digest
    again returns it and changes nothing, and a text with another digest is refused. *)
Theorem reports_are_immutable s s1 s2 now u job run text r :
  reachable sha256 parse s → persistReport sha256 now u job run text s = Ok (r, s1) →
  history sha256 parse s1 s2 →
  get_where (report_of job run) (reports s2) = Some r
  ∧ sha256 (reportText r) = sha256 text
  ∧ (∃ r', getReport job (sha256 text) s2 = Some r' ∧ sha256 (reportText r') = sha256 text)
  ∧ (∀ t v text', (utf8_length text' <= REPORT_LIMIT)%Z →
       persistReport sha256 t v job run text' s2
       = if bool_decide (sha256 text' = sha256 text) then Ok (r, s2) else Err report_changed).
Proof.
  intros Hr Hc Hh. destruct (persist_Ok _ _ _ _ _ _ _ _ Hc) as (G1 & Ed & Hrun & _).
  assert (H1 : history sha256 parse s s1).
  { econstructor; [|constructor]. exists (PersistReport now u job run text). split; [done|].
    cbn. by rewrite Hc. }
  pose proof (reachable_more _ _ _ _ Hr H1) as Hr1. pose proof (reachable_more _ _ _ _ Hr1 Hh) as Hr2.
  pose proof (reachable_hashed _ Hr2) as Hd. rewrite Forall_forall in Hd.
  destruct (history_reports _ _ Hh) as (l & El & _).
  assert (G2 : get_where (report_of job run) (reports s2) = Some r) by (rewrite El; by apply get_where_more).
  destruct (get_where_Some _ _ _ G2) as [I2 P2]. unfold report_of in P2. guards.
  assert (Hj : is_Some (get job s1)).
  { unfold persistReport in Hc. apply bind_Ok in Hc as (j & G%require_Ok & Hc).
    apply persist_quiet in Hc as [Ej _]. unfold get. rewrite Ej. by exists j. }
  destruct Hj as [j Gj].
  destruct (history_job _ _ _ _ _ j Hh (reachable_ok _ _ _ Hr1) Gj) as (j2 & G2' & _).
  split; [done|]. split; [by rewrite <- (Hd r I2)|]. split.
  - unfold getReport. clear G1. destruct (get_where (λ x, bool_decide (r_jobId x = job)
      && bool_decide (reportSha256 x = sha256 text)) (reports s2)) as [r'|] eqn:Gr.
    + exists r'. split; [done|]. apply get_where_Some in Gr as [Ir Pr]. autorewrite with guards in Pr.
      destruct Pr as [_ Pr]. rewrite <- Pr. symmetry. by apply Hd.
    + apply get_where_None with (r := r) in Gr; [|done]. guards. exfalso. naive_solver.
  - intros t v text' Hlen. unfold persistReport. rewrite G2'. cbn.
    unfold persistReportWithinTransaction. rewrite Hrun. cbn.
    rewrite (proj2 (Z.ltb_ge _ _)) by done. cbn.
    rewrite (proj2 (existsb_exists _ _)) by (exists r; split; [by apply list_elem_of_In|]; by apply (get_where_Some _ _ _ G2)).
    rewrite G2. cbn. rewrite Ed. case_bool_decide as E.
    + rewrite E, js_eqb_refl. cbn. by destruct s2.
    + by rewrite (proj2 (js_eqb_neq _ _)) by congruence.
Qed.

End ReportFacts.

(** ** Mutation ids *)

Definition unique_mutations (s : store) : Prop :=
  ∀ j1 j2 m, j1 ∈ jobs s → j2 ∈ jobs s → clientMutationId j1 = Some m →
    clientMutationId j2 = Some m → principalId (request j1) = principalId (request j2) → j1 = j2.

(** The row a touched row came from. *)
Lemma touched_back k s s' j' :
  store_ok s → touched k s s' → j' ∈ jobs s' → ∃ j, get (id j') s = Some j ∧ keeps j j'.
Proof.
  intros H T Hj'. pose proof (touched_ok k s s' H T) as H'. pose proof (get_in s' j' H' Hj') as G'.
  destruct (decide (id j' = k)) as [E|E].
  - destruct (get k s) as [j|] eqn:G.
    + destruct (to_job _ _ _ T j G) as (j2 & G2 & K & _). exists j. rewrite E. split; [done|].
      rewrite E in G'. by replace j' with j2 by congruence.
    + apply (touched_none_stays k s s' T) in G. congruence.
  - destruct (to_others _ _ _ T (id j') E) as [Eg _]. exists j'. rewrite <- Eg.
    split; [done|apply keeps_refl].
Qed.

Lemma moves_unique s s' :
  store_ok s → moves_one s s' → unique_mutations s → unique_mutations s'.
Proof.
  intros H Hm U. pose proof (moves_one_ok s s' H Hm) as H'. intros j1 j2 m Hj1 Hj2 M1 M2 Ep.
  destruct Hm as [[k T]|(n & Ej & Hn & _ & _ & _ & _ & _ & Hc)].
  - destruct (touched_back k s s' j1 H T Hj1) as (i1 & G1 & K1).
    destruct (touched_back k s s' j2 H T Hj2) as (i2 & G2 & K2).
    destruct (get_Some _ _ _ G1) as [I1 E1], (get_Some _ _ _ G2) as [I2 E2].
    assert (i1 = i2) as ->.
    { apply (U i1 i2 m I1 I2).
      - by rewrite <- (keeps_mutation _ _ K1).
      - by rewrite <- (keeps_mutation _ _ K2).
      - by rewrite <- (keeps_request _ _ K1), <- (keeps_request _ _ K2). }
    eapply keyed_inj; [apply (ok_jobs s' H')|done..|congruence].
  - rewrite Ej in Hj1, Hj2.
    assert (Hfresh : ∀ j, j ∈ jobs s → clientMutationId j = Some m → clientMutationId n = Some m →
              principalId (request j) = principalId (request n) → False).
    { intros j Hj Mj Mn Epn. apply not_true_iff_false in Hc. apply Hc, List.existsb_exists.
      exists j. split; [by apply list_elem_of_In|]. unfold job_conflicts.
      rewrite Mn, Mj, Epn, !bool_decide_eq_true_2 by eauto. by rewrite orb_true_r. }
    apply elem_of_app in Hj1 as [Hj1| ->%list_elem_of_singleton];
      apply elem_of_app in Hj2 as [Hj2| ->%list_elem_of_singleton]; [by eapply U| | |done].
    + by destruct (Hfresh j1).
    + by destruct (Hfresh j2).
Qed.

Section Mutations.
Context (sha256 : jsstr → jsstr) (parse : ScheduledJobInput → option JobRequest).

Lemma history_unique s s' :
  history sha256 parse s s' → store_ok s → unique_mutations s → unique_mutations s'.
Proof.
  intros Hh. induction Hh as [s|s1 s2 s3 (c & Hl & ->) Hh IH]; intros H U; [done|].
  pose proof (perform_moves sha256 parse c s1 H Hl) as Hm.
  apply IH; [by eapply moves_one_ok|by eapply moves_unique].
Qed.

Lemma reachable_unique s : reachable sha256 parse s → unique_mutations s.
Proof.
  intros [o Hh]. eapply history_unique; [exact Hh|apply opening_ok|]. intros j1 j2 m H. cbn in H.
  set_solver.
Qed.

(** The job that was created under a mutation id. *)
Definition created_by (i : ScheduledJobInput) (m : jsstr) (j : Job) : Prop :=
  principalId (request j) = in_principalId i ∧ clientMutationId j = Some m
  ∧ requestFingerprint j = canonicalFingerprint sha256 (canonicalRequest i).

Lemma create_Ok now now' u u' i m s j s' :
  (∀ r, parse i = Some r → principalId r = in_principalId i) →
  in_clientMutationId i = Some m → m ≠ [] →
  create sha256 parse now now' u u' i s = Ok (j, s') → created_by i m j.
Proof.
  intros Hparse Em Hm Hc. unfold create in Hc. rewrite Em in Hc. destruct m as [|x m]; [done|].
  destruct (get_where _ (jobs s)) as [prior|] eqn:Gp.
  - apply get_where_Some in Gp as [_ Gp]. res_inv Hc. guards. unfold created_by.
    split_and!; congruence.
  - unfold commitJob in Hc. apply bind_Ok in Hc as (r & Hr%require_Ok & Hc).
    apply bind_Ok in Hc as (? & Hx%reject_Ok & Hc). cbv zeta in Hc.
    apply bind_Ok in Hc as (c & Hg%require_Ok & Hc). injection Hc as -> <-.
    set (n := new_job sha256 _ now i r) in *.
    pose proof (by_key_insert_eq id n (jobs s) (no_job_conflict n s Hx)) as E.
    assert (Hnj : Some j = Some n) by (rewrite <- Hg; exact E). injection Hnj as ->.
    unfold created_by. cbn. rewrite Em. split_and!; [by apply Hparse|done|done].
Qed.

Lemma create_in now now' u u' i m s j s' :
  in_clientMutationId i = Some m → m ≠ [] → store_ok s → store_ok s' →
  create sha256 parse now now' u u' i s = Ok (j, s') → get (id j) s' = Some j.
Proof.
  intros Em Hm H H' Hc. unfold create in Hc. rewrite Em in Hc. destruct m as [|x m]; [done|].
  destruct (get_where _ (jobs s)) as [prior|] eqn:Gp.
  - apply get_where_Some in Gp as [Hp _]. res_inv Hc. by apply get_in.
  - unfold commitJob in Hc. cbv zeta in Hc. res_inv Hc.
    match goal with G : get ?k ?t = Some j |- get (id j) ?t' = _ =>
      destruct (get_Some k t j G) as [_ ->]; exact G end.
Qed.

(** Creating a job is idempotent under its mutation id.  After a job was created for a
    principal and a mutation id, along any history, creating it again with the same request, at
    whatever time, returns that job as it now is and changes nothing, and creating another request
    under the same mutation id is refused.  The principal is as the schema leaves it, trimmed. *)
Theorem create_idempotent s s1 s2 i m now now' u u' j :
  (∀ r, parse i = Some r → principalId r = in_principalId i) →
  reachable sha256 parse s → in_clientMutationId i = Some m → m ≠ [] →
  create sha256 parse now now' u u' i s = Ok (j, s1) → history sha256 parse s1 s2 →
  ∃ j2, get (id j) s2 = Some j2 ∧ request j2 = request j
    ∧ (∀ t t' v v', create sha256 parse t t' v v' i s2 = Ok (j2, s2))
    ∧ (∀ t t' v v' i', in_principalId i' = in_principalId i → in_clientMutationId i' = Some m →
         canonicalFingerprint sha256 (canonicalRequest i')
           ≠ canonicalFingerprint sha256 (canonicalRequest i) →
         create sha256 parse t t' v v' i' s2 = Err mutation_reused).
Proof.
  intros Hparse Hr Em Hm Hc Hh.
  assert (H1 : history sha256 parse s s1).
  { econstructor; [|constructor]. exists (Create now now' u u' i). split; [done|]. cbn. by rewrite Hc. }
  pose proof (reachable_more _ _ _ _ Hr H1) as Hr1. pose proof (reachable_more _ _ _ _ Hr1 Hh) as Hr2.
  pose proof (reachable_ok _ _ _ Hr1) as O1.
  pose proof (create_in _ _ _ _ _ m _ _ _ Em Hm (reachable_ok _ _ _ Hr) O1 Hc) as G1.
  destruct (create_Ok _ _ _ _ i m _ _ _ Hparse Em Hm Hc) as (Ep & Emu & Ef).
  destruct (history_job _ _ _ _ _ j Hh O1 G1) as (j2 & G2 & K & _). exists j2.
  split; [done|]. split; [apply K|].
  assert (Hw : ∀ i', in_principalId i' = in_principalId i →
    get_where (λ x, bool_decide (principalId (request x) = in_principalId i')
                    && bool_decide (clientMutationId x = Some m)) (jobs s2) = Some j2).
  { intros i' Ei. rewrite Ei. destruct (get_Some _ _ _ G2) as [I2 _].
    assert (P2 : principalId (request j2) = in_principalId i) by (by rewrite (keeps_request _ _ K)).
    assert (M2 : clientMutationId j2 = Some m) by (by rewrite (keeps_mutation _ _ K)).
    destruct (get_where _ (jobs s2)) as [x|] eqn:Gx.
    - apply get_where_Some in Gx as [Ix Px]. guards. f_equal.
      eapply (reachable_unique s2 Hr2); [done|done|eassumption|done|congruence].
    - apply get_where_None with (r := j2) in Gx; [|done]. apply not_true_iff_false in Gx.
      destruct Gx. by rewrite P2, M2, !bool_decide_eq_true_2. }
  assert (F2 : requestFingerprint j2 = canonicalFingerprint sha256 (canonicalRequest i))
    by (by rewrite (keeps_fingerprint _ _ K)).
  destruct m as [|x m]; [done|]. split.
  - intros. unfold create. rewrite Em, Hw by done. by rewrite F2, js_eqb_refl.
  - intros t t' v v' i' Ei Em' Hne. unfold create. rewrite Em', Hw by done. rewrite F2.
    by rewrite (proj2 (js_eqb_neq _ _)) by congruence.
Qed.

(** ** Replays *)

Lemma project_row_cursor t ev row s j s' :
  store_ok s → row ∈ jobs s → project_row sha256 t ev row s = Ok (j, s') →
  id j = id row ∧ lifecycleEventCursor j = ev_seq ev.
Proof.
  intros H Hr Hc. unfold project_row in Hc. cbv zeta in Hc.
  set (found := active_attempt row s) in Hc. set (p := row_projection _ _ _) in Hc.
  set (s1 := project_report _ _ _ _ _ _ _) in Hc.
  destruct (project_report_quiet sha256 t (event ev) p row found (project_attempt (event ev) p found s))
    as [Hqj _]. fold s1 in Hqj.
  assert (Hj1 : jobs s1 = jobs s) by (rewrite Hqj; unfold project_attempt; by destruct found).
  rewrite Hj1 in Hc. split_update Hc. res_inv Hc. guards. subst.
  destruct (changed_one id _ _ _ (id row) _ U (ok_jobs s H) ltac:(intros; by guards)) as (El & j0 & G0 & P0).
  match goal with G : get (id row) _ = Some j |- _ => rename G into Gj end.
  assert (Ej : jobs (project_end t (event ev) p row found (set_jobs l s1)) = l)
    by (unfold project_end; by repeat case_match).
  split; [by apply get_Some in Gj as [_ ?]|].
  unfold get in Gj. rewrite Ej, El in Gj. erewrite by_key_update_hit in Gj; [|  |exact G0|exact P0].
  - injection Gj as <-. done.
  - intros j1. unfold projected_job. by destruct (terminal_status row p).
Qed.

Lemma projected_cursor t ev s j s' :
  store_ok s → projectEvent sha256 t ev s = (Ok (Some j), s') →
  get (id j) s' = Some j ∧ (ev_seq ev <= lifecycleEventCursor j)%Z.
Proof.
  intros H Hc. destruct (project_touches sha256 t ev s H) as [k T].
  pose proof (touched_ok k s _ H T) as H'. rewrite Hc in H'. cbn in H'.
  unfold projectEvent in Hc. destruct (_ || _ || _); [done|].
  destruct (obligation_quiet (obligation_now t) (obligation_uuid t) ev s) as [Ej Ea].
  set (s0 := recordReportFinalizationObligation _ _ _ _) in *.
  assert (H0 : store_ok s0) by (apply (touched_ok [] s); [done|by apply touched_none]).
  destruct (session_job (sessionId ev) s0) as [row|] eqn:Er; [|done].
  apply session_job_in in Er. destruct (Z.leb_spec (ev_seq ev) (lifecycleEventCursor row)).
  - injection Hc as <- <-. split; [by apply get_in|done].
  - destruct (project_row sha256 t ev row s0) as [[j1 s2]|] eqn:Ep; [|done].
    injection Hc as <- <-. destruct (project_row_cursor _ _ _ _ _ _ H0 Er Ep) as [Ei Ec].
    split; [|lia]. unfold project_row in Ep. cbv zeta in Ep.
    destruct (update_where _ _ _) as [js n]. res_inv Ep. by rewrite Ei.
Qed.

(** A replayed event changes neither jobs nor attempts.  Once an event was projected on the job
    of its session, along any history, projecting it or any earlier event of that session again
    returns at most the job as it is: the cursor of the job only grows. *)
Theorem replays_change_nothing s s1 s2 t t' ev ev' j j2 :
  reachable sha256 parse s → projectEvent sha256 t ev s = (Ok (Some j), s1) →
  history sha256 parse s1 s2 → session_job (sessionId ev') s2 = Some j2 → id j2 = id j →
  (ev_seq ev' <= ev_seq ev)%Z →
  quiet s2 (projectEvent sha256 t' ev' s2).2
  ∧ ((projectEvent sha256 t' ev' s2).1 = Ok None ∨ (projectEvent sha256 t' ev' s2).1 = Ok (Some j2)).
Proof.
  intros Hr Hc Hh Es Ei Hseq.
  destruct (projected_cursor t ev s j s1 (reachable_ok _ _ _ Hr) Hc) as [G1 Hcur].
  assert (H1 : history sha256 parse s s1).
  { econstructor; [|constructor]. exists (ProjectEvent t ev). split; [done|]. cbn. by rewrite Hc. }
  pose proof (reachable_more _ _ _ _ Hr H1) as Hr1.
  destruct (history_job _ _ _ _ _ j Hh (reachable_ok _ _ _ Hr1) G1) as (x & G2 & K & _).
  assert (x = j2) as ->.
  { pose proof (reachable_ok _ _ _ (reachable_more _ _ _ _ Hr1 Hh)) as O2.
    pose proof (get_in s2 j2 O2 (session_job_in _ _ _ Es)). congruence. }
  unfold projectEvent. destruct (_ || _ || _); [split; [done|by left]|].
  destruct (obligation_quiet (obligation_now t') (obligation_uuid t') ev' s2) as [Ej Ea].
  set (s0 := recordReportFinalizationObligation _ _ _ _) in *.
  assert (Es0 : session_job (sessionId ev') s0 = Some j2) by (unfold session_job; by rewrite Ej).
  rewrite Es0. pose proof (keeps_cursor _ _ K).
  rewrite (proj2 (Z.leb_le _ _)) by lia. split; [done|by right].
Qed.

End Mutations.

(** ** Concrete histories *)

Definition ex_open : store := opening (DispatchOutbox.mkOutbox [] [] [] []).
Definition ex_created : store := ex_store [Create 0 0 "u" "v" ex_input].

Lemma ex_open_reachable : reachable ex_hash ex_parse ex_open.
Proof. exists (DispatchOutbox.mkOutbox [] [] [] []). constructor. Qed.

(** The history after the creation. *)
Lemma ex_after_creation : history ex_hash ex_parse ex_created (ex_store ex_claimed).
Proof.
  change ex_claimed with ([Create 0 0 "u" "v" ex_input] ++ List.tl ex_claimed).
  unfold ex_created, ex_store. rewrite play_app. apply play_history.
  cbn [all_legal ex_claimed List.tl]. plays.
Qed.

Lemma create_idempotent_witness :
  ∃ j, create ex_hash ex_parse 7 7 "x" "y" ex_input (ex_store ex_claimed)
       = Ok (j, ex_store ex_claimed).
Proof.
  destruct (create ex_hash ex_parse 0 0 "u" "v" ex_input ex_open) as [[j s1]|] eqn:E;
    [|vm_compute in E; discriminate E].
  assert (E1 : s1 = ex_created).
  { transitivity (after (create ex_hash ex_parse 0 0 "u" "v" ex_input ex_open) ex_open);
      [by rewrite E|reflexivity]. }
  subst s1.
  destruct (create_idempotent ex_hash ex_parse ex_open ex_created (ex_store ex_claimed) ex_input
              (js "m") 0 0 "u" "v" j) as (j2 & _ & _ & Hc & _).
  - intros r Hr. cbn in Hr. injection Hr as <-. vm_compute. reflexivity.
  - apply ex_open_reachable.
  - reflexivity.
  - discriminate.
  - exact E.
  - apply ex_after_creation.
  - exists j2. apply Hc.
Defined.

(** A principal the schema trims: the retry does not find the job and violates its unique index. *)
Definition ex_padded : ScheduledJobInput :=
  mkInput " p" "ctx" "prj" "/w" (mkRunTime "1970-01-01T00:00:01.000Z" 1000 1000) (JObj [])
    bounded_file_write (JObj ex_policy) None None None 60000 (Some (js "m")).

Example padded_principal_retry_fails :
  create ex_hash ex_parse 7 7 "x" "y" ex_padded (ex_store [Create 0 0 "u" "v" ex_padded])
  = Err constraint_failed.
Proof. vm_compute. reflexivity. Qed.

(** The time of a job given with an offset: its instant is 1000, its text has the place of the
    local time, five hours later; an hour after the instant the dispatcher finds no due event. *)
Definition ex_offset : ScheduledJobInput :=
  mkInput "p" "ctx" "prj" "/w" (mkRunTime "1970-01-01T05:00:01.000+05:00" 1000 18001000) (JObj [])
    bounded_file_write (JObj ex_policy) None None None 60000 (Some (js "m")).

Example offset_delays_dispatch :
  fst (DispatchOutbox.claimNext 3601000 3601000 "t" "me" 60000 None None
         (outbox (ex_store [Create 0 0 "u" "v" ex_offset]))) = None
  ∧ is_Some (fst (DispatchOutbox.claimNext 3601000 3601000 "t" "me" 60000 None None
                    (outbox (ex_store [Create 0 0 "u" "v" ex_input])))).
Proof. split; [vm_compute; reflexivity|]. vm_compute. eauto. Qed.

(** The worker of the running job starts; the event is replayed after the cancellation. *)
Definition ex_started (seq : Z) : StoreEvent :=
  mkStoreEvent "e1" true seq "ws"
    (mkEvent "agent.run.started" 1010
       [(js "runId", JStr "run"); (js "attemptNumber", JNum 1); (js "dispatchId", JStr "disp_d2")]).
Definition ex_readings : Readings := mkReadings 1010 "o" 1010 "r" 1010 1010.

Lemma ex_running_reachable : reachable ex_hash ex_parse (ex_store ex_running).
Proof. apply play_reachable. cbn [all_legal ex_running ex_claimed app]. plays. Qed.

Lemma replays_change_nothing_witness :
  quiet (projectEvent ex_hash ex_readings (ex_started 5) (ex_store ex_running)).2
    (projectEvent ex_hash ex_readings (ex_started 4)
       (projectEvent ex_hash ex_readings (ex_started 5) (ex_store ex_running)).2).2.
Proof.
  destruct (projectEvent ex_hash ex_readings (ex_started 5) (ex_store ex_running)) as [[[j|]|] s1] eqn:E.
  2,3: exfalso; assert (X : match (projectEvent ex_hash ex_readings (ex_started 5) (ex_store ex_running)).1 with
                    | Ok (Some _) => True | _ => False end) by (vm_compute; exact I); by rewrite E in X.
  cbn [snd].
  destruct (session_job (js "ws") s1) as [j2|] eqn:Es.
  2:{ exfalso. assert (X : is_Some (session_job (js "ws")
        (projectEvent ex_hash ex_readings (ex_started 5) (ex_store ex_running)).2))
        by (vm_compute; eauto). rewrite E in X. cbn [snd] in X. rewrite Es in X. by destruct X. }
  assert (Ei : id j2 = id j).
  { assert (X : (id <$> session_job (js "ws") s1) = Some (id j)).
    { transitivity (Some ex_job).
      - replace s1 with (projectEvent ex_hash ex_readings (ex_started 5) (ex_store ex_running)).2
          by (by rewrite E). vm_compute. reflexivity.
      - assert (Y : match (projectEvent ex_hash ex_readings (ex_started 5) (ex_store ex_running)).1 with
                    | Ok (Some x) => Some (id x) | _ => None end = Some ex_job)
          by (vm_compute; reflexivity). by rewrite E in Y. }
    rewrite Es in X. by injection X. }
  apply (replays_change_nothing ex_hash ex_parse (ex_store ex_running) s1 s1 ex_readings ex_readings
           (ex_started 5) (ex_started 4) j j2 ex_running_reachable E (steps_refl _ _) Es Ei).
  vm_compute. discriminate.
Defined.

Lemma reports_are_immutable_witness :
  ∃ r s1, persistReport ex_hash 9 "x" ex_job "run" "done" ex_created = Ok (r, s1)
    ∧ persistReport ex_hash 10 "y" ex_job "run" "undone" s1 = Err report_changed.
Proof.
  destruct (persistReport ex_hash 9 "x" ex_job "run" "done" ex_created) as [[r s1]|] eqn:E;
    [|vm_compute in E; discriminate E].
  exists r, s1. split; [done|].
  destruct (reports_are_immutable ex_hash ex_parse ex_created s1 s1 9 "x" ex_job "run" "done" r)
    as (_ & _ & _ & Hp).
  - apply play_reachable. cbn [all_legal]. plays.
  - exact E.
  - constructor.
  - rewrite Hp by (vm_compute; discriminate). by rewrite bool_decide_eq_false_2 by discriminate.
Defined.

End ScheduledRecords.
