(* ===== verification/ScheduledCompletion.v ===== *)
(** * What the autonomous completion of a bounded-write job rests on

    Every committed receipt that an attempt holds was authorized by the policy of its job; the
    decision of the event route finds one for every output the policy lists. *)

From S2P Require Import Prelude JsString Json Sql Outbox ScheduledLifecycle ScheduledJobs.
From S2P Require Import ScheduledPublications ScheduledLaunches ScheduledJobFacts ScheduledMoves ScheduledDispatch.
From S2P Require Import ScheduledRecords.

Module ScheduledCompletion.
Import ScheduledLifecycle ScheduledJobs ScheduledPublications ScheduledLaunches ScheduledJobFacts
  ScheduledMoves ScheduledDispatch ScheduledRecords.

(** ** Fields *)

Lemma strict_eq_str v s : strict_eq v (Some (JStr s)) = true ↔ v = Some (JStr s).
Proof.
  unfold strict_eq. split; [|intros ->; apply js_eqb_refl].
  destruct v as [[]|]; try done. by intros ->%js_eqb_eq.
Qed.

Lemma strict_eq_none v : strict_eq v None = true ↔ v = None.
Proof. unfold strict_eq. by destruct v as [[]|]. Qed.

Lemma jfield_set k k' v fs :
  jfield k' (set_field k v fs) = if bool_decide (k' = k) then Some v else jfield k' fs.
Proof.
  unfold set_field, jfield. case_bool_decide as E.
  - subst k'. destruct (existsb _ fs) eqn:Ex.
    + induction fs as [|[k0 v0] fs IH]; [done|]. cbn in Ex |- *.
      destruct (k0 =s k) eqn:Ek; cbn.
      * by rewrite Ek.
      * rewrite Ek. by apply IH.
    + rewrite find_app. replace (List.find _ fs) with (@None (jsstr * json)); cbn.
      { by rewrite js_eqb_refl. }
      symmetry. apply find_none_iff. intros x Hx. apply not_true_iff_false. intros Hk.
      apply not_true_iff_false in Ex. apply Ex, List.existsb_exists. exists x.
      by split; [apply list_elem_of_In|].
  - destruct (existsb _ fs).
    + induction fs as [|[k0 v0] fs IH]; [done|]. cbn. destruct (k0 =s k) eqn:Ek; cbn.
      * apply js_eqb_eq in Ek as ->. by rewrite (proj2 (js_eqb_neq _ _)) by congruence.
      * by destruct (k0 =s k').
    + rewrite find_app. destruct (List.find _ fs); [done|]. cbn.
      by rewrite (proj2 (js_eqb_neq _ _)) by congruence.
Qed.

(** ** Published outputs *)

(** A committed receipt, as the policy of the job authorizes it. *)
Record published (policy : Fields) (job attempt : jsstr) (c : Fields) : Prop := mkPublished {
  pub_verified : is_verified c = true;
  pub_job : jfield "jobId" c = Some (JStr job);
  pub_attempt : jfield "attemptId" c = Some (JStr attempt);
  pub_output : ∃ path sha output,
    jfield "path" c = Some (JStr path) ∧ path ≠ [] ∧ jfield "sha256" c = Some (JStr sha)
    ∧ hex64 sha = true ∧ authorized_output policy (Some (JStr path)) = Ok (Some output)
    ∧ strict_eq (member "operation" output) (jfield "operation" c) = true
    ∧ (member "expectedSha256" output = None ∨ member "expectedSha256" output = Some (JStr sha))
}.

Definition receipts_ok (s : store) : Prop :=
  ∀ a j c, a ∈ attempts s → get (jobId a) s = Some j → c ∈ receipts_of a → is_committed c = true →
    published (policySnapshotJson (request j)) (jobId a) (a_id a) c.

(** Storing receipts on one attempt. *)
Lemma store_receipts_ok p l s a0 :
  receipts_ok s → (∀ x, x ∈ attempts s → p x = true → x = a0) →
  (∀ j c, get (jobId a0) s = Some j → c ∈ l → is_committed c = true →
     published (policySnapshotJson (request j)) (jobId a0) (a_id a0) c) →
  receipts_ok (store_receipts p l s).2.
Proof.
  intros H Hp Hl. unfold store_receipts. destruct (update_where _ _ _) as [t n] eqn:E. cbn.
  assert (Et : t = (update_where p (with_receipts (Some l)) (attempts s)).1) by (by rewrite E).
  intros a j c Ha Hj Hc Hm. cbn in Ha. rewrite Et in Ha.
  apply elem_of_update_where in Ha as (x & Hx & ->).
  change (get ?k (set_attempts t s)) with (get k s) in Hj.
  destruct (p x) eqn:P; [|by apply (H x)]. cbn in *.
  rewrite (Hp x Hx P) in *. by apply Hl.
Qed.

Lemma attempt_found s k job a :
  store_ok s → get_where (attempt_is k job) (attempts s) = Some a →
  a ∈ attempts s ∧ a_id a = k ∧ jobId a = job
  ∧ (∀ x, x ∈ attempts s → attempt_is k job x = true → x = a).
Proof.
  intros H [Ha [Ek Ej]%attempt_is_spec]%get_where_Some. split_and!; try done.
  intros x Hx [Ex _]%attempt_is_spec. eapply keyed_inj; [apply H|done..|congruence].
Qed.

Lemma intent_ok job intent s s' :
  store_ok s → receipts_ok s → jfield "outcome" intent = None →
  recordPublicationIntent job intent s = Ok s' → receipts_ok s'.
Proof.
  intros H Hr Ho Hc. unfold recordPublicationIntent in Hc.
  apply bind_Ok in Hc as (j & Gj%require_Ok & Hc). apply bind_Ok in Hc as (? & _ & Hc).
  apply bind_Ok in Hc as (k & _ & Hc). apply bind_Ok in Hc as (? & _ & Hc).
  apply bind_Ok in Hc as (a & Ga%require_Ok & Hc).
  destruct (attempt_found s k job a H Ga) as (Ha & Ek & Ej & Hu).
  apply bind_Ok in Hc as (? & _ & Hc). apply bind_Ok in Hc as (? & _ & Hc).
  apply bind_Ok in Hc as (? & _ & Hc). apply bind_Ok in Hc as (? & _ & Hc).
  destruct (List.find _ _); [by res_inv Hc|].
  destruct (store_receipts _ _ _) as [n s2] eqn:E. res_inv Hc.
  match goal with |- receipts_ok ?t => change t with (n, t).2 end. rewrite <- E.
  apply (store_receipts_ok _ _ _ a Hr).
  - intros y Hy P. apply Hu; [done|]. by guards.
  - intros j2 c Gj2 [Hc| ->%list_elem_of_singleton]%elem_of_app Hm; [by apply Hr|].
    unfold is_committed in Hm. by rewrite Ho in Hm.
Qed.

Lemma receipt_ok job receipt s s' :
  store_ok s → receipts_ok s → recordPublicationReceipt job receipt s = Ok s' → receipts_ok s'.
Proof.
  intros H Hr Hc. unfold recordPublicationReceipt in Hc.
  apply bind_Ok in Hc as (j & Gj%require_Ok & Hc). apply bind_Ok in Hc as (? & _ & Hc).
  apply bind_Ok in Hc as (? & Hb%ensure_Ok & Hc). apply bind_Ok in Hc as (? & Hv%ensure_Ok & Hc).
  apply bind_Ok in Hc as (k & Gk%require_Ok & Hc). apply bind_Ok in Hc as (? & _ & Hc).
  apply bind_Ok in Hc as (a & Ga%require_Ok & Hc). apply bind_Ok in Hc as (? & _ & Hc).
  apply bind_Ok in Hc as (num & _ & Hc). apply bind_Ok in Hc as (? & _ & Hc).
  apply bind_Ok in Hc as (found & Hf & Hc). apply bind_Ok in Hc as (path & Gp%require_Ok & Hc).
  apply bind_Ok in Hc as (o & Go%require_Ok & Hc). apply bind_Ok in Hc as (? & Hp%ensure_Ok & Hc).
  apply bind_Ok in Hc as (sha & Gs%require_Ok & Hc). apply bind_Ok in Hc as (? & Hs%ensure_Ok & Hc).
  destruct (List.find _ _); [by res_inv Hc|].
  apply bind_Ok in Hc as (i & _ & Hc). apply bind_Ok in Hc as (intent & _ & Hc).
  apply bind_Ok in Hc as (? & _ & Hc). apply bind_Ok in Hc as (? & _ & Hc).
  destruct (attempt_found s k job a H Ga) as (Ha & Ek & Ej & Hu).
  destruct (store_receipts _ _ _) as [n s2] eqn:E. res_inv Hc.
  match goal with |- receipts_ok ?t => change t with (n, t).2 end. rewrite <- E.
  apply (store_receipts_ok _ _ _ a Hr).
  - intros y Hy P. apply Hu; [done|]. by guards.
  - intros j2 c Gj2 Hc Hm. apply list_elem_of_lookup in Hc as [m Hc].
    apply list_lookup_insert_Some in Hc as [(_ & <- & _)|[_ Hc]].
    2:{ apply Hr; [done|done| |done]. apply list_elem_of_lookup. by exists m. }
    assert (j2 = j) as -> by congruence.
    apply as_string_Some in Gk, Gp, Gs. unfold string_or_undefined in Hf. rewrite Gp in Hf.
    apply andb_true_iff in Hb as [_ Hb%strict_eq_str]. apply andb_true_iff in Hv as [_ Hv].
    apply andb_true_iff in Hp as [Hne Hop]. apply andb_true_iff in Hs as [[Hh Hs]%andb_true_iff _].
    constructor; [done|done|done|]. exists path, sha, o. split_and!; try done.
    + by destruct path.
    + apply orb_true_iff in Hs as [Hs%strict_eq_none|Hs%strict_eq_str]; auto.
Qed.

(** A failure leaves the fields of a receipt that matter alone. *)
Lemma failed_published now o reason policy job k c :
  is_committed (failed_receipt now o reason c) = is_committed c
  ∧ (published policy job k c → published policy job k (failed_receipt now o reason c)).
Proof.
  assert (Hf : ∀ x, x ∉ [js "resolvedAt"; js "reason"; js "state"] →
                jfield x (failed_receipt now o reason c) = jfield x c).
  { intros x Hx. unfold failed_receipt. rewrite !jfield_set.
    rewrite !bool_decide_eq_false_2 by set_solver. done. }
  assert (Hn : ∀ x, bool_decide (x ∈ [js "resolvedAt"; js "reason"; js "state"]) = false →
                jfield x (failed_receipt now o reason c) = jfield x c).
  { intros x Hx. apply Hf. by rewrite bool_decide_eq_false in Hx. }
  unfold is_committed. rewrite Hn by (vm_compute; reflexivity). split; [done|].
  intros [Hv Hj Ha (path & sha & output & ? & ? & ? & ? & ? & ? & ?)].
  constructor; unfold is_verified; rewrite ?Hn by (vm_compute; reflexivity); try done.
  exists path, sha, output. by split_and!.
Qed.

Lemma failure_ok now job receiptId o reason s :
  store_ok s → receipts_ok s → receipts_ok (recordPublicationFailure now job receiptId o reason s).
Proof.
  intros H Hr. unfold recordPublicationFailure.
  set (rows := select_where _ _). assert (Hsub : ∀ a, a ∈ rows → a ∈ attempts s)
    by (intros a [? _]%elem_of_Lfilter; done). clearbody rows.
  induction rows as [|a rows IH]; cbn; [done|].
  destruct (find_index _ _) as [i|]; [|by apply IH; intros; apply Hsub; right].
  assert (Ha : a ∈ attempts s) by (apply Hsub; by left).
  apply (store_receipts_ok _ _ _ a Hr).
  - intros x Hx P. rewrite bool_decide_eq_true in P. by eapply keyed_inj; [apply H|..].
  - intros j c Gj Hc Hm. apply list_elem_of_lookup in Hc as [m Hc].
    rewrite list_lookup_alter in Hc. destruct (decide (i = m)) as [->|].
    + destruct (receipts_of a !! m) as [c0|] eqn:E0; [|done]. injection Hc as <-.
      destruct (failed_published now o reason (policySnapshotJson (request j)) (jobId a) (a_id a) c0)
        as [Em Hp].
      apply Hp, Hr; [done|done| |congruence]. apply list_elem_of_lookup. by exists m.
    + apply Hr; [done|done| |done]. apply list_elem_of_lookup. by exists m.
Qed.

Section Completion.
Context (sha256 : jsstr → jsstr) (parse : ScheduledJobInput → option JobRequest).

(** Calls that leave the receipts alone. *)
Lemma kept_ok s s' :
  store_ok s → moves_one s s' → kept_receipts s s' → receipts_ok s → receipts_ok s'.
Proof.
  intros H Hm Hk Hr a' j' c Ha' Gj' Hc Hcm.
  destruct (Hk a' Ha') as [E|(a & Ha & Ei & Ej & Er)]; [rewrite E in Hc; by apply not_elem_of_nil in Hc|].
  destruct (ok_owner s H a Ha) as [j Gj]. destruct (moves_job _ _ _ j H Hm Gj) as (j2 & G2 & K & _).
  rewrite Ej in Gj' |- *. assert (j2 = j') as -> by congruence.
  rewrite (keeps_request _ _ K), Ei. apply Hr; [done|done|by rewrite <- Er|done].
Qed.

Lemma perform_receipts c s :
  store_ok s → legal c s → receipts_ok s → receipts_ok (perform sha256 parse c s).
Proof.
  intros H Hl Hr. destruct (publishes c) eqn:Ep.
  - destruct c; try done; cbn [perform].
    + destruct (recordPublicationIntent job intent s) eqn:E; [|done]. by eapply intent_ok.
    + destruct (recordPublicationReceipt job receipt s) eqn:E; [|done]. by eapply receipt_ok.
    + by apply failure_ok.
  - apply (kept_ok s); [done|by apply perform_moves|by apply (records_perform_aside sha256 parse)|done].
Qed.

Lemma reachable_receipts s : reachable sha256 parse s → receipts_ok s.
Proof.
  intros [o Hh]. assert (H : ∀ s1 s2, history sha256 parse s1 s2 → store_ok s1 → receipts_ok s1 → receipts_ok s2).
  { clear. induction 1 as [s|s1 s2 s3 (c & Hl & ->) Hh IH]; intros H Hr; [done|].
    apply IH; [|by apply perform_receipts]. eapply moves_one_ok; [done|by apply perform_moves]. }
  eapply H; [exact Hh|apply opening_ok|]. intros a j c Ha. cbn in Ha. set_solver.
Qed.

Lemma newest_attempt k s a : getAttempt k None s = Some a → a ∈ attempts s ∧ jobId a = k.
Proof.
  unfold getAttempt. intros Ha%first_by_elem. unfold select_where in Ha.
  apply elem_of_Lfilter in Ha as [Ha E]. by rewrite bool_decide_eq_true in E.
Qed.

(** A bounded-write job completes on its own only when every output was published.  In any
    store the program can reach, when the event route decides that the job completed, the worker
    reported completion of a session the agent may complete, the job may write files, its policy
    lists outputs, and the newest attempt of the job holds for each of them a committed receipt
    that was read back, belongs to that job, attempt and run number, and whose digest is the one
    the policy expects, in the operation it authorizes. *)
Theorem completion_needs_receipts s k j completed agent number :
  reachable sha256 parse s → get k s = Some j →
  autonomousBoundedWrite completed agent number (Some j) s = true →
  completed = true ∧ agent = true ∧ executionMode (request j) = bounded_file_write
  ∧ ∃ a outputs, a ∈ attempts s ∧ jobId a = k
    ∧ jfield "allowedOutputs" (policySnapshotJson (request j)) = Some (JArr outputs)
    ∧ outputs ≠ []
    ∧ ∀ output, output ∈ outputs → ∃ path c,
        member "path" output = Some (JStr path) ∧ c ∈ receipts_of a ∧ is_committed c = true
        ∧ jfield "path" c = Some (JStr path)
        ∧ published (policySnapshotJson (request j)) k (a_id a) c
        ∧ jfield "attemptNumber" c
          = Some (JNum (default (default 1%Z number) (acpAttemptNumber (acp a))))
        ∧ (member "expectedSha256" output = None
           ∨ strict_eq (jfield "sha256" c) (member "expectedSha256" output) = true).
Proof.
  intros Hr Gj Hd. unfold autonomousBoundedWrite in Hd. cbv zeta in Hd.
  rewrite !andb_true_iff, bool_decide_eq_true in Hd.
  destruct Hd as (((((-> & ->) & Hmode) & Hout) & _) & _).
  split_and!; try done. destruct (get_Some _ _ _ Gj) as [_ Ek]. rewrite Ek in Hout.
  unfold outputsVerified in Hout. apply andb_true_iff in Hout as [Hne Hall].
  set (outputs := match jfield _ _ with Some (JArr l) => l | _ => [] end) in *.
  apply negb_true_iff, bool_decide_eq_false in Hne.
  assert (Eo : jfield "allowedOutputs" (policySnapshotJson (request j)) = Some (JArr outputs)).
  { unfold outputs in *. by destruct (jfield _ _) as [[]|]. }
  rewrite forallb_forall in Hall.
  destruct (getAttempt k None s) as [a|] eqn:Ga.
  2:{ destruct outputs as [|output rest]; [done|].
      specialize (Hall output (or_introl eq_refl)). cbn in Hall.
      destruct (member "path" output) as [[]|]; try done. }
  destruct (newest_attempt k s a Ga) as [Ha Ej].
  exists a, outputs. split_and!; try done. intros output Ho%list_elem_of_In.
  specialize (Hall output Ho). destruct (member "path" output) as [[| | | |path| |]|] eqn:Ep; try done.
  apply andb_true_iff in Hall as [_ Hex]. apply List.existsb_exists in Hex as (c & Hc & Hp).
  apply List.filter_In in Hc as [Hc%list_elem_of_In Hk]. rewrite !andb_true_iff in Hk.
  destruct Hk as (((Hm & _) & _) & Hn).
  apply andb_true_iff in Hp as [Hp%strict_eq_str Hs]. exists path, c. split_and!; try done.
  - rewrite <- Ej. rewrite <- Ej in Gj. by eapply reachable_receipts.
  - cbn [mbind option_bind] in Hn. unfold strict_eq in Hn.
    destruct (jfield "attemptNumber" c) as [[]|]; try done. apply Z.eqb_eq in Hn. subst.
    by destruct (acpAttemptNumber (acp a)).
  - apply orb_true_iff in Hs as [Hs%strict_eq_none|Hs]; [by left|by right].
Qed.

End Completion.

(** ** A concrete publication *)

Definition ex_digest : jsstr := List.repeat (List.hd 0%N (js "a")) 64.

(** What the intent and the receipt of the output share. *)
Definition ex_output : Fields :=
  [(js "receiptId", JStr "rc"); (js "jobId", JStr ex_job); (js "workSessionId", JStr "ws");
   (js "path", JStr "out.txt"); (js "operation", JStr "create"); (js "sha256", JStr ex_digest);
   (js "bytes", JNum 3); (js "attemptId", JStr "scha_a2"); (js "attemptNumber", JNum 1);
   (js "runId", JStr "run"); (js "dispatchIdempotencyKey", JStr "disp_d2")].

Definition ex_intent : Fields := (js "state", JStr "pending") :: ex_output.
Definition ex_receipt : Fields :=
  (js "outcome", JStr "committed") :: (js "readBackVerified", JBool true) :: ex_output.

Definition ex_published : list Call :=
  ex_running ++ [RecordIntent ex_job ex_intent; RecordReceipt ex_job ex_receipt].

Lemma ex_published_reachable : reachable ex_hash ex_parse (ex_store ex_published).
Proof.
  apply play_reachable. cbn [all_legal ex_published ex_running ex_claimed app]. plays.
  vm_compute. reflexivity.
Qed.

Lemma completion_needs_receipts_witness :
  ∃ a c, a ∈ attempts (ex_store ex_published) ∧ c ∈ receipts_of a
    ∧ jfield "path" c = Some (JStr (js "out.txt")) ∧ published ex_policy ex_job (a_id a) c.
Proof.
  destruct (get ex_job (ex_store ex_published)) as [j|] eqn:G; [|vm_compute in G; discriminate G].
  assert (Hpol : policySnapshotJson (request j) = ex_policy).
  { assert (X : (λ j, policySnapshotJson (request j)) <$> get ex_job (ex_store ex_published) = Some ex_policy)
      by (vm_compute; reflexivity).
    rewrite G in X. cbn in X. congruence. }
  destruct (completion_needs_receipts ex_hash ex_parse (ex_store ex_published) ex_job j true true None
              ex_published_reachable G)
    as (_ & _ & _ & a & outputs & Ha & _ & Eo & _ & Hall).
  { assert (X : (λ j, autonomousBoundedWrite true true None (Some j) (ex_store ex_published))
                <$> get ex_job (ex_store ex_published) = Some true) by (vm_compute; reflexivity).
    rewrite G in X. cbn [fmap option_fmap option_map] in X. congruence. }
  rewrite Hpol in Eo, Hall. cbn in Eo. injection Eo as <-.
  destruct (Hall _ (list_elem_of_here _ _)) as (path & c & Ep & Hc & _ & Ec & Hp & _).
  cbn in Ep. injection Ep as <-. exists a, c. by split_and!.
Defined.

End ScheduledCompletion.
