(* ===== verification/ScheduledRuntime.v ===== *)
(** * The scheduled-job runtime ([src/src/scheduling/scheduled-job-runtime.ts])

    The runtime claims due events from the outbox, opens an attempt in the job store, calls the
    dispatch hook and settles the event by what the hook answers; its passes arm waiting jobs
    again, reconcile interrupted dispatches and cancellations, enforce the deadline of running jobs
    and project the events of their sessions.  A function that awaits a hook is modelled in two
    halves, before and after the hook answers; [None] of a hook's answer that threw carries its
    message.  [t] gives the readings of the clock of a half in their order.

    The hooks are arguments; the log of the events is the list of its rows. *)

From S2P Require Import Prelude JsString Json Sql Outbox ScheduledLifecycle Redaction ScheduledJobs.

Module ScheduledRuntime.
Import ScheduledLifecycle ScheduledJobs.

(** ** Delays *)

Definition TRANSIENT_DISPATCH_RETRY_BASE_MS : Z := 2000.
Definition TRANSIENT_DISPATCH_RETRY_MAX_MS : Z := 5 * 60000.

(** [Math.round(n / d)] *)
Definition round_div (n d : Z) : Z := ((2 * n + d) / (2 * d))%Z.

(** [random] over [2 ^ 53] is [Math.random()]; the product with [0.8 + random * 0.4] is taken
    without the rounding errors of doubles. *)
Definition scheduledDispatchRetryDelayMs (retryCount random : Z) : Z :=
  let exponent := Z.max 0 (Z.min 16 (retryCount - 1)) in
  let base := Z.min TRANSIENT_DISPATCH_RETRY_MAX_MS (TRANSIENT_DISPATCH_RETRY_BASE_MS * 2 ^ exponent) in
  Z.min TRANSIENT_DISPATCH_RETRY_MAX_MS
    (Z.max 1000 (round_div (base * (8 * 2 ^ 53 + 4 * random)) (10 * 2 ^ 53))).

(** [Math.min(...values)] of what [Number.isFinite] keeps; [None] is [NaN]. *)
Definition earliest (deadlines : list (option Z)) : option Z :=
  foldr (λ d acc, match d, acc with
                  | Some x, Some y => Some (Z.min x y)
                  | Some x, None => Some x
                  | None, _ => acc
                  end) None deadlines.

Definition scheduledWakeDelayMs (nowMs : Z) (deadlines : list (option Z)) (recoveryIntervalMs : Z) : Z :=
  let recoveryLimit := Z.max 1000 (Z.min 2147483647 recoveryIntervalMs) in
  Z.max 100 (Z.min recoveryLimit (match earliest deadlines with
                                  | None => recoveryLimit
                                  | Some e => (e - nowMs)%Z
                                  end)).

(** ** The hooks *)

Inductive OutcomeStatus := o_dispatched | o_blocked | o_failed | o_uncertain.

(** [ScheduledDispatchOutcome] *)
Record ScheduledDispatchOutcome := mkOutcome {
  o_status : OutcomeStatus;
  o_blockerKind : option BlockerKind;
  o_lastAttemptedAgent : option jsstr;
  o_workSessionId : option jsstr;
  o_runId : option jsstr;
  o_dispatchId : option jsstr;
  o_remoteRunId : option jsstr;
  o_attemptNumber : option Z;
  o_executionReceipt : option json;
  o_reason : option jsstr;
  o_failureClass : option jsstr;
  o_probeResult : option json
}.

(** [options] *)
Record RuntimeOptions := mkOptions {
  hasDispatch : bool;
  hasReconcileDispatch : bool;
  hasReconcileCancellation : bool;
  schedulerInstanceId : jsstr;
  leaseMs : Z;
  dispatchConcurrency : option Z
}.

(** The [dispatch] hook of the server ([server/acp-runtime.ts]), from what [dispatchScheduledJob]
    answers: the blocker's kind and the agent last attempted are not passed on. *)
Definition server_outcome (dispatch : jsstr) (o : ScheduledDispatchOutcome) : ScheduledDispatchOutcome :=
  {| o_status := o_status o; o_blockerKind := None; o_lastAttemptedAgent := None;
     o_workSessionId := o_workSessionId o; o_runId := o_runId o; o_dispatchId := Some dispatch;
     o_remoteRunId := o_remoteRunId o; o_attemptNumber := o_attemptNumber o;
     o_executionReceipt := o_executionReceipt o; o_reason := o_reason o;
     o_failureClass := o_failureClass o; o_probeResult := o_probeResult o |}.

(** ** Calls that may throw *)

(** A call of the store: what it returns or throws, and the state. *)
Definition call {A} (op : store → res Error (A * store)) (s : store) : res Error A * store :=
  match op s with Ok (a, s') => (Ok a, s') | Err e => (Err e, s) end.

(** The continuation runs unless the call threw; what was done stays done. *)
Definition andThen {A B} (m : res Error A * store) (k : A → store → res Error B * store)
  : res Error B * store :=
  match m with (Ok a, s) => k a s | (Err e, s) => (Err e, s) end.

(** [error.message] of what the calls of the runtime throw. *)
Definition error_text (job attempt : jsstr) (e : Error) : jsstr :=
  match e with
  | claim_conflict => "Scheduled dispatch claim conflict for " +s job +s "."
  | job_disappeared => "Scheduled job disappeared during dispatch reconciliation: " +s job
  | release_conflict => "Scheduled dispatch release conflict for " +s job +s " attempt " +s attempt +s "."
  | completion_conflict =>
      "Scheduled dispatch completion conflict for " +s job +s " attempt " +s attempt +s "."
  | reconciliation_conflict =>
      "Scheduled dispatch reconciliation conflict for " +s job +s " attempt " +s attempt +s "."
  | unknown_job => "Unknown scheduled job: " +s job
  | not_confirmed => "Scheduled job cancellation is not confirmed for " +s job +s "."
  | evidence_conflict => "Scheduled cancellation evidence conflict for " +s job +s "."
  | transition_conflict =>
      "Scheduled job state transition conflict or illegal source status for " +s job +s "."
  | _ => []
  end.

(** ** Settling a due event *)

(** How [processDueEvent] ends: with [markCompleted], with [release] after a delay, or in its
    [catch]. *)
Inductive Verdict :=
| v_complete
| v_release (retryDelayMs : Z) (note : jsstr)
| v_throw (message : jsstr).

(** [OutboxClaim] of an event the outbox handed out. *)
Definition claim_of (e : DispatchOutbox.DispatchOutboxEvent) : DispatchOutbox.OutboxClaim :=
  DispatchOutbox.mkClaim (DispatchOutbox.id e) (or_empty (DispatchOutbox.claimedBy e))
    (or_empty (DispatchOutbox.claimToken e)).

(** [t] are the readings of the outbox call. *)
Definition settle (t : nat → Z) (e : DispatchOutbox.DispatchOutboxEvent) (v : Verdict) (s : store)
  : store :=
  let c := claim_of e in
  set_outbox
    (match v with
     | v_complete => DispatchOutbox.markCompleted (t 0) (t 1) c (outbox s)
     | v_release d note => DispatchOutbox.release (t 0) (t 1) c d (Some note) (outbox s)
     | v_throw m =>
         DispatchOutbox.markFailed (t 0) (t 1) (t 2) c (Redaction.redactedPreview m 500) 5000 (outbox s)
     end).2 s.

(** ** [processDueEvent], up to the dispatch hook *)

(** What the first half comes to: a verdict, or the call of the hook. *)
Inductive Start :=
| Settled (v : Verdict)
| Launching (job : Job) (c : DispatchClaim).

Section Runtime.
Context (sha256 : jsstr → jsstr) (options : RuntimeOptions).

(** The claim of the attempt the hook is called for. *)
Definition claim_due (now : Z) (uuid uuid' : jsstr) (job : Job) (s : store) : Start * store :=
  match call (claimDispatch now uuid uuid'
                (mkClaimInput (id job) (revision job) None (schedulerInstanceId options)
                   (Some (leaseMs options)))) s with
  | (Ok c, s') => (Launching job c, s')
  | (Err e, s') => (Settled (v_throw (error_text (id job) [] e)), s')
  end.

(** The job is due; [t] starts at the comparison with its retry window. *)
Definition launch_due (t : nat → Z) (uuid uuid' : jsstr) (job : Job) (s : store) : Start * store :=
  if match retryAt (retry job) with Some x => (t 0%nat <? x)%Z | None => false end then
    (Settled (v_release (default 0%Z (retryAt (retry job)) - t 1%nat)%Z
                (Redaction.redactedPreview
                   (default (js "scheduled dispatch is waiting for its bounded retry window")
                      (lastError job)) 500)), s)
  else if negb (hasDispatch options) then (Settled v_complete, s)
  else claim_due (t 2) uuid uuid' job s.

(** [t] are the readings before the retry window: the comparison with [runAt], the delay until it,
    and the clock of [markDue]; [t'] those after. *)
Definition start_event (t t' : nat → Z) (uuid uuid' : jsstr)
  (e : DispatchOutbox.DispatchOutboxEvent) (s : store) : Start * store :=
  match get (DispatchOutbox.aggregateId e) s with
  | None => (Settled v_complete, s)
  | Some job =>
      if negb (in_status [job_pending; job_due] job) then (Settled v_complete, s)
      else if in_status [job_pending] job then
        if (t 0%nat <? instant (runAt (request job)))%Z then
          (Settled (v_release (Z.max 250 (instant (runAt (request job)) - t 1%nat))
                      (js "scheduled job is not yet due")), s)
        else
          match markDue (t 2) (id job) s with
          | (None, s') => (Settled v_complete, s')
          | (Some _, s') => launch_due t' uuid uuid' (default job (get (id job) s')) s'
          end
      else launch_due t' uuid uuid' job s
  end.

(** A call of the dispatch hook that was not answered yet. *)
Record Flight := mkFlight {
  fl_event : DispatchOutbox.DispatchOutboxEvent;
  fl_job : Job;
  fl_claim : DispatchClaim
}.

(** The first half of [processDueEvent]; [w] are the readings that settle the event. *)
Definition processDueEvent (t t' w : nat → Z) (uuid uuid' : jsstr)
  (e : DispatchOutbox.DispatchOutboxEvent) (s : store) : option Flight * store :=
  match start_event t t' uuid uuid' e s with
  | (Launching job c, s') => (Some (mkFlight e job c), s')
  | (Settled v, s') => (None, settle w e v s')
  end.

(** ** [processDueEvent], after the dispatch hook answered *)

(** The cancellation of a job whose dispatch is known not to have been accepted; what it gives is
    whether that was the case. *)
Definition finalize_unlaunched (now : Z) (reason : option jsstr) (j : Job) (s : store)
  : res Error bool * store :=
  if in_status [job_cancellation_requested] j && truthy (requestId (cancellation j))
     && bool_decide (lastConfirmedState (cancellation j) = Some not_dispatched)
  then andThen (call (finalizeCancellation now (id j) (or_empty (requestId (cancellation j)))
                        not_dispatched reason) s) (λ _ s', (Ok true, s'))
  else (Ok false, s).

Definition outcome_acp (o : ScheduledDispatchOutcome) (dispatch : jsstr) : AcpIdentity :=
  mkAcp (o_runId o) (Some (default dispatch (o_dispatchId o))) (o_attemptNumber o) (o_remoteRunId o).

Definition dispatch_outcome (st : OutcomeStatus) : option DispatchOutcome :=
  match st with
  | o_dispatched => Some dispatched
  | o_uncertain => Some uncertain
  | o_failed => Some not_launched
  | o_blocked => None
  end.

Definition complete_input (f : Flight) (o : ScheduledDispatchOutcome) (d : DispatchOutcome)
  : CompleteInput :=
  {| co_jobId := id (fl_job f); co_dispatchAttemptId := c_attemptId (fl_claim f);
     co_expectedRevision := c_revision (fl_claim f); co_outcome := d;
     co_dispatcherInstanceId := schedulerInstanceId options;
     co_workSessionId := o_workSessionId o;
     co_acp := outcome_acp o (c_dispatchId (fl_claim f));
     co_executionReceipt := o_executionReceipt o; co_agentName := o_lastAttemptedAgent o;
     co_lastError := o_reason o; co_failureClass := o_failureClass o;
     co_probeResult := o_probeResult o |}.

Definition blocked_reason (o : ScheduledDispatchOutcome) : jsstr :=
  default (js "scheduled dispatch blocked before launch") (o_reason o).

(** [now] is read for the time of the retry. *)
Definition release_input (now random : Z) (f : Flight) (o : ScheduledDispatchOutcome) : ReleaseInput :=
  {| ri_jobId := id (fl_job f); ri_dispatchAttemptId := c_attemptId (fl_claim f);
     ri_expectedRevision := c_revision (fl_claim f);
     ri_dispatcherInstanceId := schedulerInstanceId options;
     ri_blocker :=
       Some {| b_kind := default temporary_dependency (o_blockerKind o);
               b_reason := blocked_reason o;
               b_nextEligibleAt :=
                 if bool_decide (o_blockerKind o = Some permanent_configuration) then None
                 else Some (now + scheduledDispatchRetryDelayMs (retryCount (retry (fl_job f)) + 1) random)%Z;
               b_lastAttemptedAgent := match o_lastAttemptedAgent o with
                                       | Some a => Some a
                                       | None => agentName (fl_job f)
                                       end;
               b_failureClass := o_failureClass o;
               b_probeResult := o_probeResult o |} |}.

(** ** Projection of the events of a session

    The log is the list of its durable rows. *)

Definition le_seq (a b : StoreEvent) : bool := (ev_seq a <=? ev_seq b)%Z.

(** [getEventsAfter] of [event-log.ts] *)
Definition getEventsAfter (log : list StoreEvent) (session : jsstr) (cursor l : Z) : list StoreEvent :=
  limit (Z.to_nat l)
    (order_by le_seq
       (select_where (λ e, bool_decide (sessionId e = session) && (cursor <? ev_seq e)%Z) log)).

(** The events of one page, up to one whose projection throws; the cursor after them. *)
Fixpoint project_page (t : StoreEvent → Readings) (page : list StoreEvent) (cursor : Z) (s : store)
  : res Error Z * store :=
  match page with
  | [] => (Ok cursor, s)
  | e :: rest =>
      match projectEvent sha256 (t e) e s with
      | (Ok _, s') => project_page t rest (Z.max cursor (ev_seq e)) s'
      | (Err x, s') => (Err x, s')
      end
  end.

Definition PAGE : Z := 250.

(** At most [fuel] pages; [projectSessionEvents] reads four. *)
Fixpoint project_pages (fuel : nat) (t : StoreEvent → Readings) (log : list StoreEvent)
  (session : jsstr) (cursor : Z) (s : store) : res Error unit * store :=
  match fuel with
  | 0 => (Ok tt, s)
  | S fuel =>
      let page := getEventsAfter log session cursor PAGE in
      match page with
      | [] => (Ok tt, s)
      | _ =>
          andThen (project_page t page cursor s) (λ cursor' s',
            if (Z.of_nat (length page) <? PAGE)%Z then (Ok tt, s')
            else project_pages fuel t log session cursor' s')
      end
  end.

Definition projectSessionEvents (t : StoreEvent → Readings) (log : list StoreEvent) (session : jsstr)
  (s : store) : res Error unit * store :=
  match getByWorkSessionId session s with
  | None => (Ok tt, s)
  | Some (job, _) =>
      if in_status [job_completed; job_failed; job_cancelled; job_blocked] job then (Ok tt, s)
      else project_pages 4 t log session (lifecycleEventCursor job) s
  end.

(** The projector: the sessions that wait, in the order of the set, and the one whose projection
    was started and not awaited yet, with what came of it. *)
Record Projector := mkProjector {
  pendingProjectionSessions : list jsstr;
  projecting : option (jsstr * bool)
}.

Definition set_add (k : jsstr) (l : list jsstr) : list jsstr :=
  if existsb (js_eqb k) l then l else l ++ [k].

(** One turn of the loop, up to its [await]. *)
Definition projection_turn (t : StoreEvent → Readings) (log : list StoreEvent) (p : Projector)
  (s : store) : Projector * store :=
  match pendingProjectionSessions p with
  | [] | [] :: _ => (mkProjector (pendingProjectionSessions p) None, s)
  | next :: rest =>
      match projectSessionEvents t log next s with
      | (r, s') => (mkProjector rest (Some (next, is_ok r)), s')
      end
  end.

(** After the [await]: a session whose projection failed waits for a later pass. *)
Definition projection_resume (t : StoreEvent → Readings) (log : list StoreEvent) (p : Projector)
  (s : store) : Projector * store :=
  match projecting p with
  | None => (p, s)
  | Some (session, false) =>
      (mkProjector (set_add session (pendingProjectionSessions p)) None, s)
  | Some (_, true) => projection_turn t log p s
  end.

Definition scheduleProjection (t : StoreEvent → Readings) (log : list StoreEvent)
  (session : option jsstr) (p : Projector) (s : store) : Projector * store :=
  if negb (truthy session) then (p, s)
  else
    let p' := mkProjector (set_add (or_empty session) (pendingProjectionSessions p)) (projecting p) in
    match projecting p with
    | Some _ => (p', s)
    | None => projection_turn t log p' s
    end.

(** What the answer of the hook does to the job, and the verdict on the event.  The readings are
    those of the retry time, of the store's calls, and of the delay of the release. *)
Definition apply_outcome (t : nat → Z) (random : Z) (f : Flight) (o : ScheduledDispatchOutcome)
  (s : store) : res Error Verdict * store :=
  match dispatch_outcome (o_status o) with
  | Some d =>
      andThen (call (completeDispatch (t 0) (complete_input f o d)) s) (λ completed s1,
      andThen (finalize_unlaunched (t 1) None completed s1) (λ _ s2, (Ok v_complete, s2)))
  | None =>
      andThen (call (releaseDispatch (t 1) (release_input (t 0) random f o)) s) (λ released s1,
      andThen (finalize_unlaunched (t 2) None released s1) (λ cancelled s2,
      if (cancelled : bool) || in_status [job_blocked] released then (Ok v_complete, s2)
      else (Ok (v_release
                  (Z.max 0 (default (t 3) (retryAt (retry released)) - t 4%nat))
                  (Redaction.redactedPreview (blocked_reason o) 500)), s2)))
  end.

(** A dispatch that was accepted, or may have been, has its session projected. *)
Definition projects (o : ScheduledDispatchOutcome) : option jsstr :=
  match o_status o with o_dispatched | o_uncertain => o_workSessionId o | _ => None end.

(** The second half of [processDueEvent]: [r] is the answer of the hook, or the message it threw;
    [w] are the readings that settle the event. *)
Definition processDueEvent_answered (t w : nat → Z) (tp : StoreEvent → Readings) (random : Z)
  (log : list StoreEvent) (f : Flight) (r : res jsstr ScheduledDispatchOutcome) (p : Projector)
  (s : store) : Projector * store :=
  match r with
  | Err m => (p, settle w (fl_event f) (v_throw m) s)
  | Ok o =>
      match apply_outcome t random f o s with
      | (Err e, s') =>
          (p, settle w (fl_event f)
                (v_throw (error_text (id (fl_job f)) (c_attemptId (fl_claim f)) e)) s')
      | (Ok v, s') =>
          let '(p', s2) := scheduleProjection tp log (projects o) p s' in
          (p', settle w (fl_event f) v s2)
      end
  end.

(** ** Passes over the jobs

    A pass reads a page of a hundred rows after its cursor; a page that is not full starts over. *)

Definition PASS : nat := 100.

(** The cursor after a page, of which [key] is the column it is ordered by. *)
Definition next_cursor {row} (key : row → jsstr) (rows : list row) : jsstr :=
  if Nat.ltb (length rows) PASS then [] else default [] (key <$> last rows).

Definition nonterminal_rows (cursor : jsstr) (s : store) : list Job :=
  job_page (in_status [job_pending; job_due; job_reconciling]) cursor 100 100 s.

(** [reconcileNonterminalJobs]; [fresh] gives the clock of the outbox and the id of an event. *)
Definition reconcileNonterminalJobs (now : Z) (fresh : jsstr → Z * jsstr) (cursor : jsstr) (s : store)
  : jsstr * store :=
  let rows := nonterminal_rows cursor s in
  (next_cursor id rows,
   foldl (λ s' row, rearm now (fresh (id row)).1 (fresh (id row)).2 row s') s rows).

(** The active time of the worker has reached the limit of the job. *)
Definition overdue (now : Z) (j : Job) (s : store) : bool :=
  match activeDispatchAttemptId j ≫= (λ k, find_attempt k s) with
  | None => false
  | Some a =>
      match executionActiveSince (execution a) with
      | None => false
      | Some since =>
          (maxRuntimeMs (request j)
           <=? Z.max 0 (activeRuntimeMs (execution a)) + Z.max 0 (now - since))%Z
      end
  end.

Definition deadline_request (job : jsstr) : jsstr := "runtime:" +s job +s ":deadline".
Definition deadline_reason : jsstr :=
  "Scheduled worker runtime exceeded maxRuntimeMs; cancellation requested.".

(** [reconcileRunningDeadlines]; what a request throws is dropped. *)
Definition reconcileRunningDeadlines (now : Z) (clock : jsstr → Z) (cursor : jsstr) (s : store)
  : jsstr * store :=
  let rows := job_page (in_status [job_running]) cursor 100 100 s in
  (next_cursor id rows,
   foldl (λ s' j, if overdue now j s
                  then (call (requestCancellation (clock (id j)) (id j) (revision j)
                                (deadline_request (id j)) (Some deadline_reason)) s').2
                  else s') s rows).

(** ** Interrupted dispatches *)

Inductive ReconcileStatus := rc_accepted | rc_unstarted | rc_unresolved | rc_operator | rc_terminal.

(** [ScheduledDispatchReconciliationOutcome] *)
Record ReconcileOutcome := mkReconcile {
  rc_status : ReconcileStatus;
  rc_workSessionId : option jsstr;
  rc_acp : AcpIdentity;
  rc_executionReceipt : option json;
  rc_terminalStatus : option FinalOutcome;
  rc_reason : option jsstr
}.

Definition open_statuses : list ScheduledJobStatus :=
  [job_dispatching; job_uncertain_dispatch; job_operator_intervention; job_cancellation_requested].

(** A time of the row was reached, or there is none. *)
Definition reached (now : Z) (at_ : option Z) : bool :=
  match at_ with Some x => (x <=? now)%Z | None => true end.

(** The row of the join is to be reconciled.  The lease of an attempt is never null. *)
Definition interrupted (now : Z) (cursor : jsstr) (j : Job) (a : Attempt) : bool :=
  in_status open_statuses j && is_open a
  && bool_decide (transportStatus a ∈ [tr_dispatching; tr_uncertain])
  && js_ltb cursor (a_id a)
  && (in_status [job_uncertain_dispatch] j || (leaseExpiresAt a <=? now)%Z)
  && reached now (nextReconcileAt (probe a)).

Definition le_attempt (x y : Job * Attempt) : bool := negb (js_ltb (a_id y.2) (a_id x.2)).

Definition interrupted_rows (now : Z) (cursor : jsstr) (s : store) : list (Job * Attempt) :=
  limit PASS
    (order_by le_attempt
       (omap (λ j, a ← activeDispatchAttemptId j ≫= (λ k, find_attempt k s);
                   if interrupted now cursor j a then Some (j, a) else None) (jobs s))).

Definition terminal_resolution (o : option FinalOutcome) : Resolution :=
  match o with
  | Some fin_completed => res_completed
  | Some fin_cancelled => res_cancelled
  | _ => res_failed
  end.

Definition or_else {A} (x y : option A) : option A := match x with Some _ => x | None => y end.

(** The identity a resolution takes from the answer; the dispatch id defaults to the attempt's. *)
Definition answered_acp (a : Attempt) (o : ReconcileOutcome) : AcpIdentity :=
  mkAcp (acpRunId (rc_acp o)) (Some (default (dispatchId a) (acpDispatchId (rc_acp o))))
    (acpAttemptNumber (rc_acp o)) (acpRemoteRunId (rc_acp o)).

Definition operator_reason : jsstr :=
  "Dispatch could not be authoritatively reconciled; operator action is required.".
Definition interrupted_reason : jsstr :=
  "Interrupted dispatch could not be resolved; reconciliation is required.".
Definition cancelled_reason : jsstr :=
  "Cancellation confirmed before the adapter accepted the dispatch.".

Definition resolve_input (job : jsstr) (a : Attempt) (current : Job) (o : ReconcileOutcome)
  : ResolveInput :=
  match rc_status o with
  | rc_accepted =>
      mkResolve job (a_id a) (revision current) res_accepted
        (or_else (rc_workSessionId o) (workSessionId current)) (answered_acp a o)
        (rc_executionReceipt o) (rc_reason o)
  | rc_terminal =>
      mkResolve job (a_id a) (revision current) (terminal_resolution (rc_terminalStatus o))
        (or_else (rc_workSessionId o) (workSessionId current)) (answered_acp a o)
        (rc_executionReceipt o) (rc_reason o)
  | rc_operator =>
      mkResolve job (a_id a) (revision current) res_operator_intervention
        (or_else (rc_workSessionId o) (workSessionId current))
        (mkAcp (acpRunId (rc_acp o)) None None None) (rc_executionReceipt o)
        (Some (default operator_reason (rc_reason o)))
  | rc_unstarted | rc_unresolved =>
      mkResolve job (a_id a) (revision current) res_unstarted None no_acp None (rc_reason o)
  end.

(** A dispatch that stays unresolved. *)
Definition to_uncertain (job : jsstr) (current : Job) (reason : jsstr) : TransitionInput :=
  mkTransition job (revision current) job_uncertain_dispatch [job_dispatching] None
    (Some (Some reason)).

(** The body of the loop after the answer; it gives the session to project. *)
Definition reconcile_answer (t : nat → Z) (random : Z) (uuid job : jsstr) (a : Attempt)
  (o : ReconcileOutcome) (s : store) : res Error (option jsstr) * store :=
  match rc_status o with
  | rc_unresolved =>
      let s1 := recordReconcileProbe (t 0) random job (a_id a)
                  (default (js "unresolved") (rc_reason o)) s in
      match get job s1 with
      | None => (Ok None, s1)
      | Some current =>
          if in_status [job_uncertain_dispatch] current then (Ok None, s1)
          else andThen (call (transition (t 1)
                                (to_uncertain job current (default interrupted_reason (rc_reason o))))
                          s1) (λ _ s2, (Ok None, s2))
      end
  | st =>
      match get job s with
      | None => (Ok None, s)
      | Some current =>
          if negb (in_status open_statuses current) then (Ok None, s)
          else
            andThen (call (resolveDispatch (t 0) (resolve_input job a current o)) s) (λ resolved s1,
              match st with
              | rc_accepted => (Ok (rc_workSessionId o), s1)
              | rc_unstarted =>
                  andThen (finalize_unlaunched (t 1) (Some cancelled_reason) resolved s1)
                    (λ cancelled s2,
                       if (cancelled : bool) then (Ok None, s2)
                       else (Ok None, enqueueDue (t 3) uuid job (revision resolved) (t 2)
                                        [(js "reconciledRetry", JBool true)] s2))
              | _ => (Ok None, s1)
              end)
      end
  end.

(** The [catch] of the loop. *)
Definition reconcile_failed (t : nat → Z) (random : Z) (job : jsstr) (a : Attempt) (m : jsstr)
  (s : store) : store :=
  let s1 := recordReconcileProbe (t 0) random job (a_id a) m s in
  match get job s1 with
  | None => s1
  | Some current =>
      if in_status [job_dispatching; job_operator_intervention] current
      then (call (transition (t 1)
                    (to_uncertain job current ("Dispatch reconciliation failed: " +s m))) s1).2
      else s1
  end.

(** One turn of [reconcileInterruptedDispatches] after the hook answered or threw; [random] and
    [random'] are the jitter of its probes. *)
Definition reconcile_interrupted (t t' : nat → Z) (tp : StoreEvent → Readings) (random random' : Z)
  (uuid : jsstr) (log : list StoreEvent) (job : jsstr) (a : Attempt)
  (r : res jsstr ReconcileOutcome) (p : Projector) (s : store) : Projector * store :=
  match r with
  | Err m => (p, reconcile_failed t' random' job a m s)
  | Ok o =>
      match reconcile_answer t random uuid job a o s with
      | (Ok session, s') => scheduleProjection tp log session p s'
      | (Err e, s') => (p, reconcile_failed t' random' job a (error_text job (a_id a) e) s')
      end
  end.

(** [reconcileJob], up to the hook: the attempt to ask about. *)
Definition reconcileJob (job : jsstr) (s : store) : option (Job * Attempt) :=
  j ← get job s;
  if negb (in_status [job_operator_intervention] j) || negb (truthy (activeDispatchAttemptId j))
     || negb (hasReconcileDispatch options) then None
  else a ← getAttempt (id j) (activeDispatchAttemptId j) s; Some (j, a).

Definition reviewer_resolution (o : ReconcileOutcome) : Resolution :=
  match rc_status o with
  | rc_accepted => res_accepted
  | rc_unstarted => res_unstarted
  | rc_terminal => terminal_resolution (rc_terminalStatus o)
  | _ => res_operator_intervention
  end.

(** ... and after it: the job it returns.  [job] and [a] are those it asked about. *)
Definition reconcileJob_answered (t : nat → Z) (tp : StoreEvent → Readings) (uuid : jsstr)
  (log : list StoreEvent) (job : Job) (a : Attempt) (o : ReconcileOutcome) (p : Projector) (s : store)
  : res Error (option Job) * (Projector * store) :=
  match get (id job) s with
  | None => (Ok None, (p, s))
  | Some current =>
      if negb (at_revision (revision job) current) || negb (is_active (a_id a) current)
         || negb (in_status [job_operator_intervention] current) then (Ok (Some current), (p, s))
      else
        let input :=
          mkResolve (id current) (a_id a) (revision current) (reviewer_resolution o)
            (or_else (rc_workSessionId o) (workSessionId current))
            (merge_acp (rc_acp o)
               (mkAcp (acpRunId (acp a)) (Some (default (dispatchId a) (acpDispatchId (acp a))))
                  (acpAttemptNumber (acp a)) (acpRemoteRunId (acp a))))
            (rc_executionReceipt o) (rc_reason o) in
        match resolveDispatch (t 0) input s with
        | Err e => (Err e, (p, s))
        | Ok (resolved, s1) =>
            let '(p', s2) :=
              match rc_status o with
              | rc_accepted => scheduleProjection tp log (rc_workSessionId o) p s1
              | _ => (p, s1)
              end in
            let s3 := match rc_status o with
                      | rc_unstarted =>
                          enqueueDue (t 2) uuid (id resolved) (revision resolved) (t 1)
                            [(js "reviewerReconciled", JBool true)] s2
                      | _ => s2
                      end in
            (Ok (Some resolved), (p', s3))
        end
  end.

(** ** Cancellations *)

Inductive CancellationAnswer := ca_waiting | ca_state (c : CancellationState).

(** [ScheduledCancellationReconciliationOutcome] *)
Record CancellationOutcome := mkCancellationOutcome {
  ca_answer : CancellationAnswer; ca_reason : option jsstr }.

Definition confirms (c : CancellationState) : bool :=
  match c with not_dispatched | remote_missing | worker_stopped | worker_cancelled => true | _ => false end.

(** One turn of [reconcileCancellations] up to the hook: whether it is called.  The row [j] is the
    one the page read. *)
Definition reconcile_cancellation (now now' : Z) (j : Job) (s : store) : bool * store :=
  if negb (truthy (requestId (cancellation j))) then (false, s)
  else
    let request := or_empty (requestId (cancellation j)) in
    if bool_decide (lastConfirmedState (cancellation j) = Some not_dispatched)
    then (false, (call (finalizeCancellation now (id j) request not_dispatched None) s).2)
    else if negb (hasReconcileCancellation options) then (false, s)
    else claimCancellationAttempt now' (id j) request 30000 s.

Definition cancellation_failure (m : jsstr) : jsstr := "Cancellation reconciliation failed: " +s m.

(** ... and after it. *)
Definition cancellation_answered (t : nat → Z) (j : Job) (r : res jsstr CancellationOutcome) (s : store)
  : store :=
  let request := or_empty (requestId (cancellation j)) in
  let body :=
    match r with
    | Err m => (Err m, s)
    | Ok o =>
        let st := match ca_answer o with ca_waiting => unknown | ca_state c => c end in
        let m :=
          andThen (call (recordCancellationEvidence (t 0) (id j) request st (ca_reason o)) s)
            (λ _ s1, if confirms st
                     then call (finalizeCancellation (t 1) (id j) request st
                                  (Some (default (js "Worker shutdown confirmed.") (ca_reason o)))) s1
                     else (Ok j, s1)) in
        match m with
        | (Ok _, s') => (Ok tt, s')
        | (Err e, s') => (Err (error_text (id j) [] e), s')
        end
    end in
  match body with
  | (Ok _, s') => s'
  | (Err m, s') =>
      (call (recordCancellationEvidence (t 2) (id j) request unknown (Some (cancellation_failure m))) s').2
  end.

(** ** The drain *)

(** The phases of [runDrain], in their order. *)
Inductive Phase :=
| reconcile_nonterminal_jobs | outbox_claim_reaping | reconcile_bounded_publications
| project_lifecycle_events | finalize_scheduled_reports | reconcile_scheduled_verifications
| execution_deadlines | reconcile_interrupted_dispatches | reconcile_cancellations
| claim_and_dispatch_due_jobs.

Definition phases : list Phase :=
  [reconcile_nonterminal_jobs; outbox_claim_reaping; reconcile_bounded_publications;
   project_lifecycle_events; finalize_scheduled_reports; reconcile_scheduled_verifications;
   execution_deadlines; reconcile_interrupted_dispatches; reconcile_cancellations;
   claim_and_dispatch_due_jobs].

Definition critical (p : Phase) : bool :=
  match p with
  | reconcile_nonterminal_jobs | outbox_claim_reaping | claim_and_dispatch_due_jobs => true
  | _ => false
  end.

(** [/^(?:SQLITE_(?:CORRUPT|NOTADB|IOERR|FULL|READONLY|CANTOPEN))/] on the code of an error *)
Definition globalDatabaseFailure (code : jsstr) : bool :=
  existsb (λ c : jsstr, startsWith code ("SQLITE_" +s c))
    [js "CORRUPT"; js "NOTADB"; js "IOERR"; js "FULL"; js "READONLY"; js "CANTOPEN"].

(** [runPhase]: whether the drain goes on, from the code of the error the phase threw. *)
Definition runPhase (p : Phase) (failure : option jsstr) : bool :=
  match failure with
  | None => true
  | Some code => negb (critical p) && negb (globalDatabaseFailure code)
  end.

(** The phases a drain runs, given what each would throw. *)
Fixpoint drain (fails : Phase → option jsstr) (ps : list Phase) : list Phase :=
  match ps with
  | [] => []
  | p :: rest => p :: (if runPhase p (fails p) then drain fails rest else [])
  end.

(** [dispatchConcurrency], between one and sixteen *)
Definition concurrency : nat :=
  Z.to_nat (Z.max 1 (Z.min 16 (default 4%Z (dispatchConcurrency options)))).

(** The claims of a drain; [t] gives the two readings and the id of each. *)
Fixpoint claim_events (n : nat) (t : nat → Z * Z * jsstr) (s : store)
  : list DispatchOutbox.DispatchOutboxEvent * store :=
  match n with
  | 0 => ([], s)
  | S n =>
      let '(now, now', uuid) := t n in
      match DispatchOutbox.claimNext now now' uuid (schedulerInstanceId options) (leaseMs options)
              (Some [due_event]) None (outbox s) with
      | (None, o) => ([], set_outbox o s)
      | (Some e, o) =>
          let '(es, s') := claim_events n t (set_outbox o s) in (e :: es, s')
      end
  end.

(** The times [scheduleNext] reads: the earliest availability and lease of the due events, and the
    earliest retry or reconciliation of a job. *)
Definition waits_reconcile : list ScheduledJobStatus :=
  [job_blocked; job_dispatching; job_uncertain_dispatch; job_operator_intervention;
   job_cancellation_requested].

Definition due_rows (s : store) : list DispatchOutbox.DispatchOutboxEvent :=
  select_where (λ r, (DispatchOutbox.eventType r =s due_event)
                     && (DispatchOutbox.is_status DispatchOutbox.pending r
                         || DispatchOutbox.is_status DispatchOutbox.claimed r))
    (DispatchOutbox.rows (outbox s)).

Definition retry_deadlines (s : store) : list (option Z) :=
  List.map (λ j, retryAt (retry j)) (select_where (in_status [job_due]) (jobs s))
  ++ omap (λ j, a ← activeDispatchAttemptId j ≫= (λ k, find_attempt k s);
                if in_status waits_reconcile j && is_open a
                then Some (nextReconcileAt (probe a)) else None) (jobs s).

Definition wake_deadlines (s : store) : list (option Z) :=
  [ earliest (List.map (λ r, Some (DispatchOutbox.availableAt r)) (due_rows s));
    earliest (List.map DispatchOutbox.claimExpiresAt (due_rows s));
    earliest (retry_deadlines s) ].

(** [scheduleNext]: the delay of the timer. *)
Definition scheduleNext (now : Z) (maxRecoveryIntervalMs : option Z) (s : store) : Z :=
  scheduledWakeDelayMs now (wake_deadlines s)
    (Z.max 1000 (Z.min 2147483647 (default 300000%Z maxRecoveryIntervalMs))).

End Runtime.
End ScheduledRuntime.
