(* ===== verification/ScheduledRuntimeFacts.v ===== *)
(** * The runtime as a client of the scheduled-job store

    What the calls of the store put into the outbox, and that every half and every pass of the
    runtime is a sequence of calls of the store that the store's own histories allow, and of due
    events of a revision the job has reached. *)

From S2P Require Import Prelude JsString Json Sql Outbox ScheduledLifecycle ScheduledJobs.
From S2P Require Import ScheduledPublications ScheduledLaunches ScheduledJobFacts ScheduledMoves.
From S2P Require Import ScheduledDispatch ScheduledRecords ScheduledRuntime.

Module ScheduledRuntimeFacts.
Import ScheduledLifecycle ScheduledJobs ScheduledPublications ScheduledLaunches ScheduledJobFacts
  ScheduledMoves ScheduledDispatch ScheduledRuntime.

(** The test a function begins with. *)
Ltac branch := match goal with |- context [if ?b then _ else _] => destruct b end.

(** ** What a call puts into the outbox *)

(** The random id of the event a call may enqueue. *)
Definition event_uuid (c : Call) : option jsstr :=
  match c with
  | Create _ _ _ uuid' _ => Some uuid'
  | RetryBlocked _ _ uuid _ _ => Some uuid
  | Rearm _ _ uuid _ => Some uuid
  | _ => None
  end.

(** The call is one of the store, not of the dispatcher of another part. *)
Definition of_store (c : Call) : bool := match c with Dispatcher _ => false | _ => true end.

(** No event has the id. *)
Definition fresh_event (uuid : jsstr) (s : store) : Prop :=
  by_key DispatchOutbox.id ("out_" +s uuid) (DispatchOutbox.rows (outbox s)) = None.

(** The outbox got at most the due event of a revision the job has in [s']. *)
Definition enqueued (uuid : option jsstr) (s s' : store) : Prop :=
  outbox s' = outbox s
  ∨ ∃ now u job available note j',
      uuid = Some u ∧ get job s' = Some j'
      ∧ outbox s' = outbox (enqueueDue now u job (revision j') available note s).

Section Calls.
Context (sha256 : jsstr → jsstr) (parse : ScheduledJobInput → option JobRequest).

(** An operation that wrote jobs and attempts left the outbox alone. *)
Ltac same_outbox Hc := cbv zeta in Hc; split_update Hc; res_inv Hc; reflexivity.

Lemma create_enqueues now now' u u' i s c s' :
  create sha256 parse now now' u u' i s = Ok (c, s') → enqueued (Some u') s s'.
Proof.
  intros Hc. assert (Hn : commitJob sha256 parse now now' u u' i s = Ok (c, s') → enqueued (Some u') s s').
  { clear. intros Hc. unfold commitJob in Hc. cbv zeta in Hc. res_inv Hc. right.
    do 6 eexists. split; [done|]. split; [done|].
    assert (Hr : revision c = 1%Z).
    { unfold get in H1. cbn in H1.
      rewrite (by_key_insert_eq id (new_job sha256 ("sched_" +s u) now i _)) in H1.
      - by injection H1 as <-.
      - by apply no_job_conflict. }
    rewrite Hr. reflexivity. }
  unfold create in Hc. destruct (in_clientMutationId i) as [[|]|]; auto.
  destruct (get_where _ _); [|auto]. res_inv Hc. by left.
Qed.

Lemma retry_enqueues now now' u job rev s c s' :
  store_ok s → retryBlockedJob now now' u job rev s = Ok (c, s') → enqueued (Some u) s s'.
Proof.
  intros H Hc. unfold retryBlockedJob in Hc. apply bind_Ok in Hc as (j & G%require_Ok & Hc).
  destruct (negb (in_status [job_blocked] j)); [res_inv Hc; by left|].
  apply bind_Ok in Hc as (? & _ & Hc). split_update Hc. res_inv Hc. guards. subst n. right.
  destruct (changed_one id _ _ _ job _ U (ok_jobs s H) ltac:(intros; by guards)) as (El & j0 & G0 & P0).
  exists now', u, job. do 2 eexists. exists c. split; [done|]. split; [done|].
  assert (Hr : revision c = (revision j + 1)%Z).
  { match goal with K : get job _ = Some c |- _ => rename K into Gc end.
    unfold get in Gc. cbn [jobs enqueueDue set_outbox set_jobs] in Gc. rewrite El in Gc.
    erewrite by_key_update_hit in Gc; [|done|exact G0|done].
    injection Gc as <-. reflexivity. }
  rewrite Hr. reflexivity.
Qed.

Lemma rearm_enqueues now now' u row s :
  store_ok s → row ∈ jobs s → enqueued (Some u) s (rearm now now' u row s).
Proof.
  intros H Hr. right. pose proof (get_in s row H Hr) as G.
  assert (Hs : ∃ j', get (id row) (rearm now now' u row s) = Some j' ∧ revision j' = revision row).
  { unfold rearm. cbv zeta. destruct (in_status [job_reconciling] row); [|by exists row].
    unfold get. cbn [jobs enqueueDue set_outbox set_jobs].
    rewrite by_key_update by done. unfold get in G. rewrite G. cbn.
    eexists. split; [done|]. by case_match. }
  destruct Hs as (j' & G' & Er).
  exists now', u, (id row). do 2 eexists. exists j'. split; [done|]. split; [done|].
  rewrite Er. unfold rearm. by destruct (in_status [job_reconciling] row).
Qed.

(** The other calls leave the outbox alone. *)
Lemma after_outbox {E A} (m : res E (A * store)) s :
  (∀ a s', m = Ok (a, s') → outbox s' = outbox s) → outbox (after m s) = outbox s.
Proof. intros H. destruct m as [[a s']|]; cbn; [by eapply H|done]. Qed.

Lemma after'_outbox {E} (m : res E store) s :
  (∀ s', m = Ok s' → outbox s' = outbox s) → outbox (after' m s) = outbox s.
Proof. intros H. destruct m; cbn; [by apply H|done]. Qed.

Lemma try_finalize_outbox now u o s : outbox (try_finalize sha256 now u o s) = outbox s.
Proof.
  unfold try_finalize. destruct (finalizeReportObligationWithinTransaction _ _ _ _ _) eqn:E; [|done].
  unfold finalizeReportObligationWithinTransaction, persistReportWithinTransaction in E.
  cbv zeta in E. destruct (f_status o), (f_reportText o); try (by injection E as <-);
    apply bind_Ok in E as ([r s1] & E1 & E); res_inv E; res_inv E1; reflexivity.
Qed.

Lemma project_outbox t ev s : outbox (projectEvent sha256 t ev s).2 = outbox s.
Proof.
  unfold projectEvent. destruct (_ || _ || _); [done|].
  assert (E : outbox (recordReportFinalizationObligation (obligation_now t) (obligation_uuid t) ev s)
              = outbox s).
  { unfold recordReportFinalizationObligation. destruct (report_obligation _ _ _ _); [|done].
    by case_match. }
  revert E. generalize (recordReportFinalizationObligation (obligation_now t) (obligation_uuid t) ev s).
  intros s' <-. destruct (session_job (sessionId ev) s') as [row|]; [|done].
  destruct (_ <=? _)%Z; [done|].
  destruct (project_row sha256 t ev row s') as [[j s2]|] eqn:E; [|done]. cbn.
  unfold project_row in E. cbv zeta in E. destruct (update_where _ _ _) as [js n].
  res_inv E. unfold project_end. repeat case_match; cbn; unfold project_report, project_attempt;
    repeat case_match; rewrite ?try_finalize_outbox; done.
Qed.

Lemma perform_same_outbox c s :
  event_uuid c = None → of_store c = true → outbox (perform sha256 parse c s) = outbox s.
Proof.
  intros Hu Hs. destruct c; try discriminate; cbn [perform];
    try (apply after_outbox; intros r s' Hc); try (apply after'_outbox; intros s' Hc).
  - unfold claimDispatch in Hc. same_outbox Hc.
  - unfold releaseDispatch in Hc. same_outbox Hc.
  - unfold completeDispatch in Hc. apply bind_Ok in Hc as (j & _ & Hc).
    apply bind_Ok in Hc as (? & _ & Hc). same_outbox Hc.
  - unfold resolveDispatch in Hc. same_outbox Hc.
  - unfold transition in Hc. apply bind_Ok in Hc as (? & _ & Hc). apply bind_Ok in Hc as (j & _ & Hc).
    same_outbox Hc.
  - unfold requestCancellation in Hc. apply bind_Ok in Hc as (j & _ & Hc).
    destruct (in_status _ j); [by res_inv Hc|].
    apply bind_Ok in Hc as (? & _ & Hc). apply bind_Ok in Hc as (? & _ & Hc). same_outbox Hc.
  - unfold claimCancellationAttempt. by destruct (update_where _ _ _).
  - unfold recordCancellationEvidence in Hc. same_outbox Hc.
  - unfold finalizeCancellation in Hc. same_outbox Hc.
  - unfold bindWorkSession in Hc. same_outbox Hc.
  - unfold bindAcpAttempt in Hc. apply bind_Ok in Hc as (? & _ & Hc).
    apply bind_Ok in Hc as (j & _ & Hc). apply bind_Ok in Hc as (a & _ & Hc).
    apply bind_Ok in Hc as (? & _ & Hc). same_outbox Hc.
  - unfold recordReconcileProbe. by destruct (get_where _ _).
  - unfold persistReport in Hc. apply bind_Ok in Hc as (? & _ & Hc).
    unfold persistReportWithinTransaction in Hc. by res_inv Hc.
  - unfold reconcilePendingReportFinalizations. generalize (limit (Z.to_nat (Z.max 1 (Z.min 250 l)))
      (order_by le_updated (select_where (λ f, bool_decide (f_status f = f_pending)) (finalizations s)))).
    generalize 0%Z. intros n os. change s with (n, s).2 at 2. generalize (n, s). clear n s.
    induction os as [|o os IH]; intros acc; cbn; [done|]. rewrite IH. apply try_finalize_outbox.
  - apply project_outbox.
  - unfold markDue. destruct (update_where _ _ _) as [js n]. by destruct (Nat.eqb n 1).
  - unfold recordPublicationIntent in Hc. unfold store_receipts in Hc. by res_inv Hc.
  - unfold recordPublicationReceipt in Hc. unfold store_receipts in Hc. by res_inv Hc.
  - unfold recordPublicationFailure. generalize (select_where
      (λ a, bool_decide (jobId a = job) && bool_decide (is_Some (publicationReceipts a))) (attempts s)).
    intros rows. induction rows as [|a rows IH]; cbn; [done|].
    destruct (find_index _ _); [|done]. unfold store_receipts. by destruct (update_where _ _ _).
Qed.

Lemma perform_enqueues c s :
  store_ok s → legal c s → of_store c = true →
  enqueued (event_uuid c) s (perform sha256 parse c s).
Proof.
  intros H Hl Hs. destruct (event_uuid c) as [u|] eqn:E; [|left; by apply perform_same_outbox].
  destruct c; try discriminate; injection E as ->; cbn [perform legal] in *.
  - destruct (create _ _ _ _ _ _ _ _) as [[r s']|] eqn:Hc; cbn; [|by left].
    by eapply create_enqueues.
  - destruct (retryBlockedJob _ _ _ _ _ _) as [[r s']|] eqn:Hc; cbn; [|by left].
    by eapply retry_enqueues.
  - by apply rearm_enqueues.
Qed.

(** ** Sequences of calls *)

(** A call of the store that enqueues nothing. *)
Inductive store_call : store → store → Prop :=
| call_store c s :
    legal c s → of_store c = true → event_uuid c = None → store_call s (perform sha256 parse c s).

Definition calls : store → store → Prop := steps store_call.

(** A call of the store, or the due event of the revision a job has; its id is new. *)
Inductive act : store → store → Prop :=
| act_call c s :
    legal c s → of_store c = true → (∀ u, event_uuid c = Some u → fresh_event u s) →
    act s (perform sha256 parse c s)
| act_due now u job j available note s :
    get job s = Some j → fresh_event u s →
    act s (enqueueDue now u job (revision j) available note s).

Definition acts : store → store → Prop := steps act.

Lemma calls_refl s : calls s s.
Proof. constructor. Qed.
Lemma calls_trans s1 s2 s3 : calls s1 s2 → calls s2 s3 → calls s1 s3.
Proof. apply steps_trans. Qed.
Lemma calls_one s s' : store_call s s' → calls s s'.
Proof. apply steps_one. Qed.
Lemma acts_trans s1 s2 s3 : acts s1 s2 → acts s2 s3 → acts s1 s3.
Proof. apply steps_trans. Qed.
Lemma acts_one s s' : act s s' → acts s s'.
Proof. apply steps_one. Qed.

Lemma calls_acts s s' : calls s s' → acts s s'.
Proof.
  induction 1 as [|s1 s2 s3 [c s Hl Hs Hu] _ IH]; [constructor|].
  eapply steps_cons; [|exact IH]. apply act_call; [done..|]. by rewrite Hu.
Qed.

Lemma calls_outbox s s' : calls s s' → outbox s' = outbox s.
Proof.
  induction 1 as [|s1 s2 s3 [c s Hl Hs Hu] _ IH]; [done|].
  rewrite IH. by apply perform_same_outbox.
Qed.

(** Every sequence of the runtime is a history of the store. *)
Lemma act_step s s' : act s s' → step sha256 parse s s'.
Proof.
  destruct 1 as [c s Hl _ _|now u job j available note s _ _]; [by exists c|].
  exists (Dispatcher (outbox (enqueueDue now u job (revision j) available note s))).
  split; [done|]. done.
Qed.

Lemma acts_history s s' : acts s s' → history sha256 parse s s'.
Proof. induction 1; [constructor|]. econstructor; eauto using act_step. Qed.

Lemma acts_ok s s' : acts s s' → store_ok s → store_ok s'.
Proof. intros H%acts_history. by apply (history_ok sha256 parse). Qed.

Lemma calls_ok s s' : calls s s' → store_ok s → store_ok s'.
Proof. intros H%calls_acts. by apply acts_ok. Qed.

Lemma acts_job k s s' j :
  acts s s' → store_ok s → get k s = Some j → ∃ j', get k s' = Some j' ∧ keeps j j'.
Proof.
  intros Ha%acts_history H G. destruct (history_job sha256 parse k s s' j Ha H G) as (j' & ? & ? & _).
  by exists j'.
Qed.

(** A call that may throw is a call. *)
Lemma call_after {A} (op : store → res Error (A * store)) s : (call op s).2 = after (op s) s.
Proof. unfold call, after. by destruct (op s) as [[a s']|]. Qed.

Lemma call_calls {A} c (op : store → res Error (A * store)) s :
  perform sha256 parse c s = after (op s) s →
  legal c s → of_store c = true → event_uuid c = None → calls s (call op s).2.
Proof. intros E Hl Hs Hu. rewrite call_after, <- E. by apply calls_one, call_store. Qed.

Lemma andThen_calls {A B} (m : res Error A * store) (k : A → store → res Error B * store) s :
  calls s m.2 → (∀ a, calls m.2 (k a m.2).2) → calls s (andThen m k).2.
Proof.
  destruct m as [[a|e] s1]; cbn; intros H Hk; [|done]. eapply calls_trans; [exact H|apply Hk].
Qed.

Lemma claim_calls now u u' i s :
  ci_dispatchAttemptId i = None → calls s (call (claimDispatch now u u' i) s).2.
Proof. intros E. apply (call_calls (Claim now u u' i)); cbn; [done| |done..]. by rewrite E. Qed.

Lemma release_calls now i s : calls s (call (releaseDispatch now i) s).2.
Proof. by apply (call_calls (Release now i)). Qed.

Lemma complete_calls now i s : calls s (call (completeDispatch now i) s).2.
Proof. by apply (call_calls (Complete now i)). Qed.

Lemma resolve_calls now i s : calls s (call (resolveDispatch now i) s).2.
Proof. by apply (call_calls (Resolve now i)). Qed.

Lemma uncertain_calls now job j m s : calls s (call (transition now (to_uncertain job j m)) s).2.
Proof. by apply (call_calls (Transition now (to_uncertain job j m))). Qed.

Lemma finalize_calls now job req st m s : calls s (call (finalizeCancellation now job req st m) s).2.
Proof. by apply (call_calls (FinalizeCancellation now job req st m)). Qed.

Lemma evidence_calls now job req st m s :
  calls s (call (recordCancellationEvidence now job req st m) s).2.
Proof. by apply (call_calls (RecordEvidence now job req st m)). Qed.

Lemma deadline_calls now job rev s :
  calls s (call (requestCancellation now job rev (deadline_request job) (Some deadline_reason)) s).2.
Proof.
  by apply (call_calls (RequestCancellation now job rev (deadline_request job) (Some deadline_reason))).
Qed.

Lemma probe_calls now random job k m s : calls s (recordReconcileProbe now random job k m s).
Proof. by apply calls_one, (call_store (RecordProbe now random job k m)). Qed.

Lemma due_calls now job s : calls s (markDue now job s).2.
Proof. by apply calls_one, (call_store (MarkDue now job)). Qed.

Lemma project_calls t ev s : calls s (projectEvent sha256 t ev s).2.
Proof. by apply calls_one, (call_store (ProjectEvent t ev)). Qed.

Lemma finalize_unlaunched_calls now m j s : calls s (finalize_unlaunched now m j s).2.
Proof.
  unfold finalize_unlaunched. destruct (_ && _); [|apply calls_refl].
  apply andThen_calls; [apply finalize_calls|intros; apply calls_refl].
Qed.

(** ** The halves and the passes of the runtime *)

Section Halves.
Context (options : RuntimeOptions).

Lemma claim_due_calls now u u' job s : calls s (claim_due options now u u' job s).2.
Proof.
  unfold claim_due.
  pose proof (claim_calls now u u'
    (mkClaimInput (id job) (revision job) None (schedulerInstanceId options) (Some (leaseMs options)))
    s eq_refl) as H.
  by destruct (call (claimDispatch _ _ _ _) s) as [[c|e] s'].
Qed.

Lemma launch_due_calls t u u' job s : calls s (launch_due options t u u' job s).2.
Proof.
  unfold launch_due. branch; [apply calls_refl|]. branch; [apply calls_refl|]. apply claim_due_calls.
Qed.

Lemma start_event_calls t t' u u' e s : calls s (start_event options t t' u u' e s).2.
Proof.
  unfold start_event. destruct (get _ s) as [job|]; [|apply calls_refl].
  branch; [apply calls_refl|]. branch; [|apply launch_due_calls].
  branch; [apply calls_refl|]. pose proof (due_calls (t 2) (id job) s) as Hd.
  destruct (markDue (t 2) (id job) s) as [[r|] s']; [|exact Hd].
  eapply calls_trans; [exact Hd|apply launch_due_calls].
Qed.

Lemma project_page_calls t page cursor s : calls s (project_page sha256 t page cursor s).2.
Proof.
  revert cursor s. induction page as [|e page IH]; intros cursor s; cbn [project_page]; [apply calls_refl|].
  pose proof (project_calls (t e) e s) as Hp. destruct (projectEvent sha256 (t e) e s) as [[j|x] s'];
    [|exact Hp]. eapply calls_trans; [exact Hp|apply IH].
Qed.

Lemma project_pages_calls fuel t log session cursor s :
  calls s (project_pages sha256 fuel t log session cursor s).2.
Proof.
  revert cursor s. induction fuel as [|fuel IH]; intros cursor s; cbn [project_pages]; [apply calls_refl|].
  destruct (getEventsAfter log session cursor PAGE) as [|e page]; [apply calls_refl|].
  apply andThen_calls; [apply project_page_calls|]. intros c. branch; [apply calls_refl|apply IH].
Qed.

Lemma session_events_calls t log session s :
  calls s (projectSessionEvents sha256 t log session s).2.
Proof.
  unfold projectSessionEvents. destruct (getByWorkSessionId session s) as [[job x]|];
    [|apply calls_refl]. branch; [apply calls_refl|apply project_pages_calls].
Qed.

Lemma projection_turn_calls t log p s : calls s (projection_turn sha256 t log p s).2.
Proof.
  unfold projection_turn. destruct (pendingProjectionSessions p) as [|[|c k] rest]; [apply calls_refl..|].
  pose proof (session_events_calls t log (c :: k) s) as H.
  by destruct (projectSessionEvents sha256 t log (c :: k) s).
Qed.

Lemma projection_resume_calls t log p s : calls s (projection_resume sha256 t log p s).2.
Proof.
  unfold projection_resume. destruct (projecting p) as [[session []]|]; [|apply calls_refl..].
  apply projection_turn_calls.
Qed.

Lemma schedule_calls t log session p s : calls s (scheduleProjection sha256 t log session p s).2.
Proof.
  unfold scheduleProjection. branch; [apply calls_refl|].
  destruct (projecting p); [apply calls_refl|apply projection_turn_calls].
Qed.

Lemma apply_outcome_calls t random f o s : calls s (apply_outcome options t random f o s).2.
Proof.
  unfold apply_outcome. destruct (dispatch_outcome (o_status o)) as [d|].
  - apply andThen_calls; [apply complete_calls|]. intros j.
    apply andThen_calls; [apply finalize_unlaunched_calls|intros; apply calls_refl].
  - apply andThen_calls; [apply release_calls|]. intros j.
    apply andThen_calls; [apply finalize_unlaunched_calls|]. intros b.
    branch; apply calls_refl.
Qed.

(** A pass that makes a call for some of the rows of its page *)
Lemma foldl_calls {row} (f : store → row → store) rows s :
  (∀ s' r, calls s' (f s' r)) → calls s (foldl f s rows).
Proof.
  intros H. revert s. induction rows as [|r rows IH]; intros s; cbn; [apply calls_refl|].
  eapply calls_trans; [apply H|apply IH].
Qed.

Lemma deadlines_calls now clock cursor s :
  calls s (reconcileRunningDeadlines now clock cursor s).2.
Proof.
  apply foldl_calls. intros s' j. branch; [apply deadline_calls|apply calls_refl].
Qed.

Lemma reconcile_failed_calls t random job a m s : calls s (reconcile_failed t random job a m s).
Proof.
  unfold reconcile_failed. eapply calls_trans; [apply (probe_calls (t 0) random job (a_id a) m)|].
  destruct (get job _) as [j|]; [|apply calls_refl]. branch; [|apply calls_refl].
  apply uncertain_calls.
Qed.

Lemma cancellation_start_calls now now' j s :
  calls s (reconcile_cancellation options now now' j s).2.
Proof.
  unfold reconcile_cancellation. branch; [apply calls_refl|].
  branch; [apply finalize_calls|]. branch; [apply calls_refl|].
  by apply calls_one, (call_store (ClaimCancellation now' (id j) (or_empty (requestId (cancellation j))) 30000)).
Qed.

Lemma cancellation_answered_calls t j r s : calls s (cancellation_answered t j r s).
Proof.
  unfold cancellation_answered. set (req := or_empty _).
  destruct r as [o|m]; [|apply evidence_calls].
  set (st := match ca_answer o with ca_waiting => unknown | ca_state c => c end).
  match goal with |- context [andThen ?m ?k] => set (x := andThen m k) end.
  assert (H : calls s x.2).
  { apply andThen_calls; [apply evidence_calls|]. intros j'.
    branch; [apply finalize_calls|apply calls_refl]. }
  destruct x as [[j'|e] s']; [exact H|]. eapply calls_trans; [exact H|apply evidence_calls].
Qed.

(** The turn of an interrupted dispatch: calls, and at the end perhaps the event of the retry. *)
Definition acts_once (uuid : jsstr) (s s' : store) : Prop :=
  ∃ s1, calls s s1 ∧ (s' = s1 ∨ ∃ now j job available note,
                        get job s1 = Some j ∧ s' = enqueueDue now uuid job (revision j) available note s1).

Lemma acts_once_calls u s s' : calls s s' → acts_once u s s'.
Proof. intros H. exists s'. auto. Qed.

Lemma acts_once_acts u s s' : fresh_event u s → acts_once u s s' → acts s s'.
Proof.
  intros Hf (s1 & Hc & [->|(now & j & job & available & note & G & ->)]); [by apply calls_acts|].
  eapply acts_trans; [by apply calls_acts|]. apply acts_one, act_due; [done|].
  unfold fresh_event. by rewrite (calls_outbox s s1 Hc).
Qed.

Lemma resolve_row now i s j s' :
  call (resolveDispatch now i) s = (Ok j, s') → get (re_jobId i) s' = Some j.
Proof.
  unfold call. destruct (resolveDispatch now i s) as [[j0 s0]|] eqn:E; [|done].
  intros [= -> ->]. unfold resolveDispatch in E. cbv zeta in E. split_update E. by res_inv E.
Qed.

Lemma reconcile_answer_acts t random u job a o s :
  acts_once u s (reconcile_answer t random u job a o s).2.
Proof.
  assert (Hr : ∀ st, (match st with rc_unresolved => False | _ => True end) →
    acts_once u s (match get job s with
      | None => (Ok None, s)
      | Some current =>
          if negb (in_status open_statuses current) then (Ok None, s)
          else
            andThen (call (resolveDispatch (t 0) (resolve_input job a current o)) s) (λ resolved s1,
              match st with
              | rc_accepted => (Ok (rc_workSessionId o), s1)
              | rc_unstarted =>
                  andThen (finalize_unlaunched (t 1) (Some cancelled_reason) resolved s1)
                    (λ cancelled s2,
                       if (cancelled : bool) then (Ok None, s2)
                       else (Ok None, enqueueDue (t 3) u job (revision resolved) (t 2)
                                        [(js "reconciledRetry", JBool true)] s2))
              | _ => (Ok None, s1)
              end)
      end : res Error (option jsstr) * store).2).
  { intros st _. destruct (get job s) as [j|] eqn:G; [|apply acts_once_calls, calls_refl].
    branch; [apply acts_once_calls, calls_refl|].
    pose proof (resolve_calls (t 0) (resolve_input job a j o) s) as Hc.
    destruct (call (resolveDispatch _ _) s) as [[r|e] s1] eqn:Er; cbn [andThen];
      [|by apply acts_once_calls].
    destruct st; try (by apply acts_once_calls).
    unfold finalize_unlaunched. branch.
    - pose proof (finalize_calls (t 1) (id r) (or_empty (requestId (cancellation r))) not_dispatched
        (Some cancelled_reason) s1) as Hf.
      destruct (call (finalizeCancellation _ _ _ _ _) s1) as [[x|e] s2]; cbn [andThen snd] in *;
        apply acts_once_calls; by eapply calls_trans.
    - cbn [andThen snd]. exists s1. split; [exact Hc|]. right.
      exists (t 3), r, job. do 2 eexists. split; [|done].
      apply resolve_row in Er. destruct o as [[] ]; exact Er. }
  unfold reconcile_answer.
  destruct (rc_status o); [exact (Hr rc_accepted I)|exact (Hr rc_unstarted I)| |exact (Hr rc_operator I)
    |exact (Hr rc_terminal I)]. clear Hr. apply acts_once_calls. eapply calls_trans; [apply (probe_calls (t 0) random job (a_id a))|].
  destruct (get job _) as [j|]; [|apply calls_refl]. branch; [apply calls_refl|].
  apply andThen_calls; [apply uncertain_calls|]. intros; apply calls_refl.
Qed.

Lemma acts_once_then u s s1 s2 : acts_once u s s1 → calls s1 s2 → fresh_event u s → acts s s2.
Proof. intros H1 H2 Hf. eapply acts_trans; [by eapply acts_once_acts|by apply calls_acts]. Qed.

Lemma interrupted_acts t t' tp random random' u log job a r p s :
  fresh_event u s →
  acts s (reconcile_interrupted sha256 t t' tp random random' u log job a r p s).2.
Proof.
  intros Hf. unfold reconcile_interrupted. destruct r as [o|m]; [|apply calls_acts, reconcile_failed_calls].
  pose proof (reconcile_answer_acts t random u job a o s) as Ha.
  destruct (reconcile_answer t random u job a o s) as [[session|e] s1];
    (eapply acts_once_then; [exact Ha| |exact Hf]); [apply schedule_calls|apply reconcile_failed_calls].
Qed.

Lemma reconcileJob_acts t tp u log job a o p s :
  fresh_event u s → acts s (reconcileJob_answered sha256 t tp u log job a o p s).2.2.
Proof.
  intros Hf. unfold reconcileJob_answered. destruct (get (id job) s) as [j|] eqn:G; [|constructor].
  branch; [constructor|]. set (i := mkResolve _ _ _ _ _ _ _ _).
  pose proof (resolve_calls (t 0) i s) as Hc. pose proof (resolve_row (t 0) i s) as Hr.
  unfold call in Hc, Hr. destruct (resolveDispatch (t 0) i s) as [[r s1]|e]; [|constructor].
  specialize (Hr r s1 eq_refl). cbn [snd] in Hc.
  destruct (rc_status o); cbn [fst snd];
    try (by apply calls_acts).
  - pose proof (schedule_calls tp log (rc_workSessionId o) p s1) as Hs.
    destruct (scheduleProjection _ _ _ _ _ _) as [p' s2]. apply calls_acts. by eapply calls_trans.
  - eapply acts_once_acts; [exact Hf|]. exists s1. split; [exact Hc|]. right.
    exists (t 2), r, (id r). do 2 eexists. split; [|done].
    by rewrite (proj2 (get_Some _ _ _ Hr)).
Qed.

(** *** The pass that arms the jobs *)

Lemma elem_of_job_page p after top l s j :
  j ∈ job_page p after top l s → j ∈ jobs s ∧ p j = true ∧ js_ltb after (id j) = true.
Proof.
  unfold job_page, limit. intros Hj%elem_of_take. destruct Hj as (n & Hj & _).
  apply list_elem_of_lookup_2, elem_of_order_by, elem_of_Lfilter in Hj as [Hj Hp]. by guards.
Qed.

Lemma job_page_keyed p after top l s : keyed id (jobs s) → keyed id (job_page p after top l s).
Proof.
  intros H. unfold job_page, limit, keyed.
  set (rows := order_by le_id _). set (n := Z.to_nat _).
  assert (Hk : NoDup (List.map id rows)).
  { unfold rows. rewrite (order_by_perm le_id). by apply (keyed_select id). }
  rewrite <- (take_drop n rows), List.map_app in Hk. by apply NoDup_app in Hk as [? _].
Qed.

(** No job the program reaches is being reconciled, so arming a row is enqueueing its event. *)
Lemma rearm_is_enqueue now now' u row s :
  store_ok s → row ∈ jobs s →
  rearm now now' u row s
  = enqueueDue now' u (id row) (revision row) (collates (runAt (request row)))
      [(js "reconciled", JBool true)] s.
Proof.
  intros H Hr. unfold rearm. destruct (in_status [job_reconciling] row) eqn:E; [|done].
  apply in_status_spec, list_elem_of_singleton in E. destruct (ok_row s H row Hr) as [_ Hs].
  by destruct (sound_reconciling _ Hs).
Qed.

(** The ids the pass gives its events. *)
Definition fresh_ids (fresh : jsstr → Z * jsstr) (s : store) : Prop :=
  (∀ k, fresh_event (fresh k).2 s) ∧ (∀ k k', (fresh k).2 = (fresh k').2 → k = k').

(** Enqueueing one event leaves other ids new. *)
Lemma enqueue_fresh now u job rev available note s u' :
  u' ≠ u → fresh_event u' s → fresh_event u' (enqueueDue now u job rev available note s).
Proof.
  intros Hne Hf. unfold fresh_event, enqueueDue, DispatchOutbox.enqueue. cbn.
  destruct (DispatchOutbox.getByLogical _ _ _ _); [done|]. cbn.
  rewrite by_key_insert_ne; [done|]. cbn. intros E%app_inv_head. done.
Qed.

(** The pass over rows of the store. *)
Lemma rearm_all now (fresh : jsstr → Z * jsstr) rows s :
  store_ok s → keyed id rows → (∀ r, r ∈ rows → r ∈ jobs s ∧ fresh_event (fresh (id r)).2 s) →
  (∀ k k', (fresh k).2 = (fresh k').2 → k = k') →
  let s' := foldl (λ s' row, rearm now (fresh (id row)).1 (fresh (id row)).2 row s') s rows in
  acts s s' ∧ jobs s' = jobs s ∧ attempts s' = attempts s.
Proof.
  intros H Hk Hrows Hinj. revert s H Hrows. induction rows as [|r rows IH]; intros s H Hrows; cbn;
    [split; [constructor|done]|].
  destruct (Hrows r ltac:(by left)) as [Hr Hf]. apply NoDup_cons in Hk as [Hnot Hk].
  rewrite (rearm_is_enqueue now (fresh (id r)).1 (fresh (id r)).2 r s H Hr).
  set (s1 := enqueueDue _ _ _ _ _ _ s).
  assert (Ha : act s s1) by (apply act_due; [by apply get_in|done]).
  destruct (IH Hk s1) as (IHa & IHj & IHt).
  - eapply acts_ok; [by apply acts_one|done].
  - intros r' Hr'. destruct (Hrows r' ltac:(by right)) as [Hj Hf']. split; [exact Hj|].
    apply enqueue_fresh; [|done]. intros E%Hinj. apply Hnot. rewrite <- E.
    apply elem_of_Lmap. by exists r'.
  - split; [eapply acts_trans; [by apply acts_one|exact IHa]|]. by rewrite IHj, IHt.
Qed.

Lemma nonterminal_acts now fresh cursor s :
  store_ok s → fresh_ids fresh s → acts s (reconcileNonterminalJobs now fresh cursor s).2.
Proof.
  intros H [Hf Hi]. apply rearm_all; [done| | |done].
  - by apply job_page_keyed, H.
  - intros r [? _]%elem_of_job_page. split; [done|apply Hf].
Qed.

End Halves.
End Calls.

End ScheduledRuntimeFacts.
