(* ===== verification/ScheduledSystem.v ===== *)
(** * The scheduler as a whole

    The job store, the dispatch outbox and the runtime together: any number of halves of due events
    in flight, the passes, the calls of other parts of the program and the outbox operations of
    other dispatchers, interleaved in any order, with crashes.  The invariant says that the due
    event of the revision of a waiting job is never settled; from it, no job is forgotten. *)

From S2P Require Import Prelude JsString Json Sql Outbox Paging ScheduledLifecycle ScheduledJobs.
From S2P Require Import ScheduledPublications ScheduledLaunches ScheduledJobFacts ScheduledMoves.
From S2P Require Import ScheduledDispatch ScheduledRecords ScheduledRuntime ScheduledRuntimeFacts.

Module ScheduledSystem.
Import ScheduledLifecycle ScheduledJobs ScheduledPublications ScheduledLaunches ScheduledJobFacts
  ScheduledMoves ScheduledDispatch ScheduledRuntime ScheduledRuntimeFacts.
Module DO := DispatchOutbox.

(** The database, the fencing tokens ever minted, the due events that were claimed and not
    processed yet, the calls of the dispatch hook that were not answered, and the projector. *)
Record system := mkSystem {
  base : store;
  tokens : list jsstr;
  held : list DO.DispatchOutboxEvent;
  flights : list Flight;
  projector : Projector
}.

Definition set_base (s : store) (w : system) : system :=
  mkSystem s (tokens w) (held w) (flights w) (projector w).
Definition set_projected (ps : Projector * store) (w : system) : system :=
  mkSystem ps.2 (tokens w) (held w) (flights w) ps.1.

(** The rows of the due events. *)
Definition is_due (r : DO.DispatchOutboxEvent) : Prop := DO.eventType r = due_event.
Definition due (s : store) (r : DO.DispatchOutboxEvent) : Prop :=
  r ∈ DO.rows (outbox s) ∧ is_due r.

(** The event waits for a dispatcher, or one has claimed it. *)
Definition live (r : DO.DispatchOutboxEvent) : Prop :=
  DO.status r = DO.pending ∨ DO.status r = DO.claimed.

(** A new attempt id. *)
Definition fresh_attempt (uuid : jsstr) (s : store) : Prop := find_attempt ("scha_" +s uuid) s = None.

Section System.
Context (sha256 : jsstr → jsstr) (parse : ScheduledJobInput → option JobRequest)
  (options : RuntimeOptions).

Inductive sys_step : system → system → Prop :=
(** Any call of the store, by the passes that are one call, the dispatch hook, the routes or a
    reviewer. *)
| sys_call c w :
    legal c (base w) → of_store c = true →
    (∀ u, event_uuid c = Some u → fresh_event u (base w)) →
    sys_step w (set_base (perform sha256 parse c (base w)) w)
(** Another dispatcher uses the outbox; the due events are not its. *)
| sys_outbox o ts w :
    DO.step (DO.mkWorld (outbox (base w)) (tokens w)) (DO.mkWorld o ts) →
    (∀ r, is_due r → r ∈ DO.rows o ↔ r ∈ DO.rows (outbox (base w))) →
    sys_step w (mkSystem (set_outbox o (base w)) ts (held w) (flights w) (projector w))
(** The phases of the drain. *)
| sys_nonterminal now fresh cursor w :
    fresh_ids fresh (base w) →
    sys_step w (set_base (reconcileNonterminalJobs now fresh cursor (base w)).2 w)
| sys_reap now w :
    sys_step w (set_base (set_outbox (DO.reapExpiredClaims now (leaseMs options) (outbox (base w))).2
                            (base w)) w)
| sys_deadlines now clock cursor w :
    sys_step w (set_base (reconcileRunningDeadlines now clock cursor (base w)).2 w)
| sys_interrupted t t' tp random random' u log job a r w :
    fresh_event u (base w) →
    sys_step w (set_projected (reconcile_interrupted sha256 t t' tp random random' u log job a r
                                 (projector w) (base w)) w)
| sys_reconcile_job t tp u log job a o w :
    fresh_event u (base w) →
    sys_step w (set_projected (reconcileJob_answered sha256 t tp u log job a o (projector w)
                                 (base w)).2 w)
| sys_cancellation now now' j w :
    sys_step w (set_base (reconcile_cancellation options now now' j (base w)).2 w)
| sys_cancellation_answered t j r w :
    sys_step w (set_base (cancellation_answered t j r (base w)) w)
| sys_project t log w :
    sys_step w (set_projected (projection_resume sha256 t log (projector w) (base w)) w)
| sys_session t log session w :
    sys_step w (set_base (projectSessionEvents sha256 t log session (base w)).2 w)
(** A drain claims a due event, processes one, and the hook answers. *)
| sys_claim now now' u w :
    ("clm_" +s u) ∉ tokens w →
    sys_step w
      (let '(e, o) := DO.claimNext now now' u (schedulerInstanceId options) (leaseMs options)
                        (Some [due_event]) None (outbox (base w)) in
       mkSystem (set_outbox o (base w)) (("clm_" +s u) :: tokens w) (option_list e ++ held w)
         (flights w) (projector w))
| sys_start t t' ws u u' e before after_ w :
    held w = before ++ e :: after_ → fresh_attempt u (base w) →
    sys_step w
      (let '(f, s) := processDueEvent options t t' ws u u' e (base w) in
       mkSystem s (tokens w) (before ++ after_) (option_list f ++ flights w) (projector w))
| sys_answered t ws tp random log f before after_ r w :
    flights w = before ++ f :: after_ →
    sys_step w
      (let '(p, s) := processDueEvent_answered sha256 options t ws tp random log f r (projector w)
                        (base w) in
       mkSystem s (tokens w) (held w) (before ++ after_) p)
(** The process is lost with what it was doing. *)
| sys_crash w :
    sys_step w (mkSystem (base w) (tokens w) [] [] (mkProjector [] None)).

(** ** The invariant *)

(** No waiting job is at the revision of the event. *)
Definition moot (s : store) (r : DO.DispatchOutboxEvent) : Prop :=
  ∀ j : Job, get (DO.aggregateId r) s = Some j → armed (status j) → revision j ≠ DO.aggregateRevision r.

(** The event has a row: its identity is that of the row. *)
Definition has_row (s : store) (e : DO.DispatchOutboxEvent) : Prop :=
  ∃ r, due s r ∧ DO.id r = DO.id e ∧ DO.logical r = DO.logical e.

Record sys_inv (w : system) : Prop := mkSysInv {
  si_store : store_ok (base w);
  si_outbox : DO.outbox_inv (DO.mkWorld (outbox (base w)) (tokens w));
  si_named : ∀ j, j ∈ jobs (base w) → id j ≠ [];
  si_bounded : ∀ r, due (base w) r →
    ∃ j, get (DO.aggregateId r) (base w) = Some j ∧ (DO.aggregateRevision r <= revision j)%Z;
  si_live : ∀ r, due (base w) r → live r ∨ moot (base w) r;
  si_held : ∀ e, e ∈ held w → has_row (base w) e;
  si_flights : ∀ f, f ∈ flights w →
    has_row (base w) (fl_event f)
    ∧ ∃ j, get (DO.aggregateId (fl_event f)) (base w) = Some j
           ∧ (DO.aggregateRevision (fl_event f) < revision j)%Z
}.

Lemma moot_logical (s : store) r e : DO.logical r = DO.logical e → moot s e → moot s r.
Proof. intros [= _ Ea Er]. unfold moot. by rewrite Ea, Er. Qed.

Lemma due_logical r e : DO.logical r = DO.logical e → is_due e → is_due r.
Proof. intros [= Et _ _]. unfold is_due. by rewrite Et. Qed.

(** ** The calls *)

(** A sequence of calls keeps what the invariant says of the jobs. *)
Record grows (s s' : store) : Prop := mkGrows {
  gr_job : ∀ k j, get k s = Some j → ∃ j', get k s' = Some j' ∧ keeps j j';
  gr_rows : ∀ r, r ∈ DO.rows (outbox s) → r ∈ DO.rows (outbox s');
  gr_new : ∀ r, due s' r →
    due s r ∨ live r ∧ ∃ j, get (DO.aggregateId r) s' = Some j ∧ DO.aggregateRevision r = revision j
}.

(** An event that was not new for the store before is settled only while its job has gone on. *)
Lemma moot_grows s s' r :
  grows s s' → (∃ j, get (DO.aggregateId r) s = Some j ∧ (DO.aggregateRevision r <= revision j)%Z) →
  moot s r → moot s' r.
Proof.
  intros Hg (j & G & Hb) Hm j' G' Ha E. destruct (gr_job _ _ Hg _ j G) as (j1 & G1 & K).
  assert (j1 = j') as -> by congruence.
  destruct (keeps_armed _ _ K Ha) as [Es|Hlt].
  - apply (Hm j G); [by rewrite <- Es|]. pose proof (keeps_revision _ _ K). lia.
  - lia.
Qed.
Lemma enqueueDue_rows now u job rev available note s :
  DO.rows (outbox (enqueueDue now u job rev available note s)) = DO.rows (outbox s)
  ∨ ∃ n, DO.rows (outbox (enqueueDue now u job rev available note s)) = DO.rows (outbox s) ++ [n]
         ∧ DO.id n = "out_" +s u ∧ DO.logical n = (due_event, job, rev) ∧ DO.status n = DO.pending.
Proof.
  unfold enqueueDue, DO.enqueue. cbn. destruct (DO.getByLogical _ _ _ _); [by left|].
  right. eexists. split; [done|]. done.
Qed.

(** What an act does to the outbox *)
Lemma act_outbox s s' :
  store_ok s → act sha256 parse s s' →
  outbox s' = outbox s
  ∨ ∃ now u job j' available note,
      fresh_event u s ∧ get job s' = Some j'
      ∧ outbox s' = outbox (enqueueDue now u job (revision j') available note s).
Proof.
  intros H Ha. revert H. destruct Ha as [c s0 Hl Hs Hf|now u job j available note s0 G Hf]; intros H.
  - destruct (perform_enqueues sha256 parse c s0 H Hl Hs) as [E|(now & u & job & av & note & j' & Eu & G & E)];
      [by left|]. right. exists now, u, job, j', av, note. auto.
  - right. exists now, u, job, j, available, note. auto.
Qed.

Lemma act_grows s s' : store_ok s → act sha256 parse s s' → grows s s'.
Proof.
  intros H Ha. constructor.
  - intros k j. apply (acts_job sha256 parse); [by apply acts_one|done].
  - destruct (act_outbox s s' H Ha) as [->|(now & u & job & j' & av & note & _ & _ & ->)]; [done|].
    destruct (enqueueDue_rows now u job (revision j') av note s) as [->|(n & -> & _)]; [done|].
    intros r Hr. apply elem_of_app. by left.
  - intros r [Hr Ht]. destruct (act_outbox s s' H Ha) as [E|(now & u & job & j' & av & note & _ & G & E)];
      rewrite E in Hr; [by left|].
    destruct (enqueueDue_rows now u job (revision j') av note s) as [En|(n & En & _ & El & Es)];
      rewrite En in Hr; [by left|].
    apply elem_of_app in Hr as [Hr|Hr%list_elem_of_singleton]; [by left|]. subst r. right.
    split; [by left|]. injection El as _ Ea Er. exists j'. by rewrite Ea, Er.
Qed.

Lemma has_row_grows s s' e : grows s s' → has_row s e → has_row s' e.
Proof.
  intros Hg (r & [Hr Ht] & He). exists r. split; [|done]. split; [|done]. by apply (gr_rows _ _ Hg).
Qed.

Lemma bounded_grows s s' r :
  grows s s' → (∃ j, get (DO.aggregateId r) s = Some j ∧ (DO.aggregateRevision r <= revision j)%Z) →
  ∃ j, get (DO.aggregateId r) s' = Some j ∧ (DO.aggregateRevision r <= revision j)%Z.
Proof.
  intros Hg (j & G & Hb). destruct (gr_job _ _ Hg _ j G) as (j' & G' & K).
  exists j'. split; [done|]. pose proof (keeps_revision _ _ K). lia.
Qed.

(** The invariant after the jobs and the due events grew. *)
Lemma inv_grows s' w :
  sys_inv w → store_ok s' → grows (base w) s' →
  DO.outbox_inv (DO.mkWorld (outbox s') (tokens w)) → (∀ j, j ∈ jobs s' → id j ≠ []) →
  sys_inv (set_base s' w).
Proof.
  intros HI H Hg Hb Hn. constructor; cbn; try done.
  - intros r Hr. destruct (gr_new _ _ Hg r Hr) as [Hd|(_ & j & G & E)].
    + apply (bounded_grows _ _ _ Hg), (si_bounded _ HI), Hd.
    + exists j. split; [done|]. lia.
  - intros r Hr. destruct (gr_new _ _ Hg r Hr) as [Hd|[Hl _]]; [|by left].
    destruct (si_live _ HI r Hd) as [Hl|Hm]; [by left|]. right.
    apply (moot_grows _ _ _ Hg); [by apply (si_bounded _ HI)|done].
  - intros e He. by apply (has_row_grows _ _ _ Hg), (si_held _ HI).
  - intros f Hf. destruct (si_flights _ HI f Hf) as [Hr (j & G & Hlt)].
    split; [by apply (has_row_grows _ _ _ Hg)|].
    destruct (gr_job _ _ Hg _ j G) as (j' & G' & K). exists j'. split; [done|].
    pose proof (keeps_revision _ _ K). lia.
Qed.

Lemma act_named s s' :
  store_ok s → act sha256 parse s s' → (∀ j, j ∈ jobs s → id j ≠ []) → ∀ j, j ∈ jobs s' → id j ≠ [].
Proof.
  intros H Ha Hn j Hj. revert H Hn Hj.
  destruct Ha as [c s0 Hl _ _|now u job j0 available note s0 G Hf]; intros H Hn Hj; [|by apply Hn].
  destruct (perform_moves sha256 parse c s0 H Hl) as [[k T]|(n & Ej & _ & _ & _ & _ & _ & Hne & _)].
  - assert (Hi : id j ∈ List.map id (jobs s0)).
    { rewrite <- (to_ids _ _ _ T). apply elem_of_Lmap. by exists j. }
    apply elem_of_Lmap in Hi as (j0 & -> & Hj0). by apply Hn.
  - rewrite Ej in Hj. apply elem_of_app in Hj as [Hj| ->%list_elem_of_singleton]; [by apply Hn|done].
Qed.

Lemma inv_act s' w : sys_inv w → act sha256 parse (base w) s' → sys_inv (set_base s' w).
Proof.
  intros HI Ha. pose proof (si_store _ HI) as H. apply inv_grows; [done| | | |].
  - eapply (acts_ok sha256 parse); [by apply acts_one|done].
  - by apply act_grows.
  - destruct (act_outbox _ _ H Ha) as [->|(now & u & job & j' & av & note & Hf & _ & ->)];
      [apply HI|]. by apply DO.inv_enqueue; [apply HI|].
  - apply (act_named _ _ H Ha), HI.
Qed.

Lemma inv_acts s' w : sys_inv w → acts sha256 parse (base w) s' → sys_inv (set_base s' w).
Proof.
  intros HI Ha. destruct w as [s ts h fl p]. cbn [base] in Ha.
  induction Ha as [s|s1 s2 s3 H12 _ IH]; [done|]. apply IH.
  exact (inv_act s2 (mkSystem s1 ts h fl p) HI H12).
Qed.

Lemma inv_calls s' w : sys_inv w → calls sha256 parse (base w) s' → sys_inv (set_base s' w).
Proof. intros HI Hc. by apply inv_acts; [|apply calls_acts]. Qed.

(** The projector and what is lost do not matter. *)
Lemma inv_forget h fl p w :
  sys_inv w → (∀ e, e ∈ h → e ∈ held w) → (∀ f, f ∈ fl → f ∈ flights w) →
  sys_inv (mkSystem (base w) (tokens w) h fl p).
Proof. intros [] Hh Hf. constructor; cbn; auto. Qed.

(** ** The outbox *)

(** The due events keep their identity, and a live one stays live unless it is moot. *)
Record box_moves (s : store) (o' : DO.outbox) : Prop := mkBoxMoves {
  bm_back : ∀ r', r' ∈ DO.rows o' → is_due r' →
    ∃ r, due s r ∧ DO.logical r = DO.logical r' ∧ (live r → live r' ∨ moot s r);
  bm_on : ∀ r, due s r → ∃ r', r' ∈ DO.rows o' ∧ DO.id r' = DO.id r ∧ DO.logical r' = DO.logical r
}.

Lemma inv_box o' ts w :
  sys_inv w → box_moves (base w) o' → DO.outbox_inv (DO.mkWorld o' ts) →
  sys_inv (mkSystem (set_outbox o' (base w)) ts (held w) (flights w) (projector w)).
Proof.
  intros HI [Hback Hon] Hb.
  assert (Hrow : ∀ e, has_row (base w) e → has_row (set_outbox o' (base w)) e).
  { intros e (r & Hr & Hi & El). destruct (Hon r Hr) as (r' & Hr' & Hi' & El').
    exists r'. split; [|split; congruence]. split; [exact Hr'|].
    apply (due_logical r' r El'). apply Hr. }
  constructor; cbn; try apply HI.
  - destruct (si_store _ HI). by constructor.
  - exact Hb.
  - intros r' [Hr Ht]. destruct (Hback r' Hr Ht) as (r & Hd & El & _).
    destruct (si_bounded _ HI r Hd) as (j & G & Hle). injection El as _ Ea Er.
    exists j. by rewrite <- Ea, <- Er.
  - intros r' [Hr Ht]. destruct (Hback r' Hr Ht) as (r & Hd & El & Hl).
    assert (Hm : moot (base w) r → moot (set_outbox o' (base w)) r').
    { intros Hm. exact (moot_logical (base w) r' r (eq_sym El) Hm). }
    destruct (si_live _ HI r Hd) as [Hlr|Hmr]; [|right; auto].
    destruct (Hl Hlr); [by left|right; auto].
  - intros e He. by apply Hrow, (si_held _ HI).
  - intros f Hf. destruct (si_flights _ HI f Hf) as [Hr Hj]. split; [by apply Hrow|exact Hj].
Qed.

Lemma box_update s p f o' :
  DO.rows o' = (update_where p f (DO.rows (outbox s))).1 →
  (∀ r, DO.id (f r) = DO.id r) → (∀ r, DO.logical (f r) = DO.logical r) →
  (∀ r, due s r → p r = true → live (f r) ∨ moot s r) → box_moves s o'.
Proof.
  intros E Hi Hl Hm. constructor.
  - intros r' Hr' Ht. rewrite E in Hr'. apply elem_of_update_where in Hr' as (r & Hr & ->).
    assert (El : DO.logical (if p r then f r else r) = DO.logical r) by (destruct (p r); auto).
    assert (Hd : due s r) by (split; [done|by apply (due_logical _ _ (eq_sym El))]).
    exists r. split; [done|]. split; [done|]. intros Hlr.
    destruct (p r) eqn:P; [by apply Hm|by left].
  - intros r [Hr _]. exists (if p r then f r else r). rewrite E.
    split; [apply elem_of_update_where; by exists r|]. by destruct (p r).
Qed.

Lemma box_same s o' : DO.rows o' = DO.rows (outbox s) → box_moves s o'.
Proof.
  intros E. apply (box_update s (λ _, false) (λ r, r)); try done. by rewrite update_where_none.
Qed.

Lemma fenced_moves now c f s :
  (∀ r, DO.id (f r) = DO.id r) → (∀ r, DO.logical (f r) = DO.logical r) →
  (∀ r, due s r → DO.id r = DO.eventId c → live (f r) ∨ moot s r) →
  box_moves s (DO.fenced_update now c f (outbox s)).2.
Proof.
  intros Hi Hl Hm. apply (box_update s (DO.fencedClaimWhere now c) f); [done|done|done|].
  intros r Hr Hp. apply DO.fencedClaimWhere_true in Hp as [? _]. auto.
Qed.

(** The rows of an event are moot when it is. *)
Lemma row_moot s l e r :
  DO.outbox_inv (DO.mkWorld (outbox s) l) → has_row s e → due s r → DO.id r = DO.id e →
  moot s e → moot s r.
Proof.
  intros Hb (r0 & [Hr0 _] & Hi0 & El) [Hr _] Hi. apply moot_logical.
  assert (r = r0) as -> by (eapply keyed_inj; [apply (DO.inv_id _ Hb)|done..|congruence]). done.
Qed.

(** Settling an event keeps the invariant when the event is moot or goes back to the queue. *)
Lemma inv_settle t e v w :
  sys_inv w → has_row (base w) e →
  (match v with v_release _ _ => True | _ => moot (base w) e end) →
  sys_inv (set_base (settle t e v (base w)) w).
Proof.
  intros HI Hrow Hm. pose proof (si_outbox _ HI) as Hb.
  set (c := claim_of e). assert (Hc : DO.eventId c = DO.id e) by done.
  destruct v as [|d note|m]; unfold settle; cbv zeta; fold c.
  - apply inv_box; [done| |].
    + apply fenced_moves; [done|done|]. intros r Hr Hi. right. by eapply row_moot.
    + exact (DO.inv_step _ _ (DO.step_complete (t 0) (t 1) c _) Hb).
  - apply inv_box; [done| |].
    + apply fenced_moves; [done|done|]. intros r _ _. left. by left.
    + exact (DO.inv_step _ _ (DO.step_release (t 0) (t 1) c d (Some note) _) Hb).
  - apply inv_box; [done| |].
    + unfold DO.markFailed. destruct (get_where _ _); [|by apply box_same].
      destruct (3 <=? _)%Z; apply fenced_moves; try done;
        intros r Hr Hi; right; by eapply row_moot.
    + exact (DO.inv_step _ _ (DO.step_fail (t 0) (t 1) (t 2) c _ 5000 _) Hb).
Qed.

(** ** The first half of a due event *)

(** The pending job of an event comes due. *)
Lemma markDue_due now k s j :
  store_ok s → get k s = Some j → status j = job_pending →
  ∃ j', markDue now k s = (Some (revision j + 1)%Z, (markDue now k s).2)
        ∧ get k (markDue now k s).2 = Some j' ∧ status j' = job_due
        ∧ revision j' = (revision j + 1)%Z ∧ id j' = id j ∧ retry j' = retry j.
Proof.
  intros H G Es. unfold markDue. destruct (update_where _ _ (jobs s)) as [js n] eqn:U.
  assert (P : has_id k j && in_status [job_pending] j = true).
  { apply andb_true_iff. split; [apply has_id_spec; by apply get_Some in G as [_ ?]|].
    apply in_status_spec. rewrite Es. by left. }
  assert (En : n = 1).
  { change n with (js, n).2. rewrite <- U. rewrite (changes_keyed id _ _ _ k).
    - unfold get in G. by rewrite G, P.
    - apply H.
    - intros r Hr. by guards. }
  subst n. cbn [Nat.eqb snd].
  assert (G' : get k (set_jobs js s) = Some
    (with_revision (revision j + 1)
       (with_status job_due (with_updated now
          (with_stamps (mkStamps (terminalAt (stamps j)) (blockedAt (stamps j))
                          (operatorInterventionAt (stamps j)) (Some now)) j))))).
  { unfold get. cbn [jobs set_jobs]. replace js with (js, 1).1 by done. rewrite <- U.
    etransitivity; [apply (by_key_update_hit id _ _ _ _ j); [done|exact G|exact P]|done]. }
  rewrite G'. eexists. by split_and!.
Qed.

(** The claim of a due job succeeds. *)
Lemma due_claim_succeeds now u u' i s j :
  store_ok s → get (ci_jobId i) s = Some j → status j = job_due →
  ci_expectedRevision i = revision j → ci_dispatchAttemptId i = None → fresh_attempt u s →
  ∃ c s' j', claimDispatch now u u' i s = Ok (c, s')
    ∧ c_jobId c = ci_jobId i ∧ c_attemptId c = "scha_" +s u ∧ c_revision c = (revision j + 1)%Z
    ∧ get (ci_jobId i) s' = Some j' ∧ status j' = job_dispatching
    ∧ revision j' = (revision j + 1)%Z ∧ activeDispatchAttemptId j' = Some ("scha_" +s u)
    ∧ find_attempt ("scha_" +s u) s' = Some (mkAttempt ("scha_" +s u) (ci_jobId i) ("disp_" +s u') now
        (ci_dispatcherInstanceId i) (now + default 60000%Z (ci_leaseMs i))%Z None tr_dispatching None
        no_acp no_execution no_diagnostics no_probe None).
Proof.
  intros H G Es Er Ei Hf. unfold claimDispatch. rewrite Ei. cbn [default from_option].
  destruct (update_where _ _ (jobs s)) as [js n] eqn:U.
  assert (P : has_id (ci_jobId i) j && at_revision (ci_expectedRevision i) j && in_status [job_due] j = true).
  { rewrite !andb_true_iff. split; [split|].
    - apply has_id_spec. by apply get_Some in G as [_ ?].
    - by apply at_revision_spec.
    - apply in_status_spec. rewrite Es. by left. }
  assert (En : n = 1).
  { change n with (js, n).2. rewrite <- U. rewrite (changes_keyed id _ _ _ (ci_jobId i)).
    - unfold get in G. by rewrite G, P.
    - apply H.
    - intros r Hr. by guards. }
  subst n. cbn [Nat.eqb ensure mbind res_bind].
  assert (Ex : existsb (λ a, bool_decide (a_id a = "scha_" +s u)) (attempts s) = false).
  { apply not_true_iff_false. intros (a & Ha & Ea%bool_decide_eq_true)%List.existsb_exists.
    unfold fresh_attempt, find_attempt in Hf. rewrite by_key_None in Hf. apply (Hf a); [|done].
    by apply list_elem_of_In. }
  rewrite Ex. cbn [reject mbind res_bind].
  set (s' := set_attempts _ _). set (j' := with_revision (ci_expectedRevision i + 1)
    (with_active (Some ("scha_" +s u)) (move job_dispatching (Some job_due) now j))).
  assert (G' : get (ci_jobId i) s' = Some j').
  { unfold get, s'. cbn [jobs set_jobs set_attempts]. replace js with (js, 1).1 by done.
    rewrite <- U. etransitivity; [apply (by_key_update_hit id _ _ _ _ j); [done|exact G|exact P]|done]. }
  rewrite G'. cbn [require mbind res_bind]. eexists _, s', j'. rewrite <- Er.
  split_and!; [done..|exact G'|done|done|done|].
  exact (by_key_insert_eq a_id (mkAttempt ("scha_" +s u) _ _ _ _ _ _ _ _ _ _ _ _ _) (attempts s) Hf).
Qed.

(** A launch: the hook is called for the attempt that the job is now on. *)
Definition launched (u : jsstr) (e : DO.DispatchOutboxEvent) (job : Job) (c : DispatchClaim) (s' : store)
  : Prop :=
  id job = DO.aggregateId e ∧ c_attemptId c = "scha_" +s u
  ∧ ∃ j', get (DO.aggregateId e) s' = Some j' ∧ status j' = job_dispatching
          ∧ activeDispatchAttemptId j' = Some (c_attemptId c) ∧ revision j' = c_revision c
          ∧ c_revision c = (revision job + 1)%Z ∧ (DO.aggregateRevision e < revision j')%Z
          ∧ ∃ a, find_attempt (c_attemptId c) s' = Some a ∧ jobId a = DO.aggregateId e
              ∧ dispatcherInstanceId a = schedulerInstanceId options ∧ completedAt a = None
              ∧ outcome a = None ∧ transportStatus a = tr_dispatching.

Lemma claim_due_launches now u u' e s j :
  store_ok s → get (DO.aggregateId e) s = Some j → status j = job_due → fresh_attempt u s →
  (DO.aggregateRevision e <= revision j)%Z →
  ∃ c s', claim_due options now u u' j s = (Launching j c, s') ∧ launched u e j c s'.
Proof.
  intros H G Es Hf Hb. pose proof (proj2 (get_Some _ _ _ G)) as Ei.
  destruct (due_claim_succeeds now u u'
    (mkClaimInput (id j) (revision j) None (schedulerInstanceId options) (Some (leaseMs options))) s j)
    as (c & s' & j' & Hc & _ & Ea & Er & G' & Es' & Er' & Eact & Ga); try done; [by rewrite <- Ei in G|].
  cbn [ci_jobId] in G'. exists c, s'. unfold claim_due, call. rewrite Hc.
  split; [done|]. split; [done|]. split; [done|]. exists j'. rewrite Ei in G'.
  split_and!; [done|done|by rewrite Ea|congruence|done|lia|].
  rewrite Ea. eexists. split; [exact Ga|]. by rewrite <- Ei.
Qed.

Lemma launch_due_spec t u u' e s j :
  hasDispatch options = true → store_ok s → get (DO.aggregateId e) s = Some j →
  status j = job_due → fresh_attempt u s → (DO.aggregateRevision e <= revision j)%Z →
  (∃ d note, launch_due options t u u' j s = (Settled (v_release d note), s))
  ∨ ∃ c s', launch_due options t u u' j s = (Launching j c, s') ∧ launched u e j c s'.
Proof.
  intros Ho H G Es Hf Hb. unfold launch_due. branch; [by left; do 2 eexists|]. rewrite Ho. right.
  by apply claim_due_launches.
Qed.

Definition start_ok (u : jsstr) (e : DO.DispatchOutboxEvent) (r : Start * store) : Prop :=
  match r with
  | (Settled (v_release _ _), _) => True
  | (Settled v, s') => v = v_complete ∧ moot s' e
  | (Launching job c, s') => launched u e job c s'
  end.

Lemma start_event_spec t t' u u' e s :
  hasDispatch options = true → store_ok s → fresh_attempt u s →
  (∃ j, get (DO.aggregateId e) s = Some j ∧ (DO.aggregateRevision e <= revision j)%Z) →
  start_ok u e (start_event options t t' u u' e s).
Proof.
  intros Ho H Hf (j & G & Hb). unfold start_event. rewrite G.
  destruct (in_status [job_pending; job_due] j) eqn:Ep; cbn [negb].
  2:{ split; [done|]. intros j' G' Ha. assert (j' = j) as -> by congruence.
      apply not_true_iff_false in Ep. destruct Ep. apply in_status_spec.
      destruct (status j); try done; set_solver. }
  destruct (in_status [job_pending] j) eqn:Eq.
  - apply in_status_spec, list_elem_of_singleton in Eq. branch; [done|].
    pose proof (proj2 (get_Some _ _ _ G)) as Ei. rewrite <- Ei in G.
    destruct (markDue_due (t 2) (id j) s j H G Eq) as (j' & Em & G' & Es & Er & Ei' & _).
    rewrite Em, G'. clear Em. cbn [from_option]. change (Datatypes.id j') with j'.
    assert (H' : store_ok (markDue (t 2) (id j) s).2) by (by apply (calls_ok sha256 parse _ _ (due_calls sha256 parse (t 2) (id j) s))).
    assert (Hf' : fresh_attempt u (markDue (t 2) (id j) s).2).
    { unfold markDue. destruct (update_where _ _ _) as [js n]. by destruct (Nat.eqb n 1). }
    destruct (launch_due_spec t' u u' e (markDue (t 2) (id j) s).2 j') as [(d & note & ->)|(c & s' & -> & Hl)];
      [done|done|by rewrite <- Ei|done|done|lia|done|exact Hl].
  - assert (Es : status j = job_due).
    { apply in_status_spec in Ep. apply not_true_iff_false in Eq. rewrite in_status_spec in Eq. set_solver. }
    destruct (launch_due_spec t' u u' e s j) as [(d & note & ->)|(c & s' & -> & Hl)]; done.
Qed.

(** *** The invariant along the two halves *)

Lemma has_row_bounded w e :
  sys_inv w → has_row (base w) e →
  ∃ j, get (DO.aggregateId e) (base w) = Some j ∧ (DO.aggregateRevision e <= revision j)%Z.
Proof.
  intros HI (r & Hr & _ & El). destruct (si_bounded _ HI r Hr) as (j & G & Hb).
  injection El as _ Ea Er. exists j. by rewrite <- Ea, <- Er.
Qed.

Lemma inv_start t t' ws u u' e w :
  hasDispatch options = true → sys_inv w → has_row (base w) e → fresh_attempt u (base w) →
  let '(f, s) := processDueEvent options t t' ws u u' e (base w) in
  sys_inv (mkSystem s (tokens w) (held w) (option_list f ++ flights w) (projector w)).
Proof.
  intros Ho HI Hrow Hf. pose proof (start_event_spec t t' u u' e (base w) Ho (si_store _ HI) Hf
    (has_row_bounded w e HI Hrow)) as Hs.
  pose proof (start_event_calls sha256 parse options t t' u u' e (base w)) as Hc.
  unfold processDueEvent. destruct (start_event options t t' u u' e (base w)) as [[v|job c] s']; cbn in Hc.
  - pose proof (inv_calls s' w HI Hc) as HI'.
    assert (Hrow' : has_row s' e).
    { destruct Hrow as (r & [Hr Ht] & He). exists r. split; [|done]. split; [|done].
      by rewrite (calls_outbox _ _ _ _ Hc). }
    cbn [option_list app]. refine (inv_settle ws e v (set_base s' w) HI' Hrow' _).
    destruct v; cbn in Hs |- *; tauto.
  - pose proof (inv_calls s' w HI Hc) as HI'. destruct Hs as (_ & _ & j' & G' & _ & _ & _ & _ & Hlt & _).
    destruct HI' as []. constructor; cbn; try done.
    intros f [->|Hin]%elem_of_cons; [|auto]. split; [|by exists j'].
    destruct Hrow as (r & [Hr Ht] & He). exists r. split; [|done]. split; [|done]. cbn.
    by rewrite (calls_outbox _ _ _ _ Hc).
Qed.

Lemma inv_answered t ws tp random log f r p w :
  sys_inv w → f ∈ flights w →
  sys_inv (set_base (processDueEvent_answered sha256 options t ws tp random log f r p (base w)).2 w).
Proof.
  intros HI Hf.
  assert (Hset : ∀ v s', calls sha256 parse (base w) s' → sys_inv (set_base (settle ws (fl_event f) v s') w)).
  { intros v s' Hc. pose proof (inv_calls s' w HI Hc) as HI'.
    destruct (si_flights _ HI' f Hf) as [Hrow (j & G & Hlt)].
    refine (inv_settle ws (fl_event f) v (set_base s' w) HI' Hrow _).
    assert (Hm : moot s' (fl_event f)).
    { intros j' G' _. cbn in G. assert (j' = j) as -> by congruence. lia. }
    by destruct v. }
  unfold processDueEvent_answered. destruct r as [o|m]; [|apply Hset, calls_refl].
  pose proof (apply_outcome_calls sha256 parse options t random f o (base w)) as Hc.
  destruct (apply_outcome options t random f o (base w)) as [[v|e] s']; [|by apply Hset].
  pose proof (schedule_calls sha256 parse tp log (projects o) p s') as Hs.
  destruct (scheduleProjection sha256 tp log (projects o) p s') as [p' s2]. apply Hset.
  by eapply calls_trans.
Qed.

(** *** Every step *)

Lemma inv_claims now now' u w :
  sys_inv w → ("clm_" +s u) ∉ tokens w →
  let '(e, o) := DO.claimNext now now' u (schedulerInstanceId options) (leaseMs options)
                   (Some [due_event]) None (outbox (base w)) in
  sys_inv (mkSystem (set_outbox o (base w)) (("clm_" +s u) :: tokens w) (option_list e ++ held w)
             (flights w) (projector w)).
Proof.
  intros HI Hu. pose proof (si_outbox _ HI) as Hb.
  pose proof (DO.inv_step _ _ (DO.step_claim now now' u (schedulerInstanceId options)
    (leaseMs options) (Some [due_event]) None (DO.mkWorld (outbox (base w)) (tokens w)) Hu) Hb) as Hb'. cbn [DO.box] in Hb'.
  set (ts := Some [due_event]) in *.
  destruct (first_by DO.le_available (select_where (DO.claimable now ts None) (DO.rows (outbox (base w)))))
    as [c|] eqn:Hc.
  - rewrite (DO.claimNext_rows _ _ _ _ _ _ _ _ c) in Hb' |- * by (done || apply (DO.inv_id _ Hb)).
    cbn [snd] in Hb'. destruct (DO.claim_candidate _ _ _ _ _ Hc) as (Hin & _ & _ & Ht & _).
    set (f := DO.set_claimed _ _ _ _) in *. set (o' := DO.set_rows _ _) in *.
    assert (Htc : is_due c).
    { unfold DO.inTypes, ts in Ht. cbn in Ht. rewrite orb_false_r in Ht. by apply js_eqb_eq in Ht. }
    assert (Hm : box_moves (base w) o').
    { apply (box_update _ (DO.has_id (DO.id c)) f); [done|done|done|]. intros r _ _. left. by right. }
    destruct (inv_box o' _ w HI Hm Hb') as []. constructor; cbn; try done.
    intros e [->|He]%elem_of_cons; [|auto].
    destruct (bm_on _ _ Hm c (conj Hin Htc)) as (r' & Hr' & Hi & El).
    exists r'. split; [|done]. split; [exact Hr'|]. by apply (due_logical r' c).
  - unfold DO.claimNext in Hb' |- *. rewrite Hc in Hb' |- *. cbn [snd] in Hb'.
    refine (inv_box (outbox (base w)) _ w HI _ Hb'). by apply box_same.
Qed.

Lemma inv_others o ts w :
  sys_inv w → DO.step (DO.mkWorld (outbox (base w)) (tokens w)) (DO.mkWorld o ts) →
  (∀ r, is_due r → r ∈ DO.rows o ↔ r ∈ DO.rows (outbox (base w))) →
  sys_inv (mkSystem (set_outbox o (base w)) ts (held w) (flights w) (projector w)).
Proof.
  intros HI Hs Hd. apply inv_box; [done| |exact (DO.inv_step _ _ Hs (si_outbox _ HI))]. constructor.
  - intros r Hr Ht. exists r. split; [split; [by apply Hd|done]|]. auto.
  - intros r [Hr Ht]. exists r. by rewrite Hd.
Qed.

Lemma inv_sys_step w w' :
  hasDispatch options = true → sys_step w w' → sys_inv w → sys_inv w'.
Proof.
  intros Ho Hs HI. destruct Hs.
  - by apply inv_act, act_call.
  - by apply inv_others.
  - apply inv_acts; [done|]. apply nonterminal_acts; [apply HI|done].
  - apply inv_box; [done| |].
    + apply (box_update _ (DO.reapable (now - leaseMs options)) DO.set_reaped); [|done|done|].
      * by rewrite DO.reap_rows by apply (DO.inv_id _ (si_outbox _ HI)).
      * intros r _ _. left. by left.
    + exact (DO.inv_step _ _ (DO.step_reap now (leaseMs options) _) (si_outbox _ HI)).
  - apply inv_calls; [done|apply deadlines_calls].
  - eapply (inv_forget (held w) (flights w) _ (set_base _ w)); [|done|done].
    apply inv_acts; [done|by apply interrupted_acts].
  - eapply (inv_forget (held w) (flights w) _ (set_base _ w)); [|done|done].
    apply inv_acts; [done|by apply reconcileJob_acts].
  - apply inv_calls; [done|apply cancellation_start_calls].
  - apply inv_calls; [done|apply cancellation_answered_calls].
  - eapply (inv_forget (held w) (flights w) _ (set_base _ w)); [|done|done].
    apply inv_calls; [done|apply projection_resume_calls].
  - apply inv_calls; [done|apply session_events_calls].
  - pose proof (inv_claims now now' u w HI H) as Hi.
    by destruct (DO.claimNext _ _ _ _ _ _ _ _) as [e o].
  - assert (He : e ∈ held w) by (rewrite H; apply elem_of_app; right; by left).
    pose proof (inv_start t t' ws u u' e w Ho HI (si_held _ HI e He) H0) as Hi.
    destruct (processDueEvent options t t' ws u u' e (base w)) as [f s].
    apply (inv_forget (before ++ after_) (option_list f ++ flights w) (projector w) _ Hi); [|done].
    intros x. cbn. rewrite H. set_solver.
  - assert (Hf : f ∈ flights w) by (rewrite H; apply elem_of_app; right; by left).
    pose proof (inv_answered t ws tp random log f r (projector w) w HI Hf) as Hi.
    destruct (processDueEvent_answered _ _ _ _ _ _ _ _ _ _ _) as [p s].
    apply (inv_forget (held w) (before ++ after_) p _ Hi); [done|].
    intros x. cbn. rewrite H. set_solver.
  - apply (inv_forget [] [] (mkProjector [] None) w HI); set_solver.
Qed.

(** The system before its first job: the database is empty of jobs, and of due events. *)
Definition sys_opening (w : system) : Prop :=
  base w = opening (outbox (base w)) ∧ held w = [] ∧ flights w = []
  ∧ DO.outbox_inv (DO.mkWorld (outbox (base w)) (tokens w)) ∧ (∀ r, ¬ due (base w) r).

Definition sys_reachable (w : system) : Prop := ∃ w0, sys_opening w0 ∧ steps sys_step w0 w.

Lemma sys_reachable_inv w : hasDispatch options = true → sys_reachable w → sys_inv w.
Proof.
  intros Ho (w0 & (Eb & Eh & Ef & Hb & Hd) & Hs).
  assert (H0 : sys_inv w0).
  { constructor; try done.
    - rewrite Eb. apply opening_ok.
    - rewrite Eb. set_solver.
    - intros r Hr. by destruct (Hd r).
    - intros r Hr. by destruct (Hd r).
    - rewrite Eh. set_solver.
    - rewrite Ef. set_solver. }
  revert H0. clear -Ho Hs. induction Hs as [|w1 w2 w3 H12 _ IH]; [done|].
  intros H. apply IH. by eapply inv_sys_step.
Qed.

End System.
End ScheduledSystem.
