(* ===== verification/ScheduledPromises.v ===== *)
(** * What the scheduler promises

    Over every interleaving of the scheduler with the rest of the program: no waiting job is
    forgotten, the dispatch hook is called exactly for a job whose time has come, every claimed
    event is settled, a launch that was blocked for a time is tried again within minutes, and the
    deadline of a running job requests its cancellation and nothing else. *)

From S2P Require Import Prelude JsString Json Sql Outbox Paging ScheduledLifecycle ScheduledJobs.
From S2P Require Import ScheduledPublications ScheduledLaunches ScheduledJobFacts ScheduledMoves.
From S2P Require Import ScheduledDispatch ScheduledRecords ScheduledRuntime ScheduledRuntimeFacts.
From S2P Require Import ScheduledSystem.

Module ScheduledPromises.
Import ScheduledLifecycle ScheduledJobs ScheduledPublications ScheduledLaunches ScheduledJobFacts
  ScheduledMoves ScheduledDispatch ScheduledRuntime ScheduledRuntimeFacts ScheduledSystem.

(** ** No waiting job is forgotten *)

(** [n] passes of [reconcileNonterminalJobs], one after the other. *)
Fixpoint sweep (n : nat) (now : nat → Z) (fresh : nat → jsstr → Z * jsstr) (cursor : jsstr)
  (s : store) : jsstr * store :=
  match n with
  | 0 => (cursor, s)
  | S n =>
      let '(cursor', s') := reconcileNonterminalJobs (now n) (fresh n) cursor s in
      sweep n now fresh cursor' s'
  end.

(** The ids the passes give their events are new. *)
Definition fresh_sweep (n : nat) (fresh : nat → jsstr → Z * jsstr) (s : store) : Prop :=
  (∀ i k, i < n → fresh_event (fresh i k).2 s)
  ∧ ∀ i i' k k', (fresh i k).2 = (fresh i' k').2 → i = i' ∧ k = k'.

Definition nonterminal : Job → bool := in_status [job_pending; job_due; job_reconciling].

(** The event of the revision of a job. *)
Definition event_of (j : Job) (s : store) (r : DO.DispatchOutboxEvent) : Prop :=
  due s r ∧ DO.aggregateId r = id j ∧ DO.aggregateRevision r = revision j.

(** The jobs of the pass, in the order of their ids. *)
Definition queue (s : store) : list Job := order_by le_id (select_where nonterminal (jobs s)).

Lemma queue_ascending s : keyed id (jobs s) → ascending id js_ltb (queue s).
Proof. intros Hk. apply (ordered_ascending id). by apply (keyed_select id). Qed.

(** The rows of the queue after a cursor. *)
Definition beyond (cursor : jsstr) (s : store) : list Job :=
  List.filter (λ j, js_ltb cursor (id j)) (queue s).

Lemma rows_of_queue cursor s : nonterminal_rows cursor s = take PASS (beyond cursor s).
Proof.
  unfold nonterminal_rows, job_page, beyond, queue, limit. f_equal.
  change le_id with (le_name id).
  rewrite <- (order_by_filter (le_name id) (le_name_total id) (le_name_trans id)). f_equal.
  unfold select_where. induction (jobs s) as [|j l IH]; [done|]. cbn.
  unfold nonterminal at 1. destruct (in_status _ j); cbn; [|exact IH].
  destruct (js_ltb cursor (id j)); [|exact IH]. by f_equal.
Qed.

Lemma beyond_next cursor s a x b :
  keyed id (jobs s) → beyond cursor s = a ++ x :: b → beyond (id x) s = b.
Proof.
  intros Hk E. pose proof (queue_ascending s Hk) as Ha.
  assert (Hx : js_ltb cursor (id x) = true).
  { assert (Hin : x ∈ beyond cursor s) by (rewrite E; apply elem_of_app; right; by left).
    by apply elem_of_Lfilter in Hin as [_ ?]. }
  assert (Hb : ascending id js_ltb (beyond cursor s)).
  { unfold beyond. clear -Ha. induction Ha as [|y l Hl IH HF]; [constructor|]. cbn.
    destruct (js_ltb cursor (id y)); [|done]. constructor; [done|].
    rewrite Forall_forall in HF |- *. intros z [Hz _]%elem_of_Lfilter. auto. }
  rewrite E in Hb.
  etransitivity; [|exact (after_split id js_ltb js_ltb_irrefl js_ltb_trans a x b Hb)].
  rewrite <- E. cbn. unfold beyond. rewrite Lfilter_twice. apply Lfilter_ext. intros y _.
  destruct (js_ltb (id x) (id y)) eqn:Ey; [|by rewrite andb_false_r].
  rewrite andb_true_r. symmetry. by eapply js_ltb_trans.
Qed.

(** Enqueueing leaves an event of the identity. *)
Lemma enqueueDue_event now u j available note s :
  ∃ r, event_of j (enqueueDue now u (id j) (revision j) available note s) r.
Proof.
  unfold event_of, due, is_due, enqueueDue, DO.enqueue. cbn.
  destruct (DO.getByLogical _ _ _ _) as [r|] eqn:El.
  - exists r. unfold DO.getByLogical in El. apply by_key_Some in El as [Hin E].
    injection E as E1 E2 E3. split; [by split|by split].
  - eexists. split; [split; [apply elem_of_app; right; by left|done]|by split].
Qed.

Section Promises.
Context (sha256 : jsstr → jsstr) (parse : ScheduledJobInput → option JobRequest)
  (options : RuntimeOptions).

Lemma acts_rows s s' r :
  acts sha256 parse s s' → store_ok s → r ∈ DO.rows (outbox s) → r ∈ DO.rows (outbox s').
Proof.
  induction 1 as [|s1 s2 s3 H12 _ IH]; [done|]. intros H Hr. apply IH.
  - eapply (acts_ok sha256 parse); [by apply acts_one|done].
  - by apply (gr_rows _ _ (act_grows sha256 parse s1 s2 H H12)).
Qed.

Lemma event_acts j s s' r :
  acts sha256 parse s s' → store_ok s → event_of j s r → event_of j s' r.
Proof. intros Ha H [[Hr Ht] E]. split; [|done]. split; [|done]. by eapply acts_rows. Qed.

(** The pass leaves an event of each of its rows. *)
Lemma pass_events now (fresh : jsstr → Z * jsstr) rows s j :
  store_ok s → keyed id rows → (∀ r, r ∈ rows → r ∈ jobs s ∧ fresh_event (fresh (id r)).2 s) →
  (∀ k k', (fresh k).2 = (fresh k').2 → k = k') → j ∈ rows →
  ∃ r, event_of j (foldl (λ s' row, rearm now (fresh (id row)).1 (fresh (id row)).2 row s') s rows) r.
Proof.
  intros H Hk Hrows Hinj Hj. revert s H Hrows. induction rows as [|x rows IH]; intros s H Hrows;
    [by apply not_elem_of_nil in Hj|]. cbn.
  destruct (Hrows x ltac:(by left)) as [Hx Hf]. apply NoDup_cons in Hk as [Hnot Hk].
  rewrite (rearm_is_enqueue now (fresh (id x)).1 (fresh (id x)).2 x s H Hx).
  set (s1 := enqueueDue _ _ _ _ _ _ s).
  assert (Ha : acts sha256 parse s s1) by (apply acts_one, act_due; [by apply get_in|done]).
  assert (Hrows1 : ∀ r, r ∈ rows → r ∈ jobs s1 ∧ fresh_event (fresh (id r)).2 s1).
  { intros r Hr. destruct (Hrows r ltac:(by right)) as [Hrj Hrf]. split; [exact Hrj|].
    apply enqueue_fresh; [|done]. intros E%Hinj. apply Hnot. rewrite <- E. apply elem_of_Lmap. by exists r. }
  assert (H1 : store_ok s1) by (by eapply acts_ok).
  apply elem_of_cons in Hj as [->|Hj]; [|by apply IH].
  destruct (enqueueDue_event (fresh (id x)).1 (fresh (id x)).2 x (collates (runAt (request x)))
    [(js "reconciled", JBool true)] s) as [r Hr].
  destruct (rearm_all sha256 parse now fresh rows s1 H1 Hk Hrows1 Hinj) as [Ha' _].
  exists r. by eapply event_acts.
Qed.

Lemma pass_fresh now fresh cursor s u :
  (∀ k, u ≠ (fresh k).2) → fresh_event u s →
  fresh_event u (reconcileNonterminalJobs now fresh cursor s).2.
Proof.
  intros Hne Hf. cbn. generalize (nonterminal_rows cursor s). intros rows. revert s Hf.
  induction rows as [|x rows IH]; intros s Hf; [done|]. cbn. apply IH. unfold rearm.
  apply enqueue_fresh; [done|]. by destruct (in_status _ x).
Qed.

(** What a pass does. *)
Lemma pass_spec now fresh cursor s :
  store_ok s → fresh_ids fresh s →
  let s' := (reconcileNonterminalJobs now fresh cursor s).2 in
  acts sha256 parse s s' ∧ store_ok s' ∧ jobs s' = jobs s
  ∧ ∀ j, j ∈ nonterminal_rows cursor s → ∃ r, event_of j s' r.
Proof.
  intros H [Hf Hi] s'.
  assert (Hk : keyed id (nonterminal_rows cursor s)) by apply job_page_keyed, H.
  assert (Hr : ∀ r, r ∈ nonterminal_rows cursor s → r ∈ jobs s ∧ fresh_event (fresh (id r)).2 s).
  { intros r [? _]%elem_of_job_page. split; [done|apply Hf]. }
  destruct (rearm_all sha256 parse now fresh _ s H Hk Hr Hi) as (Ha & Ej & _).
  split; [exact Ha|]. split; [by eapply acts_ok|]. split; [exact Ej|].
  intros j Hj. by apply pass_events.
Qed.

Lemma sweep_spec n now fresh cursor s :
  store_ok s → fresh_sweep n fresh s →
  let s' := (sweep n now fresh cursor s).2 in
  acts sha256 parse s s' ∧ jobs s' = jobs s
  ∧ (length (beyond cursor s) < n * PASS → ∀ j, j ∈ beyond cursor s → ∃ r, event_of j s' r).
Proof.
  revert cursor s. induction n as [|n IH]; intros cursor s H [Hf Hi]; [split; [constructor|split; [done|lia]]|].
  assert (Hids : fresh_ids (fresh n) s).
  { split; [intros k; apply Hf; lia|]. intros k k' E. by apply Hi in E as [_ ?]. }
  destruct (pass_spec (now n) (fresh n) cursor s H Hids) as (Ha & H1 & Ej & Hev).
  assert (Hf1 : fresh_sweep n fresh (reconcileNonterminalJobs (now n) (fresh n) cursor s).2).
  { split; [|done]. intros i k Hi'. apply pass_fresh; [|apply Hf; lia].
    intros k' E. apply Hi in E as [? _]. lia. }
  cbn [sweep]. pose proof (rows_of_queue cursor s) as Hrows.
  assert (Hcur : (reconcileNonterminalJobs (now n) (fresh n) cursor s).1
                 = next_cursor id (nonterminal_rows cursor s)) by done.
  destruct (reconcileNonterminalJobs (now n) (fresh n) cursor s) as [c1 s1]. cbn [fst snd] in *. subst c1.
  destruct (IH (next_cursor id (nonterminal_rows cursor s)) s1 H1 Hf1) as (Ha1 & Ej1 & Hcov).
  split; [by eapply acts_trans|]. split; [congruence|]. intros Hlen j Hj.
  rewrite <- (take_drop PASS (beyond cursor s)) in Hj. rewrite <- Hrows in Hj.
  apply elem_of_app in Hj as [Hj|Hj].
  { destruct (Hev j Hj) as [r Hr]. exists r. by eapply event_acts. }
  (* the page was full *)
  assert (Hfull : PASS < length (beyond cursor s)).
  { destruct (decide (PASS < length (beyond cursor s))) as [|Hge]; [done|].
    rewrite drop_ge in Hj by lia. by apply not_elem_of_nil in Hj. }
  assert (Hpage : length (nonterminal_rows cursor s) = PASS) by (rewrite Hrows, length_take; lia).
  destruct (last (nonterminal_rows cursor s)) as [x|] eqn:El.
  2:{ apply last_None in El. rewrite El in Hpage. done. }
  assert (Hc : next_cursor id (nonterminal_rows cursor s) = id x).
  { unfold next_cursor. by rewrite Hpage, El. }
  apply last_Some in El as [a Ea].
  assert (Eb : beyond (id x) s = drop PASS (beyond cursor s)).
  { apply (beyond_next cursor s a); [apply H|].
    rewrite <- (take_drop PASS (beyond cursor s)) at 1. rewrite <- Hrows, Ea.
    by rewrite <- app_assoc. }
  assert (Eb1 : beyond (id x) s1 = beyond (id x) s) by (unfold beyond, queue; by rewrite Ej).
  rewrite Hc in Hcov |- *. rewrite Eb1, Eb in Hcov. apply Hcov; [|done].
  rewrite length_drop. lia.
Qed.

(** C2: No waiting job is forgotten, once a dispatch hook is configured (without one the event of a
    due job is completed).  In every state the scheduler can reach, whatever it, the other parts of
    the program and other dispatchers were doing and wherever it crashed, the due event of the
    revision of a pending or due job is never settled: it waits or is claimed.  And as many passes
    of the startup reconciliation, from the first cursor, as cover the waiting jobs leave such an
    event for each of them. *)
Theorem no_job_forgotten w j n now fresh :
  hasDispatch options = true → sys_reachable sha256 parse options w →
  j ∈ jobs (base w) → armed (status j) = true →
  fresh_sweep n fresh (base w) → length (queue (base w)) < n * PASS →
  (∀ r, event_of j (base w) r → live r)
  ∧ ∃ r, event_of j (sweep n now fresh [] (base w)).2 r ∧ live r.
Proof.
  intros Ho Hr Hj Ha Hf Hlen. pose proof (sys_reachable_inv sha256 parse options w Ho Hr) as HI.
  pose proof (si_store _ HI) as H.
  assert (Hlive : ∀ w', sys_inv w' → j ∈ jobs (base w') → ∀ r, event_of j (base w') r → live r).
  { intros w' HI' Hj' r (Hd & Ea & Er). destruct (si_live _ HI' r Hd) as [|Hm]; [done|].
    destruct (Hm j); [|by rewrite Ha|by rewrite Er].
    rewrite Ea. apply get_in; [apply HI'|done]. }
  split; [by apply (Hlive w)|].
  destruct (sweep_spec n now fresh [] (base w) H Hf) as (Hacts & Ej & Hcov).
  assert (Hb : length (beyond [] (base w)) <= length (queue (base w))) by apply List.filter_length_le.
  destruct (Hcov ltac:(lia) j) as [r Hev].
  { apply elem_of_Lfilter. split.
    - apply elem_of_order_by, elem_of_Lfilter. split; [done|]. apply in_status_spec.
      destruct (status j); try done; set_solver.
    - pose proof (si_named _ HI j Hj). by destruct (id j). }
  exists r. split; [done|].
  apply (Hlive (set_base (sweep n now fresh [] (base w)).2 w)); [by eapply inv_acts| |done].
  cbn. by rewrite Ej.
Qed.

(** ** The hook is called for a job whose time has come *)

(** The job waits, its time came, and its retry window is over, by the two readings. *)
Definition its_turn (now now' : Z) (j : Job) : Prop :=
  armed (status j) = true
  ∧ (status j = job_pending → (instant (runAt (request j)) <= now)%Z)
  ∧ (∀ x, retryAt (retry j) = Some x → (x <= now')%Z).

Definition is_launch (r : Start) : bool := match r with Launching _ _ => true | Settled _ => false end.

Lemma claim_due_launch now u u' s j :
  store_ok s → get (id j) s = Some j → status j = job_due → fresh_attempt u s →
  is_launch (claim_due options now u u' j s).1 = true.
Proof.
  intros H G Es Hf.
  set (e := DO.mkEvent [] due_event (id j) (revision j) [] DO.pending None 0 0 0 None None None 0 None).
  by destruct (claim_due_launches options now u u' e s j H G Es Hf ltac:(done)) as (c & s' & -> & _).
Qed.

Lemma launch_due_turn t u u' s j :
  hasDispatch options = true → store_ok s → get (id j) s = Some j →
  status j = job_due → fresh_attempt u s →
  is_launch (launch_due options t u u' j s).1 = true ↔
    ∀ x, retryAt (retry j) = Some x → (x <= t 0%nat)%Z.
Proof.
  intros Ho H G Es Hf. unfold launch_due. rewrite Ho. cbn [negb].
  pose proof (claim_due_launch (t 2) u u' s j H G Es Hf) as Hl.
  destruct (retryAt (retry j)) as [x|]; [|naive_solver].
  destruct (Z.ltb_spec (t 0) x) as [Hlt|Hge]; cbn [is_launch fst].
  - split; [done|]. intros Hx. specialize (Hx x eq_refl). lia.
  - split; [|done]. intros _ y [= <-]. lia.
Qed.

Lemma start_event_turn t t' u u' e s j :
  hasDispatch options = true → store_ok s → get (DO.aggregateId e) s = Some j → fresh_attempt u s →
  is_launch (start_event options t t' u u' e s).1 = true ↔ its_turn (t 0) (t' 0) j.
Proof.
  intros Ho H G Hf. unfold start_event, its_turn. rewrite G.
  destruct (in_status [job_pending; job_due] j) eqn:Ep; cbn [negb].
  2:{ split; [done|]. intros [Ha _]. apply not_true_iff_false in Ep. destruct Ep.
      apply in_status_spec. destruct (status j); try done; set_solver. }
  assert (Ha : armed (status j) = true).
  { apply in_status_spec in Ep. destruct (status j); try done; set_solver. }
  destruct (in_status [job_pending] j) eqn:Eq.
  - apply in_status_spec, list_elem_of_singleton in Eq.
    destruct (Z.ltb_spec (t 0) (instant (runAt (request j)))); cbn [is_launch fst].
    { split; [done|]. intros (_ & Hi & _). specialize (Hi Eq). lia. }
    pose proof (proj2 (get_Some _ _ _ G)) as Ei. rewrite <- Ei in G.
    destruct (markDue_due (t 2) (id j) s j H G Eq) as (j' & Em & G' & Es & Er & Ei' & Et).
    rewrite Em, G'. clear Em. cbn [from_option]. change (Datatypes.id j') with j'.
    rewrite (launch_due_turn t' u u' (markDue (t 2) (id j) s).2 j'), Et; [naive_solver|done| |by rewrite Ei'|done|].
    + by apply (calls_ok sha256 parse _ _ (due_calls sha256 parse (t 2) (id j) s)).
    + unfold fresh_attempt, markDue. destruct (update_where _ _ _) as [js n]. by destruct (Nat.eqb n 1).
  - assert (Es : status j = job_due).
    { apply in_status_spec in Ep. apply not_true_iff_false in Eq. rewrite in_status_spec in Eq. set_solver. }
    rewrite (launch_due_turn t' u u' s j); [|done|done|by rewrite (proj2 (get_Some _ _ _ G))|done|done].
    rewrite Es. naive_solver.
Qed.

(** C30: The dispatch hook, when one is configured, is called exactly for a job whose time has
    come.  Processing a claimed due event, in any state the scheduler can reach, calls the hook if
    and only if the job of the event is pending and its time was reached, or is due, and no retry
    window is open; the call is for a new attempt, on which the job now is, dispatching, at a
    revision past the event's. *)
Theorem hook_called_exactly_when_due w e t t' ws u u' f s' :
  hasDispatch options = true → sys_reachable sha256 parse options w →
  e ∈ held w → fresh_attempt u (base w) →
  processDueEvent options t t' ws u u' e (base w) = (f, s') →
  (is_Some f ↔ ∃ j, get (DO.aggregateId e) (base w) = Some j ∧ its_turn (t 0) (t' 0) j)
  ∧ ∀ fl, f = Some fl → fl_event fl = e ∧ launched options u e (fl_job fl) (fl_claim fl) s'.
Proof.
  intros Ho Hr He Hf Hp. pose proof (sys_reachable_inv sha256 parse options w Ho Hr) as HI.
  pose proof (si_store _ HI) as H.
  destruct (has_row_bounded w e HI (si_held _ HI e He)) as (j & G & Hb).
  pose proof (start_event_turn t t' u u' e (base w) j Ho H G Hf) as Ht.
  pose proof (start_event_spec sha256 parse options t t' u u' e (base w) Ho H Hf ltac:(eauto)) as Hs.
  unfold processDueEvent in Hp. destruct (start_event options t t' u u' e (base w)) as [[v|job c] s1];
    injection Hp as <- <-; cbn [is_launch fst] in Ht.
  - split; [|done]. split; [by intros []|]. intros (j' & G' & Hj').
    assert (j' = j) as -> by congruence. by apply Ht in Hj'.
  - split; [|by intros fl [= <-]]. split; [intros _; exists j; split; [done|by apply Ht]|eauto].
Qed.

(** ** Every claimed event is settled *)

(** The claim is the event's, and its lease outlasts the readings. *)
Definition fenced (t : nat → Z) (e : DO.DispatchOutboxEvent) (s : store) : Prop :=
  ∃ r, DO.get (DO.id e) (outbox s) = Some r
       ∧ ∀ i, DO.fencedClaimWhere (t i) (claim_of e) r = true.

(** What a verdict makes of the row of the event. *)
Definition verdict_row (t : nat → Z) (v : Verdict) (r r' : DO.DispatchOutboxEvent) : Prop :=
  DO.claimToken r' = None ∧ DO.claimedBy r' = None ∧ DO.claimExpiresAt r' = None
  ∧ match v with
    | v_complete => DO.status r' = DO.completed
    | v_release d _ => DO.status r' = DO.pending ∧ DO.availableAt r' = (t 0%nat + d)%Z
    | v_throw _ =>
        DO.failureCount r' = (DO.failureCount r + 1)%Z
        ∧ DO.status r' = if (2 <=? DO.failureCount r)%Z then DO.dead_lettered else DO.pending
    end.

Lemma settle_row t e v s r :
  keyed DO.id (DO.rows (outbox s)) → DO.get (DO.id e) (outbox s) = Some r →
  (∀ i, DO.fencedClaimWhere (t i) (claim_of e) r = true) →
  ∃ r', DO.get (DO.id e) (outbox (settle t e v s)) = Some r' ∧ verdict_row t v r r'.
Proof.
  intros Hk G Hf. set (c := claim_of e).
  assert (Hid : DO.has_id (DO.eventId c) r = true).
  { apply bool_decide_eq_true. by apply by_key_Some in G as [_ ?]. }
  assert (Hu : ∀ i f, DO.fenced_update (t i) c f (outbox s)
    = (true, DO.set_rows (update_where (DO.has_id (DO.eventId c)) f (DO.rows (outbox s))).1 (outbox s))).
  { intros i f. rewrite DO.fenced_update_spec by done.
    change (by_key DO.id (DO.eventId c) (DO.rows (outbox s))) with (DO.get (DO.id e) (outbox s)).
    by rewrite G, Hf. }
  assert (Hg : ∀ f, (∀ x, DO.id (f x) = DO.id x) →
    DO.get (DO.id e) (DO.set_rows (update_where (DO.has_id (DO.eventId c)) f (DO.rows (outbox s))).1
                        (outbox s)) = Some (f r)).
  { intros f Hi. unfold DO.get. cbn. by apply (by_key_update_hit DO.id). }
  unfold settle. cbv zeta. fold c. destruct v as [|d note|m]; cbn [outbox set_outbox].
  - unfold DO.markCompleted. rewrite Hu. eexists. split; [by apply Hg|]. by split_and!.
  - unfold DO.release. rewrite Hu. eexists. split; [by apply Hg|]. by split_and!.
  - unfold DO.markFailed. assert (Hw : get_where (DO.fencedClaimWhere (t 0) c) (DO.rows (outbox s)) = Some r).
    { destruct (get_where _ _) as [r0|] eqn:E.
      - apply get_where_Some in E as [Hin Hr0]. apply DO.fencedClaimWhere_true in Hr0 as [Hi0 _].
        apply by_key_Some in G as [Hr Hi]. f_equal. eapply (keyed_inj DO.id); [done..|]. cbn in Hi0. congruence.
      - rewrite get_where_None in E. apply by_key_Some in G as [Hr _].
        pose proof (Hf 0) as H0. fold c in H0. pose proof (E r Hr) as H1. congruence. }
    rewrite Hw. replace (3 <=? DO.failureCount r + 1)%Z with (2 <=? DO.failureCount r)%Z
      by (destruct (Z.leb_spec 2 (DO.failureCount r)), (Z.leb_spec 3 (DO.failureCount r + 1)); lia).
    destruct (2 <=? DO.failureCount r)%Z eqn:E; rewrite Hu; (eexists; split; [by apply Hg|]);
      unfold verdict_row; rewrite E; by split_and!.
Qed.

(** The event was settled by some verdict. *)
Definition settled_event (t : nat → Z) (e : DO.DispatchOutboxEvent) (s s' : store) : Prop :=
  ∃ v r r', DO.get (DO.id e) (outbox s) = Some r ∧ DO.get (DO.id e) (outbox s') = Some r'
            ∧ verdict_row t v r r'.

Lemma settle_after t e v s s1 :
  keyed DO.id (DO.rows (outbox s)) → calls sha256 parse s s1 → fenced t e s →
  settled_event t e s (settle t e v s1).
Proof.
  intros Hk Hc (r & G & Hf). pose proof (calls_outbox sha256 parse s s1 Hc) as Eo.
  destruct (settle_row t e v s1 r) as (r' & G' & Hv); [by rewrite Eo|by rewrite Eo|done|].
  by exists v, r, r'.
Qed.

(** Every due event a scheduler claims is settled, on every path.  If the claim still holds at
    the readings that settle it, then processing the event either calls the dispatch hook or
    settles the event; and whatever the hook answers, or if it throws, or if the store refuses
    the answer, the second half settles the event: it is completed, or waits again from the time
    of its release, or has one more failure and waits or, at the third, is dead-lettered; its owner,
    token and lease are gone. *)
Theorem claims_are_settled w ws :
  hasDispatch options = true → sys_reachable sha256 parse options w →
  (∀ e t t' u u' s', e ∈ held w → fenced ws e (base w) →
     processDueEvent options t t' ws u u' e (base w) = (None, s') →
     settled_event ws e (base w) s')
  ∧ ∀ f t tp random log r, f ∈ flights w → fenced ws (fl_event f) (base w) →
      settled_event ws (fl_event f) (base w)
        (processDueEvent_answered sha256 options t ws tp random log f r (projector w) (base w)).2.
Proof.
  intros Ho Hr. pose proof (sys_reachable_inv sha256 parse options w Ho Hr) as HI.
  pose proof (DO.inv_id _ (si_outbox _ HI)) as Hk. cbn in Hk. split.
  - intros e t t' u u' s' _ Hf Hp. unfold processDueEvent in Hp.
    pose proof (start_event_calls sha256 parse options t t' u u' e (base w)) as Hc.
    destruct (start_event options t t' u u' e (base w)) as [[v|job c] s1]; [|discriminate Hp].
    injection Hp as <-. by apply settle_after.
  - intros f t tp random log r _ Hf. unfold processDueEvent_answered.
    destruct r as [o|m]; [|by apply settle_after; [|apply calls_refl|]].
    pose proof (apply_outcome_calls sha256 parse options t random f o (base w)) as Hc.
    destruct (apply_outcome options t random f o (base w)) as [[v|x] s1]; [|by apply settle_after].
    pose proof (schedule_calls sha256 parse tp log (projects o) (projector w) s1) as Hs.
    destruct (scheduleProjection sha256 tp log (projects o) (projector w) s1) as [p' s2].
    apply settle_after; [done| |done]. by eapply calls_trans.
Qed.

(** ** What the answer of the hook decides *)

(** The job of a launch, with its attempt. *)
Definition on_launch (k x : jsstr) (j : Job) (a : Attempt) (s : store) : Prop :=
  get k s = Some j ∧ find_attempt x s = Some a ∧ status j = job_dispatching
  ∧ activeDispatchAttemptId j = Some x ∧ jobId a = k
  ∧ dispatcherInstanceId a = schedulerInstanceId options ∧ completedAt a = None ∧ outcome a = None.

(** An update of the row of a key changes it alone. *)
Lemma update_one {row K} `{EqDecision K} (pk : row → K) p f (t : list row) k r :
  keyed pk t → by_key pk k t = Some r → p r = true → (∀ x, p x = true → pk x = k) →
  (∀ x, pk (f x) = pk x) →
  update_where p f t = ((update_where p f t).1, 1) ∧ by_key pk k (update_where p f t).1 = Some (f r).
Proof.
  intros Hk G P Hp Hf. split; [|by apply (by_key_update_hit pk)].
  rewrite (surjective_pairing (update_where p f t)) at 1. f_equal.
  by rewrite (changes_keyed pk p f t k Hk Hp), G, P.
Qed.

Lemma launch_idle k x j a s : on_launch k x j a s → cancellationPending j = false.
Proof. intros (_ & _ & Es & _). unfold cancellationPending, in_status. by rewrite Es. Qed.

(** The completion of a launch succeeds. *)
Lemma launch_completes now f o d j a s :
  store_ok s → on_launch (id (fl_job f)) (c_attemptId (fl_claim f)) j a s →
  revision j = c_revision (fl_claim f) →
  ∃ s' j', completeDispatch now (complete_input options f o d) s = Ok (j', s')
    ∧ get (id (fl_job f)) s' = Some j' ∧ status j' = completed_status d
    ∧ activeDispatchAttemptId j' = (if bool_decide (d = not_launched) then None
                                    else Some (c_attemptId (fl_claim f)))
    ∧ revision j' = (revision j + 1)%Z
    ∧ ∃ a', find_attempt (c_attemptId (fl_claim f)) s' = Some a'
            ∧ completedAt a' = (if bool_decide (d = not_launched) then Some now else None)
            ∧ transportStatus a' = match d with
                                   | dispatched => tr_accepted
                                   | uncertain => tr_uncertain
                                   | not_launched => tr_rejected
                                   end.
Proof.
  intros H Hl Er. pose proof (launch_idle _ _ _ _ _ Hl) as Hi.
  destruct Hl as (G & Ga & Es & Ea & Ej & Ed & Ec & Eo).
  pose proof (proj2 (get_Some _ _ _ G)) as Ei. pose proof (proj2 (by_key_Some _ _ _ _ Ga)) as Eai.
  unfold completeDispatch. cbv zeta. cbn [co_jobId co_dispatchAttemptId co_expectedRevision co_outcome
    co_dispatcherInstanceId complete_input]. rewrite G. cbn [require mbind res_bind].
  assert (Hadv : lifecycleAdvanced (c_attemptId (fl_claim f)) j = false).
  { unfold lifecycleAdvanced, in_status. rewrite Es. by rewrite andb_false_r. }
  assert (Hact : is_active (c_attemptId (fl_claim f)) j = true) by (by apply active_on_spec).
  assert (Hrev : at_revision (c_revision (fl_claim f)) j = true) by (by apply at_revision_spec).
  rewrite Hi, Hadv, Hact, Hrev. cbn [negb andb orb].
  assert (Hdis : in_status [job_dispatching] j = true) by (apply in_status_spec; rewrite Es; by left).
  rewrite Hdis. cbn [negb orb reject mbind res_bind].
  match goal with |- context [update_where ?p ?g (jobs s)] =>
    destruct (update_one id p g (jobs s) (id (fl_job f)) j (ok_jobs s H) G) as [Eu Gu] end.
  { rewrite !andb_true_iff. split; [split; [split|]|]; [by apply has_id_spec|by apply at_revision_spec| |done].
    apply in_status_spec. rewrite Es. by left. }
  { intros x P. by guards. }
  { intros x. cbn. by destruct (o_workSessionId o). }
  rewrite Eu. cbn beta iota.
  match goal with |- context [update_where ?p ?g (attempts s)] =>
    destruct (update_one a_id p g (attempts s) (c_attemptId (fl_claim f)) a (ok_attempts s H) Ga) as [Ev Gv] end.
  { rewrite !andb_true_iff. split; [split|]; [by apply attempt_is_spec|by apply bool_decide_eq_true|by apply is_open_spec]. }
  { intros x P. by guards. }
  { done. }
  rewrite Ev. cbn beta iota. cbn [Nat.eqb andb ensure mbind res_bind].
  match goal with |- context [require (get ?k ?st)] => set (s' := st) end.
  assert (G' : get (id (fl_job f)) s' = Some _) by exact Gu.
  rewrite G'. cbn [require mbind res_bind]. eexists _, _. split; [done|]. split; [exact G'|].
  assert (Hat : find_attempt (c_attemptId (fl_claim f)) s' = Some _) by exact Gv.
  unfold set_session_if. cbn [co_workSessionId complete_input].
  destruct d, (o_workSessionId o); split_and!; try done; (eexists; by split).
Qed.

(** ... and so does its release. *)
Lemma launch_releases now now' random f o j a s :
  store_ok s → on_launch (id (fl_job f)) (c_attemptId (fl_claim f)) j a s →
  ∃ s' j', releaseDispatch now (release_input options now' random f o) s = Ok (j', s')
    ∧ get (id (fl_job f)) s' = Some j' ∧ activeDispatchAttemptId j' = None
    ∧ revision j' = (revision j + 1)%Z
    ∧ (if bool_decide (o_blockerKind o = Some permanent_configuration)
       then status j' = job_blocked ∧ retryAt (retry j') = None
            ∧ retryCount (retry j') = retryCount (retry j)
       else status j' = job_due ∧ retryCount (retry j') = (retryCount (retry j) + 1)%Z
            ∧ retryAt (retry j')
              = Some (now' + scheduledDispatchRetryDelayMs (retryCount (retry (fl_job f)) + 1) random)%Z)
    ∧ ∃ a', find_attempt (c_attemptId (fl_claim f)) s' = Some a'
            ∧ completedAt a' = Some now ∧ transportStatus a' = tr_unstarted.
Proof.
  intros H Hl. pose proof (launch_idle _ _ _ _ _ Hl) as Hi.
  destruct Hl as (G & Ga & Es & Ea & Ej & Ed & Ec & Eo).
  pose proof (proj2 (get_Some _ _ _ G)) as Ei. pose proof (proj2 (by_key_Some _ _ _ _ Ga)) as Eai.
  unfold releaseDispatch. cbv zeta. cbn [ri_jobId ri_dispatchAttemptId ri_expectedRevision
    ri_dispatcherInstanceId release_input]. rewrite G, Hi.
  match goal with |- context [update_where ?p ?g (jobs s)] =>
    destruct (update_one id p g (jobs s) (id (fl_job f)) j (ok_jobs s H) G) as [Eu Gu] end.
  { rewrite !andb_true_iff. split; [split; [split|]|]; [by apply has_id_spec|by apply at_revision_spec| |by apply active_on_spec].
    apply in_status_spec. rewrite Es. by left. }
  { intros x P. by guards. }
  { done. }
  rewrite Eu. cbn beta iota.
  match goal with |- context [update_where ?p ?g (attempts s)] =>
    destruct (update_one a_id p g (attempts s) (c_attemptId (fl_claim f)) a (ok_attempts s H) Ga) as [Ev Gv] end.
  { rewrite !andb_true_iff. split; [split; [split|]|];
      [by apply attempt_is_spec|by apply bool_decide_eq_true|by apply is_open_spec|by apply bool_decide_eq_true]. }
  { intros x P. by guards. }
  { done. }
  rewrite Ev. cbn beta iota. cbn [Nat.eqb andb ensure mbind res_bind].
  match goal with |- context [require (get ?k ?st)] => set (s' := st) end.
  assert (G' : get (id (fl_job f)) s' = Some _) by exact Gu.
  assert (Hat : find_attempt (c_attemptId (fl_claim f)) s' = Some _) by exact Gv.
  rewrite G'. cbn [require mbind res_bind]. eexists _, _. split; [done|]. split; [exact G'|].
  split; [done|]. split; [done|]. split; [|eexists; by split].
  cbn. by destruct (o_blockerKind o) as [[]|].
Qed.

Lemma retry_delay_bounds n random : (1000 <= scheduledDispatchRetryDelayMs n random <= 300000)%Z.
Proof. unfold scheduledDispatchRetryDelayMs, TRANSIENT_DISPATCH_RETRY_MAX_MS. lia. Qed.

Lemma finalize_none now m j s :
  status j ≠ job_cancellation_requested → finalize_unlaunched now m j s = (Ok false, s).
Proof.
  intros Hs. unfold finalize_unlaunched. destruct (in_status _ j) eqn:E; [|done].
  by apply in_status_spec, list_elem_of_singleton in E.
Qed.

(** The job, its attempt and the verdict on the event after an answer. *)
Definition decided (t : nat → Z) (f : Flight) (o : ScheduledDispatchOutcome) (j' : Job) (a' : Attempt)
  (v : Verdict) : Prop :=
  let x := c_attemptId (fl_claim f) in
  match o_status o with
  | o_dispatched =>
      status j' = job_running ∧ activeDispatchAttemptId j' = Some x
      ∧ completedAt a' = None ∧ transportStatus a' = tr_accepted ∧ v = v_complete
  | o_uncertain =>
      status j' = job_uncertain_dispatch ∧ activeDispatchAttemptId j' = Some x
      ∧ completedAt a' = None ∧ transportStatus a' = tr_uncertain ∧ v = v_complete
  | o_failed =>
      status j' = job_failed ∧ activeDispatchAttemptId j' = None
      ∧ is_Some (completedAt a') ∧ transportStatus a' = tr_rejected ∧ v = v_complete
  | o_blocked =>
      activeDispatchAttemptId j' = None ∧ is_Some (completedAt a') ∧ transportStatus a' = tr_unstarted
      ∧ if bool_decide (o_blockerKind o = Some permanent_configuration)
        then status j' = job_blocked ∧ v = v_complete
        else status j' = job_due
             ∧ ∃ d note, (1000 <= d <= 300000)%Z ∧ retryAt (retry j') = Some (t 0%nat + d)%Z
                         ∧ v = v_release (Z.max 0 (t 0%nat + d - t 4%nat)) note
  end.

(** The answer of the dispatch hook decides the job.  A launch no one interfered with is never
    refused: a dispatched job runs on its attempt, an uncertain one is to be reconciled on it, a
    failed one is failed and its attempt closed, and for these the event is completed; a job that
    is blocked for good is blocked until a reviewer retries it; and a job that is blocked for a
    time is due again at once, its attempt closed as never started, with a retry window of one
    second to five minutes at whose end its event comes back. *)
Theorem answers_decide w t random f o j a :
  hasDispatch options = true → sys_reachable sha256 parse options w →
  on_launch (id (fl_job f)) (c_attemptId (fl_claim f)) j a (base w) →
  revision j = c_revision (fl_claim f) →
  ∃ v s' j' a', apply_outcome options t random f o (base w) = (Ok v, s')
    ∧ get (id (fl_job f)) s' = Some j' ∧ revision j' = (revision j + 1)%Z
    ∧ find_attempt (c_attemptId (fl_claim f)) s' = Some a' ∧ decided t f o j' a' v.
Proof.
  intros Ho Hr Hl Er. pose proof (si_store _ (sys_reachable_inv sha256 parse options w Ho Hr)) as H.
  assert (Hdone : ∀ d, dispatch_outcome (o_status o) = Some d →
    ∃ s' j' a', apply_outcome options t random f o (base w) = (Ok v_complete, s')
      ∧ get (id (fl_job f)) s' = Some j' ∧ revision j' = (revision j + 1)%Z
      ∧ find_attempt (c_attemptId (fl_claim f)) s' = Some a' ∧ status j' = completed_status d
      ∧ activeDispatchAttemptId j' = (if bool_decide (d = not_launched) then None
                                      else Some (c_attemptId (fl_claim f)))
      ∧ completedAt a' = (if bool_decide (d = not_launched) then Some (t 0) else None)
      ∧ transportStatus a' = match d with
                             | dispatched => tr_accepted
                             | uncertain => tr_uncertain
                             | not_launched => tr_rejected
                             end).
  { intros d Ed. destruct (launch_completes (t 0) f o d j a (base w) H Hl Er)
      as (s' & j' & Hc & G & Es & Ea & Erev & a' & Ga & Eca & Et).
    exists s', j', a'. unfold apply_outcome, call. rewrite Ed, Hc. cbn [andThen].
    rewrite finalize_none by (rewrite Es; by destruct d). by split_and!. }
  unfold decided. destruct (o_status o) eqn:Eo.
  2:{ destruct (launch_releases (t 1) (t 0) random f o j a (base w) H Hl)
        as (s' & j' & Hc & G & Ea & Erev & Hk & a' & Ga & Eca & Et).
      pose proof (retry_delay_bounds (retryCount (retry (fl_job f)) + 1) random) as Hd.
      unfold apply_outcome, call. rewrite Eo. cbn [dispatch_outcome]. rewrite Hc. cbn [andThen].
      case_bool_decide; destruct Hk as (Es & Ek).
      - rewrite finalize_none by (by rewrite Es). cbn [andThen orb].
        assert (Hb : in_status [job_blocked] j' = true) by (apply in_status_spec; rewrite Es; by left).
        rewrite Hb. do 4 eexists. split; [done|]. split_and!; eauto.
      - rewrite finalize_none by (by rewrite Es). cbn [andThen orb].
        assert (Hb : in_status [job_blocked] j' = false).
        { apply bool_decide_eq_false. rewrite Es. set_solver. }
        destruct Ek as [_ Ek]. rewrite Hb, Ek.
        do 4 eexists. split; [done|]. split_and!; try done; eauto. }
  all: destruct (Hdone _ eq_refl) as (s' & j' & a' & Hc & G & Erev & Ga & Es & Ea & Eca & Et);
    exists v_complete, s', j', a'; split_and!; try done; rewrite Eca; eauto.
Qed.

(** ** Deadlines *)

(** The job of a deadline: what its cancellation records. *)
Definition deadline_requested (j j' : Job) : Prop :=
  status j' = job_cancellation_requested ∧ revision j' = (revision j + 1)%Z
  ∧ requestId (cancellation j') = Some (deadline_request (id j))
  ∧ previousStatus (cancellation j') = Some job_running
  ∧ activeDispatchAttemptId j' = activeDispatchAttemptId j ∧ lastError j' = Some deadline_reason.

Lemma deadline_succeeds now s j :
  keyed id (jobs s) → get (id j) s = Some j → status j = job_running →
  let s' := (call (requestCancellation now (id j) (revision j) (deadline_request (id j))
                     (Some deadline_reason)) s).2 in
  (∃ j', get (id j) s' = Some j' ∧ deadline_requested j j')
  ∧ (∀ k, k ≠ id j → get k s' = get k s) ∧ keyed id (jobs s').
Proof.
  intros Hk G Es. cbv zeta. unfold call, requestCancellation. rewrite G. cbn [require mbind res_bind].
  assert (Hin : ∀ l, in_status l j = bool_decide (job_running ∈ l)) by (intros l; unfold in_status; by rewrite Es).
  rewrite !Hin. cbn [bool_decide decide_rel].
  replace (bool_decide (job_running ∈ [job_cancelled; job_cancellation_requested])) with false by done.
  replace (bool_decide (job_running ∈ [job_completed; job_failed])) with false by done.
  replace (bool_decide (job_running ∈ cancellable)) with true by done.
  cbn [reject negb orb mbind res_bind]. 
  assert (Hrev : at_revision (revision j) j = true) by apply Z.eqb_refl. rewrite Hrev.
  cbn [negb reject mbind res_bind].
  match goal with |- context [update_where ?p ?g (jobs s)] =>
    set (p0 := p); set (g0 := g); destruct (update_one id p0 g0 (jobs s) (id j) j Hk G) as [Eu Gu] end.
  { unfold p0. rewrite andb_true_iff. split; [by apply has_id_spec|by apply at_revision_spec]. }
  { intros x P. unfold p0 in P. by guards. }
  { done. }
  rewrite Eu. cbn beta iota. cbn [Nat.eqb ensure mbind res_bind].
  assert (G' : get (id j) (set_jobs (update_where p0 g0 (jobs s)).1 s) = Some (g0 j)) by exact Gu.
  rewrite G'. cbn [require mbind res_bind snd]. split; [|split].
  - exists (g0 j). split; [exact G'|]. unfold deadline_requested, g0. cbn. by rewrite Es.
  - intros k Hne. unfold get. cbn [jobs set_jobs]. apply by_key_update_miss; [done|].
    intros r [_ Er]%by_key_Some. apply not_true_iff_false. unfold p0. intros P. guards. congruence.
  - cbn [jobs set_jobs]. by apply keyed_update.
Qed.

Lemma deadline_rows now clock s rows s1 :
  keyed id (jobs s1) → keyed id rows →
  (∀ r, r ∈ rows → get (id r) s1 = Some r ∧ status r = job_running) →
  let s' := foldl (λ s' j, if overdue now j s
                           then (call (requestCancellation (clock (id j)) (id j) (revision j)
                                         (deadline_request (id j)) (Some deadline_reason)) s').2
                           else s') s1 rows in
  (∀ j, j ∈ rows → overdue now j s = true → ∃ j', get (id j) s' = Some j' ∧ deadline_requested j j')
  ∧ (∀ k, (∀ j, j ∈ rows → overdue now j s = true → id j ≠ k) → get k s' = get k s1).
Proof.
  revert s1. induction rows as [|x rows IH]; intros s1 Hk Hkr Hrows s'.
  { split; [intros j Hj; by apply not_elem_of_nil in Hj|done]. }
  destruct (Hrows x ltac:(by left)) as [Gx Ex]. apply NoDup_cons in Hkr as [Hnot Hkr].
  assert (Hne : ∀ r, r ∈ rows → id r ≠ id x).
  { intros r Hr E. apply Hnot. rewrite <- E. apply elem_of_Lmap. by exists r. }
  unfold s'. cbn [foldl]. destruct (overdue now x s) eqn:Eo.
  - destruct (deadline_succeeds (clock (id x)) s1 x Hk Gx Ex) as ((j' & Gj & Hj') & Hoth & Hk2).
    set (s2 := (call _ s1).2) in *.
    destruct (IH s2 Hk2 Hkr) as [IH1 IH2].
    { intros r Hr. rewrite Hoth by auto. apply Hrows. by right. }
    split.
    + intros j [->|Hj]%elem_of_cons Hov; [|by apply IH1]. exists j'. split; [|done].
      rewrite IH2; [done|]. intros r Hr _. by apply Hne.
    + intros k Hq. rewrite IH2; [apply Hoth; intros ->; by apply (Hq x ltac:(by left) Eo)|].
      intros r Hr. apply Hq. by right.
  - destruct (IH s1 Hk Hkr) as [IH1 IH2]; [intros r Hr; apply Hrows; by right|]. split.
    + intros j [->|Hj]%elem_of_cons Hov; [congruence|by apply IH1].
    + intros k Hq. apply IH2. intros r Hr. apply Hq. by right.
Qed.

(** A deadline cancels an overdue worker and nothing else.  After a pass over the running jobs,
    a job of its page whose active time, of the turns it finished and of the one under way, has
    reached its limit has a cancellation requested under the name of the deadline, its attempt
    still active; every other job is as it was. *)
Theorem deadline_cancels_overdue w now clock cursor j :
  hasDispatch options = true → sys_reachable sha256 parse options w → j ∈ jobs (base w) →
  let page := job_page (in_status [job_running]) cursor 100 100 (base w) in
  ∃ j', get (id j) (reconcileRunningDeadlines now clock cursor (base w)).2 = Some j'
    ∧ ((j ∈ page ∧ overdue now j (base w) = true ∧ deadline_requested j j')
       ∨ ((j ∉ page ∨ overdue now j (base w) = false) ∧ j' = j)).
Proof.
  intros Ho Hr Hj page. pose proof (si_store _ (sys_reachable_inv sha256 parse options w Ho Hr)) as H.
  pose proof (ok_jobs _ H) as Hk.
  destruct (deadline_rows now clock (base w) page (base w) Hk (job_page_keyed _ _ _ _ _ Hk)) as [H1 H2].
  { intros r (Hin & Es & _)%elem_of_job_page. split; [by apply get_in|].
    by apply in_status_spec, list_elem_of_singleton in Es. }
  fold page in H1, H2.
  assert (Hsame : ∀ r, r ∈ page → id r = id j → r = j).
  { intros r (Hin & _)%elem_of_job_page E. by eapply (keyed_inj id). }
  assert (Hother : (∀ r, r ∈ page → overdue now r (base w) = true → id r ≠ id j) →
            get (id j) (reconcileRunningDeadlines now clock cursor (base w)).2 = Some j).
  { intros Hq. etransitivity; [by apply H2|by apply get_in]. }
  destruct (by_key id (id j) page) as [r|] eqn:Ep.
  - apply by_key_Some in Ep as [Hp E]. rewrite (Hsame r Hp E) in Hp. clear r E.
    destruct (overdue now j (base w)) eqn:Eo.
    + destruct (H1 j Hp Eo) as (j' & G & Hd). exists j'. split; [exact G|]. by left.
    + exists j. split; [|right; auto]. apply Hother. intros r Hrp Hov E.
      rewrite (Hsame r Hrp E) in Hov. congruence.
  - rewrite by_key_None in Ep. exists j. split; [apply Hother; auto|]. right.
    split; [|done]. left. intros Hp. by apply (Ep j Hp).
Qed.

(** ** The scheduler is a client of the store *)

Lemma settle_history t e v s : history sha256 parse s (settle t e v s).
Proof. apply steps_one. eexists (Dispatcher _). by split. Qed.

Lemma set_outbox_history o s : history sha256 parse s (set_outbox o s).
Proof. apply steps_one. exists (Dispatcher o). by split. Qed.

Lemma calls_history s s' : calls sha256 parse s s' → history sha256 parse s s'.
Proof. intros H. by apply acts_history, calls_acts. Qed.

Lemma sys_step_history w w' :
  sys_inv w → sys_step sha256 parse options w w' → history sha256 parse (base w) (base w').
Proof.
  intros HI Hs. destruct Hs; cbn [base set_base set_projected].
  - apply steps_one. by exists c.
  - apply set_outbox_history.
  - apply acts_history, nonterminal_acts; [apply HI|done].
  - apply set_outbox_history.
  - apply calls_history, deadlines_calls.
  - by apply acts_history, interrupted_acts.
  - by apply acts_history, reconcileJob_acts.
  - apply calls_history, cancellation_start_calls.
  - apply calls_history, cancellation_answered_calls.
  - apply calls_history, projection_resume_calls.
  - apply calls_history, session_events_calls.
  - destruct (DO.claimNext _ _ _ _ _ _ _ _) as [e o]. apply set_outbox_history.
  - unfold processDueEvent.
    pose proof (start_event_calls sha256 parse options t t' u u' e (base w)) as Hc.
    destruct (start_event options t t' u u' e (base w)) as [[v|job c] s1]; cbn [base];
      [|by apply calls_history].
    eapply steps_trans; [by apply calls_history|apply settle_history].
  - unfold processDueEvent_answered. destruct r as [o|m]; [|apply settle_history].
    pose proof (apply_outcome_calls sha256 parse options t random f o (base w)) as Hc.
    destruct (apply_outcome options t random f o (base w)) as [[v|x] s1];
      [|eapply steps_trans; [by apply calls_history|apply settle_history]].
    pose proof (schedule_calls sha256 parse tp log (projects o) (projector w) s1) as Hp.
    destruct (scheduleProjection sha256 tp log (projects o) (projector w) s1) as [p' s2].
    eapply steps_trans; [|apply settle_history]. apply calls_history. by eapply calls_trans.
  - constructor.
Qed.

Lemma sys_reachable_store w :
  hasDispatch options = true → sys_reachable sha256 parse options w → reachable sha256 parse (base w).
Proof.
  intros Ho (w0 & Hopen & Hs). exists (outbox (base w0)).
  assert (HI : sys_inv w0).
  { apply (sys_reachable_inv sha256 parse options w0 Ho). exists w0. split; [done|constructor]. }
  destruct Hopen as (Eb & _). rewrite <- Eb. clear Eb.
  induction Hs as [w|w1 w2 w3 H12 _ IH]; [constructor|].
  eapply steps_trans; [by apply sys_step_history|]. apply IH.
  by eapply inv_sys_step.
Qed.

(** C25: The scheduler refines the job store, so no job is dispatched twice.  Every state of its
    database is one that histories of the store alone reach, hence a board of sound job machines;
    and while a job has an attempt that may have started, processing any of its due events, of
    which there may be several and claimed by several schedulers, does not call the hook. *)
Theorem scheduler_refines_store w :
  hasDispatch options = true → sys_reachable sha256 parse options w →
  reachable sha256 parse (base w)
  ∧ (∀ k v, abs (base w) k = Some v → sound v)
  ∧ ∀ a e t t' ws u u', a ∈ attempts (base w) → transportStatus a ≠ tr_unstarted →
      e ∈ held w → DO.aggregateId e = jobId a → fresh_attempt u (base w) →
      (processDueEvent options t t' ws u u' e (base w)).1 = None.
Proof.
  intros Ho Hr. pose proof (sys_reachable_inv sha256 parse options w Ho Hr) as HI.
  pose proof (si_store _ HI) as H. split; [by apply sys_reachable_store|]. split.
  - intros k v Hv. unfold abs in Hv. destruct (get k (base w)) as [j|] eqn:G; [|done].
    injection Hv as <-. by eapply ok_get.
  - intros a e t t' ws u u' Ha Hst He Ee Hf.
    destruct (ok_owner _ H a Ha) as [j G]. destruct (ok_get _ _ j H G) as [_ Hs].
    pose proof (attempt_launch a (base w) j Ha G) as Hl. rewrite <- Ee in G.
    pose proof (start_event_turn t t' u u' e (base w) j Ho H G Hf) as Ht.
    unfold processDueEvent. destruct (start_event options t t' u u' e (base w)) as [[v|job c] s1]; [done|].
    exfalso. cbn in Ht. destruct (proj1 Ht eq_refl) as [Harm _].
    assert (Hw : waiting (v_status (view j (base w)))) by (cbn; by destruct (status j)).
    by apply Hst, (sound_waiting _ Hs Hw (launch a) Hl).
Qed.

End Promises.
End ScheduledPromises.
