(* ===== verification/ScheduledScenarios.v ===== *)
(** * A run of the scheduler

    A concrete history of the system: a job is created, its event is claimed, processed and
    answered; another whose worker runs past its deadline.  The promises hold in its states. *)

From S2P Require Import Prelude JsString Json Sql Outbox Paging ScheduledLifecycle ScheduledJobs.
From S2P Require Import ScheduledPublications ScheduledLaunches ScheduledJobFacts ScheduledMoves.
From S2P Require Import ScheduledDispatch ScheduledRecords ScheduledRuntime ScheduledRuntimeFacts.
From S2P Require Import ScheduledSystem ScheduledPromises.

Module ScheduledScenarios.
Import ScheduledLifecycle ScheduledJobs ScheduledPublications ScheduledLaunches ScheduledJobFacts
  ScheduledMoves ScheduledDispatch ScheduledRecords ScheduledRuntime ScheduledRuntimeFacts
  ScheduledSystem ScheduledPromises.
Module DO := DispatchOutbox.

Definition ex_options : RuntimeOptions := mkOptions true true true "me" 60000 None.

Abbreviation step := (sys_step ex_hash ex_parse ex_options).
Abbreviation reached := (sys_reachable ex_hash ex_parse ex_options).

Lemma reached_step w w' : reached w → step w w' → reached w'.
Proof.
  intros (w0 & H0 & Hs) H. exists w0. split; [done|].
  eapply steps_trans; [done|]. by apply steps_one.
Qed.

(** Calls of the store that the system makes one after the other. *)
Fixpoint playable (cs : list Call) (s : store) : Prop :=
  match cs with
  | [] => True
  | c :: cs =>
      (legal c s ∧ of_store c = true ∧ ∀ u, event_uuid c = Some u → fresh_event u s)
      ∧ playable cs (perform ex_hash ex_parse c s)
  end.

Lemma reached_play cs w :
  reached w → playable cs (base w) → reached (set_base (play ex_hash ex_parse cs (base w)) w).
Proof.
  revert w. induction cs as [|c cs IH]; intros w Hw Hp; [by destruct w|].
  destruct Hp as [(Hl & Hs & Hf) Hp].
  exact (IH (set_base (perform ex_hash ex_parse c (base w)) w)
           (reached_step _ _ Hw (sys_call _ _ _ c w Hl Hs Hf)) Hp).
Qed.

Definition ex_start : system := mkSystem ex_open [] [] [] (mkProjector [] None).

Lemma ex_start_reached : reached ex_start.
Proof.
  exists ex_start. split; [|constructor]. split; [done|]. split; [done|]. split; [done|].
  split; [exact DO.inv_empty|]. intros r [Hr _]. by apply not_elem_of_nil in Hr.
Qed.

(** The job is created, and its event claimed at 2000. *)
Definition ex_new : system := set_base ex_created ex_start.

Lemma ex_new_reached : reached ex_new.
Proof.
  apply (reached_play [Create 0 0 "u" "v" ex_input] ex_start ex_start_reached).
  split; [|exact I]. split; [exact I|]. split; [done|]. by intros u [= <-].
Qed.

Definition ex_held : system :=
  let '(e, o) := DO.claimNext 2000 2000 "c" (schedulerInstanceId ex_options) (leaseMs ex_options)
                   (Some [due_event]) None (outbox (base ex_new)) in
  mkSystem (set_outbox o (base ex_new)) (("clm_" +s "c") :: tokens ex_new) (option_list e ++ held ex_new)
    (flights ex_new) (projector ex_new).

Lemma ex_held_reached : reached ex_held.
Proof.
  apply (reached_step _ _ ex_new_reached). apply sys_claim. cbn. apply not_elem_of_nil.
Qed.

Definition ex_event : DO.DispatchOutboxEvent :=
  default (DO.mkEvent [] [] [] 0 [] DO.pending None 0 0 0 None None None 0 None)
    (head (held ex_held)).

(** Its processing calls the hook. *)
Definition ex_clock : nat → Z := λ _, 2000%Z.
Definition ex_flown : system :=
  let '(f, s) := processDueEvent ex_options ex_clock ex_clock ex_clock "a" "d" ex_event (base ex_held) in
  mkSystem s (tokens ex_held) [] (option_list f ++ flights ex_held) (projector ex_held).

Lemma ex_held_event : held ex_held = [] ++ ex_event :: [].
Proof. vm_compute. reflexivity. Qed.

Lemma ex_flown_reached : reached ex_flown.
Proof.
  apply (reached_step _ _ ex_held_reached). apply (sys_start _ _ _ _ _ _ _ _ _ [] []); [exact ex_held_event|].
  vm_compute. reflexivity.
Qed.

Lemma no_job_forgotten_witness :
  ∃ j, j ∈ jobs (base ex_new) ∧
    ∃ r, event_of j (sweep 1 (λ _, 0%Z) (λ i k, (0%Z, replicate i 1%N ++ 0%N :: k)) [] (base ex_new)).2 r
         ∧ live r.
Proof.
  destruct (jobs (base ex_new)) as [|j l] eqn:E; [vm_compute in E; discriminate E|].
  exists j. split; [by left|].
  assert (Hj : j ∈ jobs (base ex_new)) by (rewrite E; by left).
  assert (Ha : armed (status j) = true).
  { replace j with (hd j (jobs (base ex_new))) by (by rewrite E). vm_compute. reflexivity. }
  refine (proj2 (no_job_forgotten ex_hash ex_parse ex_options ex_new j 1 (λ _, 0%Z)
    (λ i k, (0%Z, replicate i 1%N ++ 0%N :: k)) eq_refl ex_new_reached Hj Ha _ _)).
  - split.
    + intros i k Hi. assert (i = 0) as -> by lia. apply by_key_None. intros r Hr.
      assert (Er : DO.id r = "out_v").
      { revert r Hr. apply Forall_forall. vm_compute. constructor; [done|constructor]. }
      rewrite Er. discriminate.
    + intros i i' k k'. cbn [snd]. revert i'.
      induction i as [|i IH]; intros [|i']; cbn; intros [= E']; [by subst|].
      apply IH in E' as [-> ->]. done.
  - vm_compute. lia.
Defined.

Lemma hook_called_exactly_when_due_witness :
  ∃ f s', processDueEvent ex_options ex_clock ex_clock ex_clock "a" "d" ex_event (base ex_held)
          = (Some f, s')
    ∧ launched ex_options "a" ex_event (fl_job f) (fl_claim f) s'.
Proof.
  destruct (processDueEvent ex_options ex_clock ex_clock ex_clock "a" "d" ex_event (base ex_held))
    as [f s'] eqn:E.
  assert (Hin : ex_event ∈ held ex_held) by (rewrite ex_held_event; by left).
  destruct (hook_called_exactly_when_due ex_hash ex_parse ex_options ex_held ex_event ex_clock ex_clock
              ex_clock "a" "d" f s' eq_refl ex_held_reached Hin ltac:(vm_compute; reflexivity) E)
    as [_ H].
  destruct f as [f|]; [|vm_compute in E; discriminate E].
  exists f, s'. split; [done|]. by apply H.
Defined.

Definition ex_flight : option Flight := head (flights ex_flown).

Lemma claims_are_settled_witness :
  ∃ f, flights ex_flown = [f] ∧
    settled_event (λ _, 3000%Z) (fl_event f) (base ex_flown)
      (processDueEvent_answered ex_hash ex_options ex_clock (λ _, 3000%Z) (λ _, ex_readings) 0 [] f
         (Err (js "timeout")) (projector ex_flown) (base ex_flown)).2.
Proof.
  destruct (flights ex_flown) as [|f l] eqn:E; [vm_compute in E; discriminate E|].
  assert (El : l = []).
  { replace l with (tl (flights ex_flown)) by (by rewrite E). vm_compute. reflexivity. }
  assert (Ef : fl_event f = ex_event).
  { transitivity (default ex_event (fl_event <$> head (flights ex_flown))); [by rewrite E|].
    vm_compute. reflexivity. }
  subst l. exists f. split; [done|].
  refine (proj2 (claims_are_settled ex_hash ex_parse ex_options ex_flown (λ _, 3000%Z) eq_refl
            ex_flown_reached) f ex_clock (λ _, ex_readings) 0%Z [] (Err (js "timeout")) _ _).
  - rewrite E. by left.
  - rewrite Ef. unfold fenced.
    destruct (DO.get (DO.id ex_event) (outbox (base ex_flown))) as [r|] eqn:G;
      [|vm_compute in G; discriminate G].
    exists r. split; [done|]. intros _.
    replace r with (default r (DO.get (DO.id ex_event) (outbox (base ex_flown)))) by (by rewrite G).
    vm_compute. reflexivity.
Defined.

(** The hook answers that the launch was blocked for a time. *)
Definition ex_blocked : ScheduledDispatchOutcome :=
  mkOutcome o_blocked (Some temporary_dependency) None None None None None None None None None None.

Lemma answers_decide_witness :
  ∃ f v s' j' a', flights ex_flown = [f]
    ∧ apply_outcome ex_options (λ _, 2500%Z) 0 f ex_blocked (base ex_flown) = (Ok v, s')
    ∧ get (id (fl_job f)) s' = Some j' ∧ decided (λ _, 2500%Z) f ex_blocked j' a' v.
Proof.
  destruct (flights ex_flown) as [|f l] eqn:E; [vm_compute in E; discriminate E|].
  assert (Hd : ∀ x, f = default x (head (flights ex_flown))) by (intros x; by rewrite E).
  assert (El : l = []).
  { replace l with (tl (flights ex_flown)) by (by rewrite E). vm_compute. reflexivity. }
  subst l.
  destruct (get (id (fl_job f)) (base ex_flown)) as [j|] eqn:G;
    [|rewrite (Hd f) in G; vm_compute in G; discriminate G].
  destruct (find_attempt (c_attemptId (fl_claim f)) (base ex_flown)) as [a|] eqn:Ga;
    [|rewrite (Hd f) in Ga; vm_compute in Ga; discriminate Ga].
  assert (Hj : ∀ x, j = default x (get (id (fl_job f)) (base ex_flown))) by (intros x; by rewrite G).
  assert (Hat : ∀ x, a = default x (find_attempt (c_attemptId (fl_claim f)) (base ex_flown)))
    by (intros x; by rewrite Ga).
  destruct (answers_decide ex_hash ex_parse ex_options ex_flown (λ _, 2500%Z) 0 f ex_blocked j a eq_refl
              ex_flown_reached) as (v & s' & j' & a' & H1 & H2 & _ & _ & H3).
  - split; [exact G|]. split; [exact Ga|]. rewrite (Hat a), (Hj j), (Hd f). vm_compute. by split_and!.
  - rewrite (Hj j), (Hd f). vm_compute. reflexivity.
  - by exists f, v, s', j', a'.
Defined.

(** While the hook is awaited the lease of the event passes; it is reaped and claimed again. *)
Definition ex_reaped : system :=
  set_base (set_outbox (DO.reapExpiredClaims 200000 (leaseMs ex_options) (outbox (base ex_flown))).2
              (base ex_flown)) ex_flown.
Definition ex_again : system :=
  let '(e, o) := DO.claimNext 200000 200000 "c2" (schedulerInstanceId ex_options) (leaseMs ex_options)
                   (Some [due_event]) None (outbox (base ex_reaped)) in
  mkSystem (set_outbox o (base ex_reaped)) (("clm_" +s "c2") :: tokens ex_reaped)
    (option_list e ++ held ex_reaped) (flights ex_reaped) (projector ex_reaped).

Lemma ex_again_reached : reached ex_again.
Proof.
  apply (reached_step ex_reaped).
  - exact (reached_step _ _ ex_flown_reached (sys_reap _ _ _ 200000 ex_flown)).
  - apply sys_claim. apply not_elem_of_cons. split; [discriminate|]. apply not_elem_of_nil.
Qed.

Lemma scheduler_refines_store_witness :
  ∃ e, held ex_again = [e] ∧
    (processDueEvent ex_options (λ _, 200000%Z) (λ _, 200000%Z) (λ _, 200000%Z) "b" "d2" e
       (base ex_again)).1 = None.
Proof.
  destruct (held ex_again) as [|e l] eqn:E; [vm_compute in E; discriminate E|].
  assert (El : l = []).
  { replace l with (tl (held ex_again)) by (by rewrite E). vm_compute. reflexivity. }
  subst l. exists e. split; [done|].
  assert (Ei : DO.aggregateId e = ex_job).
  { transitivity (default [] (DO.aggregateId <$> head (held ex_again))); [by rewrite E|].
    vm_compute. reflexivity. }
  destruct (attempts (base ex_again)) as [|a l] eqn:Ea; [vm_compute in Ea; discriminate Ea|].
  assert (Hat : a = hd a (attempts (base ex_again))) by (by rewrite Ea).
  apply (proj2 (proj2 (scheduler_refines_store ex_hash ex_parse ex_options ex_again eq_refl ex_again_reached)) a).
  - rewrite Ea. by left.
  - rewrite Hat. vm_compute. discriminate.
  - rewrite E. by left.
  - rewrite Ei, Hat. vm_compute. reflexivity.
  - vm_compute. reflexivity.
Defined.

(** The worker of a job runs for more than its minute. *)
Definition ex_overworked : system :=
  set_base (play ex_hash ex_parse (ex_running ++ [ProjectEvent ex_readings (ex_started 5)]) ex_open) ex_start.

Lemma ex_overworked_reached : reached ex_overworked.
Proof.
  apply (reached_play (ex_running ++ [ProjectEvent ex_readings (ex_started 5)]) ex_start ex_start_reached).
  cbn [playable ex_running ex_claimed app].
  repeat match goal with
  | |- _ ∧ _ => split
  | |- True => exact I
  | |- ∀ u, _ = Some u → _ => intros u E; first [discriminate E | injection E as <-; vm_compute; reflexivity]
  | |- of_store _ = true => reflexivity
  | |- _ => first [exact I | discriminate | cbn; discriminate]
  end.
Qed.

Lemma deadline_cancels_overdue_witness :
  ∃ j j', j ∈ jobs (base ex_overworked)
    ∧ get (id j) (reconcileRunningDeadlines 61010 (λ _, 61011%Z) [] (base ex_overworked)).2 = Some j'
    ∧ deadline_requested j j'.
Proof.
  destruct (jobs (base ex_overworked)) as [|j l] eqn:E; [vm_compute in E; discriminate E|].
  assert (Hj : j ∈ jobs (base ex_overworked)) by (rewrite E; by left).
  assert (Ej : j = hd j (jobs (base ex_overworked))) by (by rewrite E).
  destruct (deadline_cancels_overdue ex_hash ex_parse ex_options ex_overworked 61010 (λ _, 61011%Z) [] j
              eq_refl ex_overworked_reached Hj) as (j' & G & H).
  exists j, j'. split; [by left|]. split; [exact G|].
  destruct H as [(_ & _ & H)|[[H|H] _]]; [done| |].
  - exfalso. apply H.
    assert (Ep : job_page (in_status [job_running]) [] 100 100 (base ex_overworked)
                 = [hd j (jobs (base ex_overworked))]) by (vm_compute; reflexivity).
    rewrite Ep, <- Ej. by left.
  - exfalso. rewrite Ej in H. vm_compute in H. discriminate H.
Defined.

(** ** What the runs show *)

(** A hook that answers a permanent configuration error blocks the job; through the hook of the
    server, which drops the kind of the blocker, the job is due again and retried. *)
Definition ex_permanent : ScheduledDispatchOutcome :=
  mkOutcome o_blocked (Some permanent_configuration) None None None None None None None None None None.

Definition answered_status (o : ScheduledDispatchOutcome) : option ScheduledJobStatus :=
  f ← head (flights ex_flown);
  status <$> get ex_job (apply_outcome ex_options (λ _, 2500%Z) 0 f o (base ex_flown)).2.

Example permanent_blocker_is_retried :
  answered_status ex_permanent = Some job_blocked
  ∧ answered_status (server_outcome "d" ex_permanent) = Some job_due.
Proof. vm_compute. by split. Qed.

(** An answer that leaves the attempt of a job unresolved which an operator is to decide: the
    transition of the job is refused, and the failure counts as a second probe. *)
Definition ex_operator : store :=
  ex_store (ex_claimed ++
    [Resolve 1500 (mkResolve ex_job "scha_a2" 5 res_operator_intervention None no_acp None None)]).

Definition ex_unresolved : ReconcileOutcome := mkReconcile rc_unresolved None no_acp None None None.

Example unresolved_counts_twice :
  List.map (λ r, reconcileProbeCount (probe r.2)) (interrupted_rows 100000 [] ex_operator) = [0%Z]
  ∧ (λ a, (reconcileProbeCount (probe a), lastReconcileEvidence (probe a))) <$>
      find_attempt "scha_a2"
        (reconcile_interrupted ex_hash (λ _, 100000%Z) (λ _, 100000%Z) (λ _, ex_readings) 0 0 "o" []
           ex_job ex_second (Ok ex_unresolved) (mkProjector [] None) ex_operator).2
    = Some (2%Z, Some ("Scheduled job state transition conflict or illegal source status for "
                        +s ex_job +s ".")).
Proof. vm_compute. by split. Qed.

End ScheduledScenarios.
