(* ===== verification/ProcessOutput.v ===== *)
(** * Retention of process output ([src/src/process-output.ts])

    A process writes more than is kept.  [OutputLog] gives every character a cursor and keeps a
    bounded suffix, which any number of readers may read again; [HeadTailBuffer] keeps the head and
    the tail.  Characters are code points, [Array.from] of a string.

    The log is shown to implement the sequence of all characters ever written: a read is a slice of
    it, and a reader that follows the cursors misses nothing unless it is told so. *)

From S2P Require Import Prelude JsString CanonicalJson.

Module ProcessOutput.

(** ** Code points *)

(** [Array.from(value)] *)
Fixpoint points (s : jsstr) : list jsstr :=
  match s with
  | [] => []
  | c :: t =>
      match t with
      | d :: t' =>
          if CanonicalJson.leading_surrogate c && CanonicalJson.trailing_surrogate d
          then [c; d] :: points t' else [c] :: points t
      | [] => [[c]]
      end
  end.

Definition codePointLength (value : jsstr) : nat := length (points value).

Definition sliceCodePoints (value : jsstr) (start : nat) (end_ : option nat) : jsstr :=
  let from := drop start (points value) in
  concat (match end_ with None => from | Some e => take (e - start) from end).

Definition takeHead (value : jsstr) (count : nat) : jsstr := sliceCodePoints value 0 (Some count).

Definition takeTail (value : jsstr) (count : nat) : jsstr :=
  if count =? 0 then [] else
  let characters := points value in
  concat (drop (length characters - count) characters).

Definition splitBudget (maxCharacters : nat) : nat * nat :=
  ((maxCharacters + 1) / 2, maxCharacters / 2).

Definition formatHeadTail (head tail : jsstr) (omittedCharacters : nat) : jsstr :=
  if omittedCharacters =? 0 then head +s tail
  else head +s [LF] +s "... output truncated (" +s numeral (Z.of_nat omittedCharacters)
       +s " characters omitted) ..." +s [LF] +s tail.

Definition marker : jsstr := [LF] +s "... output truncated ..." +s [LF].

Definition truncateOutput (output : jsstr) (maxCharacters : nat) : jsstr * bool :=
  if codePointLength output <=? maxCharacters then (output, false)
  else
    let available := maxCharacters - codePointLength marker in
    let '(head, tail) := splitBudget available in
    (takeHead output head +s marker +s takeTail output tail, true).

(** ** [HeadTailBuffer] *)

Inductive Error :=
| buffer_limit | log_limit | output_limit | negative_cursor.

Record HeadTailBuffer := mkBuffer {
  head : jsstr;
  tail : jsstr;
  totalCharacters : nat;
  b_maxCharacters : nat
}.

Definition new_HeadTailBuffer (maxCharacters : Z) : res Error HeadTailBuffer :=
  _ ← reject (maxCharacters <? 1)%Z buffer_limit;
  Ok (mkBuffer [] [] 0 (Z.to_nat maxCharacters)).

Definition buffer_append (output : jsstr) (b : HeadTailBuffer) : HeadTailBuffer :=
  match output with
  | [] => b
  | _ =>
      let previousTotal := totalCharacters b in
      let total := previousTotal + codePointLength output in
      let '(h, t) := splitBudget (b_maxCharacters b) in
      if total <=? b_maxCharacters b
      then mkBuffer (head b +s output) (tail b) total (b_maxCharacters b)
      else if previousTotal <=? b_maxCharacters b
      then let fullOutput := head b +s output in
           mkBuffer (takeHead fullOutput h) (takeTail fullOutput t) total (b_maxCharacters b)
      else mkBuffer (head b) (takeTail (tail b +s output) t) total (b_maxCharacters b)
  end.

Definition buffer_hasOutput (b : HeadTailBuffer) : bool := 0 <? totalCharacters b.

Definition drain (maxCharacters : Z) (b : HeadTailBuffer)
  : res Error ((jsstr * bool) * HeadTailBuffer) :=
  _ ← reject (maxCharacters <? 1)%Z output_limit;
  let omittedByBuffer := totalCharacters b - codePointLength (head b) - codePointLength (tail b) in
  let retained := formatHeadTail (head b) (tail b) omittedByBuffer in
  let '(output, cut) := truncateOutput retained (Z.to_nat maxCharacters) in
  Ok ((output, (0 <? omittedByBuffer) || cut), mkBuffer [] [] 0 (b_maxCharacters b)).

(** ** [OutputLog] *)

Record Chunk := mkChunk { startCursor : nat; text : jsstr }.

Record OutputLog := mkLog {
  chunks : list Chunk;
  retainedCharacters : nat;
  writeCursor : nat;
  maxCharacters : nat
}.

Definition new_OutputLog (max : Z) : res Error OutputLog :=
  _ ← reject (max <? 1)%Z log_limit;
  Ok (mkLog [] 0 0 (Z.to_nat max)).

(** The loop of [evict] over the chunks. *)
Fixpoint evict_loop (max : nat) (cs : list Chunk) (retained : nat) : list Chunk * nat :=
  match cs with
  | dropped :: rest =>
      if (max <? retained) && (0 <? length rest)
      then evict_loop max rest (retained - codePointLength (text dropped))
      else (cs, retained)
  | [] => (cs, retained)
  end.

Definition evict (l : OutputLog) : OutputLog :=
  let '(cs, retained) := evict_loop (maxCharacters l) (chunks l) (retainedCharacters l) in
  mkLog cs retained (writeCursor l) (maxCharacters l).

(** The cursor it returns is [writeCursor] of the log after it. *)
Definition append (output : jsstr) (l : OutputLog) : OutputLog :=
  match output with
  | [] => l
  | _ =>
      let incomingLength := codePointLength output in
      if maxCharacters l <? incomingLength
      then
        let kept := takeTail output (maxCharacters l) in
        mkLog [mkChunk (writeCursor l + incomingLength - maxCharacters l) kept]
          (codePointLength kept) (writeCursor l + incomingLength) (maxCharacters l)
      else
        evict (mkLog (chunks l ++ [mkChunk (writeCursor l) output])
                 (retainedCharacters l + incomingLength) (writeCursor l + incomingLength)
                 (maxCharacters l))
  end.

Definition hasOutput (l : OutputLog) : bool := 0 <? retainedCharacters l.

Definition oldestCursor (l : OutputLog) : nat :=
  match chunks l with c :: _ => startCursor c | [] => writeCursor l end.

(** What [read] returns *)
Record Reading := mkReading {
  output : jsstr;
  nextCursor : nat;
  oldestAvailableCursor : nat;
  cursorLapsed : bool;
  truncated : bool
}.

(** The loop of [read]: the assembled text and its length. *)
Fixpoint assemble (effectiveStart max : nat) (cs : list Chunk) (assembled : jsstr)
  (assembledLength : nat) : jsstr * nat :=
  match cs with
  | [] => (assembled, assembledLength)
  | chunk :: rest =>
      if max <=? assembledLength then (assembled, assembledLength)
      else
        let chunkEnd := startCursor chunk + codePointLength (text chunk) in
        if chunkEnd <=? effectiveStart then assemble effectiveStart max rest assembled assembledLength
        else
          let offset := effectiveStart - startCursor chunk in
          let piece := sliceCodePoints (text chunk) offset (Some (offset + (max - assembledLength))) in
          assemble effectiveStart max rest (assembled +s piece)
            (assembledLength + codePointLength piece)
  end.

Definition read (afterCursor max : Z) (l : OutputLog) : res Error Reading :=
  _ ← reject (max <? 1)%Z output_limit;
  _ ← reject (afterCursor <? 0)%Z negative_cursor;
  let after := Z.to_nat afterCursor in
  let oldest := oldestCursor l in
  let lapsed := after <? oldest in
  let effectiveStart := Nat.max after oldest in
  let '(assembled, assembledLength) := assemble effectiveStart (Z.to_nat max) (chunks l) [] 0 in
  let availableCharacters := (Z.of_nat (writeCursor l) - Z.of_nat effectiveStart)%Z in
  let truncatedByLimit := (Z.of_nat assembledLength <? availableCharacters)%Z in
  let '(out, cut) := truncateOutput assembled (Z.to_nat max) in
  Ok (mkReading out (effectiveStart + assembledLength) oldest lapsed
        (cut || truncatedByLimit || lapsed)).

(** ** Facts about code points *)

(** No two neighbours are a surrogate pair cut in two. *)
Fixpoint separate (ps : list jsstr) : Prop :=
  match ps with
  | [] => True
  | p :: rest =>
      (∃ c, p = [c]
            ∧ match rest with
              | (d :: _) :: _ => CanonicalJson.leading_surrogate c && CanonicalJson.trailing_surrogate d = false
              | _ => True
              end
       ∨ ∃ d, p = [c; d] ∧ CanonicalJson.leading_surrogate c && CanonicalJson.trailing_surrogate d = true)
      ∧ separate rest
  end.

Lemma points_two c d t :
  points (c :: d :: t)
  = if CanonicalJson.leading_surrogate c && CanonicalJson.trailing_surrogate d
    then [c; d] :: points t else [c] :: points (d :: t).
Proof. done. Qed.

(** Induction that looks at two units. *)
Lemma units_ind (P : jsstr → Prop) :
  P [] → (∀ c, P [c]) → (∀ c d t, P t → P (d :: t) → P (c :: d :: t)) → ∀ s, P s.
Proof.
  intros H0 H1 H2 s. enough (P s ∧ ∀ c, P (c :: s)) by tauto.
  induction s as [|d s [IH IHc]]; [auto|]. split; [auto|]. intros c. apply H2; auto.
Qed.

Lemma concat_points s : concat (points s) = s.
Proof.
  induction s as [|c|c d t IH IHd] using units_ind; [done..|]. rewrite points_two.
  destruct (_ && _); cbn [concat app]; [by rewrite IH|by rewrite IHd].
Qed.

Lemma points_head s :
  match points s with (d :: _) :: _ => List.hd_error s = Some d | [] => s = [] | _ => False end.
Proof. destruct s as [|c [|d t]]; [done..|]. rewrite points_two. by destruct (_ && _). Qed.

Lemma separate_points s : separate (points s).
Proof.
  induction s as [|c|c d t IH IHd] using units_ind; [done| |].
  { split; [|done]. exists c. by left. }
  rewrite points_two. destruct (_ && _) eqn:E.
  - split; [|done]. exists c. right. by exists d.
  - split; [|done]. exists c. left. split; [done|].
    pose proof (points_head (d :: t)) as Hh. destruct (points (d :: t)) as [|[|d' p] r]; [done..|].
    cbn in Hh. by injection Hh as ->.
Qed.

Lemma points_concat ps : separate ps → points (concat ps) = ps.
Proof.
  induction ps as [|p ps IH]; [done|]. intros [[c [[-> Hn]|(d & -> & Hd)]] Hs]; specialize (IH Hs).
  - cbn [concat app]. destruct ps as [|[|d q] rest]; [done| |].
    { destruct Hs as [[? [[E _]|(? & E & _)]] _]; discriminate E. }
    change (concat ((d :: q) :: rest)) with (d :: (q ++ concat rest)) in IH |- *.
    rewrite points_two, Hn. by f_equal.
  - cbn [concat app]. rewrite points_two, Hd. by f_equal.
Qed.

Lemma separate_drop ps n : separate ps → separate (drop n ps).
Proof. revert n. induction ps as [|p ps IH]; intros [|n]; [done..|]. intros [_ H]. by apply IH. Qed.

Lemma separate_take ps n : separate ps → separate (take n ps).
Proof.
  revert n. induction ps as [|p ps IH]; intros [|n]; [done..|]. intros [Hp H]. split; [|by apply IH].
  destruct Hp as [c [[-> Hn]|Hd]]; exists c; [left|by right]. split; [done|].
  by destruct ps as [|[|d q] rest], n.
Qed.

(** A slice of a string is the slice of its code points. *)
Lemma points_slice s a n : points (concat (take n (drop a (points s)))) = take n (drop a (points s)).
Proof. apply points_concat, separate_take, separate_drop, separate_points. Qed.

Lemma points_from s a : points (concat (drop a (points s))) = drop a (points s).
Proof. apply points_concat, separate_drop, separate_points. Qed.

Lemma length_points_cons (c : N) (t : jsstr) :
  codePointLength t <= codePointLength (c :: t) <= S (codePointLength t).
Proof.
  unfold codePointLength. revert c. induction t as [|d|d e t IH IHe] using units_ind; intros c.
  - cbn. lia.
  - rewrite (points_two c). destruct (_ && _); cbn; lia.
  - rewrite (points_two c). destruct (_ && _); cbn [length]; pose proof (IHe d); lia.
Qed.

(** Joining texts may join the halves of a pair, and never makes more of them. *)
Lemma length_points_app (a b : jsstr) :
  codePointLength (a ++ b) <= codePointLength a + codePointLength b.
Proof.
  induction a as [|c|c d t IH IHd] using units_ind; [done| |].
  - exact (proj2 (length_points_cons c b)).
  - unfold codePointLength in *. change ((c :: d :: t) ++ b) with (c :: d :: (t ++ b)).
    change ((d :: t) ++ b) with (d :: (t ++ b)) in IHd.
    rewrite !points_two. destruct (_ && _); cbn [length]; lia.
Qed.

(** ** The log implements the sequence of the characters *)

(** The characters of the outputs, in the order they were written. *)
Definition history (outputs : list jsstr) : list jsstr := concat (List.map points outputs).

(** The chunks hold the characters [hist] from cursor [start] on. *)
Fixpoint chunks_hold (start : nat) (cs : list Chunk) (hist : list jsstr) : Prop :=
  match cs with
  | [] => hist = []
  | c :: rest =>
      startCursor c = start
      ∧ ∃ later, hist = points (text c) ++ later ∧ chunks_hold (start + codePointLength (text c)) rest later
  end.

Lemma chunks_hold_app start cs hist c :
  chunks_hold start cs hist → startCursor c = start + length hist →
  chunks_hold start (cs ++ [c]) (hist ++ points (text c)).
Proof.
  revert start hist. induction cs as [|x cs IH]; intros start hist; cbn [chunks_hold app].
  - intros -> E. split; [cbn in E; lia|]. exists []. by rewrite app_nil_r.
  - intros [Ex (later & -> & H)] E. split; [done|]. exists (later ++ points (text c)).
    rewrite app_assoc. split; [done|]. apply IH; [done|].
    rewrite E, length_app. unfold codePointLength. lia.
Qed.

(** The invariant: the chunks hold the last [retainedCharacters] of what was written, and not more
    than the bound, and no single chunk is more than the bound. *)
Record holds (l : OutputLog) (hist : list jsstr) : Prop := mkHolds {
  h_bound : 1 <= maxCharacters l;
  h_cursor : writeCursor l = length hist;
  h_retained : retainedCharacters l <= maxCharacters l;
  h_suffix : ∃ start, start + retainedCharacters l = writeCursor l
                      ∧ chunks_hold start (chunks l) (drop start hist);
  h_chunks : Forall (λ c, 0 < codePointLength (text c) <= maxCharacters l) (chunks l)
}.

Definition fits (max : nat) (c : Chunk) : Prop := 0 < codePointLength (text c) <= max.

Lemma evict_loop_spec max cs start hist cs' r' :
  chunks_hold start cs hist → Forall (fits max) cs → evict_loop max cs (length hist) = (cs', r') →
  ∃ gone, r' + gone = length hist ∧ r' <= max ∧ Forall (fits max) cs'
          ∧ chunks_hold (start + gone) cs' (drop gone hist).
Proof.
  revert start hist. induction cs as [|c cs IH]; intros start hist; cbn [chunks_hold evict_loop].
  { intros -> _ [= <- <-]. exists 0. by split_and!; [|cbn; lia|constructor|]. }
  intros [Ec (later & -> & Hc)] Hf. apply Forall_cons in Hf as [Hf1 Hf].
  destruct (_ && _) eqn:E.
  - rewrite length_app. fold (codePointLength (text c)). rewrite (Nat.add_comm _ (length later)), Nat.add_sub.
    intros Hl. destruct (IH _ _ Hc Hf Hl) as (gone & E1 & E2 & E3 & E4).
    exists (codePointLength (text c) + gone). split_and!; [lia|done..|].
    rewrite Nat.add_assoc, drop_app_ge by (unfold codePointLength; lia).
    replace (_ + gone - _) with gone by (unfold codePointLength; lia). done.
  - intros [= <- <-]. exists 0. rewrite !Nat.add_0_r. split; [done|]. split; [|split; [by constructor|]].
    + apply andb_false_iff in E as [E|E]; [by apply Nat.ltb_ge|]. apply Nat.ltb_ge in E.
      destruct cs; [|cbn in E; lia]. cbn in Hc. subst later. rewrite app_nil_r. apply Hf1.
    + cbn [chunks_hold drop]. split; [done|]. by exists later.
Qed.

Lemma append_holds l hist o : holds l hist → holds (append o l) (hist ++ points o).
Proof.
  intros [H1 Hc Hr (start & Es & Hh) Hf]. unfold append. destruct o as [|u o0].
  { rewrite app_nil_r. constructor; eauto. }
  set (o := u :: o0). fold (codePointLength o).
  assert (Hpos : 0 < codePointLength o).
  { pose proof (points_head o) as Hp. unfold codePointLength. destruct (points o); [done|cbn; lia]. }
  destruct (Nat.ltb_spec (maxCharacters l) (codePointLength o)).
  - assert (Et : points (takeTail o (maxCharacters l))
                 = drop (codePointLength o - maxCharacters l) (points o)).
    { unfold takeTail. destruct (Nat.eqb_spec (maxCharacters l) 0); [lia|]. apply points_from. }
    assert (Ek : codePointLength (takeTail o (maxCharacters l)) = maxCharacters l).
    { unfold codePointLength at 1. rewrite Et, length_drop. unfold codePointLength in *. lia. }
    constructor; cbn [maxCharacters writeCursor retainedCharacters chunks].
    + done.
    + rewrite length_app. unfold codePointLength in *. lia.
    + rewrite Ek. done.
    + exists (writeCursor l + codePointLength o - maxCharacters l). split; [rewrite Ek; lia|].
      cbn [chunks_hold startCursor text]. split; [done|]. exists []. rewrite app_nil_r, Et. split; [|done].
      rewrite Hc, drop_app_ge by lia. f_equal. lia.
    + constructor; [|done]. cbn [text]. lia.
  - unfold evict. cbn [maxCharacters chunks retainedCharacters writeCursor].
    destruct (evict_loop _ _ _) as [cs' r'] eqn:E.
    assert (Hlen : length (drop start hist) = retainedCharacters l) by (rewrite length_drop; lia).
    assert (Hdrop : drop start (hist ++ points o) = drop start hist ++ points o)
      by (apply drop_app_le; lia).
    assert (Hh' : chunks_hold start (chunks l ++ [mkChunk (writeCursor l) o]) (drop start (hist ++ points o))).
    { rewrite Hdrop. apply (chunks_hold_app start _ _ (mkChunk (writeCursor l) o)); [done|cbn; lia]. }
    assert (El : retainedCharacters l + codePointLength o = length (drop start (hist ++ points o))).
    { rewrite Hdrop, length_app, Hlen. done. }
    rewrite El in E.
    assert (Hf' : Forall (fits (maxCharacters l)) (chunks l ++ [mkChunk (writeCursor l) o])).
    { apply Forall_app. split; [done|]. constructor; [|done]. split; [done|cbn [text]; lia]. }
    destruct (evict_loop_spec _ _ start _ cs' r' Hh' Hf' E) as (gone & E1 & E2 & E3 & E4).
    constructor; cbn [maxCharacters writeCursor retainedCharacters chunks]; [done| |done| |done].
    + rewrite length_app. unfold codePointLength in *. lia.
    + exists (start + gone). split; [lia|]. by rewrite <- drop_drop.
Qed.

Lemma new_holds max l : new_OutputLog max = Ok l → holds l [].
Proof.
  unfold new_OutputLog. intros (? & E%reject_Ok & [= <-])%bind_Ok. constructor; cbn; try done; try lia.
  by exists 0.
Qed.

(** ** Reads *)

Lemma assemble_spec e max cs start hist acc n :
  chunks_hold start cs hist → n <= max →
  let got := take (max - n) (drop (e - start) hist) in
  assemble e max cs acc n = (acc ++ concat got, n + length got).
Proof.
  cbv zeta. revert start hist acc n. induction cs as [|c cs IH]; intros start hist acc n; cbn [chunks_hold].
  { intros -> _. rewrite drop_nil, take_nil. cbn. by rewrite app_nil_r, Nat.add_0_r. }
  intros [Ec (later & -> & Hc)] Hn. cbn [assemble].
  destruct (Nat.leb_spec max n).
  { replace (max - n) with 0 by lia. cbn. by rewrite app_nil_r, Nat.add_0_r. }
  rewrite Ec. set (len := codePointLength (text c)) in *. assert (El : len = length (points (text c))) by done.
  destruct (Nat.leb_spec (start + len) e).
  - rewrite (IH (start + len) later) by done. rewrite drop_app_ge by lia.
    by replace (e - start - length (points (text c))) with (e - (start + len)) by lia.
  - unfold sliceCodePoints. set (piece := take (e - start + (max - n) - (e - start)) (drop (e - start) (points (text c)))).
    assert (Ep : codePointLength (concat piece) = length piece).
    { unfold codePointLength, piece. by rewrite points_slice. }
    rewrite Ep.
    assert (El' : length piece = Nat.min (max - n) (len - (e - start))).
    { unfold piece. rewrite length_take, length_drop. lia. }
    rewrite (IH (start + len) later); [|done|rewrite El'; lia].
    replace (e - (start + len)) with 0 by lia. cbn [drop].
    rewrite drop_app_le by lia. rewrite take_app. rewrite length_drop, <- El.
    replace (take (max - n) (drop (e - start) (points (text c)))) with piece
      by (unfold piece; f_equal; lia).
    replace (max - (n + length piece)) with (max - n - (len - (e - start))) by (rewrite El'; lia).
    rewrite drop_0. f_equal; [unfold js_app; by rewrite concat_app, app_assoc|rewrite length_app; lia].
Qed.

Lemma oldest_start l hist :
  holds l hist → oldestCursor l + retainedCharacters l = writeCursor l
                 ∧ chunks_hold (oldestCursor l) (chunks l) (drop (oldestCursor l) hist).
Proof.
  intros [_ Hw _ (start & E & Hh) _]. unfold oldestCursor. destruct (chunks l) as [|c cs].
  - cbn in Hh. assert (Hl : length (drop start hist) = 0) by (by rewrite Hh).
    rewrite length_drop in Hl. split; [lia|]. cbn. apply drop_ge. lia.
  - destruct Hh as [Ec H]. rewrite Ec. by split.
Qed.

Lemma assembled_length e max cs acc n :
  codePointLength acc <= n → n <= max →
  let '(acc', n') := assemble e max cs acc n in codePointLength acc' <= n' /\ n' <= max.
Proof.
  revert acc n. induction cs as [|c cs IH]; intros acc n Ha Hn; cbn [assemble]; [done|].
  destruct (Nat.leb_spec max n); [done|]. destruct (Nat.leb_spec (startCursor c + codePointLength (text c)) e);
    [by apply IH|].
  set (piece := sliceCodePoints _ _ _). apply IH.
  - pose proof (length_points_app acc piece). unfold js_app. lia.
  - assert (codePointLength piece <= max - n); [|lia].
    unfold piece, sliceCodePoints, codePointLength. rewrite points_slice, length_take. lia.
Qed.

(** A read is a slice of the history. *)
Definition slice_of (hist : list jsstr) (l : OutputLog) (after max : nat) (r : Reading) : Prop :=
  let oldest := writeCursor l - retainedCharacters l in
  let from := Nat.max after oldest in
  let got := take max (drop from hist) in
  output r = concat got ∧ nextCursor r = from + length got
  ∧ oldestAvailableCursor r = oldest ∧ cursorLapsed r = bool_decide (after < oldest)
  ∧ truncated r = bool_decide (nextCursor r < length hist ∨ after < oldest).

Lemma read_slice l hist after max r :
  holds l hist → read after max l = Ok r →
  (0 <= after ∧ 1 <= max)%Z ∧ slice_of hist l (Z.to_nat after) (Z.to_nat max) r.
Proof.
  intros H. unfold read. intros (? & Em%reject_Ok & (? & Ea%reject_Ok & Hr)%bind_Ok)%bind_Ok.
  split; [lia|]. destruct (oldest_start l hist H) as [Eo Hh].
  destruct H as [_ Hw _ _ _]. unfold slice_of.
  replace (writeCursor l - retainedCharacters l) with (oldestCursor l) by lia.
  set (a := Z.to_nat after) in *. set (m := Z.to_nat max) in *. set (o := oldestCursor l) in *.
  set (from := Nat.max a o) in *.
  pose proof (assembled_length from m (chunks l) [] 0 ltac:(cbn; lia) ltac:(lia)) as Hal.
  rewrite (assemble_spec from m (chunks l) o (drop o hist)) in Hr, Hal by (done || lia).
  rewrite drop_drop, Nat.sub_0_r in Hr, Hal. replace (o + (from - o)) with from in Hr, Hal by lia.
  cbn [app] in Hr, Hal. unfold truncateOutput in Hr.
  destruct (Nat.leb_spec (codePointLength (concat (take m (drop from hist)))) m); [|lia].
  injection Hr as <-. cbn [output nextCursor oldestAvailableCursor cursorLapsed truncated orb].
  split_and!; [done..| |].
  - apply eq_true_iff_eq. by rewrite Nat.ltb_lt, bool_decide_eq_true.
  - apply eq_true_iff_eq. rewrite orb_true_iff, Nat.ltb_lt, Z.ltb_lt, bool_decide_eq_true. lia.
Qed.

Lemma read_ok after max l : (0 <= after)%Z → (1 <= max)%Z → ∃ r, read after max l = Ok r.
Proof.
  intros Ha Hm. unfold read, reject.
  destruct (Z.ltb_spec max 1); [lia|]. destruct (Z.ltb_spec after 0); [lia|]. cbn [mbind res_bind].
  destruct (assemble _ _ _ _ _) as [x n]. destruct (truncateOutput x _) as [out cut]. eauto.
Qed.

(** The newest output is kept. *)
Lemma evict_loop_last max cs n : last (evict_loop max cs n).1 = last cs.
Proof.
  revert n. induction cs as [|c cs IH]; intros n; [done|]. cbn [evict_loop].
  destruct (_ && _) eqn:E; [|done]. rewrite IH. destruct cs; [|done].
  apply andb_true_iff in E as [_ E%Nat.ltb_lt]. cbn in E. lia.
Qed.

Lemma chunks_hold_last start cs hist c :
  chunks_hold start cs hist → last cs = Some c → codePointLength (text c) <= length hist.
Proof.
  revert start hist. induction cs as [|x cs IH]; intros start hist; [done|].
  intros [_ (later & -> & H)] El. rewrite length_app. destruct cs as [|y cs].
  - injection El as <-. unfold codePointLength. lia.
  - pose proof (IH _ _ H El). lia.
Qed.

Lemma append_keeps o l hist :
  holds l hist → Nat.min (maxCharacters l) (codePointLength o) <= retainedCharacters (append o l).
Proof.
  intros H. pose proof (append_holds l hist o H) as H'.
  destruct (oldest_start _ _ H') as [Eo Hh]. destruct H' as [_ Hw _ _ _].
  assert (Hlen : length (drop (oldestCursor (append o l)) (hist ++ points o))
                 = retainedCharacters (append o l)) by (rewrite length_drop; lia).
  rewrite <- Hlen. destruct o as [|u o0]; [cbn; lia|].
  assert (∃ c, last (chunks (append (u :: o0) l)) = Some c
               ∧ codePointLength (text c) = Nat.min (maxCharacters l) (codePointLength (u :: o0)))
    as (c & El & Ec); [|rewrite <- Ec; by eapply chunks_hold_last].
  unfold append. destruct (Nat.ltb_spec (maxCharacters l) (codePointLength (u :: o0))).
  - eexists. split; [done|]. cbn [text]. unfold takeTail.
    destruct (Nat.eqb_spec (maxCharacters l) 0) as [E0|_]; [destruct H; lia|].
    unfold codePointLength at 1. rewrite points_from, length_drop. unfold codePointLength in *. lia.
  - unfold evict. cbn [maxCharacters chunks retainedCharacters writeCursor].
    destruct (evict_loop _ _ _) as [cs r] eqn:E. cbn [chunks].
    exists (mkChunk (writeCursor l) (u :: o0)). split; [|cbn [text]; lia].
    change cs with (cs, r).1. rewrite <- E, evict_loop_last. apply last_snoc.
Qed.

Lemma evict_loop_le max cs n : (evict_loop max cs n).2 <= n.
Proof.
  revert n. induction cs as [|c cs IH]; intros n; [done|]. cbn [evict_loop].
  destruct (_ && _); [|done]. etransitivity; [apply IH|]. lia.
Qed.

(** What is kept never reaches further back. *)
Lemma append_oldest o l hist :
  holds l hist →
  writeCursor l - retainedCharacters l
  <= writeCursor (append o l) - retainedCharacters (append o l).
Proof.
  intros H. destruct (append_holds l hist o H) as [_ Hw' _ _ _]. destruct H as [_ Hw Hr _ _].
  rewrite length_app in Hw'. assert (retainedCharacters (append o l) <= retainedCharacters l + codePointLength o
    ∨ writeCursor l + retainedCharacters (append o l) <= writeCursor (append o l)) as [|]; [|unfold codePointLength in *; lia..].
  unfold append. destruct o as [|u o0]; [left; lia|]. destruct (Nat.ltb_spec (maxCharacters l) (codePointLength (u :: o0))).
  - right. cbn [retainedCharacters writeCursor]. unfold takeTail.
    destruct (_ =? _); [unfold codePointLength; cbn [points length]; lia|].
    unfold codePointLength at 1. rewrite points_from, length_drop. unfold codePointLength. lia.
  - left. unfold evict. cbn [maxCharacters chunks retainedCharacters writeCursor].
    pose proof (evict_loop_le (maxCharacters l) (chunks l ++ [mkChunk (writeCursor l) (u :: o0)])
      (retainedCharacters l + codePointLength (u :: o0))) as Hle.
    by destruct (evict_loop _ _ _).
Qed.

(** ** The outputs of a process *)

(** The log of the outputs of a process. *)
Definition logged (max : nat) (outputs : list jsstr) : OutputLog :=
  foldl (λ l o, append o l) (mkLog [] 0 0 max) outputs.

Lemma logged_snoc max os o : logged max (os ++ [o]) = append o (logged max os).
Proof. unfold logged. by rewrite foldl_app. Qed.

Lemma history_snoc os o : history (os ++ [o]) = history os ++ points o.
Proof. unfold history. rewrite List.map_app, concat_app. cbn. by rewrite app_nil_r. Qed.

Lemma logged_holds max os : 1 <= max → holds (logged max os) (history os).
Proof.
  intros Hm. induction os as [|o os IH] using rev_ind.
  - by apply (new_holds (Z.of_nat max)); unfold new_OutputLog, reject; destruct (Z.ltb_spec (Z.of_nat max) 1);
      [lia|]; cbn; rewrite Nat2Z.id.
  - rewrite logged_snoc, history_snoc. by apply append_holds.
Qed.

Lemma logged_max max os : maxCharacters (logged max os) = max.
Proof.
  induction os as [|o os IH] using rev_ind; [done|]. rewrite logged_snoc. unfold append.
  destruct o; [done|]. destruct (_ <? _); [done|]. unfold evict.
  by destruct (evict_loop _ _ _).
Qed.

Lemma logged_oldest max os os' :
  1 <= max →
  writeCursor (logged max os) - retainedCharacters (logged max os)
  <= writeCursor (logged max (os ++ os')) - retainedCharacters (logged max (os ++ os')).
Proof.
  intros Hm. induction os' as [|o os' IH] using rev_ind; [by rewrite app_nil_r|].
  etransitivity; [exact IH|]. rewrite app_assoc, logged_snoc.
  by apply (append_oldest o _ (history (os ++ os'))), logged_holds.
Qed.

Lemma take_prefix_of {A} n (l k : list A) : l `prefix_of` k → take n l `prefix_of` take n k.
Proof.
  intros [m ->]. rewrite take_app. by eexists.
Qed.

Lemma concat_prefix (l k : list jsstr) : l `prefix_of` k → concat l `prefix_of` concat k.
Proof. intros [m ->]. rewrite concat_app. by eexists. Qed.

(** C35: A bounded log of output implements the sequence of all characters ever written.  It keeps
    at most its bound, and of the newest output as much as the bound allows; a read at a cursor
    succeeds, destroys nothing and returns exactly the slice of the sequence from that cursor, or
    from the oldest character kept, which it then says; and a read that is repeated later returns
    at least what it returned, or says that it lapsed. *)
Theorem log_implements_history max os os' after limit :
  1 <= max → (0 <= after)%Z → (1 <= limit)%Z →
  retainedCharacters (logged max os) <= max
  ∧ (∀ o, Nat.min max (codePointLength o) <= retainedCharacters (logged max (os ++ [o])))
  ∧ ∃ r r', read after limit (logged max os) = Ok r
      ∧ slice_of (history os) (logged max os) (Z.to_nat after) (Z.to_nat limit) r
      ∧ read after limit (logged max (os ++ os')) = Ok r'
      ∧ (cursorLapsed r' = true ∨ output r `prefix_of` output r' ∧ cursorLapsed r = false).
Proof.
  intros Hm Ha Hl. pose proof (logged_holds max os Hm) as H.
  pose proof (logged_holds max (os ++ os') Hm) as H'. pose proof (logged_max max os) as Em.
  split; [rewrite <- Em at 2; apply H|]. split.
  { intros o. rewrite logged_snoc, <- Em at 1. by apply (append_keeps o _ (history os)). }
  destruct (read_ok after limit (logged max os) Ha Hl) as [r Hr].
  destruct (read_ok after limit (logged max (os ++ os')) Ha Hl) as [r' Hr'].
  exists r, r'. pose proof (read_slice _ _ _ _ r H Hr) as [_ Hs].
  pose proof (read_slice _ _ _ _ r' H' Hr') as [_ Hs'].
  split_and!; [done..|]. destruct Hs as (E1 & E2 & E3 & E4 & _), Hs' as (F1 & F2 & F3 & F4 & _).
  set (a := Z.to_nat after) in *.
  pose proof (logged_oldest max os os' Hm) as Hold.
  rewrite F4. case_bool_decide as Hc; [by left|]. right. split; [|rewrite E4; apply bool_decide_eq_false; lia].
  rewrite E1, F1, !Nat.max_l by lia. apply concat_prefix, take_prefix_of.
  unfold history. rewrite List.map_app, concat_app, drop_app. by eexists.
Qed.

(** ** A reader that follows the cursors *)

Inductive Event := Wrote (o : jsstr) | Polled (limit : Z).

(** The log, the cursor of the reader, what it has read, and whether it was told of a lapse. *)
Record Observer := mkObserver { log : OutputLog; at_ : nat; seen : jsstr; lost : bool }.

Definition observe (s : Observer) (e : Event) : Observer :=
  match e with
  | Wrote o => mkObserver (append o (log s)) (at_ s) (seen s) (lost s)
  | Polled limit =>
      match read (Z.of_nat (at_ s)) limit (log s) with
      | Ok r => mkObserver (log s) (nextCursor r) (seen s +s output r) (lost s || cursorLapsed r)
      | Err _ => s
      end
  end.

Definition written (events : list Event) : list jsstr :=
  omap (λ e, match e with Wrote o => Some o | Polled _ => None end) events.

Definition observed (max : nat) (events : list Event) : Observer :=
  foldl observe (mkObserver (mkLog [] 0 0 max) 0 [] false) events.

Lemma written_snoc events e :
  written (events ++ [e]) = written events ++ match e with Wrote o => [o] | Polled _ => [] end.
Proof. unfold written. rewrite omap_app. by destruct e. Qed.

Lemma observed_spec max events :
  1 <= max →
  let s := observed max events in
  log s = logged max (written events) ∧ at_ s <= length (history (written events))
  ∧ (lost s = false → seen s = concat (take (at_ s) (history (written events)))).
Proof.
  intros Hm. cbv zeta. induction events as [|e events (El & Ha & Hs)] using rev_ind; [done|].
  rewrite written_snoc. unfold observed in *. rewrite foldl_app. cbn [foldl].
  set (s := foldl _ _ events) in *. destruct e as [o|limit]; cbn [observe].
  - rewrite logged_snoc, history_snoc, length_app. cbn [log at_ seen lost]. rewrite El.
    split_and!; [done|lia|]. intros Hl. by rewrite take_app_le, Hs.
  - rewrite app_nil_r. pose proof (logged_holds max (written events) Hm) as H. rewrite <- El in H.
    destruct (read _ limit (log s)) as [r|] eqn:Hr; [|done]. cbn [log at_ seen lost].
    destruct (read_slice _ _ _ _ r H Hr) as [_ (E1 & E2 & _ & E4 & _)].
    rewrite Nat2Z.id in E1, E2, E4. destruct H as [_ Hw _ _ _].
    set (hist := history _) in *. split_and!; [done| |].
    + rewrite E2, length_take, length_drop. lia.
    + intros [Hl Hc]%orb_false_iff. rewrite E4 in Hc. apply bool_decide_eq_false in Hc.
      rewrite Nat.max_l in E1, E2 by lia. rewrite (Hs Hl), E1, E2. unfold js_app.
      rewrite <- concat_app. f_equal. rewrite length_take, length_drop.
      rewrite take_take_drop.
      destruct (decide (Z.to_nat limit <= length hist - at_ s)); [f_equal; lia|].
      unfold jsstr in *. rewrite !take_ge by lia. done.
Qed.

(** C36: A reader that follows the cursors of the log misses nothing unless it is told.  However its
    polls and the outputs of the process are interleaved and whatever the limits of the polls: if
    none of them said that it lapsed, what the reader has seen is the output up to its cursor,
    without holes or repetitions; a poll moves it on whenever there is more to read, and when its
    cursor is the end it has seen everything the process wrote. *)
Theorem follower_misses_nothing max events limit :
  1 <= max → (1 <= limit)%Z →
  let s := observed max events in
  (lost s = false → seen s = concat (take (at_ s) (history (written events))))
  ∧ (lost s = false → at_ s = writeCursor (log s) → seen s = concat (written events))
  ∧ (at_ s < writeCursor (log s) → at_ s < at_ (observe s (Polled limit))).
Proof.
  intros Hm Hl s. destruct (observed_spec max events Hm) as (El & Ha & Hs). fold s in El, Ha, Hs.
  pose proof (logged_holds max (written events) Hm) as H. rewrite <- El in H.
  split; [exact Hs|]. split.
  - intros Hlost E. rewrite (Hs Hlost), E. destruct H as [_ -> _ _ _]. rewrite take_ge by done.
    unfold history. clear. induction (written events) as [|o os IH]; [done|].
    cbn. by rewrite concat_app, concat_points, IH.
  - intros Hlt. cbn [observe].
    destruct (read_ok (Z.of_nat (at_ s)) limit (log s) ltac:(lia) Hl) as [r Hr]. rewrite Hr.
    destruct (read_slice _ _ _ _ r H Hr) as [_ (_ & E2 & _)]. rewrite Nat2Z.id in E2.
    destruct H as [_ Hw _ (start & Es & _) _]. cbn [at_].
    rewrite E2, length_take, length_drop.
    assert (retainedCharacters (log s) <= writeCursor (log s)) by lia.
    destruct (decide (at_ s < writeCursor (log s) - retainedCharacters (log s))); lia.
Qed.

(** ** The head and the tail *)

Definition fed (max : nat) (outputs : list jsstr) : HeadTailBuffer :=
  foldl (λ b o, buffer_append o b) (mkBuffer [] [] 0 max) outputs.

(** What a buffer holds of the characters written to it. *)
Definition kept (max : nat) (hist : list jsstr) (b : HeadTailBuffer) : Prop :=
  totalCharacters b = length hist ∧ b_maxCharacters b = max
  ∧ if decide (length hist <= max) then head b = concat hist ∧ tail b = []
    else let '(h, t) := splitBudget max in
         head b = concat (take h hist) ∧ tail b = concat (drop (length hist - t) hist).

Lemma budget_sum max h t : splitBudget max = (h, t) → h + t = max ∧ t <= h.
Proof.
  unfold splitBudget. intros E.
  assert (h = (max + 1) / 2 ∧ t = max / 2) as [-> ->] by (split; congruence).
  pose proof (Nat.div_mod_eq (max + 1) 2). pose proof (Nat.div_mod_eq max 2).
  pose proof (Nat.mod_upper_bound (max + 1) 2 ltac:(lia)).
  pose proof (Nat.mod_upper_bound max 2 ltac:(lia)). lia.
Qed.

Lemma takeTail_concat (ps : list jsstr) t :
  separate ps → takeTail (concat ps) t = concat (drop (length ps - t) ps).
Proof.
  intros Hs. unfold takeTail. rewrite points_concat by done.
  destruct (Nat.eqb_spec t 0); [|done]. subst t. by rewrite Nat.sub_0_r, drop_all.
Qed.

Lemma takeHead_concat (ps : list jsstr) h :
  separate ps → takeHead (concat ps) h = concat (take h ps).
Proof. intros Hs. unfold takeHead, sliceCodePoints. by rewrite points_concat, drop_0, Nat.sub_0_r. Qed.

Lemma buffer_append_kept max hist b o :
  kept max hist b → separate (hist ++ points o) → kept max (hist ++ points o) (buffer_append o b).
Proof.
  intros (Et & Em & Hk) Hs. unfold buffer_append. destruct o as [|u o0]; [by rewrite app_nil_r|].
  set (o := u :: o0) in *. rewrite Et, Em. destruct (splitBudget max) as [h t] eqn:Eb.
  destruct (budget_sum max h t Eb) as [Ht _].
  assert (El : length (hist ++ points o) = length hist + codePointLength o) by apply length_app.
  unfold kept. rewrite El, Eb.
  assert (Eo : concat (points o) = o) by apply concat_points.
  destruct (Nat.leb_spec (length hist + codePointLength o) max) as [Hle|Hgt]; cbn [totalCharacters b_maxCharacters head tail].
  - rewrite decide_True in Hk by lia. destruct Hk as [-> ->]. rewrite decide_True by done.
    by rewrite concat_app, Eo.
  - rewrite (decide_False (P := _ + _ <= max)) by lia. destruct (Nat.leb_spec (length hist) max) as [Hp|Hp].
    + rewrite decide_True in Hk by done. destruct Hk as [-> _]. cbn [totalCharacters b_maxCharacters head tail].
      assert (Ef : concat hist +s o = concat (hist ++ points o)) by (by rewrite concat_app, Eo).
      rewrite Ef, takeHead_concat, takeTail_concat, El by done. done.
    + rewrite decide_False in Hk by lia. destruct Hk as [Hh Htl]. cbn [totalCharacters b_maxCharacters head tail].
      split_and!; [done..| |].
      * rewrite Hh, take_app_le; [done|lia].
      * assert (Ef : tail b +s o = concat (drop (length hist - t) (hist ++ points o))).
        { transitivity (concat (drop (length hist - t) hist) ++ concat (points o)).
          - by rewrite <- Htl, Eo.
          - rewrite drop_app_le by lia. by rewrite concat_app. }
        rewrite Ef, takeTail_concat by (by apply separate_drop). rewrite drop_drop, length_drop, El.
        do 2 f_equal. lia.
Qed.

Lemma separate_prefix ps qs : separate (ps ++ qs) → separate ps.
Proof. intros H. rewrite <- (take_app_length ps qs). by apply separate_take. Qed.

(** The buffer keeps the first half and the second half of its bound, when no output ends inside a
    surrogate pair; what it drains says how many characters are missing. *)
Lemma buffer_keeps_head_and_tail max outputs :
  separate (history outputs) → kept max (history outputs) (fed max outputs).
Proof.
  induction outputs as [|o os IH] using rev_ind; intros Hs.
  - by repeat split.
  - unfold fed. rewrite foldl_app. cbn [foldl]. rewrite history_snoc in *.
    apply buffer_append_kept; [|done]. apply IH. by eapply separate_prefix.
Qed.

(** Two outputs of one character each that join to one: the buffer has room for them and still
    says that a character was omitted. *)
Example cut_pair_counts_twice :
  (λ x, x.1) <$> drain 100 (fed 10 [[55357%N]; [56832%N]])
  = Ok ([55357%N; 56832%N] +s [LF] +s "... output truncated (1 characters omitted) ..." +s [LF], true).
Proof. vm_compute. reflexivity. Qed.

(** ** A process that writes eight characters to a log of five *)

Definition ex_outputs : list jsstr := [js "abc"; js "de"; js "fgh"].

Lemma log_implements_history_witness :
  ∃ r, read 0 4 (logged 5 ex_outputs) = Ok r ∧ output r = js "defg" ∧ cursorLapsed r = true.
Proof.
  destruct (log_implements_history 5 ex_outputs [] 0 4) as (_ & _ & r & _ & Hr & Hs & _); [lia..|].
  exists r. split; [done|]. destruct Hs as (E1 & _ & _ & E4 & _). rewrite E1, E4. by vm_compute.
Defined.

Definition ex_events : list Event :=
  [Wrote "abc"; Polled 2; Wrote "de"; Polled 2; Wrote "fgh"; Polled 10].

Lemma follower_misses_nothing_witness :
  seen (observed 5 ex_events) = js "abcdefgh".
Proof.
  destruct (follower_misses_nothing 5 ex_events 1) as (_ & H & _); [lia..|].
  rewrite H; by vm_compute.
Defined.

End ProcessOutput.
