(* ===== verification/MissionEvidence.v ===== *)
(** * Mission evidence and contracts ([src/src/mission/])

    The authorities of the mission ledger: which observation decides a criterion or a finding
    ([evidence-authority.ts]), how findings are identified and may move ([finding-authority.ts]),
    which contracts are well formed and how they are fingerprinted ([contract-authority.ts]), and
    when a correction loop goes on ([correction-policy.ts]).

    Parameters are the SHA-256 digest and the order of [localeCompare].  [toLowerCase] is that of
    [JsString]; a finding's text is lowered and then loses every unit that is not ASCII. *)

From S2P Require Import Prelude JsString Json Sql CanonicalJson SessionState WorkSessions Regex.

Module MissionEvidence.
Import WorkSessions CanonicalJson Regex.

(** ** The vocabulary of the ledger *)

Inductive MissionEvidenceSource :=
| server_test_runner | runtime_probe | reviewer_manual_attestation | agent_claim.

#[export] Instance MissionEvidenceSource_eq_dec : EqDecision MissionEvidenceSource.
Proof. solve_decision. Defined.

Definition source_name (s : MissionEvidenceSource) : jsstr :=
  match s with
  | server_test_runner => "server_test_runner"
  | runtime_probe => "runtime_probe"
  | reviewer_manual_attestation => "reviewer_manual_attestation"
  | agent_claim => "agent_claim"
  end.

Inductive VerificationType :=
| test | code_inspection | runtime_behavior | security_review | manual_review.

#[export] Instance VerificationType_eq_dec : EqDecision VerificationType.
Proof. solve_decision. Defined.

Definition type_name (t : VerificationType) : jsstr :=
  match t with
  | test => "test"
  | code_inspection => "code_inspection"
  | runtime_behavior => "runtime_behavior"
  | security_review => "security_review"
  | manual_review => "manual_review"
  end.

Inductive EvidenceStatus := ev_passed | ev_failed | ev_inconclusive.

#[export] Instance EvidenceStatus_eq_dec : EqDecision EvidenceStatus.
Proof. solve_decision. Defined.

Definition evidence_status_name (s : EvidenceStatus) : jsstr :=
  match s with ev_passed => "passed" | ev_failed => "failed" | ev_inconclusive => "inconclusive" end.

Definition Snapshot : Type := WorkspaceSnapshotKind * jsstr.

(** The submission a decision is about, after [normalizeCurrentApprovalContext]. *)
Record CurrentApprovalContext := mkContext {
  submissionId : option jsstr;
  snapshot : option Snapshot;
  reviewEpoch : option Z
}.

(** ** Evidence ([evidence-authority.ts]) *)

(** An [EvidenceRecord] is a row of [mission_evidence]; the three columns of its snapshot hold one
    identity. *)
Record EvidenceRecord := mkEvidence {
  e_id : jsstr;
  e_missionId : jsstr;
  e_criterionId : option jsstr;
  e_findingId : option jsstr;
  e_submissionId : option jsstr;
  e_reviewEpoch : option Z;
  e_snapshot : option Snapshot;
  e_leaseNonce : option jsstr;
  e_actorPrincipal : option jsstr;
  e_command : option jsstr;
  e_outputDigest : option jsstr;
  e_attempt : option Z;
  e_status : EvidenceStatus;
  e_details : json;
  e_createdAt : Z
}.

(** [details.source], when it is a string *)
Definition details_source (details : json) : option jsstr :=
  match details with JObj fields => as_string (jfield "source" fields) | _ => None end.

Definition is_source (s : MissionEvidenceSource) (e : EvidenceRecord) : bool :=
  bool_decide (details_source (e_details e) = Some (source_name s)).

Definition isEvidenceSourceAllowed (t : VerificationType) (source : jsstr) : bool :=
  match t with
  | test => source =s source_name server_test_runner
  | runtime_behavior => source =s source_name runtime_probe
  | code_inspection | security_review | manual_review =>
      source =s source_name reviewer_manual_attestation
  end.

Inductive Scope := of_criterion (k : jsstr) | of_finding (k : jsstr).

Definition scope_id (q : Scope) : jsstr := match q with of_criterion k | of_finding k => k end.

Definition in_scope_of (q : Scope) (e : EvidenceRecord) : bool :=
  match q with
  | of_criterion k => bool_decide (e_criterionId e = Some k)
  | of_finding k => bool_decide (e_findingId e = Some k)
  end.

Definition evidenceAttempt (e : EvidenceRecord) : Z := default (-1)%Z (e_attempt e).

(** The record is of the submission, its snapshot and its review epoch. *)
Definition at_context (c : CurrentApprovalContext) (e : EvidenceRecord) : bool :=
  bool_decide (e_submissionId e = submissionId c) && bool_decide (e_snapshot e = snapshot c)
  && match reviewEpoch c with None => true | Some n => bool_decide (e_reviewEpoch e = Some n) end.

Section Authority.
Context (localeCompare : jsstr → jsstr → Z).

(** The comparison of the sort is not positive. *)
Definition le_evidence (a b : EvidenceRecord) : bool :=
  let attemptDelta := (evidenceAttempt a - evidenceAttempt b)%Z in
  if negb (attemptDelta =? 0)%Z then (attemptDelta <=? 0)%Z
  else if negb (e_createdAt a =? e_createdAt b)%Z then (e_createdAt a <=? e_createdAt b)%Z
  else (localeCompare (e_id a) (e_id b) <=? 0)%Z.

Definition selectEffectiveEvidenceResult (evidence : list EvidenceRecord) (scope : Scope)
  (context : CurrentApprovalContext) (allowedSource : option (jsstr → bool)) : option EvidenceRecord :=
  match submissionId context, snapshot context with
  | Some (_ :: _), Some _ =>
      match scope_id scope with
      | [] => None
      | _ =>
          last (order_by le_evidence
            (List.filter (λ e,
               match allowedSource with
               | None => true
               | Some allowed =>
                   match details_source (e_details e) with
                   | Some s => nonempty s && allowed s
                   | None => false
                   end
               end
               && in_scope_of scope e && at_context context e
               && truthy (details_source (e_details e))) evidence))
      end
  | _, _ => None
  end.

(** The complete identity of a submission under review. *)
Record ReviewedSubmission := mkReviewed {
  q_submissionId : jsstr;
  q_snapshot : Snapshot;
  q_reviewEpoch : Z
}.

Definition context_of (q : ReviewedSubmission) : CurrentApprovalContext :=
  mkContext (Some (q_submissionId q)) (Some (q_snapshot q)) (Some (q_reviewEpoch q)).

Record Resolution := mkResolution {
  resolved : bool;
  reasons : list jsstr;
  qualifyingEvidenceIds : list jsstr
}.

(** The observations that count for a finding: for a required command those of the server, and a
    reviewer's attestation when there are no commands. *)
Definition qualifies (findingId : jsstr) (command : option jsstr) (q : ReviewedSubmission)
  (e : EvidenceRecord) : bool :=
  bool_decide (e_findingId e = Some findingId)
  && match command with
     | Some c =>
         bool_decide (e_command e = Some c)
         && (is_source server_test_runner e || is_source runtime_probe e)
     | None => is_source reviewer_manual_attestation e
     end
  && at_context (context_of q) e.

Definition effective_observation (evidence : list EvidenceRecord) (findingId : jsstr)
  (command : option jsstr) (q : ReviewedSubmission) : option EvidenceRecord :=
  selectEffectiveEvidenceResult (List.filter (qualifies findingId command q) evidence)
    (of_finding findingId) (context_of q) None.

(** What a required command adds to the verdict. *)
Definition check_command (evidence : list EvidenceRecord) (findingId : jsstr) (q : ReviewedSubmission)
  (r : Resolution) (command : jsstr) : Resolution :=
  match effective_observation evidence findingId (Some command) q with
  | None =>
      mkResolution false
        (reasons r ++ ["Finding " +s findingId +s
           " is missing current verification for required command " +s command +s "."])
        (qualifyingEvidenceIds r)
  | Some e =>
      if bool_decide (e_status e = ev_passed)
      then mkResolution (resolved r) (reasons r) (qualifyingEvidenceIds r ++ [e_id e])
      else mkResolution false
             (reasons r ++ ["Finding " +s findingId +s "'s latest verification for " +s command
                +s " is " +s evidence_status_name (e_status e) +s "; a passing result is required."])
             (qualifyingEvidenceIds r)
  end.

Definition evaluateEffectiveFindingResolution (evidence : list EvidenceRecord)
  (requiredCommands : list jsstr) (findingId : jsstr) (q : ReviewedSubmission) : Resolution :=
  match requiredCommands with
  | [] =>
      match effective_observation evidence findingId None q with
      | Some e =>
          if bool_decide (e_status e = ev_passed) then mkResolution true [] [e_id e]
          else mkResolution false
                 ["Finding " +s findingId +s " has no current passing independent evidence."] []
      | None =>
          mkResolution false
            ["Finding " +s findingId +s " has no current passing independent evidence."] []
      end
  | _ =>
      foldl (check_command evidence findingId q) (mkResolution true [] []) requiredCommands
  end.

(** The first record of the context with the status; nothing calls it. *)
Definition findCurrentCriterionEvidence (evidence : list EvidenceRecord) (t : VerificationType)
  (context : CurrentApprovalContext) (wanted : EvidenceStatus) : option EvidenceRecord :=
  match submissionId context, snapshot context with
  | Some (_ :: _), Some _ =>
      List.find (λ e, bool_decide (e_status e = wanted) && at_context context e
                      && isEvidenceSourceAllowed t (or_empty (details_source (e_details e)))) evidence
  | _, _ => None
  end.

(** The passing records that may resolve a finding, and the commands none of them ran. *)
Definition eligible (requiredCommands : list jsstr) (q : ReviewedSubmission) (e : EvidenceRecord) : bool :=
  bool_decide (e_status e = ev_passed) && at_context (context_of q) e
  && if negb (Nat.eqb (length requiredCommands) 0)
     then (is_source server_test_runner e || is_source runtime_probe e)
          && truthy (e_command e) && existsb (js_eqb (or_empty (e_command e))) requiredCommands
     else is_source reviewer_manual_attestation e.

Definition evaluateFindingResolutionEvidence (evidence : list EvidenceRecord)
  (requiredCommands : list jsstr) (q : ReviewedSubmission) : list EvidenceRecord * list jsstr :=
  let found := List.filter (eligible requiredCommands q) evidence in
  (found,
   List.filter (λ c, negb (existsb (λ e, truthy (e_command e) && bool_decide (e_command e = Some c)) found))
     requiredCommands).

End Authority.

(** ** Findings ([finding-authority.ts]) *)

Inductive FindingStatus := f_open | claimed_resolved | verified_resolved | waived.

#[export] Instance FindingStatus_eq_dec : EqDecision FindingStatus.
Proof. solve_decision. Defined.

Definition finding_status_name (s : FindingStatus) : jsstr :=
  match s with
  | f_open => "open"
  | claimed_resolved => "claimed_resolved"
  | verified_resolved => "verified_resolved"
  | waived => "waived"
  end.

Inductive Error :=
| snapshot_error (e : WsError)
| verified_directly | waiver_reason_missing
| no_required_criterion | duplicate_criterion (k : jsstr) | dependencies_without_id
| unknown_dependency (k : jsstr) | self_dependency (k : jsstr) | dependency_cycle (k : jsstr)
| command_missing | probe_missing | command_unexpected | probe_unexpected
| claim_needs_outcome | stable_unsupported | behavior_missing | final_verification_missing
| contract_conflict | mission_exists | criterion_exists
| blank_command | finding_exists | foreign_finding | foreign_criterion | source_refused
| not_claimed | identity_missing | mission_missing | not_current | not_resolved (why : list jsstr)
| report_without_snapshot
| outcome_not_required | principal_missing | not_firsthand | behavior_not_declared | external_evidence_missing.

Definition assertFindingStatusTransition (status : FindingStatus) (waiverReason : option jsstr)
  : res Error unit :=
  _ ← reject (bool_decide (status = verified_resolved)) verified_directly;
  reject (bool_decide (status = waived) && negb (nonempty (trim (or_empty waiverReason))))
    waiver_reason_missing.

(** [\b(?:line|ln|at)\s*\d+\b] under the flag [i], and [\b\d+(?::\d+)+\b] *)
Definition is_digit (c : N) : bool := (48 <=? c)%N && (c <=? 57)%N.

Definition line_pattern : re :=
  Seq Boundary (Seq (alternatives [lit_i "line"; lit_i "ln"; lit_i "at"])
    (Seq (Star (Chr is_space)) (Seq (Plus (Chr is_digit)) Boundary))).

Definition position_pattern : re :=
  Seq Boundary (Seq (Plus (Chr is_digit))
    (Seq (Plus (Seq (lit ":") (Plus (Chr is_digit)))) Boundary)).

(** [[^a-z0-9_./ -]+] *)
Definition foreign_unit (c : N) : bool :=
  negb (((97 <=? c) && (c <=? 122))%N || is_digit c || one_of "_./ -" c).

Definition normalizeFindingText (value : jsstr) : jsstr :=
  let constant (t : jsstr) (_ : jsstr) (_ : option jsstr) := t in
  trim (replace_all (Plus (Chr is_space)) (constant " ")
    (replace_all (Plus (Chr foreign_unit)) (constant " ")
       (replace_all position_pattern (constant "position")
          (replace_all line_pattern (constant "line") (toLowerCase value))))).

Definition locations (evidence : list json) : list jsstr :=
  List.concat (List.map (λ entry,
    match entry with
    | JObj fields =>
        List.map normalizeFindingText
          (omap (λ k : jsstr, as_string (jfield k fields)) [js "file"; js "path"; js "symbol"])
    | _ => []
    end) evidence).

Definition le_units (a b : jsstr) : bool := negb (js_ltb b a).

Definition fingerprintFinding (sha256 : jsstr → jsstr) (category scope description requiredAction : jsstr)
  (evidence : list json) : jsstr :=
  sha256 (render (JObj
    [(js "category", JStr (normalizeFindingText category));
     (js "scope", JStr (normalizeFindingText scope));
     (js "locations", JArr (List.map JStr (set_of (order_by le_units (locations evidence)))));
     (js "requiredAction", JStr (normalizeFindingText requiredAction));
     (js "description", JStr (normalizeFindingText description))])).

(** The entries of [incoming] whose text is new, after those of [existing]. *)
Definition mergeFindingEvidence (existing incoming : list json) : list json :=
  (foldl (λ '(seen, merged) entry,
     let encoded := render entry in
     if existsb (js_eqb encoded) seen then (seen, merged) else (encoded :: seen, merged ++ [entry]))
     (List.map render existing, existing) incoming).2.

(** ** Contracts ([contract-authority.ts]) *)

Record MissionCriterionInput := mkCriterionInput {
  ci_id : option jsstr;
  ci_description : jsstr;
  ci_required : option bool;
  ci_verificationType : option VerificationType;
  ci_verificationCommand : option jsstr;
  ci_runtimeProbe : option json;
  ci_affectedAreas : option (list jsstr);
  ci_dependsOnCriterionIds : option (list jsstr);
  ci_verificationGroup : option jsstr;
  ci_verificationScope : option jsstr;
  ci_finalOnly : option bool;
  ci_mutatesWorkspace : option bool;
  ci_commandVersion : option jsstr
}.

Inductive OutcomeEvidenceLevel :=
| implementation_verified | integration_verified | outcome_verified | operationally_stable.

#[export] Instance OutcomeEvidenceLevel_eq_dec : EqDecision OutcomeEvidenceLevel.
Proof. solve_decision. Defined.

Definition level_name (l : OutcomeEvidenceLevel) : jsstr :=
  match l with
  | implementation_verified => "implementation_verified"
  | integration_verified => "integration_verified"
  | outcome_verified => "outcome_verified"
  | operationally_stable => "operationally_stable"
  end.

Definition OUTCOME_EVIDENCE_RANK (l : OutcomeEvidenceLevel) : Z :=
  match l with
  | implementation_verified => 0
  | integration_verified => 1
  | outcome_verified => 2
  | operationally_stable => 3
  end.

(** [MissionContractInput]; [mi_baseline] is the identity its three baseline fields normalize to,
    and [mi_realWorldOutcome] says that its claim is [real_world_outcome]. *)
Record MissionContractInput := mkContractInput {
  mi_workSessionId : jsstr;
  mi_workspaceSessionId : jsstr;
  mi_objective : jsstr;
  mi_desiredOutcome : option jsstr;
  mi_constraints : option (list json);
  mi_nonGoals : option (list jsstr);
  mi_acceptanceCriteria : option (list MissionCriterionInput);
  mi_userLockedFields : option (list jsstr);
  mi_supervisorInstructions : option jsstr;
  mi_baseline : option Snapshot;
  mi_maxCorrectionRounds : option Z;
  mi_finalVerification : option (list jsstr);
  mi_reviewCoverage : option (list jsstr);
  mi_outcomeEvidence : option OutcomeEvidenceLevel;
  mi_realWorldOutcome : bool;
  mi_outcomeExpectedBehavior : option jsstr
}.

Definition dependencies (c : MissionCriterionInput) : list jsstr := default [] (ci_dependsOnCriterionIds c).

(** The first loop of [validateMissionCriterionContract]: the ids of the criteria. *)
Fixpoint criterion_ids (criteria : list MissionCriterionInput) (ids : list jsstr)
  : res Error (list jsstr) :=
  match criteria with
  | [] => Ok ids
  | c :: rest =>
      ids' ← (if truthy (ci_id c)
              then _ ← reject (existsb (js_eqb (or_empty (ci_id c))) ids)
                         (duplicate_criterion (or_empty (ci_id c)));
                   Ok (or_empty (ci_id c) :: ids)
              else Ok ids);
      _ ← reject (negb (Nat.eqb (length (dependencies c)) 0) && negb (truthy (ci_id c)))
            dependencies_without_id;
      criterion_ids rest ids'
  end.

(** The second loop: every dependency is a criterion, and another one. *)
Fixpoint check_all {A} (check : A → res Error unit) (l : list A) : res Error unit :=
  match l with [] => Ok tt | a :: rest => _ ← check a; check_all check rest end.

Definition check_dependencies (ids : list jsstr) (c : MissionCriterionInput) : res Error unit :=
  check_all (λ d,
    _ ← ensure (existsb (js_eqb d) ids) (unknown_dependency d);
    reject (bool_decide (ci_id c = Some d)) (self_dependency d)) (dependencies c).

(** [byId]: the last criterion of an id. *)
Definition byId (criteria : list MissionCriterionInput) (k : jsstr) : option MissionCriterionInput :=
  List.find (λ c, truthy (ci_id c) && bool_decide (ci_id c = Some k)) (rev criteria).

Definition graph (criteria : list MissionCriterionInput) (k : jsstr) : list jsstr :=
  match byId criteria k with Some c => dependencies c | None => [] end.

(** One after the other, up to a failure. *)
Fixpoint walk_all (go : list jsstr → jsstr → option (res Error (list jsstr))) (visited : list jsstr)
  (ks : list jsstr) : option (res Error (list jsstr)) :=
  match ks with
  | [] => Some (Ok visited)
  | k :: ks =>
      match go visited k with
      | Some (Ok visited') => walk_all go visited' ks
      | other => other
      end
  end.

(** [walk]: the set [visited] after it; [fuel] bounds its depth. *)
Fixpoint walk (fuel : nat) (edges : jsstr → list jsstr) (visiting : list jsstr)
  (visited : list jsstr) (k : jsstr) : option (res Error (list jsstr)) :=
  match fuel with
  | 0 => None
  | S fuel =>
      if existsb (js_eqb k) visited then Some (Ok visited)
      else if existsb (js_eqb k) visiting then Some (Err (dependency_cycle k))
      else
        match walk_all (walk fuel edges (k :: visiting)) visited (edges k) with
        | Some (Ok visited') => Some (Ok (k :: visited'))
        | other => other
        end
  end.

Definition type_of_input (c : MissionCriterionInput) : VerificationType :=
  default (if truthy (ci_verificationCommand c) then test else manual_review) (ci_verificationType c).

(** The last loop: the command and the probe fit the type. *)
Definition check_type (c : MissionCriterionInput) : res Error unit :=
  let type := type_of_input c in
  _ ← reject (bool_decide (type = test)
              && negb (nonempty (trim (or_empty (ci_verificationCommand c))))) command_missing;
  _ ← reject (bool_decide (type = runtime_behavior) && bool_decide (ci_runtimeProbe c = None))
        probe_missing;
  _ ← reject (negb (bool_decide (type = test)) && truthy (ci_verificationCommand c))
        command_unexpected;
  reject (negb (bool_decide (type = runtime_behavior)) && negb (bool_decide (ci_runtimeProbe c = None)))
    probe_unexpected.

Definition validateMissionCriterionContract (criteria : list MissionCriterionInput)
  : option (res Error unit) :=
  let run {A} (m : res Error A) (k : A → option (res Error unit)) :=
    match m with Ok a => k a | Err e => Some (Err e) end in
  run (criterion_ids criteria []) (λ ids,
  run (check_all (check_dependencies ids) criteria) (λ _,
    let keys := omap (λ c, if truthy (ci_id c) then ci_id c else None) criteria in
    match walk_all (walk (S (length criteria)) (graph criteria) []) [] (set_of keys) with
    | None => None
    | Some (Err e) => Some (Err e)
    | Some (Ok _) => Some (check_all check_type criteria)
    end)).

(** *** Fingerprints *)

(** An array index, by which an object keeps its own order. *)
Fixpoint digits_value (acc : N) (s : jsstr) : option N :=
  match s with
  | [] => Some acc
  | c :: t => if is_digit c then digits_value (acc * 10 + (c - 48))%N t else None
  end.

Definition index_of (k : jsstr) : option N :=
  match k with
  | [] => None
  | [c] => if is_digit c then Some (c - 48)%N else None
  | c :: _ =>
      if (c =? 48)%N then None
      else match digits_value 0 k with
           | Some n => if (n <? 4294967295)%N then Some n else None
           | None => None
           end
  end.

(** [Object.fromEntries]: the fields of an object enumerate its indices first. *)
Definition enumerated {A} (fields : list (jsstr * A)) : list (jsstr * A) :=
  let le_index (a b : jsstr * A) := (default 0 (index_of a.1) <=? default 0 (index_of b.1))%N in
  order_by le_index (List.filter (λ kv, bool_decide (is_Some (index_of kv.1))) fields)
  ++ List.filter (λ kv, negb (bool_decide (is_Some (index_of kv.1)))) fields.

Definition opt_str (o : option jsstr) : json := match o with Some s => JStr s | None => JNull end.
Definition strs (o : option (list jsstr)) : json := JArr (List.map JStr (default [] o)).

Section Fingerprint.
Context (sha256 : jsstr → jsstr) (localeCompare : jsstr → jsstr → Z).

Definition le_name (a b : jsstr * json) : bool := (localeCompare a.1 b.1 <=? 0)%Z.

Fixpoint canonicalize (value : json) : json :=
  match value with
  | JArr items => JArr (List.map canonicalize items)
  | JObj fields =>
      JObj (enumerated (order_by le_name (List.map (λ kv, (kv.1, canonicalize kv.2)) fields)))
  | _ => value
  end.

Definition canonical_text (value : json) : jsstr := render (canonicalize value).
Definition le_canonical (a b : json) : bool :=
  (localeCompare (canonical_text a) (canonical_text b) <=? 0)%Z.

(** [id] is the field as the version of the fingerprint writes it. *)
Definition normalized_criterion (id : list (jsstr * json)) (c : MissionCriterionInput) : json :=
  JObj (id ++
    [(js "description", JStr (ci_description c));
     (js "priority", JStr (if default true (ci_required c) then "required" else "preferred"));
     (js "verificationType", JStr (type_name (type_of_input c)));
     (js "verificationCommand", opt_str (ci_verificationCommand c));
     (js "runtimeProbe", default JNull (ci_runtimeProbe c));
     (js "affectedAreas", strs (ci_affectedAreas c));
     (js "dependsOnCriterionIds", strs (ci_dependsOnCriterionIds c));
     (js "verificationGroup", opt_str (ci_verificationGroup c));
     (js "verificationScope", JStr (default (js "full") (ci_verificationScope c)));
     (js "finalOnly", JBool (default false (ci_finalOnly c)));
     (js "mutatesWorkspace", JBool (default false (ci_mutatesWorkspace c)));
     (js "commandVersion", opt_str (ci_commandVersion c))]).

Definition locked_by_default : list jsstr :=
  [js "objective"; js "desiredOutcome"; js "constraints"; js "nonGoals"].

(** The fields both versions share, up to [outcomeEvidence], and the criteria. *)
Definition contract_fields (i : MissionContractInput) : list (jsstr * json) :=
  [(js "workSessionId", JStr (mi_workSessionId i));
   (js "workspaceSessionId", JStr (mi_workspaceSessionId i));
   (js "objective", JStr (mi_objective i));
   (js "desiredOutcome", JStr (default (mi_objective i) (mi_desiredOutcome i)));
   (js "constraints", JArr (default [] (mi_constraints i)));
   (js "nonGoals", strs (mi_nonGoals i));
   (js "userLockedFields", JArr (List.map JStr (default locked_by_default (mi_userLockedFields i))));
   (js "supervisorInstructions", opt_str (mi_supervisorInstructions i));
   (js "baselineKind", opt_str (kind_name ∘ fst <$> mi_baseline i));
   (js "baselineRef", opt_str (snd <$> mi_baseline i));
   (js "maxCorrectionRounds", JNum (default 5%Z (mi_maxCorrectionRounds i)));
   (js "finalVerification", strs (mi_finalVerification i));
   (js "reviewCoverage", strs (mi_reviewCoverage i))].

Definition MISSION_CONTRACT_FINGERPRINT_VERSION : Z := 2.

Definition fingerprintMissionContract (i : MissionContractInput) (criteria : list MissionCriterionInput)
  : jsstr :=
  sha256 (canonical_text (JObj
    ([(js "fingerprintVersion", JNum MISSION_CONTRACT_FINGERPRINT_VERSION)]
     ++ contract_fields i
     ++ [(js "outcomeEvidence", opt_str (level_name <$> mi_outcomeEvidence i));
         (js "outcomeExpectedBehavior", opt_str (mi_outcomeExpectedBehavior i));
         (js "acceptanceCriteria", JArr (order_by le_canonical
            (List.map (λ c, normalized_criterion
               (match ci_id c with Some k => [(js "id", JStr k)] | None => [] end) c) criteria)))]))).

Definition fingerprintMissionContractV1 (i : MissionContractInput) (criteria : list MissionCriterionInput)
  : jsstr :=
  sha256 (canonical_text (JObj
    (contract_fields i
     ++ [(js "acceptanceCriteria", JArr (order_by le_canonical
            (List.map (λ c, normalized_criterion [(js "id", opt_str (ci_id c))] c) criteria)))]))).

End Fingerprint.

(** ** The correction loop ([correction-policy.ts]) *)

(** [CorrectionRoundInput], of which the policy reads the number of the resolved findings, the
    claim of approval, and whether there was progress. *)
Record CorrectionRoundInput := mkRound {
  resolvedCount : option nat;
  missionApproved : bool;
  roundProgress : option bool
}.

Record LoopExtensionDecision := mkDecision {
  extend : bool;
  round : Z;
  maxRounds : Z;
  reason : jsstr;
  ceilingHit : bool
}.

Definition made_progress (r : CorrectionRoundInput) : bool :=
  default (0 <? default 0 (resolvedCount r)) (roundProgress r).

Definition round_text (a b : Z) : jsstr := numeral a +s "/" +s numeral b.

Definition evaluateCorrectionPolicy (currentRound maxCorrectionRounds : Z) (newBlockingCount : nat)
  (r : CorrectionRoundInput) (currentApproval : bool) : LoopExtensionDecision :=
  let converged := currentApproval || missionApproved r in
  let nextRound := (currentRound + 1)%Z in
  if (newBlockingCount =? 0) && negb converged then
    if made_progress r then
      if (maxCorrectionRounds <? nextRound)%Z then
        mkDecision false currentRound maxCorrectionRounds
          ("Progressing correction reached the bounded ceiling ("
            +s round_text currentRound maxCorrectionRounds
            +s "); escalation to a human is required.") true
      else
        mkDecision true nextRound maxCorrectionRounds
          ("Extending correction loop on demonstrated progress ("
            +s numeral (Z.of_nat (default 0 (resolvedCount r))) +s " finding(s) resolved), round "
            +s round_text nextRound maxCorrectionRounds +s ".") false
    else
      mkDecision false currentRound maxCorrectionRounds
        "No new blocking findings, no demonstrated progress, and unresolved mission requirements remain; escalation to a human is required." false
  else if (newBlockingCount =? 0) && converged then
    mkDecision false currentRound maxCorrectionRounds
      "Round surfaced no new blocking in-scope findings and the authoritative approval predicate allows completion; loop has converged." false
  else
    let effectiveMax := (maxCorrectionRounds + if made_progress r then 2 else 0)%Z in
    if (effectiveMax <? nextRound)%Z then
      mkDecision false currentRound effectiveMax
        ("Correction ceiling reached (" +s round_text currentRound effectiveMax
          +s "). New findings recorded but the loop will not auto-extend; a human must decide to continue or ship.") true
    else
      mkDecision true nextRound effectiveMax
        ("Extending correction loop: " +s numeral (Z.of_nat newBlockingCount)
          +s " new blocking in-scope finding(s), round " +s round_text nextRound effectiveMax
          +s (if made_progress r then js " (progress: prior findings resolved)" else []) +s ".") false.

End MissionEvidence.
