(* ===== verification/MissionOutcome.v ===== *)
(** * Mission outcomes ([src/src/mission/outcome-evaluator.ts])

    Which criteria are verified, given the observation that decides each and their dependencies;
    whether an external observation confirms the outcome; and whether the mission may be approved.

    The evaluation of the criteria remembers the states it has found and the criteria it is in.  It
    is shown to end, and to find a criterion verified exactly when its observation passed and all it
    depends on is verified, in the sense of an inductive definition without memory. *)

From S2P Require Import Prelude JsString Json Sql CanonicalJson SessionState WorkSessions Regex.
From S2P Require Import MissionEvidence.

Module MissionOutcome.
Import WorkSessions CanonicalJson Regex MissionEvidence.

(** ** Criteria *)

Inductive CriterionStatus := unverified | partially_verified | verified | failed.

#[export] Instance CriterionStatus_eq_dec : EqDecision CriterionStatus.
Proof. solve_decision. Defined.

Definition criterion_status_name (s : CriterionStatus) : jsstr :=
  match s with
  | unverified => "unverified"
  | partially_verified => "partially_verified"
  | verified => "verified"
  | failed => "failed"
  end.

(** An [OutcomeCriterion] is a row of [mission_acceptance_criteria]. *)
Record Criterion := mkCriterion {
  c_id : jsstr;
  c_missionId : jsstr;
  c_description : jsstr;
  c_required : bool;
  c_verificationType : VerificationType;
  c_verificationCommand : option jsstr;
  c_runtimeProbe : option json;
  c_affectedAreas : list jsstr;
  c_dependsOn : list jsstr;
  c_verificationGroup : option jsstr;
  c_verificationScope : jsstr;
  c_finalOnly : bool;
  c_mutatesWorkspace : bool;
  c_commandVersion : option jsstr;
  c_status : CriterionStatus;
  c_createdAt : Z;
  c_updatedAt : Z
}.

Record EffectiveCriterionState := mkState {
  criterionId : jsstr;
  status : CriterionStatus;
  evidenceId : option jsstr;
  staleReason : option jsstr;
  dependenciesSatisfied : bool
}.

Section Criteria.
Context (criteria : list Criterion) (effectiveEvidenceFor : Criterion → option EvidenceRecord)
  (context : CurrentApprovalContext).

(** [byId], the last criterion of an id *)
Definition criterion_of (k : jsstr) : option Criterion := by_key c_id k (rev criteria).

Definition baseStatus (e : option EvidenceRecord) : CriterionStatus :=
  match e_status <$> e with
  | Some ev_passed => verified
  | Some ev_failed => failed
  | _ => unverified
  end.

Definition is_verified (s : EffectiveCriterionState) : bool := bool_decide (status s = verified).

(** The state of a criterion, from those of its dependencies. *)
Definition state_of (c : Criterion) (dependencies : list EffectiveCriterionState)
  : EffectiveCriterionState :=
  let satisfied := forallb is_verified dependencies in
  let evidence := effectiveEvidenceFor c in
  let base := baseStatus evidence in
  {| criterionId := c_id c;
     status := if bool_decide (base = verified) && satisfied then verified
               else if bool_decide (base = verified) then unverified else base;
     evidenceId := e_id <$> evidence;
     staleReason :=
       if bool_decide (evidence = None) && negb (bool_decide (c_status c = unverified)) then
         Some ("stored " +s criterion_status_name (c_status c)
               +s " status has no qualifying evidence for current submission "
               +s default (js "(unknown)") (submissionId context))
       else if bool_decide (base = verified) && negb satisfied then
         Some (js "one or more dependencies are not currently verified")
       else if bool_decide (e_status <$> evidence = Some ev_inconclusive) then
         Some (js "latest verification attempt was inconclusive")
       else None;
     dependenciesSatisfied := satisfied |}.

Definition missing (k : jsstr) : EffectiveCriterionState :=
  mkState k unverified None (Some (js "criterion is missing")) false.
Definition cyclic (k : jsstr) : EffectiveCriterionState :=
  mkState k unverified None (Some (js "dependency cycle detected")) false.

(** [states]: what was found, by id. *)
Definition States : Type := list (jsstr * EffectiveCriterionState).

(** One after the other: what they give, and the states after them. *)
Fixpoint evaluate_all (go : States → jsstr → option (EffectiveCriterionState * States))
  (states : States) (ks : list jsstr) : option (list EffectiveCriterionState * States) :=
  match ks with
  | [] => Some ([], states)
  | k :: ks =>
      '(x, states1) ← go states k;
      '(xs, states2) ← evaluate_all go states1 ks;
      Some (x :: xs, states2)
  end.

(** [evaluate]; [fuel] bounds its depth. *)
Fixpoint evaluate (fuel : nat) (visiting : list jsstr) (states : States) (k : jsstr)
  : option (EffectiveCriterionState * States) :=
  match fuel with
  | 0 => None
  | S fuel =>
      match by_key fst k states with
      | Some cached => Some (cached.2, states)
      | None =>
          match criterion_of k with
          | None => Some (missing k, states)
          | Some c =>
              if existsb (js_eqb k) visiting then Some (cyclic k, states)
              else
                '(deps, states') ← evaluate_all (evaluate fuel (k :: visiting)) states (c_dependsOn c);
                let state := state_of c deps in
                Some (state, (k, state) :: states')
          end
      end
  end.

Definition evaluateEffectiveCriteria : option (list EffectiveCriterionState) :=
  '(_, states) ← evaluate_all (evaluate (S (length criteria)) []) [] (List.map c_id criteria);
  Some (List.map (λ c, default (missing (c_id c)) (snd <$> by_key fst (c_id c) states)) criteria).

End Criteria.

(** ** Outcome observations *)

Inductive ObservationStatus := confirmed | rejected.

#[export] Instance ObservationStatus_eq_dec : EqDecision ObservationStatus.
Proof. solve_decision. Defined.

(** An [OutcomeObservation] is a row of [mission_outcome_observations]. *)
Record OutcomeObservation := mkObservation {
  o_id : jsstr;
  o_missionId : jsstr;
  o_submissionId : jsstr;
  o_reviewEpoch : option Z;
  o_snapshot : Snapshot;
  o_observerIdentity : jsstr;
  o_observerPrincipalId : option jsstr;
  o_observationSource : jsstr;
  o_externalEvidenceSha256 : option jsstr;
  o_expectedBehavior : jsstr;
  o_actualBehavior : jsstr;
  o_status : ObservationStatus;
  o_observedAt : Z;
  o_observationSha256 : jsstr
}.

Record ObservationContext := mkObservationContext {
  x_submissionId : jsstr;
  x_reviewEpoch : Z;
  x_snapshot : option Snapshot;
  x_expectedBehavior : jsstr
}.

Definition FIRSTHAND : jsstr := "firsthand_authenticated_external_reviewer".

(** [/^[a-f0-9]{64}$/] *)
Definition is_sha256 (s : jsstr) : bool :=
  Nat.eqb (length s) 64 && forallb (λ c, is_digit c || ((97 <=? c) && (c <=? 102))%N) s.

Definition matching (x : ObservationContext) (o : OutcomeObservation) : bool :=
  bool_decide (o_submissionId o = x_submissionId x)
  && bool_decide (default (-1)%Z (o_reviewEpoch o) = x_reviewEpoch x)
  && bool_decide (Some (o_snapshot o) = x_snapshot x)
  && bool_decide (o_expectedBehavior o = x_expectedBehavior x)
  && bool_decide (o_observationSource o = FIRSTHAND)
  && nonempty (trim (or_empty (o_observerPrincipalId o)))
  && is_sha256 (or_empty (o_externalEvidenceSha256 o)).

Definition later (a b : OutcomeObservation) : bool := (o_observedAt b <=? o_observedAt a)%Z.

(** [iso] writes a time of the database. *)
Definition evaluateOutcomeObservations (iso : Z → jsstr) (observations : list OutcomeObservation)
  (x : ObservationContext) : bool * list jsstr :=
  match first_by later (List.filter (matching x) observations) with
  | None =>
      (false, [js "Mission requires independent outcome evidence; no outcome observations exist for the current submission."])
  | Some latest =>
      if bool_decide (o_status latest = rejected) then
        (false, ["Latest outcome observation from " +s o_observerIdentity latest
                 +s " rejected the expected behavior at " +s iso (o_observedAt latest) +s "."])
      else if negb (nonempty (trim (o_observerIdentity latest))) then
        (false, [js "Mission requires independent outcome evidence; no qualifying confirmed observation exists for the current submission."])
      else (true, [])
  end.

(** ** The outcome of a mission *)

Inductive FindingScope := in_scope | regression | out_of_scope.
Inductive FindingDisposition := blocking | required_followup | advisory | future_improvement.
Inductive Severity := low | medium | high | blocker.

#[export] Instance FindingScope_eq_dec : EqDecision FindingScope.
Proof. solve_decision. Defined.
#[export] Instance FindingDisposition_eq_dec : EqDecision FindingDisposition.
Proof. solve_decision. Defined.
#[export] Instance Severity_eq_dec : EqDecision Severity.
Proof. solve_decision. Defined.

Definition severity_name (s : Severity) : jsstr :=
  match s with low => "low" | medium => "medium" | high => "high" | blocker => "blocker" end.

(** An [OutcomeFinding] is a row of [mission_review_findings]. *)
Record Finding := mkFinding {
  f_id : jsstr;
  f_missionId : jsstr;
  f_introducedIn : option jsstr;
  f_scope : FindingScope;
  f_severity : Severity;
  f_category : jsstr;
  f_disposition : FindingDisposition;
  f_fingerprint : option jsstr;
  f_description : jsstr;
  f_evidence : list json;
  f_requiredAction : jsstr;
  f_requiredVerification : list jsstr;
  f_status : FindingStatus;
  f_resolutionSubmissionId : option jsstr;
  f_resolutionEvidence : list jsstr;
  f_waiverReason : option jsstr;
  f_createdAt : Z;
  f_updatedAt : Z
}.

Definition gates (f : Finding) : bool :=
  negb (bool_decide (f_scope f = out_of_scope)) && bool_decide (f_disposition f = blocking).

(** [OutcomeReport]; the results are any JSON value. *)
Record OutcomeReport := mkReport {
  r_passed : bool;
  r_reviewCoverage : list jsstr;
  r_results : json
}.

(** [Boolean(v)] *)
Definition truthy_json (v : json) : bool :=
  match v with
  | JNull => false
  | JBool b => b
  | JNum z => negb (z =? 0)%Z
  | JStr s => nonempty s
  | JFrac _ | JArr _ | JObj _ => true
  end.

(** [Boolean(results?.length)] *)
Definition has_length (results : json) : bool :=
  match results with
  | JArr l => negb (Nat.eqb (length l) 0)
  | JStr s => nonempty s
  | JObj fields => match jfield "length" fields with Some v => truthy_json v | None => false end
  | _ => false
  end.

Definition strength_reasons (required : OutcomeEvidenceLevel) (report : option OutcomeReport)
  : list jsstr :=
  if (OUTCOME_EVIDENCE_RANK integration_verified <=? OUTCOME_EVIDENCE_RANK required)%Z then
    if negb (match report with Some r => r_passed r | None => false end) then
      ["Mission requires " +s level_name required
       +s " evidence; a passing final integration report is mandatory for the current submission."]
    else if negb (match report with Some r => has_length (r_results r) | None => false end) then
      ["Mission requires " +s level_name required
       +s " evidence; the passing completion report contains no verification results and cannot certify integration."]
    else []
  else [].

Definition criterion_reasons (states : list EffectiveCriterionState) (c : Criterion) : list jsstr :=
  if c_required c then
    let state := by_key criterionId (c_id c) (rev states) in
    if bool_decide (status <$> state = Some verified) then []
    else ["Required criterion " +s c_id c +s " is effectively "
          +s criterion_status_name (default unverified (status <$> state)) +s ": "
          +s default (c_description c) (state ≫= staleReason)]
  else [].

Definition finding_reasons (resolutions : list (jsstr * Resolution)) (f : Finding) : list jsstr :=
  if negb (gates f) then []
  else if bool_decide (f_status f = waived) then []
  else if bool_decide (f_status f = verified_resolved) || bool_decide (f_status f = claimed_resolved) then
    match snd <$> by_key fst (f_id f) (rev resolutions) with
    | None =>
        ["Finding " +s f_id f +s " has no current effective-resolution evaluation; renewal is required."]
    | Some r =>
        if resolved r then []
        else ["Finding " +s f_id f +s " is not effectively resolved: " +s join "; " (reasons r)]
    end
  else [severity_name (f_severity f) +s " finding " +s f_id f +s " is "
        +s finding_status_name (f_status f) +s ": " +s f_description f].

Definition is_passing (report : option OutcomeReport) : bool :=
  match report with Some r => r_passed r | None => false end.

Definition missing_coverage (required : list jsstr) (report : option OutcomeReport) : list jsstr :=
  List.filter (λ area,
    negb (existsb (js_eqb area) (match report with Some r => r_reviewCoverage r | None => [] end))) required.

Definition evaluateMissionOutcome (iso : Z → jsstr) (criteria : list Criterion)
  (criterionStates : list EffectiveCriterionState) (findings : list Finding)
  (finalVerification reviewCoverage : list jsstr) (outcomeEvidence : option OutcomeEvidenceLevel)
  (currentReport : option OutcomeReport) (outcomeContext : ObservationContext)
  (effectiveFindingResolutions : list (jsstr * Resolution))
  (outcomeObservations : list OutcomeObservation) : bool * list jsstr :=
  let requiredStrength := default implementation_verified outcomeEvidence in
  let all :=
    strength_reasons requiredStrength currentReport
    ++ (if (OUTCOME_EVIDENCE_RANK outcome_verified <=? OUTCOME_EVIDENCE_RANK requiredStrength)%Z
        then let '(satisfied, why) := evaluateOutcomeObservations iso outcomeObservations outcomeContext in
             if satisfied then [] else why
        else [])
    ++ List.concat (List.map (criterion_reasons criterionStates) criteria)
    ++ List.concat (List.map (finding_reasons effectiveFindingResolutions) findings)
    ++ (if negb (Nat.eqb (length finalVerification) 0) && negb (is_passing currentReport)
        then [js "Mission-level final integration verification has not passed for the current submission."]
        else [])
    ++ match missing_coverage reviewCoverage currentReport with
       | [] => []
       | areas => ["Review coverage is incomplete; missing: " +s join ", " areas +s "."]
       end in
  (Nat.eqb (length all) 0, all).

End MissionOutcome.
