(* ===== verification/MissionLedger.v ===== *)
(** * The mission ledger ([src/src/mission-ledger.ts])

    A mission is the contract of a work session: its acceptance criteria, the findings reviewers
    raise, the evidence verifiers and reviewers record, completion reports, work orders and the
    observations of its outcome.  [canApprove] decides whether the submission under review fulfils
    it.

    The database is a record of the tables.  A function that throws outside a transaction keeps
    what it wrote before.  Parameters are the SHA-256 digest, the order of [localeCompare] and the
    text of a time. *)

From S2P Require Import Prelude JsString Json Sql CanonicalJson SessionState WorkSessions Regex.
From S2P Require Import MissionEvidence MissionOutcome.

Module MissionLedger.
Import WorkSessions CanonicalJson MissionEvidence MissionOutcome.

(** ** Tables *)

Record Mission := mkMission {
  m_id : jsstr;
  m_workSessionId : jsstr;
  m_workspaceSessionId : jsstr;
  m_revision : Z;
  m_contractFingerprint : option jsstr;
  m_objective : jsstr;
  m_desiredOutcome : jsstr;
  m_constraints : list json;
  m_nonGoals : list jsstr;
  m_userLockedFields : list jsstr;
  m_supervisorInstructions : option jsstr;
  m_baseline : option Snapshot;
  m_correctionRounds : Z;
  m_maxCorrectionRounds : Z;
  m_finalVerification : list jsstr;
  m_reviewCoverage : list jsstr;
  m_outcomeEvidence : option OutcomeEvidenceLevel;
  m_outcomeExpectedBehavior : option jsstr;
  m_createdAt : Z;
  m_updatedAt : Z
}.

Record WorkOrder := mkWorkOrder {
  w_id : jsstr;
  w_missionId : jsstr;
  w_workSessionId : jsstr;
  w_missionRevision : Z;
  w_objectiveForThisTurn : jsstr;
  w_requiredFindingIds : list jsstr;
  w_acceptanceCriterionIds : list jsstr;
  w_requiredActions : list jsstr;
  w_prohibitedActions : list jsstr;
  w_requiredVerification : list json;
  w_expectedDeliverables : list jsstr;
  w_contextReferences : list jsstr;
  w_preferredAgent : option jsstr;
  w_active : bool;
  w_createdAt : Z
}.

(** A row of [mission_completion_reports]; the columns of its snapshot hold one identity. *)
Record CompletionReport := mkCompletion {
  p_id : jsstr;
  p_missionId : jsstr;
  p_submissionId : jsstr;
  p_snapshot : Snapshot;
  p_passed : bool;
  p_results : json;
  p_reviewCoverage : list jsstr;
  p_uncertainty : list json;
  p_reportSha256 : jsstr;
  p_createdAt : Z
}.

Record ledger := mkLedger {
  missions : list Mission;
  criteria : list Criterion;
  findings : list Finding;
  evidence : list EvidenceRecord;
  workOrders : list WorkOrder;
  reports : list CompletionReport;
  observations : list OutcomeObservation;
  submissions : list SubmissionRow
}.

Definition set_missions t (d : ledger) := mkLedger t (criteria d) (findings d) (evidence d)
  (workOrders d) (reports d) (observations d) (submissions d).
Definition set_criteria t (d : ledger) := mkLedger (missions d) t (findings d) (evidence d)
  (workOrders d) (reports d) (observations d) (submissions d).
Definition set_findings t (d : ledger) := mkLedger (missions d) (criteria d) t (evidence d)
  (workOrders d) (reports d) (observations d) (submissions d).
Definition set_evidence t (d : ledger) := mkLedger (missions d) (criteria d) (findings d) t
  (workOrders d) (reports d) (observations d) (submissions d).
Definition set_workOrders t (d : ledger) := mkLedger (missions d) (criteria d) (findings d)
  (evidence d) t (reports d) (observations d) (submissions d).
Definition set_reports t (d : ledger) := mkLedger (missions d) (criteria d) (findings d)
  (evidence d) (workOrders d) t (observations d) (submissions d).
Definition set_observations t (d : ledger) := mkLedger (missions d) (criteria d) (findings d)
  (evidence d) (workOrders d) (reports d) t (submissions d).
Definition set_submissions t (d : ledger) := mkLedger (missions d) (criteria d) (findings d)
  (evidence d) (workOrders d) (reports d) (observations d) t.

Definition lift {A} (m : res WsError A) : res Error A :=
  match m with Ok a => Ok a | Err e => Err (snapshot_error e) end.

(** The fields by which callers name a snapshot. *)
Record SnapshotInput := mkSnapshotInput {
  s_kind : option jsstr;
  s_ref : option jsstr;
  s_commit : option jsstr
}.

Definition identity (s : SnapshotInput) : res Error (option Snapshot) :=
  lift (normalizeWorkspaceSnapshotIdentity (s_kind s) (s_ref s) (s_commit s)).

Definition in_mission (k : jsstr) (c : Criterion) : bool := bool_decide (c_missionId c = k).
Definition criteria_of (k : jsstr) (d : ledger) : list Criterion := select_where (in_mission k) (criteria d).
Definition findings_of (k : jsstr) (d : ledger) : list Finding :=
  select_where (λ f, bool_decide (f_missionId f = k)) (findings d).

Definition getMissionByWorkSession (ws : jsstr) (d : ledger) : option Mission :=
  get_where (λ m, bool_decide (m_workSessionId m = ws)) (missions d).
Definition get_mission (k : jsstr) (d : ledger) : option Mission := by_key m_id k (missions d).
Definition get_finding (mission k : jsstr) (d : ledger) : option Finding :=
  get_where (λ f, bool_decide (f_id f = k) && bool_decide (f_missionId f = mission)) (findings d).
Definition get_criterion (mission k : jsstr) (d : ledger) : option Criterion :=
  get_where (λ c, bool_decide (c_id c = k) && bool_decide (c_missionId c = mission)) (criteria d).

Definition update_mission (k : jsstr) (f : Mission → Mission) (d : ledger) : ledger :=
  set_missions (update_where (λ m, bool_decide (m_id m = k)) f (missions d)).1 d.

Definition with_fingerprint (fp : jsstr) (now : Z) (m : Mission) : Mission :=
  {| m_id := m_id m; m_workSessionId := m_workSessionId m;
     m_workspaceSessionId := m_workspaceSessionId m; m_revision := m_revision m;
     m_contractFingerprint := Some fp; m_objective := m_objective m;
     m_desiredOutcome := m_desiredOutcome m; m_constraints := m_constraints m;
     m_nonGoals := m_nonGoals m; m_userLockedFields := m_userLockedFields m;
     m_supervisorInstructions := m_supervisorInstructions m; m_baseline := m_baseline m;
     m_correctionRounds := m_correctionRounds m; m_maxCorrectionRounds := m_maxCorrectionRounds m;
     m_finalVerification := m_finalVerification m; m_reviewCoverage := m_reviewCoverage m;
     m_outcomeEvidence := m_outcomeEvidence m;
     m_outcomeExpectedBehavior := m_outcomeExpectedBehavior m;
     m_createdAt := m_createdAt m; m_updatedAt := now |}.

Definition with_rounds (rounds now : Z) (m : Mission) : Mission :=
  {| m_id := m_id m; m_workSessionId := m_workSessionId m;
     m_workspaceSessionId := m_workspaceSessionId m; m_revision := m_revision m;
     m_contractFingerprint := m_contractFingerprint m; m_objective := m_objective m;
     m_desiredOutcome := m_desiredOutcome m; m_constraints := m_constraints m;
     m_nonGoals := m_nonGoals m; m_userLockedFields := m_userLockedFields m;
     m_supervisorInstructions := m_supervisorInstructions m; m_baseline := m_baseline m;
     m_correctionRounds := rounds; m_maxCorrectionRounds := m_maxCorrectionRounds m;
     m_finalVerification := m_finalVerification m; m_reviewCoverage := m_reviewCoverage m;
     m_outcomeEvidence := m_outcomeEvidence m;
     m_outcomeExpectedBehavior := m_outcomeExpectedBehavior m;
     m_createdAt := m_createdAt m; m_updatedAt := now |}.

Definition touched (now : Z) (m : Mission) : Mission := with_rounds (m_correctionRounds m) now m.
Definition touchMission (now : Z) (k : jsstr) (d : ledger) : ledger := update_mission k (touched now) d.

Section Ledger.
Context (sha256 : jsstr → jsstr) (localeCompare : jsstr → jsstr → Z) (iso : Z → jsstr).

(** ** Creating a mission *)

Definition with_type (c : MissionCriterionInput) : MissionCriterionInput :=
  mkCriterionInput (ci_id c) (ci_description c) (ci_required c) (Some (type_of_input c))
    (ci_verificationCommand c) (ci_runtimeProbe c) (ci_affectedAreas c) (ci_dependsOnCriterionIds c)
    (ci_verificationGroup c) (ci_verificationScope c) (ci_finalOnly c) (ci_mutatesWorkspace c)
    (ci_commandVersion c).

(** [normalizedInput] *)
Definition normalized_input (baseline : option Snapshot) (i : MissionContractInput)
  : MissionContractInput :=
  mkContractInput (mi_workSessionId i) (mi_workspaceSessionId i) (mi_objective i)
    (mi_desiredOutcome i) (mi_constraints i) (mi_nonGoals i) (mi_acceptanceCriteria i)
    (mi_userLockedFields i) (mi_supervisorInstructions i) baseline (mi_maxCorrectionRounds i)
    (mi_finalVerification i) (mi_reviewCoverage i)
    (if mi_realWorldOutcome i then Some (default outcome_verified (mi_outcomeEvidence i))
     else mi_outcomeEvidence i)
    (mi_realWorldOutcome i) (mi_outcomeExpectedBehavior i).

(** [StoredMissionContract] as an input *)
Definition stored_input (m : Mission) : MissionContractInput :=
  mkContractInput (m_workSessionId m) (m_workspaceSessionId m) (m_objective m)
    (Some (m_desiredOutcome m)) (Some (m_constraints m)) (Some (m_nonGoals m)) None
    (Some (m_userLockedFields m)) (m_supervisorInstructions m) (m_baseline m)
    (Some (m_maxCorrectionRounds m)) (Some (m_finalVerification m)) (Some (m_reviewCoverage m))
    (Some (default implementation_verified (m_outcomeEvidence m))) false
    (m_outcomeExpectedBehavior m).

Definition stored_criterion (c : Criterion) : MissionCriterionInput :=
  mkCriterionInput (Some (c_id c)) (c_description c) (Some (c_required c))
    (Some (c_verificationType c)) (c_verificationCommand c) (c_runtimeProbe c)
    (Some (c_affectedAreas c)) (Some (c_dependsOn c)) (c_verificationGroup c)
    (Some (c_verificationScope c)) (Some (c_finalOnly c)) (Some (c_mutatesWorkspace c))
    (c_commandVersion c).

Definition fingerprintStoredMissionContract (m : Mission) (stored : list Criterion) : jsstr :=
  fingerprintMissionContract sha256 localeCompare (stored_input m) (List.map stored_criterion stored).

Definition le_created (a b : Criterion) : bool := (c_createdAt a <=? c_createdAt b)%Z.

(** What the contract asks of the outcome. *)
Definition check_outcome (i : MissionContractInput) : res Error unit :=
  let level := mi_outcomeEvidence i in
  _ ← reject (mi_realWorldOutcome i
              && negb (bool_decide (level = Some outcome_verified)
                       || bool_decide (level = Some operationally_stable))) claim_needs_outcome;
  _ ← reject (bool_decide (level = Some operationally_stable)) stable_unsupported;
  _ ← reject (bool_decide (level = Some outcome_verified)
              && negb (nonempty (trim (or_empty (mi_outcomeExpectedBehavior i))))) behavior_missing;
  reject (bool_decide (level = Some integration_verified)
          && Nat.eqb (length (default [] (mi_finalVerification i))) 0) final_verification_missing.

Definition new_mission (now : Z) (uuid fp : jsstr) (i : MissionContractInput) : Mission :=
  {| m_id := "mission_" +s uuid; m_workSessionId := mi_workSessionId i;
     m_workspaceSessionId := mi_workspaceSessionId i; m_revision := 1;
     m_contractFingerprint := Some fp; m_objective := mi_objective i;
     m_desiredOutcome := default (mi_objective i) (mi_desiredOutcome i);
     m_constraints := default [] (mi_constraints i); m_nonGoals := default [] (mi_nonGoals i);
     m_userLockedFields := default locked_by_default (mi_userLockedFields i);
     m_supervisorInstructions := mi_supervisorInstructions i; m_baseline := mi_baseline i;
     m_correctionRounds := 0; m_maxCorrectionRounds := default 5%Z (mi_maxCorrectionRounds i);
     m_finalVerification := default [] (mi_finalVerification i);
     m_reviewCoverage := default [] (mi_reviewCoverage i);
     m_outcomeEvidence := Some (default implementation_verified (mi_outcomeEvidence i));
     m_outcomeExpectedBehavior := mi_outcomeExpectedBehavior i;
     m_createdAt := now; m_updatedAt := now |}.

Definition new_criterion (now : Z) (mission fresh : jsstr) (c : MissionCriterionInput) : Criterion :=
  {| c_id := default ("crit_" +s fresh) (ci_id c); c_missionId := mission;
     c_description := ci_description c; c_required := default true (ci_required c);
     c_verificationType := type_of_input c; c_verificationCommand := ci_verificationCommand c;
     c_runtimeProbe := ci_runtimeProbe c; c_affectedAreas := default [] (ci_affectedAreas c);
     c_dependsOn := default [] (ci_dependsOnCriterionIds c);
     c_verificationGroup := ci_verificationGroup c;
     c_verificationScope := default (js "full") (ci_verificationScope c);
     c_finalOnly := default false (ci_finalOnly c);
     c_mutatesWorkspace := default false (ci_mutatesWorkspace c);
     c_commandVersion := ci_commandVersion c; c_status := unverified;
     c_createdAt := now; c_updatedAt := now |}.

Definition criterion_rows (now : Z) (mission : jsstr) (fresh : nat → jsstr)
  (inputs : list MissionCriterionInput) : list Criterion :=
  List.map (λ '(n, c), new_criterion now mission (fresh n) c)
    (List.combine (seq 0 (length inputs)) inputs).

(** The inserts of the criteria; the tables refuse a row whose id, the primary key, is there. *)
Fixpoint insert_criteria (rows t : list Criterion) : res Error (list Criterion) :=
  match rows with
  | [] => Ok t
  | c :: rest =>
      _ ← reject (existsb (λ x, bool_decide (c_id x = c_id c)) t) criterion_exists;
      insert_criteria rest (insert_row c t)
  end.

(** [createMission]; [fresh n] is the random part of the id of the [n]-th criterion. *)
Definition createMission (now : Z) (uuid : jsstr) (fresh : nat → jsstr) (baseline : SnapshotInput)
  (input : MissionContractInput) (d : ledger) : option (res Error (Mission * ledger)) :=
  let fail e := Some (Err e) in
  match identity baseline with
  | Err e => fail e
  | Ok b =>
      let i := normalized_input b input in
      let inputs := List.map with_type (default [] (mi_acceptanceCriteria input)) in
      if Nat.eqb (length (List.filter (λ c, default true (ci_required c)) inputs)) 0
      then fail no_required_criterion
      else
        match validateMissionCriterionContract inputs with
        | None => None
        | Some (Err e) => fail e
        | Some (Ok _) =>
            Some
              (_ ← check_outcome i;
               let fp := fingerprintMissionContract sha256 localeCompare i inputs in
               match getMissionByWorkSession (mi_workSessionId i) d with
               | Some existing =>
                   let stored := order_by le_created (criteria_of (m_id existing) d) in
                   let existingFingerprint :=
                     default (fingerprintStoredMissionContract existing stored)
                       (m_contractFingerprint existing) in
                   d1 ← (if negb (existingFingerprint =s fp) then
                           let legacy := fingerprintMissionContractV1 sha256 localeCompare i inputs in
                           if truthy (m_contractFingerprint existing)
                              && bool_decide (m_contractFingerprint existing = Some legacy)
                           then Ok (update_mission (m_id existing) (with_fingerprint fp now) d)
                           else Err contract_conflict
                         else Ok d);
                   Ok (existing,
                       if truthy (m_contractFingerprint existing) then d1
                       else update_mission (m_id existing) (with_fingerprint fp now) d1)
               | None =>
                   let m := new_mission now uuid fp i in
                   _ ← reject (existsb (λ x, bool_decide (m_id x = m_id m)) (missions d)) mission_exists;
                   t ← insert_criteria (criterion_rows now (m_id m) fresh inputs) (criteria d);
                   Ok (m, set_criteria t (set_missions (insert_row m (missions d)) d))
               end)
        end
  end.

(** ** Findings *)

Record ReviewFindingInput := mkFindingInput {
  fi_id : option jsstr;
  fi_introducedInSubmissionId : option jsstr;
  fi_scope : option FindingScope;
  fi_severity : option Severity;
  fi_category : option jsstr;
  fi_disposition : option FindingDisposition;
  fi_description : jsstr;
  fi_evidence : option (list json);
  fi_requiredAction : jsstr;
  fi_requiredVerification : option (list jsstr)
}.

Definition scope_name (s : FindingScope) : jsstr :=
  match s with in_scope => "in_scope" | regression => "regression" | out_of_scope => "out_of_scope" end.

Definition severityRank (s : Severity) : Z :=
  match s with low => 0 | medium => 1 | high => 2 | blocker => 3 end.

Definition finding_scope (f : ReviewFindingInput) : FindingScope :=
  default (if truthy (fi_introducedInSubmissionId f) then regression else in_scope) (fi_scope f).

Definition finding_disposition (f : ReviewFindingInput) : FindingDisposition :=
  default (if bool_decide (finding_scope f = out_of_scope)
              || negb (bool_decide (default medium (fi_severity f) ∈ [blocker; high]))
           then advisory else blocking) (fi_disposition f).

(** [fingerprintFinding(row)]: the row has no field [evidence], so its locations are not read. *)
Definition fingerprint_row (f : Finding) : jsstr :=
  fingerprintFinding sha256 (f_category f) (scope_name (f_scope f)) (f_description f)
    (f_requiredAction f) [].

Definition equivalent_to (fp : jsstr) (row : Finding) : bool :=
  negb (bool_decide (f_status row ∈ [verified_resolved; waived]))
  && (bool_decide (f_fingerprint row = Some fp)
      || negb (truthy (f_fingerprint row)) && (fingerprint_row row =s fp)).

Definition merged_finding (fp : jsstr) (evidence : list json) (severity : Severity) (now : Z)
  (f : Finding) : Finding :=
  {| f_id := f_id f; f_missionId := f_missionId f; f_introducedIn := f_introducedIn f;
     f_scope := f_scope f; f_severity := severity; f_category := f_category f;
     f_disposition := f_disposition f; f_fingerprint := Some fp; f_description := f_description f;
     f_evidence := evidence; f_requiredAction := f_requiredAction f;
     f_requiredVerification := f_requiredVerification f; f_status := f_status f;
     f_resolutionSubmissionId := f_resolutionSubmissionId f;
     f_resolutionEvidence := f_resolutionEvidence f; f_waiverReason := f_waiverReason f;
     f_createdAt := f_createdAt f; f_updatedAt := now |}.

Definition new_finding (now : Z) (mission fresh fp : jsstr) (i : ReviewFindingInput) : Finding :=
  {| f_id := default ("find_" +s fresh) (fi_id i); f_missionId := mission;
     f_introducedIn := fi_introducedInSubmissionId i; f_scope := finding_scope i;
     f_severity := default medium (fi_severity i);
     f_category := default (js "correctness") (fi_category i);
     f_disposition := finding_disposition i; f_fingerprint := Some fp;
     f_description := fi_description i; f_evidence := default [] (fi_evidence i);
     f_requiredAction := fi_requiredAction i;
     f_requiredVerification := default [] (fi_requiredVerification i); f_status := f_open;
     f_resolutionSubmissionId := None; f_resolutionEvidence := []; f_waiverReason := None;
     f_createdAt := now; f_updatedAt := now |}.

(** The loop of [addFindings] over the table; [existingRows] are the rows it has read and written,
    [created] the new ones. *)
Fixpoint add_findings (now : Z) (mission : jsstr) (fresh : nat → jsstr) (n : nat)
  (inputs : list ReviewFindingInput) (existingRows created t : list Finding)
  : res Error (list Finding * list Finding) :=
  match inputs with
  | [] => Ok (created, t)
  | i :: rest =>
      _ ← reject (existsb (λ c, negb (nonempty (trim c))) (default [] (fi_requiredVerification i)))
            blank_command;
      let severity := default medium (fi_severity i) in
      let fp := fingerprintFinding sha256 (default (js "correctness") (fi_category i))
                  (scope_name (finding_scope i)) (fi_description i) (fi_requiredAction i)
                  (default [] (fi_evidence i)) in
      match List.find (equivalent_to fp) existingRows with
      | Some row =>
          let f := merged_finding fp (mergeFindingEvidence (f_evidence row) (default [] (fi_evidence i)))
                     (if (severityRank (f_severity row) <? severityRank severity)%Z then severity
                      else f_severity row) now in
          let by_id x := bool_decide (f_id x = f_id row) in
          add_findings now mission fresh (S n) rest
            (update_where by_id f existingRows).1 created (update_where by_id f t).1
      | None =>
          let row := new_finding now mission (fresh n) fp i in
          _ ← reject (existsb (λ x, bool_decide (f_id x = f_id row)) t) finding_exists;
          add_findings now mission fresh (S n) rest (existingRows ++ [row]) (created ++ [row])
            (insert_row row t)
      end
  end.

Definition addFindings (now : Z) (mission : jsstr) (fresh : nat → jsstr)
  (inputs : list ReviewFindingInput) (d : ledger) : res Error (list Finding * ledger) :=
  '(created, t) ← add_findings now mission fresh 0 inputs (findings_of mission d) [] (findings d);
  Ok (created, set_findings t d).

(** ** Stored statuses *)

Definition with_criterion_status (s : CriterionStatus) (now : Z) (c : Criterion) : Criterion :=
  {| c_id := c_id c; c_missionId := c_missionId c; c_description := c_description c;
     c_required := c_required c; c_verificationType := c_verificationType c;
     c_verificationCommand := c_verificationCommand c; c_runtimeProbe := c_runtimeProbe c;
     c_affectedAreas := c_affectedAreas c; c_dependsOn := c_dependsOn c;
     c_verificationGroup := c_verificationGroup c; c_verificationScope := c_verificationScope c;
     c_finalOnly := c_finalOnly c; c_mutatesWorkspace := c_mutatesWorkspace c;
     c_commandVersion := c_commandVersion c; c_status := s; c_createdAt := c_createdAt c;
     c_updatedAt := now |}.

Definition set_criterion_status (mission k : jsstr) (s : CriterionStatus) (now : Z) (d : ledger)
  : ledger :=
  set_criteria
    (update_where (λ c, bool_decide (c_id c = k) && bool_decide (c_missionId c = mission))
       (with_criterion_status s now) (criteria d)).1 d.

Definition updateCriterionStatus (now : Z) (mission : jsstr) (updates : list (jsstr * CriterionStatus))
  (d : ledger) : ledger :=
  touchMission now mission
    (foldl (λ d '(k, s), set_criterion_status mission k s now d) d updates).

Record FindingUpdate := mkFindingUpdate {
  u_id : jsstr;
  u_status : FindingStatus;
  u_waiverReason : option jsstr;
  u_disposition : option FindingDisposition
}.

Definition with_finding_status (u : FindingUpdate) (now : Z) (f : Finding) : Finding :=
  {| f_id := f_id f; f_missionId := f_missionId f; f_introducedIn := f_introducedIn f;
     f_scope := f_scope f; f_severity := f_severity f; f_category := f_category f;
     f_disposition := default (f_disposition f) (u_disposition u);
     f_fingerprint := f_fingerprint f; f_description := f_description f;
     f_evidence := f_evidence f; f_requiredAction := f_requiredAction f;
     f_requiredVerification := f_requiredVerification f; f_status := u_status u;
     f_resolutionSubmissionId := None; f_resolutionEvidence := [];
     f_waiverReason := u_waiverReason u; f_createdAt := f_createdAt f; f_updatedAt := now |}.

Definition is_finding (mission k : jsstr) (f : Finding) : bool :=
  bool_decide (f_id f = k) && bool_decide (f_missionId f = mission).

Definition update_finding (mission k : jsstr) (g : Finding → Finding) (d : ledger) : ledger :=
  set_findings (update_where (is_finding mission k) g (findings d)).1 d.

(** The updates are not in a transaction: those before a refused one stay. *)
Fixpoint update_findings (now : Z) (mission : jsstr) (updates : list FindingUpdate) (d : ledger)
  : res Error unit * ledger :=
  match updates with
  | [] => (Ok tt, d)
  | u :: rest =>
      match assertFindingStatusTransition (u_status u) (u_waiverReason u) with
      | Err e => (Err e, d)
      | Ok _ =>
          match get_finding mission (u_id u) d with
          | None => (Err foreign_finding, d)
          | Some _ =>
              update_findings now mission rest
                (update_finding mission (u_id u) (with_finding_status u now) d)
          end
      end
  end.

Definition updateFindingStatus (now : Z) (mission : jsstr) (updates : list FindingUpdate) (d : ledger)
  : res Error unit * ledger :=
  match update_findings now mission updates d with
  | (Ok _, d') => (Ok tt, touchMission now mission d')
  | other => other
  end.

(** ** Work orders *)

Record WorkOrderInput := mkWorkOrderInput {
  wi_objectiveForThisTurn : jsstr;
  wi_requiredFindingIds : option (list jsstr);
  wi_acceptanceCriterionIds : option (list jsstr);
  wi_requiredActions : option (list jsstr);
  wi_prohibitedActions : option (list jsstr);
  wi_requiredVerification : option (list json);
  wi_expectedDeliverables : option (list jsstr);
  wi_contextReferences : option (list jsstr);
  wi_preferredAgent : option jsstr
}.

Definition is_active_of (mission : jsstr) (w : WorkOrder) : bool :=
  bool_decide (w_missionId w = mission) && w_active w.

Definition with_order (preferred : option jsstr) (active : bool) (w : WorkOrder) : WorkOrder :=
  {| w_id := w_id w; w_missionId := w_missionId w; w_workSessionId := w_workSessionId w;
     w_missionRevision := w_missionRevision w;
     w_objectiveForThisTurn := w_objectiveForThisTurn w;
     w_requiredFindingIds := w_requiredFindingIds w;
     w_acceptanceCriterionIds := w_acceptanceCriterionIds w;
     w_requiredActions := w_requiredActions w; w_prohibitedActions := w_prohibitedActions w;
     w_requiredVerification := w_requiredVerification w;
     w_expectedDeliverables := w_expectedDeliverables w;
     w_contextReferences := w_contextReferences w; w_preferredAgent := preferred;
     w_active := active; w_createdAt := w_createdAt w |}.

Definition superseded (w : WorkOrder) : WorkOrder := with_order (w_preferredAgent w) false w.

Definition new_order (now : Z) (uuid workSessionId : jsstr) (m : Mission) (i : WorkOrderInput)
  : WorkOrder :=
  {| w_id := "wo_" +s uuid; w_missionId := m_id m; w_workSessionId := workSessionId;
     w_missionRevision := m_revision m; w_objectiveForThisTurn := wi_objectiveForThisTurn i;
     w_requiredFindingIds := default [] (wi_requiredFindingIds i);
     w_acceptanceCriterionIds := default [] (wi_acceptanceCriterionIds i);
     w_requiredActions := default [] (wi_requiredActions i);
     w_prohibitedActions := default [] (wi_prohibitedActions i);
     w_requiredVerification := default [] (wi_requiredVerification i);
     w_expectedDeliverables := default [] (wi_expectedDeliverables i);
     w_contextReferences := default [] (wi_contextReferences i);
     w_preferredAgent := wi_preferredAgent i; w_active := true; w_createdAt := now |}.

Definition createWorkOrder (now : Z) (uuid mission workSessionId : jsstr) (i : WorkOrderInput)
  (d : ledger) : res Error (WorkOrder * ledger) :=
  m ← require (get_mission mission d) mission_missing;
  let w := new_order now uuid workSessionId m i in
  Ok (w, set_workOrders
           (insert_row w (update_where (is_active_of mission) superseded (workOrders d)).1) d).

Definition setWorkOrderPreferredAgent (workSessionId preferredAgent : jsstr) (d : ledger)
  : nat * ledger :=
  match getMissionByWorkSession workSessionId d with
  | None => (0, d)
  | Some m =>
      let '(t, changes) :=
        update_where (is_active_of (m_id m)) (λ w, with_order (Some preferredAgent) (w_active w) w)
          (workOrders d) in
      (changes, set_workOrders t d)
  end.

(** ** Recording evidence *)

Record MissionEvidenceInput := mkEvidenceInput {
  ei_criterionId : option jsstr;
  ei_findingId : option jsstr;
  ei_submissionId : option jsstr;
  ei_reviewEpoch : option Z;
  ei_snapshot : SnapshotInput;
  ei_leaseNonce : option jsstr;
  ei_actorPrincipal : option jsstr;
  ei_command : option jsstr;
  ei_status : EvidenceStatus;
  ei_details : option json
}.

(** [{ ...object, source }]: the field keeps its place when it is there. *)
Definition put_source (name : jsstr) (fields : list (jsstr * json)) : list (jsstr * json) :=
  if existsb (λ kv, js_eqb kv.1 "source") fields
  then List.map (λ kv, if kv.1 =s "source" then (kv.1, JStr name) else kv) fields
  else fields ++ [(js "source", JStr name)].

Definition details_of (name : jsstr) (details : option json) : json :=
  JObj (put_source name
    match details with
    | Some (JObj fields) => fields
    | Some (JArr items) =>
        List.map (λ '(n, v), (numeral (Z.of_nat n), v)) (List.combine (seq 0 (length items)) items)
    | Some v => [(js "value", v)]
    | None => []
    end).

Definition next_attempt (mission : jsstr) (rows : list EvidenceRecord) : Z :=
  (foldr Z.max 0 (omap e_attempt (select_where (λ e, bool_decide (e_missionId e = mission)) rows)) + 1)%Z.

(** What a criterion, or a finding, asks of the source. *)
Definition check_criterion (source : MissionEvidenceSource) (mission : jsstr)
  (criterionId : option jsstr) (d : ledger) : res Error (option VerificationType) :=
  if truthy criterionId then
    c ← require (get_criterion mission (or_empty criterionId) d) foreign_criterion;
    _ ← reject (negb (bool_decide (source = agent_claim))
                && negb (isEvidenceSourceAllowed (c_verificationType c) (source_name source)))
          source_refused;
    Ok (Some (c_verificationType c))
  else Ok None.

Definition check_finding (source : MissionEvidenceSource) (mission : jsstr)
  (findingId : option jsstr) (d : ledger) : res Error unit :=
  if truthy findingId then
    f ← require (get_finding mission (or_empty findingId) d) foreign_finding;
    reject (negb (bool_decide (source = agent_claim))
            && (if negb (Nat.eqb (length (f_requiredVerification f)) 0)
                then negb (bool_decide (source ∈ [server_test_runner; runtime_probe]))
                else negb (bool_decide (source = reviewer_manual_attestation))))
      source_refused
  else Ok tt.

Definition new_evidence (now : Z) (uuid mission : jsstr) (source : MissionEvidenceSource)
  (snapshot : option Snapshot) (attempt : Z) (i : MissionEvidenceInput) : EvidenceRecord :=
  let details := details_of (source_name source) (ei_details i) in
  {| e_id := "ev_" +s uuid; e_missionId := mission; e_criterionId := ei_criterionId i;
     e_findingId := ei_findingId i; e_submissionId := ei_submissionId i;
     e_reviewEpoch := ei_reviewEpoch i; e_snapshot := snapshot; e_leaseNonce := ei_leaseNonce i;
     e_actorPrincipal := ei_actorPrincipal i; e_command := ei_command i;
     e_outputDigest := Some (sha256 (render details)); e_attempt := Some attempt;
     e_status := ei_status i; e_details := details; e_createdAt := now |}.

(** [newStatus], the stored status of the criterion *)
Definition observed_status (source : MissionEvidenceSource) (type : option VerificationType)
  (s : EvidenceStatus) : CriterionStatus :=
  if bool_decide (s = ev_passed) && negb (bool_decide (source = agent_claim))
     && isEvidenceSourceAllowed (default manual_review type) (source_name source)
  then verified else if bool_decide (s = ev_failed) then failed else unverified.

Definition record_entry (now : Z) (uuid mission : jsstr) (source : MissionEvidenceSource)
  (i : MissionEvidenceInput) (d : ledger) : res Error ledger :=
  snapshot ← identity (ei_snapshot i);
  type ← check_criterion source mission (ei_criterionId i) d;
  _ ← check_finding source mission (ei_findingId i) d;
  let e := new_evidence now uuid mission source snapshot (next_attempt mission (evidence d)) i in
  let d1 := set_evidence (insert_row e (evidence d)) d in
  Ok (if truthy (ei_criterionId i) && truthy (ei_submissionId i)
         && negb (bool_decide (snapshot = None))
      then set_criterion_status mission (or_empty (ei_criterionId i))
             (observed_status source type (ei_status i)) now d1
      else d1).

Fixpoint record_entries (now : Z) (fresh : nat → jsstr) (n : nat) (mission : jsstr)
  (source : MissionEvidenceSource) (entries : list MissionEvidenceInput) (d : ledger)
  : res Error ledger :=
  match entries with
  | [] => Ok d
  | i :: rest =>
      d1 ← record_entry now (fresh n) mission source i d;
      record_entries now fresh (S n) mission source rest d1
  end.

(** [recordEvidenceWithSource]: one transaction; [fresh n] is the random part of the id of the
    [n]-th entry. *)
Definition recordEvidenceWithSource (now : Z) (fresh : nat → jsstr) (mission : jsstr)
  (entries : list MissionEvidenceInput) (source : MissionEvidenceSource) (d : ledger)
  : res Error ledger :=
  d1 ← record_entries now fresh 0 mission source entries d;
  Ok (touchMission now mission d1).

Definition recordEvidence now fresh mission entries :=
  recordEvidenceWithSource now fresh mission entries reviewer_manual_attestation.
Definition recordReviewerEvidence now fresh mission entries :=
  recordEvidenceWithSource now fresh mission entries reviewer_manual_attestation.
Definition recordVerifierEvidence now fresh mission entries :=
  recordEvidenceWithSource now fresh mission entries server_test_runner.
Definition recordRuntimeProbeEvidence now fresh mission entries :=
  recordEvidenceWithSource now fresh mission entries runtime_probe.
Definition recordAgentEvidence now fresh mission entries :=
  recordEvidenceWithSource now fresh mission entries agent_claim.

End Ledger.

End MissionLedger.
