(* ===== verification/MissionApproval.v ===== *)
(** * Approval of a mission ([src/src/mission-ledger.ts])

    The part of the ledger that decides: the submission under review, the effective state of its
    criteria, [canApprove], the renewal of a finding, observations of the outcome, completion
    reports, receipts and the correction loop.

    Callers name a submission by an [ApprovalInput]; [normalizeCurrentApprovalContext] is applied
    where it enters, and is the identity on what it gives ([normalized_again]). *)

From S2P Require Import Prelude JsString Json Sql CanonicalJson SessionState WorkSessions Regex.
From S2P Require Import MissionEvidence MissionOutcome MissionLedger.

Module MissionApproval.
Import WorkSessions CanonicalJson MissionEvidence MissionOutcome MissionLedger.

(** ** The submission under review *)

Record ApprovalInput := mkApprovalInput {
  ai_submissionId : option jsstr;
  ai_snapshot : SnapshotInput;
  ai_reviewEpoch : option Z
}.

Definition normalizeCurrentApprovalContext (i : ApprovalInput) : res Error CurrentApprovalContext :=
  s ← identity (ai_snapshot i);
  Ok (mkContext (ai_submissionId i) s (ai_reviewEpoch i)).

Definition le_number (a b : SubmissionRow) : bool := (submissionNumber b <=? submissionNumber a)%Z.

Definition getCurrentApprovalContext (ws : jsstr) (d : ledger) : res Error CurrentApprovalContext :=
  match first_by le_number
          (select_where (λ r, bool_decide (sub_workSessionId r = ws)) (submissions d)) with
  | None => Ok (mkContext None None None)
  | Some r =>
      s ← identity (mkSnapshotInput (snapshotKind r) (snapshotRef r) None);
      Ok (if nonempty (sub_id r) then mkContext (Some (sub_id r)) s (Some (sub_reviewEpoch r))
          else mkContext None None None)
  end.

(** [normalizeCurrentApprovalContext(context ?? getCurrentApprovalContext(workSessionId))] *)
Definition context_for (ws : jsstr) (c : option ApprovalInput) (d : ledger)
  : res Error CurrentApprovalContext :=
  match c with Some i => normalizeCurrentApprovalContext i | None => getCurrentApprovalContext ws d end.

(** The identity of a submission, when all of it is there. *)
Definition complete (c : CurrentApprovalContext) : option ReviewedSubmission :=
  match submissionId c, snapshot c, reviewEpoch c with
  | Some (x :: k), Some s, Some n => Some (mkReviewed (x :: k) s n)
  | _, _, _ => None
  end.

Section Approval.
Context (sha256 : jsstr → jsstr) (localeCompare : jsstr → jsstr → Z) (iso : Z → jsstr).

(** ** Effective criteria *)

(** [order by attempt, created_at]; a row without an attempt comes first. *)
Definition le_attempt (a b : EvidenceRecord) : bool :=
  let created := (e_createdAt a <=? e_createdAt b)%Z in
  match e_attempt a, e_attempt b with
  | None, None => created
  | None, Some _ => true
  | Some _, None => false
  | Some m, Some n => (m <? n)%Z || ((m =? n)%Z && created)
  end.

Definition evidence_of (mission : jsstr) (d : ledger) : list EvidenceRecord :=
  order_by le_attempt (select_where (λ e, bool_decide (e_missionId e = mission)) (evidence d)).

Definition latestCurrentEvidence (mission k : jsstr) (c : CurrentApprovalContext) (d : ledger)
  : option EvidenceRecord :=
  if negb (truthy (submissionId c)) || bool_decide (snapshot c = None) then None
  else
    criterion ← get_criterion mission k d;
    let rows :=
      order_by le_attempt
        (select_where (λ e, bool_decide (e_missionId e = mission) && bool_decide (e_criterionId e = Some k))
           (evidence d)) in
    selectEffectiveEvidenceResult localeCompare rows (of_criterion k) c
      (Some (isEvidenceSourceAllowed (c_verificationType criterion))).

(** The evaluation always gives states: [MissionCriteria.evaluation_exact]. *)
Definition criterion_states (m : Mission) (c : CurrentApprovalContext) (d : ledger)
  : list EffectiveCriterionState :=
  default []
    (evaluateEffectiveCriteria (order_by le_created (criteria_of (m_id m) d))
       (λ x, latestCurrentEvidence (m_id m) (c_id x) c d) c).

Definition evaluateCriteria (ws : jsstr) (i : option ApprovalInput) (d : ledger)
  : res Error (list EffectiveCriterionState) :=
  match getMissionByWorkSession ws d with
  | None => Ok []
  | Some m => c ← context_for ws i d; Ok (criterion_states m c d)
  end.

(** ** Approval *)

Definition at_snapshot (mission : jsstr) (k : jsstr) (s : Snapshot) (p : CompletionReport) : bool :=
  bool_decide (p_missionId p = mission) && bool_decide (p_submissionId p = k)
  && bool_decide (p_snapshot p = s).

Definition newest_report (a b : CompletionReport) : bool := (p_createdAt b <=? p_createdAt a)%Z.

Definition report_of (mission k : jsstr) (s : Snapshot) (d : ledger) : option CompletionReport :=
  first_by newest_report (select_where (at_snapshot mission k s) (reports d)).

Definition current_report (m : Mission) (c : CurrentApprovalContext) (d : ledger)
  : option CompletionReport :=
  match submissionId c, snapshot c with
  | Some (x :: k), Some s => report_of (m_id m) (x :: k) s d
  | _, _ => None
  end.

Definition outcome_report (p : CompletionReport) : OutcomeReport :=
  mkReport (p_passed p) (p_reviewCoverage p) (p_results p).

(** [effectiveFindingResolutions] *)
Definition resolution_of (evidence : list EvidenceRecord) (c : CurrentApprovalContext) (f : Finding)
  : Resolution :=
  match complete c with
  | None =>
      mkResolution false
        ["Finding " +s f_id f +s " requires a complete current submission, snapshot, and review epoch; none exists yet, so resolution remains unproven."] []
  | Some q =>
      evaluateEffectiveFindingResolution localeCompare evidence (f_requiredVerification f) (f_id f) q
  end.

Definition claims_resolution (f : Finding) : bool :=
  bool_decide (f_status f ∈ [verified_resolved; claimed_resolved]).

Definition finding_resolutions (m : Mission) (c : CurrentApprovalContext) (d : ledger)
  : list (jsstr * Resolution) :=
  List.map (λ f, (f_id f, resolution_of (evidence_of (m_id m) d) c f))
    (List.filter (λ f, gates f && claims_resolution f) (findings_of (m_id m) d)).

Definition observation_row (m : Mission) (k : jsstr) (s : Snapshot) (epoch : Z)
  (o : OutcomeObservation) : bool :=
  bool_decide (o_missionId o = m_id m) && bool_decide (o_submissionId o = k)
  && bool_decide (o_snapshot o = s) && bool_decide (o_reviewEpoch o = Some epoch)
  && bool_decide (o_expectedBehavior o = or_empty (m_outcomeExpectedBehavior m))
  && bool_decide (o_observationSource o = FIRSTHAND)
  && negb (bool_decide (o_observerPrincipalId o = None))
  && negb (bool_decide (o_externalEvidenceSha256 o = None)).

Definition observations_of (m : Mission) (c : CurrentApprovalContext) (d : ledger)
  : list OutcomeObservation :=
  match submissionId c, snapshot c with
  | Some (x :: k), Some s =>
      order_by later
        (select_where (observation_row m (x :: k) s (default (-1)%Z (reviewEpoch c))) (observations d))
  | _, _ => []
  end.

Definition observation_context (m : Mission) (c : CurrentApprovalContext) : ObservationContext :=
  mkObservationContext (or_empty (submissionId c)) (default (-1)%Z (reviewEpoch c)) (snapshot c)
    (or_empty (m_outcomeExpectedBehavior m)).

(** [canApprove] of a mission in a normalized context *)
Definition approve_mission (m : Mission) (c : CurrentApprovalContext) (d : ledger)
  : bool * list jsstr :=
  evaluateMissionOutcome iso (criteria_of (m_id m) d) (criterion_states m c d)
    (findings_of (m_id m) d) (m_finalVerification m) (m_reviewCoverage m)
    (Some (default implementation_verified (m_outcomeEvidence m)))
    (outcome_report <$> current_report m c d) (observation_context m c)
    (finding_resolutions m c d) (observations_of m c d).

Definition canApprove (ws : jsstr) (i : option ApprovalInput) (d : ledger)
  : res Error (bool * list jsstr) :=
  match getMissionByWorkSession ws d with
  | None => Ok (true, [])
  | Some m => c ← context_for ws i d; Ok (approve_mission m c d)
  end.

(** ** Renewing a finding *)

Definition with_resolution (k : jsstr) (ids : list jsstr) (now : Z) (f : Finding) : Finding :=
  {| f_id := f_id f; f_missionId := f_missionId f; f_introducedIn := f_introducedIn f;
     f_scope := f_scope f; f_severity := f_severity f; f_category := f_category f;
     f_disposition := f_disposition f; f_fingerprint := f_fingerprint f;
     f_description := f_description f; f_evidence := f_evidence f;
     f_requiredAction := f_requiredAction f;
     f_requiredVerification := f_requiredVerification f; f_status := verified_resolved;
     f_resolutionSubmissionId := Some k; f_resolutionEvidence := ids; f_waiverReason := None;
     f_createdAt := f_createdAt f; f_updatedAt := now |}.

Definition resolution_stale (f : Finding) (i : ApprovalInput) : bool :=
  bool_decide (f_status f = verified_resolved) && truthy (f_resolutionSubmissionId f)
  && negb (bool_decide (f_resolutionSubmissionId f = ai_submissionId i)).

(** The evidence of the finding, as [resolveFinding] reads it. *)
Definition finding_evidence (mission k : jsstr) (d : ledger) : list EvidenceRecord :=
  order_by le_attempt
    (select_where (λ e, bool_decide (e_missionId e = mission) && bool_decide (e_findingId e = Some k))
       (evidence d)).

(** The row still has the status that was read. *)
Definition still (f row : Finding) : bool :=
  if bool_decide (f_status f = claimed_resolved) then bool_decide (f_status row = claimed_resolved)
  else bool_decide (f_status row = verified_resolved)
       && bool_decide (f_resolutionSubmissionId row = f_resolutionSubmissionId f).

Definition resolveFinding (now : Z) (mission k : jsstr) (i : ApprovalInput) (d : ledger)
  : res Error (list jsstr * ledger) :=
  f ← require (get_finding mission k d) foreign_finding;
  _ ← ensure (bool_decide (f_status f = claimed_resolved) || resolution_stale f i) not_claimed;
  s ← identity (ai_snapshot i);
  q ← require (complete (mkContext (ai_submissionId i) s (ai_reviewEpoch i))) identity_missing;
  m ← require (get_mission mission d) mission_missing;
  latest ← getCurrentApprovalContext (m_workSessionId m) d;
  _ ← ensure (bool_decide (submissionId latest = Some (q_submissionId q))
              && bool_decide (snapshot latest = Some (q_snapshot q))
              && bool_decide (reviewEpoch latest = Some (q_reviewEpoch q))) not_current;
  let r := evaluateEffectiveFindingResolution localeCompare (finding_evidence mission k d)
             (f_requiredVerification f) k q in
  _ ← ensure (resolved r) (not_resolved (reasons r));
  let ids := set_of (qualifyingEvidenceIds r) in
  Ok (ids,
      touchMission now mission
        (set_findings
           (update_where (λ row, is_finding mission k row && still f row)
              (with_resolution (q_submissionId q) ids now) (findings d)).1 d)).

(** ** Observations of the outcome *)

Record OutcomeInput := mkOutcomeInput {
  oi_submissionId : jsstr;
  oi_reviewEpoch : Z;
  oi_snapshot : Snapshot;
  oi_observerPrincipalId : jsstr;
  oi_evidenceBasis : jsstr;
  oi_externalEvidence : jsstr;
  oi_actualBehavior : jsstr;
  oi_status : ObservationStatus
}.

Definition status_text (s : ObservationStatus) : jsstr :=
  match s with confirmed => "confirmed" | rejected => "rejected" end.

Definition FIRSTHAND_BASIS : jsstr := "firsthand_external_observation".

Definition observation_text (mission : jsstr) (i : OutcomeInput) (expected digest : jsstr) : jsstr :=
  render (JObj
    [(js "missionId", JStr mission);
     (js "submissionId", JStr (oi_submissionId i));
     (js "reviewEpoch", JNum (oi_reviewEpoch i));
     (js "snapshotKind", JStr (kind_name (oi_snapshot i).1));
     (js "snapshotRef", JStr (oi_snapshot i).2);
     (js "observerIdentity", JStr ("principal:" +s oi_observerPrincipalId i));
     (js "observerPrincipalId", JStr (oi_observerPrincipalId i));
     (js "evidenceBasis", JStr (oi_evidenceBasis i));
     (js "source", JStr FIRSTHAND);
     (js "evidenceSha256", JStr digest);
     (js "expectedBehavior", JStr expected);
     (js "actualBehavior", JStr (oi_actualBehavior i));
     (js "status", JStr (status_text (oi_status i)))]).

Definition same_observed (mission : jsstr) (i : OutcomeInput) (expected : jsstr)
  (o : OutcomeObservation) : bool :=
  bool_decide (o_missionId o = mission) && bool_decide (o_submissionId o = oi_submissionId i)
  && bool_decide (o_reviewEpoch o = Some (oi_reviewEpoch i))
  && bool_decide (o_snapshot o = oi_snapshot i) && bool_decide (o_expectedBehavior o = expected).

Definition new_observation (now : Z) (uuid mission : jsstr) (i : OutcomeInput) (expected : jsstr)
  (previous : option OutcomeObservation) : OutcomeObservation :=
  let digest := sha256 (oi_externalEvidence i) in
  {| o_id := "obs_" +s uuid; o_missionId := mission; o_submissionId := oi_submissionId i;
     o_reviewEpoch := Some (oi_reviewEpoch i); o_snapshot := oi_snapshot i;
     o_observerIdentity := "principal:" +s oi_observerPrincipalId i;
     o_observerPrincipalId := Some (oi_observerPrincipalId i);
     o_observationSource := FIRSTHAND; o_externalEvidenceSha256 := Some digest;
     o_expectedBehavior := expected; o_actualBehavior := oi_actualBehavior i;
     o_status := oi_status i;
     o_observedAt := Z.max now (default 0%Z (o_observedAt <$> previous) + 1);
     o_observationSha256 := sha256 (observation_text mission i expected digest) |}.

(** [recordOutcomeObservation]; the receipt repeats fields of the row. *)
Definition recordOutcomeObservation (now : Z) (uuid mission : jsstr) (i : OutcomeInput) (d : ledger)
  : res Error (OutcomeObservation * ledger) :=
  m ← require (get_mission mission d) mission_missing;
  _ ← reject (bool_decide (m_outcomeEvidence m = Some operationally_stable)) stable_unsupported;
  _ ← ensure (bool_decide (m_outcomeEvidence m = Some outcome_verified)) outcome_not_required;
  _ ← ensure (nonempty (trim (oi_observerPrincipalId i))) principal_missing;
  _ ← ensure (oi_evidenceBasis i =s FIRSTHAND_BASIS) not_firsthand;
  let expected := trim (or_empty (m_outcomeExpectedBehavior m)) in
  _ ← ensure (nonempty expected) behavior_not_declared;
  _ ← ensure (nonempty (trim (oi_externalEvidence i))) external_evidence_missing;
  let previous := first_by later (select_where (same_observed mission i expected) (observations d)) in
  let o := new_observation now uuid mission i expected previous in
  Ok (o, touchMission now mission (set_observations (insert_row o (observations d)) d)).

(** ** Completion reports *)

(** [mergeInto] *)
Definition merge_into (current : list jsstr) (incoming : option (list jsstr)) : list jsstr :=
  set_of (current ++ default [] incoming).

Record ReportInput := mkReportInput {
  ri_submissionId : jsstr;
  ri_snapshot : SnapshotInput;
  ri_reviewCoverage : option (list jsstr);
  ri_uncertainty : option (list json)
}.

Definition with_report (passed : bool) (results : json) (i : ReportInput) (p : CompletionReport)
  : CompletionReport :=
  {| p_id := p_id p; p_missionId := p_missionId p; p_submissionId := p_submissionId p;
     p_snapshot := p_snapshot p; p_passed := passed; p_results := results;
     p_reviewCoverage := merge_into (p_reviewCoverage p) (ri_reviewCoverage i);
     p_uncertainty := default (p_uncertainty p) (ri_uncertainty i);
     p_reportSha256 := sha256 (render results); p_createdAt := p_createdAt p |}.

Definition with_coverage (i : ReportInput) (p : CompletionReport) : CompletionReport :=
  {| p_id := p_id p; p_missionId := p_missionId p; p_submissionId := p_submissionId p;
     p_snapshot := p_snapshot p; p_passed := p_passed p; p_results := p_results p;
     p_reviewCoverage := merge_into (p_reviewCoverage p) (ri_reviewCoverage i);
     p_uncertainty := default (p_uncertainty p) (ri_uncertainty i);
     p_reportSha256 := p_reportSha256 p; p_createdAt := p_createdAt p |}.

Definition new_report (now : Z) (uuid mission : jsstr) (s : Snapshot) (passed : bool) (results : json)
  (i : ReportInput) : CompletionReport :=
  {| p_id := "report_" +s uuid; p_missionId := mission; p_submissionId := ri_submissionId i;
     p_snapshot := s; p_passed := passed; p_results := results;
     p_reviewCoverage := default [] (ri_reviewCoverage i);
     p_uncertainty := default [] (ri_uncertainty i); p_reportSha256 := sha256 (render results);
     p_createdAt := now |}.

Definition update_report (k : jsstr) (g : CompletionReport → CompletionReport) (d : ledger) : ledger :=
  set_reports (update_where (λ p, bool_decide (p_id p = k)) g (reports d)).1 d.

Definition recordCompletionReport (now : Z) (uuid mission : jsstr) (passed : bool) (results : json)
  (i : ReportInput) (d : ledger) : res Error ledger :=
  snapshot ← identity (ri_snapshot i);
  s ← require snapshot report_without_snapshot;
  Ok match report_of mission (ri_submissionId i) s d with
     | Some prior => update_report (p_id prior) (with_report passed results i) d
     | None => set_reports (insert_row (new_report now uuid mission s passed results i) (reports d)) d
     end.

Definition recordReviewCoverage (now : Z) (uuid mission : jsstr) (i : ReportInput) (d : ledger)
  : res Error ledger :=
  snapshot ← identity (ri_snapshot i);
  s ← require snapshot report_without_snapshot;
  _ ← require (get_mission mission d) mission_missing;
  Ok match report_of mission (ri_submissionId i) s d with
     | Some existing => update_report (p_id existing) (with_coverage i) d
     | None => set_reports (insert_row (new_report now uuid mission s false (JArr []) i) (reports d)) d
     end.

Definition getCompletionReportHash (ws : jsstr) (i : ApprovalInput) (d : ledger)
  : res Error (option jsstr) :=
  s ← identity (ai_snapshot i);
  Ok match getMissionByWorkSession ws d, ai_submissionId i, s with
     | Some m, Some (x :: k), Some s =>
         if Nat.eqb (length (m_finalVerification m)) 0 then None
         else if match ai_reviewEpoch i with
                 | None => true
                 | Some n =>
                     match get_where (λ r, bool_decide (sub_id r = x :: k)
                                           && bool_decide (sub_workSessionId r = ws)) (submissions d) with
                     | Some r => bool_decide (sub_reviewEpoch r = n)
                     | None => false
                     end
                 end
         then p_reportSha256 <$>
                first_by newest_report
                  (select_where (λ p, at_snapshot (m_id m) (x :: k) s p && p_passed p) (reports d))
         else None
     | _, _, _ => None
     end.

(** ** The correction loop *)

(** [evaluateLoopExtension]: the round's claim of approval is replaced by the ledger's. *)
Definition newly_blocking (mission : jsstr) (ids : list jsstr) (d : ledger) : list Finding :=
  List.filter gates (omap (λ k, get_finding mission k d) ids).

Definition evaluateLoopExtension (now : Z) (ws : jsstr) (newFindingIds : list jsstr)
  (r : CorrectionRoundInput) (d : ledger) : res Error (LoopExtensionDecision * ledger) :=
  match getMissionByWorkSession ws d with
  | None => Ok (mkDecision false 0 0 "No mission contract for this session." false, d)
  | Some m =>
      approval ← canApprove ws None d;
      let decision :=
        evaluateCorrectionPolicy (m_correctionRounds m) (m_maxCorrectionRounds m)
          (length (newly_blocking (m_id m) newFindingIds d))
          (mkRound (resolvedCount r) approval.1 (roundProgress r)) false in
      Ok (decision,
          if extend decision then update_mission (m_id m) (with_rounds (round decision) now) d else d)
  end.

(** ** Packets and receipts *)

Record MissionReviewPacket := mkPacket {
  k_mission : option Mission;
  k_criteria : list Criterion;
  k_findings : list Finding;
  k_workOrders : list WorkOrder;
  k_evidence : list EvidenceRecord;
  k_completionReports : list CompletionReport;
  k_approval : bool * list jsstr;
  k_criterionStates : list EffectiveCriterionState;
  k_currentSubmissionId : option jsstr
}.

Definition newest {A} (created : A → Z) (a b : A) : bool := (created b <=? created a)%Z.

Definition getPacket (ws : jsstr) (i : option ApprovalInput) (d : ledger)
  : res Error MissionReviewPacket :=
  match getMissionByWorkSession ws d with
  | None => Ok (mkPacket None [] [] [] [] [] (true, []) [] None)
  | Some m =>
      c ← context_for ws i d;
      Ok (mkPacket (Some m) (order_by le_created (criteria_of (m_id m) d))
            (order_by (λ a b, (f_createdAt a <=? f_createdAt b)%Z) (findings_of (m_id m) d))
            (order_by (newest w_createdAt)
               (select_where (λ w, bool_decide (w_missionId w = m_id m)) (workOrders d)))
            (order_by (newest e_createdAt)
               (select_where (λ e, bool_decide (e_missionId e = m_id m)) (evidence d)))
            (order_by newest_report
               (select_where (λ p, bool_decide (p_missionId p = m_id m)) (reports d)))
            (approve_mission m c d) (criterion_states m c d) (submissionId c))
  end.

Record ResultReceipt := mkReceipt {
  t_missionId : jsstr;
  t_currentSubmissionId : option jsstr;
  t_approval : bool * list jsstr;
  t_requiredEvidenceLevel : OutcomeEvidenceLevel;
  t_verificationEvidenceIds : list jsstr;
  t_outcomeObservationIds : list jsstr;
  t_completionReport : option CompletionReport;
  t_evidence : list EvidenceRecord
}.

Definition receipt_evidence (m : Mission) (q : ReviewedSubmission) (d : ledger) : list EvidenceRecord :=
  limit 100 (order_by (newest e_createdAt)
    (select_where (λ e, bool_decide (e_missionId e = m_id m)
                        && bool_decide (e_submissionId e = Some (q_submissionId q))
                        && bool_decide (e_snapshot e = Some (q_snapshot q))
                        && bool_decide (e_reviewEpoch e = Some (q_reviewEpoch q))) (evidence d))).

Definition verification_ids (rows : list EvidenceRecord) : list jsstr :=
  List.map e_id (List.filter (λ e, bool_decide (e_status e = ev_passed)
                                   && negb (is_source agent_claim e)) rows).

Definition getResultReceipt (ws : jsstr) (i : option ApprovalInput) (d : ledger)
  : res Error (option ResultReceipt) :=
  match getMissionByWorkSession ws d with
  | None => Ok None
  | Some m =>
      c ← context_for ws i d;
      let approval := approve_mission m c d in
      let level := default implementation_verified (m_outcomeEvidence m) in
      if negb (truthy (submissionId c))
      then Ok (Some (mkReceipt (m_id m) None approval level [] [] None []))
      else
        let rows := match complete c with Some q => receipt_evidence m q d | None => [] end in
        let outcomes :=
          match complete c with
          | Some q =>
              order_by later
                (select_where (observation_row m (q_submissionId q) (q_snapshot q) (q_reviewEpoch q))
                   (observations d))
          | None => []
          end in
        let satisfied := (evaluateOutcomeObservations iso outcomes (observation_context m c)).1 in
        Ok (Some (mkReceipt (m_id m) (submissionId c) approval level (verification_ids rows)
              match outcomes with
              | o :: _ =>
                  if satisfied && bool_decide (o_status o = confirmed)
                     && nonempty (trim (o_observerIdentity o)) then [o_id o] else []
              | [] => []
              end
              (current_report m c d) rows))
  end.

End Approval.

(** ** Normalizing again *)

Lemma legacy_reference kind ref :
  normalizeWorkspaceSnapshotIdentity kind ref ref = normalizeWorkspaceSnapshotIdentity kind ref None.
Proof.
  unfold normalizeWorkspaceSnapshotIdentity. change (trimmed_or_none None) with (@None jsstr).
  destruct (trimmed_or_none ref); [|done]. by rewrite js_eqb_refl.
Qed.

Lemma normalized_again i c :
  normalizeCurrentApprovalContext i = Ok c →
  normalizeCurrentApprovalContext
    (mkApprovalInput (submissionId c)
       (mkSnapshotInput ((λ s, kind_name s.1) <$> snapshot c) (snd <$> snapshot c) None) (reviewEpoch c))
  = Ok c.
Proof.
  unfold normalizeCurrentApprovalContext, identity. intros (s & E & [= <-])%bind_Ok.
  cbn [s_kind s_ref s_commit ai_snapshot ai_submissionId ai_reviewEpoch submissionId snapshot reviewEpoch].
  unfold lift in E. destruct (normalizeWorkspaceSnapshotIdentity _ _ _) as [x|] eqn:En in E; [|done].
  injection E as ->. rewrite <- legacy_reference, (normalize_stored _ _ _ _ En). done.
Qed.

End MissionApproval.
