(* ===== verification/MissionCriteria.v ===== *)
(** * The graph of a mission's criteria

    Facts of [validateMissionCriterionContract] and [evaluateEffectiveCriteria], which both walk
    the dependencies of the criteria, remembering where they have been.  The validation ends, and
    accepts the dependencies exactly when they are well founded; the evaluation ends on any graph,
    and finds a criterion verified exactly when it is [effective]: its observation passed and all
    it depends on is effective. *)

From S2P Require Import Prelude JsString Json Sql CanonicalJson SessionState WorkSessions Regex.
From S2P Require Import MissionEvidence MissionOutcome.

Module MissionCriteria.
Import MissionEvidence MissionOutcome.

(** ** Walking a graph without coming back *)

(** The nodes entered are different nodes of [ids], so a depth of one more than their number is
    never exceeded. *)
Lemma entered_bound (visiting ids : list jsstr) :
  NoDup visiting → visiting ⊆ ids → length visiting ≤ length ids.
Proof. intros Hn Hs. apply submseteq_length, NoDup_submseteq; done. Qed.

Lemma js_not_in (k : jsstr) l : existsb (js_eqb k) l = false ↔ k ∉ l.
Proof. rewrite <- js_in. by destruct (existsb (js_eqb k) l). Qed.

(** A node from which no infinite path starts. *)
Inductive grounded (edges : jsstr → list jsstr) (k : jsstr) : Prop :=
| grounded_intro : (∀ d, d ∈ edges k → grounded edges d) → grounded edges k.

Definition leads (edges : jsstr → list jsstr) (a b : jsstr) : Prop := b ∈ edges a.

Lemma grounded_no_cycle edges k : grounded edges k → ¬ tc (leads edges) k k.
Proof.
  induction 1 as [k _ IH]. intros Hc. inversion Hc as [? ? E|? y ? E Hr]; subst.
  - by apply (IH k E).
  - apply (IH y E). eapply tc_r; [exact Hr|exact E].
Qed.

(** ** Validation *)

Section Walk.
Context (edges : jsstr → list jsstr).

(** The walk from [k] adds [k] to grounded nodes, or stops in a cycle. *)
Definition walked (visited : list jsstr) (k : jsstr) (r : option (res Error (list jsstr))) : Prop :=
  match r with
  | None => False
  | Some (Ok visited') =>
      Forall (grounded edges) visited' ∧ visited ⊆ visited' ∧ k ∈ visited'
  | Some (Err e) => ∃ c, e = dependency_cycle c ∧ tc (leads edges) c c
  end.

Lemma walk_all_spec go ks : ∀ visited,
  Forall (grounded edges) visited →
  (∀ k visited, k ∈ ks → Forall (grounded edges) visited → walked visited k (go visited k)) →
  match walk_all go visited ks with
  | None => False
  | Some (Ok visited') => Forall (grounded edges) visited' ∧ visited ⊆ visited' ∧ ks ⊆ visited'
  | Some (Err e) => ∃ c, e = dependency_cycle c ∧ tc (leads edges) c c
  end.
Proof.
  induction ks as [|k ks IH]; intros visited Hv Hgo; cbn; [set_solver|].
  specialize (Hgo k visited ltac:(left) Hv) as Hk. unfold walked in Hk.
  destruct (go visited k) as [[visited1|e]|]; try done.
  destruct Hk as (Hv1 & Hsub & Hin).
  specialize (IH visited1 Hv1 ltac:(intros; apply Hgo; [by right|done])).
  destruct (walk_all go visited1 ks) as [[visited2|e]|]; try done.
  destruct IH as (Hv2 & Hsub2 & Hks). split; [done|]. set_solver.
Qed.

Context (ids : list jsstr).
Hypothesis edges_known : ∀ a b, b ∈ edges a → b ∈ ids.

Lemma walk_spec fuel : ∀ visiting visited k,
  k ∈ ids → NoDup visiting → visiting ⊆ ids → length ids < fuel + length visiting →
  (∀ v, v ∈ visiting → tc (leads edges) v k) → Forall (grounded edges) visited →
  walked visited k (walk fuel edges visiting visited k).
Proof.
  induction fuel as [|fuel IH]; intros visiting visited k Hk Hn Hs Hf Hp Hv.
  { pose proof (entered_bound visiting ids Hn Hs). lia. }
  cbn [walk]. destruct (existsb (js_eqb k) visited) eqn:Ev.
  { apply js_in in Ev. cbn. done. }
  destruct (existsb (js_eqb k) visiting) eqn:Eg.
  { apply js_in in Eg. cbn. eauto. }
  apply js_not_in in Eg.
  pose proof (walk_all_spec (walk fuel edges (k :: visiting)) (edges k) visited Hv) as Hall.
  assert (Hgo : ∀ d visited, d ∈ edges k → Forall (grounded edges) visited →
            walked visited d (walk fuel edges (k :: visiting) visited d)).
  { intros d visited' Hd Hv'. apply IH; [by eapply edges_known| |set_solver|cbn; lia| |done].
    - by constructor.
    - intros v [->|Hin]%elem_of_cons; [by apply tc_once|].
      eapply tc_r; [by apply Hp|done]. }
  specialize (Hall Hgo). destruct (walk_all _ visited (edges k)) as [[visited'|e]|]; try done.
  destruct Hall as (Hv' & Hsub & Hin). cbn. split.
  - constructor; [|done]. constructor. intros d Hd%Hin.
    rewrite Forall_forall in Hv'. by apply Hv'.
  - set_solver.
Qed.
End Walk.

Lemma check_all_Ok {A} (check : A → res Error unit) l u :
  check_all check l = Ok u ↔ ∀ a, a ∈ l → check a = Ok tt.
Proof.
  destruct u. induction l as [|a l IH]; cbn; [set_solver|].
  rewrite bind_Ok. setoid_rewrite IH. split.
  - intros ([] & Ha & Hl) x [->|Hx]%elem_of_cons; auto.
  - intros H. exists tt. split; [apply H; left|]. intros; apply H; by right.
Qed.

Lemma criterion_ids_spec criteria : ∀ ids ids',
  criterion_ids criteria ids = Ok ids' →
  ∀ k, k ∈ ids' ↔ k ∈ ids ∨ ∃ c, c ∈ criteria ∧ truthy (ci_id c) = true ∧ ci_id c = Some k.
Proof.
  induction criteria as [|c criteria IH]; intros ids ids' H k.
  { cbn in H. simplify_eq. split; [auto|]. intros [?|(c & Hc & _)]; [done|].
    by apply not_elem_of_nil in Hc. }
  cbn [criterion_ids] in H. apply bind_Ok in H as (ids1 & H1 & H).
  apply bind_Ok in H as (_ & _ & H). rewrite (IH _ _ H k).
  assert (Hc : (∃ x, x ∈ c :: criteria ∧ truthy (ci_id x) = true ∧ ci_id x = Some k) ↔
     (truthy (ci_id c) = true ∧ ci_id c = Some k)
     ∨ ∃ x, x ∈ criteria ∧ truthy (ci_id x) = true ∧ ci_id x = Some k).
  { split.
    - intros (x & [->|Hx]%elem_of_cons & Ht & E); eauto.
    - intros [[Ht E]|(x & Hx & Ht & E)]; eexists; (split; [|eauto]); [left|by right]. }
  rewrite Hc. destruct (truthy (ci_id c)) eqn:Et.
  - apply bind_Ok in H1 as (_ & _ & H1). injection H1 as <-.
    destruct (ci_id c) as [k'|] eqn:Ei; [|done].
    change (or_empty (Some k')) with k'. rewrite elem_of_cons. intuition congruence.
  - injection H1 as <-. intuition congruence.
Qed.

(** What the validation accepts, apart from the cycles. *)
Definition keys_of (criteria : list MissionCriterionInput) : list jsstr :=
  omap (λ c, if truthy (ci_id c) then ci_id c else None) criteria.

Lemma elem_of_keys criteria k :
  k ∈ keys_of criteria ↔ ∃ c, c ∈ criteria ∧ truthy (ci_id c) = true ∧ ci_id c = Some k.
Proof.
  unfold keys_of. rewrite list_elem_of_omap. split.
  - intros (c & Hc & E). exists c. destruct (truthy (ci_id c)); naive_solver.
  - intros (c & Hc & Ht & E). exists c. by rewrite Ht.
Qed.

Lemma length_omap {A B} (f : A → option B) (l : list A) : length (omap f l) ≤ length l.
Proof. induction l as [|a l IH]; cbn; [lia|]. destruct (f a); cbn; lia. Qed.

Lemma graph_known ids criteria a b :
  criterion_ids criteria [] = Ok ids →
  (∀ c, c ∈ criteria → check_dependencies ids c = Ok tt) →
  b ∈ graph criteria a → b ∈ keys_of criteria.
Proof.
  intros Hids Hdep. unfold graph. destruct (byId criteria a) as [c|] eqn:E; [|set_solver].
  apply find_some_iff in E as [Hc%list_elem_of_In%in_rev%list_elem_of_In _]. intros Hb.
  specialize (Hdep c Hc). unfold check_dependencies in Hdep.
  rewrite check_all_Ok in Hdep. specialize (Hdep b Hb).
  apply bind_Ok in Hdep as (u & Hu & _). apply ensure_Ok, js_in in Hu.
  rewrite (criterion_ids_spec _ _ _ Hids b) in Hu. apply elem_of_keys. set_solver.
Qed.

(** A contract as the rules of [contract-authority.ts] have it. *)
Definition typed (c : MissionCriterionInput) : Prop :=
  match type_of_input c with
  | test => nonempty (trim (or_empty (ci_verificationCommand c))) = true ∧ ci_runtimeProbe c = None
  | runtime_behavior => ci_runtimeProbe c ≠ None ∧ truthy (ci_verificationCommand c) = false
  | _ => ci_runtimeProbe c = None ∧ truthy (ci_verificationCommand c) = false
  end.

Record well_formed (criteria : list MissionCriterionInput) : Prop := {
  ids_unique : NoDup (keys_of criteria);
  dependents_named : ∀ c, c ∈ criteria → dependencies c ≠ [] → truthy (ci_id c) = true;
  dependencies_known : ∀ c d, c ∈ criteria → d ∈ dependencies c →
    d ∈ keys_of criteria ∧ ci_id c ≠ Some d;
  dependencies_grounded : ∀ k, k ∈ keys_of criteria → grounded (graph criteria) k;
  criteria_typed : ∀ c, c ∈ criteria → typed c
}.

Lemma keys_of_cons c criteria :
  keys_of (c :: criteria) =
    (if truthy (ci_id c) then [or_empty (ci_id c)] else []) ++ keys_of criteria.
Proof. unfold keys_of. cbn. by destruct (ci_id c) as [[|]|]. Qed.

Lemma named_check c :
  reject (negb (Nat.eqb (length (dependencies c)) 0) && negb (truthy (ci_id c)))
    dependencies_without_id = Ok tt
  ↔ (dependencies c ≠ [] → truthy (ci_id c) = true).
Proof.
  rewrite reject_Ok. destruct (dependencies c), (truthy (ci_id c)); cbn; naive_solver.
Qed.

Lemma criterion_ids_Ok criteria : ∀ ids,
  (∃ ids', criterion_ids criteria ids = Ok ids') ↔
  NoDup (keys_of criteria) ∧ (∀ k, k ∈ keys_of criteria → k ∉ ids)
  ∧ (∀ c, c ∈ criteria → dependencies c ≠ [] → truthy (ci_id c) = true).
Proof.
  induction criteria as [|c criteria IH]; intros ids; cbn [criterion_ids].
  { split; [|eauto]. intros _. split; [constructor|]. split; intros ? []%elem_of_nil. }
  set (next := if truthy (ci_id c) then or_empty (ci_id c) :: ids else ids).
  assert (Hstep : (∃ ids', criterion_ids (c :: criteria) ids = Ok ids') ↔
     (truthy (ci_id c) = true → or_empty (ci_id c) ∉ ids)
     ∧ (dependencies c ≠ [] → truthy (ci_id c) = true)
     ∧ ∃ ids', criterion_ids criteria next = Ok ids').
  { unfold next. cbn [criterion_ids]. setoid_rewrite bind_Ok. rewrite <- named_check.
    destruct (truthy (ci_id c)) eqn:Et.
    - setoid_rewrite bind_Ok. setoid_rewrite reject_Ok. setoid_rewrite js_not_in.
      split.
      + intros (ids' & ids1 & ([] & Hk & E) & [] & Hn & H). injection E as <-. eauto.
      + intros (Hk & Hn & ids' & H). exists ids', (or_empty (ci_id c) :: ids).
        split; [exists tt; auto|]. by exists tt.
    - setoid_rewrite bind_Ok. split.
      + intros (ids' & ids1 & E & [] & Hn & H). injection E as <-. split; [done|]. eauto.
      + intros (_ & Hn & ids' & H). exists ids', ids. split; [done|]. by exists tt. }
  rewrite Hstep, IH, keys_of_cons. unfold next. setoid_rewrite elem_of_cons.
  destruct (truthy (ci_id c)) eqn:Et; cbn [app].
  - rewrite NoDup_cons. setoid_rewrite elem_of_cons. naive_solver.
  - naive_solver.
Qed.

Lemma check_type_Ok c : check_type c = Ok tt ↔ typed c.
Proof.
  unfold check_type, typed. destruct (type_of_input c); cbn;
    destruct (ci_runtimeProbe c), (truthy (ci_verificationCommand c)) eqn:Et,
      (nonempty (trim (or_empty (ci_verificationCommand c)))) eqn:En; cbn; naive_solver.
Qed.

Lemma known_check ids c :
  check_dependencies ids c = Ok tt ↔
  ∀ d, d ∈ dependencies c → d ∈ ids ∧ ci_id c ≠ Some d.
Proof.
  unfold check_dependencies. rewrite check_all_Ok. apply forall_proper. intros d.
  rewrite bind_Ok. setoid_rewrite ensure_Ok. setoid_rewrite reject_Ok. setoid_rewrite js_in.
  setoid_rewrite bool_decide_eq_false. split; [naive_solver|].
  intros H Hd. exists tt. auto.
Qed.

Lemma walk_criteria ids criteria :
  criterion_ids criteria [] = Ok ids →
  (∀ c, c ∈ criteria → check_dependencies ids c = Ok tt) →
  match walk_all (walk (S (length criteria)) (graph criteria) []) [] (set_of (keys_of criteria)) with
  | None => False
  | Some (Ok visited) => ∀ k, k ∈ keys_of criteria → grounded (graph criteria) k
  | Some (Err e) => ∃ c, e = dependency_cycle c ∧ tc (leads (graph criteria)) c c
  end.
Proof.
  intros Hids Hdep.
  pose proof (walk_all_spec (graph criteria) (walk (S (length criteria)) (graph criteria) [])
                (set_of (keys_of criteria)) [] (Forall_nil_2 _)) as H.
  assert (Hgo : ∀ k visited, k ∈ set_of (keys_of criteria) →
     Forall (grounded (graph criteria)) visited →
     walked (graph criteria) visited k (walk (S (length criteria)) (graph criteria) [] visited k)).
  { intros k visited Hk Hv. rewrite set_of_elem in Hk. apply (walk_spec _ (keys_of criteria)); try done.
    - intros a b. by apply graph_known with (ids := ids).
    - constructor.
    - set_solver.
    - pose proof (length_omap (λ c, if truthy (ci_id c) then ci_id c else None) criteria).
      unfold keys_of. cbn [length]. lia.
    - set_solver. }
  specialize (H Hgo). revert H. clear Hgo.
  generalize (walk_all (walk (S (length criteria)) (graph criteria) []) [] (set_of (keys_of criteria))).
  intros [[visited|e]|]; [|exact id|exact id].
  intros (Hv & _ & Hin) k Hk. rewrite Forall_forall in Hv.
  apply Hv, Hin, set_of_elem, Hk.
Qed.

(** The rules before the walk *)
Lemma first_checks criteria :
  (∃ ids, criterion_ids criteria [] = Ok ids
          ∧ check_all (check_dependencies ids) criteria = Ok tt) ↔
  NoDup (keys_of criteria)
  ∧ (∀ c, c ∈ criteria → dependencies c ≠ [] → truthy (ci_id c) = true)
  ∧ (∀ c d, c ∈ criteria → d ∈ dependencies c → d ∈ keys_of criteria ∧ ci_id c ≠ Some d).
Proof.
  assert (Hk : ∀ ids, criterion_ids criteria [] = Ok ids → ∀ k, k ∈ ids ↔ k ∈ keys_of criteria).
  { intros ids H k. rewrite (criterion_ids_spec _ _ _ H k), elem_of_keys, elem_of_nil. tauto. }
  pose proof (criterion_ids_Ok criteria []) as H. split.
  - intros (ids & E & Hc). destruct (proj1 H (ex_intro _ ids E)) as (Hn & _ & Hnamed).
    split; [done|]. split; [done|]. intros c d Hin Hd. rewrite check_all_Ok in Hc.
    specialize (Hc c Hin). rewrite known_check in Hc. rewrite <- (Hk ids E). auto.
  - intros (Hn & Hnamed & Hd).
    destruct (proj2 H) as [ids E]; [split; [done|]; split; [set_solver|done]|].
    exists ids. split; [done|]. apply check_all_Ok. intros c Hin. apply known_check.
    intros d Hin'. rewrite (Hk ids E). eauto.
Qed.

(** Only the walk finds cycles. *)
Definition no_cycle (e : Error) : Prop := ∀ k, e ≠ dependency_cycle k.

Lemma check_all_Err {A} (check : A → res Error unit) l e :
  (∀ a e, check a = Err e → no_cycle e) → check_all check l = Err e → no_cycle e.
Proof.
  intros Hc. induction l as [|a l IH]; cbn; [done|].
  intros [He|(_ & _ & He)]%bind_Err; eauto.
Qed.

Lemma reject_Err {E} b (e e' : E) : reject b e = Err e' → e' = e.
Proof. by destruct b; intros [= ->]. Qed.

Lemma ensure_Err {E} b (e e' : E) : ensure b e = Err e' → e' = e.
Proof. by destruct b; intros [= ->]. Qed.

(** A chain of guards fails with the error of one of them. *)
Ltac guard_error H :=
  repeat first
    [ apply bind_Err in H as [H|(? & _ & H)]
    | apply reject_Err in H | apply ensure_Err in H | discriminate H ];
  try (subst; intros ? [=]).

Lemma criterion_ids_Err criteria : ∀ ids e, criterion_ids criteria ids = Err e → no_cycle e.
Proof.
  induction criteria as [|c criteria IH]; intros ids e H; cbn [criterion_ids] in H; [done|].
  apply bind_Err in H as [H|(ids' & _ & H)].
  - destruct (truthy (ci_id c)); [|done]. guard_error H.
  - apply bind_Err in H as [H|(u & _ & H)]; [guard_error H|eauto].
Qed.

Lemma check_dependencies_Err ids c e : check_dependencies ids c = Err e → no_cycle e.
Proof. apply check_all_Err. intros d e' H. guard_error H. Qed.

Lemma check_type_Err c e : check_type c = Err e → no_cycle e.
Proof. unfold check_type. intros H. guard_error H. Qed.

Lemma graph_cycle_known ids criteria k :
  criterion_ids criteria [] = Ok ids →
  check_all (check_dependencies ids) criteria = Ok tt →
  tc (leads (graph criteria)) k k → k ∈ keys_of criteria.
Proof.
  intros Hids Hdep Hc. rewrite check_all_Ok in Hdep.
  assert (Hlast : ∃ a, leads (graph criteria) a k).
  { clear -Hc. induction Hc; eauto. }
  destruct Hlast as [a Ha]. by eapply graph_known.
Qed.

Lemma validation_exact criteria :
  (∃ r, validateMissionCriterionContract criteria = Some r ∧ (r = Ok tt ↔ well_formed criteria))
  ∧ ∀ k, validateMissionCriterionContract criteria = Some (Err (dependency_cycle k)) →
         tc (leads (graph criteria)) k k.
Proof.
  unfold validateMissionCriterionContract. fold (keys_of criteria).
  pose proof (first_checks criteria) as Hfirst.
  assert (Hno : ∀ e : Error, (∀ ids, criterion_ids criteria [] = Ok ids →
                        check_all (check_dependencies ids) criteria = Ok tt → False) →
                     @Err Error unit e = Ok tt ↔ well_formed criteria).
  { intros e Hf. split; [done|]. intros [? ? ? _ _].
    destruct (proj2 Hfirst) as (ids & E & Hc); [done|]. by destruct (Hf ids). }
  destruct (criterion_ids criteria []) as [ids|e] eqn:Eids.
  2:{ split; [|intros k [= ->]; by destruct (criterion_ids_Err _ _ _ Eids k)].
      eexists. split; [done|]. apply Hno. by intros. }
  destruct (check_all (check_dependencies ids) criteria) as [[]|e] eqn:Edep.
  2:{ split; [|intros k [= ->]; by destruct (check_all_Err _ _ _ (check_dependencies_Err ids) Edep k)].
      eexists. split; [done|]. apply Hno. intros ids' [= <-] E. by rewrite Edep in E. }
  pose proof (walk_criteria ids criteria Eids (proj1 (check_all_Ok _ _ tt) Edep)) as Hw. revert Hw.
  generalize (walk_all (walk (S (length criteria)) (graph criteria) []) [] (set_of (keys_of criteria))).
  intros [[visited|e]|] Hw; [| |destruct Hw].
  - split; [|intros k [= H]; by destruct (check_all_Err _ _ _ check_type_Err H k)]. eexists. split; [done|]. rewrite check_all_Ok.
    destruct (proj1 Hfirst) as (H1 & H2 & H3); [eauto|]. split.
    + intros Ht. constructor; try done. intros c Hc. by apply check_type_Ok, Ht.
    + intros [_ _ _ _ Ht] c Hc. by apply check_type_Ok, Ht.
  - destruct Hw as (c & -> & Hc). split; [|by intros k [= <-]]. eexists. split; [done|].
    split; [done|]. intros [_ _ _ Hg _].
    destruct (grounded_no_cycle (graph criteria) c); [|done]. by eapply Hg, graph_cycle_known.
Qed.

(** ** Evaluation *)

Section Evaluation.
Context (criteria : list Criterion) (evidenceFor : Criterion → option EvidenceRecord)
  (context : CurrentApprovalContext).

Abbreviation criterion_of := (criterion_of criteria).
Abbreviation evaluate := (evaluate criteria evidenceFor context).
Abbreviation state_of := (state_of evidenceFor context).

(** A criterion whose deciding observation passed, and which depends only on such criteria. *)
Inductive effective (k : jsstr) : Prop :=
| effective_intro c e :
    criterion_of k = Some c → evidenceFor c = Some e → e_status e = ev_passed →
    (∀ d, d ∈ c_dependsOn c → effective d) → effective k.

Definition depends (a b : jsstr) : Prop := ∃ c, criterion_of a = Some c ∧ b ∈ c_dependsOn c.

Lemma effective_no_cycle k : effective k → ¬ tc depends k k.
Proof.
  induction 1 as [k c e Hc _ _ _ IH]. intros Ht.
  inversion Ht as [? ? E|? y ? E Hr]; subst; destruct E as (c' & Hc' & Hin);
    rewrite Hc in Hc'; injection Hc' as <-.
  - by apply (IH k Hin).
  - apply (IH y Hin). eapply tc_r; [exact Hr|]. by exists c.
Qed.

Lemma criterion_of_Some k c : criterion_of k = Some c → c ∈ criteria ∧ c_id c = k.
Proof.
  intros [Hin E]%by_key_Some. split; [|done].
  by apply list_elem_of_In, in_rev, list_elem_of_In.
Qed.

Lemma criterion_of_elem c : c ∈ criteria → is_Some (criterion_of (c_id c)).
Proof.
  intros Hc. destruct (criterion_of (c_id c)) eqn:E; [eauto|]. exfalso.
  apply (proj1 (by_key_None _ _ _) E c); [|done].
  by apply list_elem_of_In, in_rev; rewrite rev_involutive; apply list_elem_of_In.
Qed.

(** What is remembered is right. *)
Definition right (kv : jsstr * EffectiveCriterionState) : Prop :=
  criterionId kv.2 = kv.1 ∧ (is_verified kv.2 = true ↔ effective kv.1).

Definition cached (states : States) (k : jsstr) : Prop := is_Some (by_key fst k states).

Lemma cached_mono (s1 s2 : States) k :
  (∀ kv, kv ∈ s1 → kv ∈ s2) → cached s1 k → cached s2 k.
Proof.
  intros Hs [kv E]. apply by_key_Some in E as [Hin <-].
  apply get_where_is_Some with (r := kv); [by apply Hs|]. by apply bool_decide_eq_true.
Qed.

(** The evaluation of [k] gives its state, and remembers it when it is a criterion. *)
Definition evaluated (visiting : list jsstr) (states : States) (k : jsstr)
  (r : option (EffectiveCriterionState * States)) : Prop :=
  ∃ x states', r = Some (x, states') ∧ (is_verified x = true ↔ effective k)
    ∧ Forall right states' ∧ (∀ kv, kv ∈ states → kv ∈ states')
    ∧ (is_Some (criterion_of k) → k ∉ visiting → cached states' k).

Lemma evaluate_all_spec visiting go ks : ∀ states,
  Forall right states →
  (∀ k states, k ∈ ks → Forall right states → evaluated visiting states k (go states k)) →
  ∃ xs states', evaluate_all go states ks = Some (xs, states')
    ∧ (forallb is_verified xs = true ↔ ∀ k, k ∈ ks → effective k)
    ∧ Forall right states' ∧ (∀ kv, kv ∈ states → kv ∈ states')
    ∧ ∀ k, k ∈ ks → is_Some (criterion_of k) → k ∉ visiting → cached states' k.
Proof.
  induction ks as [|k ks IH]; intros states Hs Hgo; cbn [evaluate_all].
  { exists [], states. split; [done|]. split; [|by repeat split; try intros ? []%elem_of_nil].
    split; [|done]. intros _ ? []%elem_of_nil. }
  destruct (Hgo k states ltac:(left) Hs) as (x & s1 & -> & Hx & Hs1 & Hin1 & Hc1).
  destruct (IH s1 Hs1) as (xs & s2 & E & Hxs & Hs2 & Hin2 & Hc2).
  { intros k' s' Hk' Hs'. apply Hgo; [by right|done]. }
  exists (x :: xs), s2. cbn. rewrite E. split; [done|]. split; [|split; [done|split; [by auto|]]].
  - cbn. rewrite andb_true_iff, Hx, Hxs. setoid_rewrite elem_of_cons. naive_solver.
  - intros k' [->|Hk']%elem_of_cons Hs' Hv; [|eauto]. eapply cached_mono; eauto.
Qed.

Lemma verified_state c deps :
  is_verified (state_of c deps) = true ↔
  (∃ e, evidenceFor c = Some e ∧ e_status e = ev_passed) ∧ forallb is_verified deps = true.
Proof.
  unfold is_verified at 1. unfold MissionOutcome.state_of. cbn [status].
  generalize (forallb is_verified deps). intros satisfied.
  assert (Hb : baseStatus (evidenceFor c) = verified ↔
               ∃ e, evidenceFor c = Some e ∧ e_status e = ev_passed).
  { unfold baseStatus. split.
    - destruct (evidenceFor c) as [e|]; cbn; [|done]. destruct (e_status e) eqn:E; try done. eauto.
    - intros (e & -> & E). cbn. by rewrite E. }
  rewrite <- Hb, bool_decide_eq_true. case_bool_decide as E; [|tauto].
  destruct satisfied; cbn; intuition congruence.
Qed.

Lemma evaluate_exact fuel : ∀ visiting states k,
  NoDup visiting → visiting ⊆ List.map c_id criteria →
  length criteria < fuel + length visiting →
  (∀ v, v ∈ visiting → tc depends v k) → Forall right states →
  evaluated visiting states k (evaluate fuel visiting states k).
Proof.
  induction fuel as [|fuel IH]; intros visiting states k Hn Hs Hf Hp Hr.
  { pose proof (entered_bound visiting _ Hn Hs) as Hb. rewrite length_map in Hb. lia. }
  cbn [MissionOutcome.evaluate]. destruct (by_key fst k states) as [kv|] eqn:Ec.
  { exists kv.2, states. pose proof (by_key_Some _ _ _ _ Ec) as [Hin <-].
    split; [done|]. split; [|split; [done|split; [done|]]].
    - rewrite Forall_forall in Hr. apply Hr, Hin.
    - intros _ _. by exists kv. }
  destruct (criterion_of k) as [c|] eqn:Ek.
  2:{ exists (missing k), states. split; [done|]. split; [|split; [done|split; [done|]]].
      2:{ intros [c H]. by rewrite Ek in H. }
      split; [done|]. intros [? ? H]. by rewrite Ek in H. }
  destruct (existsb (js_eqb k) visiting) eqn:Ev.
  { apply js_in in Ev. exists (cyclic k), states. split; [done|].
    split; [|split; [done|split; [done|done]]]. split; [done|]. intros He. destruct (effective_no_cycle k He). auto. }
  apply js_not_in in Ev. pose proof (criterion_of_Some _ _ Ek) as [Hin Eid].
  destruct (evaluate_all_spec (k :: visiting) (evaluate fuel (k :: visiting)) (c_dependsOn c) states Hr)
    as (deps & s' & -> & Hdeps & Hs' & Hsub & _).
  { intros d s1 Hd Hs1. apply IH; [by constructor| |cbn; lia| |done].
    - intros x [->|Hx]%elem_of_cons; [|auto]. apply elem_of_Lmap; eauto.
    - intros v [->|Hv]%elem_of_cons; [apply tc_once|eapply tc_r; [by apply Hp|]]; by exists c. }
  assert (Hstate : is_verified (state_of c deps) = true ↔ effective k).
  { rewrite verified_state, Hdeps. split.
    - intros [(e & He & Hst) Hd]. by econstructor.
    - intros [c' e Hc' He Hst Hd]. simplify_eq. eauto. }
  cbn. eexists _, _. split; [done|]. split; [done|]. split; [|split].
  - by constructor.
  - intros kv Hkv. right. auto.
  - intros _ _. exists (k, state_of c deps). unfold by_key, get_where. cbn.
    by rewrite bool_decide_eq_true_2.
Qed.

(** The evaluation ends, and is right about every criterion. *)
Lemma evaluation_exact :
  ∃ states, evaluateEffectiveCriteria criteria evidenceFor context = Some states
    ∧ Forall2 (λ c x, criterionId x = c_id c ∧ (status x = verified ↔ effective (c_id c)))
        criteria states.
Proof.
  unfold evaluateEffectiveCriteria.
  destruct (evaluate_all_spec [] (evaluate (S (length criteria)) []) (List.map c_id criteria) []
              (Forall_nil_2 _)) as (xs & s & -> & _ & Hs & _ & Hc).
  { intros k s1 _ Hs1. apply evaluate_exact; [constructor|set_solver|lia|set_solver|done]. }
  eexists. split; [done|]. cbn. rewrite Forall2_fmap_r.
  apply Forall_Forall2_diag, Forall_forall. intros c Hin. cbn.
  destruct (Hc (c_id c)) as [kv E]; [apply elem_of_Lmap; eauto|by apply criterion_of_elem|set_solver|].
  rewrite E. cbn. apply by_key_Some in E as [Hkv E].
  rewrite Forall_forall in Hs. destruct (Hs kv Hkv) as [Hid Hv]. rewrite E in Hid, Hv.
  split; [done|]. rewrite <- Hv. unfold is_verified. by rewrite bool_decide_eq_true.
Qed.
End Evaluation.

End MissionCriteria.
