(* ===== verification/MissionFacts.v ===== *)
(** * What the approval of a mission means

    [canApprove] is compared with [fulfilled], which says what a mission asks without evaluating
    anything: for each requirement, that the newest observation that counts for it passed.  The
    unique indexes of the tables ([sound]) make the newest observation one; how [localeCompare]
    orders ids plays no part then. *)

From S2P Require Import Prelude JsString Json Sql CanonicalJson SessionState WorkSessions Regex.
From S2P Require Import MissionEvidence MissionOutcome MissionLedger MissionApproval MissionCriteria.

Module MissionFacts.
Import WorkSessions MissionEvidence MissionOutcome MissionLedger MissionApproval MissionCriteria.

(** ** The newest record *)

(** Of the rows [P] holds of, [e] has the highest attempt. *)
Definition newest (P : EvidenceRecord → bool) (rows : list EvidenceRecord) (e : EvidenceRecord) : Prop :=
  e ∈ rows ∧ P e = true ∧
  ∀ e', e' ∈ rows → P e' = true → (evidenceAttempt e' <= evidenceAttempt e)%Z.

Lemma insert_by_ext {A} (le le' : A → A → bool) a l :
  (∀ b, b ∈ l → le a b = le' a b) → insert_by le a l = insert_by le' a l.
Proof.
  induction l as [|b l IH]; intros H; cbn; [done|]. rewrite (H b) by left.
  destruct (le' a b); [done|]. f_equal. apply IH. intros; apply H; by right.
Qed.

Lemma order_by_ext {A} (le le' : A → A → bool) l :
  NoDup l → (∀ a b, a ∈ l → b ∈ l → a ≠ b → le a b = le' a b) → order_by le l = order_by le' l.
Proof.
  induction 1 as [|a l Hn Hd IH]; intros H; [done|].
  change (insert_by le a (order_by le l) = insert_by le' a (order_by le' l)).
  rewrite IH by (intros; apply H; [by right|by right|done]). apply insert_by_ext.
  intros b Hb%elem_of_order_by. apply H; [left|by right|]. by intros ->.
Qed.

Lemma elem_of_rev {A} (l : list A) x : x ∈ rev l ↔ x ∈ l.
Proof. by rewrite !list_elem_of_In, <- List.in_rev. Qed.

Lemma last_sorted {A} (R : relation A) (l : list A) e :
  StronglySorted R l → last l = Some e → ∀ x, x ∈ l → x = e ∨ R x e.
Proof.
  induction 1 as [|a l Hs IH HF]; [done|]. rewrite last_cons. intros Hl x Hx.
  apply elem_of_cons in Hx as [->|Hx].
  - destruct (last l) as [y|] eqn:E; simplify_eq; [|by left].
    right. rewrite Forall_forall in HF. apply HF. by apply last_Some_elem_of.
  - destruct (last l) as [y|] eqn:E; simplify_eq; [by apply IH|].
    apply last_None in E. subst. by apply elem_of_nil in Hx.
Qed.

Section Newest.
Context (localeCompare : jsstr → jsstr → Z).

Definition by_attempt (a b : EvidenceRecord) : bool := (evidenceAttempt a <=? evidenceAttempt b)%Z.

(** Different attempts decide the order by themselves. *)
Lemma le_evidence_attempt a b :
  evidenceAttempt a ≠ evidenceAttempt b → le_evidence localeCompare a b = by_attempt a b.
Proof.
  intros H. unfold le_evidence, by_attempt.
  replace (evidenceAttempt a - evidenceAttempt b =? 0)%Z with false by lia. cbn. lia.
Qed.

Lemma last_newest P rows e :
  NoDup (List.map evidenceAttempt rows) →
  last (order_by (le_evidence localeCompare) (List.filter P rows)) = Some e ↔ newest P rows e.
Proof.
  intros Hk. pose proof (keyed_select evidenceAttempt P rows Hk) as Hf.
  assert (Hn : NoDup (select_where P rows)) by (by eapply NoDup_fmap_1).
  rewrite (order_by_ext _ by_attempt); [|done|].
  2:{ intros a b Ha Hb Hab. apply le_evidence_attempt. intros E. apply Hab.
      by apply (keyed_inj evidenceAttempt (select_where P rows)). }
  assert (Hlast : ∀ x, last (order_by by_attempt (List.filter P rows)) = Some x → newest P rows x).
  { intros x Hx. assert (Hin : x ∈ List.filter P rows).
    { apply last_Some_elem_of in Hx. by apply elem_of_order_by in Hx. }
    apply elem_of_Lfilter in Hin as [Hin HP]. split; [done|]. split; [done|].
    intros y Hy HPy.
    assert (Hs : StronglySorted (λ a b, by_attempt a b = true) (order_by by_attempt (List.filter P rows))).
    { apply Sorted_StronglySorted; [|apply order_by_sorted]; unfold by_attempt; intros ?; lia. }
    destruct (last_sorted _ _ x Hs Hx y) as [->|Hle]; [|lia|by apply Z.leb_le].
    apply elem_of_order_by, elem_of_Lfilter. done. }
  split; [by apply Hlast|]. intros (Hin & HP & Hmax).
  destruct (last (order_by by_attempt (List.filter P rows))) as [x|] eqn:E.
  - destruct (Hlast x eq_refl) as (Hin' & HP' & Hmax'). f_equal.
    apply (keyed_inj evidenceAttempt rows); try done.
    specialize (Hmax x Hin' HP'). specialize (Hmax' e Hin HP). lia.
  - apply last_None, order_by_nil in E. assert (e ∈ List.filter P rows) by (by apply elem_of_Lfilter).
    rewrite E in H. by apply elem_of_nil in H.
Qed.

(** The rows of a mission have different attempts. *)
Definition numbered (rows : list EvidenceRecord) : Prop :=
  keyed (λ e, (e_missionId e, evidenceAttempt e)) rows.

Lemma numbered_of mission P rows :
  numbered rows → (∀ e, P e = true → e_missionId e = mission) →
  NoDup (List.map evidenceAttempt (select_where P rows)).
Proof.
  intros Hn HP. apply (keyed_select _ P) in Hn. unfold keyed in Hn.
  apply (NoDup_fmap_1 (pair mission)).
  change (NoDup (List.map (pair mission) (List.map evidenceAttempt (select_where P rows)))).
  rewrite List.map_map. erewrite List.map_ext_in; [exact Hn|].
  intros e [_ He%HP]%list_elem_of_In%elem_of_Lfilter. cbn. by rewrite He.
Qed.

Lemma newest_within le G F rows e :
  newest F (order_by le (select_where G rows)) e ↔ newest (λ x, G x && F x) rows e.
Proof.
  unfold newest. setoid_rewrite elem_of_order_by. unfold select_where.
  setoid_rewrite elem_of_Lfilter. setoid_rewrite andb_true_iff. naive_solver.
Qed.

Lemma newest_filter F Q l e :
  newest F (List.filter Q l) e ↔ newest (λ x, Q x && F x) l e.
Proof.
  unfold newest. setoid_rewrite elem_of_Lfilter. setoid_rewrite andb_true_iff. naive_solver.
Qed.

Lemma newest_ext P Q rows e : (∀ x, P x = Q x) → newest P rows e ↔ newest Q rows e.
Proof. intros H. unfold newest. setoid_rewrite H. done. Qed.

(** Rows as the ledger selects and orders them. *)
Definition read_as (rows : list EvidenceRecord) (mission : jsstr) (G : EvidenceRecord → bool)
  (l : list EvidenceRecord) : Prop :=
  (∀ e, G e = true → e_missionId e = mission) ∧ l = order_by le_attempt (select_where G rows).

Lemma read_attempts rows mission G l :
  numbered rows → read_as rows mission G l → NoDup (List.map evidenceAttempt l).
Proof.
  intros Hn [HG ->]. pose proof (numbered_of mission G rows Hn HG) as H.
  assert (E : List.map evidenceAttempt (order_by le_attempt (select_where G rows))
              ≡ₚ List.map evidenceAttempt (select_where G rows))
    by apply Permutation_map, order_by_perm.
  by rewrite E.
Qed.

Lemma keyed_filter_attempts F l :
  NoDup (List.map evidenceAttempt l) → NoDup (List.map evidenceAttempt (List.filter F l)).
Proof. apply (keyed_select evidenceAttempt F l). Qed.

(** What [selectEffectiveEvidenceResult] keeps *)
Definition selected (scope : Scope) (c : CurrentApprovalContext) (allowed : option (jsstr → bool))
  (e : EvidenceRecord) : bool :=
  match allowed with
  | None => true
  | Some allowed =>
      match details_source (e_details e) with Some s => nonempty s && allowed s | None => false end
  end && in_scope_of scope e && at_context c e && truthy (details_source (e_details e)).

Definition reviewable (c : CurrentApprovalContext) : Prop :=
  truthy (submissionId c) = true ∧ snapshot c ≠ None.

Lemma select_newest l scope c allowed e :
  NoDup (List.map evidenceAttempt l) →
  selectEffectiveEvidenceResult localeCompare l scope c allowed = Some e ↔
  reviewable c ∧ scope_id scope ≠ [] ∧ newest (selected scope c allowed) l e.
Proof.
  intros Ha. unfold selectEffectiveEvidenceResult, reviewable.
  destruct (submissionId c) as [[|x k]|], (snapshot c) as [s|], (scope_id scope) as [|y k'] eqn:Es;
    cbn [truthy nonempty]; try (split; [done|intros [[? ?] [? ?]]; congruence]).
  rewrite (last_newest (selected scope c allowed) l e Ha). intuition congruence.
Qed.

Lemma select_exact rows mission G l scope c allowed e :
  numbered rows → read_as rows mission G l →
  selectEffectiveEvidenceResult localeCompare l scope c allowed = Some e ↔
  reviewable c ∧ scope_id scope ≠ [] ∧ newest (λ x, G x && selected scope c allowed x) rows e.
Proof.
  intros Hn Hl. rewrite select_newest by (by eapply read_attempts).
  destruct Hl as [_ ->]. by rewrite newest_within.
Qed.
End Newest.

(** ** What a mission asks *)

(** The keys of the tables *)
Record sound (d : ledger) : Prop := {
  evidence_numbered : numbered (evidence d);
  criteria_keyed : keyed c_id (criteria d);
  findings_keyed : keyed f_id (findings d);
  observations_ordered :
    keyed (λ o, (o_missionId o, o_submissionId o, o_reviewEpoch o, o_snapshot o, o_expectedBehavior o,
                 o_observedAt o)) (observations d)
}.

(** An observation counts for a criterion when it is about it, at the submission under review, from
    the source its type asks for. *)
Definition counts_for (x : Criterion) (c : CurrentApprovalContext) (e : EvidenceRecord) : bool :=
  bool_decide (e_missionId e = c_missionId x) && bool_decide (e_criterionId e = Some (c_id x))
  && at_context c e
  && match details_source (e_details e) with
     | Some s => isEvidenceSourceAllowed (c_verificationType x) s
     | None => false
     end.

(** A criterion is met when the newest observation that counts passed, and all it depends on is
    met. *)
Inductive met (d : ledger) (mission : jsstr) (c : CurrentApprovalContext) (k : jsstr) : Prop :=
| met_intro x e :
    x ∈ criteria d → c_missionId x = mission → c_id x = k → k ≠ [] →
    newest (counts_for x c) (evidence d) e → e_status e = ev_passed →
    (∀ k', k' ∈ c_dependsOn x → met d mission c k') → met d mission c k.

(** The newest observation for a finding, of a command or by a reviewer, passed. *)
Definition passed_for (d : ledger) (mission k : jsstr) (q : ReviewedSubmission)
  (command : option jsstr) : Prop :=
  ∃ e, newest (λ e, bool_decide (e_missionId e = mission) && qualifies k command q e) (evidence d) e
       ∧ e_status e = ev_passed.

Definition renewed (d : ledger) (f : Finding) (q : ReviewedSubmission) : Prop :=
  f_id f ≠ [] ∧
  match f_requiredVerification f with
  | [] => passed_for d (f_missionId f) (f_id f) q None
  | commands => ∀ k, k ∈ commands → passed_for d (f_missionId f) (f_id f) q (Some k)
  end.

(** The external observation that decides the outcome: the newest that counts, and it confirms. *)
Definition attests (m : Mission) (c : CurrentApprovalContext) (o : OutcomeObservation) : bool :=
  bool_decide (o_missionId o = m_id m)
  && bool_decide (o_reviewEpoch o = Some (default (-1)%Z (reviewEpoch c)))
  && matching (observation_context m c) o.

Definition outcome_confirmed (d : ledger) (m : Mission) (c : CurrentApprovalContext) : Prop :=
  reviewable c ∧
  ∃ o, o ∈ observations d ∧ attests m c o = true ∧ o_status o = confirmed
       ∧ nonempty (trim (o_observerIdentity o)) = true
       ∧ ∀ o', o' ∈ observations d → attests m c o' = true → (o_observedAt o' <= o_observedAt o)%Z.

Record fulfilled (d : ledger) (m : Mission) (c : CurrentApprovalContext) : Prop := {
  integration_reported :
    default implementation_verified (m_outcomeEvidence m) ≠ implementation_verified →
    ∃ p, current_report m c d = Some p ∧ p_passed p = true ∧ has_length (p_results p) = true;
  outcome_observed :
    default implementation_verified (m_outcomeEvidence m) ∈ [outcome_verified; operationally_stable] →
    outcome_confirmed d m c;
  required_met : ∀ x, x ∈ criteria d → c_missionId x = m_id m → c_required x = true →
    reviewable c ∧ met d (m_id m) c (c_id x);
  blocking_closed : ∀ f, f ∈ findings d → f_missionId f = m_id m → gates f = true →
    f_status f = waived
    ∨ claims_resolution f = true ∧ ∃ q, complete c = Some q ∧ renewed d f q;
  integration_verified_finally : m_finalVerification m ≠ [] →
    ∃ p, current_report m c d = Some p ∧ p_passed p = true;
  lenses_covered : ∀ area, area ∈ m_reviewCoverage m →
    ∃ p, current_report m c d = Some p ∧ area ∈ p_reviewCoverage p
}.

(** ** [canApprove] decides [fulfilled] *)

Section Exact.
Context (localeCompare : jsstr → jsstr → Z) (iso : Z → jsstr).
Context (d : ledger) (Hd : sound d).

Lemma allowed_source (t : VerificationType) s : isEvidenceSourceAllowed t s = true → nonempty s = true.
Proof. destruct t, s; done. Qed.

Lemma get_criterion_of x :
  x ∈ criteria d → get_criterion (c_missionId x) (c_id x) d = Some x.
Proof.
  intros Hx. unfold get_criterion.
  destruct (get_where _ (criteria d)) as [y|] eqn:E.
  - apply get_where_Some in E as [Hy E]. guards. f_equal.
    by apply (keyed_inj c_id (criteria d)); [apply Hd|..].
  - rewrite get_where_None in E. specialize (E x Hx). cbn in E.
    rewrite !bool_decide_eq_true_2 in E by done. done.
Qed.

Lemma latest_exact x c e :
  x ∈ criteria d →
  latestCurrentEvidence localeCompare (c_missionId x) (c_id x) c d = Some e ↔
  reviewable c ∧ c_id x ≠ [] ∧ newest (counts_for x c) (evidence d) e.
Proof.
  intros Hx. unfold latestCurrentEvidence. rewrite get_criterion_of by done. cbn [mbind option_bind].
  assert (Hr : negb (truthy (submissionId c)) || bool_decide (snapshot c = None) = true → ¬ reviewable c).
  { unfold reviewable. intros H [H1 H2]. rewrite H1 in H. cbn in H. by apply bool_decide_eq_true in H. }
  destruct (negb _ || _) eqn:E; [split; [done|]; intros [H _]; by destruct (Hr eq_refl)|].
  erewrite select_exact; [|apply Hd|split; [|reflexivity]; intros ? ?; guards; done].
  cbn [scope_id]. apply and_iff_compat_l, and_iff_compat_l, newest_ext.
  intros y. unfold counts_for, selected. cbn [in_scope_of].
  destruct (details_source (e_details y)) as [[|u s]|]; cbn [truthy nonempty];
    rewrite ?andb_false_r; [|by repeat case_bool_decide; cbn; rewrite ?andb_true_r, ?andb_false_r; auto using andb_comm|done].
  destruct (isEvidenceSourceAllowed _ _) eqn:Ea; [by apply allowed_source in Ea|].
  by rewrite andb_false_r.
Qed.

(** *** Criteria *)

Abbreviation evidence_for m c :=
  (λ x, latestCurrentEvidence localeCompare (m_id m) (c_id x) c d) (only parsing).

Lemma effective_met m c k :
  reviewable c →
  effective (order_by le_created (criteria_of (m_id m) d)) (evidence_for m c) k ↔ met d (m_id m) c k.
Proof.
  intros Hc. split.
  - induction 1 as [k x e Hx He Hs _ IH].
    apply criterion_of_Some in Hx as [[Hx E]%elem_of_order_by%elem_of_Lfilter Hid].
    apply bool_decide_eq_true in E. rewrite <- E in He.
    apply latest_exact in He as (_ & Hne & Hnew); [|done].
    apply (met_intro d (m_id m) c k x e); congruence || auto.
  - induction 1 as [k x e Hx Hm Hid Hne Hnew Hs _ IH].
    apply (effective_intro _ _ _ x e); auto; subst k.
    + assert (Hin : x ∈ order_by le_created (criteria_of (m_id m) d)).
      { apply elem_of_order_by, elem_of_Lfilter. split; [done|]. by apply bool_decide_eq_true. }
      destruct (criterion_of_elem _ x Hin) as [y Hy]. rewrite Hy. f_equal.
      apply criterion_of_Some in Hy as [[Hy _]%elem_of_order_by%elem_of_Lfilter E].
      by apply (keyed_inj c_id (criteria d)); [apply Hd|..].
    + rewrite <- Hm. by apply latest_exact.
Qed.

Lemma unreviewable_effective m c k :
  effective (order_by le_created (criteria_of (m_id m) d)) (evidence_for m c) k → reviewable c.
Proof.
  intros [x e Hx He _ _].
  apply criterion_of_Some in Hx as [[Hx E]%elem_of_order_by%elem_of_Lfilter _].
  apply bool_decide_eq_true in E. rewrite <- E in He. by apply latest_exact in He as [? _].
Qed.

(** The state the evaluation gives a criterion *)
Lemma criterion_state_exact m c x :
  x ∈ criteria_of (m_id m) d →
  status <$> by_key criterionId (c_id x) (rev (criterion_states localeCompare m c d)) = Some verified
  ↔ reviewable c ∧ met d (m_id m) c (c_id x).
Proof.
  intros Hx. unfold criterion_states.
  destruct (evaluation_exact (order_by le_created (criteria_of (m_id m) d)) (evidence_for m c) c)
    as (states & -> & HF). change (default [] (Some states)) with states.
  assert (Hspec : ∀ s, s ∈ states → criterionId s = c_id x →
                  status s = verified ↔ reviewable c ∧ met d (m_id m) c (c_id x)).
  { intros s Hs E. destruct (Forall2_elem_r _ _ _ _ HF Hs) as (y & _ & Hid & Hv).
    rewrite Hv, <- Hid, E. split.
    - intros He. pose proof (unreviewable_effective m c _ He). by rewrite effective_met in He.
    - intros [Hc Hmet]. by apply effective_met. }
  assert (Hsome : is_Some (by_key criterionId (c_id x) (rev states))).
  { destruct (Forall2_elem_l _ _ _ _ HF (proj2 (elem_of_order_by _ _ _) Hx)) as (s & Hs & Hid & _).
    apply get_where_is_Some with (r := s); [|by apply bool_decide_eq_true].
    by apply elem_of_rev. }
  destruct Hsome as [s E]. rewrite E. cbn. apply by_key_Some in E as [Hs Hid].
  rewrite elem_of_rev in Hs.
  rewrite <- (Hspec s Hs Hid). split; congruence.
Qed.

(** *** Findings *)

Lemma source_truthy s e : is_source s e = true → truthy (details_source (e_details e)) = true.
Proof. unfold is_source. intros ->%bool_decide_eq_true. by destruct s. Qed.

Lemma qualifies_selected k command q e :
  qualifies k command q e = true → selected (of_finding k) (context_of q) None e = true.
Proof.
  unfold qualifies, selected. cbn [in_scope_of]. rewrite !andb_true_iff.
  intros [[Hk Hs] Hc]. rewrite Hk, Hc. split_and!; try done.
  destruct command; [|by eapply source_truthy].
  rewrite andb_true_iff, orb_true_iff in Hs. destruct Hs as [_ [H|H]]; by eapply source_truthy.
Qed.

(** [l]: the rows of the mission, or of the finding *)
Lemma observation_exact mission G l k command q e :
  read_as (evidence d) mission G l →
  (∀ x, qualifies k command q x = true → G x = bool_decide (e_missionId x = mission)) →
  effective_observation localeCompare l k command q = Some e ↔
  q_submissionId q ≠ [] ∧ k ≠ []
  ∧ newest (λ x, bool_decide (e_missionId x = mission) && qualifies k command q x) (evidence d) e.
Proof.
  intros Hl HG. unfold effective_observation.
  rewrite select_newest by (by eapply keyed_filter_attempts, read_attempts; [apply Hd|]).
  unfold reviewable. cbn [context_of submissionId snapshot scope_id].
  rewrite (newest_filter _ (qualifies k command q)). destruct Hl as [_ ->]. rewrite newest_within.
  assert (Hq : truthy (Some (q_submissionId q)) = true ∧ Some (q_snapshot q) ≠ None
               ↔ q_submissionId q ≠ []).
  { destruct (q_submissionId q); cbn; intuition congruence. }
  rewrite Hq. apply and_iff_compat_l, and_iff_compat_l, newest_ext. intros x.
  destruct (qualifies k command q x) eqn:E; [|by rewrite !andb_false_r].
  by rewrite (HG x E), (qualifies_selected _ _ _ _ E), !andb_true_r.
Qed.

(** The observation that decides a command, when it passed *)
Definition passing (l : list EvidenceRecord) (k : jsstr) (q : ReviewedSubmission)
  (command : option jsstr) : option EvidenceRecord :=
  e ← effective_observation localeCompare l k command q;
  if bool_decide (e_status e = ev_passed) then Some e else None.

Lemma passing_exact mission G l k command q e :
  read_as (evidence d) mission G l →
  (∀ x, qualifies k command q x = true → G x = bool_decide (e_missionId x = mission)) →
  passing l k q command = Some e ↔
  q_submissionId q ≠ [] ∧ k ≠ []
  ∧ newest (λ x, bool_decide (e_missionId x = mission) && qualifies k command q x) (evidence d) e
  ∧ e_status e = ev_passed.
Proof.
  intros Hl HG. unfold passing.
  pose proof (observation_exact mission G l k command q) as Ho.
  destruct (effective_observation localeCompare l k command q) as [x|]; cbn.
  - case_bool_decide as Ex.
    + split; [|intros (H1 & H2 & H3 & H4); by apply (Ho e Hl HG)].
      intros [= <-]. destruct (proj1 (Ho x Hl HG) eq_refl) as (H1 & H2 & H3). auto.
    + split; [done|]. intros (H1 & H2 & H3 & H4).
      assert (E : Some x = Some e) by (by apply (Ho e Hl HG)). congruence.
  - split; [done|]. intros (H1 & H2 & H3 & H4). by apply (Ho e Hl HG).
Qed.

Lemma commands_resolved l k q commands : ∀ r,
  let r' := foldl (check_command localeCompare l k q) r commands in
  resolved r' = resolved r && forallb (λ c, match passing l k q (Some c) with Some _ => true | None => false end) commands
  ∧ qualifyingEvidenceIds r' =
      qualifyingEvidenceIds r ++ omap (λ c, e_id <$> passing l k q (Some c)) commands.
Proof.
  assert (Hp : ∀ c, passing l k q (Some c) =
     (e ← effective_observation localeCompare l k (Some c) q;
      if bool_decide (e_status e = ev_passed) then Some e else None)) by done.
  revert Hp. generalize (λ c, passing l k q (Some c)). intros p Hp.
  induction commands as [|c commands IH]; intros r; cbn [foldl forallb].
  { cbn. by rewrite andb_true_r, app_nil_r. }
  destruct (IH (check_command localeCompare l k q r c)) as [-> ->].
  unfold check_command. cbn [omap list_omap]. rewrite (Hp c).
  destruct (effective_observation localeCompare l k (Some c) q) as [e|]; cbn [mbind option_bind].
  - case_bool_decide; cbn; [by rewrite <- app_assoc|by rewrite andb_false_r].
  - cbn. by rewrite andb_false_r.
Qed.

(** The verdict of a finding, and the observations it rests on *)
Lemma resolution_exact mission G l commands k q :
  read_as (evidence d) mission G l →
  (∀ command x, qualifies k command q x = true → G x = bool_decide (e_missionId x = mission)) →
  q_submissionId q ≠ [] →
  resolved (evaluateEffectiveFindingResolution localeCompare l commands k q) = true ↔
  k ≠ [] ∧ match commands with
           | [] => passed_for d mission k q None
           | _ => ∀ c, c ∈ commands → passed_for d mission k q (Some c)
           end.
Proof.
  intros Hl HG Hq.
  assert (Hp : ∀ command, is_Some (passing l k q command) ↔ k ≠ [] ∧ passed_for d mission k q command).
  { intros command. unfold is_Some, passed_for.
    setoid_rewrite (λ e, passing_exact mission G l k command q e Hl (HG command)). split.
    - intros (e & _ & Hk & H1 & H2). eauto.
    - intros (Hk & e & H1 & H2). eauto. }
  unfold evaluateEffectiveFindingResolution. destruct commands as [|c commands].
  - rewrite <- Hp. unfold passing. destruct (effective_observation _ _ _ _ _) as [e|]; cbn.
    + case_bool_decide; cbn; [by split; eauto|]. split; [done|]. by intros [].
    + split; [done|]. by intros [].
  - destruct (commands_resolved l k q (c :: commands) (mkResolution true [] [])) as [-> _].
    cbn [resolved]. rewrite andb_true_l, forallb_forall.
    assert (Hb : ∀ command, match passing l k q command with Some _ => true | None => false end = true ↔
                  k ≠ [] ∧ passed_for d mission k q command).
    { intros command. rewrite <- Hp. destruct (passing l k q command); split; done. }
    setoid_rewrite Hb. setoid_rewrite <- list_elem_of_In.
    split; [|intros [Hk H] c' Hc'; auto]. intros H. split; [apply (H c); left|].
    intros c' Hc'. by apply H.
Qed.

Lemma complete_reviewed c q : complete c = Some q → q_submissionId q ≠ [].
Proof. unfold complete. by repeat case_match; intros [= <-]. Qed.

Lemma resolution_of_exact m c f :
  f ∈ findings_of (m_id m) d →
  resolved (resolution_of localeCompare (evidence_of (m_id m) d) c f) = true ↔
  ∃ q, complete c = Some q ∧ renewed d f q.
Proof.
  intros [Hf Hm]%elem_of_Lfilter. apply bool_decide_eq_true in Hm.
  unfold resolution_of, renewed. rewrite Hm. destruct (complete c) as [q|] eqn:E.
  - rewrite (resolution_exact (m_id m) (λ e, bool_decide (e_missionId e = m_id m))).
    + destruct (f_requiredVerification f); (split; [intros H; by exists q|]); by intros (q' & [= <-] & H).
    + split; [|done]. intros e He. by apply bool_decide_eq_true in He.
    + done.
    + by eapply complete_reviewed.
  - cbn. split; [done|]. by intros (q & ? & _).
Qed.

Lemma resolutions_of_finding m c f :
  f ∈ findings_of (m_id m) d → gates f = true → claims_resolution f = true →
  snd <$> by_key fst (f_id f) (rev (finding_resolutions localeCompare m c d)) =
    Some (resolution_of localeCompare (evidence_of (m_id m) d) c f).
Proof.
  intros Hf Hg Hc. unfold finding_resolutions.
  set (rows := List.filter _ (findings_of (m_id m) d)).
  assert (Hin : f ∈ rows) by (apply elem_of_Lfilter; by rewrite Hg, Hc).
  destruct (by_key fst (f_id f) _) as [kv|] eqn:E.
  - apply by_key_Some in E as [Hkv Hk]. rewrite elem_of_rev, elem_of_Lmap in Hkv.
    destruct Hkv as (f' & -> & [Hf' _]%elem_of_Lfilter). cbn in *. do 2 f_equal.
    apply elem_of_Lfilter in Hf, Hf'.
    by apply (keyed_inj f_id (findings d)); [apply Hd|apply Hf'|apply Hf|].
  - exfalso. refine (proj1 (by_key_None _ _ _) E (f_id f, resolution_of localeCompare (evidence_of (m_id m) d) c f) _ eq_refl).
    rewrite elem_of_rev, elem_of_Lmap. eauto.
Qed.

Lemma finding_closed m c f :
  f ∈ findings_of (m_id m) d →
  finding_reasons (finding_resolutions localeCompare m c d) f = [] ↔
  (gates f = true → f_status f = waived
     ∨ claims_resolution f = true ∧ ∃ q, complete c = Some q ∧ renewed d f q).
Proof.
  intros Hf. unfold finding_reasons. destruct (gates f) eqn:Eg; cbn [negb]; [|naive_solver].
  case_bool_decide as Ew; [naive_solver|].
  assert (Hc : bool_decide (f_status f = verified_resolved) || bool_decide (f_status f = claimed_resolved)
               = claims_resolution f).
  { unfold claims_resolution. apply eq_true_iff_eq. guards. set_solver. }
  rewrite Hc. destruct (claims_resolution f) eqn:Ec.
  - rewrite resolutions_of_finding by done. cbn iota beta.
    rewrite <- (resolution_of_exact m c f Hf).
    destruct (resolved _); split; try done; [auto|]. intros H. by destruct (H eq_refl) as [|[_ ?]].
  - split; [done|]. intros H. by destruct (H eq_refl) as [|[? _]].
Qed.

(** *** The outcome *)

Lemma elem_of_attesting m c o :
  o ∈ List.filter (matching (observation_context m c)) (observations_of m c d) ↔
  reviewable c ∧ o ∈ observations d ∧ attests m c o = true.
Proof.
  rewrite elem_of_Lfilter. unfold reviewable, observations_of.
  destruct (submissionId c) as [[|u k]|] eqn:Ek, (snapshot c) as [s|] eqn:Es; cbn [truthy];
    try (split; [intros [H _]; by apply elem_of_nil in H|intros [[? ?] _]; congruence]).
  rewrite elem_of_order_by. unfold select_where. rewrite elem_of_Lfilter.
  split.
  - intros [[Ho Hrow] Hm]. split; [done|]. split; [done|]. unfold attests, observation_row in *.
    guards. split_and!; done.
  - intros (_ & Ho & Ha). unfold attests in Ha. rewrite !andb_true_iff in Ha.
    destruct Ha as [[Hmi He] Hm]. split; [|done]. split; [done|].
    unfold observation_row. rewrite Hmi, He. unfold matching in Hm.
    unfold observation_context in Hm. cbn in Hm. rewrite Ek, Es in Hm. cbn in Hm. guards.
    split_and!; try congruence.
    + intros E. rewrite E in *. done.
    + intros E. rewrite E in *. done.
Qed.

Lemma attesting_unique m c o o' :
  o ∈ observations d → o' ∈ observations d → attests m c o = true → attests m c o' = true →
  o_observedAt o = o_observedAt o' → o = o'.
Proof.
  intros Ho Ho' Ha Ha' E. eapply (keyed_inj _ _ _ _ (observations_ordered d Hd) Ho Ho').
  unfold attests, matching in *. guards. congruence.
Qed.

Lemma later_total a b : later a b = true ∨ later b a = true.
Proof. unfold later. rewrite !Z.leb_le. lia. Qed.

Lemma later_trans a b c : later a b = true → later b c = true → later a c = true.
Proof. unfold later. rewrite !Z.leb_le. lia. Qed.

Lemma outcome_exact m c :
  (evaluateOutcomeObservations iso (observations_of m c d) (observation_context m c)).1 = true ↔
  outcome_confirmed d m c.
Proof.
  unfold evaluateOutcomeObservations, outcome_confirmed.
  set (l := List.filter _ _).
  destruct (first_by later l) as [o|] eqn:E.
  - pose proof (first_by_elem _ _ _ E) as Ho. pose proof Ho as (Hc & Hin & Ha)%elem_of_attesting.
    pose proof (first_by_least _ _ _ later_total later_trans E) as Hl.
    assert (Hmax : ∀ o', o' ∈ observations d → attests m c o' = true →
                         (o_observedAt o' <= o_observedAt o)%Z).
    { intros o' Ho' Ha'. apply Z.leb_le, Hl, elem_of_attesting. auto. }
    assert (Hthe : ∀ o', o' ∈ observations d → attests m c o' = true →
       (∀ x, x ∈ observations d → attests m c x = true → (o_observedAt x <= o_observedAt o')%Z) →
       o' = o).
    { intros o' Ho' Ha' Hm'. apply (attesting_unique m c); auto.
      specialize (Hm' o Hin Ha). specialize (Hmax o' Ho' Ha'). lia. }
    case_bool_decide as Es; cbn.
    { split; [done|]. intros (_ & o' & Ho' & Ha' & Hs & _ & Hm').
      rewrite (Hthe o' Ho' Ha' Hm') in Hs. congruence. }
    destruct (nonempty (trim (o_observerIdentity o))) eqn:En; cbn.
    + split; [|done]. intros _. split; [done|]. exists o. split_and!; auto.
      by destruct (o_status o).
    + split; [done|]. intros (_ & o' & Ho' & Ha' & _ & Hn & Hm').
      rewrite (Hthe o' Ho' Ha' Hm') in Hn. congruence.
  - apply first_by_None in E. cbn. split; [done|]. intros (Hc & o & Ho & Ha & _).
    assert (H : o ∈ l) by (by apply elem_of_attesting).
    rewrite E in H. by apply elem_of_nil in H.
Qed.

(** *** The reasons of [evaluateMissionOutcome] *)

Lemma nil_iff {A} (l : list A) : Nat.eqb (length l) 0 = true ↔ l = [].
Proof. by destruct l. Qed.

Lemma app_nil_iff {A} (l k : list A) : l ++ k = [] ↔ l = [] ∧ k = [].
Proof. destruct l, k; cbn; naive_solver. Qed.

Lemma concat_nil_iff {A B} (f : A → list B) l :
  List.concat (List.map f l) = [] ↔ ∀ a, a ∈ l → f a = [].
Proof.
  induction l as [|a l IH]; cbn; [set_solver|]. rewrite app_nil_iff, IH. set_solver.
Qed.

Lemma strength_exact level report :
  strength_reasons level report = [] ↔
  (level ≠ implementation_verified →
   ∃ r, report = Some r ∧ r_passed r = true ∧ has_length (r_results r) = true).
Proof.
  unfold strength_reasons. destruct (decide (level = implementation_verified)) as [->|Hl]; [done|].
  replace (_ <=? _)%Z with true by (by destruct level).
  destruct report as [r|]; cbn.
  - destruct (r_passed r) eqn:Ep, (has_length (r_results r)) eqn:Eh; cbn; split; try done;
      [intros _ _; by exists r|..]; intros H; destruct (H Hl) as (? & [= <-] & ? & ?); congruence.
  - split; [done|]. intros H. by destruct (H Hl) as (? & ? & _).
Qed.

Lemma criterion_reasons_exact states x :
  criterion_reasons states x = [] ↔
  (c_required x = true → status <$> by_key criterionId (c_id x) (rev states) = Some verified).
Proof.
  unfold criterion_reasons. destruct (c_required x); [|naive_solver].
  case_bool_decide as E; [by split|]. split; [done|]. intros H. by destruct (E (H eq_refl)).
Qed.

Lemma coverage_exact required report :
  missing_coverage required report = [] ↔
  ∀ area, area ∈ required → ∃ r, report = Some r ∧ area ∈ r_reviewCoverage r.
Proof.
  unfold missing_coverage. induction required as [|area required IH]; cbn; [set_solver|].
  setoid_rewrite elem_of_cons.
  destruct (existsb (js_eqb area) _) eqn:E; cbn.
  - rewrite IH. apply js_in in E. split; [|auto]. intros H a [->|Ha]; [|auto].
    destruct report as [r|]; [eauto|]. by apply elem_of_nil in E.
  - apply js_not_in in E. split; [done|]. intros H. destruct E.
    destruct (H area (or_introl eq_refl)) as (r & -> & Hr). done.
Qed.

Lemma outcome_reasons m c :
  (let '(satisfied, why) :=
     evaluateOutcomeObservations iso (observations_of m c d) (observation_context m c) in
   if satisfied then [] else why) = [] ↔ outcome_confirmed d m c.
Proof.
  rewrite <- outcome_exact. unfold evaluateOutcomeObservations.
  repeat case_match; simplify_eq/=; done.
Qed.

Lemma rank_outcome level :
  (OUTCOME_EVIDENCE_RANK outcome_verified <=? OUTCOME_EVIDENCE_RANK level)%Z =
    bool_decide (level ∈ [outcome_verified; operationally_stable]).
Proof. by destruct level. Qed.

Lemma final_exact (commands : list jsstr) report (why : jsstr) :
  (if negb (Nat.eqb (length commands) 0) && negb (is_passing report) then [why] else []) = [] ↔
  (commands ≠ [] → ∃ r, report = Some r ∧ r_passed r = true).
Proof.
  destruct commands as [|x l]; cbn; [naive_solver|].
  destruct report as [r|]; cbn.
  - destruct (r_passed r) eqn:E; cbn; split; try done; [by intros _ _; exists r|].
    intros H. destruct (H ltac:(done)) as (? & [= <-] & ?). congruence.
  - split; [done|]. intros H. by destruct (H ltac:(done)) as (? & ? & _).
Qed.

Lemma in_criteria_of k x : x ∈ criteria_of k d ↔ x ∈ criteria d ∧ c_missionId x = k.
Proof. unfold criteria_of, select_where, in_mission. by rewrite elem_of_Lfilter, bool_decide_eq_true. Qed.

Lemma in_findings_of k f : f ∈ findings_of k d ↔ f ∈ findings d ∧ f_missionId f = k.
Proof. unfold findings_of, select_where. by rewrite elem_of_Lfilter, bool_decide_eq_true. Qed.

Lemma report_iff (o : option CompletionReport) (P : OutcomeReport → Prop) :
  (∃ r, outcome_report <$> o = Some r ∧ P r) ↔ ∃ p, o = Some p ∧ P (outcome_report p).
Proof.
  destruct o as [p|]; cbn; split; intros (x & [= <-] & H); eauto.
Qed.

Lemma approve_exact m c : (approve_mission localeCompare iso m c d).1 = true ↔ fulfilled d m c.
Proof.
  unfold approve_mission, evaluateMissionOutcome. cbn [fst]. rewrite nil_iff, !app_nil_iff.
  rewrite strength_exact, !concat_nil_iff, final_exact, rank_outcome.
  setoid_rewrite criterion_reasons_exact.
  assert (Hcover : match missing_coverage (m_reviewCoverage m) (outcome_report <$> current_report m c d) with
     | [] => []
     | areas => ["Review coverage is incomplete; missing: " +s join ", " areas +s "."]
     end = [] ↔ missing_coverage (m_reviewCoverage m) (outcome_report <$> current_report m c d) = [])
    by (by case_match).
  rewrite Hcover, coverage_exact. setoid_rewrite report_iff. cbn [default option_fmap from_option].
  split.
  - intros (H1 & H2 & H3 & H4 & H5 & H6). constructor; auto.
    + intros Hl. rewrite bool_decide_eq_true_2 in H2 by done. by apply outcome_reasons.
    + intros x Hx Hm Hr. pose proof (proj2 (in_criteria_of (m_id m) x) (conj Hx Hm)) as Hin.
      apply criterion_state_exact; auto.
    + intros f Hf Hm Hg. pose proof (proj2 (in_findings_of (m_id m) f) (conj Hf Hm)) as Hin.
      by apply (proj1 (finding_closed m c f Hin)); [apply H4|].
  - intros [H1 H2 H3 H4 H5 H6]. split_and!; auto.
    + case_bool_decide; [|done]. apply outcome_reasons. auto.
    + intros x Hx Hr. apply criterion_state_exact; [done|].
      apply in_criteria_of in Hx as [? ?]. auto.
    + intros f Hf. apply finding_closed; [done|]. apply in_findings_of in Hf as [? ?]. auto.
Qed.
End Exact.

(** [canApprove] allows exactly the fulfilled missions. *)
Lemma canApprove_exact localeCompare iso d ws i m c :
  sound d → getMissionByWorkSession ws d = Some m → context_for ws i d = Ok c →
  ∃ allowed why, canApprove localeCompare iso ws i d = Ok (allowed, why)
    ∧ (allowed = true ↔ fulfilled d m c).
Proof.
  intros Hd Hm Hc. unfold canApprove. rewrite Hm, Hc. cbn.
  pose proof (approve_exact localeCompare iso d Hd m c) as H.
  destruct (approve_mission localeCompare iso m c d) as [allowed why]. eauto.
Qed.

(** ** Claims of agents *)

Definition is_claim (e : EvidenceRecord) : Prop :=
  details_source (e_details e) = Some (source_name agent_claim).

(** Two criteria of the same contract; two missions that differ in when they were touched *)
Definition same_criterion (x y : Criterion) : Prop :=
  with_criterion_status unverified 0 x = with_criterion_status unverified 0 y.
Definition same_mission (m n : Mission) : Prop := touched 0 m = touched 0 n.

(** [d'] is [d] with claims, and other stored statuses. *)
Record claims_only (d d' : ledger) : Prop := {
  claims_added : ∃ claims, evidence d' = evidence d ++ claims ∧ Forall is_claim claims;
  claims_criteria : Forall2 same_criterion (criteria d) (criteria d');
  claims_missions : Forall2 same_mission (missions d) (missions d');
  claims_rest : findings d' = findings d ∧ reports d' = reports d
    ∧ observations d' = observations d ∧ submissions d' = submissions d
}.

Lemma same_refl {A} (R : relation A) `{!Reflexive R} l : Forall2 R l l.
Proof. induction l; by constructor. Qed.

#[export] Instance same_criterion_equiv : Equivalence same_criterion.
Proof. unfold same_criterion. split; congruence. Qed.
#[export] Instance same_mission_equiv : Equivalence same_mission.
Proof. unfold same_mission. split; congruence. Qed.

#[export] Instance claims_only_refl : Reflexive claims_only.
Proof.
  intros d. split; try done.
  exists []. by rewrite app_nil_r.
Qed.

#[export] Instance claims_only_trans : Transitive claims_only.
Proof.
  intros d1 d2 d3 [(k1 & E1 & F1) C1 M1 (? & ? & ? & ?)] [(k2 & E2 & F2) C2 M2 (? & ? & ? & ?)].
  split; [|by etrans|by etrans|split_and!; congruence].
  exists (k1 ++ k2). rewrite E2, E1, app_assoc. split; [done|]. by apply Forall_app.
Qed.

Lemma put_source_reads (name : jsstr) fields :
  jfield "source" (put_source name fields) = Some (JStr name).
Proof.
  unfold jfield, put_source. destruct (existsb _ fields) eqn:E.
  - induction fields as [|[k v] fields IH]; cbn in *; [done|].
    destruct (k =s "source") eqn:Ek; cbn; rewrite Ek; [done|]. by apply IH.
  - rewrite find_app. replace (List.find _ fields) with (@None (jsstr * json)); [done|].
    symmetry. apply find_none_iff. intros kv Hkv.
    destruct (kv.1 =s "source") eqn:Ek; [|done].
    rewrite <- E. symmetry. apply existsb_exists. exists kv. by rewrite <- list_elem_of_In.
Qed.

Lemma details_source_of name details : details_source (details_of name details) = Some name.
Proof. unfold details_source, details_of. by rewrite put_source_reads. Qed.

Lemma same_update (R : relation Criterion) p f l :
  Reflexive R → (∀ x, R x (f x)) → Forall2 R l (update_where p f l).1.
Proof. intros Hr Hf. cbn. induction l as [|x l IH]; constructor; [|done]. by destruct (p x). Qed.

Lemma set_status_claims mission k s now d : claims_only d (set_criterion_status mission k s now d).
Proof. split; try done; [exists []; by rewrite app_nil_r|]. by apply same_update. Qed.

Lemma touch_claims now k d : claims_only d (touchMission now k d).
Proof.
  split; try done; [exists []; by rewrite app_nil_r|]. cbn.
  induction (missions d) as [|m l IH]; constructor; [|done]. by case_bool_decide.
Qed.

Lemma record_claim sha256 now uuid mission i d d' :
  record_entry sha256 now uuid mission agent_claim i d = Ok d' → claims_only d d'.
Proof.
  unfold record_entry. intros H.
  apply bind_Ok in H as (s & _ & H). apply bind_Ok in H as (t & _ & H).
  apply bind_Ok in H as (u & _ & H). injection H as <-.
  set (e := new_evidence _ _ _ _ _ _ _ _).
  assert (Hadd : claims_only d (set_evidence (insert_row e (evidence d)) d)).
  { split; try done. exists [e]. split; [done|]. constructor; [|done].
    unfold is_claim, e. cbn. apply details_source_of. }
  case_match; [|done]. etrans; [exact Hadd|]. apply set_status_claims.
Qed.

Lemma record_claims sha256 now fresh mission entries : ∀ n d d',
  record_entries sha256 now fresh n mission agent_claim entries d = Ok d' → claims_only d d'.
Proof.
  induction entries as [|i entries IH]; intros n d d' H; cbn in H; [by injection H as <-|].
  apply bind_Ok in H as (d1 & H1 & H). etrans; [by eapply record_claim|by eapply IH].
Qed.

(** *** Claims do not count *)

Lemma newest_more P l k e :
  Forall (λ x, P x = false) k → newest P (l ++ k) e ↔ newest P l e.
Proof.
  intros Hk. rewrite Forall_forall in Hk. unfold newest. setoid_rewrite elem_of_app. split.
  - intros ([Hin|Hin] & HP & Hmax); [auto|]. by rewrite Hk in HP.
  - intros (Hin & HP & Hmax). split; [auto|]. split; [done|].
    intros e' [He'|He'] HP'; [auto|]. by rewrite Hk in HP'.
Qed.

Lemma claim_not_counted x c e : is_claim e → counts_for x c e = false.
Proof.
  unfold is_claim, counts_for. intros ->. cbn.
  destruct (c_verificationType x); by rewrite andb_false_r.
Qed.

Lemma claim_not_qualified k command q e : is_claim e → qualifies k command q e = false.
Proof.
  unfold is_claim, qualifies, is_source. intros ->.
  destruct command; cbn; by rewrite !andb_false_r.
Qed.

Lemma same_criterion_counts x y c e : same_criterion x y → counts_for x c e = counts_for y c e.
Proof. unfold same_criterion, counts_for. destruct x, y; cbn. by intros [= -> -> -> -> -> -> -> -> -> -> -> -> -> -> ->]. Qed.

Section Claims.
Context (d d' : ledger) (Hcl : claims_only d d').

Lemma newest_claims P e :
  (∀ x, is_claim x → P x = false) → newest P (evidence d') e ↔ newest P (evidence d) e.
Proof.
  intros HP. destruct (claims_added _ _ Hcl) as (claims & -> & HF).
  apply newest_more. eapply Forall_impl; [exact HF|]. auto.
Qed.

Lemma met_claims mission c k : met d' mission c k ↔ met d mission c k.
Proof.
  pose proof (claims_criteria _ _ Hcl) as HF.
  assert (Hn : ∀ x y e, same_criterion x y →
     newest (counts_for y c) (evidence d') e ↔ newest (counts_for x c) (evidence d) e).
  { intros x y e Hxy. rewrite newest_claims by (intros; by apply claim_not_counted).
    apply newest_ext. intros z. symmetry. by apply same_criterion_counts. }
  split; induction 1 as [k y e Hy Hm Hid Hne Hnew Hs _ IH].
  - destruct (Forall2_elem_r _ _ _ _ HF Hy) as (x & Hx & Hxy).
    rewrite (Hn x y) in Hnew by done. unfold same_criterion in Hxy. destruct x, y; cbn in *.
    simplify_eq. by eapply met_intro with (x := mkCriterion _ _ _ _ _ _ _ _ _ _ _ _ _ _ _ _ _).
  - destruct (Forall2_elem_l _ _ _ _ HF Hy) as (x & Hx & Hxy).
    rewrite <- (Hn y x) in Hnew by done. unfold same_criterion in Hxy. destruct x, y; cbn in *.
    simplify_eq. by eapply met_intro with (x := mkCriterion _ _ _ _ _ _ _ _ _ _ _ _ _ _ _ _ _).
Qed.

Lemma renewed_claims f q : renewed d' f q ↔ renewed d f q.
Proof.
  assert (Hp : ∀ command, passed_for d' (f_missionId f) (f_id f) q command ↔
                          passed_for d (f_missionId f) (f_id f) q command).
  { intros command. unfold passed_for. apply exist_proper. intros e. rewrite newest_claims; [done|].
    intros x Hx. by rewrite (claim_not_qualified _ _ _ _ Hx), andb_false_r. }
  unfold renewed. destruct (f_requiredVerification f).
  - by rewrite Hp.
  - by setoid_rewrite Hp.
Qed.

Lemma same_mission_touched m m' : same_mission m m' → m' = touched (m_updatedAt m') m.
Proof.
  unfold same_mission. destruct m, m'. unfold touched, with_rounds; cbn.
  intros H. injection H. intros. by subst.
Qed.

Lemma required_claims mission c :
  (∀ x, x ∈ criteria d' → c_missionId x = mission → c_required x = true →
        reviewable c ∧ met d' mission c (c_id x)) ↔
  (∀ x, x ∈ criteria d → c_missionId x = mission → c_required x = true →
        reviewable c ∧ met d mission c (c_id x)).
Proof.
  pose proof (claims_criteria _ _ Hcl) as HF. setoid_rewrite met_claims.
  split; intros H x Hx Hm Hr.
  - destruct (Forall2_elem_l _ _ _ _ HF Hx) as (y & Hy & Hxy).
    specialize (H y Hy). destruct x, y; unfold same_criterion in Hxy; cbn in *. simplify_eq. auto.
  - destruct (Forall2_elem_r _ _ _ _ HF Hx) as (y & Hy & Hxy).
    specialize (H y Hy). destruct x, y; unfold same_criterion in Hxy; cbn in *. simplify_eq. auto.
Qed.

Lemma fulfilled_claims m m' c : same_mission m m' → fulfilled d' m' c ↔ fulfilled d m c.
Proof.
  intros ->%same_mission_touched. destruct (claims_rest _ _ Hcl) as (Ef & Er & Eo & Es).
  assert (Hrep : current_report (touched (m_updatedAt m') m) c d' = current_report m c d).
  { unfold current_report, report_of. by rewrite Er. }
  assert (Hobs : outcome_confirmed d' (touched (m_updatedAt m') m) c ↔ outcome_confirmed d m c).
  { unfold outcome_confirmed. by rewrite Eo. }
  split; intros [H1 H2 H3 H4 H5 H6].
  - constructor.
    + rewrite <- Hrep. exact H1.
    + rewrite <- Hobs. exact H2.
    + apply required_claims. exact H3.
    + intros f Hf Hm Hg. setoid_rewrite <- renewed_claims. apply H4; [by rewrite Ef|exact Hm|exact Hg].
    + rewrite <- Hrep. exact H5.
    + rewrite <- Hrep. exact H6.
  - constructor.
    + rewrite Hrep. exact H1.
    + rewrite Hobs. exact H2.
    + apply required_claims. exact H3.
    + intros f Hf Hm Hg. setoid_rewrite renewed_claims. rewrite Ef in Hf.
      apply H4; [exact Hf|exact Hm|exact Hg].
    + rewrite Hrep. exact H5.
    + rewrite Hrep. exact H6.
Qed.
End Claims.

End MissionFacts.
