(* ===== verification/MissionInvariant.v ===== *)
(** * Invariants of the mission ledger

    Every operation of the ledger as a step, and what holds of any ledger the steps lead to from
    the empty one: the attempts of a mission's evidence are all different, a resolved finding rests
    on passing evidence that is still there and that no agent wrote, one work order of a mission is
    active, a submission's snapshot has one report, an observation of an outcome is later than those
    before it and names the behaviour without surrounding space, and the correction rounds stay
    bounded. *)

From S2P Require Import Prelude JsString Json Sql CanonicalJson SessionState WorkSessions Regex.
From S2P Require Import MissionEvidence MissionOutcome MissionLedger MissionApproval MissionCriteria.
From S2P Require Import MissionFacts.

Module MissionInvariant.
Import WorkSessions MissionEvidence MissionOutcome MissionLedger MissionApproval MissionCriteria.
Import MissionFacts.

(** ** The tables *)

Definition missions_ok (t : list Mission) : Prop :=
  keyed m_workSessionId t ∧ keyed m_id t ∧
  ∀ m, m ∈ t → (0 <= m_correctionRounds m <= Z.max 0 (m_maxCorrectionRounds m + 2))%Z.

Definition evidence_ok (t : list EvidenceRecord) : Prop :=
  numbered t ∧ ∀ e, e ∈ t → ∃ n, e_attempt e = Some n ∧ (1 <= n)%Z.

(** A passing observation of a finding at a submission, not by an agent *)
Definition proof_of (f : Finding) (k : jsstr) (e : EvidenceRecord) : Prop :=
  e_missionId e = f_missionId f ∧ e_findingId e = Some (f_id f) ∧ e_submissionId e = Some k
  ∧ e_status e = ev_passed ∧ ¬ is_claim e.

(** What a resolved finding shows for itself *)
Definition proven (t : list EvidenceRecord) (f : Finding) : Prop :=
  ∃ k, f_resolutionSubmissionId f = Some k ∧ f_resolutionEvidence f ≠ []
  ∧ (∀ i, i ∈ f_resolutionEvidence f → ∃ e, e ∈ t ∧ e_id e = i ∧ proof_of f k e)
  ∧ ∀ command, command ∈ f_requiredVerification f →
      ∃ e, e ∈ t ∧ e_id e ∈ f_resolutionEvidence f ∧ e_command e = Some command ∧ proof_of f k e.

Definition findings_ok (evidence : list EvidenceRecord) (t : list Finding) : Prop :=
  keyed f_id t ∧ ∀ f, f ∈ t → f_status f = verified_resolved → proven evidence f.

Definition orders_ok (t : list WorkOrder) : Prop :=
  NoDup (List.map w_missionId (List.filter w_active t)).

Definition report_key (p : CompletionReport) := (p_missionId p, p_submissionId p, p_snapshot p).
Definition observation_key (o : OutcomeObservation) :=
  (o_missionId o, o_submissionId o, o_reviewEpoch o, o_snapshot o, o_expectedBehavior o, o_observedAt o).

Record well_kept (d : ledger) : Prop := {
  kept_missions : missions_ok (missions d);
  kept_criteria : keyed c_id (criteria d);
  kept_findings : findings_ok (evidence d) (findings d);
  kept_evidence : evidence_ok (evidence d);
  kept_orders : orders_ok (workOrders d);
  kept_reports : keyed report_key (reports d);
  kept_observations : keyed observation_key (observations d);
  kept_behaviors : ∀ o, o ∈ observations d → trim (o_expectedBehavior o) = o_expectedBehavior o
}.

Lemma well_kept_sound d : well_kept d → sound d.
Proof. intros []. split; [apply kept_evidence0|done|apply kept_findings0|done]. Qed.

Definition empty : ledger := mkLedger [] [] [] [] [] [] [] [].

Lemma empty_kept : well_kept empty.
Proof.
  assert (Hn : ∀ {A B} (f : A → B), keyed f []) by (intros; apply NoDup_nil_2).
  split; try apply Hn; try apply NoDup_nil_2; repeat (split; [apply Hn|]); by intros ? []%elem_of_nil.
Qed.

(** ** Rows *)

Lemma proven_more t k f : proven t f → proven (t ++ k) f.
Proof.
  intros (s & H1 & H2 & H3 & H4). exists s. split; [done|]. split; [done|]. split.
  - intros i (e & He & Hi)%H3. exists e. split; [|done]. apply elem_of_app. by left.
  - intros c (e & He & Hi)%H4. exists e. split; [|done]. apply elem_of_app. by left.
Qed.

Lemma findings_ok_more t k l : findings_ok t l → findings_ok (t ++ k) l.
Proof. intros [H1 H2]. split; [done|]. intros f Hf Hs. by apply proven_more, H2. Qed.

(** An update of findings that leaves the ids alone, and resolves none without proof *)
Lemma findings_ok_update t p g l :
  (∀ f, f_id (g f) = f_id f) →
  (∀ f, f ∈ l → p f = true → f_status (g f) = verified_resolved →
        (f_status f = verified_resolved → proven t f) → proven t (g f)) →
  findings_ok t l → findings_ok t (update_where p g l).1.
Proof.
  intros Hid Hg [Hk Hp]. split; [by apply keyed_update|].
  intros f (f0 & Hf0 & ->)%elem_of_update_where Hs. destruct (p f0) eqn:E; auto.
Qed.

Lemma missions_ok_update p g l :
  (∀ m, m_workSessionId (g m) = m_workSessionId m) → (∀ m, m_id (g m) = m_id m) →
  (∀ m, m ∈ l → p m = true →
        (0 <= m_correctionRounds m <= Z.max 0 (m_maxCorrectionRounds m + 2))%Z →
        (0 <= m_correctionRounds (g m) <= Z.max 0 (m_maxCorrectionRounds (g m) + 2))%Z) →
  missions_ok l → missions_ok (update_where p g l).1.
Proof.
  intros Hws Hid Hg (Hk & Hk' & Hr). split; [by apply keyed_update|].
  split; [by apply keyed_update|]. intros m (m0 & Hm0 & ->)%elem_of_update_where. destruct (p m0) eqn:E; auto.
Qed.

(** ** Evidence *)

Lemma next_attempt_above mission t e n :
  e ∈ t → e_missionId e = mission → e_attempt e = Some n → (n < next_attempt mission t)%Z.
Proof.
  intros He Hm Hn. unfold next_attempt.
  assert (Hin : n ∈ omap e_attempt (select_where (λ e, bool_decide (e_missionId e = mission)) t)).
  { apply list_elem_of_omap. exists e. split; [|done]. apply elem_of_Lfilter.
    split; [done|]. by apply bool_decide_eq_true. }
  induction (omap _ _) as [|x l IH]; [by apply elem_of_nil in Hin|].
  cbn. apply elem_of_cons in Hin as [->|Hin]; [lia|]. specialize (IH Hin). lia.
Qed.

Lemma next_attempt_positive mission t : (1 <= next_attempt mission t)%Z.
Proof.
  unfold next_attempt. induction (omap _ _) as [|x l IH]; cbn; lia.
Qed.

Lemma evidence_ok_insert sha256 now uuid mission source s i t :
  evidence_ok t →
  evidence_ok (insert_row (new_evidence sha256 now uuid mission source s (next_attempt mission t) i) t).
Proof.
  intros [Hn Ha]. split.
  - apply (keyed_insert (λ e, (e_missionId e, evidenceAttempt e))); [done|].
    apply by_key_None. intros e He. cbn. intros [= Hm E].
    destruct (Ha e He) as (n & En & _). unfold evidenceAttempt in E. rewrite En in E. cbn in E.
    pose proof (next_attempt_above mission t e n He Hm En). lia.
  - intros e [He|He]%elem_of_app; [auto|]. apply list_elem_of_singleton in He as ->.
    eexists. split; [done|]. apply next_attempt_positive.
Qed.

(** ** One table at a time *)

Section Tables.
Context (d : ledger) (H : well_kept d).

Lemma kept_set_missions t : missions_ok t → well_kept (set_missions t d).
Proof. destruct H. by split. Qed.
Lemma kept_set_criteria t : keyed c_id t → well_kept (set_criteria t d).
Proof. destruct H. by split. Qed.
Lemma kept_set_findings t : findings_ok (evidence d) t → well_kept (set_findings t d).
Proof. destruct H. by split. Qed.
Lemma kept_set_orders t : orders_ok t → well_kept (set_workOrders t d).
Proof. destruct H. by split. Qed.
Lemma kept_set_reports t : keyed report_key t → well_kept (set_reports t d).
Proof. destruct H. by split. Qed.
Lemma kept_set_observations t :
  keyed observation_key t → (∀ o, o ∈ t → trim (o_expectedBehavior o) = o_expectedBehavior o) →
  well_kept (set_observations t d).
Proof. destruct H. by split. Qed.
Lemma kept_set_submissions t : well_kept (set_submissions t d).
Proof. destruct H. by split. Qed.

Lemma kept_touch now k : well_kept (touchMission now k d).
Proof. apply kept_set_missions, missions_ok_update; [done|done|auto|apply H]. Qed.

Lemma kept_criterion_status mission k s now : well_kept (set_criterion_status mission k s now d).
Proof. apply kept_set_criteria, keyed_update; [done|apply H]. Qed.
End Tables.

Create HintDb kept discriminated.
#[export] Hint Resolve kept_set_missions kept_set_criteria kept_set_findings kept_set_orders
  kept_set_reports kept_set_observations kept_set_submissions kept_touch kept_criterion_status : kept.

(** ** Operations *)

Section Operations.
Context (sha256 : jsstr → jsstr) (localeCompare : jsstr → jsstr → Z) (iso : Z → jsstr).

Lemma criterion_status_kept now mission updates d :
  well_kept d → well_kept (updateCriterionStatus now mission updates d).
Proof.
  intros H. apply kept_touch. revert d H.
  induction updates as [|[k s] updates IH]; intros d H; cbn; auto with kept.
Qed.

Lemma finding_status_kept now mission updates : ∀ d r d',
  updateFindingStatus now mission updates d = (r, d') → well_kept d → well_kept d'.
Proof.
  assert (Hl : ∀ d, well_kept d → well_kept (update_findings now mission updates d).2).
  { induction updates as [|u updates IH]; intros d H; cbn; [done|].
    destruct (assertFindingStatusTransition _ _) as [[]|e] eqn:E; [|done].
    destruct (get_finding mission (u_id u) d) as [f|]; [|done].
    apply IH, kept_set_findings; [done|]. apply findings_ok_update; [done| |apply H].
    intros f' _ _ Hs. apply bind_Ok in E as (v & E & _). apply reject_Ok in E.
    cbn in Hs. by rewrite Hs in E. }
  intros d r d' E H. unfold updateFindingStatus in E. specialize (Hl d H).
  destruct (update_findings now mission updates d) as [[[]|e] d1]; simplify_eq; auto with kept.
Qed.

Lemma orders_superseded mission t :
  orders_ok t →
  orders_ok (update_where (is_active_of mission) superseded t).1
  ∧ ∀ w, w ∈ (update_where (is_active_of mission) superseded t).1 → w_active w = true →
         w_missionId w ≠ mission.
Proof.
  unfold orders_ok. induction t as [|w t IH]; intros H; cbn.
  { split; [done|]. by intros ? []%elem_of_nil. }
  assert (Ht : NoDup (List.map w_missionId (List.filter w_active t))).
  { cbn in H. destruct (w_active w); [|done]. by apply NoDup_cons in H as [_ H]. }
  destruct (IH Ht) as [IH1 IH2].
  change (update_where (is_active_of mission) superseded (w :: t)).1 with
    ((if is_active_of mission w then superseded w else w)
       :: (update_where (is_active_of mission) superseded t).1).
  assert (Eact : is_active_of mission w = bool_decide (w_missionId w = mission) && w_active w) by done.
  rewrite Eact. cbn in H.
  destruct (w_active w) eqn:Ea; cbn in H; rewrite ?andb_true_r, ?andb_false_r.
  - apply NoDup_cons in H as [Hn _]. case_bool_decide as Em; cbn; rewrite ?Ea; cbn.
    + split; [done|]. intros x [->|Hx]%elem_of_cons Hact; [done|auto].
    + split.
      * apply NoDup_cons. split; [|done]. intros Hin. apply Hn.
        apply elem_of_Lmap in Hin as (x & -> & [Hx Hact]%elem_of_Lfilter).
        apply (elem_of_update_where (is_active_of mission) superseded) in Hx as (x0 & Hx0 & ->).
        destruct (is_active_of mission x0) eqn:E0; [done|].
        apply elem_of_Lmap. exists x0. split; [done|]. by apply elem_of_Lfilter.
      * intros x [->|Hx]%elem_of_cons Hact; auto.
  - cbn. rewrite Ea. split; [done|]. intros x [->|Hx]%elem_of_cons Hact; [congruence|auto].
Qed.

Lemma work_order_kept now uuid mission ws i d w d' :
  createWorkOrder now uuid mission ws i d = Ok (w, d') → well_kept d → well_kept d'.
Proof.
  unfold createWorkOrder. intros E H. res_inv E. apply kept_set_orders; [done|].
  destruct (orders_superseded mission (workOrders d) (kept_orders d H)) as [Hn Hm].
  match goal with K : get_mission _ _ = Some _ |- _ => apply by_key_Some in K as [_ <-] end.
  unfold orders_ok, insert_row in *. rewrite List.filter_app, List.map_app. cbn.
  apply NoDup_app. split; [done|]. split; [|apply NoDup_singleton].
  intros k Hk%elem_of_Lmap ->%list_elem_of_singleton. destruct Hk as (y & E & [Hy Ha]%elem_of_Lfilter).
  by apply (Hm y Hy Ha).
Qed.

Lemma preferred_kept ws agent d n d' :
  setWorkOrderPreferredAgent ws agent d = (n, d') → well_kept d → well_kept d'.
Proof.
  unfold setWorkOrderPreferredAgent. intros E H.
  destruct (getMissionByWorkSession ws d) as [m|]; [|by simplify_eq].
  injection E as _ <-. apply kept_set_orders; [done|].
  pose proof (kept_orders d H) as Ho. unfold orders_ok in *.
  replace (List.map w_missionId (List.filter w_active (List.map _ _)))
    with (List.map w_missionId (List.filter w_active (workOrders d))); [done|].
  clear. induction (workOrders d) as [|w t IH]; [done|]. cbn.
  destruct (is_active_of (m_id m) w); cbn; destruct (w_active w); cbn; by rewrite IH.
Qed.

(** *** Evidence *)

Lemma record_entry_kept now uuid mission source i d d' :
  record_entry sha256 now uuid mission source i d = Ok d' → well_kept d → well_kept d'.
Proof.
  unfold record_entry. intros E H.
  apply bind_Ok in E as (s & _ & E). apply bind_Ok in E as (t & _ & E).
  apply bind_Ok in E as (u & _ & E). injection E as <-.
  set (e := new_evidence _ _ _ _ _ _ _ _).
  assert (Hadd : well_kept (set_evidence (insert_row e (evidence d)) d)).
  { destruct H as [? ? Hf He ? ? ?]. split; try done.
    - by apply findings_ok_more.
    - by apply evidence_ok_insert. }
  case_match; auto with kept.
Qed.

Lemma record_entries_kept now fresh mission source entries : ∀ n d d',
  record_entries sha256 now fresh n mission source entries d = Ok d' → well_kept d → well_kept d'.
Proof.
  induction entries as [|i entries IH]; intros n d d' E H; cbn in E; [by injection E as <-|].
  apply bind_Ok in E as (d1 & E1 & E). eapply IH; [exact E|]. by eapply record_entry_kept.
Qed.

Lemma record_evidence_kept now fresh mission entries source d d' :
  recordEvidenceWithSource sha256 now fresh mission entries source d = Ok d' →
  well_kept d → well_kept d'.
Proof.
  intros (d1 & E & [= <-])%bind_Ok H. apply kept_touch. by eapply record_entries_kept.
Qed.

(** *** Findings *)

Lemma add_findings_kept t now mission fresh inputs : ∀ n existing created l created' l',
  add_findings sha256 now mission fresh n inputs existing created l = Ok (created', l') →
  findings_ok t l → findings_ok t l'.
Proof.
  induction inputs as [|i inputs IH]; intros n existing created l created' l' E H; cbn in E.
  { by simplify_eq. }
  apply bind_Ok in E as (u & _ & E).
  destruct (List.find _ existing) as [row|] eqn:Ef.
  - eapply IH; [exact E|]. apply findings_ok_update; [done| |done].
    intros f _ _ Hs Hp. exact (Hp Hs).
  - apply bind_Ok in E as (v & Hu & E). eapply IH; [exact E|].
    apply reject_Ok in Hu. destruct H as [Hk Hp]. split.
    + apply keyed_insert; [done|]. apply by_key_None. intros f Hf Hid.
      rewrite <- not_true_iff_false in Hu. apply Hu, existsb_exists.
      exists f. rewrite <- list_elem_of_In. split; [done|]. by apply bool_decide_eq_true.
    + intros f [Hf|Hf]%elem_of_app; [auto|]. by apply list_elem_of_singleton in Hf as ->.
Qed.

Lemma findings_added_kept now mission fresh inputs d created d' :
  addFindings sha256 now mission fresh inputs d = Ok (created, d') → well_kept d → well_kept d'.
Proof.
  unfold addFindings. intros E H. apply bind_Ok in E as ([c l] & E & [= _ <-]).
  apply kept_set_findings; [done|]. eapply add_findings_kept; [exact E|apply H].
Qed.

(** *** Reports and observations *)

Lemma report_kept d g k :
  (∀ p, report_key (g p) = report_key p) → well_kept d → well_kept (update_report k g d).
Proof. intros Hg H. apply kept_set_reports; [done|]. apply keyed_update; [done|apply H]. Qed.

Lemma first_report_kept now uuid mission s passed results i d :
  report_of mission (ri_submissionId i) s d = None → well_kept d →
  well_kept (set_reports (insert_row (new_report sha256 now uuid mission s passed results i) (reports d)) d).
Proof.
  intros Hn H. apply kept_set_reports; [done|]. apply keyed_insert; [apply H|].
  apply first_by_None in Hn. apply by_key_None. intros p Hp. unfold report_key. cbn. intros [= E1 E2 E3].
  assert (Hin : p ∈ select_where (at_snapshot mission (ri_submissionId i) s) (reports d)).
  { apply elem_of_Lfilter. split; [done|]. unfold at_snapshot. by rewrite E1, E2, E3, !bool_decide_eq_true_2. }
  rewrite Hn in Hin. by apply elem_of_nil in Hin.
Qed.

Lemma completion_kept now uuid mission passed results i d d' :
  recordCompletionReport sha256 now uuid mission passed results i d = Ok d' →
  well_kept d → well_kept d'.
Proof.
  unfold recordCompletionReport. intros E H. apply bind_Ok in E as (o & _ & E).
  apply bind_Ok in E as (s & _ & E). injection E as <-.
  destruct (report_of _ _ _ _) eqn:Er; [by apply report_kept|by apply first_report_kept].
Qed.

Lemma coverage_kept now uuid mission i d d' :
  recordReviewCoverage sha256 now uuid mission i d = Ok d' → well_kept d → well_kept d'.
Proof.
  unfold recordReviewCoverage. intros E H. apply bind_Ok in E as (o & _ & E).
  apply bind_Ok in E as (s & _ & E). apply bind_Ok in E as (m & _ & E). injection E as <-.
  destruct (report_of _ _ _ _) eqn:Er; [by apply report_kept|by apply first_report_kept].
Qed.

Lemma observation_kept now uuid mission i d o d' :
  recordOutcomeObservation sha256 now uuid mission i d = Ok (o, d') → well_kept d → well_kept d'.
Proof.
  unfold recordOutcomeObservation. intros E H. res_inv E. apply kept_touch, kept_set_observations; [done| |].
  2:{ intros y [Hy| ->%list_elem_of_singleton]%elem_of_app; [by apply H|apply trim_trim]. }
  set (expected := trim (or_empty _)) in *. set (previous := first_by _ _).
  apply keyed_insert; [apply H|]. apply by_key_None. intros y Hy. unfold observation_key. cbn.
  intros [= E1 E2 E3 E4 E5 E6].
  assert (Hin : y ∈ select_where (same_observed mission i expected) (observations d)).
  { apply elem_of_Lfilter. split; [done|]. unfold same_observed.
    by rewrite E1, E2, E3, E4, E5, !bool_decide_eq_true_2. }
  destruct previous as [p|] eqn:Ep; unfold previous in Ep.
  - pose proof (first_by_least _ _ _ later_total later_trans Ep y Hin) as Hl.
    unfold later in Hl. cbn in E6. apply Z.leb_le in Hl. lia.
  - apply first_by_None in Ep. rewrite Ep in Hin. by apply elem_of_nil in Hin.
Qed.

(** *** Missions *)

Lemma loop_round currentRound max count r approved :
  extend (evaluateCorrectionPolicy currentRound max count r approved) = true →
  round (evaluateCorrectionPolicy currentRound max count r approved) = (currentRound + 1)%Z
  ∧ (currentRound + 1 <= max + 2)%Z.
Proof.
  unfold evaluateCorrectionPolicy.
  repeat (case_match; cbn; try done); intros _; split; guards; try done; try lia.
Qed.

Lemma loop_kept now ws ids r d decision d' :
  evaluateLoopExtension localeCompare iso now ws ids r d = Ok (decision, d') →
  well_kept d → well_kept d'.
Proof.
  unfold evaluateLoopExtension. intros E H.
  destruct (getMissionByWorkSession ws d) as [m|] eqn:Em; [|by simplify_eq].
  apply bind_Ok in E as (a & _ & E). injection E as _ <-.
  case_match eqn:Ex; [|done]. apply loop_round in Ex as [-> Hmax].
  pose proof (kept_missions d H) as (Hk & Hk' & Hr). apply get_where_Some in Em as [Hm _].
  apply kept_set_missions; [done|]. apply missions_ok_update; [done|done| |by split].
  intros m' Hm' Ei%bool_decide_eq_true Hb. cbn.
  assert (m' = m) as -> by (by apply (keyed_inj m_id (missions d))). lia.
Qed.

Lemma inserted_criteria rows : ∀ t t',
  insert_criteria rows t = Ok t' → keyed c_id t → keyed c_id t'.
Proof.
  induction rows as [|c rows IH]; intros t t' E H; cbn in E; [by simplify_eq|].
  apply bind_Ok in E as (u & Hu & E). eapply IH; [exact E|]. apply keyed_insert; [done|].
  apply by_key_None. intros x Hx Hid. apply reject_Ok in Hu.
  rewrite <- not_true_iff_false in Hu. apply Hu, existsb_exists. exists x.
  rewrite <- list_elem_of_In. split; [done|]. by apply bool_decide_eq_true.
Qed.

Lemma fingerprint_kept k fp now d : well_kept d → well_kept (update_mission k (with_fingerprint fp now) d).
Proof. intros H. apply kept_set_missions; [done|]. apply missions_ok_update; [done|done|auto|apply H]. Qed.

Lemma first_mission now uuid fp i t :
  by_key m_workSessionId (mi_workSessionId i) t = None →
  existsb (λ x, bool_decide (m_id x = m_id (new_mission now uuid fp i))) t = false →
  missions_ok t → missions_ok (insert_row (new_mission now uuid fp i) t).
Proof.
  intros Hws Hid (Hk & Hk' & Hr). split; [by apply keyed_insert|]. split.
  - apply keyed_insert; [done|]. apply by_key_None. intros x Hx E.
    rewrite <- not_true_iff_false in Hid. apply Hid, existsb_exists. exists x.
    rewrite <- list_elem_of_In. split; [done|]. by apply bool_decide_eq_true.
  - intros m [Hm|Hm]%elem_of_app; [auto|]. apply list_elem_of_singleton in Hm as ->. cbn. lia.
Qed.

Lemma mission_kept now uuid fresh b input d m d' :
  createMission sha256 localeCompare now uuid fresh b input d = Some (Ok (m, d')) →
  well_kept d → well_kept d'.
Proof.
  unfold createMission. intros E H.
  destruct (identity b) as [s|]; [|done]. case_match; [done|].
  destruct (validateMissionCriterionContract _) as [[u|e]|]; [|done|done].
  injection E as E. apply bind_Ok in E as (v & _ & E).
  destruct (getMissionByWorkSession _ d) as [existing|] eqn:Ee.
  - apply bind_Ok in E as (d1 & E1 & E). injection E as _ <-.
    assert (H1 : well_kept d1).
    { destruct (negb _) in E1; [|by injection E1 as <-].
      destruct (truthy _ && _) in E1; [|done]. injection E1 as <-. by apply fingerprint_kept. }
    destruct (truthy (m_contractFingerprint existing)); [done|by apply fingerprint_kept].
  - apply bind_Ok in E as (w & Hw & E). apply bind_Ok in E as (t & Ht & E). injection E as _ <-.
    apply reject_Ok in Hw. apply kept_set_criteria.
    + apply kept_set_missions; [done|]. apply first_mission; [done|done|apply H].
    + eapply inserted_criteria; [exact Ht|apply H].
Qed.

(** *** Resolution *)

Lemma passing_proof d f command q e :
  sound d →
  passing localeCompare (finding_evidence (f_missionId f) (f_id f) d) (f_id f) q command = Some e →
  e ∈ evidence d ∧ proof_of f (q_submissionId q) e ∧ ∀ c, command = Some c → e_command e = Some c.
Proof.
  intros Hd E.
  apply (passing_exact localeCompare iso d Hd (f_missionId f)
           (λ e, bool_decide (e_missionId e = f_missionId f) && bool_decide (e_findingId e = Some (f_id f))))
    in E as (_ & _ & (Hin & HP & _) & Hs).
  - split; [done|]. apply andb_true_iff in HP as [Hm HQ]. pose proof HQ as HP.
    unfold qualifies, at_context in HP. cbn in HP.
    assert (Hc : ¬ is_claim e) by (intros Hc; by rewrite (claim_not_qualified _ _ _ _ Hc) in HQ).
    guards. split; [by split_and!|]. intros c ->. by guards.
  - split; [|done]. intros x Hx. by guards.
  - intros x Hx. unfold qualifies in Hx. guards. by rewrite (bool_decide_eq_true_2 (e_findingId x = _)), andb_true_r.
Qed.

Lemma set_of_nil l : set_of l = [] → l = [].
Proof.
  destruct l as [|x l]; [done|]. intros H.
  assert (Hx : x ∈ set_of (x :: l)) by (apply set_of_elem; left).
  rewrite H in Hx. by apply elem_of_nil in Hx.
Qed.

(** The verdict of [resolveFinding] is proof of the finding. *)
Lemma resolution_proven d f q ids now :
  sound d →
  let r := evaluateEffectiveFindingResolution localeCompare (finding_evidence (f_missionId f) (f_id f) d)
             (f_requiredVerification f) (f_id f) q in
  resolved r = true → ids = set_of (qualifyingEvidenceIds r) →
  proven (evidence d) (with_resolution (q_submissionId q) ids now f).
Proof.
  intros Hd r Hr ->. exists (q_submissionId q). split; [done|]. cbn [with_resolution f_resolutionEvidence].
  unfold r, evaluateEffectiveFindingResolution in *. clear r.
  set (l := finding_evidence _ _ d) in *. cbn [f_requiredVerification].
  destruct (f_requiredVerification f) as [|c commands] eqn:Ec.
  - destruct (passing localeCompare l (f_id f) q None) as [e|] eqn:Ep; unfold passing in Ep.
    + destruct (effective_observation _ _ _ None q) as [e'|] eqn:Eo; [|done]. cbn in Ep.
      case_bool_decide as Es; [|done]. injection Ep as ->. cbn. rewrite Ec.
      split; [done|]. split; [|by intros ? []%elem_of_nil].
      intros i ->%list_elem_of_singleton. exists e.
      destruct (passing_proof d f None q e Hd) as (H1 & H2 & _); [|done].
      fold l. unfold passing. rewrite Eo. cbn. by rewrite bool_decide_eq_true_2.
    + destruct (effective_observation _ _ _ None q) as [e'|] eqn:Eo; [|done]. cbn in Ep.
      by case_bool_decide.
  - destruct (commands_resolved localeCompare l (f_id f) q (c :: commands) (mkResolution true [] []))
      as [Er Eids]. rewrite Er in Hr. rewrite Eids. cbn [resolved qualifyingEvidenceIds with_resolution] in *.
    cbn [MissionOutcome.f_requiredVerification].
    rewrite andb_true_l, forallb_forall in Hr. setoid_rewrite <- list_elem_of_In in Hr.
    set (ids := omap _ (c :: commands)).
    assert (Hids : ∀ i, i ∈ set_of ids ↔ ∃ x e, x ∈ c :: commands
                     ∧ passing localeCompare l (f_id f) q (Some x) = Some e ∧ e_id e = i).
    { intros i. rewrite set_of_elem. unfold ids. rewrite list_elem_of_omap. split.
      - intros (x & Hx & (e & Ee & Hp)%fmap_Some). eauto.
      - intros (x & e & Hx & Hp & <-). exists x. split; [done|]. by rewrite Hp. }
    assert (Hall : ∀ x, x ∈ c :: commands → ∃ e,
              passing localeCompare l (f_id f) q (Some x) = Some e ∧ e_id e ∈ set_of ids).
    { intros x Hx. specialize (Hr x Hx). destruct (passing _ _ _ _ (Some x)) as [e|] eqn:Ep; [|done].
      exists e. split; [done|]. apply Hids. eauto. }
    cbn [app]. fold ids. split; [|split].
    + destruct (Hall c ltac:(left)) as (e & _ & He). intros E. rewrite E in He.
      by apply elem_of_nil in He.
    + intros i (x & e & Hx & Hp & <-)%Hids. exists e.
      destruct (passing_proof d f _ q e Hd Hp) as (H1 & H2 & _). done.
    + intros x Hx. cbn in Hx. rewrite Ec in Hx. destruct (Hall x Hx) as (e & Hp & Hin). exists e.
      destruct (passing_proof d f _ q e Hd Hp) as (H1 & H2 & H3). auto.
Qed.

Lemma resolved_kept now mission k i d ids d' :
  resolveFinding localeCompare now mission k i d = Ok (ids, d') → well_kept d → well_kept d'.
Proof.
  unfold resolveFinding. intros E H.
  apply bind_Ok in E as (f & Hf & E). apply bind_Ok in E as (u1 & _ & E).
  apply bind_Ok in E as (s & _ & E). apply bind_Ok in E as (q & _ & E).
  apply bind_Ok in E as (m & _ & E). apply bind_Ok in E as (latest & _ & E).
  apply bind_Ok in E as (u2 & _ & E). apply bind_Ok in E as (u3 & Hr & E). injection E as _ <-.
  apply require_Ok, get_where_Some in Hf as [Hf Hk]. apply ensure_Ok in Hr.
  apply kept_touch, kept_set_findings; [done|]. apply findings_ok_update; [done| |apply H].
  intros f' Hf' Hp _ _. unfold is_finding in Hp. guards.
  assert (f' = f) as -> by (apply (keyed_inj f_id (findings d)); [apply H|done|done|congruence]).
  subst. eapply resolution_proven; [by apply well_kept_sound|exact Hr|done].
Qed.

(** ** Histories *)

(** One call of the ledger, or a change of the submissions, which another component keeps. *)
Inductive step (d : ledger) : ledger → Prop :=
| mission_created now uuid fresh b input m d' :
    createMission sha256 localeCompare now uuid fresh b input d = Some (Ok (m, d')) → step d d'
| findings_added now mission fresh inputs created d' :
    addFindings sha256 now mission fresh inputs d = Ok (created, d') → step d d'
| criteria_updated now mission updates : step d (updateCriterionStatus now mission updates d)
| findings_updated now mission updates r d' :
    updateFindingStatus now mission updates d = (r, d') → step d d'
| finding_resolved now mission k i ids d' :
    resolveFinding localeCompare now mission k i d = Ok (ids, d') → step d d'
| order_created now uuid mission ws i w d' :
    createWorkOrder now uuid mission ws i d = Ok (w, d') → step d d'
| agent_preferred ws agent n d' : setWorkOrderPreferredAgent ws agent d = (n, d') → step d d'
| evidence_recorded now fresh mission entries source d' :
    recordEvidenceWithSource sha256 now fresh mission entries source d = Ok d' → step d d'
| outcome_observed now uuid mission i o d' :
    recordOutcomeObservation sha256 now uuid mission i d = Ok (o, d') → step d d'
| completion_reported now uuid mission passed results i d' :
    recordCompletionReport sha256 now uuid mission passed results i d = Ok d' → step d d'
| coverage_recorded now uuid mission i d' :
    recordReviewCoverage sha256 now uuid mission i d = Ok d' → step d d'
| loop_evaluated now ws ids r decision d' :
    evaluateLoopExtension localeCompare iso now ws ids r d = Ok (decision, d') → step d d'
| submissions_changed t : step d (set_submissions t d).

#[local] Hint Resolve mission_kept findings_added_kept criterion_status_kept finding_status_kept
  resolved_kept work_order_kept preferred_kept record_evidence_kept observation_kept
  completion_kept coverage_kept loop_kept kept_set_submissions : kept.

Lemma step_kept d d' : step d d' → well_kept d → well_kept d'.
Proof. destruct 1; eauto with kept. Qed.

Lemma reachable_kept d : steps step empty d → well_kept d.
Proof.
  intros H. eapply (steps_invariant step well_kept); [exact step_kept|exact H|exact empty_kept].
Qed.
End Operations.

End MissionInvariant.
