(* ===== verification/MissionProperties.v ===== *)
(** * Properties of missions

    The theorems about the mission ledger and its authorities, over the histories of
    [MissionInvariant], and the scenarios that show they are not empty. *)

From S2P Require Import Prelude JsString Json Sql CanonicalJson SessionState WorkSessions Regex PatchFormat.
From S2P Require Import MissionEvidence MissionOutcome MissionLedger MissionApproval MissionCriteria.
From S2P Require Import MissionFacts MissionInvariant.

Module MissionProperties.
Import WorkSessions MissionEvidence MissionOutcome MissionLedger MissionApproval MissionCriteria.
Import MissionFacts MissionInvariant.

(** ** Claims and the rest of the ledger *)

Lemma same_mission_found d d' ws m :
  claims_only d d' → getMissionByWorkSession ws d = Some m →
  ∃ m', getMissionByWorkSession ws d' = Some m' ∧ same_mission m m'.
Proof.
  intros H. pose proof (claims_missions _ _ H) as HF. unfold getMissionByWorkSession, get_where.
  induction HF as [|a b l k Hab HF IH]; cbn; [done|].
  rewrite (same_mission_touched a b Hab). cbn. case_bool_decide; [|done].
  intros [= <-]. eexists. split; [done|]. unfold same_mission. by destruct a.
Qed.

Lemma context_claims d d' ws i : claims_only d d' → context_for ws i d' = context_for ws i d.
Proof.
  intros H. destruct (claims_rest _ _ H) as (_ & _ & _ & Es).
  unfold context_for, getCurrentApprovalContext. by rewrite Es.
Qed.

(** ** Theorems *)

Section Histories.
Context (sha256 : jsstr → jsstr) (localeCompare : jsstr → jsstr → Z) (iso : Z → jsstr).

Abbreviation reachable := (steps (step sha256 localeCompare iso) empty).

Lemma reachable_sound d : reachable d → sound d.
Proof. intros H. by eapply well_kept_sound, reachable_kept. Qed.

(** C3: Whatever calls led to the ledger, [canApprove] answers, and it allows exactly the missions
    that are [fulfilled]: a passing report with results where the outcome level asks for one, the
    newest firsthand observation confirming the declared behaviour where it asks for that, every
    required criterion met by the newest evidence that counts at exactly this submission, snapshot
    and review epoch, together with all it depends on, every blocking finding waived or renewed by
    the newest evidence of each of its commands, the final verification passed, and every lens
    covered. *)
Theorem approval_means_fulfilment d ws i m c :
  reachable d → getMissionByWorkSession ws d = Some m → context_for ws i d = Ok c →
  ∃ allowed why, canApprove localeCompare iso ws i d = Ok (allowed, why)
    ∧ (allowed = true ↔ fulfilled d m c).
Proof. intros H. by apply canApprove_exact, reachable_sound. Qed.

(** C12: No batch of claims an agent records, whatever it says it verified, changes whether a mission
    may be approved, in any context. *)
Theorem agent_claims_decide_nothing now fresh mission entries d d' ws i m c :
  reachable d → recordAgentEvidence sha256 now fresh mission entries d = Ok d' →
  getMissionByWorkSession ws d = Some m → context_for ws i d = Ok c →
  ∃ allowed why why', canApprove localeCompare iso ws i d = Ok (allowed, why)
    ∧ canApprove localeCompare iso ws i d' = Ok (allowed, why').
Proof.
  intros H Hrec Hm Hc.
  assert (Hcl : claims_only d d').
  { apply bind_Ok in Hrec as (d1 & E & [= <-]). etrans; [by eapply record_claims|apply touch_claims]. }
  assert (H' : reachable d').
  { eapply steps_trans; [exact H|]. apply steps_one. by eapply evidence_recorded. }
  destruct (same_mission_found d d' ws m Hcl Hm) as (m' & Hm' & Hs).
  assert (Hc' : context_for ws i d' = Ok c) by (by rewrite (context_claims d d' ws i Hcl)).
  destruct (canApprove_exact localeCompare iso d ws i m c (reachable_sound d H) Hm Hc)
    as (allowed & why & E & Ha).
  destruct (canApprove_exact localeCompare iso d' ws i m' c (reachable_sound d' H') Hm' Hc')
    as (allowed' & why' & E' & Ha').
  exists allowed, why, why'. split; [done|]. rewrite E'.
  enough (allowed' = allowed) as -> by done.
  apply eq_true_iff_eq. rewrite Ha, Ha'. by apply fulfilled_claims.
Qed.

(** C20: Along every history of calls, attempts of a mission's evidence stay different, every
    finding that is resolved shows passing evidence for each of its commands that is in the ledger
    and that no agent wrote, a mission has one active work order and a submission's snapshot one
    report, observations of one outcome have different times and name its behaviour without
    surrounding space, and the correction rounds stay within the bound of the contract plus the two
    that progress may add. *)
Theorem histories_keep_the_ledger d : reachable d → well_kept d.
Proof.
  intros H. eapply steps_invariant; [apply step_kept|exact H|apply empty_kept].
Qed.

(** The mission declares its behaviour without surrounding space. *)
Definition stated_plainly (m : Mission) : Prop :=
  trim (or_empty (m_outcomeExpectedBehavior m)) = or_empty (m_outcomeExpectedBehavior m).

#[local] Instance stated_plainly_dec m : Decision (stated_plainly m).
Proof. unfold stated_plainly. apply _. Defined.

(** No observation attests a behaviour that was declared otherwise. *)
Lemma attests_plainly d m c o :
  well_kept d → o ∈ observations d → attests m c o = true → stated_plainly m.
Proof.
  intros H Ho Ha. pose proof (kept_behaviors _ H o Ho) as E.
  unfold attests, matching in Ha. cbn in Ha. guards. unfold stated_plainly. congruence.
Qed.

(** The observation that is recorded, and its place among those of its submission *)
Lemma recorded_last now uuid mission i d o d' m :
  get_mission mission d = Some m → stated_plainly m →
  recordOutcomeObservation sha256 now uuid mission i d = Ok (o, d') →
  let c := mkContext (Some (oi_submissionId i)) (Some (oi_snapshot i)) (Some (oi_reviewEpoch i)) in
  observations d' = observations d ++ [o] ∧ o_status o = oi_status i
  ∧ nonempty (trim (o_observerIdentity o)) = true
  ∧ ((∀ t, is_sha256 (sha256 t) = true) → attests m c o = true)
  ∧ ∀ x, x ∈ observations d → attests m c x = true → (o_observedAt x < o_observedAt o)%Z.
Proof.
  intros Hm Ht E c. unfold recordOutcomeObservation in E. rewrite Hm in E. cbn [require mbind res_bind] in E.
  apply bind_Ok in E as (u1 & _ & E). apply bind_Ok in E as (u2 & _ & E).
  apply bind_Ok in E as (u3 & Hp & E). apply bind_Ok in E as (u4 & _ & E).
  apply bind_Ok in E as (u5 & Hb & E). apply bind_Ok in E as (u6 & _ & E). injection E as <- <-.
  apply ensure_Ok in Hp, Hb. apply by_key_Some in Hm as [_ Hmid]. rewrite Ht in *.
  split; [done|]. split; [done|]. split; [|split].
  - cbn. change (js "principal:") with (112%N :: js "rincipal:").
    destruct (PatchFormat.trim_cons 112%N (js "rincipal:" ++ oi_observerPrincipalId i) eq_refl) as [t Et].
    unfold js_app. cbn [app]. by rewrite Et.
  - intros Hsha. unfold attests, matching. cbn. rewrite Hmid.
    rewrite Hp, Hsha, !bool_decide_eq_true_2 by done. done.
  - intros x Hx Hax. cbn.
    set (previous := first_by _ _).
    assert (Hin : x ∈ select_where (same_observed mission i (or_empty (m_outcomeExpectedBehavior m)))
                        (observations d)).
    { apply elem_of_Lfilter. split; [done|]. unfold attests, matching in Hax. cbn in Hax. guards.
      unfold same_observed. rewrite !andb_true_iff, !bool_decide_eq_true. split_and!; congruence. }
    destruct previous as [p|] eqn:Ep; unfold previous in Ep.
    + pose proof (first_by_least _ _ _ later_total later_trans Ep x Hin) as Hle.
      apply Z.leb_le in Hle. cbn. lia.
    + apply first_by_None in Ep. rewrite Ep in Hin. by apply elem_of_nil in Hin.
Qed.

(** C34: The last word on an outcome is the latest observation: after one is recorded for the
    submission under review, the outcome is satisfied exactly when it confirms, whatever was
    observed before, and the mission declares the behaviour without surrounding space; a behaviour
    that is declared with space around it is never satisfied. *)
Theorem last_observation_decides now uuid mission i d o d' m c :
  reachable d → (∀ t, is_sha256 (sha256 t) = true) →
  get_mission mission d = Some m →
  recordOutcomeObservation sha256 now uuid mission i d = Ok (o, d') →
  oi_submissionId i ≠ [] →
  c = mkContext (Some (oi_submissionId i)) (Some (oi_snapshot i)) (Some (oi_reviewEpoch i)) →
  (evaluateOutcomeObservations iso (observations_of m c d') (observation_context m c)).1 = true
  ↔ oi_status i = confirmed
    ∧ trim (or_empty (m_outcomeExpectedBehavior m)) = or_empty (m_outcomeExpectedBehavior m).
Proof.
  intros H Hsha Hm E Hk ->.
  assert (H' : reachable d').
  { eapply steps_trans; [exact H|]. apply steps_one. by eapply outcome_observed. }
  set (c := mkContext _ _ _). fold (stated_plainly m).
  rewrite (outcome_exact iso d' (reachable_sound d' H')). unfold outcome_confirmed.
  destruct (decide (stated_plainly m)) as [Ht|Ht].
  2:{ split; [|by intros [_ ?]]. intros (_ & x & Hx & Hax & _). destruct Ht.
      eapply attests_plainly; [|exact Hx|exact Hax]. by eapply reachable_kept. }
  destruct (recorded_last now uuid mission i d o d' m Hm Ht E) as (Eo & Hst & Hid & Hat & Hl).
  specialize (Hat Hsha). fold c in Hat, Hl. rewrite Eo. split.
  - intros (_ & x & [Hx| ->%list_elem_of_singleton]%elem_of_app & Hax & Hs & _ & Hmax);
      [|split; [congruence|done]].
    specialize (Hl x Hx Hax). specialize (Hmax o ltac:(apply elem_of_app; right; left) Hat). lia.
  - intros [Hs _]. split; [split; [by destruct (oi_submissionId i)|done]|].
    exists o. split; [apply elem_of_app; right; left|]. split; [done|]. split; [congruence|].
    split; [done|]. intros x [Hx| ->%list_elem_of_singleton]%elem_of_app Hax; [|lia].
    specialize (Hl x Hx Hax). lia.
Qed.

End Histories.

(** ** Contracts *)

Lemma combine_lookup {A B} (l : list A) : ∀ (k : list B) n a b,
  l !! n = Some a → k !! n = Some b → List.combine l k !! n = Some (a, b).
Proof.
  induction l as [|x l IH]; intros [|y k] [|n] a b; cbn; try done; [congruence|apply IH].
Qed.

(** A criterion apart from its stored status *)
Definition reset (x : Criterion) : Criterion := with_criterion_status unverified 0 x.

Section Contract.
Context (now : Z) (mission : jsstr) (fresh : nat → jsstr) (inputs : list MissionCriterionInput).
Context (rows : list Criterion).
Hypothesis stored :
  List.map reset rows ≡ₚ List.map reset (criterion_rows now mission fresh inputs).
Hypothesis ids_differ : NoDup (List.map c_id rows).

(** [x] is the row of the input [c]. *)
Definition row_of (c : MissionCriterionInput) (x : Criterion) : Prop :=
  ∃ n, same_criterion (new_criterion now mission (fresh n) c) x.

Lemma row_of_fields c x :
  row_of c x →
  c_dependsOn x = dependencies c ∧ ∀ k, ci_id c = Some k → c_id x = k.
Proof.
  intros (n & E). unfold same_criterion in E. split.
  - by apply (f_equal c_dependsOn) in E.
  - intros k Ek. apply (f_equal c_id) in E. cbn in E. by rewrite Ek in E.
Qed.

Lemma input_of_row x : x ∈ rows → ∃ c, c ∈ inputs ∧ row_of c x.
Proof.
  intros Hx. assert (H : reset x ∈ List.map reset rows) by (apply elem_of_Lmap; eauto).
  rewrite stored, elem_of_Lmap in H. destruct H as (y & E & Hy).
  apply elem_of_Lmap in Hy as ([n c] & -> & Hin). exists c. split; [|by exists n].
  apply list_elem_of_In in Hin. apply list_elem_of_In. by eapply in_combine_r.
Qed.

Lemma row_of_input c : c ∈ inputs → ∃ x, x ∈ rows ∧ row_of c x.
Proof.
  intros [n Hn]%list_elem_of_lookup.
  assert (Hin : (n, c) ∈ List.combine (seq 0 (length inputs)) inputs).
  { eapply list_elem_of_lookup_2, combine_lookup; [|exact Hn].
    apply lookup_seq_lt. by eapply lookup_lt_Some. }
  assert (H : reset (new_criterion now mission (fresh n) c) ∈ List.map reset rows).
  { rewrite stored, elem_of_Lmap. eexists. split; [done|]. unfold criterion_rows.
    apply elem_of_Lmap. by exists (n, c). }
  apply elem_of_Lmap in H as (x & E & Hx). exists x. split; [done|]. by exists n.
Qed.

Lemma criterion_of_row x : x ∈ rows → criterion_of rows (c_id x) = Some x.
Proof.
  intros Hx. destruct (criterion_of_elem rows x Hx) as [y Hy]. rewrite Hy. f_equal.
  apply criterion_of_Some in Hy as [Hy E]. by apply (keyed_inj c_id rows).
Qed.

Lemma leads_depends a b : leads (graph inputs) a b → depends rows a b.
Proof.
  unfold leads, graph. destruct (byId inputs a) as [c|] eqn:E; [|by intros []%elem_of_nil].
  apply find_some_iff in E as [Hc Hid]. rewrite elem_of_rev in Hc. guards. intros Hb.
  destruct (row_of_input c Hc) as (x & Hx & [Hd Hk]%row_of_fields).
  exists x. rewrite Hd. split; [|done]. rewrite <- (criterion_of_row x Hx). f_equal. symmetry. auto.
Qed.

Lemma row_named k : k ∈ keys_of inputs → ∃ x, x ∈ rows ∧ c_id x = k.
Proof.
  intros (c & Hc & _ & E)%elem_of_keys.
  destruct (row_of_input c Hc) as (x & Hx & [_ Hk]%row_of_fields). eauto.
Qed.

(** The dependencies of a row are those of its input, which are the edges of its id. *)
Lemma depends_leads x b :
  well_formed inputs → x ∈ rows → b ∈ c_dependsOn x →
  leads (graph inputs) (c_id x) b ∧ b ∈ keys_of inputs.
Proof.
  intros Hw Hx Hb. destruct (input_of_row x Hx) as (c & Hc & [Hd Hid]%row_of_fields).
  rewrite Hd in Hb.
  assert (Hn : truthy (ci_id c) = true).
  { apply (dependents_named _ Hw); [done|]. intros E. rewrite E in Hb. by apply elem_of_nil in Hb. }
  destruct (ci_id c) as [k|] eqn:Ek; [|done]. rewrite (Hid k eq_refl).
  split; [|by apply (dependencies_known _ Hw c b)]. unfold leads, graph.
  destruct (byId inputs k) as [c'|] eqn:E.
  - apply find_some_iff in E as [Hc' Hg]. rewrite elem_of_rev in Hc'. guards.
    destruct (row_of_input c' Hc') as (y & Hy & [Hd' Hid']%row_of_fields).
    assert (x = y) as <-.
    { apply (keyed_inj c_id rows); try done. by rewrite (Hid k), (Hid' k). }
    by rewrite <- Hd', Hd.
  - exfalso. pose proof (proj1 (find_none_iff _ _) E c (proj2 (elem_of_rev _ _) Hc)) as Hno.
    cbn in Hno. rewrite Ek, Hn, bool_decide_eq_true_2 in Hno by done. done.
Qed.

Context (evidenceFor : Criterion → option EvidenceRecord).

Lemma all_effective x :
  well_formed inputs → (∀ y, y ∈ rows → ∃ e, evidenceFor y = Some e ∧ e_status e = ev_passed) →
  x ∈ rows → effective rows evidenceFor (c_id x).
Proof.
  intros Hw He.
  assert (Hg : ∀ k, grounded (graph inputs) k → ∀ y, y ∈ rows → c_id y = k → effective rows evidenceFor k).
  { induction 1 as [k _ IH]. intros y Hy <-. destruct (He y Hy) as (e & Hye & Hs).
    eapply effective_intro; [by apply criterion_of_row|exact Hye|exact Hs|].
    intros b Hb. destruct (depends_leads y b Hw Hy Hb) as [Hl Hk].
    destruct (row_named b Hk) as (z & Hz & Hid). by apply (IH b Hl z). }
  intros Hx. destruct (He x Hx) as (e & Hxe & Hs).
  eapply effective_intro; [by apply criterion_of_row|exact Hxe|exact Hs|].
  intros b Hb. destruct (depends_leads x b Hw Hx Hb) as [_ Hk].
  destruct (row_named b Hk) as (z & Hz & Hid). by apply (Hg b (dependencies_grounded _ Hw b Hk) z).
Qed.

Lemma path_depends a b : tc (leads (graph inputs)) a b → tc (depends rows) a b.
Proof.
  induction 1 as [a b Hab|a b e Hab _ IH].
  - by apply tc_once, leads_depends.
  - eapply tc_l; [by apply leads_depends|exact IH].
Qed.

Lemma cycle_ineffective k : tc (leads (graph inputs)) k k → ¬ effective rows evidenceFor k.
Proof.
  intros Hc He. by apply (effective_no_cycle rows evidenceFor k He), path_depends.
Qed.
End Contract.

(** C31: The validation of a contract ends on every list of criteria and accepts exactly the
    well-formed ones: different ids, dependencies that are other criteria of the contract and lead
    back to none, commands and probes that fit the types.  What it accepts can be fulfilled: once
    every stored criterion has a passing observation, the evaluation finds all of them verified.
    What it refuses for a cycle could not: the criterion it names is never verified. *)
Theorem contracts_accepted_can_be_met now mission fresh inputs rows evidenceFor context :
  List.map reset rows ≡ₚ List.map reset (criterion_rows now mission fresh inputs) →
  NoDup (List.map c_id rows) →
  ∃ verdict states,
    validateMissionCriterionContract inputs = Some verdict
    ∧ (verdict = Ok tt ↔ well_formed inputs)
    ∧ evaluateEffectiveCriteria rows evidenceFor context = Some states
    ∧ (verdict = Ok tt →
       (∀ x, x ∈ rows → ∃ e, evidenceFor x = Some e ∧ e_status e = ev_passed) →
       ∀ s, s ∈ states → status s = verified)
    ∧ ∀ k, verdict = Err (dependency_cycle k) →
        ∀ s, s ∈ states → criterionId s = k → status s ≠ verified.
Proof.
  intros Hr Hn. destruct (validation_exact inputs) as [(verdict & Ev & Hv) Hcyc].
  destruct (evaluation_exact rows evidenceFor context) as (states & Es & HF).
  exists verdict, states. split; [done|]. split; [done|]. split; [done|]. split.
  - intros Ho He s Hs. destruct (Forall2_elem_r _ _ _ _ HF Hs) as (x & Hx & _ & Hst).
    apply Hst. eapply all_effective; [exact Hr|done|by apply Hv|done|done].
  - intros k -> s Hs <-. destruct (Forall2_elem_r _ _ _ _ HF Hs) as (x & Hx & Hid & Hst).
    rewrite Hst, <- Hid. eapply cycle_ineffective; [exact Hr|done|by apply Hcyc].
Qed.

(** ** A mission from its contract to its approval *)

Definition hex (_ : jsstr) : jsstr := repeat 48%N 64.
Definition level (_ _ : jsstr) : Z := 0.
Definition clock (_ : Z) : jsstr := js "2025-01-01".

Definition named (k : String.string) (type : VerificationType) (command : option jsstr) (deps : list jsstr)
  : MissionCriterionInput :=
  mkCriterionInput (Some (js k)) (js k) None (Some type) command None None (Some deps) None None None
    None None.

Definition contract (criteria : list MissionCriterionInput) (behavior : String.string) : MissionContractInput :=
  mkContractInput (js "ws") (js "w") (js "ship it") None None None (Some criteria) None None None None
    (Some [js "npm test"]) (Some [js "security"]) (Some outcome_verified) true (Some (js behavior)).

Definition two_criteria : list MissionCriterionInput :=
  [named "unit" test (Some (js "npm test")) []; named "review" manual_review None [js "unit"]].

Definition fs : SnapshotInput := mkSnapshotInput None (Some (js "fs:1")) None.
Definition fs_snapshot : Snapshot := (filesystem, js "fs:1").

Definition after {A} (r : res Error (A * ledger)) : ledger :=
  match r with Ok (_, d) => d | Err _ => empty end.
Definition after' (r : res Error ledger) : ledger := match r with Ok d => d | Err _ => empty end.

Section Story.
Context (behavior : String.string).

Definition contracted : ledger :=
  match createMission hex level 10 (js "m") (λ _, js "c") (mkSnapshotInput None None None)
          (contract two_criteria behavior) empty with
  | Some r => after r
  | None => empty
  end.

Definition submission : SubmissionRow :=
  mkSubRow (js "sub") (js "ws") 1 None None None None (Some (js "filesystem")) (Some (js "fs:1")) 2
    None None None sub_pending 11.

Definition submitted : ledger := set_submissions [submission] contracted.

Definition leak (severity : Severity) : ReviewFindingInput :=
  mkFindingInput (Some (js "leak")) None None (Some severity) None None (js "a leak") None (js "fix it")
    (Some [js "npm test"]).

Definition reviewed : ledger :=
  after (addFindings hex 12 (js "mission_m") (λ _, js "x") [leak high] submitted).

Definition claimed : ledger :=
  (updateFindingStatus 13 (js "mission_m")
     [mkFindingUpdate (js "leak") claimed_resolved None None] reviewed).2.

Definition observe (criterion finding : option jsstr) (status : EvidenceStatus) : MissionEvidenceInput :=
  mkEvidenceInput criterion finding (Some (js "sub")) (Some 2%Z) fs None None (Some (js "npm test"))
    status None.

Definition verified_ledger : ledger :=
  after' (recordVerifierEvidence hex 14 (λ n, numeral (Z.of_nat n)) (js "mission_m")
    [observe (Some (js "unit")) (Some (js "leak")) ev_passed] claimed).

Definition attested : ledger :=
  after' (recordReviewerEvidence hex 15 (λ _, js "r") (js "mission_m")
    [observe (Some (js "review")) None ev_passed] verified_ledger).

Definition this_submission : ApprovalInput := mkApprovalInput (Some (js "sub")) fs (Some 2%Z).

Definition resolved_ledger : ledger :=
  after (resolveFinding level 16 (js "mission_m") (js "leak") this_submission attested).

Definition reported : ledger :=
  after' (recordCompletionReport hex 17 (js "p") (js "mission_m") true (JArr [JStr (js "ok")])
    (mkReportInput (js "sub") fs (Some [js "security"]) None) resolved_ledger).

Definition witness_of (status : ObservationStatus) : OutcomeInput :=
  mkOutcomeInput (js "sub") 2 fs_snapshot (js "alice") FIRSTHAND_BASIS (js "a photo") (js "it works")
    status.

Definition observed : ledger :=
  after (recordOutcomeObservation hex 18 (js "o") (js "mission_m") (witness_of confirmed) reported).

End Story.

(** Without its last observation the mission may not be approved; with it, it may. *)
Example approved_at_last :
  canApprove level clock (js "ws") None (observed "works") = Ok (true, [])
  ∧ (fst <$> canApprove level clock (js "ws") None (reported "works")) = Ok false.
Proof. split; vm_compute; reflexivity. Qed.

(** The behaviour is stored as it was declared and observed trimmed, so that no observation is of
    the behaviour of a mission that declared it with space around. *)
Example declared_with_space :
  (fst <$> canApprove level clock (js "ws") None (observed " works")) = Ok false
  ∧ List.map o_expectedBehavior (observations (observed " works")) = [js "works"].
Proof. split; vm_compute; reflexivity. Qed.

(** A finding that is reported again as a blocker gets the severity and stays advisory: it gates
    nothing. *)
Example reported_again_as_blocker :
  let d := after (addFindings hex 13 (js "mission_m") (λ _, js "y") [leak blocker]
                   (after (addFindings hex 12 (js "mission_m") (λ _, js "x") [leak low]
                             (submitted "works")))) in
  List.map (λ f, (f_severity f, f_disposition f, gates f)) (findings d) = [(blocker, advisory, false)].
Proof. vm_compute. reflexivity. Qed.

(** Each chapter of the story is a step. *)
Ltac next previous operation :=
  eapply steps_trans; [exact previous|]; apply steps_one; eapply operation; vm_compute; reflexivity.

Abbreviation story := (steps (step hex level clock) empty).

Lemma contracted_reachable : story (contracted "works").
Proof.
  apply steps_one.
  eapply (mission_created hex level clock empty 10 (js "m") (λ _, js "c") (mkSnapshotInput None None None)
            (contract two_criteria "works")).
  vm_compute. reflexivity.
Qed.

Lemma submitted_reachable : story (submitted "works").
Proof.
  eapply steps_trans; [exact contracted_reachable|]. apply steps_one.
  exact (submissions_changed hex level clock (contracted "works") [submission]).
Qed.

Lemma reviewed_reachable : story (reviewed "works").
Proof.
  next submitted_reachable (findings_added hex level clock (submitted "works") 12 (js "mission_m")
                              (λ _, js "x") [leak high]).
Qed.

Lemma claimed_reachable : story (claimed "works").
Proof.
  next reviewed_reachable (findings_updated hex level clock (reviewed "works") 13 (js "mission_m")
                             [mkFindingUpdate (js "leak") claimed_resolved None None]).
Qed.

Lemma verified_reachable : story (verified_ledger "works").
Proof.
  next claimed_reachable (evidence_recorded hex level clock (claimed "works") 14
                            (λ n, numeral (Z.of_nat n)) (js "mission_m")
                            [observe (Some (js "unit")) (Some (js "leak")) ev_passed] server_test_runner).
Qed.

Lemma attested_reachable : story (attested "works").
Proof.
  next verified_reachable (evidence_recorded hex level clock (verified_ledger "works") 15 (λ _, js "r")
                             (js "mission_m") [observe (Some (js "review")) None ev_passed]
                             reviewer_manual_attestation).
Qed.

Lemma resolved_reachable : story (resolved_ledger "works").
Proof.
  next attested_reachable (finding_resolved hex level clock (attested "works") 16 (js "mission_m")
                             (js "leak") this_submission).
Qed.

Lemma reported_reachable : story (reported "works").
Proof.
  next resolved_reachable (completion_reported hex level clock (resolved_ledger "works") 17 (js "p")
                             (js "mission_m") true (JArr [JStr (js "ok")])
                             (mkReportInput (js "sub") fs (Some [js "security"]) None)).
Qed.

Lemma observed_reachable : story (observed "works").
Proof.
  next reported_reachable (outcome_observed hex level clock (reported "works") 18 (js "o")
                             (js "mission_m") (witness_of confirmed)).
Qed.

Definition the_mission (d : ledger) : Mission :=
  default (new_mission 0 [] [] (contract [] "")) (getMissionByWorkSession (js "ws") d).

Definition the_context : CurrentApprovalContext :=
  mkContext (Some (js "sub")) (Some fs_snapshot) (Some 2%Z).

Lemma approval_means_fulfilment_witness :
  ∃ allowed why, canApprove level clock (js "ws") None (observed "works") = Ok (allowed, why)
    ∧ (allowed = true ↔ fulfilled (observed "works") (the_mission (observed "works")) the_context).
Proof.
  apply (approval_means_fulfilment hex level clock (observed "works") (js "ws") None).
  - exact observed_reachable.
  - vm_compute. reflexivity.
  - vm_compute. reflexivity.
Defined.

(** The agent says everything failed. *)
Definition slander : list MissionEvidenceInput :=
  [observe (Some (js "unit")) (Some (js "leak")) ev_failed; observe (Some (js "review")) None ev_failed].

Lemma agent_claims_decide_nothing_witness :
  ∃ allowed why why',
    canApprove level clock (js "ws") None (observed "works") = Ok (allowed, why)
    ∧ canApprove level clock (js "ws") None
        (after' (recordAgentEvidence hex 20 (λ n, "a" +s numeral (Z.of_nat n)) (js "mission_m") slander
                   (observed "works"))) = Ok (allowed, why').
Proof.
  apply (agent_claims_decide_nothing hex level clock 20 (λ n, "a" +s numeral (Z.of_nat n))
           (js "mission_m") slander (observed "works") _ (js "ws") None
           (the_mission (observed "works")) the_context).
  - exact observed_reachable.
  - vm_compute. reflexivity.
  - vm_compute. reflexivity.
  - vm_compute. reflexivity.
Defined.

Lemma histories_keep_the_ledger_witness : well_kept (observed "works").
Proof. apply (histories_keep_the_ledger hex level clock), observed_reachable. Defined.

(** A rejection after the confirmation *)
Lemma last_observation_decides_witness :
  let d' := after (recordOutcomeObservation hex 18 (js "o2") (js "mission_m") (witness_of rejected)
                     (observed "works")) in
  (evaluateOutcomeObservations clock (observations_of (the_mission (observed "works")) the_context d')
     (observation_context (the_mission (observed "works")) the_context)).1 = true
  ↔ rejected = confirmed ∧ trim "works" = js "works".
Proof.
  intros d'.
  refine (last_observation_decides hex level clock 18 (js "o2") (js "mission_m") (witness_of rejected)
           (observed "works") _ d' (the_mission (observed "works")) the_context _ _ _ _ _ _).
  - exact observed_reachable.
  - vm_compute. reflexivity.
  - vm_compute. reflexivity.
  - vm_compute. reflexivity.
  - discriminate.
  - reflexivity.
Defined.

Lemma contracts_accepted_can_be_met_witness :
  ∃ verdict states,
    validateMissionCriterionContract two_criteria = Some verdict
    ∧ (verdict = Ok tt ↔ well_formed two_criteria)
    ∧ evaluateEffectiveCriteria (criteria (observed "works"))
        (λ x, latestCurrentEvidence level (js "mission_m") (c_id x) the_context (observed "works"))
        the_context = Some states
    ∧ (verdict = Ok tt →
       (∀ x, x ∈ criteria (observed "works") → ∃ e,
          latestCurrentEvidence level (js "mission_m") (c_id x) the_context (observed "works") = Some e
          ∧ e_status e = ev_passed) →
       ∀ s, s ∈ states → status s = verified)
    ∧ ∀ k, verdict = Err (dependency_cycle k) →
        ∀ s, s ∈ states → criterionId s = k → status s ≠ verified.
Proof.
  refine (contracts_accepted_can_be_met 10 (js "mission_m") (λ _, js "c") two_criteria _ _ _ _ _).
  - vm_compute. reflexivity.
  - vm_compute. repeat constructor; set_solver.
Defined.

End MissionProperties.
