(* ===== verification/PeerContracts.v ===== *)
(** * Peer jobs: the contracts ([src/src/peer/jobs/contracts.ts])

    A peer is a machine that pulls work: it claims a job, executes it under a lease and returns a
    receipt.  This file holds the records of a job, of an attempt at it and of the processing of its
    result, the codes of the errors the protocol answers with, and the setters of the fields that
    the store assigns.  A time is its milliseconds; a receipt is the JSON object the peer sent. *)

From S2P Require Import Prelude JsString Json.

(** Two JSON values are compared when a stored record is. *)
#[export] Instance json_eq_dec : EqDecision json.
Proof.
  refine (fix go (v w : json) {struct v} : {v = w} + {v ≠ w} := _).
  refine
    (match v, w with
     | JNull, JNull => left eq_refl
     | JBool b, JBool c => cast_if (decide (b = c))
     | JNum a, JNum b => cast_if (decide (a = b))
     | JFrac a, JFrac b => cast_if (decide (a = b))
     | JStr a, JStr b => cast_if (decide (a = b))
     | JArr l, JArr k => cast_if (@list_eq_dec json go l k)
     | JObj l, JObj k => cast_if (@list_eq_dec _ (@prod_eq_dec _ _ _ go) l k)
     | _, _ => right _
     end); abstract congruence.
Defined.

Module PeerContracts.

(** ** Jobs *)

Inductive PeerJobStatus :=
| pending | claimed | running | awaiting_reconciliation | result_received | staging
| awaiting_review | review_changes_requested | completed | failed | cancelled.

#[export] Instance PeerJobStatus_eq_dec : EqDecision PeerJobStatus.
Proof. solve_decision. Defined.

Inductive SnapshotKind := git | filesystem.
#[export] Instance SnapshotKind_eq_dec : EqDecision SnapshotKind.
Proof. solve_decision. Defined.

Inductive Verdict := approve | changes_requested | reject_verdict.
#[export] Instance Verdict_eq_dec : EqDecision Verdict.
Proof. solve_decision. Defined.

Inductive VerificationStatus := v_passed | v_failed | v_inconclusive | v_not_configured.
#[export] Instance VerificationStatus_eq_dec : EqDecision VerificationStatus.
Proof. solve_decision. Defined.

(** [resultProcessing]: how far the local processing of a result has come *)
Record Processing := mkProcessing {
  receiptSha256 : option jsstr;
  submissionId : option jsstr;
  reviewEpoch : option Z;
  snapshotKind : option SnapshotKind;
  snapshotRef : option jsstr;
  diffSha256 : option jsstr;
  reviewVerdict : option Verdict;
  feedbackId : option jsstr;
  verificationStatus : option VerificationStatus;
  verificationEvidenceSha256 : option jsstr;
  failure : option jsstr;
  retryRevision : option Z;
  p_updatedAt : Z
}.

#[export] Instance Processing_eq_dec : EqDecision Processing.
Proof. solve_decision. Defined.

(** The sessions of a job may be missing in records of an old file. *)
Record PeerJob := mkPeerJob {
  jobId : jsstr;
  peerId : jsstr;
  workSessionId : option jsstr;
  workspaceSessionId : option jsstr;
  schedulerDispatchId : option jsstr;
  repositoryId : jsstr;
  baseRevision : jsstr;
  taskClass : jsstr;
  instructionHash : jsstr;
  instructions : jsstr;
  allowedOutputs : list jsstr;
  maxRuntimeMs : Z;
  maxArtifactBytes : Z;
  status : PeerJobStatus;
  createdAt : Z;
  cancelRequestedAt : option Z;
  terminalAt : option Z;
  terminalReason : option jsstr;
  resultProcessing : option Processing
}.

#[export] Instance PeerJob_eq_dec : EqDecision PeerJob.
Proof. solve_decision. Defined.

Definition set_status (st : PeerJobStatus) (j : PeerJob) : PeerJob :=
  mkPeerJob (jobId j) (peerId j) (workSessionId j) (workspaceSessionId j) (schedulerDispatchId j)
    (repositoryId j) (baseRevision j) (taskClass j) (instructionHash j) (instructions j)
    (allowedOutputs j) (maxRuntimeMs j) (maxArtifactBytes j) st (createdAt j)
    (cancelRequestedAt j) (terminalAt j) (terminalReason j) (resultProcessing j).

Definition set_cancelRequestedAt (at_ : Z) (j : PeerJob) : PeerJob :=
  mkPeerJob (jobId j) (peerId j) (workSessionId j) (workspaceSessionId j) (schedulerDispatchId j)
    (repositoryId j) (baseRevision j) (taskClass j) (instructionHash j) (instructions j)
    (allowedOutputs j) (maxRuntimeMs j) (maxArtifactBytes j) (status j) (createdAt j)
    (Some at_) (terminalAt j) (terminalReason j) (resultProcessing j).

Definition set_terminalAt (at_ : option Z) (j : PeerJob) : PeerJob :=
  mkPeerJob (jobId j) (peerId j) (workSessionId j) (workspaceSessionId j) (schedulerDispatchId j)
    (repositoryId j) (baseRevision j) (taskClass j) (instructionHash j) (instructions j)
    (allowedOutputs j) (maxRuntimeMs j) (maxArtifactBytes j) (status j) (createdAt j)
    (cancelRequestedAt j) at_ (terminalReason j) (resultProcessing j).

(** Status, time and reason of a job that has ended *)
Definition set_terminal (st : PeerJobStatus) (at_ : Z) (reason : jsstr) (j : PeerJob) : PeerJob :=
  mkPeerJob (jobId j) (peerId j) (workSessionId j) (workspaceSessionId j) (schedulerDispatchId j)
    (repositoryId j) (baseRevision j) (taskClass j) (instructionHash j) (instructions j)
    (allowedOutputs j) (maxRuntimeMs j) (maxArtifactBytes j) st (createdAt j)
    (cancelRequestedAt j) (Some at_) (Some reason) (resultProcessing j).

Definition set_processing (p : Processing) (j : PeerJob) : PeerJob :=
  mkPeerJob (jobId j) (peerId j) (workSessionId j) (workspaceSessionId j) (schedulerDispatchId j)
    (repositoryId j) (baseRevision j) (taskClass j) (instructionHash j) (instructions j)
    (allowedOutputs j) (maxRuntimeMs j) (maxArtifactBytes j) (status j) (createdAt j)
    (cancelRequestedAt j) (terminalAt j) (terminalReason j) (Some p).

(** ** Attempts *)

Inductive PeerOutcomeCertainty := not_started | started | unknown | terminal_verified.
#[export] Instance PeerOutcomeCertainty_eq_dec : EqDecision PeerOutcomeCertainty.
Proof. solve_decision. Defined.

Inductive AttemptStatus := active | a_completed | a_failed | expired | superseded.
#[export] Instance AttemptStatus_eq_dec : EqDecision AttemptStatus.
Proof. solve_decision. Defined.

Record PeerAttempt := mkPeerAttempt {
  attemptId : jsstr;
  a_jobId : jsstr;
  claimToken : jsstr;
  claimOwnerPeerId : jsstr;
  generation : nat;
  a_createdAt : Z;
  leaseExpiresAt : Z;
  lastHeartbeatAt : option Z;
  remoteExecutionId : option jsstr;
  executionStartedAt : option Z;
  outcomeCertainty : PeerOutcomeCertainty;
  a_status : AttemptStatus;
  receipt : option json
}.

#[export] Instance PeerAttempt_eq_dec : EqDecision PeerAttempt.
Proof. solve_decision. Defined.

Definition set_a_status (st : AttemptStatus) (a : PeerAttempt) : PeerAttempt :=
  mkPeerAttempt (attemptId a) (a_jobId a) (claimToken a) (claimOwnerPeerId a) (generation a)
    (a_createdAt a) (leaseExpiresAt a) (lastHeartbeatAt a) (remoteExecutionId a)
    (executionStartedAt a) (outcomeCertainty a) st (receipt a).

Definition set_certainty (c : PeerOutcomeCertainty) (a : PeerAttempt) : PeerAttempt :=
  mkPeerAttempt (attemptId a) (a_jobId a) (claimToken a) (claimOwnerPeerId a) (generation a)
    (a_createdAt a) (leaseExpiresAt a) (lastHeartbeatAt a) (remoteExecutionId a)
    (executionStartedAt a) c (a_status a) (receipt a).

Definition set_started (at_ : Z) (remote : option jsstr) (a : PeerAttempt) : PeerAttempt :=
  mkPeerAttempt (attemptId a) (a_jobId a) (claimToken a) (claimOwnerPeerId a) (generation a)
    (a_createdAt a) (leaseExpiresAt a) (lastHeartbeatAt a) remote (Some at_) started (a_status a)
    (receipt a).

Definition set_lease (expires at_ : Z) (a : PeerAttempt) : PeerAttempt :=
  mkPeerAttempt (attemptId a) (a_jobId a) (claimToken a) (claimOwnerPeerId a) (generation a)
    (a_createdAt a) expires (Some at_) (remoteExecutionId a) (executionStartedAt a)
    (outcomeCertainty a) (a_status a) (receipt a).

Definition set_completed (r : json) (a : PeerAttempt) : PeerAttempt :=
  mkPeerAttempt (attemptId a) (a_jobId a) (claimToken a) (claimOwnerPeerId a) (generation a)
    (a_createdAt a) (leaseExpiresAt a) (lastHeartbeatAt a) (remoteExecutionId a)
    (executionStartedAt a) terminal_verified a_completed (Some r).

(** ** Errors

    The codes of [PeerJobError].  [type_error] is an error of the language, [dangling] what
    reading a reference to no object would be. *)
Inductive PeerJobError :=
| peer_jobs_state_corrupt | peer_job_write_conflict | peer_job_attempt_write_conflict
| peer_jobs_persistence_failed | job_not_found | attempt_not_found | attempt_forbidden
| claim_token_mismatch | stale_generation | attempt_not_active | lease_expired | invalid_job_id
| peer_job_id_conflict | job_not_active | not_started_after_started | invalid_lease
| runtime_budget_exceeded | conflicting_result | invalid_result_transition
| result_receipt_conflict | verification_identity_mismatch | peer_job_not_reconcilable
| peer_job_reconciliation_stale | peer_job_result_unavailable | review_identity_mismatch
| job_terminal | cancel_not_requested | cancel_requires_ack | peer_jobs_cap_exceeded
| actor_class_unverified | invalid_actor_class | invalid_manifest_path | path_traversal
| invalid_allowed_outputs | attempt_mismatch | base_revision_mismatch | invalid_manifest
| artifact_count_exceeded | invalid_terminal_state | summary_too_large | duplicate_manifest_path
| output_not_allowed | invalid_file_hash | invalid_file_bytes | artifact_bytes_exceeded
| total_bytes_mismatch | manifest_hash_mismatch | type_error | dangling.

(** ** Reading a JSON object *)

(** [v[k]], [v?.[k]] *)
Definition member (k : jsstr) (v : json) : option json :=
  match v with JObj fields => jfield k fields | _ => None end.

(** [v[k] === text] *)
Definition is_text (v : option json) (text : jsstr) : bool := bool_decide (v = Some (JStr text)).

(** The end a receipt reports *)
Definition succeeded (r : json) : bool := is_text (member (js "terminalState") r) (js "succeeded").
Definition reports_failure (r : json) : bool := is_text (member (js "terminalState") r) (js "failed").

End PeerContracts.
