(* ===== verification/PeerReceiptFacts.v ===== *)
(** * Peer jobs: what an accepted receipt declares

    The theorems about [PeerReceipts]: what a canonical path is, which receipts
    [validateResultReceipt] accepts, and what the canonical text of a manifest identifies. *)

From S2P Require Import Prelude JsString Json Sql CanonicalJson PeerContracts PeerReceipts.

Module PeerReceiptFacts.
Import CanonicalJson PeerContracts PeerReceipts.

(** ** Canonical paths *)

(** The name of an entry of a directory: not empty, neither the directory nor its parent, and
    without separators. *)
Definition entry_name (s : jsstr) : Prop :=
  s ≠ [] ∧ s ≠ (js ".") ∧ s ≠ (js "..") ∧ (SLASH ∉ s) ∧ (92%N ∉ s).

(** A path that names its way down, entry by entry *)
Definition inside (p : jsstr) : Prop :=
  ∃ names, names ≠ [] ∧ Forall entry_name names ∧ p = join "/" names.

Lemma slash_eq : js "/" = [SLASH].
Proof. done. Qed.

Lemma split_units c s l x : l ∈ split c s → x ∈ l → x ∈ s.
Proof.
  intros Hl Hx. apply list_elem_of_lookup in Hl as [i Hi].
  rewrite <- (join_split c s). revert i Hi. generalize (split c s). clear s.
  intros ls. induction ls as [|a ls IH]; intros i Hi; [done|]. destruct i as [|i]; cbn in *.
  - simplify_eq. destruct ls; [done|]. apply elem_of_app. by left.
  - destruct ls as [|b ls]; [done|]. apply elem_of_app. right. right. by apply (IH i).
Qed.

Lemma includesUnit_iff s c : includesUnit s c = true ↔ c ∈ s.
Proof.
  unfold includesUnit. rewrite existsb_exists. setoid_rewrite N.eqb_eq.
  setoid_rewrite <- list_elem_of_In. naive_solver.
Qed.

Lemma segments_names s :
  92%N ∉ s → js ".." ∉ segments s → Forall entry_name (segments s).
Proof.
  intros Hb Hd. apply Forall_forall. intros x Hx. unfold segments in Hx.
  pose proof Hx as [Hin Hn]%elem_of_Lfilter. unfold is_name in Hn. guards.
  split; [by destruct x|]. split; [done|]. split; [by intros ->|]. split.
  - pose proof (split_lines_no SLASH s) as HF. rewrite Forall_forall in HF. by apply HF.
  - intros H92. by apply Hb, (split_units SLASH s x).
Qed.

Lemma segments_join names :
  names ≠ [] → Forall entry_name names → segments (join "/" names) = names.
Proof.
  intros Hn HF. unfold segments. rewrite slash_eq, split_join; [|done|].
  - apply Lfilter_all. intros x Hx. rewrite Forall_forall in HF.
    destruct (HF x Hx) as (H1 & H2 & _). unfold is_name. apply andb_true_iff.
    split; [by apply negb_true_iff, js_eqb_neq|by destruct x].
  - eapply Forall_impl; [done|]. intros x Hx. apply Hx.
Qed.

Lemma collapse_names names : Forall entry_name names → collapse (join "/" names) = join "/" names.
Proof.
  assert (Hno : ∀ a r, SLASH ∉ a → (∀ d, head r = Some d → d ≠ SLASH) →
                collapse r = r → collapse (a ++ r) = a ++ r).
  { induction a as [|c a IH]; intros r Ha Hr E; [done|]. apply not_elem_of_cons in Ha as [Hc Ha].
    cbn. rewrite (proj2 (N.eqb_neq c SLASH)) by done. cbn. by rewrite IH. }
  assert (Hsep : ∀ a r, SLASH ∉ a → (∃ d r', r = d :: r' ∧ d ≠ SLASH) → collapse r = r →
                 collapse (a ++ SLASH :: r) = a ++ SLASH :: r).
  { induction a as [|c a IH]; intros r Ha Hr E.
    - destruct Hr as (d & r' & -> & Hd). cbn [app].
      change (collapse (SLASH :: d :: r')) with
        (if (SLASH =? SLASH)%N && (d =? SLASH)%N then collapse (d :: r')
         else SLASH :: collapse (d :: r')).
      by rewrite E, (proj2 (N.eqb_neq d SLASH)).
    - apply not_elem_of_cons in Ha as [Hc Ha]. cbn.
      rewrite (proj2 (N.eqb_neq c SLASH)) by done. cbn. by rewrite IH. }
  induction 1 as [|a names Ha HF IH]; [done|]. destruct Ha as (Hne & _ & _ & Hs & _).
  destruct names as [|b names].
  - cbn. rewrite <- (app_nil_r a). by apply Hno.
  - change (join "/" (a :: b :: names)) with (a ++ SLASH :: join "/" (b :: names)).
    apply Hsep; [done| |done]. inversion HF as [|? ? (Hb & _ & _ & Hbs & _) _]; subst.
    destruct b as [|d b]; [done|]. exists d. apply not_elem_of_cons in Hbs as [Hd _].
    destruct names; eexists; (split; [reflexivity|congruence]).
Qed.

Lemma join_units names x : x ∈ join "/" names → x = SLASH ∨ ∃ n, n ∈ names ∧ x ∈ n.
Proof.
  induction names as [|a names IH]; cbn; [by intros ?%not_elem_of_nil|]. destruct names as [|b names].
  - intros H. right. exists a. split; [left|done].
  - intros [H|[->|H]%elem_of_cons]%elem_of_app; [right; exists a; split; [left|done]|by left|].
    destruct (IH H) as [?|(n & ? & ?)]; [by left|]. right. exists n. split; [by right|done].
Qed.

Lemma foreign_names names :
  names ≠ [] → Forall entry_name names → is_foreign (join "/" names) = has_drive (join "/" names).
Proof.
  intros Hn HF. unfold is_foreign.
  assert (E1 : startsWith (join "/" names) (js "/") = false).
  { destruct names as [|a names]; [done|]. inversion HF as [|? ? (Ha & _ & _ & Hs & _) _]; subst.
    destruct a as [|c a]; [done|]. apply not_elem_of_cons in Hs as [Hc _].
    assert (H : (SLASH =? c)%N = false) by (apply N.eqb_neq; congruence).
    rewrite slash_eq. destruct names; cbn [join startsWith app]; rewrite H; done. }
  assert (E2 : includesUnit (join "/" names) 92 = false).
  { destruct (includesUnit _ _) eqn:E; [|done]. apply includesUnit_iff, join_units in E.
    destruct E as [?|(n & Hi & Hx)]; [done|]. rewrite Forall_forall in HF.
    by destruct (HF n Hi) as (_ & _ & _ & _ & []). }
  by rewrite E1, E2.
Qed.

Lemma canonicalize_inside raw p : canonicalizeManifestPath raw = Ok p → inside p.
Proof.
  unfold canonicalizeManifestPath. intros H. res_inv H. guards.
  unfold is_foreign in *. guards.
  match goal with E : segments _ ≠ [] |- _ => exists (segments (collapse raw)); split; [done|] end.
  split; [|done]. apply segments_names.
  - rewrite <- includesUnit_iff. congruence.
  - rewrite <- js_in. congruence.
Qed.

(** What canonicalization leaves of a path stays as it is, unless it begins like a drive. *)
Lemma canonicalize_inside_id p :
  inside p → canonicalizeManifestPath p = if has_drive p then Err path_traversal else Ok p.
Proof.
  intros (names & Hn & HF & ->). unfold canonicalizeManifestPath.
  assert (Hne : nonempty (join "/" names) = true).
  { destruct names as [|a [|b names]]; [done|..]; inversion HF as [|? ? (Ha & _) _]; subst;
      by destruct a. }
  rewrite Hne, collapse_names, segments_join, foreign_names by done. cbn.
  destruct (has_drive _); [done|]. cbn.
  rewrite (bool_decide_eq_false_2 (names = [])) by done.
  destruct (existsb (js_eqb "..") names) eqn:E; [|done]. apply js_in in E.
  rewrite Forall_forall in HF. by destruct (HF _ E) as (_ & _ & ? & _).
Qed.

(** A path written from the current directory can keep a drive behind it: what comes out is
    refused when it comes in. *)
Example drive_behind_a_dot :
  canonicalizeManifestPath "./C:/windows" = Ok (js "C:/windows")
  ∧ canonicalizeManifestPath "C:/windows" = Err path_traversal.
Proof. by vm_compute. Qed.

(** ** The files of a receipt *)

(** A path the outputs of a job allow *)
Definition covered (allowed : list jsstr) (p : jsstr) : Prop :=
  ∃ entry, entry ∈ allowed ∧ (entry = js "*" ∨ p = entry ∨ ∃ rest, p = entry ++ SLASH :: rest).

Lemma allowedOutputsMatch_iff allowed p : allowedOutputsMatch allowed p = true ↔ covered allowed p.
Proof.
  unfold allowedOutputsMatch, covered. rewrite existsb_exists. setoid_rewrite <- list_elem_of_In.
  apply exist_proper. intros entry. rewrite !orb_true_iff, !js_eqb_eq, startsWith_app, slash_eq.
  unfold js_app. split.
  - intros [Hin [[?|?]|[t ->]]]; split; auto. right; right. exists t. by rewrite <- app_assoc.
  - intros [Hin [?|[?|[t ->]]]]; split; auto. right. exists t. by rewrite <- app_assoc.
Qed.

(** What a file of the JSON declares: an entry, and the canonical form of its path. *)
Definition declares (file : json) (d : CanonicalFileEntry * jsstr) : Prop :=
  member (js "path") file = Some (JStr (path d.1))
  ∧ canonicalizeManifestPath (path d.1) = Ok d.2
  ∧ member (js "sha256") file = Some (JStr (sha256_ d.1)) ∧ SHA256_PATTERN (sha256_ d.1) = true
  ∧ member (js "bytes") file = Some (JNum (bytes d.1)) ∧ (0 ≤ bytes d.1)%Z.

Definition total (l : list (CanonicalFileEntry * jsstr)) : Z := foldr (λ d n, bytes d.1 + n)%Z 0%Z l.

(** The files declare different paths, none of [seen], all of them allowed. *)
Definition well_declared (allowed seen : list jsstr) (files : list json)
  (l : list (CanonicalFileEntry * jsstr)) : Prop :=
  Forall2 declares files l ∧ NoDup (List.map snd l)
  ∧ Forall (λ d, (d.2 ∉ seen) ∧ covered allowed d.2) l.

Lemma is_text_iff v t : is_text v t = true ↔ v = Some (JStr t).
Proof. apply bool_decide_eq_true. Qed.

Lemma canonicalize_nonempty p q : canonicalizeManifestPath p = Ok q → nonempty p = true.
Proof. unfold canonicalizeManifestPath. intros H. by res_inv H. Qed.

Lemma not_in_existsb k l : existsb (js_eqb k) l = false ↔ k ∉ l.
Proof. rewrite <- js_in. by destruct (existsb (js_eqb k) l). Qed.

Lemma check_file_spec allowed seen t file seen' t' f :
  check_file allowed seen t file = Ok (seen', t', f) ↔
  ∃ p, declares file (f, p) ∧ (p ∉ seen) ∧ covered allowed p ∧ seen' = p :: seen ∧ t' = (t + bytes f)%Z.
Proof.
  unfold check_file. split.
  - intros H. destruct (as_string _) as [p|] eqn:Ep; [|done]. apply as_string_Some in Ep.
    res_inv H. guards. unfold declares. cbn.
    repeat match goal with
    | E : as_string _ = _ |- _ => apply as_string_Some in E
    | E : as_integer _ = _ |- _ => apply as_integer_Some in E
    | E : allowedOutputsMatch _ _ = _ |- _ => apply allowedOutputsMatch_iff in E
    | E : existsb (js_eqb _) seen = _ |- _ => apply not_in_existsb in E
    end. eexists. split_and!; eauto.
  - intros (p & (E1 & E2 & E3 & E4 & E5 & E6) & Hs & Hc & -> & ->). cbn in *. rewrite E1. cbn.
    rewrite (canonicalize_nonempty _ _ E2), E2. cbn. apply not_in_existsb in Hs as ->. cbn.
    apply allowedOutputsMatch_iff in Hc as ->. cbn. rewrite E3. cbn. rewrite E4. cbn. rewrite E5.
    cbn. rewrite (proj2 (Z.ltb_ge _ _)) by done. cbn. by destruct f.
Qed.

Lemma check_files_spec allowed seen t files fs t' :
  check_files allowed seen t files = Ok (fs, t') ↔
  ∃ l, well_declared allowed seen files l ∧ fs = List.map fst l ∧ t' = (t + total l)%Z.
Proof.
  revert seen t fs t'. induction files as [|file files IH]; intros seen t fs t'; cbn [check_files].
  - split.
    + intros [= <- <-]. exists []. split; [by repeat constructor|]. split; [done|cbn; lia].
    + intros (l & [Hl _] & -> & ->). inversion Hl; subst. cbn. do 2 f_equal. lia.
  - rewrite bind_Ok. split.
    + intros ([[seen' t1] f] & Hf & H). apply bind_Ok in H as ([fs' t2] & H & E).
      injection E as <- <-. apply check_file_spec in Hf as (p & Hd & Hs & Hc & -> & ->).
      apply IH in H as (l & (Hl & Hn & HF) & -> & ->). exists ((f, p) :: l).
      rewrite Forall_forall in HF. split; [|split; [done|by rewrite <- Z.add_assoc]]. split_and!.
      * by constructor.
      * cbn. apply NoDup_cons. split; [|done]. intros (d & E & Hin)%elem_of_Lmap.
        destruct (HF d Hin) as [H _]. apply H. rewrite <- E. left.
      * constructor; [done|]. apply Forall_forall. intros d Hin. destruct (HF d Hin) as [H ?].
        split; [|done]. intros ?; apply H; by right.
    + intros (l & (Hl & Hn & HF) & -> & ->). inversion Hl as [|? [f p] ? l' Hd Hl']; subst.
      cbn in Hn. apply NoDup_cons in Hn as [Hp Hn]. inversion HF as [|? ? [Hs Hc] HF']; subst.
      exists (p :: seen, (t + bytes f)%Z, f). split; [apply check_file_spec; by exists p|]. apply bind_Ok.
      exists (List.map fst l', (t + bytes f + total l')%Z). split; [|by rewrite <- Z.add_assoc].
      apply IH. exists l'. split; [|done]. split; [done|]. split; [done|]. rewrite Forall_forall in *.
      intros d Hin. destruct (HF' d Hin) as [H ?]. split; [|done].
      intros [E|?]%elem_of_cons; [|done]. apply Hp, elem_of_Lmap. eauto.
Qed.

(** ** What is accepted *)

Section Accepted.
Context (sha256 : jsstr → jsstr).

(** The text of a manifest whose files are these *)
Definition manifest_text (baseRevision : jsstr) (l : list (CanonicalFileEntry * jsstr)) : jsstr :=
  let files := List.map (λ d, mkFile d.2 (sha256_ d.1) (bytes d.1)) l in
  render (JObj [(js "baseRevision", JStr baseRevision);
                (js "files", JArr (List.map file_json (order_by le_path files)))]).

(** The receipts a job can accept from an attempt *)
Record acceptable (job : PeerJob) (attempt : PeerAttempt) (receipt : json) : Prop := {
  acc_job : member (js "jobId") receipt = Some (JStr (jobId job));
  acc_attempt : member (js "attemptId") receipt = Some (JStr (attemptId attempt));
  acc_actor : member (js "actorClass") receipt = Some (JStr (js "muse_vm_process"));
  acc_revision : member (js "baseRevision") receipt = Some (JStr (baseRevision job));
  acc_state : ∃ t, t ∈ [js "succeeded"; js "failed"; js "cancelled"]
                   ∧ member (js "terminalState") receipt = Some (JStr t);
  acc_summary : ∀ v, member (js "summary") receipt = Some v →
                  ∃ s, v = JStr s ∧ (byteLength s ≤ 4096)%Z;
  acc_files : ∃ files l,
    member (js "files") receipt = Some (JArr files) ∧ length files ≤ 4096
    ∧ well_declared (allowedOutputs job) [] files l
    ∧ Forall (λ d, inside d.2) l
    ∧ (total l ≤ maxArtifactBytes job)%Z
    ∧ member (js "totalBytes") receipt = Some (JNum (total l))
    ∧ member (js "manifestSha256") receipt = Some (JStr (sha256 (manifest_text (baseRevision job) l)))
}.

Lemma canonical_files_declared files l :
  Forall2 declares files l →
  canonical_files (List.map fst l) = Ok (List.map (λ d, mkFile d.2 (sha256_ d.1) (bytes d.1)) l).
Proof.
  induction 1 as [|file [f p] files l (_ & E & _) Hl IH]; [done|]. cbn in *. rewrite E. cbn.
  by rewrite IH.
Qed.

Lemma manifest_declared rev files l :
  Forall2 declares files l →
  manifestSha256 sha256 rev (List.map fst l) = Ok (sha256 (manifest_text rev l)).
Proof.
  intros Hl. unfold manifestSha256, canonicalManifestJson.
  by rewrite (canonical_files_declared files l Hl).
Qed.

Lemma declared_inside allowed seen files l :
  well_declared allowed seen files l → Forall (λ d, inside d.2) l.
Proof.
  intros (Hl & _). apply Forall_forall. intros d Hd.
  destruct (Forall2_elem_r _ _ _ _ Hl Hd) as (file & _ & _ & E & _).
  by eapply canonicalize_inside.
Qed.

Lemma validateActorClass_iff v u :
  validateActorClass v = Ok u ↔ v = Some (JStr (js "muse_vm_process")).
Proof.
  unfold validateActorClass. rewrite <- is_text_iff. destruct u.
  destruct (is_text v _); [done|]. by destruct (is_text v _).
Qed.

Lemma files_of_iff r files : files_of r = Some files ↔ member (js "files") r = Some (JArr files).
Proof. unfold files_of. destruct (member _ r) as [[]|]; naive_solver. Qed.

Lemma check_summary_iff v u :
  check_summary v = Ok u ↔ ∀ w, v = Some w → ∃ s, w = JStr s ∧ (byteLength s ≤ 4096)%Z.
Proof.
  destruct u, v as [w|]; cbn; [|naive_solver].
  split.
  - intros H ? [= <-]. destruct w; try done. exists s. split; [done|]. apply reject_Ok in H.
    unfold MAX_SUMMARY_BYTES in H. guards. lia.
  - intros H. destruct (H w eq_refl) as (s & -> & Hs). apply reject_Ok.
    unfold MAX_SUMMARY_BYTES. apply Z.ltb_ge. lia.
Qed.

Lemma terminal_state_iff v l :
  existsb (is_text v) l = true ↔ ∃ t, t ∈ l ∧ v = Some (JStr t).
Proof.
  rewrite existsb_exists. setoid_rewrite is_text_iff. by setoid_rewrite <- list_elem_of_In.
Qed.

(** C13: A receipt is accepted exactly when it is [acceptable]: it names the job, the attempt and
    the revision the job started from, comes from the one class of actors that may send receipts,
    has one of the three terminal states and a summary within its bound, and declares at most 4096
    files whose canonical paths are all different, stay inside the workspace and are each covered by
    an output the job allows, with well-formed digests and sizes that add up to the declared total,
    within the job's bound, under the digest of the manifest that lists them. *)
Theorem accepted_receipts_are_confined job attempt receipt :
  validateResultReceipt sha256 job attempt receipt = Ok tt ↔ acceptable job attempt receipt.
Proof.
  unfold validateResultReceipt. split.
  - intros H.
    repeat match type of H with _ ≫= _ = Ok _ =>
      let E := fresh "E" in apply bind_Ok in H as (? & E & H) end.
    apply ensure_Ok, andb_true_iff in E as [Ej%is_text_iff Ea%is_text_iff].
    apply validateActorClass_iff in E0. apply ensure_Ok, is_text_iff in E1.
    apply require_Ok, files_of_iff in E2. apply reject_Ok, Nat.ltb_ge in E3.
    apply ensure_Ok, terminal_state_iff in E4. pose proof (proj1 (check_summary_iff _ _) E5) as E5'.
    destruct x6 as [entries t]. apply check_files_spec in E6 as (l & Hl & -> & ->).
    apply bind_Ok in H as (? & E7 & H). apply bind_Ok in H as (? & E8 & H).
    apply bind_Ok in H as (? & E9 & H). rewrite (manifest_declared _ _ _ (proj1 Hl)) in E9.
    injection E9 as <-. apply ensure_Ok, is_text_iff in H. apply reject_Ok, Z.ltb_ge in E7.
    apply ensure_Ok, bool_decide_eq_true in E8.
    constructor; try done. exists x2, l. split_and!; try done. by eapply declared_inside.
  - intros [Hj Ha Hc Hr Hs Hsum (files & l & Hf & Hlen & Hl & _ & Ht & Htot & Hm)].
    rewrite (proj2 (is_text_iff _ _) Hj), (proj2 (is_text_iff _ _) Ha). cbn [andb ensure mbind res_bind].
    rewrite (proj2 (validateActorClass_iff _ tt) Hc), (proj2 (is_text_iff _ _) Hr).
    cbn [ensure mbind res_bind]. rewrite (proj2 (files_of_iff _ _) Hf). cbn [require mbind res_bind].
    rewrite (proj2 (Nat.ltb_ge _ _) Hlen), (proj2 (terminal_state_iff _ _) Hs).
    cbn [reject ensure mbind res_bind]. rewrite (proj2 (check_summary_iff _ tt) Hsum).
    cbn [mbind res_bind].
    rewrite (proj2 (check_files_spec _ _ 0 _ (List.map fst l) (total l))) by (exists l; done).
    cbn [mbind res_bind]. rewrite (proj2 (Z.ltb_ge _ _) Ht), bool_decide_eq_true_2 by done.
    cbn [reject ensure mbind res_bind]. rewrite (manifest_declared _ _ _ (proj1 Hl)).
    cbn [mbind res_bind]. by rewrite (proj2 (is_text_iff _ _) Hm).
Qed.

(** *** The text of a manifest *)

Lemma le_path_total a b : le_path a b = true ∨ le_path b a = true.
Proof.
  unfold le_path. destruct (js_ltb (path b) (path a)) eqn:E; [|by left].
  right. by rewrite js_ltb_asym.
Qed.

Lemma le_path_trans a b c : le_path a b = true → le_path b c = true → le_path a c = true.
Proof. unfold le_path. rewrite !negb_true_iff. intros H1 H2. by eapply js_ltb_cotrans. Qed.

Lemma order_by_path_perm l k :
  NoDup (List.map path l) → order_by le_path l = order_by le_path k ↔ l ≡ₚ k.
Proof.
  intros Hn. split.
  - intros E. by rewrite <- (order_by_perm le_path l), E, order_by_perm.
  - intros Hp. assert (Hn' : NoDup (List.map path (order_by le_path l))).
    { by rewrite (order_by_perm le_path l). }
    assert (Hp' : order_by le_path l ≡ₚ order_by le_path k) by (by rewrite !order_by_perm).
    pose proof (order_by_sorted le_path l le_path_total) as Hl%Sorted_StronglySorted;
      [|exact le_path_trans].
    pose proof (order_by_sorted le_path k le_path_total) as Hk%Sorted_StronglySorted;
      [|exact le_path_trans].
    revert Hl Hk Hp' Hn'. generalize (order_by le_path l) (order_by le_path k). clear.
    intros l. induction l as [|a l IH]; intros k Hl Hk Hp Hn.
    { by apply Permutation_nil in Hp as ->. }
    destruct k as [|b k]; [by apply Permutation_sym, Permutation_nil in Hp|].
    assert (a = b) as ->.
    { assert (Ha : a ∈ b :: k) by (rewrite <- Hp; left).
      assert (Hb : b ∈ a :: l) by (rewrite Hp; left).
      apply elem_of_cons in Ha as [?|Ha]; [done|]. apply elem_of_cons in Hb as [?|Hb]; [done|].
      inversion Hl as [|? ? _ HFl]; inversion Hk as [|? ? _ HFk]; subst.
      rewrite Forall_forall in HFl, HFk. specialize (HFl b Hb). specialize (HFk a Ha).
      unfold le_path in HFl, HFk. apply negb_true_iff in HFl, HFk.
      apply (NoDup_map_inj_on path (a :: l)); [done|left|by right|by apply js_ltb_total]. }
    f_equal. apply Permutation_cons_inv in Hp. inversion Hl; inversion Hk; subst.
    cbn in Hn. apply NoDup_cons in Hn as [_ Hn]. by apply IH.
Qed.

Lemma file_json_inj l k : List.map file_json l = List.map file_json k → l = k.
Proof.
  revert k; induction l as [|[p s b] l IH]; intros [|[p' s' b'] k]; cbn; try done.
  intros [= -> -> -> H]. f_equal. by apply IH.
Qed.

Lemma names_differ (l : list jsstr) : bool_decide (NoDup l) = true → NoDup l.
Proof. apply bool_decide_eq_true_1. Qed.

(** C38: The manifest text, whose digest a receipt must carry, identifies what was made: two
    manifests whose files have different canonical paths have one text exactly when they start from
    the same revision and declare the same canonical files, in whatever order and however their
    paths are spelled. *)
Theorem manifest_text_identifies rev rev' files files' t t' fs fs' :
  canonical_files files = Ok fs → canonical_files files' = Ok fs' → NoDup (List.map path fs) →
  canonicalManifestJson rev files = Ok t → canonicalManifestJson rev' files' = Ok t' →
  t = t' ↔ rev = rev' ∧ fs ≡ₚ fs'.
Proof.
  unfold canonicalManifestJson. intros E E' Hn. rewrite E, E'. cbn [mbind res_bind].
  intros Ht Ht'. apply (f_equal (λ r, match r with Ok x => x | Err _ => [] end)) in Ht, Ht'.
  cbn beta iota in Ht, Ht'. subst t t'.
  rewrite <- order_by_path_perm by done. split; [|by intros [-> ->]].
  intros H. apply (f_equal (λ x, x ++ [])) in H.
  assert (Hwf : ∀ r l, wf_json (JObj [(js "baseRevision", JStr r);
                                      (js "files", JArr (List.map file_json l))])).
  { intros r l. constructor; [apply names_differ; by vm_compute|].
    repeat constructor. apply Forall_forall. intros x (f & -> & _)%elem_of_Lmap.
    unfold file_json. constructor; [apply names_differ; by vm_compute|].
    repeat constructor. }
  apply render_inj in H as [H _]; try done; [|by intros c..]. injection H as -> H.
  split; [done|]. by apply file_json_inj.
Qed.

End Accepted.

(** The same two files, ordered and spelled in two ways *)
Lemma manifest_text_identifies_witness :
  let files := [mkFile "out//b" "2" 2; mkFile "./a" "1" 1] in
  let files' := [mkFile "a" "1" 1; mkFile "out/./b" "2" 2] in
  let fs := [mkFile "out/b" "2" 2; mkFile "a" "1" 1] in
  let fs' := [mkFile "a" "1" 1; mkFile "out/b" "2" 2] in
  let text := default [] (match canonicalManifestJson "base" files with Ok t => Some t | Err _ => None end) in
  (canonical_files files = Ok fs ∧ canonical_files files' = Ok fs'
   ∧ canonicalManifestJson "base" files = Ok text ∧ canonicalManifestJson "base" files' = Ok text)
  ∧ (text = text ↔ js "base" = js "base" ∧ fs ≡ₚ fs').
Proof.
  intros files files' fs fs' text.
  assert (H : canonical_files files = Ok fs ∧ canonical_files files' = Ok fs'
    ∧ canonicalManifestJson "base" files = Ok text ∧ canonicalManifestJson "base" files' = Ok text)
    by (vm_compute; done).
  split; [exact H|]. destruct H as (H1 & H2 & H3 & H4).
  apply (manifest_text_identifies "base" "base" files files' text text fs fs'); try assumption.
  apply names_differ. vm_compute. reflexivity.
Defined.

(** An accepted receipt *)
Example receipt_accepted :
  let job := mkPeerJob "j" "p" None None None "repo" "base" "propose_patch" "h" "do" [js "out"] 1000 10
               claimed 0 None None None None in
  let attempt := mkPeerAttempt "a" "j" "t" "p" 1 0 60 None None None started active None in
  let digest := List.repeat 97%N 64 in
  let sha256 (t : jsstr) := js "digest of " ++ t in
  let text := default [] (match canonicalManifestJson "base" [mkFile "out/x" digest 3] with
                          | Ok t => Some t | Err _ => None end) in
  let receipt total := JObj
    [(js "jobId", JStr "j"); (js "attemptId", JStr "a"); (js "actorClass", JStr "muse_vm_process");
     (js "baseRevision", JStr "base"); (js "manifestSha256", JStr (sha256 text));
     (js "files", JArr [JObj [(js "path", JStr "./out/x"); (js "sha256", JStr digest);
                              (js "bytes", JNum 3)]]);
     (js "totalBytes", JNum total); (js "terminalState", JStr "succeeded")] in
  validateResultReceipt sha256 job attempt (receipt 3%Z) = Ok tt
  ∧ validateResultReceipt sha256 job attempt (receipt 4%Z) = Err total_bytes_mismatch.
Proof. by vm_compute. Qed.

End PeerReceiptFacts.
