(* ===== verification/PeerJobs.v ===== *)
(** * Peer jobs: the store ([src/src/peer/jobs/store.ts])

    The store of one process keeps the jobs and the attempts as objects in memory, and as rows of
    SQLite.  An operation finds objects, assigns their fields, and then writes the objects it
    changed to the database, each write compared with the text that was written before.  When
    writing throws, the objects keep what was assigned.

    - Objects live in two heaps, [jheap] and [aheap]; a reference is an index.  The arrays [jobs]
      and [attempts] and the maps [jobById], [attemptById] and [attemptsByJob] hold references, so
      an object is shared or replaced as in the source.
    - An operation is a computation of [M]: it takes the store to a new store and a result, and
      keeps the new store when it throws.
    - The text [record_json] of a row is the record it encodes, and the other columns of a row are
      the fields of the record, which every write sets from it.
    - [commits] says whether SQLite carries a transaction out; [false] is any error it throws.
      Instants, random ids and tokens are arguments.

    The database outlives the process; [openPeerJobStore] opens a store on it. *)

From S2P Require Import Prelude JsString Json Sql CanonicalJson PeerContracts PeerReceipts.

Module PeerJobs.
Import CanonicalJson PeerContracts PeerReceipts.
Local Open Scope Z_scope.

(** ** State *)

Record database := mkDatabase {
  peer_jobs : list PeerJob;
  peer_job_attempts : list PeerAttempt;
  imported : bool   (* the receipt of the import of the old file *)
}.

Abbreviation ref := nat.

Record store := mkStore {
  jheap : list PeerJob;
  aheap : list PeerAttempt;
  jobs : list ref;
  attempts : list ref;
  jobById : gmap jsstr ref;
  attemptById : gmap jsstr ref;
  attemptsByJob : gmap jsstr (list ref);
  persistedJobs : gmap jsstr PeerJob;
  persistedAttempts : gmap jsstr PeerAttempt;
  stateCorrupted : bool;
  db : database
}.

Definition set_jheap h (s : store) : store :=
  mkStore h (aheap s) (jobs s) (attempts s) (jobById s) (attemptById s) (attemptsByJob s)
    (persistedJobs s) (persistedAttempts s) (stateCorrupted s) (db s).
Definition set_aheap h (s : store) : store :=
  mkStore (jheap s) h (jobs s) (attempts s) (jobById s) (attemptById s) (attemptsByJob s)
    (persistedJobs s) (persistedAttempts s) (stateCorrupted s) (db s).
Definition set_jobs l (s : store) : store :=
  mkStore (jheap s) (aheap s) l (attempts s) (jobById s) (attemptById s) (attemptsByJob s)
    (persistedJobs s) (persistedAttempts s) (stateCorrupted s) (db s).
Definition set_attempts l (s : store) : store :=
  mkStore (jheap s) (aheap s) (jobs s) l (jobById s) (attemptById s) (attemptsByJob s)
    (persistedJobs s) (persistedAttempts s) (stateCorrupted s) (db s).
Definition set_jobById m (s : store) : store :=
  mkStore (jheap s) (aheap s) (jobs s) (attempts s) m (attemptById s) (attemptsByJob s)
    (persistedJobs s) (persistedAttempts s) (stateCorrupted s) (db s).
Definition set_attemptById m (s : store) : store :=
  mkStore (jheap s) (aheap s) (jobs s) (attempts s) (jobById s) m (attemptsByJob s)
    (persistedJobs s) (persistedAttempts s) (stateCorrupted s) (db s).
Definition set_attemptsByJob m (s : store) : store :=
  mkStore (jheap s) (aheap s) (jobs s) (attempts s) (jobById s) (attemptById s) m
    (persistedJobs s) (persistedAttempts s) (stateCorrupted s) (db s).
Definition set_persistedJobs m (s : store) : store :=
  mkStore (jheap s) (aheap s) (jobs s) (attempts s) (jobById s) (attemptById s) (attemptsByJob s)
    m (persistedAttempts s) (stateCorrupted s) (db s).
Definition set_persistedAttempts m (s : store) : store :=
  mkStore (jheap s) (aheap s) (jobs s) (attempts s) (jobById s) (attemptById s) (attemptsByJob s)
    (persistedJobs s) m (stateCorrupted s) (db s).
Definition set_db d (s : store) : store :=
  mkStore (jheap s) (aheap s) (jobs s) (attempts s) (jobById s) (attemptById s) (attemptsByJob s)
    (persistedJobs s) (persistedAttempts s) (stateCorrupted s) d.

(** ** Computations *)

Definition M (A : Type) : Type := store → store * res PeerJobError A.

#[export] Instance M_ret : MRet M := λ A a s, (s, Ok a).
#[export] Instance M_bind : MBind M := λ A B k m s,
  match m s with (s', Ok a) => k a s' | (s', Err e) => (s', Err e) end.

#[export] Instance M_fmap : FMap M := λ A B f m s,
  match m s with (s', Ok a) => (s', Ok (f a)) | (s', Err e) => (s', Err e) end.

Definition throw {A} (e : PeerJobError) : M A := λ s, (s, Err e).
Definition get_store : M store := λ s, (s, Ok s).
Definition modify (f : store → store) : M unit := λ s, (f s, Ok tt).
(** A computation that reads the store only *)
Definition lift {A} (r : res PeerJobError A) : M A := λ s, (s, r).

(** The object a reference leads to *)
Definition job_at (s : store) (l : ref) : option PeerJob := jheap s !! l.
Definition attempt_at (s : store) (l : ref) : option PeerAttempt := aheap s !! l.

Definition read_job (l : ref) : M PeerJob := s ← get_store; lift (require (job_at s l) dangling).
Definition read_attempt (l : ref) : M PeerAttempt :=
  s ← get_store; lift (require (attempt_at s l) dangling).

(** Assignments to the fields of an object *)
Definition assign_job (l : ref) (f : PeerJob → PeerJob) : M unit :=
  modify (λ s, set_jheap (alter f l (jheap s)) s).
Definition assign_attempt (l : ref) (f : PeerAttempt → PeerAttempt) : M unit :=
  modify (λ s, set_aheap (alter f l (aheap s)) s).

(** New objects *)
Definition new_job (j : PeerJob) : M ref :=
  λ s, (set_jheap (jheap s ++ [j]) s, Ok (length (jheap s))).
Definition new_attempt (a : PeerAttempt) : M ref :=
  λ s, (set_aheap (aheap s ++ [a]) s, Ok (length (aheap s))).

(** [candidate.jobId === id], [candidate.attemptId === id] *)
Definition has_job_id (s : store) (k : jsstr) (l : ref) : bool :=
  match job_at s l with Some j => jobId j =s k | None => false end.
Definition has_attempt_id (s : store) (k : jsstr) (l : ref) : bool :=
  match attempt_at s l with Some a => attemptId a =s k | None => false end.

(** [array[array.findIndex(p)] = x], or [array.push(x)] when there is none *)
Fixpoint replace_or_push {A} (p : A → bool) (x : A) (l : list A) : list A :=
  match l with
  | [] => [x]
  | y :: l => if p y then x :: l else y :: replace_or_push p x l
  end.

Definition isTerminalJobStatus (st : PeerJobStatus) : bool :=
  bool_decide (st ∈ [completed; failed; cancelled; review_changes_requested]).

Definition LEASE_MS : Z := 60000.

(** ** Writing to the database *)

(** One record: an insert when this process never wrote it, else an update of the row that still
    holds what it wrote. *)
Definition write_row {A} `{EqDecision A} (key : A → jsstr) (conflict : PeerJobError)
  (persisted : gmap jsstr A) (rows : list A) (record : A) : res PeerJobError (list A) :=
  match persisted !! key record with
  | None =>
      _ ← reject (bool_decide (is_Some (by_key key (key record) rows))) peer_jobs_persistence_failed;
      Ok (insert_row record rows)
  | Some previous =>
      let '(rows', changes) :=
        update_where (λ r, bool_decide (key r = key record ∧ r = previous)) (λ _, record) rows in
      _ ← ensure (changes =? 1)%nat conflict;
      Ok rows'
  end.

Definition write_job (s : store) (rows : list PeerJob) (l : ref) : res PeerJobError (list PeerJob) :=
  job ← require (job_at s l) dangling;
  write_row jobId peer_job_write_conflict (persistedJobs s) rows job.

Definition write_attempt (s : store) (rows : list PeerAttempt) (l : ref)
  : res PeerJobError (list PeerAttempt) :=
  attempt ← require (attempt_at s l) dangling;
  write_row attemptId peer_job_attempt_write_conflict (persistedAttempts s) rows attempt.

Fixpoint write_all {A} (write : list A → ref → res PeerJobError (list A)) (rows : list A)
  (ls : list ref) : res PeerJobError (list A) :=
  match ls with
  | [] => Ok rows
  | l :: ls => rows' ← write rows l; write_all write rows' ls
  end.

(** The transaction: the database after it, or the error it rolls back with *)
Definition transaction (commits : bool) (s : store) (changedJobs changedAttempts : list ref)
  : res PeerJobError database :=
  if commits then
    js ← write_all (write_job s) (peer_jobs (db s)) changedJobs;
    ats ← write_all (write_attempt s) (peer_job_attempts (db s)) changedAttempts;
    Ok (mkDatabase js ats (imported (db s)))
  else Err peer_jobs_persistence_failed.

(** What the process remembers of a write *)
Definition remember_job (s : store) (l : ref) : store :=
  match job_at s l with
  | Some job =>
      set_jobById (<[jobId job := l]> (jobById s))
        (set_persistedJobs (<[jobId job := job]> (persistedJobs s)) s)
  | None => s
  end.

Definition push_attempt (s : store) (attempt : PeerAttempt) (l : ref) : list ref :=
  let rows := default [] (attemptsByJob s !! a_jobId attempt) in
  if existsb (has_attempt_id s (attemptId attempt)) rows then rows else rows ++ [l].

Definition remember_attempt (s : store) (l : ref) : store :=
  match attempt_at s l with
  | Some attempt =>
      set_attemptsByJob (<[a_jobId attempt := push_attempt s attempt l]> (attemptsByJob s))
        (set_attemptById (<[attemptId attempt := l]> (attemptById s))
           (set_persistedAttempts (<[attemptId attempt := attempt]> (persistedAttempts s)) s))
  | None => s
  end.

Definition persist (commits : bool) (changedJobs changedAttempts : list ref) : M unit :=
  s ← get_store;
  if stateCorrupted s then throw peer_jobs_state_corrupt
  else
    d ← lift (transaction commits s changedJobs changedAttempts);
    modify (λ s, foldl remember_attempt (foldl remember_job (set_db d s) changedJobs) changedAttempts).

(** ** Finding jobs and attempts *)

Definition jobOrThrow (k : jsstr) : M ref :=
  s ← get_store; lift (require (jobById s !! k) job_not_found).

Definition jobGeneration (s : store) (k : jsstr) : nat :=
  length (default [] (attemptsByJob s !! k)).

(** The fence: the attempt is the newest of its job, and the caller holds its claim. *)
Definition fencedAttempt (job : jsstr) (attempt token peer : jsstr) : M ref :=
  _ ← jobOrThrow job;
  s ← get_store;
  l ← lift (require (attemptById s !! attempt) attempt_not_found);
  a ← read_attempt l;
  _ ← lift (ensure (a_jobId a =s job) attempt_not_found);
  _ ← lift (ensure (claimOwnerPeerId a =s peer) attempt_forbidden);
  _ ← lift (ensure (claimToken a =s token) claim_token_mismatch);
  _ ← lift (ensure (generation a =? jobGeneration s job)%nat stale_generation);
  mret l.

Definition assertActiveAttemptForFence (a : PeerAttempt) (now : Z) : M unit :=
  _ ← lift (ensure (bool_decide (a_status a = active)) attempt_not_active);
  lift (reject (leaseExpiresAt a <=? now) lease_expired).

(** What every fenced operation begins with: the attempt in the array, its job, and the fence. *)
Definition fenced (attempt token peer : jsstr) : M (ref * ref) :=
  s ← get_store;
  la ← lift (require (List.find (has_attempt_id s attempt) (attempts s)) attempt_not_found);
  a ← read_attempt la;
  lj ← jobOrThrow (a_jobId a);
  _ ← fencedAttempt (a_jobId a) attempt token peer;
  mret (lj, la).

(** [return { job, attempt }] *)
Definition both (lj la : ref) : M (PeerJob * PeerAttempt) :=
  j ← read_job lj; a ← read_attempt la; mret (j, a).

(** The status of a job whose attempt ended without a receipt: only a denial of the peer makes it
    pending again. *)
Definition after_expiry (a : PeerAttempt) : PeerJobStatus :=
  if bool_decide (outcomeCertainty a = not_started) then pending else awaiting_reconciliation.

(** ** Creating jobs *)

(** The argument of [createJob] *)
Record JobInput := mkInput {
  i_jobId : option jsstr;
  i_peerId : jsstr;
  i_workSessionId : option jsstr;
  i_workspaceSessionId : option jsstr;
  i_schedulerDispatchId : option jsstr;
  i_repositoryId : jsstr;
  i_baseRevision : jsstr;
  i_taskClass : jsstr;
  i_instructionHash : jsstr;
  i_instructions : jsstr;
  i_allowedOutputs : list jsstr;
  i_maxRuntimeMs : Z;
  i_maxArtifactBytes : Z
}.

Definition hex_or_dash (c : N) : bool :=
  ((48 <=? c) && (c <=? 57) || (97 <=? c) && (c <=? 102) || (65 <=? c) && (c <=? 70) || (c =? 45))%N.

(** [/^job_[0-9a-f-]{36}$/i] *)
Definition is_job_id (k : jsstr) : bool :=
  (List.map lower_unit (take 4 k) =s "job_") && (length k =? 40)%nat && forallb hex_or_dash (drop 4 k).

(** A field that may be undefined *)
Definition field (k : jsstr) (v : option jsstr) : list (jsstr * json) :=
  match v with Some s => [(k, JStr s)] | None => [] end.

(** The immutable content of a request *)
Definition identity (j : PeerJob) : json :=
  JObj ([(js "peerId", JStr (peerId j))]
        ++ field (js "workSessionId") (workSessionId j)
        ++ field (js "workspaceSessionId") (workspaceSessionId j)
        ++ field (js "schedulerDispatchId") (schedulerDispatchId j)
        ++ [(js "repositoryId", JStr (repositoryId j)); (js "baseRevision", JStr (baseRevision j));
            (js "taskClass", JStr (taskClass j)); (js "instructionHash", JStr (instructionHash j));
            (js "instructions", JStr (instructions j));
            (js "allowedOutputs", JArr (List.map JStr (allowedOutputs j)));
            (js "maxRuntimeMs", JNum (maxRuntimeMs j));
            (js "maxArtifactBytes", JNum (maxArtifactBytes j))]).

Definition job_of_input (i : JobInput) (k : jsstr) (outputs : list jsstr) (now : Z) : PeerJob :=
  mkPeerJob k (i_peerId i) (i_workSessionId i) (i_workspaceSessionId i) (i_schedulerDispatchId i)
    (i_repositoryId i) (i_baseRevision i) (i_taskClass i) (i_instructionHash i) (i_instructions i)
    outputs (i_maxRuntimeMs i) (i_maxArtifactBytes i) pending now None None None None.

Definition createJob (commits : bool) (uuid : jsstr) (now : Z) (i : JobInput) : M PeerJob :=
  s ← get_store;
  if stateCorrupted s then throw peer_jobs_state_corrupt
  else
    let k := default ("job_" +s uuid) (i_jobId i) in
    _ ← lift (ensure (is_job_id k) invalid_job_id);
    outputs ← lift (normalizeAllowedOutputs (JArr (List.map JStr (i_allowedOutputs i))));
    let job := job_of_input i k outputs now in
    match jobById s !! k with
    | Some l =>
        prior ← read_job l;
        if canonicalJson (identity prior) =s canonicalJson (identity job) then mret prior
        else throw peer_job_id_conflict
    | None =>
        l ← new_job job;
        _ ← modify (λ s, set_jobs (jobs s ++ [l]) s);
        _ ← persist commits [l] [];
        mret job
    end.

(** ** Claiming *)

(** [order by created_at, job_id] *)
Definition le_job (a b : PeerJob) : bool :=
  (createdAt a <? createdAt b) || (createdAt a =? createdAt b) && negb (js_ltb (jobId b) (jobId a)).

Definition claimable (peer : jsstr) (filter : option jsstr) (j : PeerJob) : bool :=
  (peerId j =s peer) && bool_decide (status j = pending)
  && negb (bool_decide (is_Some (cancelRequestedAt j)))
  && bool_decide (is_Some (workSessionId j)) && bool_decide (is_Some (workspaceSessionId j))
  && match filter with Some class => taskClass j =s class | None => true end.

Definition attempts_of (k : jsstr) (d : database) : list PeerAttempt :=
  select_where (λ a, a_jobId a =s k) (peer_job_attempts d).

(** The record read from the row becomes the object of the job in memory. *)
Definition adopt_job (job : PeerJob) : M ref :=
  l ← new_job job;
  _ ← modify (λ s, set_jobById (<[jobId job := l]> (jobById s)) s);
  _ ← modify (λ s, set_jobs (replace_or_push (has_job_id s (jobId job)) l (jobs s)) s);
  mret l.

Definition claimNextJob (commits : bool) (attempt token : jsstr) (peer : jsstr) (now : Z)
  (filter : option jsstr) : M (option (PeerJob * PeerAttempt)) :=
  s ← get_store;
  match first_by le_job (select_where (claimable peer filter) (peer_jobs (db s))) with
  | None => mret None
  | Some job =>
      lj ← adopt_job job;
      la ← new_attempt
             (mkPeerAttempt attempt (jobId job) token peer
                (S (length (attempts_of (jobId job) (db s)))) now (now + LEASE_MS) None None None
                unknown active None);
      _ ← assign_job lj (set_status claimed);
      _ ← modify (λ s, set_attempts (attempts s ++ [la]) s);
      _ ← persist commits [lj] [la];
      Some <$> both lj la
  end.

(** ** Reports of the peer *)

Definition expire (commits : bool) (lj la : ref) (a : PeerAttempt) : M unit :=
  _ ← assign_attempt la (set_a_status expired);
  _ ← assign_job lj (set_status (after_expiry a));
  persist commits [lj] [la].

Definition markStarted (commits : bool) (attempt token peer : jsstr) (now : Z)
  (remote : option jsstr) : M (PeerJob * PeerAttempt) :=
  '(lj, la) ← fenced attempt token peer;
  a ← read_attempt la;
  _ ← lift (ensure (bool_decide (a_status a = active)) attempt_not_active);
  if leaseExpiresAt a <=? now then
    _ ← expire commits lj la a; both lj la
  else
    _ ← assign_attempt la (set_started now remote);
    _ ← assign_job lj (set_status running);
    _ ← persist commits [lj] [la];
    both lj la.

Definition markNotStarted (commits : bool) (attempt token peer : jsstr) (now : Z)
  : M (PeerJob * PeerAttempt) :=
  '(lj, la) ← fenced attempt token peer;
  a ← read_attempt la;
  _ ← assertActiveAttemptForFence a now;
  _ ← lift (reject (bool_decide (is_Some (executionStartedAt a))) not_started_after_started);
  _ ← assign_attempt la (set_certainty not_started);
  _ ← persist commits [lj] [la];
  both lj la.

(** [leaseMs] is [None] when it is not finite, and whole milliseconds otherwise. *)
Definition renewLease (commits : bool) (attempt token peer : jsstr) (now : Z) (leaseMs : option Z)
  : M (PeerJob * PeerAttempt) :=
  leaseMs ← lift (require leaseMs invalid_lease);
  _ ← lift (reject ((leaseMs <=? 0) || (600000 <? leaseMs)) invalid_lease);
  '(lj, la) ← fenced attempt token peer;
  j ← read_job lj;
  a ← read_attempt la;
  let startedAt := default (a_createdAt a) (executionStartedAt a) in
  let remaining := maxRuntimeMs j - (now - startedAt) in
  if remaining <=? 0 then
    _ ← expire commits lj la a; throw runtime_budget_exceeded
  else if now <? leaseExpiresAt a then
    _ ← assign_attempt la (set_lease (now + Z.min leaseMs remaining) now);
    _ ← persist commits [lj] [la];
    both lj la
  else
    _ ← assertActiveAttemptForFence a now;
    _ ← assign_attempt la (set_lease (now + leaseMs) now);
    _ ← persist commits [lj] [la];
    both lj la.

(** [receipt.summary !== undefined ? prefix + ": " + receipt.summary.slice(0, 200) : prefix]; the
    caller has checked that a summary is a string. *)
Definition reported (prefix : jsstr) (r : json) : res PeerJobError jsstr :=
  match member (js "summary") r with
  | None => Ok prefix
  | Some (JStr text) => Ok (prefix +s ": " +s take 200 text)
  | Some _ => Err type_error
  end.

Definition completeAttempt (commits : bool) (attempt token peer : jsstr) (r : json) (now : Z)
  : M (PeerJob * PeerAttempt * bool) :=
  '(lj, la) ← fenced attempt token peer;
  a ← read_attempt la;
  if bool_decide (a_status a = a_completed) then
    match receipt a with
    | Some stored =>
        _ ← lift (ensure (canonicalJson stored =s canonicalJson r) conflicting_result);
        '(j, a) ← both lj la; mret (j, a, true)
    | None => throw conflicting_result
    end
  else
    _ ← assertActiveAttemptForFence a now;
    _ ← assign_attempt la (set_completed r);
    _ ← assign_job lj (set_terminalAt None);
    _ ← (if succeeded r then assign_job lj (set_status result_received)
         else
           let st := if reports_failure r then failed else cancelled in
           let prefix := if reports_failure r then js "peer_reported_failure"
                         else js "peer_reported_cancelled" in
           _ ← assign_job lj (set_status st);
           _ ← assign_job lj (set_terminalAt (Some now));
           reason ← lift (reported prefix r);
           assign_job lj (set_terminal st now reason));
    _ ← persist commits [lj] [la];
    '(j, a) ← both lj la; mret (j, a, false).

Definition failAttempt (commits : bool) (attempt token peer reason : jsstr) (now : Z)
  : M (PeerJob * PeerAttempt) :=
  '(lj, la) ← fenced attempt token peer;
  a ← read_attempt la;
  _ ← assertActiveAttemptForFence a now;
  _ ← assign_attempt la (set_a_status a_failed);
  _ ← assign_job lj (set_status
         (if bool_decide (outcomeCertainty a = started ∨ outcomeCertainty a = unknown)
          then awaiting_reconciliation else pending));
  _ ← persist commits [lj] [la];
  both lj la.

(** ** The result of a job *)

Definition no_processing (now : Z) : Processing :=
  mkProcessing None None None None None None None None None None None None now.

(** [{ ...job.resultProcessing, updatedAt }], for the fields that the operations assign *)
Definition with_receipt (sha : jsstr) (now : Z) (p : Processing) : Processing :=
  mkProcessing (Some sha) (submissionId p) (reviewEpoch p) (snapshotKind p) (snapshotRef p)
    (diffSha256 p) (reviewVerdict p) (feedbackId p) (verificationStatus p)
    (verificationEvidenceSha256 p) None (retryRevision p) now.
Definition with_verification (st : option VerificationStatus) (evidence : option jsstr) (now : Z)
  (p : Processing) : Processing :=
  mkProcessing (receiptSha256 p) (submissionId p) (reviewEpoch p) (snapshotKind p) (snapshotRef p)
    (diffSha256 p) (reviewVerdict p) (feedbackId p) st evidence (failure p) (retryRevision p) now.
Definition with_failure (reason : jsstr) (now : Z) (p : Processing) : Processing :=
  mkProcessing (receiptSha256 p) (submissionId p) (reviewEpoch p) (snapshotKind p) (snapshotRef p)
    (diffSha256 p) (reviewVerdict p) (feedbackId p) (verificationStatus p)
    (verificationEvidenceSha256 p) (Some reason) (retryRevision p) now.
Definition with_retry (now : Z) (p : Processing) : Processing :=
  mkProcessing (receiptSha256 p) (submissionId p) (reviewEpoch p) (snapshotKind p) (snapshotRef p)
    (diffSha256 p) (reviewVerdict p) (feedbackId p) (verificationStatus p)
    (verificationEvidenceSha256 p) None (Some (default 0 (retryRevision p) + 1)) now.
Definition with_verdict (feedback : jsstr) (v : Verdict) (now : Z) (p : Processing) : Processing :=
  mkProcessing (receiptSha256 p) (submissionId p) (reviewEpoch p) (snapshotKind p) (snapshotRef p)
    (diffSha256 p) (Some v) (Some feedback) (verificationStatus p)
    (verificationEvidenceSha256 p) (failure p) (retryRevision p) now.

Definition processing (now : Z) (j : PeerJob) : Processing :=
  default (no_processing now) (resultProcessing j).

Definition markStaging (commits : bool) (k : jsstr) (sha : jsstr) (now : Z) : M PeerJob :=
  lj ← jobOrThrow k;
  j ← read_job lj;
  if bool_decide (status j ∈ [awaiting_review; completed]) then mret j
  else
    _ ← lift (ensure (bool_decide (status j ∈ [result_received; staging])) invalid_result_transition);
    let bound := p ← resultProcessing j; receiptSha256 p in
    _ ← lift (reject (truthy bound && negb (bool_decide (bound = Some sha))) result_receipt_conflict);
    _ ← assign_job lj (set_status staging);
    _ ← assign_job lj (λ j, set_processing (with_receipt sha now (processing now j)) j);
    _ ← persist commits [lj] [];
    read_job lj.

(** The argument of [markAwaitingReview] *)
Record ReviewInput := mkReviewInput {
  ri_receiptSha256 : jsstr;
  ri_submissionId : jsstr;
  ri_reviewEpoch : Z;
  ri_snapshotKind : SnapshotKind;
  ri_snapshotRef : jsstr;
  ri_diffSha256 : jsstr;
  ri_verificationStatus : option VerificationStatus;
  ri_verificationEvidenceSha256 : option jsstr
}.

Definition processing_of_input (i : ReviewInput) (now : Z) : Processing :=
  mkProcessing (Some (ri_receiptSha256 i)) (Some (ri_submissionId i)) (Some (ri_reviewEpoch i))
    (Some (ri_snapshotKind i)) (Some (ri_snapshotRef i)) (Some (ri_diffSha256 i)) None None
    (ri_verificationStatus i) (ri_verificationEvidenceSha256 i) None None now.

(** The processing is about this submission, and this epoch. *)
Definition is_submission (j : PeerJob) (submission : jsstr) : bool :=
  bool_decide ((p ← resultProcessing j; submissionId p) = Some submission).
Definition is_epoch (j : PeerJob) (epoch : Z) : bool :=
  bool_decide ((p ← resultProcessing j; reviewEpoch p) = Some epoch).

Definition markAwaitingReview (commits : bool) (k : jsstr) (i : ReviewInput) (now : Z) : M PeerJob :=
  lj ← jobOrThrow k;
  j ← read_job lj;
  if bool_decide (status j = awaiting_review) && is_submission j (ri_submissionId i) then
    _ ← (if bool_decide ((p ← resultProcessing j; verificationStatus p) = None)
            && bool_decide (is_Some (ri_verificationStatus i))
         then
           _ ← assign_job lj (λ j, set_processing
                 (with_verification (ri_verificationStatus i) (ri_verificationEvidenceSha256 i) now
                    (processing now j)) j);
           persist commits [lj] []
         else mret tt);
    read_job lj
  else
    _ ← lift (ensure (bool_decide (status j = staging)
                      && bool_decide ((p ← resultProcessing j; receiptSha256 p)
                                      = Some (ri_receiptSha256 i))) invalid_result_transition);
    _ ← assign_job lj (set_status awaiting_review);
    _ ← assign_job lj (set_processing (processing_of_input i now));
    _ ← persist commits [lj] [];
    read_job lj.

Definition recordVerification (commits : bool) (k : jsstr) (submission : jsstr) (epoch : Z)
  (st : VerificationStatus) (evidence : option jsstr) (now : Z) : M PeerJob :=
  lj ← jobOrThrow k;
  j ← read_job lj;
  _ ← lift (ensure (bool_decide (status j = awaiting_review) && is_submission j submission
                    && is_epoch j epoch) verification_identity_mismatch);
  _ ← assign_job lj (λ j, set_processing
        (with_verification (Some st) evidence now (processing now j)) j);
  _ ← persist commits [lj] [];
  read_job lj.

Definition markAwaitingReconciliation (commits : bool) (k : jsstr) (reason : jsstr) (now : Z)
  : M PeerJob :=
  lj ← jobOrThrow k;
  j ← read_job lj;
  if bool_decide (status j = awaiting_review) || isTerminalJobStatus (status j) then mret j
  else
    _ ← assign_job lj (set_status awaiting_reconciliation);
    _ ← assign_job lj (λ j, set_processing (with_failure (take 1000 reason) now (processing now j)) j);
    _ ← persist commits [lj] [];
    read_job lj.

(** The newest attempt of the job in memory whose receipt reports success *)
Definition has_success (s : store) (l : ref) : bool :=
  match attempt_at s l with
  | Some a => match receipt a with Some r => succeeded r | None => false end
  | None => false
  end.

Definition retryResultProcessing (commits : bool) (k : jsstr) (expectedFailure : jsstr) (now : Z)
  : M PeerJob :=
  lj ← jobOrThrow k;
  j ← read_job lj;
  _ ← lift (ensure (bool_decide (status j = awaiting_reconciliation)) peer_job_not_reconcilable);
  _ ← lift (ensure (nonempty expectedFailure
                    && bool_decide ((p ← resultProcessing j; failure p) = Some expectedFailure))
              peer_job_reconciliation_stale);
  s ← get_store;
  _ ← lift (require (List.find (has_success s) (rev (default [] (attemptsByJob s !! k))))
              peer_job_result_unavailable);
  _ ← assign_job lj (set_status result_received);
  _ ← assign_job lj (λ j, set_processing (with_retry now (processing now j)) j);
  _ ← persist commits [lj] [];
  read_job lj.

Definition verdict_status (v : Verdict) : PeerJobStatus :=
  match v with
  | approve => completed | reject_verdict => failed | changes_requested => review_changes_requested
  end.
Definition verdict_reason (v : Verdict) : jsstr :=
  match v with
  | approve => "reviewer_approved" | reject_verdict => "reviewer_rejected"
  | changes_requested => "reviewer_requested_changes"
  end.

Definition finalizeReview (commits : bool) (k : jsstr) (submission : jsstr) (epoch : Z)
  (feedback : jsstr) (v : Verdict) (now : Z) : M PeerJob :=
  lj ← jobOrThrow k;
  j ← read_job lj;
  if isTerminalJobStatus (status j) then mret j
  else
    _ ← lift (ensure (bool_decide (status j = awaiting_review) && is_submission j submission
                      && is_epoch j epoch) review_identity_mismatch);
    _ ← assign_job lj (λ j, set_processing (with_verdict feedback v now (processing now j)) j);
    _ ← assign_job lj (set_terminal (verdict_status v) now (verdict_reason v));
    _ ← persist commits [lj] [];
    read_job lj.

(** ** Cancellation *)

Definition requestCancel (commits : bool) (k : jsstr) (now : Z) : M PeerJob :=
  lj ← jobOrThrow k;
  j ← read_job lj;
  _ ← lift (reject (isTerminalJobStatus (status j)) job_terminal);
  if bool_decide (is_Some (cancelRequestedAt j)) then mret j
  else
    _ ← assign_job lj (set_cancelRequestedAt now);
    _ ← persist commits [lj] [];
    read_job lj.

(** [[...rows].sort((a, b) => b.generation - a.generation)[0]] *)
Definition newest_attempt (s : store) (k : jsstr) : option PeerAttempt :=
  first_by (λ a b, (generation b <=? generation a)%nat)
    (omap (attempt_at s) (default [] (attemptsByJob s !! k))).

Definition cancelAck (commits : bool) (attempt token peer : jsstr) (now : Z)
  : M (PeerJob * PeerAttempt) :=
  '(lj, la) ← fenced attempt token peer;
  j ← read_job lj;
  a ← read_attempt la;
  _ ← lift (ensure (bool_decide (is_Some (cancelRequestedAt j))) cancel_not_requested);
  s ← get_store;
  let reconciled :=
    bool_decide (a_status a ∈ [expired; superseded])
    && bool_decide (attemptId <$> newest_attempt s (jobId j) = Some (attemptId a))
    && bool_decide (outcomeCertainty a ∈ [started; unknown]) in
  _ ← lift (ensure (bool_decide (a_status a = active) || reconciled) attempt_not_active);
  _ ← assign_attempt la (set_a_status a_failed);
  _ ← assign_job lj (set_terminal cancelled now "cancel_acknowledged");
  _ ← persist commits [lj] [la];
  both lj la.

Definition is_active_of (s : store) (k : jsstr) (l : ref) : bool :=
  match attempt_at s l with
  | Some a => (a_jobId a =s k) && bool_decide (a_status a = active)
  | None => false
  end.

Definition cancelUnclaimedJob (commits : bool) (k : jsstr) (now : Z) : M PeerJob :=
  lj ← jobOrThrow k;
  j ← read_job lj;
  _ ← lift (reject (isTerminalJobStatus (status j)) job_terminal);
  _ ← lift (ensure (bool_decide (status j = pending)) cancel_requires_ack);
  s ← get_store;
  _ ← lift (reject (existsb (is_active_of s k) (attempts s)) cancel_requires_ack);
  _ ← assign_job lj (set_terminal cancelled now "cancel_requested_unclaimed");
  _ ← persist commits [lj] [];
  read_job lj.

(** ** Expired leases *)

Definition le_lease (a b : PeerAttempt) : bool :=
  (leaseExpiresAt a <? leaseExpiresAt b)
  || (leaseExpiresAt a =? leaseExpiresAt b) && negb (js_ltb (attemptId b) (attemptId a)).

Definition is_lapsed (now : Z) (a : PeerAttempt) : bool :=
  bool_decide (a_status a = active) && (leaseExpiresAt a <=? now).

Definition requeueJobAfterExpiredAttempt (lj la : ref) : M unit :=
  _ ← assign_attempt la (set_a_status expired);
  a ← read_attempt la;
  assign_job lj (set_status (after_expiry a)).

(** One row: the record becomes the object of the attempt in memory, and its job is requeued or
    left to reconciliation when it was being worked on. *)
Definition reap_row (a : PeerAttempt) : M (option (ref * ref)) :=
  la ← new_attempt a;
  _ ← modify (λ s, set_attempts (replace_or_push (has_attempt_id s (attemptId a)) la (attempts s)) s);
  _ ← modify (λ s, set_attemptById (<[attemptId a := la]> (attemptById s)) s);
  s ← get_store;
  match jobById s !! a_jobId a with
  | None => mret None
  | Some lj =>
      j ← read_job lj;
      if bool_decide (status j ∈ [claimed; running]) then
        _ ← requeueJobAfterExpiredAttempt lj la; mret (Some (lj, la))
      else mret None
  end.

Fixpoint reap_rows (rows : list PeerAttempt) : M (list (ref * ref)) :=
  match rows with
  | [] => mret []
  | a :: rows =>
      hit ← reap_row a; hits ← reap_rows rows;
      mret (match hit with Some x => x :: hits | None => hits end)
  end.

(** [[...new Map(reaped.map(({ job }) => [job.jobId, job])).values()]] *)
Definition distinct_jobs (s : store) (ls : list ref) : list ref :=
  foldl (λ acc l, replace_or_push (λ y, bool_decide (jobId <$> job_at s y = jobId <$> job_at s l)) l acc)
    [] ls.

Fixpoint both_all (hits : list (ref * ref)) : M (list (PeerJob * PeerAttempt)) :=
  match hits with
  | [] => mret []
  | (lj, la) :: hits => x ← both lj la; xs ← both_all hits; mret (x :: xs)
  end.

Definition reapExpiredLeases (commits : bool) (now : Z) (max : Z) : M (list (PeerJob * PeerAttempt)) :=
  s ← get_store;
  let rows := limit (Z.to_nat (Z.max 1 (Z.min max 500)))
                (order_by le_lease (select_where (is_lapsed now) (peer_job_attempts (db s)))) in
  hits ← reap_rows rows;
  s ← get_store;
  _ ← (match hits with
       | [] => mret tt
       | _ => persist commits (distinct_jobs s (List.map fst hits)) (List.map snd hits)
       end);
  both_all hits.

(** ** Starting *)

(** What a restart makes of an attempt: no process holds its lease any more. *)
Definition orphaned (now : Z) (a : PeerAttempt) : PeerAttempt :=
  set_a_status (if now <? leaseExpiresAt a then superseded else expired) a.

Definition is_active_ref (s : store) (l : ref) : bool :=
  match attempt_at s l with Some a => bool_decide (a_status a = active) | None => false end.

(** [now i] is the clock when attempt [i] is looked at. *)
Fixpoint orphan_all (now : nat → Z) (ls : list ref) : M (list ref) :=
  match ls with
  | [] => mret []
  | l :: ls =>
      s ← get_store;
      if is_active_ref s l then
        _ ← assign_attempt l (orphaned (now l)); changed ← orphan_all now ls; mret (l :: changed)
      else orphan_all now ls
  end.

Fixpoint reconcile_all (ls : list ref) : M (list ref) :=
  match ls with
  | [] => mret []
  | l :: ls =>
      j ← read_job l;
      s ← get_store;
      if bool_decide (status j ∈ [claimed; running])
         && negb (existsb (is_active_of s (jobId j)) (attempts s)) then
        _ ← assign_job l (set_status awaiting_reconciliation);
        changed ← reconcile_all ls; mret (l :: changed)
      else reconcile_all ls
  end.

Definition restartReconciliation (commits : bool) (now : nat → Z) : M unit :=
  s ← get_store;
  changedAttempts ← orphan_all now (attempts s);
  changedJobs ← reconcile_all (jobs s);
  match changedAttempts, changedJobs with
  | [], [] => mret tt
  | _, _ => persist commits changedJobs changedAttempts
  end.

(** The old file: [None] when there is none, [Some None] when it cannot be read.  Its records may
    lack the instructions of a job and the time an attempt was made. *)
Record LegacyJob := mkLegacyJob { l_job : PeerJob; l_instructions : option jsstr }.
Record LegacyAttempt := mkLegacyAttempt { l_attempt : PeerAttempt; l_createdAt : option Z }.
Definition Sidecar : Type := option (option (list LegacyJob * list LegacyAttempt)).

Definition import_job (l : LegacyJob) : PeerJob :=
  let j := l_job l in
  mkPeerJob (jobId j) (peerId j) (workSessionId j) (workspaceSessionId j) (schedulerDispatchId j)
    (repositoryId j) (baseRevision j) (taskClass j) (instructionHash j)
    (default [] (l_instructions l)) (allowedOutputs j) (maxRuntimeMs j) (maxArtifactBytes j)
    (status j) (createdAt j) (cancelRequestedAt j) (terminalAt j) (terminalReason j)
    (resultProcessing j).

Definition import_attempt (l : LegacyAttempt) : PeerAttempt :=
  let a := l_attempt l in
  mkPeerAttempt (attemptId a) (a_jobId a) (claimToken a) (claimOwnerPeerId a) (generation a)
    (default (leaseExpiresAt a - LEASE_MS) (l_createdAt l)) (leaseExpiresAt a) (lastHeartbeatAt a)
    (remoteExecutionId a) (executionStartedAt a) (outcomeCertainty a) (a_status a) (receipt a).

Fixpoint insert_rows {A} (key : A → jsstr) (rows : list A) (t : list A) : option (list A) :=
  match rows with
  | [] => Some t
  | r :: rows => match by_key key (key r) t with
                 | Some _ => None
                 | None => insert_rows key rows (insert_row r t)
                 end
  end.

(** The import, once, of the old file *)
Definition import_sidecar (commits : bool) (sidecar : Sidecar) (d : database)
  : res PeerJobError database :=
  if imported d then Ok d
  else
    snapshot ← match sidecar with
               | None => Ok ([], [])
               | Some None => Err peer_jobs_state_corrupt
               | Some (Some x) => Ok x
               end;
    _ ← ensure (bool_decide (peer_jobs d = []) && bool_decide (peer_job_attempts d = []))
          peer_jobs_state_corrupt;
    _ ← ensure commits peer_jobs_state_corrupt;
    js ← require (insert_rows jobId (List.map import_job snapshot.1) []) peer_jobs_state_corrupt;
    ats ← require (insert_rows attemptId (List.map import_attempt snapshot.2) [])
            peer_jobs_state_corrupt;
    Ok (mkDatabase js ats true).

Definition le_attempt (a b : PeerAttempt) : bool :=
  (a_createdAt a <? a_createdAt b)
  || (a_createdAt a =? a_createdAt b) && negb (js_ltb (attemptId b) (attemptId a)).

Definition push_row (m : gmap jsstr (list ref)) (x : nat * PeerAttempt) : gmap jsstr (list ref) :=
  <[a_jobId x.2 := default [] (m !! a_jobId x.2) ++ [x.1]]> m.

(** The store that has read the database *)
Definition load (d : database) : store :=
  let js := order_by le_job (peer_jobs d) in
  let ats := order_by le_attempt (peer_job_attempts d) in
  mkStore js ats (seq 0 (length js)) (seq 0 (length ats))
    (list_to_map (imap (λ i j, (jobId j, i)) js)) (list_to_map (imap (λ i a, (attemptId a, i)) ats))
    (foldl push_row ∅ (imap pair ats))
    (list_to_map (List.map (λ j, (jobId j, j)) js)) (list_to_map (List.map (λ a, (attemptId a, a)) ats))
    false d.

(** The database, which the import may have filled, and the store, when it opens *)
Definition openPeerJobStore (commits : bool) (sidecar : Sidecar) (now : nat → Z) (d : database)
  : database * res PeerJobError store :=
  match import_sidecar commits sidecar d with
  | Err e => (d, Err e)
  | Ok d =>
      match restartReconciliation commits now (load d) with
      | (s, Ok _) => (db s, Ok s)
      | (s, Err e) => (db s, Err e)
      end
  end.

(** A closed store forgets its objects. *)
Definition close (s : store) : store :=
  mkStore (jheap s) (aheap s) [] [] ∅ ∅ ∅ (persistedJobs s) (persistedAttempts s)
    (stateCorrupted s) (db s).

(** ** Reading *)

Definition getJob (s : store) (k : jsstr) : option PeerJob := l ← jobById s !! k; job_at s l.
Definition getAttempt (s : store) (k : jsstr) : option PeerAttempt :=
  l ← attemptById s !! k; attempt_at s l.

Definition authorizeAttempt (k attempt token peer : jsstr) (now : Z) : M (PeerJob * PeerAttempt) :=
  lj ← jobOrThrow k;
  j ← read_job lj;
  la ← fencedAttempt k attempt token peer;
  a ← read_attempt la;
  _ ← assertActiveAttemptForFence a now;
  _ ← lift (ensure (bool_decide (status j ∈ [claimed; running])) job_not_active);
  mret (j, a).

(** [order by created_at desc, rowid desc limit 1] *)
Definition getLatestJobForWorkSession (d : database) (peer session : jsstr) (exclude : option jsstr)
  : option PeerJob :=
  first_by (λ a b, createdAt b <=? createdAt a)
    (rev (select_where
       (λ j, (peerId j =s peer) && bool_decide (workSessionId j = Some session)
             && negb (bool_decide (Some (jobId j) = exclude))) (peer_jobs d))).

Definition is_listed (peer : jsstr) (includeTerminal : bool) (j : PeerJob) : bool :=
  (peerId j =s peer) && (includeTerminal || negb (isTerminalJobStatus (status j))).

Definition listJobsForPeer (d : database) (peer : jsstr) (includeTerminal : bool) : list PeerJob :=
  order_by le_job (select_where (is_listed peer includeTerminal) (peer_jobs d)).

(** [created_at > ? or (created_at = ? and job_id > ?)] *)
Definition after_cursor (cursor : option (Z * jsstr)) (j : PeerJob) : bool :=
  match cursor with
  | None => true
  | Some (at_, k) => (at_ <? createdAt j) || (createdAt j =? at_) && js_ltb k (jobId j)
  end.

Definition listJobsForPeerPage (d : database) (peer : jsstr) (includeTerminal : bool)
  (after : option (Z * jsstr)) (max : Z) : list PeerJob :=
  limit (Z.to_nat (Z.max 1 (Z.min 100 max)))
    (order_by le_job
       (select_where (λ j, is_listed peer includeTerminal j && after_cursor after j) (peer_jobs d))).

Definition is_object (v : option json) : bool :=
  match v with Some (JObj _) => true | _ => false end.

(** The newest attempt, and the newest with a receipt *)
Definition getAttemptSummaryForJob (d : database) (k : jsstr)
  : option PeerAttempt * option PeerAttempt :=
  let newest := first_by (λ a b, (generation b <=? generation a)%nat) in
  (newest (attempts_of k d), newest (select_where (λ a, is_object (receipt a)) (attempts_of k d))).

Definition listAttemptsForJob (d : database) (k : jsstr) : list PeerAttempt :=
  order_by le_attempt (attempts_of k d).

(** The cap of [service.ts] on the jobs a peer may hold *)
Definition activeJobCount (d : database) (peer : jsstr) : nat :=
  length (List.filter (λ j, bool_decide (status j ∈ [pending; claimed; running; awaiting_reconciliation]))
            (listJobsForPeer d peer false)).

Definition enforcePeerJobsCap (d : database) (peer : jsstr) (maxClaimedJobs : nat)
  : res PeerJobError unit :=
  reject (maxClaimedJobs <=? activeJobCount d peer)%nat peer_jobs_cap_exceeded.

End PeerJobs.
