(* ===== verification/PeerJobSystem.v ===== *)
(** * Peer jobs: histories of the store

    The operations of the store as data, what executing one does, and the histories of a process:
    operations at times that do not go back, each transaction committing or not, and restarts on
    the database that is left.  A restart opens a store on a database that has its import receipt;
    a closed store is not used any more, so closing is a restart that comes later.

    The scenarios at the end run the store as the code runs. *)

From S2P Require Import Prelude JsString Json Sql CanonicalJson PeerContracts PeerReceipts PeerJobs.

Module PeerJobSystem.
Import CanonicalJson PeerContracts PeerReceipts PeerJobs.
Local Open Scope Z_scope.

Inductive op :=
| OCreate (uuid : jsstr) (i : JobInput)
| OClaim (attempt token peer : jsstr) (filter : option jsstr)
| OStarted (attempt token peer : jsstr) (remote : option jsstr)
| ONotStarted (attempt token peer : jsstr)
| ORenew (attempt token peer : jsstr) (leaseMs : option Z)
| OComplete (attempt token peer : jsstr) (r : json)
| OFail (attempt token peer reason : jsstr)
| OStaging (k sha : jsstr)
| OAwaitingReview (k : jsstr) (i : ReviewInput)
| OVerification (k submission : jsstr) (epoch : Z) (st : VerificationStatus) (evidence : option jsstr)
| OReconciliation (k reason : jsstr)
| ORetry (k expectedFailure : jsstr)
| OFinalize (k submission : jsstr) (epoch : Z) (feedback : jsstr) (v : Verdict)
| ORequestCancel (k : jsstr)
| OCancelAck (attempt token peer : jsstr)
| OCancelUnclaimed (k : jsstr)
| OReap (max : Z).

(** What an operation returns *)
Inductive answer :=
| AJob (j : PeerJob)
| ABoth (x : PeerJob * PeerAttempt)
| ACompleted (x : PeerJob * PeerAttempt * bool)
| AClaimed (x : option (PeerJob * PeerAttempt))
| AReaped (l : list (PeerJob * PeerAttempt)).

Definition exec (commits : bool) (now : Z) (o : op) : M answer :=
  match o with
  | OCreate uuid i => AJob <$> createJob commits uuid now i
  | OClaim attempt token peer filter => AClaimed <$> claimNextJob commits attempt token peer now filter
  | OStarted attempt token peer remote => ABoth <$> markStarted commits attempt token peer now remote
  | ONotStarted attempt token peer => ABoth <$> markNotStarted commits attempt token peer now
  | ORenew attempt token peer leaseMs => ABoth <$> renewLease commits attempt token peer now leaseMs
  | OComplete attempt token peer r => ACompleted <$> completeAttempt commits attempt token peer r now
  | OFail attempt token peer reason => ABoth <$> failAttempt commits attempt token peer reason now
  | OStaging k sha => AJob <$> markStaging commits k sha now
  | OAwaitingReview k i => AJob <$> markAwaitingReview commits k i now
  | OVerification k submission epoch st evidence =>
      AJob <$> recordVerification commits k submission epoch st evidence now
  | OReconciliation k reason => AJob <$> markAwaitingReconciliation commits k reason now
  | ORetry k expected => AJob <$> retryResultProcessing commits k expected now
  | OFinalize k submission epoch feedback v =>
      AJob <$> finalizeReview commits k submission epoch feedback v now
  | ORequestCancel k => AJob <$> requestCancel commits k now
  | OCancelAck attempt token peer => ABoth <$> cancelAck commits attempt token peer now
  | OCancelUnclaimed k => AJob <$> cancelUnclaimedJob commits k now
  | OReap max => AReaped <$> reapExpiredLeases commits now max
  end.

(** The random identity of a new attempt is no identity in use. *)
Definition fresh (o : op) (s : store) : Prop :=
  match o with
  | OClaim attempt _ _ _ => Forall (λ a, attemptId a ≠ attempt) (aheap s)
  | _ => True
  end.

(** A process, and the time of its last operation *)
Record world := mkWorld { st : store; clock : Z }.

Inductive step : world → world → Prop :=
| step_op s c now commits o s' r :
    c ≤ now → fresh o s → exec commits now o s = (s', r) →
    step (mkWorld s c) (mkWorld s' now)
| step_restart s c commits sidecar now c' d' s' :
    c ≤ c' → imported (db s) = true → (∀ i, now i ≤ c') →
    openPeerJobStore commits sidecar now (db s) = (d', Ok s') →
    step (mkWorld s c) (mkWorld s' c').

(** The store of a new database *)
Definition new_database : database := mkDatabase [] [] true.
Definition new_store : store := load new_database.

Inductive reachable : world → Prop :=
| reach_init c : reachable (mkWorld new_store c)
| reach_step w w' : reachable w → step w w' → reachable w'.

(** *** Running a list of operations, for the scenarios *)

Definition run (ops : list (bool * Z * op)) (s : store) : store * list (res PeerJobError answer) :=
  foldl (λ '(s, rs) '(commits, now, o), let '(s', r) := exec commits now o s in (s', rs ++ [r]))
    (s, []) ops.

(** The world after a list of operations, when each may be the next *)
Fixpoint play (ops : list (bool * Z * op)) (w : world) : world :=
  match ops with
  | [] => w
  | (commits, now, o) :: ops => play ops (mkWorld (exec commits now o (st w)).1 now)
  end.

Definition is_fresh (o : op) (s : store) : bool :=
  match o with
  | OClaim attempt _ _ _ => forallb (λ a, negb (attemptId a =s attempt)) (aheap s)
  | _ => true
  end.

Fixpoint playable (ops : list (bool * Z * op)) (w : world) : bool :=
  match ops with
  | [] => true
  | (commits, now, o) :: ops =>
      (clock w <=? now) && is_fresh o (st w) && playable ops (mkWorld (exec commits now o (st w)).1 now)
  end.

Lemma is_fresh_fresh o s : is_fresh o s = true → fresh o s.
Proof.
  destruct o; try done. cbn. intros H. apply Forall_forall. intros a Ha E.
  rewrite forallb_forall in H. specialize (H a). rewrite <- list_elem_of_In in H.
  specialize (H Ha). by rewrite E, js_eqb_refl in H.
Qed.

Lemma play_steps ops w : playable ops w = true → steps step w (play ops w).
Proof.
  revert w. induction ops as [|[[commits now] o] ops IH]; intros [s c]; cbn [play playable st clock].
  { constructor. }
  intros [[Hc%Z.leb_le Hf%is_fresh_fresh]%andb_true_iff H]%andb_true_iff.
  econstructor; [|by apply IH]. eapply step_op; [done|done|]. apply surjective_pairing.
Qed.

Lemma play_is_reachable ops c :
  playable ops (mkWorld new_store c) = true → reachable (play ops (mkWorld new_store c)).
Proof.
  intros H%play_steps. revert H. generalize (reach_init c). generalize (mkWorld new_store c).
  intros w Hr H. induction H; [done|]. apply IHsteps. by eapply reach_step.
Qed.

Definition job1 : jsstr := "job_00000000-0000-4000-8000-000000000001".
Definition input1 : JobInput :=
  mkInput (Some job1) "peer" (Some (js "work")) (Some (js "space")) None "repo" "base" "propose_patch"
    "hash" "do it" [js "out/"] 600000 1000.
Definition success : json := JObj [(js "terminalState", JStr "succeeded")].

Definition status_of (r : res PeerJobError answer) : option PeerJobStatus :=
  match r with
  | Ok (AJob j) => Some (status j)
  | Ok (ABoth (j, _)) => Some (status j)
  | Ok (ACompleted (j, _, _)) => Some (status j)
  | Ok (AClaimed (Some (j, _))) => Some (status j)
  | _ => None
  end.

Definition stored_status (k : jsstr) (s : store) : option PeerJobStatus :=
  status <$> by_key jobId k (peer_jobs (db s)).
Definition stored_receipts (k : jsstr) (s : store) : list (option json) :=
  List.map receipt (attempts_of k (db s)).

(** A result whose transaction failed is answered as stored when the peer sends it again, and the
    database does not have it. *)
Example lost_result_answered_as_stored :
  let s1 := (run [(true, 0, OCreate "" input1); (true, 1, OClaim "att" "token" "peer" None);
                  (true, 2, OStarted "att" "token" "peer" None)] new_store).1 in
  let '(s2, r2) := exec false 3 (OComplete "att" "token" "peer" success) s1 in
  let '(s3, r3) := exec true 4 (OComplete "att" "token" "peer" success) s2 in
  r2 = Err peer_jobs_persistence_failed
  ∧ status_of r3 = Some result_received
  ∧ (match r3 with Ok (ACompleted (_, _, idempotent)) => idempotent | _ => false end) = true
  ∧ stored_status job1 s3 = Some running ∧ stored_receipts job1 s3 = [None].
Proof. by vm_compute. Qed.

(** A renewal does not look at the state of the attempt: after the budget of the job it throws a
    job that was reviewed and completed back to reconciliation. *)
Definition review1 : ReviewInput := mkReviewInput "r" "sub" 1 git "ref" "diff" (Some v_passed) None.
Example late_renewal_reopens :
  let s1 := (run [(true, 0, OCreate "" input1); (true, 1, OClaim "att" "token" "peer" None);
                  (true, 2, OStarted "att" "token" "peer" None);
                  (true, 3, OComplete "att" "token" "peer" success);
                  (true, 4, OStaging job1 "r"); (true, 5, OAwaitingReview job1 review1);
                  (true, 6, OFinalize job1 "sub" 1 "feedback" approve)] new_store).1 in
  let '(s2, r2) := exec true 700000 (ORenew "att" "token" "peer" (Some 1000)) s1 in
  stored_status job1 s1 = Some completed
  ∧ r2 = Err runtime_budget_exceeded ∧ stored_status job1 s2 = Some awaiting_reconciliation.
Proof. by vm_compute. Qed.

(** ... and makes a cancelled job pending again, for the next claim. *)
Example late_renewal_revives_cancelled :
  let s1 := (run [(true, 0, OCreate "" input1); (true, 1, OClaim "att" "token" "peer" None);
                  (true, 2, ONotStarted "att" "token" "peer"); (true, 3, OFail "att" "token" "peer" "");
                  (true, 4, OCancelUnclaimed job1)] new_store).1 in
  let '(s2, r2) := exec true 700000 (ORenew "att" "token" "peer" (Some 1000)) s1 in
  let '(_, r3) := exec true 700001 (OClaim "att2" "token2" "peer" None) s2 in
  stored_status job1 s1 = Some cancelled
  ∧ r2 = Err runtime_budget_exceeded ∧ status_of r3 = Some claimed.
Proof. by vm_compute. Qed.

End PeerJobSystem.
