(* ===== verification/PeerJobMemory.v ===== *)
(** * Peer jobs: what a transaction writes

    Lemmas about the writes of [PeerJobs]: the rows after a transaction, what the process remembers
    of it, and how computations of [M] run. *)

From S2P Require Import Prelude JsString Json Sql PeerContracts PeerReceipts PeerJobs.

Module PeerJobMemory.
Import PeerContracts PeerReceipts PeerJobs.

(** ** Computations *)

Lemma M_bind_run {A B} (m : M A) (k : A → M B) s s' r :
  (m ≫= k) s = (s', r) ↔
  (∃ s1 a, m s = (s1, Ok a) ∧ k a s1 = (s', r)) ∨ (∃ e, m s = (s', Err e) ∧ r = Err e).
Proof.
  unfold mbind, M_bind. destruct (m s) as [s1 [a|e]]; split.
  - intros H. left. eauto.
  - intros [(s2 & b & [= -> ->] & H)|(e & H & _)]; done.
  - intros [= -> <-]. right. eauto.
  - intros [(s2 & b & H & _)|(e' & [= -> ->] & ->)]; done.
Qed.

Lemma lift_run {A} (x : res PeerJobError A) s s' r : lift x s = (s', r) ↔ s' = s ∧ r = x.
Proof. unfold lift. naive_solver. Qed.

(** A computation that leaves the store as it was *)
Definition pure_at {A} (m : M A) (s : store) : Prop := (m s).1 = s.

Lemma read_job_run l s s' r : read_job l s = (s', r) ↔ s' = s ∧ r = require (job_at s l) dangling.
Proof. unfold read_job, get_store, lift, mbind, M_bind. cbn. naive_solver. Qed.
Lemma read_attempt_run l s s' r :
  read_attempt l s = (s', r) ↔ s' = s ∧ r = require (attempt_at s l) dangling.
Proof. unfold read_attempt, get_store, lift, mbind, M_bind. cbn. naive_solver. Qed.

(** ** One table *)

Section Writes.
Context {A : Type} `{!EqDecision A} (key : A → jsstr) (mem : ref → option A).
Context (conflict : PeerJobError) (persisted : gmap jsstr A).

Definition write_ref (rows : list A) (l : ref) : res PeerJobError (list A) :=
  record ← require (mem l) dangling; write_row key conflict persisted rows record.

Definition remembered (m : gmap jsstr A) (l : ref) : gmap jsstr A :=
  match mem l with Some r => <[key r := r]> m | None => m end.

Lemma write_row_spec rows rows' r :
  keyed key rows → write_row key conflict persisted rows r = Ok rows' →
  keyed key rows' ∧ ∀ k, by_key key k rows' = if decide (k = key r) then Some r else by_key key k rows.
Proof.
  unfold write_row. intros Hk H. destruct (persisted !! key r) as [previous|].
  - rewrite (surjective_pairing (update_where _ _ rows)) in H.
    apply bind_Ok in H as (u & Hc & H). apply ensure_Ok, Nat.eqb_eq in Hc.
    set (p := λ x, bool_decide (key x = key r ∧ x = previous)) in *.
    assert (rows' = (update_where p (λ _, r) rows).1) as -> by congruence. clear H.
    assert (Hp : ∀ x, p x = true → key x = key r ∧ x = previous).
    { intros x. apply bool_decide_eq_true_1. }
    assert (Hmap : List.map key (update_where p (λ _, r) rows).1 = List.map key rows).
    { unfold update_where. cbn. rewrite List.map_map. apply List.map_ext. intros x.
      destruct (p x) eqn:E; [|done]. by apply Hp in E as [-> _]. }
    split; [unfold keyed; by rewrite Hmap|].
    assert (Hb : by_key key (key r) rows = Some previous ∧ key previous = key r).
    { pose proof (changes_keyed key p (λ _, r) rows (key r) Hk (λ x H, proj1 (Hp x H))) as E.
      rewrite Hc in E.
      destruct (by_key key (key r) rows) as [y|] eqn:Ey; [|done].
      destruct (p y) eqn:Py; [|done]. apply Hp in Py as [? ->]. done. }
    destruct Hb as [Hb Hkp]. intros k. destruct (decide (k = key r)) as [->|Hne].
    + apply keyed_by_key; [unfold keyed; by rewrite Hmap|]. apply elem_of_update_where.
      apply by_key_Some in Hb as [Hin _]. exists previous. split; [done|].
      assert (p previous = true) as -> by (by apply bool_decide_eq_true_2). done.
    + unfold by_key, get_where, update_where. cbn. clear Hk Hmap Hb Hc.
      induction rows as [|x rows IH]; cbn; [done|]. destruct (p x) eqn:Px.
      * apply Hp in Px as [Ex _]. rewrite !bool_decide_eq_false_2 by congruence. apply IH; done.
      * rewrite IH by done. done.
  - apply bind_Ok in H as (u & Hn & H). injection H as <-.
    apply reject_Ok, bool_decide_eq_false, eq_None_not_Some in Hn.
    split; [by apply keyed_insert|]. intros k. destruct (decide (k = key r)) as [->|Hne].
    + by apply by_key_insert_eq.
    + by apply by_key_insert_ne.
Qed.

Lemma write_ref_Ok rows rows' l :
  write_ref rows l = Ok rows' ↔
  ∃ r, mem l = Some r ∧ write_row key conflict persisted rows r = Ok rows'.
Proof. unfold write_ref. rewrite bind_Ok. by setoid_rewrite require_Ok. Qed.

Lemma write_all_Ok rows rows' l ls :
  write_all write_ref rows (l :: ls) = Ok rows' ↔
  ∃ rows1, write_ref rows l = Ok rows1 ∧ write_all write_ref rows1 ls = Ok rows'.
Proof. cbn. by rewrite bind_Ok. Qed.

(** Each key has the last record written for it, or its old row. *)
Lemma write_all_rows ls rows rows' :
  keyed key rows → write_all write_ref rows ls = Ok rows' →
  keyed key rows' ∧ Forall (λ l, is_Some (mem l)) ls
  ∧ ∀ k, (∃ l r, l ∈ ls ∧ mem l = Some r ∧ key r = k ∧ by_key key k rows' = Some r)
         ∨ (∀ l r, l ∈ ls → mem l = Some r → key r ≠ k) ∧ by_key key k rows' = by_key key k rows.
Proof.
  revert rows. induction ls as [|l ls IH]; intros rows Hk H.
  { cbn in H. injection H as <-. split_and!; [done|constructor|]. intros k. right.
    split; [|done]. by intros l r ?%not_elem_of_nil. }
  apply write_all_Ok in H as (rows1 & Hw & H). apply write_ref_Ok in Hw as (r & Hr & Hw).
  apply write_row_spec in Hw as [Hk1 Hw]; [|done]. destruct (IH _ Hk1 H) as (Hk' & HF & Hrows).
  split_and!; [done|by constructor|]. intros k. destruct (Hrows k) as [(l' & r' & Hin & ?)|[Hno E]].
  - left. exists l', r'. split; [by right|done].
  - rewrite Hw in E. case_decide as Ek.
    + left. exists l, r. split; [left|]. done.
    + right. split; [|done]. intros l' r' [->|Hin]%elem_of_cons Hm; [congruence|by eapply Hno].
Qed.

(** The process remembers exactly what it wrote. *)
Lemma write_all_remembered ls rows rows' m :
  keyed key rows → write_all write_ref rows ls = Ok rows' →
  (∀ k, m !! k = by_key key k rows) → ∀ k, foldl remembered m ls !! k = by_key key k rows'.
Proof.
  revert rows m. induction ls as [|l ls IH]; intros rows m Hk H Hm.
  { cbn in H. injection H as <-. exact Hm. }
  apply write_all_Ok in H as (rows1 & Hw & H). apply write_ref_Ok in Hw as (r & Hr & Hw).
  apply write_row_spec in Hw as [Hk1 Hw]; [|done]. cbn [foldl]. apply (IH rows1); [done|done|].
  intros k. unfold remembered. rewrite Hr, Hw. case_decide as Ek.
  - by rewrite Ek, lookup_insert_eq.
  - by rewrite lookup_insert_ne, Hm.
Qed.

(** Updates that keep a part of the record keep that part of the table. *)
Lemma write_all_part {B} (f : A → B) ls rows rows' :
  write_all write_ref rows ls = Ok rows' →
  (∀ l r, l ∈ ls → mem l = Some r → ∃ r0, persisted !! key r = Some r0 ∧ f r = f r0) →
  List.map f rows' = List.map f rows.
Proof.
  revert rows. induction ls as [|l ls IH]; intros rows H Hf.
  { cbn in H. by injection H as <-. }
  apply write_all_Ok in H as (rows1 & Hw & H). apply write_ref_Ok in Hw as (r & Hr & Hw).
  rewrite (IH rows1) by (done || (intros l' r' ?; apply Hf; by right)).
  destruct (Hf l r ltac:(left) Hr) as (r0 & Hp & Ef). unfold write_row in Hw. rewrite Hp in Hw.
  rewrite (surjective_pairing (update_where _ _ rows)) in Hw.
  apply bind_Ok in Hw as (u & _ & Hw). injection Hw as <-.
  unfold update_where. cbn. rewrite List.map_map. apply List.map_ext. intros x.
  destruct (bool_decide _) eqn:E; [|done]. apply bool_decide_eq_true in E as [_ ->]. done.
Qed.

(** An insert, when the key is new *)
Lemma write_ref_insert rows rows' l r :
  mem l = Some r → persisted !! key r = None → write_ref rows l = Ok rows' →
  by_key key (key r) rows = None ∧ rows' = rows ++ [r].
Proof.
  intros Hr Hp H. apply write_ref_Ok in H as (r' & Hr' & H). rewrite Hr in Hr'. injection Hr' as <-.
  unfold write_row in H. rewrite Hp in H. apply bind_Ok in H as (u & Hn & H). injection H as <-.
  split; [|done]. by apply reject_Ok, bool_decide_eq_false, eq_None_not_Some in Hn.
Qed.
End Writes.

Lemma write_job_ref s : write_job s = write_ref jobId (job_at s) peer_job_write_conflict (persistedJobs s).
Proof. done. Qed.
Lemma write_attempt_ref s :
  write_attempt s
  = write_ref attemptId (attempt_at s) peer_job_attempt_write_conflict (persistedAttempts s).
Proof. done. Qed.

(** ** A transaction *)

Lemma transaction_Ok s ljs las d commits :
  transaction commits s ljs las = Ok d ↔
  commits = true ∧ imported d = imported (db s)
  ∧ write_all (write_job s) (peer_jobs (db s)) ljs = Ok (peer_jobs d)
  ∧ write_all (write_attempt s) (peer_job_attempts (db s)) las = Ok (peer_job_attempts d).
Proof.
  unfold transaction. destruct commits; [|naive_solver]. rewrite bind_Ok.
  setoid_rewrite bind_Ok. split.
  - intros (js & Hj & ats & Ha & [= <-]). cbn. done.
  - intros (_ & Hi & Hj & Ha). eexists. split; [done|]. eexists. split; [done|].
    rewrite <- Hi. by destruct d.
Qed.

(** What the memory is after a transaction *)
Definition after (s : store) (ljs las : list ref) (d : database) : store :=
  foldl remember_attempt (foldl remember_job (set_db d s) ljs) las.

Lemma persist_run commits ljs las s s' r :
  persist commits ljs las s = (s', r) →
  (s' = s ∧ ∃ e, r = Err e)
  ∨ ∃ d, transaction commits s ljs las = Ok d ∧ s' = after s ljs las d ∧ r = Ok tt.
Proof.
  unfold persist, get_store, mbind, M_bind, throw, lift, modify. destruct (stateCorrupted s).
  - intros [= <- <-]. left. eauto.
  - destruct (transaction commits s ljs las) as [d|e]; intros [= <- <-]; [right|left]; eauto.
Qed.

Lemma foldl_remember_job s ls :
  let s' := foldl remember_job s ls in
  jheap s' = jheap s ∧ aheap s' = aheap s ∧ jobs s' = jobs s ∧ attempts s' = attempts s
  ∧ attemptById s' = attemptById s ∧ attemptsByJob s' = attemptsByJob s
  ∧ persistedAttempts s' = persistedAttempts s ∧ stateCorrupted s' = stateCorrupted s
  ∧ db s' = db s
  ∧ persistedJobs s' = foldl (remembered jobId (job_at s)) (persistedJobs s) ls
  ∧ jobById s' = foldl (λ m l, match job_at s l with Some j => <[jobId j := l]> m | None => m end)
                   (jobById s) ls.
Proof.
  cbn zeta. revert s. induction ls as [|l ls IH]; intros s; [done|]. cbn [foldl].
  destruct (IH (remember_job s l)) as (E1 & E2 & E3 & E4 & E5 & E6 & E7 & E8 & E9 & E10 & E11).
  assert (Hat : job_at (remember_job s l) = job_at s).
  { unfold remember_job. by destruct (job_at s l). }
  rewrite E1, E2, E3, E4, E5, E6, E7, E8, E9, E10, E11, Hat. clear.
  unfold remember_job, remembered. destruct (job_at s l); done.
Qed.

Lemma foldl_remember_attempt s ls :
  let s' := foldl remember_attempt s ls in
  jheap s' = jheap s ∧ aheap s' = aheap s ∧ jobs s' = jobs s ∧ attempts s' = attempts s
  ∧ jobById s' = jobById s ∧ persistedJobs s' = persistedJobs s
  ∧ stateCorrupted s' = stateCorrupted s ∧ db s' = db s
  ∧ persistedAttempts s' = foldl (remembered attemptId (attempt_at s)) (persistedAttempts s) ls
  ∧ attemptById s' = foldl (λ m l, match attempt_at s l with
                                   | Some a => <[attemptId a := l]> m | None => m end)
                       (attemptById s) ls.
Proof.
  cbn zeta. revert s. induction ls as [|l ls IH]; intros s; [done|]. cbn [foldl].
  destruct (IH (remember_attempt s l)) as (E1 & E2 & E3 & E4 & E5 & E6 & E7 & E8 & E9 & E10).
  assert (Hat : attempt_at (remember_attempt s l) = attempt_at s).
  { unfold remember_attempt. by destruct (attempt_at s l). }
  rewrite E1, E2, E3, E4, E5, E6, E7, E8, E9, E10, Hat. clear.
  unfold remember_attempt, remembered. destruct (attempt_at s l); done.
Qed.

End PeerJobMemory.
