(* ===== verification/PeerJobInvariant.v ===== *)
(** * Peer jobs: the invariant of the store

    [DbInv] says what the tables hold, [Inv] how the objects in memory relate to the rows, also
    when transactions have failed and memory has moved ahead.  Two facts carry the safety of the
    store: an attempt that is not the newest of its job was denied by its peer, and so was every
    attempt of a job that can be claimed. *)

From S2P Require Import Prelude JsString Json Sql PeerContracts PeerReceipts PeerJobs.
From S2P Require Import PeerJobMemory.

Module PeerJobInvariant.
Import PeerContracts PeerReceipts PeerJobs PeerJobMemory.
Local Open Scope Z_scope.

(** ** Attempts *)

(** The work of an attempt was begun, as far as its peer has said. *)
Definition undertaken (a : PeerAttempt) : Prop :=
  outcomeCertainty a = started ∨ outcomeCertainty a = terminal_verified.

(** The attempt is over and its peer said it never began. *)
Definition denied (a : PeerAttempt) : Prop :=
  a_status a ≠ active ∧ outcomeCertainty a = not_started.

(** What never changes of an attempt *)
Definition stub (a : PeerAttempt) : jsstr * jsstr * jsstr * jsstr * nat :=
  (attemptId a, a_jobId a, claimToken a, claimOwnerPeerId a, generation a).

Definition attempt_ok (a : PeerAttempt) : Prop :=
  (a_status a = active → outcomeCertainty a ≠ terminal_verified)
  ∧ (is_Some (executionStartedAt a) → undertaken a)
  ∧ (outcomeCertainty a = started → is_Some (executionStartedAt a)).

(** How an attempt may move *)
Definition moved (a b : PeerAttempt) : Prop :=
  stub b = stub a ∧ attempt_ok b
  ∧ (a_status b = active → a_status a = active)
  ∧ (a_status a ≠ active → outcomeCertainty b = outcomeCertainty a)
  ∧ (undertaken a → undertaken b).

Lemma moved_refl a : attempt_ok a → moved a a.
Proof. intros H. unfold moved. by repeat (split; [done|]). Qed.

Lemma moved_trans a b c : moved a b → moved b c → moved a c.
Proof.
  intros (E1 & O1 & S1 & C1 & U1) (E2 & O2 & S2 & C2 & U2).
  refine (conj _ (conj O2 (conj _ (conj _ _)))).
  - congruence.
  - auto.
  - intros H. rewrite C2, C1 by auto. done.
  - auto.
Qed.

Lemma moved_denied a b : denied a → moved a b → denied b.
Proof. intros [H1 H2] (_ & _ & S & C & _). split; [auto|]. by rewrite C. Qed.

Lemma undertaken_not_denied a : undertaken a → denied a → False.
Proof. intros [H|H] [_ H']; congruence. Qed.

(** ** Jobs *)

(** The job waits to be claimed. *)
Definition open_job (j : PeerJob) : Prop := status j = pending ∧ cancelRequestedAt j = None.

Lemma claimable_open peer filter j : claimable peer filter j = true → open_job j.
Proof.
  unfold claimable. intros H. guards. split; [done|]. by apply eq_None_not_Some.
Qed.

(** ** The tables *)

Definition count (k : jsstr) (d : database) : nat := length (attempts_of k d).

Record DbInv (d : database) : Prop := {
  d_jobs : keyed jobId (peer_jobs d);
  d_attempts : keyed attemptId (peer_job_attempts d);
  d_owner : ∀ a, a ∈ peer_job_attempts d → is_Some (by_key jobId (a_jobId a) (peer_jobs d));
  d_generations : ∀ k, List.map generation (attempts_of k d) = seq 1 (count k d);
  d_old : ∀ a, a ∈ peer_job_attempts d → (generation a < count (a_jobId a) d)%nat → denied a;
  d_open : ∀ j a, j ∈ peer_jobs d → open_job j → a ∈ peer_job_attempts d →
    a_jobId a = jobId j → denied a;
  d_ok : ∀ a, a ∈ peer_job_attempts d → attempt_ok a
}.

Lemma elem_of_attempts_of a k d : a ∈ attempts_of k d ↔ a ∈ peer_job_attempts d ∧ a_jobId a = k.
Proof. unfold attempts_of, select_where. by rewrite elem_of_Lfilter, js_eqb_eq. Qed.

Lemma map_stub_attempts k d :
  List.map stub (attempts_of k d)
  = List.filter (λ t, t.1.1.1.2 =s k) (List.map stub (peer_job_attempts d)).
Proof.
  unfold attempts_of, select_where. induction (peer_job_attempts d) as [|a l IH]; [done|].
  cbn. destruct (a_jobId a =s k); cbn; by rewrite IH.
Qed.

(** Updates keep the attempts of a job, their numbers and their order. *)
Lemma same_stubs d d' :
  List.map stub (peer_job_attempts d') = List.map stub (peer_job_attempts d) →
  ∀ k, count k d' = count k d
       ∧ List.map generation (attempts_of k d') = List.map generation (attempts_of k d)
       ∧ List.map attemptId (attempts_of k d') = List.map attemptId (attempts_of k d).
Proof.
  intros E k. assert (H : List.map stub (attempts_of k d') = List.map stub (attempts_of k d)).
  { by rewrite !map_stub_attempts, E. }
  unfold count. split_and!.
  - rewrite <- (List.length_map stub), H. by rewrite List.length_map.
  - apply (f_equal (List.map snd)) in H. by rewrite !List.map_map in H.
  - apply (f_equal (List.map (λ t, t.1.1.1.1))) in H. by rewrite !List.map_map in H.
Qed.

(** The newest attempt of a job is the one whose number is their count. *)
Lemma generations_bound d a :
  DbInv d → a ∈ peer_job_attempts d →
  (1 ≤ generation a ≤ count (a_jobId a) d)%nat.
Proof.
  intros Hd Ha. assert (Hin : generation a ∈ List.map generation (attempts_of (a_jobId a) d)).
  { apply elem_of_Lmap. exists a. split; [done|]. by apply elem_of_attempts_of. }
  rewrite d_generations, list_elem_of_In, List.in_seq in Hin by done. lia.
Qed.

Lemma generations_unique d a b :
  DbInv d → a ∈ peer_job_attempts d → b ∈ peer_job_attempts d →
  a_jobId a = a_jobId b → generation a = generation b → a = b.
Proof.
  intros Hd Ha Hb Ej Eg.
  apply (NoDup_map_inj_on generation (attempts_of (a_jobId a) d)); [| | |done].
  - rewrite d_generations by done. apply NoDup_ListNoDup, List.seq_NoDup.
  - by apply elem_of_attempts_of.
  - by apply elem_of_attempts_of.
Qed.

(** ** Memory and tables *)

(** An attempt of a job that waits to be claimed is denied, or its lease has run out. *)
Definition settled (c : Z) (a : PeerAttempt) : Prop :=
  denied a ∨ a_status a = active ∧ leaseExpiresAt a ≤ c.

(** [x] is a job that is being changed, and is exempt from [i_open]; [U] are attempts of jobs
    that were undertaken, as the tables know. *)
Record Inv (U : jsstr → jsstr → Prop) (x : option jsstr) (s : store) (c : Z) : Prop := {
  i_db : DbInv (db s);
  i_jobs : ∀ k, persistedJobs s !! k = by_key jobId k (peer_jobs (db s));
  i_attempts : ∀ k, persistedAttempts s !! k = by_key attemptId k (peer_job_attempts (db s));
  i_job : ∀ k l, jobById s !! k = Some l → ∃ j, job_at s l = Some j ∧ jobId j = k;
  i_job_dom : ∀ k, is_Some (jobById s !! k) ↔ is_Some (by_key jobId k (peer_jobs (db s)));
  i_attempt : ∀ k l, attemptById s !! k = Some l →
    ∃ a row, attempt_at s l = Some a ∧ by_key attemptId k (peer_job_attempts (db s)) = Some row
             ∧ moved row a;
  i_attempt_dom : ∀ k, is_Some (by_key attemptId k (peer_job_attempts (db s))) →
    is_Some (attemptById s !! k);
  i_find : ∀ k l l', List.find (has_attempt_id s k) (attempts s) = Some l →
    attemptById s !! k = Some l' → l = l';
  i_valid : Forall (λ l, l < length (aheap s))%nat (attempts s);
  i_rows : ∀ k, List.map (λ l, attemptId <$> attempt_at s l) (default [] (attemptsByJob s !! k))
                ≡ₚ List.map (λ a, Some (attemptId a)) (attempts_of k (db s));
  i_open : ∀ k l j k' l' a, x ≠ Some k → jobById s !! k = Some l → job_at s l = Some j → open_job j →
    attemptById s !! k' = Some l' → attempt_at s l' = Some a → a_jobId a = k → settled c a;
  i_undertaken : ∀ k job, U k job →
    ∃ row, by_key attemptId k (peer_job_attempts (db s)) = Some row ∧ a_jobId row = job ∧ undertaken row
}.
#[global] Arguments i_db {U x s c}.
#[global] Arguments i_jobs {U x s c}.
#[global] Arguments i_attempts {U x s c}.
#[global] Arguments i_job {U x s c}.
#[global] Arguments i_job_dom {U x s c}.
#[global] Arguments i_attempt {U x s c}.
#[global] Arguments i_attempt_dom {U x s c}.
#[global] Arguments i_find {U x s c}.
#[global] Arguments i_valid {U x s c}.
#[global] Arguments i_rows {U x s c}.
#[global] Arguments i_open {U x s c}.
#[global] Arguments i_undertaken {U x s c}.

Section Invariant.
Context {U : jsstr → jsstr → Prop}.

Section Facts.
Context {x : option jsstr} {s : store} {c : Z} (HI : Inv U x s c).

Lemma attempt_row k l a :
  attemptById s !! k = Some l → attempt_at s l = Some a →
  attemptId a = k ∧ ∃ row, row ∈ peer_job_attempts (db s) ∧ moved row a.
Proof.
  intros Hl Ha. destruct (i_attempt HI _ _ Hl) as (a' & row & Ha' & Hr & Hm).
  rewrite Ha in Ha'. injection Ha' as <-. apply by_key_Some in Hr as [Hin Hk].
  destruct Hm as (Est & ?). split; [injection Est; congruence|]. exists row. by split.
Qed.

Lemma row_attempt row :
  row ∈ peer_job_attempts (db s) →
  ∃ l a, attemptById s !! attemptId row = Some l ∧ attempt_at s l = Some a ∧ moved row a.
Proof.
  intros Hin. pose proof (keyed_by_key _ _ _ (d_attempts _ (i_db HI)) Hin) as Hk.
  destruct (i_attempt_dom HI (attemptId row)) as [l Hl]; [by rewrite Hk|].
  destruct (i_attempt HI _ _ Hl) as (a & row' & Ha & Hr & Hm).
  rewrite Hk in Hr. injection Hr as <-. eauto.
Qed.

Lemma generation_count k : jobGeneration s k = count k (db s).
Proof.
  unfold jobGeneration, count. pose proof (Permutation_length (i_rows HI k)) as H.
  by rewrite !List.length_map in H.
Qed.

(** Every other attempt of the job of the newest attempt was denied. *)
Lemma others_denied a b :
  a ∈ peer_job_attempts (db s) → generation a = count (a_jobId a) (db s) →
  b ∈ peer_job_attempts (db s) → a_jobId b = a_jobId a → a ≠ b → denied b.
Proof.
  intros Ha Hg Hb Ej Hne. apply (d_old _ (i_db HI)); [done|].
  pose proof (generations_bound _ _ (i_db HI) Hb) as [_ Hb'].
  rewrite Ej in *. destruct (Nat.eq_dec (generation a) (generation b)) as [E|E]; [|lia].
  destruct Hne. by apply (generations_unique _ _ _ (i_db HI)).
Qed.

(** An active attempt is the newest of its job. *)
Lemma active_newest a :
  a ∈ peer_job_attempts (db s) → a_status a = active → generation a = count (a_jobId a) (db s).
Proof.
  intros Ha Hs. pose proof (generations_bound _ _ (i_db HI) Ha) as [_ Hg].
  destruct (decide (generation a = count (a_jobId a) (db s))) as [|Hne]; [done|].
  destruct (d_old _ (i_db HI) a Ha) as [[] _]; [lia|done].
Qed.
End Facts.

(** ** What the fence lets through *)

(** A job and its newest attempt, as objects in memory *)
Record held (s : store) (lj la : ref) (j : PeerJob) (a : PeerAttempt) : Prop := {
  h_job : jobById s !! jobId j = Some lj;
  h_job_at : job_at s lj = Some j;
  h_attempt : attemptById s !! attemptId a = Some la;
  h_attempt_at : attempt_at s la = Some a;
  h_owner : a_jobId a = jobId j;
  h_newest : generation a = jobGeneration s (jobId j)
}.

Ltac step_res H :=
  repeat match type of H with
  | _ ≫= _ = Ok _ => let E := fresh "E" in apply bind_Ok in H as (? & E & H)
  end.

(** The fence checked at a store: what it reads, it reads without changing the store. *)
Lemma fencedAttempt_run k id token peer s s' r :
  fencedAttempt k id token peer s = (s', r) →
  s' = s ∧ ∀ l, r = Ok l →
    is_Some (jobById s !! k) ∧
    ∃ a, attemptById s !! id = Some l ∧ attempt_at s l = Some a ∧ a_jobId a = k
         ∧ claimOwnerPeerId a = peer ∧ claimToken a = token ∧ generation a = jobGeneration s k.
Proof.
  unfold fencedAttempt, jobOrThrow, read_attempt, get_store, lift, mbind, M_bind. cbn.
  destruct (jobById s !! k) as [lj|] eqn:Ej; cbn; [|by intros [= <- <-]].
  destruct (attemptById s !! id) as [l|] eqn:El; cbn; [|by intros [= <- <-]].
  destruct (attempt_at s l) as [a|] eqn:Ea; cbn; [|by intros [= <- <-]].
  destruct (a_jobId a =s k) eqn:E1; cbn; [|by intros [= <- <-]].
  destruct (claimOwnerPeerId a =s peer) eqn:E2; cbn; [|by intros [= <- <-]].
  destruct (claimToken a =s token) eqn:E3; cbn; [|by intros [= <- <-]].
  destruct (generation a =? jobGeneration s k)%nat eqn:E4; cbn; [|by intros [= <- <-]].
  intros [= <- <-]. split; [done|]. intros ? [= <-]. split; [done|]. exists a. guards.
  split_and!; done.
Qed.

Lemma fenced_run x s c id token peer s' r :
  Inv U x s c → fenced id token peer s = (s', r) →
  s' = s ∧ ∀ lj la, r = Ok (lj, la) →
    ∃ j a, held s lj la j a ∧ attemptId a = id ∧ claimOwnerPeerId a = peer ∧ claimToken a = token.
Proof.
  intros HI. unfold fenced, get_store, lift, read_attempt, jobOrThrow, mbind, M_bind.
  destruct (List.find _ _) as [la|] eqn:Ef; cbn; [|by intros [= <- <-]].
  destruct (attempt_at s la) as [a|] eqn:Ea; cbn; [|by intros [= <- <-]].
  destruct (jobById s !! a_jobId a) as [lj|] eqn:Ej; cbn; [|by intros [= <- <-]].
  destruct (fencedAttempt (a_jobId a) id token peer s) as [s1 [l|e]] eqn:E;
    apply fencedAttempt_run in E as [-> H]; intros [= <- <-]; (split; [done|]); [|done].
  intros ? ? [= <- <-]. destruct (H l eq_refl) as (_ & a' & Hl & Ha' & Hj & Ho & Ht & Hg).
  assert (la = l) as <- by (by eapply (i_find HI)).
  rewrite Ea in Ha'. injection Ha' as <-.
  destruct (i_job HI _ _ Ej) as (j & Hj' & Hk).
  pose proof (proj1 (attempt_row HI _ _ _ Hl Ea)) as Hid. exists j, a. rewrite <- Hk in Ej, Hg.
  split_and!; try done. by constructor; rewrite ?Hid.
Qed.

(** ** Changes of memory *)

Lemma settled_later c c' a : c ≤ c' → settled c a → settled c' a.
Proof. intros H [?|[? ?]]; [by left|right; split; [done|lia]]. Qed.

Lemma inv_clock x s c c' : c ≤ c' → Inv U x s c → Inv U x s c'.
Proof.
  intros Hc []. constructor; try done. intros. by eapply settled_later; eauto.
Qed.

Lemma inv_exempt k s c : Inv U None s c → Inv U (Some k) s c.
Proof. intros []. constructor; try done. intros. eauto. Qed.

(** The exemption ends when the job's attempts are settled, if it waits to be claimed. *)
Lemma inv_settle_job k s c :
  Inv U (Some k) s c →
  (∀ l j k' l' a, jobById s !! k = Some l → job_at s l = Some j → open_job j →
     attemptById s !! k' = Some l' → attempt_at s l' = Some a → a_jobId a = k → settled c a) →
  Inv U None s c.
Proof.
  intros [] Hk. constructor; try done. intros k0 l j k' l' a _ Hl Hj Ho Hl' Ha Hak.
  destruct (decide (k0 = k)) as [->|Hne]; [by eapply Hk|].
  eapply (i_open0 k0); try done. congruence.
Qed.

Lemma job_at_alter s f lj l :
  job_at (set_jheap (alter f lj (jheap s)) s) l = if decide (l = lj) then f <$> job_at s l else job_at s l.
Proof.
  unfold job_at; cbn. case_decide as E; [subst; by rewrite list_lookup_alter_eq|].
  by rewrite list_lookup_alter_ne.
Qed.

Lemma attempt_at_alter s f la l :
  attempt_at (set_aheap (alter f la (aheap s)) s) l
  = if decide (l = la) then f <$> attempt_at s l else attempt_at s l.
Proof.
  unfold attempt_at; cbn. case_decide as E; [subst; by rewrite list_lookup_alter_eq|].
  by rewrite list_lookup_alter_ne.
Qed.

Lemma inv_edit_job x s c f lj j :
  Inv U x s c → jobById s !! jobId j = Some lj → job_at s lj = Some j → jobId (f j) = jobId j →
  (x = Some (jobId j) ∨ (open_job (f j) → open_job j)) →
  Inv U x (set_jheap (alter f lj (jheap s)) s) c.
Proof.
  intros HI Hlj Hj Hid Ho. pose proof HI as []. constructor; try done.
  - intros k l Hl. rewrite job_at_alter. destruct (i_job0 k l Hl) as (j' & Hj' & Hk).
    case_decide as E; [|by exists j']. subst l. rewrite Hj in Hj'. injection Hj' as <-.
    exists (f j). rewrite Hj. split; [done|congruence].
  - intros k l j' k' l' a Hx Hl Hj' Hop Hl' Ha Hak. rewrite job_at_alter in Hj'.
    case_decide as E; [|by eapply i_open0]. subst l. rewrite Hj in Hj'. injection Hj' as <-.
    destruct (i_job0 k lj Hl) as (j1 & Hj1 & Hk). rewrite Hj in Hj1. injection Hj1 as <-.
    destruct Ho as [->|Ho]; [congruence|]. eapply i_open0; eauto.
Qed.

Lemma inv_edit_attempt x s c f la a :
  Inv U x s c → attemptById s !! attemptId a = Some la → attempt_at s la = Some a → moved a (f a) →
  (x = Some (a_jobId a) ∨ (settled c a → settled c (f a))) →
  Inv U x (set_aheap (alter f la (aheap s)) s) c.
Proof.
  intros HI Hla Ha Hm Ho. pose proof HI as [].
  assert (Hid : ∀ l, attemptId <$> attempt_at (set_aheap (alter f la (aheap s)) s) l
                     = attemptId <$> attempt_at s l).
  { intros l. rewrite attempt_at_alter. case_decide as E; [|done]. subst l. rewrite Ha. cbn.
    f_equal. destruct Hm as (Est & _). by injection Est. }
  constructor; try done.
  - intros k l Hl. rewrite attempt_at_alter. destruct (i_attempt0 k l Hl) as (a' & row & Ha' & Hr & Hm').
    case_decide as E; [|by exists a', row]. subst l. rewrite Ha in Ha'. injection Ha' as <-.
    exists (f a), row. rewrite Ha. split_and!; [done|done|]. by eapply moved_trans.
  - intros k l l' Hf. apply i_find0. erewrite find_ext; [exact Hf|]. intros y _. unfold has_attempt_id.
    specialize (Hid y). destruct (attempt_at s y), (attempt_at _ y); cbn in *; congruence.
  - cbn. by rewrite length_alter.
  - intros k. cbn. rewrite <- i_rows0. erewrite List.map_ext; [done|]. intros l. by rewrite Hid.
  - intros k l j k' l' a' Hx Hl Hj Hop Hl' Ha' Hak. rewrite attempt_at_alter in Ha'.
    case_decide as E; [|by eapply i_open0]. subst l'. rewrite Ha in Ha'. injection Ha' as <-.
    assert (Ek : a_jobId a = k). { destruct Hm as (Est & _). injection Est as _ E _. congruence. }
    destruct Ho as [->|Ho]; [congruence|]. apply Ho. by eapply i_open0.
Qed.

(** ** Writing what is in memory *)

(** The store agrees with another on everything but the rows and what the process remembers of
    them. *)
Record same_memory (s s' : store) : Prop := {
  sm_jheap : jheap s' = jheap s;
  sm_aheap : aheap s' = aheap s;
  sm_attempts : attempts s' = attempts s;
  sm_jobById : jobById s' = jobById s;
  sm_attemptById : attemptById s' = attemptById s;
  sm_rows : ∀ k, default [] (attemptsByJob s' !! k) = default [] (attemptsByJob s !! k)
}.

Definition job_known (s : store) (l : ref) : Prop :=
  ∃ j, job_at s l = Some j ∧ jobById s !! jobId j = Some l.
Definition attempt_known (s : store) (l : ref) : Prop :=
  ∃ a, attempt_at s l = Some a ∧ attemptById s !! attemptId a = Some l.

Lemma after_known x s c ljs las d :
  Inv U x s c → Forall (job_known s) ljs → Forall (attempt_known s) las →
  same_memory s (after s ljs las d) ∧ db (after s ljs las d) = d
  ∧ persistedJobs (after s ljs las d) = foldl (remembered jobId (job_at s)) (persistedJobs s) ljs
  ∧ persistedAttempts (after s ljs las d)
    = foldl (remembered attemptId (attempt_at s)) (persistedAttempts s) las.
Proof.
  intros HI Hjs Has. unfold after. set (s0 := set_db d s).
  destruct (foldl_remember_job s0 ljs) as (E1 & E2 & E3 & E4 & E5 & E6 & E7 & E8 & E9 & E10 & E11).
  set (s1 := foldl remember_job s0 ljs) in *.
  destruct (foldl_remember_attempt s1 las) as (F1 & F2 & F3 & F4 & F5 & F6 & F7 & F8 & F9 & F10).
  assert (Ha : attempt_at s1 = attempt_at s) by (unfold attempt_at; by rewrite E2).
  split; [constructor|split_and!].
  - by rewrite F1.
  - by rewrite F2.
  - by rewrite F4.
  - rewrite F5, E11. clear -Hjs. change (job_at s0) with (job_at s). change (jobById s0) with (jobById s).
    induction Hjs as [|l ls (j & Hj & Hl) _ IH]; [done|]. cbn. rewrite Hj.
    by rewrite insert_id.
  - rewrite F10, E5, Ha. clear -Has. change (attemptById s0) with (attemptById s).
    induction Has as [|l ls (a & Ha & Hl) _ IH]; [done|]. cbn. rewrite Ha. by rewrite insert_id.
  - intros k. transitivity (default [] (attemptsByJob s1 !! k)); [|by rewrite E6].
    assert (Hrows : ∀ l, l ∈ las → ∃ a, attempt_at s1 l = Some a ∧
              existsb (has_attempt_id s1 (attemptId a)) (default [] (attemptsByJob s1 !! a_jobId a)) = true).
    { intros l Hin. rewrite Forall_forall in Has. destruct (Has l Hin) as (a & Hat & Hl).
      exists a. rewrite Ha. split; [done|]. rewrite E6. change (attemptsByJob s0) with (attemptsByJob s).
      apply existsb_exists. destruct (attempt_row HI _ _ _ Hl Hat) as (_ & row & Hrow & Hm).
      destruct Hm as (Est & _). injection Est as Ei Ej _ _ _.
      assert (Hk : Some (attemptId a) ∈ List.map (λ l, attemptId <$> attempt_at s l)
                     (default [] (attemptsByJob s !! a_jobId a))).
      { rewrite (i_rows HI). apply elem_of_Lmap. exists row. split; [congruence|].
        by apply elem_of_attempts_of. }
      apply elem_of_Lmap in Hk as (l' & E & Hl'). exists l'. split; [by apply list_elem_of_In|].
      unfold has_attempt_id. rewrite Ha. destruct (attempt_at s l') as [a'|]; [|done].
      cbn in E. injection E as ->. apply js_eqb_refl. }
    clear -Hrows. revert Hrows. generalize s1. clear s1. induction las as [|l las IH]; intros s1 Hrows; [done|].
    cbn [foldl]. destruct (Hrows l ltac:(left)) as (a & Ha & Hex).
    assert (Es : ∀ k, default [] (attemptsByJob (remember_attempt s1 l) !! k)
                      = default [] (attemptsByJob s1 !! k)).
    { intros k'. unfold remember_attempt. rewrite Ha. cbn. unfold push_attempt. rewrite Hex.
      destruct (decide (k' = a_jobId a)) as [->|Hne].
      - by rewrite lookup_insert_eq.
      - by rewrite lookup_insert_ne. }
    assert (Eat : attempt_at (remember_attempt s1 l) = attempt_at s1).
    { unfold remember_attempt. by rewrite Ha. }
    rewrite IH; [apply Es|]. intros l' Hin'. destruct (Hrows l' ltac:(by right)) as (a' & Ha' & Hex').
    exists a'. rewrite Eat, Es. split; [done|]. unfold has_attempt_id in *. by rewrite Eat.
  - by rewrite F8, E9.
  - by rewrite F6, E10.
  - rewrite F9, E7, Ha. done.
Qed.

Section Persist.
Context {x : option jsstr} {s : store} {c : Z} (HI : Inv U x s c) (ljs las : list ref) (d : database).
Hypothesis Hjs : Forall (job_known s) ljs.
Hypothesis Has : Forall (attempt_known s) las.
Hypothesis Ht : transaction true s ljs las = Ok d.

Let Hwj := proj1 (proj2 (proj2 (proj1 (transaction_Ok _ _ _ _ _) Ht))).
Let Hwa := proj2 (proj2 (proj2 (proj1 (transaction_Ok _ _ _ _ _) Ht))).

(** A row of a job is the object that was written, or as it was. *)
Lemma new_job_row k :
  (∃ l j, l ∈ ljs ∧ job_at s l = Some j ∧ jobId j = k ∧ by_key jobId k (peer_jobs d) = Some j)
  ∨ by_key jobId k (peer_jobs d) = by_key jobId k (peer_jobs (db s)).
Proof.
  pose proof Hwj as H. rewrite write_job_ref in H.
  apply write_all_rows in H as (_ & _ & H); [|apply HI]. destruct (H k) as [?|[_ ?]]; auto.
Qed.

Lemma job_rows_same k :
  is_Some (by_key jobId k (peer_jobs d)) ↔ is_Some (by_key jobId k (peer_jobs (db s))).
Proof.
  destruct (new_job_row k) as [(l & j & Hin & Hj & Hk & ->)| ->]; [|done].
  split; [intros _|by eauto]. rewrite <- (i_job_dom HI).
  rewrite Forall_forall in Hjs. destruct (Hjs l Hin) as (j' & Hj' & Hl).
  rewrite Hj in Hj'. injection Hj' as <-. rewrite Hk in Hl. eauto.
Qed.

Lemma new_attempt_row k :
  (∃ l a, l ∈ las ∧ attempt_at s l = Some a ∧ attemptId a = k
          ∧ by_key attemptId k (peer_job_attempts d) = Some a)
  ∨ (∀ l a, l ∈ las → attempt_at s l = Some a → attemptId a ≠ k)
    ∧ by_key attemptId k (peer_job_attempts d) = by_key attemptId k (peer_job_attempts (db s)).
Proof.
  pose proof Hwa as H. rewrite write_attempt_ref in H.
  apply write_all_rows in H as (_ & _ & H); [|apply HI]. apply H.
Qed.

Lemma written_keyed : keyed jobId (peer_jobs d) ∧ keyed attemptId (peer_job_attempts d).
Proof.
  pose proof Hwa as Ha. rewrite write_attempt_ref in Ha.
  pose proof Hwj as Hj. rewrite write_job_ref in Hj.
  apply write_all_rows in Ha as (? & _); [|apply HI].
  apply write_all_rows in Hj as (? & _); [|apply HI]. done.
Qed.

Lemma known_attempt l a :
  l ∈ las → attempt_at s l = Some a →
  attemptById s !! attemptId a = Some l ∧
  ∃ row, by_key attemptId (attemptId a) (peer_job_attempts (db s)) = Some row ∧ moved row a.
Proof.
  intros Hin Ha. rewrite Forall_forall in Has. destruct (Has l Hin) as (a' & Ha' & Hl).
  rewrite Ha in Ha'. injection Ha' as <-. split; [done|].
  destruct (i_attempt HI _ _ Hl) as (a' & row & Ha' & Hr & Hm).
  rewrite Ha in Ha'. injection Ha' as <-. eauto.
Qed.

Lemma written_stubs :
  List.map stub (peer_job_attempts d) = List.map stub (peer_job_attempts (db s)).
Proof.
  pose proof Hwa as H. rewrite write_attempt_ref in H.
  apply (write_all_part _ _ _ _ stub) in H; [done|]. intros l a Hin Ha.
  destruct (known_attempt l a Hin Ha) as (_ & row & Hr & Hm). exists row.
  rewrite (i_attempts HI). split; [done|]. apply Hm.
Qed.

Lemma attempt_rows_same k :
  is_Some (by_key attemptId k (peer_job_attempts d))
  ↔ is_Some (by_key attemptId k (peer_job_attempts (db s))).
Proof.
  destruct (new_attempt_row k) as [(l & a & Hin & Ha & Hk & ->)|[_ ->]]; [|done].
  split; [intros _|by eauto]. destruct (known_attempt l a Hin Ha) as (_ & row & Hr & _).
  rewrite Hk in Hr. eauto.
Qed.

(** Every row is an old row moved. *)
Lemma new_attempt_moved a :
  a ∈ peer_job_attempts d → ∃ row, row ∈ peer_job_attempts (db s) ∧ moved row a.
Proof.
  intros Ha. pose proof (keyed_by_key _ _ _ (proj2 written_keyed) Ha) as Hk.
  destruct (new_attempt_row (attemptId a)) as [(l & a' & Hin & Ha' & Hid & E)|[_ E]].
  - rewrite Hk in E. injection E as <-. destruct (known_attempt l a Hin Ha') as (_ & row & Hr & Hm).
    apply by_key_Some in Hr as [? _]. eauto.
  - rewrite Hk in E. symmetry in E. apply by_key_Some in E as [Hin _]. exists a. split; [done|].
    by apply moved_refl, (d_ok _ (i_db HI)).
Qed.

(** A job that is written waiting to be claimed has its attempts denied, as they are then. *)
Definition open_writes_denied : Prop :=
  ∀ l j b, l ∈ ljs → job_at s l = Some j → open_job j → b ∈ peer_job_attempts (db s) →
    a_jobId b = jobId j →
    denied b ∨ ∃ l' a, l' ∈ las ∧ attempt_at s l' = Some a ∧ attemptId a = attemptId b ∧ denied a.

Lemma written_db : open_writes_denied → DbInv d.
Proof.
  intros Hopen. pose proof written_keyed as [Hkj Hka]. pose proof (i_db HI) as Hd.
  constructor; try done.
  - intros a Ha. destruct (new_attempt_moved a Ha) as (row & Hrow & Hm).
    destruct Hm as (Est & _). injection Est as _ -> _ _ _. apply job_rows_same.
    by apply (d_owner _ Hd).
  - intros k. destruct (same_stubs _ _ written_stubs k) as (-> & -> & _). apply Hd.
  - intros a Ha Hg. destruct (new_attempt_moved a Ha) as (row & Hrow & Hm).
    eapply moved_denied; [|done]. apply (d_old _ Hd); [done|].
    destruct Hm as (Est & _). injection Est as _ Ej _ _ Eg. rewrite <- Ej, <- Eg.
    by rewrite <- (proj1 (same_stubs _ _ written_stubs _)).
  - intros j a Hj Ho Ha Ej. destruct (new_attempt_moved a Ha) as (row & Hrow & Hm).
    assert (Erow : a_jobId row = jobId j ∧ attemptId a = attemptId row).
    { destruct Hm as (Est & _). injection Est as ? ? _ _ _. split; congruence. }
    destruct Erow as [Erow Eid].
    pose proof (keyed_by_key _ _ _ Hkj Hj) as Hbj.
    destruct (new_job_row (jobId j)) as [(l & j' & Hin & Hj' & Hid & E)|E]; rewrite Hbj in E.
    + injection E as <-. destruct (Hopen l j row Hin Hj' Ho Hrow Erow) as [Hden|(l' & a' & Hin' & Ha' & Hi & Hden)].
      { by eapply moved_denied. }
      destruct (new_attempt_row (attemptId a)) as [(l2 & a2 & Hin2 & Ha2 & Hid2 & E2)|[Hno _]].
      * rewrite (keyed_by_key _ _ _ Hka Ha) in E2. injection E2 as <-.
        destruct (known_attempt l' a' Hin' Ha') as [Hl' _].
        destruct (known_attempt l2 a Hin2 Ha2) as [Hl2 _]. congruence.
      * by destruct (Hno l' a' Hin' Ha'); congruence.
    + symmetry in E. apply by_key_Some in E as [Hin _]. eapply moved_denied; [|done].
      by apply (d_open _ Hd j).
  - intros a Ha. destruct (new_attempt_moved a Ha) as (row & _ & Hm). apply Hm.
Qed.

Lemma inv_after : open_writes_denied → Inv U x (after s ljs las d) c.
Proof.
  intros Hopen. destruct (after_known _ _ _ _ _ d HI Hjs Has) as ([] & Edb & Epj & Epa).
  pose proof (written_db Hopen) as Hd. pose proof HI as [].
  assert (Hjat : job_at (after s ljs las d) = job_at s) by (unfold job_at; by rewrite sm_jheap0).
  assert (Haat : attempt_at (after s ljs las d) = attempt_at s) by (unfold attempt_at; by rewrite sm_aheap0).
  constructor; rewrite ?Edb, ?sm_jobById0, ?sm_attemptById0, ?sm_attempts0, ?sm_aheap0, ?Hjat, ?Haat; try done.
  - intros k. rewrite Epj. pose proof Hwj as H. rewrite write_job_ref in H.
    by eapply write_all_remembered; [apply HI|exact H|].
  - intros k. rewrite Epa. pose proof Hwa as H. rewrite write_attempt_ref in H.
    by eapply write_all_remembered; [apply HI|exact H|].
  - intros k. by rewrite job_rows_same.
  - intros k l Hl. destruct (i_attempt0 k l Hl) as (a & row & Ha & Hr & Hm).
    destruct (new_attempt_row k) as [(l' & a' & Hin & Ha' & Hid & E)|[_ E]].
    + assert (l = l') as <-.
      { destruct (known_attempt l' a' Hin Ha') as [Hl' _]. congruence. }
      rewrite Ha in Ha'. injection Ha' as <-. exists a, a. split_and!; [done|done|].
      apply moved_refl, Hm.
    + exists a, row. by rewrite E.
  - intros k. rewrite attempt_rows_same. apply i_attempt_dom0.
  - intros k l l' Hf. apply i_find0. erewrite find_ext; [exact Hf|]. intros y _.
    unfold has_attempt_id. by rewrite Haat.
  - intros k. rewrite sm_rows0, i_rows0, <- !(List.map_map attemptId Some).
    by rewrite (proj2 (proj2 (same_stubs _ _ written_stubs k))).
  - intros k job Hk. destruct (i_undertaken0 k job Hk) as (row & Hrow & Hjob & Hu).
    destruct (new_attempt_row k) as [(l & a & Hin & Ha & Hid & E)|[_ E]]; [|rewrite E; eauto].
    exists a. split; [done|]. destruct (known_attempt l a Hin Ha) as (_ & row' & Hr' & Hm).
    rewrite Hid, Hrow in Hr'. injection Hr' as <-. split; [|by apply Hm].
    destruct Hm as (Est & _). injection Est. congruence.
Qed.
End Persist.

End Invariant.

End PeerJobInvariant.
