(* ===== verification/PeerJobSafety.v ===== *)
(** * Peer jobs: every operation keeps the invariant

    An operation on an attempt finds the objects of the job and of its newest attempt, assigns
    their fields, and writes both: [busy] is the invariant in between.  The other operations write
    a job that does not wait to be claimed, insert a new job, or insert a new attempt of a job that
    waited; the sweep of expired leases and the restart change many objects and write them at
    once. *)

From S2P Require Import Prelude JsString Json Sql CanonicalJson PeerContracts PeerReceipts PeerJobs.
From S2P Require Import PeerJobMemory PeerJobInvariant PeerJobSystem.

Module PeerJobSafety.
Import CanonicalJson PeerContracts PeerReceipts PeerJobs PeerJobMemory PeerJobInvariant PeerJobSystem.
Local Open Scope Z_scope.

(** ** Running computations *)

Section Run.
Context {B : Type}.
Implicit Types (s : store).

Lemma bind_get (k : store → M B) s : (get_store ≫= k) s = k s s.
Proof. done. Qed.
Lemma bind_ret {A} (a : A) (k : A → M B) s : (mret a ≫= k) s = k a s.
Proof. done. Qed.
Lemma bind_lift {A} (x : res PeerJobError A) (k : A → M B) s :
  (lift x ≫= k) s = match x with Ok a => k a s | Err e => (s, Err e) end.
Proof. by destruct x. Qed.
Lemma bind_read_job l j (k : PeerJob → M B) s :
  job_at s l = Some j → (read_job l ≫= k) s = k j s.
Proof. intros H. unfold read_job, get_store, lift, mbind, M_bind. by rewrite H. Qed.
Lemma bind_read_attempt l a (k : PeerAttempt → M B) s :
  attempt_at s l = Some a → (read_attempt l ≫= k) s = k a s.
Proof. intros H. unfold read_attempt, get_store, lift, mbind, M_bind. by rewrite H. Qed.
Lemma bind_assign_job l f (k : unit → M B) s :
  (assign_job l f ≫= k) s = k tt (set_jheap (alter f l (jheap s)) s).
Proof. done. Qed.
Lemma bind_assign_attempt l f (k : unit → M B) s :
  (assign_attempt l f ≫= k) s = k tt (set_aheap (alter f l (aheap s)) s).
Proof. done. Qed.
Lemma bind_modify f (k : unit → M B) s : (modify f ≫= k) s = k tt (f s).
Proof. done. Qed.
Lemma bind_assoc {A C} (m : M A) (h : A → M C) (k : C → M B) s :
  ((m ≫= h) ≫= k) s = (m ≫= (λ a, h a ≫= k)) s.
Proof. unfold mbind, M_bind. destruct (m s) as [s1 []]; [|done]. by destruct (h a s1) as [? []]. Qed.
End Run.

Lemma fmap_run {A B} (f : A → B) (m : M A) s s' r :
  (f <$> m) s = (s', r) → ∃ r0, m s = (s', r0).
Proof. unfold fmap, M_fmap. destruct (m s) as [s1 []]; intros [= <- <-]; eauto. Qed.

Lemma both_run lj la s s' r : both lj la s = (s', r) → s' = s.
Proof.
  unfold both, read_job, read_attempt, get_store, lift, mbind, M_bind, mret, M_ret.
  destruct (require (job_at s lj) dangling); [|by intros [= <- _]].
  destruct (require (attempt_at s la) dangling); by intros [= <- _].
Qed.

Lemma fence_active a now s s' r :
  assertActiveAttemptForFence a now s = (s', r) →
  s' = s ∧ (r = Ok tt → a_status a = active ∧ now < leaseExpiresAt a).
Proof.
  unfold assertActiveAttemptForFence. rewrite bind_lift. unfold ensure.
  destruct (bool_decide (a_status a = active)) eqn:Ea; [|by intros [= <- <-]].
  unfold lift, reject. destruct (leaseExpiresAt a <=? now) eqn:El; intros [= <- <-]; [done|].
  guards. done.
Qed.

Section Safety.
Context {U : jsstr → jsstr → Prop}.

(** ** A job and its newest attempt *)

Record busy (s : store) (c : Z) (lj la : ref) (j : PeerJob) (a : PeerAttempt) : Prop := {
  b_inv : Inv U (Some (jobId j)) s c;
  b_held : held s lj la j a
}.

Lemma held_busy s c lj la j a : Inv U None s c → held s lj la j a → busy s c lj la j a.
Proof. intros HI Hh. constructor; [by apply inv_exempt|done]. Qed.

Section Busy.
Context {s : store} {c : Z} {lj la : ref} {j : PeerJob} {a : PeerAttempt}.
Context (Hb : busy s c lj la j a).

Lemma busy_assign_job f :
  jobId (f j) = jobId j → busy (set_jheap (alter f lj (jheap s)) s) c lj la (f j) a.
Proof.
  intros Hid. destruct Hb as [HI []]. constructor; [|constructor; try done].
  - rewrite Hid. eapply inv_edit_job; try done. by left.
  - by rewrite Hid.
  - rewrite job_at_alter, decide_True by done. by rewrite h_job_at0.
  - by rewrite Hid.
  - by rewrite Hid.
Qed.

Lemma busy_assign_attempt f :
  moved a (f a) → busy (set_aheap (alter f la (aheap s)) s) c lj la j (f a).
Proof.
  intros Hm. destruct Hb as [HI []]. pose proof Hm as (Est & _). injection Est as Ei Ej _ _ Eg.
  constructor; [|constructor; try done].
  - eapply inv_edit_attempt; try done. left. by f_equal.
  - by rewrite Ei.
  - rewrite attempt_at_alter, decide_True by done. by rewrite h_attempt_at0.
  - by rewrite Ej.
  - by rewrite Eg.
Qed.

(** Any other attempt of the job was denied. *)
Lemma busy_others k l b :
  attemptById s !! k = Some l → attempt_at s l = Some b → a_jobId b = jobId j → b = a ∨ denied b.
Proof.
  destruct Hb as [HI []]. intros Hl Hat Hj.
  destruct (attempt_row HI _ _ _ Hl Hat) as (Hk & rb & Hrb & Hmb).
  destruct (attempt_row HI _ _ _ h_attempt0 h_attempt_at0) as (_ & ra & Hra & Hma).
  pose proof Hmb as (Eb & _). pose proof Hma as (Ea & _).
  injection Eb as Eb1 Eb2 _ _ Eb3. injection Ea as Ea1 Ea2 _ _ Ea3.
  destruct (decide (ra = rb)) as [<-|Hne].
  - left. assert (l = la) as -> by congruence. congruence.
  - right. apply (moved_denied rb); [|done].
    apply (others_denied HI ra); try done; [|congruence].
    rewrite <- Ea3, <- Ea2, h_owner0, <- (generation_count HI). done.
Qed.

Lemma busy_done : (open_job j → settled c a) → Inv U None s c.
Proof.
  intros Ho. pose proof Hb as [HI []]. eapply inv_settle_job; [done|].
  intros l j' k' l' b Hl Hj' Hop Hl' Hat Hjb. rewrite h_job0 in Hl. injection Hl as <-.
  rewrite h_job_at0 in Hj'. injection Hj' as <-.
  destruct (busy_others _ _ _ Hl' Hat Hjb) as [->|Hd]; [by apply Ho|by left].
Qed.

Lemma busy_persist commits s' r :
  (open_job j → denied a) → persist commits [lj] [la] s = (s', r) → Inv U None s' c.
Proof.
  intros Ho H. pose proof Hb as [HI Hh]. pose proof Hh as [].
  assert (HN : Inv U None s c) by (apply busy_done; intros ?; left; auto).
  apply persist_run in H as [[-> _]|(d & Ht & -> & _)]; [done|].
  destruct commits; [|done]. apply inv_after; try done.
  - repeat constructor. by exists j.
  - repeat constructor. by exists a.
  - intros l j' b ->%list_elem_of_singleton Hj' Hop Hin Hbj. rewrite h_job_at0 in Hj'.
    injection Hj' as <-. destruct (row_attempt HN b Hin) as (l' & b' & Hl' & Hat & Hm).
    pose proof Hm as (Est & _). injection Est as Ei Ej _ _ _.
    destruct (attempt_row HN _ _ _ h_attempt0 h_attempt_at0) as (_ & ra & Hra & Hma).
    destruct Hma as (Ea & Hma). injection Ea as Ea1 Ea2 _ _ Ea3.
    destruct (decide (ra = b)) as [<-|Hne].
    + right. exists la, a. split_and!; [left|done|done|auto].
    + left. apply (others_denied HN ra); try done; [|congruence].
      rewrite <- Ea3, <- Ea2, h_owner0, <- (generation_count HN). done.
Qed.
End Busy.

(** ** Operations on an attempt *)

(** A computation that only reads *)
Definition reads {A} (m : M A) : Prop := ∀ s s' r, m s = (s', r) → s' = s.

Lemma reads_both lj la : reads (both lj la).
Proof. intros s s' r. apply both_run. Qed.
Lemma reads_throw {A} e : reads (throw e : M A).
Proof. by intros s s' r [= <- _]. Qed.
Lemma reads_ret {A} (a : A) : reads (mret a : M A).
Proof. by intros s s' r [= <- _]. Qed.
Lemma reads_bind {A B} (m : M A) (k : A → M B) : reads m → (∀ a, reads (k a)) → reads (m ≫= k).
Proof.
  intros Hm Hk s s' r. unfold mbind, M_bind. destruct (m s) as [s1 [a|e]] eqn:E.
  - intros H. apply Hk in H as ->. by eapply Hm.
  - intros [= <- _]. by eapply Hm.
Qed.
Lemma reads_read_job l : reads (read_job l).
Proof. by intros s s' r [-> _]%read_job_run. Qed.
Lemma reads_map_both lj la (b : bool) : reads ('(j, a) ← both lj la; mret (j, a, b)).
Proof. apply reads_bind; [apply reads_both|]. intros [j a]. apply reads_ret. Qed.
#[local] Hint Resolve reads_both reads_throw reads_ret reads_read_job reads_map_both : kontrol.

(** Writing a busy job and its attempt is the end of an operation. *)
Lemma busy_write {A} s c lj la j a commits (k : unit → M A) s' r :
  busy s c lj la j a → (persist commits [lj] [la] ≫= k) s = (s', r) →
  reads (k tt) → (open_job j → denied a) → Inv U None s' c.
Proof.
  intros Hb H Hk Ho. apply M_bind_run in H as [(s1 & [] & Hp & H)|(e & Hp & _)].
  - apply Hk in H as ->. by eapply busy_persist.
  - by eapply busy_persist.
Qed.

(** An operation that begins with the fence and then does [k] *)
Lemma fenced_op {A} id token peer (k : ref * ref → M A) s c s' r :
  Inv U None s c →
  (∀ lj la j a, held s lj la j a → attemptId a = id → ∀ s' r, k (lj, la) s = (s', r) → Inv U None s' c) →
  (fenced id token peer ≫= k) s = (s', r) → Inv U None s' c.
Proof.
  intros HI Hk H. apply M_bind_run in H as [(s1 & [lj la] & Hf & H)|(e & Hf & _)];
    eapply fenced_run in Hf as [-> Hf]; try done.
  destruct (Hf lj la eq_refl) as (j & a & Hh & Hid & _). by eapply Hk.
Qed.

Lemma moved_status a st : attempt_ok a → st ≠ active → moved a (set_a_status st a).
Proof.
  intros (H1 & H2 & H3) Hst. unfold moved.
  split; [done|]. split; [|split; [done|split; done]]. split; [done|]. by split.
Qed.

Lemma held_ok x s c lj la j a : Inv U x s c → held s lj la j a → attempt_ok a.
Proof.
  intros HI [].
  destruct (attempt_row HI _ _ _ h_attempt0 h_attempt_at0) as (_ & row & _ & Hm). apply Hm.
Qed.

(** After expiry a job waits only when its attempt was denied. *)
Lemma expire_run {A} s c lj la j a commits (k : unit → M A) s' r :
  Inv U None s c → held s lj la j a → (expire commits lj la a ≫= k) s = (s', r) →
  reads (k tt) → Inv U None s' c.
Proof.
  intros HI Hh H Hk. unfold expire in H. rewrite !bind_assoc, bind_assign_attempt in H.
  cbn beta in H. rewrite bind_assoc, bind_assign_job in H.
  pose proof (held_busy _ _ _ _ _ _ HI Hh) as Hb.
  apply busy_assign_attempt with (f := set_a_status expired) in Hb;
    [|apply moved_status; [by eapply held_ok|done]].
  apply busy_assign_job with (f := set_status (after_expiry a)) in Hb; [|done].
  eapply busy_write; [exact Hb|exact H|exact Hk|].
  intros [Hst _]. cbn in Hst. unfold after_expiry in Hst. case_bool_decide; [|done].
  split; [done|]. done.
Qed.

Lemma markStarted_inv commits id token peer now remote s s' r :
  Inv U None s now → markStarted commits id token peer now remote s = (s', r) → Inv U None s' now.
Proof.
  intros HI. apply fenced_op; [done|]. clear s' r. intros lj la j a Hh Hid s' r H.
  rewrite (bind_read_attempt _ a), bind_lift in H by apply Hh. unfold ensure in H.
  destruct (bool_decide (a_status a = active)) eqn:Ea; [|by injection H as <- _]. guards.
  destruct (leaseExpiresAt a <=? now) eqn:El.
  { eapply expire_run; [done|exact Hh|exact H|apply reads_both]. }
  rewrite bind_assign_attempt, bind_assign_job in H.
  pose proof (held_busy _ _ _ _ _ _ HI Hh) as Hb.
  apply busy_assign_attempt with (f := set_started now remote) in Hb.
  2:{ unfold moved. split; [done|]. split; [|split; [done|split; [done|]]].
      - split; [done|]. split; [by left|]. intros _. by eexists.
      - by left. }
  apply busy_assign_job with (f := set_status running) in Hb; [|done].
  eapply busy_write; [exact Hb|exact H|apply reads_both|]. by intros [? _].
Qed.

Lemma markNotStarted_inv commits id token peer now s s' r :
  Inv U None s now → markNotStarted commits id token peer now s = (s', r) → Inv U None s' now.
Proof.
  intros HI. apply fenced_op; [done|]. clear s' r. intros lj la j a Hh Hid s' r H.
  rewrite (bind_read_attempt _ a) in H by apply Hh.
  apply M_bind_run in H as [(s1 & [] & Hf & H)|(e & Hf & _)]; apply fence_active in Hf as [-> Hf]; [|done].
  destruct (Hf eq_refl) as [Hact Hl]. rewrite bind_lift in H. unfold reject in H.
  destruct (bool_decide (is_Some (executionStartedAt a))) eqn:Ee; [by injection H as <- _|].
  apply bool_decide_eq_false in Ee. rewrite bind_assign_attempt in H.
  pose proof (held_busy _ _ _ _ _ _ HI Hh) as Hb. pose proof (held_ok _ _ _ _ _ _ _ HI Hh) as (O1 & O2 & O3).
  apply busy_assign_attempt with (f := set_certainty not_started) in Hb.
  2:{ unfold moved. split; [done|]. split; [|split; [done|split; [done|]]].
      - split; [done|]. split; [done|]. done.
      - intros [Hu|Hu]; [by destruct Ee; apply O3|by destruct O1]. }
  eapply busy_write; [exact Hb|exact H|apply reads_both|]. intros Ho.
  destruct (i_open HI (jobId j) lj j (attemptId a) la a) as [[Hna _]|[_ ?]]; try done;
    try apply Hh. lia.
Qed.

Lemma renewLease_inv commits id token peer now leaseMs s s' r :
  Inv U None s now → renewLease commits id token peer now leaseMs s = (s', r) → Inv U None s' now.
Proof.
  intros HI H. unfold renewLease in H. rewrite bind_lift in H.
  destruct leaseMs as [ms|]; cbn [require] in H; [|by injection H as <- _].
  rewrite bind_lift in H. unfold reject in H.
  destruct ((ms <=? 0) || (600000 <? ms)); [by injection H as <- _|].
  revert H. apply fenced_op; [done|]. clear s' r. intros lj la j a Hh Hid s' r H.
  rewrite (bind_read_job _ j), (bind_read_attempt _ a) in H by apply Hh.
  destruct (_ <=? 0); [eapply expire_run; [done|exact Hh|exact H|apply reads_throw]|].
  destruct (now <? leaseExpiresAt a) eqn:El.
  - guards. rewrite bind_assign_attempt in H. pose proof (held_busy _ _ _ _ _ _ HI Hh) as Hb.
    match type of H with context [set_lease ?e ?n] =>
      apply busy_assign_attempt with (f := set_lease e n) in Hb end.
    2:{ pose proof (held_ok _ _ _ _ _ _ _ HI Hh) as (O1 & O2 & O3). unfold moved.
        split; [done|]. split; [by split|]. done. }
    eapply busy_write; [exact Hb|exact H|apply reads_both|]. intros Ho.
    destruct (i_open HI (jobId j) lj j (attemptId a) la a) as [[??]|[_ ?]]; try done;
      try apply Hh. lia.
  - guards. apply M_bind_run in H as [(s1 & [] & Hf & H)|(e & Hf & _)];
      apply fence_active in Hf as [-> Hf]; [|done]. destruct (Hf eq_refl). lia.
Qed.

Lemma moved_completed a r : attempt_ok a → a_status a = active → moved a (set_completed r a).
Proof.
  intros (O1 & O2 & O3) Ha. unfold moved. split; [done|]. split; [|split; [done|split; [done|]]].
  - split; [done|]. split; [by right|done].
  - by right.
Qed.

Lemma completeAttempt_inv commits id token peer rc now s s' r :
  Inv U None s now → completeAttempt commits id token peer rc now s = (s', r) → Inv U None s' now.
Proof.
  intros HI. apply fenced_op; [done|]. clear s' r. intros lj la j a Hh Hid s' r H.
  rewrite (bind_read_attempt _ a) in H by apply Hh.
  destruct (bool_decide (a_status a = a_completed)).
  { destruct (receipt a) as [stored|]; [|by injection H as <- _]. rewrite bind_lift in H.
    unfold ensure in H. destruct (_ =s _); [|by injection H as <- _].
    apply (reads_map_both lj la true) in H as ->. done. }
  apply M_bind_run in H as [(s1 & [] & Hf & H)|(e & Hf & _)]; apply fence_active in Hf as [-> Hf]; [|done].
  destruct (Hf eq_refl) as [Hact Hl]. clear Hf.
  rewrite bind_assign_attempt, bind_assign_job in H. pose proof (held_busy _ _ _ _ _ _ HI Hh) as Hb.
  apply busy_assign_attempt with (f := set_completed rc) in Hb;
    [|apply moved_completed; [by eapply held_ok|done]].
  apply busy_assign_job with (f := set_terminalAt None) in Hb; [|done].
  destruct (succeeded rc).
  { rewrite bind_assign_job in H. apply busy_assign_job with (f := set_status result_received) in Hb; [|done].
    eapply busy_write; [exact Hb|exact H|apply reads_map_both|]. by intros [? _]. }
  rewrite bind_assoc, bind_assign_job, bind_assoc, bind_assign_job, bind_assoc, bind_lift in H.
  assert (Hst : (if reports_failure rc then failed else cancelled) ≠ pending).
  { by destruct (reports_failure rc). }
  set (st := if reports_failure rc then failed else cancelled) in *. clearbody st.
  apply busy_assign_job with (f := set_status st) in Hb; [|done].
  apply busy_assign_job with (f := set_terminalAt (Some now)) in Hb; [|done].
  destruct (reported _ rc) as [reason|e].
  - rewrite bind_assign_job in H. apply busy_assign_job with (f := set_terminal st now reason) in Hb; [|done].
    eapply busy_write; [exact Hb|exact H|apply reads_map_both|]. by intros [? _].
  - injection H as <- _. apply (busy_done Hb). by intros [? _].
Qed.

Lemma failAttempt_inv commits id token peer reason now s s' r :
  Inv U None s now → failAttempt commits id token peer reason now s = (s', r) → Inv U None s' now.
Proof.
  intros HI. apply fenced_op; [done|]. clear s' r. intros lj la j a Hh Hid s' r H.
  rewrite (bind_read_attempt _ a) in H by apply Hh.
  apply M_bind_run in H as [(s1 & [] & Hf & H)|(e & Hf & _)]; apply fence_active in Hf as [-> Hf]; [|done].
  destruct (Hf eq_refl) as [Hact Hl]. clear Hf. rewrite bind_assign_attempt, bind_assign_job in H.
  pose proof (held_busy _ _ _ _ _ _ HI Hh) as Hb. pose proof (held_ok _ _ _ _ _ _ _ HI Hh) as Hok.
  apply busy_assign_attempt with (f := set_a_status a_failed) in Hb; [|by apply moved_status].
  match type of H with context [alter (set_status ?st) lj] =>
    apply busy_assign_job with (f := set_status st) in Hb; [|done] end.
  eapply busy_write; [exact Hb|exact H|apply reads_both|]. intros [Hst _]. cbn in Hst.
  split; [done|]. case_bool_decide as E; [done|]. cbn. destruct Hok as (O1 & _).
  destruct (outcomeCertainty a) eqn:Ec; try done; [destruct E; by left|destruct E; by right|by destruct O1].
Qed.

Lemma cancelAck_inv commits id token peer now s s' r :
  Inv U None s now → cancelAck commits id token peer now s = (s', r) → Inv U None s' now.
Proof.
  intros HI. apply fenced_op; [done|]. clear s' r. intros lj la j a Hh Hid s' r H.
  rewrite (bind_read_job _ j), (bind_read_attempt _ a), bind_lift in H by apply Hh. unfold ensure in H.
  destruct (bool_decide (is_Some (cancelRequestedAt j))); [|by injection H as <- _].
  rewrite bind_get, bind_lift in H.
  match type of H with context [if ?b then Ok tt else _] => destruct b end; [|by injection H as <- _].
  rewrite bind_assign_attempt, bind_assign_job in H. pose proof (held_busy _ _ _ _ _ _ HI Hh) as Hb.
  apply busy_assign_attempt with (f := set_a_status a_failed) in Hb;
    [|apply moved_status; [by eapply held_ok|done]].
  match type of H with context [set_terminal ?st ?n ?w] =>
    apply busy_assign_job with (f := set_terminal st n w) in Hb; [|done] end.
  eapply busy_write; [exact Hb|exact H|apply reads_both|]. by intros [? _].
Qed.

(** ** Operations on a job *)

Record idle (s : store) (c : Z) (lj : ref) (j : PeerJob) : Prop := {
  id_inv : Inv U None s c;
  id_job : jobById s !! jobId j = Some lj;
  id_at : job_at s lj = Some j
}.

Lemma job_op {A} k (f : ref → M A) s c s' r :
  Inv U None s c →
  (∀ lj j, idle s c lj j → jobId j = k → ∀ s' r, f lj s = (s', r) → Inv U None s' c) →
  (jobOrThrow k ≫= f) s = (s', r) → Inv U None s' c.
Proof.
  intros HI Hf H. unfold jobOrThrow in H. rewrite bind_assoc, bind_get, bind_lift in H.
  destruct (jobById s !! k) as [lj|] eqn:El; cbn [require] in H; [|by injection H as <- _].
  destruct (i_job HI _ _ El) as (j & Hj & Hk). apply (Hf lj j) in H; [done| |done].
  constructor; [done|by rewrite Hk|done].
Qed.

Lemma idle_assign s c lj j f :
  idle s c lj j → jobId (f j) = jobId j → (open_job (f j) → open_job j) →
  idle (set_jheap (alter f lj (jheap s)) s) c lj (f j).
Proof.
  intros [HI Hl Hj] Hid Ho. constructor.
  - eapply inv_edit_job; try done. by right.
  - by rewrite Hid.
  - rewrite job_at_alter, decide_True by done. by rewrite Hj.
Qed.

Lemma idle_write {A} s c lj j commits (k : unit → M A) s' r :
  idle s c lj j → (persist commits [lj] [] ≫= k) s = (s', r) → reads (k tt) → ¬ open_job j →
  Inv U None s' c.
Proof.
  intros [HI Hl Hj] H Hk Ho.
  assert (Hp : ∀ s1 r1, persist commits [lj] [] s = (s1, r1) → Inv U None s1 c).
  { intros s1 r1 Hp. apply persist_run in Hp as [[-> _]|(d & Ht & -> & _)]; [done|].
    destruct commits; [|done]. apply inv_after; try done.
    - repeat constructor. by exists j.
    - intros l j' b ->%list_elem_of_singleton Hj' Hop. congruence. }
  apply M_bind_run in H as [(s1 & [] & Hp1 & H)|(e & Hp1 & _)]; [|by eapply Hp].
  apply Hk in H as ->. by eapply Hp.
Qed.

Lemma markStaging_inv commits k sha now s s' r :
  Inv U None s now → markStaging commits k sha now s = (s', r) → Inv U None s' now.
Proof.
  intros HI. apply job_op; [done|]. clear s' r. intros lj j Hi Hk s' r H.
  rewrite (bind_read_job _ j) in H by apply Hi.
  destruct (bool_decide _) in H; [by injection H as <- _|]. rewrite bind_lift in H. unfold ensure in H.
  destruct (bool_decide _) in H; [|by injection H as <- _]. rewrite bind_lift in H. unfold reject in H.
  destruct (_ && _) in H; [by injection H as <- _|]. rewrite bind_assign_job, bind_assign_job in H.
  apply idle_assign with (f := set_status staging) in Hi; [|done|by intros [? _]].
  match type of H with context [alter ?g lj (jheap (set_jheap _ _))] => apply idle_assign with (f := g) in Hi; [|done..] end.
  eapply idle_write; [exact Hi|exact H|apply reads_read_job|]. by intros [? _].
Qed.

Lemma markAwaitingReview_inv commits k i now s s' r :
  Inv U None s now → markAwaitingReview commits k i now s = (s', r) → Inv U None s' now.
Proof.
  intros HI. apply job_op; [done|]. clear s' r. intros lj j Hi Hk s' r H.
  rewrite (bind_read_job _ j) in H by apply Hi.
  destruct (bool_decide (status j = awaiting_review)) eqn:Est; cbn [andb] in H;
    [destruct (is_submission j (ri_submissionId i))|].
  - apply bool_decide_eq_true in Est. destruct (_ && _) in H.
    + rewrite bind_assoc, bind_assign_job in H.
      match type of H with context [alter ?g lj (jheap _)] => apply idle_assign with (f := g) in Hi; [|done..] end.
      eapply idle_write; [exact Hi|exact H|apply reads_read_job|]. intros [Hp _]. cbn in Hp. congruence.
    + rewrite bind_ret in H. by apply reads_read_job in H as ->.
  - rewrite bind_lift in H. unfold ensure in H.
    apply bool_decide_eq_true in Est. destruct (bool_decide (status j = staging)) eqn:E2.
    { apply bool_decide_eq_true in E2. congruence. }
    by injection H as <- _.
  - rewrite bind_lift in H. unfold ensure in H. destruct (_ && _) in H; [|by injection H as <- _].
    rewrite bind_assign_job, bind_assign_job in H.
    apply idle_assign with (f := set_status awaiting_review) in Hi; [|done|by intros [? _]].
    match type of H with context [alter (set_processing ?p) lj] =>
      apply idle_assign with (f := set_processing p) in Hi; [|done..] end.
    eapply idle_write; [exact Hi|exact H|apply reads_read_job|]. by intros [? _].
Qed.

Lemma recordVerification_inv commits k submission epoch st evidence now s s' r :
  Inv U None s now → recordVerification commits k submission epoch st evidence now s = (s', r) →
  Inv U None s' now.
Proof.
  intros HI. apply job_op; [done|]. clear s' r. intros lj j Hi Hk s' r H.
  rewrite (bind_read_job _ j), bind_lift in H by apply Hi. unfold ensure in H.
  destruct (bool_decide (status j = awaiting_review)) eqn:Est; [|by injection H as <- _].
  destruct (_ && _) in H; [|by injection H as <- _]. apply bool_decide_eq_true in Est.
  rewrite bind_assign_job in H.
  match type of H with context [alter ?g lj (jheap _)] => apply idle_assign with (f := g) in Hi; [|done..] end.
  eapply idle_write; [exact Hi|exact H|apply reads_read_job|]. intros [Hp _]. cbn in Hp. congruence.
Qed.

Lemma markAwaitingReconciliation_inv commits k reason now s s' r :
  Inv U None s now → markAwaitingReconciliation commits k reason now s = (s', r) → Inv U None s' now.
Proof.
  intros HI. apply job_op; [done|]. clear s' r. intros lj j Hi Hk s' r H.
  rewrite (bind_read_job _ j) in H by apply Hi. destruct (_ || _) in H; [by injection H as <- _|].
  rewrite bind_assign_job, bind_assign_job in H.
  apply idle_assign with (f := set_status awaiting_reconciliation) in Hi; [|done|by intros [? _]].
  match type of H with context [alter ?g lj (jheap (set_jheap _ _))] => apply idle_assign with (f := g) in Hi; [|done..] end.
  eapply idle_write; [exact Hi|exact H|apply reads_read_job|]. by intros [? _].
Qed.

Lemma retryResultProcessing_inv commits k expected now s s' r :
  Inv U None s now → retryResultProcessing commits k expected now s = (s', r) → Inv U None s' now.
Proof.
  intros HI. apply job_op; [done|]. clear s' r. intros lj j Hi Hk s' r H.
  rewrite (bind_read_job _ j), bind_lift in H by apply Hi. unfold ensure in H.
  destruct (bool_decide _) in H; [|by injection H as <- _]. rewrite bind_lift in H.
  destruct (_ && _) in H; [|by injection H as <- _]. rewrite bind_get, bind_lift in H.
  destruct (List.find _ _) in H; [|by injection H as <- _]. cbn [require] in H.
  rewrite bind_assign_job, bind_assign_job in H.
  apply idle_assign with (f := set_status result_received) in Hi; [|done|by intros [? _]].
  match type of H with context [alter ?g lj (jheap (set_jheap _ _))] => apply idle_assign with (f := g) in Hi; [|done..] end.
  eapply idle_write; [exact Hi|exact H|apply reads_read_job|]. by intros [? _].
Qed.

Lemma finalizeReview_inv commits k submission epoch feedback v now s s' r :
  Inv U None s now → finalizeReview commits k submission epoch feedback v now s = (s', r) →
  Inv U None s' now.
Proof.
  intros HI. apply job_op; [done|]. clear s' r. intros lj j Hi Hk s' r H.
  rewrite (bind_read_job _ j) in H by apply Hi. destruct (isTerminalJobStatus _) in H; [by injection H as <- _|].
  rewrite bind_lift in H. unfold ensure in H. destruct (_ && _) in H; [|by injection H as <- _].
  rewrite bind_assign_job, bind_assign_job in H.
  match type of H with context [alter ?g lj (jheap s)] => apply idle_assign with (f := g) in Hi; [|done..] end.
  match type of H with context [set_terminal ?st ?n ?w] =>
    apply idle_assign with (f := set_terminal st n w) in Hi; [|done|by destruct v; intros [? _]] end.
  eapply idle_write; [exact Hi|exact H|apply reads_read_job|]. by destruct v; intros [? _].
Qed.

Lemma requestCancel_inv commits k now s s' r :
  Inv U None s now → requestCancel commits k now s = (s', r) → Inv U None s' now.
Proof.
  intros HI. apply job_op; [done|]. clear s' r. intros lj j Hi Hk s' r H.
  rewrite (bind_read_job _ j), bind_lift in H by apply Hi. unfold reject in H.
  destruct (isTerminalJobStatus _) in H; [by injection H as <- _|].
  destruct (bool_decide _) in H; [by injection H as <- _|]. rewrite bind_assign_job in H.
  apply idle_assign with (f := set_cancelRequestedAt now) in Hi; [|done|by intros [_ ?]].
  eapply idle_write; [exact Hi|exact H|apply reads_read_job|]. by intros [_ ?].
Qed.

Lemma cancelUnclaimedJob_inv commits k now s s' r :
  Inv U None s now → cancelUnclaimedJob commits k now s = (s', r) → Inv U None s' now.
Proof.
  intros HI. apply job_op; [done|]. clear s' r. intros lj j Hi Hk s' r H.
  rewrite (bind_read_job _ j), bind_lift in H by apply Hi. unfold reject in H.
  destruct (isTerminalJobStatus _) in H; [by injection H as <- _|]. rewrite bind_lift in H.
  unfold ensure in H. destruct (bool_decide _) in H; [|by injection H as <- _].
  rewrite bind_get, bind_lift in H. destruct (existsb _ _) in H; [by injection H as <- _|].
  rewrite bind_assign_job in H.
  match type of H with context [set_terminal ?st ?n ?w] =>
    apply idle_assign with (f := set_terminal st n w) in Hi; [|done|by intros [? _]] end.
  eapply idle_write; [exact Hi|exact H|apply reads_read_job|]. by intros [? _].
Qed.

End Safety.

End PeerJobSafety.
