(* ===== verification/PeerJobClaims.v ===== *)
(** * Peer jobs: new jobs, claims, expired leases and restarts

    The operations that make objects or rows, and those that change many at once, keep the
    invariant too; and so does every history of the store. *)

From S2P Require Import Prelude JsString Json Sql CanonicalJson PeerContracts PeerReceipts PeerJobs.
From S2P Require Import PeerJobMemory PeerJobInvariant PeerJobSystem PeerJobSafety.

Module PeerJobClaims.
Import CanonicalJson PeerContracts PeerReceipts PeerJobs PeerJobMemory PeerJobInvariant PeerJobSystem.
Import PeerJobSafety.
Local Open Scope Z_scope.

Section Claims.
Context {U : jsstr → jsstr → Prop}.

(** ** New objects *)

Lemma job_at_app s h l j : job_at s l = Some j → job_at (set_jheap (jheap s ++ h) s) l = Some j.
Proof. apply lookup_app_l_Some. Qed.

Lemma attempt_at_app s h l a :
  attempt_at s l = Some a → attempt_at (set_aheap (aheap s ++ h) s) l = Some a.
Proof. apply lookup_app_l_Some. Qed.

Lemma inv_new_job x s c h : Inv U x s c → Inv U x (set_jheap (jheap s ++ h) s) c.
Proof.
  intros HI. pose proof HI as []. constructor; try done.
  - intros k l Hl. destruct (i_job0 k l Hl) as (j & Hj & Hk). exists j. split; [|done].
    by apply job_at_app.
  - intros k l j k' l' a Hx Hl Hj. destruct (i_job0 k l Hl) as (j' & Hj' & Hk).
    rewrite (job_at_app _ h _ _ Hj') in Hj. injection Hj as <-. by eapply i_open0.
Qed.

Lemma has_id_app s h k l :
  (l < length (aheap s))%nat →
  has_attempt_id (set_aheap (aheap s ++ h) s) k l = has_attempt_id s k l.
Proof. intros H. unfold has_attempt_id, attempt_at. cbn. by rewrite lookup_app_l. Qed.

Lemma inv_new_attempt x s c h : Inv U x s c → Inv U x (set_aheap (aheap s ++ h) s) c.
Proof.
  intros HI. pose proof HI as []. constructor; try done.
  - intros k l Hl. destruct (i_attempt0 k l Hl) as (a & row & Ha & ? & ?). exists a, row.
    split; [by apply attempt_at_app|done].
  - intros k l l' Hf. apply i_find0. erewrite find_ext; [exact Hf|]. intros y Hy.
    rewrite Forall_forall in i_valid0. symmetry. by apply has_id_app, i_valid0.
  - cbn. rewrite length_app. eapply Forall_impl; [exact i_valid0|]. cbn. lia.
  - intros k. rewrite <- i_rows0. cbn. erewrite List.map_ext_in; [done|]. intros l Hl%list_elem_of_In.
    assert (Hin : attemptId <$> attempt_at s l ∈
              List.map (λ l, attemptId <$> attempt_at s l) (default [] (attemptsByJob s !! k))).
    { apply elem_of_Lmap. eauto. }
    rewrite i_rows0 in Hin. apply elem_of_Lmap in Hin as (a & E & _).
    destruct (attempt_at s l) as [a'|] eqn:Ea; [|done].
    by rewrite (attempt_at_app _ h _ _ Ea).
  - intros k l j k' l' a Hx Hl Hj Ho Hl' Ha. destruct (i_attempt0 k' l' Hl') as (a' & row & Ha' & _).
    rewrite (attempt_at_app _ h _ _ Ha') in Ha. injection Ha as <-. by eapply i_open0.
Qed.

Lemma inv_set_jobs x s c l : Inv U x s c → Inv U x (set_jobs l s) c.
Proof. by intros []; constructor. Qed.

(** ** Creating a job *)

Lemma attempts_same d d' :
  peer_job_attempts d' = peer_job_attempts d → ∀ k, attempts_of k d' = attempts_of k d.
Proof. intros E k. unfold attempts_of. by rewrite E. Qed.

Lemma created_inv s c lj j d :
  Inv U None s c → job_at s lj = Some j → jobById s !! jobId j = None →
  transaction true s [lj] [] = Ok d → Inv U None (after s [lj] [] d) c.
Proof.
  intros HI Hj Hn Ht. pose proof HI as [].
  apply transaction_Ok in Ht as (_ & _ & Hwj & Hwa). cbn in Hwa. injection Hwa as Ea.
  assert (Hno : by_key jobId (jobId j) (peer_jobs (db s)) = None).
  { apply eq_None_not_Some. rewrite <- i_job_dom0, Hn. by intros []. }
  rewrite write_job_ref in Hwj. pose proof Hwj as Hrem. apply write_all_Ok in Hwj as (rows & Hw & E).
  cbn in E. injection E as E. subst rows.
  eapply write_ref_insert in Hw as [_ Erows]; [|exact Hj|by rewrite i_jobs0].
  assert (Hby : ∀ k, by_key jobId k (peer_jobs d)
                     = if decide (k = jobId j) then Some j else by_key jobId k (peer_jobs (db s))).
  { intros k. rewrite Erows. case_decide as Ek; [subst k; by apply by_key_insert_eq|by apply by_key_insert_ne]. }
  assert (Hown : ∀ a, a ∈ peer_job_attempts (db s) → a_jobId a ≠ jobId j).
  { intros a Ha E. destruct (d_owner _ i_db0 a Ha) as [? Hs]. congruence. }
  assert (Hd : DbInv d).
  { pose proof i_db0 as []. constructor; rewrite <- ?Ea; try done.
    - rewrite Erows. by apply keyed_insert.
    - intros a Ha. rewrite Hby. rewrite decide_False by auto. by apply d_owner0.
    - intros k. unfold count. rewrite (attempts_same (db s)) by done. apply d_generations0.
    - intros a Ha. unfold count. rewrite (attempts_same (db s)) by done. by apply d_old0.
    - intros j' a Hj' Ho Ha Eq. rewrite Erows in Hj'. apply elem_of_app in Hj' as [Hj'| ->%list_elem_of_singleton].
      + by eapply d_open0.
      + by destruct (Hown a Ha). }
  unfold after. cbn [foldl]. unfold remember_job. change (job_at (set_db d s) lj) with (job_at s lj).
  rewrite Hj. constructor; cbn; rewrite <- ?Ea; try done.
  - intros k. rewrite Hby. case_decide as Ek; [subst; by rewrite lookup_insert_eq|].
    rewrite lookup_insert_ne by done. apply i_jobs0.
  - intros k l Hl. destruct (decide (k = jobId j)) as [->|Hne].
    + rewrite lookup_insert_eq in Hl. injection Hl as <-. by exists j.
    + rewrite lookup_insert_ne in Hl by done. by apply i_job0.
  - intros k. rewrite Hby. case_decide as Ek; [subst; by rewrite lookup_insert_eq|].
    rewrite lookup_insert_ne by done. apply i_job_dom0.
  - intros k. rewrite (attempts_same (db s)) by done. apply i_rows0.
  - intros k l j' k' l' a Hx Hl Hj' Ho Hl' Ha Hak. destruct (decide (k = jobId j)) as [->|Hne].
    + destruct (attempt_row HI _ _ _ Hl' Ha) as (_ & row & Hrow & Hm).
      destruct (Hown row Hrow). destruct Hm as (Est & _). injection Est. congruence.
    + rewrite lookup_insert_ne in Hl by done. by eapply i_open0.
Qed.

Lemma createJob_inv commits uuid now i c s s' r :
  Inv U None s c → createJob commits uuid now i s = (s', r) → Inv U None s' c.
Proof.
  intros HI H. unfold createJob in H. rewrite bind_get in H.
  destruct (stateCorrupted s); [by injection H as <- _|]. rewrite bind_lift in H. unfold ensure in H.
  destruct (is_job_id _); [|by injection H as <- _]. rewrite bind_lift in H.
  destruct (normalizeAllowedOutputs _) as [outputs|e]; [|by injection H as <- _].
  cbv zeta in H. set (k := default _ (i_jobId i)) in *.
  destruct (jobById s !! k) as [l|] eqn:El.
  - destruct (i_job HI _ _ El) as (prior & Hp & _). rewrite (bind_read_job _ prior) in H by done.
    destruct (_ =s _); by injection H as <- _.
  - set (job := job_of_input i k outputs now) in *.
    assert (HI2 : Inv U None (set_jobs (jobs s ++ [length (jheap s)]) (set_jheap (jheap s ++ [job]) s)) c)
      by (by apply inv_set_jobs, inv_new_job).
    set (s2 := set_jobs _ (set_jheap _ s)) in *.
    assert (Hr : (persist commits [length (jheap s)] [] ≫= λ _, mret job) s2 = (s', r)) by exact H.
    clear H. assert (Hp : ∀ s1 r1, persist commits [length (jheap s)] [] s2 = (s1, r1) → Inv U None s1 c).
    { intros s1 r1 Hp. apply persist_run in Hp as [[-> _]|(d & Ht & -> & _)]; [done|].
      destruct commits; [|done]. apply (created_inv s2 c (length (jheap s)) job d); try done.
      unfold job_at. cbn. rewrite lookup_app_r by lia. by rewrite Nat.sub_diag. }
    apply M_bind_run in Hr as [(s1 & [] & Hp1 & Hr)|(e & Hp1 & _)]; [|by eapply Hp].
    injection Hr as <- _. by eapply Hp.
Qed.

(** ** Claiming *)

(** The object read from the row takes the place of the old one. *)
Lemma inv_adopt s c j lj :
  Inv U None s c → by_key jobId (jobId j) (peer_jobs (db s)) = Some j → job_at s lj = Some j →
  Inv U (Some (jobId j)) (set_jobById (<[jobId j := lj]> (jobById s)) s) c.
Proof.
  intros HI Hr Hj. pose proof HI as []. constructor; try done; cbn.
  - intros k l Hl. destruct (decide (k = jobId j)) as [->|Hne].
    + rewrite lookup_insert_eq in Hl. injection Hl as <-. by exists j.
    + rewrite lookup_insert_ne in Hl by done. by apply i_job0.
  - intros k. destruct (decide (k = jobId j)) as [->|Hne].
    + rewrite lookup_insert_eq, Hr. by split.
    + rewrite lookup_insert_ne by done. apply i_job_dom0.
  - intros k l j' k' l' a Hx Hl. assert (k ≠ jobId j) by congruence.
    rewrite lookup_insert_ne in Hl by done. eapply i_open0; [|exact Hl]. done.
Qed.

Definition fresh_id (id : jsstr) (s : store) : Prop := Forall (λ a, attemptId a ≠ id) (aheap s).

Lemma fresh_not_known x s c id : Inv U x s c → fresh_id id s → attemptById s !! id = None.
Proof.
  intros HI Hf. destruct (attemptById s !! id) as [l|] eqn:El; [|done].
  destruct (i_attempt HI _ _ El) as (a & row & Ha & _).
  destruct (attempt_row HI _ _ _ El Ha) as [Hid _]. unfold fresh_id in Hf. rewrite Forall_forall in Hf.
  destruct (Hf a); [|done]. by eapply list_elem_of_lookup_2.
Qed.

(** A new attempt joins the array. *)
Lemma inv_push_attempt x s c la a :
  Inv U x s c → attempt_at s la = Some a → attemptById s !! attemptId a = None →
  Inv U x (set_attempts (attempts s ++ [la]) s) c.
Proof.
  intros HI Ha Hn. pose proof HI as []. constructor; try done; cbn.
  - intros k l l' Hf Hl'. change (has_attempt_id _ k) with (has_attempt_id s k) in Hf.
    rewrite find_app in Hf. destruct (List.find _ (attempts s)) eqn:E.
    + injection Hf as <-. by eapply i_find0.
    + cbn in Hf. destruct (has_attempt_id s k la) eqn:Eh; [|done]. unfold has_attempt_id in Eh.
      rewrite Ha in Eh. apply js_eqb_eq in Eh. congruence.
  - apply Forall_app. split; [done|]. repeat constructor. by apply lookup_lt_Some in Ha.
Qed.

Lemma attempts_of_insert d d' a :
  peer_job_attempts d' = peer_job_attempts d ++ [a] →
  ∀ k, attempts_of k d' = attempts_of k d ++ (if a_jobId a =s k then [a] else []).
Proof.
  intros E k. unfold attempts_of, select_where. rewrite E, List.filter_app. cbn.
  by destruct (a_jobId a =s k).
Qed.

Section Claimed.
Context {s : store} {c : Z} {lj la : ref} {j row : PeerJob} {a : PeerAttempt} {d : database}.
Hypothesis HI : Inv U None s c.
Hypothesis Hlj : jobById s !! jobId j = Some lj.
Hypothesis Hj : job_at s lj = Some j.
Hypothesis Hnot : ¬ open_job j.
Hypothesis Hrow : by_key jobId (jobId j) (peer_jobs (db s)) = Some row.
Hypothesis Hopen : open_job row.
Hypothesis Ha : attempt_at s la = Some a.
Hypothesis Hn : attemptById s !! attemptId a = None.
Hypothesis Hfresh : ∀ l b, attempt_at s l = Some b → attemptId b = attemptId a → l = la.
Hypothesis Hrows : ∀ k, la ∉ default [] (attemptsByJob s !! k).
Hypothesis Hak : a_jobId a = jobId j.
Hypothesis Hg : generation a = S (count (jobId j) (db s)).
Hypothesis Hok : attempt_ok a.
Hypothesis Ht : transaction true s [lj] [la] = Ok d.

Lemma claim_rows :
  peer_job_attempts d = peer_job_attempts (db s) ++ [a]
  ∧ by_key attemptId (attemptId a) (peer_job_attempts (db s)) = None
  ∧ keyed jobId (peer_jobs d)
  ∧ (∀ k, by_key jobId k (peer_jobs d)
          = if decide (k = jobId j) then Some j else by_key jobId k (peer_jobs (db s)))
  ∧ (∀ k, foldl (remembered jobId (job_at s)) (persistedJobs s) [lj] !! k = by_key jobId k (peer_jobs d)).
Proof.
  apply transaction_Ok in Ht as (_ & _ & Hwj & Hwa).
  rewrite write_attempt_ref in Hwa. apply write_all_Ok in Hwa as (rows & Hw & E).
  cbn in E. injection E as E. subst rows.
  assert (Hno : by_key attemptId (attemptId a) (peer_job_attempts (db s)) = None).
  { destruct (by_key attemptId (attemptId a) _) eqn:E; [|done]. destruct (i_attempt_dom HI (attemptId a)) as [? ?];
      [by rewrite E|congruence]. }
  eapply write_ref_insert in Hw as [_ Erows]; [|exact Ha|by rewrite (i_attempts HI)].
  split; [done|]. split; [done|]. rewrite write_job_ref in Hwj. split_and!.
  - by eapply write_all_rows in Hwj as (? & _); [|apply HI].
  - pose proof Hwj as Hw2. apply write_all_Ok in Hw2 as (rows & Hw2 & E). cbn in E. injection E as E. subst rows.
    apply write_ref_Ok in Hw2 as (j' & Hj' & Hw2). rewrite Hj in Hj'. injection Hj' as <-.
    apply write_row_spec in Hw2 as [_ Hw2]; [exact Hw2|apply HI].
  - eapply write_all_remembered; [apply HI|exact Hwj|apply HI].
Qed.

Lemma claim_db : DbInv d.
Proof.
  destruct claim_rows as (Ea & Hno & Hkj & Hby & _). pose proof (i_db HI) as Hd. pose proof Hd as [].
  assert (Hden : ∀ b, b ∈ peer_job_attempts (db s) → a_jobId b = jobId j → denied b).
  { intros b Hb Eb. apply by_key_Some in Hrow as [Hin Hk]. by eapply (d_open0 row); [..|congruence]. }
  assert (Hcount : ∀ k, count k d = if decide (k = jobId j) then S (count k (db s)) else count k (db s)).
  { intros k. unfold count. rewrite (attempts_of_insert _ _ _ Ea), Hak. case_decide as E.
    - subst k. rewrite js_eqb_refl, length_app. cbn. lia.
    - rewrite (proj2 (js_eqb_neq _ _)) by congruence. by rewrite app_nil_r. }
  constructor.
  - done.
  - rewrite Ea. by apply keyed_insert.
  - rewrite Ea. intros b Hb. rewrite Hby. case_decide; [done|].
    apply elem_of_app in Hb as [Hb| ->%list_elem_of_singleton]; [by apply d_owner0|congruence].
  - intros k. rewrite Hcount, (attempts_of_insert _ _ _ Ea), Hak, List.map_app, d_generations0.
    case_decide as E.
    + subst k. rewrite js_eqb_refl. cbn [List.map]. rewrite Hg, List.seq_S. done.
    + rewrite (proj2 (js_eqb_neq _ _)) by congruence. by rewrite app_nil_r.
  - rewrite Ea. intros b Hb Hlt. rewrite Hcount in Hlt.
    apply elem_of_app in Hb as [Hb| ->%list_elem_of_singleton].
    + case_decide; [by apply Hden|by apply d_old0].
    + rewrite decide_True in Hlt by done. rewrite Hak in Hlt. lia.
  - rewrite Ea. intros j' b Hj' Ho Hb Eb. pose proof (keyed_by_key _ _ _ Hkj Hj') as Hk.
    rewrite Hby in Hk. case_decide as E; [injection Hk as <-; done|].
    apply elem_of_app in Hb as [Hb| ->%list_elem_of_singleton].
    + apply by_key_Some in Hk as [Hin _]. by eapply d_open0.
    + by destruct E; congruence.
  - rewrite Ea. intros b [Hb| ->%list_elem_of_singleton]%elem_of_app; [by apply d_ok0|done].
Qed.

Lemma claim_written_inv : Inv U None (after s [lj] [la] d) c.
Proof.
  destruct claim_rows as (Ea & Hno & Hkj & Hby & Hrem). pose proof claim_db as Hd. pose proof HI as [].
  assert (Hbya : ∀ k, by_key attemptId k (peer_job_attempts d)
            = if decide (k = attemptId a) then Some a else by_key attemptId k (peer_job_attempts (db s))).
  { intros k. rewrite Ea. case_decide as E; [subst k; by apply by_key_insert_eq|by apply by_key_insert_ne]. }
  assert (Hpush : push_attempt s a la = default [] (attemptsByJob s !! jobId j) ++ [la]).
  { unfold push_attempt. rewrite Hak. destruct (existsb _ _) eqn:E; [|done].
    apply existsb_exists in E as (l & Hl%list_elem_of_In & Hh). unfold has_attempt_id in Hh.
    destruct (attempt_at s l) as [b|] eqn:Eb; [|done]. apply js_eqb_eq in Hh.
    rewrite (Hfresh l b Eb Hh) in Hl. by destruct (Hrows (jobId j)). }
  unfold after. cbn [foldl]. unfold remember_job. change (job_at (set_db d s) lj) with (job_at s lj).
  rewrite Hj. unfold remember_attempt.
  match goal with |- context [attempt_at ?x la] => change (attempt_at x la) with (attempt_at s la) end.
  rewrite Ha. match goal with |- context [push_attempt ?x a la] =>
    change (push_attempt x a la) with (push_attempt s a la) end. rewrite Hpush.
  constructor; cbn; try done.
  - intros k. rewrite <- Hrem. cbn. unfold remembered. by rewrite Hj.
  - intros k. rewrite Hbya. case_decide as E; [subst k; by rewrite lookup_insert_eq|].
    by rewrite lookup_insert_ne.
  - intros k l Hl. rewrite insert_id in Hl by done. by apply i_job0.
  - intros k. rewrite insert_id, Hby by done. case_decide as E; [|done].
    subst k. split; [by eauto|]. intros _. by rewrite Hlj.
  - intros k l Hl. rewrite Hbya. case_decide as E.
    + subst k. rewrite lookup_insert_eq in Hl. injection Hl as <-. exists a, a.
      split; [done|]. split; [done|by apply moved_refl].
    + rewrite lookup_insert_ne in Hl by done. by apply i_attempt0.
  - intros k. rewrite Hbya. case_decide as E; [subst k; by rewrite lookup_insert_eq|].
    rewrite lookup_insert_ne by done. apply i_attempt_dom0.
  - intros k l l' Hf Hl'. change (has_attempt_id _ k) with (has_attempt_id s k) in Hf.
    destruct (decide (k = attemptId a)) as [->|Hne].
    + rewrite lookup_insert_eq in Hl'. injection Hl' as <-. apply find_some_iff in Hf as [_ Hh].
      unfold has_attempt_id in Hh. destruct (attempt_at s l) as [b|] eqn:Eb; [|done].
      apply js_eqb_eq in Hh. by eapply Hfresh.
    + rewrite lookup_insert_ne in Hl' by done. by eapply i_find0.
  - intros k. rewrite (attempts_of_insert _ _ _ Ea), List.map_app, Hak.
    change (attempt_at _) with (attempt_at s). destruct (decide (k = jobId j)) as [->|Hne].
    + rewrite lookup_insert_eq, js_eqb_refl. cbn [from_option id]. rewrite (List.map_app _ _ [la]), i_rows0. cbn.
      by rewrite Ha.
    + rewrite lookup_insert_ne, (proj2 (js_eqb_neq _ _)) by congruence. rewrite app_nil_r. apply i_rows0.
  - intros k l j' k' l' b Hx Hl Hj' Ho Hl' Hb Hbk. rewrite insert_id in Hl by done.
    destruct (decide (k' = attemptId a)) as [->|Hne].
    + rewrite lookup_insert_eq in Hl'. injection Hl' as <-.
      assert (b = a) as -> by (apply (inj Some); etransitivity; [symmetry; exact Hb|exact Ha]).
      assert (l = lj) as -> by congruence. destruct Hnot.
      assert (j' = j) as ->; [|done]. apply (inj Some). etransitivity; [symmetry; exact Hj'|exact Hj].
    + rewrite lookup_insert_ne in Hl' by done. by eapply i_open0.
  - intros k job Hk. destruct (i_undertaken0 k job Hk) as (b & Hb & Hu). exists b. split; [|done].
    rewrite Hbya, decide_False; [done|]. intros ->. congruence.
Qed.
End Claimed.

Lemma rows_valid x s c k l :
  Inv U x s c → l ∈ default [] (attemptsByJob s !! k) → (l < length (aheap s))%nat.
Proof.
  intros HI Hl. assert (Hin : attemptId <$> attempt_at s l ∈
    List.map (λ l, attemptId <$> attempt_at s l) (default [] (attemptsByJob s !! k))).
  { apply elem_of_Lmap. eauto. }
  rewrite (i_rows HI) in Hin. apply elem_of_Lmap in Hin as (a & E & _).
  destruct (attempt_at s l) as [a'|] eqn:Ea; [|done]. by apply lookup_lt_Some in Ea.
Qed.

(** The state of a claim before it is written *)
Lemma claimNextJob_run commits id token peer now filter s s' r :
  claimNextJob commits id token peer now filter s = (s', r) →
  (s' = s ∧ r = Ok None ∧ select_where (claimable peer filter) (peer_jobs (db s)) = [])
  ∨ ∃ row s2 j a,
      row ∈ peer_jobs (db s) ∧ claimable peer filter row = true
      ∧ j = set_status claimed row
      ∧ a = mkPeerAttempt id (jobId row) token peer (S (count (jobId row) (db s))) now (now + LEASE_MS)
              None None None unknown active None
      ∧ s2 = set_attempts (attempts s ++ [length (aheap s)])
               (set_jheap (alter (set_status claimed) (length (jheap s)) (jheap s ++ [row]))
                  (set_aheap (aheap s ++ [a])
                     (set_jobs (replace_or_push (has_job_id
                                 (set_jobById (<[jobId row := length (jheap s)]> (jobById s))
                                    (set_jheap (jheap s ++ [row]) s)) (jobId row))
                                 (length (jheap s)) (jobs s))
                        (set_jobById (<[jobId row := length (jheap s)]> (jobById s))
                           (set_jheap (jheap s ++ [row]) s)))))
      ∧ ∃ r2, persist commits [length (jheap s)] [length (aheap s)] s2 = (s', r2)
      ∧ (∀ e, r2 = Err e → r = Err e)
      ∧ (r2 = Ok tt → r = Ok (Some (j, a))).
Proof.
  unfold claimNextJob. rewrite bind_get. destruct (first_by _ _) as [row|] eqn:Ef.
  2:{ intros [= <- <-]. left. by apply first_by_None in Ef. }
  intros H. right. apply first_by_elem, elem_of_Lfilter in Ef as [Hin Hcl].
  set (a := mkPeerAttempt id (jobId row) token peer (S (count (jobId row) (db s))) now (now + LEASE_MS)
              None None None unknown active None).
  eexists row, _, (set_status claimed row), a.
  split; [done|]. split; [done|]. split; [done|]. split; [done|]. split; [reflexivity|].
  unfold adopt_job in H. rewrite bind_assoc in H.
  match goal with |- ∃ r2, persist commits _ _ ?s2 = _ ∧ _ =>
    assert (Hr : (persist commits [length (jheap s)] [length (aheap s)]
                  ≫= λ _, Some <$> both (length (jheap s)) (length (aheap s))) s2 = (s', r)) by exact H;
    clear H; set (s2' := s2) in * end.
  apply M_bind_run in Hr as [(s1 & [] & Hp & H)|(e & Hp & ->)].
  - unfold fmap, M_fmap in H. destruct (both _ _ s1) as [s3 x] eqn:Eb.
    pose proof (both_run _ _ _ _ _ Eb) as ->.
    assert (Es : s' = s1) by (destruct x; by injection H as <- _). subst s1. exists (Ok tt).
    split; [done|]. split; [done|]. intros _.
    apply persist_run in Hp as [[_ [e E]]|(d & Ht & -> & _)]; [done|].
    assert (Ej : job_at s2' (length (jheap s)) = Some (set_status claimed row)).
    { unfold s2', job_at. cbn. rewrite list_lookup_alter_eq, lookup_app_r, Nat.sub_diag by lia. done. }
    assert (Ea : attempt_at s2' (length (aheap s)) = Some a).
    { unfold s2', attempt_at. cbn. by rewrite lookup_app_r, Nat.sub_diag by lia. }
    assert (Hjh : jheap (after s2' [length (jheap s)] [length (aheap s)] d) = jheap s2'
                  ∧ aheap (after s2' [length (jheap s)] [length (aheap s)] d) = aheap s2').
    { unfold after. destruct (foldl_remember_attempt (foldl remember_job (set_db d s2') [length (jheap s)])
        [length (aheap s)]) as (-> & -> & _).
      destruct (foldl_remember_job (set_db d s2') [length (jheap s)]) as (-> & -> & _). done. }
    destruct Hjh as [Hjh Hah].
    unfold both, read_job, read_attempt, get_store, lift, mbind, M_bind, mret, M_ret in Eb.
    unfold job_at, attempt_at in *. rewrite Hjh, Hah, Ej, Ea in Eb. cbn in Eb. injection Eb as <-.
    by injection H as <-.
  - exists (Err e). split; [done|]. split; [by intros ? [= ->]|done].
Qed.

(** A claim about to be written: the job of the row, claimed, and its new attempt *)
Record prepared (s : store) (c : Z) (lj la : ref) (row : PeerJob) (a : PeerAttempt) : Prop := {
  pr_inv : Inv U None s c;
  pr_job : jobById s !! jobId row = Some lj;
  pr_at : job_at s lj = Some (set_status claimed row);
  pr_row : by_key jobId (jobId row) (peer_jobs (db s)) = Some row;
  pr_open : open_job row;
  pr_attempt : attempt_at s la = Some a;
  pr_new : attemptById s !! attemptId a = None;
  pr_fresh : ∀ l b, attempt_at s l = Some b → attemptId b = attemptId a → l = la;
  pr_rows : ∀ k, la ∉ default [] (attemptsByJob s !! k);
  pr_owner : a_jobId a = jobId row;
  pr_generation : generation a = S (count (jobId row) (db s));
  pr_ok : attempt_ok a
}.

Lemma prepared_written s c lj la row a d :
  prepared s c lj la row a → transaction true s [lj] [la] = Ok d →
  Inv U None (after s [lj] [la] d) c
  ∧ peer_job_attempts d = peer_job_attempts (db s) ++ [a]
  ∧ by_key jobId (jobId row) (peer_jobs d) = Some (set_status claimed row).
Proof.
  intros [] Ht. assert (Hnot : ¬ open_job (set_status claimed row)) by (by intros [? _]).
  split; [by apply (claim_written_inv (j := set_status claimed row) (row := row) (a := a))|].
  destruct (claim_rows (j := set_status claimed row) (a := a) pr_inv0 pr_at0 pr_attempt0 pr_new0 Ht)
    as (Ea & _ & _ & Hby & _). split; [done|]. rewrite Hby. by rewrite decide_True.
Qed.

Lemma claim_prepared commits id token peer now filter s s' r :
  Inv U None s now → fresh_id id s → claimNextJob commits id token peer now filter s = (s', r) →
  (s' = s ∧ r = Ok None)
  ∨ ∃ row s2 a r2 lj la,
      row ∈ peer_jobs (db s) ∧ claimable peer filter row = true
      ∧ a = mkPeerAttempt id (jobId row) token peer (S (count (jobId row) (db s))) now (now + LEASE_MS)
              None None None unknown active None
      ∧ prepared s2 now lj la row a ∧ db s2 = db s
      ∧ persist commits [lj] [la] s2 = (s', r2)
      ∧ (∀ e, r2 = Err e → r = Err e)
      ∧ (r2 = Ok tt → r = Ok (Some (set_status claimed row, a))).
Proof.
  intros HI Hf H. apply claimNextJob_run in H as [(-> & -> & _)|(row & s2 & j & a & Hin & Hcl & -> & Ea & Es & r2 & Hp & He & Hok)];
    [by left|].
  right. set (lj := length (jheap s)) in *. set (la := length (aheap s)) in *.
  exists row, s2, a, r2, lj, la. split; [done|]. split; [done|]. split; [done|].
  split; [|split; [by rewrite Es|by split; [|split]]].
  pose proof (keyed_by_key _ _ _ (d_jobs _ (i_db HI)) Hin) as Hrow.
  assert (HI1 : Inv U (Some (jobId row)) (set_jobById (<[jobId row := lj]> (jobById s))
                  (set_jheap (jheap s ++ [row]) s)) now).
  { apply (inv_adopt (set_jheap (jheap s ++ [row]) s)); [by apply inv_new_job|done|].
    unfold job_at; cbn. by rewrite lookup_app_r, Nat.sub_diag. }
  match type of Es with s2 = set_attempts _ (set_jheap _ (set_aheap _ (set_jobs ?l _))) =>
    apply (inv_set_jobs _ _ _ l) in HI1; apply (inv_new_attempt _ _ _ [a]) in HI1;
    set (s1 := set_aheap _ (set_jobs l _)) in HI1 end.
  assert (Hat : attempt_at s1 la = Some a).
  { unfold attempt_at; cbn. by rewrite lookup_app_r, Nat.sub_diag. }
  assert (Hid : attemptId a = id) by (by subst a).
  assert (Hnone : attemptById s1 !! attemptId a = None).
  { rewrite Hid. change (attemptById s1) with (attemptById s). by eapply fresh_not_known. }
  assert (Hljat : job_at s1 lj = Some row).
  { unfold job_at; cbn. by rewrite lookup_app_r, Nat.sub_diag. }
  assert (Hlj : jobById s1 !! jobId row = Some lj) by (cbn; by rewrite lookup_insert_eq).
  apply (inv_edit_job _ _ _ (set_status claimed) lj row) in HI1; [|done..|by left].
  set (s1' := set_jheap (alter (set_status claimed) lj (jheap s1)) s1) in HI1.
  apply (inv_push_attempt _ _ _ la a) in HI1; [|done..].
  assert (E2 : s2 = set_attempts (attempts s1' ++ [la]) s1') by (by rewrite Es).
  rewrite <- E2 in HI1.
  assert (Hj2 : job_at s2 lj = Some (set_status claimed row)).
  { rewrite E2. change (job_at s1' lj = Some (set_status claimed row)). unfold s1'.
    rewrite job_at_alter, decide_True by done. by rewrite Hljat. }
  assert (Hlj2 : jobById s2 !! jobId row = Some lj) by (by rewrite E2).
  apply inv_settle_job in HI1.
  2:{ intros l j' k' l' b Hl Hj' [Hst _]. exfalso. assert (l = lj) as -> by congruence.
      rewrite Hj2 in Hj'. by injection Hj' as <-. }
  constructor; try done.
  - rewrite E2. exact Hrow.
  - by eapply claimable_open.
  - rewrite E2. exact Hat.
  - rewrite E2. exact Hnone.
  - intros l b Hb Eb. rewrite E2 in Hb. change (attempt_at s1 l = Some b) in Hb.
    unfold attempt_at in Hb; cbn in Hb. apply lookup_snoc_Some in Hb as [[_ Hb]|[-> _]]; [|done].
    unfold fresh_id in Hf. rewrite Forall_forall in Hf. destruct (Hf b); [|congruence].
    by eapply list_elem_of_lookup_2.
  - intros k Hl. rewrite E2 in Hl. apply (rows_valid _ _ _ _ _ HI) in Hl. unfold la in Hl. lia.
  - by subst a.
  - rewrite E2. by subst a.
  - subst a. split; [done|]. split; [by intros []|done].
Qed.

Lemma claimNextJob_inv commits id token peer now filter s s' r :
  Inv U None s now → fresh_id id s → claimNextJob commits id token peer now filter s = (s', r) →
  Inv U None s' now.
Proof.
  intros HI Hf H. destruct (claim_prepared _ _ _ _ _ _ _ _ _ HI Hf H)
    as [[-> _]|(row & s2 & a & r2 & lj & la & _ & _ & _ & Hpr & _ & Hp & _)]; [done|].
  apply persist_run in Hp as [[-> _]|(d & Ht & -> & _)]; [apply Hpr|].
  destruct commits; [|done]. by eapply prepared_written.
Qed.

End Claims.

End PeerJobClaims.
