(* ===== verification/PeerJobRestart.v ===== *)
(** * Peer jobs: the sweep of expired leases, restarts and histories

    The sweep and the restart change many objects and write them at once.  With them every step of
    a history keeps the invariant. *)

From S2P Require Import Prelude JsString Json Sql CanonicalJson PeerContracts PeerReceipts PeerJobs.
From S2P Require Import PeerJobMemory PeerJobInvariant PeerJobSystem PeerJobSafety PeerJobClaims.

Module PeerJobRestart.
Import CanonicalJson PeerContracts PeerReceipts PeerJobs PeerJobMemory PeerJobInvariant PeerJobSystem.
Import PeerJobSafety PeerJobClaims.
Local Open Scope Z_scope.

Section Restart.
Context {U : jsstr → jsstr → Prop}.

(** ** Expired leases *)

Lemma find_replace_or_push {A} (p : A → bool) x l :
  p x = true → List.find p (replace_or_push p x l) = Some x.
Proof.
  intros Hx. induction l as [|y l IH]; cbn; [by rewrite Hx|].
  destruct (p y) eqn:Ey; cbn; [by rewrite Hx|by rewrite Ey].
Qed.

Lemma find_replace_other {A} (p q : A → bool) x l :
  q x = false → (∀ y, p y = true → q y = false) →
  List.find q (replace_or_push p x l) = List.find q l.
Proof.
  intros Hx Hpq. induction l as [|y l IH]; cbn; [by rewrite Hx|].
  destruct (p y) eqn:Ey; cbn; [by rewrite Hx, (Hpq y Ey)|by rewrite IH].
Qed.

Lemma elem_of_replace_or_push {A} (p : A → bool) x y l :
  y ∈ replace_or_push p x l → y = x ∨ y ∈ l.
Proof.
  induction l as [|z l IH]; cbn; [intros ->%list_elem_of_singleton; by left|].
  destruct (p z); intros [->|H]%elem_of_cons; [by left|right; by right|right; by left|].
  destruct (IH H) as [?|?]; [by left|right; by right].
Qed.

Lemma distinct_jobs_in s ls l : l ∈ distinct_jobs s ls → l ∈ ls.
Proof.
  unfold distinct_jobs. enough (H : ∀ acc, l ∈ foldl (λ acc l, replace_or_push
    (λ y, bool_decide (jobId <$> job_at s y = jobId <$> job_at s l)) l acc) acc ls → l ∈ acc ∨ l ∈ ls).
  { intros Hl. by destruct (H [] Hl) as [?%not_elem_of_nil|?]. }
  induction ls as [|y ls IH]; intros acc H; cbn in H; [by left|].
  destruct (IH _ H) as [Ha|?]; [|by right; right].
  apply elem_of_replace_or_push in Ha as [->|?]; [right; by left|by left].
Qed.

(** The row of an active attempt becomes its object. *)
Lemma inv_adopt_attempt s c a :
  Inv U None s c → a ∈ peer_job_attempts (db s) → settled c a →
  let la := length (aheap s) in
  let s1 := set_aheap (aheap s ++ [a]) s in
  Inv U None (set_attemptById (<[attemptId a := la]> (attemptById s1))
    (set_attempts (replace_or_push (has_attempt_id s1 (attemptId a)) la (attempts s1)) s1)) c.
Proof.
  intros HI Ha Hs la s1. pose proof (inv_new_attempt _ _ _ [a] HI) as HI1. fold s1 in HI1.
  assert (Hat : attempt_at s1 la = Some a).
  { unfold attempt_at; cbn. by rewrite lookup_app_r, Nat.sub_diag. }
  pose proof (d_ok _ (i_db HI) a Ha) as Hok.
  pose proof (keyed_by_key _ _ _ (d_attempts _ (i_db HI)) Ha) as Hk.
  pose proof HI1 as []. constructor; try done; cbn.
  - intros k l Hl. destruct (decide (k = attemptId a)) as [->|Hne].
    + rewrite lookup_insert_eq in Hl. injection Hl as <-. exists a, a.
      split; [done|]. split; [done|by apply moved_refl].
    + rewrite lookup_insert_ne in Hl by done. by apply i_attempt0.
  - intros k Hk'. destruct (decide (k = attemptId a)) as [->|Hne]; [by rewrite lookup_insert_eq|].
    rewrite lookup_insert_ne by done. by apply i_attempt_dom0.
  - intros k l l' Hf Hl'. change (has_attempt_id _ k) with (has_attempt_id s1 k) in Hf.
    destruct (decide (k = attemptId a)) as [->|Hne].
    + rewrite lookup_insert_eq in Hl'. injection Hl' as <-.
      assert (Hp : has_attempt_id s1 (attemptId a) la = true).
      { unfold has_attempt_id. rewrite Hat. apply js_eqb_refl. }
      pose proof (find_replace_or_push _ la (attempts s) Hp) as E. cbn in Hf. congruence.
    + rewrite lookup_insert_ne in Hl' by done. cbn in Hf. rewrite find_replace_other in Hf.
      * by eapply i_find0.
      * unfold has_attempt_id. rewrite Hat. by apply js_eqb_neq.
      * intros y. unfold has_attempt_id. destruct (attempt_at s1 y); [|done]. rewrite js_eqb_eq, js_eqb_neq.
        congruence.
  - cbn in i_valid0. rewrite Forall_forall in i_valid0 |- *. intros l Hl.
    apply elem_of_replace_or_push in Hl as [->|Hl]; [|by apply i_valid0].
    rewrite length_app. unfold la. cbn. lia.
  - intros k l j k' l' b Hx Hl Hj Ho Hl' Hb. destruct (decide (k' = attemptId a)) as [->|Hne].
    + rewrite lookup_insert_eq in Hl'. injection Hl' as <-. intros _.
      assert (b = a) as ->; [|done]. apply (inj Some). etransitivity; [symmetry; exact Hb|exact Hat].
    + rewrite lookup_insert_ne in Hl' by done. by eapply i_open0.
Qed.

(** What a requeued job and its attempt are until they are written *)
Definition hit_of (ids : list jsstr) (s : store) (h : ref * ref) : Prop :=
  ∃ j a, held s h.1 h.2 j a ∧ (open_job j → denied a) ∧ attemptId a ∈ ids.

(** A row leaves alone the jobs and attempts that other rows have changed. *)
Definition keeps_held (ids : list jsstr) (s s' : store) : Prop :=
  ∀ lj la j a, held s lj la j a → attemptId a ∉ ids → held s' lj la j a.

Lemma reap_row_inv s c a s' r :
  Inv U None s c → a ∈ peer_job_attempts (db s) → a_status a = active → leaseExpiresAt a ≤ c →
  reap_row a s = (s', r) →
  Inv U None s' c ∧ db s' = db s ∧ keeps_held [attemptId a] s s'
  ∧ ∃ hit, r = Ok hit ∧ ∀ h, hit = Some h → hit_of [attemptId a] s' h.
Proof.
  intros HI Ha Hact Hl. unfold reap_row.
  pose proof (inv_adopt_attempt s c a HI Ha (or_intror (conj Hact Hl))) as HI2. cbv zeta in HI2.
  set (la := length (aheap s)) in *. set (s1 := set_aheap (aheap s ++ [a]) s) in *.
  set (s2 := set_attemptById _ _) in HI2.
  assert (Hat : attempt_at s2 la = Some a).
  { unfold attempt_at; cbn. by rewrite lookup_app_r, Nat.sub_diag. }
  assert (Hkeep : keeps_held [attemptId a] s s2).
  { intros lj lb j b [] Hne. rewrite list_elem_of_singleton in Hne.
    constructor; try done; cbn.
    - rewrite lookup_insert_ne; [done|]. congruence.
    - unfold attempt_at; cbn. by apply lookup_app_l_Some. }
  intros H. match type of H with ?m s = _ =>
    assert (H2 : (match jobById s2 !! a_jobId a with
                  | None => mret None
                  | Some lj => j ← read_job lj;
                      if bool_decide (status j ∈ [claimed; running])
                      then _ ← requeueJobAfterExpiredAttempt lj la; mret (Some (lj, la))
                      else mret None
                  end) s2 = (s', r)) by exact H end. clear H.
  destruct (jobById s2 !! a_jobId a) as [lj|] eqn:El.
  2:{ injection H2 as <- <-. split_and!; [done|done|done|]. eexists. split; [done|]. done. }
  destruct (i_job HI2 _ _ El) as (j & Hj & Hjk). rewrite (bind_read_job _ j) in H2 by done.
  destruct (bool_decide _) eqn:Est in H2.
  2:{ injection H2 as <- <-. split_and!; [done|done|done|]. eexists. split; [done|]. done. }
  assert (Hh : held s2 lj la j a).
  { constructor; try done.
    - by rewrite Hjk.
    - cbn. by rewrite lookup_insert_eq.
    - rewrite Hjk, (generation_count HI2). by apply (active_newest HI2). }
  unfold requeueJobAfterExpiredAttempt in H2.
  rewrite bind_assoc, bind_assign_attempt, bind_assoc in H2.
  set (s3 := set_aheap (alter (set_a_status expired) la (aheap s2)) s2) in *.
  rewrite (bind_read_attempt _ (set_a_status expired a)) in H2.
  2:{ unfold s3. rewrite attempt_at_alter, decide_True by done. by rewrite Hat. }
  rewrite bind_assign_job in H2. injection H2 as <- <-.
  pose proof (held_busy _ _ _ _ _ _ HI2 Hh) as Hb.
  apply busy_assign_attempt with (f := set_a_status expired) in Hb;
    [|apply moved_status; [by eapply held_ok|done]].
  match goal with |- context [alter (set_status ?st) lj] =>
    apply busy_assign_job with (f := set_status st) in Hb; [|done] end.
  match goal with |- Inv U None ?x c ∧ _ => set (s4 := x) in * end.
  assert (Hden : open_job (set_status (after_expiry (set_a_status expired a)) j) → denied (set_a_status expired a)).
  { intros [Hst _]. cbn in Hst. unfold after_expiry in Hst. case_bool_decide; [|done]. by split. }
  pose proof (b_held _ _ _ _ _ _ Hb) as Hh4. change (held s4 lj la (set_status (after_expiry (set_a_status expired a)) j) (set_a_status expired a)) in Hh4.
  split; [|split; [done|split]].
  - apply (busy_done Hb). intros Ho. left. by apply Hden.
  - intros l lb j' b Hb' Hne. pose proof (Hkeep _ _ _ _ Hb' Hne) as Hb2.
    assert (Hla : lb ≠ la).
    { intros ->. destruct Hb2, Hh. rewrite h_attempt_at0 in h_attempt_at1. injection h_attempt_at1 as ->.
      apply Hne. left. }
    assert (Hlj : l ≠ lj).
    { intros ->. destruct Hb2, Hh. rewrite h_job_at0 in h_job_at1. injection h_job_at1 as ->.
      destruct (attempt_row HI2 _ _ _ h_attempt0 h_attempt_at0) as (_ & rb & Hrb & (Eb & _)).
      injection Eb as Eb1 Eb2 _ _ Eb3.
      assert (rb = a) as ->.
      { apply (generations_unique _ _ _ (i_db HI2)); [done|done|congruence|congruence]. }
      apply Hne. rewrite Eb1. left. }
    destruct Hb2. constructor; try done.
    + change (job_at (set_jheap (alter (set_status (after_expiry (set_a_status expired a))) lj
                                  (jheap s3)) s3) l = Some j').
      rewrite job_at_alter, decide_False by done. exact h_job_at0.
    + change (attempt_at (set_aheap (alter (set_a_status expired) la (aheap s2)) s2) lb = Some b).
      by rewrite attempt_at_alter, decide_False.
  - eexists. split; [done|]. intros h [= <-]. eexists _, _.
    split; [exact Hh4|]. split; [exact Hden|left].
Qed.

Lemma reap_rows_inv rows s c s' r :
  Inv U None s c → NoDup (List.map attemptId rows) →
  Forall (λ a, a ∈ peer_job_attempts (db s) ∧ a_status a = active ∧ leaseExpiresAt a ≤ c) rows →
  reap_rows rows s = (s', r) →
  Inv U None s' c ∧ db s' = db s ∧ keeps_held (List.map attemptId rows) s s'
  ∧ ∃ hits, r = Ok hits ∧ Forall (hit_of (List.map attemptId rows) s') hits.
Proof.
  revert s s' r. induction rows as [|a rows IH]; intros s s' r HI Hn HF H.
  { injection H as <- <-. split; [done|]. split; [done|]. split; [by intros ??????|]. exists []. by split. }
  cbn in Hn. apply NoDup_cons in Hn as [Hna Hn]. inversion HF as [|? ? (Ha & Hact & Hl) HF']; subst.
  cbn [reap_rows] in H.
  apply M_bind_run in H as [(s1 & hit & H1 & H)|(e & H1 & _)];
    destruct (reap_row_inv _ _ _ _ _ HI Ha Hact Hl H1) as (HI1 & Ed1 & Hk1 & hit' & E & Hhit); [|done].
  injection E as <-.
  apply M_bind_run in H as [(s2 & hits & H2 & H)|(e & H2 & _)];
    destruct (IH _ _ _ HI1 Hn ltac:(by rewrite Ed1) H2) as (HI2 & Ed2 & Hk2 & hits' & E & Hhits); [|done].
  injection E as <-. injection H as <- <-. split; [done|]. split; [congruence|]. split.
  - intros lj la j b Hb Hne. apply Hk2; [apply Hk1; [done|]|].
    + intros Eq%list_elem_of_singleton. apply Hne. rewrite Eq. left.
    + intros Hin. apply Hne. by right.
  - eexists. split; [done|].
    assert (Hrest : Forall (hit_of (List.map attemptId (a :: rows)) s2) hits).
    { eapply Forall_impl; [exact Hhits|]. intros h (j & b & Hb & Ho & Hin). exists j, b.
      split; [done|]. split; [done|by right]. }
    destruct hit as [h|]; [|done]. constructor; [|done].
    destruct (Hhit h eq_refl) as (j & b & Hb & Ho & Hin). apply list_elem_of_singleton in Hin.
    exists j, b. split; [|split; [done|rewrite Hin; left]]. apply Hk2; [done|]. by rewrite Hin.
Qed.

Lemma reads_both_all hits : reads (both_all hits).
Proof.
  induction hits as [|[lj la] hits IH]; [apply reads_ret|]. cbn.
  apply reads_bind; [apply reads_both|]. intros x. apply reads_bind; [apply IH|].
  intros xs. apply reads_ret.
Qed.

(** Writing what the sweep changed *)
Lemma persist_hits s c ids hits ljs commits s' r :
  Inv U None s c → Forall (hit_of ids s) hits → (∀ l, l ∈ ljs → l ∈ List.map fst hits) →
  persist commits ljs (List.map snd hits) s = (s', r) → Inv U None s' c.
Proof.
  intros HI HF Hsub H. apply persist_run in H as [[-> _]|(d & Ht & -> & _)]; [done|].
  destruct commits; [|done]. rewrite Forall_forall in HF. apply inv_after; try done.
  - apply Forall_forall. intros l Hl. apply Hsub, elem_of_Lmap in Hl as (h & -> & Hh).
    destruct (HF h Hh) as (j & a & [] & _). by exists j.
  - apply Forall_forall. intros l (h & -> & Hh)%elem_of_Lmap.
    destruct (HF h Hh) as (j & a & [] & _). by exists a.
  - intros l j b Hl Hj Ho Hb Hbj. apply Hsub, elem_of_Lmap in Hl as (h & -> & Hh).
    destruct (HF h Hh) as (j' & a & Hheld & Hden & _). pose proof Hheld as [].
    rewrite Hj in h_job_at0. injection h_job_at0 as <-.
    destruct (attempt_row HI _ _ _ h_attempt0 h_attempt_at0) as (_ & ra & Hra & Hma).
    destruct Hma as (Ea & Hma). injection Ea as Ea1 Ea2 _ _ Ea3.
    destruct (decide (ra = b)) as [<-|Hne].
    + right. exists h.2, a. split_and!; [apply elem_of_Lmap; eauto|done|done|auto].
    + left. apply (others_denied HI ra); try done; [|congruence].
      rewrite <- Ea3, <- Ea2, h_owner0, <- (generation_count HI). done.
Qed.

Lemma reapExpiredLeases_inv commits now max s s' r :
  Inv U None s now → reapExpiredLeases commits now max s = (s', r) → Inv U None s' now.
Proof.
  intros HI H. unfold reapExpiredLeases in H. rewrite bind_get in H. cbv zeta in H.
  match type of H with (reap_rows ?l ≫= _) _ = _ => set (rows := l) in H end.
  assert (Hrows : Forall (λ a, a ∈ peer_job_attempts (db s) ∧ a_status a = active
                               ∧ leaseExpiresAt a ≤ now) rows ∧ NoDup (List.map attemptId rows)).
  { unfold rows, limit. set (sel := select_where (is_lapsed now) (peer_job_attempts (db s))). split.
    - apply Forall_take, Forall_forall. intros a Ha. rewrite elem_of_order_by in Ha.
      unfold sel in Ha. apply elem_of_Lfilter in Ha as [Ha Hl]. unfold is_lapsed in Hl. guards. done.
    - rewrite <- firstn_map. eapply (sublist_NoDup _ (List.map attemptId (order_by le_lease sel)));
        [|apply sublist_take].
      rewrite (order_by_perm le_lease sel). apply keyed_select, (d_attempts _ (i_db HI)). }
  destruct Hrows as [HF Hn].
  apply M_bind_run in H as [(s1 & hits & H1 & H)|(e & H1 & _)];
    destruct (reap_rows_inv _ _ _ _ _ HI Hn HF H1) as (HI1 & _ & _ & hits' & E & Hhits); [|done].
  injection E as <-. rewrite bind_get in H.
  apply M_bind_run in H as [(s2 & [] & H2 & H)|(e & H2 & _)].
  - apply reads_both_all in H as ->. destruct hits; [by injection H2 as <-|].
    eapply persist_hits; [done|exact Hhits|apply distinct_jobs_in|exact H2].
  - destruct hits; [done|].
    eapply persist_hits; [done|exact Hhits|apply distinct_jobs_in|exact H2].
Qed.

(** ** Starting *)

Section Index.
Context {A : Type} (key : A → jsstr).

Lemma map_fst_index (l : list A) :
  (imap (λ i x, (key x, i)) l).*1 = List.map key l.
Proof.
  rewrite fmap_imap. change (List.map key l) with (key <$> l). by rewrite <- (imap_const key l).
Qed.

(** The map from keys to positions *)
Lemma index_lookup (l : list A) k i :
  NoDup (List.map key l) →
  (list_to_map (imap (λ i x, (key x, i)) l) : gmap jsstr nat) !! k = Some i
  ↔ ∃ x, l !! i = Some x ∧ key x = k.
Proof.
  intros Hn. rewrite <- elem_of_list_to_map by (by rewrite map_fst_index).
  rewrite elem_of_lookup_imap. split.
  - intros (i' & x & [= -> ->] & Hx). eauto.
  - intros (x & Hx & <-). exists i, x. done.
Qed.

Lemma records_lookup (l : list A) k :
  keyed key l → (list_to_map (List.map (λ x, (key x, x)) l) : gmap jsstr A) !! k = by_key key k l.
Proof.
  intros Hn. assert (Hf : ((List.map (λ x, (key x, x)) l).*1) = List.map key l).
  { change (List.map fst (List.map (λ x, (key x, x)) l) = List.map key l). by rewrite List.map_map. }
  destruct (by_key key k l) as [x|] eqn:E.
  - apply elem_of_list_to_map; [by rewrite Hf|]. apply by_key_Some in E as [Hin <-].
    apply elem_of_Lmap. eauto.
  - apply not_elem_of_list_to_map. rewrite Hf. intros (x & -> & Hx)%elem_of_Lmap.
    rewrite by_key_None in E. by apply (E x).
Qed.
End Index.

Lemma by_key_perm {A} (key : A → jsstr) (l l' : list A) k :
  keyed key l → l ≡ₚ l' → by_key key k l = by_key key k l'.
Proof.
  intros Hn Hp. assert (Hn' : keyed key l') by (unfold keyed; by rewrite <- Hp).
  destruct (by_key key k l) as [x|] eqn:E.
  - apply by_key_Some in E as [Hin <-]. symmetry. apply keyed_by_key; [done|]. by rewrite <- Hp.
  - symmetry. rewrite by_key_None in E |- *. intros x Hx. apply E. by rewrite Hp.
Qed.

(** The references that are pushed for each job *)
Lemma pushed_rows (ats : list PeerAttempt) k :
  List.map (λ l, attemptId <$> ats !! l) (default [] (foldl push_row ∅ (imap pair ats) !! k))
  = List.map (λ a, Some (attemptId a)) (List.filter (λ a, a_jobId a =s k) ats)
  ∧ Forall (λ l, l < length ats)%nat (default [] (foldl push_row ∅ (imap pair ats) !! k)).
Proof.
  induction ats as [|a ats IH] using rev_ind; [split; [reflexivity|constructor]|].
  destruct IH as [IH Hv]. rewrite imap_app, foldl_app, List.filter_app, List.map_app. cbn [imap foldl].
  set (m := foldl push_row ∅ (imap pair ats)) in *. unfold push_row. cbn [fst snd].
  assert (Hold : List.map (λ l, attemptId <$> (ats ++ [a]) !! l) (default [] (m !! k))
                 = List.map (λ l, attemptId <$> ats !! l) (default [] (m !! k))).
  { apply List.map_ext_in. intros l Hl%list_elem_of_In. rewrite Forall_forall in Hv.
    by rewrite lookup_app_l by (by apply Hv). }
  assert (Hlen : Forall (λ l, l < length (ats ++ [a]))%nat (default [] (m !! k))).
  { eapply Forall_impl; [exact Hv|]. cbn. intros l Hl. rewrite length_app. cbn. lia. }
  unfold compose. replace (length ats + 0)%nat with (length ats) by lia.
  cbn [List.filter]. destruct (decide (a_jobId a = k)) as [<-|Hne].
  - rewrite lookup_insert_eq, js_eqb_refl. cbn [from_option id]. split.
    + rewrite (List.map_app _ _ [length ats]), Hold, IH. cbn.
      by rewrite lookup_app_r, Nat.sub_diag by lia.
    + apply Forall_app. split; [done|]. repeat constructor. rewrite length_app. cbn. lia.
  - rewrite lookup_insert_ne, (proj2 (js_eqb_neq _ _)) by done. split; [|done].
    rewrite Hold, IH. cbn. by rewrite app_nil_r.
Qed.

Lemma find_seq (p : nat → bool) n i : List.find p (seq 0 n) = Some i → (i < n)%nat ∧ p i = true.
Proof. intros [Hin Hp]%find_some_iff. apply elem_of_seq in Hin. split; [lia|done]. Qed.

(** The attempts of [U] are undertaken. *)
Definition known_undertaken (d : database) : Prop :=
  ∀ k job, U k job →
    ∃ row, by_key attemptId k (peer_job_attempts d) = Some row ∧ a_jobId row = job ∧ undertaken row.

Lemma load_inv d c : DbInv d → known_undertaken d → Inv U None (load d) c.
Proof.
  intros Hd HU. pose proof Hd as [].
  assert (Hpj : order_by le_job (peer_jobs d) ≡ₚ peer_jobs d) by apply order_by_perm.
  assert (Hpa : order_by le_attempt (peer_job_attempts d) ≡ₚ peer_job_attempts d) by apply order_by_perm.
  unfold load. set (js := order_by le_job (peer_jobs d)) in *.
  set (ats := order_by le_attempt (peer_job_attempts d)) in *.
  assert (Hkj : keyed jobId js) by (unfold keyed; by rewrite Hpj).
  assert (Hka : keyed attemptId ats) by (unfold keyed; by rewrite Hpa).
  constructor; cbn; try done.
  - intros k. rewrite records_lookup by done. by apply by_key_perm.
  - intros k. rewrite records_lookup by done. by apply by_key_perm.
  - intros k l Hl. by apply index_lookup in Hl.
  - intros k. rewrite <- (by_key_perm jobId js) by done. split.
    + intros [l (j & Hj & <-)%index_lookup]; [|done].
      rewrite keyed_by_key; [by eexists|done|by eapply list_elem_of_lookup_2].
    + intros [j [Hin Hk]%by_key_Some]. apply list_elem_of_lookup in Hin as [i Hi].
      exists i. apply index_lookup; eauto.
  - intros k l Hl. apply index_lookup in Hl as (a & Ha & <-); [|done]. exists a, a.
    assert (Hin : a ∈ peer_job_attempts d) by (rewrite <- Hpa; by eapply list_elem_of_lookup_2).
    split; [done|]. split; [by apply keyed_by_key|]. by apply moved_refl, d_ok0.
  - intros k. rewrite <- (by_key_perm attemptId ats) by done.
    intros [a [Hin Hk]%by_key_Some]. apply list_elem_of_lookup in Hin as [i Hi].
    exists i. apply index_lookup; eauto.
  - intros k l l' Hf Hl'. apply find_seq in Hf as [Hlt Hh]. unfold has_attempt_id, attempt_at in Hh.
    cbn in Hh. destruct (ats !! l) as [a|] eqn:Ea; [|done]. apply js_eqb_eq in Hh.
    apply index_lookup in Hl' as (a' & Ha' & Hk); [|done].
    assert (Hn : NoDup (attemptId <$> ats)) by exact Hka.
    eapply (NoDup_lookup _ _ _ _ Hn); rewrite list_lookup_fmap; [by rewrite Ea|rewrite Ha'; cbn; congruence].
  - apply Forall_forall. intros l Hl%elem_of_seq. lia.
  - intros k. destruct (pushed_rows ats k) as [E _]. unfold attempt_at. cbn. rewrite E.
    apply Permutation_map. unfold attempts_of, select_where. clear -Hpa.
    induction Hpa as [|x l l' _ IH|x y l|l l' l'' _ IH1 _ IH2]; cbn; [done|..].
    + destruct (_ =s k); [by constructor|done].
    + destruct (a_jobId x =s k), (a_jobId y =s k); try done. constructor.
    + by transitivity (List.filter (λ a, a_jobId a =s k) l').
  - intros k l j k' l' a _ Hl Hj Ho Hl' Ha Hak. left.
    apply index_lookup in Hl as (j' & Hj' & Hk); [|done].
    assert (j' = j) as -> by (apply (inj Some); etransitivity; [symmetry; exact Hj'|exact Hj]).
    apply (d_open0 j); [rewrite <- Hpj; by eapply list_elem_of_lookup_2|done| |congruence].
    rewrite <- Hpa. by eapply list_elem_of_lookup_2.
Qed.

(** A time before every lease *)
Definition early (s : store) (c : Z) : Prop := Forall (λ a, c < leaseExpiresAt a) (aheap s).

Lemma early_settled s c l a : early s c → attempt_at s l = Some a → settled c a → denied a.
Proof.
  intros He Ha [?|[_ Hl]]; [done|]. unfold early in He. rewrite Forall_forall in He.
  specialize (He a (list_elem_of_lookup_2 _ _ _ Ha)). lia.
Qed.

Lemma orphaned_status now a : a_status (orphaned now a) ≠ active.
Proof. unfold orphaned. cbn. by destruct (now <? leaseExpiresAt a). Qed.

Lemma orphaned_moved now a : attempt_ok a → moved a (orphaned now a).
Proof. intros H. apply moved_status; [done|]. by destruct (now <? leaseExpiresAt a). Qed.

(** What a restart does to attempts: the store is still one that has just been loaded. *)
Lemma orphan_all_inv now ls s c s' r :
  Inv U None s c → early s c → Forall (attempt_known s) ls → orphan_all now ls s = (s', r) →
  Inv U None s' c ∧ early s' c ∧ jheap s' = jheap s ∧ jobById s' = jobById s ∧ jobs s' = jobs s
  ∧ (∀ l, attempt_known s l → attempt_known s' l)
  ∧ ∃ changed, r = Ok changed ∧ Forall (attempt_known s') changed.
Proof.
  revert s s' r. induction ls as [|l ls IH]; intros s s' r HI He HF H.
  { injection H as <- <-. split_and!; try done. exists []. by split. }
  inversion HF as [|? ? (a & Ha & Hl) HF']; subst. cbn [orphan_all] in H. rewrite bind_get in H.
  unfold is_active_ref in H. rewrite Ha in H.
  destruct (bool_decide (a_status a = active)) eqn:Eact; [|by apply IH].
  rewrite bind_assign_attempt in H. set (s1 := set_aheap _ s) in H.
  assert (HI1 : Inv U None s1 c).
  { eapply inv_edit_attempt; [done|exact Hl|done| |right].
    - apply orphaned_moved. destruct (attempt_row HI _ _ _ Hl Ha) as (_ & row & _ & Hm). apply Hm.
    - intros Hs. left. destruct (early_settled _ _ _ _ He Ha Hs) as [Hna _]. guards. done. }
  assert (He1 : early s1 c).
  { apply Forall_alter; [exact He|]. by intros b _ Hb. }
  assert (Hk1 : ∀ l', attempt_known s l' → attempt_known s1 l').
  { intros l' (b & Hb & Hl'). unfold attempt_known, s1. rewrite attempt_at_alter. destruct (decide (l' = l)) as [->|Hne].
    - rewrite Ha in Hb |- *. injection Hb as <-. by eexists.
    - by exists b. }
  assert (HF1 : Forall (attempt_known s1) ls) by (by eapply Forall_impl).
  apply M_bind_run in H as [(s2 & changed & H1 & H)|(e & H1 & _)];
    destruct (IH _ _ _ HI1 He1 HF1 H1) as (HI2 & He2 & Ej & Eb & El & Hk2 & changed' & E & Hch); [|done].
  injection E as <-. injection H as <- <-. split_and!; try done.
  - auto.
  - eexists. split; [done|]. constructor; [|done]. apply Hk2, Hk1. by exists a.
Qed.

Lemma reconcile_all_inv ls s c s' r :
  Inv U None s c → Forall (job_known s) ls → reconcile_all ls s = (s', r) →
  Inv U None s' c ∧ aheap s' = aheap s ∧ attemptById s' = attemptById s
  ∧ (∀ l, job_known s l → job_known s' l)
  ∧ (∀ l j, job_at s l = Some j → status j = awaiting_reconciliation → job_at s' l = Some j)
  ∧ ∃ changed, r = Ok changed ∧
      Forall (λ l, job_known s' l ∧ ∀ j, job_at s' l = Some j → status j = awaiting_reconciliation) changed.
Proof.
  revert s s' r. induction ls as [|l ls IH]; intros s s' r HI HF H.
  { injection H as <- <-. split_and!; try done. exists []. by split. }
  inversion HF as [|? ? (j & Hj & Hl) HF']; subst. cbn [reconcile_all] in H.
  rewrite (bind_read_job _ j), bind_get in H by done.
  destruct (bool_decide (status j ∈ [claimed; running])) eqn:Est; cbn [andb] in H; [|by apply IH].
  destruct (negb _); [|by apply IH]. rewrite bind_assign_job in H. set (s1 := set_jheap _ s) in H.
  assert (HI1 : Inv U None s1 c).
  { eapply inv_edit_job; try done. right. by intros [? _]. }
  assert (Hk1 : ∀ l', job_known s l' → job_known s1 l').
  { intros l' (b & Hb & Hl'). unfold job_known, s1. rewrite job_at_alter. destruct (decide (l' = l)) as [->|Hne].
    - rewrite Hj in Hb |- *. injection Hb as <-. by eexists.
    - by exists b. }
  assert (Hat1 : job_at s1 l = Some (set_status awaiting_reconciliation j)).
  { unfold s1. rewrite job_at_alter, decide_True by done. by rewrite Hj. }
  assert (HF1 : Forall (job_known s1) ls) by (by eapply Forall_impl).
  apply M_bind_run in H as [(s2 & changed & H1 & H)|(e & H1 & _)];
    destruct (IH _ _ _ HI1 HF1 H1) as (HI2 & Ea & Eb & Hk2 & Hs2 & changed' & E & Hch); [|done].
  injection E as <-. injection H as <- <-. split; [done|]. split; [done|]. split; [done|].
  split; [auto|]. split.
  - intros l' j' Hj' Hst. apply Hs2; [|done]. unfold s1. rewrite job_at_alter. destruct (decide (l' = l)) as [->|Hne]; [|done].
    rewrite Hj in Hj'. injection Hj' as <-. guards. rewrite Hst in Est.
    apply elem_of_cons in Est as [?|[?| []%not_elem_of_nil]%elem_of_cons]; done.
  - eexists. split; [done|]. constructor; [|done]. split; [apply Hk2, Hk1; by exists j|].
    intros j' Hj'. rewrite (Hs2 _ _ Hat1) in Hj' by done. by injection Hj' as <-.
Qed.

Lemma early_exists d c : ∃ c0, c0 ≤ c ∧ early (load d) c0.
Proof.
  unfold early. cbn. induction (order_by le_attempt (peer_job_attempts d)) as [|a l (c0 & Hc & IH)].
  - by exists c.
  - exists (Z.min c0 (leaseExpiresAt a - 1)). split; [lia|]. constructor; [lia|].
    eapply Forall_impl; [exact IH|]. cbn. lia.
Qed.

Lemma restart_inv commits now d c s' r :
  DbInv d → known_undertaken d → restartReconciliation commits now (load d) = (s', r) →
  Inv U None s' c.
Proof.
  intros Hd HU H. destruct (early_exists d c) as (c0 & Hc & He).
  apply (inv_clock None s' c0 c Hc). pose proof (load_inv d c0 Hd HU) as HI.
  unfold restartReconciliation in H. rewrite bind_get in H.
  assert (Hka : Forall (attempt_known (load d)) (attempts (load d))).
  { apply Forall_forall. intros l Hl. pose proof (i_valid HI) as Hv. rewrite Forall_forall in Hv.
    specialize (Hv l Hl). destruct (lookup_lt_is_Some_2 _ _ Hv) as [a Ha]. exists a. split; [done|].
    apply index_lookup; [|by eexists].
    change (keyed attemptId (order_by le_attempt (peer_job_attempts d))). unfold keyed.
    rewrite (order_by_perm le_attempt). apply Hd. }
  assert (Hkj : Forall (job_known (load d)) (jobs (load d))).
  { apply Forall_forall. intros l Hl%elem_of_seq.
    destruct (lookup_lt_is_Some_2 (jheap (load d)) l ltac:(cbn; lia)) as [j Hj]. exists j. split; [done|].
    apply index_lookup; [|by eexists].
    change (keyed jobId (order_by le_job (peer_jobs d))). unfold keyed.
    rewrite (order_by_perm le_job). apply Hd. }
  apply M_bind_run in H as [(s1 & chA & H1 & H)|(e & H1 & _)];
    destruct (orphan_all_inv _ _ _ _ _ _ HI He Hka H1) as (HI1 & _ & Ej & Eb & El & _ & chA' & E & HchA); [|done].
  injection E as <-.
  assert (Hkj1 : Forall (job_known s1) (jobs (load d))).
  { eapply Forall_impl; [exact Hkj|]. intros l (j & Hj & Hl). exists j. unfold job_at in *. by rewrite Ej, Eb. }
  apply M_bind_run in H as [(s2 & chJ & H2 & H)|(e & H2 & _)];
    destruct (reconcile_all_inv _ _ _ _ _ HI1 Hkj1 H2) as (HI2 & Ea & Eab & _ & _ & chJ' & E & HchJ); [|done].
  injection E as <-.
  assert (Hp : ∀ s3 r3, persist commits chJ chA s2 = (s3, r3) → Inv U None s3 c0).
  { intros s3 r3 Hp. apply persist_run in Hp as [[-> _]|(d' & Ht & -> & _)]; [done|].
    destruct commits; [|done]. rewrite Forall_forall in HchJ. apply inv_after; try done.
    - apply Forall_forall. intros l Hl. by apply HchJ.
    - eapply Forall_impl; [exact HchA|]. intros l (a & Ha & Hl). exists a. unfold attempt_at in *.
      by rewrite Ea, Eab.
    - intros l j b Hl Hj [Hst _]. destruct (HchJ l Hl) as [_ Hrec]. specialize (Hrec j Hj). congruence. }
  destruct chA, chJ; [by injection H as <-|by eapply Hp..].
Qed.

(** ** Every step *)

Lemma step_op_inv commits now o s s' r :
  Inv U None s now → fresh o s → exec commits now o s = (s', r) → Inv U None s' now.
Proof.
  intros HI Hf H. destruct o; cbn in H; apply fmap_run in H as [x H].
  - by eapply createJob_inv.
  - by eapply claimNextJob_inv.
  - by eapply markStarted_inv.
  - by eapply markNotStarted_inv.
  - by eapply renewLease_inv.
  - by eapply completeAttempt_inv.
  - by eapply failAttempt_inv.
  - by eapply markStaging_inv.
  - by eapply markAwaitingReview_inv.
  - by eapply recordVerification_inv.
  - by eapply markAwaitingReconciliation_inv.
  - by eapply retryResultProcessing_inv.
  - by eapply finalizeReview_inv.
  - by eapply requestCancel_inv.
  - by eapply cancelAck_inv.
  - by eapply cancelUnclaimedJob_inv.
  - by eapply reapExpiredLeases_inv.
Qed.

Lemma step_inv w w' : step w w' → Inv U None (st w) (clock w) → Inv U None (st w') (clock w').
Proof.
  intros [s c now commits o s' r Hc Hf H|s c commits sidecar now c' d' s' Hc Hi Hnow H] HI; cbn in *.
  - eapply step_op_inv; [|done|exact H]. by eapply inv_clock.
  - unfold openPeerJobStore, import_sidecar in H. rewrite Hi in H.
    destruct (restartReconciliation commits now (load (db s))) as [s1 [u|e]] eqn:E; [|done].
    injection H as <- <-. eapply restart_inv; [apply HI|exact (i_undertaken HI)|exact E].
Qed.

End Restart.

Lemma reachable_inv w : reachable w → Inv (λ _ _, False) None (st w) (clock w).
Proof.
  induction 1 as [c|w w' _ IH Hs]; [|by eapply step_inv]. apply load_inv; [|by intros k job []].
  constructor; cbn; try done; intros; try (by match goal with H : _ ∈ [] |- _ => apply not_elem_of_nil in H end).
  - constructor.
  - constructor.
Qed.

End PeerJobRestart.
