(* ===== verification/PeerJobProperties.v ===== *)
(** * Peer jobs: what the store promises

    The theorems about the store of peer jobs.  They hold along every history of a process, with
    transactions that fail at any point, objects in memory that have then moved ahead of the
    tables, expired leases and restarts: a job is handed out again only after a denial, work that
    was reported started never is, a call whose claim is not the newest changes nothing, and what
    a report is answered is what the tables hold. *)

From S2P Require Import Prelude JsString Json Sql CanonicalJson PeerContracts PeerReceipts PeerJobs.
From S2P Require Import PeerJobMemory PeerJobInvariant PeerJobSystem PeerJobSafety PeerJobClaims.
From S2P Require Import PeerJobRestart.

Module PeerJobProperties.
Import CanonicalJson PeerContracts PeerReceipts PeerJobs PeerJobMemory PeerJobInvariant PeerJobSystem.
Import PeerJobSafety PeerJobClaims PeerJobRestart.
Local Open Scope Z_scope.

Lemma db_after s ljs las d : db (after s ljs las d) = d.
Proof.
  unfold after.
  destruct (foldl_remember_attempt (foldl remember_job (set_db d s) ljs) las) as (_&_&_&_&_&_&_&->&_).
  by destruct (foldl_remember_job (set_db d s) ljs) as (_&_&_&_&_&_&_&_&->&_).
Qed.

(** ** Claims *)

(** C11: A job is handed out only when every attempt made at it before is over and its peer has
    said that it never began.  The claim is then in the tables: the job is claimed, the new attempt
    is the last of its attempts, and it is the only active one. *)
Theorem claims_follow_denials w commits id token peer now filter s' job att :
  reachable w → clock w ≤ now → fresh (OClaim id token peer filter) (st w) →
  claimNextJob commits id token peer now filter (st w) = (s', Ok (Some (job, att))) →
  Forall denied (attempts_of (jobId job) (db (st w)))
  ∧ attempts_of (jobId job) (db s') = attempts_of (jobId job) (db (st w)) ++ [att]
  ∧ by_key jobId (jobId job) (peer_jobs (db s')) = Some job
  ∧ status job = claimed ∧ peerId job = peer ∧ a_status att = active ∧ attemptId att = id
  ∧ generation att = S (length (attempts_of (jobId job) (db (st w)))) ∧ leaseExpiresAt att = now + 60000.
Proof.
  intros Hr Hc Hf H. apply reachable_inv in Hr as HI. apply (inv_clock _ _ _ now Hc) in HI.
  destruct (claim_prepared _ _ _ _ _ _ _ _ _ HI Hf H)
    as [[_ [=]]|(row & s2 & a & r2 & lj & la & Hin & Hcl & Ea & Hpr & Ed & Hp & He & Hok)].
  apply persist_run in Hp as [[-> [e ->]]|(d & Ht & -> & ->)]; [by specialize (He e eq_refl)|].
  specialize (Hok eq_refl). injection Hok as -> ->. destruct commits; [|done].
  destruct (prepared_written _ _ _ _ _ _ _ Hpr Ht) as (_ & Erows & Ejob).
  rewrite db_after. rewrite Ed in Erows. change (jobId (set_status claimed row)) with (jobId row).
  split; [|split; [|split; [done|]]].
  - apply Forall_forall. intros b [Hb Hbj]%elem_of_attempts_of.
    apply (d_open _ (i_db HI) row); try done. by eapply claimable_open.
  - rewrite (attempts_of_insert _ _ _ Erows), Ea. cbn. by rewrite js_eqb_refl.
  - split; [done|]. unfold claimable in Hcl. guards. subst a. by split_and!.
Qed.

(** A job that was claimed, denied and given back *)
Definition given_back : world :=
  play [(true, 0, OCreate "" input1); (true, 1, OClaim "att" "token" "peer" None);
        (true, 2, ONotStarted "att" "token" "peer"); (true, 3, OFail "att" "token" "peer" "")]
    (mkWorld new_store 0).

Lemma claims_follow_denials_witness :
  ∃ s' job att,
    claimNextJob true "att2" "token2" "peer" 4 None (st given_back) = (s', Ok (Some (job, att)))
    ∧ jobId job = job1 ∧ length (attempts_of job1 (db (st given_back))) = 1%nat
    ∧ Forall denied (attempts_of (jobId job) (db (st given_back))) ∧ generation att = 2%nat.
Proof.
  destruct (claimNextJob true "att2" "token2" "peer" 4 None (st given_back)) as [s' r] eqn:E.
  pose proof (f_equal (λ x, match x.2 with Ok (Some (job, _)) => jobId job | _ => [] end) E) as Ej.
  destruct r as [[[job att]|]|]; [|vm_compute in Ej; discriminate Ej..].
  exists s', job, att. assert (Hj : jobId job = job1).
  { cbn [snd] in Ej. rewrite <- Ej. vm_compute. reflexivity. }
  assert (Hl : length (attempts_of job1 (db (st given_back))) = 1%nat) by (vm_compute; reflexivity).
  destruct (claims_follow_denials given_back true "att2" "token2" "peer" 4 None s' job att)
    as (Hd & _ & _ & _ & _ & _ & _ & Hg & _).
  - apply play_is_reachable. vm_compute. reflexivity.
  - vm_compute. discriminate.
  - apply is_fresh_fresh. vm_compute. reflexivity.
  - exact E.
  - rewrite Hj in Hg. rewrite Hl in Hg. split; [reflexivity|]. split; [exact Hj|]. split; [exact Hl|].
    split; [exact Hd|exact Hg].
Defined.

(** ** Work that was started *)

Lemma inv_undertake (U U' : jsstr → jsstr → Prop) x s c :
  Inv U x s c →
  (∀ k job, U' k job → ∃ row, by_key attemptId k (peer_job_attempts (db s)) = Some row
                              ∧ a_jobId row = job ∧ undertaken row) →
  Inv U' x s c.
Proof. by intros [] HU; constructor. Qed.

(** ** What a report is answered *)

(** A job and an attempt in memory, of a given job and with a given claim, over tables whose rows
    have different keys *)
Record pointed (s : store) (lj la : ref) (j : PeerJob) (a : PeerAttempt) (k : jsstr)
  (claim : jsstr * jsstr * jsstr * jsstr * nat) : Prop := {
  p_jobs : keyed jobId (peer_jobs (db s));
  p_attempts : keyed attemptId (peer_job_attempts (db s));
  p_job : job_at s lj = Some j;
  p_attempt : attempt_at s la = Some a;
  p_key : jobId j = k;
  p_claim : stub a = claim
}.

Lemma held_pointed (U : jsstr → jsstr → Prop) x s c lj la j a :
  Inv U x s c → held s lj la j a → pointed s lj la j a (jobId j) (stub a).
Proof. intros HI []. pose proof (i_db HI) as []. by constructor. Qed.

Lemma pointed_assign_job s lj la j a k claim f :
  pointed s lj la j a k claim → (∀ j, jobId (f j) = jobId j) →
  pointed (set_jheap (alter f lj (jheap s)) s) lj la (f j) a k claim.
Proof.
  intros [] Hf. constructor; try done; [|by rewrite Hf].
  rewrite job_at_alter, decide_True by done. by rewrite p_job0.
Qed.

Lemma pointed_assign_attempt s lj la j a k claim f :
  pointed s lj la j a k claim → (∀ a, stub (f a) = stub a) →
  pointed (set_aheap (alter f la (aheap s)) s) lj la j (f a) k claim.
Proof.
  intros [] Hf. constructor; try done; [|by rewrite Hf].
  rewrite attempt_at_alter, decide_True by done. by rewrite p_attempt0.
Qed.

(** Both are in the tables. *)
Definition stored (s : store) (j : PeerJob) (a : PeerAttempt) : Prop :=
  by_key jobId (jobId j) (peer_jobs (db s)) = Some j
  ∧ by_key attemptId (attemptId a) (peer_job_attempts (db s)) = Some a.

(** A row that one reference was written to *)
Lemma one_written {A} `{EqDecision A} (key : A → jsstr) (at_ : ref → option A) conflict persisted rows rows' l r :
  keyed key rows → at_ l = Some r →
  write_all (write_ref key at_ conflict persisted) rows [l] = Ok rows' →
  by_key key (key r) rows' = Some r.
Proof.
  intros Hk Hl Hw. apply write_all_rows in Hw as (_ & _ & Hw); [|done].
  destruct (Hw (key r)) as [(l' & r' & ->%list_elem_of_singleton & E & _ & ?)|[Hno _]]; [congruence|].
  by destruct (Hno l r ltac:(left) Hl).
Qed.

Lemma pointed_stored s lj la j a k claim d :
  pointed s lj la j a k claim → transaction true s [lj] [la] = Ok d →
  stored (after s [lj] [la] d) j a.
Proof.
  intros [] Ht. apply transaction_Ok in Ht as (_ & _ & Hj & Ha).
  rewrite write_job_ref in Hj. rewrite write_attempt_ref in Ha.
  unfold stored. rewrite db_after. split; by eapply one_written.
Qed.

(** Writing changes no object. *)
Lemma heaps_after s ljs las d :
  jheap (after s ljs las d) = jheap s ∧ aheap (after s ljs las d) = aheap s.
Proof.
  unfold after.
  destruct (foldl_remember_attempt (foldl remember_job (set_db d s) ljs) las) as (->&->&_).
  by destruct (foldl_remember_job (set_db d s) ljs) as (->&->&_).
Qed.

(** What a written report is answered: the records that were written *)
Lemma write_answer s lj la j a k claim commits s' v :
  pointed s lj la j a k claim → (persist commits [lj] [la] ≫= λ _, both lj la) s = (s', Ok v) →
  v = (j, a) ∧ stored s' j a.
Proof.
  intros Hp H. apply M_bind_run in H as [(s1 & [] & Hw & H)|(e & _ & [=])].
  apply persist_run in Hw as [[_ [e [=]]]|(d & Ht & -> & _)]. destruct commits; [|done].
  pose proof (pointed_stored _ _ _ _ _ _ _ _ Hp Ht) as Hst. destruct Hp.
  destruct (heaps_after s [lj] [la] d) as [Eh Ea].
  unfold both in H. rewrite (bind_read_job _ j), (bind_read_attempt _ a) in H
    by (unfold job_at, attempt_at; by rewrite ?Eh, ?Ea).
  by injection H as <- <-.
Qed.

(** An operation that begins with the fence *)
Lemma fenced_answer {A} (U : jsstr → jsstr → Prop) id token peer (k : ref * ref → M A) s c s' v :
  Inv U None s c → (fenced id token peer ≫= k) s = (s', Ok v) →
  ∃ lj la j a, k (lj, la) s = (s', Ok v) ∧ job_at s lj = Some j ∧ attempt_at s la = Some a
    ∧ pointed s lj la j a (jobId j) (id, jobId j, token, peer, length (attempts_of (jobId j) (db s))).
Proof.
  intros HI H. apply M_bind_run in H as [(s1 & [lj la] & Hf & H)|(e & _ & [=])].
  eapply fenced_run in Hf as [-> Hf]; [|done].
  destruct (Hf _ _ eq_refl) as (j & a & Hh & <- & <- & <-).
  exists lj, la, j, a. split; [done|]. split; [apply Hh|]. split; [apply Hh|].
  pose proof (held_pointed _ _ _ _ _ _ _ _ HI Hh) as Hp. destruct Hh.
  rewrite (generation_count HI) in h_newest0.
  unfold stub in Hp. by rewrite h_owner0, h_newest0 in Hp.
Qed.

(** What the answer of a report says, and what the tables hold then *)
Definition answered (s s' : store) (id token peer : jsstr) (v : PeerJob * PeerAttempt) : Prop :=
  stored s' v.1 v.2
  ∧ stub v.2 = (id, jobId v.1, token, peer, length (attempts_of (jobId v.1) (db s))).

Lemma pointed_answer s0 s lj la j a k claim commits s' v id token peer :
  pointed s lj la j a k claim →
  claim = (id, k, token, peer, length (attempts_of k (db s0))) →
  (persist commits [lj] [la] ≫= λ _, both lj la) s = (s', Ok v) →
  v = (j, a) ∧ answered s0 s' id token peer v.
Proof.
  intros Hp -> H. destruct (write_answer _ _ _ _ _ _ _ _ _ _ Hp H) as [-> Hst].
  split; [done|]. destruct Hp. split; [done|]. cbn. by rewrite p_key0.
Qed.

(** Carries out the assignments before the write. *)
Ltac assigned H Hp :=
  repeat match type of H with
  | ((_ ≫= _) ≫= _) _ = _ => rewrite bind_assoc in H
  | (assign_attempt _ ?g ≫= _) _ = _ =>
      rewrite bind_assign_attempt in H; apply pointed_assign_attempt with (f := g) in Hp; [|done]
  | (assign_job _ ?g ≫= _) _ = _ =>
      rewrite bind_assign_job in H; apply pointed_assign_job with (f := g) in Hp; [|done]
  end.

(** The report ends by writing what it assigned. *)
Ltac answer H Hp := assigned H Hp; eapply pointed_answer in H as [? H]; [exact H|exact Hp|done].

(** An operation that starts with the fence, at the objects the fence finds *)
Ltac fence H HI :=
  let Ej := fresh "Ej" in let Ea := fresh "Ea" in
  eapply fenced_answer in H as (lj & la & j & a & H & Ej & Ea & Hp); [|exact HI];
  rewrite ?(bind_read_job _ j _ _ Ej), ?(bind_read_attempt _ a _ _ Ea) in H.

(** The attempt is active, and its lease holds. *)
Ltac active H :=
  let Hf := fresh in
  apply M_bind_run in H as [(? & [] & Hf & H)|(? & _ & [=])];
  apply fence_active in Hf as [-> Hf]; clear Hf.

Section Answers.
Context {U : jsstr → jsstr → Prop} {s : store} {c : Z} (HI : Inv U None s c).

Lemma markStarted_answer commits id token peer now remote s' v :
  markStarted commits id token peer now remote s = (s', Ok v) →
  answered s s' id token peer v ∧ (status v.1 = running → outcomeCertainty v.2 = started).
Proof.
  intros H. unfold markStarted in H. fence H HI. rewrite bind_lift in H. unfold ensure in H.
  destruct (bool_decide (a_status a = active)); [|done].
  destruct (leaseExpiresAt a <=? now); unfold expire in H; assigned H Hp;
    destruct (pointed_answer _ _ _ _ _ _ _ _ _ _ _ _ _ _ Hp eq_refl H) as [-> Ha]; (split; [exact Ha|]).
  - cbn. unfold after_expiry. by case_bool_decide.
  - done.
Qed.

Lemma markNotStarted_answer commits id token peer now s' v :
  markNotStarted commits id token peer now s = (s', Ok v) → answered s s' id token peer v.
Proof.
  intros H. unfold markNotStarted in H. fence H HI. active H. rewrite bind_lift in H.
  unfold reject in H. destruct (bool_decide _); [done|]. answer H Hp.
Qed.

Lemma renewLease_answer commits id token peer now leaseMs s' v :
  renewLease commits id token peer now leaseMs s = (s', Ok v) → answered s s' id token peer v.
Proof.
  intros H. unfold renewLease in H. rewrite bind_lift in H.
  destruct leaseMs as [ms|]; cbn [require] in H; [|done]. rewrite bind_lift in H. unfold reject in H.
  destruct (_ || _); [done|]. fence H HI.
  destruct (_ <=? 0); [by apply M_bind_run in H as [(? & ? & _ & [=])|(? & _ & [=])]|].
  destruct (now <? leaseExpiresAt a); [|active H]; answer H Hp.
Qed.

Lemma failAttempt_answer commits id token peer reason now s' v :
  failAttempt commits id token peer reason now s = (s', Ok v) → answered s s' id token peer v.
Proof. intros H. unfold failAttempt in H. fence H HI. active H. answer H Hp. Qed.

Lemma cancelAck_answer commits id token peer now s' v :
  cancelAck commits id token peer now s = (s', Ok v) → answered s s' id token peer v.
Proof.
  intros H. unfold cancelAck in H. fence H HI. rewrite bind_lift in H. unfold ensure in H.
  destruct (bool_decide (is_Some (cancelRequestedAt j))); [|done]. rewrite bind_get, bind_lift in H.
  match type of H with context [if ?b then Ok tt else _] => destruct b end; [|done]. answer H Hp.
Qed.

Lemma completeAttempt_answer commits id token peer rc now s' v :
  completeAttempt commits id token peer rc now s = (s', Ok (v, false)) → answered s s' id token peer v.
Proof.
  intros H. unfold completeAttempt in H. fence H HI. destruct (bool_decide _).
  { destruct (receipt a); [|done]. rewrite bind_lift in H. unfold ensure in H. destruct (_ =s _); [|done].
    by apply M_bind_run in H as [(? & [] & _ & [=])|(? & _ & [=])]. }
  active H. destruct (succeeded rc); assigned H Hp.
  2: rewrite bind_lift in H; destruct (reported _ rc); [|done]; assigned H Hp.
  all: apply M_bind_run in H as [(s1 & [] & Hw & H)|(? & _ & [=])].
  all: apply M_bind_run in H as [(s2 & v' & Hb & H)|(? & _ & [=])]; destruct v'; injection H as <- <-.
  all: eapply pointed_answer; [exact Hp|done|]; unfold mbind, M_bind; rewrite Hw; exact Hb.
Qed.

End Answers.

(** C4: Work a peer has started is never handed out again.  Once a report of a start was answered
    with the job running, no claim gets that job, whatever happens in between: failed
    transactions, expired leases, failures, renewals past the budget, restarts. *)
Theorem started_work_is_never_handed_out_again w commits id token peer now remote s1 job att
    w2 commits2 id2 token2 peer2 now2 filter s3 job2 att2 :
  reachable w → clock w ≤ now →
  markStarted commits id token peer now remote (st w) = (s1, Ok (job, att)) → status job = running →
  steps step (mkWorld s1 now) w2 →
  clock w2 ≤ now2 → fresh (OClaim id2 token2 peer2 filter) (st w2) →
  claimNextJob commits2 id2 token2 peer2 now2 filter (st w2) = (s3, Ok (Some (job2, att2))) →
  jobId job2 ≠ jobId job.
Proof.
  intros Hr Hc H Hst Hsteps Hc2 Hf Hclaim E. apply reachable_inv in Hr as HI.
  apply (inv_clock _ _ _ now Hc) in HI.
  destruct (markStarted_answer HI _ _ _ _ _ _ _ _ H) as [[[_ Hrow] Hcl] Hs]. specialize (Hs Hst).
  cbn in Hs, Hrow, Hcl. injection Hcl as Hid Hjob _ _ _. rewrite Hid in Hrow.
  pose proof (markStarted_inv _ _ _ _ _ _ _ _ _ HI H) as HI1.
  apply (inv_undertake _ (λ k j, k = id ∧ j = jobId job)) in HI1.
  2:{ intros k j [-> ->]. exists att. split; [done|]. split; [done|by left]. }
  assert (HI2 : Inv (λ k j, k = id ∧ j = jobId job) None (st w2) (clock w2)).
  { refine (steps_invariant step (λ w, Inv (λ k j, k = id ∧ j = jobId job) None (st w) (clock w))
              _ _ _ Hsteps HI1). intros v v' Hv. by apply step_inv. }
  apply (inv_clock _ _ _ now2 Hc2) in HI2.
  destruct (i_undertaken HI2 id (jobId job) (conj eq_refl eq_refl)) as (row & Hb & Hrj & Hu).
  destruct (claim_prepared _ _ _ _ _ _ _ _ _ HI2 Hf Hclaim)
    as [[_ [=]]|(r & s2 & a & r2 & lj & la & Hin & Hcb & Ea & Hpr & Ed & Hp & He & Hok)].
  destruct r2 as [[]|e]; [|by specialize (He e eq_refl)]. specialize (Hok eq_refl). injection Hok as -> ->.
  apply by_key_Some in Hb as [Hb _]. apply (undertaken_not_denied row Hu).
  apply (d_open _ (i_db HI2) r); try done; [by eapply claimable_open|]. cbn in E. congruence.
Qed.

(** A job that was claimed, and another that is created after its work was started *)
Definition taken : world :=
  play [(true, 0, OCreate "" input1); (true, 1, OClaim "att" "token" "peer" None)] (mkWorld new_store 0).

Definition input2 : JobInput :=
  mkInput (Some (js "job_00000000-0000-4000-8000-000000000002")) "peer" (Some (js "work2"))
    (Some (js "space")) None "repo" "base" "propose_patch" "hash" "do it" [js "out/"] 600000 1000.

(** Then the lease of the first expires, and the peer asks for work. *)
Definition next_day (s : store) : world :=
  play [(true, 3, OCreate "" input2); (true, 100000, OReap 10)] (mkWorld s 2).

Lemma started_work_is_never_handed_out_again_witness :
  ∃ s1 job att s3 job2 att2,
    markStarted true "att" "token" "peer" 2 None (st taken) = (s1, Ok (job, att))
    ∧ claimNextJob true "att2" "token2" "peer" 100001 None (st (next_day s1)) = (s3, Ok (Some (job2, att2)))
    ∧ jobId job2 ≠ jobId job.
Proof.
  destruct (markStarted true "att" "token" "peer" 2 None (st taken)) as [s1 r] eqn:E.
  pose proof (f_equal (λ x, match x.2 with Ok (job, _) => status job | _ => pending end) E) as Ej.
  destruct r as [[job att]|]; [|vm_compute in Ej; discriminate Ej].
  assert (Hj : status job = running).
  { cbn [snd] in Ej. rewrite <- Ej. vm_compute. reflexivity. }
  destruct (claimNextJob true "att2" "token2" "peer" 100001 None (st (next_day s1))) as [s3 r3] eqn:E3.
  assert (Es : s1 = (markStarted true "att" "token" "peer" 2 None (st taken)).1) by (rewrite E; reflexivity).
  assert (Hr : match r3 with Ok (Some _) => true | _ => false end = true).
  { transitivity (match (claimNextJob true "att2" "token2" "peer" 100001 None (st (next_day s1))).2 with
                  Ok (Some _) => true | _ => false end); [rewrite E3; reflexivity|].
    rewrite Es. vm_compute. reflexivity. }
  destruct r3 as [[[job2 att2]|]|]; [|discriminate Hr..].
  exists s1, job, att, s3, job2, att2. split; [reflexivity|]. split; [exact E3|].
  apply (started_work_is_never_handed_out_again taken true "att" "token" "peer" 2 None s1 job att
           (next_day s1) true "att2" "token2" "peer" 100001 None s3 job2 att2).
  - apply play_is_reachable. vm_compute. reflexivity.
  - vm_compute. discriminate.
  - exact E.
  - exact Hj.
  - apply play_steps. rewrite Es. vm_compute. reflexivity.
  - rewrite Es. vm_compute. discriminate.
  - apply is_fresh_fresh. rewrite Es. vm_compute. reflexivity.
  - exact E3.
Defined.

(** ** Reports *)

(** The claim a report is made under *)
Definition claim_of (o : op) : option (jsstr * jsstr * jsstr) :=
  match o with
  | OStarted id token peer _ | ONotStarted id token peer | ORenew id token peer _
  | OComplete id token peer _ | OFail id token peer _ | OCancelAck id token peer =>
      Some (id, token, peer)
  | _ => None
  end.

(** The claim is the newest made of its job, as the tables have it. *)
Definition is_current (d : database) (id token peer : jsstr) : Prop :=
  ∃ row, by_key attemptId id (peer_job_attempts d) = Some row
         ∧ claimToken row = token ∧ claimOwnerPeerId row = peer
         ∧ generation row = length (attempts_of (a_jobId row) d).

(** Whoever passes the fence holds the newest claim. *)
Lemma fenced_stale (U : jsstr → jsstr → Prop) {A} id token peer (k : ref * ref → M A) s c :
  Inv U None s c → ¬ is_current (db s) id token peer →
  ∃ e, (fenced id token peer ≫= k) s = (s, Err e).
Proof.
  intros HI Hn. destruct (fenced id token peer s) as [s1 r] eqn:Hf.
  pose proof Hf as Hrun. eapply fenced_run in Hrun as [-> Hrun]; [|done].
  destruct r as [[lj la]|e]; [|by exists e; unfold mbind, M_bind; rewrite Hf]. destruct Hn.
  destruct (Hrun _ _ eq_refl) as (j & a & Hh & Hid & Ho & Ht). pose proof Hh as [].
  destruct (i_attempt HI _ _ h_attempt0) as (a' & row & Ha' & Hrow & Est & _).
  rewrite h_attempt_at0 in Ha'. injection Ha' as <-. injection Est as _ Ej Et Eo Eg.
  exists row. rewrite <- Hid. split; [done|]. rewrite (generation_count HI) in h_newest0.
  unfold count in h_newest0. split_and!; congruence.
Qed.

Lemma fmap_answer {A} (f : A → answer) (m : M A) s s' x :
  (f <$> m) s = (s', Ok x) → ∃ v, m s = (s', Ok v) ∧ x = f v.
Proof. unfold fmap, M_fmap. destruct (m s) as [s1 [v|e]]; [|done]. intros [= <- <-]. eauto. Qed.

(** C16: A report whose claim is not the newest of its job, another token's or another peer's, is
    refused and changes nothing, in memory or in the tables. *)
Theorem stale_reports_change_nothing w commits now o id token peer s' r :
  reachable w → claim_of o = Some (id, token, peer) → ¬ is_current (db (st w)) id token peer →
  exec commits now o (st w) = (s', r) → s' = st w ∧ ∃ e, r = Err e.
Proof.
  intros Hr%reachable_inv Ho Hn.
  assert (Hst : ∀ (A : Type) (k : ref * ref → M A),
    ∃ e, (fenced id token peer ≫= k) (st w) = (st w, Err e)) by (intros; by eapply fenced_stale).
  assert (Hfmap : ∀ (A : Type) (f : A → answer) (m : M A), (∃ e, m (st w) = (st w, Err e)) →
    (f <$> m) (st w) = (s', r) → s' = st w ∧ ∃ e, r = Err e).
  { intros A f m [e E]. unfold fmap, M_fmap. rewrite E. intros [= <- <-]. eauto. }
  destruct o; try done; injection Ho as -> -> ->; cbn [exec]; apply Hfmap; try apply Hst.
  unfold renewLease. rewrite bind_lift. destruct leaseMs as [ms|]; cbn [require]; [|by eexists].
  rewrite bind_lift. unfold reject. destruct (_ || _); [by eexists|apply Hst].
Qed.

(** The claim that was given back, and then made anew, fails the new one by an old token. *)
Lemma stale_reports_change_nothing_witness :
  let w := play [(true, 4, OClaim "att2" "token2" "peer" None)] given_back in
  let o := OFail "att2" "token" "peer" "late" in
  reachable w ∧ claim_of o = Some (js "att2", js "token", js "peer")
  ∧ (exec true 5 o (st w)).1 = st w ∧ ∃ e, (exec true 5 o (st w)).2 = Err e.
Proof.
  intros w o.
  assert (Hr : reachable w).
  { apply (play_is_reachable [(true, 0, OCreate "" input1); (true, 1, OClaim "att" "token" "peer" None);
        (true, 2, ONotStarted "att" "token" "peer"); (true, 3, OFail "att" "token" "peer" "");
        (true, 4, OClaim "att2" "token2" "peer" None)] 0). vm_compute. reflexivity. }
  split; [exact Hr|]. split; [reflexivity|].
  apply (stale_reports_change_nothing w true 5 o "att2" "token" "peer").
  - exact Hr.
  - reflexivity.
  - intros (row & Hrow & Ht & _).
    apply (f_equal (option_map claimToken)) in Hrow. cbn [option_map] in Hrow. rewrite Ht in Hrow.
    vm_compute in Hrow. discriminate Hrow.
  - apply surjective_pairing.
Defined.

(** C17: What a report is answered, the tables hold: the job and the attempt of the answer are their
    rows, the attempt has the claim it was reported under, and it was the newest of the job.  Only
    a result that is answered as known already is not written again. *)
Theorem answers_are_stored w commits now o id token peer s' x j a :
  reachable w → clock w ≤ now → claim_of o = Some (id, token, peer) →
  exec commits now o (st w) = (s', Ok x) → x ∈ [ABoth (j, a); ACompleted (j, a, false)] →
  by_key jobId (jobId j) (peer_jobs (db s')) = Some j
  ∧ by_key attemptId id (peer_job_attempts (db s')) = Some a
  ∧ claimToken a = token ∧ claimOwnerPeerId a = peer ∧ a_jobId a = jobId j
  ∧ generation a = length (attempts_of (jobId j) (db (st w))).
Proof.
  intros Hr%reachable_inv Hc Ho H Hx. apply (inv_clock _ _ _ now Hc) in Hr as HI.
  assert (Ha : answered (st w) s' id token peer (j, a)).
  { destruct o; try done; injection Ho as -> -> ->; cbn [exec] in H;
      apply fmap_answer in H as (v & E & ->);
      rewrite !elem_of_cons, elem_of_nil in Hx; destruct Hx as [[=]|[[=]|[]]]; subst v.
    - by eapply markStarted_answer.
    - by eapply markNotStarted_answer.
    - by eapply renewLease_answer.
    - by eapply completeAttempt_answer.
    - by eapply failAttempt_answer.
    - by eapply cancelAck_answer. }
  destruct Ha as [[Hj Hrow] Hst]. cbn in Hj, Hrow, Hst. injection Hst as <- ? <- <- ?. by split_and!.
Qed.

(** The report of the start of [taken] *)
Lemma answers_are_stored_witness :
  ∃ s' j a, exec true 2 (OStarted "att" "token" "peer" None) (st taken) = (s', Ok (ABoth (j, a)))
    ∧ by_key jobId (jobId j) (peer_jobs (db s')) = Some j
    ∧ by_key attemptId (js "att") (peer_job_attempts (db s')) = Some a ∧ a_jobId a = jobId j.
Proof.
  destruct (exec true 2 (OStarted "att" "token" "peer" None) (st taken)) as [s' r] eqn:E.
  pose proof (f_equal (λ x, match x.2 with Ok (ABoth _) => true | _ => false end) E) as Er.
  destruct r as [[|[j a]| | |]|]; try (vm_compute in Er; discriminate Er).
  exists s', j, a. split; [reflexivity|].
  destruct (answers_are_stored taken true 2 (OStarted "att" "token" "peer" None) "att" "token" "peer" s'
              (ABoth (j, a)) j a) as (Hj & Ha & _ & _ & Ho & _).
  - apply play_is_reachable. vm_compute. reflexivity.
  - vm_compute. discriminate.
  - reflexivity.
  - exact E.
  - left.
  - split; [exact Hj|]. split; [exact Ha|exact Ho].
Defined.

End PeerJobProperties.
